(* ===== verification/_CoqProject ===== *)
-Q . S2P
Prelude.v
BitSet.v
Slices.v
IrTypes.v
IrInst.v
Sample.v
Worklist.v
IrWalk.v
Floats.v
IrSem.v
Fpenv.v
Dominators.v
Postorder.v
Idoms.v
IdomExact.v
DomTree.v
NaturalLoops.v
DomFrontiers.v
Ssa.v
IrVerify.v
Lockstep.v
Prune.v
Stutter.v
DeadFunc.v
SimplifyCfg.v
JumpThread.v
WfEdit.v
Rename.v
ConstFold.v
ConstProp.v
StrengthReduce.v
Cse.v
Dce.v
PassLaws.v
SimplifyWf.v
PassManager.v
Pipeline.v
X86Mir.v
X86Liveness.v
X86LinearScan.v
X86AllocInv.v
X86AllocSafe.v
X86Apply.v
X86Sem.v
TwoAddr.v
X86Peephole.v
X86PeepPost.v
X86PeepSlots.v
X86PeepRun.v
X86PeepPre.v
X86Emit.v
X86Shape.v
X86Ready.v
X86Backend.v
X86Labels.v
ArmMir.v
ArmText.v
ArmEmit.v
ArmEmitEq.v
ArmImm.v
ArmPrologue.v
RelaxBranches.v
RelaxFlat.v
RelaxPrint.v
RelaxTotal.v
RelaxSem.v
Tokens.v
DepScan.v
AstExpr.v
Parser.v
ParseExpr.v
ParseTotal.v
ParseGrammar.v
ParseComplete.v
