(* ===== verification/Prelude.v ===== *)
(** * A verification library for armfortas

    armfortas is a Fortran compiler written in Rust.  A front end (preprocess, lexer,
    parser, sema) checks a program, [ir/lower] turns it into a module of SSA functions,
    an optimizer ([opt/]) rewrites the module, a backend ([codegen/]) selects machine
    instructions, allocates registers and prints assembly, and generated code calls a
    runtime library.  This library models parts of the front of that chain, its middle and
    its ends: the order in which the driver compiles the files of a build, the
    expression parser, the IR and its verifier, the analyses and passes of the optimizer
    with the manager that drives them, the x86-64 machine IR with everything between
    instruction selection and printing, and the AArch64 machine IR with branch relaxation
    and printing.

    All definitions are executable Rocq functions, one per Rust function or loop.
    A panic ([unwrap], an index out of range, an explicit [panic!]) is [None], an error
    value is the left of a sum or a list of errors, machine integers are [Z] or [N] with
    their wrap-around written out ([swrap], [u32]), a [HashMap] is a [gmap], and a loop
    that runs to a fixed point is a [Fixpoint] with fuel.  Where the code walks a hash
    map, the order is an argument of the definition ([entries], [keys]) and the theorems
    quantify over it.

    ** Files and the code they model

    - [Prelude]: notations, hint databases ([ir], [width]), tactics, lemmas on lists,
      options and machine integers.  [BitSet]: the [u64]-word bit sets of the dataflow
      solvers.  [Worklist]: the breadth-first closure loop.  [Slices]: methods of slices,
      vectors and iterators.  [Sample]: concrete functions for examples.
    - [IrTypes] (src/src/ir/types.rs, src/src/target.rs): types, sizes with overflow
      errors, targets and layouts.  [IrInst] (src/src/ir/inst.rs): instructions,
      terminators, blocks, functions with their index caches, modules.
      [IrWalk] (src/src/ir/walk.rs): uses, operand rewriting, CFG queries, pruning.
    - [Dominators] (src/src/ir/walk.rs): the bit-set dominator solver.  [Postorder],
      [Idoms] and [IdomExact]: the direct computation of immediate dominators.
      [DomTree], [NaturalLoops], [DomFrontiers]: the dominator tree with its intervals and
      preorder, natural loops, dominance frontiers.
    - [IrVerify] (src/src/ir/verify.rs): the whole verifier.  [Ssa]: what its acceptance
      means.
    - [Floats], [IrSem]: binary64 values, and a reference semantics of the IR.
    - [Fpenv], [ConstFold], [ConstProp], [StrengthReduce], [Cse], [Dce], [Prune],
      [SimplifyCfg], [JumpThread] and [DeadFunc]: the passes of src/src/opt with those names.
      [Lockstep], [Rename], [WfEdit]: the proof principles they share; [Stutter]: that of
      the passes that change the shape of the CFG, a simulation in which the source may take
      steps of its own.  [SimplifyWf]: CFG simplification keeps functions well-formed.
    - [PassLaws], [PassManager] (src/src/opt/pass.rs), [Pipeline]
      (src/src/opt/pipeline.rs): a pass as a record with laws, the fixpoint driver,
      levels and their pass lists.
    - [X86Mir], [X86Liveness], [X86LinearScan], [X86Apply], [TwoAddr], [X86Peephole],
      [X86Emit], [X86Backend] (mir.rs, liveness.rs, linearscan.rs with
      regalloc.rs, twoaddr.rs, peephole.rs and emit.rs of src/src/codegen/x86, and
      src/src/codegen/mod.rs): machine IR, liveness and intervals, linear scan,
      rewriting with frame layout and the naive allocator, two-address conversion,
      peephole patterns, the printer and the driver.  [X86AllocInv] and [X86AllocSafe]
      prove the allocator, [X86PeepPost], [X86PeepSlots], [X86PeepRun] and [X86PeepPre]
      the patterns, [X86Shape] that every pass keeps the operands of an opcode in the shape the
      printer expects, [X86Ready] that [selected], what the backend takes from instruction selection,
      lasts to the pass that needs it, [X86Labels] the labels of a module.
    - [X86Sem]: runs of machine IR over an abstract machine.
    - [ArmMir], [ArmText], [ArmEmit], [RelaxBranches] (mir.rs, emit.rs and
      relax_branches.rs of src/src/codegen/arm64): the AArch64 machine IR with stack
      frames, the text of operands and immediates, the printer, branch relaxation.
      [ArmEmitEq] compares the two printers of emit.rs, [ArmImm] reads printed lines back
      as machine lines with an effect, [ArmPrologue] does so for prologues and
      epilogues.  [RelaxFlat] is laid-out code and one rewrite of it, [RelaxPrint] what
      the pass needs of the printer, [RelaxTotal] its convergence, [RelaxSem] runs of
      laid-out code.
    - [Tokens] (src/src/lexer/mod.rs), [DepScan] (src/src/driver/dep_scan.rs): the module
      definitions and uses of a file and the compilation order.
    - [AstExpr] (src/src/ast/expr.rs), [Parser] (src/src/parser/mod.rs), [ParseExpr]
      (src/src/parser/expr.rs, and the type specifiers of decl.rs): the parser state as a
      record, its primitives in a state and error monad, and the expression parser.  The
      mutually recursive functions of the source are the constructors of a type of calls, each with its
      body.  [ParseTotal] proves that they terminate, [ParseGrammar] is the grammar,
      [ParseComplete] that the parser reads it.

    ** What the theorems show

    - Verifier: an accepted function is in SSA form, its branches land, its operand types
      agree ([verify_function_sound], [verified_well_typed]); runs of an accepted module
      read only defined values ([verified_reads_defined]), but for results of procedures
      that have none, which the verifier lets through ([void_result_read]); the dominance
      check is exact ([check_use_exact]), because the solver is ([dominator_info_exact]).
    - Control flow: immediate dominators are exact ([immediate_dominators_exact]) and equal
      to the reference from full sets, the intervals answer as the bit sets do
      ([interval_dominance_equiv]), the preorder puts dominators first
      ([dominator_tree_preorder_correct]), loops and frontiers are those of their
      definitions ([natural_loops_exact], [dominance_frontiers_exact]).
    - Passes: each leaves the runs of every procedure of a module unchanged or, for dead
      code elimination, keeps their definite results ([const_fold_preserves],
      [const_prop_preserves], [strength_reduce_preserves], [local_cse_preserves],
      [dce_preserves], [prune_unreachable_preserves]), ends ([dce_total]), and does
      its work ([dce_complete], [dce_info_exact]).  CFG simplification ends and keeps
      definite results ([simplify_cfg_preserves]) and endless runs
      ([simplify_cfg_diverges]).  Jump threading does not panic and keeps both when its
      rounds end and no action of a plan leads to the join of another on its terminator,
      and its rounds end when the empty joins can be ranked ([jump_thread_preserves]);
      otherwise it can replace the wrong edge ([jump_thread_wrong_arm]) or run forever
      ([jump_thread_spins]).  Dead-function elimination keeps what can be reached and runs
      it under the new index exactly as before ([dead_func_preserves]).
    - Pass manager: any selection of five verified passes in any order refines the
      module ([optimizer_preserves]) and keeps it well-formed
      ([verified_passes_keep]); success is a fixed point ([optimizer_fixed_point]); a run
      is a sequence of rounds that ends with the first quiet one, or fails after exactly
      the limit and names the passes that changed the module in the last one
      ([manager_outcome]).
    - Register allocation: liveness is exact ([liveness_exact]), intervals cover it
      ([intervals_sound]), never puts two live
      values in one place ([allocation_no_conflict]) nor a value in a register that is
      named or clobbered or still holds an argument to be received
      ([allocation_avoids_fixed]), rewriting never panics and leaves
      no virtual register ([allocation_applies]), frames are aligned and slots disjoint
      ([frame_layout_sound]).
    - Two-address conversion and the peephole patterns leave runs unchanged
      ([two_address_preserves], [peephole_pre_preserves], [peephole_post_preserves]).
    - The backend: on [selected] functions the passes compose and
      nothing panics, up to the assembly text ([backend_total]); the stack is probed
      page by page ([prologue_probes]); the labels of a module with its globals and its
      main program are distinct when its symbols are, under a further
      condition on the procedure names ([labels_distinct]) that names in a program can
      fail ([label_clash]).
    - AArch64: frames are aligned with disjoint slots ([arm_frame_sound]); branch
      relaxation never panics, ends within its structural bound and leaves every local
      branch in reach, in the sizes that the printer gives ([relaxation_converges]), and
      it leaves runs unchanged up to x16 ([relaxation_preserves]); the buffered printer
      prints what the canonical one returns ([common_printer_canonical]), and printed
      immediates, addresses, prologues and epilogues compute what their instructions
      stand for with encodable fields ([immediate_arithmetic_correct],
      [memory_access_address], [prologue_epilogue]).
    - Building: the compilation order is a topological order of all files, or an error
      that names two definitions of a module or exactly the files that depend on a cycle
      ([compilation_order_correct]); the scan of the tokens of a file finds exactly the
      modules that its statements use and define, and a definition precedes its uses
      ([definition_before_use]).
    - Expressions: the parser terminates on every sequence of [lexed] tokens and restores
      its counters ([parse_expression_total]), gives back every tree from every spelling of
      it in a grammar with its own table of precedences ([parser_reads_grammar]), and that
      grammar is unambiguous ([grammar_unambiguous]).

    ** Semantics and hypotheses

    The IR semantics ([IrSem]) runs a module under a [Host], the interpretation of
    memory, calls to the runtime and the operations the compiler leaves to the target;
    values are integers, booleans, binary64 numbers and opaque words.  A theorem about a
    pass names what it needs of the host as a class: [FoldHost] (the target agrees with
    the compiler on [pow], and on the conversion of 2^63, which the folder admits),
    [DivHost] ([MIN / -1] wraps if it has a value), [CommHost] (comparisons and logical
    operators commute on the values the scalar rules leave to the host), [FrameHost] (a
    return releases the callee's frame, [host_leave], and what was written to the slots of
    the frame goes with it; [stack_host] is a target with a stack of values that
    satisfies all of them).  The
    floating-point environment is explicit: the functions [Fpenv] marks as dynamic run in an arbitrary
    environment, the others in the default one; the pass-manager theorem starts in the
    default environment.  [refines true] compares all outcomes, [refines false] those
    that are definite.

    Machine IR runs over a [Machine]: what an opcode computes is a parameter, and each
    theorem names the laws of the instruction set it rests on: [TieLaws] (moves copy,
    commutative opcodes commute), [FlagLaws] (only readers depend on flags),
    [FoldLaws] ([lea] of two registers adds, [xor] of a register with itself is zero),
    [SlotLaws] (frame slots are memory) and [PreLaws] ([test] compares with zero).
    [int_machine] of [X86Sem] satisfies them and is what witnesses run.

    Laid-out AArch64 code runs over an [ArmMachine]; [RelaxLaws] says that inverse
    conditions are complementary and that instructions which neither read nor write x16
    do not depend on it.

    What a pass may expect of its input is a predicate: [relax_ready] and [relax_code] for relaxation, [alloc_ready], [rewrite_ready],
    [two_address_ready], [pre_ready], [post_ready], and [selected] for the whole backend.
    The parser expects [lexed] tokens (at least one, BOZ literals not empty, keyword texts
    only on identifiers, comments and directives).  The others are conditions
    on the functions that instruction selection hands over (numbered slots, ids below the counters, positions that fit in a
    [u32]), and each witness shows a function that satisfies them.

    ** Fuel and bounds

    Dominators iterate at most once per bit of all rows, liveness likewise
    ([live_fuel]); immediate dominators sweep at most once per pair of blocks, since each
    change moves a pointer towards the entry; the linear scan visits at most two intervals per virtual register;
    worklists run once per node; dead-code elimination once per instruction and block
    parameter; the expression parser makes at most ten calls per token; branch relaxation makes one pass more
    than twice its conditional and once its unconditional branches; each loop of CFG
    simplification takes one round per block; each of these is proved to be enough, so no theorem has running out of
    fuel as a silent case.  The rounds of jump threading alone take a budget, because they
    need not end: its theorem bounds them for ranked joins and is otherwise about the
    runs in which they do.  [run_function] and the IR runs take fuel as the length of the
    run: an outcome [Running] or a pending result is compared like any other.

    ** Not modelled

    Preprocessing and lexing; statements, declarations and program units; semantic
    analysis and [ir/lower] (a language definition of Fortran would be needed to
    state what they preserve); instruction selection and its calling convention (a
    parameter of the backend); register allocation, peephole patterns and tail calls of the
    AArch64 backend; memory, loop, vector and
    the other interprocedural passes ([mem2reg], [licm], [inline] and others); the runtime library
    and the rest of the driver (I/O).  The next steps are the call graph
    and inlining, and the simulation of an allocated function by the function it came from. *)

From stdpp Require Export base gmap sets list strings numbers.
From Stdlib Require Export ZArith Lia.
Set Default Goal Selector "!".

#[global] Arguments Nat.div : simpl never.
#[global] Arguments Nat.modulo : simpl never.
#[global] Arguments Z.pow : simpl never.
#[global] Arguments Z.modulo : simpl never.
#[global] Arguments Z.div : simpl never.

(** * Hint databases and tactics *)

Create HintDb ir discriminated.
Create HintDb width.

(** Case analysis on the first [match] or [if] scrutinee of a hypothesis or of
    the goal, keeping the equation. *)
Ltac case_in H :=
  match type of H with
  | context [match ?x with _ => _ end] => destruct x eqn:?
  end.

Ltac inv_clear H := inversion H; subst; clear H.

(** Split every boolean test of the context into the proposition it decides. *)
Ltac bool_props :=
  repeat match goal with
  | H : (_ && _) = true |- _ => apply andb_prop in H; destruct H
  | H : negb _ = true |- _ => apply negb_true_iff in H
  | H : negb _ = false |- _ => apply negb_false_iff in H
  | H : (_ <=? _)%Z = true |- _ => apply Z.leb_le in H
  | H : (_ <=? _)%Z = false |- _ => apply Z.leb_gt in H
  | H : (_ <? _)%Z = true |- _ => apply Z.ltb_lt in H
  | H : (_ <? _)%Z = false |- _ => apply Z.ltb_ge in H
  | H : (_ =? _)%Z = true |- _ => apply Z.eqb_eq in H
  | H : (_ =? _)%Z = false |- _ => apply Z.eqb_neq in H
  | H : bool_decide _ = true |- _ => apply bool_decide_eq_true in H
  | H : bool_decide _ = false |- _ => apply bool_decide_eq_false in H
  end.

(** * Machine integers

    An [n]-bit two's-complement integer is a [Z] between [-2^(n-1)] and
    [2^(n-1) - 1]; [swrap n] is the wrap-around of Rust's [wrapping_*]
    operations and of casts to a signed [n]-bit type. *)

Definition swrap (n z : Z) : Z := (z + 2 ^ (n - 1)) mod 2 ^ n - 2 ^ (n - 1).

Definition srange (n z : Z) : Prop := (- 2 ^ (n - 1) <= z < 2 ^ (n - 1))%Z.

Definition in_srange (n z : Z) : bool :=
  ((- 2 ^ (n - 1) <=? z) && (z <? 2 ^ (n - 1)))%Z.

Section swrap_lemmas.
Local Open Scope Z_scope.
Context (n : Z) (Hn : 0 < n).

Lemma pow2_split : 2 ^ n = 2 * 2 ^ (n - 1).
Proof. rewrite <- Z.pow_succ_r by lia. f_equal. lia. Qed.

Lemma pow2_half_pos : 0 < 2 ^ (n - 1).
Proof. apply Z.pow_pos_nonneg; lia. Qed.

Lemma swrap_range z : srange n (swrap n z).
Proof.
unfold srange, swrap. pose proof pow2_split. pose proof pow2_half_pos.
pose proof (Z.mod_pos_bound (z + 2 ^ (n - 1)) (2 ^ n) ltac:(lia)). lia.
Qed.

Lemma swrap_id z : srange n z -> swrap n z = z.
Proof.
unfold srange, swrap. pose proof pow2_split. pose proof pow2_half_pos.
intros ?. rewrite Z.mod_small by lia. lia.
Qed.

Lemma swrap_mod z : swrap n z mod 2 ^ n = z mod 2 ^ n.
Proof.
unfold swrap. rewrite Zminus_mod_idemp_l. f_equal. lia.
Qed.

Lemma swrap_eq_mod a b : a mod 2 ^ n = b mod 2 ^ n -> swrap n a = swrap n b.
Proof.
intros E. unfold swrap. f_equal.
rewrite <- (Zplus_mod_idemp_l a), <- (Zplus_mod_idemp_l b). by rewrite E.
Qed.

Lemma swrap_idem z : swrap n (swrap n z) = swrap n z.
Proof. apply swrap_id, swrap_range. Qed.

Lemma swrap_mod_r z : swrap n (z mod 2 ^ n) = swrap n z.
Proof. apply swrap_eq_mod. apply Zmod_mod. Qed.

Lemma swrap_add_l a b : swrap n (swrap n a + b) = swrap n (a + b).
Proof.
apply swrap_eq_mod. rewrite <- Zplus_mod_idemp_l, swrap_mod.
apply Zplus_mod_idemp_l.
Qed.

Lemma swrap_add_r a b : swrap n (a + swrap n b) = swrap n (a + b).
Proof. rewrite Z.add_comm, swrap_add_l. f_equal. lia. Qed.

Lemma swrap_mul_l a b : swrap n (swrap n a * b) = swrap n (a * b).
Proof.
apply swrap_eq_mod. rewrite <- Zmult_mod_idemp_l, swrap_mod.
apply Zmult_mod_idemp_l.
Qed.

Lemma swrap_mul_r a b : swrap n (a * swrap n b) = swrap n (a * b).
Proof. rewrite Z.mul_comm, swrap_mul_l. f_equal. lia. Qed.

Lemma swrap_opp a : swrap n (- swrap n a) = swrap n (- a).
Proof.
pose proof (swrap_mul_r (-1) a).
replace (- swrap n a) with (-1 * swrap n a) by lia.
replace (- a) with (-1 * a) by lia. done.
Qed.

Lemma in_srange_spec z : in_srange n z = true <-> srange n z.
Proof. unfold in_srange, srange. rewrite andb_true_iff, Z.leb_le, Z.ltb_lt. done. Qed.
End swrap_lemmas.

(** A wider wrap followed by a narrower one is the narrower one. *)
Lemma swrap_narrow n m z : (0 < n <= m)%Z -> swrap n (swrap m z) = swrap n z.
Proof.
  intros [Hn Hm]. apply swrap_eq_mod.
  assert (2 ^ m = 2 ^ n * 2 ^ (m - n))%Z as Em.
  { rewrite <- Z.pow_add_r by lia. f_equal. lia. }
  assert (0 < 2 ^ n)%Z by (apply Z.pow_pos_nonneg; lia).
  assert (0 < 2 ^ (m - n))%Z by (apply Z.pow_pos_nonneg; lia).
  transitivity (((swrap m z) mod 2 ^ m) mod 2 ^ n)%Z.
  - symmetry. apply Z.mod_mod_divide. exists (2 ^ (m - n))%Z. lia.
  - rewrite swrap_mod by lia. apply Z.mod_mod_divide. exists (2 ^ (m - n))%Z. lia.
Qed.

Lemma srange_mono n m z : (0 < n <= m)%Z -> srange n z -> srange m z.
Proof.
  unfold srange. intros ? ?.
  pose proof (Z.pow_le_mono_r 2 (n - 1) (m - 1) ltac:(lia) ltac:(lia)). lia.
Qed.

(** Two's-complement bits: [swrap n] keeps the low [n - 1] bits and repeats
    bit [n - 1] above them. *)
Lemma swrap_testbit n z i :
  (0 < n)%Z -> (0 <= i)%Z ->
  Z.testbit (swrap n z) i = Z.testbit z (Z.min i (n - 1)).
Proof.
  intros Hn Hi.
  assert (Hlow : forall j, (0 <= j < n)%Z -> Z.testbit (swrap n z) j = Z.testbit z j).
  { intros j Hj. rewrite <- (Z.mod_pow2_bits_low (swrap n z) n j) by lia.
    rewrite swrap_mod by lia. apply Z.mod_pow2_bits_low. lia. }
  destruct (Z.lt_ge_cases i n).
  - rewrite Z.min_l by lia. apply Hlow. lia.
  - rewrite Z.min_r by lia. rewrite <- (Hlow (n - 1)%Z) by lia.
    pose proof (swrap_range n Hn z) as Hr. unfold srange in Hr.
    assert (Hs : Z.shiftr (swrap n z) (n - 1) = 0%Z \/ Z.shiftr (swrap n z) (n - 1) = (-1)%Z).
    { rewrite Z.shiftr_div_pow2 by lia.
      pose proof (pow2_half_pos n Hn).
      destruct (Z.lt_ge_cases (swrap n z) 0).
      - right. symmetry. apply (Z.div_unique_pos _ _ _ (swrap n z + 2 ^ (n - 1))); lia.
      - left. apply Z.div_small. lia. }
    assert (Hb : forall j, (n - 1 <= j)%Z ->
              Z.testbit (swrap n z) j = Z.testbit (Z.shiftr (swrap n z) (n - 1)) (j - (n - 1))).
    { intros j Hj. rewrite Z.shiftr_spec by lia. f_equal. lia. }
    rewrite !Hb by lia. destruct Hs as [-> | ->].
    + by rewrite !Z.bits_0.
    + rewrite !Z.bits_m1 by lia. done.
Qed.

(** Shifting left to the top of an [n]-bit word and back keeps the low [bits]
    bits, sign-extended. *)
Lemma shl_shr_swrap n bits v :
  (0 < bits <= n)%Z -> Z.shiftr (swrap n (Z.shiftl v (n - bits))) (n - bits) = swrap bits v.
Proof.
  intros Hb. rewrite Z.shiftl_mul_pow2 by lia.
  assert (E : (swrap n (v * 2 ^ (n - bits)) = swrap bits v * 2 ^ (n - bits))%Z).
  { unfold swrap.
    replace (2 ^ (n - 1))%Z with (2 ^ (bits - 1) * 2 ^ (n - bits))%Z
      by (rewrite <- Z.pow_add_r by lia; f_equal; lia).
    replace (2 ^ n)%Z with (2 ^ bits * 2 ^ (n - bits))%Z by (rewrite <- Z.pow_add_r by lia; f_equal; lia).
    rewrite <- Z.mul_add_distr_r, Z.mul_mod_distr_r, Z.mul_sub_distr_r; [done | |];
      apply Z.pow_nonzero; lia. }
  rewrite E, Z.shiftr_div_pow2, Z.div_mul by (lia || (apply Z.pow_nonzero; lia)). done.
Qed.

#[export] Hint Resolve swrap_range swrap_id srange_mono : width.

(** * Lists *)

Lemma NoDup_fmap_inj_on {A B} (f : A -> B) (l : list A) x y :
  NoDup (f <$> l) -> x ∈ l -> y ∈ l -> f x = f y -> x = y.
Proof.
  induction l as [|a l IH]; intros Hnd Hx Hy E; [by apply not_elem_of_nil in Hx|].
  rewrite fmap_cons, list.NoDup_cons in Hnd. destruct Hnd as [Ha Hnd].
  rewrite elem_of_cons in Hx, Hy.
  destruct Hx as [-> | Hx], Hy as [-> | Hy]; [done | | | by apply IH].
  - exfalso. apply Ha. rewrite E. by apply list_elem_of_fmap_2.
  - exfalso. apply Ha. rewrite <- E. by apply list_elem_of_fmap_2.
Qed.

(** Filtering by a stronger predicate that drops some kept element is strictly shorter. *)
Lemma length_filter_mono {A} (P Q : A -> Prop) `{!forall x, Decision (P x), !forall x, Decision (Q x)} (l : list A) :
  (forall x, P x -> Q x) -> length (filter P l) <= length (filter Q l).
Proof.
  intros HPQ. induction l as [|y l IH]; [done|]. rewrite !filter_cons.
  repeat case_decide; simpl; try lia. exfalso. auto.
Qed.

Lemma length_filter_mono_lt {A} (P Q : A -> Prop) `{!forall x, Decision (P x), !forall x, Decision (Q x)} (l : list A) x :
  (forall y, P y -> Q y) -> x ∈ l -> Q x -> ~ P x -> length (filter P l) < length (filter Q l).
Proof.
  intros HPQ Hx HQ HP. induction l as [|y l IH]; [by apply not_elem_of_nil in Hx|].
  pose proof (length_filter_mono P Q l HPQ). rewrite !filter_cons.
  apply elem_of_cons in Hx as [<-|Hx].
  - rewrite decide_False, decide_True by done. simpl. lia.
  - specialize (IH Hx). repeat case_decide; simpl; try lia. exfalso. auto.
Qed.

Lemma foldl_fmap {A B C} (g : A -> B) (h : C -> B -> C) (l : list A) c :
  foldl h c (g <$> l) = foldl (fun c x => h c (g x)) c l.
Proof. revert c. induction l as [|x l IH]; intros c; [done|]. apply IH. Qed.

(** A map filled from a list of bindings with distinct keys. *)
Lemma foldl_insert_elem {A} (l : list (N * A)) (m : gmap N A) v a :
  NoDup l.*1 ->
  foldl (fun m p => <[p.1 := p.2]> m) m l !! v = Some a <->
    (v, a) ∈ l \/ (v ∉ l.*1 /\ m !! v = Some a).
Proof.
  revert m. induction l as [|[x t] l IH]; intros m Hnd; simpl.
  - split; [intros H; right; split; [apply not_elem_of_nil | done] |].
    intros [H|[_ H]]; [by apply not_elem_of_nil in H | done].
  - apply list.NoDup_cons in Hnd as [Hx Hnd]. rewrite IH by done.
    rewrite elem_of_cons, not_elem_of_cons. destruct (decide (v = x)) as [->|Hne].
    + rewrite lookup_insert_eq. split.
      * intros [H|[_ H]]; [left; by right|]. simplify_eq. left. by left.
      * intros [[H|H]|[[? _] _]]; [simplify_eq; by right | by left | done].
    + rewrite lookup_insert_ne by done. split.
      * intros [H|[H1 H2]]; [left; by right | by right].
      * intros [[H|H]|[[_ H1] H2]]; [simplify_eq | by left | by right].
Qed.

Lemma foldl_union_elem {A} (g : A -> N) (l : list A) (s : gset N) v :
  v ∈ foldl (fun s x => {[g x]} ∪ s) s l <-> v ∈ s \/ v ∈ (g <$> l).
Proof.
  revert s. induction l as [|x l IH]; intros s; simpl; [set_solver|].
  rewrite IH, elem_of_cons. set_solver.
Qed.

Lemma bind_nil_iff {A B} (g : A -> list B) (l : list A) : l ≫= g = [] <-> Forall (fun x => g x = []) l.
Proof.
  induction l as [|x l IH]; [split; [constructor | done]|].
  rewrite bind_cons, Forall_cons_iff, <- IH. split; [apply app_nil | intros [-> ->]; done].
Qed.

Lemma filter_same_length {A} (P : A -> Prop) `{!forall x, Decision (P x)} (l : list A) :
  length (filter P l) = length l -> filter P l = l.
Proof.
  induction l as [|x l IH]; [done|]. pose proof (list.length_filter P l). rewrite filter_cons.
  case_decide; simpl; intros E; [by rewrite IH by lia | lia].
Qed.

Lemma list_find_filter {A} (P Q : A -> Prop) `{!forall x, Decision (P x), !forall x, Decision (Q x)} (l : list A) :
  (forall x, x ∈ l -> P x -> Q x) -> snd <$> list_find P (filter Q l) = snd <$> list_find P l.
Proof.
  induction l as [|x l IH]; intros HPQ; [done|].
  assert (IH' := IH (fun y Hy => HPQ y (list_elem_of_further _ _ _ Hy))). clear IH.
  rewrite filter_cons. destruct (decide (P x)) as [HP|HP].
  - rewrite decide_True by (apply HPQ; [left | done]). simpl. by rewrite !decide_True.
  - assert (Hsnd : forall m : option (nat * A), snd <$> (prod_map S id <$> m) = snd <$> m) by (by intros [[? ?]|]).
    destruct (decide (Q x)); simpl; rewrite ?(decide_False (P := P x)) by done; by rewrite ?Hsnd.
Qed.

Lemma list_find_ext_in {A} (P Q : A -> Prop) `{!forall x, Decision (P x), !forall x, Decision (Q x)} (l : list A) :
  Forall (fun x => P x <-> Q x) l -> list_find P l = list_find Q l.
Proof.
  induction 1 as [|x l Hx _ IH]; [done|]. simpl. rewrite (decide_ext _ _ _ _ Hx). by rewrite IH.
Qed.

Lemma filter_chunks {A} (P : A -> Prop) `{!forall x, Decision (P x)} (l : list A) :
  filter P l = mjoin ((fun x => if decide (P x) then [x] else []) <$> l).
Proof.
  induction l as [|x l IH]; [done|]. rewrite filter_cons, fmap_cons, IH. cbn [mjoin list_join]. by case_decide.
Qed.

Lemma mapM_zip_seq {A B} (g : nat * A -> option B) (l : list A) (rs : list B) :
  mapM g (zip (seq 0 (length l)) l) = Some rs ->
  length rs = length l /\ forall n x, l !! n = Some x -> exists r, g (n, x) = Some r /\ rs !! n = Some r.
Proof.
  intros H. apply mapM_Some in H. pose proof H as Hlen. apply Forall2_length in Hlen.
  rewrite length_zip_with, length_seq, Nat.min_id in Hlen. split; [done|]. intros n x Hx.
  assert (Hz : zip (seq 0 (length l)) l !! n = Some (n, x)).
  { rewrite lookup_zip_with, lookup_seq_lt by (by eapply lookup_lt_Some). simpl. by rewrite Hx. }
  destruct (Forall2_lookup_l _ _ _ _ _ H Hz) as (r & Hr & Hg). eauto.
Qed.

(** A map over a list that reports no change anywhere has changed nothing. *)
Lemma unchanged_map {A} (rs : list (A * bool)) (l : list A) :
  length rs = length l -> existsb snd rs = false ->
  (forall n x x', l !! n = Some x -> rs !! n = Some (x', false) -> x' = x) -> rs.*1 = l.
Proof.
  intros Hlen Hex H. apply list_eq. intros n. rewrite list_lookup_fmap.
  destruct (rs !! n) as [[x' ch]|] eqn:E; simpl.
  - assert (is_Some (l !! n)) as [x Hx] by (apply lookup_lt_is_Some; rewrite <- Hlen; by eapply lookup_lt_Some).
    destruct ch.
    + exfalso. assert (Ht : existsb snd rs = true); [|congruence]. apply existsb_exists. exists (x', true).
      split; [|done]. apply list_elem_of_In. by eapply list_elem_of_lookup_2.
    + by rewrite Hx, (H n x x' Hx E).
  - apply lookup_ge_None in E. symmetry. apply lookup_ge_None. lia.
Qed.

(** * Positions *)

(** Positions of identifiers in a list: the map the code collects from [enumerate];
    a later duplicate wins. *)
Definition index_of (ids : list N) : gmap N nat :=
  foldl (fun m p => <[p.2 := p.1]> m) ∅ (zip (seq 0 (length ids)) ids).

Lemma foldl_index_lookup (l : list (nat * N)) (m : gmap N nat) id i :
  NoDup l.*2 ->
  foldl (fun m p => <[p.2 := p.1]> m) m l !! id = Some i <->
    (i, id) ∈ l \/ (id ∉ l.*2 /\ m !! id = Some i).
Proof.
  revert m. induction l as [|[j x] l IH]; intros m Hnd; simpl.
  - split; [intros H; right; split; [apply not_elem_of_nil | done] |].
    intros [H|[_ H]]; [by apply not_elem_of_nil in H | done].
  - apply list.NoDup_cons in Hnd as [Hx Hnd]. rewrite IH by done.
    rewrite elem_of_cons, not_elem_of_cons.
    destruct (decide (id = x)) as [->|Hne].
    + rewrite lookup_insert_eq. split.
      * intros [H|[_ H]]; [left; by right|]. simplify_eq. left. by left.
      * intros [[H|H]|[[? _] _]]; [simplify_eq; by right | by left | done].
    + rewrite lookup_insert_ne by done. split.
      * intros [H|[H1 H2]]; [left; by right | by right].
      * intros [[H|H]|[[_ H1] H2]]; [simplify_eq | by left | by right].
Qed.

Lemma elem_of_zip_seq {A} (l : list A) k i x : (i, x) ∈ zip (seq k (length l)) l <-> (k <= i)%nat /\ l !! (i - k)%nat = Some x.
Proof.
  revert k. induction l as [|a l IH]; intros k; simpl.
  - rewrite lookup_nil. split; [intros H; by apply not_elem_of_nil in H | by intros [_ ?]].
  - rewrite elem_of_cons, IH. split.
    + intros [[= -> ->]|[Hle Hi]]; [rewrite Nat.sub_diag; done|].
      split; [lia|]. replace (i - k)%nat with (S (i - S k)) by lia. done.
    + intros [Hle Hi]. destruct (decide (i = k)) as [->|Hne].
      * left. rewrite Nat.sub_diag in Hi. simpl in Hi. by simplify_eq.
      * right. split; [lia|]. replace (i - k)%nat with (S (i - S k)) in Hi by lia. done.
Qed.

Lemma index_of_spec ids id i : NoDup ids -> index_of ids !! id = Some i <-> ids !! i = Some id.
Proof.
  intros Hnd. unfold index_of.
  assert (Hz : (zip (seq 0 (length ids)) ids).*2 = ids) by (apply snd_zip; rewrite length_seq; lia).
  rewrite foldl_index_lookup by (by rewrite Hz). rewrite Hz, elem_of_zip_seq, Nat.sub_0_r, lookup_empty.
  split; [intros [[_ H]|[_ H]]; done | intros H; left; split; [lia|done]].
Qed.
