(* ===== verification/BitSet.v ===== *)
(** Bit sets of [u64] words, as the dominator solver (src/src/ir/walk.rs) and the
    liveness analyses (src/src/codegen/x86/liveness.rs) keep them, and tables of
    such rows. *)

From S2P Require Import Prelude.
From stdpp Require Import list.

Definition bit_word_count (bits : nat) : nat := (bits + 63) / 64.

Definition set_bit (ws : list N) (i : nat) : list N :=
  alter (fun w => N.lor w (N.shiftl 1 (N.of_nat (i mod 64)))) (i / 64)%nat ws.

Definition bit_is_set (ws : list N) (i : nat) : bool :=
  match ws !! (i / 64)%nat with
  | Some w => negb (N.land w (N.shiftl 1 (N.of_nat (i mod 64))) =? 0)%N
  | None => false
  end.

Definition and_bits_into (dst src : list N) : list N := zip_with N.land dst src.

(** [LiveSet::remove]: the word is masked with the complement of the bit. *)
Definition clear_bit (ws : list N) (i : nat) : list N :=
  alter (fun w => N.ldiff w (N.shiftl 1 (N.of_nat (i mod 64)))) (i / 64)%nat ws.

(** [LiveSet::union_with]. *)
Definition or_bits_into (dst src : list N) : list N := zip_with N.lor dst src.

(** [u64::trailing_zeros] of a nonzero word. *)
Fixpoint pos_ctz (p : positive) : nat :=
  match p with
  | xO p' => S (pos_ctz p')
  | _ => 0
  end.

(** [LiveSetIter]: within a word, the lowest set bit is returned and cleared by
    [w & (w - 1)]; [fuel] bounds the 64 bits. *)
Fixpoint word_bits (fuel base : nat) (w : N) : list nat :=
  match fuel, w with
  | S fuel', N.pos p => (base + pos_ctz p)%nat :: word_bits fuel' base (N.land w (w - 1))
  | _, _ => []
  end.

Definition live_iter (ws : list N) : list nat :=
  mjoin (imap (fun k w => word_bits 64 (k * 64) w) ws).

(** A row of a table. *)
Definition row (D : list (list N)) (i : nat) : list N := default [] (D !! i).

(** * Facts about the bit sets *)

Lemma testbit_land_pow2 w k : negb (N.land w (N.shiftl 1 k) =? 0)%N = N.testbit w k.
Proof.
  rewrite N.shiftl_1_l. destruct (N.testbit w k) eqn:E.
  - apply negb_true_iff, N.eqb_neq. intros H0.
    assert (N.testbit (N.land w (2 ^ k)) k = true) as Ht
      by (by rewrite N.land_spec, E, N.pow2_bits_true).
    by rewrite H0, N.bits_0 in Ht.
  - apply negb_false_iff, N.eqb_eq. apply N.bits_inj. intros j.
    rewrite N.land_spec, N.bits_0. destruct (N.eq_dec j k) as [->|Hne].
    + by rewrite E.
    + rewrite N.pow2_bits_false by done. apply andb_false_r.
Qed.

Lemma bit_is_set_alt ws i :
  bit_is_set ws i =
    match ws !! (i / 64)%nat with Some w => N.testbit w (N.of_nat (i mod 64)) | None => false end.
Proof. unfold bit_is_set. destruct (ws !! _); [|done]. apply testbit_land_pow2. Qed.

Lemma length_set_bit ws i : length (set_bit ws i) = length ws.
Proof. apply length_alter. Qed.

Lemma bit_is_set_set ws i j :
  (i / 64 < length ws)%nat ->
  bit_is_set (set_bit ws i) j = bool_decide (j = i) || bit_is_set ws j.
Proof.
  intros Hlt. rewrite !bit_is_set_alt. unfold set_bit. rewrite N.shiftl_1_l.
  destruct (decide (j / 64 = i / 64)%nat) as [E|E].
  - rewrite E, list_lookup_alter_eq. destruct (lookup_lt_is_Some_2 ws (i / 64) Hlt) as [w ->].
    cbn [fmap option_fmap option_map].
    rewrite N.lor_spec. case_bool_decide as Hji.
    + subst. rewrite N.pow2_bits_true. apply orb_true_r.
    + rewrite N.pow2_bits_false, orb_false_r; [done|].
      intros Em. apply Nat2N.inj in Em. apply Hji.
      pose proof (Nat.div_mod_eq i 64). pose proof (Nat.div_mod_eq j 64). lia.
  - rewrite list_lookup_alter_ne by congruence.
    rewrite bool_decide_false by (intros ->; done). done.
Qed.

Lemma bit_is_set_and a b j :
  length a = length b -> bit_is_set (and_bits_into a b) j = bit_is_set a j && bit_is_set b j.
Proof.
  intros Hl. rewrite !bit_is_set_alt. unfold and_bits_into. rewrite lookup_zip_with.
  destruct (a !! _) as [x|] eqn:Ea; simpl.
  - apply lookup_lt_Some in Ea. rewrite Hl in Ea.
    destruct (lookup_lt_is_Some_2 b _ Ea) as [y ->]. simpl. apply N.land_spec.
  - done.
Qed.

(** Rows of one width with 64-bit words are equal when their bits are. *)
Definition row_ok (wc : nat) (ws : list N) : Prop :=
  length ws = wc /\ Forall (fun w => (w < 2 ^ 64)%N) ws.

Lemma testbit_above (w k : N) : (w < 2 ^ 64)%N -> (64 <= k)%N -> N.testbit w k = false.
Proof.
  intros Hw Hk. destruct (N.eq_dec w 0%N) as [->|]; [apply N.bits_0|].
  apply N.bits_above_log2. apply N.log2_lt_pow2; [lia|].
  eapply N.lt_le_trans; [exact Hw|]. apply N.pow_le_mono_r; lia.
Qed.

Lemma row_ext wc a b :
  row_ok wc a -> row_ok wc b -> (forall j, (j < 64 * wc)%nat -> bit_is_set a j = bit_is_set b j) -> a = b.
Proof.
  intros [La Fa] [Lb Fb] H. apply list_eq_same_length with (n := wc); [done | done |].
  intros i x y Hi Hx Hy.
  apply N.bits_inj. intros k.
  rewrite Forall_lookup in Fa, Fb. pose proof (Fa _ _ Hx). pose proof (Fb _ _ Hy).
  destruct (N.lt_ge_cases k 64%N) as [Hk|Hk].
  - specialize (H (64 * i + N.to_nat k)%nat ltac:(lia)). rewrite !bit_is_set_alt in H.
    replace ((64 * i + N.to_nat k) / 64)%nat with i in H
      by (rewrite Nat.mul_comm, Nat.div_add_l by lia; rewrite Nat.div_small; lia).
    replace ((64 * i + N.to_nat k) mod 64)%nat with (N.to_nat k) in H
      by (rewrite Nat.add_comm, Nat.mul_comm, Nat.Div0.mod_add; rewrite Nat.mod_small; lia).
    rewrite Hx, Hy, N2Nat.id in H. done.
  - by rewrite !testbit_above.
Qed.

Lemma set_bit_row_ok wc ws i : row_ok wc ws -> row_ok wc (set_bit ws i).
Proof.
  intros [Hl Hf]. split; [by rewrite length_set_bit|].
  apply Forall_alter; [done|]. intros w _ Hw. cbv beta in *. rewrite N.shiftl_1_l.
  assert (Hm : (N.of_nat (i mod 64) < 64)%N) by (pose proof (Nat.mod_upper_bound i 64); lia).
  destruct (N.eq_dec (N.lor w (2 ^ N.of_nat (i mod 64))%N) 0%N) as [->|Hnz]; [lia|].
  apply N.log2_lt_pow2; [lia|]. rewrite N.log2_lor, N.log2_pow2 by lia.
  apply N.max_lub_lt; [|done]. destruct (N.eq_dec w 0%N) as [->|]; [done|]. apply N.log2_lt_pow2; [lia | exact Hw].
Qed.

Lemma and_bits_row_ok wc a b : row_ok wc a -> row_ok wc b -> row_ok wc (and_bits_into a b).
Proof.
  intros [La Fa] [Lb Fb]. split; [unfold and_bits_into; rewrite length_zip_with; lia|].
  unfold and_bits_into. apply Forall_lookup. intros i x Hx. rewrite lookup_zip_with in Hx.
  destruct (a !! i) as [u|] eqn:Eu; simpl in Hx; [|done].
  destruct (b !! i) as [v|] eqn:Ev; simpl in Hx; [|done]. simplify_eq.
  rewrite Forall_lookup in Fa. specialize (Fa _ _ Eu).
  destruct (N.eq_dec (N.land u v) 0%N) as [->|Hnz]; [lia|].
  apply N.log2_lt_pow2; [lia|]. eapply N.le_lt_trans; [apply N.log2_land|].
  apply N.min_lt_iff. left. destruct (N.eq_dec u 0%N) as [->|]; [done|]. by apply N.log2_lt_pow2; [lia|].
Qed.

Lemma zero_row_ok n : row_ok (bit_word_count n) (replicate (bit_word_count n) 0%N).
Proof. split; [apply length_replicate|]. apply Forall_replicate. lia. Qed.

Lemma bit_in_words n i : (i < n)%nat -> (i / 64 < bit_word_count n)%nat.
Proof.
  intros Hi. unfold bit_word_count. apply Nat.div_lt_upper_bound; [lia|].
  pose proof (Nat.div_mod_eq (n + 63) 64). pose proof (Nat.mod_upper_bound (n + 63) 64). lia.
Qed.

Lemma bit_is_set_zero k j : bit_is_set (replicate k 0%N) j = false.
Proof.
  rewrite bit_is_set_alt. destruct (replicate k 0%N !! _) as [w|] eqn:E; [|done].
  apply lookup_replicate in E as [-> _]. apply N.bits_0.
Qed.

Lemma row_insert D i nd j : (i < length D)%nat -> row (<[i := nd]> D) j = if decide (j = i) then nd else row D j.
Proof.
  intros Hi. unfold row. case_decide as E.
  - subst. by rewrite list_lookup_insert_eq.
  - by rewrite list_lookup_insert_ne.
Qed.

Lemma length_clear_bit ws i : length (clear_bit ws i) = length ws.
Proof. apply length_alter. Qed.

Lemma bit_is_set_clear ws i j : bit_is_set (clear_bit ws i) j = negb (bool_decide (j = i)) && bit_is_set ws j.
Proof.
  rewrite !bit_is_set_alt. unfold clear_bit. rewrite N.shiftl_1_l.
  destruct (decide (j / 64 = i / 64)%nat) as [E|E].
  - rewrite E, list_lookup_alter_eq. destruct (ws !! (i / 64)%nat) as [w|]; cbn [fmap option_fmap option_map]; [|by rewrite andb_false_r].
    rewrite N.ldiff_spec. case_bool_decide as Hji.
    + subst. rewrite N.pow2_bits_true. apply andb_false_r.
    + rewrite N.pow2_bits_false, andb_true_r; [done|].
      intros Em. apply Nat2N.inj in Em. apply Hji.
      pose proof (Nat.div_mod_eq i 64). pose proof (Nat.div_mod_eq j 64). lia.
  - rewrite list_lookup_alter_ne by congruence.
    rewrite bool_decide_false by (intros ->; done). done.
Qed.

Lemma bit_is_set_or a b j :
  length a = length b -> bit_is_set (or_bits_into a b) j = bit_is_set a j || bit_is_set b j.
Proof.
  intros Hl. rewrite !bit_is_set_alt. unfold or_bits_into. rewrite lookup_zip_with.
  destruct (a !! _) as [x|] eqn:Ea; simpl.
  - apply lookup_lt_Some in Ea. rewrite Hl in Ea.
    destruct (lookup_lt_is_Some_2 b _ Ea) as [y ->]. simpl. apply N.lor_spec.
  - apply lookup_ge_None in Ea. rewrite Hl in Ea. by rewrite (lookup_ge_None_2 b _ Ea).
Qed.

(** A word below [2^64] is one without bits from 64 on. *)
Lemma word_bound (w : N) : (w < 2 ^ 64)%N <-> forall k, (64 <= k)%N -> N.testbit w k = false.
Proof.
  split; [intros; by apply testbit_above|]. intros H. destruct (N.eq_dec w 0%N) as [->|Hnz]; [lia|].
  apply N.log2_lt_pow2; [lia|]. apply N.nle_gt. intros Hle. specialize (H _ Hle). by rewrite N.bit_log2 in H.
Qed.

Lemma clear_bit_row_ok wc ws i : row_ok wc ws -> row_ok wc (clear_bit ws i).
Proof.
  intros [Hl Hf]. split; [by rewrite length_clear_bit|].
  apply Forall_alter; [done|]. intros w _ Hw. cbv beta in *. apply word_bound. intros k Hk.
  rewrite N.ldiff_spec, testbit_above by done. done.
Qed.

Lemma or_bits_row_ok wc a b : row_ok wc a -> row_ok wc b -> row_ok wc (or_bits_into a b).
Proof.
  intros [La Fa] [Lb Fb]. split; [unfold or_bits_into; rewrite length_zip_with; lia|].
  apply Forall_lookup. intros i x Hx. unfold or_bits_into in Hx. rewrite lookup_zip_with in Hx.
  destruct (a !! i) as [u|] eqn:Eu; simpl in Hx; [|done].
  destruct (b !! i) as [v|] eqn:Ev; simpl in Hx; [|done]. simplify_eq.
  rewrite Forall_lookup in Fa, Fb. apply word_bound. intros k Hk.
  rewrite N.lor_spec, !testbit_above; eauto.
Qed.

(** ** The iterator *)

Lemma testbit_pos_ctz p : N.testbit (N.pos p) (N.of_nat (pos_ctz p)) = true.
Proof.
  induction p as [p IH|p IH|]; [done| |done]. cbn [pos_ctz]. rewrite Nat2N.inj_succ.
  change (N.pos p~0) with (2 * N.pos p)%N. by rewrite N.testbit_even_succ by lia.
Qed.

Lemma clear_lowest p (j : nat) :
  N.testbit (N.land (N.pos p) (N.pos p - 1)) (N.of_nat j) = negb (bool_decide (j = pos_ctz p)) && N.testbit (N.pos p) (N.of_nat j).
Proof.
  rewrite N.land_spec. revert j. induction p as [p IH|p IH|]; intros j.
  - replace (N.pos p~1 - 1)%N with (2 * N.pos p)%N by lia. change (N.pos p~1) with (2 * N.pos p + 1)%N.
    destruct j as [|j]; cbn [pos_ctz]; [by rewrite N.testbit_even_0, andb_false_r|].
    rewrite Nat2N.inj_succ, N.testbit_odd_succ, N.testbit_even_succ by lia. by rewrite andb_diag.
  - replace (N.pos p~0 - 1)%N with (2 * (N.pos p - 1) + 1)%N by lia. change (N.pos p~0) with (2 * N.pos p)%N.
    destruct j as [|j]; cbn [pos_ctz]; [by rewrite N.testbit_even_0, andb_false_r|].
    rewrite Nat2N.inj_succ, N.testbit_odd_succ, N.testbit_even_succ by lia. rewrite IH. f_equal.
    by destruct (decide (j = pos_ctz p)); [rewrite !bool_decide_true by congruence | rewrite !bool_decide_false by congruence].
  - replace (1 - 1)%N with 0%N by lia. rewrite N.bits_0, andb_false_r. destruct j as [|j]; [done|].
    rewrite Nat2N.inj_succ. change 1%N with (2 * 0 + 1)%N. by rewrite N.testbit_odd_succ, N.bits_0, andb_false_r by lia.
Qed.

(** The iterator yields each set bit; [n] bounds how many are left. *)
Lemma word_bits_spec fuel base w j :
  (forall k, N.testbit w (N.of_nat k) = true -> (64 - fuel <= k < 64)%nat) -> (fuel <= 64)%nat ->
  j ∈ word_bits fuel base w <-> exists k, j = (base + k)%nat /\ N.testbit w (N.of_nat k) = true.
Proof.
  revert w. induction fuel as [|fuel IH]; intros w Hb Hf.
  - simpl. rewrite elem_of_nil. split; [done|]. intros (k & _ & Hk). specialize (Hb k Hk). lia.
  - destruct w as [|p]; cbn [word_bits]; [rewrite elem_of_nil; split; [done|by intros (k & _ & Hk)]|].
    assert (Hlow : forall k, N.testbit (N.pos p) (N.of_nat k) = true -> (pos_ctz p <= k)%nat).
    { clear. intros k. revert p. induction k as [|k IHk]; intros [p|p|]; cbn [pos_ctz]; try lia; [done|].
      rewrite Nat2N.inj_succ. change (N.pos p~0) with (2 * N.pos p)%N. rewrite N.testbit_even_succ by lia.
      intros H%IHk. lia. }
    rewrite elem_of_cons, IH.
    + split.
      * intros [->|(k & -> & Hk)]; [exists (pos_ctz p); split; [done|apply testbit_pos_ctz]|].
        rewrite clear_lowest in Hk. apply andb_prop in Hk as [_ Hk]. eauto.
      * intros (k & -> & Hk). destruct (decide (k = pos_ctz p)) as [->|Hne]; [by left|right].
        exists k. split; [done|]. by rewrite clear_lowest, bool_decide_false, Hk.
    + intros k. rewrite clear_lowest. intros [Hn Hk]%andb_prop. pose proof (Hb _ Hk). pose proof (Hlow _ Hk).
      pose proof (Hb _ (testbit_pos_ctz p)). apply negb_true_iff, bool_decide_eq_false in Hn. lia.
    + lia.
Qed.

(** [LiveSet::iter] yields exactly the members of the set. *)
Lemma elem_of_live_iter wc ws j : row_ok wc ws -> j ∈ live_iter ws <-> bit_is_set ws j = true.
Proof.
  intros [_ Hf]. unfold live_iter. rewrite list_elem_of_join, bit_is_set_alt. rewrite Forall_lookup in Hf. split.
  - intros (l & Hj & Hl). apply elem_of_lookup_imap in Hl as (k & w & -> & Hw).
    pose proof (Hf _ _ Hw) as Hlt. cbv beta in Hlt.
    apply word_bits_spec in Hj as (b & -> & Hb); [| |lia].
    + assert (b < 64)%nat by (destruct (decide (b < 64)%nat); [done|]; rewrite testbit_above in Hb by (done || lia); done).
      rewrite Nat.div_add_l, (Nat.div_small b 64), Nat.add_0_r by lia. rewrite Hw.
      by rewrite Nat.add_comm, Nat.Div0.mod_add, Nat.mod_small by lia.
    + intros b Hb. destruct (decide (b < 64)%nat); [lia|]. rewrite testbit_above in Hb by (done || lia). done.
  - destruct (ws !! (j / 64)%nat) as [w|] eqn:Hw; [|done]. intros Hb. pose proof (Hf _ _ Hw) as Hlt. cbv beta in Hlt.
    exists (word_bits 64 (j / 64 * 64) w). split; [|apply elem_of_lookup_imap; eauto].
    apply word_bits_spec; [|lia|].
    + intros b Hb'. destruct (decide (b < 64)%nat); [lia|]. rewrite testbit_above in Hb' by (done || lia). done.
    + exists (j mod 64)%nat. split; [|done]. pose proof (Nat.div_mod_eq j 64). lia.
Qed.

(** * Counting set bits *)

Section count.
Context (wc : nat).

Definition count_bits (ws : list N) : nat :=
length (filter (fun j => bit_is_set ws j = true) (seq 0 (64 * wc))).
#[local] Arguments count_bits : simpl never.
Definition total_bits (D : list (list N)) : nat := foldr (fun ws s => count_bits ws + s)%nat 0%nat D.

Lemma count_bits_le ws : (count_bits ws <= 64 * wc)%nat.
Proof. unfold count_bits. etrans; [apply length_filter|]. by rewrite length_seq. Qed.

Lemma total_bits_le D : (total_bits D <= length D * (64 * wc))%nat.
Proof.
unfold total_bits. induction D as [|ws D IH]; [done|].
cbn [foldr length]. pose proof (count_bits_le ws). rewrite Nat.mul_succ_l. lia.
Qed.

Lemma count_bits_lt a b :
row_ok wc a -> row_ok wc b -> a <> b ->
(forall d, bit_is_set a d = true -> bit_is_set b d = true) -> (count_bits a < count_bits b)%nat.
Proof.
intros Ha Hb Hne Hsub.
destruct (decide (Forall (fun j => bit_is_set b j = true -> bit_is_set a j = true) (seq 0 (64 * wc)))) as [Hall|Hex].
- exfalso. apply Hne. apply (row_ext wc); [done | done |]. intros j Hj.
rewrite list.Forall_forall in Hall. specialize (Hall j). rewrite elem_of_seq in Hall.
specialize (Hall ltac:(lia)). specialize (Hsub j).
destruct (bit_is_set a j), (bit_is_set b j); auto; by rewrite ?Hall, ?Hsub.
- apply not_Forall_Exists in Hex; [|apply _]. apply Exists_exists in Hex as (j & Hj & Hjn). unfold compose in Hjn.
unfold count_bits. generalize dependent (seq 0 (64 * wc)). intros l Hj.
apply length_filter_mono_lt with (x := j); [done | done | |]; clear Hsub Ha Hb Hne;
destruct (bit_is_set b j), (bit_is_set a j); try done; exfalso; apply Hjn; intros ?; congruence.
Qed.

Lemma total_bits_insert D i nd :
(i < length D)%nat -> (count_bits nd < count_bits (row D i))%nat ->
(total_bits (<[i := nd]> D) < total_bits D)%nat.
Proof.
unfold total_bits, row. revert i. induction D as [|ws D IH]; intros [|i] Hi Hc; [simpl in Hi; lia | simpl in Hi; lia | by apply Nat.add_lt_mono_r |].
apply Nat.add_lt_mono_l, IH; [simpl in Hi; lia | done].
Qed.

End count.
