(* ===== verification/Slices.v ===== *)
(** Slice, vector and iterator methods of the Rust standard library that the
    backends use, with the facts the allocator relies on. *)

From stdpp Require Import sorting.
From S2P Require Import Prelude.

Section slices.
Context {A : Type}.
Implicit Types (p : A -> bool) (l : list A) (key : A -> N).

(** [slice::partition_point], for a slice partitioned by the predicate: the number
of leading elements that satisfy it. *)
Fixpoint partition_point p l : nat :=
match l with
| [] => 0
| x :: l' => if p x then S (partition_point p l') else 0
end.

(** [Iterator::position]. *)
Fixpoint position p l : option nat :=
match l with
| [] => None
| x :: l' => if p x then Some 0%nat else S <$> position p l'
end.

(** [Iterator::max_by_key]: the last of the elements with the greatest key. *)
Fixpoint max_by_key key l : option A :=
match l with
| [] => None
| x :: l' =>
match max_by_key key l' with
| Some y => Some (if key y <? key x then x else y)%N
| None => Some x
end
end.

(** [slice::sort_by_key] is stable: an element goes in front of the later elements
it does not exceed. *)
Fixpoint insert_by (le : A -> A -> bool) (x : A) l : list A :=
match l with
| [] => [x]
| y :: l' => if le x y then x :: l else y :: insert_by le x l'
end.

Definition sort_by (le : A -> A -> bool) l : list A := foldr (insert_by le) [] l.

Definition sort_by_key key l : list A := sort_by (fun x y => key x <=? key y)%N l.

(** [Vec::insert] after the leading elements that satisfy [p]. *)
Fixpoint insert_after p (x : A) l : list A :=
match l with
| [] => [x]
| y :: l' => if p y then y :: insert_after p x l' else x :: l
end.

Lemma partition_point_le p l : (partition_point p l <= length l)%nat.
Proof. induction l as [|x l IH]; simpl; [lia|]. destruct (p x); lia. Qed.

Lemma partition_point_prefix p l i x : (i < partition_point p l)%nat -> l !! i = Some x -> p x = true.
Proof.
revert i. induction l as [|y l IH]; intros i Hi Hx; simpl in Hi; [lia|].
destruct (p y) eqn:E; [|lia]. destruct i as [|i]; simpl in Hx; [by simplify_eq|]. apply (IH i); [lia|done].
Qed.

Lemma partition_point_stop p l x : l !! partition_point p l = Some x -> p x = false.
Proof. induction l as [|y l IH]; simpl; [done|]. destruct (p y) eqn:E; simpl; intros; [by apply IH|by simplify_eq]. Qed.

(** On a slice that is partitioned, what lies behind the point fails the predicate. *)
Lemma partition_point_suffix p l i x :
(forall a b i j, (i <= j)%nat -> l !! i = Some a -> l !! j = Some b -> p b = true -> p a = true) ->
(partition_point p l <= i)%nat -> l !! i = Some x -> p x = false.
Proof.
intros Hm Hi Hx. destruct (p x) eqn:E; [|done].
destruct (lookup_lt_is_Some_2 l (partition_point p l)) as [y Hy].
{ apply lookup_lt_Some in Hx. lia. }
rewrite <- (partition_point_stop p l y Hy). symmetry. by eapply Hm.
Qed.

Lemma position_Some p l i : position p l = Some i -> exists x, l !! i = Some x /\ p x = true.
Proof.
revert i. induction l as [|y l IH]; intros i; simpl; [done|]. destruct (p y) eqn:E.
- intros [= <-]. by exists y.
- intros (j & Hj & ->)%fmap_Some. by apply IH.
Qed.

Lemma position_None p l : position p l = None -> forall x, x ∈ l -> p x = false.
Proof.
induction l as [|y l IH]; simpl; [by intros _ x ?%elem_of_nil|]. destruct (p y) eqn:E; [done|].
intros Hn%fmap_None x [->|Hx]%elem_of_cons; [done|by apply IH].
Qed.

Lemma max_by_key_Some key l x : max_by_key key l = Some x -> x ∈ l /\ forall y, y ∈ l -> (key y <= key x)%N.
Proof.
revert x. induction l as [|z l IH]; intros x; simpl; [done|].
destruct (max_by_key key l) as [y|] eqn:E.
- destruct (IH y eq_refl) as [Hin Hmax]. intros [= <-]. case_match eqn:Hc; [apply N.ltb_lt in Hc|apply N.ltb_ge in Hc].
+ split; [by left|]. intros u [->|Hu]%elem_of_cons; [lia|]. specialize (Hmax u Hu). lia.
+ split; [by right|]. intros u [->|Hu]%elem_of_cons; [lia|by apply Hmax].
- intros [= <-]. destruct l; [|simpl in E; by destruct (max_by_key key l)].
split; [by left|]. intros u [->|Hu]%elem_of_cons; [lia|by apply elem_of_nil in Hu].
Qed.

Lemma insert_by_perm le x l : insert_by le x l ≡ₚ x :: l.
Proof. induction l as [|y l IH]; simpl; [done|]. destruct (le x y); [done|]. rewrite IH. apply Permutation_swap. Qed.

Lemma sort_by_perm le l : sort_by le l ≡ₚ l.
Proof. induction l as [|x l IH]; simpl; [done|]. by rewrite insert_by_perm, IH. Qed.

Lemma sort_by_key_perm key l : sort_by_key key l ≡ₚ l.
Proof. apply sort_by_perm. Qed.

Lemma elem_of_insert_by le x y l : y ∈ insert_by le x l <-> y = x \/ y ∈ l.
Proof. rewrite insert_by_perm. apply elem_of_cons. Qed.

Lemma insert_by_sorted (le : A -> A -> bool) x l :
(forall a b, le a b = false -> le b a = true) ->
(forall a b c, le a b = true -> le b c = true -> le a c = true) ->
StronglySorted (fun a b => le a b = true) l -> StronglySorted (fun a b => le a b = true) (insert_by le x l).
Proof.
intros Htot Htrans. induction 1 as [|y l Hs IH Hy]; simpl; [by repeat constructor|]. destruct (le x y) eqn:E.
- constructor; [by constructor|]. constructor; [done|]. eapply list.Forall_impl; [exact Hy|]. intros; eauto.
- constructor; [done|]. rewrite list.Forall_forall. intros z [->|Hz]%elem_of_insert_by; [by apply Htot|].
rewrite list.Forall_forall in Hy. by apply Hy.
Qed.

Lemma sort_by_sorted (le : A -> A -> bool) l :
(forall a b, le a b = false -> le b a = true) ->
(forall a b c, le a b = true -> le b c = true -> le a c = true) ->
StronglySorted (fun a b => le a b = true) (sort_by le l).
Proof. intros. induction l as [|x l IH]; simpl; [constructor|]. by apply insert_by_sorted. Qed.

Lemma insert_after_perm p x l : insert_after p x l ≡ₚ x :: l.
Proof. induction l as [|y l IH]; simpl; [done|]. destruct (p y); [|done]. rewrite IH. apply Permutation_swap. Qed.

Lemma elem_of_insert_after p x y l : y ∈ insert_after p x l <-> y = x \/ y ∈ l.
Proof. rewrite insert_after_perm. apply elem_of_cons. Qed.

(** Inserting behind the elements that are below keeps a sorted vector sorted. *)
Lemma insert_after_sorted (R : relation A) p x l :
Transitive R -> (forall y, p y = true -> R y x) -> (forall y, p y = false -> R x y) ->
StronglySorted R l -> StronglySorted R (insert_after p x l).
Proof.
intros HT Hp Hq. induction 1 as [|y l Hs IH Hy]; simpl; [by repeat constructor|]. destruct (p y) eqn:E.
- constructor; [done|]. rewrite list.Forall_forall. intros z [->|Hz]%elem_of_insert_after; [by apply Hp|].
rewrite list.Forall_forall in Hy. by apply Hy.
- constructor; [by constructor|]. constructor; [by apply Hq|]. eapply list.Forall_impl; [exact Hy|].
intros z Hz. etrans; [by apply Hq|done].
Qed.

Lemma sorted_impl (R R' : relation A) l :
(forall a b, R a b -> R' a b) -> StronglySorted R l -> StronglySorted R' l.
Proof. intros H. induction 1 as [|x l Hs IH Hx]; constructor; [done|]. eapply list.Forall_impl; [exact Hx|]. eauto. Qed.

Lemma sorted_lookup (R : relation A) l i j a b :
StronglySorted R l -> l !! i = Some a -> l !! j = Some b -> (i < j)%nat -> R a b.
Proof.
intros Hs. revert i j. induction Hs as [|x l Hs IH Hx]; intros i j Hi Hj Hlt; [done|].
destruct j as [|j]; [lia|]. destruct i as [|i]; simpl in *; [|by eapply (IH i j); [..|lia]].
injection Hi as <-. rewrite list.Forall_forall in Hx. apply Hx. by eapply list_elem_of_lookup_2.
Qed.

End slices.

(** Folds whose step may panic. *)
Fixpoint foldM {A B} (g : B -> A -> option B) (l : list A) (b : B) : option B :=
  match l with
  | [] => Some b
  | x :: l => b' ← g b x; foldM g l b'
  end.
