(* ===== verification/IrTypes.v ===== *)
(** The IR type system (src/src/ir/types.rs) and the target description it is
    sized against (src/src/target.rs). *)

From S2P Require Import Prelude.
From Stdlib Require Import Ascii.
Local Open Scope Z_scope.

(** * Target identity and layout *)

Inductive Arch := Arm64 | X86_64.
Inductive Os := MacOs | FreeBsd | Linux.
Inductive Libc := LibcDefault | Gnu | Musl.
Inductive ObjectFormat := MachO | Elf.

Record TargetSpec := { spec_arch : Arch; spec_os : Os; spec_libc : Libc }.

#[export] Instance Arch_eq_dec : EqDecision Arch.
Proof. solve_decision. Defined.
#[export] Instance Os_eq_dec : EqDecision Os.
Proof. solve_decision. Defined.
#[export] Instance Libc_eq_dec : EqDecision Libc.
Proof. solve_decision. Defined.
#[export] Instance TargetSpec_eq_dec : EqDecision TargetSpec.
Proof. solve_decision. Defined.

Definition SUPPORTED_TARGETS : list string :=
  ["arm64-macos"; "x86_64-freebsd"; "x86_64-linux-gnu"; "x86_64-linux-musl"]%string.

(** Canonical triple spelling. *)
Definition triple (s : TargetSpec) : string :=
  match spec_arch s, spec_os s, spec_libc s with
  | Arm64, MacOs, _ => "arm64-macos"
  | X86_64, FreeBsd, _ => "x86_64-freebsd"
  | X86_64, Linux, Musl => "x86_64-linux-musl"
  | X86_64, Linux, _ => "x86_64-linux-gnu"
  | Arm64, (FreeBsd | Linux), _ => "arm64-unsupported"
  | X86_64, MacOs, _ => "x86_64-unsupported"
  end%string.

Definition object_format (s : TargetSpec) : ObjectFormat :=
  match spec_os s with MacOs => MachO | FreeBsd | Linux => Elf end.

(** Rust's [str::split('-')]: the pieces between dashes, never an empty list. *)
Fixpoint split_dash (s : string) : list string :=
  match s with
  | EmptyString => [""%string]
  | String c s' =>
      if Ascii.eqb c "-"%char then ""%string :: split_dash s'
      else match split_dash s' with
           | p :: ps => String c p :: ps
           | [] => [String c ""]
           end
  end.

Definition parse_arch (p : option string) : option Arch :=
  match p with
  | Some s =>
      if bool_decide (s ∈ ["arm64"; "aarch64"]%string) then Some Arm64
      else if bool_decide (s ∈ ["x86_64"; "amd64"]%string) then Some X86_64
      else None
  | None => None
  end.

Definition parse_os (p : option string) : option Os :=
  match p with
  | Some s =>
      if bool_decide (s ∈ ["macos"; "darwin"]%string) then Some MacOs
      else if bool_decide (s = "freebsd"%string) then Some FreeBsd
      else if bool_decide (s = "linux"%string) then Some Linux
      else None
  | None => None
  end.

Definition parse_libc (os : Os) (p : option string) : option Libc :=
  match os, p with
  | Linux, None => Some Gnu
  | Linux, Some s =>
      if bool_decide (s = "gnu"%string) then Some Gnu
      else if bool_decide (s = "musl"%string) then Some Musl else None
  | _, None => Some LibcDefault
  | _, Some _ => None
  end.

(** [TargetSpec::parse]; [None] is the rejection, whose message is built from
    the triple and [SUPPORTED_TARGETS] alone. *)
Definition parse (t : string) : option TargetSpec :=
  let parts := split_dash t in
  arch ← parse_arch (parts !! 0%nat);
  os ← parse_os (parts !! 1%nat);
  libc ← parse_libc os (parts !! 2%nat);
  if decide (is_Some (parts !! 3%nat)) then None
  else
    let spec := {| spec_arch := arch; spec_os := os; spec_libc := libc |} in
    if bool_decide (triple spec ∈ SUPPORTED_TARGETS) then Some spec else None.

(** Sizes and alignments; the fields are Rust [usize]s. *)
Record TargetLayout := {
  ptr_bytes : Z; ptr_align : Z; bool_bytes : Z;
  i128_align : Z; vector_bytes : Z; max_scalar_align : Z }.

Definition LP64 : TargetLayout :=
  {| ptr_bytes := 8; ptr_align := 8; bool_bytes := 1;
     i128_align := 16; vector_bytes := 16; max_scalar_align := 16 |}.

Definition layout_of (s : TargetSpec) : TargetLayout :=
  match spec_arch s with
  | Arm64 | X86_64 =>
      {| ptr_bytes := 8; ptr_align := 8; bool_bytes := 1;
         i128_align := 16; vector_bytes := 16; max_scalar_align := 16 |}
  end.

Definition PROC_PTR_CLOSURE_SLOTS : Z := 8.

Definition array_descriptor (l : TargetLayout) : Z * Z :=
  (ptr_bytes l * (3 + 45 + 1), ptr_align l).
Definition string_descriptor (l : TargetLayout) : Z * Z :=
  (ptr_bytes l * 4, ptr_align l).
Definition class_descriptor (l : TargetLayout) : Z * Z :=
  (ptr_bytes l * 2, ptr_align l).
Definition proc_ptr_component (l : TargetLayout) : Z :=
  ptr_bytes l * (1 + PROC_PTR_CLOSURE_SLOTS).

(** * IR types *)

Inductive IntWidth := I8 | I16 | I32 | I64 | I128.
Inductive FloatWidth := F32 | F64.

#[export] Instance IntWidth_eq_dec : EqDecision IntWidth.
Proof. solve_decision. Defined.
#[export] Instance FloatWidth_eq_dec : EqDecision FloatWidth.
Proof. solve_decision. Defined.

Definition int_bits (w : IntWidth) : Z :=
  match w with I8 => 8 | I16 => 16 | I32 => 32 | I64 => 64 | I128 => 128 end.
Definition int_bytes (w : IntWidth) : Z := int_bits w / 8.
Definition float_bits (w : FloatWidth) : Z :=
  match w with F32 => 32 | F64 => 64 end.
Definition float_bytes (w : FloatWidth) : Z := float_bits w / 8.

(** Struct identifiers are [u32] indices, array lengths are [u64], lane counts
    are [u8]; a function-pointer type carries its signature. *)
Inductive IrType :=
| Void
| TBool
| TInt (w : IntWidth)
| TFloat (w : FloatWidth)
| TPtr (inner : IrType)
| TArray (elem : IrType) (count : Z)
| TStruct (id : N)
| TFuncPtr (params : list IrType) (ret : IrType)
| TVector (lanes : Z) (elem : IrType).

Fixpoint IrType_eqb (a b : IrType) {struct a} : bool :=
  match a, b with
  | Void, Void | TBool, TBool => true
  | TInt w, TInt w' => bool_decide (w = w')
  | TFloat w, TFloat w' => bool_decide (w = w')
  | TPtr x, TPtr y => IrType_eqb x y
  | TArray x n, TArray y m => IrType_eqb x y && (n =? m)
  | TStruct i, TStruct j => bool_decide (i = j)
  | TFuncPtr ps r, TFuncPtr qs s =>
      (fix go ps qs := match ps, qs with
         | [], [] => true
         | p :: ps, q :: qs => IrType_eqb p q && go ps qs
         | _, _ => false
         end) ps qs && IrType_eqb r s
  | TVector n x, TVector m y => (n =? m) && IrType_eqb x y
  | _, _ => false
  end.

(** Induction over types with a hypothesis for every parameter of a function
    pointer's signature. *)
Lemma IrType_ind' (P : IrType -> Prop) :
  P Void -> P TBool -> (forall w, P (TInt w)) -> (forall w, P (TFloat w)) ->
  (forall t, P t -> P (TPtr t)) -> (forall t n, P t -> P (TArray t n)) ->
  (forall i, P (TStruct i)) ->
  (forall ps r, Forall P ps -> P r -> P (TFuncPtr ps r)) ->
  (forall n t, P t -> P (TVector n t)) ->
  forall t, P t.
Proof.
  intros H1 H2 H3 H4 H5 H6 H7 H8 H9. fix IH 1. intros [| |w|w|t|t n|i|ps r|n t].
  - exact H1.
  - exact H2.
  - apply H3.
  - apply H4.
  - apply H5, IH.
  - apply H6, IH.
  - apply H7.
  - apply H8; [|apply IH]. induction ps; constructor; [apply IH | done].
  - apply H9, IH.
Qed.

Lemma IrType_eqb_eq a b : IrType_eqb a b = true <-> a = b.
Proof.
  revert b. induction a as [| |w|w|t IH|t n IH|i|ps r IHps IHr|n t IH] using IrType_ind';
    intros []; simpl; try (split; intros; congruence); try (by split; intros; bool_props; congruence).
  - rewrite bool_decide_eq_true. split; congruence.
  - rewrite bool_decide_eq_true. split; congruence.
  - rewrite IH. split; congruence.
  - rewrite andb_true_iff, IH, Z.eqb_eq. split; [intros [-> ->] | intros [=]]; done.
  - rewrite bool_decide_eq_true. split; congruence.
  - rewrite andb_true_iff, IHr.
    assert (Hps : forall qs, (fix go ps qs := match ps, qs with
         | [], [] => true | p :: ps, q :: qs => IrType_eqb p q && go ps qs
         | _, _ => false end) ps qs = true <-> ps = qs).
    { clear IHr r. induction IHps as [|p ps Hp Hps IH]; intros [|q qs]; simpl;
        try (split; congruence).
      rewrite andb_true_iff, Hp, IH. split; [intros [-> ->] | intros [=]]; done. }
    rewrite Hps. split; [intros [-> ->] | intros [=]]; done.
  - rewrite andb_true_iff, IH, Z.eqb_eq. split; [intros [-> ->] | intros [=]]; done.
Qed.

#[export] Instance IrType_eq_dec : EqDecision IrType.
Proof.
  intros a b. destruct (IrType_eqb a b) eqn:E.
  - left. by apply IrType_eqb_eq.
  - right. intros H. apply IrType_eqb_eq in H. congruence.
Defined.

Record FuncSig := { sig_params : list IrType; sig_ret : IrType }.
Record StructDef := { sd_name : string; sd_fields : list (string * IrType) }.

Inductive TypeSizeError := SizeOverflow | StructLayoutRequired (id : N).

Definition u64_max : Z := 2 ^ 64 - 1.

Definition checked_mul_u64 (a b : Z) : option Z :=
  if a * b <=? u64_max then Some (a * b) else None.

(** [IrType::try_size_bytes]. *)
Fixpoint try_size_bytes (l : TargetLayout) (t : IrType) : TypeSizeError + Z :=
  match t with
  | Void => inr 0
  | TBool => inr (bool_bytes l)
  | TInt w => inr (int_bytes w)
  | TFloat w => inr (float_bytes w)
  | TPtr _ => inr (ptr_bytes l)
  | TArray elem count =>
      match try_size_bytes l elem with
      | inl e => inl e
      | inr sz => match checked_mul_u64 sz count with
                  | Some n => inr n
                  | None => inl SizeOverflow
                  end
      end
  | TStruct id => inl (StructLayoutRequired id)
  | TFuncPtr _ _ => inr (ptr_bytes l)
  | TVector _ _ => inr (vector_bytes l)
  end.

(** [IrType::size_bytes]: [None] is the panic. *)
Definition size_bytes (l : TargetLayout) (t : IrType) : option Z :=
  match try_size_bytes l t with inr n => Some n | inl _ => None end.

Definition is_vector (t : IrType) : bool := match t with TVector _ _ => true | _ => false end.
Definition vector_shape (t : IrType) : option (Z * IrType) :=
  match t with TVector n e => Some (n, e) | _ => None end.
Definition is_numeric (t : IrType) : bool :=
  match t with TInt _ | TFloat _ => true | _ => false end.
Definition int_width (t : IrType) : option IntWidth :=
  match t with TInt w => Some w | _ => None end.
Definition is_int (t : IrType) : bool := match t with TInt _ => true | _ => false end.
Definition is_float (t : IrType) : bool := match t with TFloat _ => true | _ => false end.
Definition is_ptr (t : IrType) : bool := match t with TPtr _ => true | _ => false end.

Definition switch_int_width (t : IrType) : option IntWidth :=
  match t with
  | TInt ((I8 | I16 | I32 | I64) as w) => Some w
  | _ => None
  end.

(** The case value is a Rust [i64]; [try_from] succeeds when it fits. *)
Definition switch_case_is_representable (t : IrType) (v : Z) : bool :=
  match switch_int_width t with
  | Some I8 => in_srange 8 v
  | Some I16 => in_srange 16 v
  | Some I32 => in_srange 32 v
  | Some I64 => true
  | _ => false
  end.

Definition int_from_kind (kind : Z) : IrType :=
  TInt (match kind with 1 => I8 | 2 => I16 | 8 => I64 | 16 => I128 | _ => I32 end).

Definition float_from_kind (kind : Z) : IrType :=
  TFloat (match kind with 8 => F64 | _ => F32 end).

(** * Properties *)

(** Target names round trip: whatever spelling [parse] accepts, the canonical
    triple of the result is a supported one and parses back to the same target. *)
Theorem target_parse_roundtrip t s :
  parse t = Some s -> triple s ∈ SUPPORTED_TARGETS /\ parse (triple s) = Some s.
Proof.
  unfold parse at 1. destruct (parse_arch _) as [arch|]; simpl; [|done].
  destruct (parse_os _) as [os|]; simpl; [|done].
  destruct (parse_libc os _) as [libc|] eqn:El; simpl; [|done]. case_decide; [done|].
  destruct (bool_decide _) eqn:E; [|done]. intros [= <-]. apply bool_decide_eq_true in E. split; [done|].
  assert (Hlibc : match os with Linux => libc = Gnu \/ libc = Musl | _ => libc = LibcDefault end).
  { unfold parse_libc in El. repeat case_match; simplify_eq; auto. }
  destruct os; [subst libc | subst libc | destruct Hlibc as [-> | ->]]; destruct arch;
    try (vm_compute; reflexivity);
    apply (bool_decide_eq_true_2 (_ ∈ _)) in E; vm_compute in E; discriminate E.
Qed.

Lemma target_parse_roundtrip_witness :
  exists s, parse "amd64-linux" = Some s /\ triple s ∈ SUPPORTED_TARGETS /\ parse (triple s) = Some s.
Proof. eexists. split; [vm_compute; reflexivity|]. apply (target_parse_roundtrip "amd64-linux"). vm_compute. reflexivity. Defined.

(** The size of a type in unbounded arithmetic; a structure has none here. *)
Fixpoint exact_size (l : TargetLayout) (t : IrType) : option Z :=
  match t with
  | TArray elem count => n ← exact_size l elem; Some (n * count)
  | TStruct _ => None
  | Void => Some 0
  | TBool => Some (bool_bytes l)
  | TInt w => Some (int_bytes w)
  | TFloat w => Some (float_bytes w)
  | TPtr _ | TFuncPtr _ _ => Some (ptr_bytes l)
  | TVector _ _ => Some (vector_bytes l)
  end.

(** Every array layer fits in a [u64]. *)
Fixpoint layers_fit (l : TargetLayout) (t : IrType) : Prop :=
  match t with
  | TArray elem count => layers_fit l elem /\ forall n, exact_size l t = Some n -> n <= u64_max
  | _ => True
  end.

(** Type sizes are exact: [try_size_bytes] returns the mathematical size when
    every array layer fits in 64 bits, reports an overflow when one does not, and
    asks for a layout exactly when the element type is a structure. *)
Theorem try_size_bytes_exact l t :
  match try_size_bytes l t with
  | inr n => exact_size l t = Some n /\ layers_fit l t
  | inl SizeOverflow => is_Some (exact_size l t) /\ ~ layers_fit l t
  | inl (StructLayoutRequired _) => exact_size l t = None
  end.
Proof.
  induction t as [| |w|w| |elem IH count|id| |] using IrType_ind; simpl; try done.
  destruct (try_size_bytes l elem) as [[|id]|n]; simpl.
  - destruct IH as [[n ->] Hn]. simpl. split; [eauto|]. intros [? _]. done.
  - by rewrite IH.
  - destruct IH as [-> Hfit]. simpl. unfold checked_mul_u64. destruct (n * count <=? u64_max) eqn:E.
    + split; [done|]. split; [done|]. intros m [= <-]. by apply Z.leb_le.
    + split; [eauto|]. intros [_ H]. specialize (H _ eq_refl). apply Z.leb_gt in E. lia.
Qed.
