(* ===== verification/IrInst.v ===== *)
(** IR values, instructions, blocks, functions and modules, with the structural
    operations of [Function] and [Module] (src/src/ir/inst.rs). *)

From S2P Require Import Prelude IrTypes.
From stdpp Require Export pretty.
From Stdlib Require Export SpecFloat.
Local Open Scope Z_scope.

(** * Identifiers and source spans

    [ValueId] and [BlockId] wrap a Rust [u32]. *)

Abbreviation ValueId := N (only parsing).
Abbreviation BlockId := N (only parsing).

Definition u32_max : N := (2 ^ 32 - 1)%N.
Definition wrap_u32 (n : N) : N := (n mod 2 ^ 32)%N.

Record Position := { pos_line : N; pos_col : N }.
Record Span := { span_start : Position; span_end : Position; file_id : N }.

(** * Instructions *)

Inductive FuncRef :=
| Internal (idx : N)
| External (name : string)
| Indirect (target : ValueId).

Inductive RuntimeFunc :=
| PrintInt | PrintReal | PrintString | PrintLogical | PrintNewline
| Allocate | Deallocate | StringConcat | StringCopy | StringCompare
| Stop | ErrorStop | CheckBounds | CheckArrayAssignmentConformance.

Inductive CmpOp := CEq | CNe | CLt | CLe | CGt | CGe.

#[export] Instance FuncRef_eq_dec : EqDecision FuncRef.
Proof. solve_decision. Defined.
#[export] Instance RuntimeFunc_eq_dec : EqDecision RuntimeFunc.
Proof. solve_decision. Defined.
#[export] Instance CmpOp_eq_dec : EqDecision CmpOp.
Proof. solve_decision. Defined.

(** An [f64] is a [spec_float] of precision 53 and exponent bound 1024. *)
Abbreviation f64 := spec_float (only parsing).

Inductive InstKind :=
(* constants *)
| ConstInt (v : Z) (w : IntWidth)
| ConstFloat (v : f64) (w : FloatWidth)
| ConstBool (b : bool)
| ConstString (bytes : list Z)
| Undef (t : IrType)
(* integer arithmetic *)
| IAdd (a b : ValueId) | ISub (a b : ValueId) | IMul (a b : ValueId)
| IDiv (a b : ValueId) | IMod (a b : ValueId) | INeg (a : ValueId)
(* float arithmetic *)
| FAdd (a b : ValueId) | FSub (a b : ValueId) | FMul (a b : ValueId)
| FDiv (a b : ValueId) | FNeg (a : ValueId) | FAbs (a : ValueId)
| FSqrt (a : ValueId) | FPow (a b : ValueId)
(* comparison *)
| ICmp (op : CmpOp) (a b : ValueId) | FCmp (op : CmpOp) (a b : ValueId)
(* logic *)
| And (a b : ValueId) | Or (a b : ValueId) | Not (a : ValueId)
| Select (c t f : ValueId)
(* bitwise *)
| BitAnd (a b : ValueId) | BitOr (a b : ValueId) | BitXor (a b : ValueId)
| BitNot (a : ValueId) | Shl (a b : ValueId) | LShr (a b : ValueId)
| AShr (a b : ValueId) | CountLeadingZeros (a : ValueId)
| CountTrailingZeros (a : ValueId) | PopCount (a : ValueId)
(* conversions *)
| IntToFloat (a : ValueId) (w : FloatWidth) | FloatToInt (a : ValueId) (w : IntWidth)
| FloatExtend (a : ValueId) (w : FloatWidth) | FloatTrunc (a : ValueId) (w : FloatWidth)
| IntExtend (a : ValueId) (w : IntWidth) (signed : bool)
| IntTrunc (a : ValueId) (w : IntWidth)
| PtrToInt (a : ValueId) | IntToPtr (a : ValueId) (t : IrType)
(* memory *)
| Alloca (t : IrType) | Load (a : ValueId) | Store (v a : ValueId)
| VolatileLoad (a : ValueId) | VolatileStore (v a : ValueId)
| GetElementPtr (base : ValueId) (idxs : list ValueId) | GlobalAddr (name : string)
(* calls *)
| Call (callee : FuncRef) (args : list ValueId)
| RuntimeCall (rf : RuntimeFunc) (args : list ValueId)
(* aggregates *)
| ExtractField (agg : ValueId) (i : N) | InsertField (agg : ValueId) (i : N) (v : ValueId)
(* SIMD *)
| VAdd (a b : ValueId) | VSub (a b : ValueId) | VMul (a b : ValueId) | VDiv (a b : ValueId)
| VNeg (a : ValueId) | VAbs (a : ValueId) | VSqrt (a : ValueId) | VFma (a b c : ValueId)
| VSelect (m t f : ValueId) | VMin (a b : ValueId) | VMax (a b : ValueId)
| VICmp (op : CmpOp) (a b : ValueId) | VFCmp (op : CmpOp) (a b : ValueId)
| VLoad (p : ValueId) | VStore (v p : ValueId) | VBitcast (a : ValueId) (t : IrType)
| VExtract (v : ValueId) (lane : Z) | VInsert (v : ValueId) (lane : Z) (s : ValueId)
| VBroadcast (s : ValueId) | VReduceSum (v : ValueId) | VReduceMin (v : ValueId)
| VReduceMax (v : ValueId).

Record Inst := { inst_id : ValueId; inst_kind : InstKind; inst_ty : IrType; inst_span : Span }.

Definition set_kind (i : Inst) (k : InstKind) : Inst :=
  {| inst_id := inst_id i; inst_kind := k; inst_ty := inst_ty i; inst_span := inst_span i |}.

Inductive Terminator :=
| Return (v : option ValueId)
| Branch (dest : BlockId) (args : list ValueId)
| CondBranch (cond : ValueId) (true_dest : BlockId) (true_args : list ValueId)
    (false_dest : BlockId) (false_args : list ValueId)
| Switch (selector : ValueId) (cases : list (Z * BlockId)) (default : BlockId)
| Unreachable.

Record BlockParam := { bp_id : ValueId; bp_ty : IrType }.

Record BasicBlock := {
  block_id : BlockId;
  block_name : string;
  block_params : list BlockParam;
  block_insts : list Inst;
  block_term : option Terminator;
  loop_unswitch_generated : bool;
  partial_unroll_remainder : bool }.

(** [BasicBlock::new]. *)
Definition new_block (id : BlockId) (name : string) : BasicBlock :=
  {| block_id := id; block_name := name; block_params := []; block_insts := [];
     block_term := None; loop_unswitch_generated := false;
     partial_unroll_remainder := false |}.

Definition set_params (b : BasicBlock) (ps : list BlockParam) : BasicBlock :=
  {| block_id := block_id b; block_name := block_name b; block_params := ps;
     block_insts := block_insts b; block_term := block_term b;
     loop_unswitch_generated := loop_unswitch_generated b;
     partial_unroll_remainder := partial_unroll_remainder b |}.
Definition set_insts (b : BasicBlock) (il : list Inst) : BasicBlock :=
  {| block_id := block_id b; block_name := block_name b; block_params := block_params b;
     block_insts := il; block_term := block_term b;
     loop_unswitch_generated := loop_unswitch_generated b;
     partial_unroll_remainder := partial_unroll_remainder b |}.
Definition set_term (b : BasicBlock) (t : option Terminator) : BasicBlock :=
  {| block_id := block_id b; block_name := block_name b; block_params := block_params b;
     block_insts := block_insts b; block_term := t;
     loop_unswitch_generated := loop_unswitch_generated b;
     partial_unroll_remainder := partial_unroll_remainder b |}.

Record Param := {
  param_name : string; param_ty : IrType; param_id : ValueId; fortran_noalias : bool }.

Record Function := {
  fn_name : string;
  fn_params : list Param;
  return_type : IrType;
  blocks : list BasicBlock;
  block_positions : list (option nat);
  directly_dereferenceable_params : gset ValueId;
  entry : BlockId;
  next_value : N;
  next_block : N;
  type_cache : gmap ValueId IrType;
  is_pure : bool;
  is_elemental : bool;
  internal_only : bool }.

(** Field updates, one per mutated field of [Function]. *)
Definition set_blocks (f : Function) (bs : list BasicBlock) : Function :=
  {| fn_name := fn_name f; fn_params := fn_params f; return_type := return_type f;
     blocks := bs; block_positions := block_positions f;
     directly_dereferenceable_params := directly_dereferenceable_params f;
     entry := entry f; next_value := next_value f; next_block := next_block f;
     type_cache := type_cache f; is_pure := is_pure f; is_elemental := is_elemental f;
     internal_only := internal_only f |}.
Definition set_positions (f : Function) (ps : list (option nat)) : Function :=
  {| fn_name := fn_name f; fn_params := fn_params f; return_type := return_type f;
     blocks := blocks f; block_positions := ps;
     directly_dereferenceable_params := directly_dereferenceable_params f;
     entry := entry f; next_value := next_value f; next_block := next_block f;
     type_cache := type_cache f; is_pure := is_pure f; is_elemental := is_elemental f;
     internal_only := internal_only f |}.
Definition set_dereferenceable (f : Function) (s : gset ValueId) : Function :=
  {| fn_name := fn_name f; fn_params := fn_params f; return_type := return_type f;
     blocks := blocks f; block_positions := block_positions f;
     directly_dereferenceable_params := s;
     entry := entry f; next_value := next_value f; next_block := next_block f;
     type_cache := type_cache f; is_pure := is_pure f; is_elemental := is_elemental f;
     internal_only := internal_only f |}.
Definition set_next_value (f : Function) (n : N) : Function :=
  {| fn_name := fn_name f; fn_params := fn_params f; return_type := return_type f;
     blocks := blocks f; block_positions := block_positions f;
     directly_dereferenceable_params := directly_dereferenceable_params f;
     entry := entry f; next_value := n; next_block := next_block f;
     type_cache := type_cache f; is_pure := is_pure f; is_elemental := is_elemental f;
     internal_only := internal_only f |}.
Definition set_next_block (f : Function) (n : N) : Function :=
  {| fn_name := fn_name f; fn_params := fn_params f; return_type := return_type f;
     blocks := blocks f; block_positions := block_positions f;
     directly_dereferenceable_params := directly_dereferenceable_params f;
     entry := entry f; next_value := next_value f; next_block := n;
     type_cache := type_cache f; is_pure := is_pure f; is_elemental := is_elemental f;
     internal_only := internal_only f |}.
Definition set_type_cache (f : Function) (c : gmap ValueId IrType) : Function :=
  {| fn_name := fn_name f; fn_params := fn_params f; return_type := return_type f;
     blocks := blocks f; block_positions := block_positions f;
     directly_dereferenceable_params := directly_dereferenceable_params f;
     entry := entry f; next_value := next_value f; next_block := next_block f;
     type_cache := c; is_pure := is_pure f; is_elemental := is_elemental f;
     internal_only := internal_only f |}.

(** Update the blocks in place, keeping their order. *)
Definition map_blocks (g : BasicBlock -> BasicBlock) (f : Function) : Function :=
  set_blocks f (g <$> blocks f).

(** * Operations of [Function] *)

(** [Function::new]. *)
Definition new_function (name : string) (params : list Param) (ret : IrType) : Function :=
  {| fn_name := name; fn_params := params; return_type := ret;
     blocks := [new_block 0%N "entry"]; block_positions := [Some 0%nat];
     directly_dereferenceable_params := ∅;
     entry := 0%N;
     next_value := foldr (fun p n => N.max (param_id p + 1) n) 0%N params;
     next_block := 1%N;
     type_cache := foldl (fun c p => <[param_id p := param_ty p]> c) ∅ params;
     is_pure := false; is_elemental := false; internal_only := false |}.

(** [Function::next_value_id]; the counter is a [u32]. *)
Definition next_value_id (f : Function) : ValueId * Function :=
  (next_value f, set_next_value f (wrap_u32 (next_value f + 1))).

(** Rust's [Vec::resize] towards a larger length. *)
Definition resize_to {A} (n : nat) (x : A) (l : list A) : list A :=
  if decide (length l < n)%nat then l ++ replicate (n - length l) x else l.

(** [positions[i].replace(p)]: [None] when the slot was taken (the assertion
    "duplicate block id" fires) or out of range (the index panics). *)
Definition claim_slot (ps : list (option nat)) (i : nat) (p : nat) : option (list (option nat)) :=
  match ps !! i with
  | Some None => Some (<[i := Some p]> ps)
  | _ => None
  end.

(** [format!("{}_{}", name, id.0)] *)
Definition unique_name (name : string) (id : BlockId) : string :=
  (name +:+ "_" +:+ pretty id)%string.

(** [Function::create_block]; [None] is the duplicate-identifier panic. *)
Definition create_block (f : Function) (name : string) : option (BlockId * Function) :=
  let id := next_block f in
  let position := length (blocks f) in
  let f1 := set_next_block f (wrap_u32 (next_block f + 1)) in
  let f2 := set_blocks f1 (blocks f1 ++ [new_block id (unique_name name id)]) in
  let id_index := N.to_nat id in
  ps ← claim_slot (resize_to (S id_index) None (block_positions f2)) id_index position;
  Some (id, set_positions f2 ps).

(** [Function::block_position]. *)
Definition block_position (f : Function) (id : BlockId) : option nat :=
  position ← (block_positions f !! N.to_nat id) ≫= (fun o => o);
  b ← blocks f !! position;
  if bool_decide (block_id b = id) then Some position else None.

(** [Function::try_block]; [Function::block] is the same lookup with a panic on
    [None]. *)
Definition try_block (f : Function) (id : BlockId) : option BasicBlock :=
  block_position f id ≫= fun p => blocks f !! p.

(** [func.block_mut(id)] followed by an update of the block; [None] is the
    panic of [block_mut], and the silent return of [try_block_mut]. *)
Definition update_block (f : Function) (id : BlockId) (g : BasicBlock -> BasicBlock) : option Function :=
  p ← block_position f id;
  b ← blocks f !! p;
  Some (set_blocks f (<[p := g b]> (blocks f))).

Fixpoint claim_all (bs : list BasicBlock) (p : nat) (ps : list (option nat)) : option (list (option nat)) :=
  match bs with
  | [] => Some ps
  | b :: bs => ps' ← claim_slot ps (N.to_nat (block_id b)) p; claim_all bs (S p) ps'
  end.

(** [Function::rebuild_block_positions]; [None] is the duplicate-identifier
    panic. *)
Definition rebuild_block_positions (f : Function) : option Function :=
  let required :=
    N.max (foldr (fun b n => N.max (block_id b + 1) n) 0%N (blocks f)) (next_block f) in
  ps ← claim_all (blocks f) 0 (replicate (N.to_nat required) None);
  Some (set_positions (set_next_block f (N.max (next_block f) (wrap_u32 required))) ps).

(** [Function::swap_blocks]; [None] is an out-of-range index. *)
Definition swap_blocks (f : Function) (left right : nat) : option Function :=
  bl ← blocks f !! left;
  br ← blocks f !! right;
  let f1 := set_blocks f (<[right := bl]> (<[left := br]> (blocks f))) in
  let fix_position (p : nat) (ps : list (option nat)) : option (list (option nat)) :=
    b ← blocks f1 !! p;
    _ ← ps !! N.to_nat (block_id b);
    Some (<[N.to_nat (block_id b) := Some p]> ps) in
  ps1 ← fix_position left (block_positions f1);
  ps2 ← fix_position right ps1;
  Some (set_positions f1 ps2).

Definition register_type (f : Function) (id : ValueId) (ty : IrType) : Function :=
  set_type_cache f (<[id := ty]> (type_cache f)).

(** The definitions of a function in the order the code walks them: parameters,
    then per block its parameters and its instructions. *)
Definition block_defs (b : BasicBlock) : list (ValueId * IrType) :=
  ((fun p => (bp_id p, bp_ty p)) <$> block_params b) ++
  ((fun i => (inst_id i, inst_ty i)) <$> block_insts b).
Definition all_defs (f : Function) : list (ValueId * IrType) :=
  ((fun p => (param_id p, param_ty p)) <$> fn_params f) ++ (blocks f ≫= block_defs).

(** [Function::rebuild_type_cache]. *)
Definition rebuild_type_cache (f : Function) : Function :=
  set_type_cache f
    (foldl (fun c d => <[d.1 := d.2]> c) (∅ : gmap ValueId IrType) (all_defs f)).

Definition cached_value_type (f : Function) (id : ValueId) : option IrType := type_cache f !! id.

(** [Function::value_type]: the cache, else the first definition in walk order. *)
Definition value_type (f : Function) (id : ValueId) : option IrType :=
  match type_cache f !! id with
  | Some ty => Some ty
  | None => (fun r => r.2.2) <$> list_find (fun d => d.1 = id) (all_defs f)
  end.

(** [Function::find_defining_inst]. *)
Definition find_defining_inst (f : Function) (id : ValueId) : option Inst :=
  snd <$> list_find (fun i => inst_id i = id) (blocks f ≫= block_insts).

Definition mark_param_directly_dereferenceable (f : Function) (id : ValueId) : Function :=
  if existsb (fun p => bool_decide (param_id p = id) && is_ptr (param_ty p)) (fn_params f)
  then set_dereferenceable f ({[id]} ∪ directly_dereferenceable_params f)
  else f.

Definition param_is_directly_dereferenceable (f : Function) (id : ValueId) : bool :=
  bool_decide (id ∈ directly_dereferenceable_params f) &&
  existsb (fun p => bool_decide (param_id p = id)) (fn_params f).

(** * Globals and modules *)

Inductive QuadSlot := QInt (v : Z) | QSym (name : string).

Inductive GlobalInit :=
| GZero
| GInt (v : Z)
| GFloat (v : f64)
| GString (bytes : list Z)
| GIntArray (vs : list Z)
| GFloatArray (vs : list f64)
| GQuadTable (slots : list QuadSlot).

Record Global := { global_name : string; global_ty : IrType; initializer : option GlobalInit }.
Record ExternFunc := { ext_name : string; ext_sig : FuncSig }.

Record Module_ := {
  mod_name : string;
  globals : list Global;
  functions : list Function;
  struct_defs : list StructDef;
  extern_funcs : list ExternFunc;
  layout : TargetLayout;
  local_modules : gset string }.

Definition set_functions (m : Module_) (fs : list Function) : Module_ :=
  {| mod_name := mod_name m; globals := globals m; functions := fs;
     struct_defs := struct_defs m; extern_funcs := extern_funcs m;
     layout := layout m; local_modules := local_modules m |}.

(** * The block index

    [block_positions] is a dense index from block identifiers to positions in
    [blocks]; every lookup by identifier goes through it. *)

Record block_index_ok (f : Function) : Prop := {
  index_hit : forall p b, blocks f !! p = Some b ->
    block_positions f !! N.to_nat (block_id b) = Some (Some p);
  index_bound : forall b, b ∈ blocks f -> (block_id b < next_block f)%N;
  index_free : forall i, (N.to_nat (next_block f) <= i)%nat ->
    block_positions f !! i = None \/ block_positions f !! i = Some None }.

Lemma block_index_inj f p q b c :
  block_index_ok f -> blocks f !! p = Some b -> blocks f !! q = Some c ->
  block_id b = block_id c -> p = q.
Proof.
  intros [Hh _ _] Hp Hq E. pose proof (Hh _ _ Hp) as H1. pose proof (Hh _ _ Hq) as H2.
  rewrite E in H1. congruence.
Qed.

Lemma block_position_Some f id p :
  block_index_ok f ->
  block_position f id = Some p <-> exists b, blocks f !! p = Some b /\ block_id b = id.
Proof.
  intros [Hh _ _]. unfold block_position. split.
  - intros H. destruct (block_positions f !! N.to_nat id) as [[q|]|] eqn:E; simpl in H; try done.
    destruct (blocks f !! q) as [b|] eqn:Eb; simpl in H; [|done].
    case_bool_decide; simplify_eq. eauto.
  - intros (b & Hb & <-). rewrite (Hh _ _ Hb). simpl. rewrite Hb. simpl.
    by rewrite bool_decide_true.
Qed.

Lemma try_block_Some f id b :
  block_index_ok f -> try_block f id = Some b <-> b ∈ blocks f /\ block_id b = id.
Proof.
  intros Hok. unfold try_block. split.
  - intros H. destruct (block_position f id) as [p|] eqn:E; simpl in H; [|done].
    apply block_position_Some in E as (c & Hc & Hid); [|done].
    rewrite Hc in H. simplify_eq. split; [|done]. by eapply list_elem_of_lookup_2.
  - intros [Hin Hid]. apply list_elem_of_lookup in Hin as [p Hp].
    assert (block_position f id = Some p) as -> by (apply block_position_Some; eauto).
    done.
Qed.

Lemma try_block_None f id :
  block_index_ok f -> try_block f id = None <-> id ∉ (block_id <$> blocks f).
Proof.
  intros Hok. split.
  - intros Hn Hin. apply list_elem_of_fmap in Hin as (b & -> & Hb).
    assert (try_block f (block_id b) = Some b) by (by apply try_block_Some). congruence.
  - intros Hn. destruct (try_block f id) as [b|] eqn:E; [|done].
    apply try_block_Some in E as [Hin <-]; [|done]. exfalso. apply Hn.
    by apply list_elem_of_fmap_2.
Qed.

Lemma block_ids_NoDup f : block_index_ok f -> NoDup (block_id <$> blocks f).
Proof.
  intros Hok. apply NoDup_alt. intros i j x Hi Hj.
  rewrite list_lookup_fmap in Hi, Hj.
  apply fmap_Some in Hi as (b & Hb & ->). apply fmap_Some in Hj as (c & Hc & E).
  by eapply block_index_inj.
Qed.

Lemma claim_slot_Some ps i p ps' :
  claim_slot ps i p = Some ps' <-> ps !! i = Some None /\ ps' = <[i := Some p]> ps.
Proof.
  unfold claim_slot. split.
  - destruct (ps !! i) as [[]|] eqn:E; intros; simplify_eq; done.
  - intros [-> ->]. done.
Qed.

Lemma resize_to_lookup {A} n (x : A) l i :
  resize_to n x l !! i =
    if decide (i < length l)%nat then l !! i else if decide (i < n)%nat then Some x else None.
Proof.
  unfold resize_to. repeat case_decide; try lia.
  - by rewrite lookup_app_l.
  - rewrite lookup_app_r by lia. apply lookup_replicate_2. lia.
  - apply lookup_ge_None. rewrite length_app, length_replicate. lia.
  - done.
  - apply lookup_ge_None. lia.
Qed.

(** Creating a block never panics on an indexed function, keeps the index
    exact, and appends one empty block under a fresh identifier. *)
Lemma create_block_spec f name :
  block_index_ok f -> (next_block f < u32_max)%N ->
  exists f', create_block f name = Some (next_block f, f') /\
    block_index_ok f' /\
    blocks f' = blocks f ++ [new_block (next_block f) (unique_name name (next_block f))] /\
    next_block f ∉ (block_id <$> blocks f).
Proof.
  intros [Hh Hb Hf] Hlt. unfold create_block. simpl.
  set (id := next_block f). set (ps := resize_to _ _ _).
  assert (Hslot : ps !! N.to_nat id = Some None).
  { unfold ps. rewrite resize_to_lookup. case_decide.
    - destruct (Hf (N.to_nat id)) as [Hn | Hn]; [lia | | done].
      apply lookup_ge_None in Hn. lia.
    - rewrite decide_True by lia. done. }
  assert (Hold : forall i, i <> N.to_nat id -> (N.to_nat id < i)%nat \/ is_Some (block_positions f !! i) ->
    ps !! i = block_positions f !! i \/ ps !! i = None).
  { intros i Hi Hor. unfold ps. rewrite resize_to_lookup. case_decide; [by left|].
    destruct Hor as [? | Hs].
    - rewrite decide_False by lia. by right.
    - apply lookup_lt_is_Some in Hs. lia. }
  assert (Hfresh : id ∉ (block_id <$> blocks f)).
  { intros Hin. apply list_elem_of_fmap in Hin as (b & E & Hin). specialize (Hb b Hin). lia. }
  eexists. split; [|split; [|split]].
  - assert (claim_slot ps (N.to_nat id) (length (blocks f)) =
      Some (<[N.to_nat id := Some (length (blocks f))]> ps)) as -> by (by apply claim_slot_Some).
    simpl. reflexivity.
  - unfold wrap_u32. rewrite N.mod_small by (unfold u32_max in Hlt; lia).
    split; simpl.
    + intros p b Hp. apply lookup_app_Some in Hp as [Hp | [Hge Hp]].
      * pose proof (Hb b (list_elem_of_lookup_2 _ _ _ Hp)).
        rewrite list_lookup_insert_ne by lia. specialize (Hh _ _ Hp).
        destruct (Hold (N.to_nat (block_id b))) as [E | E]; [lia | by right; rewrite Hh | congruence |].
        exfalso. unfold ps in E. rewrite resize_to_lookup in E.
        apply lookup_lt_Some in Hh as ?. rewrite decide_True in E by lia. congruence.
      * apply list_lookup_singleton_Some in Hp as [Hz <-]. simpl.
        rewrite list_lookup_insert_eq by (apply lookup_lt_is_Some; by rewrite Hslot). f_equal. f_equal. lia.
    + intros b Hin. apply elem_of_app in Hin as [Hin | Hin]; [specialize (Hb b Hin); lia|].
      apply list_elem_of_singleton in Hin as ->. simpl. lia.
    + intros i Hi. rewrite list_lookup_insert_ne by lia.
      destruct (Hold i) as [-> | ->]; [lia | left; lia | | by left]. apply Hf. lia.
  - reflexivity.
  - exact Hfresh.
Qed.

Lemma swap_lookup {A} (l : list A) i j x y k :
  l !! i = Some x -> l !! j = Some y ->
  <[j := x]> (<[i := y]> l) !! k =
    if decide (k = j) then Some x else if decide (k = i) then Some y else l !! k.
Proof.
  intros Hi Hj. apply lookup_lt_Some in Hi as ?. apply lookup_lt_Some in Hj as ?.
  repeat case_decide; subst.
  - apply list_lookup_insert_eq. rewrite length_insert. lia.
  - rewrite list_lookup_insert_ne by done. by apply list_lookup_insert_eq.
  - rewrite !list_lookup_insert_ne by done. done.
Qed.

(** Reordering two blocks keeps the index exact and permutes the blocks. *)
Lemma swap_blocks_spec f i j :
  block_index_ok f -> (i < length (blocks f))%nat -> (j < length (blocks f))%nat ->
  exists f', swap_blocks f i j = Some f' /\ block_index_ok f' /\
    blocks f' ≡ₚ blocks f /\ (forall id, try_block f' id = try_block f id).
Proof.
  intros Hok Hi Hj. pose proof Hok as [Hh Hb Hf].
  apply lookup_lt_is_Some in Hi as [x Hx]. apply lookup_lt_is_Some in Hj as [y Hy].
  unfold swap_blocks. rewrite Hx, Hy. simpl.
  pose proof (swap_lookup _ _ _ _ _ i Hx Hy) as Ei. pose proof (swap_lookup _ _ _ _ _ j Hx Hy) as Ej.
  rewrite decide_True in Ej by done.
  set (bs := <[j := x]> (<[i := y]> (blocks f))) in *.
  assert (Ei' : bs !! i = Some y).
  { rewrite Ei. case_decide; [subst; congruence|]. by rewrite decide_True. }
  rewrite Ei', Ej. simpl. rewrite (Hh _ _ Hy). simpl.
  assert (Hx' : is_Some (<[N.to_nat (block_id y) := Some i]> (block_positions f) !! N.to_nat (block_id x))).
  { apply lookup_lt_is_Some. rewrite length_insert. apply lookup_lt_is_Some. by rewrite (Hh _ _ Hx). }
  destruct Hx' as [q Hq]. rewrite Hq. simpl.
  set (ps := <[_ := Some j]> _).
  assert (Hperm : bs ≡ₚ blocks f).
  { symmetry. destruct (decide (i = j)) as [->|Hij].
    - assert (x = y) as -> by congruence. unfold bs.
      rewrite (list_insert_id (blocks f) j y) by done. by rewrite list_insert_id.
    - apply Permutation_inj. split; [by unfold bs; rewrite !length_insert|].
      exists (fun k => if decide (k = i) then j else if decide (k = j) then i else k). split.
      + intros a b. repeat case_decide; subst; lia.
      + intros k. unfold bs. rewrite (swap_lookup _ _ _ _ _ _ Hx Hy).
        repeat case_decide; subst; try done; try lia. }
  assert (Hps : forall b p, bs !! p = Some b -> ps !! N.to_nat (block_id b) = Some (Some p)).
  { intros b p Hp. unfold ps.
    assert (Lx : (N.to_nat (block_id x) < length (block_positions f))%nat)
      by (apply lookup_lt_is_Some; by rewrite (Hh _ _ Hx)).
    assert (Ly : (N.to_nat (block_id y) < length (block_positions f))%nat)
      by (apply lookup_lt_is_Some; by rewrite (Hh _ _ Hy)).
    unfold bs in Hp. rewrite (swap_lookup _ _ _ _ _ _ Hx Hy) in Hp.
    destruct (decide (p = j)) as [->|]; [|destruct (decide (p = i)) as [->|]].
    - injection Hp as <-. apply list_lookup_insert_eq. by rewrite length_insert.
    - injection Hp as <-. destruct (decide (block_id y = block_id x)) as [E|E].
      + exfalso. pose proof (block_index_inj _ _ _ _ _ Hok Hy Hx E). congruence.
      + rewrite list_lookup_insert_ne by (intros E'; apply N2Nat.inj in E'; congruence).
        by apply list_lookup_insert_eq.
    - assert (block_id b <> block_id x /\ block_id b <> block_id y) as [E1 E2].
      { split; intros E.
        - pose proof (block_index_inj _ _ _ _ _ Hok Hp Hx E). congruence.
        - pose proof (block_index_inj _ _ _ _ _ Hok Hp Hy E). congruence. }
      rewrite !list_lookup_insert_ne by (intros E'; apply N2Nat.inj in E'; congruence).
      by apply Hh. }
  assert (Hok' : block_index_ok (set_positions (set_blocks f bs) ps)).
  { split; simpl.
    - intros p b Hp. by apply Hps.
    - intros b Hin. apply Hb. by rewrite <- Hperm.
    - intros k Hk. unfold ps.
      pose proof (Hb x (list_elem_of_lookup_2 _ _ _ Hx)).
      pose proof (Hb y (list_elem_of_lookup_2 _ _ _ Hy)).
      rewrite !list_lookup_insert_ne by lia. by apply Hf. }
  eexists. split; [reflexivity|]. split; [exact Hok'|]. split; [exact Hperm|].
  intros k. destruct (try_block f k) as [b|] eqn:E.
  - apply try_block_Some in E as [Hin Hk]; [|done]. apply try_block_Some; [done|].
    split; [|done]. simpl. by rewrite Hperm.
  - apply try_block_None in E; [|done]. apply try_block_None; [done|]. simpl. by rewrite Hperm.
Qed.

Lemma claim_all_spec bs p ps :
  NoDup (block_id <$> bs) ->
  (forall b, b ∈ bs -> ps !! N.to_nat (block_id b) = Some None) ->
  exists ps', claim_all bs p ps = Some ps' /\ length ps' = length ps /\
    (forall k b, bs !! k = Some b -> ps' !! N.to_nat (block_id b) = Some (Some (p + k)%nat)) /\
    (forall i, (forall b, b ∈ bs -> N.to_nat (block_id b) <> i) -> ps' !! i = ps !! i).
Proof.
  revert p ps. induction bs as [|b bs IH]; intros p ps Hnd Hfree; simpl.
  { exists ps. split; [done|]. split; [done|]. split; [intros k b Hk; by rewrite lookup_nil in Hk | done]. }
  rewrite fmap_cons in Hnd. apply list.NoDup_cons in Hnd as [Hb Hnd].
  assert (Hs : ps !! N.to_nat (block_id b) = Some None) by (apply Hfree; left).
  rewrite (proj2 (claim_slot_Some _ _ _ _) (conj Hs eq_refl)). simpl.
  assert (Hne : forall c, c ∈ bs -> N.to_nat (block_id c) <> N.to_nat (block_id b)).
  { intros c Hc E. apply N2Nat.inj in E. apply Hb. rewrite <- E. by apply list_elem_of_fmap_2. }
  destruct (IH (S p) (<[N.to_nat (block_id b) := Some p]> ps)) as (ps' & Hc & Hl & Hk & Ho); [done | |].
  { intros c Hc. rewrite list_lookup_insert_ne by (by apply not_eq_sym, Hne). apply Hfree. by right. }
  exists ps'. split; [done|]. split; [by rewrite Hl, length_insert|]. split.
  - intros [|k] c Hc'; simpl in Hc'; simplify_eq.
    + rewrite Ho by done. rewrite list_lookup_insert_eq by (apply lookup_lt_is_Some; by rewrite Hs).
      f_equal. f_equal. lia.
    + rewrite (Hk _ _ Hc'). f_equal. f_equal. lia.
  - intros i Hi. rewrite Ho by (intros c Hc'; apply Hi; by right).
    apply list_lookup_insert_ne. apply Hi. left.
Qed.

Lemma max_block_id_bound bs b :
  b ∈ bs -> (block_id b + 1 <= foldr (fun b n => N.max (block_id b + 1) n) 0 bs)%N.
Proof.
  induction bs as [|c bs IH]; intros Hin; [by apply not_elem_of_nil in Hin|].
  apply elem_of_cons in Hin as [-> | Hin]; simpl; [|specialize (IH Hin)]; lia.
Qed.

(** After bulk mutation the rebuilt index is exact, provided the identifiers
    are distinct and below the [u32] limit; otherwise the code panics. *)
Lemma rebuild_block_positions_spec f :
  NoDup (block_id <$> blocks f) ->
  (forall b, b ∈ blocks f -> (block_id b < u32_max)%N) -> (next_block f <= u32_max)%N ->
  exists f', rebuild_block_positions f = Some f' /\ block_index_ok f' /\
    blocks f' = blocks f /\ (next_block f <= next_block f')%N.
Proof.
  intros Hnd Hb Hn. unfold rebuild_block_positions.
  set (mx := foldr _ _ _). set (required := N.max mx (next_block f)).
  assert (Hmx : (mx <= u32_max)%N).
  { unfold mx. clear Hnd mx required. induction (blocks f) as [|b bs IH]; simpl; [lia|].
    pose proof (Hb b ltac:(left)). assert (forall c, c ∈ bs -> (block_id c < u32_max)%N) as Hbs
      by (intros c Hc; apply Hb; by right). specialize (IH Hbs). lia. }
  assert (Hin : forall b, b ∈ blocks f -> (block_id b < required)%N).
  { intros b Hbin. pose proof (max_block_id_bound _ _ Hbin). unfold required, mx. lia. }
  destruct (claim_all_spec (blocks f) 0 (replicate (N.to_nat required) None)) as (ps & Hc & Hl & Hk & Ho);
    [done | |].
  { intros b Hbin. apply lookup_replicate_2. specialize (Hin b Hbin). lia. }
  rewrite Hc. simpl. unfold wrap_u32. rewrite N.mod_small by (unfold u32_max in *; lia).
  eexists. split; [reflexivity|]. split; [|split; [done | simpl; lia]].
  split; simpl.
  - intros p b Hp. by apply Hk.
  - intros b Hbin. specialize (Hin b Hbin). lia.
  - intros i Hi. left. apply lookup_ge_None. rewrite Hl, length_replicate. unfold required. lia.
Qed.

(** In-place updates that keep every block's identifier keep the index. *)
Lemma map_blocks_index f g :
  (forall b, block_id (g b) = block_id b) -> block_index_ok f -> block_index_ok (map_blocks g f).
Proof.
  intros Hg [Hh Hb Hf]. split; simpl.
  - intros p b Hp. rewrite list_lookup_fmap in Hp. apply fmap_Some in Hp as (c & Hc & ->).
    rewrite Hg. by apply Hh.
  - intros b Hin. apply list_elem_of_fmap in Hin as (c & -> & Hc). rewrite Hg. by apply Hb.
  - done.
Qed.

Lemma update_block_index f id g f' :
  (forall b, block_id (g b) = block_id b) -> block_index_ok f ->
  update_block f id g = Some f' -> block_index_ok f'.
Proof.
  intros Hg Hok. pose proof Hok as [Hh Hb Hf]. unfold update_block.
  intros H. destruct (block_position f id) as [p|] eqn:Ep; simpl in H; [|done].
  destruct (blocks f !! p) as [b|] eqn:Eb; simpl in H; [|done]. simplify_eq.
  apply lookup_lt_Some in Eb as Hlt.
  assert (Hlk : forall q c, <[p := g b]> (blocks f) !! q = Some c ->
    exists c', blocks f !! q = Some c' /\ block_id c = block_id c').
  { intros q c Hq. destruct (decide (p = q)) as [<-|].
    - rewrite list_lookup_insert_eq in Hq by done. simplify_eq. eauto.
    - rewrite list_lookup_insert_ne in Hq by done. eauto. }
  split; simpl.
  - intros q c Hq. apply Hlk in Hq as (c' & Hc' & ->). by apply Hh.
  - intros c Hin. apply list_elem_of_lookup in Hin as [q Hq].
    apply Hlk in Hq as (c' & Hc' & ->). apply Hb. by eapply list_elem_of_lookup_2.
  - done.
Qed.

(** * Types of values *)

Lemma foldl_insert_lookup (l : list (ValueId * IrType)) (c : gmap ValueId IrType) v :
  NoDup l.*1 ->
  foldl (fun c d => <[d.1 := d.2]> c) c l !! v =
    match list_find (fun d => d.1 = v) l with Some (_, d) => Some d.2 | None => c !! v end.
Proof.
  revert c. induction l as [|[x t] l IH]; intros c Hnd; simpl; [done|].
  apply list.NoDup_cons in Hnd as [Hx Hnd]. rewrite IH by done.
  case_decide as E; simpl.
  - subst. destruct (list_find _ l) as [[k d]|] eqn:Ef.
    + exfalso. apply list_find_Some in Ef as (Hk & Hd & _). apply Hx.
      simpl in *. subst. apply list_elem_of_fmap_2. by eapply list_elem_of_lookup_2.
    + by rewrite lookup_insert_eq.
  - rewrite lookup_insert_ne by done.
    destruct (list_find _ l) as [[k d]|] eqn:Ef; done.
Qed.

(** On SSA code the rebuilt cache and the authoritative walk agree. *)
Lemma value_type_rebuild f v :
  NoDup (all_defs f).*1 ->
  value_type (rebuild_type_cache f) v = value_type (set_type_cache f ∅) v.
Proof.
  intros Hnd. unfold value_type. simpl. rewrite foldl_insert_lookup by done.
  change (all_defs (rebuild_type_cache f)) with (all_defs f).
  change (all_defs (set_type_cache f ∅)) with (all_defs f).
  rewrite lookup_empty.
  destruct (list_find _ (all_defs f)) as [[k d]|]; done.
Qed.

(** ** Deciding the index invariant *)

Definition index_okb (f : Function) : bool :=
  forallb (fun p => bool_decide (block_positions f !! N.to_nat (block_id p.2) = Some (Some p.1)))
    (zip (seq 0 (length (blocks f))) (blocks f)) &&
  forallb (fun b => (block_id b <? next_block f)%N) (blocks f) &&
  forallb (fun o => bool_decide (o = None)) (drop (N.to_nat (next_block f)) (block_positions f)).

Lemma index_okb_sound f : index_okb f = true -> block_index_ok f.
Proof.
  unfold index_okb. rewrite !andb_true_iff, !forallb_forall. intros [[Hh Hb] Hf]. split.
  - intros p b Hp. specialize (Hh (p, b)). simpl in Hh. apply bool_decide_eq_true in Hh; [done|].
    apply list_elem_of_In, list_elem_of_lookup. exists p.
    assert (Hl := lookup_lt_Some _ _ _ Hp).
    rewrite lookup_zip_with, lookup_seq_lt by done. simpl. rewrite Hp. done.
  - intros b Hin. apply N.ltb_lt, Hb. by apply list_elem_of_In.
  - intros i Hi. destruct (block_positions f !! i) as [o|] eqn:E; [right|by left].
    specialize (Hf o). apply bool_decide_eq_true in Hf; [by subst|].
    apply list_elem_of_In, list_elem_of_lookup. exists (i - N.to_nat (next_block f))%nat.
    rewrite lookup_drop, <- E. f_equal. lia.
Qed.

(** * Properties *)

(** [create_block] succeeds on an indexed function with room in its counter:
    the new block is last, its identifier is fresh, and every block is still
    found by its identifier. *)
Theorem create_block_keeps_index f name :
  block_index_ok f -> (next_block f < u32_max)%N ->
  exists f', create_block f name = Some (next_block f, f') /\ block_index_ok f' /\
    blocks f' = blocks f ++ [new_block (next_block f) (unique_name name (next_block f))] /\
    next_block f ∉ (block_id <$> blocks f).
Proof. apply create_block_spec. Qed.

(** [swap_blocks] reorders the blocks and changes no lookup by identifier. *)
Theorem swap_blocks_keeps_lookup f i j :
  block_index_ok f -> (i < length (blocks f))%nat -> (j < length (blocks f))%nat ->
  exists f', swap_blocks f i j = Some f' /\ block_index_ok f' /\
    blocks f' ≡ₚ blocks f /\ (forall id, try_block f' id = try_block f id).
Proof. apply swap_blocks_spec. Qed.

(** After [rebuild_type_cache], [value_type] answers exactly with the type of
    the value's definition (parameter, block parameter or instruction). *)
Theorem value_type_exact f v ty :
  NoDup (all_defs f).*1 -> value_type (rebuild_type_cache f) v = Some ty <-> (v, ty) ∈ all_defs f.
Proof.
  intros Hnd. unfold value_type. simpl. rewrite foldl_insert_lookup, lookup_empty by done.
  change (all_defs (rebuild_type_cache f)) with (all_defs f).
  destruct (list_find (fun d => d.1 = v) (all_defs f)) as [[k [v' ty']]|] eqn:E; simpl.
  - apply list_find_Some in E as (Hk & Hv & _). simpl in Hv. subst v'. apply list_elem_of_lookup_2 in Hk. split.
    + intros [= <-]. done.
    + intros Hin. f_equal. assert ((v, ty') = (v, ty)) as [= <-]; [|done].
      by apply (NoDup_fmap_inj_on fst (all_defs f)).
  - apply list_find_None in E. rewrite Forall_forall in E. split; [done|]. intros Hin. by destruct (E _ Hin).
Qed.

Definition two_blocks : Function :=
  {| fn_name := "f"; fn_params := [{| param_name := "flag"; param_ty := TBool; param_id := 7; fortran_noalias := false |}];
     return_type := Void; blocks := [new_block 0 "entry"; new_block 1 "next"];
     block_positions := [Some 0%nat; Some 1%nat]; directly_dereferenceable_params := ∅; entry := 0; next_value := 8; next_block := 2;
     type_cache := ∅; is_pure := false; is_elemental := false; internal_only := false |}.

Lemma two_blocks_index : block_index_ok two_blocks.
Proof. apply index_okb_sound. vm_compute. reflexivity. Qed.

Lemma create_block_keeps_index_witness :
  exists f', create_block two_blocks "loop" = Some (2%N, f') /\ block_index_ok f' /\
    blocks f' = blocks two_blocks ++ [new_block 2 (unique_name "loop" 2)] /\ 2%N ∉ (block_id <$> blocks two_blocks).
Proof. apply (create_block_keeps_index two_blocks); [apply two_blocks_index | vm_compute; reflexivity]. Defined.

Lemma swap_blocks_keeps_lookup_witness :
  exists f', swap_blocks two_blocks 0 1 = Some f' /\ block_index_ok f' /\
    blocks f' ≡ₚ blocks two_blocks /\ (forall id, try_block f' id = try_block two_blocks id).
Proof. apply swap_blocks_keeps_lookup; [apply two_blocks_index | simpl; lia | simpl; lia]. Defined.

Lemma value_type_exact_witness : value_type (rebuild_type_cache two_blocks) 7 = Some TBool.
Proof.
  apply value_type_exact; [apply NoDup_singleton | by left].
Defined.
