(* ===== verification/Sample.v ===== *)
(** Small concrete functions, at which the theorems of the development are
    instantiated.

    [loop_fn] counts from 0 to its parameter, the shape the Fortran front end
    gives a [do] loop: an entry block, a header with a block parameter and a
    comparison, a body and an exit. *)

From S2P Require Import Prelude IrTypes IrInst.
Local Open Scope Z_scope.
Local Open Scope string_scope.

Definition no_span : Span :=
  {| span_start := {| pos_line := 0; pos_col := 0 |}; span_end := {| pos_line := 0; pos_col := 0 |}; file_id := 0 |}.

Definition mk_inst (id : ValueId) (k : InstKind) (ty : IrType) : Inst :=
  {| inst_id := id; inst_kind := k; inst_ty := ty; inst_span := no_span |}.

Definition mk_block (id : BlockId) (name : string) (ps : list BlockParam) (il : list Inst) (t : Terminator) : BasicBlock :=
  {| block_id := id; block_name := name; block_params := ps; block_insts := il; block_term := Some t;
     loop_unswitch_generated := false; partial_unroll_remainder := false |}.

(** A function from its blocks, numbered densely from 0. *)
Definition mk_fn (name : string) (ps : list Param) (ret : IrType) (bs : list BasicBlock) (next : N) : Function :=
  {| fn_name := name; fn_params := ps; return_type := ret; blocks := bs;
     block_positions := Some <$> seq 0 (length bs); directly_dereferenceable_params := ∅;
     entry := 0; next_value := next; next_block := N.of_nat (length bs);
     type_cache := ∅; is_pure := false; is_elemental := false; internal_only := false |}.

Definition i32 : IrType := TInt I32.

Definition loop_entry : BasicBlock :=
  mk_block 0 "entry" [] [mk_inst 1 (ConstInt 0 I32) i32] (Branch 1 [1%N]).
Definition loop_header : BasicBlock :=
  mk_block 1 "header" [{| bp_id := 2; bp_ty := i32 |}] [mk_inst 3 (ICmp CLt 2 0) TBool]
    (CondBranch 3 2 [] 3 []).
Definition loop_body : BasicBlock :=
  mk_block 2 "body" [] [mk_inst 4 (ConstInt 1 I32) i32; mk_inst 5 (IAdd 2 4) i32] (Branch 1 [5%N]).
Definition loop_exit : BasicBlock := mk_block 3 "exit" [] [] (Return (Some 2%N)).

Definition loop_fn : Function :=
  mk_fn "count" [{| param_name := "n"; param_ty := i32; param_id := 0; fortran_noalias := false |}] i32
    [loop_entry; loop_header; loop_body; loop_exit] 6.

Lemma loop_fn_index : block_index_ok loop_fn.
Proof. apply index_okb_sound. vm_compute. reflexivity. Qed.

(** [return 2 + 3], before optimization. *)
Definition sum_fn : Function :=
  mk_fn "sum" [] i32
    [mk_block 0 "entry" []
       [mk_inst 0 (ConstInt 2 I32) i32; mk_inst 1 (ConstInt 3 I32) i32; mk_inst 2 (IAdd 0 1) i32]
       (Return (Some 2%N))] 3.

Definition mk_module (fs : list Function) : Module_ :=
  {| mod_name := "sample"; globals := []; functions := fs; struct_defs := []; extern_funcs := [];
     layout := LP64; local_modules := ∅ |}.
