(* ===== verification/Worklist.v ===== *)
(** The breadth-first worklist loop the compiler uses for reachability
    questions (block pruning, dominator analysis, local stack addresses,
    call-graph closures): a visited set, a queue, and a successor function.

    [bfs] is the loop with fuel; [bfs_spec] says that what it returns is exactly
    the set reachable from the seeds, and [bfs_total] that fuel for one pop per
    node of a closed finite universe is always enough. *)

From S2P Require Import Prelude.

Section worklist.
Context {K : Type} `{Countable K}.
Context (succ : K -> list K).

(** [for t in succ { if seen.insert(t) { queue.push_back(t) } }] *)
Fixpoint visit (ts : list K) (seen : gset K) (q : list K) : gset K * list K :=
match ts with
| [] => (seen, q)
| t :: ts => if decide (t ∈ seen) then visit ts seen q
else visit ts ({[t]} ∪ seen) (q ++ [t])
end.

(** [while let Some(b) = queue.pop_front()] *)
Fixpoint bfs (fuel : nat) (seen : gset K) (q : list K) : option (gset K) :=
match q with
| [] => Some seen
| b :: q =>
match fuel with
| O => None
| S fuel => let '(seen', q') := visit (succ b) seen q in bfs fuel seen' q'
end
end.

Definition edge (a b : K) : Prop := b ∈ succ a.

Lemma visit_spec ts seen q :
let '(seen', q') := visit ts seen q in
(forall x, x ∈ seen' <-> x ∈ seen \/ x ∈ ts) /\
exists new, q' = q ++ new /\ (forall x, x ∈ new -> x ∈ ts /\ x ∉ seen) /\
NoDup new /\ size seen' = (size seen + length new)%nat /\
(forall x, x ∈ seen' -> x ∈ seen \/ x ∈ new).
Proof.
revert seen q. induction ts as [|t ts IH]; intros seen q; simpl.
{ split; [set_solver|]. exists []. rewrite app_nil_r.
split; [done|]. split; [set_solver|]. split; [constructor|]. split; [simpl; lia|set_solver]. }
case_decide as Ht.
- specialize (IH seen q). destruct (visit ts seen q) as [s' q'].
destruct IH as (Hs & new & -> & Hn & Hnd & Hsz & Hin). split; [set_solver|].
exists new. split; [done|]. split; [set_solver|]. done.
- specialize (IH ({[t]} ∪ seen) (q ++ [t])).
destruct (visit ts ({[t]} ∪ seen) (q ++ [t])) as [s' q'].
destruct IH as (Hs & new & -> & Hn & Hnd & Hsz & Hin). split; [set_solver|].
exists (t :: new). rewrite <- app_assoc. simpl. split; [done|].
split; [|split; [|split]].
+ intros x Hx. apply elem_of_cons in Hx as [-> | Hx]; [set_solver|]. destruct (Hn x Hx). set_solver.
+ apply list.NoDup_cons. split; [|done]. intros Hin'. destruct (Hn t Hin') as [_ Hno]. set_solver.
+ rewrite Hsz, size_union by set_solver. rewrite size_singleton. lia.
+ intros x Hx. destruct (Hin x Hx); set_solver.
Qed.

(** Everything visited is reachable, and everything dequeued has its
successors visited. *)
Record bfs_inv (roots : gset K) (seen : gset K) (q : list K) : Prop := {
inv_roots : roots ⊆ seen;
inv_reach : forall x, x ∈ seen -> exists r, r ∈ roots /\ rtc edge r x;
inv_queue : forall x, x ∈ q -> x ∈ seen;
inv_closed : forall x y, x ∈ seen -> x ∉ q -> edge x y -> y ∈ seen }.

Lemma bfs_inv_step roots seen b q :
bfs_inv roots seen (b :: q) -> b ∉ q ->
let '(seen', q') := visit (succ b) seen q in bfs_inv roots seen' q'.
Proof.
intros [Hr Hreach Hq Hc] Hb. pose proof (visit_spec (succ b) seen q) as Hv.
destruct (visit (succ b) seen q) as [s' q'].
destruct Hv as (Hs & new & -> & Hn & _ & _ & Hin). split.
- set_solver.
- intros x Hx. apply Hs in Hx as [Hx | Hx]; [by apply Hreach|].
destruct (Hreach b) as (r & Hrr & Hrb); [apply Hq; left|].
exists r. split; [done|]. eapply rtc_r; [exact Hrb | exact Hx].
- intros x Hx. apply elem_of_app in Hx as [Hx | Hx]; apply Hs.
+ left. apply Hq. by right.
+ right. by apply Hn.
- intros x y Hx Hnq He. apply Hs. destruct (decide (x = b)) as [->|Hxb]; [by right|].
destruct (Hin x Hx) as [Hx' | Hx']; [|set_solver].
left. apply (Hc x y Hx'); [|done]. set_solver.
Qed.

Lemma visit_NoDup ts seen q :
NoDup q -> (forall x, x ∈ q -> x ∈ seen) ->
NoDup (visit ts seen q).2 /\ (forall x, x ∈ (visit ts seen q).2 -> x ∈ (visit ts seen q).1).
Proof.
intros Hnd Hq. pose proof (visit_spec ts seen q) as Hv.
destruct (visit ts seen q) as [s' q']. destruct Hv as (Hs & new & -> & Hn & Hnd' & _ & _). simpl.
split.
- apply list.NoDup_app. split; [done|]. split; [|done]. intros x Hx Hx'.
destruct (Hn x Hx') as [_ Hno]. by apply Hno, Hq.
- intros x Hx. apply Hs. apply elem_of_app in Hx as [Hx|Hx]; [left; by apply Hq | right; by apply Hn].
Qed.

Lemma bfs_inv_done roots seen :
bfs_inv roots seen [] ->
forall x, x ∈ seen <-> exists r, r ∈ roots /\ rtc edge r x.
Proof.
intros [Hr Hreach _ Hc] x. split; [by apply Hreach|]. intros (r & Hrr & Hx).
apply Hr in Hrr. clear Hr Hreach. induction Hx as [|a b c Hab _ IH]; [done|].
apply IH, (Hc a b); [done | apply not_elem_of_nil | done].
Qed.

Lemma bfs_inv_init (roots : gset K) q :
(forall x, x ∈ q <-> x ∈ roots) -> bfs_inv roots roots q.
Proof.
intros Hq. split; [done | | set_solver |].
- intros x Hx. exists x. split; [done | apply rtc_refl].
- intros x y Hx Hnq. exfalso. by apply Hnq, Hq.
Qed.

Lemma bfs_inv_spec roots fuel seen q s :
bfs_inv roots seen q -> NoDup q -> bfs fuel seen q = Some s ->
forall x, x ∈ s <-> exists r, r ∈ roots /\ rtc edge r x.
Proof.
revert seen q. induction fuel as [|fuel IH]; intros seen [|b q] Hinv Hnd Hb; simpl in Hb.
1, 3: simplify_eq; by apply bfs_inv_done.
{ done. }
apply list.NoDup_cons in Hnd as [Hbq Hnd].
pose proof (bfs_inv_step _ _ _ _ Hinv Hbq) as Hinv'.
pose proof (visit_NoDup (succ b) seen q Hnd
(fun x Hx => inv_queue _ _ _ Hinv x (list_elem_of_further _ _ _ Hx))) as [Hnd' _].
destruct (visit (succ b) seen q) as [s' q']. by eapply IH.
Qed.

(** What the loop finds beyond what was seen has a predecessor it found. *)
Lemma bfs_pred fuel seen q s :
(forall x, x ∈ q -> x ∈ seen) -> bfs fuel seen q = Some s ->
seen ⊆ s /\ forall x, x ∈ s -> x ∈ seen \/ exists y, y ∈ s /\ edge y x.
Proof.
revert seen q. induction fuel as [|fuel IH]; intros seen [|b q] Hq Hb; simpl in Hb; simplify_eq; [by split; [|left]..|].
pose proof (visit_spec (succ b) seen q) as Hv. destruct (visit (succ b) seen q) as [seen' q'].
destruct Hv as (Hs & new & -> & Hn & _).
destruct (IH seen' (q ++ new)) as [Hsub Hpred]; [|done|].
- intros x [Hx|Hx]%elem_of_app; apply Hs; [left; apply Hq; by right | right; by apply Hn].
- assert (Hseen : seen ⊆ s) by (intros x Hx; apply Hsub, Hs; by left). split; [done|]. intros x Hx.
destruct (Hpred x Hx) as [[|He]%Hs|]; [by left | | by right]. right. exists b. split; [|done]. apply Hseen, Hq. left.
Qed.

(** The set returned from a single seed is the set of nodes reachable from it. *)
Lemma bfs_spec e fuel s :
bfs fuel {[e]} [e] = Some s -> forall x, x ∈ s <-> rtc edge e x.
Proof.
intros Hb x. rewrite (bfs_inv_spec {[e]} fuel {[e]} [e] s).
- set_solver.
- apply bfs_inv_init. set_solver.
- apply NoDup_singleton.
- done.
Qed.

(** Fuel: one pop per node of a universe closed under successors. *)
Lemma bfs_total (U : gset K) fuel seen q :
(forall x y, x ∈ U -> y ∈ succ x -> y ∈ U) ->
seen ⊆ U -> (forall x, x ∈ q -> x ∈ seen) -> NoDup q ->
(length q + (size U - size seen) <= fuel)%nat ->
is_Some (bfs fuel seen q).
Proof.
intros Hcl. revert seen q. induction fuel as [|fuel IH]; intros seen [|b q] HU Hq Hnd Hf; simpl in *;
[done | lia | done |].
apply list.NoDup_cons in Hnd as [Hbq Hnd].
assert (Hq' : forall x, x ∈ q -> x ∈ seen) by (intros x Hx; apply Hq; by right).
pose proof (visit_NoDup (succ b) seen q Hnd Hq') as [Hnd2 Hq2].
pose proof (visit_spec (succ b) seen q) as Hv. destruct (visit (succ b) seen q) as [s' q'].
destruct Hv as (Hs & new & -> & Hn & _ & Hsz & _). simpl in *.
assert (HU' : s' ⊆ U).
{ intros x Hx. apply Hs in Hx as [Hx|Hx]; [by apply HU|].
apply (Hcl b); [|done]. apply HU, Hq. left. }
pose proof (subseteq_size _ _ HU'). pose proof (subseteq_size _ _ HU).
apply IH; [done | done | done |]. rewrite length_app. lia.
Qed.

Lemma bfs_total_single (U : gset K) e fuel :
e ∈ U -> (forall x y, x ∈ U -> y ∈ succ x -> y ∈ U) -> (size U <= fuel)%nat ->
is_Some (bfs fuel {[e]} [e]).
Proof.
intros He Hcl Hf. apply (bfs_total U); [done | set_solver | set_solver | apply NoDup_singleton |].
rewrite size_singleton. simpl.
assert (size U <> 0)%nat by (intros E; apply size_empty_inv in E; set_solver). lia.
Qed.
End worklist.
