(* ===== verification/IrWalk.v ===== *)
(** Operand enumeration and rewriting, CFG queries and block pruning
    (src/src/ir/walk.rs). *)

From S2P Require Import Prelude IrTypes IrInst Worklist.

(** * Operand enumeration *)

(** [for_each_operand] collected by [inst_uses]: the operands in visiting order. *)
Definition inst_uses (k : InstKind) : list ValueId :=
  match k with
  | ConstInt _ _ | ConstFloat _ _ | ConstBool _ | ConstString _ | Undef _
  | Alloca _ | GlobalAddr _ => []
  | IAdd a b | ISub a b | IMul a b | IDiv a b | IMod a b => [a; b]
  | INeg a => [a]
  | FAdd a b | FSub a b | FMul a b | FDiv a b | FPow a b => [a; b]
  | FNeg a | FAbs a | FSqrt a => [a]
  | ICmp _ a b | FCmp _ a b => [a; b]
  | And a b | Or a b => [a; b]
  | Not a => [a]
  | Select c t f => [c; t; f]
  | BitAnd a b | BitOr a b | BitXor a b | Shl a b | LShr a b | AShr a b => [a; b]
  | BitNot a | CountLeadingZeros a | CountTrailingZeros a | PopCount a => [a]
  | IntToFloat v _ | FloatToInt v _ | FloatExtend v _ | FloatTrunc v _
  | IntExtend v _ _ | IntTrunc v _ | PtrToInt v | IntToPtr v _ => [v]
  | Load a | VolatileLoad a => [a]
  | Store v a | VolatileStore v a => [v; a]
  | GetElementPtr base idxs => base :: idxs
  | Call (Indirect target) args => target :: args
  | Call _ args | RuntimeCall _ args => args
  | ExtractField agg _ => [agg]
  | InsertField agg _ v => [agg; v]
  | VAdd a b | VSub a b | VMul a b | VDiv a b | VMin a b | VMax a b => [a; b]
  | VNeg a | VAbs a | VSqrt a | VLoad a | VBitcast a _ | VExtract a _
  | VBroadcast a | VReduceSum a | VReduceMin a | VReduceMax a => [a]
  | VFma a b c => [a; b; c]
  | VSelect m t f => [m; t; f]
  | VICmp _ a b | VFCmp _ a b => [a; b]
  | VStore v p => [v; p]
  | VInsert v _ s => [v; s]
  end.

(** [for_each_terminator_operand] collected by [terminator_uses]. *)
Definition terminator_uses (t : Terminator) : list ValueId :=
  match t with
  | Return None | Unreachable => []
  | Return (Some v) => [v]
  | Branch _ args => args
  | CondBranch cond _ ta _ fa => cond :: ta ++ fa
  | Switch sel _ _ => [sel]
  end.

Definition terminator_targets (t : Terminator) : list BlockId :=
  match t with
  | Return _ | Unreachable => []
  | Branch d _ => [d]
  | CondBranch _ td _ fd _ => [td; fd]
  | Switch _ cases default => (snd <$> cases) ++ [default]
  end.

(** * Operand rewriting *)

(** [for_each_operand_mut] with a closure that replaces one identifier by
    another. *)
Definition map_operands (r : ValueId -> ValueId) (k : InstKind) : InstKind :=
  match k with
  | ConstInt _ _ | ConstFloat _ _ | ConstBool _ | ConstString _ | Undef _
  | Alloca _ | GlobalAddr _ => k
  | IAdd a b => IAdd (r a) (r b) | ISub a b => ISub (r a) (r b)
  | IMul a b => IMul (r a) (r b) | IDiv a b => IDiv (r a) (r b)
  | IMod a b => IMod (r a) (r b) | INeg a => INeg (r a)
  | FAdd a b => FAdd (r a) (r b) | FSub a b => FSub (r a) (r b)
  | FMul a b => FMul (r a) (r b) | FDiv a b => FDiv (r a) (r b)
  | FPow a b => FPow (r a) (r b)
  | FNeg a => FNeg (r a) | FAbs a => FAbs (r a) | FSqrt a => FSqrt (r a)
  | ICmp op a b => ICmp op (r a) (r b) | FCmp op a b => FCmp op (r a) (r b)
  | And a b => And (r a) (r b) | Or a b => Or (r a) (r b) | Not a => Not (r a)
  | Select c t f => Select (r c) (r t) (r f)
  | BitAnd a b => BitAnd (r a) (r b) | BitOr a b => BitOr (r a) (r b)
  | BitXor a b => BitXor (r a) (r b) | Shl a b => Shl (r a) (r b)
  | LShr a b => LShr (r a) (r b) | AShr a b => AShr (r a) (r b)
  | BitNot a => BitNot (r a) | CountLeadingZeros a => CountLeadingZeros (r a)
  | CountTrailingZeros a => CountTrailingZeros (r a) | PopCount a => PopCount (r a)
  | IntToFloat v w => IntToFloat (r v) w | FloatToInt v w => FloatToInt (r v) w
  | FloatExtend v w => FloatExtend (r v) w | FloatTrunc v w => FloatTrunc (r v) w
  | IntExtend v w s => IntExtend (r v) w s | IntTrunc v w => IntTrunc (r v) w
  | PtrToInt v => PtrToInt (r v) | IntToPtr v t => IntToPtr (r v) t
  | Load a => Load (r a) | VolatileLoad a => VolatileLoad (r a)
  | Store v a => Store (r v) (r a) | VolatileStore v a => VolatileStore (r v) (r a)
  | GetElementPtr base idxs => GetElementPtr (r base) (r <$> idxs)
  | Call (Indirect target) args => Call (Indirect (r target)) (r <$> args)
  | Call c args => Call c (r <$> args)
  | RuntimeCall rf args => RuntimeCall rf (r <$> args)
  | ExtractField agg i => ExtractField (r agg) i
  | InsertField agg i v => InsertField (r agg) i (r v)
  | VAdd a b => VAdd (r a) (r b) | VSub a b => VSub (r a) (r b)
  | VMul a b => VMul (r a) (r b) | VDiv a b => VDiv (r a) (r b)
  | VMin a b => VMin (r a) (r b) | VMax a b => VMax (r a) (r b)
  | VNeg a => VNeg (r a) | VAbs a => VAbs (r a) | VSqrt a => VSqrt (r a)
  | VLoad a => VLoad (r a) | VBitcast a t => VBitcast (r a) t
  | VExtract a l => VExtract (r a) l | VBroadcast a => VBroadcast (r a)
  | VReduceSum a => VReduceSum (r a) | VReduceMin a => VReduceMin (r a)
  | VReduceMax a => VReduceMax (r a)
  | VFma a b c => VFma (r a) (r b) (r c)
  | VSelect m t f => VSelect (r m) (r t) (r f)
  | VICmp op a b => VICmp op (r a) (r b) | VFCmp op a b => VFCmp op (r a) (r b)
  | VStore v p => VStore (r v) (r p)
  | VInsert v l s => VInsert (r v) l (r s)
  end.

(** [for_each_terminator_operand_mut]. *)
Definition map_term_operands (r : ValueId -> ValueId) (t : Terminator) : Terminator :=
  match t with
  | Return None | Unreachable => t
  | Return (Some v) => Return (Some (r v))
  | Branch d args => Branch d (r <$> args)
  | CondBranch c td ta fd fa => CondBranch (r c) td (r <$> ta) fd (r <$> fa)
  | Switch s cases d => Switch (r s) cases d
  end.

Definition map_inst_operands (r : ValueId -> ValueId) (i : Inst) : Inst :=
  set_kind i (map_operands r (inst_kind i)).

Definition map_block_operands (r : ValueId -> ValueId) (b : BasicBlock) : BasicBlock :=
  set_term (set_insts b (map_inst_operands r <$> block_insts b))
           (map_term_operands r <$> block_term b).

(** [substitute_uses]. *)
Definition substitute_uses (f : Function) (old new : ValueId) : Function :=
  map_blocks (map_block_operands (fun v => if decide (v = old) then new else v)) f.

(** * CFG queries *)

(** Successor identifiers of a block; a missing terminator has none. *)
Definition block_targets (b : BasicBlock) : list BlockId :=
  match block_term b with Some t => terminator_targets t | None => [] end.

(** [preds.entry(tgt).or_default().push(x)] *)
Definition push_entry (m : gmap BlockId (list BlockId)) (k x : BlockId) : gmap BlockId (list BlockId) :=
  <[k := default [] (m !! k) ++ [x]]> m.

(** [predecessors]. *)
Definition predecessors (f : Function) : gmap BlockId (list BlockId) :=
  let init := foldl (fun m b => <[block_id b := default [] (m !! block_id b)]> m) ∅ (blocks f) in
  foldl (fun m b => foldl (fun m t => push_entry m t (block_id b)) m (block_targets b))
        init (blocks f).

(** Successors of an identifier through [try_block]; a dangling target has
    none. *)
Definition cfg_succ (f : Function) (id : BlockId) : list BlockId :=
  match try_block f id with Some b => block_targets b | None => [] end.

(** One pop per distinct identifier: the entry and every branch target. *)
Definition cfg_fuel (f : Function) : nat := S (length (blocks f ≫= block_targets)).

(** The breadth-first search of [prune_unreachable]. *)
Definition reachable_blocks (f : Function) : gset BlockId :=
  default ∅ (bfs (cfg_succ f) (cfg_fuel f) {[entry f]} [entry f]).

(** [prune_unreachable]; [None] is the panic of [rebuild_block_positions]. *)
Definition prune_unreachable (f : Function) : option (Function * bool) :=
  let keep := reachable_blocks f in
  let f1 := set_blocks f (filter (fun b => block_id b ∈ keep) (blocks f)) in
  let changed := negb (length (blocks f1) =? length (blocks f))%nat in
  if changed then f2 ← rebuild_block_positions f1; Some (f2, true)
  else Some (f1, false).

(** * Facts about operands *)

Lemma inst_uses_map r k : inst_uses (map_operands r k) = r <$> inst_uses k.
Proof. destruct k; try reflexivity. by destruct callee. Qed.

Lemma map_operands_compose r s k : map_operands r (map_operands s k) = map_operands (r ∘ s) k.
Proof.
  destruct k; try reflexivity; simpl; try (by rewrite <- list_fmap_compose).
  destruct callee; simpl; by rewrite <- list_fmap_compose.
Qed.

Lemma map_operands_ext r s k :
  (forall v, v ∈ inst_uses k -> r v = s v) -> map_operands r k = map_operands s k.
Proof.
  assert (Hl : forall l : list N, (forall v, v ∈ l -> r v = s v) -> r <$> l = s <$> l).
  { intros l Hl. apply list_fmap_ext. intros i x Hx. apply Hl. by eapply list_elem_of_lookup_2. }
  intros H. destruct k; simpl in *; try reflexivity;
    try (destruct callee; simpl in *); try f_equal; try (apply Hl);
    repeat (f_equal; []); try (apply H); try (intros v Hv; apply H); set_solver.
Qed.

Lemma map_operands_id k : map_operands (fun v => v) k = k.
Proof.
  destruct k; try reflexivity; try (simpl; by rewrite list_fmap_id).
  destruct callee; simpl; by rewrite list_fmap_id.
Qed.

(** The instruction with its operand names erased: what an instruction does
    beyond reading its operands. *)
Definition shape (k : InstKind) : InstKind := map_operands (fun _ => 0%N) k.

Lemma shape_map r k : shape (map_operands r k) = shape k.
Proof. unfold shape. by rewrite map_operands_compose. Qed.

Lemma terminator_uses_map r t : terminator_uses (map_term_operands r t) = r <$> terminator_uses t.
Proof. destruct t as [[]| | | |]; simpl; try done. by rewrite fmap_app. Qed.

Lemma terminator_targets_map r t : terminator_targets (map_term_operands r t) = terminator_targets t.
Proof. by destruct t as [[]| | | |]. Qed.

Lemma map_block_operands_id r b : block_id (map_block_operands r b) = block_id b.
Proof. done. Qed.

(** * Facts about reachability *)

Definition cfg_edge (f : Function) : BlockId -> BlockId -> Prop := edge (cfg_succ f).
Definition reachable (f : Function) (b : BlockId) : Prop := rtc (cfg_edge f) (entry f) b.

Lemma cfg_edge_iff f a b :
  block_index_ok f ->
  cfg_edge f a b <-> exists blk, blk ∈ blocks f /\ block_id blk = a /\ b ∈ block_targets blk.
Proof.
  intros Hok. unfold cfg_edge, edge, cfg_succ. split.
  - destruct (try_block f a) as [blk|] eqn:E; [|intros H; by apply not_elem_of_nil in H].
    apply try_block_Some in E as [? ?]; [|done]. eauto.
  - intros (blk & Hin & Hid & Hb).
    assert (try_block f a = Some blk) as -> by (by apply try_block_Some). done.
Qed.

(** Every identifier the search can meet: the entry and the branch targets. *)
Definition cfg_universe (f : Function) : gset BlockId :=
  {[entry f]} ∪ list_to_set (blocks f ≫= block_targets).

Lemma size_list_to_set_le (l : list N) : (size (list_to_set l : gset N) <= length l)%nat.
Proof.
  induction l as [|x l IH]; simpl; [done|]. rewrite size_union_alt, size_singleton.
  pose proof (subseteq_size (list_to_set l ∖ {[x]} : gset N) (list_to_set l) ltac:(set_solver)). lia.
Qed.

Lemma cfg_universe_size f : (size (cfg_universe f) <= cfg_fuel f)%nat.
Proof.
  unfold cfg_universe, cfg_fuel. rewrite size_union_alt, size_singleton.
  pose proof (size_list_to_set_le (blocks f ≫= block_targets)).
  pose proof (subseteq_size (list_to_set (blocks f ≫= block_targets) ∖ {[entry f]} : gset N)
    (list_to_set (blocks f ≫= block_targets)) ltac:(set_solver)). lia.
Qed.

Lemma cfg_universe_closed f x y : y ∈ cfg_succ f x -> y ∈ cfg_universe f.
Proof.
  unfold cfg_succ. destruct (try_block f x) as [b|] eqn:E; [|intros Hy; by apply not_elem_of_nil in Hy].
  intros Hy. unfold try_block in E. destruct (block_position f x); [|done]. simpl in E.
  apply elem_of_union. right. apply elem_of_list_to_set. apply list_elem_of_bind.
  exists b. split; [done|]. by eapply list_elem_of_lookup_2.
Qed.

Lemma bfs_cfg_total f : is_Some (bfs (cfg_succ f) (cfg_fuel f) {[entry f]} [entry f]).
Proof.
  apply (bfs_total_single _ (cfg_universe f)).
  - unfold cfg_universe. set_solver.
  - intros x y _ Hy. by eapply cfg_universe_closed.
  - apply cfg_universe_size.
Qed.

Lemma reachable_blocks_spec f x : x ∈ reachable_blocks f <-> reachable f x.
Proof.
  unfold reachable_blocks. destruct (bfs_cfg_total f) as [s Hs]. rewrite Hs. simpl.
  by apply (bfs_spec (cfg_succ f) _ (cfg_fuel f)).
Qed.
