(* ===== verification/Floats.v ===== *)
(** IEEE-754 binary64 values as the Rust sources use them.

    An [f64] is a [spec_float]; arithmetic is that of [SpecFloat] at precision
    53 and exponent bound 1024 (round to nearest, ties to even, one NaN), and
    [f64 as f32 as f64] is a rounding to precision 24 and exponent bound 128
    followed by the exact widening.  [round_f32_idem] is the fact the IR relies
    on when it stores REAL(4) constants in an [f64]. *)

From S2P Require Import Prelude.
From Stdlib Require Export SpecFloat.
Local Open Scope Z_scope.

(** * Operations *)

Definition f64_add := SFadd 53 1024.
Definition f64_sub := SFsub 53 1024.
Definition f64_mul := SFmul 53 1024.
Definition f64_div := SFdiv 53 1024.
Definition f64_sqrt := SFsqrt 53 1024.
Definition f64_neg := SFopp.
Definition f64_abs := SFabs.

(** Conversion of any finite datum to a format of the given precision. *)
Definition convert (prec emax : Z) (x : spec_float) : spec_float :=
  match x with
  | S754_finite s m e => binary_round prec emax s m e
  | _ => x
  end.

(** [v as f32 as f64] *)
Definition round_f32 (x : spec_float) : spec_float := convert 53 1024 (convert 24 128 x).

(** [z as f64] and [z as f32 as f64] for an integer [z]. *)
Definition f64_of_Z (z : Z) : spec_float := binary_normalize 53 1024 z 0 false.
Definition f32_of_Z (z : Z) : spec_float := convert 53 1024 (binary_normalize 24 128 z 0 false).

Definition f64_is_finite (x : spec_float) : bool :=
  match x with S754_zero _ | S754_finite _ _ _ => true | _ => false end.

(** The integer value of [x.trunc()]: rounding toward zero. *)
Definition f64_trunc_Z (x : spec_float) : Z :=
  match x with
  | S754_finite s m e =>
      let a := if 0 <=? e then Zpos m * 2 ^ e else Zpos m / 2 ^ (- e) in
      cond_Zopp s a
  | _ => 0
  end.

(** IEEE comparisons: every ordered comparison with a NaN is false. *)
Definition f64_eq := SFeqb.
Definition f64_lt := SFltb.
Definition f64_le := SFleb.

(** * Shifting and digits *)

(** [SpecFloat] is stated with the core library's integer operations. *)
Ltac norm_Z := change IntDef.Z.add with Z.add in *; change IntDef.Z.sub with Z.sub in *.

Lemma iter_pos_nat {A} (f : A -> A) p x : iter_pos f p x = Nat.iter (Pos.to_nat p) f x.
Proof.
  revert x. induction p as [p IH|p IH|]; intros x; cbn [iter_pos].
  - rewrite !IH, Pos2Nat.inj_xI, <- Nat.iter_add, <- Nat.iter_succ_r. f_equal. lia.
  - rewrite !IH, Pos2Nat.inj_xO, <- Nat.iter_add. f_equal. lia.
  - done.
Qed.

Lemma shr_1_m r : 0 <= shr_m r -> shr_m (shr_1 r) = shr_m r / 2.
Proof.
  destruct r as [[|p|p] a b]; simpl; intros Hm; [done | | lia].
  destruct p; simpl; [| |done].
  - rewrite (Pos2Z.inj_xI p). apply (Z.div_unique_pos _ _ _ 1); lia.
  - rewrite (Pos2Z.inj_xO p). apply (Z.div_unique_pos _ _ _ 0); lia.
Qed.

Lemma shr_iter_m p r : 0 <= shr_m r -> shr_m (iter_pos shr_1 p r) = shr_m r / 2 ^ Zpos p.
Proof.
  intros Hr. rewrite iter_pos_nat, <- (positive_nat_Z p).
  generalize (Pos.to_nat p). intros n. induction n as [|n IH].
  - simpl. by rewrite Z.div_1_r.
  - rewrite Nat.iter_succ, shr_1_m, IH.
    + rewrite Z.div_div by (try apply Z.pow_pos_nonneg; lia). f_equal.
      rewrite Nat2Z.inj_succ, Z.pow_succ_r by lia. lia.
    + rewrite IH. apply Z.div_pos; [done | apply Z.pow_pos_nonneg; lia].
Qed.

Lemma shr_zero e n : shr_m (shr (Build_shr_record 0 false false) e n).1 = 0.
Proof.
  destruct n as [|p|p]; [done | | done]. simpl. rewrite shr_iter_m; simpl; [|lia].
  apply Z.div_0_l. pose proof (Z.pow_pos_nonneg 2 (Zpos p)). lia.
Qed.

Lemma shr_1_even m : 0 < m -> shr_1 (Build_shr_record (2 * m) false false) = Build_shr_record m false false.
Proof. intros Hm. destruct m as [|p|p]; [lia | done | lia]. Qed.

Lemma shr_iter_exact p m :
  0 < m ->
  iter_pos shr_1 p (Build_shr_record (m * 2 ^ Zpos p) false false) = Build_shr_record m false false.
Proof.
  intros Hm. rewrite iter_pos_nat, <- (positive_nat_Z p).
  generalize (Pos.to_nat p). intros n. revert m Hm. induction n as [|n IH]; intros m Hm.
  - simpl. by rewrite Z.mul_1_r.
  - rewrite Nat.iter_succ_r, Nat2Z.inj_succ, Z.pow_succ_r by lia.
    replace (m * (2 * 2 ^ Z.of_nat n)) with (2 * (m * 2 ^ Z.of_nat n)) by lia.
    rewrite shr_1_even; [by apply IH |]. pose proof (Z.pow_pos_nonneg 2 (Z.of_nat n)). nia.
Qed.

Lemma digits2_log2 p : Zpos (digits2_pos p) = Z.log2 (Zpos p) + 1.
Proof.
  induction p as [p IH|p IH|]; cbn [digits2_pos]; [| |done].
  - rewrite Pos2Z.inj_succ, IH, (Pos2Z.inj_xI p). rewrite Z.log2_succ_double by lia. lia.
  - rewrite Pos2Z.inj_succ, IH, (Pos2Z.inj_xO p). rewrite Z.log2_double by lia. lia.
Qed.

Lemma Zdigits2_log2 m : 0 < m -> Zdigits2 m = Z.log2 m + 1.
Proof. destruct m as [|p|p]; try lia. intros _. apply digits2_log2. Qed.

(** * Canonical outputs *)

Section format.
Context (prec emax : Z) (Hprec : 0 < prec).
Notation fe := (fexp prec emax).

Lemma fexp_eq x : fe x = Z.max (x - prec) (3 - emax - prec).
Proof. done. Qed.

Definition canonical (m : positive) (e : Z) : Prop := fe (Z.log2 (Zpos m) + 1 + e) = e.

Lemma shr_loc_m m l : shr_m (shr_record_of_loc m l) = m.
Proof. by destruct l as [|[]]. Qed.

Lemma digits_pos m : 0 <= m -> 0 <= Zdigits2 m /\ (m < 2 ^ Zdigits2 m) /\ (0 < m -> Zdigits2 m = Z.log2 m + 1).
Proof.
intros Hm. destruct (Z.eq_dec m 0) as [->|Hne]; [simpl; lia|]. rewrite Zdigits2_log2 by lia.
pose proof (Z.log2_nonneg m). pose proof (Z.log2_spec m ltac:(lia)) as [_ H2].
replace (Z.succ (Z.log2 m)) with (Z.log2 m + 1) in H2 by lia. lia.
Qed.

(** The two-step rounding of [binary_round_aux] ends on a canonical pair when
it starts at or below the target exponent. *)
Lemma binary_round_aux_canonical s mx ex l s' m e :
0 <= mx -> ex <= fe (Zdigits2 mx + ex) ->
binary_round_aux prec emax s mx ex l = S754_finite s' m e ->
s' = s /\ canonical m e /\ e <= emax - prec.
Proof.
intros Hmx Hex. unfold binary_round_aux, shr_fexp.
destruct (digits_pos mx Hmx) as (Hdx & Hux & Hlx).
set (e1 := fe (Zdigits2 mx + ex)) in *.
(* first shift *)
assert (H1 : exists m1 r1 s1, shr (shr_record_of_loc mx l) ex (e1 - ex) =
(Build_shr_record m1 r1 s1, e1) /\ m1 = mx / 2 ^ (e1 - ex)).
{ destruct (e1 - ex) as [|p|p] eqn:E; [| |lia]; simpl.
- destruct (shr_record_of_loc mx l) as [m1 r1 s1] eqn:Er. exists m1, r1, s1.
rewrite Z.div_1_r. split; [f_equal; lia|]. by rewrite <- (shr_loc_m mx l), Er.
- destruct (iter_pos shr_1 p _) as [m1 r1 s1] eqn:Ei. exists m1, r1, s1. split; [f_equal; lia|].
change m1 with (shr_m (Build_shr_record m1 r1 s1)). rewrite <- Ei.
by rewrite shr_iter_m; rewrite shr_loc_m. }
destruct H1 as (m1 & r1 & s1 & -> & Hm1). simpl shr_m at 1.
set (m2 := round_nearest_even _ _).
assert (Hm2 : m2 = m1 \/ m2 = m1 + 1).
{ unfold m2. destruct r1, s1; simpl; try destruct (Z.even m1); auto. }
assert (Hk : 0 <= e1 - ex) by lia.
assert (Hp : 0 < 2 ^ (e1 - ex)) by (apply Z.pow_pos_nonneg; lia).
assert (Hm1' : 0 <= m1) by (subst m1; apply Z.div_pos; lia).
destruct (Z.eq_dec m2 0) as [E0|Hm2nz].
{ rewrite E0. pose proof (shr_zero e1 (fe (Zdigits2 0 + e1) - e1)) as Hz.
change (shr_record_of_loc 0 loc_Exact) with (Build_shr_record 0 false false).
destruct (shr (Build_shr_record 0 false false) e1 _) as [r3 e3]. simpl in Hz.
rewrite Hz. discriminate. }
assert (Hm2p : 0 < m2) by lia.
rewrite Zdigits2_log2 by done.
(* the exponent the second step aims at *)
assert (Hcase : fe (Z.log2 m2 + 1 + e1) = e1 \/
(fe (Z.log2 m2 + 1 + e1) = e1 + 1 /\ m2 = 2 ^ Z.log2 m2 /\ 0 < Z.log2 m2)).
{ destruct (Z.eq_dec m1 0) as [E1|E1].
- assert (m2 = 1) as -> by lia. simpl Z.log2. left.
assert (Zdigits2 mx <= e1 - ex).
{ assert (mx / 2 ^ (e1 - ex) = 0) as Hdiv by lia. apply Z.div_small_iff in Hdiv; [|lia].
destruct (Z.eq_dec mx 0) as [Ez|Ez]; [rewrite Ez; simpl; lia|].
assert (Z.log2 mx < e1 - ex) by (apply Z.log2_lt_pow2; lia). lia. }
unfold e1 in *. rewrite !fexp_eq in *. lia.
- assert (Hmp : 0 < mx).
{ destruct (Z.eq_dec mx 0) as [Ez|Ez]; [|lia]. exfalso. apply E1. rewrite Hm1, Ez. apply Z.div_0_l. lia. }
specialize (Hlx Hmp). assert (Hl1 : Z.log2 m1 = Z.log2 mx - (e1 - ex)).
{ subst m1. rewrite <- Z.shiftr_div_pow2 by lia. rewrite Z.log2_shiftr by lia.
apply Z.max_r. destruct (Z.le_gt_cases 0 (Z.log2 mx - (e1 - ex))); [done|].
exfalso. apply E1. apply Z.div_small. split; [lia|]. apply Z.log2_lt_pow2; lia. }
assert (He1 : fe (Z.log2 m1 + 1 + e1) = e1).
{ rewrite Hl1. replace (Z.log2 mx - (e1 - ex) + 1 + e1) with (Zdigits2 mx + ex) by lia. done. }
destruct Hm2 as [-> | ->]; [by left|].
pose proof (Z.log2_spec m1 ltac:(lia)) as [Hlo Hhi].
destruct (Z.eq_dec (m1 + 1) (2 ^ Z.succ (Z.log2 m1))) as [Ep|Ep].
+ pose proof (Z.log2_nonneg m1).
assert (El : Z.log2 (m1 + 1) = Z.succ (Z.log2 m1)) by (rewrite Ep; apply Z.log2_pow2; lia).
rewrite El. rewrite !fexp_eq in *.
destruct (Z.eq_dec (Z.max (Z.succ (Z.log2 m1) + 1 + e1 - prec) (3 - emax - prec)) e1) as [?|?];
[by left|]. right. split; [lia|]. split; [done|lia].
+ assert (El : Z.log2 (m1 + 1) = Z.log2 m1) by (apply Z.log2_unique; [apply Z.log2_nonneg | lia]).
rewrite El. by left. }
destruct Hcase as [Hc | (Hc & Hpow & Hlpos)]; rewrite Hc.
- rewrite Z.sub_diag. simpl. destruct m2 as [|p|p]; try lia.
destruct (e1 <=? emax - prec) eqn:Ele; [|discriminate].
intros [= <- <- <-]. split; [done|]. split; [exact Hc|]. lia.
- replace (e1 + 1 - e1) with 1 by lia.
change (shr (shr_record_of_loc m2 loc_Exact) e1 1)
with (shr_1 (Build_shr_record m2 false false), e1 + 1).
cbv beta iota zeta.
assert (Hm3 : shr_m (shr_1 (Build_shr_record m2 false false)) = 2 ^ (Z.log2 m2 - 1)).
{ rewrite shr_1_m by (simpl; lia). simpl shr_m.
assert (E2 : m2 = 2 ^ (Z.log2 m2 - 1) * 2).
{ rewrite Hpow at 1. replace (Z.log2 m2) with (Z.succ (Z.log2 m2 - 1)) at 1 by lia.
rewrite Z.pow_succ_r by lia. lia. }
rewrite E2 at 1. apply Z.div_mul. lia. }
rewrite Hm3. destruct (2 ^ (Z.log2 m2 - 1)) as [|p|p] eqn:Epow; try discriminate.
destruct (e1 + 1 <=? emax - prec) eqn:Ele; [|discriminate].
intros [= <- <- <-]. split; [done|]. split; [|lia].
unfold canonical. rewrite <- Epow. rewrite Z.log2_pow2 by lia.
replace (Z.log2 m2 - 1 + 1 + (e1 + 1)) with (Z.log2 m2 + 1 + e1) by lia. done.
Qed.
End format.

(** [binary_round] aligns its input first, so its finite outputs are canonical
    with the sign it was given. *)
Lemma shl_align_spec m e e' :
  exists m' e'', shl_align m e e' = (m', e'') /\ e'' <= e /\ e'' = Z.min e e' /\
    Zpos m' = Zpos m * 2 ^ (e - e'').
Proof.
  unfold shl_align. destruct (e' - e) as [|d|d] eqn:E.
  - exists m, e. split; [done|]. rewrite Z.sub_diag, Z.mul_1_r. lia.
  - exists m, e. split; [done|]. rewrite Z.sub_diag, Z.mul_1_r. lia.
  - eexists _, e'. split; [done|]. split; [lia|]. split; [lia|].
    replace (e - e') with (Zpos d) by lia. clear.
    assert (H : forall n, Zpos (Nat.iter n xO m) = Zpos m * 2 ^ Z.of_nat n).
    { intros n. induction n as [|n IH]; simpl Nat.iter; [lia|].
      rewrite Pos2Z.inj_xO, IH, Nat2Z.inj_succ, Z.pow_succ_r by lia. lia. }
    transitivity (Zpos (Nat.iter (Pos.to_nat d) xO m)); [by rewrite Pos2Nat.inj_iter|].
    by rewrite H, positive_nat_Z.
Qed.

Lemma log2_mul_pow2' m k : 0 < m -> 0 <= k -> Z.log2 (m * 2 ^ k) = Z.log2 m + k.
Proof. intros. rewrite Z.log2_mul_pow2 by lia. lia. Qed.

Lemma binary_round_canonical prec emax s m e s' m' e' :
  0 < prec ->
  binary_round prec emax s m e = S754_finite s' m' e' ->
  s' = s /\ canonical prec emax m' e' /\ e' <= emax - prec.
Proof.
  intros Hprec. unfold binary_round. rewrite digits2_log2.
  set (e2 := fexp prec emax _).
  destruct (shl_align_spec m e e2) as (mz & ez & -> & Hle & Hez & Hmz).
  intros Hr. eapply binary_round_aux_canonical in Hr; [exact Hr | done | lia |].
  rewrite Zdigits2_log2, Hmz, log2_mul_pow2' by lia. unfold e2 in *.
  replace (Z.log2 (Zpos m) + (e - ez) + 1 + ez) with (Z.log2 (Zpos m) + 1 + e) by lia. lia.
Qed.

(** Rounding an aligned canonical datum returns it. *)
Lemma binary_round_aux_exact prec emax s m e k :
  0 < prec -> 0 <= k -> canonical prec emax m e -> e <= emax - prec ->
  binary_round_aux prec emax s (Zpos m * 2 ^ k) (e - k) loc_Exact = S754_finite s m e.
Proof.
  intros Hprec Hk Hc He. unfold binary_round_aux, shr_fexp.
  assert (0 < 2 ^ k) by (apply Z.pow_pos_nonneg; lia).
  rewrite Zdigits2_log2 by nia. rewrite log2_mul_pow2' by lia.
  replace (Z.log2 (Zpos m) + k + 1 + (e - k)) with (Z.log2 (Zpos m) + 1 + e) by lia.
  unfold canonical in Hc. rewrite Hc.
  assert (H1 : shr (shr_record_of_loc (Zpos m * 2 ^ k) loc_Exact) (e - k) (e - (e - k)) =
            (Build_shr_record (Zpos m) false false, e)).
  { replace (e - (e - k)) with k by lia. destruct k as [|p|p]; [| |lia].
    - simpl shr. f_equal; [|lia]. simpl. f_equal. lia.
    - unfold shr. f_equal; [|lia]. unfold shr_record_of_loc. by apply shr_iter_exact. }
  rewrite H1. simpl. rewrite digits2_log2, Hc, Z.sub_diag. simpl.
  assert (e <=? emax - prec = true) as -> by lia. done.
Qed.

(** Widening from a smaller format is exact, and narrowing undoes it. *)
Lemma binary_round_widen s m e :
  canonical 24 128 m e -> e <= 128 - 24 ->
  exists k m2, 0 <= k /\ Zpos m2 = Zpos m * 2 ^ k /\
    binary_round 53 1024 s m e = S754_finite s m2 (e - k).
Proof.
  intros Hc He. unfold binary_round. rewrite digits2_log2.
  set (e2 := fexp 53 1024 _).
  destruct (shl_align_spec m e e2) as (mz & ez & -> & Hle & Hez & Hmz).
  exists (e - ez), mz. split; [lia|]. split; [done|].
  replace (e - (e - ez)) with ez by lia.
  pose proof (binary_round_aux_exact 53 1024 s mz ez 0) as Hx.
  rewrite Z.mul_1_r, Z.sub_0_r in Hx. apply Hx; [done | lia | | ].
  - unfold canonical in *. rewrite Hmz, log2_mul_pow2' by lia.
    replace (Z.log2 (Zpos m) + (e - ez) + 1 + ez) with (Z.log2 (Zpos m) + 1 + e) by lia.
    unfold e2 in *. norm_Z. rewrite !fexp_eq in *. lia.
  - lia.
Qed.

Lemma narrow_widen s m e :
  canonical 24 128 m e -> e <= 128 - 24 ->
  convert 24 128 (binary_round 53 1024 s m e) = S754_finite s m e.
Proof.
  intros Hc He. destruct (binary_round_widen s m e Hc He) as (k & m2 & Hk & Hm2 & ->).
  simpl. unfold binary_round. rewrite digits2_log2, Hm2, log2_mul_pow2' by lia.
  replace (Z.log2 (Zpos m) + k + 1 + (e - k)) with (Z.log2 (Zpos m) + 1 + e) by lia.
  unfold canonical in Hc. rewrite Hc.
  destruct (shl_align_spec m2 (e - k) e) as (mz & ez & -> & Hle & Hez & Hmz).
  assert (ez = e - k) as -> by lia. rewrite Z.sub_diag, Z.mul_1_r in Hmz.
  rewrite Hmz, Hm2. by apply binary_round_aux_exact.
Qed.

(** [f64 as f32 as f64] is idempotent: the second rounding is exact. *)
Lemma round_f32_idem x : round_f32 (round_f32 x) = round_f32 x.
Proof.
  unfold round_f32 at 1 2. destruct x as [s|s| |s m e]; try reflexivity.
  unfold round_f32. cbn [convert].
  destruct (binary_round 24 128 s m e) as [s'|s'| |s' m' e'] eqn:E; try reflexivity.
  apply binary_round_canonical in E as (-> & Hc & He); [|done].
  cbn [convert]. rewrite narrow_widen by done. done.
Qed.

Lemma f32_of_Z_round z : round_f32 (f32_of_Z z) = f32_of_Z z.
Proof.
  unfold f32_of_Z, round_f32. destruct (binary_normalize 24 128 z 0 false) as [s'|s'| |s' m' e'] eqn:E;
    try reflexivity.
  assert (canonical 24 128 m' e' /\ e' <= 128 - 24) as [Hc He].
  { destruct z; simpl in E; [discriminate | |]; by apply binary_round_canonical in E as (_ & ? & ?). }
  cbn [convert]. by rewrite narrow_widen.
Qed.

(** * Commutativity *)

Lemma f64_add_comm x y : f64_add x y = f64_add y x.
Proof.
  unfold f64_add. destruct x as [s|s| |s m e], y as [s'|s'| |s' m' e']; simpl; try done;
    try (by destruct s, s').
  rewrite Z.min_comm, Z.add_comm. done.
Qed.

Lemma f64_mul_comm x y : f64_mul x y = f64_mul y x.
Proof.
  unfold f64_mul. destruct x as [s|s| |s m e], y as [s'|s'| |s' m' e']; simpl; try done;
    try (by destruct s, s').
  rewrite (Pos.mul_comm m m'), (Z.add_comm e e'). by rewrite xorb_comm.
Qed.

Lemma compare_cont_sym m m' :
  PosDef.Pos.compare_cont Eq m m' = CompOpp (PosDef.Pos.compare_cont Eq m' m).
Proof. apply (Pos.compare_antisym m' m). Qed.

Lemma f64_eq_comm x y : f64_eq x y = f64_eq y x.
Proof.
  unfold f64_eq, SFeqb. destruct x as [s|s| |s m e], y as [s'|s'| |s' m' e']; simpl; try done.
  all: destruct s, s'; try done.
  all: rewrite (Z.compare_antisym e' e), (compare_cont_sym m m').
  all: destruct (Z.compare e' e); simpl; try done.
  all: by destruct (PosDef.Pos.compare_cont Eq m' m).
Qed.

(** * Validity

    Every operation the sources apply to an [f64] yields binary64 data. *)

Definition f64_valid (x : spec_float) : Prop := valid_binary 53 1024 x = true.

Lemma f64_valid_finite s m e : f64_valid (S754_finite s m e) <-> canonical 53 1024 m e /\ e <= 1024 - 53.
Proof.
  unfold f64_valid, valid_binary, bounded, canonical_mantissa, canonical. rewrite digits2_log2. norm_Z.
  rewrite andb_true_iff, Z.leb_le. split; intros [H ?]; (split; [|done]); [by apply Zeq_bool_eq | by apply Zeq_is_eq_bool].
Qed.

Lemma round_aux_valid s mx ex l :
  0 <= mx -> ex <= fexp 53 1024 (Zdigits2 mx + ex) -> f64_valid (binary_round_aux 53 1024 s mx ex l).
Proof.
  intros Hm He. destruct (binary_round_aux 53 1024 s mx ex l) as [| | |s' m e] eqn:E; try done.
  apply binary_round_aux_canonical in E as (_ & Hc & Hle); [|done..]. by apply f64_valid_finite.
Qed.

Lemma round_valid s m e : f64_valid (binary_round 53 1024 s m e).
Proof.
  destruct (binary_round 53 1024 s m e) as [| | |s' m' e'] eqn:E; try done.
  apply binary_round_canonical in E as (_ & Hc & Hle); [|done]. by apply f64_valid_finite.
Qed.

Lemma normalize_valid z e b : f64_valid (binary_normalize 53 1024 z e b).
Proof. destruct z; [done | apply round_valid..]. Qed.

Lemma round_f32_valid x : f64_valid (round_f32 x).
Proof. unfold round_f32. destruct (convert 24 128 x); try done. apply round_valid. Qed.

Lemma of_Z_valid z : f64_valid (f64_of_Z z) /\ f64_valid (f32_of_Z z).
Proof.
  split; [apply normalize_valid|]. unfold f32_of_Z. destruct (binary_normalize 24 128 z 0 false); try done. apply round_valid.
Qed.

Lemma neg_valid x : f64_valid x -> f64_valid (f64_neg x).
Proof. by destruct x. Qed.
Lemma abs_valid x : f64_valid x -> f64_valid (f64_abs x).
Proof. by destruct x. Qed.

Lemma add_valid x y : f64_valid x -> f64_valid y -> f64_valid (f64_add x y).
Proof.
  intros Hx Hy. unfold f64_add. destruct x as [[]|[]| |s m e], y as [[]|[]| |s' m' e']; try done. apply normalize_valid.
Qed.

Lemma sub_valid x y : f64_valid x -> f64_valid y -> f64_valid (f64_sub x y).
Proof.
  intros Hx Hy. unfold f64_sub. destruct x as [[]|[]| |s m e], y as [[]|[]| |[] m' e']; try done; apply normalize_valid.
Qed.

Lemma mul_valid x y : f64_valid x -> f64_valid y -> f64_valid (f64_mul x y).
Proof.
  intros Hx Hy. unfold f64_mul. destruct x as [s|s| |s m e], y as [s'|s'| |s' m' e']; try done.
  apply f64_valid_finite in Hx as [Hx Hxe], Hy as [Hy Hye]. apply round_aux_valid; [lia|].
  unfold canonical in Hx, Hy. rewrite Pos2Z.inj_mul, Zdigits2_log2 by lia.
  pose proof (Z.log2_mul_below (Zpos m) (Zpos m') ltac:(lia) ltac:(lia)) as Hl.
  pose proof (Z.log2_nonneg (Zpos m)). pose proof (Z.log2_nonneg (Zpos m')). norm_Z.
  generalize dependent (Z.log2 (Zpos m * Zpos m')). intros lm Hl. rewrite fexp_eq in Hx, Hy |- *. lia.
Qed.

Lemma div_valid x y : f64_valid (f64_div x y).
Proof.
  unfold f64_div. destruct x as [s|s| |s m e], y as [s'|s'| |s' m' e']; try done.
  unfold SFdiv, SFdiv_core_binary. rewrite !Zdigits2_log2 by lia. norm_Z.
  set (e0 := Z.min _ _). assert (Hs : 0 <= e - e' - e0) by (unfold e0; lia). set (k := e - e' - e0) in *.
  assert (Hm : match k with Zpos _ => Z.shiftl (Zpos m) k | Z0 => Zpos m | Zneg _ => 0 end = Zpos m * 2 ^ k).
  { destruct k as [|p|p]; [lia | | lia]. by rewrite Z.shiftl_mul_pow2. }
  rewrite Hm. pose proof (Z.pow_pos_nonneg 2 k ltac:(lia) Hs) as Hpk.
  pose proof (Z_div_mod (Zpos m * 2 ^ k) (Zpos m') ltac:(lia)) as Hdm.
  destruct (Z.div_eucl (Zpos m * 2 ^ k) (Zpos m')) as [q r]. destruct Hdm as [Hq Hr].
  assert (Hq0 : 0 <= q) by nia. apply round_aux_valid; [done|].
  assert (Hd : Z.log2 (Zpos m) + k - Z.log2 (Zpos m') <= Zdigits2 q).
  { destruct (digits_pos q Hq0) as (Hd0 & Hu & _).
    assert (Hlt : Zpos m * 2 ^ k < Zpos m' * 2 ^ Zdigits2 q) by nia.
    assert (Hl : Z.log2 (Zpos m * 2 ^ k) <= Z.log2 (Zpos m' * 2 ^ Zdigits2 q)) by (apply Z.log2_le_mono; lia).
    rewrite !log2_mul_pow2' in Hl by lia. lia. }
  unfold k, e0 in *. rewrite !fexp_eq in *. lia.
Qed.

Lemma log2_sqrt_ge a : 0 < a -> Z.log2 a / 2 <= Z.log2 (Z.sqrt a).
Proof.
  intros Ha. set (h := Z.log2 a / 2). pose proof (Z.log2_nonneg a).
  assert (Hh : 0 <= h) by (apply Z.div_pos; lia). pose proof (Z.mul_div_le (Z.log2 a) 2 ltac:(lia)) as H2. fold h in H2.
  rewrite <- (Z.log2_pow2 h Hh). apply Z.log2_le_mono. apply Z.sqrt_le_square; [lia | apply Z.pow_nonneg; lia |].
  rewrite <- Z.pow_add_r by lia. transitivity (2 ^ Z.log2 a); [apply Z.pow_le_mono_r; lia | apply Z.log2_spec; lia].
Qed.

Lemma sqrt_valid x : f64_valid x -> f64_valid (f64_sqrt x).
Proof.
  intros Hx. unfold f64_sqrt. destruct x as [s|[]| |[] m e]; try done.
  unfold SFsqrt, SFsqrt_core_binary. rewrite Zdigits2_log2 by lia. norm_Z. rewrite !Z.div2_div.
  set (e0 := Z.min _ _). assert (He : e0 <= e / 2) by (unfold e0; lia).
  pose proof (Z.mul_div_le e 2 ltac:(lia)) as H2. assert (Hs : 0 <= e - 2 * e0) by lia. set (k := e - 2 * e0) in *.
  assert (Hm : match k with Zpos _ => Z.shiftl (Zpos m) k | Z0 => Zpos m | Zneg _ => 0 end = Zpos m * 2 ^ k).
  { destruct k as [|p|p]; [lia | | lia]. by rewrite Z.shiftl_mul_pow2. }
  rewrite Hm. pose proof (Z.pow_pos_nonneg 2 k ltac:(lia) Hs) as Hpk.
  pose proof (Z.sqrtrem_sqrt (Zpos m * 2 ^ k)) as Hsq.
  destruct (Z.sqrtrem (Zpos m * 2 ^ k)) as [q r]. simpl in Hsq. subst q.
  apply round_aux_valid; [apply Z.sqrt_nonneg|].
  assert (Hsp : 0 < Z.sqrt (Zpos m * 2 ^ k)) by (apply Z.sqrt_pos; lia).
  rewrite Zdigits2_log2 by done. pose proof (log2_sqrt_ge (Zpos m * 2 ^ k) ltac:(lia)) as Hl.
  rewrite log2_mul_pow2' in Hl by lia.
  assert (E : (Z.log2 (Zpos m) + k) / 2 + 1 + e0 = (Z.log2 (Zpos m) + 1 + e + 1) / 2).
  { unfold k. replace (Z.log2 (Zpos m) + (e - 2 * e0)) with (Z.log2 (Zpos m) + 1 + e + 1 + (- e0 - 1) * 2) by lia.
    rewrite Z.div_add by lia. lia. }
  unfold e0 in *. rewrite !fexp_eq in *. lia.
Qed.

Create HintDb f64.
#[export] Hint Resolve round_f32_valid neg_valid abs_valid add_valid sub_valid mul_valid div_valid sqrt_valid : f64.
#[export] Hint Extern 1 (f64_valid (f64_of_Z _)) => apply of_Z_valid : f64.
#[export] Hint Extern 1 (f64_valid (f32_of_Z _)) => apply of_Z_valid : f64.
