(* ===== verification/IrSem.v ===== *)
(** Reference semantics of the IR, against which the optimizer passes are
    verified.

    The sources give the IR no interpreter: its meaning is what both backends
    make of it.  Scalar integer, logical and floating-point instructions have
    the concrete meaning here that the passes assume (two's-complement
    wrap-around at the declared width, IEEE arithmetic).  Everything else is a
    parameter, the class [Host]: pointers, vectors and aggregates are opaque
    values, memory and the runtime are an opaque world, and the cases the
    sources call implementation-defined (division by zero, an out-of-range
    shift count or float-to-integer conversion) are decided by the host.  A
    theorem about a pass therefore holds for every backend.

    Execution is executable and fuelled: one unit per block entered and per
    call level.  [RStuck] is undefined behaviour (an operand without a value, an
    ill-typed operation, a reached [Unreachable]). *)

From S2P Require Import Prelude IrTypes IrInst IrWalk Floats.
Local Open Scope Z_scope.

(** * Values *)

Section values.
Context {X : Type}.

Inductive val :=
| VInt (w : IntWidth) (z : Z)
| VFloat (w : FloatWidth) (x : f64)
| VBool (b : bool)
| VOpaque (o : X).

Definition val_has_type (ty : IrType) (v : val) : bool :=
match v, ty with
| VInt w _, TInt w' => bool_decide (w = w')
| VFloat w _, TFloat w' => bool_decide (w = w')
| VBool _, TBool => true
| VOpaque _, _ => true
| _, _ => false
end.
End values.
Arguments val : clear implicits.

(** What is left to the target: opaque operations without a state effect, reads
    of the world, effects on it, and what a return does to it: [host_leave w0 w] is
    the world a caller gets back when a procedure it entered at [w0] returns at [w],
    without the procedure's stack frame.  Instructions are passed with their operand
    names erased ([shape]). *)
Inductive effect_result (X W : Type) := EVal (v : val X) (w : W) | EHalt (w : W) | EStuck.
Arguments EVal {X W}.
Arguments EHalt {X W}.
Arguments EStuck {X W}.

Class Host (X W : Type) := {
  host_pure : InstKind -> IrType -> list (val X) -> option (val X);
  host_read : InstKind -> IrType -> list (val X) -> W -> option (val X);
  host_effect : InstKind -> IrType -> list (val X) -> W -> effect_result X W;
  host_leave : W -> W -> W }.

(** * Scalar instructions *)

Definition wrapw (w : IntWidth) (z : Z) : Z := swrap (int_bits w) z.
(** Integer values carry no bits beyond their width, wherever they come from. *)
Definition canon {X} (v : val X) : val X :=
  match v with VInt w z => VInt w (wrapw w z) | _ => v end.
Definition roundw (w : FloatWidth) (x : f64) : f64 := match w with F32 => round_f32 x | F64 => x end.
Definition signed_min_of (w : IntWidth) : Z := - 2 ^ (int_bits w - 1).

Fixpoint popcount_pos (p : positive) : Z :=
  match p with xI p => 1 + popcount_pos p | xO p => popcount_pos p | xH => 1 end.
Definition popcount (z : Z) : Z := match z with Zpos p => popcount_pos p | _ => 0 end.
Fixpoint ctz_pos (p : positive) : Z := match p with xO p => 1 + ctz_pos p | _ => 0 end.

(** Zero counts of the unsigned value [u] of [bits] bits. *)
Definition clz (bits u : Z) : Z := if u =? 0 then bits else bits - 1 - Z.log2 u.
Definition ctz (bits u : Z) : Z := match u with Zpos p => ctz_pos p | _ => bits end.

Definition icmp (op : CmpOp) (a b : Z) : bool :=
  match op with
  | CEq => a =? b | CNe => negb (a =? b) | CLt => a <? b
  | CLe => a <=? b | CGt => b <? a | CGe => b <=? a
  end.

Definition fcmp (op : CmpOp) (a b : f64) : bool :=
  match op with
  | CEq => f64_eq a b | CNe => negb (f64_eq a b) | CLt => f64_lt a b
  | CLe => f64_le a b | CGt => f64_lt b a | CGe => f64_le b a
  end.

(** Outcome of a scalar rule: a value, undefined behaviour, or the host's
    decision. *)
Inductive core_res (X : Type) := CVal (v : val X) | CStuck | CHost.
Arguments CVal {X}.
Arguments CStuck {X}.
Arguments CHost {X}.

Section core.
Context {X : Type}.
Notation val := (val X).

(** Binary integer rule: both operands and the result at one width. *)
Definition int_bin (ty : IrType) (vs : list val) (op : IntWidth -> Z -> Z -> option Z) : core_res X :=
match ty, vs with
| TInt w, [VInt wa a; VInt wb b] =>
if bool_decide (wa = w) && bool_decide (wb = w)
then match op w a b with Some z => CVal (VInt w (wrapw w z)) | None => CHost end
else CStuck
| _, _ => CStuck
end.

Definition int_un (ty : IrType) (vs : list val) (op : IntWidth -> Z -> Z) : core_res X :=
match ty, vs with
| TInt w, [VInt wa a] =>
if bool_decide (wa = w) then CVal (VInt w (wrapw w (op w a))) else CStuck
| _, _ => CHost
end.

(** Bit counts: the operand's own width selects the bits counted. *)
Definition int_count (ty : IrType) (vs : list val) (op : Z -> Z -> Z) : core_res X :=
match ty, vs with
| TInt w, [VInt wa a] =>
CVal (VInt w (wrapw w (op (int_bits wa) (a mod 2 ^ int_bits wa))))
| _, _ => CHost
end.

Definition float_bin (ty : IrType) (vs : list val) (op : f64 -> f64 -> f64) : core_res X :=
match ty, vs with
| TFloat w, [VFloat wa a; VFloat wb b] =>
if bool_decide (wa = w) && bool_decide (wb = w)
then CVal (VFloat w (roundw w (op a b))) else CStuck
| _, _ => CStuck
end.

Definition float_un (ty : IrType) (vs : list val) (op : f64 -> f64) : core_res X :=
match ty, vs with
| TFloat w, [VFloat wa a] =>
if bool_decide (wa = w) then CVal (VFloat w (roundw w (op a))) else CStuck
| _, _ => CStuck
end.

Definition bool_bin (vs : list val) (op : bool -> bool -> bool) : core_res X :=
match vs with [VBool a; VBool b] => CVal (VBool (op a b)) | _ => CHost end.

Definition div_ok (w : IntWidth) (a b : Z) : bool :=
negb (b =? 0) && negb ((a =? signed_min_of w) && (b =? -1)).
Definition shift_ok (w : IntWidth) (b : Z) : bool := (0 <=? b) && (b <? int_bits w).

Definition core_eval (k : InstKind) (ty : IrType) (vs : list val) : core_res X :=
match k with
| ConstInt v w => CVal (VInt w (wrapw w v))
| ConstFloat v w => CVal (VFloat w (roundw w v))
| ConstBool b => CVal (VBool b)
| IAdd _ _ => int_bin ty vs (fun _ a b => Some (a + b))
| ISub _ _ => int_bin ty vs (fun _ a b => Some (a - b))
| IMul _ _ => int_bin ty vs (fun _ a b => Some (a * b))
| IDiv _ _ => int_bin ty vs (fun w a b => if div_ok w a b then Some (Z.quot a b) else None)
| IMod _ _ => int_bin ty vs (fun w a b => if div_ok w a b then Some (Z.rem a b) else None)
| INeg _ => int_un ty vs (fun _ a => - a)
| FAdd _ _ => float_bin ty vs f64_add
| FSub _ _ => float_bin ty vs f64_sub
| FMul _ _ => float_bin ty vs f64_mul
| FDiv _ _ => float_bin ty vs f64_div
| FNeg _ => float_un ty vs f64_neg
| FAbs _ => float_un ty vs f64_abs
| FSqrt _ => float_un ty vs f64_sqrt
| ICmp op _ _ =>
match vs with [VInt _ a; VInt _ b] => CVal (VBool (icmp op a b)) | _ => CHost end
| FCmp op _ _ =>
match vs with [VFloat _ a; VFloat _ b] => CVal (VBool (fcmp op a b)) | _ => CHost end
| And _ _ => bool_bin vs andb
| Or _ _ => bool_bin vs orb
| Not _ => match vs with [VBool a] => CVal (VBool (negb a)) | _ => CHost end
| Select _ _ _ =>
match vs with
| [VBool c; t; f] =>
let chosen := if c then t else f in
if val_has_type ty chosen then CVal chosen else CStuck
| _ => CStuck
end
| BitAnd _ _ => int_bin ty vs (fun _ a b => Some (Z.land a b))
| BitOr _ _ => int_bin ty vs (fun _ a b => Some (Z.lor a b))
| BitXor _ _ => int_bin ty vs (fun _ a b => Some (Z.lxor a b))
| BitNot _ => int_un ty vs (fun _ a => Z.lnot a)
| Shl _ _ => int_bin ty vs (fun w a b => if shift_ok w b then Some (Z.shiftl a b) else None)
| LShr _ _ => int_bin ty vs (fun w a b =>
if shift_ok w b then Some (Z.shiftr (a mod 2 ^ int_bits w) b) else None)
| AShr _ _ => int_bin ty vs (fun w a b => if shift_ok w b then Some (Z.shiftr a b) else None)
| PopCount _ => int_count ty vs (fun _ u => popcount u)
| CountLeadingZeros _ => int_count ty vs clz
| CountTrailingZeros _ => int_count ty vs ctz
| IntToFloat _ fw =>
match vs with
| [VInt _ a] => CVal (VFloat fw (match fw with F32 => f32_of_Z a | F64 => f64_of_Z a end))
| _ => CHost
end
| FloatToInt _ w =>
match vs with
| [VFloat _ x] =>
if f64_is_finite x && in_srange (int_bits w) (f64_trunc_Z x)
then CVal (VInt w (f64_trunc_Z x)) else CHost
| _ => CHost
end
| FloatExtend _ fw | FloatTrunc _ fw =>
match vs with [VFloat _ x] => CVal (VFloat fw (roundw fw x)) | _ => CHost end
| IntExtend _ w signed =>
match vs with
| [VInt wa a] =>
CVal (VInt w (wrapw w (if (signed : bool) then a else a mod 2 ^ int_bits wa)))
| _ => CHost
end
| IntTrunc _ w => match vs with [VInt _ a] => CVal (VInt w (wrapw w a)) | _ => CHost end
| _ => CHost
end.
End core.

(** * Instruction classes *)

Inductive kind_class := KPure | KRead | KEffect | KCall (callee : N).

(** [KPure] has no state effect and depends on its operands alone; [KRead] may
    depend on the world; [KEffect] may change it. *)
Definition class_of (k : InstKind) : kind_class :=
  match k with
  | Load _ | VLoad _ | ConstString _ | Undef _ => KRead
  | Alloca _ | Store _ _ | VolatileLoad _ | VolatileStore _ _ | VStore _ _
  | RuntimeCall _ _ | Call (External _) _ | Call (Indirect _) _ => KEffect
  | Call (Internal i) _ => KCall i
  | _ => KPure
  end.

(** Instructions whose value or status flags depend on the floating-point
    environment: in a dynamic environment they are effects. *)
Definition touches_fpenv (k : InstKind) : bool :=
  match k with
  | FAdd _ _ | FSub _ _ | FMul _ _ | FDiv _ _ | FSqrt _ | FPow _ _ | FCmp _ _ _
  | IntToFloat _ _ | FloatToInt _ _ | FloatExtend _ _ | FloatTrunc _ _ => true
  | _ => false
  end.

(** * Execution *)

Section exec.
Context {X W : Type} `{!Host X W}.
Notation val := (val X).
Notation env := (gmap ValueId val).

Inductive result := RRet (v : option val) (w : W) | RHalt (w : W) | RStuck | RTimeout.

Definition call_sem := N -> list val -> W -> result.

Inductive step_res := SNext (ρ : env) (w : W) | SHalt (w : W) | SStuck | STimeout.

Definition lookup_all (ρ : env) (l : list ValueId) : option (list val) := mapM (fun v => ρ !! v) l.

Definition eval_pure (k : InstKind) (ty : IrType) (vs : list val) : option val :=
match core_eval k ty vs with
| CVal v => Some v
| CStuck => None
| CHost => canon <$> host_pure (shape k) ty vs
end.

Definition finish_effect (ρ : env) (id : ValueId) (r : effect_result X W) : step_res :=
match r with
| EVal v w => SNext (<[id := canon v]> ρ) w
| EHalt w => SHalt w
| EStuck => SStuck
end.

(** A call defines its value when the callee returns one; a void callee
defines nothing. *)
Definition finish_call (ρ : env) (id : ValueId) (r : result) : step_res :=
match r with
| RRet (Some v) w => SNext (<[id := canon v]> ρ) w
| RRet None w => SNext ρ w
| RHalt w => SHalt w
| RStuck => SStuck
| RTimeout => STimeout
end.

Definition exec_inst (dyn : bool) (call : call_sem) (i : Inst) (ρ : env) (w : W) : step_res :=
match lookup_all ρ (inst_uses (inst_kind i)) with
| None => SStuck
| Some vs =>
let k := inst_kind i in
if dyn && touches_fpenv k
then finish_effect ρ (inst_id i) (host_effect (shape k) (inst_ty i) vs w)
else match class_of k with
| KPure =>
match eval_pure k (inst_ty i) vs with
| Some v => SNext (<[inst_id i := v]> ρ) w
| None => SStuck
end
| KRead =>
match host_read (shape k) (inst_ty i) vs w with
| Some v => SNext (<[inst_id i := canon v]> ρ) w
| None => SStuck
end
| KEffect => finish_effect ρ (inst_id i) (host_effect (shape k) (inst_ty i) vs w)
| KCall c => finish_call ρ (inst_id i) (call c vs w)
end
end.

Fixpoint exec_insts (dyn : bool) (call : call_sem) (il : list Inst) (ρ : env) (w : W) : step_res :=
match il with
| [] => SNext ρ w
| i :: il =>
match exec_inst dyn call i ρ w with
| SNext ρ' w' => exec_insts dyn call il ρ' w'
| r => r
end
end.

(** Where a terminator leads: a jump with argument values, a return, or
undefined behaviour. *)
Inductive term_res := TJump (b : BlockId) (args : list val) | TRet (v : option val) | TStuck.

Definition jump (ρ : env) (b : BlockId) (args : list ValueId) : term_res :=
match lookup_all ρ args with Some vs => TJump b vs | None => TStuck end.

Definition exec_term (t : option Terminator) (ρ : env) : term_res :=
match t with
| Some (Return None) => TRet None
| Some (Return (Some v)) => match ρ !! v with Some x => TRet (Some x) | None => TStuck end
| Some (Branch d args) => jump ρ d args
| Some (CondBranch c td ta fd fa) =>
match ρ !! c with
| Some (VBool true) => jump ρ td ta
| Some (VBool false) => jump ρ fd fa
| _ => TStuck
end
| Some (Switch s cases d) =>
match ρ !! s with
| Some (VInt w z) =>
TJump (match list_find (fun c => wrapw w c.1 = z) cases with
 | Some (_, (_, b)) => b | None => d end) []
| _ => TStuck
end
| Some Unreachable | None => TStuck
end.

Fixpoint bind_params (ps : list BlockParam) (vs : list val) (ρ : env) : option env :=
match ps, vs with
| [], [] => Some ρ
| p :: ps, v :: vs => bind_params ps vs (<[bp_id p := v]> ρ)
| _, _ => None
end.

Definition find_block (f : Function) (id : BlockId) : option BasicBlock :=
snd <$> list_find (fun b => block_id b = id) (blocks f).

(** One block: bind its parameters, run its instructions, take its
terminator. *)
Inductive block_res := BDone (r : result) | BJump (b : BlockId) (vs : list val) (ρ : env) (w : W).

Definition exec_block (dyn : bool) (call : call_sem) (f : Function)
(b : BlockId) (vs : list val) (ρ : env) (w : W) : block_res :=
match find_block f b with
| None => BDone RStuck
| Some blk =>
match bind_params (block_params blk) vs ρ with
| None => BDone RStuck
| Some ρ1 =>
match exec_insts dyn call (block_insts blk) ρ1 w with
| SHalt w' => BDone (RHalt w')
| SStuck => BDone RStuck
| STimeout => BDone RTimeout
| SNext ρ2 w' =>
match exec_term (block_term blk) ρ2 with
| TStuck => BDone RStuck
| TRet v => BDone (RRet v w')
| TJump b' vs' => BJump b' vs' ρ2 w'
end
end
end
end.

(** Run from the start of block [b] with argument values [vs]. *)
Fixpoint run_blocks (dyn : bool) (call : call_sem) (fuel : nat) (f : Function)
(b : BlockId) (vs : list val) (ρ : env) (w : W) : result :=
match fuel with
| O => RTimeout
| S fuel =>
match exec_block dyn call f b vs ρ w with
| BDone r => r
| BJump b' vs' ρ' w' => run_blocks dyn call fuel f b' vs' ρ' w'
end
end.

Fixpoint bind_args (ps : list Param) (vs : list val) (ρ : env) : option env :=
match ps, vs with
| [], [] => Some ρ
| p :: ps, v :: vs => bind_args ps vs (<[param_id p := canon v]> ρ)
| _, _ => None
end.

(** A return releases the stack frame. *)
Definition leave_frame (w : W) (r : result) : result :=
match r with RRet v w' => RRet v (host_leave w w') | _ => r end.

Definition enter_function (dyn : bool) (call : call_sem) (fuel : nat) (f : Function)
(args : list val) (w : W) : result :=
match bind_args (fn_params f) args ∅ with
| Some ρ => leave_frame w (run_blocks dyn call fuel f (entry f) [] ρ w)
| None => RStuck
end.

(** Run function [idx] of a module; [dyn] says which functions execute in a
dynamic floating-point environment. *)
Fixpoint run_func (dyn : nat -> bool) (fuel : nat) (fs : list Function)
(idx : N) (args : list val) (w : W) : result :=
match fuel with
| O => RTimeout
| S fuel' =>
match fs !! N.to_nat idx with
| None => RStuck
| Some f =>
enter_function (dyn (N.to_nat idx)) (fun i vs w => run_func dyn fuel' fs i vs w) fuel f args w
end
end.
End exec.
Arguments result : clear implicits.
Arguments step_res : clear implicits.
Arguments term_res : clear implicits.
Arguments call_sem : clear implicits.

Arguments block_res : clear implicits.

(** * Refinement

    [refines strict r r']: when the source result [r] is not undefined behaviour
    the target result [r'] is the same.  With [strict] this includes running out
    of fuel, so a target that refines strictly diverges whenever the source
    does; without it only definite results are compared. *)
Definition okr (strict : bool) {X W} (r : result X W) : Prop :=
  match r with RStuck => False | RTimeout => strict = true | _ => True end.

Definition refines (strict : bool) {X W} (r r' : result X W) : Prop := okr strict r -> r' = r.

Definition refines_call (strict : bool) {X W} (c c' : call_sem X W) : Prop :=
  forall i vs w, refines strict (c i vs w) (c' i vs w).

#[export] Instance refines_preorder strict {X W} : PreOrder (@refines strict X W).
Proof.
  split.
  - intros r _. done.
  - intros r1 r2 r3 H12 H23 Hok. specialize (H12 Hok). subst. by apply H23.
Qed.

Lemma leave_refines strict {X W} `{!Host X W} (w : W) (r r' : result X W) :
  refines strict r r' -> refines strict (leave_frame w r) (leave_frame w r').
Proof. intros H Hok. rewrite (H ltac:(by destruct r)). done. Qed.
#[export] Hint Resolve leave_refines : core.

Lemma leave_timeout {X W} `{!Host X W} (w : W) (r : result X W) : leave_frame w r = RTimeout <-> r = RTimeout.
Proof. by destruct r. Qed.

Section simulation.
Context {X W : Type} `{!Host X W}.
Context (strict : bool).
Implicit Types (f : Function) (ρ : gmap ValueId (val X)).

(** Block-by-block simulation: when the blocks of [f] and [f'] agree on results
and jumps under an invariant that the jumps re-establish, the functions
agree. *)
Lemma run_blocks_sim dyn (call call' : call_sem X W) f f'
(I : BlockId -> list (val X) -> gmap ValueId (val X) -> list (val X) -> gmap ValueId (val X) -> Prop) :
(forall b vs ρ vs' ρ' w, I b vs ρ vs' ρ' ->
match exec_block dyn call f b vs ρ w with
| BDone r => okr strict r -> exec_block dyn call' f' b vs' ρ' w = BDone r
| BJump b2 vs2 ρ2 w2 => exists vs2' ρ2',
exec_block dyn call' f' b vs' ρ' w = BJump b2 vs2' ρ2' w2 /\ I b2 vs2 ρ2 vs2' ρ2'
end) ->
forall fuel b vs ρ vs' ρ' w, I b vs ρ vs' ρ' ->
refines strict (run_blocks dyn call fuel f b vs ρ w) (run_blocks dyn call' fuel f' b vs' ρ' w).
Proof.
intros Hstep fuel. induction fuel as [|fuel IH]; intros b vs ρ vs' ρ' w HI; simpl; [done|].
specialize (Hstep b vs ρ vs' ρ' w HI).
destruct (exec_block dyn call f b vs ρ w) as [r|b2 vs2 ρ2 w2].
- intros Hok. by rewrite (Hstep Hok).
- destruct Hstep as (vs2' & ρ2' & -> & HI2). by apply IH.
Qed.

(** Lifting a per-function refinement to a module: internal calls are resolved
to the rewritten functions.  [Q] is what is known of the callees of the
original. *)
Lemma run_func_refines_calls (dyn : nat -> bool) (fs fs' : list Function) (Q : call_sem X W -> Prop) :
length fs' = length fs ->
(forall fuel, Q (fun i vs w => run_func dyn fuel fs i vs w)) ->
(forall n f f', fs !! n = Some f -> fs' !! n = Some f' ->
forall (call call' : call_sem X W) fuel args w, Q call -> refines_call strict call call' ->
refines strict (enter_function (dyn n) call fuel f args w)
     (enter_function (dyn n) call' fuel f' args w)) ->
forall fuel idx args w,
refines strict (run_func dyn fuel fs idx args w) (run_func dyn fuel fs' idx args w).
Proof.
intros Hlen HQ Hf fuel. induction fuel as [|fuel IH]; intros idx args w; [done|].
cbn [run_func].
destruct (fs !! N.to_nat idx) as [f|] eqn:E.
- assert (is_Some (fs' !! N.to_nat idx)) as [f' E'].
{ apply lookup_lt_is_Some. rewrite Hlen. apply lookup_lt_is_Some. by rewrite E. }
rewrite E'. apply (Hf _ _ _ E E'); [apply HQ|]. intros i vs w'. apply IH.
- intros [].
Qed.

Lemma run_func_refines (dyn : nat -> bool) (fs fs' : list Function) :
length fs' = length fs ->
(forall n f f', fs !! n = Some f -> fs' !! n = Some f' ->
forall (call call' : call_sem X W) fuel args w, refines_call strict call call' ->
refines strict (enter_function (dyn n) call fuel f args w)
     (enter_function (dyn n) call' fuel f' args w)) ->
forall fuel idx args w,
refines strict (run_func dyn fuel fs idx args w) (run_func dyn fuel fs' idx args w).
Proof. intros Hlen Hf. apply (run_func_refines_calls dyn fs fs' (fun _ => True)); [done | done |]. intros; by eapply Hf. Qed.

(** The same for a pass that rewrites each function on its own. *)
Lemma run_func_mapM (g : Function -> option (Function * bool)) (dyn : nat -> bool) (fs : list Function) rs :
mapM g fs = Some rs ->
(forall n f f' ch, fs !! n = Some f -> g f = Some (f', ch) ->
forall (call call' : call_sem X W) fuel args w, refines_call strict call call' ->
refines strict (enter_function (dyn n) call fuel f args w)
     (enter_function (dyn n) call' fuel f' args w)) ->
forall fuel idx args w,
refines strict (run_func dyn fuel fs idx args w) (run_func dyn fuel rs.*1 idx args w).
Proof.
intros E Hg. apply mapM_Some in E.
apply run_func_refines; [rewrite length_fmap; symmetry; by eapply Forall2_length|].
intros n f f' Hn Hn'. rewrite list_lookup_fmap in Hn'. apply fmap_Some in Hn' as ([f2 ch] & Hr & ->).
exact (Hg n f f2 ch Hn (Forall2_lookup_lr _ _ _ _ _ _ E Hn Hr)).
Qed.
End simulation.

(** * Basic facts *)

Lemma int_bits_bounds w : 0 < int_bits w <= 128.
Proof. destruct w; simpl; lia. Qed.
#[export] Hint Resolve int_bits_bounds : width.

Lemma wrapw_id w z : srange (int_bits w) z -> wrapw w z = z.
Proof. apply swrap_id. pose proof (int_bits_bounds w). lia. Qed.

Section facts.
Context {X W : Type} `{!Host X W}.
Notation env := (gmap ValueId (val X)).
Implicit Types (ρ : env) (w : W).

Lemma lookup_all_ext ρ ρ' l :
(forall v, v ∈ l -> ρ !! v = ρ' !! v) -> lookup_all ρ l = lookup_all ρ' l.
Proof.
intros H. unfold lookup_all. apply Forall_mapM_ext. apply Forall_forall. intros v Hv.
by apply H.
Qed.

Lemma lookup_all_cons ρ a l :
lookup_all ρ (a :: l) = (x ← ρ !! a; k ← lookup_all ρ l; Some (x :: k)).
Proof. done. Qed.

Lemma lookup_all_map (r : ValueId -> ValueId) ρ ρ' l :
(forall v, v ∈ l -> ρ' !! r v = ρ !! v) -> lookup_all ρ' (r <$> l) = lookup_all ρ l.
Proof.
induction l as [|a l IH]; intros H; [done|]. rewrite fmap_cons, !lookup_all_cons.
rewrite (H a) by left. by rewrite IH by (intros v Hv; apply H; by right).
Qed.

Lemma lookup_all_Some ρ l vs :
lookup_all ρ l = Some vs <-> Forall2 (fun v x => ρ !! v = Some x) l vs.
Proof. apply mapM_Some. Qed.

Lemma lookup_all_elem ρ l vs v : lookup_all ρ l = Some vs -> v ∈ l -> is_Some (ρ !! v).
Proof.
intros H Hv. apply lookup_all_Some in H.
apply list_elem_of_lookup in Hv as [i Hi].
destruct (Forall2_lookup_l _ _ _ _ _ H Hi) as (x & _ & Hx). by rewrite Hx.
Qed.

Lemma core_eval_map (r : ValueId -> ValueId) k ty (vs : list (val X)) :
core_eval (map_operands r k) ty vs = core_eval k ty vs.
Proof. destruct k; try reflexivity. by destruct callee. Qed.

Lemma eval_pure_map (r : ValueId -> ValueId) k ty vs :
eval_pure (map_operands r k) ty vs = eval_pure k ty vs.
Proof. unfold eval_pure. by rewrite core_eval_map, shape_map. Qed.

Lemma class_of_map r k : class_of (map_operands r k) = class_of k.
Proof. destruct k; try reflexivity. by destruct callee. Qed.

Lemma class_of_call k c : class_of k = KCall c -> exists args, k = Call (Internal c) args.
Proof. destruct k; try done. destruct callee; simpl; try done. intros [= ->]. eauto. Qed.

Lemma touches_fpenv_map r k : touches_fpenv (map_operands r k) = touches_fpenv k.
Proof. destruct k; try reflexivity. by destruct callee. Qed.

Lemma exec_insts_app dyn call l1 l2 ρ w :
exec_insts dyn call (l1 ++ l2) ρ w =
match exec_insts dyn call l1 ρ w with
| SNext ρ' w' => exec_insts dyn call l2 ρ' w'
| r => r
end.
Proof.
revert ρ w. induction l1 as [|i l1 IH]; intros ρ w; simpl; [done|].
by destruct (exec_inst dyn call i ρ w).
Qed.

(** An instruction changes its own value only. *)
Lemma exec_inst_frame dyn call i ρ w ρ' w' v :
exec_inst dyn call i ρ w = SNext ρ' w' -> v <> inst_id i -> ρ' !! v = ρ !! v.
Proof.
unfold exec_inst, finish_effect, finish_call. intros H Hv.
repeat case_match; simplify_eq; by rewrite ?lookup_insert_ne.
Qed.

Lemma bind_params_frame ps vs ρ ρ' v :
bind_params ps vs ρ = Some ρ' -> v ∉ (bp_id <$> ps) -> ρ' !! v = ρ !! v.
Proof.
revert vs ρ. induction ps as [|p ps IH]; intros [|x vs] ρ H Hv; simpl in H; simplify_eq; [done|].
rewrite fmap_cons, not_elem_of_cons in Hv. destruct Hv as [Hp Hv].
rewrite (IH _ _ H Hv). by apply lookup_insert_ne.
Qed.

Lemma find_block_Some f b blk :
find_block f b = Some blk -> blk ∈ blocks f /\ block_id blk = b.
Proof.
unfold find_block. intros H. apply fmap_Some in H as ([i c] & Hf & ->).
apply list_find_Some in Hf as (Hi & Hc & _). split; [|done]. by eapply list_elem_of_lookup_2.
Qed.

Lemma find_block_unique f blk :
NoDup (block_id <$> blocks f) -> blk ∈ blocks f -> find_block f (block_id blk) = Some blk.
Proof.
intros Hnd Hin. unfold find_block.
destruct (list_find (fun b => block_id b = block_id blk) (blocks f)) as [[i c]|] eqn:E; simpl.
- apply list_find_Some in E as (Hi & Hc & _). f_equal.
eapply (NoDup_fmap_inj_on block_id); [done | by eapply list_elem_of_lookup_2 | done | done].
- exfalso. apply list_find_None in E. rewrite Forall_forall in E. by apply (E blk).
Qed.
End facts.

(** In-place edits that keep identifiers commute with block lookup. *)
Lemma find_block_map g f id :
  (forall b, block_id (g b) = block_id b) -> find_block (map_blocks g f) id = g <$> find_block f id.
Proof.
  intros Hg. unfold find_block. simpl. induction (blocks f) as [|b bs IH]; [done|]. rewrite fmap_cons. simpl.
  rewrite (Hg b). destruct (decide (block_id b = id)); [done|].
  assert (Hs : forall m : option (nat * BasicBlock), snd <$> (prod_map S Datatypes.id <$> m) = snd <$> m) by (by intros [[? ?]|]).
  by rewrite !Hs.
Qed.

(** A host without opaque operations. *)
Definition unit_host : Host unit unit :=
  {| host_pure _ _ _ := None; host_read _ _ _ _ := None; host_effect _ _ _ _ := EStuck; host_leave _ w := w |}.

(** The host that decides nothing never halts a program. *)
Lemma unit_insts_never_halt dyn (call : call_sem unit unit) il ρ w w' :
  (forall c vs w w', call c vs w <> RHalt w') -> exec_insts (Host0 := unit_host) dyn call il ρ w <> SHalt w'.
Proof.
  intros Hc. revert ρ w. induction il as [|i il IH]; intros ρ w; [done|]. cbn [exec_insts].
  destruct (exec_inst (Host0 := unit_host) dyn call i ρ w) as [ρ1 w1|w1| |] eqn:E; try done. exfalso.
  unfold exec_inst in E. destruct (lookup_all ρ _); [|done]. destruct (dyn && _); [done|].
  destruct (class_of (inst_kind i)); [by destruct (eval_pure _ _ _) | done | done|].
  specialize (Hc callee l w). destruct (call callee l w) as [[]| | |]; try done. by eapply Hc.
Qed.

Lemma unit_never_halts dyn fuel fs idx args w w' : run_func (Host0 := unit_host) dyn fuel fs idx args w <> RHalt w'.
Proof.
  revert idx args w w'. induction fuel as [|fuel IH]; intros idx args w w'; [done|]. cbn [run_func].
  destruct (fs !! N.to_nat idx) as [f|]; [|done]. unfold enter_function. destruct (bind_args _ _ _) as [ρ|]; [|done].
  unfold leave_frame. cut (forall w', run_blocks (Host0 := unit_host) (dyn (N.to_nat idx)) (fun i vs w => run_func (Host0 := unit_host) dyn fuel fs i vs w)
    (S fuel) f (entry f) [] ρ w <> RHalt w'); [intros Hh; destruct (run_blocks _ _ _ _ _ _ _ _); [done | apply Hh | done | done]|].
  clear w'. intros w'.
  generalize (@nil (val unit)). generalize (entry f) as b. generalize (S fuel) as n. intros n. revert ρ w.
  induction n as [|n IHn]; intros ρ w b vs; [done|]. cbn [run_blocks]. unfold exec_block.
  destruct (find_block f b) as [blk|]; [|done]. destruct (bind_params _ vs ρ) as [ρ1|]; [|done].
  pose proof (unit_insts_never_halt (dyn (N.to_nat idx)) (fun i vs w => run_func (Host0 := unit_host) dyn fuel fs i vs w)
    (block_insts blk) ρ1 w) as Hi.
  destruct (exec_insts _ _ (block_insts blk) ρ1 w) as [ρ2 w2|w2| |]; try done.
  - destruct (exec_term (block_term blk) ρ2); [apply IHn | done | done].
  - exfalso. by eapply Hi.
Qed.
