(* ===== verification/Fpenv.v ===== *)
(** Floating-point-environment effects (src/src/opt/fpenv.rs): which functions may
    run in a dynamic rounding/flag environment, and which instructions observe
    it. *)

From S2P Require Import Prelude IrTypes IrInst Sample Worklist IrWalk Floats IrSem.

(** * Externals *)

Definition FPENV_BARRIER_EXTERNALS : list string := [
    "afs_ieee_get_rounding"; "afs_ieee_set_rounding"; "afs_ieee_test_flag"; "afs_ieee_set_flag";
    "afs_ieee_get_status"; "afs_ieee_set_status"]%string.

Definition ROUNDING_PRESERVING_EXTERNALS : list string := [
    "afs_write_int"; "afs_write_newline"; "memcpy"; "memset"; "sinf"; "cosf"; "tanf"; "asinf";
    "acosf"; "atanf"; "atan2f"; "sinhf"; "coshf"; "tanhf"; "expf"; "expm1f"; "logf"; "log2f";
    "log10f"; "log1pf"; "sqrtf"; "cbrtf"; "fabsf"; "ceilf"; "floorf"; "roundf"; "truncf"; "powf";
    "fmodf"; "hypotf"; "copysignf"; "sin"; "cos"; "tan"; "asin"; "acos"; "atan"; "atan2"; "sinh";
    "cosh"; "tanh"; "exp"; "expm1"; "log"; "log2"; "log10"; "log1p"; "sqrt"; "cbrt"; "fabs"; "ceil";
    "floor"; "round"; "trunc"; "pow"; "fmod"; "hypot"; "copysign"; "j0"; "j1"; "y0"; "y1"]%string.

Definition external_requires_fpenv_barrier (name : string) : bool :=
  if bool_decide (name ∈ FPENV_BARRIER_EXTERNALS) then true
  else negb (bool_decide (name ∈ ROUNDING_PRESERVING_EXTERNALS)).

(** * Sensitive instructions *)

Definition is_rounding_dependent_fp (k : InstKind) : bool :=
  match k with
  | FAdd _ _ | FSub _ _ | FMul _ _ | FDiv _ _ | FSqrt _ | FPow _ _ | IntToFloat _ _ | FloatTrunc _ _ => true
  | _ => false
  end.

Definition is_fpenv_sensitive (k : InstKind) : bool :=
  is_rounding_dependent_fp k ||
  match k with FCmp _ _ _ | FloatToInt _ _ | FloatExtend _ _ => true | _ => false end.

Definition is_scalar_fpenv_sensitive (f : Function) (i : Inst) : bool :=
  if negb (is_fpenv_sensitive (inst_kind i)) then false
  else
    match inst_kind i with
    | FCmp _ v _ | FloatToInt v _ =>
        match value_type f v with Some (TFloat _) => true | _ => false end
    | _ => match inst_ty i with TFloat _ => true | _ => false end
    end.

(** The pass's notion of sensitivity is the semantics' notion of an instruction
    that becomes an effect in a dynamic environment. *)
Lemma fpenv_sensitive_touches k : is_fpenv_sensitive k = touches_fpenv k.
Proof. by destruct k. Qed.

(** * The interprocedural analysis *)

Definition fn_insts (f : Function) : list Inst := blocks f ≫= block_insts.

(** The internal callees of a function, in instruction order; an index out of
    range is not recorded. *)
Definition internal_callees (n : nat) (f : Function) : list nat :=
  omap (fun i => match inst_kind i with
                 | Call (Internal c) _ => if decide (N.to_nat c < n)%nat then Some (N.to_nat c) else None
                 | _ => None
                 end) (fn_insts f).

Definition has_indirect_call (f : Function) : bool :=
  existsb (fun i => match inst_kind i with Call (Indirect _) _ => true | _ => false end) (fn_insts f).

(** The initial [may_cross_fpenv_barrier] flag of a function. *)
Definition crosses_barrier (n : nat) (f : Function) : bool :=
  existsb (fun i => match inst_kind i with
                    | Call (Internal c) _ => negb (bool_decide (N.to_nat c < n)%nat)
                    | Call (External name) _ => external_requires_fpenv_barrier name
                    | Call (Indirect _) _ => true
                    | _ => false
                    end) (fn_insts f).

Definition callees_of (fs : list Function) (i : nat) : list nat :=
  match fs !! i with Some f => internal_callees (length fs) f | None => [] end.

(** [callers[callee]]: one entry per call instruction, in module order. *)
Definition callers_of (fs : list Function) (callee : nat) : list nat :=
  seq 0 (length fs) ≫= fun caller => (fun _ => caller) <$> filter (fun c => c = callee) (callees_of fs caller).

Definition at_index (fs : list Function) (P : Function -> bool) (i : nat) : bool :=
  match fs !! i with Some f => P f | None => false end.

Definition indices_where (fs : list Function) (P : Function -> bool) : list nat :=
  filter (fun i => at_index fs P i = true) (seq 0 (length fs)).

(** The second worklist loop; [marked] is [indirect_targets_marked]. *)
Fixpoint dynamic_loop (fs : list Function) (fuel : nat) (marked : bool) (seen : gset nat) (q : list nat)
    : option (gset nat) :=
  match q with
  | [] => Some seen
  | caller :: q =>
      match fuel with
      | O => None
      | S fuel =>
          let indirect := at_index fs has_indirect_call caller in
          let '(marked1, (seen1, q1)) :=
            if indirect && negb marked then (true, visit (seq 0 (length fs)) seen q) else (marked, (seen, q)) in
          let '(seen2, q2) := visit (callees_of fs caller) seen1 q1 in
          dynamic_loop fs fuel marked1 seen2 q2
      end
  end.

Record FpEnvEffects := { may_cross_fpenv_barrier : list bool; may_run_in_dynamic_fpenv : list bool }.

Definition barrier_set (fs : list Function) : gset nat :=
  let seeds := indices_where fs (crosses_barrier (length fs)) in
  default ∅ (bfs (callers_of fs) (length fs) (list_to_set seeds) seeds).

Definition dynamic_seeds (fs : list Function) : list nat :=
  filter (fun i => i ∈ barrier_set fs \/ at_index fs (fun f => negb (internal_only f)) i = true)
    (seq 0 (length fs)).

Definition dynamic_set (fs : list Function) : gset nat :=
  default ∅ (dynamic_loop fs (length fs) false (list_to_set (dynamic_seeds fs)) (dynamic_seeds fs)).

Definition flags_of (n : nat) (s : gset nat) : list bool := (fun i => bool_decide (i ∈ s)) <$> seq 0 n.

Definition analyze_fpenv_effects (m : Module_) : FpEnvEffects :=
  let fs := functions m in
  {| may_cross_fpenv_barrier := flags_of (length fs) (barrier_set fs);
     may_run_in_dynamic_fpenv := flags_of (length fs) (dynamic_set fs) |}.

(** * Exactness *)

Section analysis.
Context (fs : list Function).
Abbreviation n := (length fs).

(** A direct internal call, and a call that may be one (an indirect call can
target any function of the module). *)
Definition calls (i j : nat) : Prop := j ∈ callees_of fs i.
Definition may_call (i j : nat) : Prop :=
calls i j \/ (at_index fs has_indirect_call i = true /\ (j < n)%nat).

Lemma callees_of_lt i j : j ∈ callees_of fs i -> (i < n)%nat /\ (j < n)%nat.
Proof.
unfold callees_of. destruct (fs !! i) as [f|] eqn:E; [|intros H; by apply not_elem_of_nil in H].
intros H. split; [by eapply lookup_lt_Some|]. unfold internal_callees in H.
apply list_elem_of_omap in H as (ins & _ & H). repeat case_match; simplify_eq. done.
Qed.

Lemma callers_of_spec j i : j ∈ callers_of fs i <-> calls j i.
Proof.
unfold callers_of, calls. rewrite list_elem_of_bind. split.
- intros (k & Hj & _). apply list_elem_of_fmap in Hj as (c & -> & Hc).
by apply list_elem_of_filter in Hc as [-> ?].
- intros H. exists j. split.
+ apply list_elem_of_fmap. exists i. split; [done|]. by apply list_elem_of_filter.
+ apply elem_of_seq. apply callees_of_lt in H. lia.
Qed.

Lemma elem_indices_where P i : i ∈ indices_where fs P <-> at_index fs P i = true.
Proof.
unfold indices_where. rewrite list_elem_of_filter, elem_of_seq. split; [tauto|]. intros H. split; [done|].
unfold at_index in H. destruct (fs !! i) eqn:E; [|done]. apply lookup_lt_Some in E. lia.
Qed.

Lemma seq_universe (seeds : list nat) :
(forall x, x ∈ seeds -> (x < n)%nat) -> NoDup seeds ->
(length seeds + (size (list_to_set (seq 0 n) : gset nat) - size (list_to_set seeds : gset nat)) <= n)%nat.
Proof.
intros Hlt Hnd. rewrite !size_list_to_set, length_seq by (done || apply NoDup_seq).
assert (length seeds <= n)%nat; [|lia].
rewrite <- (length_seq n 0). apply submseteq_length, NoDup_submseteq; [done|].
intros x Hx. apply elem_of_seq. specialize (Hlt x Hx). lia.
Qed.

Lemma indices_where_NoDup P : NoDup (indices_where fs P).
Proof. apply NoDup_filter, NoDup_seq. Qed.

(** A function is marked as crossing a barrier exactly when its internal calls
lead to a function that crosses one itself. *)
Lemma barrier_set_spec i :
i ∈ barrier_set fs <-> exists j, rtc calls i j /\ at_index fs (crosses_barrier n) j = true.
Proof.
unfold barrier_set. set (seeds := indices_where fs (crosses_barrier n)).
assert (Hlt : forall x, x ∈ seeds -> (x < n)%nat).
{ intros x Hx. unfold seeds, indices_where in Hx. rewrite list_elem_of_filter, elem_of_seq in Hx. lia. }
destruct (bfs_total (callers_of fs) (list_to_set (seq 0 n)) n (list_to_set seeds) seeds) as [s Hs].
- intros x y _ Hy. apply callers_of_spec, callees_of_lt in Hy. set_solver by lia.
- intros x Hx. rewrite elem_of_list_to_set in *. apply elem_of_seq. specialize (Hlt x Hx). lia.
- set_solver.
- apply indices_where_NoDup.
- apply seq_universe; [done | apply indices_where_NoDup].
- rewrite Hs. simpl.
rewrite (bfs_inv_spec (callers_of fs) (list_to_set seeds) n (list_to_set seeds) seeds s);
[|apply bfs_inv_init; set_solver | apply indices_where_NoDup | done].
assert (Hrev : forall a b, rtc (edge (callers_of fs)) a b <-> rtc calls b a).
{ assert (H1 : forall a b, rtc (edge (callers_of fs)) a b -> rtc calls b a).
{ induction 1 as [|a b c Hab _ IH]; [apply rtc_refl|]. eapply rtc_r; [done|]. by apply callers_of_spec. }
assert (H2 : forall a b, rtc calls b a -> rtc (edge (callers_of fs)) a b).
{ intros a b. induction 1 as [|x y z Hxy _ IH]; [apply rtc_refl|]. eapply rtc_r; [done|]. by apply callers_of_spec. }
split; auto. }
split.
+ intros (r & Hr & Hri). exists r. split; [by apply Hrev|]. apply elem_indices_where. set_solver.
+ intros (j & Hij & Hj). exists j. split; [|by apply Hrev]. apply elem_of_list_to_set. by apply elem_indices_where.
Qed.

Definition dynamic_succ (i : nat) : list nat :=
(if at_index fs has_indirect_call i then seq 0 n else []) ++ callees_of fs i.

Lemma visit_seen (ts : list nat) seen q : (forall t, t ∈ ts -> t ∈ seen) -> visit ts seen q = (seen, q).
Proof.
revert seen q. induction ts as [|t ts IH]; intros seen q H; simpl; [done|].
rewrite decide_True by (apply H; left). apply IH. intros u Hu. apply H. by right.
Qed.

Lemma visit_app (ts us : list nat) seen q :
visit (ts ++ us) seen q = let '(s, q') := visit ts seen q in visit us s q'.
Proof.
revert seen q. induction ts as [|t ts IH]; intros seen q; simpl; [done|]. case_decide; apply IH.
Qed.

(** Marking the indirect targets once is as good as marking them at every
indirect caller. *)
Lemma dynamic_loop_bfs fuel marked seen q :
(marked = true -> forall i, (i < n)%nat -> i ∈ seen) ->
dynamic_loop fs fuel marked seen q = bfs dynamic_succ fuel seen q.
Proof.
revert marked seen q. induction fuel as [|fuel IH]; intros marked seen [|c q] Hm; simpl; try done.
unfold dynamic_succ at 1. rewrite visit_app. destruct (at_index fs has_indirect_call c); simpl.
- destruct marked; simpl.
+ rewrite (visit_seen (seq 0 n)) by (intros t Ht; apply elem_of_seq in Ht; apply Hm; [done | lia]).
pose proof (visit_spec (callees_of fs) (callees_of fs c) seen q) as Hv.
destruct (visit (callees_of fs c) seen q) as [s2 q2]. apply IH.
intros _ i Hi. apply Hv. left. by apply Hm.
+ pose proof (visit_spec (callees_of fs) (seq 0 n) seen q) as Hv1. destruct (visit (seq 0 n) seen q) as [s1 q1].
pose proof (visit_spec (callees_of fs) (callees_of fs c) s1 q1) as Hv. destruct (visit (callees_of fs c) s1 q1) as [s2 q2].
apply IH. intros _ i Hi. apply Hv. left. apply Hv1. right. apply elem_of_seq. lia.
- pose proof (visit_spec (callees_of fs) (callees_of fs c) seen q) as Hv.
destruct (visit (callees_of fs c) seen q) as [s2 q2]. apply IH.
intros Hmk i Hi. apply Hv. left. by apply Hm.
Qed.

Lemma dynamic_edge i j : edge dynamic_succ i j <-> may_call i j.
Proof.
unfold edge, dynamic_succ, may_call, calls. rewrite elem_of_app.
destruct (at_index fs has_indirect_call i); rewrite ?elem_of_seq; [|set_solver].
split; [intros [?|?]; [right; split; [done | lia] | by left] | intros [?|[_ ?]]; [by right | left; lia]].
Qed.

Lemma dynamic_set_spec i :
i ∈ dynamic_set fs <-> exists r, r ∈ dynamic_seeds fs /\ rtc may_call r i.
Proof.
unfold dynamic_set. rewrite dynamic_loop_bfs by done.
assert (Hlt : forall x, x ∈ dynamic_seeds fs -> (x < n)%nat).
{ intros x Hx. unfold dynamic_seeds in Hx. rewrite list_elem_of_filter, elem_of_seq in Hx. lia. }
assert (Hnd : NoDup (dynamic_seeds fs)) by apply NoDup_filter, NoDup_seq.
destruct (bfs_total dynamic_succ (list_to_set (seq 0 n)) n (list_to_set (dynamic_seeds fs)) (dynamic_seeds fs)) as [s Hs].
- intros x y _ Hy. apply elem_of_list_to_set, elem_of_seq. apply dynamic_edge in Hy as [Hy|[_ Hy]]; [|lia].
apply callees_of_lt in Hy. lia.
- intros x Hx. rewrite elem_of_list_to_set in *. apply elem_of_seq. specialize (Hlt x Hx). lia.
- set_solver.
- done.
- by apply seq_universe.
- rewrite Hs. simpl.
rewrite (bfs_inv_spec dynamic_succ (list_to_set (dynamic_seeds fs)) n (list_to_set (dynamic_seeds fs)) (dynamic_seeds fs) s);
[|apply bfs_inv_init; set_solver | done | done].
assert (Hr : forall a b, rtc (edge dynamic_succ) a b <-> rtc may_call a b).
{ intros a b. split; apply rtc_subrel; intros x y; apply dynamic_edge. }
setoid_rewrite Hr. set_solver.
Qed.
End analysis.

Lemma at_index_lt fs P i : at_index fs P i = true -> (i < length fs)%nat.
Proof. unfold at_index. destruct (fs !! i) eqn:E; [|done]. intros _. by eapply lookup_lt_Some. Qed.

Lemma flags_of_spec n s i : flags_of n s !! i = Some true <-> (i < n)%nat /\ i ∈ s.
Proof.
  unfold flags_of. rewrite list_lookup_fmap. destruct (decide (i < n)%nat) as [Hi|Hi].
  - rewrite lookup_seq_lt by done. simpl. split.
    + intros [= H%bool_decide_eq_true]. done.
    + intros [_ H]. by rewrite bool_decide_true.
  - rewrite lookup_seq_ge by lia. simpl. split; [done | lia].
Qed.

(** The flags as predicates on function indices. *)
Definition dynamic_fn (m : Module_) (n : nat) : bool :=
  default false (may_run_in_dynamic_fpenv (analyze_fpenv_effects m) !! n).
Definition crosses_barrier_fn (m : Module_) (n : nat) : bool :=
  default false (may_cross_fpenv_barrier (analyze_fpenv_effects m) !! n).

(** * Properties *)

(** The barrier analysis is exact on the call graph: a function is marked
    precisely when some chain of direct internal calls from it reaches a function
    with an unknown external call, an indirect call or an out-of-range callee. *)
Theorem fpenv_barrier_exact m i :
  may_cross_fpenv_barrier (analyze_fpenv_effects m) !! i = Some true <->
    exists j, rtc (calls (functions m)) i j /\
      at_index (functions m) (crosses_barrier (length (functions m))) j = true.
Proof.
  simpl. rewrite flags_of_spec, barrier_set_spec. split; [tauto|]. intros (j & Hij & Hj).
  split; [|eauto]. inversion Hij as [|x y z Hxy]; subst; [by eapply at_index_lt|].
  by apply callees_of_lt in Hxy as [? _].
Qed.

(** A function is marked as possibly running in a dynamic floating-point
    environment precisely when it can be reached, through direct calls and
    through indirect calls to any function, from a function that is visible
    outside the module or crosses a barrier; the worklist loop always finishes. *)
Theorem fpenv_dynamic_exact m i :
  may_run_in_dynamic_fpenv (analyze_fpenv_effects m) !! i = Some true <->
    exists r, rtc (may_call (functions m)) r i /\
      (at_index (functions m) (fun f => negb (internal_only f)) r = true \/
       exists j, rtc (calls (functions m)) r j /\
         at_index (functions m) (crosses_barrier (length (functions m))) j = true).
Proof.
  simpl. rewrite flags_of_spec, dynamic_set_spec. unfold dynamic_seeds.
  setoid_rewrite list_elem_of_filter. setoid_rewrite elem_of_seq. setoid_rewrite barrier_set_spec. split.
  - intros [_ (r & [Hs _] & Hri)]. exists r. split; [done|]. tauto.
  - intros (r & Hri & Hs).
    assert (Hr : (r < length (functions m))%nat).
    { destruct Hs as [Hs|(j & Hrj & Hj)]; [by eapply at_index_lt|].
      inversion Hrj as [|x y z Hxy]; subst; [by eapply at_index_lt|]. by apply callees_of_lt in Hxy as [? _]. }
    split; [|exists r; split; [|done]; split; [tauto | lia]].
    apply rtc_inv_r in Hri as [->|(y & _ & Hyi)]; [done|].
    destruct Hyi as [Hyi|[_ ?]]; [|done]. by apply callees_of_lt in Hyi as [_ ?].
Qed.
