(* ===== verification/Dominators.v ===== *)
(** Dominance, and the bit-set dataflow solver [compute_dominator_info]
    (src/src/ir/walk.rs).

    [dominates_path f d b] is the textbook notion: [b] is reachable and no path
    from the entry reaches [b] while avoiding [d].  The solver is the code's:
    [u64] words, block positions as bit numbers, sweeps until nothing changes. *)

From S2P Require Import Prelude BitSet IrTypes IrInst Sample Worklist IrWalk.

(** * Path dominance *)

Inductive avoids (f : Function) (d : BlockId) : BlockId -> Prop :=
| avoids_entry : entry f <> d -> avoids f d (entry f)
| avoids_step a b : avoids f d a -> cfg_edge f a b -> b <> d -> avoids f d b.

Definition dominates_path (f : Function) (d b : BlockId) : Prop := reachable f b /\ ~ avoids f d b.

Lemma avoids_ne f d b : avoids f d b -> b <> d.
Proof. by destruct 1. Qed.

Lemma avoids_reachable f d b : avoids f d b -> reachable f b.
Proof.
  induction 1 as [|a b _ IH He _]; [apply rtc_refl|]. eapply rtc_r; eauto.
Qed.

Lemma dominates_refl f b : reachable f b -> dominates_path f b b.
Proof. intros Hr. split; [done|]. intros Ha. by apply avoids_ne in Ha. Qed.

Lemma dominates_entry f b : reachable f b -> dominates_path f (entry f) b.
Proof.
  intros Hr. split; [done|]. intros Ha. induction Ha as [|a b Ha IH]; [done|].
  apply IH. by eapply avoids_reachable.
Qed.

(** A dominator of a block other than itself dominates each of its reachable
    predecessors. *)
Lemma dominates_pred f d a b :
  dominates_path f d b -> reachable f a -> cfg_edge f a b -> d <> b -> dominates_path f d a.
Proof.
  intros [_ Hn] Hr He Hne. split; [done|]. intros Ha. apply Hn.
  eapply avoids_step; eauto.
Qed.

Lemma dominates_antisym f a b : dominates_path f a b -> dominates_path f b a -> a = b.
Proof.
  intros [Hrb Hab] [Hra Hba]. destruct (decide (a = b)) as [|Hne]; [done|]. exfalso.
  assert (Hboth : forall x, reachable f x -> avoids f a x /\ avoids f b x).
  { apply (rtc_ind_r (fun x => avoids f a x /\ avoids f b x)).
    - assert (entry f <> a) by (intros <-; apply Hba; by constructor).
      assert (entry f <> b) by (intros <-; apply Hab; by constructor).
      split; by constructor.
    - intros x y _ He [IHa IHb].
      assert (y <> a) by (intros ->; apply Hba; eapply avoids_step; eauto).
      assert (y <> b) by (intros ->; apply Hab; eapply avoids_step; eauto).
      split; eapply avoids_step; eauto. }
  destruct (Hboth a Hra) as [Ha _]. by apply avoids_ne in Ha.
Qed.

Lemma dominates_trans f d e b : dominates_path f d e -> dominates_path f e b -> dominates_path f d b.
Proof.
  intros [_ Hde] [Hr Heb]. split; [done|]. intros Hav.
  assert (H : avoids f e b \/ avoids f d e); [|by destruct H].
  clear Hr Heb. induction Hav as [Hne|x y Hx IH He Hne].
  - destruct (decide (entry f = e)) as [<-|]; [right | left]; by constructor.
  - destruct (decide (y = e)) as [<-|]; [right; by eapply avoids_step|].
    destruct IH as [IH|]; [left; by eapply avoids_step | by right].
Qed.


(** * The solver *)

Record DominatorInfo := {
  di_blocks : list BlockId;
  di_index : gmap BlockId nat;
  di_doms : list (list N);
  di_reachable : list bool }.

(** Successors that have a position, looked up by position. *)
Definition indexed_succ (f : Function) (index : gmap BlockId nat) (id : BlockId) : list BlockId :=
  match index !! id ≫= (blocks f !!.) with
  | Some b => filter (fun t => is_Some (index !! t)) (block_targets b)
  | None => []
  end.

(** The forward search; the flags, indexed by position, are membership of the
    visited set. *)
Definition reachable_flags (f : Function) (index : gmap BlockId nat) (ids : list BlockId) : list bool :=
  let seen :=
    match index !! entry f with
    | Some _ => default ∅ (bfs (indexed_succ f index) (cfg_fuel f) {[entry f]} [entry f])
    | None => ∅
    end in
  (fun b => bool_decide (b ∈ seen)) <$> ids.

Definition pred_indices (f : Function) (index : gmap BlockId nat) : list (list nat) :=
  foldl (fun P p =>
    foldl (fun P t => match index !! t with
                      | Some j => alter (fun l => l ++ [p.1]) j P
                      | None => P
                      end) P (block_targets p.2))
    (replicate (length (blocks f)) []) (zip (seq 0 (length (blocks f))) (blocks f)).

Definition flag (R : list bool) (i : nat) : bool := default false (R !! i).

Definition reachable_bits (n : nat) (R : list bool) : list N :=
  foldl (fun ws i => if flag R i then set_bit ws i else ws)
    (replicate (bit_word_count n) 0%N) (seq 0 n).

(** Initial rows: the entry dominates itself, every other reachable block
    starts at all reachable blocks. *)
Definition init_doms (f : Function) (index : gmap BlockId nat) (R : list bool) : list (list N) :=
  let n := length (blocks f) in
  let zero := replicate (bit_word_count n) 0%N in
  let D0 := replicate n zero in
  let D1 := match index !! entry f with
            | Some e => if flag R e then alter (fun ws => set_bit ws e) e D0 else D0
            | None => D0
            end in
  foldl (fun D p => if bool_decide (block_id p.2 <> entry f) && flag R p.1
                    then <[p.1 := reachable_bits n R]> D else D)
    D1 (zip (seq 0 n) (blocks f)).

(** The meet over the reachable predecessors, with the block's own bit. *)
Definition new_dom (P : list (list nat)) (R : list bool) (D : list (list N)) (i : nat) : option (list N) :=
  match filter (fun p => flag R p = true) (default [] (P !! i)) with
  | [] => None
  | p :: ps => Some (set_bit (foldl (fun acc q => and_bits_into acc (row D q)) (row D p) ps) i)
  end.

Definition sweep_step (f : Function) (P : list (list nat)) (R : list bool)
    (st : list (list N) * bool) (p : nat * BasicBlock) : list (list N) * bool :=
  let '(D, changed) := st in
  if bool_decide (block_id p.2 = entry f) then st
  else if negb (flag R p.1) then st
  else match new_dom P R D p.1 with
       | None => st
       | Some nd => if bool_decide (row D p.1 = nd) then st else (<[p.1 := nd]> D, true)
       end.

Definition sweep (f : Function) P R (D : list (list N)) : list (list N) * bool :=
  foldl (sweep_step f P R) (D, false) (zip (seq 0 (length (blocks f))) (blocks f)).

(** [while changed { .. }] *)
Fixpoint dom_loop (fuel : nat) (f : Function) P R (D : list (list N)) : option (list (list N)) :=
  match fuel with
  | O => None
  | S fuel => let '(D', changed) := sweep f P R D in
              if changed then dom_loop fuel f P R D' else Some D'
  end.

(** Each sweep that changes something clears at least one bit. *)
Definition dom_fuel (f : Function) : nat :=
  S (length (blocks f) * (64 * bit_word_count (length (blocks f)))).

Definition solve_doms (f : Function) : option (list (list N)) :=
  let ids := block_id <$> blocks f in
  let index := index_of ids in
  let R := reachable_flags f index ids in
  dom_loop (dom_fuel f) f (pred_indices f index) R (init_doms f index R).

Definition compute_dominator_info (f : Function) : DominatorInfo :=
  let ids := block_id <$> blocks f in
  let index := index_of ids in
  {| di_blocks := ids; di_index := index;
     di_doms := default [] (solve_doms f);
     di_reachable := reachable_flags f index ids |}.

(** [DominatorInfo::dominates]. *)
Definition dominates (info : DominatorInfo) (d b : BlockId) : bool :=
  match di_index info !! d, di_index info !! b with
  | Some di, Some bi => flag (di_reachable info) bi && bit_is_set (row (di_doms info) bi) di
  | _, _ => false
  end.

(** [DominatorInfo::dominator_set]. *)
Definition dominator_set (info : DominatorInfo) (b : BlockId) : gset BlockId :=
  match di_index info !! b with
  | None => ∅
  | Some bi =>
      if flag (di_reachable info) bi then
        list_to_set (snd <$> filter (fun p => bit_is_set (row (di_doms info) bi) p.1 = true)
          (zip (seq 0 (length (di_blocks info))) (di_blocks info)))
      else ∅
  end.

(** [compute_dominators]. *)
Definition compute_dominators (f : Function) : gmap BlockId (gset BlockId) :=
  let info := compute_dominator_info f in
  foldl (fun m b => <[b := dominator_set info b]> m) ∅ (di_blocks info).

(** * Positions and predecessors *)

Section preds.
Context (f : Function) (index : gmap BlockId nat).

Lemma fold_targets_preds (P : list (list nat)) (i : nat) (ts : list BlockId) (j p : nat) :
p ∈ default [] (foldl (fun P t => match index !! t with
    | Some j => alter (fun l => l ++ [i]) j P | None => P end) P ts !! j) <->
p ∈ default [] (P !! j) \/ ((j < length P)%nat /\ p = i /\ exists t, t ∈ ts /\ index !! t = Some j).
Proof.
revert P. induction ts as [|t ts IH]; intros P; simpl.
- split; [by left | intros [H|(_ & _ & t & H & _)]; [done | by apply not_elem_of_nil in H]].
- rewrite IH. clear IH. destruct (index !! t) as [k|] eqn:Et.
+ rewrite length_alter. destruct (decide (k = j)) as [->|Hkj].
* rewrite list_lookup_alter_eq. destruct (P !! j) as [l|] eqn:Ej; simpl.
-- apply lookup_lt_Some in Ej. rewrite elem_of_app, list_elem_of_singleton. split.
++ intros [[H| ->]|(? & ? & t' & ? & ?)]; [by left | |]; right; split; [done | | done |]; split; try done.
** exists t. split; [left | done].
** exists t'. split; [by right | done].
++ intros [H|(? & -> & t' & Ht' & Hj)]; [by left; left|]. left. by right.
-- apply lookup_ge_None in Ej. split; intros [H|(Hlt & _)]; try lia; by apply not_elem_of_nil in H.
* rewrite list_lookup_alter_ne by done. split.
-- intros [H|(? & ? & t' & ? & ?)]; [by left|]. right. split; [done|]. split; [done|]. exists t'. split; [by right|done].
-- intros [H|(? & ? & t' & Ht' & ?)]; [by left|]. apply elem_of_cons in Ht' as [->|Ht']; [congruence|].
right. split; [done|]. split; [done|]. by exists t'.
+ split.
* intros [H|(? & ? & t' & ? & ?)]; [by left|]. right. split; [done|]. split; [done|]. exists t'. split; [by right|done].
* intros [H|(? & ? & t' & Ht' & ?)]; [by left|]. apply elem_of_cons in Ht' as [->|Ht']; [congruence|].
right. split; [done|]. split; [done|]. by exists t'.
Qed.

Lemma fold_targets_length (P : list (list nat)) (i : nat) (ts : list BlockId) :
length (foldl (fun P t => match index !! t with
| Some j => alter (fun l => l ++ [i]) j P | None => P end) P ts) = length P.
Proof.
revert P. induction ts as [|t ts IH]; intros P; simpl; [done|]. rewrite IH.
destruct (index !! t); [apply length_alter | done].
Qed.

(** Position [p] is a predecessor of position [j] exactly when the block at
[p] branches to a block at [j]. *)
Lemma pred_indices_spec (j p : nat) :
(j < length (blocks f))%nat ->
p ∈ default [] (pred_indices f index !! j) <->
exists b t, blocks f !! p = Some b /\ t ∈ block_targets b /\ index !! t = Some j.
Proof.
intros Hj. unfold pred_indices.
assert (Hgen : forall (l : list (nat * BasicBlock)) (P : list (list nat)), length P = length (blocks f) ->
p ∈ default [] (foldl (fun P p => foldl (fun P t => match index !! t with
| Some j => alter (fun l => l ++ [p.1]) j P | None => P end) P (block_targets p.2)) P l !! j) <->
p ∈ default [] (P !! j) \/ exists b t, (p, b) ∈ l /\ t ∈ block_targets b /\ index !! t = Some j).
{ intros l. induction l as [|[i b] l IH]; intros P HP; simpl.
- split; [by left | intros [H|(? & ? & H & _)]; [done | by apply not_elem_of_nil in H]].
- rewrite IH by (by rewrite fold_targets_length). rewrite fold_targets_preds. split.
+ intros [[H|(_ & -> & t & Ht & Hi)]|(b' & t & Hb & Ht & Hi)]; [by left | |]; right.
* exists b, t. split; [left | done].
* exists b', t. split; [by right | done].
+ intros [H|(b' & t & Hb & Ht & Hi)]; [by left; left|].
apply elem_of_cons in Hb as [[= -> ->]|Hb].
* left. right. split; [lia|]. eauto.
* right. eauto. }
rewrite Hgen by apply length_replicate.
assert (replicate (length (blocks f)) ([] : list nat) !! j = Some []) as -> by (by apply lookup_replicate_2).
simpl. split.
- intros [H|(b & t & Hb & Ht)]; [by apply not_elem_of_nil in H|].
apply elem_of_zip_seq in Hb as [_ Hb]. rewrite Nat.sub_0_r in Hb. eauto.
- intros (b & t & Hb & Ht). right. exists b, t. split; [|done].
apply elem_of_zip_seq. rewrite Nat.sub_0_r. split; [lia|done].
Qed.
End preds.

(** * Correctness of the solver *)

Section solver.
Context (f : Function) (Hok : block_index_ok f) (Hentry : entry f ∈ (block_id <$> blocks f)).

Local Abbreviation ids := (block_id <$> blocks f).
Local Abbreviation index := (index_of (block_id <$> blocks f)).
Local Abbreviation n := (length (blocks f)).
Local Abbreviation wc := (bit_word_count (length (blocks f))).
Local Abbreviation total_bits := (total_bits wc).
Local Abbreviation R := (reachable_flags f index ids).
Local Abbreviation P := (pred_indices f index).

Lemma index_Some b i : index !! b = Some i <-> exists blk, blocks f !! i = Some blk /\ block_id blk = b.
Proof.
rewrite index_of_spec by (by apply block_ids_NoDup).
rewrite list_lookup_fmap, fmap_Some. naive_solver.
Qed.

Lemma index_lt b i : index !! b = Some i -> (i < n)%nat.
Proof. intros (blk & Hb & _)%index_Some. by eapply lookup_lt_Some. Qed.

Lemma index_is_Some b : is_Some (index !! b) <-> b ∈ ids.
Proof.
split.
- intros [i (blk & Hb & <-)%index_Some]. apply list_elem_of_fmap_2. by eapply list_elem_of_lookup_2.
- intros (blk & -> & Hin)%list_elem_of_fmap. apply list_elem_of_lookup in Hin as [i Hi].
exists i. apply index_Some. eauto.
Qed.

Lemma index_block b : index !! b ≫= (blocks f !!.) = try_block f b.
Proof.
destruct (index !! b) as [i|] eqn:E; simpl.
- apply index_Some in E as (blk & Hi & Hid). rewrite Hi. symmetry. apply try_block_Some; [done|].
split; [by eapply list_elem_of_lookup_2 | done].
- symmetry. apply try_block_None; [done|]. intros Hin. apply index_is_Some in Hin as [i Hi]. congruence.
Qed.

Lemma indexed_edge a b : edge (indexed_succ f index) a b <-> cfg_edge f a b /\ b ∈ ids.
Proof.
unfold edge, indexed_succ, cfg_edge, edge, cfg_succ. rewrite index_block.
destruct (try_block f a) as [blk|].
- rewrite list_elem_of_filter, index_is_Some. naive_solver.
- split; [intros H; by apply not_elem_of_nil in H | intros [H _]; by apply not_elem_of_nil in H].
Qed.

Lemma edge_source a b : cfg_edge f a b -> a ∈ ids.
Proof. intros (blk & Hin & <- & _)%cfg_edge_iff; [|done]. by apply list_elem_of_fmap_2. Qed.

Lemma indexed_reach x : rtc (edge (indexed_succ f index)) (entry f) x <-> reachable f x /\ x ∈ ids.
Proof.
split.
- revert x. apply (rtc_ind_r (fun x => reachable f x /\ x ∈ ids)).
+ split; [apply rtc_refl | done].
+ intros y z _ [He Hz]%indexed_edge [Hr _]. split; [eapply rtc_r; eauto | done].
- intros [Hr Hx]. revert x Hr Hx.
apply (rtc_ind_r (fun x => x ∈ ids -> rtc (edge (indexed_succ f index)) (entry f) x)).
+ intros _. apply rtc_refl.
+ intros y z _ He IH Hz. eapply rtc_r; [apply IH; by eapply edge_source|]. by apply indexed_edge.
Qed.

Lemma bfs_indexed_total :
is_Some (bfs (indexed_succ f index) (cfg_fuel f) {[entry f]} [entry f]).
Proof.
apply (bfs_total_single _ (cfg_universe f)).
- unfold cfg_universe. set_solver.
- intros x y _ Hy. apply indexed_edge in Hy as [Hy _]. by eapply cfg_universe_closed.
- apply cfg_universe_size.
Qed.

Lemma flag_spec i : flag R i = true <-> exists blk, blocks f !! i = Some blk /\ reachable f (block_id blk).
Proof.
unfold flag, reachable_flags.
assert (is_Some (index !! entry f)) as [e ->] by (by apply index_is_Some).
destruct bfs_indexed_total as [s Hs]. rewrite Hs. simpl. rewrite list_lookup_fmap.
destruct ((block_id <$> blocks f) !! i) as [b|] eqn:Eb; simpl.
- rewrite bool_decide_eq_true, (bfs_spec _ _ _ _ Hs), indexed_reach.
rewrite list_lookup_fmap in Eb. apply fmap_Some in Eb as (blk & Hi & ->). split.
+ intros [Hr _]. eauto.
+ intros (blk' & Hi' & Hr). simplify_eq. split; [done|].
apply list_elem_of_fmap_2. by eapply list_elem_of_lookup_2.
- split; [done|]. intros (blk & Hi & _). rewrite list_lookup_fmap, Hi in Eb. done.
Qed.

(** Reachable predecessors, by position. *)
Definition rpreds (i : nat) : list nat := filter (fun p => flag R p = true) (default [] (P !! i)).

Lemma rpreds_spec i p :
(i < n)%nat ->
p ∈ rpreds i <-> exists b c, blocks f !! p = Some b /\ blocks f !! i = Some c /\
reachable f (block_id b) /\ cfg_edge f (block_id b) (block_id c).
Proof.
intros Hi. unfold rpreds. rewrite list_elem_of_filter, flag_spec, pred_indices_spec by done. split.
- intros ((b & Hb & Hr) & b' & t & Hb' & Ht & Hidx). simplify_eq.
apply index_Some in Hidx as (c & Hc & <-). exists b, c. split; [done|]. split; [done|]. split; [done|].
apply cfg_edge_iff; [done|]. exists b. split; [by eapply list_elem_of_lookup_2 | done].
- intros (b & c & Hb & Hc & Hr & He). split; [eauto|].
apply cfg_edge_iff in He as (b' & Hin & Hid & Ht); [|done].
assert (b' = b) as ->.
{ eapply (NoDup_fmap_inj_on block_id); [by apply block_ids_NoDup | done | by eapply list_elem_of_lookup_2 | done]. }
exists b, (block_id c). split; [done|]. split; [done|]. apply index_Some. eauto.
Qed.

Lemma reachable_has_pred i c :
blocks f !! i = Some c -> reachable f (block_id c) -> block_id c <> entry f -> rpreds i <> [].
Proof.
intros Hi Hr Hne. unfold reachable in Hr.
apply rtc_inv_r in Hr as [He|(y & Hy & He)]; [congruence|].
assert (Hlt : (i < n)%nat) by (by eapply lookup_lt_Some).
pose proof (edge_source _ _ He) as (b & -> & Hb)%list_elem_of_fmap.
apply list_elem_of_lookup in Hb as [p Hp].
assert (p ∈ rpreds i) as Hin by (apply rpreds_spec; [done|]; eauto 10).
intros E. rewrite E in Hin. by apply not_elem_of_nil in Hin.
Qed.

(** ** The invariant *)

Abbreviation bit D i d := (bit_is_set (row D i) d = true) (only parsing).

Record dom_inv (D : list (list N)) : Prop := {
inv_len : length D = n;
inv_rows : forall i, (i < n)%nat -> row_ok wc (row D i);
inv_entry : forall e d, index !! entry f = Some e -> bit D e d -> d = e;
inv_true : forall i d b c, blocks f !! i = Some b -> blocks f !! d = Some c ->
dominates_path f (block_id c) (block_id b) -> bit D i d;
inv_shrinks : forall i b, blocks f !! i = Some b -> reachable f (block_id b) -> block_id b <> entry f ->
forall d, (forall p, p ∈ rpreds i -> bit D p d) \/ d = i -> bit D i d }.

Lemma fold_and_bits D acc ps d :
(forall p, p ∈ ps -> row_ok wc (row D p)) -> row_ok wc acc ->
row_ok wc (foldl (fun acc q => and_bits_into acc (row D q)) acc ps) /\
(bit_is_set (foldl (fun acc q => and_bits_into acc (row D q)) acc ps) d = true <->
bit_is_set acc d = true /\ forall p, p ∈ ps -> bit D p d).
Proof.
revert acc. induction ps as [|p ps IH]; intros acc Hrows Hacc; simpl.
- split; [done|]. split; [intros H; split; [done|] ; intros q Hq; by apply not_elem_of_nil in Hq | by intros [? _]].
- assert (Hp : row_ok wc (row D p)) by (apply Hrows; left).
destruct (IH (and_bits_into acc (row D p))) as [Hr Hb].
+ intros q Hq. apply Hrows. by right.
+ by apply and_bits_row_ok.
+ split; [done|]. rewrite Hb, bit_is_set_and by (destruct Hacc, Hp; congruence).
rewrite andb_true_iff. split.
* intros [[Ha Hpd] Hps]. split; [done|]. intros q Hq. apply elem_of_cons in Hq as [->|Hq]; auto.
* intros [Ha Hps]. split; [split; [done|]; apply Hps; left|]. intros q Hq. apply Hps. by right.
Qed.

Lemma rpreds_lt i p : (i < n)%nat -> p ∈ rpreds i -> (p < n)%nat.
Proof. intros Hi Hp. apply rpreds_spec in Hp as (b & c & Hb & _); [|done]. by eapply lookup_lt_Some. Qed.

Lemma new_dom_spec D i nd :
(i < n)%nat -> (forall j, (j < n)%nat -> row_ok wc (row D j)) -> new_dom P R D i = Some nd ->
row_ok wc nd /\ forall d, bit_is_set nd d = true <-> d = i \/ forall p, p ∈ rpreds i -> bit D p d.
Proof.
intros Hi Hrows. unfold new_dom. fold (rpreds i).
destruct (rpreds i) as [|p ps] eqn:E; [done|]. intros [= <-].
assert (Hall : forall q, q ∈ p :: ps -> row_ok wc (row D q)).
{ intros q Hq. apply Hrows, (rpreds_lt i); [done|]. by rewrite E. }
assert (Hp : row_ok wc (row D p)) by (apply Hall; left).
assert (Hps : forall q, q ∈ ps -> row_ok wc (row D q)) by (intros q Hq; apply Hall; by right).
destruct (fold_and_bits D (row D p) ps 0 Hps Hp) as [Hrow _].
split; [by apply set_bit_row_ok|]. intros d.
destruct (fold_and_bits D (row D p) ps d Hps Hp) as [_ Hb].
rewrite bit_is_set_set by (destruct Hrow as [-> _]; by apply bit_in_words).
rewrite orb_true_iff, bool_decide_eq_true, Hb. split.
- intros [->|[Hpd Hps']]; [by left|]. right. intros q Hq. apply elem_of_cons in Hq as [->|Hq]; auto.
- intros [->|Hq]; [by left|]. right. split; [apply Hq; left|]. intros q Hq'. apply Hq. by right.
Qed.

(** Replacing a row by the meet keeps the invariant and only clears bits. *)
Lemma dom_inv_update D i b nd :
dom_inv D -> blocks f !! i = Some b -> reachable f (block_id b) -> block_id b <> entry f ->
new_dom P R D i = Some nd ->
dom_inv (<[i := nd]> D) /\ forall d, bit_is_set nd d = true -> bit D i d.
Proof.
intros [Hlen Hrows He Htrue Hshr] Hi Hr Hne Hnd.
assert (Hlt : (i < n)%nat) by (by eapply lookup_lt_Some).
destruct (new_dom_spec D i nd Hlt Hrows Hnd) as [Hrow Hbits].
assert (Hsub : forall d, bit_is_set nd d = true -> bit D i d).
{ intros d Hd. apply Hbits in Hd. apply (Hshr i b Hi Hr Hne). tauto. }
assert (Hmono : forall j d, bit (<[i := nd]> D) j d -> bit D j d).
{ intros j d. rewrite row_insert by lia. case_decide; [subst; apply Hsub | done]. }
split; [|done]. split.
- by rewrite length_insert.
- intros j Hj. rewrite row_insert by lia. case_decide; [done | by apply Hrows].
- intros e d Hie Hb. eapply He; [done|]. by apply Hmono.
- intros j d b' c Hj Hd Hdom. rewrite row_insert by lia. case_decide as E; [|by eapply Htrue].
subst. simplify_eq. apply Hbits.
destruct (decide (d = i)) as [|Hdi]; [by left|]. right. intros p Hp.
apply rpreds_spec in Hp as (bp & c' & Hbp & Hc' & Hrp & Hep); [|done]. simplify_eq.
apply (Htrue p d bp c Hbp Hd). eapply dominates_pred; [done | done | done |].
intros Heq. apply Hdi. by eapply block_index_inj.
- intros j b' Hj Hrj Hnej d Hd. rewrite row_insert by lia. case_decide as E.
+ subst. apply Hbits. destruct Hd as [Hd| ->]; [|by left]. right. intros p Hp. by apply Hmono, Hd.
+ apply (Hshr j b'); [done | done | done |]. destruct Hd as [Hd| ->]; [left|by right].
intros p Hp. by apply Hmono, Hd.
Qed.


(** ** One sweep *)

Definition stable (D : list (list N)) (p : nat * BasicBlock) : Prop :=
block_id p.2 <> entry f -> flag R p.1 = true ->
forall nd, new_dom P R D p.1 = Some nd -> row D p.1 = nd.

Lemma sweep_step_spec D ch i b :
dom_inv D -> blocks f !! i = Some b ->
exists D' ch', sweep_step f P R (D, ch) (i, b) = (D', ch') /\ dom_inv D' /\
((D' = D /\ ch' = ch /\ stable D (i, b)) \/ (ch' = true /\ (total_bits D' < total_bits D)%nat)).
Proof.
intros HD Hi. unfold sweep_step. simpl.
case_bool_decide as He; [exists D, ch; split; [done|]; split; [done|]; left; split; [done|]; split; [done|]; intros ?; done|].
destruct (flag R i) eqn:Ef; simpl;
[|exists D, ch; split; [done|]; split; [done|]; left; split; [done|]; split; [done|]; intros ? ?; simpl in *; congruence].
destruct (new_dom P R D i) as [nd|] eqn:End;
[|exists D, ch; split; [done|]; split; [done|]; left; split; [done|]; split; [done|]; intros ? ? ? ?; simpl in *; congruence].
case_bool_decide as Heq.
- exists D, ch. split; [done|]. split; [done|]. left. split; [done|]. split; [done|].
intros ? ? nd' ?. simpl in *. congruence.
- assert (Hr : reachable f (block_id b)).
{ apply flag_spec in Ef as (b' & Hb' & Hr). by simplify_eq. }
assert (Hlt : (i < n)%nat) by (by eapply lookup_lt_Some).
destruct (dom_inv_update D i b nd HD Hi Hr He End) as [HD' Hsub].
exists (<[i := nd]> D), true. split; [done|]. split; [done|]. right. split; [done|].
destruct (new_dom_spec D i nd Hlt (inv_rows _ HD) End) as [Hrow _].
apply total_bits_insert; [by rewrite (inv_len _ HD)|].
apply count_bits_lt; [done | by apply (inv_rows _ HD) | congruence | done].
Qed.

Lemma sweep_spec_gen (l : list (nat * BasicBlock)) D ch :
dom_inv D -> (forall i b, (i, b) ∈ l -> blocks f !! i = Some b) ->
exists D' ch', foldl (sweep_step f P R) (D, ch) l = (D', ch') /\ dom_inv D' /\
(total_bits D' <= total_bits D)%nat /\
(ch' = true -> ch = true \/ (total_bits D' < total_bits D)%nat) /\
(ch' = false -> ch = false /\ D' = D /\ Forall (stable D) l).
Proof.
revert D ch. induction l as [|[i b] l IH]; intros D ch HD Hl; cbn [foldl].
- exists D, ch. split; [done|]. split; [done|]. split; [lia|]. split; [by left|]. intros ->. done.
- assert (Hi : blocks f !! i = Some b) by (apply Hl; left).
destruct (sweep_step_spec D ch i b HD Hi) as (D1 & ch1 & -> & HD1 & Hcase).
destruct (IH D1 ch1 HD1) as (D2 & ch2 & -> & HD2 & Hle & Ht & Hf); [intros j c Hj; apply Hl; by right|].
exists D2, ch2. split; [done|]. split; [done|].
destruct Hcase as [(-> & -> & Hst)|(-> & Hlt)].
+ split; [done|]. split; [done|]. intros E. destruct (Hf E) as (-> & -> & Hall). by repeat constructor.
+ split; [lia|]. split; [intros _; right; lia|]. intros E. by destruct (Hf E) as (? & _).
Qed.

Lemma sweep_spec D :
dom_inv D -> exists D' ch, sweep f P R D = (D', ch) /\ dom_inv D' /\
(ch = true -> (total_bits D' < total_bits D)%nat) /\
(ch = false -> D' = D /\ forall i b, blocks f !! i = Some b -> stable D (i, b)).
Proof.
intros HD.
destruct (sweep_spec_gen (zip (seq 0 n) (blocks f)) D false HD) as (D' & ch & E & HD' & _ & Ht & Hf).
{ intros i b Hin. apply elem_of_zip_seq in Hin as [_ Hi]. by rewrite Nat.sub_0_r in Hi. }
exists D', ch. split; [done|]. split; [done|]. split.
- intros Hch. by destruct (Ht Hch).
- intros Hch. destruct (Hf Hch) as (_ & -> & Hall). split; [done|]. intros i b Hi.
rewrite Forall_forall in Hall. apply Hall. apply elem_of_zip_seq. rewrite Nat.sub_0_r. split; [lia | done].
Qed.

Lemma dom_loop_spec fuel D :
dom_inv D -> (total_bits D < fuel)%nat ->
exists D', dom_loop fuel f P R D = Some D' /\ dom_inv D' /\
forall i b, blocks f !! i = Some b -> stable D' (i, b).
Proof.
revert D. induction fuel as [|fuel IH]; intros D HD Hf; [lia|]. simpl.
destruct (sweep_spec D HD) as (D' & ch & -> & HD' & Ht & Hs). destruct ch.
- specialize (Ht eq_refl). apply IH; [done | lia].
- destruct (Hs eq_refl) as [-> Hst]. exists D. done.
Qed.

(** ** The initial rows *)

Lemma reachable_bits_spec : row_ok wc (reachable_bits n R) /\
forall d, bit_is_set (reachable_bits n R) d = true <-> (d < n)%nat /\ flag R d = true.
Proof.
unfold reachable_bits.
assert (Hgen : forall l ws, row_ok wc ws -> (forall i, i ∈ l -> (i < n)%nat) ->
row_ok wc (foldl (fun ws i => if flag R i then set_bit ws i else ws) ws l) /\
forall d, bit_is_set (foldl (fun ws i => if flag R i then set_bit ws i else ws) ws l) d = true <->
bit_is_set ws d = true \/ (d ∈ l /\ flag R d = true)).
{ intros l. induction l as [|i l IH]; intros ws Hws Hl; simpl.
- split; [done|]. intros d. split; [by left | intros [?|[H _]]; [done | by apply not_elem_of_nil in H]].
- destruct (IH (if flag R i then set_bit ws i else ws)) as [Hr Hb].
+ destruct (flag R i); [by apply set_bit_row_ok | done].
+ intros j Hj. apply Hl. by right.
+ split; [done|]. intros d. rewrite Hb, elem_of_cons. destruct (flag R i) eqn:E.
* rewrite bit_is_set_set by (destruct Hws as [-> _]; apply bit_in_words, Hl; left).
rewrite orb_true_iff, bool_decide_eq_true. clear - E. split; [|destruct 1 as [|[[->|] ]]; auto].
intros [[->|]|[]]; auto.
* split; [intros [|[]]; auto|]. intros [|[[->|] ?]]; [by left | congruence | by right]. }
destruct (Hgen (seq 0 n) (replicate wc 0%N)) as [Hr Hb].
- apply zero_row_ok.
- intros i Hi. apply elem_of_seq in Hi. lia.
- split; [done|]. intros d. rewrite Hb, bit_is_set_zero, elem_of_seq.
split; [intros [?|[? ?]]; [done | split; [lia|done]] | intros [? ?]; right; split; [lia|done]].
Qed.

Lemma fold_rows_spec (l : list (nat * BasicBlock)) D rb :
(forall i b, (i, b) ∈ l -> (i < length D)%nat) ->
let D' := foldl (fun D p => if bool_decide (block_id p.2 <> entry f) && flag R p.1
              then <[p.1 := rb]> D else D) D l in
length D' = length D /\
forall j, row D' j =
if decide (Exists (fun p => p.1 = j /\ block_id p.2 <> entry f /\ flag R p.1 = true) l) then rb else row D j.
Proof.
revert D. induction l as [|[i b] l IH]; intros D Hl; cbn [foldl fst snd].
- split; [done|]. intros j. rewrite decide_False; [done|]. intros Hex. by apply Exists_nil in Hex.
- set (D1 := if _ && _ then _ else _).
assert (Hlen : length D1 = length D) by (unfold D1; destruct (_ && _); [apply length_insert | done]).
destruct (IH D1) as [HL HR]; [intros j c Hj; rewrite Hlen; apply (Hl j c); by right|].
split; [by rewrite HL|]. intros j. rewrite HR. clear HR HL IH.
assert (Hi : (i < length D)%nat) by (apply (Hl i b); left).
assert (HD1 : row D1 j = if decide (i = j /\ block_id b <> entry f /\ flag R i = true) then rb else row D j).
{ unfold D1. destruct (bool_decide _ && _) eqn:E.
- apply andb_true_iff in E as [E1 E2]. apply bool_decide_eq_true in E1.
rewrite row_insert by done. repeat case_decide; naive_solver.
- rewrite decide_False; [done|]. intros (_ & E1 & E2). rewrite bool_decide_true, E2 in E by done. done. }
rewrite HD1. pose proof (Exists_cons (fun p => p.1 = j /\ block_id p.2 <> entry f /\ flag R p.1 = true) (i, b) l) as Hc.
cbn [fst snd] in Hc. repeat case_decide; tauto.
Qed.

Lemma dominates_reachable_l d b : dominates_path f d b -> reachable f d.
Proof.
intros [Hr Hn]. destruct (decide (d = entry f)) as [->|Hde]; [apply rtc_refl|].
assert (Hor : forall x, reachable f x -> avoids f d x \/ reachable f d).
{ apply (rtc_ind_r (fun x => avoids f d x \/ reachable f d)).
- left. by constructor.
- intros y z Hy He [Ha|?]; [|by right]. destruct (decide (z = d)) as [->|Hz].
+ right. by eapply rtc_r.
+ left. by eapply avoids_step. }
by destruct (Hor b Hr).
Qed.

Lemma init_doms_inv : dom_inv (init_doms f index R).
Proof.
destruct (proj2 (index_is_Some (entry f)) Hentry) as [e He].
pose proof He as (be & Hbe & Eid)%index_Some.
assert (Hlt : (e < n)%nat) by (by eapply lookup_lt_Some).
assert (Hfe : flag R e = true) by (apply flag_spec; exists be; split; [done|]; rewrite Eid; apply rtc_refl).
unfold init_doms. rewrite He, Hfe.
set (zero := replicate wc 0%N). set (D1 := alter _ e (replicate n zero)).
assert (HD1 : length D1 = n) by (unfold D1; by rewrite length_alter, length_replicate).
assert (Hrow1 : forall i, (i < n)%nat -> row D1 i = if decide (i = e) then set_bit zero e else zero).
{ intros i Hi. unfold row, D1. case_decide as E.
- subst. by rewrite list_lookup_alter_eq, lookup_replicate_2.
- by rewrite list_lookup_alter_ne, lookup_replicate_2. }
destruct (fold_rows_spec (zip (seq 0 n) (blocks f)) D1 (reachable_bits n R)) as [HL HR].
{ intros i b Hin. apply elem_of_zip_seq in Hin as [_ Hi]. rewrite Nat.sub_0_r in Hi.
rewrite HD1. by eapply lookup_lt_Some. }
set (D := foldl _ D1 _) in *.
destruct reachable_bits_spec as [Hrbok Hrb].
assert (Hrow : forall i b, blocks f !! i = Some b -> row D i =
if decide (block_id b <> entry f /\ flag R i = true) then reachable_bits n R
else if decide (i = e) then set_bit zero e else zero).
{ intros i b Hi. assert ((i < n)%nat) by (by eapply lookup_lt_Some).
rewrite HR, Hrow1 by done.
assert (Hiff : Exists (fun p => p.1 = i /\ block_id p.2 <> entry f /\ flag R p.1 = true) (zip (seq 0 n) (blocks f))
<-> block_id b <> entry f /\ flag R i = true).
{ rewrite Exists_exists. split.
- intros ([j c] & Hin & Hj & Hc & Hfl). simpl in *. subst.
apply elem_of_zip_seq in Hin as [_ Hc']. rewrite Nat.sub_0_r in Hc'. by simplify_eq.
- intros [H1 H2]. exists (i, b). split; [|done]. apply elem_of_zip_seq. rewrite Nat.sub_0_r. split; [lia|done]. }
repeat case_decide; tauto. }
assert (Hentry_row : row D e = set_bit zero e).
{ rewrite (Hrow e be Hbe). rewrite decide_False by (intros [? _]; done). by rewrite decide_True. }
assert (Hbit_e : forall d, bit D e d -> d = e).
{ intros d Hd. rewrite Hentry_row in Hd.
rewrite bit_is_set_set in Hd by (unfold zero; rewrite length_replicate; by apply bit_in_words).
unfold zero in Hd. rewrite bit_is_set_zero, orb_false_r in Hd. by apply bool_decide_eq_true in Hd. }
assert (Hbit_o : forall i b, blocks f !! i = Some b -> block_id b <> entry f -> reachable f (block_id b) ->
forall d, bit D i d <-> (d < n)%nat /\ flag R d = true).
{ intros i b Hi Hne Hr d. rewrite (Hrow i b Hi). rewrite decide_True; [apply Hrb|].
split; [done|]. apply flag_spec. eauto. }
split.
- by rewrite HL.
- intros i Hi. destruct (lookup_lt_is_Some_2 _ _ Hi) as [b Hb]. rewrite (Hrow i b Hb).
repeat case_decide; [done | apply set_bit_row_ok, zero_row_ok | apply zero_row_ok].
- intros e' d He'. rewrite He in He'. simplify_eq. apply Hbit_e.
- intros i d b c Hi Hd Hdom.
destruct (decide (block_id b = entry f)) as [Eb|Eb].
+ assert (block_id c = entry f) as Ec.
{ destruct (decide (block_id c = entry f)) as [|Hne]; [done|]. exfalso.
destruct Hdom as [_ Hn]. apply Hn. rewrite Eb. constructor. congruence. }
assert (i = e) as -> by (eapply block_index_inj; [done | done | done | congruence]).
assert (d = e) as -> by (eapply block_index_inj; [done | done | done | congruence]).
rewrite Hentry_row, bit_is_set_set by (unfold zero; rewrite length_replicate; by apply bit_in_words).
by rewrite bool_decide_true.
+ apply (Hbit_o i b Hi Eb (proj1 Hdom)). split; [by eapply lookup_lt_Some|].
apply flag_spec. exists c. split; [done|]. by eapply dominates_reachable_l.
- intros i b Hi Hr Hne d Hd. apply (Hbit_o i b Hi Hne Hr).
destruct Hd as [Hd| ->].
+ destruct (rpreds i) as [|p ps] eqn:Ep; [exfalso; by eapply reachable_has_pred|].
assert (Hlti : (i < n)%nat) by (by eapply lookup_lt_Some).
assert (Hp : p ∈ rpreds i) by (rewrite Ep; left).
specialize (Hd p ltac:(left)).
apply rpreds_spec in Hp as (bp & c & Hbp & _ & Hrp & _); [|done].
destruct (decide (block_id bp = entry f)) as [Ebp|Ebp].
* assert (p = e) as -> by (eapply block_index_inj; [done | done | done | congruence]).
apply Hbit_e in Hd as ->. done.
* by apply (Hbit_o p bp Hbp Ebp Hrp) in Hd.
+ split; [by eapply lookup_lt_Some|]. apply flag_spec. eauto.
Qed.

(** ** The result *)

Lemma solve_doms_spec :
exists D, solve_doms f = Some D /\ dom_inv D /\
forall i b, blocks f !! i = Some b -> stable D (i, b).
Proof.
apply dom_loop_spec; [apply init_doms_inv|].
pose proof (total_bits_le wc (init_doms f index R)). rewrite (inv_len _ init_doms_inv) in *.
unfold dom_fuel. lia.
Qed.

(** At the fixpoint a set bit excludes every avoiding path. *)
Lemma fixpoint_sound D d c :
dom_inv D -> (forall i b, blocks f !! i = Some b -> stable D (i, b)) ->
blocks f !! d = Some c ->
forall x, avoids f (block_id c) x -> forall i b, blocks f !! i = Some b -> block_id b = x -> ~ bit D i d.
Proof.
intros HD Hst Hd x Ha. induction Ha as [Hne|a x Ha IH He Hne]; intros i b Hi Hid Hbit.
- apply (inv_entry _ HD i) in Hbit; [|apply index_Some; eauto]. subst. by simplify_eq.
- pose proof (avoids_reachable _ _ _ Ha) as Hra.
assert (Hlt : (i < n)%nat) by (by eapply lookup_lt_Some).
pose proof (edge_source _ _ He) as (ba & -> & Hba)%list_elem_of_fmap.
apply list_elem_of_lookup in Hba as [p Hp].
assert (Hpp : p ∈ rpreds i).
{ apply rpreds_spec; [done|]. exists ba, b. split; [done|]. split; [done|]. split; [done|]. by rewrite Hid. }
destruct (decide (block_id b = entry f)) as [Eb|Eb].
+ apply (inv_entry _ HD i) in Hbit; [|apply index_Some; eauto]. subst. by simplify_eq.
+ assert (Hrx : reachable f (block_id b)) by (rewrite Hid; eapply rtc_r; eauto).
destruct (new_dom P R D i) as [nd|] eqn:End.
* specialize (Hst i b Hi Eb ltac:(apply flag_spec; eauto) nd End). simpl in Hst.
destruct (new_dom_spec D i nd Hlt (inv_rows _ HD) End) as [_ Hbits].
rewrite Hst in Hbit. apply Hbits in Hbit as [->|Hall]; [by simplify_eq|].
by apply (IH p ba Hp eq_refl), Hall.
* unfold new_dom in End. fold (rpreds i) in End. destruct (rpreds i); [by apply not_elem_of_nil in Hpp | done].
Qed.

Lemma dominates_spec d b :
d ∈ ids -> dominates (compute_dominator_info f) d b = true <-> b ∈ ids /\ dominates_path f d b.
Proof.
intros Hd. destruct solve_doms_spec as (D & Hsol & HD & Hst).
destruct (proj2 (index_is_Some d) Hd) as [di Hdi].
unfold dominates, compute_dominator_info. simpl. rewrite Hsol. simpl. rewrite Hdi.
pose proof Hdi as (c & Hc & <-)%index_Some.
destruct (index !! b) as [bi|] eqn:Ebi.
- pose proof Ebi as (blk & Hb & <-)%index_Some. rewrite andb_true_iff, flag_spec. split.
+ intros [(blk' & Hb' & Hr) Hbit]. simplify_eq. split; [by apply index_is_Some; rewrite Ebi|].
split; [done|]. intros Ha. exact (fixpoint_sound D di c HD Hst Hc _ Ha bi _ Hb eq_refl Hbit).
+ intros [_ Hdom]. split; [exists blk; split; [done | apply Hdom]|]. by eapply (inv_true _ HD).
- split; [done|]. intros [Hin _]. apply index_is_Some in Hin as [? ?]. congruence.
Qed.
End solver.

Lemma dom_loop_mono fuel extra f P R D D' :
  dom_loop fuel f P R D = Some D' -> dom_loop (fuel + extra) f P R D = Some D'.
Proof.
  revert D. induction fuel as [|fuel IH]; intros D; [done|]. simpl.
  destruct (sweep f P R D) as [D1 []]; [apply IH | done].
Qed.

Section dominator_set.
Context (f : Function) (Hok : block_index_ok f).

Lemma dominator_set_dominates d b :
d ∈ dominator_set (compute_dominator_info f) b <->
d ∈ (block_id <$> blocks f) /\ dominates (compute_dominator_info f) d b = true.
Proof.
unfold dominator_set, dominates.
change (di_index (compute_dominator_info f)) with (index_of (block_id <$> blocks f)).
change (di_blocks (compute_dominator_info f)) with (block_id <$> blocks f).
destruct (index_of (block_id <$> blocks f) !! b) as [bi|].
2:{ split; [set_solver|]. intros [_ H]. by destruct (index_of _ !! d). }
destruct (flag _ bi); simpl.
- rewrite elem_of_list_to_set, list_elem_of_fmap. split.
+ intros ([i x] & -> & Hin). apply list_elem_of_filter in Hin as [Hbit Hin]. simpl in *.
apply elem_of_zip_seq in Hin as [_ Hin]. rewrite Nat.sub_0_r in Hin.
split; [by eapply list_elem_of_lookup_2|].
apply (index_of_spec _ _ _ (block_ids_NoDup f Hok)) in Hin. by rewrite Hin.
+ intros [Hin H]. destruct (index_of _ !! d) as [i|] eqn:E; [|done].
apply (index_of_spec _ _ _ (block_ids_NoDup f Hok)) in E. exists (i, d). split; [done|].
apply list_elem_of_filter. split; [done|]. apply elem_of_zip_seq. rewrite Nat.sub_0_r. split; [lia | done].
- split; [set_solver|]. intros [_ H]. by destruct (index_of _ !! d).
Qed.
End dominator_set.

(** * Properties *)

(** C3: The bit-set dataflow solver computes dominance exactly: [dominates] answers
    [true] for a block [d] and a target [b] of the function precisely when [b] is
    reachable from the entry and every path from the entry to [b] passes through
    [d]. *)
Theorem dominator_info_exact f d b :
  block_index_ok f -> entry f ∈ (block_id <$> blocks f) -> d ∈ (block_id <$> blocks f) ->
  dominates (compute_dominator_info f) d b = true <->
    b ∈ (block_id <$> blocks f) /\ dominates_path f d b.
Proof. intros Hok He Hd. by apply dominates_spec. Qed.

Lemma dominator_info_exact_witness : dominates_path loop_fn 1 3.
Proof.
  apply (dominator_info_exact loop_fn 1 3 loop_fn_index); [left | right; left |]. vm_compute. reflexivity.
Defined.

(** The sweeps of the dominator solver terminate: within the number of bits of
    the matrix, plus one, a sweep changes nothing, so the solver returns. *)
Theorem dominator_solver_terminates f :
  block_index_ok f -> entry f ∈ (block_id <$> blocks f) ->
  exists D, solve_doms f = Some D /\ length D = length (blocks f) /\
    forall extra, dom_loop (dom_fuel f + extra) f (pred_indices f (index_of (block_id <$> blocks f)))
      (reachable_flags f (index_of (block_id <$> blocks f)) (block_id <$> blocks f))
      (init_doms f (index_of (block_id <$> blocks f))
        (reachable_flags f (index_of (block_id <$> blocks f)) (block_id <$> blocks f))) = Some D.
Proof.
  intros Hok He. destruct (solve_doms_spec f Hok He) as (D & Hs & HD & _).
  exists D. split; [done|]. split; [apply HD|]. intros extra. by apply dom_loop_mono.
Qed.

Lemma dominator_solver_terminates_witness : exists D, solve_doms loop_fn = Some D /\ length D = 4%nat.
Proof.
  destruct (dominator_solver_terminates loop_fn loop_fn_index) as (D & H1 & H2 & _); [left|]. exists D. done.
Defined.

(** [dominator_set] is the set of blocks that dominate [b] on every path, for
    every reachable block [b]. *)
Theorem dominator_set_exact f b d :
  block_index_ok f -> entry f ∈ (block_id <$> blocks f) -> reachable f b -> b ∈ (block_id <$> blocks f) ->
  d ∈ dominator_set (compute_dominator_info f) b <-> d ∈ (block_id <$> blocks f) /\ dominates_path f d b.
Proof.
  intros Hok He Hr Hb. split.
  - intros [Hin Hdom]%(dominator_set_dominates f Hok). split; [done|].
    by apply (dominates_spec f Hok He d b Hin) in Hdom as [_ ?].
  - intros [Hin Hdom]. apply (dominator_set_dominates f Hok). split; [done|]. by apply (dominates_spec f Hok He).
Qed.

Lemma dominator_set_exact_witness : dominates_path loop_fn 0 2.
Proof.
  apply (dominator_set_exact loop_fn 2 0 loop_fn_index).
  - left.
  - apply reachable_blocks_spec. apply (bool_decide_unpack (2%N ∈ reachable_blocks loop_fn)). vm_compute. exact I.
  - right; right; left.
  - apply (bool_decide_unpack (0%N ∈ dominator_set (compute_dominator_info loop_fn) 2)). vm_compute. exact I.
Defined.
