(* ===== verification/Postorder.v ===== *)
(** The reverse postorder the immediate-dominator computation sweeps in
    ([reachable_reverse_postorder], src/src/ir/walk.rs).

    The code is an explicit-stack depth-first search with two kinds of entries:
    [(b, false)] asks for block position [b] to be entered, [(b, true)] marks the
    point where everything below [b] has been finished.  What the sweeps rely on
    is proved here: the order lists exactly the reachable positions, once each,
    starts at the entry, and every other position comes after one of its
    predecessors. *)

From S2P Require Import Prelude BitSet IrTypes IrInst Sample Worklist IrWalk Dominators.

(** [vec[i]]: a read outside the vector panics, here [None]. *)

(** [for target in targets.into_iter().rev() { .. }] *)
Fixpoint push_targets (index : gmap BlockId nat) (visited : list bool) (ts : list BlockId)
    (stack : list (nat * bool)) : option (list (nat * bool)) :=
  match ts with
  | [] => Some stack
  | t :: ts =>
      match index !! t with
      | None => push_targets index visited ts stack
      | Some p => v ← visited !! p;
                  push_targets index visited ts (if (v : bool) then stack else (p, false) :: stack)
      end
  end.

(** [while let Some((block, expanded)) = stack.pop()] *)
Fixpoint rpo_loop (fuel : nat) (f : Function) (index : gmap BlockId nat) (visited : list bool)
    (postorder : list nat) (stack : list (nat * bool)) : option (list nat) :=
  match stack with
  | [] => Some postorder
  | (b, expanded) :: stack =>
      match fuel with
      | O => None
      | S fuel =>
          if (expanded : bool) then rpo_loop fuel f index visited (postorder ++ [b]) stack
          else
            v ← visited !! b;
            if (v : bool) then rpo_loop fuel f index visited postorder stack
            else
              blk ← blocks f !! b;
              stack' ← push_targets index (<[b := true]> visited) (reverse (block_targets blk)) ((b, true) :: stack);
              rpo_loop fuel f index (<[b := true]> visited) postorder stack'
      end
  end.

(** One pop per block for each mark, and at most one per edge. *)
Definition rpo_fuel (f : Function) : nat := length (blocks f) + cfg_fuel f.

Definition reachable_reverse_postorder (f : Function) (index : gmap BlockId nat) (e : nat) : option (list nat) :=
  reverse <$> rpo_loop (rpo_fuel f) f index (replicate (length (blocks f)) false) [] [(e, false)].

(** * The position graph *)

Definition pos_edge (f : Function) (i j : nat) : Prop :=
  exists b t, blocks f !! i = Some b /\ t ∈ block_targets b /\
              index_of (block_id <$> blocks f) !! t = Some j.

(** [v] occurs in [l] with [u] somewhere after it. *)
Definition followed_by (l : list nat) (v u : nat) : Prop := [v; u] `sublist_of` l.

Lemma followed_by_insert l1 x l2 v u : followed_by (l1 ++ l2) v u -> followed_by (l1 ++ x :: l2) v u.
Proof. intros H. unfold followed_by. etransitivity; [exact H|]. apply sublist_app; [done|]. by apply sublist_cons. Qed.

Lemma followed_by_here l1 v l2 u : u ∈ l2 -> followed_by (l1 ++ v :: l2) v u.
Proof.
  intros H. unfold followed_by. apply sublist_cons_l. exists l1, l2. split; [done|]. by apply singleton_sublist_l.
Qed.

Lemma followed_by_reverse l v u :
  followed_by l v u -> exists i j, reverse l !! i = Some u /\ reverse l !! j = Some v /\ (i < j)%nat.
Proof.
  intros (l1 & l2 & -> & Hu%singleton_sublist_l)%sublist_cons_l.
  rewrite reverse_app, reverse_cons. apply elem_of_reverse in Hu. apply list_elem_of_lookup in Hu as [i Hi].
  exists i, (length (reverse l2)). pose proof (lookup_lt_Some _ _ _ Hi).
  rewrite !lookup_app_l by (rewrite ?length_app; simpl; lia). split; [done|]. split; [|done].
  by apply list_lookup_middle.
Qed.

(** The open positions of a stack, innermost first. *)
Definition open_of (stack : list (nat * bool)) : list nat :=
  omap (fun e => if (e.2 : bool) then Some e.1 else None) stack.

Section search.
Context (f : Function) (Hok : block_index_ok f).

Local Abbreviation index := (index_of (block_id <$> blocks f)).
Local Abbreviation n := (length (blocks f)).

Lemma pos_edge_lt i j : pos_edge f i j -> (i < n)%nat /\ (j < n)%nat.
Proof.
intros (b & t & Hb & _ & Ht). split; [by eapply lookup_lt_Some | by eapply index_lt].
Qed.

Lemma push_targets_spec visited ts stack :
length visited = n ->
exists new, push_targets index visited ts stack = Some (new ++ stack) /\
(length new <= length ts)%nat /\
(forall e, e ∈ new -> e.2 = false /\ exists t, t ∈ ts /\ index !! t = Some e.1) /\
(forall t p, t ∈ ts -> index !! t = Some p -> visited !! p = Some true \/ (p, false) ∈ new).
Proof.
intros Hlen. revert stack. induction ts as [|t ts IH]; intros stack; simpl.
{ exists []. split; [done|]. split; [done|]. split; [|set_solver].
intros e He. by apply not_elem_of_nil in He. }
destruct (index !! t) as [p|] eqn:Ep.
- assert (Hp : (p < length visited)%nat) by (rewrite Hlen; by eapply index_lt).
destruct (lookup_lt_is_Some_2 _ _ Hp) as [v Hv]. rewrite Hv. simpl. destruct v.
+ destruct (IH stack) as (new & E & Hl & H1 & H2). exists new. split; [done|]. split; [lia|]. split.
* intros e He. destruct (H1 e He) as (? & t' & ? & ?). split; [done|]. exists t'. split; [by right | done].
* intros t' p' [->|Ht']%elem_of_cons Hp'; [simplify_eq; by left | by eapply H2].
+ destruct (IH ((p, false) :: stack)) as (new & E & Hl & H1 & H2). exists (new ++ [(p, false)]).
rewrite E, <- app_assoc. split; [done|]. split; [rewrite length_app; simpl; lia|]. split.
* intros e [He| ->%list_elem_of_singleton]%elem_of_app.
-- destruct (H1 e He) as (? & t' & ? & ?). split; [done|]. exists t'. split; [by right | done].
-- split; [done|]. exists t. split; [left | done].
* intros t' p' [->|Ht']%elem_of_cons Hp'.
-- simplify_eq. right. apply elem_of_app. right. by apply list_elem_of_singleton.
-- destruct (H2 t' p' Ht' Hp') as [?|?]; [by left | right; apply elem_of_app; by left].
- destruct (IH stack) as (new & E & Hl & H1 & H2). exists new. split; [done|]. split; [lia|]. split.
+ intros e He. destruct (H1 e He) as (? & t' & ? & ?). split; [done|]. exists t'. split; [by right | done].
+ intros t' p' [->|Ht']%elem_of_cons Hp'; [congruence | by eapply H2].
Qed.

(** Work left: a pop for each entry on the stack, and for each position not yet
visited its mark and its targets. *)
Fixpoint pending (visited : list bool) (bs : list BasicBlock) : nat :=
match visited, bs with
| v :: visited, b :: bs => (if (v : bool) then 0 else S (length (block_targets b))) + pending visited bs
| _, _ => 0
end.

Lemma pending_visit visited bs i b :
visited !! i = Some false -> bs !! i = Some b ->
(pending (<[i := true]> visited) bs + S (length (block_targets b)) = pending visited bs)%nat.
Proof.
revert visited bs. induction i as [|i IH]; intros [|v visited] [|c bs] Hv Hb; simpl in *; try done; simplify_eq.
- lia.
- specialize (IH _ _ Hv Hb). lia.
Qed.

Lemma pending_initial bs : pending (replicate (length bs) false) bs = (length bs + length (bs ≫= block_targets))%nat.
Proof. induction bs as [|b bs IH]; [done|]. cbn [length replicate pending]. rewrite bind_cons, length_app, IH. lia. Qed.

(** ** The invariant of the search from [e]

[order] is the finished positions followed by the open ones, the order in
which they will all be finished. *)
Context (e : nat) (He : (e < n)%nat).

Record dfs_inv (visited : list bool) (po : list nat) (stack : list (nat * bool)) : Prop := {
dfs_len : length visited = n;
dfs_visited : forall i, visited !! i = Some true <-> i ∈ po ++ open_of stack;
dfs_nodup : NoDup (po ++ open_of stack);
dfs_reach : forall i, i ∈ po ++ (stack.*1) -> rtc (pos_edge f) e i;
dfs_parent : forall v, v ∈ po ++ open_of stack -> v = e \/
exists u, pos_edge f u v /\ followed_by (po ++ open_of stack) v u;
dfs_request : forall s1 v s2, stack = s1 ++ (v, false) :: s2 -> v = e \/
exists u, pos_edge f u v /\ u ∈ open_of s2;
dfs_closed : forall u v, u ∈ po ++ open_of stack -> pos_edge f u v ->
v ∈ po ++ open_of stack \/ (v, false) ∈ stack;
dfs_entry : stack = [(e, false)] /\ po = [] \/ last (po ++ open_of stack) = Some e }.

Lemma dfs_inv_init : dfs_inv (replicate n false) [] [(e, false)].
Proof.
split; simpl.
- apply length_replicate.
- intros i. split; [intros (H & _)%lookup_replicate_1; done | intros H; by apply not_elem_of_nil in H].
- constructor.
- intros i ->%list_elem_of_singleton. apply rtc_refl.
- intros v H. by apply not_elem_of_nil in H.
- intros [|? [|? ?]] v s2 E; simpl in E; simplify_eq. by left.
- intros u v H. by apply not_elem_of_nil in H.
- by left.
Qed.

(** Popping a mark moves it from the open positions to the finished ones. *)
Lemma dfs_inv_finish visited po b stack :
dfs_inv visited po ((b, true) :: stack) -> dfs_inv visited (po ++ [b]) stack.
Proof.
intros [H1 H2 H3 H4 H5 H6 H7 H8].
assert (E : (po ++ [b]) ++ open_of stack = po ++ open_of ((b, true) :: stack)) by (by rewrite <- app_assoc).
split; rewrite ?E; try done.
- intros i Hi. apply H4. rewrite <- app_assoc in Hi. done.
- intros s1 v s2 ->. by apply (H6 ((b, true) :: s1)).
- intros u v Hu Huv. destruct (H7 u v Hu Huv) as [H|[[=]|H]%elem_of_cons]; auto.
- destruct H8 as [[[=] _]|H8]. by right.
Qed.

(** A request for a position already visited is dropped. *)
Lemma dfs_inv_skip visited po b stack :
visited !! b = Some true -> dfs_inv visited po ((b, false) :: stack) -> dfs_inv visited po stack.
Proof.
intros Hv [H1 H2 H3 H4 H5 H6 H7 H8]. split; try done.
- intros i Hi. apply H4. set_solver.
- intros s1 v s2 ->. by apply (H6 ((b, false) :: s1)).
- intros u v Hu Huv. destruct (H7 u v Hu Huv) as [H|[[= ->]|H]%elem_of_cons]; auto.
left. by apply H2.
- destruct H8 as [[[= -> ->] ->]|H8]; [|by right]. apply H2 in Hv. by apply not_elem_of_nil in Hv.
Qed.

Lemma open_of_requests new stack :
(forall r, r ∈ new -> r.2 = false) -> open_of (new ++ stack) = open_of stack.
Proof.
intros H. induction new as [|[b x] new IH]; [done|].
assert (x = false) as -> by (apply (H (b, x)); left). simpl. apply IH. intros r Hr. apply H. by right.
Qed.

(** A request for a new position opens it and requests its targets. *)
Lemma dfs_inv_expand visited po b blk stack new :
visited !! b = Some false -> blocks f !! b = Some blk ->
(forall r, r ∈ new -> r.2 = false /\ exists t, t ∈ block_targets blk /\ index !! t = Some r.1) ->
(forall t p, t ∈ block_targets blk -> index !! t = Some p ->
<[b := true]> visited !! p = Some true \/ (p, false) ∈ new) ->
dfs_inv visited po ((b, false) :: stack) -> dfs_inv (<[b := true]> visited) po (new ++ (b, true) :: stack).
Proof.
intros Hv Hb Hn Ht [H1 H2 H3 H4 H5 H6 H7 H8]. cbn in H2, H3, H5, H7.
assert (Eo : open_of (new ++ (b, true) :: stack) = b :: open_of stack).
{ rewrite open_of_requests; [done|]. intros r Hr. by apply Hn. }
assert (Hnb : b ∉ po ++ open_of stack) by (intros Hin; apply H2 in Hin; congruence).
assert (Hvis : forall i, <[b := true]> visited !! i = Some true <-> i ∈ po ++ b :: open_of stack).
{ intros i. destruct (decide (i = b)) as [->|Hne].
- rewrite list_lookup_insert_eq by (by eapply lookup_lt_Some). split; [set_solver | done].
- rewrite list_lookup_insert_ne, H2 by done. set_solver. }
assert (Hrb : rtc (pos_edge f) e b) by (apply H4; simpl; set_solver).
split; rewrite ?Eo; try done.
- by rewrite length_insert.
- rewrite <- (Permutation_middle po (open_of stack) b). by apply list.NoDup_cons.
- intros i. rewrite fmap_app, fmap_cons. simpl. intros [Hi|[Hi|Hi]%elem_of_app]%elem_of_app.
+ apply H4. set_solver.
+ apply list_elem_of_fmap in Hi as (r & -> & Hr). destruct (Hn r Hr) as (_ & t & Htt & Hi).
eapply rtc_r; [exact Hrb|]. by exists blk, t.
+ apply H4. simpl. set_solver.
- intros v Hvin. destruct (decide (v = b)) as [->|Hne].
+ destruct (H6 [] b stack eq_refl) as [->|(u & Hu & Hin)]; [by left|]. right. exists u. split; [done|].
by apply followed_by_here.
+ destruct (H5 v) as [->|(u & Hu & Hin)]; [set_solver | by left |]. right. exists u. split; [done|].
by apply followed_by_insert.
- intros s1 v s2 E. apply app_eq_inv in E as [(k & E1 & E2)|(k & E1 & E2)].
+ destruct k as [|r k]; simpl in *; simplify_eq. right. destruct (Hn (v, false)) as (_ & t & Htt & Hi); [set_solver|].
exists b. split; [by exists blk, t|]. rewrite open_of_requests; [left|].
intros r Hr. apply Hn. set_solver.
+ destruct k as [|r k]; simpl in *; simplify_eq. by apply (H6 ((b, false) :: k)).
- intros u v Hu Huv. destruct (decide (u = b)) as [->|Hne].
+ destruct Huv as (blk' & t & Hb' & Htt & Hi). simplify_eq.
destruct (Ht t v Htt Hi) as [Hin|Hin]; [left; by apply Hvis | right; set_solver].
+ destruct (H7 u v) as [H|[[= ->]|H]%elem_of_cons]; [set_solver | done | left; set_solver | left; set_solver | right; set_solver].
- right. destruct H8 as [[[= -> ->] ->]|H8]; [done|].
change (open_of ((b, false) :: stack)) with (open_of stack) in H8.
destruct (H6 [] b stack eq_refl) as [->|(u & _ & Hu)].
{ destruct Hnb. apply last_Some in H8 as [l ->]. set_solver. }
rewrite last_app in *. destruct (open_of stack); [by apply not_elem_of_nil in Hu | done].
Qed.

Lemma rpo_loop_spec fuel visited po stack :
dfs_inv visited po stack -> (length stack + pending visited (blocks f) <= fuel)%nat ->
exists visited' po', rpo_loop fuel f index visited po stack = Some po' /\ dfs_inv visited' po' [].
Proof.
revert visited po stack. induction fuel as [|fuel IH]; intros visited po [|[b x] stack] Hinv Hf; simpl in Hf.
1, 3: by exists visited, po.
{ lia. }
simpl. destruct x.
{ apply IH; [by apply dfs_inv_finish | lia]. }
assert (Hlt : (b < n)%nat).
{ assert (rtc (pos_edge f) e b) as Hr by (apply (dfs_reach _ _ _ Hinv); set_solver).
apply rtc_inv_r in Hr as [<-|(a & _ & Hab)]; [done | apply pos_edge_lt in Hab; lia]. }
destruct (lookup_lt_is_Some_2 visited b) as [v Hv]; [by rewrite (dfs_len _ _ _ Hinv)|].
rewrite Hv. simpl. destruct v.
{ apply IH; [by eapply dfs_inv_skip | lia]. }
destruct (lookup_lt_is_Some_2 (blocks f) b Hlt) as [blk Hb]. rewrite Hb. simpl.
destruct (push_targets_spec (<[b := true]> visited) (reverse (block_targets blk)) ((b, true) :: stack))
as (new & E & Hl & H1 & H2); [by rewrite length_insert, (dfs_len _ _ _ Hinv)|].
rewrite E. simpl. apply IH.
- apply (dfs_inv_expand visited po b blk); try done.
+ intros r Hr. destruct (H1 r Hr) as (? & t & Ht & ?). rewrite elem_of_reverse in Ht. eauto.
+ intros t p Ht. apply H2. by apply elem_of_reverse.
- pose proof (pending_visit _ _ _ _ Hv Hb). rewrite length_reverse in Hl. rewrite length_app. simpl. lia.
Qed.

(** What the search returns. *)
Record rpo_ok (rpo : list nat) : Prop := {
rpo_nodup : NoDup rpo;
rpo_head : rpo !! 0 = Some e;
rpo_reach : forall i, i ∈ rpo <-> rtc (pos_edge f) e i;
rpo_parent : forall j v, rpo !! S j = Some v ->
exists i u, pos_edge f u v /\ rpo !! i = Some u /\ (i < S j)%nat }.

Lemma reachable_reverse_postorder_spec :
exists rpo, reachable_reverse_postorder f index e = Some rpo /\ rpo_ok rpo.
Proof.
destruct (rpo_loop_spec (rpo_fuel f) _ _ _ dfs_inv_init) as (visited & po & E & Hinv).
{ rewrite pending_initial. unfold rpo_fuel, cfg_fuel. simpl. lia. }
unfold reachable_reverse_postorder. rewrite E. simpl. eexists. split; [done|].
destruct Hinv as [H1 H2 H3 H4 H5 H6 H7 H8]. cbn in *. rewrite app_nil_r in *.
assert (Hnd : NoDup (reverse po)) by (by rewrite reverse_Permutation).
assert (Hhead : reverse po !! 0 = Some e).
{ destruct H8 as [[[=] _]|[l ->]%last_Some]. by rewrite reverse_snoc. }
split.
- done.
- done.
- intros i. rewrite elem_of_reverse. split; [apply H4|]. intros Hr.
assert (He' : e ∈ po) by (apply elem_of_reverse; by eapply list_elem_of_lookup_2).
clear -Hr H7 He'. induction Hr as [x|x y z Hxy _ IH]; [done|].
destruct (H7 x y He' Hxy) as [Hy|Hin]; [by apply IH|by apply not_elem_of_nil in Hin].
- intros j v Hv. destruct (H5 v) as [->|(u & Hu & Hf)].
{ apply elem_of_reverse. by eapply list_elem_of_lookup_2. }
{ assert (0 = S j)%nat by (eapply NoDup_lookup; [done | done | done]). lia. }
apply followed_by_reverse in Hf as (i & j' & Hi & Hj & Hij).
assert (j' = S j) as -> by (eapply NoDup_lookup; [done | done | done]). eauto.
Qed.
End search.
