(* ===== verification/Idoms.v ===== *)
(** Immediate dominators by the Cooper–Harvey–Kennedy iteration
    ([compute_immediate_dominators], [intersect_idom_chains],
    src/src/ir/walk.rs), and the test-only reference computation from full
    dominator sets they are compared with.

    The code keeps, for each block position, an optional parent pointer; sweeps
    over the reverse postorder replace a block's pointer by the meeting point of
    its processed predecessors' chains until nothing changes.  [expect] and
    out-of-range reads are [None] here, so the totality theorem also says that
    neither happens. *)

From S2P Require Import Prelude BitSet Slices IrTypes IrInst Sample Worklist IrWalk Dominators Postorder.

Definition usize_max : N := 18446744073709551615.

(** [while rpo_position[x] > rpo_position[y] { x = idom[x].expect(..) }] *)
Fixpoint climb (fuel : nat) (idom : list (option nat)) (rpo_position : list N) (x y : nat) : option nat :=
  match fuel with
  | O => None
  | S fuel =>
      px ← rpo_position !! x;
      py ← rpo_position !! y;
      if (py <? px)%N then p ← mjoin (idom !! x); climb fuel idom rpo_position p y
      else Some x
  end.

Fixpoint intersect_loop (fuel : nat) (idom : list (option nat)) (rpo_position : list N) (first second : nat) : option nat :=
  match fuel with
  | O => None
  | S fuel =>
      if decide (first = second) then Some first
      else
        first ← climb (S (length idom)) idom rpo_position first second;
        second ← climb (S (length idom)) idom rpo_position second first;
        intersect_loop fuel idom rpo_position first second
  end.

(** Each round moves one of the two up the tree. *)
Definition intersect_idom_chains (first second : nat) (idom : list (option nat)) (rpo_position : list N) : option nat :=
  intersect_loop (S (2 * length idom)) idom rpo_position first second.

Definition rpo_positions (n : nat) (rpo : list nat) : list N :=
  foldl (fun V p => <[p.2 := N.of_nat p.1]> V) (replicate n usize_max) (zip (seq 0 (length rpo)) rpo).

(** The body of [for &block in rpo.iter().skip(1)]. *)
Definition idom_step (P : list (list nat)) (V : list N) (st : list (option nat) * bool) (block : nat)
    : option (list (option nat) * bool) :=
  let '(idom, changed) := st in
  preds ← P !! block;
  match filter (fun p => is_Some (mjoin (idom !! p))) preds with
  | [] => Some (idom, changed)
  | p :: ps =>
      new_idom ← foldM (fun acc pred => intersect_idom_chains pred acc idom V) ps p;
      if decide (mjoin (idom !! block) = Some new_idom) then Some (idom, changed)
      else Some (<[block := Some new_idom]> idom, true)
  end.

(** [while changed { .. }] *)
Fixpoint idom_loop (fuel : nat) P V (rpo : list nat) (idom : list (option nat)) : option (list (option nat)) :=
  match fuel with
  | O => None
  | S fuel =>
      '(idom', changed) ← foldM (idom_step P V) (drop 1 rpo) (idom, false);
      if (changed : bool) then idom_loop fuel P V rpo idom' else Some idom'
  end.

(** Each sweep that changes something moves a pointer closer to the entry. *)
Definition idom_fuel (n : nat) : nat := S (n * n).

Definition compute_immediate_dominators (f : Function) : option (gmap BlockId BlockId) :=
  let ids := block_id <$> blocks f in
  let index := index_of ids in
  let n := length ids in
  match index !! entry f with
  | None => Some ∅
  | Some e =>
      let P := pred_indices f index in
      rpo ← reachable_reverse_postorder f index e;
      let V := rpo_positions n rpo in
      idom ← idom_loop (idom_fuel n) P V rpo (<[e := Some e]> (replicate n None));
      foldM (fun m b => match mjoin (idom !! b) with
                        | Some parent => kb ← ids !! b; kp ← ids !! parent; Some (<[kb := kp]> m)
                        | None => Some m
                        end)
        (filter (fun b => b <> e) rpo) ∅
  end.

(** The reference used by the unit tests: among the other dominators of a block,
    the first one that all the others dominate. *)
Definition set_parent (doms : DominatorInfo) (i : nat) : option BlockId :=
  let candidates := filter (fun idx => idx <> i /\ bit_is_set (row (di_doms doms) i) idx = true)
                      (seq 0 (length (di_blocks doms))) in
  c ← head (filter (fun candidate =>
              Forall (fun other => other = candidate \/ bit_is_set (row (di_doms doms) candidate) other = true)
                candidates) candidates);
  di_blocks doms !! c.

Definition compute_immediate_dominators_from_sets (f : Function) : gmap BlockId BlockId :=
  let doms := compute_dominator_info f in
  foldl (fun m p =>
    if bool_decide (block_id p.2 = entry f) || negb (flag (di_reachable doms) p.1) then m
    else match set_parent doms p.1 with
         | Some parent => <[block_id p.2 := parent]> m
         | None => m
         end)
    ∅ (zip (seq 0 (length (blocks f))) (blocks f)).

Example loop_fn_idoms :
  compute_immediate_dominators loop_fn = Some {[ 1%N := 0%N; 2%N := 1%N; 3%N := 1%N ]} /\
  compute_immediate_dominators_from_sets loop_fn = {[ 1%N := 0%N; 2%N := 1%N; 3%N := 1%N ]}.
Proof. split; vm_compute; reflexivity. Qed.

(** * Parent-pointer trees

    [pos] is the place of a position in the reverse postorder; pointers lead to
    smaller places, so chains end at the entry. *)

Section tree.
Context (n e : nat) (rpo : list nat) (V : list N) (pos : nat -> nat).
Context (HV : forall b, b ∈ rpo -> V !! b = Some (N.of_nat (pos b))).
Context (Hinj : forall a b, a ∈ rpo -> b ∈ rpo -> pos a = pos b -> a = b).
Context (Hpos_e : pos e = 0%nat) (He : e ∈ rpo).
Context (Hlt : forall b, b ∈ rpo -> (b < n)%nat /\ (pos b < n)%nat).

(** One pointer away from the entry, and chains of pointers. *)
Definition up (D : list (option nat)) (c p : nat) : Prop := c <> e /\ D !! c = Some (Some p).
Definition anc (D : list (option nat)) : nat -> nat -> Prop := rtc (up D).
Definition proc (D : list (option nat)) (c : nat) : Prop := exists p, D !! c = Some (Some p).

#[export] Instance anc_preorder D : PreOrder (anc D).
Proof. unfold anc. apply _. Qed.

Record tree (D : list (option nat)) : Prop := {
tree_len : length D = n;
tree_root : D !! e = Some (Some e);
tree_up : forall c p, up D c p -> c ∈ rpo /\ p ∈ rpo /\ proc D p /\ (pos p < pos c)%nat }.

Section chains.
Context (D : list (option nat)) (HD : tree D).

Lemma proc_in c : proc D c -> c ∈ rpo.
Proof.
intros [p Hp]. destruct (decide (c = e)) as [->|Hne]; [done|]. by apply (tree_up D HD c p).
Qed.

Lemma anc_pos c x : anc D c x -> (pos x <= pos c)%nat.
Proof. induction 1 as [|a b c Hab _ IH]; [lia|]. apply (tree_up D HD) in Hab. lia. Qed.

Lemma anc_proc c x : proc D c -> anc D c x -> proc D x.
Proof.
intros Hc. induction 1 as [|a b c Hab _ IH]; [done|]. apply IH. by apply (tree_up D HD) in Hab as (_ & _ & ? & _).
Qed.

Lemma anc_proc_l c x : proc D x -> anc D c x -> proc D c.
Proof. intros Hx. inversion 1 as [|? p ? [_ Hp] _]; subst; [done | by exists p]. Qed.

(** Two ancestors of one position lie on one chain. *)
Lemma anc_total c x y : anc D c x -> anc D c y -> anc D x y \/ anc D y x.
Proof.
intros Hx. induction Hx as [|a b x [Hne Hab] Hbx IH]; [by left|].
intros Hy. inversion Hy as [|? b' ? [_ Hab'] Hy']; subst.
- right. by eapply rtc_l.
- simplify_eq. by apply IH.
Qed.

Lemma anc_eq x y : proc D x -> anc D x y -> (pos x <= pos y)%nat -> x = y.
Proof.
intros Hx Hxy Hle. pose proof (anc_pos _ _ Hxy). apply Hinj; [by apply proc_in | | lia].
eapply proc_in, anc_proc; eauto.
Qed.

Lemma anc_up x p y : up D x p -> anc D x y -> y <> x -> anc D p y.
Proof. intros [_ Hp] Hxy Hne. inversion Hxy as [|? p' ? [_ Hp'] ?]; subst; [done|]. by simplify_eq. Qed.

Lemma proc_not_entry x : proc D x -> (0 < pos x)%nat -> exists p, up D x p.
Proof.
intros [p Hp] Hpos. exists p. split; [|done]. intros ->. lia.
Qed.

(** ** The two-finger intersection *)

Lemma climb_spec fuel x y :
proc D x -> proc D y -> (pos x < fuel)%nat ->
exists x', climb fuel D V x y = Some x' /\ anc D x x' /\ (pos x' <= pos y)%nat /\
(pos y < pos x -> pos x' < pos x)%nat /\
(forall w, anc D x w -> anc D y w -> anc D x' w).
Proof.
revert x. induction fuel as [|fuel IH]; intros x Hx Hy Hf; [lia|].
simpl. rewrite !HV by (by apply proc_in). simpl. destruct (N.ltb_spec (N.of_nat (pos y)) (N.of_nat (pos x))) as [Hl|Hl].
- destruct (proc_not_entry x Hx) as [p Hp]; [lia|]. pose proof (tree_up D HD x p Hp) as (_ & _ & Hpp & Hpos).
destruct Hp as [Hne Hp]. rewrite Hp. simpl.
destruct (IH p Hpp Hy) as (x' & E & Hax & Hle & _ & Hw); [lia|]. exists x'. split; [done|].
pose proof (anc_pos _ _ Hax). split; [by eapply rtc_l|]. split; [lia|]. split; [lia|].
intros w Hxw Hyw. apply Hw; [|done]. apply (anc_up x p); [done | done |]. intros ->.
apply anc_pos in Hyw. lia.
- exists x. split; [done|]. split; [apply rtc_refl|]. split; [lia|]. split; [lia | done].
Qed.

Lemma intersect_loop_spec fuel x y :
proc D x -> proc D y -> (pos x + pos y < fuel)%nat ->
exists z, intersect_loop fuel D V x y = Some z /\ anc D x z /\ anc D y z /\
(forall w, anc D x w -> anc D y w -> anc D z w).
Proof.
revert x y. induction fuel as [|fuel IH]; intros x y Hx Hy Hf; [lia|].
cbn -[climb]. case_decide as Hxy; [subst; exists y; split_and!; try done; apply rtc_refl|].
rewrite (tree_len D HD). pose proof (Hlt x (proc_in _ Hx)). pose proof (Hlt y (proc_in _ Hy)).
destruct (climb_spec (S n) x y) as (x' & -> & Hax & Hle & Hmove & Hw); [done | done | lia |]. cbn -[climb].
pose proof (anc_proc _ _ Hx Hax) as Hx'.
destruct (climb_spec (S n) y x') as (y' & -> & Hay & Hle' & Hmove' & Hw'); [done | done | lia |]. simpl.
pose proof (anc_proc _ _ Hy Hay) as Hy'.
assert (pos x' + pos y' < pos x + pos y)%nat.
{ apply anc_pos in Hax as ?. apply anc_pos in Hay as ?.
assert (pos x <> pos y) by (intros E; apply Hxy, Hinj; [by apply proc_in.. | done]). lia. }
destruct (IH x' y') as (z & E & Hxz & Hyz & Hz); [done | done | lia |]. exists z. split; [done|].
split; [by etrans|]. split; [by etrans|]. intros w Hxw Hyw. apply Hz; [by apply Hw|].
apply Hw'; [done | by apply Hw].
Qed.

Lemma intersect_spec x y :
proc D x -> proc D y ->
exists z, intersect_idom_chains x y D V = Some z /\ anc D x z /\ anc D y z /\
(forall w, anc D x w -> anc D y w -> anc D z w).
Proof.
intros Hx Hy. apply intersect_loop_spec; [done | done |]. rewrite (tree_len D HD).
pose proof (Hlt x (proc_in _ Hx)). pose proof (Hlt y (proc_in _ Hy)). lia.
Qed.

(** The meeting point of a non-empty list of chains. *)
Lemma meet_spec ps acc :
proc D acc -> (forall p, p ∈ ps -> proc D p) ->
exists z, foldM (fun acc pred => intersect_idom_chains pred acc D V) ps acc = Some z /\
(forall p, p ∈ acc :: ps -> anc D p z) /\
(forall w, (forall p, p ∈ acc :: ps -> anc D p w) -> anc D z w).
Proof.
revert acc. induction ps as [|p ps IH]; intros acc Hacc Hps; simpl.
{ exists acc. split; [done|]. split; [intros p ->%list_elem_of_singleton; apply rtc_refl|].
intros w Hw. apply Hw. left. }
destruct (intersect_spec p acc) as (z & -> & Hpz & Haz & Hz); [apply Hps; left | done |]. simpl.
destruct (IH z) as (z' & E & H1 & H2).
- exact (anc_proc _ _ Hacc Haz).
- intros q Hq. apply Hps. by right.
- exists z'. split; [done|]. assert (Hzz : anc D z z') by (apply H1; left). split.
+ intros q. rewrite !elem_of_cons. intros [->|[->|Hq]]; [by etrans | by etrans |]. apply H1. by right.
+ intros w Hw. apply H2. intros q [->|Hq]%elem_of_cons.
* apply Hz; apply Hw; set_solver.
* apply Hw. set_solver.
Qed.
End chains.

(** ** Replacing one pointer *)

Section update.
Context (D : list (option nat)) (HD : tree D) (b new : nat).
Context (Hb : b ∈ rpo) (Hbe : b <> e) (Hnew : proc D new) (Hnb : (pos new < pos b)%nat).
Context (Hold : proc D b -> anc D b new).

Local Abbreviation D' := (<[b := Some new]> D).

Lemma repoint_b : D' !! b = Some (Some new).
Proof. apply list_lookup_insert_eq. rewrite (tree_len D HD). by apply Hlt. Qed.

Lemma repoint_ne c : c <> b -> D' !! c = D !! c.
Proof. intros Hne. by apply list_lookup_insert_ne. Qed.

Lemma repoint_proc c : proc D c -> proc D' c.
Proof.
intros [p Hp]. destruct (decide (c = b)) as [->|Hne]; [exists new; apply repoint_b|]. exists p. by rewrite repoint_ne.
Qed.

Lemma repoint_tree : tree D'.
Proof.
split.
- by rewrite length_insert, (tree_len D HD).
- by rewrite repoint_ne, (tree_root D HD).
- intros c p [Hne Hp]. destruct (decide (c = b)) as [->|Hcb].
+ rewrite repoint_b in Hp. injection Hp as <-. split_and!; [done | by eapply proc_in | by apply repoint_proc | done].
+ rewrite repoint_ne in Hp by done. destruct (tree_up D HD c p) as (? & ? & ? & ?); [done|].
split_and!; [done | done | by apply repoint_proc | done].
Qed.

(** Chains from processed positions only get shorter. *)
Lemma repoint_shrinks c x : proc D c -> anc D' c x -> anc D c x.
Proof.
intros Hc H. revert Hc. induction H as [|a p x [Hne Hp] _ IH]; intros Ha; [done|].
destruct (decide (a = b)) as [->|Hab].
- rewrite repoint_b in Hp. injection Hp as <-. etrans; [by apply Hold | by apply IH].
- rewrite repoint_ne in Hp by done. assert (Hu : up D a p) by done.
eapply rtc_l; [exact Hu|]. apply IH. by apply (tree_up D HD a p).
Qed.

Lemma repoint_above c x : (pos b <= pos x)%nat -> anc D c x -> anc D' c x.
Proof.
intros Hle H. induction H as [|a p x [Hne Hp] Hpx IH]; [done|].
eapply rtc_l; [|by apply IH]. split; [done|]. rewrite repoint_ne; [done|]. intros ->.
pose proof (anc_pos D HD _ _ Hpx). destruct (tree_up D HD b p) as (_ & _ & _ & ?); [done|]. lia.
Qed.

Lemma repoint_below c x : (pos c < pos b)%nat -> anc D c x -> anc D' c x.
Proof.
intros Hle H. induction H as [|a p x [Hne Hp] Hpx IH]; [done|].
destruct (tree_up D HD a p) as (_ & _ & _ & ?); [done|]. eapply rtc_l; [|apply IH; lia].
split; [done|]. rewrite repoint_ne; [done|]. intros ->. lia.
Qed.
End update.

(** * The sweeps *)

Context (E : nat -> nat -> Prop) (P : list (list nat)).
Context (HP : forall b, b ∈ rpo -> exists l, P !! b = Some l /\ forall q, q ∈ l <-> E q b).
Context (Hparent : forall b, b ∈ rpo -> b <> e -> exists t, t ∈ rpo /\ E t b /\ (pos t < pos b)%nat).

(** Dominance on positions. *)
Inductive pavoids (d : nat) : nat -> Prop :=
| pavoids_entry : e <> d -> pavoids d e
| pavoids_step a b : pavoids d a -> E a b -> b <> d -> pavoids d b.

Definition pdom (d b : nat) : Prop := b ∈ rpo /\ ~ pavoids d b.

Lemma pdom_refl b : b ∈ rpo -> pdom b b.
Proof. intros Hb. split; [done|]. by inversion 1. Qed.

Lemma pdom_pred d a b : pdom d b -> d <> b -> a ∈ rpo -> E a b -> pdom d a.
Proof. intros [_ Hn] Hne Ha He'. split; [done|]. intros H. apply Hn. by eapply pavoids_step. Qed.

(** After the positions before place [k] of the current sweep:
- every strict dominator of a position dominates its parent;
- a parent that this sweep has set, or whose own chain it has not reached
yet, lies on the chain of each earlier predecessor;
- what lies on the chains of all processed predecessors lies on the
parent's chain. *)
Record swept (k : nat) (D : list (option nat)) : Prop := {
sw_tree : tree D;
sw_proc : forall c, c ∈ rpo -> (pos c < k)%nat -> proc D c;
sw_dom : forall c p d, up D c p -> pdom d c -> d <> c -> pdom d p;
sw_early : forall c p t, up D c p -> (pos c < k \/ k <= pos p)%nat ->
t ∈ rpo -> E t c -> (pos t < pos c)%nat -> anc D t p;
sw_meet : forall c p w, up D c p -> w ∈ rpo ->
(forall q, E q c -> proc D q -> anc D q w) -> anc D p w }.

(** The parent of [b] is the meeting point of its processed predecessors. *)
Definition meets (D : list (option nat)) (b new : nat) : Prop :=
(forall q, E q b -> proc D q -> anc D q new) /\
(forall w, (forall q, E q b -> proc D q -> anc D q w) -> anc D new w).

Section step.
Context (k : nat) (D : list (option nat)) (Hsw : swept k D) (b : nat).
Context (Hb : b ∈ rpo) (Hk : pos b = k) (Hbe : b <> e).

Let HD : tree D := sw_tree k D Hsw.

Lemma sw_dom_anc d c : proc D c -> pdom d c -> anc D c d.
Proof.
remember (pos c) as m eqn:Em. revert c Em. induction (lt_wf m) as [m _ IH]. intros c -> [p Hp] Hd.
destruct (decide (d = c)) as [->|Hne]; [reflexivity|].
destruct (decide (c = e)) as [->|Hce]; [destruct Hd as [_ []]; by constructor|].
assert (Hu : up D c p) by done. destruct (tree_up D HD c p Hu) as (_ & _ & Hpp & Hpos).
eapply rtc_l; [exact Hu|]. eapply IH; [exact Hpos | done | done |]. by apply (sw_dom k D Hsw c).
Qed.

(** Positions between [c] and one of its dominators on its chain are dominated too. *)
Lemma sw_dom_between d c y : pdom d c -> proc D c -> anc D c y -> anc D y d -> pdom d y.
Proof.
intros Hd Hc Hcy Hyd. induction Hcy as [|c p y Hu Hpy IH]; [done|].
destruct (tree_up D HD c p Hu) as (_ & _ & Hpp & Hpos).
apply IH; [|done|done]. apply (sw_dom k D Hsw c); [done | done |]. intros ->.
apply (anc_pos D HD) in Hpy. apply (anc_pos D HD) in Hyd. lia.
Qed.

Lemma idom_step_spec ch :
exists new, meets D b new /\ proc D new /\ (pos new < pos b)%nat /\
idom_step P V (D, ch) b =
Some (if decide (mjoin (D !! b) = Some new) then (D, ch) else (<[b := Some new]> D, true)).
Proof.
destruct (HP b Hb) as (l & El & Hl). destruct (Hparent b Hb Hbe) as (t & Ht & Htb & Htpos).
assert (Hf : forall q, q ∈ filter (fun p => is_Some (mjoin (D !! p))) l <-> E q b /\ proc D q).
{ intros q. rewrite list_elem_of_filter, Hl. unfold proc.
destruct (D !! q) as [[p|]|]; simpl; split; intros [H1 H2]; split; try done; try (by exists p); by destruct H1 || by destruct H2. }
assert (Hpt : proc D t) by (apply (sw_proc k D Hsw); [done | lia]).
unfold idom_step. rewrite El. simpl. destruct (filter _ l) as [|p ps] eqn:Ef.
{ assert (t ∈ @nil nat) as Hin by (by apply Hf). by apply not_elem_of_nil in Hin. }
destruct (meet_spec D HD ps p) as (new & -> & H1 & H2).
{ apply Hf. left. }
{ intros q Hq. apply Hf. by right. }
assert (Hm : meets D b new).
{ split.
- intros q Hq Hpq. apply H1. by apply Hf.
- intros w Hw. apply H2. intros q Hq. apply Hf in Hq as [? ?]. by apply Hw. }
exists new. split; [done|]. pose proof (proj1 Hm t Htb Hpt) as Ha. split; [by apply (anc_proc D HD t)|].
pose proof (anc_pos D HD _ _ Ha). split; [lia|]. simpl. by case_decide.
Qed.

Lemma pos_k_ne c : c ∈ rpo -> (pos c < S k)%nat -> c <> b -> (pos c < k)%nat.
Proof. intros Hc Hle Hne. assert (pos c <> pos b) by (intros Ep; by apply Hne, Hinj). lia. Qed.

(** The pointer already has the right value. *)
Lemma swept_keep new : meets D b new -> D !! b = Some (Some new) -> swept (S k) D.
Proof.
intros [Hm _] Hbn. destruct Hsw as [H1 H2 H3 H4 H5]. split; try done.
- intros c Hc Hlt'. destruct (decide (c = b)) as [->|Hne]; [by exists new|]. apply H2; [done|]. by apply pos_k_ne.
- intros c p t Hu Hor Ht Htc Hpos. destruct (decide (c = b)) as [->|Hne].
+ destruct Hu as [_ Hp]. simplify_eq. apply Hm; [done|]. apply H2; [done | lia].
+ apply (H4 c); [done | | done | done | done]. destruct (tree_up D H1 c p Hu) as (Hc & _).
destruct Hor as [Hor|Hor]; [left; by apply pos_k_ne | right; lia].
Qed.

Section replace.
Context (new : nat) (Hm : meets D b new) (Hnew : proc D new) (Hnb : (pos new < pos b)%nat).

Local Abbreviation D' := (<[b := Some new]> D).

Lemma replace_old : proc D b -> anc D b new.
Proof.
intros [old Ho]. assert (Hu : up D b old) by done. eapply rtc_l; [exact Hu|].
apply (sw_meet k D Hsw b); [done | by eapply proc_in | apply Hm].
Qed.

Lemma replace_dom d : pdom d b -> d <> b -> pdom d new.
Proof.
intros Hd Hne. destruct (Hparent b Hb Hbe) as (t & Ht & Htb & Htpos).
assert (Hpt : proc D t) by (apply (sw_proc k D Hsw); [done | lia]).
assert (Hall : forall q, E q b -> proc D q -> anc D q d).
{ intros q Hq Hpq. apply sw_dom_anc; [done|]. eapply pdom_pred; [done | done | | done]. by eapply proc_in. }
apply (sw_dom_between d t); [by eapply pdom_pred | done | by apply Hm |]. by apply Hm.
Qed.

Lemma swept_replace : swept (S k) D'.
Proof.
pose proof (repoint_tree D HD b new Hb Hbe Hnew Hnb) as HD'. pose proof (repoint_b D HD b new Hb) as Eb.
assert (Hcase : forall c p, up D' c p -> c = b /\ p = new \/ c <> b /\ up D c p).
{ intros c p [Hce Hp]. destruct (decide (c = b)) as [->|Hne]; [left | right].
- split; [done|]. congruence.
- rewrite repoint_ne in Hp by done. done. }
assert (Hshrink : forall c x, proc D c -> anc D' c x -> anc D c x).
{ intros c x. apply (repoint_shrinks D HD b new Hb Hnew replace_old). }
split; [done | | | |].
- intros c Hc Hlt'. destruct (decide (c = b)) as [->|Hne]; [by exists new|].
apply (repoint_proc D HD b new Hb). apply (sw_proc k D Hsw); [done|]. by apply pos_k_ne.
- intros c p d Hu Hd Hne. apply Hcase in Hu as [[-> ->]|[Hcb Hu]]; [by apply replace_dom | by apply (sw_dom k D Hsw c)].
- intros c p t Hu Hor Ht Htc Hpos. apply Hcase in Hu as [[-> ->]|[Hcb Hu]].
+ apply (repoint_below D HD b new Hbe Hnb); [done|]. apply Hm; [done|]. apply (sw_proc k D Hsw); [done | lia].
+ destruct (tree_up D HD c p Hu) as (Hc & _). destruct Hor as [Hor|Hor].
* apply pos_k_ne in Hor; [|done|done]. apply (repoint_below D HD b new Hbe Hnb); [lia|].
apply (sw_early k D Hsw c); auto.
* apply (repoint_above D HD b new Hbe Hnb); [lia|]. apply (sw_early k D Hsw c); [done | right; lia | done | done | done].
- intros c p w Hu Hw Hq.
assert (HqD : forall q, E q c -> proc D q -> anc D q w).
{ intros q Hqc Hpq. apply Hshrink; [done|]. apply Hq; [done|]. by apply (repoint_proc D HD b new Hb). }
apply Hcase in Hu as [[-> ->]|[Hcb Hu]].
{ apply (repoint_below D HD b new Hbe Hnb); [done|]. by apply Hm. }
pose proof (sw_meet k D Hsw c p w Hu Hw HqD) as Hpw.
destruct (decide (pos p < pos b)%nat) as [Hlt'|Hge]; [by apply (repoint_below D HD b new Hbe Hnb)|].
destruct (tree_up D HD c p Hu) as (Hc & Hp & Hpp & Hpos). destruct Hu as [Hce Hcp].
destruct (Hparent c Hc Hce) as (t & Ht & Htc & Htpos).
assert (Htp : anc D t p) by (apply (sw_early k D Hsw c); [done | right; lia | done | done | done]).
pose proof (anc_proc_l D _ _ Hpp Htp) as Htproc.
assert (Htw : anc D' t w) by (apply Hq; [done|]; by apply (repoint_proc D HD b new Hb)).
assert (Htp' : anc D' t p) by (apply (repoint_above D HD b new Hbe Hnb); [lia | done]).
destruct (anc_total D' t p w Htp' Htw) as [?|Hwp]; [done|].
assert (w = p) as ->; [|reflexivity]. apply (anc_pos D' HD') in Hwp. apply (anc_pos D HD) in Hpw.
apply Hinj; [done | done | lia].
Qed.
End replace.
End step.

(** ** Termination: each change moves a pointer to an earlier place *)

Definition weight (o : option nat) : nat := match o with Some p => pos p | None => n end.
Definition total (D : list (option nat)) : nat := sum_list_with weight D.

Lemma sum_list_with_insert (l : list (option nat)) i x y :
l !! i = Some x -> (sum_list_with weight (<[i := y]> l) + weight x = sum_list_with weight l + weight y)%nat.
Proof.
revert i. induction l as [|z l IH]; intros [|i] H; simpl in *; simplify_eq; [lia|]. specialize (IH _ H). lia.
Qed.

Lemma replace_total k D b new :
swept k D -> b ∈ rpo -> b <> e -> meets D b new -> proc D new -> mjoin (D !! b) <> Some new ->
(total (<[b := Some new]> D) < total D)%nat.
Proof.
intros Hsw Hb Hbe Hm Hnew Hne. pose proof (sw_tree k D Hsw) as HD. unfold total.
destruct (lookup_lt_is_Some_2 D b) as [o Ho]; [rewrite (tree_len D HD); by apply Hlt|].
pose proof (sum_list_with_insert D b o (Some new) Ho) as Es.
assert (weight (Some new) < weight o)%nat; [|lia].
destruct o as [old|]; simpl.
- assert (Hu : up D b old) by done. destruct (tree_up D HD b old Hu) as (_ & _ & Hold & _).
assert (Ha : anc D old new) by (apply (sw_meet k D Hsw b); [done | by eapply proc_in | apply Hm]).
pose proof (anc_pos D HD _ _ Ha). destruct (decide (pos old <= pos new)%nat) as [Hle|]; [|lia].
destruct Hne. rewrite Ho. simpl. f_equal. by apply (anc_eq D HD).
- apply Hlt. by eapply proc_in.
Qed.

Context (Hrpo : forall i b, rpo !! i = Some b -> pos b = i).

Definition settled (D : list (option nat)) (b : nat) : Prop :=
exists new, D !! b = Some (Some new) /\ forall q, E q b -> proc D q -> anc D q new.

Lemma sweep_spec_idom l k D ch :
drop k rpo = l -> (1 <= k)%nat -> (k + length l = length rpo)%nat -> swept k D ->
exists D' ch', foldM (idom_step P V) l (D, ch) = Some (D', ch') /\ swept (length rpo) D' /\
(total D' <= total D)%nat /\ (ch = true -> ch' = true) /\ (ch' = true -> ch = true \/ (total D' < total D)%nat) /\
(ch' = false -> D' = D /\ forall b, b ∈ l -> settled D b).
Proof.
revert k D ch. induction l as [|b l IH]; intros k D ch Hl Hk Hlen Hsw; simpl in Hlen.
{ exists D, ch. rewrite Nat.add_0_r in Hlen. subst k. do 4 (split; [done|]).
split; [by left|]. intros _. split; [done|]. intros b Hb. by apply not_elem_of_nil in Hb. }
assert (Hbk : rpo !! k = Some b) by (rewrite <- (Nat.add_0_r k), <- lookup_drop, Hl; done).
assert (Hb : b ∈ rpo) by (by eapply list_elem_of_lookup_2). pose proof (Hrpo _ _ Hbk) as Hpos.
assert (Hbe : b <> e) by (intros ->; lia).
assert (Hl' : drop (S k) rpo = l) by (rewrite <- Nat.add_1_r, <- drop_drop, Hl; done).
destruct (idom_step_spec k D Hsw b Hb Hpos Hbe ch) as (new & Hm & Hnew & Hnb & Estep).
cbn [foldM]. rewrite Estep. case_decide as Hd; simpl.
- assert (Hbn : D !! b = Some (Some new)) by (destruct (D !! b) as [[]|]; simpl in Hd; congruence).
destruct (IH (S k) D ch) as (D' & ch' & Ef & Hs & Hle & Hch & Ht & Hf); [done | lia | lia | by eapply swept_keep |].
exists D', ch'. do 5 (split; [done|]). intros Hc. destruct (Hf Hc) as [-> Hset]. split; [done|].
intros c [->|Hc']%elem_of_cons; [|by apply Hset]. exists new. split; [done | apply Hm].
- destruct (IH (S k) (<[b := Some new]> D) true) as (D' & ch' & Ef & Hs & Hle & Hch & Ht & Hf);
[done | lia | lia | by eapply swept_replace |].
pose proof (replace_total k D b new Hsw Hb Hbe Hm Hnew Hd).
exists D', ch'. do 2 (split; [done|]). split; [lia|]. split; [by intros _; apply Hch|].
split; [right; lia|]. intros ->. by discriminate Hch.
Qed.

(** The next sweep starts from what the last one left. *)
Lemma swept_restart D : swept (length rpo) D -> swept 1 D.
Proof.
intros [H1 H2 H3 H4 H5]. split; [done | | done | | done].
- intros c Hc _. apply H2; [done|]. apply list_elem_of_lookup in Hc as [i Hi].
rewrite (Hrpo _ _ Hi). by eapply lookup_lt_Some.
- intros c p t Hu _. apply (H4 c p t Hu). left. destruct (tree_up D H1 c p Hu) as (Hc & _).
apply list_elem_of_lookup in Hc as [i Hi]. rewrite (Hrpo _ _ Hi). by eapply lookup_lt_Some.
Qed.

Context (Hhead : rpo !! 0 = Some e).

Lemma idom_loop_spec fuel D :
swept 1 D -> (total D < fuel)%nat ->
exists D', idom_loop fuel P V rpo D = Some D' /\ swept (length rpo) D' /\
forall b, b ∈ rpo -> b <> e -> settled D' b.
Proof.
revert D. induction fuel as [|fuel IH]; intros D Hsw Hf; [lia|].
assert (Hlen : (1 <= length rpo)%nat) by (apply lookup_lt_Some in Hhead; lia).
destruct (sweep_spec_idom (drop 1 rpo) 1 D false) as (D' & ch & Ef & Hs & Hle & _ & Ht & Hfx);
[done | done | rewrite length_drop; lia | done |].
simpl. rewrite Ef. simpl. destruct ch.
- apply IH; [by apply swept_restart|]. destruct Ht; [done | done | lia].
- destruct Hfx as [-> Hset]; [done|]. exists D. split; [done|]. split; [done|].
intros b Hb Hbe. apply Hset. apply list_elem_of_lookup in Hb as [[|i] Hi]; [congruence|].
apply (list_elem_of_lookup_2 _ i). by rewrite lookup_drop.
Qed.

(** ** At a fixpoint, chains are exactly the dominators *)

Context (Hclosed : forall a b, a ∈ rpo -> E a b -> b ∈ rpo).

Lemma pavoids_in d b : pavoids d b -> b ∈ rpo.
Proof. induction 1 as [|a b _ IH Hab _]; [done | by eapply Hclosed]. Qed.

Lemma settled_anc_dom D c x :
swept (length rpo) D -> (forall b, b ∈ rpo -> b <> e -> settled D b) ->
c ∈ rpo -> anc D c x <-> pdom x c.
Proof.
intros Hsw Hset Hc. pose proof (sw_tree _ D Hsw) as HD.
assert (Hall : forall q, q ∈ rpo -> proc D q).
{ intros q Hq. destruct (decide (q = e)) as [->|Hne]; [exists e; apply (tree_root D HD)|].
destruct (Hset q Hq Hne) as (new & ? & _). by exists new. }
split.
- intros Ha. split; [done|]. intros Hav. revert Hc Ha.
induction Hav as [Hne|a b Hav IH Hab Hne]; intros Hc Ha.
+ inversion Ha as [|? ? ? [? _]]; subst; done.
+ destruct (decide (b = e)) as [->|Hbe]; [inversion Ha as [|? ? ? [? _]]; subst; done|].
destruct (Hset b Hc Hbe) as (new & Hnew & Hq). pose proof (pavoids_in _ _ Hav) as Hain.
apply IH; [done|]. etrans; [by apply Hq, Hall|]. by apply (anc_up D b).
- intros Hd. apply (sw_dom_anc _ D Hsw); [by apply Hall | done].
Qed.

(** The parent of a position is its immediate dominator. *)
Lemma settled_parent D c p :
swept (length rpo) D -> (forall b, b ∈ rpo -> b <> e -> settled D b) -> c ∈ rpo -> c <> e ->
D !! c = Some (Some p) ->
p ∈ rpo /\ p <> c /\ pdom p c /\ forall d, pdom d c -> d <> c -> pdom d p.
Proof.
intros Hsw Hset Hc Hce Hp. pose proof (sw_tree _ D Hsw) as HD. assert (Hu : up D c p) by done.
destruct (tree_up D HD c p Hu) as (_ & Hpin & _ & Hpos). split; [done|].
split; [intros ->; lia|]. split; [apply (settled_anc_dom D); [done..|]; by apply rtc_once|].
intros d Hd Hne. by apply (sw_dom _ D Hsw c).
Qed.

Lemma swept_init : swept 1 (<[e := Some e]> (replicate n None)).
Proof.
assert (Hln : (e < n)%nat) by (by apply Hlt).
assert (Hno : forall c p, ~ up (<[e := Some e]> (replicate n None)) c p).
{ intros c p [Hne Hp]. rewrite list_lookup_insert_ne in Hp by done. by apply lookup_replicate_1 in Hp as [? _]. }
assert (Ee : <[e := Some e]> (replicate n (None : option nat)) !! e = Some (Some e)).
{ apply list_lookup_insert_eq. by rewrite length_replicate. }
split.
- split; [by rewrite length_insert, length_replicate | done |]. intros c p Hu. by apply Hno in Hu.
- intros c Hc Hpos. exists e. assert (c = e) as -> by (apply Hinj; [done | done | lia]). done.
- intros c p d Hu. by apply Hno in Hu.
- intros c p t Hu. by apply Hno in Hu.
- intros c p w Hu. by apply Hno in Hu.
Qed.

Lemma total_init : (total (<[e := Some e]> (replicate n None)) <= n * n)%nat.
Proof.
unfold total. assert (Hln : (e < n)%nat) by (by apply Hlt).
pose proof (sum_list_with_insert (replicate n None) e None (Some e)) as Es.
rewrite lookup_replicate_2 in Es by done. specialize (Es eq_refl). simpl in Es.
assert (sum_list_with weight (replicate n None) = n * n)%nat; [|lia].
generalize n at 1 3. intros m. induction m; simpl; lia.
Qed.
End tree.
