(* ===== verification/IdomExact.v ===== *)
(** The immediate dominators of a function, exactly.

    [Idoms] proves the iteration correct on block positions; here the positions
    are those of a function's block vector, position dominance is path dominance
    of [Dominators], and the map the code returns is characterised: its keys are
    the reachable blocks other than the entry, and it agrees with the reference
    computation from full dominator sets. *)

From S2P Require Import Prelude BitSet Slices IrTypes IrInst Sample Worklist IrWalk Dominators Postorder Idoms.

(** The closest dominator other than the block itself. *)
Definition immediate_dominator (f : Function) (p b : BlockId) : Prop :=
  p <> b /\ dominates_path f p b /\ forall d, dominates_path f d b -> d <> b -> dominates_path f d p.

Lemma immediate_dominator_unique f p q b : immediate_dominator f p b -> immediate_dominator f q b -> p = q.
Proof.
  intros (Hp & Hpd & Hpm) (Hq & Hqd & Hqm). apply (dominates_antisym f); [by apply Hqm | by apply Hpm].
Qed.

Lemma dominates_only_entry f d : dominates_path f d (entry f) -> d = entry f.
Proof. intros [_ Hn]. destruct (decide (d = entry f)); [done|]. destruct Hn. by constructor. Qed.

(** * Positions *)

Lemma rpo_positions_gen k l V :
  NoDup l -> (forall b, b ∈ l -> (b < length V)%nat) ->
  let V' := foldl (fun V p => <[p.2 := N.of_nat p.1]> V) V (zip (seq k (length l)) l) in
  (forall i b, l !! i = Some b -> V' !! b = Some (N.of_nat (k + i))) /\ (forall b, b ∉ l -> V' !! b = V !! b).
Proof.
  revert k V. induction l as [|x l IH]; intros k V Hnd Hlt; cbn [length seq zip zip_with foldl].
  { split; [done | done]. }
  apply list.NoDup_cons in Hnd as [Hx Hnd]. destruct (IH (S k) (<[x := N.of_nat k]> V)) as [H1 H2].
  - done.
  - intros b Hb. rewrite length_insert. apply Hlt. by right.
  - split.
    + intros [|i] b Hi; simpl in Hi; simplify_eq.
      * etrans; [by apply H2|]. rewrite Nat.add_0_r. apply list_lookup_insert_eq. apply Hlt. left.
      * etrans; [by apply (H1 i)|]. do 2 f_equal. lia.
    + intros b [Hbx Hbl]%not_elem_of_cons. etrans; [by apply H2|]. by apply list_lookup_insert_ne.
Qed.

Lemma rpo_positions_lookup n rpo i b :
  NoDup rpo -> (forall b, b ∈ rpo -> (b < n)%nat) -> rpo !! i = Some b ->
  rpo_positions n rpo !! b = Some (N.of_nat i).
Proof.
  intros Hnd Hlt Hi. unfold rpo_positions.
  apply (rpo_positions_gen 0 rpo (replicate n usize_max)); [done | | done].
  intros c Hc. rewrite length_replicate. by apply Hlt.
Qed.

Lemma pred_indices_length f index : length (pred_indices f index) = length (blocks f).
Proof.
  unfold pred_indices.
  assert (forall (l : list (nat * BasicBlock)) P, length P = length (blocks f) ->
    length (foldl (fun P p => foldl (fun P t => match index !! t with
      | Some j => alter (fun l => l ++ [p.1]) j P | None => P end) P (block_targets p.2)) P l) = length (blocks f)) as H.
  { intros l. induction l as [|p l IH]; intros P HP; [done|]. simpl. apply IH. by rewrite fold_targets_length. }
  apply H, length_replicate.
Qed.

Section exact.
Context (f : Function) (Hok : block_index_ok f).

Local Abbreviation ids := (block_id <$> blocks f).
Local Abbreviation index := (index_of (block_id <$> blocks f)).
Local Abbreviation n := (length (blocks f)).

Lemma index_ids b i : index !! b = Some i <-> ids !! i = Some b.
Proof. apply index_of_spec. by apply block_ids_NoDup. Qed.

Lemma ids_inj i j b : ids !! i = Some b -> ids !! j = Some b -> i = j.
Proof. intros Hi Hj. eapply NoDup_lookup; [by apply (block_ids_NoDup f) | done | done]. Qed.

Lemma pos_edge_cfg i j : pos_edge f i j <-> exists a b, ids !! i = Some a /\ ids !! j = Some b /\ cfg_edge f a b.
Proof.
split.
- intros (blk & t & Hb & Ht & Hi). exists (block_id blk), t. rewrite <- (index_ids t j).
rewrite list_lookup_fmap, Hb. split; [done|]. split; [done|]. apply cfg_edge_iff; [done|].
exists blk. split; [by eapply list_elem_of_lookup_2 | done].
- intros (a & b & Ha & Hb & He). apply cfg_edge_iff in He as (blk & Hin & <- & Ht); [|done].
apply list_elem_of_lookup in Hin as [i' Hi']. assert (i' = i) as ->.
{ eapply ids_inj; [|done]. by rewrite list_lookup_fmap, Hi'. }
exists blk, b. split; [done|]. split; [done|]. by apply index_ids.
Qed.

Context (e : nat) (Hent : ids !! e = Some (entry f)).

Lemma pos_reach i : rtc (pos_edge f) e i <-> exists b, ids !! i = Some b /\ reachable f b.
Proof.
split.
- revert i. apply (rtc_ind_r (fun i => exists b, ids !! i = Some b /\ reachable f b)).
+ exists (entry f). split; [done | apply rtc_refl].
+ intros x y _ Hxy (a & Ha & Hr). apply pos_edge_cfg in Hxy as (a' & b & Ha' & Hb & He). simplify_eq.
exists b. split; [done|]. by eapply rtc_r.
- intros (b & Hb & Hr). revert b Hr i Hb. unfold reachable.
apply (rtc_ind_r (fun b => forall i, ids !! i = Some b -> rtc (pos_edge f) e i)).
+ intros i Hi. assert (i = e) as -> by (by eapply ids_inj). apply rtc_refl.
+ intros a b _ He IH i Hi. pose proof (edge_source f Hok _ _ He) as Hin.
apply list_elem_of_lookup in Hin as [j Hj]. eapply rtc_r; [by apply IH|]. apply pos_edge_cfg. eauto.
Qed.

Lemma pavoids_avoids i j d b :
ids !! i = Some d -> ids !! j = Some b -> pavoids e (pos_edge f) i j <-> avoids f d b.
Proof.
intros Hi Hj. split.
- intros H. revert b Hj. induction H as [Hne|x y _ IH Hxy Hne]; intros b Hj.
+ simplify_eq. constructor. intros <-. apply Hne. by eapply ids_inj.
+ apply pos_edge_cfg in Hxy as (a & b' & Ha & Hb & He). simplify_eq.
eapply avoids_step; [by apply IH | done |]. intros ->. apply Hne. by eapply ids_inj.
- intros H. revert j Hj. induction H as [Hne|a b _ IH He Hne]; intros j Hj.
+ assert (j = e) as -> by (by eapply ids_inj). constructor. intros ->. by simplify_eq.
+ pose proof (edge_source f Hok _ _ He) as Hin. apply list_elem_of_lookup in Hin as [k Hk].
eapply (pavoids_step _ _ _ k); [by apply IH | apply pos_edge_cfg; eauto |]. intros ->. by simplify_eq.
Qed.

Lemma pos_dom rpo i j d b :
rpo_ok f e rpo -> ids !! i = Some d -> ids !! j = Some b ->
pdom e rpo (pos_edge f) i j <-> dominates_path f d b.
Proof.
intros Hrpo Hi Hj. unfold pdom, dominates_path. rewrite (pavoids_avoids i j d b Hi Hj).
rewrite (rpo_reach _ _ _ Hrpo), pos_reach. split.
- intros [(b' & Hb' & Hr) Hn]. by simplify_eq.
- intros [Hr Hn]. split; [by exists b | done].
Qed.

Lemma rpo_ids rpo i : rpo_ok f e rpo -> i ∈ rpo <-> exists b, ids !! i = Some b /\ reachable f b.
Proof. intros Hrpo. by rewrite (rpo_reach _ _ _ Hrpo), pos_reach. Qed.

Lemma rpo_lt rpo i : rpo_ok f e rpo -> i ∈ rpo -> (i < n)%nat.
Proof. intros Hrpo (b & Hb & _)%(rpo_ids rpo i Hrpo). apply lookup_lt_Some in Hb. by rewrite length_fmap in Hb. Qed.

(** ** Places in the reverse postorder *)

Section places.
Context (rpo : list nat) (Hrpo : rpo_ok f e rpo).

Definition place (b : nat) : nat := N.to_nat (default 0%N (rpo_positions n rpo !! b)).

Lemma rpo_position_at i b : rpo !! i = Some b -> rpo_positions n rpo !! b = Some (N.of_nat i).
Proof.
intros Hi. apply rpo_positions_lookup; [apply (rpo_nodup _ _ _ Hrpo) | | done]. intros c. by apply rpo_lt.
Qed.

Lemma place_at i b : rpo !! i = Some b -> place b = i.
Proof. intros Hi. unfold place. rewrite (rpo_position_at i b Hi). simpl. lia. Qed.

Lemma rpo_position_place b : b ∈ rpo -> rpo_positions n rpo !! b = Some (N.of_nat (place b)).
Proof. intros Hb. apply list_elem_of_lookup in Hb as [i Hi]. rewrite (place_at i b Hi). by apply rpo_position_at. Qed.

Lemma place_inj a b : a ∈ rpo -> b ∈ rpo -> place a = place b -> a = b.
Proof.
intros Ha Hb Eab. apply list_elem_of_lookup in Ha as [i Hi]. apply list_elem_of_lookup in Hb as [j Hj].
rewrite (place_at i a Hi), (place_at j b Hj) in Eab. by simplify_eq.
Qed.

Lemma place_lt b : b ∈ rpo -> (b < n)%nat /\ (place b < n)%nat.
Proof.
intros Hb. split; [by apply (rpo_lt rpo)|]. apply list_elem_of_lookup in Hb as [i Hi]. rewrite (place_at i b Hi).
apply lookup_lt_Some in Hi. assert (Hlen : (length rpo <= length (seq 0 n))%nat); [|rewrite length_seq in Hlen; lia].
apply submseteq_length, NoDup_submseteq; [apply (rpo_nodup _ _ _ Hrpo)|].
intros x Hx. apply elem_of_seq. apply rpo_lt in Hx; [lia | done].
Qed.

Lemma preds_at b : b ∈ rpo -> exists l, pred_indices f index !! b = Some l /\ forall q, q ∈ l <-> pos_edge f q b.
Proof.
intros Hb. apply (rpo_lt rpo) in Hb; [|done].
destruct (lookup_lt_is_Some_2 (pred_indices f index) b) as [l Hl]; [by rewrite pred_indices_length|].
exists l. split; [done|]. intros q. pose proof (pred_indices_spec f index b q Hb) as Hs.
rewrite Hl in Hs. exact Hs.
Qed.

Lemma place_parent b : b ∈ rpo -> b <> e -> exists t, t ∈ rpo /\ pos_edge f t b /\ (place t < place b)%nat.
Proof.
intros Hb Hbe. apply list_elem_of_lookup in Hb as [[|j] Hj].
{ rewrite (rpo_head _ _ _ Hrpo) in Hj. congruence. }
destruct (rpo_parent _ _ _ Hrpo j b Hj) as (i & u & Hu & Hi & Hij). exists u.
split; [by eapply list_elem_of_lookup_2|]. split; [done|]. by rewrite (place_at i u Hi), (place_at _ b Hj).
Qed.

Lemma rpo_closed a b : a ∈ rpo -> pos_edge f a b -> b ∈ rpo.
Proof.
intros Ha Hab. apply (rpo_reach _ _ _ Hrpo). eapply rtc_r; [by apply (rpo_reach _ _ _ Hrpo) | done].
Qed.

Lemma idom_loop_run :
exists D, idom_loop (idom_fuel n) (pred_indices f index) (rpo_positions n rpo) rpo
(<[e := Some e]> (replicate n None)) = Some D /\
forall i, i ∈ rpo -> i <> e -> exists p, D !! i = Some (Some p) /\ p ∈ rpo /\ p <> i /\
pdom e rpo (pos_edge f) p i /\
forall d, pdom e rpo (pos_edge f) d i -> d <> i -> pdom e rpo (pos_edge f) d p.
Proof.
pose proof (rpo_head _ _ _ Hrpo) as Hhead. pose proof (place_at 0 e Hhead) as Hpe.
assert (He : e ∈ rpo) by (by eapply list_elem_of_lookup_2).
destruct (idom_loop_spec n e rpo (rpo_positions n rpo) place rpo_position_place place_inj Hpe He place_lt
(pos_edge f) (pred_indices f index) preds_at place_parent place_at Hhead
(idom_fuel n) (<[e := Some e]> (replicate n None))) as (D & Ed & Hsw & Hset).
- apply swept_init; [exact place_inj | done | done | exact place_lt].
- pose proof (total_init n e rpo place Hpe He place_lt). unfold idom_fuel. lia.
- exists D. split; [done|]. intros i Hi Hie. destruct (Hset i Hi Hie) as (p & Hp & _). exists p. split; [done|].
by apply (settled_parent n e rpo place Hpe He (pos_edge f) rpo_closed D i p).
Qed.
End places.

(** Collecting the pointers into a map of block ids. *)
Lemma collect_spec (D : list (option nat)) (l : list nat) (m : gmap BlockId BlockId) :
(forall i, i ∈ l -> exists p, D !! i = Some (Some p) /\ (p < n)%nat /\ (i < n)%nat) ->
exists m', foldM (fun m b => match mjoin (D !! b) with
| Some parent => kb ← ids !! b; kp ← ids !! parent; Some (<[kb := kp]> m)
| None => Some m end) l m = Some m' /\
forall b, (forall i, ids !! i = Some b -> i ∉ l) /\ m' !! b = m !! b \/
exists i p q, i ∈ l /\ ids !! i = Some b /\ D !! i = Some (Some p) /\ ids !! p = Some q /\ m' !! b = Some q.
Proof.
revert m. induction l as [|i l IH]; intros m Hl; simpl.
{ exists m. split; [done|]. intros b. left. split; [|done]. intros i _. apply not_elem_of_nil. }
destruct (Hl i) as (p & Hp & Hpn & Hin); [left|]. rewrite Hp. simpl.
destruct (lookup_lt_is_Some_2 ids i) as [kb Hkb]; [by rewrite length_fmap|].
destruct (lookup_lt_is_Some_2 ids p) as [kp Hkp]; [by rewrite length_fmap|].
rewrite Hkb. simpl. rewrite Hkp. simpl.
destruct (IH (<[kb := kp]> m)) as (m' & Em & Hm'); [intros j Hj; apply Hl; by right|].
exists m'. split; [done|]. intros b. destruct (Hm' b) as [[Hno Eb]|(j & pj & q & Hj & Hjb & Hpj & Hq & Eb)].
- destruct (decide (b = kb)) as [->|Hne].
+ right. exists i, p, kp. rewrite Eb, lookup_insert_eq. split_and!; try done. left.
+ left. rewrite lookup_insert_ne in Eb by done. split; [|done]. intros j Hj.
rewrite not_elem_of_cons. split; [|by apply Hno]. intros ->. congruence.
- right. exists j, pj, q. split_and!; try done. by right.
Qed.
End exact.

(** A dominator other than the block itself is a block of the function. *)
Lemma strict_dominator_in f d b :
  block_index_ok f -> entry f ∈ (block_id <$> blocks f) ->
  dominates_path f d b -> d <> b -> d ∈ (block_id <$> blocks f).
Proof.
  intros Hok Hent [Hr Hn] Hne. destruct (decide (d ∈ (block_id <$> blocks f))) as [|Hno]; [done|]. destruct Hn.
  revert b Hr Hne. apply (rtc_ind_r (fun b => d <> b -> avoids f d b)).
  - intros Hne. by constructor.
  - intros a b _ He IH Hne. eapply avoids_step; [|done|done]. apply IH. intros ->. apply Hno. by eapply edge_source.
Qed.

(** Every function whose block index is consistent has an immediate-dominator map. *)
Lemma idoms_spec f :
  block_index_ok f ->
  exists m, compute_immediate_dominators f = Some m /\
    (forall b, is_Some (m !! b) <-> b ∈ (block_id <$> blocks f) /\ reachable f b /\ b <> entry f) /\
    (forall b p, m !! b = Some p -> immediate_dominator f p b /\ p ∈ (block_id <$> blocks f)).
Proof.
  intros Hok. unfold compute_immediate_dominators.
  destruct (index_of (block_id <$> blocks f) !! entry f) as [e|] eqn:Ee; cbn zeta beta iota.
  2:{ exists ∅. split; [done|]. split; [|intros b p Hb; by rewrite lookup_empty in Hb].
      intros b. rewrite lookup_empty. split; [by intros [? ?]|]. intros (Hb & Hr & Hne). exfalso.
      assert (Hno : entry f ∉ (block_id <$> blocks f)).
      { intros Hin. apply (index_is_Some f Hok) in Hin as [i Hi]. congruence. }
      unfold reachable in Hr. inversion Hr as [|x y z He _]; subst; [done|].
      apply Hno. by eapply edge_source. }
  apply (index_ids f Hok) in Ee.
  assert (Hen : (e < length (blocks f))%nat) by (apply lookup_lt_Some in Ee; by rewrite length_fmap in Ee).
  destruct (reachable_reverse_postorder_spec f Hok e Hen) as (rpo & -> & Hrpo). cbn [mbind option_bind]. rewrite length_fmap.
  destruct (idom_loop_run f Hok e Ee rpo Hrpo) as (D & -> & HD). cbn [mbind option_bind].
  destruct (collect_spec f D (filter (fun b => b <> e) rpo) ∅) as (m & -> & Hm).
  { intros i [Hie Hi]%list_elem_of_filter. destruct (HD i Hi Hie) as (p & Hp & Hpr & _). exists p.
    split; [done|]. split; by apply (rpo_lt f Hok e Ee rpo). }
  exists m. split; [done|]. split.
  - intros b. split.
    + intros [p Hp]. destruct (Hm b) as [[_ Eb]|(i & pi & q & Hi & Hib & _)]; [by rewrite Hp, lookup_empty in Eb|].
      apply list_elem_of_filter in Hi as [Hie Hi]. apply (rpo_ids f Hok e Ee rpo i Hrpo) in Hi as (b' & Hb' & Hr).
      simplify_eq. split; [by eapply list_elem_of_lookup_2|]. split; [done|]. intros ->. apply Hie.
      by eapply (ids_inj f Hok).
    + intros (Hb & Hr & Hne). destruct (Hm b) as [[Hno _]|(i & pi & q & _ & _ & _ & _ & Eb)]; [|by exists q].
      apply list_elem_of_lookup in Hb as [i Hi]. destruct (Hno i Hi). apply list_elem_of_filter. split.
      * intros ->. congruence.
      * apply (rpo_ids f Hok e Ee rpo i Hrpo). by exists b.
  - intros b p Hp. destruct (Hm b) as [[_ Eb]|(i & pi & q & Hi & Hib & HDi & Hq & Eb)]; [by rewrite Hp, lookup_empty in Eb|].
    simplify_eq. apply list_elem_of_filter in Hi as [Hie Hi]. destruct (HD i Hi Hie) as (pi' & Hpi & Hpr & Hne & Hdom & Hmin).
    simplify_eq. split; [|by eapply list_elem_of_lookup_2]. split_and!.
    + intros ->. apply Hne. by eapply (ids_inj f Hok).
    + by apply (pos_dom f Hok e Ee rpo pi i).
    + intros d Hd Hdb.
      assert (Hin : d ∈ (block_id <$> blocks f)) by (eapply strict_dominator_in; [done | by eapply list_elem_of_lookup_2 | done | done]).
      apply list_elem_of_lookup in Hin as [j Hj]. apply (pos_dom f Hok e Ee rpo j pi); [done..|]. apply Hmin.
      * by apply (pos_dom f Hok e Ee rpo j i d b).
      * intros ->. congruence.
Qed.

(** * The reference computation *)

Lemma foldl_step_ext {A B} (g h : B -> A -> B) (l : list A) b : (forall b x, g b x = h b x) -> foldl g b l = foldl h b l.
Proof. intros Hgh. revert b. induction l as [|x l IH]; intros b; [done|]. simpl. by rewrite Hgh. Qed.

(** A map built by one conditional insertion per item, with distinct keys. *)
Lemma fold_collect {A V} (key : A -> BlockId) (g : A -> option V) (l : list A) b v :
  NoDup (key <$> l) ->
  foldl (fun (m : gmap BlockId V) q => match g q with Some v => <[key q := v]> m | None => m end) ∅ l !! b = Some v <->
  exists q, q ∈ l /\ key q = b /\ g q = Some v.
Proof.
  assert (Hgen : forall (m : gmap BlockId V), NoDup (key <$> l) ->
    foldl (fun (m : gmap BlockId V) q => match g q with Some v => <[key q := v]> m | None => m end) m l !! b = Some v <->
    (exists q, q ∈ l /\ key q = b /\ g q = Some v) \/ ((forall q, q ∈ l -> key q = b -> g q = None) /\ m !! b = Some v)).
  { induction l as [|q l IH]; intros m Hnd; simpl.
    { split; [intros H; right; split; [intros q Hq; by apply not_elem_of_nil in Hq | done]|].
      intros [(q & Hq & _)|[_ H]]; [by apply not_elem_of_nil in Hq | done]. }
    rewrite fmap_cons in Hnd. apply list.NoDup_cons in Hnd as [Hq Hnd]. rewrite IH by done. clear IH.
    assert (Hfresh : forall q', q' ∈ l -> key q' = key q -> False).
    { intros q' Hq' E. apply Hq. rewrite <- E. by apply list_elem_of_fmap_2. }
    destruct (g q) as [x|] eqn:Eg.
    - destruct (decide (key q = b)) as [<-|Hne].
      + rewrite lookup_insert_eq. split.
        * intros [(q' & Hq' & E & _)|[_ [= ->]]]; [by destruct (Hfresh q')|]. left. exists q. split; [left | done].
        * intros [(q' & [->|Hq']%elem_of_cons & E & Hg)|[Hno _]]; [|by destruct (Hfresh q')|].
          -- right. split; [|congruence]. intros q' Hq' E'. by destruct (Hfresh q').
          -- rewrite (Hno q) in Eg; [done | left | done].
      + rewrite lookup_insert_ne by done. split.
        * intros [(q' & Hq' & H)|[Hno H]]; [left; exists q'; split; [by right | done]|]. right. split; [|done].
          intros q' [->|Hq']%elem_of_cons E; [done | by apply Hno].
        * intros [(q' & [->|Hq']%elem_of_cons & E & Hg)|[Hno H]]; [done | left; by exists q' |].
          right. split; [|done]. intros q' Hq'. apply Hno. by right.
    - split.
      + intros [(q' & Hq' & H)|[Hno H]]; [left; exists q'; split; [by right | done]|]. right. split; [|done].
        intros q' [->|Hq']%elem_of_cons E; [done | by apply Hno].
      + intros [(q' & [->|Hq']%elem_of_cons & E & Hg)|[Hno H]]; [congruence | left; by exists q' |].
        right. split; [|done]. intros q' Hq'. apply Hno. by right. }
  intros Hnd. rewrite Hgen by done. rewrite lookup_empty. split; [intros [?|[_ ?]]; done | by left].
Qed.

Lemma block_ids_zip f : block_id <$> blocks f = (fun q : nat * BasicBlock => block_id q.2) <$> zip (seq 0 (length (blocks f))) (blocks f).
Proof.
  change (fun q : nat * BasicBlock => block_id q.2) with (block_id ∘ (snd : nat * BasicBlock -> BasicBlock)).
  rewrite list_fmap_compose, snd_zip; [done|]. rewrite length_seq. lia.
Qed.

Section reference.
Context (f : Function) (Hok : block_index_ok f) (Hent : entry f ∈ (block_id <$> blocks f)).

Local Abbreviation ids := (block_id <$> blocks f).
Local Abbreviation info := (compute_dominator_info f).

Lemma dom_bit i j a b :
ids !! i = Some a -> ids !! j = Some b -> reachable f a ->
bit_is_set (row (di_doms info) i) j = true <-> dominates_path f b a.
Proof.
intros Hi Hj Hr. pose proof (list_elem_of_lookup_2 _ _ _ Hj) as Hb.
pose proof (dominates_spec f Hok Hent b a Hb) as Hs. unfold dominates in Hs.
change (di_index info) with (index_of ids) in Hs.
rewrite (proj2 (index_ids f Hok a i) Hi), (proj2 (index_ids f Hok b j) Hj), andb_true_iff in Hs.
rewrite list_lookup_fmap in Hi. apply fmap_Some in Hi as (blk & Hblk & ->).
assert (Hf : flag (di_reachable info) i = true) by (apply (flag_spec f Hok Hent); eauto).
rewrite Hf in Hs. split.
- intros H. by apply Hs.
- intros H. apply Hs. split; [|done]. apply list_elem_of_fmap_2. by eapply list_elem_of_lookup_2.
Qed.

Lemma set_parent_spec i b p :
ids !! i = Some b -> reachable f b -> b <> entry f -> set_parent info i = Some p <-> immediate_dominator f p b.
Proof.
intros Hi Hr Hne.
set (cands := filter (fun idx => idx <> i /\ bit_is_set (row (di_doms info) i) idx = true) (seq 0 (length ids))).
assert (Hc : forall c, c ∈ cands <-> exists d, ids !! c = Some d /\ d <> b /\ dominates_path f d b).
{ intros c. unfold cands. rewrite list_elem_of_filter, elem_of_seq. split.
- intros [[Hci Hbit] [_ Hlt]]. destruct (lookup_lt_is_Some_2 ids c Hlt) as [d Hd]. exists d. split; [done|].
split; [intros ->; apply Hci; by eapply (ids_inj f Hok) | by apply (dom_bit i c b d)].
- intros (d & Hd & Hdb & Hdom). pose proof (lookup_lt_Some _ _ _ Hd). split; [|lia].
split; [intros ->; congruence | by apply (dom_bit i c b d)]. }
assert (Hbest : forall c, c ∈ cands ->
Forall (fun o => o = c \/ bit_is_set (row (di_doms info) c) o = true) cands <->
exists d, ids !! c = Some d /\ immediate_dominator f d b).
{ intros c (d & Hd & Hdb & Hdom)%Hc.
pose proof (dominates_reachable_l f d b Hdom) as Hrd. rewrite list.Forall_forall. split.
- intros Hall. exists d. split; [done|]. split_and!; [done | done |]. intros x Hx Hxb.
pose proof (strict_dominator_in f x b Hok Hent Hx Hxb) as Hin. apply list_elem_of_lookup in Hin as [o Ho].
destruct (Hall o) as [->|Hbit]; [apply Hc; eauto | simplify_eq; by apply dominates_refl |].
by apply (dom_bit c o d x).
- intros (d' & Hd' & _ & _ & Hmin) o (x & Hx & Hxb & Hxdom)%Hc. simplify_eq. right.
apply (dom_bit c o d x); [done..|]. by apply Hmin. }
unfold set_parent. change (di_blocks info) with ids. fold cands.
destruct (filter (fun c => Forall _ cands) cands) as [|c l] eqn:Ef; simpl.
- split; [done|]. intros Hp. exfalso. destruct Hp as (Hpb & Hpd & Hpm).
pose proof (strict_dominator_in f p b Hok Hent Hpd Hpb) as Hin. apply list_elem_of_lookup in Hin as [c Hcp].
assert (Hcc : c ∈ cands) by (apply Hc; eauto).
apply (not_elem_of_nil c). rewrite <- Ef. apply list_elem_of_filter. split; [|done].
apply Hbest; [done|]. exists p. done.
- assert (Hcf : c ∈ c :: l) by left. rewrite <- Ef in Hcf. apply list_elem_of_filter in Hcf as [Hall Hcc].
apply Hbest in Hall as (d & Hd & Himm); [|done]. rewrite Hd. split.
+ intros [= ->]. done.
+ intros Hp. f_equal. by eapply immediate_dominator_unique.
Qed.

Lemma from_sets_lookup b p :
compute_immediate_dominators_from_sets f !! b = Some p <->
b ∈ ids /\ reachable f b /\ b <> entry f /\ immediate_dominator f p b.
Proof.
unfold compute_immediate_dominators_from_sets.
rewrite (foldl_step_ext _ (fun m q => match (if bool_decide (block_id q.2 = entry f) || negb (flag (di_reachable info) q.1)
then None else set_parent info q.1) with Some parent => <[block_id q.2 := parent]> m | None => m end))
by (intros m q; by destruct (_ || _)).
rewrite (fold_collect (fun q => block_id q.2)) by (rewrite <- (block_ids_zip f); by apply block_ids_NoDup).
split.
- intros ([i blk] & Hin & <- & Hg). simpl in *. apply elem_of_zip_seq in Hin as [_ Hi]. rewrite Nat.sub_0_r in Hi.
destruct (bool_decide _) eqn:Ed; [done|]. destruct (flag _ i) eqn:Ef; [|done]. simpl in Hg.
apply bool_decide_eq_false in Ed. apply (flag_spec f Hok Hent) in Ef as (blk' & Hi' & Hr). simplify_eq.
assert (Hid : ids !! i = Some (block_id blk)) by (by rewrite list_lookup_fmap, Hi).
split; [by eapply list_elem_of_lookup_2|]. split; [done|]. split; [done|]. by apply (set_parent_spec i).
- intros (Hb & Hr & Hne & Himm). apply list_elem_of_fmap in Hb as (blk & -> & Hin).
apply list_elem_of_lookup in Hin as [i Hi]. exists (i, blk). cbn [fst snd]. split.
{ apply elem_of_zip_seq. rewrite Nat.sub_0_r. split; [lia | done]. }
split; [done|]. rewrite bool_decide_eq_false_2 by done.
assert (flag (di_reachable info) i = true) as -> by (apply (flag_spec f Hok Hent); eauto). simpl.
apply (set_parent_spec i (block_id blk)); [by rewrite list_lookup_fmap, Hi | done | done | done].
Qed.
End reference.

(** * Properties *)

(** C29: [compute_immediate_dominators] terminates without panicking on every function
    with a consistent block index, and its result is exact: the keys are the
    reachable blocks other than the entry, and the entry of a block is its unique
    closest strict dominator — a dominator of the block, dominated by all its
    others. *)
Theorem immediate_dominators_exact f :
  block_index_ok f ->
  exists m, compute_immediate_dominators f = Some m /\
    (forall b, is_Some (m !! b) <-> b ∈ (block_id <$> blocks f) /\ reachable f b /\ b <> entry f) /\
    (forall b p, b ∈ (block_id <$> blocks f) -> m !! b = Some p <-> immediate_dominator f p b).
Proof.
  intros Hok. destruct (idoms_spec f Hok) as (m & E & Hdom & Hval). exists m. split; [done|]. split; [done|].
  intros b p Hb. split; [intros H; by apply Hval|]. intros Himm.
  assert (Hne : b <> entry f).
  { intros ->. destruct Himm as (Hp & Hpd & _). by apply dominates_only_entry in Hpd. }
  destruct (proj2 (Hdom b)) as [q Hq]; [split; [done|]; split; [apply Himm | done]|].
  rewrite Hq. f_equal. eapply immediate_dominator_unique; [by apply Hval | done].
Qed.

Lemma immediate_dominators_exact_witness : immediate_dominator loop_fn 1 3.
Proof.
  destruct (immediate_dominators_exact loop_fn loop_fn_index) as (m & E & _ & H).
  apply H; [apply (bool_decide_unpack _); vm_compute; exact I|].
  rewrite (proj1 loop_fn_idoms) in E. injection E as <-. reflexivity.
Defined.

(** The direct Cooper–Harvey–Kennedy computation and the reference computation
    from full dominator bit sets return the same map. *)
Theorem immediate_dominators_reference f :
  block_index_ok f -> entry f ∈ (block_id <$> blocks f) ->
  compute_immediate_dominators f = Some (compute_immediate_dominators_from_sets f).
Proof.
  intros Hok Hent. destruct (idoms_spec f Hok) as (m & E & Hdom & Hval). rewrite E. f_equal. apply map_eq. intros b.
  apply option_eq. intros p. rewrite (from_sets_lookup f Hok Hent). split.
  - intros Hp. destruct (proj1 (Hdom b)) as (? & ? & ?); [by exists p|]. split_and!; [done..|]. by apply Hval.
  - intros (Hb & Hr & Hne & Himm). destruct (proj2 (Hdom b)) as [q Hq]; [done|]. rewrite Hq. f_equal.
    eapply immediate_dominator_unique; [by apply Hval | done].
Qed.

Lemma immediate_dominators_reference_witness :
  compute_immediate_dominators loop_fn = Some (compute_immediate_dominators_from_sets loop_fn).
Proof.
  apply immediate_dominators_reference; [exact loop_fn_index|]. apply (bool_decide_unpack _). vm_compute. exact I.
Defined.
