(* ===== verification/DomTree.v ===== *)
(** The dominator tree: children lists, the preorder walk that orders mem2reg's
    renaming, and the preorder intervals that answer dominance queries in
    constant time ([dominator_tree_children], [dominator_tree_preorder],
    [DominatorTreeIntervals], src/src/ir/walk.rs).

    The tree is the inverse of the immediate-dominator map; its descendants are
    exactly the dominated blocks. *)

From stdpp Require Import sorting.
From S2P Require Import Prelude BitSet Slices IrTypes IrInst Sample Worklist IrWalk Dominators Postorder Idoms IdomExact.

(** The inverse of the map, each list sorted by block number. *)
Definition dominator_tree_children (idoms : gmap BlockId BlockId) : gmap BlockId (list BlockId) :=
  merge_sort N.le <$>
    foldl (fun m cp => push_entry m cp.2 cp.1) (∅ : gmap BlockId (list BlockId)) (map_to_list idoms).

Definition kids_of (children : gmap BlockId (list BlockId)) (b : BlockId) : list BlockId := default [] (children !! b).

(** [while let Some(b) = stack.pop()]; pushing a list in reverse puts its first
    element on top. *)
Fixpoint preorder_loop (fuel : nat) (children : gmap BlockId (list BlockId)) (order stack : list BlockId)
    : option (list BlockId) :=
  match stack with
  | [] => Some order
  | b :: stack =>
      match fuel with
      | O => None
      | S fuel => preorder_loop fuel children (order ++ [b])
                    (foldl (fun st k => k :: st) stack (reverse (kids_of children b)))
      end
  end.

Definition dominator_tree_preorder (f : Function) : option (list BlockId) :=
  idoms ← compute_immediate_dominators f;
  preorder_loop (S (length (blocks f))) (dominator_tree_children idoms) [] [entry f].

(** [DominatorTreeIntervals::new]; a missing entry of [get_mut] is the panic of
    its [expect]. *)
Fixpoint interval_loop (fuel : nat) (children : gmap BlockId (list BlockId)) (clock : nat)
    (intervals : gmap BlockId (nat * nat)) (stack : list (BlockId * bool)) : option (gmap BlockId (nat * nat)) :=
  match stack with
  | [] => Some intervals
  | (b, exiting) :: stack =>
      match fuel with
      | O => None
      | S fuel =>
          if (exiting : bool) then
            iv ← intervals !! b;
            interval_loop fuel children (S clock) (<[b := (iv.1, clock)]> intervals) stack
          else
            interval_loop fuel children (S clock) (<[b := (clock, clock)]> intervals)
              (foldl (fun st k => (k, false) :: st) ((b, true) :: stack) (reverse (kids_of children b)))
      end
  end.

Definition dominator_tree_intervals (f : Function) : option (gmap BlockId (nat * nat)) :=
  match try_block f (entry f) with
  | None => Some ∅
  | Some _ =>
      idoms ← compute_immediate_dominators f;
      interval_loop (2 * S (length (blocks f))) (dominator_tree_children idoms) 0 ∅ [(entry f, false)]
  end.

(** [DominatorTreeIntervals::dominates]. *)
Definition interval_dominates (intervals : gmap BlockId (nat * nat)) (dominator block : BlockId) : bool :=
  match intervals !! dominator, intervals !! block with
  | Some (dom_enter, dom_exit), Some (block_enter, block_exit) =>
      (dom_enter <=? block_enter)%nat && (block_exit <=? dom_exit)%nat
  | _, _ => false
  end.

Example loop_fn_tree :
  dominator_tree_preorder loop_fn = Some [0; 1; 2; 3]%N /\
  dominator_tree_intervals loop_fn =
    Some {[ 0%N := (0, 7)%nat; 1%N := (1, 6)%nat; 2%N := (2, 3)%nat; 3%N := (4, 5)%nat ]}.
Proof. split; vm_compute; reflexivity. Qed.

(** * Children lists *)

Lemma fold_push_entries (l : list (BlockId * BlockId)) (m : gmap BlockId (list BlockId)) k :
  default [] (foldl (fun m cp => push_entry m cp.2 cp.1) m l !! k) =
  default [] (m !! k) ++ (fst <$> filter (fun cp => cp.2 = k) l).
Proof.
  revert m. induction l as [|[c p] l IH]; intros m; simpl; [by rewrite app_nil_r|].
  rewrite IH, filter_cons. unfold push_entry. cbn [fst snd]. case_decide as Hp.
  - subst k. rewrite lookup_insert_eq. simpl. by rewrite <- app_assoc.
  - by rewrite lookup_insert_ne.
Qed.

Lemma kids_of_spec idoms b :
  NoDup (kids_of (dominator_tree_children idoms) b) /\
  StronglySorted N.le (kids_of (dominator_tree_children idoms) b) /\
  forall c, c ∈ kids_of (dominator_tree_children idoms) b <-> idoms !! c = Some b.
Proof.
  set (l := fst <$> filter (fun cp : BlockId * BlockId => cp.2 = b) (map_to_list idoms)).
  assert (El : kids_of (dominator_tree_children idoms) b = merge_sort N.le l).
  { unfold kids_of, dominator_tree_children, l. rewrite lookup_fmap.
    pose proof (fold_push_entries (map_to_list idoms) ∅ b) as Hf. rewrite lookup_empty in Hf. simpl in Hf.
    rewrite <- Hf. by destruct (foldl _ ∅ _ !! b). }
  rewrite El. pose proof (merge_sort_Permutation N.le l) as Hperm.
  assert (Hl : forall c, c ∈ l <-> idoms !! c = Some b).
  { intros c. unfold l. rewrite list_elem_of_fmap. split.
    - intros ([c' p] & -> & [Hp Hin]%list_elem_of_filter). simpl in *. subst. by apply elem_of_map_to_list in Hin.
    - intros H. exists (c, b). split; [done|]. apply list_elem_of_filter. split; [done|]. by apply elem_of_map_to_list. }
  split; [|split].
  - rewrite Hperm. unfold l. apply (NoDup_fmap_fst).
    + intros x y1 y2 [E1 _]%list_elem_of_filter [E2 _]%list_elem_of_filter. simpl in *. congruence.
    + apply NoDup_filter, NoDup_map_to_list.
  - apply (Sorted_StronglySorted _). apply (Sorted_merge_sort _).
  - intros c. by rewrite Hperm.
Qed.

Lemma bind_ext_in {A B} (g h : A -> list B) (l : list A) : (forall x, x ∈ l -> g x = h x) -> l ≫= g = l ≫= h.
Proof.
  intros H. induction l as [|x l IH]; [done|]. rewrite !bind_cons, H by left. f_equal. apply IH.
  intros y Hy. apply H. by right.
Qed.

Lemma push_all {A B} (g : A -> B) (l : list A) (st : list B) : foldl (fun st k => g k :: st) st (reverse l) = (g <$> l) ++ st.
Proof.
  induction l as [|x l IH] using rev_ind in st |- *; [done|].
  rewrite reverse_snoc. simpl. rewrite IH, fmap_app, <- app_assoc. done.
Qed.

(** * The tree of a function *)

(** Blocks of the tree: those of the function that are reachable. *)
Definition node (f : Function) (b : BlockId) : Prop := b ∈ (block_id <$> blocks f) /\ reachable f b.

#[export] Instance node_dec f b : Decision (node f b).
Proof.
  refine (cast_if (decide (b ∈ (block_id <$> blocks f) /\ b ∈ reachable_blocks f)));
    unfold node; by rewrite <- reachable_blocks_spec.
Defined.

Section tree.
Context (f : Function) (Hok : block_index_ok f) (Hent : entry f ∈ (block_id <$> blocks f)).
Context (m : gmap BlockId BlockId).
Context (Hdom : forall b, is_Some (m !! b) <-> b ∈ (block_id <$> blocks f) /\ reachable f b /\ b <> entry f).
Context (Hval : forall b p, m !! b = Some p -> immediate_dominator f p b /\ p ∈ (block_id <$> blocks f)).

Local Abbreviation ids := (block_id <$> blocks f).
Local Abbreviation kids := (kids_of (dominator_tree_children m)).

Local Abbreviation node := (node f).

(** Downwards: from a block to one it is an ancestor of. *)
Definition below : BlockId -> BlockId -> Prop := rtc (fun p c => m !! c = Some p).

Definition rank (b : BlockId) : nat := size (dominator_set (compute_dominator_info f) b).

Lemma rank_set d b : d ∈ dominator_set (compute_dominator_info f) b <-> d ∈ ids /\ b ∈ ids /\ dominates_path f d b.
Proof.
rewrite (dominator_set_dominates f Hok). split.
- intros [Hd H]. by apply (dominates_spec f Hok Hent) in H.
- intros (Hd & H). split; [done|]. by apply (dominates_spec f Hok Hent).
Qed.

Lemma parent_node c p : m !! c = Some p -> node c /\ node p.
Proof.
intros Hc. destruct (proj1 (Hdom c)) as (? & ? & _); [by exists p|]. destruct (Hval c p Hc) as ((_ & Hp & _) & Hin).
split; [done|]. split; [done|]. by apply (dominates_reachable_l f p c).
Qed.

Lemma parent_rank c p : m !! c = Some p -> (rank p < rank c)%nat.
Proof.
intros Hc. destruct (parent_node c p Hc) as [[Hcin Hcr] [Hpin _]]. destruct (Hval c p Hc) as ((Hne & Hp & _) & _).
unfold rank. apply subset_size. split.
- intros d (Hd & _ & Hdp)%rank_set. apply rank_set. split; [done|]. split; [done|]. by eapply dominates_trans.
- intros Hsub. assert (Hcc : c ∈ dominator_set (compute_dominator_info f) c).
{ apply rank_set. split; [done|]. split; [done|]. by apply dominates_refl. }
apply Hsub, rank_set in Hcc as (_ & _ & Hcp). apply Hne. by apply (dominates_antisym f).
Qed.

Lemma rank_le b : (rank b <= length (blocks f))%nat.
Proof.
rewrite <- (length_fmap block_id). etrans; [|apply size_list_to_set_le]. unfold rank. apply subseteq_size.
intros d (Hd & _)%rank_set. by apply elem_of_list_to_set.
Qed.

Lemma below_rank x y : below x y -> (rank x <= rank y)%nat.
Proof. induction 1 as [|a b c Hab _ IH]; [done|]. apply parent_rank in Hab. lia. Qed.

Lemma below_node x y : node x -> below x y -> node y.
Proof. intros Hx. induction 1 as [|a b c Hab _ IH]; [done|]. apply IH. by apply (parent_node b a). Qed.

(** The tree is the dominance relation. *)
Lemma below_dominates x y : node y -> below x y <-> dominates_path f x y.
Proof.
intros Hy. split.
- intros H. revert Hy. induction H as [|x y z Hxy _ IH]; intros Hz.
+ apply dominates_refl, Hz.
+ eapply dominates_trans; [|by apply IH]. destruct (Hval _ _ Hxy) as ((_ & ? & _) & _). done.
- remember (rank y) as r eqn:Er. revert y Er Hy. induction (lt_wf r) as [r _ IH]. intros y -> [Hyi Hyr] Hd.
destruct (decide (x = y)) as [->|Hne]; [apply rtc_refl|].
assert (y <> entry f) by (intros ->; apply dominates_only_entry in Hd; done).
destruct (proj2 (Hdom y)) as [p Hp]; [done|]. destruct (Hval y p Hp) as ((_ & _ & Hmin) & _).
eapply rtc_r; [|exact Hp]. eapply IH; [by apply parent_rank | done | by apply (parent_node y) |]. by apply Hmin.
Qed.

Lemma kids_spec b c : c ∈ kids b <-> m !! c = Some b.
Proof. apply kids_of_spec. Qed.

(** ** Preorder listings *)

Fixpoint pre (h : nat) (b : BlockId) : list BlockId :=
match h with
| O => []
| S h => b :: (kids b ≫= pre h)
end.

Definition subtree (b : BlockId) : list BlockId := pre (S (length (blocks f) - rank b)) b.

Lemma pre_stable h b : (S (length (blocks f) - rank b) <= h)%nat -> pre h b = subtree b.
Proof.
revert b. induction (lt_wf h) as [h _ IH]. intros b Hh. destruct h as [|h]; [lia|].
unfold subtree. cbn [pre]. f_equal. apply bind_ext_in. intros k Hk%kids_spec.
apply parent_rank in Hk. pose proof (rank_le k). rewrite (IH h) by lia. symmetry. apply IH; lia.
Qed.

Lemma subtree_eq b : subtree b = b :: (kids b ≫= subtree).
Proof.
unfold subtree at 1. cbn [pre]. f_equal. apply bind_ext_in. intros k Hk%kids_spec.
apply parent_rank in Hk. pose proof (rank_le k). apply pre_stable. lia.
Qed.

(** Induction from the leaves. *)
Lemma tree_ind (Q : BlockId -> Prop) : (forall b, (forall k, m !! k = Some b -> Q k) -> Q b) -> forall b, Q b.
Proof.
intros Hstep b. remember (length (blocks f) - rank b)%nat as h eqn:Eh. revert b Eh.
induction (lt_wf h) as [h _ IH]. intros b ->. apply Hstep. intros k Hk.
apply parent_rank in Hk. pose proof (rank_le k). eapply IH; [|done]. lia.
Qed.

Lemma elem_of_subtree b x : x ∈ subtree b <-> below b x.
Proof.
revert x. induction b as [b IH] using tree_ind. intros x. rewrite subtree_eq, elem_of_cons, list_elem_of_bind. split.
- intros [->|(k & Hx & Hk%kids_spec)]; [apply rtc_refl|]. apply IH in Hx; [|done]. by eapply rtc_l.
- intros H. inversion H as [|? k ? Hk Hx]; subst; [by left|]. right. exists k. split; [by apply IH | by apply kids_spec].
Qed.

Lemma below_total a b y : node y -> below a y -> below b y -> below a b \/ below b a.
Proof.
intros Hy Ha. revert b. induction Ha as [|a c y Hac Hcy IH]; intros b Hb.
{ by right. }
destruct (IH Hy b Hb) as [Hcb|Hbc]; [left; by eapply rtc_l|].
apply rtc_inv_r in Hbc as [->|(p & Hbp & Hp)]; [left; by apply rtc_once|]. right. by simplify_eq.
Qed.

(** Subtrees of different children are disjoint. *)
Lemma siblings_disjoint b k1 k2 x :
m !! k1 = Some b -> m !! k2 = Some b -> below k1 x -> below k2 x -> k1 = k2.
Proof.
intros H1 H2 Hx1 Hx2.
assert (Hx : node x) by (eapply below_node; [|exact Hx1]; by apply (parent_node k1 b)).
assert (Hgo : forall k k', m !! k = Some b -> m !! k' = Some b -> below k k' -> k = k').
{ intros k k' Hk Hk' Hkk. apply rtc_inv_r in Hkk as [->|(p & Hkp & Hp)]; [done|]. simplify_eq.
apply below_rank in Hkp. apply parent_rank in Hk. lia. }
destruct (below_total k1 k2 x Hx Hx1 Hx2) as [H|H]; [by apply Hgo | symmetry; by apply Hgo].
Qed.

Lemma subtree_NoDup b : NoDup (subtree b).
Proof.
induction b as [b IH] using tree_ind. rewrite subtree_eq. apply list.NoDup_cons. split.
- intros (k & Hb & Hk%kids_spec)%list_elem_of_bind. apply elem_of_subtree, below_rank in Hb.
apply parent_rank in Hk. lia.
- apply NoDup_bind.
+ intros k1 k2 x Hk1%kids_spec Hk2%kids_spec Hx1%elem_of_subtree Hx2%elem_of_subtree.
by eapply (siblings_disjoint b).
+ intros k Hk%kids_spec. by apply IH.
+ apply kids_of_spec.
Qed.

Lemma entry_node : node (entry f).
Proof. split; [done | apply rtc_refl]. Qed.

Lemma elem_of_tree x : x ∈ subtree (entry f) <-> node x.
Proof.
rewrite elem_of_subtree. split; [apply below_node, entry_node|]. intros Hx. apply below_dominates; [done|].
apply dominates_entry, Hx.
Qed.

Lemma subtree_length : (length (subtree (entry f)) <= length (blocks f))%nat.
Proof.
rewrite <- (length_fmap block_id). apply submseteq_length, NoDup_submseteq; [apply subtree_NoDup|].
intros x [Hx _]%elem_of_tree. done.
Qed.

(** Ancestors come first. *)
Lemma subtree_order b x y : below b x -> below x y -> x <> y -> [x; y] `sublist_of` subtree b.
Proof.
revert x. induction b as [b IH] using tree_ind. intros x Hbx Hxy Hne. rewrite subtree_eq.
inversion Hbx as [|? k ? Hk Hkx]; subst.
- apply sublist_skip, singleton_sublist_l. assert (Hy : y ∈ subtree x) by (by apply elem_of_subtree).
rewrite subtree_eq in Hy. by apply elem_of_cons in Hy as [->|?].
- apply sublist_cons. etrans; [by apply (IH k)|]. apply kids_spec, list_elem_of_split in Hk as (l1 & l2 & ->).
rewrite bind_app, bind_cons. apply sublist_inserts_l, sublist_inserts_r. done.
Qed.

Lemma preorder_loop_spec fuel order stack :
(length (stack ≫= subtree) <= fuel)%nat ->
preorder_loop fuel (dominator_tree_children m) order stack = Some (order ++ (stack ≫= subtree)).
Proof.
revert order stack. induction fuel as [|fuel IH]; intros order [|b stack] Hf; cbn [preorder_loop].
1, 3: by rewrite app_nil_r.
{ rewrite bind_cons, subtree_eq in Hf. simpl in Hf. lia. }
rewrite bind_cons, subtree_eq in Hf. cbn [length app] in Hf. rewrite (push_all id), list_fmap_id.
rewrite IH by (rewrite bind_app; lia). rewrite bind_app, bind_cons, subtree_eq, <- !app_assoc. done.
Qed.

(** ** Intervals

[tour iv b c]: [iv] records the visit of the subtree of [b] entered at clock
[c]; intervals nest exactly along the tree. *)

Definition nested (iv : gmap BlockId (nat * nat)) (x y : BlockId) : Prop := interval_dominates iv x y = true.

Definition within (iv : gmap BlockId (nat * nat)) (x : BlockId) (lo hi : nat) : Prop :=
exists a z, iv !! x = Some (a, z) /\ (lo <= a)%nat /\ (a < z)%nat /\ (z < hi)%nat.

Record tour (iv iv' : gmap BlockId (nat * nat)) (xs : list BlockId) (lo hi : nat) : Prop := {
tour_other : forall x, x ∉ xs -> iv' !! x = iv !! x;
tour_within : forall x, x ∈ xs -> within iv' x lo hi;
tour_nested : forall x y, x ∈ xs -> y ∈ xs -> nested iv' x y <-> below x y }.

Lemma within_mono iv x lo hi lo' hi' : within iv x lo hi -> (lo' <= lo)%nat -> (hi <= hi')%nat -> within iv x lo' hi'.
Proof. intros (a & z & E & ? & ? & ?) ? ?. exists a, z. split; [done | lia]. Qed.

Lemma nested_ext iv iv' x y : iv' !! x = iv !! x -> iv' !! y = iv !! y -> nested iv' x y <-> nested iv x y.
Proof. intros Ex Ey. unfold nested, interval_dominates. by rewrite Ex, Ey. Qed.

Lemma within_ext iv iv' x lo hi : iv' !! x = iv !! x -> within iv' x lo hi <-> within iv x lo hi.
Proof. intros Ex. unfold within. by rewrite Ex. Qed.

(** Intervals over disjoint clock ranges do not nest. *)
Lemma within_disjoint iv x y lo mid hi : within iv x lo mid -> within iv y mid hi -> ~ nested iv x y /\ ~ nested iv y x.
Proof.
intros (a & z & Ex & ? & ? & ?) (a' & z' & Ey & ? & ? & ?). unfold nested, interval_dominates. rewrite Ex, Ey.
rewrite !andb_true_iff, !Nat.leb_le. lia.
Qed.

(** Two tours one after the other. *)
Lemma tour_app iv iv1 iv2 xs ys lo mid hi :
(lo <= mid <= hi)%nat -> (forall x, x ∈ xs -> x ∈ ys -> False) ->
(forall x y, x ∈ xs -> y ∈ ys -> ~ below x y /\ ~ below y x) ->
tour iv iv1 xs lo mid -> tour iv1 iv2 ys mid hi -> tour iv iv2 (xs ++ ys) lo hi.
Proof.
intros Hle Hdis Hnb [A1 A2 A3] [B1 B2 B3].
assert (Hx : forall x, x ∈ xs -> iv2 !! x = iv1 !! x).
{ intros x Hx. apply B1. intros Hy. by eapply Hdis. }
assert (Hw : forall x, x ∈ xs -> within iv2 x lo mid) by (intros x Hxs; apply (within_ext iv1); auto).
split.
- intros x [Hnx Hny]%not_elem_of_app. by rewrite B1, A1.
- intros x [Hxs|Hys]%elem_of_app; [eapply within_mono; [by apply Hw | lia | lia]|].
eapply within_mono; [by apply B2 | lia | lia].
- intros x y [Hxs|Hxs]%elem_of_app [Hys|Hys]%elem_of_app.
+ rewrite (nested_ext iv1) by auto. by apply A3.
+ destruct (within_disjoint iv2 x y lo mid hi) as [? ?]; [auto | auto |]. destruct (Hnb x y); tauto.
+ destruct (within_disjoint iv2 y x lo mid hi) as [? ?]; [auto | auto |]. destruct (Hnb y x); tauto.
+ by apply B3.
Qed.

(** The traversal of a block's subtree, in the middle of any other work. *)
Definition visits (b : BlockId) : Prop := forall lo iv, node b -> exists iv',
tour iv iv' (subtree b) lo (lo + 2 * length (subtree b)) /\
forall fuel stack, interval_loop (2 * length (subtree b) + fuel) (dominator_tree_children m) lo iv ((b, false) :: stack) =
interval_loop fuel (dominator_tree_children m) (lo + 2 * length (subtree b)) iv' stack.

Lemma visit_forest p (ks : list BlockId) lo iv :
(forall k, k ∈ ks -> m !! k = Some p) -> NoDup ks -> (forall k, k ∈ ks -> visits k) ->
exists iv', tour iv iv' (ks ≫= subtree) lo (lo + 2 * length (ks ≫= subtree)) /\
forall fuel stack, interval_loop (2 * length (ks ≫= subtree) + fuel) (dominator_tree_children m) lo iv
(((fun k => (k, false)) <$> ks) ++ stack) =
interval_loop fuel (dominator_tree_children m) (lo + 2 * length (ks ≫= subtree)) iv' stack.
Proof.
revert lo iv. induction ks as [|k ks IH]; intros lo iv Hp Hnd Hv.
{ exists iv. split; [|intros fuel stack; simpl; by rewrite Nat.add_0_r].
split; [done | intros x Hx | intros x y Hx]; by apply not_elem_of_nil in Hx. }
apply list.NoDup_cons in Hnd as [Hk Hnd]. pose proof (Hp k ltac:(left)) as Hkp.
destruct (Hv k ltac:(left) lo iv) as (iv1 & Ht1 & Hl1); [by apply (parent_node k p)|].
destruct (IH (lo + 2 * length (subtree k)) iv1)%nat as (iv2 & Ht2 & Hl2);
[intros; apply Hp; by right | done | intros; apply Hv; by right |].
rewrite bind_cons, length_app, Nat.mul_add_distr_l, Nat.add_assoc. exists iv2.
assert (Hdis : forall x y, x ∈ subtree k -> y ∈ ks ≫= subtree -> ~ below x y /\ ~ below y x).
{ intros x y Hx%elem_of_subtree (k' & Hy%elem_of_subtree & Hk')%list_elem_of_bind.
assert (Hkp' : m !! k' = Some p) by (apply Hp; by right).
split; intros H; apply Hk.
- assert (k = k') as ->; [|done]. apply (siblings_disjoint p k k' y); [done | done | by etrans | done].
- assert (k = k') as ->; [|done]. apply (siblings_disjoint p k k' x); [done | done | done | by etrans]. }
split.
- eapply tour_app; [| |exact Hdis | exact Ht1 | exact Ht2]; [lia|].
intros x Hx Hy. destruct (Hdis x x Hx Hy) as [Hn _]. apply Hn. apply rtc_refl.
- intros fuel stack. rewrite <- Nat.add_assoc, fmap_cons. cbn [app]. rewrite Hl1. apply Hl2.
Qed.

Lemma visits_all b : visits b.
Proof.
induction b as [b IH] using tree_ind. intros lo iv Hb.
assert (Hbf : b ∉ kids b ≫= subtree).
{ pose proof (subtree_NoDup b) as Hnd. rewrite subtree_eq in Hnd. by apply list.NoDup_cons in Hnd as [? _]. }
destruct (visit_forest b (kids b) (S lo) (<[b := (lo, lo)]> iv)) as (iv2 & Ht & Hl).
{ intros k. apply kids_spec. } { apply kids_of_spec. } { intros k Hk%kids_spec. by apply IH. }
rewrite subtree_eq. cbn [length]. set (F := kids b ≫= subtree) in *.
exists (<[b := (lo, S lo + 2 * length F)%nat]> iv2).
assert (Hb2 : iv2 !! b = Some (lo, lo)) by (rewrite (tour_other _ _ _ _ _ Ht) by done; apply lookup_insert_eq).
assert (Hne : forall x, x ∈ F -> x <> b) by (intros x Hx ->; done).
split; [split|].
- intros x [Hxb Hx]%not_elem_of_cons. rewrite lookup_insert_ne, (tour_other _ _ _ _ _ Ht), lookup_insert_ne by done. done.
- intros x [->|Hx]%elem_of_cons.
+ exists lo, (S lo + 2 * length F)%nat. rewrite lookup_insert_eq. split; [done | lia].
+ apply (within_ext iv2); [apply lookup_insert_ne; by apply not_eq_sym, Hne|].
eapply within_mono; [by apply (tour_within _ _ _ _ _ Ht) | lia | lia].
- assert (Hup : forall x, x ∈ F -> below b x /\ ~ below x b).
{ intros x Hx. assert (Hbx : below b x) by (apply elem_of_subtree; rewrite subtree_eq; by right).
split; [done|]. intros Hxb. inversion Hbx as [|? k ? Hk Hkx]; subst; [done|].
apply below_rank in Hkx. apply below_rank in Hxb. apply parent_rank in Hk. lia. }
assert (HF : forall x, x ∈ F -> exists a z, iv2 !! x = Some (a, z) /\ (S lo <= a)%nat /\ (z < S lo + 2 * length F)%nat).
{ intros x Hx. destruct (tour_within _ _ _ _ _ Ht x Hx) as (a & z & Ex & ? & ? & ?). exists a, z. split; [done | lia]. }
intros x y [->|Hx]%elem_of_cons [->|Hy]%elem_of_cons.
+ unfold nested, interval_dominates. rewrite lookup_insert_eq, !Nat.leb_refl. split; [intros _; apply rtc_refl | done].
+ destruct (HF y Hy) as (a & z & Ey & ? & ?). unfold nested, interval_dominates.
rewrite lookup_insert_eq, lookup_insert_ne, Ey, andb_true_iff, !Nat.leb_le by (by apply not_eq_sym, Hne).
split; [intros _; by apply Hup | lia].
+ destruct (HF x Hx) as (a & z & Ex & ? & ?). unfold nested, interval_dominates.
rewrite lookup_insert_eq, lookup_insert_ne, Ex, andb_true_iff, !Nat.leb_le by (by apply not_eq_sym, Hne).
split; [lia | intros H'; by apply Hup in H'].
+ rewrite (nested_ext iv2) by (apply lookup_insert_ne; by apply not_eq_sym, Hne).
by apply (tour_nested _ _ _ _ _ Ht).
- intros fuel stack. replace (2 * S (length F) + fuel)%nat with (S (2 * length F + S fuel)) by lia.
cbn [interval_loop]. rewrite (push_all (fun k => (k, false))), Hl. cbn [interval_loop]. rewrite Hb2. simpl.
f_equal. lia.
Qed.

Lemma interval_loop_run :
exists iv, interval_loop (2 * S (length (blocks f))) (dominator_tree_children m) 0 ∅ [(entry f, false)] = Some iv /\
(forall x, ~ node x -> iv !! x = None) /\
forall x y, node x -> node y -> interval_dominates iv x y = true <-> dominates_path f x y.
Proof.
destruct (visits_all (entry f) 0 ∅ entry_node) as (iv & Ht & Hl). exists iv. split.
- pose proof subtree_length as Hlen.
replace (2 * S (length (blocks f)))%nat with (2 * length (subtree (entry f)) +
(2 * S (length (blocks f)) - 2 * length (subtree (entry f))))%nat by lia.
rewrite Hl. destruct (_ - _)%nat; done.
- split.
+ intros x Hx. rewrite (tour_other _ _ _ _ _ Ht); [apply lookup_empty|]. by rewrite elem_of_tree.
+ intros x y Hx Hy. rewrite <- (below_dominates x y Hy). apply (tour_nested _ _ _ _ _ Ht); by apply elem_of_tree.
Qed.
End tree.

Lemma dominates_true_path f d b :
  block_index_ok f -> entry f ∈ (block_id <$> blocks f) ->
  dominates (compute_dominator_info f) d b = true ->
  d ∈ (block_id <$> blocks f) /\ b ∈ (block_id <$> blocks f) /\ dominates_path f d b.
Proof.
  intros Hok Hent H. assert (Hd : d ∈ (block_id <$> blocks f)).
  { apply (index_is_Some f Hok). unfold dominates in H.
    change (di_index (compute_dominator_info f)) with (index_of (block_id <$> blocks f)) in H.
    destruct (index_of (block_id <$> blocks f) !! d); [by eexists | done]. }
  split; [done|]. by apply (dominates_spec f Hok Hent).
Qed.

(** The interval test agrees with the bit-set test. *)
Lemma intervals_spec f :
  block_index_ok f -> entry f ∈ (block_id <$> blocks f) ->
  exists iv, dominator_tree_intervals f = Some iv /\
    forall d b, interval_dominates iv d b = dominates (compute_dominator_info f) d b.
Proof.
  intros Hok Hent. destruct (idoms_spec f Hok) as (m & E & Hdom & Hval).
  destruct (interval_loop_run f Hok Hent m Hdom Hval) as (iv & El & Hno & Hiv).
  exists iv. unfold dominator_tree_intervals. split.
  - destruct (try_block f (entry f)) as [blk|] eqn:Et; [by rewrite E|]. by apply try_block_None in Et.
  - intros d b. apply Bool.eq_iff_eq_true. split.
    + intros H. destruct (decide (node f d)) as [Hd|Hd].
      2:{ unfold interval_dominates in H. by rewrite (Hno d Hd) in H. }
      destruct (decide (node f b)) as [Hb|Hb].
      2:{ unfold interval_dominates in H. rewrite (Hno b Hb) in H. by destruct (iv !! d) as [[? ?]|]. }
      apply (dominates_spec f Hok Hent); [apply Hd|]. split; [apply Hb | by apply Hiv].
    + intros (Hd & Hb & Hdom')%(dominates_true_path f d b Hok Hent). apply Hiv; [|split|done].
      * split; [done | by eapply dominates_reachable_l].
      * done.
      * apply Hdom'.
Qed.

(** * Properties *)

(** The preorder walk of the dominator tree terminates and lists every reachable
    block of the function exactly once, each block after all of its strict
    dominators: the order in which a renaming walk may rely on the values of
    dominating blocks. *)
Theorem dominator_tree_preorder_correct f :
  block_index_ok f -> entry f ∈ (block_id <$> blocks f) ->
  exists order, dominator_tree_preorder f = Some order /\ NoDup order /\
    (forall b, b ∈ order <-> b ∈ (block_id <$> blocks f) /\ reachable f b) /\
    (forall d b, b ∈ (block_id <$> blocks f) -> dominates_path f d b -> d <> b -> [d; b] `sublist_of` order).
Proof.
  intros Hok Hent. destruct (idoms_spec f Hok) as (m & E & Hdom & Hval).
  exists (subtree f m (entry f)). unfold dominator_tree_preorder. rewrite E. cbn [mbind option_bind].
  rewrite (preorder_loop_spec f Hok Hent m Hdom Hval).
  2:{ rewrite bind_cons, app_nil_r. pose proof (subtree_length f Hok Hent m Hdom Hval). lia. }
  rewrite bind_cons, app_nil_r. split; [done|]. split; [by apply subtree_NoDup|].
  split; [intros b; by apply elem_of_tree|]. intros d b Hb Hd Hne.
  assert (Hnb : node f b) by (split; [done | apply Hd]).
  assert (Hnd : node f d) by (split; [by eapply strict_dominator_in | by eapply dominates_reachable_l]).
  apply subtree_order; [done.. | | | done].
  - apply (below_dominates f Hok Hent m Hdom Hval); [done|]. apply dominates_entry, Hnd.
  - by apply (below_dominates f Hok Hent m Hdom Hval).
Qed.

Lemma dominator_tree_preorder_correct_witness :
  exists order, dominator_tree_preorder loop_fn = Some order /\ NoDup order.
Proof.
  destruct (dominator_tree_preorder_correct loop_fn loop_fn_index) as (order & E & Hnd & _).
  - apply (bool_decide_unpack _). vm_compute. exact I.
  - by exists order.
Defined.

(** C30: The preorder intervals of the dominator tree answer dominance queries exactly
    as the bit-set solver does: building them terminates without panicking, and
    for every pair of identifiers, known or not, the interval test and the
    bit-set test agree. *)
Theorem interval_dominance_equiv f :
  block_index_ok f -> entry f ∈ (block_id <$> blocks f) ->
  exists iv, dominator_tree_intervals f = Some iv /\
    forall d b, interval_dominates iv d b = dominates (compute_dominator_info f) d b.
Proof. apply intervals_spec. Qed.

Lemma interval_dominance_equiv_witness :
  exists iv, dominator_tree_intervals loop_fn = Some iv /\ interval_dominates iv 1 3 = true.
Proof.
  destruct (interval_dominance_equiv loop_fn loop_fn_index) as (iv & E & H).
  - apply (bool_decide_unpack _). vm_compute. exact I.
  - exists iv. split; [done|]. rewrite H. vm_compute. reflexivity.
Defined.
