(* ===== verification/NaturalLoops.v ===== *)
(** Natural loops ([find_natural_loops], src/src/ir/walk.rs): back edges by the
    dominator-tree intervals, grouped by header, and for each header the blocks
    that reach a latch without passing through it. *)

From stdpp Require Import sorting.
From S2P Require Import Prelude BitSet Slices IrTypes IrInst Sample Worklist IrWalk Dominators Postorder Idoms IdomExact DomTree.

Record NaturalLoop := { nl_header : BlockId; nl_body : gset BlockId; nl_latches : list BlockId }.

(** [for block in &func.blocks { for tgt in terminator_targets(term) { .. } }] *)
Definition back_edges (f : Function) (dominators : gmap BlockId (nat * nat)) : list (BlockId * BlockId) :=
  blocks f ≫= fun block =>
    (fun tgt => (block_id block, tgt)) <$>
      filter (fun tgt => interval_dominates dominators tgt (block_id block) = true) (block_targets block).

(** The body of [for &p in plist]. *)
Definition absorb (header : BlockId) (st : gset BlockId * list BlockId) (p : BlockId) : gset BlockId * list BlockId :=
  if decide (p = header) then st
  else if decide (p ∈ st.1) then st
  else ({[p]} ∪ st.1, p :: st.2).

(** [while let Some(b) = stack.pop()] *)
Fixpoint body_loop (fuel : nat) (preds : gmap BlockId (list BlockId)) (header : BlockId)
    (body : gset BlockId) (stack : list BlockId) : option (gset BlockId) :=
  match stack with
  | [] => Some body
  | b :: stack =>
      match fuel with
      | O => None
      | S fuel => let '(body', stack') := foldl (absorb header) (body, stack) (default [] (preds !! b)) in
                  body_loop fuel preds header body' stack'
      end
  end.

(** One header; [None] is the panic of [by_header.remove(&header).unwrap()].
    A block is pushed once per latch and once when it enters the body. *)
Definition loop_of_header (f : Function) (preds : gmap BlockId (list BlockId))
    (st : gmap BlockId (list BlockId) * list NaturalLoop) (header : BlockId)
    : option (gmap BlockId (list BlockId) * list NaturalLoop) :=
  let '(by_header, loops) := st in
  removed ← by_header !! header;
  let latches := merge_sort N.le removed in
  body ← body_loop (length latches + length (blocks f)) preds header
           (list_to_set latches ∪ {[header]}) (reverse (filter (fun l => l <> header) latches));
  Some (delete header by_header, loops ++ [{| nl_header := header; nl_body := body; nl_latches := latches |}]).

Definition find_natural_loops (f : Function) : option (list NaturalLoop) :=
  dominators ← dominator_tree_intervals f;
  let preds := predecessors f in
  let by_header := foldl (fun m e => push_entry m e.2 e.1) (∅ : gmap BlockId (list BlockId)) (back_edges f dominators) in
  let headers := merge_sort N.le (fst <$> map_to_list by_header) in
  snd <$> foldM (loop_of_header f preds) headers (by_header, []).

Example loop_fn_loops :
  find_natural_loops loop_fn = Some [{| nl_header := 1; nl_body := {[1%N; 2%N]}; nl_latches := [2%N] |}].
Proof. vm_compute. reflexivity. Qed.

(** * Predecessor lists *)

Lemma fold_targets_pred (ts : list BlockId) (x : BlockId) (m : gmap BlockId (list BlockId)) t :
  default [] (foldl (fun m t => push_entry m t x) m ts !! t) =
  default [] (m !! t) ++ ((fun _ => x) <$> filter (fun t' => t' = t) ts).
Proof.
  revert m. induction ts as [|y ts IH]; intros m; simpl; [by rewrite app_nil_r|].
  rewrite IH, filter_cons. unfold push_entry. case_decide as Hy.
  - subst y. rewrite lookup_insert_eq. simpl. by rewrite <- app_assoc.
  - by rewrite lookup_insert_ne.
Qed.

(** The predecessors of a block in block order, one entry per edge. *)
Lemma predecessors_list f t :
  default [] (predecessors f !! t) =
  blocks f ≫= fun b => (fun _ => block_id b) <$> filter (fun t' => t' = t) (block_targets b).
Proof.
  unfold predecessors.
  assert (Hinit : default [] (foldl (fun m b => <[block_id b := default [] (m !! block_id b)]> m)
    (∅ : gmap BlockId (list BlockId)) (blocks f) !! t) = []).
  { assert (Hg : forall l (m : gmap BlockId (list BlockId)), default [] (m !! t) = [] ->
      default [] (foldl (fun m b => <[block_id b := default [] (m !! block_id b)]> m) m l !! t) = []).
    { intros l. induction l as [|b l IH]; intros m Hm; [done|]. simpl. apply IH.
      destruct (decide (block_id b = t)) as [->|Hne]; [by rewrite lookup_insert_eq, Hm | by rewrite lookup_insert_ne]. }
    apply Hg. by rewrite lookup_empty. }
  revert Hinit. generalize (foldl (fun m b => <[block_id b := default [] (m !! block_id b)]> m) (∅ : gmap BlockId (list BlockId)) (blocks f)).
  intros m0 Hinit.
  assert (Hg : forall l m, default [] (foldl (fun m b => foldl (fun m t => push_entry m t (block_id b)) m (block_targets b)) m l !! t) =
    default [] (m !! t) ++ (l ≫= fun b => (fun _ => block_id b) <$> filter (fun t' => t' = t) (block_targets b))).
  { intros l. induction l as [|b l IH]; intros m; [by rewrite app_nil_r|]. cbn [foldl].
    by rewrite IH, fold_targets_pred, bind_cons, <- app_assoc. }
  by rewrite Hg, Hinit.
Qed.

Lemma elem_of_predecessors f t x : block_index_ok f -> x ∈ default [] (predecessors f !! t) <-> cfg_edge f x t.
Proof.
  intros Hok. rewrite predecessors_list, list_elem_of_bind, cfg_edge_iff by done. split.
  - intros (b & (t' & -> & [-> Ht]%list_elem_of_filter)%list_elem_of_fmap & Hb). by exists b.
  - intros (b & Hb & <- & Ht). exists b. split; [|done]. apply list_elem_of_fmap. exists t.
    split; [done|]. by apply list_elem_of_filter.
Qed.

(** * Bodies *)

(** An edge of the loop body, away from the header. *)
Definition loop_edge (f : Function) (h a b : BlockId) : Prop := cfg_edge f a b /\ a <> h /\ b <> h.

Lemma absorb_spec header ps body stack :
  let '(body', stack') := foldl (absorb header) (body, stack) ps in
  exists new, stack' = new ++ stack /\ NoDup new /\
    (forall x, x ∈ new <-> x ∈ ps /\ x <> header /\ x ∉ body) /\
    (forall x, x ∈ body' <-> x ∈ body \/ x ∈ new).
Proof.
  revert body stack. induction ps as [|p ps IH]; intros body stack; cbn [foldl].
  { exists []. split; [done|]. split; [constructor|]. set_solver. }
  unfold absorb at 2. case_decide as Hp; [|case_decide as Hb; cbn [fst snd] in *].
  - specialize (IH body stack). destruct (foldl _ _ ps) as [body' stack'].
    destruct IH as (new & -> & Hnd & Hn & Hb'). exists new. split; [done|]. split; [done|]. split; [|done]. set_solver.
  - specialize (IH body stack). destruct (foldl _ _ ps) as [body' stack'].
    destruct IH as (new & -> & Hnd & Hn & Hb'). exists new. split; [done|]. split; [done|]. split; [|done]. set_solver.
  - specialize (IH ({[p]} ∪ body) (p :: stack)). destruct (foldl _ _ ps) as [body' stack'].
    destruct IH as (new & -> & Hnd & Hn & Hb'). exists (new ++ [p]). rewrite <- app_assoc. split; [done|]. split.
    + apply list.NoDup_app. split; [done|]. split; [|apply NoDup_singleton].
      intros x Hx ->%list_elem_of_singleton. apply Hn in Hx. set_solver.
    + split; [|set_solver]. intros x. rewrite elem_of_app, Hn, list_elem_of_singleton.
      destruct (decide (x = p)) as [->|]; set_solver.
Qed.

Section body.
Context (f : Function) (Hok : block_index_ok f) (h : BlockId) (seeds : list BlockId).

Definition in_body (x : BlockId) : Prop := x = h \/ exists l, l ∈ seeds /\ rtc (loop_edge f h) x l.

Record body_inv (body : gset BlockId) (stack : list BlockId) : Prop := {
bi_sound : forall x, x ∈ body -> in_body x;
bi_seeds : forall l, l ∈ seeds -> l ∈ body;
bi_header : h ∈ body;
bi_stack : forall x, x ∈ stack -> x ∈ body /\ x <> h;
bi_closed : forall x p, x ∈ body -> x <> h -> x ∉ stack -> cfg_edge f p x -> p <> h -> p ∈ body }.

Lemma body_inv_step body b stack :
body_inv body (b :: stack) ->
let '(body', stack') := foldl (absorb h) (body, stack) (default [] (predecessors f !! b)) in body_inv body' stack'.
Proof.
intros [H1 H2 H3 H4 H5]. pose proof (absorb_spec h (default [] (predecessors f !! b)) body stack) as Ha.
destruct (foldl (absorb h) (body, stack) _) as [body' stack']. destruct Ha as (new & -> & _ & Hn & Hb').
destruct (H4 b) as [Hb Hbh]; [left|]. split.
- intros x [Hx|Hx]%Hb'; [by apply H1|]. apply Hn in Hx as (Hp & Hxh & _).
apply (elem_of_predecessors f b x Hok) in Hp. destruct (H1 b Hb) as [->|(l & Hl & Hr)]; [done|].
right. exists l. split; [done|]. by eapply rtc_l.
- intros l Hl. apply Hb'. left. by apply H2.
- apply Hb'. by left.
- intros x [Hx|Hx]%elem_of_app.
+ split; [apply Hb'; by right | by apply Hn in Hx as (_ & ? & _)].
+ destruct (H4 x) as [? ?]; [by right|]. split; [apply Hb'; by left | done].
- intros x p Hx Hxh Hxs Hpx Hph. apply Hb'. apply not_elem_of_app in Hxs as [Hxn Hxs].
apply Hb' in Hx as [Hx|Hx]; [|done]. destruct (decide (x = b)) as [->|Hxb].
+ destruct (decide (p ∈ body)) as [?|Hpb]; [by left|]. right. apply Hn. split; [|done].
by apply (elem_of_predecessors f b p Hok).
+ left. apply (H5 x); [done | done | | done | done]. by apply not_elem_of_cons.
Qed.

Lemma body_inv_done body : body_inv body [] -> forall x, x ∈ body <-> in_body x.
Proof.
intros [H1 H2 H3 H4 H5] x. split; [apply H1|]. intros [->|(l & Hl & Hr)]; [done|].
induction Hr as [|x y l (Hxy & Hx & Hy) _ IH]; [by apply H2|].
apply (H5 y); [by apply IH | done | apply not_elem_of_nil | done | done].
Qed.

(** Fuel: what is on the stack, and the blocks not yet in the body. *)
Lemma body_loop_spec fuel body stack :
body_inv body stack ->
(length stack + size ((list_to_set (block_id <$> blocks f) : gset BlockId) ∖ body) <= fuel)%nat ->
exists body', body_loop fuel (predecessors f) h body stack = Some body' /\ forall x, x ∈ body' <-> in_body x.
Proof.
revert body stack. induction fuel as [|fuel IH]; intros body [|b stack] Hinv Hf; simpl in Hf.
1, 3: exists body; split; [done | by apply body_inv_done].
{ lia. }
cbn [body_loop]. pose proof (body_inv_step body b stack Hinv) as Hinv'.
pose proof (absorb_spec h (default [] (predecessors f !! b)) body stack) as Ha.
destruct (foldl (absorb h) (body, stack) _) as [body' stack']. destruct Ha as (new & -> & Hnd & Hn & Hb').
apply IH; [done|]. rewrite length_app.
assert (Hsub : list_to_set new ⊆ (list_to_set (block_id <$> blocks f) : gset BlockId) ∖ body).
{ intros x Hx%elem_of_list_to_set. apply Hn in Hx as (Hp & _ & Hxb). apply elem_of_difference. split; [|done].
apply elem_of_list_to_set. apply (elem_of_predecessors f b x Hok) in Hp. by eapply edge_source. }
assert (Eb : (list_to_set (block_id <$> blocks f) : gset BlockId) ∖ body' =
((list_to_set (block_id <$> blocks f) : gset BlockId) ∖ body) ∖ list_to_set new).
{ apply set_eq. intros x. rewrite !elem_of_difference, !elem_of_list_to_set, Hb'. tauto. }
rewrite Eb, size_difference, size_list_to_set by done. pose proof (subseteq_size _ _ Hsub) as Hsz.
rewrite size_list_to_set in Hsz by done. lia.
Qed.

Lemma body_inv_init :
body_inv (list_to_set seeds ∪ {[h]}) (reverse (filter (fun l => l <> h) seeds)).
Proof.
split.
- intros x [Hx%elem_of_list_to_set|Hx%elem_of_singleton]%elem_of_union; [right; exists x; split; [done | apply rtc_refl] | by left].
- intros l Hl. apply elem_of_union. left. by apply elem_of_list_to_set.
- set_solver.
- intros x Hx. rewrite elem_of_reverse, list_elem_of_filter in Hx. destruct Hx as [Hxh Hx].
split; [|done]. apply elem_of_union. left. by apply elem_of_list_to_set.
- intros x p Hx Hxh Hxs. destruct Hxs. rewrite elem_of_reverse, list_elem_of_filter. split; [done|].
apply elem_of_union in Hx as [Hx%elem_of_list_to_set|Hx%elem_of_singleton]; done.
Qed.

Lemma body_run :
exists body, body_loop (length seeds + length (blocks f)) (predecessors f) h
(list_to_set seeds ∪ {[h]}) (reverse (filter (fun l => l <> h) seeds)) = Some body /\
forall x, x ∈ body <-> in_body x.
Proof.
apply body_loop_spec; [apply body_inv_init|]. rewrite length_reverse.
pose proof (length_filter (fun l => l <> h) seeds) as Hl. apply Nat.add_le_mono; [done|].
rewrite <- (length_fmap block_id (blocks f)). etrans; [|apply size_list_to_set_le]. apply subseteq_size. set_solver.
Qed.

(** A header that dominates the latches dominates every reachable block of the body. *)
Lemma in_body_dominated x :
(forall l, l ∈ seeds -> dominates_path f h l) -> in_body x -> reachable f x -> dominates_path f h x.
Proof.
intros Hl Hx Hr. split; [done|]. intros Hav.
destruct Hx as [->|(l & Hin & Hp)]; [by apply avoids_ne in Hav|]. apply (Hl l Hin). clear Hr.
induction Hp as [|x y l (Hxy & _ & Hy) _ IH]; [done|]. apply IH; [done|]. by eapply avoids_step.
Qed.
End body.

(** * All loops *)

Section loops.
Context (f : Function) (Hok : block_index_ok f) (Hent : entry f ∈ (block_id <$> blocks f)).

Definition back_edge (l h : BlockId) : Prop := cfg_edge f l h /\ dominates_path f h l.

(** What is expected of the loop of a header. *)
Record loop_ok (L : NaturalLoop) : Prop := {
lo_latches : forall l, l ∈ nl_latches L <-> back_edge l (nl_header L);
lo_sorted : StronglySorted N.le (nl_latches L);
lo_body : forall x, x ∈ nl_body L <-> in_body f (nl_header L) (nl_latches L) x }.

Lemma loop_of_header_spec by_header loops h ls :
by_header !! h = Some ls -> (forall l, l ∈ ls <-> back_edge l h) ->
exists L, loop_of_header f (predecessors f) (by_header, loops) h = Some (delete h by_header, loops ++ [L]) /\
nl_header L = h /\ loop_ok L.
Proof.
intros Hh Hls. unfold loop_of_header. rewrite Hh. cbn [mbind option_bind].
destruct (body_run f Hok h (merge_sort N.le ls)) as (body & -> & Hb). cbn [mbind option_bind].
eexists. split; [done|]. split; [done|]. split; simpl; [| |done].
- intros l. by rewrite merge_sort_Permutation.
- apply (Sorted_StronglySorted _), (Sorted_merge_sort _).
Qed.

Lemma loops_of_headers hs by_header loops :
NoDup hs -> (forall h, h ∈ hs -> exists ls, by_header !! h = Some ls /\ forall l, l ∈ ls <-> back_edge l h) ->
exists m' new, foldM (loop_of_header f (predecessors f)) hs (by_header, loops) = Some (m', loops ++ new) /\
nl_header <$> new = hs /\ Forall loop_ok new.
Proof.
revert by_header loops. induction hs as [|h hs IH]; intros by_header loops Hnd Hhs; cbn [foldM].
{ exists by_header, []. rewrite app_nil_r. split; [done|]. split; [done | constructor]. }
apply list.NoDup_cons in Hnd as [Hh Hnd]. destruct (Hhs h) as (ls & Hls & Hl); [left|].
destruct (loop_of_header_spec by_header loops h ls Hls Hl) as (L & -> & HLh & HL). cbn [mbind option_bind].
destruct (IH (delete h by_header) (loops ++ [L])) as (m' & new & E & Hn & Hok'); [done | |].
- intros h' Hh'. rewrite lookup_delete_ne by (intros ->; done). apply Hhs. by right.
- exists m', (L :: new). rewrite E, <- app_assoc. split; [done|]. split; [by rewrite fmap_cons, HLh, Hn | by constructor].
Qed.

(** Grouping the back edges by header. *)
Lemma by_header_lookup iv h :
(forall d b, interval_dominates iv d b = dominates (compute_dominator_info f) d b) ->
forall l, l ∈ default [] (foldl (fun m e => push_entry m e.2 e.1) (∅ : gmap BlockId (list BlockId)) (back_edges f iv) !! h) <->
back_edge l h.
Proof.
intros Hiv l. rewrite fold_push_entries, lookup_empty. simpl. unfold back_edge, back_edges.
rewrite list_elem_of_fmap. split.
- intros ([l' h'] & -> & [<- Hin]%list_elem_of_filter). cbn [fst snd] in *.
apply list_elem_of_bind in Hin as (b & Hin & Hb).
apply list_elem_of_fmap in Hin as (t & [= -> ->] & [Hd Ht]%list_elem_of_filter).
split; [apply cfg_edge_iff; [done|]; by exists b|]. rewrite Hiv in Hd.
by apply (dominates_true_path f t (block_id b) Hok Hent).
- intros [He Hd]. exists (l, h). split; [done|]. apply list_elem_of_filter. split; [done|].
pose proof (edge_source f Hok _ _ He) as Hl. apply cfg_edge_iff in He as (b & Hb & <- & Ht); [|done].
apply list_elem_of_bind. exists b. split; [|done]. apply list_elem_of_fmap. exists h. split; [done|].
apply list_elem_of_filter. split; [|done]. rewrite Hiv. apply (dominates_spec f Hok Hent); [|done].
destruct (decide (h = block_id b)) as [->|Hne]; [done | by eapply strict_dominator_in].
Qed.
End loops.

Lemma push_entries_nonempty (l : list (BlockId * BlockId)) (m : gmap BlockId (list BlockId)) h v :
  (forall h v, m !! h = Some v -> v <> []) ->
  foldl (fun m e => push_entry m e.2 e.1) m l !! h = Some v -> v <> [].
Proof.
  revert m. induction l as [|[c p] l IH]; intros m Hm; cbn [foldl]; [apply Hm|]. apply IH.
  intros h' v'. unfold push_entry. cbn [fst snd]. destruct (decide (p = h')) as [->|Hne].
  - rewrite lookup_insert_eq. intros [= <-]. by destruct (default [] _).
  - rewrite lookup_insert_ne by done. apply Hm.
Qed.

Lemma sorted_strict (l : list N) : StronglySorted N.le l -> NoDup l -> StronglySorted N.lt l.
Proof.
  induction 1 as [|x l Hs IH Hx]; intros Hnd; constructor; apply list.NoDup_cons in Hnd as [Hxl Hnd]; [by apply IH|].
  rewrite list.Forall_forall in *. intros y Hy. specialize (Hx y Hy).
  assert (x <> y) by (intros ->; done). lia.
Qed.

(** The loops found: one per header, in increasing order. *)
Lemma natural_loops_found f :
  block_index_ok f -> entry f ∈ (block_id <$> blocks f) ->
  exists loops, find_natural_loops f = Some loops /\ StronglySorted N.lt (nl_header <$> loops) /\
    (forall h, h ∈ (nl_header <$> loops) <-> exists l, back_edge f l h) /\ Forall (loop_ok f) loops.
Proof.
  intros Hok Hent. destruct (intervals_spec f Hok Hent) as (iv & Ei & Hiv).
  unfold find_natural_loops. rewrite Ei. cbn [mbind option_bind].
  pose proof (by_header_lookup f Hok Hent iv) as Hby.
  set (bh := foldl _ ∅ (back_edges f iv)) in *. set (hs := merge_sort N.le (fst <$> map_to_list bh)).
  assert (Hhs : forall h, h ∈ hs <-> is_Some (bh !! h)).
  { intros h. unfold hs. rewrite merge_sort_Permutation, list_elem_of_fmap. split.
    - intros ([k v] & -> & Hin%elem_of_map_to_list). by exists v.
    - intros [v Hv]. exists (h, v). split; [done|]. by apply elem_of_map_to_list. }
  assert (Hnd : NoDup hs) by (unfold hs; rewrite merge_sort_Permutation; apply NoDup_fst_map_to_list).
  assert (Hls : forall h, h ∈ hs -> exists ls, bh !! h = Some ls /\ forall l, l ∈ ls <-> back_edge f l h).
  { intros h [ls Hls]%Hhs. exists ls. split; [done|]. intros l. rewrite <- (Hby h Hiv l), Hls. done. }
  destruct (loops_of_headers f Hok hs bh [] Hnd Hls) as (m' & loops & -> & Eh & Hall).
  exists loops. split; [done|]. rewrite Eh. split; [|split; [|done]].
  - apply sorted_strict; [|done]. apply (Sorted_StronglySorted _), (Sorted_merge_sort _).
  - intros h. split.
    + intros Hin. destruct (Hls h Hin) as (ls & Hl & Hbe). destruct ls as [|l ls].
      * by destruct (push_entries_nonempty (back_edges f iv) ∅ h [] ltac:(intros ? ?; by rewrite lookup_empty)).
      * exists l. apply Hbe. left.
    + intros [l Hl]. apply Hhs. apply (Hby h Hiv) in Hl. destruct (bh !! h); [by eexists | by apply not_elem_of_nil in Hl].
Qed.

(** * Properties *)

(** C31: [find_natural_loops] terminates without panicking and finds exactly the
    natural loops: the headers, in strictly increasing order, are the targets of
    back edges (edges whose target dominates their source); a loop's latches are
    the sources of the back edges into its header; its body is the header and the
    blocks with a path to a latch that avoids the header; and the header dominates
    every reachable block of the body. *)
Theorem natural_loops_exact f :
  block_index_ok f -> entry f ∈ (block_id <$> blocks f) ->
  exists loops, find_natural_loops f = Some loops /\
    StronglySorted N.lt (nl_header <$> loops) /\
    (forall h, h ∈ (nl_header <$> loops) <-> exists l, back_edge f l h) /\
    forall L, L ∈ loops -> loop_ok f L /\
      forall x, x ∈ nl_body L -> reachable f x -> dominates_path f (nl_header L) x.
Proof.
  intros Hok Hent. destruct (natural_loops_found f Hok Hent) as (loops & E & Hs & Hh & Hall). exists loops.
  split; [done|]. split; [done|]. split; [done|]. intros L HL. rewrite list.Forall_forall in Hall.
  pose proof (Hall L HL) as HokL. split; [done|].
  intros x Hx. apply (in_body_dominated f (nl_header L) (nl_latches L)).
  - intros l Hl. by apply (lo_latches f L HokL).
  - by apply (lo_body f L HokL).
Qed.

Lemma natural_loops_exact_witness : dominates_path loop_fn 1 2.
Proof.
  destruct (natural_loops_exact loop_fn loop_fn_index) as (loops & E & _ & _ & H).
  - apply (bool_decide_unpack _). vm_compute. exact I.
  - rewrite loop_fn_loops in E. injection E as <-.
    destruct (H {| nl_header := 1; nl_body := {[1%N; 2%N]}; nl_latches := [2%N] |}) as [_ Hb]; [left|].
    apply (Hb 2%N); [set_solver|]. apply reachable_blocks_spec. apply (bool_decide_unpack _). vm_compute. exact I.
Defined.
