(* ===== verification/DomFrontiers.v ===== *)
(** Dominance frontiers ([compute_dominance_frontiers], src/src/ir/walk.rs): for
    each join block, a runner climbs the dominator tree from every predecessor up
    to the join's immediate dominator. *)

From S2P Require Import Prelude BitSet Slices IrTypes IrInst Sample Worklist IrWalk Dominators Postorder Idoms IdomExact DomTree NaturalLoops.
Local Open Scope string_scope.
Local Open Scope list_scope.

(** [while Some(runner) != idom_x { .. }] *)
Fixpoint runner_loop (fuel : nat) (idoms : gmap BlockId BlockId) (idom_x : option BlockId) (x runner : BlockId)
    (df : gmap BlockId (gset BlockId)) : option (gmap BlockId (gset BlockId)) :=
  match fuel with
  | O => None
  | S fuel =>
      if decide (Some runner = idom_x) then Some df
      else
        let df' := <[runner := {[x]} ∪ default ∅ (df !! runner)]> df in
        match idoms !! runner with
        | Some parent => runner_loop fuel idoms idom_x x parent df'
        | None => Some df'
        end
  end.

(** The body of the second [for block in &func.blocks]. *)
Definition frontier_step (f : Function) (idoms : gmap BlockId BlockId) (reached : gset BlockId)
    (df : gmap BlockId (gset BlockId)) (block : BasicBlock) : option (gmap BlockId (gset BlockId)) :=
  let x := block_id block in
  if decide (x ∈ reached) then
    let plist := filter (fun p => p ∈ reached) (default [] (predecessors f !! x)) in
    if (length plist <? 2)%nat then Some df
    else foldM (fun df p => runner_loop (S (length (blocks f))) idoms (idoms !! x) x p df) plist df
  else Some df.

Definition compute_dominance_frontiers (f : Function) : option (gmap BlockId (gset BlockId)) :=
  idoms ← compute_immediate_dominators f;
  let reached : gset BlockId := dom idoms ∪ {[entry f]} in
  let df0 := foldl (fun (df : gmap BlockId (gset BlockId)) b =>
               if decide (block_id b ∈ reached) then <[block_id b := ∅]> df else df) ∅ (blocks f) in
  foldM (frontier_step f idoms reached) (blocks f) df0.

(** The definition in the documentation: [b] dominates a predecessor of [x] but
    does not strictly dominate [x]. *)
Definition in_frontier (f : Function) (b x : BlockId) : Prop :=
  (exists p, cfg_edge f p x /\ dominates_path f b p) /\ ~ (b <> x /\ dominates_path f b x).

(** Reachable predecessors, one per edge. *)
Definition live_preds (f : Function) (x : BlockId) : list BlockId :=
  filter (fun p => node f p) (default [] (predecessors f !! x)).

(** Two arms that meet again. *)
Definition diamond_fn : Function :=
  mk_fn "diamond" [{| param_name := "c"; param_ty := TBool; param_id := 0; fortran_noalias := false |}] Void
    [mk_block 0 "entry" [] [] (CondBranch 0 1 [] 2 []); mk_block 1 "then" [] [] (Branch 3 []);
     mk_block 2 "else" [] [] (Branch 3 []); mk_block 3 "join" [] [] (Return None)] 1.

Example diamond_frontiers :
  compute_dominance_frontiers diamond_fn = Some {[ 0%N := ∅; 1%N := {[3%N]}; 2%N := {[3%N]}; 3%N := ∅ ]}.
Proof. vm_compute. reflexivity. Qed.

Lemma dominator_node f d b :
  block_index_ok f -> entry f ∈ (block_id <$> blocks f) -> b ∈ (block_id <$> blocks f) ->
  dominates_path f d b -> node f d.
Proof.
  intros Hok Hent Hb Hd. split; [|by eapply dominates_reachable_l].
  destruct (decide (d = b)) as [->|Hne]; [done | by eapply strict_dominator_in].
Qed.

(** * The single-predecessor case *)

(** Before its first visit, a path to a block avoids it. *)
Lemma first_arrival f x : reachable f x -> x <> entry f -> exists a, avoids f x a /\ cfg_edge f a x.
Proof.
  intros Hr Hne.
  assert (Hor : forall y, reachable f y -> (exists a, avoids f x a /\ cfg_edge f a x) \/ avoids f x y).
  { apply (rtc_ind_r (fun y => (exists a, avoids f x a /\ cfg_edge f a x) \/ avoids f x y)).
    - right. by constructor.
    - intros y z _ He [?|Ha]; [by left|]. destruct (decide (z = x)) as [->|Hz]; [left; by exists y | right; by eapply avoids_step]. }
  destruct (Hor x Hr) as [?|Ha]; [done | by apply avoids_ne in Ha].
Qed.

(** A block other than the entry with one reachable predecessor is in no frontier. *)
Lemma single_pred_no_frontier f x b :
  block_index_ok f -> node f x -> x <> entry f -> (length (live_preds f x) < 2)%nat -> ~ in_frontier f b x.
Proof.
  intros Hok [_ Hr] Hne Hlen [(q & Hq & Hbq) Hns].
  assert (Hlive : forall a, cfg_edge f a x -> reachable f a -> a ∈ live_preds f x).
  { intros a Ha Hra. apply list_elem_of_filter. split; [split; [by eapply edge_source | done]|].
    by apply (elem_of_predecessors f x a Hok). }
  assert (Huniq : forall a, cfg_edge f a x -> reachable f a -> a = q).
  { intros a Ha Hra. pose proof (Hlive a Ha Hra) as Hal. pose proof (Hlive q Hq (proj1 Hbq)) as Hql.
    destruct (live_preds f x) as [|p [|p' l]]; simpl in Hlen; [by apply not_elem_of_nil in Hal | | lia].
    apply list_elem_of_singleton in Hal, Hql. congruence. }
  apply Hns. split.
  - intros ->. destruct (first_arrival f x Hr Hne) as (a & Hav & Ha). apply Hbq.
    by rewrite <- (Huniq a Ha (avoids_reachable _ _ _ Hav)).
  - split; [done|]. intros Hav. inversion Hav as [|a y Ha He]; subst; [done|].
    apply Hbq. by rewrite <- (Huniq a He (avoids_reachable _ _ _ Ha)).
Qed.

(** * Runners *)

Section frontiers.
Context (f : Function) (Hok : block_index_ok f) (Hent : entry f ∈ (block_id <$> blocks f)).
Context (m : gmap BlockId BlockId).
Context (Hdom : forall b, is_Some (m !! b) <-> b ∈ (block_id <$> blocks f) /\ reachable f b /\ b <> entry f).
Context (Hval : forall b p, m !! b = Some p -> immediate_dominator f p b /\ p ∈ (block_id <$> blocks f)).

Local Abbreviation below := (below m).

(** The ancestors of [r] strictly below the stopping point. *)
Definition climbed (stop : option BlockId) (r b : BlockId) : Prop :=
below b r /\ match stop with Some i => ~ below b i | None => True end.

(** [df'] is [df] with [x] added to the frontiers of the blocks in [S]. *)
Definition adds (x : BlockId) (S : BlockId -> Prop) (df df' : gmap BlockId (gset BlockId)) : Prop :=
(forall b, is_Some (df !! b) -> is_Some (df' !! b)) /\
(forall b, is_Some (df' !! b) -> is_Some (df !! b) \/ S b) /\
(forall b y, y ∈ default ∅ (df' !! b) <-> y ∈ default ∅ (df !! b) \/ (y = x /\ S b)).

Lemma adds_trans x S1 S2 S df1 df2 df3 :
(forall b, S b <-> S1 b \/ S2 b) -> adds x S1 df1 df2 -> adds x S2 df2 df3 -> adds x S df1 df3.
Proof.
intros HS (A1 & A2 & A3) (B1 & B2 & B3). split; [auto|]. split.
- intros b [H|H]%B2; [apply A2 in H as [?|?]; [by left|]|]; right; apply HS; auto.
- intros b y. rewrite B3, A3, HS. tauto.
Qed.

Lemma adds_one x r df : adds x (fun b => b = r) df (<[r := {[x]} ∪ default ∅ (df !! r)]> df).
Proof.
split; [|split].
- intros b Hb. destruct (decide (r = b)) as [->|Hne]; [rewrite lookup_insert_eq; by eexists | by rewrite lookup_insert_ne].
- intros b Hb. destruct (decide (r = b)) as [->|Hne]; [by right|]. rewrite lookup_insert_ne in Hb by done. by left.
- intros b y. destruct (decide (r = b)) as [->|Hne].
+ rewrite lookup_insert_eq. simpl. set_solver.
+ rewrite lookup_insert_ne by done. split; [by left | intros [?|[_ ?]]; [done | congruence]].
Qed.

Lemma adds_none x (S : BlockId -> Prop) df : (forall b, ~ S b) -> adds x S df df.
Proof. intros HS. split; [done|]. split; [by left|]. intros b y. split; [by left|]. intros [?|[_ H]]; [done | by apply HS in H]. Qed.

Lemma runner_loop_spec fuel stop x r df :
node f r -> (rank f r < fuel)%nat -> (forall i, stop = Some i -> below i r) ->
exists df', runner_loop fuel m stop x r df = Some df' /\ adds x (climbed stop r) df df'.
Proof.
revert r df. induction fuel as [|fuel IH]; intros r df Hr Hf Hstop; [lia|].
cbn [runner_loop]. case_decide as Hs.
{ exists df. split; [done|]. apply adds_none. intros b. subst stop. unfold climbed. tauto. }
assert (Hnot : match stop with Some i => ~ below r i | None => True end).
{ destruct stop as [i|]; [|done]. specialize (Hstop i eq_refl). intros Hri.
apply rtc_inv_r in Hstop as [->|(p & Hip & Hp)]; [done|].
apply (below_rank f Hok Hent m Hdom Hval) in Hip. apply (below_rank f Hok Hent m Hdom Hval) in Hri.
apply (parent_rank f Hok Hent m Hdom Hval) in Hp. lia. }
destruct (m !! r) as [p|] eqn:Ep.
- pose proof (parent_rank f Hok Hent m Hdom Hval r p Ep) as Hrank.
destruct (IH p (<[r := {[x]} ∪ default ∅ (df !! r)]> df)) as (df' & E & Ha).
+ by apply (parent_node f m Hdom Hval r p).
+ lia.
+ intros i ->. specialize (Hstop i eq_refl). apply rtc_inv_r in Hstop as [->|(q & Hiq & Hq)]; [done|]. by simplify_eq.
+ exists df'. split; [done|]. eapply adds_trans; [|apply adds_one|exact Ha]. intros b. unfold climbed. split.
* intros [Hb Hn]. apply rtc_inv_r in Hb as [->|(q & Hbq & Hq)]; [by left|]. right. by simplify_eq.
* intros [->|[Hb Hn]]; [split; [apply rtc_refl | done]|]. split; [by eapply rtc_r | done].
- exists (<[r := {[x]} ∪ default ∅ (df !! r)]> df). split; [done|].
eapply adds_trans; [|apply adds_one|apply (adds_none x (fun _ => False)); tauto].
intros b. unfold climbed. split.
+ intros [Hb Hn]. apply rtc_inv_r in Hb as [->|(q & Hbq & Hq)]; [by left | congruence].
+ intros [->|[]]. split; [apply rtc_refl | done].
Qed.

Lemma runners_spec stop x ps df :
(forall p, p ∈ ps -> node f p) -> (forall p i, p ∈ ps -> stop = Some i -> below i p) ->
exists df', foldM (fun df p => runner_loop (S (length (blocks f))) m stop x p df) ps df = Some df' /\
adds x (fun b => exists p, p ∈ ps /\ climbed stop p b) df df'.
Proof.
revert df. induction ps as [|p ps IH]; intros df Hn Hs; cbn [foldM].
{ exists df. split; [done|]. apply adds_none. intros b (p & Hp & _). by apply not_elem_of_nil in Hp. }
destruct (runner_loop_spec (S (length (blocks f))) stop x p df) as (df1 & -> & H1).
- apply Hn. left.
- pose proof (rank_le f Hok Hent p). lia.
- intros i. apply Hs. left.
- cbn [mbind option_bind]. destruct (IH df1) as (df2 & E & H2).
+ intros q Hq. apply Hn. by right.
+ intros q i Hq. apply Hs. by right.
+ exists df2. split; [done|]. eapply adds_trans; [|exact H1|exact H2]. intros b. split.
* intros (q & [->|Hq]%elem_of_cons & Hc); [by left | right; by exists q].
* intros [Hc|(q & Hq & Hc)]; [exists p; split; [left | done] | exists q; split; [by right | done]].
Qed.

(** The runners of a block are its frontier predecessors. *)
Lemma climbed_frontier x b :
node f x -> (exists p, p ∈ live_preds f x /\ climbed (m !! x) p b) <-> in_frontier f b x.
Proof.
intros Hx. unfold in_frontier, climbed.
assert (Hstrict : match m !! x with Some i => ~ below b i | None => True end <-> ~ (b <> x /\ dominates_path f b x)).
{ destruct (m !! x) as [i|] eqn:Ei.
- destruct (Hval x i Ei) as ((Hix & Hid & Hmin) & Hin). destruct (parent_node f m Hdom Hval x i Ei) as [_ Hni].
rewrite (below_dominates f Hok Hent m Hdom Hval b i Hni). split; intros Hn Hc; apply Hn.
+ destruct Hc as [Hbx Hc]. by apply Hmin.
+ split; [|by eapply dominates_trans]. intros ->. apply Hix. by apply (dominates_antisym f).
- split; [|done]. intros _ [Hbx Hc]. assert (x = entry f) as ->.
{ destruct (decide (x = entry f)) as [|Hne]; [done|]. destruct (proj2 (Hdom x)) as [? ?]; [|congruence].
by destruct Hx. }
by apply dominates_only_entry in Hc. }
rewrite <- Hstrict. split.
- intros (p & [Hp Hpx]%list_elem_of_filter & Hb & Hn). split; [|done]. exists p.
split; [by apply (elem_of_predecessors f x p Hok) | by apply (below_dominates f Hok Hent m Hdom Hval)].
- intros [(p & Hp & Hb) Hn]. assert (Hnp : node f p) by (split; [by eapply edge_source | apply Hb]).
exists p. split; [apply list_elem_of_filter; split; [done | by apply (elem_of_predecessors f x p Hok)]|].
split; [by apply (below_dominates f Hok Hent m Hdom Hval) | done].
Qed.

Local Abbreviation reached := (dom m ∪ {[entry f]} : gset BlockId).

Lemma elem_of_reached b : b ∈ reached <-> node f b.
Proof.
rewrite elem_of_union, elem_of_dom, Hdom, elem_of_singleton. split.
- intros [(? & ? & _)| ->]; [done | by apply entry_node].
- intros [Hb Hr]. destruct (decide (b = entry f)); [by right | by left].
Qed.

Definition joins (x b : BlockId) : Prop := node f x /\ (2 <= length (live_preds f x))%nat /\ in_frontier f b x.

Lemma frontier_step_spec df blk :
exists df', frontier_step f m reached df blk = Some df' /\ adds (block_id blk) (joins (block_id blk)) df df'.
Proof.
unfold frontier_step. set (x := block_id blk). case_decide as Hx.
2:{ exists df. split; [done|]. apply adds_none. intros b (Hn & _). by apply Hx, elem_of_reached. }
apply elem_of_reached in Hx.
assert (filter (fun p => p ∈ reached) (default [] (predecessors f !! x)) = live_preds f x) as ->.
{ apply list_filter_iff. intros p. apply elem_of_reached. }
destruct (Nat.ltb_spec (length (live_preds f x)) 2) as [Hl|Hl].
{ exists df. split; [done|]. apply adds_none. intros b (_ & H & _). lia. }
destruct (runners_spec (m !! x) x (live_preds f x) df) as (df' & E & Ha).
- intros p Hp. by apply list_elem_of_filter in Hp as [? _].
- intros p i [Hp Hpx]%list_elem_of_filter Hi. destruct (Hval x i Hi) as ((Hix & Hid & _) & _).
apply (below_dominates f Hok Hent m Hdom Hval); [done|]. apply (dominates_pred f i p x); [done | apply Hp | | done].
by apply (elem_of_predecessors f x p Hok).
- exists df'. split; [done|]. destruct Ha as (A1 & A2 & A3).
assert (HS : forall b, joins x b <-> exists p, p ∈ live_preds f x /\ climbed (m !! x) p b).
{ intros b. rewrite (climbed_frontier x b Hx). unfold joins. tauto. }
split; [done|]. split; [intros b H; rewrite HS; by apply A2 | intros b y; by rewrite A3, HS].
Qed.

Lemma frontier_fold_spec (l : list BasicBlock) df :
exists df', foldM (frontier_step f m reached) l df = Some df' /\
(forall b, is_Some (df !! b) -> is_Some (df' !! b)) /\
(forall b, is_Some (df' !! b) -> is_Some (df !! b) \/ node f b) /\
forall b y, y ∈ default ∅ (df' !! b) <-> y ∈ default ∅ (df !! b) \/ (y ∈ (block_id <$> l) /\ joins y b).
Proof.
revert df. induction l as [|blk l IH]; intros df; cbn [foldM].
{ exists df. split; [done|]. split; [done|]. split; [by left|]. intros b y. split; [by left|].
intros [?|[H _]]; [done | by apply not_elem_of_nil in H]. }
destruct (frontier_step_spec df blk) as (df1 & -> & A1 & A2 & A3). cbn [mbind option_bind].
destruct (IH df1) as (df2 & E & B1 & B2 & B3). exists df2. split; [done|]. split; [auto|]. split.
- intros b [H|H]%B2; [|by right]. apply A2 in H as [?|(_ & _ & (p & Hp & Hbp) & _)]; [by left|]. right.
eapply dominator_node; [done | done | by eapply edge_source | done].
- intros b y. rewrite B3, A3, fmap_cons, elem_of_cons. naive_solver.
Qed.

(** Empty frontiers for the reachable blocks. *)
Lemma initial_frontiers_spec (l : list BasicBlock) (df : gmap BlockId (gset BlockId)) b :
let df' := foldl (fun (df : gmap BlockId (gset BlockId)) b =>
if decide (block_id b ∈ reached) then <[block_id b := ∅]> df else df) df l in
default ∅ (df !! b) = ∅ -> default ∅ (df' !! b) = ∅ /\
(is_Some (df' !! b) <-> is_Some (df !! b) \/ (b ∈ (block_id <$> l) /\ node f b)).
Proof.
revert df. induction l as [|blk l IH]; intros df; cbn [foldl]; intros Hd.
{ split; [done|]. split; [by left | intros [?|[H _]]; [done | by apply not_elem_of_nil in H]]. }
case_decide as Hr.
- destruct (decide (block_id blk = b)) as [Hb|Hb].
+ destruct (IH (<[block_id blk := ∅]> df)) as [H1 H2]; [by rewrite Hb, lookup_insert_eq|]. split; [done|].
rewrite H2, Hb, lookup_insert_eq, fmap_cons, elem_of_cons, Hb. apply elem_of_reached in Hr. rewrite Hb in Hr.
split; [intros _; right; split; [by left | done] | intros _; left; by eexists].
+ destruct (IH (<[block_id blk := ∅]> df)) as [H1 H2]; [by rewrite lookup_insert_ne|]. split; [done|].
rewrite H2, lookup_insert_ne, fmap_cons, elem_of_cons by done. naive_solver.
- destruct (IH df Hd) as [H1 H2]. split; [done|]. rewrite H2, fmap_cons, elem_of_cons.
assert (~ node f (block_id blk)) by (by rewrite <- elem_of_reached). naive_solver.
Qed.
End frontiers.

(** * Properties *)

(** C32: [compute_dominance_frontiers] terminates without panicking; its keys are the
    reachable blocks, and the frontier of a block is exactly what its documentation
    defines — the blocks [x] such that the block dominates a predecessor of [x] but
    not strictly [x] itself — for every [x] other than an entry block with fewer
    than two reachable incoming edges, which is in no frontier. *)
Theorem dominance_frontiers_exact f :
  block_index_ok f -> entry f ∈ (block_id <$> blocks f) ->
  exists df, compute_dominance_frontiers f = Some df /\
    (forall b, is_Some (df !! b) <-> node f b) /\
    forall b x, x ∈ default ∅ (df !! b) <->
      x ∈ (block_id <$> blocks f) /\ in_frontier f b x /\ (x = entry f -> 2 <= length (live_preds f x))%nat.
Proof.
  intros Hok Hent. destruct (idoms_spec f Hok) as (m & E & Hdom & Hval).
  unfold compute_dominance_frontiers. rewrite E. cbn [mbind option_bind].
  destruct (frontier_fold_spec f Hok Hent m Hdom Hval (blocks f)
    (foldl (fun (df : gmap BlockId (gset BlockId)) b =>
       if decide (block_id b ∈ (dom m ∪ {[entry f]} : gset BlockId)) then <[block_id b := ∅]> df else df) ∅ (blocks f)))
    as (df & Ef & H1 & H2 & H3).
  pose proof (fun b => initial_frontiers_spec f Hent m Hdom Hval (blocks f) ∅ b) as Hinit.
  exists df. split; [done|]. split.
  - intros b. specialize (Hinit b). rewrite lookup_empty in Hinit. destruct (Hinit eq_refl) as [_ Hi]. split.
    + intros [H|H]%H2; [|done]. apply Hi in H as [[? ?]|[_ ?]]; done.
    + intros Hb. apply H1, Hi. right. split; [apply Hb | done].
  - intros b x. specialize (Hinit b). rewrite lookup_empty in Hinit. destruct (Hinit eq_refl) as [Hi _].
    rewrite H3, Hi. split.
    + intros [Hx|(Hx & Hn & Hl & Hfr)]; [by apply not_elem_of_empty in Hx|]. split; [done|]. split; [done | by intros _].
    + intros (Hx & Hfr & Hl). right. split; [done|].
      assert (Hn : node f x).
      { split; [done|]. destruct Hfr as [(p & Hp & Hbp) _]. eapply rtc_r; [apply Hbp | done]. }
      split; [done|]. split; [|done]. destruct (decide (x = entry f)) as [|Hne]; [by apply Hl|].
      destruct (decide (2 <= length (live_preds f x))%nat) as [|Hlt]; [done|].
      destruct (single_pred_no_frontier f x b Hok Hn Hne ltac:(lia) Hfr).
Qed.

Lemma dominance_frontiers_exact_witness : in_frontier diamond_fn 1 3.
Proof.
  destruct (dominance_frontiers_exact diamond_fn) as (df & E & _ & H).
  - apply index_okb_sound. vm_compute. reflexivity.
  - apply (bool_decide_unpack _). vm_compute. exact I.
  - apply H. rewrite diamond_frontiers in E. injection E as <-. set_solver.
Defined.

(** A loop back to the entry block: the entry dominates its only predecessor and
    does not strictly dominate itself, but the frontiers are empty. *)
Definition entry_loop_fn : Function :=
  mk_fn "spin" [{| param_name := "c"; param_ty := TBool; param_id := 0; fortran_noalias := false |}] Void
    [mk_block 0 "entry" [] [] (CondBranch 0 0 [] 1 []); mk_block 1 "exit" [] [] (Return None)] 1.

Example entry_back_edge_frontier :
  in_frontier entry_loop_fn 0 0 /\ compute_dominance_frontiers entry_loop_fn = Some {[ 0%N := ∅; 1%N := ∅ ]}.
Proof.
  split; [|vm_compute; reflexivity]. split; [|by intros [? _]]. exists 0%N. split.
  - apply cfg_edge_iff; [apply index_okb_sound; vm_compute; reflexivity|].
    eexists. split; [left|]. split; [done|]. simpl. left.
  - apply dominates_refl. apply rtc_refl.
Qed.
