(* ===== verification/Ssa.v ===== *)
(** SSA well-formedness and the run-time invariant it buys.

    [ssa_wf] is what [verify_function] (src/src/ir/verify.rs) guarantees and what
    the optimizer passes rely on: unique definitions, uses dominated by their
    definitions, branch arguments matching block parameters.  The section [runtime]
    proves that under it every state an execution reaches satisfies
    [env_ok]: available values are bound, and each available pure instruction
    still satisfies its defining equation. *)

From S2P Require Import Prelude IrTypes IrInst Worklist IrWalk Floats IrSem Dominators.

(** * Definition sites *)

Definition param_ids (f : Function) : list ValueId := param_id <$> fn_params f.
Definition bparam_ids (b : BasicBlock) : list ValueId := bp_id <$> block_params b.
Definition inst_ids (b : BasicBlock) : list ValueId := inst_id <$> block_insts b.
Definition def_ids (b : BasicBlock) : list ValueId := bparam_ids b ++ inst_ids b.
Definition fn_def_ids (f : Function) : list ValueId := param_ids f ++ (blocks f ≫= def_ids).

Lemma block_defs_ids b : (block_defs b).*1 = def_ids b.
Proof. unfold block_defs, def_ids, bparam_ids, inst_ids. by rewrite fmap_app, <- !list_fmap_compose. Qed.

Lemma fmap_bind {A B C} (g : B -> C) (h : A -> list B) (l : list A) :
  g <$> (l ≫= h) = l ≫= (fun x => g <$> h x).
Proof. induction l as [|x l IH]; [done|]. by rewrite !bind_cons, fmap_app, IH. Qed.

Lemma all_defs_ids f : (all_defs f).*1 = fn_def_ids f.
Proof.
  unfold all_defs, fn_def_ids, param_ids. rewrite fmap_app. f_equal; [by rewrite <- list_fmap_compose|].
  rewrite fmap_bind. apply list_bind_ext; [|done]. intros b. apply block_defs_ids.
Qed.

(** What a pass collects by a walk over all instructions. *)
Lemma collect_insts_spec {A} (g : Inst -> option A) bs (m : gmap ValueId A) v c :
  foldl (fun m b =>
    foldl (fun m i => match g i with Some c => <[inst_id i := c]> m | None => m end) m (block_insts b)) m bs !! v = Some c ->
  m !! v = Some c \/ exists b i, b ∈ bs /\ i ∈ block_insts b /\ inst_id i = v /\ g i = Some c.
Proof.
  assert (Hi : forall (il : list Inst) (m : gmap ValueId A),
    foldl (fun m i => match g i with Some c => <[inst_id i := c]> m | None => m end) m il !! v = Some c ->
    m !! v = Some c \/ exists i, i ∈ il /\ inst_id i = v /\ g i = Some c).
  { induction il as [|i il IH]; intros m' H; [by left|]. simpl in H. apply IH in H as [H|(j & Hj & H)].
    - destruct (g i) as [c'|] eqn:E; [|by left].
      apply lookup_insert_Some in H as [[<- <-]|[_ H]]; [|by left]. right. exists i. split; [left | done].
    - right. exists j. split; [by right | done]. }
  revert m. induction bs as [|b bs IH]; intros m H; [by left|]. simpl in H. apply IH in H as [H|(b' & j & Hb' & H)].
  - apply Hi in H as [H|(j & Hj & H)]; [by left|]. right. exists b, j. split; [left | done].
  - right. exists b', j. split; [by right | done].
Qed.

(** [avail f b i v]: the definition of [v] comes before position [i] of block [b]. *)
Definition avail (f : Function) (b : BasicBlock) (i : nat) (v : ValueId) : Prop :=
  v ∈ param_ids f \/ v ∈ bparam_ids b \/ v ∈ take i (inst_ids b) \/
  exists b', b' ∈ blocks f /\ block_id b' <> block_id b /\ v ∈ def_ids b' /\
    dominates_path f (block_id b') (block_id b).

(** Branch arguments fit the parameters of every possible destination. *)
Definition args_fit (f : Function) (d : BlockId) (n : nat) : Prop :=
  forall b, b ∈ blocks f -> block_id b = d -> length (block_params b) = n.

Definition term_fits (f : Function) (t : Terminator) : Prop :=
  match t with
  | Branch d args => args_fit f d (length args)
  | CondBranch _ td ta fd fa => args_fit f td (length ta) /\ args_fit f fd (length fa)
  | Switch _ cases d => args_fit f d 0 /\ Forall (fun c => args_fit f c.2 0) cases
  | Return _ | Unreachable => True
  end.

Record ssa_wf (f : Function) : Prop := {
  wf_index : block_index_ok f;
  wf_entry : entry f ∈ (block_id <$> blocks f);
  wf_entry_params : args_fit f (entry f) 0;
  wf_no_entry_edge : forall b, b ∈ blocks f -> entry f ∉ block_targets b;
  wf_defs : NoDup (fn_def_ids f);
  wf_term : forall b, b ∈ blocks f -> is_Some (block_term b);
  wf_targets : forall b t, b ∈ blocks f -> t ∈ block_targets b -> t ∈ (block_id <$> blocks f);
  wf_fits : forall b t, b ∈ blocks f -> block_term b = Some t -> term_fits f t;
  wf_inst_uses : forall b i ins v, b ∈ blocks f -> block_insts b !! i = Some ins ->
    v ∈ inst_uses (inst_kind ins) -> avail f b i v;
  wf_term_uses : forall b t v, b ∈ blocks f -> block_term b = Some t ->
    v ∈ terminator_uses t -> avail f b (length (block_insts b)) v }.

(** * Unique definitions *)

Lemma NoDup_bind_elem {A B} (h : A -> list B) (l : list A) x y v :
  NoDup (l ≫= h) -> x ∈ l -> y ∈ l -> v ∈ h x -> v ∈ h y -> x = y.
Proof.
  induction l as [|a l IH]; intros Hnd Hx Hy Hvx Hvy; [by apply not_elem_of_nil in Hx|].
  rewrite bind_cons in Hnd. apply list.NoDup_app in Hnd as (_ & Hdis & Hnd).
  apply elem_of_cons in Hx as [->|Hx]; apply elem_of_cons in Hy as [->|Hy]; [done | | | by apply IH].
  - exfalso. apply (Hdis v Hvx). apply list_elem_of_bind. eauto.
  - exfalso. apply (Hdis v Hvy). apply list_elem_of_bind. eauto.
Qed.

Lemma NoDup_bind_part {A B} (h : A -> list B) (l : list A) x : NoDup (l ≫= h) -> x ∈ l -> NoDup (h x).
Proof.
  induction l as [|a l IH]; intros Hnd Hx; [by apply not_elem_of_nil in Hx|].
  rewrite bind_cons in Hnd. apply list.NoDup_app in Hnd as (Ha & _ & Hnd).
  apply elem_of_cons in Hx as [->|Hx]; auto.
Qed.

Lemma elem_of_take_iff {A} (l : list A) n x : x ∈ take n l <-> exists j, (j < n)%nat /\ l !! j = Some x.
Proof.
  rewrite list_elem_of_lookup. split.
  - intros [j Hj]. exists j. apply lookup_take_Some in Hj as [? ?]. done.
  - intros (j & ? & ?). exists j. by apply lookup_take_Some.
Qed.

Lemma avail_mono f b i j v : (i <= j)%nat -> avail f b i v -> avail f b j v.
Proof.
  intros Hij [H|[H|[H|H]]]; [by left | right; by left | right; right; left | right; right; by right].
  apply elem_of_take_iff in H as (k & Hk & Hl). apply elem_of_take_iff. exists k. split; [lia | done].
Qed.

Lemma avail_def f b i v : b ∈ blocks f -> avail f b i v -> v ∈ fn_def_ids f.
Proof.
  intros Hb Ha. unfold fn_def_ids. apply elem_of_app.
  destruct Ha as [H|[H|[H|(b' & Hb' & _ & Hd & _)]]]; [by left | right | right | right]; apply list_elem_of_bind.
  - exists b. split; [apply elem_of_app; by left | done].
  - exists b. split; [|done]. apply elem_of_app. right. by apply elem_of_take in H as (? & ? & _); eapply list_elem_of_lookup_2.
  - by exists b'.
Qed.

Section unique.
Context (f : Function) (Hnd : NoDup (fn_def_ids f)).

Lemma def_block_unique b b' v :
b ∈ blocks f -> b' ∈ blocks f -> v ∈ def_ids b -> v ∈ def_ids b' -> b = b'.
Proof. apply list.NoDup_app in Hnd as (_ & _ & ?). by apply NoDup_bind_elem. Qed.

Lemma def_not_param b v : b ∈ blocks f -> v ∈ def_ids b -> v ∉ param_ids f.
Proof.
intros Hb Hv Hp. apply list.NoDup_app in Hnd as (_ & Hdis & _). apply (Hdis v Hp).
apply list_elem_of_bind. eauto.
Qed.

Lemma inst_not_bparam b v : b ∈ blocks f -> v ∈ inst_ids b -> v ∉ bparam_ids b.
Proof.
intros Hb Hv Hp. apply list.NoDup_app in Hnd as (_ & _ & Hbs).
apply (NoDup_bind_part _ _ _ Hbs) in Hb. apply list.NoDup_app in Hb as (_ & Hdis & _). by apply (Hdis v).
Qed.

Lemma inst_index_unique b i j ins ins' :
b ∈ blocks f -> block_insts b !! i = Some ins -> block_insts b !! j = Some ins' ->
inst_id ins = inst_id ins' -> i = j.
Proof.
intros Hb Hi Hj E. apply list.NoDup_app in Hnd as (_ & _ & Hbs).
apply (NoDup_bind_part _ _ _ Hbs) in Hb. apply list.NoDup_app in Hb as (_ & _ & Hi').
eapply (proj1 (NoDup_alt _) Hi' _ _ (inst_id ins)); unfold inst_ids;
rewrite list_lookup_fmap; [by rewrite Hi | by rewrite Hj, E].
Qed.

Lemma inst_unique b b' ins ins' :
b ∈ blocks f -> b' ∈ blocks f -> ins ∈ block_insts b -> ins' ∈ block_insts b' ->
inst_id ins = inst_id ins' -> ins = ins'.
Proof.
intros Hb Hb' Hi Hi' E.
assert (b = b') as <-.
{ apply (def_block_unique b b' (inst_id ins)); [done | done | |];
unfold def_ids; apply elem_of_app; right; unfold inst_ids; [|rewrite E]; by apply list_elem_of_fmap_2. }
apply list_elem_of_lookup in Hi as [i Hi], Hi' as [j Hj].
assert (i = j) by (by eapply inst_index_unique). subst. by simplify_eq.
Qed.

Lemma inst_def b ins : ins ∈ block_insts b -> inst_id ins ∈ def_ids b.
Proof. intros Hi. apply elem_of_app. right. by apply list_elem_of_fmap_2. Qed.

(** Where a value that [b] defines by an instruction is available. *)
Lemma avail_inst b i j ins :
b ∈ blocks f -> block_insts b !! j = Some ins -> avail f b i (inst_id ins) -> (j < i)%nat.
Proof.
intros Hb Hj. pose proof (list_elem_of_lookup_2 _ _ _ Hj) as Hin. pose proof (inst_def b ins Hin) as Hd.
intros [H|[H|[H|(b' & Hb' & Hne & Hd' & _)]]].
- by destruct (def_not_param b (inst_id ins)).
- destruct (inst_not_bparam b (inst_id ins)); [done | by apply list_elem_of_fmap_2 | done].
- apply elem_of_take_iff in H as (k & Hk & Hl). unfold inst_ids in Hl. rewrite list_lookup_fmap in Hl.
apply fmap_Some in Hl as (ins' & Hl & E). by rewrite (inst_index_unique b j k ins ins' Hb Hj Hl E).
- destruct Hne. by rewrite (def_block_unique b b' _ Hb Hb' Hd Hd').
Qed.

(** A value defined in [d] that is available in another block: [d] dominates
that block. *)
Lemma avail_cross d b i v :
d ∈ blocks f -> b ∈ blocks f -> v ∈ def_ids d -> block_id d <> block_id b -> avail f b i v ->
dominates_path f (block_id d) (block_id b).
Proof.
intros Hd Hb Hv Hne Ha.
assert (Hlocal : v ∈ def_ids b -> False).
{ intros Hv'. apply Hne. by rewrite (def_block_unique d b v). }
destruct Ha as [H|[H|[H|(b' & Hb' & _ & Hd' & Hdom)]]].
- by destruct (def_not_param d v).
- destruct Hlocal. apply elem_of_app. by left.
- destruct Hlocal. apply elem_of_app. right. by apply elem_of_take in H as (? & ? & _); eapply list_elem_of_lookup_2.
- by rewrite (def_block_unique d b' v).
Qed.
End unique.

(** * The run-time invariant *)

(** Pure in the function's floating-point environment: the value is a function
    of the operand values. *)
Definition pure_inst (dyn : bool) (k : InstKind) : Prop :=
  class_of k = KPure /\ dyn && touches_fpenv k = false.

(** What is pure in a dynamic environment is pure in the default one. *)
Lemma pure_inst_mono (d d' : bool) k : (d' = true -> d = true) -> pure_inst d k -> pure_inst d' k.
Proof. intros Hd [Hc Ht]. split; [done|]. destruct d'; [by rewrite (Hd eq_refl) in Ht | done]. Qed.

Lemma dominates_step f d a b :
  dominates_path f d b -> d <> b -> reachable f a -> cfg_edge f a b -> d = a \/ (d <> a /\ dominates_path f d a).
Proof.
  intros Hdom Hne Ha He. destruct (decide (d = a)); [by left|]. right. split; [done|]. by eapply dominates_pred.
Qed.

Section runtime.
Context {X W : Type} `{!Host X W}.
Context (f : Function) (Hwf : ssa_wf f) (dyn : bool) (call : call_sem X W).
Notation env := (gmap ValueId (val X)).
Implicit Types (ρ : env) (w : W) (b : BasicBlock).

Let Hnd := wf_defs f Hwf.

(** Available at [(b, i)], a pure instruction satisfies its equation. *)
Definition eqs_hold b (i : nat) ρ : Prop :=
forall b' ins, b' ∈ blocks f -> ins ∈ block_insts b' -> pure_inst dyn (inst_kind ins) ->
avail f b i (inst_id ins) ->
exists vs x, lookup_all ρ (inst_uses (inst_kind ins)) = Some vs /\
eval_pure (inst_kind ins) (inst_ty ins) vs = Some x /\ ρ !! inst_id ins = Some x.

(** No operand of an available pure instruction is defined at or after the
point where it is available. *)
Lemma operand_not_later b i b' ins u j ins' :
b ∈ blocks f -> b' ∈ blocks f -> ins ∈ block_insts b' -> avail f b i (inst_id ins) ->
u ∈ inst_uses (inst_kind ins) -> block_insts b !! j = Some ins' -> (i <= j)%nat -> u <> inst_id ins'.
Proof.
intros Hb Hb' Hin Ha Hu Hj Hij ->.
pose proof Hin as Hin'. apply list_elem_of_lookup in Hin' as [k Hk].
pose proof (wf_inst_uses f Hwf b' k ins _ Hb' Hk Hu) as Hu'.
assert (Hdj : inst_id ins' ∈ def_ids b) by (by eapply inst_def, list_elem_of_lookup_2).
assert (Hdi : inst_id ins ∈ def_ids b') by (by apply inst_def).
destruct (decide (block_id b' = block_id b)) as [E|Hne].
- assert (b' = b) as ->.
{ eapply (NoDup_fmap_inj_on block_id); [by apply block_ids_NoDup, wf_index | done..]. }
pose proof (avail_inst f Hnd b i k ins Hb Hk Ha).
pose proof (avail_inst f Hnd b k j ins' Hb Hj Hu'). lia.
- pose proof (avail_cross f Hnd b' b i _ Hb' Hb Hdi Hne Ha) as H1.
pose proof (avail_cross f Hnd b b' k _ Hb Hb' Hdj (not_eq_sym Hne) Hu') as H2.
apply Hne. by eapply dominates_antisym.
Qed.

(** Operands of an available instruction are available. *)
Lemma avail_operand b i b' ins u :
b ∈ blocks f -> b' ∈ blocks f -> ins ∈ block_insts b' -> avail f b i (inst_id ins) ->
u ∈ inst_uses (inst_kind ins) -> avail f b i u.
Proof.
intros Hb Hb' Hin Ha Hu. pose proof Hin as Hin'. apply list_elem_of_lookup in Hin' as [k Hk].
pose proof (wf_inst_uses f Hwf b' k ins u Hb' Hk Hu) as Hu'.
assert (Hdi : inst_id ins ∈ def_ids b') by (by apply inst_def).
destruct (decide (block_id b' = block_id b)) as [E|Hne].
- assert (b' = b) as ->.
{ eapply (NoDup_fmap_inj_on block_id); [by apply block_ids_NoDup, wf_index | done..]. }
eapply avail_mono; [|exact Hu']. pose proof (avail_inst f Hnd b i k ins Hb Hk Ha). lia.
- pose proof (avail_cross f Hnd b' b i _ Hb' Hb Hdi Hne Ha) as Hdom.
destruct Hu' as [H|[H|[H|(b'' & Hb'' & Hne' & Hd & Hdom')]]]; [by left | | |].
+ right; right; right. exists b'. split; [done|]. split; [done|]. split; [|done]. apply elem_of_app. by left.
+ right; right; right. exists b'. split; [done|]. split; [done|]. split; [|done]. apply elem_of_app. right.
by apply elem_of_take in H as (? & ? & _); eapply list_elem_of_lookup_2.
+ right; right; right. exists b''. split; [done|]. split; [|split; [done | by eapply dominates_trans]].
intros E. apply Hne. apply (dominates_antisym f); [done | by rewrite <- E].
Qed.

Lemma operand_not_bparam b b' ins u :
b ∈ blocks f -> b' ∈ blocks f -> ins ∈ block_insts b' -> block_id b' <> block_id b ->
dominates_path f (block_id b') (block_id b) ->
u ∈ inst_uses (inst_kind ins) -> u ∉ bparam_ids b.
Proof.
intros Hb Hb' Hin Hne Hdom Hu Hub.
apply list_elem_of_lookup in Hin as [k Hk].
pose proof (wf_inst_uses f Hwf b' k ins _ Hb' Hk Hu) as Hu'.
apply Hne. eapply dominates_antisym; [done|].
apply (avail_cross f Hnd b b' k u); [done | done | apply elem_of_app; by left | done | done].
Qed.

Lemma exec_inst_pure ins ρ w :
pure_inst dyn (inst_kind ins) ->
exec_inst dyn call ins ρ w =
match lookup_all ρ (inst_uses (inst_kind ins)) ≫= eval_pure (inst_kind ins) (inst_ty ins) with
| Some x => SNext (<[inst_id ins := x]> ρ) w
| None => SStuck
end.
Proof.
intros [Hc Hd]. unfold exec_inst. destruct (lookup_all _ _) as [vs|]; simpl; [|done].
by rewrite Hd, Hc.
Qed.

Lemma avail_S b i ins v :
block_insts b !! i = Some ins -> avail f b (S i) v -> avail f b i v \/ v = inst_id ins.
Proof.
intros Hi [H|[H|[H|H]]]; [left; by left | left; right; by left | | left; right; right; by right].
apply elem_of_take_iff in H as (j & Hj & Hl). destruct (decide (j = i)) as [->|].
- right. unfold inst_ids in Hl. rewrite list_lookup_fmap, Hi in Hl. by simplify_eq/=.
- left. right. right. left. apply elem_of_take_iff. exists j. split; [lia | done].
Qed.

(** Executing the instruction at [i] keeps the equations. *)
Lemma eqs_hold_step b i ins ρ w ρ' w' :
b ∈ blocks f -> block_insts b !! i = Some ins -> eqs_hold b i ρ ->
exec_inst dyn call ins ρ w = SNext ρ' w' -> eqs_hold b (S i) ρ'.
Proof.
intros Hb Hi Heq Hex b' ins' Hb' Hin Hp Ha.
apply (avail_S b i ins) in Ha as [Ha|E]; [| |done].
- destruct (Heq b' ins' Hb' Hin Hp Ha) as (vs & x & Hvs & Hx & Hρ).
assert (Hframe : forall u, u <> inst_id ins -> ρ' !! u = ρ !! u) by (intros; by eapply exec_inst_frame).
exists vs, x. split; [|split; [done|]].
+ rewrite <- Hvs. apply lookup_all_ext. intros u Hu. apply Hframe.
by apply (operand_not_later b i b' ins' u i ins).
+ rewrite Hframe; [done|]. intros E.
pose proof (list_elem_of_lookup_2 _ _ _ Hi) as Hin2.
rewrite (inst_unique f Hnd b' b ins' ins) in Ha by done.
pose proof (avail_inst f Hnd b i i ins Hb Hi Ha). lia.
- pose proof (list_elem_of_lookup_2 _ _ _ Hi) as Hin2.
assert (ins' = ins) as -> by (by eapply (inst_unique f Hnd b' b)).
rewrite (exec_inst_pure ins ρ w Hp) in Hex.
destruct (lookup_all ρ _) as [vs|] eqn:Hvs; simpl in Hex; [|done].
destruct (eval_pure _ _ vs) as [x|] eqn:Hx; [|done]. simplify_eq.
exists vs, x. split; [|split; [done | apply lookup_insert_eq]].
rewrite <- Hvs. apply lookup_all_ext. intros u Hu. rewrite lookup_insert_ne; [done|].
intros <-. pose proof (wf_inst_uses f Hwf b i ins _ Hb Hi Hu) as Hau.
pose proof (avail_inst f Hnd b i i ins Hb Hi Hau). lia.
Qed.

(** Taking an edge keeps them, the destination's parameters rebound. *)
Lemma eqs_hold_jump b b2 ρ vs ρ' :
b ∈ blocks f -> b2 ∈ blocks f -> reachable f (block_id b) -> block_id b2 ∈ block_targets b ->
eqs_hold b (length (block_insts b)) ρ -> bind_params (block_params b2) vs ρ = Some ρ' ->
eqs_hold b2 0 ρ'.
Proof.
intros Hb Hb2 Hr Hedge Heq Hbind b' ins Hb' Hin Hp Ha.
pose proof (inst_def b' ins Hin) as Hdef.
assert (He : cfg_edge f (block_id b) (block_id b2)).
{ apply cfg_edge_iff; [apply Hwf|]. eauto. }
destruct Ha as [H|[H|[H|(b'' & Hb'' & Hne & Hd'' & Hdom)]]].
- by destruct (def_not_param f Hnd b' (inst_id ins)).
- assert (b' = b2) as -> by (eapply (def_block_unique f Hnd); [done | done | done | apply elem_of_app; by left]).
destruct (inst_not_bparam f Hnd b2 (inst_id ins)); [done | by apply list_elem_of_fmap_2 | done].
- by apply not_elem_of_nil in H.
- assert (b'' = b') as -> by (by eapply (def_block_unique f Hnd)).
assert (Hav : avail f b (length (block_insts b)) (inst_id ins)).
{ destruct (dominates_step f _ _ _ Hdom Hne Hr He) as [E|[Hne' Hdom']].
- assert (b' = b) as ->.
{ eapply (NoDup_fmap_inj_on block_id); [by apply block_ids_NoDup, wf_index | done..]. }
right; right; left. unfold inst_ids. rewrite <- (length_fmap inst_id), firstn_all.
by apply list_elem_of_fmap_2.
- right; right; right. eauto. }
destruct (Heq b' ins Hb' Hin Hp Hav) as (us & x & Hus & Hx & Hρ).
exists us, x. split; [|split; [done|]].
+ rewrite <- Hus. apply lookup_all_ext. intros u Hu. eapply bind_params_frame; [done|].
by eapply operand_not_bparam.
+ rewrite (bind_params_frame _ _ _ _ (inst_id ins) Hbind); [done|].
intros Hbp. apply Hne. f_equal.
apply (def_block_unique f Hnd b' b2 (inst_id ins)); [done | done | done | apply elem_of_app; by left].
Qed.

Lemma eqs_hold_entry b ρ : b ∈ blocks f -> block_id b = entry f -> eqs_hold b 0 ρ.
Proof.
intros Hb He b' ins Hb' Hin Hp Ha. exfalso.
pose proof (inst_def b' ins Hin) as Hdef.
destruct Ha as [H|[H|[H|(b'' & Hb'' & Hne & Hd'' & Hdom)]]].
- by destruct (def_not_param f Hnd b' (inst_id ins)).
- assert (b' = b) as -> by (eapply (def_block_unique f Hnd); [done | done | done | apply elem_of_app; by left]).
destruct (inst_not_bparam f Hnd b (inst_id ins)); [done | by apply list_elem_of_fmap_2 | done].
- by apply not_elem_of_nil in H.
- rewrite He in *. destruct Hdom as [_ Hn]. apply Hn. by constructor.
Qed.
End runtime.

(** * Reachable execution states *)

Section visits.
Context {X W : Type} `{!Host X W}.
Context (f : Function) (dyn : bool) (call : call_sem X W).
Notation env := (gmap ValueId (val X)).
Implicit Types (ρ : env) (w : W) (b : BasicBlock).

(** [visits b i ρ w]: some execution of [f] stands before instruction [i] of
block [b] (before the terminator when [i] is the block's length). *)
Inductive visits : BasicBlock -> nat -> env -> W -> Prop :=
| visit_entry args ρ0 w b ρ :
bind_args (fn_params f) args ∅ = Some ρ0 -> find_block f (entry f) = Some b ->
bind_params (block_params b) [] ρ0 = Some ρ -> visits b 0 ρ w
| visit_inst b i ins ρ w ρ' w' :
visits b i ρ w -> block_insts b !! i = Some ins ->
exec_inst dyn call ins ρ w = SNext ρ' w' -> visits b (S i) ρ' w'
| visit_jump b ρ w d vs b2 ρ' :
visits b (length (block_insts b)) ρ w -> exec_term (block_term b) ρ = TJump d vs ->
find_block f d = Some b2 -> bind_params (block_params b2) vs ρ = Some ρ' -> visits b2 0 ρ' w.

(** The instructions of a block that run to its end visit every point of it. *)
Lemma exec_insts_visits b w ρ w' ρ' n il :
visits b n ρ w -> drop n (block_insts b) = il -> exec_insts dyn call il ρ w = SNext ρ' w' ->
visits b (length (block_insts b)) ρ' w'.
Proof.
revert n ρ w. induction il as [|i il IH]; intros n ρ w Hv Hd Hex; simpl in Hex.
- simplify_eq. assert (length (block_insts b) <= n)%nat as Hle.
{ apply (f_equal length) in Hd. rewrite length_drop in Hd. simpl in Hd. lia. }
assert (Hn : n = length (block_insts b)); [|by rewrite <- Hn].
assert (Hb : forall b i ρ w, visits b i ρ w -> (i <= length (block_insts b))%nat).
{ clear. induction 1 as [|b i ins ρ w ρ' w' _ _ Hi _|]; [lia | apply lookup_lt_Some in Hi; lia | lia]. }
specialize (Hb _ _ _ _ Hv). lia.
- destruct (exec_inst dyn call i ρ w) as [ρ1 w1| | |] eqn:E; try done.
assert (Hi : block_insts b !! n = Some i).
{ rewrite <- (Nat.add_0_r n), <- lookup_drop, Hd. done. }
apply (IH (S n) ρ1 w1); [by eapply visit_inst | | done].
rewrite <- Nat.add_1_r, <- drop_drop, Hd. done.
Qed.

Lemma exec_block_visits (b : BlockId) blk vs ρ ρ1 w d vs2 ρ2 w2 :
find_block f b = Some blk -> bind_params (block_params blk) vs ρ = Some ρ1 -> visits blk 0 ρ1 w ->
exec_block dyn call f b vs ρ w = BJump d vs2 ρ2 w2 ->
visits blk (length (block_insts blk)) ρ2 w2 /\ exec_term (block_term blk) ρ2 = TJump d vs2.
Proof.
intros Hf Hb Hv. unfold exec_block. rewrite Hf, Hb.
destruct (exec_insts dyn call (block_insts blk) ρ1 w) as [ρ3 w3| | |] eqn:E; try done.
destruct (exec_term (block_term blk) ρ3) eqn:Et; intros [= <- <- <- <-]. split; [|done].
by apply (exec_insts_visits blk w ρ1 w3 ρ3 0 (block_insts blk)).
Qed.

Lemma exec_term_target b ρ d vs :
exec_term (block_term b) ρ = TJump d vs -> d ∈ block_targets b.
Proof.
unfold exec_term, block_targets, jump. intros H.
destruct (block_term b) as [[| | |s cases df|]|]; repeat case_match; simplify_eq/=; try set_solver.
- apply elem_of_app. left. apply list_find_Some in H2 as (Hl & _).
apply list_elem_of_lookup_2 in Hl. apply list_elem_of_fmap. eexists (_, _); eauto.
Qed.
End visits.

Section wf_visits.
Context {X W : Type} `{!Host X W}.
Context (f : Function) (Hwf : ssa_wf f) (dyn : bool) (call : call_sem X W).
Notation env := (gmap ValueId (val X)).
Implicit Types (ρ : env) (w : W) (b : BasicBlock).

Lemma visits_block b i ρ w : visits f dyn call b i ρ w -> b ∈ blocks f /\ reachable f (block_id b).
Proof.
induction 1 as [args ρ0 w b ρ _ Hf _|b i ins ρ w ρ' w' _ IH _ _|b ρ w d vs b2 ρ' _ [Hb Hr] Ht Hf _].
- apply find_block_Some in Hf as [Hb ->]. split; [done | apply rtc_refl].
- done.
- apply find_block_Some in Hf as [Hb2 <-]. split; [done|]. eapply rtc_r; [exact Hr|].
apply cfg_edge_iff; [apply Hwf|]. exists b. split; [done|]. split; [done|]. by eapply exec_term_target.
Qed.

(** Every reachable state satisfies the equations of the available pure
instructions. *)
Lemma visits_eqs_hold b i ρ w : visits f dyn call b i ρ w -> eqs_hold f dyn b i ρ.
Proof.
induction 1 as [args ρ0 w b ρ _ Hf _|b i ins ρ w ρ' w' Hv IH Hi Hex|b ρ w d vs b2 ρ' Hv IH Ht Hf Hbind].
- apply find_block_Some in Hf as [Hb He]. by apply eqs_hold_entry.
- apply visits_block in Hv as [Hb _]. by eapply eqs_hold_step.
- apply visits_block in Hv as [Hb Hr]. apply find_block_Some in Hf as [Hb2 <-].
eapply (eqs_hold_jump f Hwf dyn b); [done | done | done | by eapply exec_term_target | done | done].
Qed.

(** The value of an internal call to a procedure without result. *)
Definition void_value (v : ValueId) : Prop :=
exists b ins c args, b ∈ blocks f /\ ins ∈ block_insts b /\ inst_id ins = v /\
inst_kind ins = Call (Internal c) args /\ inst_ty ins = Void.

(** Internal calls that are typed as returning a value do so. *)
Definition calls_return : Prop :=
forall b ins c args vs w w', b ∈ blocks f -> ins ∈ block_insts b ->
inst_kind ins = Call (Internal c) args -> inst_ty ins <> Void -> call c vs w <> RRet None w'.

Definition defs_bound b i ρ : Prop := forall v, avail f b i v -> ~ void_value v -> is_Some (ρ !! v).

Lemma exec_inst_binds b ins ρ w ρ' w' :
calls_return -> b ∈ blocks f -> ins ∈ block_insts b -> ~ void_value (inst_id ins) ->
exec_inst dyn call ins ρ w = SNext ρ' w' -> is_Some (ρ' !! inst_id ins).
Proof.
intros Hcalls Hb Hin Hv. unfold exec_inst, finish_effect, finish_call. intros Hex.
repeat case_match; simplify_eq; rewrite ?lookup_insert_eq; try done.
match goal with H : class_of _ = KCall _ |- _ => apply class_of_call in H as [args Ek] end.
exfalso. destruct (decide (inst_ty ins = Void)) as [Hty|Hty].
- apply Hv. repeat eexists; done.
- by eapply Hcalls.
Qed.

Lemma bind_params_binds ps vs ρ ρ' v :
bind_params ps vs ρ = Some ρ' -> v ∈ (bp_id <$> ps) -> is_Some (ρ' !! v).
Proof.
revert vs ρ. induction ps as [|p ps IH]; intros [|x vs] ρ H Hv; simpl in H; simplify_eq;
[by apply not_elem_of_nil in Hv|].
destruct (decide (v ∈ (bp_id <$> ps))) as [Hin|Hnin]; [by eapply IH|].
rewrite (bind_params_frame _ _ _ _ v H Hnin). rewrite fmap_cons in Hv.
apply elem_of_cons in Hv as [->|?]; [|done]. rewrite lookup_insert_eq. done.
Qed.

Lemma bind_args_binds ps vs (ρ ρ' : env) v :
bind_args ps vs ρ = Some ρ' -> v ∈ (param_id <$> ps) \/ is_Some (ρ !! v) -> is_Some (ρ' !! v).
Proof.
revert vs ρ. induction ps as [|p ps IH]; intros [|x vs] ρ H Hv; simpl in H; simplify_eq.
- destruct Hv as [Hv|]; [by apply not_elem_of_nil in Hv | done].
- apply (IH _ _ H). rewrite fmap_cons, elem_of_cons in Hv.
destruct (decide (v = param_id p)) as [->|Hne]; [right; by rewrite lookup_insert_eq|].
rewrite lookup_insert_ne by done. tauto.
Qed.

Lemma bind_params_mono ps vs ρ ρ' v : bind_params ps vs ρ = Some ρ' -> is_Some (ρ !! v) -> is_Some (ρ' !! v).
Proof.
intros H Hv. destruct (decide (v ∈ (bp_id <$> ps))) as [Hin|Hnin]; [by eapply bind_params_binds|].
by rewrite (bind_params_frame _ _ _ _ v H Hnin).
Qed.

Lemma visits_params_bound b i ρ w : visits f dyn call b i ρ w -> forall v, v ∈ param_ids f -> is_Some (ρ !! v).
Proof.
induction 1 as [args ρ0 w b ρ Ha Hf Hb|b i ins ρ w ρ' w' Hv IH Hi Hex|b ρ w d vs b2 ρ' Hv IH Ht Hf Hbind];
intros v Hp.
- eapply bind_params_mono; [done|]. eapply bind_args_binds; [done | by left].
- apply visits_block in Hv as [Hb _].
rewrite (exec_inst_frame _ _ _ _ _ _ _ _ Hex); [by apply IH|].
intros ->. eapply (def_not_param f (wf_defs f Hwf) b); [done | | done].
by eapply inst_def, list_elem_of_lookup_2.
- eapply bind_params_mono; [done|]. by apply IH.
Qed.

Lemma visits_defs_bound b i ρ w : calls_return -> visits f dyn call b i ρ w -> defs_bound b i ρ.
Proof.
intros Hcalls.
induction 1 as [args ρ0 w b ρ Ha Hf Hb|b i ins ρ w ρ' w' Hv IH Hi Hex|b ρ w d vs b2 ρ' Hv IH Ht Hf Hbind];
intros v Hav Hnv.
- apply find_block_Some in Hf as [Hbin He].
destruct Hav as [H|[H|[H|(b' & Hb' & Hne & _ & Hdom)]]].
+ eapply bind_params_mono; [done|]. eapply bind_args_binds; [done | by left].
+ by eapply bind_params_binds.
+ by apply not_elem_of_nil in H.
+ exfalso. rewrite He in *. destruct Hdom as [_ Hn]. apply Hn. by constructor.
- apply visits_block in Hv as [Hb _].
apply (avail_S f b i ins) in Hav as [Hav|E]; [| |done].
+ destruct (decide (v = inst_id ins)) as [->|Hne].
* eapply exec_inst_binds; [done | done | by eapply list_elem_of_lookup_2 | done | done].
* rewrite (exec_inst_frame _ _ _ _ _ _ _ _ Hex Hne). by apply IH.
+ subst. eapply exec_inst_binds; [done | done | by eapply list_elem_of_lookup_2 | done | done].
- pose proof Hv as [Hb Hr]%visits_block. pose proof Hf as [Hb2 E]%find_block_Some.
destruct Hav as [H|[H|[H|(b' & Hb' & Hne & Hd & Hdom)]]].
+ eapply bind_params_mono; [done|]. by eapply visits_params_bound.
+ by eapply bind_params_binds.
+ by apply not_elem_of_nil in H.
+ eapply bind_params_mono; [done|]. apply IH; [|done].
assert (He : cfg_edge f (block_id b) (block_id b2)).
{ apply cfg_edge_iff; [apply Hwf|]. exists b. split; [done|]. split; [done|]. rewrite E. by eapply exec_term_target. }
destruct (dominates_step f _ _ _ Hdom Hne Hr He) as [E'|[Hne' Hdom']].
* assert (b' = b) as ->.
{ eapply (NoDup_fmap_inj_on block_id); [by apply block_ids_NoDup, wf_index | done..]. }
apply elem_of_app in Hd as [Hd|Hd]; [right; by left|]. right; right; left.
unfold inst_ids. by rewrite <- (length_fmap inst_id), firstn_all.
* right; right; right. eauto.
Qed.

Lemma bind_params_total ps vs ρ : length ps = length vs -> is_Some (bind_params ps vs ρ).
Proof.
revert vs ρ. induction ps as [|p ps IH]; intros [|x vs] ρ Hl; simpl in *; try done. apply IH. lia.
Qed.

Lemma lookup_all_length ρ l vs : lookup_all ρ l = Some vs -> length l = length vs.
Proof. intros H. apply lookup_all_Some in H. by apply Forall2_length in H. Qed.

(** A jump lands on a block whose parameters its arguments fill. *)
Lemma term_jump_lands b ρ d vs :
b ∈ blocks f -> exec_term (block_term b) ρ = TJump d vs ->
exists b2 ρ2, find_block f d = Some b2 /\ bind_params (block_params b2) vs ρ = Some ρ2.
Proof.
intros Hb Ht. pose proof (exec_term_target b ρ d vs Ht) as Hd.
pose proof (wf_targets f Hwf b d Hb Hd) as (b2 & Eid & Hb2)%list_elem_of_fmap.
assert (Hf : find_block f d = Some b2).
{ rewrite Eid. apply find_block_unique; [by apply block_ids_NoDup, wf_index | done]. }
exists b2. assert (Hlen : length (block_params b2) = length vs).
{ destruct (block_term b) as [t|] eqn:Et; [|done]. pose proof (wf_fits f Hwf b t Hb Et) as Hfit.
destruct t as [[]| | |s cases df|]; simpl in Ht, Hfit; unfold jump in Ht; repeat case_match; simplify_eq;
try match goal with H : lookup_all _ _ = Some _ |- _ => apply lookup_all_length in H as <- end.
- by apply Hfit.
- by apply Hfit.
- by apply Hfit.
- match goal with H : list_find _ _ = Some _ |- _ => apply list_find_Some in H as (Hl & _) end.
destruct Hfit as [_ Hfit]. rewrite Forall_forall in Hfit.
apply list_elem_of_lookup_2 in Hl. by apply (Hfit _ Hl).
- by apply Hfit. }
destruct (bind_params_total _ _ ρ Hlen) as [ρ2 ?]. eauto.
Qed.

Lemma lookup_all_bound ρ l : (forall v, v ∈ l -> is_Some (ρ !! v)) -> is_Some (lookup_all ρ l).
Proof.
intros H. unfold lookup_all. apply mapM_is_Some. apply Forall_forall. done.
Qed.
End wf_visits.

(** * Constants at run time *)

Section nullary.
Context {X W : Type} `{!Host X W}.
Context (f : Function) (Hnd : NoDup (fn_def_ids f)) (dyn : bool) (call : call_sem X W).
Notation env := (gmap ValueId (val X)).

Lemma bind_args_frame ps vs (ρ ρ' : env) v :
bind_args ps vs ρ = Some ρ' -> v ∉ (param_id <$> ps) -> ρ' !! v = ρ !! v.
Proof.
revert vs ρ. induction ps as [|p ps IH]; intros [|x vs] ρ H Hv; simpl in H; simplify_eq; [done|].
rewrite fmap_cons, not_elem_of_cons in Hv. destruct Hv as [Hp Hv].
rewrite (IH _ _ H Hv). by apply lookup_insert_ne.
Qed.

(** An operand-free pure instruction has its one value in every reachable
state in which it is bound at all. *)
Lemma visits_nullary b0 ins x b i ρ w :
b0 ∈ blocks f -> ins ∈ block_insts b0 -> pure_inst dyn (inst_kind ins) -> inst_uses (inst_kind ins) = [] ->
eval_pure (inst_kind ins) (inst_ty ins) [] = Some x ->
visits f dyn call b i ρ w -> b ∈ blocks f /\ (forall y, ρ !! inst_id ins = Some y -> y = x).
Proof.
intros Hb0 Hin Hp Hu Hx. pose proof (inst_def b0 ins Hin) as Hd.
assert (Hnb : forall b, b ∈ blocks f -> inst_id ins ∉ bparam_ids b).
{ intros b' Hb' Hbp. assert (b0 = b') as <-.
{ apply (def_block_unique f Hnd b0 b' (inst_id ins)); [done | done | done | apply elem_of_app; by left]. }
eapply (inst_not_bparam f Hnd b0); [done | by apply list_elem_of_fmap_2 | done]. }
induction 1 as [args ρ0 w b ρ Ha Hf Hb|b i i0 ρ w ρ' w' _ [Hb IH] Hi Hex|b ρ w d vs b2 ρ' _ [Hb IH] Ht Hf Hbind].
- apply find_block_Some in Hf as [Hbin _]. split; [done|]. intros y Hy.
rewrite (bind_params_frame _ _ _ _ _ Hb (Hnb b Hbin)) in Hy.
rewrite (bind_args_frame _ _ _ _ _ Ha), lookup_empty in Hy; [done|].
by apply (def_not_param f Hnd b0).
- split; [done|]. intros y Hy. destruct (decide (inst_id ins = inst_id i0)) as [E|Hne].
+ assert (i0 = ins) as ->.
{ apply (inst_unique f Hnd b b0); [done | done | by eapply list_elem_of_lookup_2 | done | done]. }
rewrite (exec_inst_pure dyn call ins ρ w Hp), Hu in Hex. simpl in Hex. rewrite Hx in Hex. simplify_eq.
rewrite lookup_insert_eq in Hy. by simplify_eq.
+ rewrite (exec_inst_frame _ _ _ _ _ _ _ _ Hex Hne) in Hy. by apply IH.
- apply find_block_Some in Hf as [Hbin _]. split; [done|]. intros y Hy.
rewrite (bind_params_frame _ _ _ _ _ Hbind (Hnb b2 Hbin)) in Hy. by apply IH.
Qed.
End nullary.

(** * Canonical integers at run time *)

Definition canonical {X} (v : val X) : Prop := canon v = v.

Lemma canon_canonical {X} (v : val X) : canonical (canon v).
Proof.
  destruct v; try done. unfold canonical. simpl. f_equal. apply swrap_idem. pose proof (int_bits_bounds w). lia.
Qed.
#[export] Hint Resolve canon_canonical : ir.

Lemma canonical_wrap {X} w z : canonical (X := X) (VInt w (wrapw w z)).
Proof. apply (canon_canonical (VInt w z)). Qed.
#[export] Hint Resolve canonical_wrap : ir.

Lemma canonical_int {X} w z : canonical (X := X) (VInt w z) -> wrapw w z = z.
Proof. unfold canonical. simpl. by intros [= ->]. Qed.

Section canon.
Context {X W : Type} `{!Host X W}.
Context (f : Function) (dyn : bool) (call : call_sem X W).
Notation env := (gmap ValueId (val X)).

Lemma core_eval_canonical k ty (vs : list (val X)) v :
Forall canonical vs -> core_eval k ty vs = CVal v -> canonical v.
Proof.
intros Hvs H.
destruct k; simpl in H; unfold int_bin, int_un, int_count, float_bin, float_un, bool_bin in H;
repeat case_match; simplify_eq; auto with ir; try (unfold canonical; simpl; reflexivity).
- by apply (Forall_lookup_1 _ _ 1%nat _ Hvs).
- by apply (Forall_lookup_1 _ _ 2%nat _ Hvs).
- unfold canonical. simpl. f_equal. apply wrapw_id.
match goal with H : _ && _ = true |- _ => apply andb_true_iff in H as [_ H] end. by apply in_srange_spec.
Qed.

Lemma lookup_all_canonical (ρ : env) l vs :
map_Forall (fun _ => canonical) ρ -> lookup_all ρ l = Some vs -> Forall canonical vs.
Proof.
intros Hρ Hvs. apply lookup_all_Some in Hvs. apply Forall_forall. intros x Hx.
apply list_elem_of_lookup in Hx as [j Hj].
destruct (Forall2_lookup_r _ _ _ _ _ Hvs Hj) as (v & _ & Hv). by apply (Hρ v).
Qed.

Lemma exec_inst_canonical i ρ w ρ' w' :
map_Forall (fun _ => canonical) ρ -> exec_inst dyn call i ρ w = SNext ρ' w' -> map_Forall (fun _ => canonical) ρ'.
Proof.
intros Hρ. unfold exec_inst, finish_effect, finish_call, eval_pure.
destruct (lookup_all ρ _) as [vs|] eqn:Hvs; [|done].
assert (Hc : Forall canonical vs) by (by eapply lookup_all_canonical).
intros H. repeat case_match; simplify_eq; try done; apply map_Forall_insert_2; auto with ir.
- by eapply core_eval_canonical.
- match goal with H : _ <$> _ = Some _ |- _ => apply fmap_Some in H as (? & _ & ->) end. auto with ir.
Qed.

Lemma bind_params_canonical ps vs (ρ ρ' : env) :
map_Forall (fun _ => canonical) ρ -> Forall canonical vs ->
bind_params ps vs ρ = Some ρ' -> map_Forall (fun _ => canonical) ρ'.
Proof.
revert vs ρ. induction ps as [|p ps IH]; intros [|x vs] ρ Hρ Hvs H; simpl in H; simplify_eq; [done|].
apply Forall_cons_iff in Hvs as [? ?]. eapply IH; [|done|done]. by apply map_Forall_insert_2.
Qed.

Lemma bind_args_canonical ps vs (ρ ρ' : env) :
map_Forall (fun _ => canonical) ρ -> bind_args ps vs ρ = Some ρ' -> map_Forall (fun _ => canonical) ρ'.
Proof.
revert vs ρ. induction ps as [|p ps IH]; intros [|x vs] ρ Hρ H; simpl in H; simplify_eq; [done|].
eapply IH; [|done]. apply map_Forall_insert_2; auto with ir.
Qed.

(** In every reachable state, integers are in the range of their width. *)
Lemma visits_canonical b i ρ w : visits f dyn call b i ρ w -> map_Forall (fun _ => canonical) ρ.
Proof.
induction 1 as [args ρ0 w b ρ Ha _ Hb|b i i0 ρ w ρ' w' _ IH _ Hex|b ρ w d vs b2 ρ' _ IH Ht _ Hbind].
- eapply bind_params_canonical; [|by constructor|done].
eapply bind_args_canonical; [|done]. apply map_Forall_empty.
- by eapply exec_inst_canonical.
- eapply bind_params_canonical; [done| |done].
unfold exec_term, jump in Ht. repeat case_match; simplify_eq; try constructor; by eapply lookup_all_canonical.
Qed.
End canon.
