(* ===== verification/IrVerify.v ===== *)
(** The IR verifier (src/src/ir/verify.rs).

    A check returns the list of errors it pushes, in order; a [VerifyError] is a
    message template with its arguments.  [None] is a panic of the code (a lookup
    of a missing block by [Function::block]). *)

From S2P Require Import Prelude IrTypes IrInst Sample Worklist IrWalk Floats IrSem Dominators Ssa.
Local Open Scope Z_scope.

(** * Errors *)

(** The [context] strings of [check_defined_struct_ids]. *)
Inductive StructContext :=
| CtxStructField (id : nat) (field : string)
| CtxGlobal (name : string)
| CtxExternParam (name : string) (index : nat)
| CtxExternReturn (name : string)
| CtxFuncReturn (name : string)
| CtxFuncParam (name : string) (index : nat)
| CtxBlockParam (func block : string)
| CtxInstruction (func : string) (id : ValueId)
| CtxAlloca (func : string) (id : ValueId).

Inductive GlobalArrayInitializerKind := GAInteger | GAFloat.

(** The messages of [vector_shape_error]. *)
Inductive VectorShapeError :=
| VecElemNotScalar (other : IrType)
| VecLaneCount (lanes : Z)
| VecTotalWidth (width lanes elem_bits : Z).

(** The expected types of [runtime_signature]. *)
Inductive RuntimeAbiType := AVoid | AI32 | AI64 | AF32 | ABytePtr | ADataPtr | APrintableInt.

Inductive VerifyError :=
(* module *)
| GlobalNamedStruct (name : string)
| GlobalSizeOverflow (name : string) (ty : IrType)
| UndefinedStruct (ctx : StructContext) (id : N)
| InitializerIncompatible (name : string) (kind : GlobalArrayInitializerKind) (ty : IrType)
| InitializerCount (name : string) (actual expected : Z)
| InFunction (name : string) (e : VerifyError)
(* named structs in functions *)
| StructReturn
| StructParam (index : nat)
| StructBlockParam (block : string)
| StructInst (id : ValueId)
| StructAlloca (id : ValueId)
| StructGep (id : ValueId)
(* block structure *)
| DuplicateBlock (id : BlockId) (first second : string)
| NoTerminator (block : string)
| EntryHasParams
| BranchToEntry (block : string)
| UndefinedUse (v : ValueId) (block : string)
| UndefinedTermUse (v : ValueId) (block : string)
| StaleTypeCache (v : ValueId) (cached defining : IrType)
| DuplicateValue (v : ValueId)
| UndefinedTarget (block : string) (target : BlockId)
| UseBeforeDef (v : ValueId) (block : string)
| NotDominated (v : ValueId) (def_block use_block : string)
(* calls *)
| CallIndex (id : ValueId) (index : N) (count : nat)
| CallResult (id : ValueId) (callee : string) (expected actual : IrType)
| CallArity (id : ValueId) (callee : string) (expected actual : nat)
| CallArg (id : ValueId) (callee : string) (index : nat) (expected actual : IrType)
| RuntimeResult (rf : RuntimeFunc) (id : ValueId) (expected : RuntimeAbiType) (actual : IrType)
| RuntimeArity (rf : RuntimeFunc) (id : ValueId) (expected actual : nat)
| RuntimeArg (rf : RuntimeFunc) (id : ValueId) (index : nat) (expected : RuntimeAbiType) (actual : IrType)
(* terminators *)
| ReturnFromVoid (block : string) (v : ValueId)
| ReturnMissing (block : string) (expected : IrType)
| ReturnMismatch (block : string) (expected actual : IrType) (v : ValueId)
| ReturnUntyped (block : string) (v : ValueId) (expected : IrType)
| CondNotBool (block : string) (ty : IrType)
| CondUntyped (block : string) (v : ValueId)
| BranchArity (from target : string) (expected actual : nat)
| BranchArg (from target : string) (index : nat) (expected actual : IrType)
| SwitchCaseRange (value : Z) (ty : IrType)
| SwitchSelector (ty : IrType)
| SwitchUntyped (v : ValueId)
| SwitchDefaultParams (target : string)
| SwitchCaseParams (target : string)
(* instruction types *)
| VectorShape (e : VectorShapeError)
| VectorArithmetic (id : ValueId) (ty : IrType)
| IntOpUntyped (id v : ValueId)
| IntOpOperand (id v : ValueId) (ty : IrType)
| IntOpWidths (id a : ValueId) (ta : IrType) (b : ValueId) (tb : IrType)
| IntOpResult (id : ValueId) (ty operand : IrType)
| FloatOpOperand (id v : ValueId) (ty : IrType)
| FloatOpWidths (id a : ValueId) (ta : IrType) (b : ValueId) (tb : IrType)
| FloatOpResult (id : ValueId) (ty operand : IrType)
| FloatUnaryOperand (id v : ValueId) (ty : IrType)
| FloatUnaryResult (id : ValueId) (ty operand : IrType)
| StoreNonPointer (id addr : ValueId) (ty : IrType)
| StorePointee (id : ValueId) (value pointee : IrType)
| LoadNonPointer (id addr : ValueId) (ty : IrType)
| GepIndices (id : ValueId) (n : nat)
| BitwiseOperands (id : ValueId) (ta tb : IrType)
| BitwiseWidths (id : ValueId) (ta tb : IrType)
| LogicalOperands (id : ValueId) (ta tb : IrType)
| ICmpOperands (id : ValueId) (ta tb : IrType)
| ICmpWidths (a : ValueId) (ta : IrType) (b : ValueId) (tb : IrType)
| SelectCond (cond : ValueId) (ty : IrType)
| SelectArms (id : ValueId) (tt tf ty : IrType)
| VBinopTypes (ta tb ty : IrType)
| VFmaTypes (ta tb tc ty : IrType)
| VSelectTypes (tt tf ty : IrType)
| VUnopTypes (ta ty : IrType)
| VExtractLane (lane lanes : Z)
| VInsertLane (lane lanes : Z).

(** [if cond { errors.push(e) }] *)
Definition err_if (cond : bool) (e : VerifyError) : list VerifyError := if cond then [e] else [].

(** Run a check on every element with its position. *)
Definition check_indexed {A} (g : nat -> A -> list VerifyError) (l : list A) : list VerifyError :=
  zip (seq 0 (length l)) l ≫= fun p => g p.1 p.2.

(** Errors of a sequence of checks that can panic. *)
Definition check_all {A} (g : A -> option (list VerifyError)) (l : list A) : option (list VerifyError) :=
  mjoin <$> mapM g l.

(** * Module-level checks *)

Fixpoint check_defined_struct_ids (m : Module_) (ty : IrType) (ctx : StructContext) : list VerifyError :=
  match ty with
  | TPtr inner | TArray inner _ | TVector _ inner => check_defined_struct_ids m inner ctx
  | TStruct id =>
      match struct_defs m !! N.to_nat id with
      | None => [UndefinedStruct ctx id]
      | Some _ => []
      end
  | TFuncPtr params ret =>
      (fix go ps := match ps with
         | [] => []
         | p :: ps => check_defined_struct_ids m p ctx ++ go ps
         end) params ++ check_defined_struct_ids m ret ctx
  | _ => []
  end.

Definition check_module_struct_references (m : Module_) : list VerifyError :=
  check_indexed (fun id def =>
    sd_fields def ≫= fun fld => check_defined_struct_ids m fld.2 (CtxStructField id fld.1)) (struct_defs m) ++
  (globals m ≫= fun g => check_defined_struct_ids m (global_ty g) (CtxGlobal (global_name g))) ++
  (extern_funcs m ≫= fun e =>
    check_indexed (fun index ty => check_defined_struct_ids m ty (CtxExternParam (ext_name e) index))
      (sig_params (ext_sig e)) ++
    check_defined_struct_ids m (sig_ret (ext_sig e)) (CtxExternReturn (ext_name e))) ++
  (functions m ≫= fun f =>
    check_defined_struct_ids m (return_type f) (CtxFuncReturn (fn_name f)) ++
    check_indexed (fun index p => check_defined_struct_ids m (param_ty p) (CtxFuncParam (fn_name f) index))
      (fn_params f) ++
    (blocks f ≫= fun b =>
      (block_params b ≫= fun p =>
        check_defined_struct_ids m (bp_ty p) (CtxBlockParam (fn_name f) (block_name b))) ++
      (block_insts b ≫= fun i =>
        check_defined_struct_ids m (inst_ty i) (CtxInstruction (fn_name f) (inst_id i)) ++
        match inst_kind i with
        | Alloca ty => check_defined_struct_ids m ty (CtxAlloca (fn_name f) (inst_id i))
        | _ => []
        end))).

Fixpoint type_needs_named_struct_layout (ty : IrType) : bool :=
  match ty with
  | TStruct _ => true
  | TArray element _ => type_needs_named_struct_layout element
  | _ => false
  end.

Definition check_function_struct_storage (f : Function) : list VerifyError :=
  err_if (type_needs_named_struct_layout (return_type f)) StructReturn ++
  check_indexed (fun index p => err_if (type_needs_named_struct_layout (param_ty p)) (StructParam index))
    (fn_params f) ++
  (blocks f ≫= fun b =>
    (block_params b ≫= fun p =>
      err_if (type_needs_named_struct_layout (bp_ty p)) (StructBlockParam (block_name b))) ++
    (block_insts b ≫= fun i =>
      err_if (type_needs_named_struct_layout (inst_ty i)) (StructInst (inst_id i)) ++
      match inst_kind i with
      | Alloca ty => err_if (type_needs_named_struct_layout ty) (StructAlloca (inst_id i))
      | GetElementPtr _ _ =>
          match inst_ty i with
          | TPtr element => err_if (type_needs_named_struct_layout element) (StructGep (inst_id i))
          | _ => []
          end
      | _ => []
      end)).

Fixpoint global_array_initializer_element_entries (ty : IrType) (kind : GlobalArrayInitializerKind) : option Z :=
  match ty, kind with
  | (TBool | TInt _), GAInteger | TFloat _, GAFloat => Some 1
  | TArray element count, _ =>
      n ← global_array_initializer_element_entries element kind; checked_mul_u64 n count
  | _, _ => None
  end.

Definition global_array_initializer_entries (ty : IrType) (kind : GlobalArrayInitializerKind) : option Z :=
  match ty with
  | TArray element count => n ← global_array_initializer_element_entries element kind; checked_mul_u64 n count
  | _ => None
  end.

Definition check_global_array_initializer (g : Global) : list VerifyError :=
  let check (kind : GlobalArrayInitializerKind) (actual : Z) :=
    match global_array_initializer_entries (global_ty g) kind with
    | None => [InitializerIncompatible (global_name g) kind (global_ty g)]
    | Some expected => err_if (negb (actual =? expected)) (InitializerCount (global_name g) actual expected)
    end in
  match initializer g with
  | Some (GIntArray vs) => check GAInteger (Z.of_nat (length vs))
  | Some (GFloatArray vs) => check GAFloat (Z.of_nat (length vs))
  | _ => []
  end.

Definition check_global (l : TargetLayout) (g : Global) : list VerifyError :=
  if type_needs_named_struct_layout (global_ty g) then [GlobalNamedStruct (global_name g)]
  else match try_size_bytes l (global_ty g) with
       | inl SizeOverflow => [GlobalSizeOverflow (global_name g) (global_ty g)]
       | _ => check_global_array_initializer g
       end.

Definition internal_call_types_match (expected actual : IrType) : bool :=
  bool_decide (expected = actual) || (is_ptr expected && is_ptr actual).

Definition check_internal_call_signatures (m : Module_) (caller : Function) : list VerifyError :=
  blocks caller ≫= fun b => block_insts b ≫= fun i =>
    match inst_kind i with
    | Call (Internal idx) args =>
        match functions m !! N.to_nat idx with
        | None => [CallIndex (inst_id i) idx (length (functions m))]
        | Some callee =>
            err_if (negb (internal_call_types_match (return_type callee) (inst_ty i)))
              (CallResult (inst_id i) (fn_name callee) (return_type callee) (inst_ty i)) ++
            err_if (negb (length args =? length (fn_params callee))%nat)
              (CallArity (inst_id i) (fn_name callee) (length (fn_params callee)) (length args)) ++
            check_indexed (fun index p =>
              match value_type caller p.1 with
              | None => []
              | Some actual =>
                  err_if (negb (internal_call_types_match (param_ty p.2) actual))
                    (CallArg (inst_id i) (fn_name callee) index (param_ty p.2) actual)
              end) (zip args (fn_params callee))
        end
    | _ => []
    end.

(** * Function-level checks *)

(** Step 1: unique block identities and present terminators.  [seen] maps an
    identifier to the name of its first block. *)
Fixpoint check_block_ids (seen : gmap BlockId string) (bs : list BasicBlock) : list VerifyError * bool :=
  match bs with
  | [] => ([], false)
  | b :: bs =>
      let no_term := err_if (bool_decide (block_term b = None)) (NoTerminator (block_name b)) in
      match seen !! block_id b with
      | Some first =>
          let '(es, _) := check_block_ids seen bs in
          (DuplicateBlock (block_id b) first (block_name b) :: no_term ++ es, true)
      | None =>
          let '(es, dup) := check_block_ids (<[block_id b := block_name b]> seen) bs in
          (no_term ++ es, dup)
      end
  end.

(** Step 2: the entry block has neither parameters nor predecessors. *)
Definition check_entry (f : Function) (entry_block : BasicBlock) : list VerifyError :=
  err_if (bool_decide (block_params entry_block <> [])) EntryHasParams ++
  (blocks f ≫= fun b =>
    match block_term b with
    | Some t => err_if (bool_decide (entry f ∈ terminator_targets t)) (BranchToEntry (block_name b))
    | None => []
    end).

Definition collect_defined_values (f : Function) : gset ValueId :=
  foldl (fun s b =>
      foldl (fun s i => {[inst_id i]} ∪ s) (foldl (fun s p => {[bp_id p]} ∪ s) s (block_params b)) (block_insts b))
    (foldl (fun s p => {[param_id p]} ∪ s) ∅ (fn_params f)) (blocks f).

(** Step 3: every used identifier is defined somewhere. *)
Definition check_defined_uses (f : Function) : list VerifyError :=
  let defined := collect_defined_values f in
  blocks f ≫= fun b =>
    (block_insts b ≫= fun i => inst_uses (inst_kind i) ≫= fun v =>
      err_if (bool_decide (v ∉ defined)) (UndefinedUse v (block_name b))) ++
    match block_term b with
    | Some t => terminator_uses t ≫= fun v =>
        err_if (bool_decide (v ∉ defined)) (UndefinedTermUse v (block_name b))
    | None => []
    end.

Definition check_type_cache_entry (f : Function) (v : ValueId) (defining : IrType) : list VerifyError :=
  match cached_value_type f v with
  | Some cached => err_if (bool_decide (cached <> defining)) (StaleTypeCache v cached defining)
  | None => []
  end.

(** Step 3a. *)
Definition check_type_cache (f : Function) : list VerifyError :=
  (fn_params f ≫= fun p => check_type_cache_entry f (param_id p) (param_ty p)) ++
  (blocks f ≫= fun b =>
    (block_params b ≫= fun p => check_type_cache_entry f (bp_id p) (bp_ty p)) ++
    (block_insts b ≫= fun i => check_type_cache_entry f (inst_id i) (inst_ty i))).

(** Step 4: [seen_values.insert(id)] over a list of identifiers. *)
Fixpoint check_unique (seen : gset ValueId) (ids : list ValueId) : gset ValueId * list VerifyError :=
  match ids with
  | [] => (seen, [])
  | v :: ids =>
      let '(seen', es) := check_unique ({[v]} ∪ seen) ids in
      (seen', err_if (bool_decide (v ∈ seen)) (DuplicateValue v) ++ es)
  end.

Fixpoint check_unique_blocks (seen : gset ValueId) (bs : list BasicBlock) : list VerifyError :=
  match bs with
  | [] => []
  | b :: bs =>
      let '(s1, e1) := check_unique seen (bp_id <$> block_params b) in
      let '(s2, e2) := check_unique s1 (inst_id <$> block_insts b) in
      e1 ++ e2 ++ check_unique_blocks s2 bs
  end.

Definition check_unique_values (f : Function) : list VerifyError :=
  let '(s, es) := check_unique ∅ (param_id <$> fn_params f) in
  es ++ check_unique_blocks s (blocks f).

(** Step 5. *)
Definition check_return_type (f : Function) (t : Terminator) (from : string) : list VerifyError :=
  match t with
  | Return value =>
      match return_type f, value with
      | Void, None => []
      | Void, Some v => [ReturnFromVoid from v]
      | expected, None => [ReturnMissing from expected]
      | expected, Some v =>
          match value_type f v with
          | Some actual => err_if (bool_decide (actual <> expected)) (ReturnMismatch from expected actual v)
          | None => [ReturnUntyped from v expected]
          end
      end
  | _ => []
  end.

Definition check_edge (f : Function) (from : string) (dest : BlockId) (args : list ValueId) : list VerifyError :=
  match try_block f dest with
  | None => []
  | Some target =>
      if negb (length (block_params target) =? length args)%nat
      then [BranchArity from (block_name target) (length (block_params target)) (length args)]
      else check_indexed (fun i p =>
             match value_type f p.2 with
             | Some ty => err_if (bool_decide (ty <> bp_ty p.1)) (BranchArg from (block_name target) i (bp_ty p.1) ty)
             | None => []
             end) (zip (block_params target) args)
  end.

Definition check_switch (f : Function) (selector : ValueId) (cases : list (Z * BlockId)) (default : BlockId)
    : list VerifyError :=
  match value_type f selector with
  | Some ty =>
      if bool_decide (is_Some (switch_int_width ty))
      then cases ≫= fun c => err_if (negb (switch_case_is_representable ty c.1)) (SwitchCaseRange c.1 ty)
      else [SwitchSelector ty]
  | None => [SwitchUntyped selector]
  end ++
  match try_block f default with
  | Some b => err_if (bool_decide (block_params b <> [])) (SwitchDefaultParams (block_name b))
  | None => []
  end ++
  (cases ≫= fun c =>
    match try_block f c.2 with
    | Some b => err_if (bool_decide (block_params b <> [])) (SwitchCaseParams (block_name b))
    | None => []
    end).

Definition check_branch_types (f : Function) (t : Terminator) (from : string) : list VerifyError :=
  match t with
  | CondBranch cond _ _ _ _ =>
      match value_type f cond with
      | Some TBool => []
      | Some ty => [CondNotBool from ty]
      | None => [CondUntyped from cond]
      end
  | _ => []
  end ++
  match t with
  | Branch d args => check_edge f from d args
  | CondBranch _ td ta fd fa => check_edge f from td ta ++ check_edge f from fd fa
  | Switch s cases d => check_switch f s cases d
  | _ => []
  end.

Definition check_terminators (f : Function) : list VerifyError :=
  blocks f ≫= fun b =>
    match block_term b with
    | Some t => check_branch_types f t (block_name b) ++ check_return_type f t (block_name b)
    | None => []
    end.

(** Step 7. *)
Definition check_targets (f : Function) : list VerifyError :=
  let ids : gset BlockId := list_to_set (block_id <$> blocks f) in
  blocks f ≫= fun b =>
    match block_term b with
    | Some t => terminator_targets t ≫= fun d => err_if (bool_decide (d ∉ ids)) (UndefinedTarget (block_name b) d)
    | None => []
    end.

(** * SSA dominance (step 8) *)

Definition value_def_block (f : Function) : gmap ValueId BlockId :=
  foldl (fun m b =>
      foldl (fun m i => <[inst_id i := block_id b]> m)
        (foldl (fun m p => <[bp_id p := block_id b]> m) m (block_params b)) (block_insts b))
    (foldl (fun m p => <[param_id p := entry f]> m) ∅ (fn_params f)) (blocks f).

(** [idx as i32] *)
Definition as_i32 (n : nat) : Z := swrap 32 (Z.of_nat n).

Definition inst_order (b : BasicBlock) : gmap ValueId Z :=
  foldl (fun m p => <[inst_id p.2 := as_i32 p.1]> m)
    (foldl (fun m p => <[bp_id p := -1]> m) ∅ (block_params b))
    (zip (seq 0 (length (block_insts b))) (block_insts b)).

(** The closure [check_use]. *)
Definition check_use (f : Function) (doms : DominatorInfo) (def_blocks : gmap ValueId BlockId)
    (b : BasicBlock) (order : gmap ValueId Z) (v : ValueId) (use_idx : Z) : option (list VerifyError) :=
  match def_blocks !! v with
  | None => Some []
  | Some def_block =>
      if bool_decide (def_block = block_id b) then
        match order !! v with
        | Some def_idx => Some (err_if (use_idx <=? def_idx) (UseBeforeDef v (block_name b)))
        | None => Some []
        end
      else if negb (dominates doms def_block (block_id b)) then
        d ← try_block f def_block; Some [NotDominated v (block_name d) (block_name b)]
      else Some []
  end.

Definition check_block_dominance (f : Function) (doms : DominatorInfo) (def_blocks : gmap ValueId BlockId)
    (b : BasicBlock) : option (list VerifyError) :=
  let order := inst_order b in
  es1 ← check_all (fun p =>
          check_all (fun v => check_use f doms def_blocks b order v (as_i32 p.1)) (inst_uses (inst_kind p.2)))
        (zip (seq 0 (length (block_insts b))) (block_insts b));
  es2 ← match block_term b with
        | Some t => check_all (fun v => check_use f doms def_blocks b order v (as_i32 (length (block_insts b))))
                      (terminator_uses t)
        | None => Some []
        end;
  Some (es1 ++ es2).

Definition check_dominance (f : Function) : option (list VerifyError) :=
  let doms := compute_dominator_info f in
  let def_blocks := value_def_block f in
  check_all (check_block_dominance f doms def_blocks) (blocks f).

(** * Instruction types (step 6) *)

Definition vector_shape_error (ty : IrType) : option VectorShapeError :=
  match ty with
  | TVector lanes elem =>
      let check (elem_bits : Z) :=
        if negb (bool_decide (lanes ∈ [2; 4; 8; 16])) then Some (VecLaneCount lanes)
        else if negb (lanes * elem_bits =? 128) then Some (VecTotalWidth (lanes * elem_bits) lanes elem_bits)
        else None in
      match elem with
      | TInt w => check (int_bits w)
      | TFloat w => check (float_bits w)
      | other => Some (VecElemNotScalar other)
      end
  | _ => None
  end.

(** [true]: the shape is unsupported. *)
Definition vector_arithmetic_shape_error (ty : IrType) : bool :=
  match ty with
  | TVector 4 (TInt I32 | TFloat F32) | TVector 2 (TInt I64 | TFloat F64) => false
  | _ => true
  end.

Definition abi_matches (a : RuntimeAbiType) (ty : IrType) : bool :=
  match a, ty with
  | AVoid, Void | AI32, TInt I32 | AI64, TInt I64 | AF32, TFloat F32
  | ABytePtr, TPtr (TInt I8) | ADataPtr, TPtr _
  | APrintableInt, TInt (I32 | I64 | I128) => true
  | _, _ => false
  end.

Definition runtime_signature (rf : RuntimeFunc) : list RuntimeAbiType * RuntimeAbiType :=
  match rf with
  | PrintInt => ([APrintableInt], AVoid)
  | PrintReal => ([AF32], AVoid)
  | PrintString => ([ABytePtr; AI64], AVoid)
  | PrintLogical => ([AI32], AVoid)
  | PrintNewline => ([], AVoid)
  | Allocate => ([AI64], ABytePtr)
  | Deallocate => ([ADataPtr], AVoid)
  | StringConcat => ([ABytePtr; AI64; ABytePtr; AI64], ABytePtr)
  | StringCopy => ([ABytePtr; AI64; ABytePtr; AI64], AVoid)
  | StringCompare => ([ABytePtr; AI64; ABytePtr; AI64], AI32)
  | Stop | ErrorStop => ([], AVoid)
  | CheckBounds => ([AI64; AI64; AI64], AVoid)
  | CheckArrayAssignmentConformance => ([ADataPtr; ADataPtr], AVoid)
  end.

Definition check_runtime_call_signature (f : Function) (i : Inst) (rf : RuntimeFunc) (args : list ValueId)
    : list VerifyError :=
  let '(expected_args, expected_result) := runtime_signature rf in
  err_if (negb (abi_matches expected_result (inst_ty i)))
    (RuntimeResult rf (inst_id i) expected_result (inst_ty i)) ++
  err_if (negb (length args =? length expected_args)%nat)
    (RuntimeArity rf (inst_id i) (length expected_args) (length args)) ++
  check_indexed (fun index p =>
    match value_type f p.1 with
    | None => []
    | Some actual => err_if (negb (abi_matches p.2 actual)) (RuntimeArg rf (inst_id i) index p.2 actual)
    end) (zip args expected_args).

Definition is_vector_arith (k : InstKind) : bool :=
  match k with
  | VAdd _ _ | VSub _ _ | VMul _ _ | VDiv _ _ | VMin _ _ | VMax _ _ | VFma _ _ _
  | VNeg _ | VAbs _ | VSqrt _ => true
  | _ => false
  end.

Definition check_int_binop (f : Function) (i : Inst) (a b : ValueId) : list VerifyError :=
  let ta := value_type f a in
  let tb := value_type f b in
  err_if (bool_decide (ta = None)) (IntOpUntyped (inst_id i) a) ++
  err_if (bool_decide (tb = None)) (IntOpUntyped (inst_id i) b) ++
  match ta, tb with
  | Some ta, Some tb =>
      err_if (negb (is_int ta)) (IntOpOperand (inst_id i) a ta) ++
      err_if (negb (is_int tb)) (IntOpOperand (inst_id i) b tb) ++
      err_if (is_int ta && is_int tb && bool_decide (ta <> tb)) (IntOpWidths (inst_id i) a ta b tb) ++
      err_if (is_int ta && bool_decide (ta = tb) && bool_decide (ta <> inst_ty i))
        (IntOpResult (inst_id i) (inst_ty i) ta)
  | _, _ => []
  end.

Definition check_float_binop (f : Function) (i : Inst) (a b : ValueId) : list VerifyError :=
  match value_type f a, value_type f b with
  | Some ta, Some tb =>
      err_if (negb (is_float ta)) (FloatOpOperand (inst_id i) a ta) ++
      err_if (negb (is_float tb)) (FloatOpOperand (inst_id i) b tb) ++
      err_if (is_float ta && is_float tb && bool_decide (ta <> tb)) (FloatOpWidths (inst_id i) a ta b tb) ++
      err_if (is_float ta && bool_decide (ta = tb) && bool_decide (ta <> inst_ty i))
        (FloatOpResult (inst_id i) (inst_ty i) ta)
  | _, _ => []
  end.

Definition check_store (f : Function) (i : Inst) (v addr : ValueId) : list VerifyError :=
  let addr_ty := value_type f addr in
  match addr_ty with
  | Some ty => err_if (negb (is_ptr ty)) (StoreNonPointer (inst_id i) addr ty)
  | None => []
  end ++
  match addr_ty, value_type f v with
  | Some (TPtr inner), Some vty =>
      let pointee_is_byte := bool_decide (inner = TInt I8) in
      let both_ptrs := is_ptr inner && is_ptr vty in
      err_if (negb pointee_is_byte && negb both_ptrs && bool_decide (vty <> inner))
        (StorePointee (inst_id i) vty inner)
  | _, _ => []
  end.

Definition check_lane (f : Function) (v : ValueId) (lane : Z) (e : Z -> Z -> VerifyError) : list VerifyError :=
  match value_type f v with
  | Some (TVector lanes _) => err_if (lanes <=? lane) (e lane lanes)
  | _ => []
  end.

Definition check_type_consistency (f : Function) (i : Inst) : list VerifyError :=
  let ty := inst_ty i in
  match vector_shape_error ty with Some e => [VectorShape e] | None => [] end ++
  err_if (is_vector_arith (inst_kind i) && vector_arithmetic_shape_error ty) (VectorArithmetic (inst_id i) ty) ++
  match inst_kind i with
  | IAdd a b | ISub a b | IMul a b | IDiv a b | IMod a b => check_int_binop f i a b
  | FAdd a b | FSub a b | FMul a b | FDiv a b | FPow a b => check_float_binop f i a b
  | FNeg a | FAbs a | FSqrt a =>
      match value_type f a with
      | Some oty =>
          if negb (is_float oty) then [FloatUnaryOperand (inst_id i) a oty]
          else err_if (bool_decide (oty <> ty)) (FloatUnaryResult (inst_id i) ty oty)
      | None => []
      end
  | Store v addr | VolatileStore v addr => check_store f i v addr
  | Load addr | VolatileLoad addr =>
      match value_type f addr with
      | Some aty => err_if (negb (is_ptr aty)) (LoadNonPointer (inst_id i) addr aty)
      | None => []
      end
  | GetElementPtr _ indices => err_if (1 <? length indices)%nat (GepIndices (inst_id i) (length indices))
  | BitAnd a b | BitOr a b | BitXor a b | Shl a b | LShr a b | AShr a b =>
      match value_type f a, value_type f b with
      | Some ta, Some tb =>
          err_if (negb (is_int ta) || negb (is_int tb)) (BitwiseOperands (inst_id i) ta tb) ++
          err_if (is_int ta && is_int tb && bool_decide (ta <> tb)) (BitwiseWidths (inst_id i) ta tb)
      | _, _ => []
      end
  | And a b | Or a b =>
      match value_type f a, value_type f b with
      | Some ta, Some tb =>
          err_if (bool_decide (ta <> TBool) || bool_decide (tb <> TBool)) (LogicalOperands (inst_id i) ta tb)
      | _, _ => []
      end
  | ICmp _ a b =>
      match value_type f a, value_type f b with
      | Some ta, Some tb =>
          if negb (is_int ta) || negb (is_int tb) then [ICmpOperands (inst_id i) ta tb]
          else err_if (bool_decide (ta <> tb)) (ICmpWidths a ta b tb)
      | _, _ => []
      end
  | Select c t fl =>
      match value_type f c with
      | Some cty => err_if (bool_decide (cty <> TBool)) (SelectCond c cty)
      | None => []
      end ++
      match value_type f t, value_type f fl with
      | Some ty1, Some ty2 =>
          err_if (bool_decide (ty1 <> ty2) || bool_decide (ty1 <> ty)) (SelectArms (inst_id i) ty1 ty2 ty)
      | _, _ => []
      end
  | RuntimeCall rf args => check_runtime_call_signature f i rf args
  | VAdd a b | VSub a b | VMul a b | VDiv a b | VMin a b | VMax a b =>
      match value_type f a, value_type f b with
      | Some ta, Some tb => err_if (bool_decide (ta <> tb) || bool_decide (ta <> ty)) (VBinopTypes ta tb ty)
      | _, _ => []
      end
  | VFma a b c =>
      match value_type f a, value_type f b, value_type f c with
      | Some ta, Some tb, Some tc =>
          err_if (bool_decide (ta <> tb) || bool_decide (tb <> tc) || bool_decide (ta <> ty)) (VFmaTypes ta tb tc ty)
      | _, _, _ => []
      end
  | VSelect _ t fl =>
      match value_type f t, value_type f fl with
      | Some ty1, Some ty2 => err_if (bool_decide (ty1 <> ty2) || bool_decide (ty1 <> ty)) (VSelectTypes ty1 ty2 ty)
      | _, _ => []
      end
  | VNeg a | VAbs a | VSqrt a =>
      match value_type f a with
      | Some ta => err_if (bool_decide (ta <> ty)) (VUnopTypes ta ty)
      | None => []
      end
  | VExtract v lane => check_lane f v lane VExtractLane
  | VInsert v lane _ => check_lane f v lane VInsertLane
  | _ => []
  end.

(** * The verifier *)

(** [None] is the panic of [func.block(func.entry)] or of [func.block(def_block)]. *)
Definition verify_function (f : Function) : option (list VerifyError) :=
  let '(es1, dup) := check_block_ids ∅ (blocks f) in
  if dup then Some es1
  else
    entry_block ← try_block f (entry f);
    es8 ← check_dominance f;
    Some (es1 ++ check_entry f entry_block ++ check_defined_uses f ++ check_type_cache f ++
          check_unique_values f ++ check_terminators f ++
          (blocks f ≫= fun b => block_insts b ≫= check_type_consistency f) ++
          check_targets f ++ es8).

Definition verify_module (m : Module_) : option (list VerifyError) :=
  fs ← check_all (fun f =>
         es ← verify_function f;
         Some (InFunction (fn_name f) <$>
               es ++ check_internal_call_signatures m f ++ check_function_struct_storage f)) (functions m);
  Some (check_module_struct_references m ++ (globals m ≫= check_global (layout m)) ++ fs).

(** * Silent checks *)

Lemma err_if_nil c e : err_if c e = [] <-> c = false.
Proof. by destruct c. Qed.


Lemma check_all_nil {A} (g : A -> option (list VerifyError)) l :
  check_all g l = Some [] <-> Forall (fun x => g x = Some []) l.
Proof.
  unfold check_all. induction l as [|x l IH]; [split; [constructor | done]|].
  rewrite Forall_cons_iff, <- IH. clear IH. simpl. destruct (g x) as [es|]; simpl; [|split; [done | by intros [? _]]].
  destruct (mapM g l) as [ess|]; simpl; [|split; [done | by intros [_ ?]]].
  split; [intros [= H]; apply app_nil in H as [-> ->]; done | intros [[= ->] [= ->]]; done].
Qed.

Lemma check_block_ids_nil seen bs d :
  check_block_ids seen bs = ([], d) -> d = false /\ Forall (fun b => is_Some (block_term b)) bs.
Proof.
  revert seen d. induction bs as [|b bs IH]; intros seen d; simpl; [by intros [= <-]|].
  destruct (seen !! block_id b).
  - by destruct (check_block_ids seen bs).
  - destruct (check_block_ids _ bs) as [es d'] eqn:E. intros [= H <-].
    apply app_nil in H as [H1 ->]. apply IH in E as [-> Hall]. split; [done|]. constructor; [|done].
    apply err_if_nil, bool_decide_eq_false in H1. by apply not_eq_None_Some.
Qed.

Lemma collect_defined_values_spec f v : v ∈ collect_defined_values f <-> v ∈ fn_def_ids f.
Proof.
  unfold collect_defined_values, fn_def_ids, param_ids. rewrite elem_of_app.
  assert (Hgen : forall bs (s : gset ValueId), v ∈ foldl (fun s b =>
      foldl (fun s i => {[inst_id i]} ∪ s) (foldl (fun s p => {[bp_id p]} ∪ s) s (block_params b)) (block_insts b)) s bs
    <-> v ∈ s \/ v ∈ (bs ≫= def_ids)).
  { induction bs as [|b bs IH]; intros s; [simpl; set_solver|].
    cbn [foldl]. rewrite IH, !foldl_union_elem, bind_cons, elem_of_app. unfold def_ids at 2.
    rewrite elem_of_app. tauto. }
  rewrite Hgen, foldl_union_elem. set_solver.
Qed.

Lemma check_unique_nil seen ids s :
  check_unique seen ids = (s, []) ->
  NoDup ids /\ (forall v, v ∈ ids -> v ∉ seen) /\ (forall v, v ∈ s <-> v ∈ seen \/ v ∈ ids).
Proof.
  revert seen. induction ids as [|v ids IH]; intros seen; simpl.
  - intros [= <-]. split; [constructor|]. split; [intros v Hv; by apply not_elem_of_nil in Hv | set_solver].
  - destruct (check_unique ({[v]} ∪ seen) ids) as [s' es] eqn:E. intros [= <- H].
    apply app_nil in H as [H1 ->]. apply err_if_nil, bool_decide_eq_false in H1.
    apply IH in E as (Hnd & Hdis & Hs). split; [|split].
    + apply list.NoDup_cons. split; [|done]. intros Hv. specialize (Hdis v Hv). set_solver.
    + intros u Hu. apply elem_of_cons in Hu as [->|Hu]; [done|]. specialize (Hdis u Hu). set_solver.
    + intros u. rewrite Hs. set_solver.
Qed.

Lemma check_unique_blocks_nil seen bs :
  check_unique_blocks seen bs = [] ->
  NoDup (bs ≫= def_ids) /\ forall v, v ∈ (bs ≫= def_ids) -> v ∉ seen.
Proof.
  revert seen. induction bs as [|b bs IH]; intros seen; cbn [check_unique_blocks].
  - intros _. split; [constructor | intros v Hv; by apply not_elem_of_nil in Hv].
  - destruct (check_unique seen (bp_id <$> block_params b)) as [s1 e1] eqn:E1.
    destruct (check_unique s1 (inst_id <$> block_insts b)) as [s2 e2] eqn:E2.
    intros H. apply app_nil in H as [-> H]. apply app_nil in H as [-> H].
    apply check_unique_nil in E1 as (N1 & D1 & S1), E2 as (N2 & D2 & S2).
    destruct (IH _ H) as [N3 D3]. rewrite bind_cons. unfold def_ids at 1 3, bparam_ids, inst_ids. split.
    + apply list.NoDup_app. split; [apply list.NoDup_app; split; [done|]; split; [|done]|].
      * intros v Hv Hi. apply (D2 v Hi), S1. by right.
      * split; [|done]. intros v Hv Hb. apply (D3 v Hb), S2. rewrite S1. set_solver.
    + intros v Hv. rewrite !elem_of_app in Hv. destruct Hv as [[Hv|Hv]|Hv].
      * by apply D1.
      * intros Hs. apply (D2 v Hv), S1. by left.
      * intros Hs. apply (D3 v Hv), S2. rewrite S1. tauto.
Qed.

Lemma check_unique_values_nil f : check_unique_values f = [] -> NoDup (fn_def_ids f).
Proof.
  unfold check_unique_values. destruct (check_unique ∅ _) as [s es] eqn:E. intros H.
  apply app_nil in H as [-> H]. apply check_unique_nil in E as (N1 & _ & S1).
  apply check_unique_blocks_nil in H as [N2 D2]. unfold fn_def_ids. apply list.NoDup_app.
  split; [done|]. split; [|done]. intros v Hv Hb. apply (D2 v Hb), S1. by right.
Qed.

(** * The maps of the dominance check *)

Definition def_sites (f : Function) : list (ValueId * BlockId) :=
  ((fun v => (v, entry f)) <$> param_ids f) ++ (blocks f ≫= fun b => (fun v => (v, block_id b)) <$> def_ids b).

Lemma value_def_block_fold f :
  value_def_block f = foldl (fun m p => <[p.1 := p.2]> m) ∅ (def_sites f).
Proof.
  unfold value_def_block, def_sites, param_ids. rewrite foldl_app, !foldl_fmap. cbn [fst snd].
  generalize (foldl (fun m p => <[param_id p := entry f]> m) (∅ : gmap ValueId BlockId) (fn_params f)).
  generalize (blocks f). intros bs. induction bs as [|b bs IH]; intros m; [done|].
  rewrite bind_cons, foldl_app, <- IH. cbn [foldl]. f_equal.
  unfold def_ids, bparam_ids, inst_ids. by rewrite fmap_app, foldl_app, !foldl_fmap.
Qed.

Lemma def_sites_ids f : (def_sites f).*1 = fn_def_ids f.
Proof.
  unfold def_sites, fn_def_ids. rewrite fmap_app. f_equal.
  - rewrite <- list_fmap_compose. apply list_fmap_id.
  - rewrite fmap_bind. apply list_bind_ext; [|done]. intros b. rewrite <- list_fmap_compose. apply list_fmap_id.
Qed.

Lemma value_def_block_spec f v d :
  NoDup (fn_def_ids f) ->
  value_def_block f !! v = Some d <->
    (v ∈ param_ids f /\ d = entry f) \/ exists b, b ∈ blocks f /\ v ∈ def_ids b /\ d = block_id b.
Proof.
  intros Hnd. rewrite value_def_block_fold, foldl_insert_elem by (by rewrite def_sites_ids).
  rewrite lookup_empty. unfold def_sites. rewrite elem_of_app, list_elem_of_fmap, list_elem_of_bind.
  split.
  - intros [[(u & [= -> ->] & Hu)|(b & Hb & Hin)]|[_ ?]]; [by left | | done].
    right. apply list_elem_of_fmap in Hb as (u & [= -> ->] & Hu). eauto.
  - intros [[Hv ->]|(b & Hb & Hv & ->)]; left; [left; eauto | right].
    exists b. split; [|done]. apply list_elem_of_fmap. eauto.
Qed.

Definition order_sites (b : BasicBlock) : list (ValueId * Z) :=
  ((fun v => (v, -1)) <$> bparam_ids b) ++
  ((fun p => (inst_id p.2, as_i32 p.1)) <$> zip (seq 0 (length (block_insts b))) (block_insts b)).

Lemma inst_order_fold b : inst_order b = foldl (fun m p => <[p.1 := p.2]> m) ∅ (order_sites b).
Proof. unfold inst_order, order_sites, bparam_ids. by rewrite foldl_app, !foldl_fmap. Qed.

Lemma order_sites_ids b : (order_sites b).*1 = def_ids b.
Proof.
  unfold order_sites, def_ids. rewrite fmap_app. f_equal.
  - rewrite <- list_fmap_compose. apply list_fmap_id.
  - unfold inst_ids. transitivity (inst_id <$> (zip (seq 0 (length (block_insts b))) (block_insts b)).*2).
    + by rewrite <- !list_fmap_compose.
    + rewrite snd_zip by (rewrite length_seq; lia). done.
Qed.

(** Blocks short enough for [i32] positions. *)
Definition small_blocks (f : Function) : Prop :=
  forall b, b ∈ blocks f -> Z.of_nat (length (block_insts b)) < 2 ^ 31.

Lemma as_i32_small n : Z.of_nat n < 2 ^ 31 -> as_i32 n = Z.of_nat n.
Proof.
  intros H. unfold as_i32. apply swrap_id; [lia|]. unfold srange. change (32 - 1) with 31. lia.
Qed.

Section dominance.
Context (f : Function) (Hok : block_index_ok f) (Hentry : entry f ∈ (block_id <$> blocks f)).
Context (Hnd : NoDup (fn_def_ids f)) (Hsmall : small_blocks f).

Lemma inst_order_spec b v k :
b ∈ blocks f ->
inst_order b !! v = Some k <->
(v ∈ bparam_ids b /\ k = -1) \/
exists j ins, block_insts b !! j = Some ins /\ inst_id ins = v /\ k = Z.of_nat j.
Proof.
intros Hb. assert (Hnb : NoDup (def_ids b)).
{ apply list.NoDup_app in Hnd as (_ & _ & H). by eapply (NoDup_bind_part def_ids). }
rewrite inst_order_fold, foldl_insert_elem by (by rewrite order_sites_ids).
rewrite lookup_empty. unfold order_sites. rewrite elem_of_app, !list_elem_of_fmap.
assert (Hj : forall j ins, block_insts b !! j = Some ins -> as_i32 j = Z.of_nat j).
{ intros j ins Hj. apply as_i32_small. specialize (Hsmall b Hb). apply lookup_lt_Some in Hj. lia. }
split.
- intros [[(u & [= -> ->] & Hu)|([j ins] & [= -> ->] & Hin)]|[_ ?]]; [by left | right | done].
apply elem_of_zip_seq in Hin as [_ Hin]. rewrite Nat.sub_0_r in Hin. exists j, ins. simpl. eauto.
- intros [[Hv ->]|(j & ins & Hi & <- & ->)]; left; [left; eauto | right].
exists (j, ins). simpl. split; [by erewrite Hj|]. apply elem_of_zip_seq. rewrite Nat.sub_0_r. split; [lia|done].
Qed.

(** The use check is silent exactly when the definition is available. *)
Lemma check_use_spec b n v :
b ∈ blocks f -> (n <= length (block_insts b))%nat -> v ∈ fn_def_ids f ->
check_use f (compute_dominator_info f) (value_def_block f) b (inst_order b) v (as_i32 n) = Some [] <->
(v ∈ param_ids f /\ (block_id b = entry f \/ reachable f (block_id b))) \/
(v ∉ param_ids f /\ avail f b n v).
Proof.
intros Hb Hn Hv. unfold check_use.
assert (Hn32 : as_i32 n = Z.of_nat n) by (apply as_i32_small; specialize (Hsmall b Hb); lia).
assert (Hids : block_id b ∈ (block_id <$> blocks f)) by (by apply list_elem_of_fmap_2).
destruct (value_def_block f !! v) as [d|] eqn:Ed.
2:{ exfalso. apply elem_of_app in Hv as [Hv|Hv].
- assert (value_def_block f !! v = Some (entry f)) by (apply value_def_block_spec; [done | by left]). congruence.
- apply list_elem_of_bind in Hv as (b' & Hv & Hb').
assert (value_def_block f !! v = Some (block_id b')) by (apply value_def_block_spec; [done | right; eauto]).
congruence. }
assert (Hdom : forall d, d ∈ (block_id <$> blocks f) ->
dominates (compute_dominator_info f) d (block_id b) = true <-> dominates_path f d (block_id b)).
{ intros d' Hd'. rewrite (dominates_spec f Hok Hentry) by done. tauto. }
apply value_def_block_spec in Ed as [[Hp ->]|(b' & Hb' & Hvb & ->)]; [| |done].
- case_bool_decide as E.
+ destruct (inst_order b !! v) as [k|] eqn:Ek.
* exfalso. apply (inst_order_spec b v k Hb) in Ek.
eapply (def_not_param f Hnd b v); [done | | done]. apply elem_of_app.
destruct Ek as [[? _]|(j & ins & Hj & <- & _)]; [by left | right].
apply list_elem_of_fmap_2. by eapply list_elem_of_lookup_2.
* split; [intros _; left; split; [done | by left] | done].
+ destruct (dominates (compute_dominator_info f) (entry f) (block_id b)) eqn:Edom; simpl.
* apply Hdom in Edom; [|done]. split; [intros _; left; split; [done | right; apply Edom] | done].
* split.
-- destruct (try_block f (entry f)); done.
-- intros [[_ [?|Hr]]|[? _]]; [congruence | | done].
assert (dominates (compute_dominator_info f) (entry f) (block_id b) = true) as E'; [|congruence].
apply Hdom; [done|]. by apply dominates_entry.
- pose proof (def_not_param f Hnd b' v Hb' Hvb) as Hnp. case_bool_decide as E.
+ assert (b' = b) as -> by (eapply (NoDup_fmap_inj_on block_id); [by apply block_ids_NoDup | done..]).
destruct (inst_order b !! v) as [k|] eqn:Ek.
* apply (inst_order_spec b v k Hb) in Ek.
assert (Some (err_if (as_i32 n <=? k) (UseBeforeDef v (block_name b))) = Some [] <-> k < as_i32 n) as ->.
{ rewrite Hn32. split; [intros [= H]; apply err_if_nil in H; lia|]. intros H. f_equal. apply err_if_nil. lia. }
rewrite Hn32. destruct Ek as [[Hbp ->]|(j & ins & Hj & <- & ->)].
-- split; [intros _; right; split; [done|]; right; by left | lia].
-- split.
++ intros Hlt. right. split; [done|]. right; right; left. apply elem_of_take_iff. exists j.
split; [lia|]. unfold inst_ids. by rewrite list_lookup_fmap, Hj.
++ intros [[? _]|[_ Ha]]; [done|]. apply (avail_inst f Hnd b n j ins Hb Hj) in Ha. lia.
* exfalso. apply elem_of_app in Hvb as [Hbp|Hin].
-- assert (inst_order b !! v = Some (-1)) by (apply inst_order_spec; [done | by left]). congruence.
-- apply list_elem_of_fmap in Hin as (ins & -> & Hin). apply list_elem_of_lookup in Hin as [j Hj].
assert (inst_order b !! inst_id ins = Some (Z.of_nat j)) by (apply inst_order_spec; [done | right; eauto]). congruence.
+ assert (Hb'ids : block_id b' ∈ (block_id <$> blocks f)) by (by apply list_elem_of_fmap_2).
destruct (dominates (compute_dominator_info f) (block_id b') (block_id b)) eqn:Edom; simpl.
* apply Hdom in Edom; [|done]. split; [intros _; right; split; [done|]; right; right; right; eauto | done].
* split.
-- destruct (try_block f (block_id b')); done.
-- intros [[? _]|[_ Ha]]; [done|].
apply (avail_cross f Hnd b' b n v) in Ha; [|done..].
assert (dominates (compute_dominator_info f) (block_id b') (block_id b) = true) as E'; [|congruence].
by apply Hdom.
Qed.
End dominance.

(** * What an empty error list guarantees *)

(** The components of a silent run. *)
Record silent (f : Function) : Prop := {
  sil_terms : Forall (fun b => is_Some (block_term b)) (blocks f);
  sil_entry : exists eb, try_block f (entry f) = Some eb /\ check_entry f eb = [];
  sil_uses : check_defined_uses f = [];
  sil_cache : check_type_cache f = [];
  sil_unique : check_unique_values f = [];
  sil_branches : check_terminators f = [];
  sil_types : forall b i, b ∈ blocks f -> i ∈ block_insts b -> check_type_consistency f i = [];
  sil_targets : check_targets f = [];
  sil_dominance : check_dominance f = Some [] }.

Lemma verify_function_silent f : verify_function f = Some [] -> silent f.
Proof.
  unfold verify_function. destruct (check_block_ids ∅ (blocks f)) as [es1 dup] eqn:E1. destruct dup.
  - intros [= ->]. by apply check_block_ids_nil in E1 as [? _].
  - destruct (try_block f (entry f)) as [eb|] eqn:E2; simpl; [|done].
    destruct (check_dominance f) as [es8|] eqn:E8; simpl; [|done]. intros [= H].
    apply app_nil in H as [-> H]. apply check_block_ids_nil in E1 as [_ Ht].
    apply app_nil in H as [? H]. apply app_nil in H as [? H]. apply app_nil in H as [? H].
    apply app_nil in H as [? H]. apply app_nil in H as [? H]. apply app_nil in H as [Hty H].
    apply app_nil in H as [? ->]. split; try done; [eauto|].
    intros b i Hb Hi. rewrite bind_nil_iff, Forall_forall in Hty. specialize (Hty b Hb). simpl in Hty.
    rewrite bind_nil_iff, Forall_forall in Hty. by apply Hty.
Qed.

Section silent.
Context (f : Function) (Hok : block_index_ok f) (Hsmall : small_blocks f) (Hs : silent f).

Lemma silent_block {A} (g : BasicBlock -> list A) b : blocks f ≫= g = [] -> b ∈ blocks f -> g b = [].
Proof. rewrite bind_nil_iff, Forall_forall. auto. Qed.

Lemma silent_entry_in : entry f ∈ (block_id <$> blocks f).
Proof.
destruct (sil_entry f Hs) as (eb & He & _). apply try_block_Some in He as [Hin <-]; [|done].
by apply list_elem_of_fmap_2.
Qed.

Lemma silent_edge from d args :
check_edge f from d args = [] -> args_fit f d (length args).
Proof.
unfold check_edge. intros H b Hb Hid.
assert (try_block f d = Some b) as E by (by apply try_block_Some). rewrite E in H.
destruct (length (block_params b) =? length args)%nat eqn:El; simpl in H; [|done].
by apply Nat.eqb_eq in El.
Qed.

Lemma silent_noparams d (g : BasicBlock -> VerifyError) :
match try_block f d with
| Some b => err_if (bool_decide (block_params b <> [])) (g b) | None => [] end = [] ->
args_fit f d 0.
Proof.
intros H b Hb Hid. assert (try_block f d = Some b) as E by (by apply try_block_Some). rewrite E in H.
apply err_if_nil, bool_decide_eq_false, dec_stable in H. by rewrite H.
Qed.

Lemma silent_fits b t : b ∈ blocks f -> block_term b = Some t -> term_fits f t.
Proof.
intros Hb Ht. pose proof (silent_block _ b (sil_branches f Hs) Hb) as H. simpl in H. rewrite Ht in H.
apply app_nil in H as [H _]. unfold check_branch_types in H. apply app_nil in H as [_ H].
destruct t as [| | |s cases d|]; simpl; try done.
- by apply silent_edge in H.
- apply app_nil in H as [H1 H2]. by apply silent_edge in H1, H2.
- unfold check_switch in H. apply app_nil in H as [_ H]. apply app_nil in H as [H1 H2].
split; [by apply (silent_noparams d (fun b => SwitchDefaultParams (block_name b)))|]. rewrite bind_nil_iff in H2.
eapply Forall_impl; [exact H2|]. intros c Hc.
by apply (silent_noparams c.2 (fun b => SwitchCaseParams (block_name b))).
Qed.

Lemma silent_use_defined b i ins v :
b ∈ blocks f -> block_insts b !! i = Some ins -> v ∈ inst_uses (inst_kind ins) -> v ∈ fn_def_ids f.
Proof.
intros Hb Hi Hv. pose proof (silent_block _ b (sil_uses f Hs) Hb) as H. simpl in H.
apply app_nil in H as [H _]. rewrite bind_nil_iff, Forall_forall in H.
specialize (H ins (list_elem_of_lookup_2 _ _ _ Hi)). simpl in H.
rewrite bind_nil_iff, Forall_forall in H. specialize (H v Hv). simpl in H.
apply err_if_nil, bool_decide_eq_false, dec_stable in H. by apply collect_defined_values_spec.
Qed.

Lemma silent_term_use_defined b t v :
b ∈ blocks f -> block_term b = Some t -> v ∈ terminator_uses t -> v ∈ fn_def_ids f.
Proof.
intros Hb Ht Hv. pose proof (silent_block _ b (sil_uses f Hs) Hb) as H. simpl in H.
apply app_nil in H as [_ H]. rewrite Ht, bind_nil_iff, Forall_forall in H. specialize (H v Hv). simpl in H.
apply err_if_nil, bool_decide_eq_false, dec_stable in H. by apply collect_defined_values_spec.
Qed.

Lemma check_block_dominance_nil doms db b :
check_block_dominance f doms db b = Some [] ->
(forall i ins v, block_insts b !! i = Some ins -> v ∈ inst_uses (inst_kind ins) ->
check_use f doms db b (inst_order b) v (as_i32 i) = Some []) /\
(forall t v, block_term b = Some t -> v ∈ terminator_uses t ->
check_use f doms db b (inst_order b) v (as_i32 (length (block_insts b))) = Some []).
Proof.
unfold check_block_dominance. intros H.
destruct (check_all _ (zip _ _)) as [es1|] eqn:E1; simpl in H; [|done].
destruct (match block_term b with Some t => _ | None => _ end) as [es2|] eqn:E2; simpl in H; [|done].
injection H as H. apply app_nil in H as [-> ->]. rewrite check_all_nil, Forall_forall in E1. split.
- intros i ins v Hi Hv.
specialize (E1 (i, ins) ltac:(apply elem_of_zip_seq; rewrite Nat.sub_0_r; split; [lia | done])).
simpl in E1. rewrite check_all_nil, Forall_forall in E1. by apply E1.
- intros t v Ht Hv. rewrite Ht, check_all_nil, Forall_forall in E2. by apply E2.
Qed.

Lemma silent_avail b n v :
b ∈ blocks f -> (n <= length (block_insts b))%nat -> v ∈ fn_def_ids f ->
check_use f (compute_dominator_info f) (value_def_block f) b (inst_order b) v (as_i32 n) = Some [] ->
avail f b n v.
Proof.
intros Hb Hn Hv Hc. apply check_use_spec in Hc as [[Hp _]|[_ ?]]; [by left | done | done | | | done..].
- apply silent_entry_in.
- by apply check_unique_values_nil, sil_unique.
Qed.

Lemma silent_ssa_wf : ssa_wf f.
Proof.
pose proof (sil_dominance f Hs) as Hdom. unfold check_dominance in Hdom.
rewrite check_all_nil, Forall_forall in Hdom.
destruct (sil_entry f Hs) as (eb & He & Hce). apply app_nil in Hce as [Hep Hee].
pose proof (sil_terms f Hs) as Hts. rewrite Forall_forall in Hts.
split.
- done.
- apply silent_entry_in.
- intros b Hb Hid. apply try_block_Some in He as [Heb Heid]; [|done].
assert (b = eb) as -> by (eapply (NoDup_fmap_inj_on block_id); [by apply block_ids_NoDup | done | done | congruence]).
apply err_if_nil, bool_decide_eq_false, dec_stable in Hep. by rewrite Hep.
- intros b Hb Hin. pose proof (silent_block _ b Hee Hb) as H. simpl in H. unfold block_targets in Hin.
destruct (block_term b); [|by apply not_elem_of_nil in Hin].
by apply err_if_nil, bool_decide_eq_false in H.
- by apply check_unique_values_nil, sil_unique.
- done.
- intros b t Hb Hin. pose proof (silent_block _ b (sil_targets f Hs) Hb) as H. simpl in H. unfold block_targets in Hin.
destruct (block_term b); [|by apply not_elem_of_nil in Hin].
rewrite bind_nil_iff, Forall_forall in H. specialize (H t Hin). simpl in H.
apply err_if_nil, bool_decide_eq_false, dec_stable in H. by apply elem_of_list_to_set in H.
- intros b t Hb Ht. by eapply silent_fits.
- intros b i ins v Hb Hi Hv. apply silent_avail; [done | apply lookup_lt_Some in Hi; lia | |].
+ by eapply silent_use_defined.
+ by eapply (proj1 (check_block_dominance_nil _ _ _ (Hdom b Hb))).
- intros b t v Hb Ht Hv. apply silent_avail; [done | lia | |].
+ by eapply silent_term_use_defined.
+ by eapply (proj2 (check_block_dominance_nil _ _ _ (Hdom b Hb))).
Qed.
End silent.

(** * Types *)





Section typing.
Context (f : Function) (Hs : silent f).







End typing.

(** * Correctness of the verifier *)

Lemma loop_fn_small : small_blocks loop_fn.
Proof. intros b Hb. repeat (apply elem_of_cons in Hb as [->|Hb]; [simpl; lia|]). by apply not_elem_of_nil in Hb. Qed.

(** [ssa_wf] by computation. *)
Lemma ssa_wf_check f :
  index_okb f = true -> forallb (fun b => Z.of_nat (length (block_insts b)) <? 2 ^ 31)%Z (blocks f) = true ->
  verify_function f = Some [] -> ssa_wf f.
Proof.
  intros Hi Hs Hv. apply silent_ssa_wf; [by apply index_okb_sound | | by apply verify_function_silent].
  intros b Hb. rewrite forallb_forall in Hs. apply Z.ltb_lt, Hs. by apply list_elem_of_In.
Qed.

Lemma loop_fn_wf : ssa_wf loop_fn.
Proof.
  apply silent_ssa_wf; [apply loop_fn_index | apply loop_fn_small |].
  apply verify_function_silent. vm_compute. reflexivity.
Qed.

(** C1: The verifier is sound: a function on which [verify_function] reports no
    error is in SSA form.  Every value is defined once, every use is preceded by
    its definition in its block or dominated by the defining block, every branch
    names an existing block with as many arguments as it has parameters, and
    nothing branches to the entry block. *)
Theorem verify_function_sound f :
  block_index_ok f -> small_blocks f -> verify_function f = Some [] -> ssa_wf f.
Proof. intros Hok Hsmall Hv. apply silent_ssa_wf; [done | done |]. by apply verify_function_silent. Qed.

Lemma verify_function_sound_witness : ssa_wf loop_fn.
Proof.
  apply verify_function_sound; [apply loop_fn_index | apply loop_fn_small | vm_compute; reflexivity].
Defined.

(** The functions of a module the verifier accepts. *)
Lemma verified_functions m :
  verify_module m = Some [] ->
  forall f, f ∈ functions m -> verify_function f = Some [] /\ check_internal_call_signatures m f = [].
Proof.
  unfold verify_module. destruct (check_all _ _) as [es|] eqn:E; cbn [mbind option_bind]; [|done].
  intros [= H] f Hf. apply app_nil in H as [_ H]. apply app_nil in H as [_ ->].
  rewrite check_all_nil, Forall_forall in E. specialize (E f Hf). simpl in E.
  destruct (verify_function f) as [es|]; cbn [mbind option_bind] in E; [|done]. injection E as E.
  apply fmap_nil_inv in E. apply app_nil in E as [-> E]. by apply app_nil in E as [-> _].
Qed.

Section returns.
Context {X W : Type} `{!Host X W}.

(** A verified function returns without a value only when its type says so. *)
Lemma silent_returns f dyn (call : call_sem X W) fuel b vs ρ w w' :
silent f -> run_blocks dyn call fuel f b vs ρ w = RRet None w' -> return_type f = Void.
Proof.
intros Hs. revert b vs ρ w. induction fuel as [|fuel IH]; intros b vs ρ w; [done|]. cbn [run_blocks]. unfold exec_block.
destruct (find_block f b) as [blk|] eqn:Ef; [|done]. apply find_block_Some in Ef as [Hb _].
destruct (bind_params _ vs ρ) as [ρ1|]; [|done]. destruct (exec_insts _ _ _ ρ1 w) as [ρ2 w2| | |]; try done.
destruct (exec_term (block_term blk) ρ2) as [d vs2|v|] eqn:Et; [apply IH| |done]. intros [= -> ->].
pose proof (silent_block f _ blk (sil_branches f Hs) Hb) as H. simpl in H.
destruct (block_term blk) as [[[v|]|d args|c td ta fd fa|sel cs d|]|]; try done.
- simpl in Et. by destruct (ρ2 !! v).
- apply app_nil in H as [_ H]. simpl in H. by destruct (return_type f).
- exfalso. simpl in Et. unfold jump in Et. by destruct (lookup_all ρ2 args).
- exfalso. simpl in Et. unfold jump in Et. repeat case_match; by simplify_eq.
- exfalso. simpl in Et. repeat case_match; by simplify_eq.
Qed.

(** In a verified module an internal call typed with a result returns one. *)
Lemma verified_calls_return m f (dyn : nat -> bool) fuel :
verify_module m = Some [] -> f ∈ functions m ->
calls_return f (fun i vs (w : W) => run_func (X := X) dyn fuel (functions m) i vs w).
Proof.
intros Hv Hf b ins c args vs w w' Hb Hin Hk Hty E. apply Hty.
destruct (verified_functions m Hv f Hf) as [_ H]. unfold check_internal_call_signatures in H.
rewrite bind_nil_iff, Forall_forall in H. specialize (H b Hb). rewrite bind_nil_iff, Forall_forall in H.
specialize (H ins Hin). simpl in H. rewrite Hk in H. destruct fuel as [|fuel]; [done|]. cbn [run_func] in E.
destruct (functions m !! N.to_nat c) as [g|] eqn:Eg; [|done].
apply app_nil in H as [H _]. apply err_if_nil, negb_false_iff in H.
assert (Hg : return_type g = Void).
{ unfold enter_function in E. destruct (bind_args _ _ _) as [ρ|]; [|done].
destruct (run_blocks _ _ _ _ _ _ _ _) as [v w1| | |] eqn:Er; try done. injection E as -> _.
eapply silent_returns; [|exact Er]. apply verify_function_silent. eapply verified_functions; [done|]. by eapply list_elem_of_lookup_2. }
rewrite Hg in H. unfold internal_call_types_match in H. simpl in H. rewrite orb_false_r in H. by apply bool_decide_eq_true in H.
Qed.
End returns.

(** C37: In a module the verifier accepts, no function reads an undefined value, but
    for one kind of operand: whenever execution of a function stands before an
    instruction whose operands are not results of internal calls typed [Void], each of
    the operands has a value, and so for the terminator at the block's end.  The
    exception is needed: the verifier lets the result of a procedure without a value be
    an operand ([void_result_read]). *)
Theorem verified_reads_defined {X W} `{!Host X W} m f (dyn : nat -> bool) env_dyn fuel b i ρ (w : W) :
  verify_module m = Some [] -> f ∈ functions m -> block_index_ok f -> small_blocks f ->
  visits f env_dyn (fun i vs w => run_func (X := X) dyn fuel (functions m) i vs w) b i ρ w ->
  (forall ins, block_insts b !! i = Some ins ->
     (forall v, v ∈ inst_uses (inst_kind ins) -> ~ void_value f v) ->
     is_Some (lookup_all ρ (inst_uses (inst_kind ins)))) /\
  (forall t, i = length (block_insts b) -> block_term b = Some t ->
     (forall v, v ∈ terminator_uses t -> ~ void_value f v) ->
     is_Some (lookup_all ρ (terminator_uses t))).
Proof.
  intros Hm Hf Hok Hsmall Hvis. destruct (verified_functions m Hm f Hf) as [Hv _]. apply verify_function_silent in Hv.
  pose proof (silent_ssa_wf f Hok Hsmall Hv) as Hwf.
  pose proof (visits_defs_bound f Hwf env_dyn _ b i ρ w (verified_calls_return m f dyn fuel Hm Hf) Hvis) as Hbound.
  apply (visits_block f Hwf) in Hvis as [Hb _]. split.
  - intros ins Hi Hnv. apply lookup_all_bound. intros v Hin. apply Hbound; [|by apply Hnv].
    by eapply wf_inst_uses.
  - intros t -> Ht Hnv. apply lookup_all_bound. intros v Hin. apply Hbound; [|by apply Hnv].
    by eapply wf_term_uses.
Qed.

(** [call sub()] and then [call x(%0)] with its result. *)
Definition void_use_fn : Function :=
  mk_fn "caller" [] Void
    [mk_block 0 "entry" [] [mk_inst 0 (Call (Internal 1) []) Void; mk_inst 1 (Call (External "x") [0%N]) Void] (Return None)] 2.
Definition void_fn : Function := mk_fn "sub" [] Void [mk_block 0 "entry" [] [] (Return None)] 0.

(** The verifier accepts a use of the result of a procedure that has none; at run
    time the operand has no value. *)
Lemma void_result_read {X W} `{!Host X W} dyn fuel (w : W) :
  verify_module (mk_module [void_use_fn; void_fn]) = Some [] /\
  run_func (X := X) dyn (S (S fuel)) [void_use_fn; void_fn] 0 [] w = RStuck.
Proof. split; [vm_compute; reflexivity|]. cbn [run_func]. simpl. by destruct (dyn (N.to_nat 0)). Qed.

#[local] Existing Instance unit_host.

(** Execution of [loop_fn] on 7 stands at the end of its entry block. *)
Lemma loop_fn_visit1 (call : call_sem unit unit) : visits (X := unit) loop_fn false call loop_entry 1
  (<[1%N := VInt I32 0]> (<[0%N := VInt I32 7]> ∅)) ().
Proof.
  assert (H0 : visits (X := unit) loop_fn false call loop_entry 0 (<[0%N := VInt I32 7]> ∅) ())
    by exact (visit_entry loop_fn false _ [VInt I32 7] (<[0%N := VInt I32 7]> ∅) () loop_entry _ eq_refl eq_refl eq_refl).
  exact (visit_inst loop_fn false _ loop_entry 0 (mk_inst 1 (ConstInt 0 I32) i32) _ () _ () H0 eq_refl eq_refl).
Qed.

Lemma verified_reads_defined_witness :
  is_Some (lookup_all (<[2%N := VInt I32 0]> (<[1%N := VInt I32 0]> (<[0%N := VInt I32 7]> ∅)))
    (inst_uses (ICmp CLt 2 0)) : option (list (val unit))).
Proof.
  assert (Hvis : visits (X := unit) loop_fn false (fun i vs w => run_func (fun _ => false) 1 (functions (mk_module [loop_fn])) i vs w)
    loop_header 0 (<[2%N := VInt I32 0]> (<[1%N := VInt I32 0]> (<[0%N := VInt I32 7]> ∅))) ()).
  { exact (visit_jump loop_fn false _ loop_entry _ _ 1%N [VInt I32 0] loop_header _ (loop_fn_visit1 _) eq_refl eq_refl eq_refl). }
  apply (verified_reads_defined (mk_module [loop_fn]) loop_fn (fun _ => false) false 1 loop_header 0 _ ()
           ltac:(vm_compute; reflexivity) ltac:(left) loop_fn_index loop_fn_small Hvis
         ) with (ins := mk_inst 3 (ICmp CLt 2 0) TBool); [reflexivity|].
  intros v _ (b & ins & c & args & Hb & Hin & _ & Hk & _).
  repeat (apply elem_of_cons in Hb as [->|Hb]; [repeat (apply elem_of_cons in Hin as [->|Hin]; [done|]); by apply not_elem_of_nil in Hin|]).
  by apply not_elem_of_nil in Hb.
Defined.

(** Every branch a verified function takes lands on an existing block and
    binds that block's parameters one for one. *)
Theorem verified_jumps_land {X W} `{!Host X W} f dyn (call : call_sem X W) b ρ w d vs :
  block_index_ok f -> small_blocks f -> verify_function f = Some [] ->
  visits f dyn call b (length (block_insts b)) ρ w -> exec_term (block_term b) ρ = TJump d vs ->
  exists b2 ρ2, find_block f d = Some b2 /\ bind_params (block_params b2) vs ρ = Some ρ2.
Proof.
  intros Hok Hsmall Hv Hvis Hj. apply verify_function_silent in Hv.
  pose proof (silent_ssa_wf f Hok Hsmall Hv) as Hwf.
  apply (visits_block f Hwf) in Hvis as [Hb _].
  apply (term_jump_lands f Hwf b ρ d vs Hb Hj).
Qed.

Lemma verified_jumps_land_witness :
  exists b2 (ρ2 : gmap ValueId (val unit)), find_block loop_fn 1 = Some b2 /\
    bind_params (block_params b2) [VInt I32 0] (<[1%N := VInt I32 0]> (<[0%N := VInt I32 7]> ∅)) = Some ρ2.
Proof.
  eapply (verified_jumps_land loop_fn false (fun _ _ _ => RStuck) loop_entry _ ());
    [apply loop_fn_index | apply loop_fn_small | vm_compute; reflexivity | exact (loop_fn_visit1 _) | reflexivity].
Defined.



(** The dominance check is exact: on unique definitions it accepts the use of
    a value in a reachable block precisely when the definition is available
    there (earlier in the block, or in a strictly dominating block). *)
Theorem check_use_exact f b n v :
  block_index_ok f -> entry f ∈ (block_id <$> blocks f) -> NoDup (fn_def_ids f) -> small_blocks f ->
  b ∈ blocks f -> (n <= length (block_insts b))%nat -> v ∈ fn_def_ids f -> reachable f (block_id b) ->
  check_use f (compute_dominator_info f) (value_def_block f) b (inst_order b) v (as_i32 n) = Some [] <->
    avail f b n v.
Proof.
  intros Hok He Hnd Hs Hb Hn Hv Hr. rewrite check_use_spec by done.
  destruct (decide (v ∈ param_ids f)) as [Hp|Hp]; [|tauto].
  split; [intros _; by left|]. intros _. left. tauto.
Qed.

Lemma check_use_exact_witness : avail loop_fn loop_exit 0 2%N.
Proof.
  apply check_use_exact.
  - apply loop_fn_index.
  - left.
  - apply loop_fn_wf.
  - apply loop_fn_small.
  - right; right; right; left.
  - simpl. lia.
  - apply (bool_decide_unpack (2%N ∈ fn_def_ids loop_fn)). vm_compute. exact I.
  - apply reachable_blocks_spec. apply (bool_decide_unpack (block_id loop_exit ∈ reachable_blocks loop_fn)).
    vm_compute. exact I.
  - vm_compute. reflexivity.
Defined.
