(* ===== verification/Lockstep.v ===== *)
(** The proof principles of the passes that keep the shape of the CFG.

    When a rewritten function has the same blocks and block parameters, it
    refines the original as soon as, in every state the original reaches
    ([visits]), the instructions that replace an instruction behave like it on
    the values that matter, and each rewritten terminator leads to the same
    place.  Undefined behaviour of the original excuses the rewritten code. *)

From S2P Require Import Prelude IrTypes IrInst Worklist IrWalk Floats IrSem Dominators Ssa.

Section lockstep.
Context {X W : Type} `{!Host X W}.
Context (strict : bool).
Notation env := (gmap ValueId (val X)).

(** Step results that are not undefined behaviour. *)
Definition step_ok (r : step_res X W) : Prop :=
match r with SStuck => False | STimeout => strict = true | _ => True end.

(** The same instruction with refined callees. *)
Lemma exec_inst_refines dyn (call call' : call_sem X W) i ρ w :
refines_call strict call call' -> step_ok (exec_inst dyn call i ρ w) ->
exec_inst dyn call' i ρ w = exec_inst dyn call i ρ w.
Proof.
intros Hc. unfold exec_inst. destruct (lookup_all ρ _) as [vs|]; [|done].
destruct (dyn && _); [done|]. destruct (class_of _) as [| | |c]; try done.
specialize (Hc c vs w). unfold refines, finish_call in *.
destruct (call c vs w) as [[v|] w'|w'| |]; simpl in *; intros Hok; try done; rewrite Hc; done.
Qed.

Lemma exec_insts_refines dyn (call call' : call_sem X W) il ρ w :
refines_call strict call call' -> step_ok (exec_insts dyn call il ρ w) ->
exec_insts dyn call' il ρ w = exec_insts dyn call il ρ w.
Proof.
intros Hc. revert ρ w. induction il as [|i il IH]; intros ρ w Hok; [done|]. simpl in *.
assert (Hi : step_ok (exec_inst dyn call i ρ w)) by (by destruct (exec_inst dyn call i ρ w)).
rewrite (exec_inst_refines dyn call call' i ρ w Hc Hi). destruct (exec_inst dyn call i ρ w); auto.
Qed.

(** One block found at the same identifier in both functions. *)
Lemma exec_block_refines dyn (call call' : call_sem X W) f f' id vs ρ w :
refines_call strict call call' -> find_block f' id = find_block f id ->
match exec_block dyn call f id vs ρ w with
| BDone r => okr strict r -> exec_block dyn call' f' id vs ρ w = BDone r
| BJump d vs2 ρ2 w2 => exec_block dyn call' f' id vs ρ w = BJump d vs2 ρ2 w2
end.
Proof.
intros Hc Hf. unfold exec_block. rewrite Hf. destruct (find_block f id) as [b|]; [|done].
destruct (bind_params (block_params b) vs ρ) as [ρ1|]; [|done].
pose proof (exec_insts_refines dyn call call' (block_insts b) ρ1 w Hc) as Hil.
destruct (exec_insts dyn call (block_insts b) ρ1 w) as [ρ2 w2|w2| |]; simpl in *.
- rewrite Hil by done. by destruct (exec_term (block_term b) ρ2).
- intros _. by rewrite Hil.
- done.
- intros Hs. by rewrite Hil.
Qed.

End lockstep.

(** * Block-by-block expansion

    The general principle: each instruction of the original becomes a list of
    instructions (a chunk, possibly empty), and the environments agree on the
    values in [keep]. *)

Section expand.
Context {X W : Type} `{!Host X W}.
Context (strict : bool) (dyn : bool) (call call' : call_sem X W) (f f' : Function).
Notation env := (gmap ValueId (val X)).
Context (keep : ValueId -> Prop).

Definition agree (ρ ρ' : env) : Prop := forall v, keep v -> ρ' !! v = ρ !! v.

(** Step results that agree on the kept values. *)
Definition step_sim (s s' : step_res X W) : Prop :=
match s with
| SNext ρ1 w1 => exists ρ1', s' = SNext ρ1' w1 /\ agree ρ1 ρ1'
| _ => step_ok strict s -> s' = s
end.

(** [b'] has the identity and parameters of [b] and is cut into chunks. *)
Definition chunked (R : BasicBlock -> nat -> Inst -> list Inst -> Prop) (b b' : BasicBlock) : Prop :=
block_id b' = block_id b /\ block_params b' = block_params b /\
exists chunks, block_insts b' = mjoin chunks /\ length chunks = length (block_insts b) /\
forall i ins c, block_insts b !! i = Some ins -> chunks !! i = Some c -> R b i ins c.

Context (R : BasicBlock -> nat -> Inst -> list Inst -> Prop) (T : BasicBlock -> BasicBlock -> Prop).
Context (Hentry : entry f' = entry f) (Hparams : fn_params f' = fn_params f).
Context (Hblocks : Forall2 (fun b b' => chunked R b b' /\ T b b') (blocks f) (blocks f')).
Context (Hinst : forall b i ins c ρ ρ' w,
b ∈ blocks f -> R b i ins c -> visits f dyn call b i ρ w -> block_insts b !! i = Some ins -> agree ρ ρ' ->
step_sim (exec_inst dyn call ins ρ w) (exec_insts dyn call' c ρ' w)).
Context (Hterm : forall b b' ρ ρ' w,
b ∈ blocks f -> T b b' -> visits f dyn call b (length (block_insts b)) ρ w -> agree ρ ρ' ->
exec_term (block_term b) ρ <> TStuck -> exec_term (block_term b') ρ' = exec_term (block_term b) ρ).

Lemma find_block_rel id b :
find_block f id = Some b -> exists b', find_block f' id = Some b' /\ chunked R b b' /\ T b b'.
Proof.
unfold find_block. pose proof Hblocks as HF. clear Hinst Hterm Hblocks.
induction HF as [|c c' bs bs' [Hs HT] _ IH]; [done|].
pose proof Hs as (Hid & _). simpl. destruct (decide (block_id c = id)) as [E|E].
- rewrite decide_True by congruence. simpl. intros [= <-]. by exists c'.
- rewrite decide_False by congruence. intros H.
destruct (list_find (fun b => block_id b = id) bs) as [[k d]|] eqn:Ef; simpl in *; [|done].
destruct (IH H) as (b' & Hb' & Hrel). exists b'. split; [|done].
destruct (list_find (fun b => block_id b = id) bs') as [[k' d']|]; simpl in *; done.
Qed.

Lemma expand_insts b n il chunks ρ ρ' w :
b ∈ blocks f -> visits f dyn call b n ρ w -> agree ρ ρ' ->
drop n (block_insts b) = il -> length chunks = length il ->
(forall i ins c, block_insts b !! (n + i)%nat = Some ins -> chunks !! i = Some c -> R b (n + i)%nat ins c) ->
step_sim (exec_insts dyn call il ρ w) (exec_insts dyn call' (mjoin chunks) ρ' w).
Proof.
intros Hb. revert n ρ ρ' w chunks. induction il as [|ins il IH]; intros n ρ ρ' w [|c chunks] Hv Ha Hd Hl HR; try done.
{ simpl. eauto. }
assert (Hi : block_insts b !! n = Some ins) by (rewrite <- (Nat.add_0_r n), <- lookup_drop, Hd; done).
assert (HRc : R b n ins c) by (rewrite <- (Nat.add_0_r n); by apply HR; rewrite ?Nat.add_0_r).
pose proof (Hinst b n ins c ρ ρ' w Hb HRc Hv Hi Ha) as Hstep. cbn [exec_insts mjoin list_join]. rewrite exec_insts_app.
destruct (exec_inst dyn call ins ρ w) as [ρ1 w1| | |] eqn:E.
- destruct Hstep as (ρ1' & -> & Ha1).
apply (IH (S n)); [by eapply visit_inst | done | | simpl in Hl; lia |].
+ by rewrite <- Nat.add_1_r, <- drop_drop, Hd.
+ intros i ins' c' Hi' Hc'. rewrite Nat.add_succ_l, <- Nat.add_succ_r in *. by apply HR.
- intros Hok. by rewrite (Hstep Hok).
- intros [].
- intros Hok. by rewrite (Hstep Hok).
Qed.

Lemma bind_params_agree ps vs ρ ρ' :
agree ρ ρ' -> 
match bind_params ps vs ρ with
| Some ρ1 => exists ρ1', bind_params ps vs ρ' = Some ρ1' /\ agree ρ1 ρ1'
| None => bind_params ps vs ρ' = None
end.
Proof.
revert vs ρ ρ'. induction ps as [|p ps IH]; intros [|x vs] ρ ρ' Ha; simpl; eauto.
apply IH. intros v Hv. destruct (decide (v = bp_id p)) as [->|]; [by rewrite !lookup_insert_eq|].
rewrite !lookup_insert_ne by done. by apply Ha.
Qed.

Lemma expand_block id b vs ρ ρ' ρ1 w :
find_block f id = Some b -> bind_params (block_params b) vs ρ = Some ρ1 -> visits f dyn call b 0 ρ1 w ->
agree ρ ρ' ->
match exec_block dyn call f id vs ρ w with
| BDone r => okr strict r -> exec_block dyn call' f' id vs ρ' w = BDone r
| BJump d vs2 ρ2 w2 => exists ρ2', exec_block dyn call' f' id vs ρ' w = BJump d vs2 ρ2' w2 /\ agree ρ2 ρ2'
end.
Proof.
intros Hf Hb Hv Ha. destruct (find_block_rel id b Hf) as (b' & Hf' & (Hid & Hp & chunks & Hc & Hl & HR) & HT).
pose proof (find_block_Some f id b Hf) as [Hin _].
pose proof (bind_params_agree (block_params b) vs ρ ρ' Ha) as Hbind. rewrite Hb in Hbind.
destruct Hbind as (ρ1' & Hb' & Ha1).
pose proof (expand_insts b 0 (block_insts b) chunks ρ1 ρ1' w Hin Hv Ha1 (drop_0 _) Hl HR) as Hil.
unfold exec_block. rewrite Hf, Hf', Hb, Hp, Hb', Hc.
destruct (exec_insts dyn call (block_insts b) ρ1 w) as [ρ2 w2|w2| |] eqn:E; simpl in *.
- destruct Hil as (ρ2' & -> & Ha2).
pose proof (exec_insts_visits f dyn call b w ρ1 w2 ρ2 0 _ Hv (drop_0 _) E) as Hv2.
pose proof (Hterm b b' ρ2 ρ2' w2 Hin HT Hv2 Ha2) as Ht.
destruct (exec_term (block_term b) ρ2) eqn:Et; [rewrite Ht by done; eauto | rewrite Ht by done; done | done].
- intros _. by rewrite Hil.
- done.
- intros Hs. by rewrite Hil.
Qed.

Lemma expand_run fuel id vs ρ ρ' w :
(forall b ρ1, find_block f id = Some b -> bind_params (block_params b) vs ρ = Some ρ1 -> visits f dyn call b 0 ρ1 w) ->
agree ρ ρ' ->
refines strict (run_blocks dyn call fuel f id vs ρ w) (run_blocks dyn call' fuel f' id vs ρ' w).
Proof.
revert id vs ρ ρ' w. induction fuel as [|fuel IH]; intros id vs ρ ρ' w Hv Ha; simpl; [done|].
destruct (find_block f id) as [b|] eqn:Hf; [|unfold exec_block at 1; rewrite Hf; intros []].
destruct (bind_params (block_params b) vs ρ) as [ρ1|] eqn:Hb;
[|unfold exec_block at 1; rewrite Hf, Hb; intros []].
pose proof (expand_block id b vs ρ ρ' ρ1 w Hf Hb (Hv _ _ eq_refl Hb) Ha) as H.
destruct (exec_block dyn call f id vs ρ w) as [r|d vs2 ρ2 w2] eqn:E.
- intros Hok. by rewrite (H Hok).
- destruct H as (ρ2' & -> & Ha2). apply IH; [|done]. intros b2 ρ3 Hf2 Hb2.
destruct (exec_block_visits f dyn call id b vs ρ ρ1 w d vs2 ρ2 w2 Hf Hb (Hv _ _ eq_refl Hb) E) as [Hv2 Ht].
by eapply visit_jump.
Qed.

(** The expanded function refines the original. *)
Lemma expand_refines fuel args w :
refines strict (enter_function dyn call fuel f args w) (enter_function dyn call' fuel f' args w).
Proof.
unfold enter_function. rewrite Hparams, Hentry.
destruct (bind_args (fn_params f) args ∅) as [ρ0|] eqn:Ha; [|intros []].
apply leave_refines, expand_run; [|done]. intros b ρ1 Hf Hb. by eapply visit_entry.
Qed.
End expand.

(** * Lock-step rewriting

    One instruction for one instruction, in equal environments. *)

Section inplace.
Context {X W : Type} `{!Host X W}.
Context (strict : bool) (dyn : bool) (call call' : call_sem X W) (f f' : Function).
Notation env := (gmap ValueId (val X)).

Definition same_frame (b b' : BasicBlock) : Prop :=
block_id b' = block_id b /\ block_params b' = block_params b /\
length (block_insts b') = length (block_insts b).

Lemma lockstep_refines (R : BasicBlock -> BasicBlock -> Prop) :
entry f' = entry f -> fn_params f' = fn_params f ->
Forall2 (fun b b' => same_frame b b' /\ R b b') (blocks f) (blocks f') ->
(forall b b' i ins ins' (ρ : env) w,
b ∈ blocks f -> R b b' -> visits f dyn call b i ρ w ->
block_insts b !! i = Some ins -> block_insts b' !! i = Some ins' ->
step_ok strict (exec_inst dyn call ins ρ w) -> exec_inst dyn call' ins' ρ w = exec_inst dyn call ins ρ w) ->
(forall b b' (ρ : env) w,
b ∈ blocks f -> R b b' -> visits f dyn call b (length (block_insts b)) ρ w ->
exec_term (block_term b) ρ <> TStuck -> exec_term (block_term b') ρ = exec_term (block_term b) ρ) ->
forall fuel args w,
refines strict (enter_function dyn call fuel f args w) (enter_function dyn call' fuel f' args w).
Proof.
intros He Hp HF Hinst Hterm fuel args w.
assert (Heq : forall ρ ρ' : env, agree (fun _ => True) ρ ρ' -> ρ' = ρ).
{ intros ρ ρ' Ha. apply map_eq. intros v. by apply Ha. }
apply (expand_refines strict dyn call call' f f' (fun _ => True)
(fun b i ins c => exists b' ins', R b b' /\ c = [ins'] /\ block_insts b' !! i = Some ins') R); [done | done | | |].
- eapply Forall2_impl; [exact HF|]. intros b b' [(Hid & Hps & Hl) HR]. split; [|done]. split; [done|]. split; [done|].
exists ((fun i => [i]) <$> block_insts b'). split; [|split; [by rewrite length_fmap|]].
+ clear. induction (block_insts b') as [|x l IH]; [done|]. rewrite fmap_cons. cbn [mjoin list_join]. rewrite IH at 1. done.
+ intros i ins c Hi Hc. rewrite list_lookup_fmap in Hc. apply fmap_Some in Hc as (ins' & Hi' & ->). eauto.
- intros b i ins c ρ ρ' w' Hb (b' & ins' & HR & -> & Hi') Hv Hi Ha. apply Heq in Ha as ->.
pose proof (Hinst b b' i ins ins' ρ w' Hb HR Hv Hi Hi') as Hs. simpl.
destruct (exec_inst dyn call ins ρ w') as [ρ1 w1| | |]; simpl in *.
+ rewrite Hs by done. by exists ρ1.
+ intros _. by rewrite Hs.
+ intros [].
+ intros Hok. by rewrite Hs.
- intros b b' ρ ρ' w' Hb HR Hv Ha. apply Heq in Ha as ->. by apply (Hterm b b' ρ w').
Qed.
End inplace.

(** A function with the same body refines under refined callees. *)
Lemma same_body_refines {X W} `{!Host X W} strict dyn (call call' : call_sem X W) f f' fuel args w :
  blocks f' = blocks f -> entry f' = entry f -> fn_params f' = fn_params f -> refines_call strict call call' ->
  refines strict (enter_function dyn call fuel f args w) (enter_function dyn call' fuel f' args w).
Proof.
  intros Hbs He Hps Hcall. apply (lockstep_refines strict dyn call call' f f' (fun b b' => b' = b)); [done | done | | |].
  - rewrite Hbs. by apply Forall_Forall2_diag, Forall_forall.
  - intros b b' i ins ins' ρ w' _ -> _ Hi Hi' Hok. simplify_eq. by apply (exec_inst_refines strict).
  - by intros b b' ρ w' _ -> _ _.
Qed.

Lemma same_function_refines {X W} `{!Host X W} strict dyn (call call' : call_sem X W) f fuel args w :
  refines_call strict call call' ->
  refines strict (enter_function dyn call fuel f args w) (enter_function dyn call' fuel f args w).
Proof. by apply same_body_refines. Qed.

(** * Renamed operands

    An instruction or terminator whose operands were renamed behaves like the
    original when each renamed operand holds the value of the original one. *)

Section rename.
Context {X W : Type} `{!Host X W}.
Notation env := (gmap ValueId (val X)).
Context (strict : bool) (dyn : bool) (call call' : call_sem X W) (Hcall : refines_call strict call call').
Context (keep : ValueId -> Prop) (r : ValueId -> ValueId).

Definition renames (l : list ValueId) (ρ ρ' : env) : Prop := forall v, v ∈ l -> ρ' !! r v = ρ !! v.

Lemma agree_insert (ρ ρ' : env) id x : agree keep ρ ρ' -> agree keep (<[id := x]> ρ) (<[id := x]> ρ').
Proof.
intros Ha v Hv. destruct (decide (v = id)) as [->|]; [by rewrite !lookup_insert_eq|].
rewrite !lookup_insert_ne by done. by apply Ha.
Qed.

Lemma finish_call_sim (ρ ρ' : env) id c vs w :
agree keep ρ ρ' -> step_sim strict keep (finish_call ρ id (call c vs w)) (finish_call ρ' id (call' c vs w)).
Proof.
intros Ha. specialize (Hcall c vs w). unfold refines in Hcall.
destruct (call c vs w) as [[v|] w'|w'| |]; simpl in *; try rewrite Hcall by done; try done.
- exists (<[id := canon v]> ρ'). split; [done | by apply agree_insert].
- by exists ρ'.
- intros Hs. by rewrite (Hcall Hs).
Qed.

Lemma renamed_inst ins ρ ρ' w :
agree keep ρ ρ' -> renames (inst_uses (inst_kind ins)) ρ ρ' ->
step_sim strict keep (exec_inst dyn call ins ρ w) (exec_inst dyn call' (map_inst_operands r ins) ρ' w).
Proof.
intros Ha Hr. unfold exec_inst, map_inst_operands, set_kind. simpl.
rewrite inst_uses_map, (lookup_all_map r ρ ρ' _ Hr), touches_fpenv_map, class_of_map, shape_map.
destruct (lookup_all ρ _) as [vs|]; [|done].
assert (Hins : forall x, agree keep (<[inst_id ins := x]> ρ) (<[inst_id ins := x]> ρ')) by (intros; by apply agree_insert).
assert (Heff : forall e : effect_result X W, step_sim strict keep (finish_effect ρ (inst_id ins) e) (finish_effect ρ' (inst_id ins) e)).
{ intros [v w'|w'|]; simpl; [|done|done]. eauto. }
destruct (dyn && _); [apply Heff|]. destruct (class_of _) as [| | |c].
- rewrite eval_pure_map. destruct (eval_pure _ _ _); simpl; [eauto | done].
- destruct (host_read _ _ _ _); simpl; [eauto | done].
- apply Heff.
- by apply finish_call_sim.
Qed.

(** A pure instruction with renamed operands, its value known. *)
Lemma renamed_pure ins l vs x (ρ ρ' : env) w :
class_of (inst_kind ins) = KPure -> touches_fpenv (inst_kind ins) = false ->
inst_uses (inst_kind ins) = l -> renames l ρ ρ' -> lookup_all ρ l = Some vs ->
eval_pure (inst_kind ins) (inst_ty ins) vs = Some x ->
exec_inst dyn call' (map_inst_operands r ins) ρ' w = SNext (<[inst_id ins := x]> ρ') w.
Proof.
intros Hc Ht <- Hr Hvs Hx. rewrite exec_inst_pure; simpl.
- by rewrite inst_uses_map, (lookup_all_map _ ρ ρ' _ Hr), Hvs; simpl; rewrite eval_pure_map, Hx.
- split; [by rewrite class_of_map | by rewrite touches_fpenv_map, Ht, andb_false_r].
Qed.

Lemma renamed_term t (ρ ρ' : env) :
renames (match t with Some t => terminator_uses t | None => [] end) ρ ρ' ->
exec_term (map_term_operands r <$> t) ρ' = exec_term t ρ.
Proof.
intros Hr. unfold renames in Hr. destruct t as [[[v|]|d a|c td ta fd fa|s cs d|]|]; simpl in *; try done.
- by rewrite Hr by left.
- unfold jump. by rewrite (lookup_all_map r ρ ρ' a Hr).
- rewrite Hr by left. unfold jump.
rewrite (lookup_all_map r ρ ρ' ta) by (intros v Hv; apply Hr; right; apply elem_of_app; by left).
by rewrite (lookup_all_map r ρ ρ' fa) by (intros v Hv; apply Hr; right; apply elem_of_app; by right).
- by rewrite Hr by left.
Qed.
End rename.

(** The same instruction in environments that agree on its operands. *)
Section same.
Context {X W : Type} `{!Host X W}.
Notation env := (gmap ValueId (val X)).

Lemma agreeing_inst strict dyn (call call' : call_sem X W) keep ins (ρ ρ' : env) w :
refines_call strict call call' -> agree keep ρ ρ' -> (forall v, v ∈ inst_uses (inst_kind ins) -> keep v) ->
step_sim strict keep (exec_inst dyn call ins ρ w) (exec_insts dyn call' [ins] ρ' w).
Proof.
intros Hc Ha Hu.
assert (E : map_inst_operands (fun v => v) ins = ins).
{ unfold map_inst_operands, set_kind. rewrite map_operands_id. by destruct ins. }
pose proof (renamed_inst strict dyn call call' Hc keep (fun v => v) ins ρ ρ' w Ha (fun v Hv => Ha v (Hu v Hv))) as H.
rewrite E in H. simpl. by destruct (exec_inst dyn call' ins ρ' w).
Qed.

Lemma agreeing_insts strict dyn (call call' : call_sem X W) keep il (ρ ρ' : env) w :
refines_call strict call call' -> (forall i v, i ∈ il -> v ∈ inst_uses (inst_kind i) -> keep v) -> agree keep ρ ρ' ->
step_sim strict keep (exec_insts dyn call il ρ w) (exec_insts dyn call' il ρ' w).
Proof.
intros Hc. revert ρ ρ' w. induction il as [|i il IH]; intros ρ ρ' w Hu Ha; simpl; [by exists ρ'|].
pose proof (agreeing_inst strict dyn call call' keep i ρ ρ' w Hc Ha (fun v => Hu i v ltac:(left))) as H. simpl in H.
destruct (exec_inst dyn call i ρ w) as [ρ1 w1|w1| |]; simpl in H.
- destruct H as (ρ1' & E & Ha1). destruct (exec_inst dyn call' i ρ' w); simplify_eq.
apply IH; [|done]. intros j v Hj. apply Hu. by right.
- specialize (H I). by destruct (exec_inst dyn call' i ρ' w); simplify_eq.
- intros [].
- intros Hok. specialize (H Hok). by destruct (exec_inst dyn call' i ρ' w).
Qed.

Lemma agreeing_term keep t (ρ ρ' : env) :
agree keep ρ ρ' -> (forall v, v ∈ match t with Some t => terminator_uses t | None => [] end -> keep v) ->
exec_term t ρ' = exec_term t ρ.
Proof.
intros Ha Hu. rewrite <- (renamed_term (fun v => v) t ρ ρ') by (intros v Hv; by apply Ha, Hu). f_equal.
destruct t as [[[v|]|d l|c td ta fd fa|s cs d|]|]; simpl; rewrite ?list_fmap_id; done.
Qed.
End same.
