(* ===== verification/Prune.v ===== *)
(** Unreachable-block pruning ([prune_unreachable] of src/src/ir/walk.rs): what is
    kept, that the block index stays valid, and that behaviour is unchanged. *)

From S2P Require Import Prelude IrTypes IrInst Sample Worklist IrWalk Floats IrSem Dominators Ssa Lockstep.

(** The identifier counters are [u32]s. *)
Definition counters_ok (f : Function) : Prop := (next_block f <= u32_max)%N.

Definition kept_blocks (f : Function) : list BasicBlock :=
  filter (fun b => block_id b ∈ reachable_blocks f) (blocks f).

Lemma prune_unreachable_total f :
  block_index_ok f -> counters_ok f ->
  exists f' changed, prune_unreachable f = Some (f', changed) /\
    blocks f' = kept_blocks f /\ block_index_ok f' /\ entry f' = entry f /\ fn_params f' = fn_params f /\
    (changed = false <-> kept_blocks f = blocks f).
Proof.
  intros Hok Hc. unfold prune_unreachable. fold (kept_blocks f).
  destruct (length (kept_blocks f) =? length (blocks f))%nat eqn:El; cbn [blocks set_blocks]; rewrite El; cbn [negb].
  - apply Nat.eqb_eq, filter_same_length in El. fold (kept_blocks f) in El.
    exists (set_blocks f (kept_blocks f)), false. split; [done|]. split; [done|].
    split; [rewrite El; by destruct f|]. done.
  - destruct (rebuild_block_positions_spec (set_blocks f (kept_blocks f))) as (f' & Hf' & Hok' & Hbs & _).
    + simpl. eapply sublist_NoDup; [apply block_ids_NoDup, Hok|]. apply fmap_sublist, sublist_filter.
    + intros b Hb. apply list_elem_of_filter in Hb as [_ Hb]. pose proof (index_bound f Hok b Hb).
      unfold counters_ok in Hc. lia.
    + done.
    + rewrite Hf'. exists f', true. split; [done|]. split; [done|]. split; [done|].
      assert (Hsame : entry f' = entry f /\ fn_params f' = fn_params f).
      { unfold rebuild_block_positions in Hf'. destruct (claim_all _ _ _); simpl in Hf'; by simplify_eq. }
      destruct Hsame as [-> ->]. split; [done|]. split; [done|]. split; [done|].
      intros E. rewrite E, Nat.eqb_refl in El. done.
Qed.

Lemma prune_counters f f' ch : prune_unreachable f = Some (f', ch) -> counters_ok f -> counters_ok f'.
Proof.
  unfold prune_unreachable, counters_ok. destruct (negb _).
  - unfold rebuild_block_positions. destruct (claim_all _ _ _); cbn [mbind option_bind]; [|done].
    intros [= <- _] H. simpl in *. unfold wrap_u32, u32_max in *.
    pose proof (N.mod_lt (N.max (foldr (fun b n => N.max (block_id b + 1) n) 0%N (filter (fun b => block_id b ∈ reachable_blocks f) (blocks f)))
      (next_block f)) (2 ^ 32)). lia.
  - by intros [= <- _].
Qed.

Lemma find_block_kept f f' id :
  blocks f' = kept_blocks f -> reachable f id -> find_block f' id = find_block f id.
Proof.
  intros Hb Hr. unfold find_block. rewrite Hb. apply list_find_filter. intros b _ <-.
  by apply reachable_blocks_spec.
Qed.

Section semantics.
Context {X W : Type} `{!Host X W}.

(** Execution stays within the reachable blocks. *)
Lemma exec_block_reachable f dyn (call : call_sem X W) id vs ρ w d vs2 ρ2 w2 :
block_index_ok f -> reachable f id -> exec_block dyn call f id vs ρ w = BJump d vs2 ρ2 w2 -> reachable f d.
Proof.
intros Hok Hr. unfold exec_block. destruct (find_block f id) as [b|] eqn:Hf; [|done].
destruct (bind_params _ vs ρ) as [ρ1|]; [|done].
destruct (exec_insts dyn call (block_insts b) ρ1 w) as [ρ3 w3| | |]; try done.
destruct (exec_term (block_term b) ρ3) eqn:Et; try done. intros [= <- <- <- <-].
apply find_block_Some in Hf as [Hin Hid]. eapply rtc_r; [exact Hr|].
apply cfg_edge_iff; [done|]. exists b. split; [done|]. split; [done|]. by eapply exec_term_target.
Qed.

Lemma kept_blocks_refines strict f f' dyn (call call' : call_sem X W) fuel args w :
block_index_ok f -> blocks f' = kept_blocks f -> entry f' = entry f -> fn_params f' = fn_params f ->
refines_call strict call call' ->
refines strict (enter_function dyn call fuel f args w) (enter_function dyn call' fuel f' args w).
Proof.
intros Hok Hbs He Hp Hcall. unfold enter_function. rewrite He, Hp.
destruct (bind_args (fn_params f) args ∅) as [ρ0|]; [|intros []].
apply leave_refines, (run_blocks_sim strict dyn call call' f f'
(fun b vs ρ vs' ρ' => vs' = vs /\ ρ' = ρ /\ reachable f b)); [|split; [done|]; split; [done | apply rtc_refl]].
intros b vs ρ vs' ρ' w' (-> & -> & Hr).
pose proof (exec_block_refines strict dyn call call' f f' b vs ρ w' Hcall (find_block_kept f f' b Hbs Hr)) as H.
destruct (exec_block dyn call f b vs ρ w') as [r|d vs2 ρ2 w2] eqn:E; [done|].
exists vs2, ρ2. split; [done|]. split; [done|]. split; [done|]. by eapply exec_block_reachable.
Qed.
End semantics.

(** * Properties *)

(** Pruning is total on an indexed function and keeps exactly the blocks
    reachable from the entry, in their order; the block index of the result is
    valid, and the flag it returns says whether a block was dropped. *)
Theorem prune_unreachable_exact f :
  block_index_ok f -> counters_ok f ->
  exists f' changed, prune_unreachable f = Some (f', changed) /\
    (forall b, b ∈ blocks f' <-> b ∈ blocks f /\ reachable f (block_id b)) /\
    blocks f' `sublist_of` blocks f /\ block_index_ok f' /\ (changed = true <-> blocks f' <> blocks f).
Proof.
  intros Hok Hc. destruct (prune_unreachable_total f Hok Hc) as (f' & ch & Hp & Hbs & Hok' & _ & _ & Hch).
  exists f', ch. split; [done|]. rewrite Hbs. split; [|split; [|split; [done|]]].
  - intros b. unfold kept_blocks. rewrite list_elem_of_filter, reachable_blocks_spec. tauto.
  - apply sublist_filter.
  - split.
    + intros -> E. by apply Hch in E.
    + intros Hne. destruct ch; [done|]. exfalso. by apply Hne, Hch.
Qed.

(** [loop_fn] with a block nothing branches to. *)
Definition loop_dead : Function :=
  set_next_block (set_positions (set_blocks loop_fn (blocks loop_fn ++ [mk_block 4 "dead" [] [] (Branch 1 [0%N])]))
    (Some <$> seq 0 5)) 5.

Lemma loop_dead_ok : block_index_ok loop_dead /\ counters_ok loop_dead.
Proof. split; [apply index_okb_sound; vm_compute; reflexivity | vm_compute; intros E; discriminate E]. Qed.

Lemma prune_unreachable_exact_witness :
  exists f' changed, prune_unreachable loop_dead = Some (f', changed) /\
    (forall b, b ∈ blocks f' <-> b ∈ blocks loop_dead /\ reachable loop_dead (block_id b)) /\
    blocks f' `sublist_of` blocks loop_dead /\ block_index_ok f' /\ (changed = true <-> blocks f' <> blocks loop_dead).
Proof. apply (prune_unreachable_exact loop_dead); apply loop_dead_ok. Defined.

(** Pruning does not change behaviour: every run of the function has the same
    result before and after. *)
Theorem prune_unreachable_preserves {X W} `{!Host X W} f f' changed dyn (call : call_sem X W) fuel args w :
  block_index_ok f -> counters_ok f -> prune_unreachable f = Some (f', changed) ->
  refines true (enter_function dyn call fuel f args w) (enter_function dyn call fuel f' args w).
Proof.
  intros Hok Hc Hp. destruct (prune_unreachable_total f Hok Hc) as (f'' & ch & Hp' & Hbs & _ & He & Hps & _).
  simplify_eq. by apply kept_blocks_refines.
Qed.

#[local] Existing Instance unit_host.

Lemma prune_unreachable_preserves_witness :
  exists f' changed, prune_unreachable loop_dead = Some (f', changed) /\
    enter_function (X := unit) false (fun _ _ _ => RStuck) 9 f' [VInt I32 2] () = RRet (Some (VInt I32 2)) ().
Proof.
  do 2 eexists. split; [vm_compute; reflexivity|].
  transitivity (enter_function (X := unit) false (fun _ _ _ => RStuck) 9 loop_dead [VInt I32 2] ()); [|vm_compute; reflexivity].
  eapply (prune_unreachable_preserves loop_dead); [apply loop_dead_ok | apply loop_dead_ok | vm_compute; reflexivity | vm_compute; exact I].
Defined.
