(* ===== verification/Stutter.v ===== *)
(** The proof principle of the passes that change the shape of the CFG.

    The rewritten function takes fewer block steps than the original: a source
    step may be matched by no target step ([Context Hstep]), a bounded number of
    times in a row (the index of [I], at most [bound]).  Definite results are kept at the same fuel, and a
    target that ends is matched by a source that ends at a fixed multiple of its
    fuel, so that a diverging source has a diverging target. *)

From S2P Require Import Prelude IrTypes IrInst Worklist IrWalk Floats IrSem Dominators Ssa Lockstep.

(** [reflects r r']: when the target ends with [r'], the source ends with the
    same result or is undefined behaviour. *)
Definition reflects {X W} (r r' : result X W) : Prop := r' <> RTimeout -> r = RStuck \/ r = r'.

Definition reflects_call {X W} (c c' : call_sem X W) : Prop :=
  forall i vs w, reflects (c i vs w) (c' i vs w).

#[export] Instance reflects_preorder {X W} : PreOrder (@reflects X W).
Proof.
  split.
  - intros r _. by right.
  - intros r1 r2 r3 H12 H23 H3. destruct (H23 H3) as [-> | ->]; [|by apply H12]. destruct (H12 ltac:(done)); auto.
Qed.

Lemma refines_weaken {X W} (r r' : result X W) : refines true r r' -> refines false r r'.
Proof. intros H Hok. apply H. by destruct r. Qed.

Lemma refines_reflects {X W} (r r' : result X W) : refines true r r' -> reflects r r'.
Proof. unfold refines. intros H _. destruct r; [right | right | by left | right]; by rewrite H. Qed.

Lemma leave_reflects {X W} `{!Host X W} (w : W) (r r' : result X W) :
  reflects r r' -> reflects (leave_frame w r) (leave_frame w r').
Proof. unfold reflects. rewrite leave_timeout. intros H Ht. destruct (H Ht) as [-> | ->]; auto. Qed.

Section fuel.
Context {X W : Type} `{!Host X W}.
Implicit Types (f : Function) (ρ : gmap ValueId (val X)) (w : W).

Lemma run_blocks_more dyn (call : call_sem X W) n m f b vs ρ w :
n <= m -> run_blocks dyn call n f b vs ρ w <> RTimeout ->
run_blocks dyn call m f b vs ρ w = run_blocks dyn call n f b vs ρ w.
Proof.
revert m b vs ρ w. induction n as [|n IH]; intros m b vs ρ w Hle; [done|]. destruct m as [|m]; [lia|]. simpl.
destruct (exec_block dyn call f b vs ρ w); [done|]. apply IH. lia.
Qed.

Lemma enter_more dyn (call : call_sem X W) n m f args w :
n <= m -> enter_function dyn call n f args w <> RTimeout ->
enter_function dyn call m f args w = enter_function dyn call n f args w.
Proof.
unfold enter_function. destruct (bind_args _ _ _); [|done]. rewrite leave_timeout. intros Hle Ht.
by rewrite (run_blocks_more dyn call n m f _ _ _ w Hle Ht).
Qed.

(** * Calls that end later *)

Lemma exec_inst_reflects dyn (call call' : call_sem X W) i ρ w :
reflects_call call call' -> exec_inst dyn call' i ρ w <> STimeout ->
exec_inst dyn call i ρ w = SStuck \/ exec_inst dyn call i ρ w = exec_inst dyn call' i ρ w.
Proof.
intros Hc. unfold exec_inst. destruct (lookup_all ρ _) as [vs|]; [|by right].
destruct (dyn && _); [by right|]. destruct (class_of _) as [| | |c]; [by right..|].
specialize (Hc c vs w). unfold reflects in Hc. intros Ht. destruct Hc as [-> | ->]; [|by left|by right].
intros E. by rewrite E in Ht.
Qed.

Lemma exec_insts_reflects dyn (call call' : call_sem X W) il ρ w :
reflects_call call call' -> exec_insts dyn call' il ρ w <> STimeout ->
exec_insts dyn call il ρ w = SStuck \/ exec_insts dyn call il ρ w = exec_insts dyn call' il ρ w.
Proof.
intros Hc. revert ρ w. induction il as [|i il IH]; intros ρ w Ht; [by right|]. simpl in *.
destruct (exec_inst_reflects dyn call call' i ρ w Hc) as [-> | ->]; [intros E; by rewrite E in Ht | by left|].
destruct (exec_inst dyn call' i ρ w); auto.
Qed.

Lemma run_blocks_reflects dyn (call call' : call_sem X W) n f b vs ρ w :
reflects_call call call' -> reflects (run_blocks dyn call n f b vs ρ w) (run_blocks dyn call' n f b vs ρ w).
Proof.
intros Hc. revert b vs ρ w. induction n as [|n IH]; intros b vs ρ w; [done|]. cbn [run_blocks]. unfold exec_block.
destruct (find_block f b) as [blk|]; [|done]. destruct (bind_params _ vs ρ) as [ρ1|]; [|done].
pose proof (exec_insts_reflects dyn call call' (block_insts blk) ρ1 w Hc) as He. intros Ht.
destruct He as [-> | ->]; [intros E; by rewrite E in Ht | by left|].
destruct (exec_insts dyn call' (block_insts blk) ρ1 w) as [ρ2 w2| | |]; [|by right..].
destruct (exec_term (block_term blk) ρ2); [by apply IH | by right..].
Qed.

Lemma enter_reflects dyn (call call' : call_sem X W) n f args w :
reflects_call call call' -> reflects (enter_function dyn call n f args w) (enter_function dyn call' n f args w).
Proof. intros Hc. unfold enter_function. destruct (bind_args _ _ _); [by apply leave_reflects, run_blocks_reflects | done]. Qed.

(** * Functions with the same runs *)

(** [f'] has the definite results of [f] at the same fuel, and what it ends with
[f] ends with at [k] times the fuel. *)
Record same_runs (k : nat) (f f' : Function) : Prop := {
sr_forward dyn (call : call_sem X W) n args w :
refines false (enter_function dyn call n f args w) (enter_function dyn call n f' args w);
sr_backward dyn (call : call_sem X W) n args w :
reflects (enter_function dyn call (k * n) f args w) (enter_function dyn call n f' args w) }.

Lemma same_runs_refl f : same_runs 1 f f.
Proof. split; [done|]. intros. by rewrite Nat.mul_1_l. Qed.

Lemma refines_same_runs f f' :
(forall dyn (call : call_sem X W) n args w,
refines true (enter_function dyn call n f args w) (enter_function dyn call n f' args w)) -> same_runs 1 f f'.
Proof. intros Hr. split; intros; [by apply refines_weaken | rewrite Nat.mul_1_l; by apply refines_reflects]. Qed.

Lemma same_runs_trans k l f g h : same_runs k f g -> same_runs l g h -> same_runs (k * l) f h.
Proof.
intros [F1 B1] [F2 B2]. split.
- intros. etransitivity; [apply F1 | apply F2].
- intros. etransitivity; [|apply B2]. rewrite <- Nat.mul_assoc. apply B1.
Qed.

Lemma same_runs_mono k l f g : k <= l -> same_runs k f g -> same_runs l f g.
Proof.
intros Hle [F B]. split; [done|]. intros dyn call n args w Ht. destruct (B dyn call n args w Ht) as [E|E].
- left. rewrite (enter_more _ _ (k * n)), E; [done | nia | by rewrite E].
- right. rewrite (enter_more _ _ (k * n)), E; [done | nia | by rewrite E].
Qed.

Lemma run_func_reflects_more (dyn : nat -> bool) fs n m idx args w :
n <= m -> reflects (run_func dyn m fs idx args w) (run_func dyn n fs idx args w).
Proof.
revert m idx args w. induction n as [|n IH]; intros m idx args w Hle; [intros Ht; by destruct Ht|]. destruct m as [|m]; [lia|]. cbn [run_func].
destruct (fs !! N.to_nat idx) as [f|]; [|done].
etransitivity; [apply enter_reflects; intros i vs w'; apply (IH m); lia|].
intros Ht. right. by apply enter_more.
Qed.

(** From functions to modules: each function of [fs'] has the runs of its
original, with the callees of its own module. *)
Lemma run_func_same_runs (dyn : nat -> bool) k fs fs' :
Forall2 (same_runs k) fs fs' -> 1 <= k ->
forall n idx args w,
refines false (run_func dyn n fs idx args w) (run_func dyn n fs' idx args w) /\
reflects (run_func dyn (k * n) fs idx args w) (run_func dyn n fs' idx args w).
Proof.
intros HF Hk n. induction n as [|n IH]; intros idx args w; [by rewrite Nat.mul_0_r|].
assert (E : k * S n = S (k * n + (k - 1))) by lia. rewrite E. cbn [run_func].
destruct (fs !! N.to_nat idx) as [f|] eqn:Ef.
- destruct (Forall2_lookup_l _ _ _ _ _ HF Ef) as (f' & -> & [F B]). split.
+ etransitivity; [|apply F]. apply same_function_refines. intros i vs w'. apply (IH i vs w').
+ rewrite <- E. etransitivity; [|apply B]. apply enter_reflects. intros i vs w'.
etransitivity; [apply run_func_reflects_more | apply (IH i vs w')]. lia.
- destruct (fs' !! N.to_nat idx) as [f'|] eqn:Ef'; [|by split; [intros []|]].
by destruct (Forall2_lookup_r _ _ _ _ _ HF Ef') as (? & Hf & _); simplify_eq.
Qed.

Lemma diverges_same_runs (dyn : nat -> bool) k fs fs' idx args w :
Forall2 (same_runs k) fs fs' -> 1 <= k ->
(forall n, run_func dyn n fs idx args w = RTimeout) -> forall n, run_func dyn n fs' idx args w = RTimeout.
Proof.
intros HF Hk Hdiv n. destruct (run_func_same_runs dyn k _ _ HF Hk n idx args w) as [_ Hr]. rewrite Hdiv in Hr.
destruct (run_func dyn n fs' idx args w); try done; destruct Hr as [Hr|Hr]; done.
Qed.

(** A pass over the functions of a module. *)
Lemma mapM_same_runs (g : Function -> option (Function * bool)) fs rs :
mapM g fs = Some rs ->
(forall f f' ch, f ∈ fs -> g f = Some (f', ch) -> exists k, 1 <= k /\ same_runs k f f') ->
exists k, 1 <= k /\ Forall2 (same_runs k) fs rs.*1.
Proof.
intros E%mapM_Some. induction E as [|f [f' c] fs rs Hf _ IH]; intros Hg; [by exists 1|].
destruct IH as (k & Hk & HF); [intros g' f2 c2 Hg'; apply Hg; by right|].
destruct (Hg f f' c) as (k' & Hk' & Hr); [left | done|]. exists (k' * k). split; [nia|]. rewrite fmap_cons.
constructor; [eapply same_runs_mono; [|exact Hr]; nia|]. eapply Forall2_impl; [exact HF|]. intros. eapply same_runs_mono; [|done]. nia.
Qed.
End fuel.

(** * Stuttering simulation *)

Section stutter.
Context {X W : Type} `{!Host X W}.
Notation env := (gmap ValueId (val X)).

(** A state at the start of a block. *)
Record bstate := { st_block : BlockId; st_args : list (val X); st_env : env; st_world : W }.

Definition exec_at (dyn : bool) (call : call_sem X W) (f : Function) (s : bstate) : block_res X W :=
exec_block dyn call f (st_block s) (st_args s) (st_env s) (st_world s).
Definition run_at (dyn : bool) (call : call_sem X W) (n : nat) (f : Function) (s : bstate) : result X W :=
run_blocks dyn call n f (st_block s) (st_args s) (st_env s) (st_world s).

Context (dyn : bool) (call : call_sem X W) (f f' : Function).
Context (I : nat -> bstate -> bstate -> Prop) (bound : nat).
Context (Hbound : forall k s s', I k s s' -> k <= bound).
Context (Hstep : forall k s s', I k s s' ->
match exec_at dyn call f s with
| BDone r => r = RStuck \/ exec_at dyn call f' s' = BDone r
| BJump b vs ρ w =>
let s2 := {| st_block := b; st_args := vs; st_env := ρ; st_world := w |} in
(exists k', I k' s2 s' /\ k' < k) \/
exists b' vs' ρ' w', exec_at dyn call f' s' = BJump b' vs' ρ' w' /\
exists k', I k' s2 {| st_block := b'; st_args := vs'; st_env := ρ'; st_world := w' |}
end).

Lemma stutter_forward n k s s' : I k s s' -> refines false (run_at dyn call n f s) (run_at dyn call n f' s').
Proof.
revert k s s'. induction n as [|n IH]; intros k s s' HI; [done|]. specialize (Hstep k s s' HI).
unfold run_at in *. cbn [run_blocks]. unfold exec_at in Hstep.
destruct (exec_block dyn call f _ _ _ _) as [r|b vs ρ w].
- intros Hok. destruct Hstep as [-> | ->]; done.
- destruct Hstep as [(k' & HI2 & _)|(b' & vs' & ρ' & w' & -> & k' & HI2)].
+ intros Hok. specialize (IH _ _ _ HI2 Hok). cbn [st_block st_args st_env st_world] in IH. rewrite <- IH.
pose proof (run_blocks_more dyn call n (S n) f' (st_block s') (st_args s') (st_env s') (st_world s')) as Hm.
apply Hm; [lia|]. rewrite IH. intros E. by rewrite E in Hok.
+ by apply (IH _ _ _ HI2).
Qed.

Lemma stutter_backward n k s s' :
I k s s' -> reflects (run_at dyn call (S bound * n) f s) (run_at dyn call n f' s').
Proof.
revert k s s'. induction n as [|n IH]; intros k0 s s' HI; [intros Ht; by destruct Ht|].
cut (forall m k s, k <= m -> I k s s' -> reflects (run_at dyn call (S m + S bound * n) f s) (run_at dyn call (S n) f' s')).
{ intros H. replace (S bound * S n) with (S bound + S bound * n) by lia. by eapply (H bound), HI; eapply Hbound. }
clear s k0 HI. intros m. induction m as [m IHm] using lt_wf_ind. intros k s Hk HI. specialize (Hstep k s s' HI).
unfold run_at in *. cbn [run_blocks Nat.add]. unfold exec_at in Hstep. intros Ht.
destruct (exec_block dyn call f _ _ _ _) as [r|b vs ρ w] eqn:E.
- destruct Hstep as [-> | E']; [by left|]. right. by rewrite E'.
- destruct Hstep as [(k' & HI2 & Hr)|(b' & vs' & ρ' & w' & E' & k' & HI2)].
+ destruct m as [|m]; [lia|]. by apply (IHm m ltac:(lia) k' _ ltac:(lia) HI2).
+ rewrite E' in Ht |- *. pose proof (IH _ _ _ HI2 Ht) as [Es|Es]; cbn [st_block st_args st_env st_world] in Es.
* left. rewrite (run_blocks_more _ _ (S bound * n)); [done | lia | by rewrite Es].
* right. rewrite (run_blocks_more _ _ (S bound * n)); [done | lia | by rewrite Es].
Qed.

End stutter.
Arguments bstate : clear implicits.

(** The simulation from the entry of both functions. *)
Lemma stutter_same_runs {X W} `{!Host X W} (f f' : Function) (I : bool -> call_sem X W -> nat -> bstate X W -> bstate X W -> Prop)
    (bound : nat) :
  fn_params f' = fn_params f -> (forall dyn call k s s', I dyn call k s s' -> k <= bound) ->
  (forall dyn call ρ args w, bind_args (fn_params f) args ∅ = Some ρ ->
     exists k, I dyn call k {| st_block := entry f; st_args := []; st_env := ρ; st_world := w |}
       {| st_block := entry f'; st_args := []; st_env := ρ; st_world := w |}) ->
  (forall dyn call k s s', I dyn call k s s' ->
    match exec_at dyn call f s with
    | BDone r => r = RStuck \/ exec_at dyn call f' s' = BDone r
    | BJump b vs ρ w =>
        let s2 := {| st_block := b; st_args := vs; st_env := ρ; st_world := w |} in
        (exists k', I dyn call k' s2 s' /\ k' < k) \/
        exists b' vs' ρ' w', exec_at dyn call f' s' = BJump b' vs' ρ' w' /\
          exists k', I dyn call k' s2 {| st_block := b'; st_args := vs'; st_env := ρ'; st_world := w' |}
    end) ->
  same_runs (X := X) (W := W) (S bound) f f'.
Proof.
  intros Hp Hb He Hs. split; intros dyn call n args w; unfold enter_function; rewrite Hp;
    destruct (bind_args (fn_params f) args ∅) as [ρ|] eqn:Ea; try done; destruct (He dyn call ρ args w Ea) as [k HI].
  - apply leave_refines. by apply (stutter_forward dyn call f f' (I dyn call) (Hs dyn call) n _ _ _ HI).
  - apply leave_reflects. by apply (stutter_backward dyn call f f' (I dyn call) bound (Hb dyn call) (Hs dyn call) n _ _ _ HI).
Qed.

(** * In-place edits of blocks *)

(** On an indexed function [block_mut] reaches the one block of its identifier. *)
Lemma update_block_map f id g :
  block_index_ok f -> id ∈ (block_id <$> blocks f) ->
  update_block f id g = Some (map_blocks (fun b => if decide (block_id b = id) then g b else b) f).
Proof.
  intros Hok (b & -> & Hb)%list_elem_of_fmap. apply list_elem_of_lookup in Hb as [p Hp].
  unfold update_block. assert (block_position f (block_id b) = Some p) as -> by (apply block_position_Some; eauto).
  cbn [mbind option_bind]. rewrite Hp. cbn [mbind option_bind]. f_equal. unfold map_blocks. f_equal.
  apply list_eq. intros q. rewrite list_lookup_fmap. destruct (decide (p = q)) as [<-|Hne].
  - rewrite list_lookup_insert_eq by (by eapply lookup_lt_Some). rewrite Hp. simpl. by rewrite decide_True.
  - rewrite list_lookup_insert_ne by done. destruct (blocks f !! q) as [c|] eqn:Eq; [|done]. simpl.
    rewrite decide_False; [done|]. intros E. apply Hne. by eapply (block_index_inj f).
Qed.

Lemma map_blocks_compose g h f : map_blocks g (map_blocks h f) = map_blocks (fun b => g (h b)) f.
Proof. unfold map_blocks. simpl. by rewrite <- list_fmap_compose. Qed.

Lemma map_blocks_ext_in g h f : (forall b, b ∈ blocks f -> g b = h b) -> map_blocks g f = map_blocks h f.
Proof. intros H. unfold map_blocks. f_equal. apply list_fmap_ext. intros i b Hb. apply H. by eapply list_elem_of_lookup_2. Qed.

(** Blocks that are not yet marked unreachable: what the edits use up. *)
Definition is_live (b : BasicBlock) : bool := match block_term b with Some Unreachable => false | _ => true end.
Definition live_blocks (f : Function) : nat := length (filter (fun b => is_live b = true) (blocks f)).

Lemma live_blocks_le f : live_blocks f <= length (blocks f).
Proof. apply length_filter. Qed.

Lemma live_filter_le h (l : list BasicBlock) :
  (forall c, c ∈ l -> is_live (h c) = true -> is_live c = true) ->
  length (filter (fun b => is_live b = true) (h <$> l)) <= length (filter (fun b => is_live b = true) l).
Proof.
  intros Hl. induction l as [|d l IH]; [done|]. rewrite fmap_cons, !filter_cons.
  specialize (IH ltac:(intros c Hc; apply Hl; by right)).
  repeat case_decide; simpl; try lia. exfalso. by eauto using list_elem_of_here.
Qed.

Lemma live_blocks_lt h f b :
  (forall c, c ∈ blocks f -> is_live (h c) = true -> is_live c = true) ->
  b ∈ blocks f -> is_live b = true -> is_live (h b) = false ->
  live_blocks (map_blocks h f) < live_blocks f.
Proof.
  unfold live_blocks. simpl. generalize (blocks f) as l. intros l. induction l as [|c l IH]; intros Hl Hb Hlive Hdead.
  { by apply not_elem_of_nil in Hb. }
  assert (Hl' : forall c, c ∈ l -> is_live (h c) = true -> is_live c = true) by (intros d Hd; apply Hl; by right).
  rewrite fmap_cons, !filter_cons. pose proof (live_filter_le h l Hl') as Hle.
  apply elem_of_cons in Hb as [<-|Hb].
  - rewrite Hdead, Hlive. simpl. lia.
  - specialize (IH Hl' Hb Hlive Hdead). repeat case_decide; simpl; try lia. exfalso. by eauto using list_elem_of_here.
Qed.

(** * The body of a block *)

Section body.
Context {X W : Type} `{!Host X W}.

(** What [exec_block] does once the parameters are bound. *)
Definition exec_body (dyn : bool) (call : call_sem X W) (blk : BasicBlock) (ρ : gmap ValueId (val X)) (w : W) : block_res X W :=
match exec_insts dyn call (block_insts blk) ρ w with
| SHalt w' => BDone (RHalt w')
| SStuck => BDone RStuck
| STimeout => BDone RTimeout
| SNext ρ2 w' =>
match exec_term (block_term blk) ρ2 with
| TStuck => BDone RStuck
| TRet v => BDone (RRet v w')
| TJump b' vs' => BJump b' vs' ρ2 w'
end
end.

Lemma exec_block_body dyn (call : call_sem X W) f id vs ρ w :
exec_block dyn call f id vs ρ w =
match find_block f id with
| None => BDone RStuck
| Some blk =>
match bind_params (block_params blk) vs ρ with
| None => BDone RStuck
| Some ρ1 => exec_body dyn call blk ρ1 w
end
end.
Proof. done. Qed.

Lemma exec_body_target dyn (call : call_sem X W) blk ρ w d vs ρ2 w2 :
exec_body dyn call blk ρ w = BJump d vs ρ2 w2 -> d ∈ block_targets blk.
Proof.
unfold exec_body. destruct (exec_insts _ _ _ _ _) as [ρ1 w1| | |]; try done.
destruct (exec_term (block_term blk) ρ1) eqn:Et; try done. intros [= -> -> -> ->]. by eapply exec_term_target.
Qed.
End body.
