(* ===== verification/DeadFunc.v ===== *)
(** Dead-function elimination (src/src/opt/dead_func.rs): functions that no call,
    address, data relocation or other translation unit can reach are removed, and
    the calls of the others are renumbered.  The indices of functions are not
    wrapped: a module has fewer than 2^32 of them. *)

From S2P Require Import Prelude IrTypes IrInst Sample Worklist IrWalk Floats IrSem.
Local Open Scope N_scope.

Definition module_insts (m : Module_) : list Inst := functions m ≫= fun f => blocks f ≫= block_insts.

Definition indexed (m : Module_) : list (N * Function) := zip (N.of_nat <$> seq 0 (length (functions m))) (functions m).

(** The indices of the functions that satisfy [keep]. *)
Definition indices_of (keep : Function -> bool) (m : Module_) : gset N :=
  list_to_set (fst <$> filter (fun p => keep p.2 = true) (indexed m)).

(** The lowered program entries, or function 0. *)
Definition is_program_root (f : Function) : bool := String.prefix "__prog_" (fn_name f).

Definition root_indices (m : Module_) : gset N :=
  let roots := indices_of is_program_root m in if decide (roots = ∅) then {[0]} else roots.

Definition called_index (i : Inst) : option N :=
  match inst_kind i with Call (Internal idx) _ => Some idx | _ => None end.

(** Names that external calls, address constants and data relocations mention. *)
Definition named (i : Inst) : option string :=
  match inst_kind i with
  | Call (External name) _ => Some name
  | GlobalAddr name => Some name
  | _ => None
  end.

Definition slot_symbol (s : QuadSlot) : option string := match s with QSym name => Some name | QInt _ => None end.

Definition relocation_names (g : Global) : list string :=
  match initializer g with Some (GQuadTable slots) => omap slot_symbol slots | _ => [] end.

Definition mentioned_names (m : Module_) : gset string :=
  list_to_set (omap named (module_insts m)) ∪ list_to_set (globals m ≫= relocation_names).

(** [referenced] at the end of its collection. *)
Definition referenced (m : Module_) : gset N :=
  root_indices m ∪ list_to_set (omap called_index (module_insts m)) ∪
  indices_of (fun f => bool_decide (fn_name f ∈ mentioned_names m)) m ∪
  indices_of (fun f => negb (internal_only f)) m.

(** [idx_map]: the new index of each surviving function. *)
Definition number_survivor (kept : gset N) (st : gmap N N * N) (old_idx : N) : gmap N N * N :=
  let '(map, new_idx) := st in
  if decide (old_idx ∈ kept) then (<[old_idx := new_idx]> map, new_idx + 1) else st.

Definition idx_map (m : Module_) : gmap N N :=
  (foldl (number_survivor (referenced m)) (∅, 0) (N.of_nat <$> seq 0 (length (functions m)))).1.

Definition remap_inst (map : gmap N N) (i : Inst) : Inst :=
  match inst_kind i with
  | Call (Internal idx) args => set_kind i (Call (Internal (default idx (map !! idx))) args)
  | _ => i
  end.

Definition remap_function (map : gmap N N) (f : Function) : Function :=
  map_blocks (fun b => set_insts b (remap_inst map <$> block_insts b)) f.

(** [DeadFuncElim::run]: removal in reverse order, then renumbering. *)
Definition dead_indices (m : Module_) : list nat :=
  filter (fun i => N.of_nat i ∉ referenced m) (seq 0 (length (functions m))).

Definition dead_func_elim (m : Module_) : Module_ * bool :=
  if (length (functions m) <=? 1)%nat then (m, false)
  else match dead_indices m with
       | [] => (m, false)
       | dead => (set_functions m (remap_function (idx_map m) <$> foldl (fun fs idx => delete idx fs) (functions m) (reverse dead)), true)
       end.

(** * What survives *)

Section survive.
Context (m : Module_).
Notation n := (length (functions m)).
Notation kept i := (N.of_nat i ∈ referenced m).

(** How many functions below [i] survive: the new index of [i]. *)
Definition survivor_rank (i : nat) : nat := length (filter (fun j => kept j) (seq 0 i)).

Lemma survivor_rank_S i : survivor_rank (S i) = (if decide (kept i) then S (survivor_rank i) else survivor_rank i).
Proof.
unfold survivor_rank. rewrite seq_S, filter_app, filter_cons, filter_nil, length_app. simpl. case_decide; simpl; lia.
Qed.

Lemma idx_map_spec : forall k, (k <= n)%nat ->
forall map new, foldl (number_survivor (referenced m)) (∅, 0) (N.of_nat <$> seq 0 k) = (map, new) ->
new = N.of_nat (survivor_rank k) /\
(forall i, (i < k)%nat -> kept i -> map !! N.of_nat i = Some (N.of_nat (survivor_rank i))) /\
(forall i, (k <= i)%nat \/ ~ kept i -> map !! N.of_nat i = None).
Proof.
intros k. induction k as [|k IH]; intros Hk map new E.
- simpl in E. simplify_eq. split; [done|]. split; [lia|]. intros i _. apply lookup_empty.
- rewrite seq_S, fmap_app, foldl_app in E. simpl in E.
destruct (foldl _ _ (N.of_nat <$> seq 0 k)) as [map0 new0] eqn:E0. destruct (IH ltac:(lia) map0 new0 eq_refl) as (-> & Hin & Hout).
unfold number_survivor in E. rewrite survivor_rank_S. case_decide as Hkept; simplify_eq.
+ split; [lia|]. split.
* intros i Hi Hki. destruct (decide (i = k)) as [->|Hne]; [by rewrite lookup_insert_eq|].
rewrite lookup_insert_ne by lia. apply Hin; [lia | done].
* intros i Hi. rewrite lookup_insert_ne; [apply Hout; destruct Hi; [lia | tauto]|].
intros E%Nat2N.inj. subst i. destruct Hi; [lia | done].
+ split; [done|]. split.
* intros i Hi Hki. apply Hin; [|done]. destruct (decide (i = k)) as [->|]; [done | lia].
* intros i Hi. apply Hout. destruct Hi; [lia | tauto].
Qed.

Lemma idx_map_kept i : (i < n)%nat -> kept i -> idx_map m !! N.of_nat i = Some (N.of_nat (survivor_rank i)).
Proof.
intros Hi Hk. unfold idx_map. destruct (foldl _ _ _) as [map new] eqn:E.
destruct (idx_map_spec n ltac:(lia) map new E) as (_ & H & _). by apply H.
Qed.

Lemma idx_map_out i : (n <= i)%nat \/ ~ kept i -> idx_map m !! N.of_nat i = None.
Proof.
intros Hi. unfold idx_map. destruct (foldl _ _ _) as [map new] eqn:E.
destruct (idx_map_spec n ltac:(lia) map new E) as (_ & _ & H). by apply H.
Qed.

Lemma idx_map_Some i j : idx_map m !! i = Some j <-> (N.to_nat i < n)%nat /\ i ∈ referenced m /\ j = N.of_nat (survivor_rank (N.to_nat i)).
Proof.
rewrite <- (N2Nat.id i). generalize (N.to_nat i) as k. clear i. intros k. rewrite Nat2N.id. split.
- intros E. destruct (decide ((k < n)%nat /\ kept k)) as [[Hk Hr]|Hno].
+ rewrite idx_map_kept in E by done. by simplify_eq.
+ rewrite idx_map_out in E; [done|]. destruct (decide (kept k)); [left; apply not_lt; tauto | by right].
- intros (Hk & Hr & ->). by apply idx_map_kept.
Qed.

(** Removing positions from the back: the others keep their order. *)
Definition remove_dead {A} (l : list A) (k : nat) : list A :=
foldl (fun l i => delete i l) l (reverse (filter (fun i => N.of_nat i ∉ referenced m) (seq 0 k))).

Lemma remove_dead_lookup {A} (l : list A) k : (k <= length l)%nat ->
(forall i, (k <= i)%nat -> remove_dead l k !! (survivor_rank k + (i - k))%nat = l !! i) /\
(forall i, (i < k)%nat -> kept i -> remove_dead l k !! survivor_rank i = l !! i) /\
length (remove_dead l k) = (survivor_rank k + (length l - k))%nat.
Proof.
revert l. induction k as [|k IH]; intros l Hk.
- unfold remove_dead. simpl. split; [|split; [lia | lia]]. intros i _. f_equal. unfold survivor_rank. simpl. lia.
- assert (Er : remove_dead l (S k) = if decide (kept k) then remove_dead l k else remove_dead (delete k l) k).
{ unfold remove_dead. rewrite seq_S, filter_app, filter_cons, filter_nil. simpl. rewrite reverse_app, foldl_app.
case_decide as H1; case_decide as H2; try done; tauto. }
rewrite Er, survivor_rank_S. case_decide as Hkept.
+ destruct (IH l ltac:(lia)) as (Hhi & Hlo & Hlen). split; [|split].
* intros i Hi. rewrite <- (Hhi i) by lia. f_equal. lia.
* intros i Hi Hki. destruct (decide (i = k)) as [->|]; [|apply Hlo; [lia | done]].
rewrite <- (Hhi k) by lia. f_equal. lia.
* rewrite Hlen. lia.
+ assert (Hl : length (delete k l) = (length l - 1)%nat) by (apply length_delete, lookup_lt_is_Some; lia).
destruct (IH (delete k l) ltac:(lia)) as (Hhi & Hlo & Hlen). split; [|split].
* intros i Hi. specialize (Hhi (i - 1)%nat ltac:(lia)). rewrite list_lookup_delete_ge in Hhi by lia.
replace (S (i - 1)) with i in Hhi by lia. rewrite <- Hhi. f_equal. lia.
* intros i Hi Hki. destruct (decide (i = k)) as [->|]; [done|]. rewrite (Hlo i) by (done || lia).
apply list_lookup_delete_lt. lia.
* rewrite Hlen, Hl. lia.
Qed.

Lemma survivor_rank_le i : (survivor_rank i <= i)%nat.
Proof. unfold survivor_rank. etrans; [apply length_filter|]. by rewrite length_seq. Qed.

(** ** What calls name is kept *)

Lemma called_kept f b i idx args :
f ∈ functions m -> b ∈ blocks f -> i ∈ block_insts b -> inst_kind i = Call (Internal idx) args -> idx ∈ referenced m.
Proof.
intros Hf Hb Hi Hk. unfold referenced. do 2 (apply elem_of_union; left). apply elem_of_union; right.
apply elem_of_list_to_set, list_elem_of_omap. exists i. split; [|unfold called_index; by rewrite Hk].
unfold module_insts. apply list_elem_of_bind. exists f. split; [|done]. apply list_elem_of_bind. by exists b.
Qed.
End survive.

(** * Runs *)

Section run.
Context {X W : Type} `{!Host X W}.
Context (map : gmap N N) (dyn : bool) (call call' : call_sem X W).

(** The calls of an instruction lead to functions that behave alike. *)
Definition call_ok (i : Inst) : Prop :=
forall c args, inst_kind i = Call (Internal c) args -> forall vs w, call' (default c (map !! c)) vs w = call c vs w.

Lemma exec_inst_remap i ρ w : call_ok i -> exec_inst dyn call' (remap_inst map i) ρ w = exec_inst dyn call i ρ w.
Proof.
intros Hc. unfold remap_inst. destruct (inst_kind i) as [] eqn:E; try (unfold exec_inst; by rewrite E).
match goal with c : FuncRef |- _ => destruct c end; try (unfold exec_inst; by rewrite E).
unfold exec_inst. rewrite E. simpl. destruct (lookup_all ρ _) as [vs|]; [|done]. rewrite andb_false_r. by rewrite (Hc _ _ E).
Qed.

Lemma exec_insts_remap il ρ w :
(forall i, i ∈ il -> call_ok i) -> exec_insts dyn call' (remap_inst map <$> il) ρ w = exec_insts dyn call il ρ w.
Proof.
revert ρ w. induction il as [|i il IH]; intros ρ w Hc; [done|]. rewrite fmap_cons. cbn [exec_insts].
rewrite exec_inst_remap by (apply Hc; left). destruct (exec_inst dyn call i ρ w); try done. apply IH. intros j Hj. apply Hc. by right.
Qed.

Lemma run_blocks_remap f n b vs ρ w :
(forall blk i, blk ∈ blocks f -> i ∈ block_insts blk -> call_ok i) ->
run_blocks dyn call' n (remap_function map f) b vs ρ w = run_blocks dyn call n f b vs ρ w.
Proof.
intros Hc. revert b vs ρ w. induction n as [|n IH]; intros b vs ρ w; [done|]. cbn [run_blocks]. unfold exec_block, remap_function.
rewrite find_block_map by done. destruct (find_block f b) as [blk|] eqn:Ef; [|done]. cbn [fmap option_fmap option_map block_params block_insts block_term set_insts].
destruct (bind_params (block_params blk) vs ρ) as [ρ1|]; [|done].
apply find_block_Some in Ef as [Hin _]. rewrite exec_insts_remap by (intros i Hi; by apply (Hc blk)).
destruct (exec_insts dyn call (block_insts blk) ρ1 w) as [ρ2 w2| | |]; try done. destruct (exec_term (block_term blk) ρ2); [apply IH | done..].
Qed.

Lemma enter_remap f n args w :
(forall blk i, blk ∈ blocks f -> i ∈ block_insts blk -> call_ok i) ->
enter_function dyn call' n (remap_function map f) args w = enter_function dyn call n f args w.
Proof. intros Hc. unfold enter_function. simpl. destruct (bind_args _ _ _); [|done]. f_equal. by apply run_blocks_remap. Qed.
End run.

Lemma run_func_out {X W} `{!Host X W} dyn fuel fs idx args (w : W) :
  (length fs <= N.to_nat idx)%nat -> run_func (X := X) dyn fuel fs idx args w = if fuel then RTimeout else RStuck.
Proof. intros H. destruct fuel; [done|]. cbn [run_func]. by rewrite lookup_ge_None_2. Qed.

(** ** The module that is left *)

Definition survivors (m : Module_) : list Function :=
  remap_function (idx_map m) <$> remove_dead m (functions m) (length (functions m)).

Lemma survivor_lookup m i :
  (i < length (functions m))%nat -> N.of_nat i ∈ referenced m ->
  survivors m !! survivor_rank m i = remap_function (idx_map m) <$> functions m !! i.
Proof.
  intros Hi Hk. unfold survivors. rewrite list_lookup_fmap. f_equal.
  destruct (remove_dead_lookup m (functions m) (length (functions m)) ltac:(lia)) as (_ & H & _). by apply H.
Qed.

Lemma survivors_length m : length (survivors m) = survivor_rank m (length (functions m)).
Proof.
  unfold survivors. rewrite length_fmap. destruct (remove_dead_lookup m (functions m) (length (functions m)) ltac:(lia)) as (_ & _ & ->). lia.
Qed.

Lemma run_survivor {X W} `{!Host X W} m (dyn dyn' : nat -> bool) fuel :
  (forall i, (i < length (functions m))%nat -> N.of_nat i ∈ referenced m -> dyn' (survivor_rank m i) = dyn i) ->
  forall i args (w : W), (i < length (functions m))%nat -> N.of_nat i ∈ referenced m ->
  run_func (X := X) dyn' fuel (survivors m) (N.of_nat (survivor_rank m i)) args w = run_func dyn fuel (functions m) (N.of_nat i) args w.
Proof.
  intros Hdyn. induction fuel as [|fuel IH]; intros i args w Hi Hk; [done|]. cbn [run_func]. rewrite !Nat2N.id.
  rewrite (survivor_lookup m i Hi Hk), (Hdyn i Hi Hk).
  destruct (functions m !! i) as [f|] eqn:Ef; [|done]. cbn [fmap option_fmap option_map]. apply enter_remap.
  intros blk ins Hb Hin c cargs Hc vs w'.
  assert (Hcr : c ∈ referenced m) by (eapply called_kept; [by eapply list_elem_of_lookup_2 | done | done | done]).
  rewrite <- (N2Nat.id c) in Hcr |- *. destruct (decide (N.to_nat c < length (functions m))%nat) as [Hlt|Hge].
  - rewrite idx_map_kept by done. by apply IH.
  - rewrite idx_map_out by (left; lia). simpl. rewrite !run_func_out; [done | rewrite Nat2N.id; lia|].
    rewrite Nat2N.id, survivors_length. pose proof (survivor_rank_le m (length (functions m))). lia.
Qed.

Lemma dead_func_elim_survivors m m' : dead_func_elim m = (m', true) -> functions m' = survivors m.
Proof.
  unfold dead_func_elim. case_match; [done|]. unfold survivors, remove_dead, dead_indices.
  destruct (filter _ (seq 0 _)) as [|i l]; [done|]. by intros [= <-].
Qed.

Lemma dead_func_elim_unchanged m m' : dead_func_elim m = (m', false) -> m' = m.
Proof. unfold dead_func_elim. case_match; [by intros [= <-]|]. destruct (dead_indices m); [by intros [= <-] | done]. Qed.

Lemma elem_of_indices_of keep m i : N.of_nat i ∈ indices_of keep m <-> exists f, functions m !! i = Some f /\ keep f = true.
Proof.
  unfold indices_of, indexed. rewrite elem_of_list_to_set, list_elem_of_fmap. split.
  - intros ([j f] & E & [Hk Hin]%list_elem_of_filter). simpl in E, Hk. subst j. apply list_elem_of_lookup in Hin as [p Hp].
    apply lookup_zip_with_Some in Hp as (a & b & E & Ha & Hb). injection E as <- <-. rewrite list_lookup_fmap in Ha. apply fmap_Some in Ha as (q & Hq & Eq).
    apply lookup_seq in Hq as [-> _]. apply Nat2N.inj in Eq as ->. eauto.
  - intros (f & Hf & Hk). exists (N.of_nat i, f). split; [done|]. apply list_elem_of_filter. split; [done|].
    apply list_elem_of_lookup. exists i. apply lookup_zip_with_Some. exists (N.of_nat i), f. split; [done|]. split; [|done].
    rewrite list_lookup_fmap. apply lookup_lt_Some in Hf. by rewrite lookup_seq_lt.
Qed.

(** What other modules, the start-up code or data can reach. *)
Definition reachable_from_outside (m : Module_) (f : Function) : Prop :=
  is_program_root f = true \/ internal_only f = false \/ fn_name f ∈ mentioned_names m.

Lemma outside_referenced m i f : functions m !! i = Some f -> reachable_from_outside m f -> N.of_nat i ∈ referenced m.
Proof.
  intros Hf Ho. unfold referenced. destruct Ho as [Hr|[Hv|Hn]].
  - do 3 (apply elem_of_union; left). unfold root_indices.
    assert (Hin : N.of_nat i ∈ indices_of is_program_root m) by (apply elem_of_indices_of; eauto). case_decide as E; [|done].
    rewrite E in Hin. by apply not_elem_of_empty in Hin.
  - apply elem_of_union; right. apply elem_of_indices_of. exists f. by rewrite Hv.
  - apply elem_of_union; left. apply elem_of_union; right. apply elem_of_indices_of. exists f. split; [done|]. by apply bool_decide_true.
Qed.

(** * Properties *)

(** C8: Dead-function elimination keeps every function that the program start,
    another translation unit, a name or a call can reach, under the index the pass
    renumbers its calls to, and each runs there as before: same result, same
    effects, same fuel.  When it reports no change it has made none. *)
Theorem dead_func_preserves {X W} `{!Host X W} m m' ch :
  dead_func_elim m = (m', ch) ->
  if ch then
    (forall i f, functions m !! i = Some f -> reachable_from_outside m f ->
       exists j g, idx_map m !! N.of_nat i = Some j /\ functions m' !! N.to_nat j = Some g /\ fn_name g = fn_name f) /\
    (forall dyn dyn' fuel i j args (w : W),
       (forall i j, idx_map m !! i = Some j -> dyn' (N.to_nat j) = dyn (N.to_nat i)) -> idx_map m !! i = Some j ->
       run_func (X := X) dyn' fuel (functions m') j args w = run_func dyn fuel (functions m) i args w)
  else m' = m.
Proof.
  intros E. destruct ch; [|by apply dead_func_elim_unchanged]. apply dead_func_elim_survivors in E as ->. split.
  - intros i f Hf Ho. pose proof (outside_referenced m i f Hf Ho) as Hk. pose proof (lookup_lt_Some _ _ _ Hf) as Hi.
    exists (N.of_nat (survivor_rank m i)), (remap_function (idx_map m) f). split; [by apply idx_map_kept|].
    rewrite Nat2N.id, survivor_lookup by done. by rewrite Hf.
  - intros dyn dyn' fuel i j args w Hdyn (Hi & Hk & ->)%idx_map_Some. rewrite <- (N2Nat.id i) in Hk |- * at 2.
    apply run_survivor; [|done|done]. intros k Hlt Hkept. pose proof (Hdyn _ _ (idx_map_kept m k Hlt Hkept)) as Hd.
    by rewrite !Nat2N.id in Hd.
Qed.

(** ** A module with a procedure that is no longer called *)

Definition hide (f : Function) : Function :=
  {| fn_name := fn_name f; fn_params := fn_params f; return_type := return_type f; blocks := blocks f;
     block_positions := block_positions f; directly_dereferenceable_params := directly_dereferenceable_params f;
     entry := entry f; next_value := next_value f; next_block := next_block f; type_cache := type_cache f;
     is_pure := is_pure f; is_elemental := is_elemental f; internal_only := true |}.

Definition main_fn : Function :=
  hide (mk_fn "__prog_main" [] i32 [mk_block 0 "entry" [] [mk_inst 0 (Call (Internal 2) []) i32] (Return (Some 0))] 1).

Definition three_fns : Module_ := mk_module [main_fn; hide loop_fn; hide sum_fn].

#[local] Existing Instance unit_host.

Lemma dead_func_preserves_witness :
  (exists m', dead_func_elim three_fns = (m', true) /\ length (functions m') = 2%nat) /\
  run_func (X := unit) (fun _ => false) 3 (functions (dead_func_elim three_fns).1) 0 [] () = RRet (Some (VInt I32 5)) ().
Proof.
  split; [eexists; split; vm_compute; reflexivity|].
  destruct (dead_func_preserves (X := unit) (W := unit) three_fns (dead_func_elim three_fns).1 true) as [_ H]; [vm_compute; reflexivity|].
  rewrite (H (fun _ => false) (fun _ => false) 3%nat 0 0 [] ()); [vm_compute; reflexivity | done | vm_compute; reflexivity].
Defined.
