(* ===== verification/SimplifyCfg.v ===== *)
(** CFG simplification (src/src/opt/simplify_cfg.rs): jumps through empty
    forwarding blocks are threaded, a block is merged into its only predecessor,
    and what becomes unreachable is pruned.  Loop preheaders
    ([find_preheader] of src/src/opt/loop_utils.rs) are left alone. *)

From stdpp Require Import sorting.
From S2P Require Import Prelude IrTypes IrInst Sample Worklist IrWalk Floats IrSem Dominators Ssa NaturalLoops.
From S2P Require Import IrVerify Lockstep Prune Stutter.

(** [sort_by_key(|b| b.0)] followed by [dedup()]: the distinct identifiers in
    increasing order. *)
Definition sorted_unique (l : list BlockId) : list BlockId := merge_sort N.le (remove_dups l).

(** [find_preheader]: the only outside predecessor of the header, when it ends
    in an unconditional branch; [None] outside is the panic of [func.block]. *)
Definition find_preheader (f : Function) (lp : NaturalLoop) (preds : gmap BlockId (list BlockId)) : option (option BlockId) :=
  match preds !! nl_header lp with
  | None => Some None
  | Some header_preds =>
      match sorted_unique (filter (fun p => p ∉ nl_body lp) header_preds) with
      | [ph] =>
          if decide (ph = nl_header lp) then Some None
          else ph_block ← try_block f ph;
               Some (match block_term ph_block with
                     | Some (Branch dest _) => if decide (dest = nl_header lp) then Some ph else None
                     | _ => None
                     end)
      | _ => Some None
      end
  end.

Definition loop_preheaders (f : Function) : option (gset BlockId) :=
  let preds := predecessors f in
  loops ← find_natural_loops f;
  phs ← mapM (fun lp => find_preheader f lp preds) loops;
  Some (list_to_set (omap id phs)).

(** [redirect_terminator] *)
Definition redirect (old new d : BlockId) : BlockId := if decide (d = old) then new else d.

Definition redirect_terminator (old new : BlockId) (t : Terminator) : Terminator :=
  match t with
  | Branch dest args => Branch (redirect old new dest) args
  | CondBranch c td ta fd fa => CondBranch c (redirect old new td) ta (redirect old new fd) fa
  | Switch s cases default => Switch s ((fun c => (c.1, redirect old new c.2)) <$> cases) (redirect old new default)
  | _ => t
  end.

(** ** Phase 1: threading jumps through empty blocks *)

(** The scan of phase 1 for one block: where it merely forwards to. *)
Definition forwards (f : Function) (loop_preheaders : gset BlockId) (block : BasicBlock) : option (BlockId * BlockId) :=
  if decide (block_id block = entry f) then None
  else if decide (block_id block ∈ loop_preheaders) then None
  else match block_insts block, block_params block, block_term block with
       | [], [], Some (Branch target []) =>
           if decide (target <> block_id block) then Some (block_id block, target) else None
       | _, _, _ => None
       end.

Definition redirect_block (empty_block target : BlockId) (block : BasicBlock) : BasicBlock :=
  if decide (block_id block = empty_block) then block
  else set_term block (redirect_terminator empty_block target <$> block_term block).

Definition thread_jump (f : Function) (empty_block target : BlockId) : option Function :=
  update_block (map_blocks (redirect_block empty_block target) f) empty_block
    (fun b => set_term b (Some Unreachable)).

Fixpoint thread_loop (fuel : nat) (loop_preheaders : gset BlockId) (f : Function) (changed : bool) : option (Function * bool) :=
  match head (omap (forwards f loop_preheaders) (blocks f)) with
  | None => Some (f, changed)
  | Some (empty_block, target) =>
      match fuel with
      | O => None
      | S fuel => f' ← thread_jump f empty_block target; thread_loop fuel loop_preheaders f' true
      end
  end.

(** ** Phase 2: merging a block into its only predecessor *)

Definition mergeable (preds : gmap BlockId (list BlockId)) (block : BasicBlock) : option (BlockId * BlockId) :=
  match block_term block with
  | Some (Branch succ []) =>
      if decide (succ <> block_id block) then
        match sorted_unique <$> preds !! succ with
        | Some [p] => if decide (p = block_id block) then Some (block_id block, succ) else None
        | _ => None
        end
      else None
  | _ => None
  end.

Definition merge_blocks (f : Function) (pred_id succ_id : BlockId) : option Function :=
  succ ← try_block f succ_id;
  f1 ← update_block f pred_id (fun b => set_term (set_insts b (block_insts b ++ block_insts succ)) (block_term succ));
  update_block f1 succ_id (fun b => set_insts (set_term b (Some Unreachable)) []).

Fixpoint merge_loop (fuel : nat) (f : Function) (changed : bool) : option (Function * bool) :=
  match head (omap (mergeable (predecessors f)) (blocks f)) with
  | None => Some (f, changed)
  | Some (pred_id, succ_id) =>
      match fuel with
      | O => None
      | S fuel => f' ← merge_blocks f pred_id succ_id; merge_loop fuel f' true
      end
  end.

(** [simplify_function]; every round of either loop leaves one more block
    [Unreachable], so that one round per block is enough. *)
Definition simplify_function (f : Function) : option (Function * bool) :=
  preheaders ← loop_preheaders f;
  '(f1, changed1) ← thread_loop (length (blocks f)) preheaders f false;
  '(f2, changed) ← merge_loop (length (blocks f)) f1 changed1;
  if (changed : bool) then '(f3, _) ← prune_unreachable f2; Some (f3, true) else Some (f2, false).

(** [SimplifyCfg::run]. *)
Definition simplify_cfg (m : Module_) : option (Module_ * bool) :=
  rs ← mapM simplify_function (functions m);
  Some (set_functions m rs.*1, existsb (fun r => r.2) rs).

(** * The invariant of the loops *)

Record cfg_ok (f : Function) : Prop := {
  co_index : block_index_ok f;
  co_entry : entry f ∈ (block_id <$> blocks f);
  co_no_entry_edge : forall b, b ∈ blocks f -> entry f ∉ block_targets b;
  co_targets : forall b t, b ∈ blocks f -> t ∈ block_targets b -> t ∈ (block_id <$> blocks f);
  co_counters : counters_ok f }.

Lemma map_blocks_ids h f :
  (forall b, block_id (h b) = block_id b) -> block_id <$> blocks (map_blocks h f) = block_id <$> blocks f.
Proof. intros Hid. simpl. rewrite <- list_fmap_compose. apply list_fmap_ext. intros i b _. apply Hid. Qed.

(** An edit that brings no new edge target keeps the invariant. *)
Lemma cfg_ok_edit h f :
  (forall b, block_id (h b) = block_id b) ->
  (forall b t, b ∈ blocks f -> t ∈ block_targets (h b) -> exists c, c ∈ blocks f /\ t ∈ block_targets c) ->
  cfg_ok f -> cfg_ok (map_blocks h f).
Proof.
  intros Hid Ht [Hi He Hn Hg Hc].
  assert (Hin : forall b t, b ∈ blocks (map_blocks h f) -> t ∈ block_targets b -> exists c, c ∈ blocks f /\ t ∈ block_targets c).
  { intros b t (c & -> & Hb)%list_elem_of_fmap Hb'. by eapply Ht. }
  split.
  - by apply map_blocks_index.
  - by rewrite map_blocks_ids.
  - intros b Hb Hin'. destruct (Hin _ _ Hb Hin') as (c & Hc' & Hct). by apply (Hn c).
  - intros b t Hb Hbt. rewrite map_blocks_ids by done. destruct (Hin _ _ Hb Hbt) as (c & Hc' & Hct). by eapply Hg.
  - done.
Qed.

Lemma elem_of_sorted_unique x l : x ∈ sorted_unique l <-> x ∈ l.
Proof. unfold sorted_unique. by rewrite merge_sort_Permutation, elem_of_remove_dups. Qed.

Lemma head_omap_Some {A B} (g : A -> option B) l y : head (omap g l) = Some y -> exists x, x ∈ l /\ g x = Some y.
Proof. intros H. apply list_elem_of_omap. destruct (omap g l); [done|]. injection H as ->. left. Qed.

(** ** One threaded jump *)

Lemma forwards_Some f ph b e t :
  forwards f ph b = Some (e, t) ->
  block_id b = e /\ e <> entry f /\ e ∉ ph /\ t <> e /\ block_insts b = [] /\ block_params b = [] /\ block_term b = Some (Branch t []).
Proof.
  unfold forwards. repeat case_decide; try done. intros Hf.
  destruct (block_insts b), (block_params b), (block_term b) as [[|d [|]| | |]|]; try done.
  case_decide; simplify_eq. done.
Qed.

Definition threaded (e t : BlockId) (b : BasicBlock) : BasicBlock :=
  if decide (block_id b = e) then set_term b (Some Unreachable)
  else set_term b (redirect_terminator e t <$> block_term b).

Lemma threaded_id e t b : block_id (threaded e t b) = block_id b.
Proof. unfold threaded. by case_decide. Qed.

Lemma thread_jump_map f e t :
  block_index_ok f -> e ∈ (block_id <$> blocks f) -> thread_jump f e t = Some (map_blocks (threaded e t) f).
Proof.
  intros Hok He. unfold thread_jump.
  assert (Hr : forall b, block_id (redirect_block e t b) = block_id b) by (intros b; unfold redirect_block; by case_decide).
  rewrite update_block_map; [|by apply map_blocks_index | by rewrite map_blocks_ids]. f_equal. rewrite map_blocks_compose.
  apply map_blocks_ext_in. intros b _. rewrite Hr. unfold threaded, redirect_block. by case_decide.
Qed.

Lemma redirect_targets e t term : terminator_targets (redirect_terminator e t term) = redirect e t <$> terminator_targets term.
Proof. destruct term; try done. simpl. by rewrite fmap_app, <- !list_fmap_compose. Qed.

Lemma threaded_targets e t b x :
  x ∈ block_targets (threaded e t b) -> x ∈ block_targets b \/ (x = t /\ e ∈ block_targets b).
Proof.
  unfold threaded, block_targets. case_decide; simpl; [intros Hx; by apply not_elem_of_nil in Hx|].
  destruct (block_term b) as [term|]; simpl; [|by left]. rewrite redirect_targets.
  intros (d & -> & Hd)%list_elem_of_fmap. unfold redirect. case_decide; subst; auto.
Qed.

(** The terminator leads where it led, past the empty block. *)
Lemma exec_term_redirect {X} e t term (ρ : gmap ValueId (val X)) :
  exec_term (redirect_terminator e t <$> term) ρ =
    match exec_term term ρ with TJump d vs => TJump (redirect e t d) vs | r => r end.
Proof.
  assert (Hj : forall d args, jump ρ (redirect e t d) args =
    match jump ρ d args with TJump d vs => TJump (redirect e t d) vs | r => r end).
  { intros d args. unfold jump. by destruct (lookup_all ρ args). }
  destruct term as [[v|d args|c td ta fd fa|s cases d|]|]; try done; simpl.
  - destruct v as [v|]; [|done]. by destruct (ρ !! v).
  - apply Hj.
  - destruct (ρ !! c) as [[| |[]|]|]; try done; apply Hj.
  - destruct (ρ !! s) as [[w z| | |]|]; try done. f_equal. induction cases as [|[k b] cases IH]; [done|].
    rewrite fmap_cons. simpl. case_decide; [done|].
    destruct (list_find _ _) as [[i [k1 b1]]|], (list_find _ cases) as [[i2 [k2 b2]]|]; simpl in *; congruence.
Qed.

Section thread.
Context (f : Function) (ph : gset BlockId) (b : BasicBlock) (e t : BlockId).
Context (Hf : cfg_ok f) (Hb : b ∈ blocks f) (Hfw : forwards f ph b = Some (e, t)).

Lemma thread_edge : t ∈ block_targets b.
Proof. apply forwards_Some in Hfw as (_ & _ & _ & _ & _ & _ & E). unfold block_targets. rewrite E. left. Qed.

Lemma thread_cfg_ok : cfg_ok (map_blocks (threaded e t) f).
Proof.
apply cfg_ok_edit; [apply threaded_id | | done]. intros c x Hc [Hx|[-> _]]%threaded_targets; [eauto|].
exists b. split; [done | apply thread_edge].
Qed.

Lemma thread_live : live_blocks (map_blocks (threaded e t) f) < live_blocks f.
Proof.
pose proof Hfw as (E & _ & _ & _ & _ & _ & Et)%forwards_Some.
apply (live_blocks_lt _ f b); [|done | unfold is_live; by rewrite Et | unfold threaded, is_live; by rewrite decide_True].
intros c _. unfold threaded, is_live. case_decide; simpl; [done|]. by destruct (block_term c) as [[]|].
Qed.

Lemma thread_same_runs {X W} `{!Host X W} : same_runs (X := X) (W := W) 2 f (map_blocks (threaded e t) f).
Proof.
pose proof Hfw as (E & Hne & _ & Hte & Ei & Ep & Et)%forwards_Some.
assert (Hfind : find_block f e = Some b) by (rewrite <- E; apply find_block_unique; [apply block_ids_NoDup, Hf | done]).
apply (stutter_same_runs f _ (fun _ _ k s s' => k = (if decide (st_block s = e) then 1 else 0) /\
s' = {| st_block := redirect e t (st_block s); st_args := st_args s; st_env := st_env s; st_world := st_world s |})); [done | | |].
- intros dyn call k s s' [-> _]. case_decide; lia.
- intros dyn call ρ args w _. eexists. split; [done|]. simpl. unfold redirect. by rewrite decide_False.
- intros dyn call k [id vs ρ w] _ [-> ->]. unfold exec_at. cbn [st_block st_args st_env st_world].
destruct (decide (id = e)) as [->|Hid].
+ unfold exec_block at 1. rewrite Hfind, Ep, Ei, Et. destruct vs as [|v vs]; [|by left]. simpl. left.
exists 0. split; [|lia]. split; [by rewrite decide_False|]. unfold redirect. by rewrite decide_True, decide_False.
+ assert (redirect e t id = id) as -> by (unfold redirect; by rewrite decide_False).
unfold exec_block. rewrite find_block_map by apply threaded_id.
destruct (find_block f id) as [c|] eqn:Ec; [|by left]. apply find_block_Some in Ec as [_ Ec]. cbn [fmap option_fmap option_map].
unfold threaded. rewrite decide_False by congruence. cbn [block_params block_insts block_term set_term].
destruct (bind_params (block_params c) vs ρ) as [ρ1|]; [|by left].
destruct (exec_insts dyn call (block_insts c) ρ1 w) as [ρ2 w2| | |]; [|by right..]. rewrite exec_term_redirect.
destruct (exec_term (block_term c) ρ2) as [d vs2| |]; [|by right..]. right. do 4 eexists. split; [done|]. eexists. done.
Qed.
End thread.

(** ** Phase 1 as a step relation *)

Definition thread_step (ph : gset BlockId) (f f' : Function) : Prop :=
  exists b e t, b ∈ blocks f /\ forwards f ph b = Some (e, t) /\ f' = map_blocks (threaded e t) f.

Lemma thread_step_entry ph f f' : thread_step ph f f' -> entry f' = entry f /\ length (blocks f') = length (blocks f).
Proof. intros (b & e & t & _ & _ & ->). simpl. by rewrite length_fmap. Qed.

(** What the loops share: enough fuel ends a loop, in a state where the scan finds
    nothing, after a sequence of steps. *)
Section loop.
Context (scan : Function -> option (BlockId * BlockId)) (edit : Function -> BlockId * BlockId -> option Function).
Context (loop : nat -> Function -> bool -> option (Function * bool)).
Context (Hloop : forall fuel f changed, loop fuel f changed =
match scan f with
| None => Some (f, changed)
| Some c => match fuel with O => None | S fuel => f' ← edit f c; loop fuel f' true end
end).
Context (step : Function -> Function -> Prop).
Context (Hstep : forall f c, cfg_ok f -> scan f = Some c -> exists f', edit f c = Some f' /\ step f f' /\ cfg_ok f' /\ live_blocks f' < live_blocks f).

Lemma loop_spec fuel f changed :
cfg_ok f -> live_blocks f <= fuel ->
exists f' ch, loop fuel f changed = Some (f', ch) /\ rtc step f f' /\ cfg_ok f' /\ scan f' = None /\
(ch = false <-> f' = f /\ changed = false /\ scan f = None).
Proof.
revert f changed. induction fuel as [|fuel IH]; intros f changed Hf Hl; rewrite Hloop; destruct (scan f) as [c|] eqn:Ec.
- destruct (Hstep f c Hf Ec) as (f' & _ & _ & _ & Hlt). lia.
- exists f, changed. split; [done|]. split; [apply rtc_refl|]. split; [done|]. split; [done|]. tauto.
- destruct (Hstep f c Hf Ec) as (f1 & -> & Hs & Hf1 & Hlt). cbn [mbind option_bind].
destruct (IH f1 true Hf1) as (f' & ch & E & Hr & Hf' & Hn & Hch); [lia|]. exists f', ch. split; [done|].
split; [by eapply rtc_l|]. split; [done|]. split; [done|]. split; [intros H; apply Hch in H as (_ & ? & _); done | intros (_ & _ & ?); done].
- exists f, changed. split; [done|]. split; [apply rtc_refl|]. split; [done|]. split; [done|]. tauto.
Qed.
End loop.

Definition thread_scan (ph : gset BlockId) (f : Function) : option (BlockId * BlockId) := head (omap (forwards f ph) (blocks f)).

Lemma thread_loop_spec ph fuel f changed :
  cfg_ok f -> live_blocks f <= fuel ->
  exists f' ch, thread_loop fuel ph f changed = Some (f', ch) /\ rtc (thread_step ph) f f' /\ cfg_ok f' /\ thread_scan ph f' = None /\
    (ch = false <-> f' = f /\ changed = false /\ thread_scan ph f = None).
Proof.
  apply (loop_spec (thread_scan ph) (fun f c => thread_jump f c.1 c.2) (fun fuel => thread_loop fuel ph)).
  - intros n g c. destruct n; simpl; unfold thread_scan; by destruct (head _) as [[e t]|].
  - intros g [e t] Hg (b & Hb & Hfw)%head_omap_Some. exists (map_blocks (threaded e t) g). split; [|split; [|split]].
    + apply thread_jump_map; [apply Hg|]. apply forwards_Some in Hfw as [<- _]. by apply list_elem_of_fmap_2.
    + by exists b, e, t.
    + by apply (thread_cfg_ok g ph b).
    + by apply (thread_live g ph b).
Qed.

(** ** One merge *)

Lemma mergeable_Some f b p s :
  block_index_ok f -> b ∈ blocks f -> mergeable (predecessors f) b = Some (p, s) ->
  block_id b = p /\ s <> p /\ block_term b = Some (Branch s []) /\ forall c, c ∈ blocks f -> s ∈ block_targets c -> c = b.
Proof.
  intros Hok Hb. unfold mergeable. destruct (block_term b) as [[|d [|]| | |]|]; try done. case_decide as Hd; [|done].
  destruct (predecessors f !! d) as [l|] eqn:El; [|done]. simpl. destruct (sorted_unique l) as [|x [|]] eqn:Eu; try done.
  case_decide; [|done]. intros [= <- <-]. split; [done|]. split; [done|]. split; [done|]. intros c Hc Hcs.
  assert (Hin : block_id c ∈ sorted_unique l).
  { apply elem_of_sorted_unique. change l with (default [] (Some l)). rewrite <- El. apply elem_of_predecessors; [done|].
    apply cfg_edge_iff; [done|]. by exists c. }
  rewrite Eu in Hin. apply list_elem_of_singleton in Hin. apply (NoDup_fmap_inj_on block_id (blocks f)); [by apply block_ids_NoDup | done | done | congruence].
Qed.

(** [p] takes over the contents of [sb]. *)
Definition merged (p : BlockId) (sb : BasicBlock) (b : BasicBlock) : BasicBlock :=
  if decide (block_id b = block_id sb) then set_insts (set_term b (Some Unreachable)) []
  else if decide (block_id b = p) then set_term (set_insts b (block_insts b ++ block_insts sb)) (block_term sb)
  else b.

Lemma merged_id p sb b : block_id (merged p sb b) = block_id b.
Proof. unfold merged. by repeat case_decide. Qed.

Lemma merge_blocks_map f p sb :
  block_index_ok f -> p ∈ (block_id <$> blocks f) -> sb ∈ blocks f -> block_id sb <> p ->
  merge_blocks f p (block_id sb) = Some (map_blocks (merged p sb) f).
Proof.
  intros Hok Hp Hs Hne. unfold merge_blocks. assert (try_block f (block_id sb) = Some sb) as -> by (by apply try_block_Some).
  cbn [mbind option_bind]. rewrite update_block_map by done. cbn [mbind option_bind].
  assert (Hg : forall b, block_id (if decide (block_id b = p) then set_term (set_insts b (block_insts b ++ block_insts sb)) (block_term sb) else b) = block_id b)
    by (intros b; by case_decide).
  rewrite update_block_map; [|by apply map_blocks_index | rewrite map_blocks_ids by done; by apply list_elem_of_fmap_2].
  f_equal. rewrite map_blocks_compose. apply map_blocks_ext_in. intros b _. rewrite Hg. unfold merged.
  by repeat case_decide.
Qed.

Section merge.
Context (f : Function) (b sb : BasicBlock).
Context (Hf : cfg_ok f) (Hb : b ∈ blocks f) (Hsb : sb ∈ blocks f) (Hne : block_id sb <> block_id b).
Context (Hbt : block_term b = Some (Branch (block_id sb) [])).
Context (Hpred : forall c, c ∈ blocks f -> block_id sb ∈ block_targets c -> c = b).
Notation p := (block_id b).

Lemma merge_target : block_id sb ∈ block_targets b.
Proof. unfold block_targets. rewrite Hbt. left. Qed.

Lemma merge_cfg_ok : cfg_ok (map_blocks (merged p sb) f).
Proof.
apply cfg_ok_edit; [apply merged_id | | done]. intros c x Hc. unfold merged, block_targets.
repeat case_decide; simpl; intros Hx; [by apply not_elem_of_nil in Hx | by exists sb | by exists c].
Qed.

Lemma merge_live : live_blocks (map_blocks (merged p sb) f) < live_blocks f.
Proof.
assert (Hlb : is_live b = true) by (unfold is_live; by rewrite Hbt).
assert (Hl : forall c, c ∈ blocks f -> is_live (merged p sb c) = true -> is_live c = true).
{ intros c Hc. unfold merged. destruct (decide (block_id c = block_id sb)); [done|]. destruct (decide (block_id c = p)) as [E|]; [|done].
by rewrite (NoDup_fmap_inj_on block_id (blocks f) c b (block_ids_NoDup f (co_index f Hf)) Hc Hb E). }
destruct (is_live sb) eqn:Els.
- apply (live_blocks_lt _ f sb); [done | done | done |]. unfold merged, is_live. by rewrite decide_True.
- apply (live_blocks_lt _ f b); [done | done | done |]. unfold merged. rewrite decide_False by done. by rewrite decide_True.
Qed.

(** The merged block runs the one block and then the other. *)
Lemma exec_body_merged {X W} `{!Host X W} dyn (call : call_sem X W) ρ w :
exec_body dyn call (merged p sb b) ρ w =
match exec_body dyn call b ρ w with BJump _ _ ρ2 w2 => exec_body dyn call sb ρ2 w2 | r => r end.
Proof.
unfold merged. rewrite decide_False by done. rewrite decide_True by done. unfold exec_body. cbn [block_insts block_term set_term set_insts].
rewrite exec_insts_app, Hbt. by destruct (exec_insts dyn call (block_insts b) ρ w).
Qed.

Lemma merge_same_runs {X W} `{!Host X W} : same_runs (X := X) (W := W) 2 f (map_blocks (merged p sb) f).
Proof.
assert (Hfind : forall c, c ∈ blocks f -> find_block f (block_id c) = Some c) by (intros c Hc; apply find_block_unique; [apply block_ids_NoDup, Hf | done]).
assert (Hfind' : forall c, c ∈ blocks f -> find_block (map_blocks (merged p sb) f) (block_id c) = Some (merged p sb c))
by (intros c Hc; rewrite find_block_map by apply merged_id; by rewrite Hfind).
apply (stutter_same_runs f _ (fun dyn call k s s' => (k = 1 /\ s' = s /\ st_block s <> block_id sb) \/
(k = 0 /\ st_block s = block_id sb /\ st_block s' = p /\ exec_at dyn call f s' = BJump (st_block s) (st_args s) (st_env s) (st_world s)))); [done | | |].
- intros dyn call k s s' [[-> _]|[-> _]]; lia.
- intros dyn call ρ args w _. exists 1. left. split; [done|]. split; [done|]. simpl. intros E.
apply (co_no_entry_edge f Hf b Hb). rewrite E. apply merge_target.
- intros dyn call k [id vs ρ w] s' HI. unfold exec_at in *. cbn [st_block st_args st_env st_world] in *.
destruct HI as [(-> & -> & Hid)|(-> & -> & Hp' & Hjump)]; cbn [st_block st_args st_env st_world] in *.
+ destruct (decide (id = p)) as [->|Hp].
* (* the first half of the merged block *)
rewrite !exec_block_body, Hfind, Hfind' by done.
assert (block_params (merged p sb b) = block_params b) as -> by (unfold merged; by repeat case_decide).
destruct (bind_params (block_params b) vs ρ) as [ρ1|] eqn:Ep; [|by left]. rewrite exec_body_merged.
destruct (exec_body dyn call b ρ1 w) as [r|d vs2 ρ2 w2] eqn:Eb; [by right|]. left.
assert (d = block_id sb) as ->
by (apply exec_body_target in Eb; unfold block_targets in Eb; rewrite Hbt in Eb; by apply list_elem_of_singleton in Eb).
exists 0. split; [|lia]. by right.
* (* an untouched block *)
rewrite !exec_block_body. destruct (find_block f id) as [c|] eqn:Ec; [|by left]. apply find_block_Some in Ec as [Hc <-].
rewrite Hfind' by done. assert (merged p sb c = c) as -> by (unfold merged; by rewrite !decide_False by done).
destruct (bind_params (block_params c) vs ρ) as [ρ1|]; [|by left].
destruct (exec_body dyn call c ρ1 w) as [r|d vs2 ρ2 w2] eqn:Eb; [by right|]. right. do 4 eexists. split; [done|]. exists 1. left.
split; [done|]. split; [done|]. simpl. intros ->. apply exec_body_target in Eb. apply Hp. by rewrite (Hpred c Hc Eb).
+ (* the second half *)
destruct s' as [id' vs' ρ' w']. cbn [st_block st_args st_env st_world] in *. subst id'.
rewrite exec_block_body, Hfind in Hjump by done. rewrite !exec_block_body, Hfind, Hfind' by done.
assert (block_params (merged p sb b) = block_params b) as -> by (unfold merged; by repeat case_decide).
destruct (bind_params (block_params b) vs' ρ') as [ρ1|] eqn:Ep; [|done]. rewrite exec_body_merged, Hjump.
assert (vs = []) as ->.
{ revert Hjump. unfold exec_body. destruct (exec_insts _ _ _ _ _) as [ρ2 w2| | |]; try done. rewrite Hbt. simpl. by intros [= <- _ _]. }
destruct (block_params sb) as [|q ps]; [|by left]. simpl.
destruct (exec_body dyn call sb ρ w) as [r|d vs2 ρ2 w2] eqn:Eb; [by right|]. right. do 4 eexists. split; [done|]. exists 1. left.
split; [done|]. split; [done|]. simpl. intros ->. apply exec_body_target in Eb. apply Hne. by rewrite (Hpred sb Hsb Eb).
Qed.
End merge.

(** ** Phase 2 as a step relation *)

Definition merge_step (f f' : Function) : Prop :=
  exists b sb, b ∈ blocks f /\ sb ∈ blocks f /\ block_id sb <> block_id b /\ block_term b = Some (Branch (block_id sb) []) /\
    (forall c, c ∈ blocks f -> block_id sb ∈ block_targets c -> c = b) /\ f' = map_blocks (merged (block_id b) sb) f.

Definition merge_scan (f : Function) : option (BlockId * BlockId) := head (omap (mergeable (predecessors f)) (blocks f)).

Lemma merge_loop_spec fuel f changed :
  cfg_ok f -> live_blocks f <= fuel ->
  exists f' ch, merge_loop fuel f changed = Some (f', ch) /\ rtc merge_step f f' /\ cfg_ok f' /\ merge_scan f' = None /\
    (ch = false <-> f' = f /\ changed = false /\ merge_scan f = None).
Proof.
  apply (loop_spec merge_scan (fun f c => merge_blocks f c.1 c.2) merge_loop).
  - intros n g c. destruct n; simpl; unfold merge_scan; by destruct (head _) as [[e t]|].
  - intros g [p s] Hg (b & Hb & Hm)%head_omap_Some. pose proof Hm as (<- & Hne & Hbt & Hpred)%mergeable_Some; [|apply Hg | done].
    assert (Hin : s ∈ (block_id <$> blocks g)).
    { apply (co_targets g Hg b); [done|]. unfold block_targets. rewrite Hbt. left. }
    apply list_elem_of_fmap in Hin as (sb & -> & Hsb).
    exists (map_blocks (merged (block_id b) sb) g). split; [|split; [|split]].
    + apply merge_blocks_map; [apply Hg | by apply list_elem_of_fmap_2 | done | done].
    + by exists b, sb.
    + by apply merge_cfg_ok.
    + by apply merge_live.
Qed.

(** * The whole pass *)

Lemma find_preheader_total f lp : cfg_ok f -> is_Some (find_preheader f lp (predecessors f)).
Proof.
  intros Hf. unfold find_preheader. destruct (predecessors f !! nl_header lp) as [hp|] eqn:Ep; [|by eexists].
  destruct (sorted_unique _) as [|p [|]] eqn:Eu; try by eexists. case_decide; [by eexists|].
  assert (Hp : p ∈ hp).
  { assert (H' : p ∈ sorted_unique (filter (fun q => q ∉ nl_body lp) hp)) by (rewrite Eu; left).
    by apply elem_of_sorted_unique, list_elem_of_filter in H' as [_ H']. }
  assert (Hed : cfg_edge f p (nl_header lp)).
  { apply elem_of_predecessors; [apply Hf|]. by rewrite Ep. }
  apply cfg_edge_iff in Hed as (b & Hb & <- & _); [|apply Hf].
  assert (try_block f (block_id b) = Some b) as -> by (by apply try_block_Some; [apply Hf|]). by eexists.
Qed.

Lemma loop_preheaders_total f : cfg_ok f -> is_Some (loop_preheaders f).
Proof.
  intros Hf. unfold loop_preheaders. destruct (natural_loops_found f) as (loops & -> & _); [apply Hf | apply Hf|]. cbn [mbind option_bind].
  assert (is_Some (mapM (fun lp => find_preheader f lp (predecessors f)) loops)) as [phs ->]; [|by eexists].
  apply mapM_is_Some_2, Forall_forall. intros lp _. by apply find_preheader_total.
Qed.

Lemma steps_same_runs {X W} `{!Host X W} (step : Function -> Function -> Prop) f f' :
  (forall g g', step g g' -> cfg_ok g -> cfg_ok g' /\ same_runs (X := X) (W := W) 2 g g') ->
  rtc step f f' -> cfg_ok f -> exists k, 1 <= k /\ same_runs (X := X) (W := W) k f f'.
Proof.
  intros Hstep. induction 1 as [f|f g f' Hfg _ IH]; intros Hf; [exists 1; split; [done | apply same_runs_refl]|].
  destruct (Hstep _ _ Hfg Hf) as [Hg Hs]. destruct (IH Hg) as (k & Hk & Hs'). exists (2 * k). split; [lia|]. by eapply same_runs_trans.
Qed.

Lemma thread_step_runs {X W} `{!Host X W} ph f f' :
  thread_step ph f f' -> cfg_ok f -> cfg_ok f' /\ same_runs (X := X) (W := W) 2 f f'.
Proof. intros (b & e & t & Hb & Hfw & ->) Hf. split; [by eapply thread_cfg_ok | by eapply thread_same_runs]. Qed.

Lemma merge_step_runs {X W} `{!Host X W} f f' :
  merge_step f f' -> cfg_ok f -> cfg_ok f' /\ same_runs (X := X) (W := W) 2 f f'.
Proof. intros (b & sb & Hb & Hsb & Hne & Hbt & Hp & ->) Hf. split; [by apply merge_cfg_ok | by apply merge_same_runs]. Qed.

(** The phases of [simplify_function], as steps. *)
Lemma simplify_function_steps f :
  cfg_ok f ->
  exists ph f1 f2 f3 ch, loop_preheaders f = Some ph /\ simplify_function f = Some (f3, ch) /\
    rtc (thread_step ph) f f1 /\ rtc merge_step f1 f2 /\ cfg_ok f1 /\ cfg_ok f2 /\
    thread_scan ph f1 = None /\ merge_scan f2 = None /\
    if ch then exists c, prune_unreachable f2 = Some (f3, c) else f3 = f2 /\ f2 = f.
Proof.
  intros Hf. destruct (loop_preheaders_total f Hf) as [ph Hph]. pose proof (live_blocks_le f) as Hl.
  destruct (thread_loop_spec ph (length (blocks f)) f false Hf Hl) as (f1 & c1 & E1 & R1 & Hf1 & S1 & C1).
  assert (Hlen : length (blocks f1) = length (blocks f)).
  { clear -R1. induction R1 as [|? ? ? Hs _ IH]; [done|]. rewrite IH. apply (thread_step_entry _ _ _ Hs). }
  destruct (merge_loop_spec (length (blocks f)) f1 c1 Hf1) as (f2 & c2 & E2 & R2 & Hf2 & S2 & C2);
    [rewrite <- Hlen; apply live_blocks_le|].
  unfold simplify_function. rewrite Hph. cbn [mbind option_bind]. rewrite E1. cbn [mbind option_bind]. rewrite E2. cbn [mbind option_bind].
  destruct c2.
  - destruct (prune_unreachable_total f2) as (f3 & c & E3 & _); [apply Hf2 | apply Hf2|]. rewrite E3. cbn [mbind option_bind].
    exists ph, f1, f2, f3, true. do 8 (split; [done|]). by exists c.
  - exists ph, f1, f2, f2, false. do 8 (split; [done|]). split; [done|].
    destruct C2 as [C2 _]. destruct (C2 eq_refl) as (-> & -> & _). by apply C1.
Qed.

Lemma simplify_function_runs {X W} `{!Host X W} f f' ch :
  cfg_ok f -> simplify_function f = Some (f', ch) -> exists k, 1 <= k /\ same_runs (X := X) (W := W) k f f'.
Proof.
  intros Hf E. destruct (simplify_function_steps f Hf) as (ph & f1 & f2 & f3 & c & _ & E' & R1 & R2 & Hf1 & Hf2 & _ & _ & Hc). simplify_eq.
  destruct (steps_same_runs (X := X) (W := W) _ f f1 (thread_step_runs ph) R1 Hf) as (k1 & Hk1 & S1).
  destruct (steps_same_runs (X := X) (W := W) _ f1 f2 merge_step_runs R2 Hf1) as (k2 & Hk2 & S2).
  exists (k1 * k2 * 1). split; [nia|]. eapply same_runs_trans; [by eapply same_runs_trans|].
  destruct ch; [|destruct Hc as [-> _]; apply same_runs_refl]. destruct Hc as [c Hp].
  destruct (prune_unreachable_total f2) as (f4 & c4 & Hp' & Hbs & _ & He & Hps & _); [apply Hf2 | apply Hf2|]. simplify_eq.
  apply refines_same_runs. intros. by apply kept_blocks_refines; [apply Hf2 | | | |].
Qed.

Lemma ssa_cfg_ok f : ssa_wf f -> counters_ok f -> cfg_ok f.
Proof. intros Hf Hc. split; [apply Hf.. | done]. Qed.

Definition simplifiable (m : Module_) : Prop := forall f, f ∈ functions m -> ssa_wf f /\ counters_ok f.

Lemma simplify_cfg_runs {X W} `{!Host X W} m :
  simplifiable m ->
  exists m' ch k, simplify_cfg m = Some (m', ch) /\ 1 <= k /\ Forall2 (same_runs (X := X) (W := W) k) (functions m) (functions m').
Proof.
  intros Hm. unfold simplify_cfg.
  assert (is_Some (mapM simplify_function (functions m))) as [rs E].
  { apply mapM_is_Some_2, Forall_forall. intros f Hf. destruct (Hm f Hf) as [Hwf Hc].
    destruct (simplify_function_steps f (ssa_cfg_ok f Hwf Hc)) as (? & ? & ? & f' & ch & _ & Ef & _). by exists (f', ch). }
  rewrite E. cbn [mbind option_bind]. destruct (mapM_same_runs (X := X) (W := W) simplify_function (functions m) rs E) as (k & Hk & HF).
  - intros f f' ch Hf. destruct (Hm f Hf) as [Hwf Hc]. apply simplify_function_runs. by apply ssa_cfg_ok.
  - by do 3 eexists.
Qed.

(** * Properties *)

(** C5: CFG simplification terminates without a panic on a module in SSA form,
    and every run of every procedure that ends in a definite result ends in the
    same result, with the same effects, in the simplified module. *)
Theorem simplify_cfg_preserves {X W} `{!Host X W} m :
  simplifiable m ->
  exists m' ch, simplify_cfg m = Some (m', ch) /\
    forall dyn fuel idx args (w : W),
      refines false (run_func (X := X) dyn fuel (functions m) idx args w) (run_func dyn fuel (functions m') idx args w).
Proof.
  intros Hm. destruct (simplify_cfg_runs (X := X) (W := W) m Hm) as (m' & ch & k & E & Hk & HF). exists m', ch. split; [done|].
  intros dyn fuel idx args w. by apply (run_func_same_runs dyn k).
Qed.

(** C6: CFG simplification keeps non-termination: a procedure that runs forever
    still does, so that an empty endless loop is never threaded away. *)
Theorem simplify_cfg_diverges {X W} `{!Host X W} m m' ch dyn idx args (w : W) :
  simplifiable m -> simplify_cfg m = Some (m', ch) ->
  (forall fuel, run_func (X := X) dyn fuel (functions m) idx args w = RTimeout) ->
  forall fuel, run_func (X := X) dyn fuel (functions m') idx args w = RTimeout.
Proof.
  intros Hm E Hdiv. destruct (simplify_cfg_runs (X := X) (W := W) m Hm) as (m2 & c & k & E' & Hk & HF). simplify_eq.
  by eapply diverges_same_runs.
Qed.

(** ** On concrete functions *)

(** [if (0 < n) then; else; end if; return n + n]: two empty arms, and a block
    with one successor. *)
Definition arms_fn : Function :=
  mk_fn "arms" [{| param_name := "n"; param_ty := i32; param_id := 0; fortran_noalias := false |}] i32
    [mk_block 0 "entry" [] [mk_inst 1 (ConstInt 0 I32) i32; mk_inst 2 (ICmp CLt 1 0) TBool] (CondBranch 2 1 [] 2 []);
     mk_block 1 "then" [] [] (Branch 3 []); mk_block 2 "else" [] [] (Branch 3 []);
     mk_block 3 "join" [] [mk_inst 3 (IAdd 0 0) i32] (Branch 4 []); mk_block 4 "exit" [] [] (Return (Some 3%N))] 4.

(** An endless loop of two empty blocks. *)
Definition spin_fn : Function :=
  mk_fn "spin" [] i32 [mk_block 0 "entry" [] [] (Branch 1 []); mk_block 1 "ping" [] [] (Branch 2 []); mk_block 2 "pong" [] [] (Branch 1 [])] 0.

Example arms_simplified :
  (fun r => ((fun b => (block_id b, length (block_insts b), block_term b)) <$> blocks r.1, r.2)) <$> simplify_function arms_fn =
    Some ([(0%N, 2, Some (CondBranch 2 3 [] 3 [])); (3%N, 1, Some (Return (Some 3%N)))], true).
Proof. vm_compute. reflexivity. Qed.

Example spin_simplified :
  (fun r => (fun b => (block_id b, block_term b)) <$> blocks r.1) <$> simplify_function spin_fn =
    Some [(0%N, Some (Branch 2 [])); (2%N, Some (Branch 2 []))].
Proof. vm_compute. reflexivity. Qed.

(** The entry takes over its successor, which the module doc excludes. *)
Example entry_absorbs :
  (fun r => (fun b => (block_id b, length (block_insts b))) <$> blocks r.1) <$>
    simplify_function (mk_fn "two" [] i32 [mk_block 0 "entry" [] [mk_inst 0 (ConstInt 1 I32) i32] (Branch 1 []);
      mk_block 1 "next" [] [mk_inst 1 (ConstInt 2 I32) i32] (Return (Some 0%N))] 2) = Some [(0%N, 2)].
Proof. vm_compute. reflexivity. Qed.

Example loop_keeps_preheader : loop_preheaders loop_fn = Some {[0%N]}.
Proof. vm_compute. reflexivity. Qed.

Lemma sample_simplifiable f : f ∈ [arms_fn; spin_fn] -> simplifiable (mk_module [f]).
Proof.
  intros Hf g ->%list_elem_of_singleton. rewrite !elem_of_cons in Hf. destruct Hf as [->|[->|Hf]]; [| |by apply not_elem_of_nil in Hf];
    (split; [apply ssa_wf_check; vm_compute; reflexivity | vm_compute; intros E; discriminate E]).
Qed.

#[local] Existing Instance unit_host.

Lemma simplify_cfg_preserves_witness :
  exists m' ch, simplify_cfg (mk_module [arms_fn]) = Some (m', ch) /\
    run_func (X := unit) (fun _ => false) 4 (functions m') 0 [VInt I32 7] () = RRet (Some (VInt I32 14)) ().
Proof.
  destruct (simplify_cfg_preserves (X := unit) (W := unit) (mk_module [arms_fn])) as (m' & ch & E & H).
  - apply sample_simplifiable. left.
  - exists m', ch. split; [exact E|]. apply (H (fun _ => false) 4 0%N [VInt I32 7] ()). vm_compute. exact I.
Defined.

Lemma spin_diverges fuel : run_func (X := unit) (fun _ => false) fuel [spin_fn] 0 [] () = RTimeout.
Proof.
  destruct fuel as [|fuel]; [done|]. cbn [run_func]. generalize (fun i vs w => run_func (X := unit) (fun _ => false) fuel [spin_fn] i vs w) as call.
  intros call. unfold enter_function. simpl. apply leave_timeout.
  assert (H : forall n, run_blocks (X := unit) false call n spin_fn 1 [] ∅ () = RTimeout /\ run_blocks (X := unit) false call n spin_fn 2 [] ∅ () = RTimeout).
  { induction n as [|n [IH1 IH2]]; [done|]. split; [apply IH2 | apply IH1]. }
  apply H.
Qed.

Lemma simplify_cfg_diverges_witness :
  exists m' ch, simplify_cfg (mk_module [spin_fn]) = Some (m', ch) /\
    forall fuel, run_func (X := unit) (fun _ => false) fuel (functions m') 0 [] () = RTimeout.
Proof.
  eexists _, _. split; [vm_compute; reflexivity|].
  eapply (simplify_cfg_diverges (mk_module [spin_fn])); [apply sample_simplifiable; right; left | vm_compute; reflexivity | apply spin_diverges].
Defined.
