(* ===== verification/JumpThread.v ===== *)
(** Jump threading (src/src/opt/jump_thread.rs): a predecessor that passes a
    constant to a join block that only branches on its parameter jumps straight to
    the arm the constant selects.

    The rounds of [thread_func] need not end ([jump_thread_spins]) and an action
    of a plan can hit an edge it was not planned for ([jump_thread_wrong_arm]);
    when no action leads to the join of another action of its predecessor
    ([plan_safe]) every round keeps behaviour. *)

From S2P Require Import Prelude IrTypes IrInst Sample Worklist IrWalk Floats IrSem Dominators Ssa NaturalLoops.
From S2P Require Import IrVerify Lockstep Prune Stutter SimplifyCfg.

Inductive ConstKey := KBool (b : bool) | KInt (v : Z).

Definition from_inst (k : InstKind) : option ConstKey :=
  match k with
  | ConstBool b => Some (KBool b)
  | ConstInt v _ => Some (KInt v)
  | _ => None
  end.

(** The constant map [thread_func] builds and refreshes. *)
Definition block_consts (f : Function) : gmap ValueId ConstKey :=
  foldl (fun m b =>
    foldl (fun m i => match from_inst (inst_kind i) with Some c => <[inst_id i := c]> m | None => m end)
      m (block_insts b)) ∅ (blocks f).

Record ThreadAction := {
  ta_pred : BlockId; ta_join : BlockId; ta_new_dest : BlockId; ta_new_args : list ValueId; ta_arm : bool }.

(** ** Planning *)

Definition join_params_used_outside_block (f : Function) (join : BasicBlock) : bool :=
  let params : gset ValueId := list_to_set (bp_id <$> block_params join) in
  existsb (fun block =>
    bool_decide (block_id block <> block_id join) &&
    (existsb (fun i => existsb (fun u => bool_decide (u ∈ params)) (inst_uses (inst_kind i))) (block_insts block) ||
     match block_term block with
     | Some term => existsb (fun u => bool_decide (u ∈ params)) (terminator_uses term)
     | None => false
     end)) (blocks f).

(** The arguments of the edge from a terminator to the join, if one edge leads
    there. *)
Definition edge_args (join : BlockId) (term : Terminator) : option (list ValueId) :=
  match term with
  | Branch d a => if decide (d = join) then Some a else None
  | CondBranch _ td ta fd fa =>
      if decide (td = join /\ fd = join) then None
      else if decide (td = join) then Some ta
      else if decide (fd = join) then Some fa
      else None
  | _ => None
  end.

(** [position(|p| p.id == a)] *)
Definition param_index (params : list BlockParam) (a : ValueId) : option nat :=
  fst <$> list_find (fun p => bp_id p = a) params.

(** An argument of the join's arm, seen from the predecessor; [None] is [bail]. *)
Definition resolve_arg (params : list BlockParam) (args : list ValueId) (a : ValueId) : option ValueId :=
  match param_index params a with
  | Some idx => args !! idx
  | None => Some a
  end.

(** The body of the inner loop for one predecessor, up to the [seen] test. *)
Definition plan_edge (consts : gmap ValueId ConstKey) (join : BasicBlock) (cond_idx : nat) (cond : ValueId)
    (true_dest : BlockId) (true_args : list ValueId) (false_dest : BlockId) (false_args : list ValueId)
    (pred_block : BasicBlock) : option ThreadAction :=
  term ← block_term pred_block;
  args ← edge_args (block_id join) term;
  passed ← args !! cond_idx;
  ck ← consts !! passed;
  match ck with
  | KInt _ => None
  | KBool chosen_arm =>
      let arm_args := if chosen_arm then true_args else false_args in
      if decide (cond ∈ arm_args) then None
      else new_args ← mapM (resolve_arg (block_params join) args) arm_args;
           Some {| ta_pred := block_id pred_block; ta_join := block_id join;
                   ta_new_dest := if chosen_arm then true_dest else false_dest;
                   ta_new_args := new_args; ta_arm := chosen_arm |}
  end.

(** [seen_pred_join.insert(..)] and [actions.push(..)]. *)
Definition queue (st : gset (BlockId * BlockId) * list ThreadAction) (o : option ThreadAction)
    : gset (BlockId * BlockId) * list ThreadAction :=
  match o with
  | None => st
  | Some a => if decide ((ta_pred a, ta_join a) ∈ st.1) then st
              else ({[(ta_pred a, ta_join a)]} ∪ st.1, st.2 ++ [a])
  end.

(** The body of the outer loop: the candidates of one join. *)
Definition plan_join (f : Function) (consts : gmap ValueId ConstKey) (join : BasicBlock) : list (option ThreadAction) :=
  if decide (block_insts join <> []) then []
  else if decide (block_params join = []) then []
  else if join_params_used_outside_block f join then []
  else match block_term join with
       | Some (CondBranch cond td ta fd fa) =>
           match param_index (block_params join) cond with
           | Some cond_idx => plan_edge consts join cond_idx cond td ta fd fa <$> blocks f
           | None => []
           end
       | _ => []
       end.

Definition plan_threads (f : Function) (consts : gmap ValueId ConstKey) : list ThreadAction :=
  (foldl (fun st join => foldl queue st (plan_join f consts join)) (∅, []) (blocks f)).2.

(** ** Applying a plan *)

Definition apply_term (action : ThreadAction) (term : Terminator) : Terminator :=
  match term with
  | Branch d args =>
      if decide (d = ta_join action) then Branch (ta_new_dest action) (ta_new_args action) else term
  | CondBranch c td ta fd fa =>
      if decide (td = ta_join action) then CondBranch c (ta_new_dest action) (ta_new_args action) fd fa
      else if decide (fd = ta_join action) then CondBranch c td ta (ta_new_dest action) (ta_new_args action)
      else term
  | _ => term
  end.

(** [apply_thread]; a missing predecessor is skipped ([try_block_mut]). *)
Definition apply_thread (f : Function) (action : ThreadAction) : Function :=
  default f (update_block f (ta_pred action) (fun b => set_term b (apply_term action <$> block_term b))).

(** The rounds of [thread_func].  They need not end: [fuel] is a budget, and
    [None] says that it was spent. *)
Fixpoint thread_rounds (fuel : nat) (f : Function) (any_changed : bool) : option (Function * bool) :=
  match plan_threads f (block_consts f) with
  | [] => Some (f, any_changed)
  | plan => match fuel with O => None | S fuel => thread_rounds fuel (foldl apply_thread f plan) true end
  end.

(** [thread_func]; [None] is also the panic of [rebuild_block_positions]. *)
Definition thread_func (fuel : nat) (f : Function) : option (Function * bool) :=
  '(f1, any_changed) ← thread_rounds fuel f false;
  if (any_changed : bool) then '(f2, _) ← prune_unreachable f1; Some (rebuild_type_cache f2, true)
  else Some (f1, false).

(** [JumpThread::run]. *)
Definition jump_thread (fuel : nat) (m : Module_) : option (Module_ * bool) :=
  rs ← mapM (thread_func fuel) (functions m);
  Some (set_functions m rs.*1, existsb (fun r => r.2) rs).

(** ** On concrete functions *)

(** [join(p): br p, join(t), exit] with [t = .true.]: an endless loop. *)
Definition spin_join_fn : Function :=
  mk_fn "spin" [] i32
    [mk_block 0 "entry" [] [mk_inst 0 (ConstBool true) TBool; mk_inst 1 (ConstInt 7 I32) i32] (Branch 1 [0%N]);
     mk_block 1 "join" [{| bp_id := 2; bp_ty := TBool |}] [] (CondBranch 2 1 [0%N] 2 []);
     mk_block 2 "exit" [] [] (Return (Some 1%N))] 3.

(** The entry's true edge leads through both joins to [yes], its false edge
    through the second join to [no]. *)
Definition two_joins_fn : Function :=
  mk_fn "joins" [{| param_name := "n"; param_ty := i32; param_id := 0; fortran_noalias := false |}] i32
    [mk_block 0 "entry" []
       [mk_inst 1 (ConstBool true) TBool; mk_inst 2 (ConstBool false) TBool; mk_inst 3 (ConstInt 1 I32) i32;
        mk_inst 4 (ConstInt 2 I32) i32; mk_inst 5 (ICmp CLt 0 3) TBool] (CondBranch 5 1 [1%N] 2 [2%N]);
     mk_block 1 "first" [{| bp_id := 6; bp_ty := TBool |}] [] (CondBranch 6 2 [1%N] 3 []);
     mk_block 2 "second" [{| bp_id := 7; bp_ty := TBool |}] [] (CondBranch 7 4 [] 3 []);
     mk_block 3 "no" [] [] (Return (Some 3%N));
     mk_block 4 "yes" [] [] (Return (Some 4%N))] 8.

(** The two arms of a test pass constants to a join that tests them again. *)
Definition retest_fn : Function :=
  mk_fn "retest" [{| param_name := "n"; param_ty := i32; param_id := 0; fortran_noalias := false |}] i32
    [mk_block 0 "entry" []
       [mk_inst 1 (ConstBool true) TBool; mk_inst 2 (ConstBool false) TBool; mk_inst 3 (ConstInt 1 I32) i32;
        mk_inst 4 (ConstInt 2 I32) i32; mk_inst 5 (ICmp CLt 0 3) TBool] (CondBranch 5 1 [] 2 []);
     mk_block 1 "then" [] [] (Branch 3 [1%N; 0%N]); mk_block 2 "else" [] [] (Branch 3 [2%N; 3%N]);
     mk_block 3 "join" [{| bp_id := 6; bp_ty := TBool |}; {| bp_id := 7; bp_ty := i32 |}] [] (CondBranch 6 4 [7%N] 5 []);
     mk_block 4 "yes" [{| bp_id := 8; bp_ty := i32 |}] [] (Return (Some 8%N));
     mk_block 5 "no" [] [] (Return (Some 4%N))] 9.

Example retest_threaded :
  (fun r => ((fun b => (block_id b, block_term b)) <$> blocks r.1, r.2)) <$> thread_func 5 retest_fn =
    Some ([(0%N, Some (CondBranch 5 1 [] 2 [])); (1%N, Some (Branch 4 [0%N])); (2%N, Some (Branch 5 []));
           (4%N, Some (Return (Some 8%N))); (5%N, Some (Return (Some 4%N)))], true).
Proof. vm_compute. reflexivity. Qed.

(** * What a plan contains *)

(** Action [a] threads the edge of [P] to [J]. *)
Record planned (f : Function) (consts : gmap ValueId ConstKey) (a : ThreadAction) (J P : BasicBlock)
    (cond : ValueId) (td : BlockId) (ta : list ValueId) (fd : BlockId) (fa : list ValueId) (idx : nat) : Prop := {
  pl_join : J ∈ blocks f;
  pl_pred : P ∈ blocks f;
  pl_insts : block_insts J = [];
  pl_local : join_params_used_outside_block f J = false;
  pl_term : block_term J = Some (CondBranch cond td ta fd fa);
  pl_cond : param_index (block_params J) cond = Some idx;
  pl_edge : plan_edge consts J idx cond td ta fd fa P = Some a }.

Definition in_plan (f : Function) (consts : gmap ValueId ConstKey) (a : ThreadAction) : Prop :=
  exists J P cond td ta fd fa idx, planned f consts a J P cond td ta fd fa idx.

Lemma plan_join_spec f consts J a : J ∈ blocks f -> Some a ∈ plan_join f consts J -> in_plan f consts a.
Proof.
  intros HJ. unfold plan_join. case_decide as Hi; [intros H; by apply not_elem_of_nil in H|].
  case_decide; [intros H'; by apply not_elem_of_nil in H'|].
  destruct (join_params_used_outside_block f J) eqn:El; [intros H'; by apply not_elem_of_nil in H'|].
  destruct (block_term J) as [[| |cond td ta fd fa| |]|] eqn:Et; try (intros H'; by apply not_elem_of_nil in H').
  destruct (param_index (block_params J) cond) as [idx|] eqn:Ep; [|intros H'; by apply not_elem_of_nil in H'].
  intros (P & E & HP)%list_elem_of_fmap. exists J, P, cond, td, ta, fd, fa, idx. split; try done.
Qed.

Definition edge_of (a : ThreadAction) : BlockId * BlockId := (ta_pred a, ta_join a).

(** The queue holds each edge once, and only what was planned. *)
Definition queue_ok (Q : ThreadAction -> Prop) (st : gset (BlockId * BlockId) * list ThreadAction) : Prop :=
  NoDup (edge_of <$> st.2) /\ (forall a, a ∈ st.2 -> Q a /\ edge_of a ∈ st.1).

Lemma queue_spec Q st o : (forall a, o = Some a -> Q a) -> queue_ok Q st -> queue_ok Q (queue st o).
Proof.
  intros Ho [Hnd Hq]. unfold queue. destruct o as [a|]; [|done]. case_decide as Hin; [done|]. split; simpl.
  - rewrite fmap_app. apply list.NoDup_app. split; [done|]. split; [|apply NoDup_singleton].
    intros e (b & -> & Hb)%list_elem_of_fmap He. apply list_elem_of_singleton in He. apply Hin.
    change (edge_of a ∈ st.1). rewrite <- He. by apply Hq.
  - intros b [Hb|Hb]%elem_of_app.
    + destruct (Hq b Hb) as [? ?]. set_solver.
    + apply list_elem_of_singleton in Hb as ->. split; [by apply Ho | set_solver].
Qed.

Lemma plan_threads_spec f consts :
  NoDup (edge_of <$> plan_threads f consts) /\ (forall a, a ∈ plan_threads f consts -> in_plan f consts a).
Proof.
  unfold plan_threads.
  cut (queue_ok (in_plan f consts) (foldl (fun st join => foldl queue st (plan_join f consts join)) (∅, []) (blocks f))).
  { intros [H1 H2]. split; [done|]. intros a Ha. by apply H2. }
  assert (Hin : forall l st, (forall o a, o ∈ l -> o = Some a -> in_plan f consts a) -> queue_ok (in_plan f consts) st ->
    queue_ok (in_plan f consts) (foldl queue st l)).
  { induction l as [|o l IH]; intros st Ho Hst; [done|]. simpl. apply IH; [intros; eapply Ho; [by right | done]|].
    apply queue_spec; [intros a; apply Ho; left | done]. }
  assert (Hout : forall l st, l ⊆ blocks f -> queue_ok (in_plan f consts) st ->
    queue_ok (in_plan f consts) (foldl (fun st join => foldl queue st (plan_join f consts join)) st l)).
  { induction l as [|J l IH]; intros st Hl Hst; [done|]. simpl. apply IH; [set_solver|]. apply Hin; [|done].
    intros o a Ho ->. eapply plan_join_spec; [|exact Ho]. set_solver. }
  apply Hout; [done|]. split; [constructor | intros a H; by apply not_elem_of_nil in H].
Qed.

(** The parts of a planned edge. *)
Lemma plan_edge_Some consts J idx cond td ta fd fa P a :
  plan_edge consts J idx cond td ta fd fa P = Some a ->
  exists term args passed b, block_term P = Some term /\ edge_args (block_id J) term = Some args /\
    args !! idx = Some passed /\ consts !! passed = Some (KBool b) /\
    cond ∉ (if b then ta else fa) /\ mapM (resolve_arg (block_params J) args) (if b then ta else fa) = Some (ta_new_args a) /\
    ta_pred a = block_id P /\ ta_join a = block_id J /\ ta_new_dest a = if b then td else fd.
Proof.
  unfold plan_edge. destruct (block_term P) as [term|]; [|done]. cbn [mbind option_bind].
  destruct (edge_args (block_id J) term) as [args|] eqn:Ea; [|done]. cbn [mbind option_bind].
  destruct (args !! idx) as [passed|] eqn:Ep; [|done]. cbn [mbind option_bind].
  destruct (consts !! passed) as [[b|]|] eqn:Ec; [|done..]. cbn [mbind option_bind]. case_decide as Hc; [done|].
  destruct (mapM _ _) as [new|] eqn:Em; [|done]. cbn [mbind option_bind]. intros [= <-]. simpl.
  exists term, args, passed, b. done.
Qed.

Lemma outside_spec f J c v :
  join_params_used_outside_block f J = false -> c ∈ blocks f -> block_id c <> block_id J ->
  (exists i, i ∈ block_insts c /\ v ∈ inst_uses (inst_kind i)) \/
  (v ∈ match block_term c with Some t => terminator_uses t | None => [] end) ->
  v ∉ (bp_id <$> block_params J).
Proof.
  unfold join_params_used_outside_block. intros Ho Hc Hne Hu Hv.
  apply not_true_iff_false in Ho. apply Ho. apply existsb_exists. exists c. split; [by apply list_elem_of_In|].
  rewrite bool_decide_true by done. simpl. apply orb_true_iff.
  assert (Hb : forall l : list ValueId, v ∈ l -> existsb (fun u => bool_decide (u ∈ (list_to_set (bp_id <$> block_params J) : gset ValueId))) l = true).
  { intros l Hl. apply existsb_exists. exists v. split; [by apply list_elem_of_In|]. apply bool_decide_true. by apply elem_of_list_to_set. }
  destruct Hu as [(i & Hi & Hu)|Hu]; [left | right].
  - apply existsb_exists. exists i. split; [by apply list_elem_of_In|]. by apply Hb.
  - destruct (block_term c) as [t|]; [by apply Hb | by apply not_elem_of_nil in Hu].
Qed.

(** * What applying a plan does *)

(** No action leads to the join of another action of the same predecessor. *)
Definition plan_safe (plan : list ThreadAction) : Prop :=
  forall a a', a ∈ plan -> a' ∈ plan -> ta_pred a = ta_pred a' -> ta_join a <> ta_join a' -> ta_new_dest a <> ta_join a'.

#[export] Instance plan_safe_dec plan : Decision (plan_safe plan).
Proof.
  refine (cast_if (decide (Forall (fun a => Forall (fun a' =>
    ta_pred a = ta_pred a' -> ta_join a <> ta_join a' -> ta_new_dest a <> ta_join a') plan) plan)));
    unfold plan_safe; [abstract (rewrite Forall_forall in *; intros a a' Ha Ha'; rename select (forall x, _) into H;
      specialize (H a Ha); rewrite Forall_forall in H; by apply H)
    | abstract (intros H; rename select (~ _) into Hn; apply Hn, Forall_forall; intros a Ha; apply Forall_forall; intros a' Ha'; by apply H)].
Defined.

(** One edge after the actions [l] on its terminator. *)
Definition retarget_edge (l : list ThreadAction) (d : BlockId) (args : list ValueId) : BlockId * list ValueId :=
  match list_find (fun a => ta_join a = d) l with
  | Some (_, a) => (ta_new_dest a, ta_new_args a)
  | None => (d, args)
  end.

Definition retarget_term (l : list ThreadAction) (term : Terminator) : Terminator :=
  match term with
  | Branch d args => let e := retarget_edge l d args in Branch e.1 e.2
  | CondBranch c td ta fd fa =>
      let t := retarget_edge l td ta in let e := retarget_edge l fd fa in CondBranch c t.1 t.2 e.1 e.2
  | _ => term
  end.

Lemma retarget_edge_cons a l d args :
  retarget_edge (a :: l) d args = if decide (ta_join a = d) then (ta_new_dest a, ta_new_args a) else retarget_edge l d args.
Proof.
  unfold retarget_edge. simpl. case_decide; [done|]. by destruct (list_find _ l) as [[i b]|].
Qed.

Lemma retarget_edge_none l d args : (forall a, a ∈ l -> ta_join a <> d) -> retarget_edge l d args = (d, args).
Proof.
  intros H. unfold retarget_edge. destruct (list_find _ l) as [[i a]|] eqn:E; [|done]. exfalso.
  apply list_find_Some in E as (Hi & Hd & _). apply (H a); [by eapply list_elem_of_lookup_2 | done].
Qed.

(** Each action meets the edge it was planned for, in whatever order the actions
    on one terminator are applied. *)
Lemma apply_terms l term :
  NoDup (ta_join <$> l) ->
  (forall a a', a ∈ l -> a' ∈ l -> ta_join a <> ta_join a' -> ta_new_dest a <> ta_join a') ->
  (forall a, a ∈ l -> is_Some (edge_args (ta_join a) term)) ->
  foldl (fun t a => apply_term a t) term l = retarget_term l term.
Proof.
  revert term. induction l as [|a l IH]; intros term Hnd Hsafe Hedge; [by destruct term|].
  apply list.NoDup_cons in Hnd as [Hna Hnd]. cbn [foldl].
  assert (Hj : forall a', a' ∈ l -> ta_join a <> ta_join a').
  { intros a' Ha' E. apply Hna. rewrite E. by apply list_elem_of_fmap_2. }
  assert (Hd : forall a', a' ∈ l -> ta_new_dest a <> ta_join a').
  { intros a' Ha'. apply Hsafe; [left | by right | by apply Hj]. }
  assert (Hsafe' : forall b b', b ∈ l -> b' ∈ l -> ta_join b <> ta_join b' -> ta_new_dest b <> ta_join b')
    by (intros b b' Hb Hb'; apply Hsafe; by right).
  assert (Hnone : retarget_edge l (ta_new_dest a) (ta_new_args a) = (ta_new_dest a, ta_new_args a)).
  { apply retarget_edge_none. intros a' Ha' E. by apply (Hd a' Ha'). }
  pose proof (Hedge a ltac:(left)) as He. assert (Hedge' : forall a', a' ∈ l -> is_Some (edge_args (ta_join a') term)) by (intros a' Ha'; apply Hedge; by right).
  destruct term as [|d args|c td ta fd fa|s cases d|]; try (by destruct He as [? He]).
  - simpl in He. case_decide as E; [|by destruct He]. simpl. rewrite decide_True by done.
    rewrite retarget_edge_cons, decide_True by done. destruct l as [|a' l]; [done|]. exfalso.
    destruct (Hedge' a' ltac:(left)) as [x Hx]. simpl in Hx. case_decide; [|done]. apply (Hj a'); [left | congruence].
  - simpl in He. case_decide as Eboth; [by destruct He|]. cbn [apply_term]. case_decide as Et.
    + rewrite IH; [| done | done |].
      * cbn [retarget_term]. rewrite Hnone, !retarget_edge_cons. rewrite decide_True by done. rewrite decide_False by (intros E; apply Eboth; split; congruence). done.
      * intros a' Ha'. destruct (Hedge' a' Ha') as [x Hx]. simpl in Hx |- *.
        repeat case_decide; destruct_and?; try done; try (by eexists); exfalso;
          first [by apply (Hd a' Ha') | apply (Hj a' Ha'); congruence].
    + case_decide as Ef; [|by destruct He]. rewrite IH; [| done | done |].
      * cbn [retarget_term]. rewrite Hnone, !retarget_edge_cons. rewrite decide_False by done. rewrite decide_True by done. done.
      * intros a' Ha'. destruct (Hedge' a' Ha') as [x Hx]. simpl in Hx |- *.
        repeat case_decide; destruct_and?; try done; try (by eexists); exfalso;
          first [by apply (Hd a' Ha') | apply (Hj a' Ha'); congruence].
Qed.

(** The actions on the terminator of a block. *)
Definition actions_on (plan : list ThreadAction) (id : BlockId) : list ThreadAction := filter (fun a => ta_pred a = id) plan.

Definition apply_block (l : list ThreadAction) (b : BasicBlock) : BasicBlock :=
  set_term b ((fun t => foldl (fun t a => apply_term a t) t (actions_on l (block_id b))) <$> block_term b).

Definition retarget (plan : list ThreadAction) (b : BasicBlock) : BasicBlock :=
  set_term b (retarget_term (actions_on plan (block_id b)) <$> block_term b).

Lemma apply_thread_map f a :
  block_index_ok f -> ta_pred a ∈ (block_id <$> blocks f) -> apply_thread f a = map_blocks (apply_block [a]) f.
Proof.
  intros Hok Hp. unfold apply_thread. rewrite update_block_map by done. simpl. apply map_blocks_ext_in.
  intros b _. unfold apply_block, actions_on. rewrite filter_cons, filter_nil.
  destruct (decide (ta_pred a = block_id b)) as [E|E].
  - by rewrite decide_True.
  - rewrite decide_False by congruence. simpl. destruct b as [? ? ? ? []]; done.
Qed.

Lemma apply_all_map f l :
  block_index_ok f -> (forall a, a ∈ l -> ta_pred a ∈ (block_id <$> blocks f)) ->
  foldl apply_thread f l = map_blocks (apply_block l) f.
Proof.
  revert f. induction l as [|a l IH]; intros f Hok Hp.
  - simpl. rewrite (map_blocks_ext_in (apply_block []) id) by (by intros [? ? ? ? []]).
    unfold map_blocks. rewrite list_fmap_id. by destruct f.
  - cbn [foldl]. rewrite (apply_thread_map f a) by (done || apply Hp; left).
    rewrite IH; [| by apply map_blocks_index | intros a' Ha'; rewrite map_blocks_ids by done; apply Hp; by right].
    rewrite map_blocks_compose. apply map_blocks_ext_in. intros b _. unfold apply_block, actions_on. cbn [set_term block_id block_term].
    rewrite !filter_cons, filter_nil. case_decide; destruct (block_term b); done.
Qed.

Section plan.
Context (f : Function) (consts : gmap ValueId ConstKey).
Context (Hok : block_index_ok f).
Notation plan := (plan_threads f consts).
Context (Hsafe : plan_safe plan).

Lemma same_id c d : c ∈ blocks f -> d ∈ blocks f -> block_id c = block_id d -> c = d.
Proof. apply (NoDup_fmap_inj_on block_id (blocks f)), block_ids_NoDup, Hok. Qed.

Lemma plan_pred a : a ∈ plan -> ta_pred a ∈ (block_id <$> blocks f).
Proof.
intros Ha. apply plan_threads_spec in Ha as (J & P & cond & td & ta & fd & fa & idx & H).
destruct (plan_edge_Some _ _ _ _ _ _ _ _ _ _ (pl_edge _ _ _ _ _ _ _ _ _ _ _ H)) as (_ & _ & _ & _ & _ & _ & _ & _ & _ & _ & -> & _).
by apply list_elem_of_fmap_2, H.
Qed.

Lemma apply_plan : foldl apply_thread f plan = map_blocks (retarget plan) f.
Proof.
rewrite apply_all_map by (done || apply plan_pred). apply map_blocks_ext_in. intros b Hb. unfold apply_block, retarget. f_equal.
destruct (block_term b) as [term|] eqn:Et; [|done]. simpl. f_equal.
destruct (plan_threads_spec f consts) as [Hnd Hin]. unfold actions_on. apply apply_terms.
- assert (H : NoDup (edge_of <$> filter (fun a => ta_pred a = block_id b) plan)) by (eapply sublist_NoDup; [exact Hnd | apply fmap_sublist, sublist_filter]).
revert H. generalize plan as l. intros l. induction l as [|a l IH]; [intros _; constructor|]. rewrite filter_cons. case_decide as Ea; [|done].
rewrite !fmap_cons. intros [Hna Hl]%list.NoDup_cons. apply list.NoDup_cons. split; [|by apply IH].
intros (a' & E & Ha')%list_elem_of_fmap. apply Hna. apply list_elem_of_fmap. exists a'. split; [|done].
apply list_elem_of_filter in Ha' as [Ep _]. unfold edge_of. congruence.
- intros a a' [Ep Ha]%list_elem_of_filter [Ep' Ha']%list_elem_of_filter. apply Hsafe; [done | done | congruence].
- intros a [Ep Ha]%list_elem_of_filter. apply Hin in Ha as (J & P & cond & td & ta & fd & fa & idx & H).
destruct (plan_edge_Some _ _ _ _ _ _ _ _ _ _ (pl_edge _ _ _ _ _ _ _ _ _ _ _ H)) as (t & args & _ & _ & EP & Ee & _ & _ & _ & _ & Ep2 & EJ & _).
rewrite (same_id P b (pl_pred _ _ _ _ _ _ _ _ _ _ _ H) Hb) in EP by congruence. rewrite EJ. simplify_eq. by eexists.
Qed.

Lemma retarget_edge_case l d args :
(exists a, a ∈ l /\ ta_join a = d /\ retarget_edge l d args = (ta_new_dest a, ta_new_args a)) \/ retarget_edge l d args = (d, args).
Proof.
unfold retarget_edge. destruct (list_find _ l) as [[i a]|] eqn:E; [|by right]. left. exists a.
apply list_find_Some in E as (Hi & Hd & _). split; [by eapply list_elem_of_lookup_2 | done].
Qed.

(** The edge of an action, from the block it acts on. *)
Lemma action_edge a c : a ∈ actions_on plan (block_id c) -> c ∈ blocks f ->
exists J cond td ta fd fa idx term args, planned f consts a J c cond td ta fd fa idx /\ ta_join a = block_id J /\
block_term c = Some term /\ edge_args (ta_join a) term = Some args.
Proof.
intros [Ep Ha]%list_elem_of_filter Hc. apply plan_threads_spec in Ha as (J & P & cond & td & ta & fd & fa & idx & H).
destruct (plan_edge_Some _ _ _ _ _ _ _ _ _ _ (pl_edge _ _ _ _ _ _ _ _ _ _ _ H)) as (t & args & _ & _ & EP & Ee & _ & _ & _ & _ & Ep2 & EJ & _).
pose proof (same_id P c (pl_pred _ _ _ _ _ _ _ _ _ _ _ H) Hc ltac:(congruence)) as <-.
exists J, cond, td, ta, fd, fa, idx, t, args. rewrite EJ. done.
Qed.

(** A terminator after the plan: it leads where it led, or past the join of an
action. *)
Lemma retarget_exec {X} c (ρ : gmap ValueId (val X)) :
c ∈ blocks f ->
match exec_term (block_term c) ρ with
| TStuck => True
| TRet v => exec_term (block_term (retarget plan c)) ρ = TRet v
| TJump d vs =>
exec_term (block_term (retarget plan c)) ρ = TJump d vs \/
exists a args, a ∈ actions_on plan (block_id c) /\ ta_join a = d /\ (block_term c ≫= edge_args d) = Some args /\
lookup_all ρ args = Some vs /\ exec_term (block_term (retarget plan c)) ρ = jump ρ (ta_new_dest a) (ta_new_args a)
end.
Proof.
intros Hc. unfold retarget. cbn [set_term block_term]. set (l := actions_on plan (block_id c)).
assert (Hact : forall a t, a ∈ l -> block_term c = Some t -> is_Some (edge_args (ta_join a) t)).
{ intros a t Ha Et. destruct (action_edge a c Ha Hc) as (J & cond & td & ta & fd & fa & idx & t' & args & _ & _ & Et' & Ee). simplify_eq. by eexists. }
destruct (block_term c) as [t|] eqn:Et; [|done]. cbn [fmap option_fmap option_map mbind option_bind].
assert (Hj : forall d args d' vs, jump ρ d args = TJump d' vs -> d' = d /\ lookup_all ρ args = Some vs).
{ intros d args d' vs. unfold jump. destruct (lookup_all ρ args); [|done]. by intros [= <- <-]. }
assert (Hn : forall d args v, jump ρ d args <> TRet v) by (intros d args v; unfold jump; by destruct (lookup_all ρ args)).
assert (Hedge : forall d args d' vs, jump ρ d args = TJump d' vs -> (forall a, a ∈ l -> ta_join a = d -> edge_args d t = Some args) ->
let e := retarget_edge l d args in
jump ρ e.1 e.2 = TJump d' vs \/ exists a args', a ∈ l /\ ta_join a = d' /\ edge_args d' t = Some args' /\ lookup_all ρ args' = Some vs /\
jump ρ e.1 e.2 = jump ρ (ta_new_dest a) (ta_new_args a)).
{ intros d args d' vs E Hargs. destruct (Hj _ _ _ _ E) as [-> Hl]. simpl. destruct (retarget_edge_case l d args) as [(a & Ha & Hd & ->)| ->]; [right|by left].
exists a, args. split; [done|]. split; [done|]. split; [by eapply Hargs | done]. }
destruct t as [v|d args|cv td ta fd fa|s cases d|]; simpl; try done.
- destruct v as [v|]; [|done]. by destruct (ρ !! v).
- destruct (jump ρ d args) as [d' vs|v|] eqn:E; [|by destruct (Hn _ _ _ E) | done]. apply (Hedge _ _ _ _ E).
intros a Ha _. simpl. by rewrite decide_True.
- destruct (ρ !! cv) as [[| |[]|]|]; try done.
+ destruct (jump ρ td ta) as [d' vs|v|] eqn:E; [|by destruct (Hn _ _ _ E) | done]. apply (Hedge _ _ _ _ E).
intros a Ha Ed. destruct (Hact a _ Ha eq_refl) as [x Hx]. simpl in Hx |- *. rewrite Ed in Hx. case_decide; [done|]. by rewrite decide_True.
+ destruct (jump ρ fd fa) as [d' vs|v|] eqn:E; [|by destruct (Hn _ _ _ E) | done]. apply (Hedge _ _ _ _ E).
intros a Ha Ed. destruct (Hact a _ Ha eq_refl) as [x Hx]. simpl in Hx |- *. rewrite Ed in Hx. case_decide as Hb; [done|].
rewrite decide_False by (intros ->; by apply Hb). by rewrite decide_True.
- destruct (ρ !! s) as [[w z| | |]|]; try done. by left.
Qed.
End plan.

(** * Running a threaded function *)

Lemma bind_params_lookup {X} ps vs (ρ ρ1 : gmap ValueId (val X)) i p :
  NoDup (bp_id <$> ps) -> bind_params ps vs ρ = Some ρ1 -> ps !! i = Some p -> ρ1 !! bp_id p = vs !! i.
Proof.
  revert vs ρ i. induction ps as [|q ps IH]; intros [|x vs] ρ i Hnd Hb Hi; simpl in Hb; simplify_eq.
  rewrite fmap_cons in Hnd. apply list.NoDup_cons in Hnd as [Hq Hnd]. destruct i as [|i]; simpl in Hi.
  2: by apply (IH vs _ i Hnd Hb). injection Hi as ->. rewrite (bind_params_frame _ _ _ _ _ Hb Hq). by rewrite lookup_insert_eq.
Qed.

Lemma param_index_Some ps a i : param_index ps a = Some i -> exists p, ps !! i = Some p /\ bp_id p = a.
Proof. unfold param_index. intros ([j p] & Hf & ->)%fmap_Some. apply list_find_Some in Hf as (Hj & Hp & _). by exists p. Qed.

Lemma param_index_None ps a : param_index ps a = None -> a ∉ (bp_id <$> ps).
Proof.
  unfold param_index. intros H%fmap_None (p & -> & Hp)%list_elem_of_fmap. apply list_find_None in H.
  rewrite Forall_forall in H. by apply (H p).
Qed.

Lemma mapM_resolve_in ps args l k v :
  mapM (resolve_arg ps args) l = Some k -> v ∈ k -> v ∈ args \/ (v ∈ l /\ v ∉ (bp_id <$> ps)).
Proof.
  intros H%mapM_Some [i Hi]%list_elem_of_lookup. destruct (Forall2_lookup_r _ _ _ _ _ H Hi) as (a & Ha & E).
  unfold resolve_arg in E. destruct (param_index ps a) as [j|] eqn:Ej; simplify_eq.
  - left. by eapply list_elem_of_lookup_2.
  - right. split; [by eapply list_elem_of_lookup_2 | by apply param_index_None].
Qed.

Lemma block_consts_spec f v c :
  block_consts f !! v = Some c ->
  exists b i, b ∈ blocks f /\ i ∈ block_insts b /\ inst_id i = v /\ from_inst (inst_kind i) = Some c.
Proof.
  intros H. apply (collect_insts_spec (fun i => from_inst (inst_kind i))) in H as [H|H]; [by rewrite lookup_empty in H | done].
Qed.

(** Binding makes environments agree on the parameters bound. *)
Lemma bind_params_cover {X} ps vs (K : ValueId -> Prop) (ρ ρ' ρ1 : gmap ValueId (val X)) :
  agree K ρ ρ' -> bind_params ps vs ρ = Some ρ1 ->
  exists ρ1', bind_params ps vs ρ' = Some ρ1' /\ agree (fun v => K v \/ v ∈ (bp_id <$> ps)) ρ1 ρ1'.
Proof.
  revert vs K ρ ρ'. induction ps as [|p ps IH]; intros [|x vs] K ρ ρ' Ha Hb; simpl in Hb; simplify_eq.
  - exists ρ'. split; [done|]. intros v [Hv|Hv]; [by apply Ha | by apply not_elem_of_nil in Hv].
  - destruct (IH vs (fun v => K v \/ v = bp_id p) (<[bp_id p := x]> ρ) (<[bp_id p := x]> ρ')) as (ρ1' & E & Ha'); [|done|].
    + intros v Hv. destruct (decide (v = bp_id p)) as [->|Hne]; [by rewrite !lookup_insert_eq|].
      rewrite !lookup_insert_ne by done. apply Ha. by destruct Hv.
    + exists ρ1'. split; [done|]. intros v Hv. apply Ha'. rewrite fmap_cons, elem_of_cons in Hv. tauto.
Qed.

Section run.
Context {X W : Type} `{!Host X W}.
Context (f : Function) (Hok : block_index_ok f) (Hnd : NoDup (fn_def_ids f)).
Notation plan := (plan_threads f (block_consts f)).
Notation env := (gmap ValueId (val X)).
Context (Hsafe : plan_safe plan).
Context (dyn : bool) (call : call_sem X W).

(** Parameters of the blocks, other than [home], that may have been skipped. *)
Definition skipped (home : option BlockId) (v : ValueId) : Prop :=
exists J, J ∈ blocks f /\ join_params_used_outside_block f J = false /\ Some (block_id J) <> home /\ v ∈ (bp_id <$> block_params J).
Definition kept (home : option BlockId) (v : ValueId) : Prop := ~ skipped home v.

Lemma params_NoDup J : J ∈ blocks f -> NoDup (bp_id <$> block_params J).
Proof.
intros HJ. unfold fn_def_ids in Hnd. apply list.NoDup_app in Hnd as (_ & _ & H). pose proof (NoDup_bind_part def_ids _ _ H HJ) as H'.
by apply list.NoDup_app in H' as [H' _].
Qed.

(** What a block reads are not parameters of other joins. *)
Lemma kept_uses c v :
c ∈ blocks f ->
(exists i, i ∈ block_insts c /\ v ∈ inst_uses (inst_kind i)) \/ (v ∈ match block_term c with Some t => terminator_uses t | None => [] end) ->
kept (Some (block_id c)) v.
Proof.
intros Hc Hu (J & HJ & Hl & Hne & Hv). refine (outside_spec f J c v Hl Hc _ Hu Hv). congruence.
Qed.

(** A planned constant has its value whenever it has one. *)
Lemma const_at_run_time v b c i (ρ : env) w x :
block_consts f !! v = Some (KBool b) -> visits f dyn call c i ρ w -> ρ !! v = Some x -> x = VBool b.
Proof.
intros (b0 & ins & Hb0 & Hin & <- & Hf)%block_consts_spec Hv Hx.
assert (Ek : inst_kind ins = ConstBool b) by (destruct (inst_kind ins); simplify_eq/=; done).
eapply (visits_nullary f Hnd dyn call b0 ins); [done | done | | by rewrite Ek | by rewrite Ek | exact Hv | exact Hx].
split; rewrite Ek; [done | apply andb_false_r].
Qed.

(** Going through the join of an action is going where the action leads. *)
Lemma join_step a c args (ρ ρ' : env) w vs i :
a ∈ actions_on plan (block_id c) -> c ∈ blocks f -> (block_term c ≫= edge_args (ta_join a)) = Some args ->
lookup_all ρ args = Some vs -> visits f dyn call c i ρ w -> agree (kept (Some (block_id c))) ρ ρ' ->
exec_block dyn call f (ta_join a) vs ρ w = BDone RStuck \/
exists vs' ρJ, exec_block dyn call f (ta_join a) vs ρ w = BJump (ta_new_dest a) vs' ρJ w /\
jump ρ' (ta_new_dest a) (ta_new_args a) = TJump (ta_new_dest a) vs' /\ agree (kept None) ρJ ρ'.
Proof.
intros Ha Hc Hargs Hvs Hv Hag.
destruct (action_edge f (block_consts f) Hok a c Ha Hc) as (J & cond & td & ta & fd & fa & idx & term & args' & H & EJ & Et & Ee).
destruct (plan_edge_Some _ _ _ _ _ _ _ _ _ _ (pl_edge _ _ _ _ _ _ _ _ _ _ _ H)) as
(t' & args2 & passed & b & EP & Ee2 & Ep & Eck & Hcond & Em & _ & _ & Ed).
rewrite Et in Hargs. cbn [mbind option_bind] in Hargs. rewrite <- EJ in Ee2. simplify_eq.
destruct H as [HJ _ Hins Hloc HtJ Hidx _]. rewrite EJ.
rewrite exec_block_body. rewrite (find_block_unique f J (block_ids_NoDup f Hok) HJ).
destruct (bind_params (block_params J) vs ρ) as [ρJ|] eqn:Eb; [|by left]. unfold exec_body. rewrite Hins, HtJ. cbn [exec_insts].
pose proof (params_NoDup J HJ) as HndJ.
apply lookup_all_Some in Hvs. rename Hvs into HF.
assert (Hres : forall x, (forall i, param_index (block_params J) x = Some i -> ρJ !! x = vs !! i) /\
(param_index (block_params J) x = None -> ρJ !! x = ρ !! x)).
{ intros x. split.
- intros k (p & Hp & <-)%param_index_Some. by eapply bind_params_lookup.
- intros Hx%param_index_None. by eapply bind_params_frame. }
assert (Hc1 : ρJ !! cond = Some (VBool b)).
{ rewrite (proj1 (Hres cond) _ Hidx). destruct (Forall2_lookup_l _ _ _ _ _ HF Ep) as (x & Hx & Hpx). rewrite Hx. f_equal. by eapply const_at_run_time. }
assert (Hnew : lookup_all ρJ (if b then ta else fa) = lookup_all ρ' (ta_new_args a)).
{ unfold lookup_all. apply mapM_Some in Em. assert (Hin : forall v, v ∈ ta_new_args a -> ρ' !! v = ρ !! v).
{ intros v Hvin. apply Hag. destruct (mapM_resolve_in _ _ _ _ _ (proj2 (mapM_Some _ _ _) Em) Hvin) as [Hva|[Hva Hvp]].
- apply kept_uses; [done|]. right. rewrite Et. destruct term as [|d l|cv td' ta' fd' fa'| |]; simpl in *; repeat case_decide; simplify_eq; try done;
rewrite ?elem_of_cons, ?elem_of_app; auto.
- intros (J2 & HJ2 & Hl2 & Hne2 & Hv2). destruct (decide (block_id J = block_id J2)) as [E|E].
+ by rewrite <- (same_id f Hok J J2 HJ HJ2 E) in Hv2.
+ refine (outside_spec f J2 J v Hl2 HJ E _ Hv2). right. rewrite HtJ. simpl. rewrite elem_of_cons, elem_of_app. destruct b; auto. }
clear -Em Hres HF Hin. revert Em Hin. generalize (ta_new_args a) as k. generalize (if b then ta else fa) as l. intros l k Em. induction Em as [|x y l k Hxy _ IH]; intros Hin; [done|].
cbn [mapM]. rewrite IH by (intros v Hv; apply Hin; by right). rewrite (Hin y) by left.
assert (ρJ !! x = ρ !! y) as ->; [|done]. unfold resolve_arg in Hxy. destruct (Hres x) as [H1 H2].
destruct (param_index (block_params J) x) as [j|]; [|by simplify_eq; apply H2]. rewrite (H1 j eq_refl).
destruct (Forall2_lookup_l _ _ _ _ _ HF Hxy) as (z & -> & ->). done. }
destruct (lookup_all ρJ (if b then ta else fa)) as [vs'|] eqn:Ea.
- right. exists vs', ρJ. rewrite Ed. cbn [exec_term]. rewrite Hc1. split; [|split; [unfold jump; by rewrite <- Hnew|]].
+ unfold jump. destruct b; by rewrite Ea.
+ intros v Hv0. rewrite (bind_params_frame _ _ _ _ _ Eb).
* apply Hag. intros (J2 & HJ2 & Hl2 & _ & Hv2). apply Hv0. by exists J2.
* intros HvJ. apply Hv0. by exists J.
- left. cbn [exec_term]. rewrite Hc1. unfold jump. destruct b; by rewrite Ea.
Qed.

Lemma kept_home c v : kept None v -> kept c v.
Proof. intros Hk (J & HJ & Hl & _ & Hv). apply Hk. by exists J. Qed.

Lemma kept_entry c v : c ∈ blocks f -> kept (Some (block_id c)) v -> kept None v \/ v ∈ (bp_id <$> block_params c).
Proof.
intros Hc Hk. destruct (decide (v ∈ (bp_id <$> block_params c))) as [|Hv]; [by right|]. left. intros (J & HJ & Hl & _ & HvJ).
apply Hk. exists J. split; [done|]. split; [done|]. split; [|done]. intros [= E]. by rewrite (same_id f Hok J c HJ Hc E) in HvJ.
Qed.

(** A block of the threaded function: it goes where the block goes, or where the
join it goes to goes next. *)
Lemma body_step c (ρ ρ' : env) w :
c ∈ blocks f -> visits f dyn call c 0 ρ w -> agree (kept (Some (block_id c))) ρ ρ' ->
match exec_body dyn call c ρ w with
| BDone r => r = RStuck \/ exec_body dyn call (retarget plan c) ρ' w = BDone r
| BJump d vs ρ2 w2 =>
(exists ρ2', exec_body dyn call (retarget plan c) ρ' w = BJump d vs ρ2' w2 /\ agree (kept None) ρ2 ρ2') \/
exec_block dyn call f d vs ρ2 w2 = BDone RStuck \/
exists d' vs' ρJ ρ2', exec_block dyn call f d vs ρ2 w2 = BJump d' vs' ρJ w2 /\
exec_body dyn call (retarget plan c) ρ' w = BJump d' vs' ρ2' w2 /\ agree (kept None) ρJ ρ2'
end.
Proof.
intros Hc Hv Ha. unfold exec_body. change (block_insts (retarget plan c)) with (block_insts c).
assert (Hrefl : refines_call true call call) by (intros i vs w'; reflexivity).
pose proof (agreeing_insts true dyn call call _ (block_insts c) ρ ρ' w Hrefl
(fun i v Hi Hu => kept_uses c v Hc (or_introl (ex_intro _ i (conj Hi Hu)))) Ha) as Hs.
destruct (exec_insts dyn call (block_insts c) ρ w) as [ρ2 w2|w2| |] eqn:E; simpl in Hs.
- destruct Hs as (ρ2' & -> & Ha2).
pose proof (exec_insts_visits f dyn call c w ρ w2 ρ2 0 _ Hv (drop_0 _) E) as Hv2.
pose proof (retarget_exec f (block_consts f) Hok c ρ2' Hc) as Ht.
pose proof (agreeing_term _ (block_term c) ρ2 ρ2' Ha2 (fun v Hu => kept_uses c v Hc (or_intror Hu))) as Eag. rewrite Eag in Ht.
destruct (exec_term (block_term c) ρ2) as [d vs|v|] eqn:Et; [|right; by rewrite Ht | by left].
destruct Ht as [->|(a & args & Hact & <- & Hargs & Hl & ->)].
+ left. exists ρ2'. split; [done|]. intros v Hk. apply Ha2. by apply kept_home.
+ right. assert (Hl2 : lookup_all ρ2 args = Some vs).
{ rewrite <- Hl. apply lookup_all_ext. intros v Hin. symmetry. apply Ha2, kept_uses; [done|]. right.
destruct (block_term c) as [[|d l|cv td ta fd fa| |]|]; simpl in *; repeat case_decide; simplify_eq; try done; rewrite ?elem_of_cons, ?elem_of_app; auto. }
destruct (join_step a c args ρ2 ρ2' w2 vs _ Hact Hc Hargs Hl2 Hv2 Ha2) as [Hstuck|(vs' & ρJ & E1 & E2 & E3)]; [by left|].
right. exists (ta_new_dest a), vs', ρJ, ρ2'. by rewrite E2.
- right. by rewrite Hs.
- by left.
- right. by rewrite Hs.
Qed.

(** The source stands before a block it can enter. *)
Definition stands (s : bstate X W) : Prop :=
forall blk ρ1, find_block f (st_block s) = Some blk -> bind_params (block_params blk) (st_args s) (st_env s) = Some ρ1 ->
visits f dyn call blk 0 ρ1 (st_world s).

Lemma stands_jump s b vs ρ w :
stands s -> exec_at dyn call f s = BJump b vs ρ w -> stands {| st_block := b; st_args := vs; st_env := ρ; st_world := w |}.
Proof.
intros Hs E blk ρ1 Hf Hb. unfold exec_at in E. pose proof E as E'. rewrite exec_block_body in E'.
destruct (find_block f (st_block s)) as [c|] eqn:Hc; [|done]. destruct (bind_params (block_params c) _ _) as [ρ0|] eqn:Hp; [|done].
destruct (exec_block_visits f dyn call _ c _ _ ρ0 _ _ _ _ _ Hc Hp (Hs c ρ0 Hc Hp) E) as [Hv Ht]. by eapply visit_jump.
Qed.

(** The simulation: the same block in environments that agree, or (index 0) a
join the target is about to skip. *)
Definition thread_sim (f' : Function) (k : nat) (s s' : bstate X W) : Prop :=
stands s /\
((k = 1 /\ st_block s' = st_block s /\ st_args s' = st_args s /\ st_world s' = st_world s /\ agree (kept None) (st_env s) (st_env s')) \/
(k = 0 /\ (exec_at dyn call f s = BDone RStuck \/ exists d vs ρ ρ' w, exec_at dyn call f s = BJump d vs ρ w /\
exec_at dyn call f' s' = BJump d vs ρ' w /\ agree (kept None) ρ ρ'))).

Lemma thread_sim_step k s s' :
let f' := map_blocks (retarget plan) f in
thread_sim f' k s s' ->
match exec_at dyn call f s with
| BDone r => r = RStuck \/ exec_at dyn call f' s' = BDone r
| BJump b vs ρ w =>
let s2 := {| st_block := b; st_args := vs; st_env := ρ; st_world := w |} in
(exists k', thread_sim f' k' s2 s' /\ k' < k) \/
exists b' vs' ρ' w', exec_at dyn call f' s' = BJump b' vs' ρ' w' /\
exists k', thread_sim f' k' s2 {| st_block := b'; st_args := vs'; st_env := ρ'; st_world := w' |}
end.
Proof.
intros f' [Hs [(-> & Hb & Hargs & Hw & Ha)|(-> & Hskip)]].
- assert (Hsj : forall d vs ρ w, exec_at dyn call f s = BJump d vs ρ w -> stands {| st_block := d; st_args := vs; st_env := ρ; st_world := w |})
by (intros d vs ρ w; by apply stands_jump).
unfold exec_at in Hsj |- * at 1. rewrite exec_block_body in Hsj |- *.
destruct (find_block f (st_block s)) as [c|] eqn:Hc; [|by left]. pose proof Hc as [Hcin Hid]%find_block_Some.
destruct (bind_params (block_params c) (st_args s) (st_env s)) as [ρ1|] eqn:Hp; [|by left].
destruct (bind_params_cover _ _ _ _ _ _ Ha Hp) as (ρ1' & Hp' & Ha1).
assert (Etgt : exec_at dyn call f' s' = exec_body dyn call (retarget plan c) ρ1' (st_world s)).
{ unfold exec_at. rewrite exec_block_body, Hb, Hargs, Hw. unfold f'. rewrite find_block_map by done. rewrite Hc. simpl. by rewrite Hp'. }
pose proof (body_step c ρ1 ρ1' (st_world s) Hcin (Hs c ρ1 Hc Hp) (fun v Hk => Ha1 v (kept_entry c v Hcin Hk))) as Hstep.
rewrite Etgt. destruct (exec_body dyn call c ρ1 (st_world s)) as [r|d vs ρ2 w2] eqn:Ebody; [done|].
specialize (Hsj d vs ρ2 w2 eq_refl). destruct Hstep as [(ρ2' & -> & Ha2)|Hskip].
+ right. do 4 eexists. split; [done|]. exists 1. split; [done|]. by left.
+ left. exists 0. split; [|lia]. split; [done|]. right. split; [done|]. rewrite Etgt. unfold exec_at. cbn [st_block st_args st_env st_world].
destruct Hskip as [?|(d' & vs' & ρJ & ρ2' & E1 & E2 & E3)]; [by left|]. right. by exists d', vs', ρJ, ρ2', w2.
- destruct Hskip as [-> |(d & vs & ρ & ρ' & w & E & E' & Ha)]; [by left|]. pose proof (stands_jump s _ _ _ _ Hs E) as Hs2.
rewrite E. right. do 4 eexists. split; [exact E'|]. exists 1. split; [done|]. by left.
Qed.
End run.

(** One round: the actions of a safe plan, applied together. *)
Lemma round_same_runs {X W} `{!Host X W} f :
  block_index_ok f -> NoDup (fn_def_ids f) -> plan_safe (plan_threads f (block_consts f)) ->
  same_runs (X := X) (W := W) 2 f (foldl apply_thread f (plan_threads f (block_consts f))).
Proof.
  intros Hok Hnd Hsafe. rewrite apply_plan by done.
  apply (stutter_same_runs f _ (fun dyn call => thread_sim f dyn call (map_blocks (retarget (plan_threads f (block_consts f))) f))); [done | | |].
  - intros dyn call k s s' [_ [(-> & _)|(-> & _)]]; lia.
  - intros dyn call ρ args w Ha. exists 1. split; [|by left]. intros blk ρ1 Hf Hb. by eapply visit_entry.
  - intros dyn call k s s' HI. by apply thread_sim_step.
Qed.

(** Every plan the rounds meet is safe. *)
Fixpoint safe_rounds (fuel : nat) (f : Function) : bool :=
  bool_decide (plan_safe (plan_threads f (block_consts f))) &&
  match plan_threads f (block_consts f), fuel with
  | [], _ | _, O => true
  | plan, S fuel => safe_rounds fuel (foldl apply_thread f plan)
  end.

Record thread_ok (f : Function) : Prop := {
  to_index : block_index_ok f;
  to_defs : NoDup (fn_def_ids f);
  to_counters : counters_ok f }.

Lemma round_ok f : thread_ok f -> plan_safe (plan_threads f (block_consts f)) -> thread_ok (foldl apply_thread f (plan_threads f (block_consts f))).
Proof.
  intros [Hok Hnd Hc] Hsafe. rewrite apply_plan by done. split; [by apply map_blocks_index | | done].
  unfold fn_def_ids, param_ids. simpl. rewrite list_fmap_bind. exact Hnd.
Qed.

Lemma thread_rounds_runs {X W} `{!Host X W} fuel f ch f' ch' :
  thread_ok f -> safe_rounds fuel f = true -> thread_rounds fuel f ch = Some (f', ch') ->
  thread_ok f' /\ exists k, 1 <= k /\ same_runs (X := X) (W := W) k f f'.
Proof.
  revert f ch. induction fuel as [|fuel IH]; intros f ch Hf Hs E; simpl in Hs, E; apply andb_true_iff in Hs as [Hsafe%bool_decide_eq_true Hs].
  - destruct (plan_threads f (block_consts f)); [|done]. simplify_eq. split; [done|]. exists 1. split; [done | apply same_runs_refl].
  - destruct (plan_threads f (block_consts f)) as [|a l] eqn:Ep.
    + simplify_eq. split; [done|]. exists 1. split; [done | apply same_runs_refl].
    + change (foldl apply_thread (apply_thread f a) l) with (foldl apply_thread f (a :: l)) in Hs, E.
      rewrite <- Ep in *. destruct (IH _ _ (round_ok f Hf Hsafe) Hs E) as (Hf' & k & Hk & Hr). split; [done|].
      exists (2 * k). split; [lia|]. eapply same_runs_trans; [|exact Hr]. by apply round_same_runs; [apply Hf | apply Hf |].
Qed.

Lemma thread_func_runs {X W} `{!Host X W} fuel f f' ch :
  thread_ok f -> safe_rounds fuel f = true -> thread_func fuel f = Some (f', ch) ->
  exists k, 1 <= k /\ same_runs (X := X) (W := W) k f f'.
Proof.
  intros Hf Hs E. unfold thread_func in E. destruct (thread_rounds fuel f false) as [[f1 c1]|] eqn:E1; cbn [mbind option_bind] in E; [|done].
  destruct (thread_rounds_runs (X := X) (W := W) fuel f false f1 c1 Hf Hs E1) as (Hf1 & k & Hk & Hr). destruct c1; [|simplify_eq; by exists k].
  destruct (prune_unreachable f1) as [[f2 c2]|] eqn:E2; cbn [mbind option_bind] in E; [|done]. simplify_eq.
  destruct (prune_unreachable_total f1) as (f3 & c3 & E3 & Hbs & _ & He & Hps & _); [apply Hf1 | apply Hf1|]. simplify_eq.
  exists (k * 1). split; [lia|]. eapply same_runs_trans; [exact Hr|]. apply refines_same_runs. intros dyn call n args w.
  etransitivity; [apply (kept_blocks_refines true f1 f2 dyn call call); [apply Hf1 | done | done | done | by intros ? ? ?]|].
  by apply same_body_refines.
Qed.

(** * The rounds end *)

(** Empty joins can be ranked: both arms of each lead to blocks of lower rank.  There
    is such a ranking unless empty joins form a loop of their own. *)
Definition ranked (h : BlockId -> nat) (f : Function) : Prop :=
  forall J cond td ta fd fa, J ∈ blocks f -> block_insts J = [] -> block_params J <> [] ->
    block_term J = Some (CondBranch cond td ta fd fa) -> h td < h (block_id J) /\ h fd < h (block_id J).

(** The ranks a terminator leads to. *)
Definition term_rank (h : BlockId -> nat) (term : option Terminator) : nat :=
  match term with
  | Some (Branch d _) => h d
  | Some (CondBranch _ td _ fd _) => h td + h fd
  | _ => 0
  end.

Definition rank_sum (h : BlockId -> nat) (f : Function) : nat := sum_list_with (fun b => term_rank h (block_term b)) (blocks f).

Section ranks.
Context (h : BlockId -> nat).

Definition lowers (a : ThreadAction) : Prop := h (ta_new_dest a) < h (ta_join a).

Lemma apply_term_rank a t :
lowers a -> term_rank h (Some (apply_term a t)) <= term_rank h (Some t) /\
(is_Some (edge_args (ta_join a) t) -> term_rank h (Some (apply_term a t)) < term_rank h (Some t)).
Proof.
unfold lowers. intros Ha. destruct t as [v|d args|c td ta fd fa|s cases d|]; simpl; try (split; [lia|by intros [? ?]]).
- case_decide; subst; simpl; split; try lia. by intros [? ?].
- case_decide; subst; simpl; [split; lia|]. case_decide; subst; simpl; [split; lia|]. split; [lia|].
case_decide; [by intros [? ?]|]. repeat case_decide; destruct_and?; try done; by intros [? ?].
Qed.

Lemma apply_terms_rank l t :
(forall a, a ∈ l -> lowers a) -> term_rank h (Some (foldl (fun t a => apply_term a t) t l)) <= term_rank h (Some t).
Proof.
revert t. induction l as [|a l IH]; intros t Hl; [done|]. cbn [foldl]. etransitivity; [apply IH; intros b Hb; apply Hl; by right|].
apply apply_term_rank, Hl. left.
Qed.

(** The arms of a branch only get lower. *)
Lemma apply_terms_arms l t c td ta fd fa :
(forall a, a ∈ l -> lowers a) -> foldl (fun t a => apply_term a t) t l = CondBranch c td ta fd fa ->
exists td0 ta0 fd0 fa0, t = CondBranch c td0 ta0 fd0 fa0 /\ h td <= h td0 /\ h fd <= h fd0.
Proof.
revert t. induction l as [|a l IH]; intros t Hl E; [subst; eauto 10|]. cbn [foldl] in E.
destruct (IH _ ltac:(intros b Hb; apply Hl; by right) E) as (td1 & ta1 & fd1 & fa1 & E1 & H1 & H2).
assert (Ha : lowers a) by (apply Hl; left). unfold lowers in Ha.
destruct t as [v|d args|c0 td0 ta0 fd0 fa0|s cases d|]; simpl in E1; try done; [by case_decide|].
case_decide; [injection E1 as -> <- <- <- <-|case_decide; injection E1 as -> <- <- <- <-]; subst; do 4 eexists; (split; [done|]); lia.
Qed.

Lemma sum_le {A} (g k : A -> nat) l :
(forall x, x ∈ l -> g x <= k x) -> sum_list_with g l <= sum_list_with k l /\ ((exists x, x ∈ l /\ g x < k x) -> sum_list_with g l < sum_list_with k l).
Proof.
induction l as [|y l IH]; intros Hle; [split; [done|]; intros (x & Hx & _); by apply not_elem_of_nil in Hx|]. simpl.
destruct IH as [IH1 IH2]; [intros x Hx; apply Hle; by right|]. pose proof (Hle y ltac:(left)). split; [lia|].
intros (x & [->|Hx]%elem_of_cons & Hlt); [lia|]. assert (sum_list_with g l < sum_list_with k l) by eauto. lia.
Qed.

Context (f : Function) (Hok : block_index_ok f) (Hr : ranked h f).
Notation plan := (plan_threads f (block_consts f)).

Lemma plan_lowers a : a ∈ plan -> lowers a.
Proof.
intros Ha. apply plan_threads_spec in Ha as (J & P & cond & td & ta & fd & fa & idx & H).
destruct (plan_edge_Some _ _ _ _ _ _ _ _ _ _ (pl_edge _ _ _ _ _ _ _ _ _ _ _ H)) as (_ & _ & _ & b & _ & _ & _ & _ & _ & _ & _ & EJ & Ed).
unfold lowers. rewrite EJ, Ed. destruct (Hr J cond td ta fd fa) as [H1 H2]; [apply H|apply H| |apply H|by destruct b].
intros Ep. pose proof (pl_cond _ _ _ _ _ _ _ _ _ _ _ H) as Hc. by rewrite Ep in Hc.
Qed.

Lemma actions_lower id a : a ∈ actions_on plan id -> lowers a.
Proof. intros [_ Ha]%list_elem_of_filter. by apply plan_lowers. Qed.

Lemma round_map : foldl apply_thread f plan = map_blocks (apply_block plan) f.
Proof. apply apply_all_map; [done|]. intros a Ha. by eapply plan_pred. Qed.

Lemma round_ranked : ranked h (foldl apply_thread f plan).
Proof.
rewrite round_map. intros J' cond td ta fd fa (J & -> & HJ)%list_elem_of_fmap Hi Hp Et. simpl in Hi, Hp, Et.
destruct (block_term J) as [t|] eqn:EJ; [|done]. injection Et as Et.
destruct (apply_terms_arms _ _ _ _ _ _ _ (actions_lower (block_id J)) Et) as (td0 & ta0 & fd0 & fa0 & -> & H1 & H2).
destruct (Hr J cond td0 ta0 fd0 fa0 HJ Hi Hp EJ) as [H3 H4]. simpl. lia.
Qed.

(** A round with something to do leads to lower ranks. *)
Lemma round_lowers : plan <> [] -> rank_sum h (foldl apply_thread f plan) < rank_sum h f.
Proof.
intros Hne. rewrite round_map. unfold rank_sum. simpl. 
assert (Hsum : sum_list_with (fun b => term_rank h (block_term b)) (apply_block plan <$> blocks f) =
sum_list_with (fun b => term_rank h (block_term (apply_block plan b))) (blocks f)).
{ clear. induction (blocks f) as [|b bs IH]; [done|]. rewrite fmap_cons. simpl. by rewrite IH. }
rewrite Hsum. apply sum_le.
- intros b _. simpl. destruct (block_term b) as [t|]; [|done]. apply apply_terms_rank, actions_lower.
- destruct plan as [|a0 l0] eqn:Ep; [done|]. assert (Ha0 : a0 ∈ plan) by (rewrite Ep; left).
pose proof Ha0 as Hin. apply plan_threads_spec in Hin as (J & P & cond & td & ta & fd & fa & idx & H).
destruct (plan_edge_Some _ _ _ _ _ _ _ _ _ _ (pl_edge _ _ _ _ _ _ _ _ _ _ _ H)) as (t & args & _ & _ & EP & Ee & _ & _ & _ & _ & Epr & EJ & _).
exists P. split; [apply H|]. simpl. rewrite EP. simpl. unfold actions_on. rewrite filter_cons, decide_True by done. cbn [foldl].
assert (Hl : lowers a0) by (by apply plan_lowers). rewrite <- EJ in Ee.
eapply Nat.le_lt_trans; [apply apply_terms_rank|by apply (apply_term_rank a0 t Hl)].
intros a Ha. apply (actions_lower (block_id P)). rewrite Ep. unfold actions_on. rewrite filter_cons, decide_True by done. by right.
Qed.

End ranks.

(** The sum of the ranks bounds the rounds. *)
Lemma ranked_rounds_end h budget f ch :
  block_index_ok f -> ranked h f -> rank_sum h f <= budget -> is_Some (thread_rounds budget f ch).
Proof.
  revert f ch. induction budget as [|budget IH]; intros f ch Hok Hr Hb; cbn [thread_rounds].
  - destruct (plan_threads f (block_consts f)) as [|a l] eqn:Ep; [done|]. exfalso.
    pose proof (round_lowers h f Hok Hr ltac:(by rewrite Ep)). lia.
  - destruct (plan_threads f (block_consts f)) as [|a l] eqn:Ep; [done|]. rewrite <- Ep.
    pose proof (round_lowers h f Hok Hr ltac:(by rewrite Ep)) as Hlt. apply IH; [|by apply round_ranked|lia].
    rewrite round_map by done. by apply map_blocks_index.
Qed.

(** What follows the rounds does not panic. *)
Lemma thread_func_total fuel f :
  thread_ok f -> safe_rounds fuel f = true -> is_Some (thread_rounds fuel f false) -> is_Some (thread_func fuel f).
Proof.
  intros Hf Hs [[f1 c1] E]. unfold thread_func. rewrite E. cbn [mbind option_bind].
  destruct (thread_rounds_runs (X := unit) (W := unit) (Host0 := unit_host) fuel f false f1 c1 Hf Hs E) as (Hf1 & _). destruct c1; [|done].
  destruct (prune_unreachable_total f1) as (f3 & c3 & E3 & _); [apply Hf1 | apply Hf1|]. rewrite E3. cbn [mbind option_bind]. done.
Qed.

(** * Properties *)

(** C7: Jump threading never panics and keeps behaviour when its rounds end and no
    action of a plan leads to the join of another action on the same terminator:
    then every run that ends in a definite result ends in the same result in the
    threaded module, and a procedure that runs forever still does.  The rounds end,
    within the sum of the ranks of the blocks its branches lead to, when the empty joins
    can be ranked so that both arms of each lead to lower ranks. *)
Theorem jump_thread_preserves {X W} `{!Host X W} budget m dyn idx args (w : W) :
  simplifiable m -> (forall f, f ∈ functions m -> safe_rounds budget f = true) ->
  ((forall f, f ∈ functions m -> exists h, ranked h f /\ rank_sum h f <= budget) ->
   forall f, f ∈ functions m -> is_Some (thread_rounds budget f false)) /\
  ((forall f, f ∈ functions m -> is_Some (thread_rounds budget f false)) ->
   exists m' ch, jump_thread budget m = Some (m', ch) /\
     (forall fuel, refines false (run_func (X := X) dyn fuel (functions m) idx args w) (run_func dyn fuel (functions m') idx args w)) /\
     ((forall fuel, run_func (X := X) dyn fuel (functions m) idx args w = RTimeout) ->
      forall fuel, run_func (X := X) dyn fuel (functions m') idx args w = RTimeout)).
Proof.
  intros Hm Hs. split.
  { intros Hr f Hf. destruct (Hr f Hf) as (h & H1 & H2). apply (ranked_rounds_end h); [apply Hm, Hf|done..]. }
  intros Hends. assert (Hok : forall f, f ∈ functions m -> thread_ok f).
  { intros f Hf. destruct (Hm f Hf) as [Hwf Hc]. split; [apply Hwf | apply Hwf | done]. }
  assert (Hsome : is_Some (mapM (thread_func budget) (functions m))).
  { apply mapM_is_Some, list.Forall_forall. intros f Hf. apply thread_func_total; auto. }
  destruct Hsome as [rs Em]. unfold jump_thread. rewrite Em. cbn [mbind option_bind]. do 2 eexists. split; [done|]. cbn [functions set_functions].
  assert (H : exists k, 1 <= k /\ Forall2 (same_runs (X := X) (W := W) k) (functions m) rs.*1).
  { eapply mapM_same_runs; [exact Em|]. intros f f' c Hf Hg. apply (thread_func_runs budget f f' c); auto. }
  destruct H as (k & Hk & HF). split.
  - intros fuel. by apply (run_func_same_runs dyn k).
  - by eapply diverges_same_runs.
Qed.

(** The rounds do not end on a verified endless loop through a join that passes
    itself a constant: the plan is never empty and changes nothing. *)
Theorem jump_thread_spins :
  verify_function spin_join_fn = Some [] /\ forall fuel ch, thread_rounds fuel spin_join_fn ch = None.
Proof.
  split; [vm_compute; reflexivity|]. induction fuel as [|fuel IH]; intros ch; [vm_compute; reflexivity|].
  assert (E : foldl apply_thread spin_join_fn (plan_threads spin_join_fn (block_consts spin_join_fn)) = spin_join_fn) by (vm_compute; reflexivity).
  assert (Hne : plan_threads spin_join_fn (block_consts spin_join_fn) <> []) by (vm_compute; discriminate).
  cbn [thread_rounds]. destruct (plan_threads _ _) as [|a l]; [done|]. rewrite E. apply IH.
Qed.

#[local] Existing Instance unit_host.

(** On a verified function whose terminator has both edges threaded, where the
    first leads to the join of the second, the second action replaces the wrong
    edge: the function returned 2 and now returns 1. *)
Theorem jump_thread_wrong_arm :
  verify_function two_joins_fn = Some [] /\
  run_func (X := unit) (fun _ => false) 5 [two_joins_fn] 0 [VInt I32 0] () = RRet (Some (VInt I32 2)) () /\
  exists f', thread_func 5 two_joins_fn = Some (f', true) /\
    run_func (X := unit) (fun _ => false) 5 [f'] 0 [VInt I32 0] () = RRet (Some (VInt I32 1)) ().
Proof.
  split; [vm_compute; reflexivity|]. split; [vm_compute; reflexivity|].
  exists (match thread_func 5 two_joins_fn with Some (f', _) => f' | None => two_joins_fn end). split; vm_compute; reflexivity.
Qed.

(** Only the join of [retest_fn] is empty, and it leads to blocks 4 and 5. *)
Lemma retest_ranked : ranked (fun b => if decide (b = 3%N) then 1 else 0) retest_fn /\ rank_sum (fun b => if decide (b = 3%N) then 1 else 0) retest_fn = 2.
Proof.
  split; [|vm_compute; reflexivity]. intros J cond td ta fd fa HJ. simpl in HJ. rewrite !elem_of_cons in HJ.
  destruct HJ as [->|[->|[->|[->|[->|[->|HJ]]]]]]; [..|by apply not_elem_of_nil in HJ]; try done.
  intros _ _ [= <- <- <- <- <-]. split; vm_compute; lia.
Qed.

Lemma jump_thread_preserves_witness :
  exists m' ch, jump_thread 5 (mk_module [retest_fn]) = Some (m', ch) /\
    run_func (X := unit) (fun _ => false) 5 (functions m') 0 [VInt I32 7] () = RRet (Some (VInt I32 2)) ().
Proof.
  destruct (jump_thread_preserves (X := unit) 5 (mk_module [retest_fn]) (fun _ => false) 0%N [VInt I32 7] ()) as [Hends Hruns].
  - intros g ->%list_elem_of_singleton. split; [apply ssa_wf_check; vm_compute; reflexivity | vm_compute; intros E; discriminate E].
  - intros g ->%list_elem_of_singleton. vm_compute. reflexivity.
  - destruct Hruns as (m' & ch & E & H & _).
    + apply Hends. intros g ->%list_elem_of_singleton. exists (fun b => if decide (b = 3%N) then 1 else 0). destruct retest_ranked as [H1 ->]. split; [exact H1 | lia].
    + exists m', ch. split; [exact E|]. specialize (H 5%nat).
      assert (Er : run_func (X := unit) (fun _ => false) 5 (functions (mk_module [retest_fn])) 0 [VInt I32 7] () = RRet (Some (VInt I32 2)) ()) by (vm_compute; reflexivity).
      rewrite Er in H. apply H. exact I.
Defined.
