(* ===== verification/WfEdit.v ===== *)
(** How edits of a function keep it in SSA form.

    The optimizer passes delete instructions and block parameters, replace
    instruction kinds, redirect uses and cut edges.  [ssa_wf_edit] covers the
    edits that leave the control-flow graph alone, [ssa_wf_cut] those that remove
    edges and then prune what becomes unreachable. *)

From S2P Require Import Prelude IrTypes IrInst Sample Worklist IrWalk Floats IrSem Dominators Ssa Lockstep Prune.

(** * Order in a sublist *)

Lemma sublist_before {A} (l' l : list A) i' i x y :
  l' `sublist_of` l -> NoDup l -> l' !! i' = Some y -> l !! i = Some y -> x ∈ l' -> x ∈ take i l -> x ∈ take i' l'.
Proof.
  intros Hsub Hnd Hy' Hy Hx' Hx.
  rewrite <- (take_drop_middle l' i' y Hy') in Hsub, Hx'.
  apply elem_of_app in Hx' as [?|Hx']; [done|]. exfalso.
  apply sublist_app_l in Hsub as (l1 & l2 & -> & _ & Hsub).
  apply sublist_cons_l in Hsub as (l3 & l4 & -> & Hsub).
  apply list.NoDup_app in Hnd as (_ & Hd1 & Hnd). apply list.NoDup_app in Hnd as (_ & Hd3 & Hnd).
  apply list.NoDup_cons in Hnd as [Hy4 Hnd4].
  assert (Hi : i = (length l1 + length l3)%nat).
  { destruct (decide (i < length l1)%nat) as [Hlt|Hge].
    - exfalso. rewrite lookup_app_l in Hy by done. apply (Hd1 y); [by eapply list_elem_of_lookup_2|].
      apply elem_of_app. right. left.
    - rewrite lookup_app_r in Hy by lia. destruct (decide (i - length l1 < length l3)%nat) as [Hlt|Hge3].
      + exfalso. rewrite lookup_app_l in Hy by done. apply (Hd3 y); [by eapply list_elem_of_lookup_2 | left].
      + rewrite lookup_app_r in Hy by lia. apply lookup_cons_Some in Hy as [[? _]|[_ Hy]]; [lia|].
        exfalso. apply Hy4. by eapply list_elem_of_lookup_2. }
  assert (Hx4 : x = y \/ x ∈ l4).
  { apply elem_of_cons in Hx' as [->|Hx']; [by left|]. right. exact (elem_of_sublist _ _ _ Hx' Hsub). }
  subst i. rewrite take_app_ge in Hx by lia. rewrite Nat.add_comm, Nat.add_sub in Hx.
  rewrite take_app_le, take_ge in Hx by lia. apply elem_of_app in Hx as [Hx|Hx].
  - apply (Hd1 x Hx), elem_of_app. right. destruct Hx4 as [->|Hx4]; [left | by right].
  - apply (Hd3 x Hx). destruct Hx4 as [->|Hx4]; [left | by right].
Qed.

Lemma sublist_bind2 {A B C} (g : A -> list C) (h : B -> list C) l k :
  Forall2 (fun x y => h y `sublist_of` g x) l k -> (k ≫= h) `sublist_of` (l ≫= g).
Proof. induction 1 as [|x y l k Hxy _ IH]; [done|]. rewrite !bind_cons. by apply sublist_app. Qed.

(** * Dominance when edges go *)

Lemma avoids_mono f f' d b :
  entry f' = entry f -> (forall a c, cfg_edge f' a c -> cfg_edge f a c) -> avoids f' d b -> avoids f d b.
Proof.
  intros He Hed. induction 1 as [Hd|a b _ IH Hab Hb]; [rewrite He in *; by apply avoids_entry|].
  eapply avoids_step; [exact IH | by apply Hed | done].
Qed.

Lemma dominates_mono f f' d b :
  entry f' = entry f -> (forall a c, cfg_edge f' a c -> cfg_edge f a c) -> reachable f' b ->
  dominates_path f d b -> dominates_path f' d b.
Proof. intros He Hed Hr [_ Hn]. split; [done|]. intros Ha. by eapply Hn, avoids_mono. Qed.

(** * Edits that keep the control-flow graph *)

(** The index depends on the identifiers by position alone. *)
Lemma block_index_ext f f' :
  block_id <$> blocks f' = block_id <$> blocks f -> block_positions f' = block_positions f -> next_block f' = next_block f ->
  block_index_ok f -> block_index_ok f'.
Proof.
  intros E Ep En [Hh Hb Hf]. split; rewrite ?Ep, ?En; [| |done].
  - intros p b Hp. assert (Hi : (block_id <$> blocks f) !! p = Some (block_id b)) by (by rewrite <- E, list_lookup_fmap, Hp).
    rewrite list_lookup_fmap in Hi. apply fmap_Some in Hi as (c & Hc & ->). by apply Hh.
  - intros b Hin. assert (Hi : block_id b ∈ (block_id <$> blocks f)) by (rewrite <- E; by apply list_elem_of_fmap_2).
    apply list_elem_of_fmap in Hi as (c & -> & Hc). by apply Hb.
Qed.

Lemma term_fits_mono f f' t :
  (forall d n, args_fit f d n -> args_fit f' d n) -> term_fits f t -> term_fits f' t.
Proof.
  intros Ha. destruct t; simpl; try done; [apply Ha | intros []; split; by apply Ha|].
  intros [Hd Hc]. split; [by apply Ha|]. eapply Forall_impl; [exact Hc|]. intros c. apply Ha.
Qed.

Section edit.
Context (f f' : Function) (keep : ValueId -> Prop).

Record edited (b b' : BasicBlock) : Prop := {
ed_id : block_id b' = block_id b;
ed_targets : block_targets b' = block_targets b;
ed_bparams : bparam_ids b' `sublist_of` bparam_ids b;
ed_insts : inst_ids b' `sublist_of` inst_ids b;
ed_term : is_Some (block_term b) -> is_Some (block_term b');
ed_keep : forall v, keep v -> (v ∈ bparam_ids b -> v ∈ bparam_ids b') /\ (v ∈ inst_ids b -> v ∈ inst_ids b');
ed_uses : forall ins' v, ins' ∈ block_insts b' -> v ∈ inst_uses (inst_kind ins') ->
keep v /\ exists i ins, block_insts b !! i = Some ins /\ inst_id ins = inst_id ins' /\ avail f b i v;
ed_term_uses : forall t' v, block_term b' = Some t' -> v ∈ terminator_uses t' ->
keep v /\ avail f b (length (block_insts b)) v }.

Context (Hwf : ssa_wf f) (Hok : block_index_ok f') (Hentry : entry f' = entry f) (Hparams : fn_params f' = fn_params f).
Context (Hed : Forall2 edited (blocks f) (blocks f')).

Lemma edit_of b' : b' ∈ blocks f' -> exists b, b ∈ blocks f /\ edited b b'.
Proof.
intros [p Hp]%list_elem_of_lookup. destruct (Forall2_lookup_r _ _ _ _ _ Hed Hp) as (b & Hb & H).
exists b. split; [by eapply list_elem_of_lookup_2 | done].
Qed.

Lemma edit_to b : b ∈ blocks f -> exists b', b' ∈ blocks f' /\ edited b b'.
Proof.
intros [p Hp]%list_elem_of_lookup. destruct (Forall2_lookup_l _ _ _ _ _ Hed Hp) as (b' & Hb & H).
exists b'. split; [by eapply list_elem_of_lookup_2 | done].
Qed.

Lemma edit_ids : block_id <$> blocks f' = block_id <$> blocks f.
Proof.
apply list_eq_Forall2, Forall2_fmap, Forall2_flip. eapply Forall2_impl; [exact Hed|]. intros b b' H. apply (ed_id _ _ H).
Qed.

Lemma edit_edge a c : cfg_edge f' a c <-> cfg_edge f a c.
Proof.
rewrite !cfg_edge_iff by (done || apply wf_index, Hwf). split.
- intros (b' & Hb' & <- & Ht). destruct (edit_of b' Hb') as (b & Hb & H). exists b.
rewrite (ed_id _ _ H). split; [done|]. split; [done|]. by rewrite <- (ed_targets _ _ H).
- intros (b & Hb & <- & Ht). destruct (edit_to b Hb) as (b' & Hb' & H). exists b'.
rewrite (ed_id _ _ H). split; [done|]. split; [done|]. by rewrite (ed_targets _ _ H).
Qed.

Lemma edit_dominates d b : dominates_path f d b -> dominates_path f' d b.
Proof.
intros Hd. eapply dominates_mono; [done | intros a c; apply edit_edge | | exact Hd]. destruct Hd as [Hr _].
unfold reachable in *. rewrite Hentry. eapply rtc_subrel; [|exact Hr]. intros x y. apply edit_edge.
Qed.

Lemma def_ids_split b v : v ∈ def_ids b <-> v ∈ bparam_ids b \/ v ∈ inst_ids b.
Proof. apply elem_of_app. Qed.

(** An available value that is kept stays available. *)
Lemma edit_avail b b' i i' v :
edited b b' -> keep v -> (v ∈ take i (inst_ids b) -> v ∈ take i' (inst_ids b')) -> avail f b i v -> avail f' b' i' v.
Proof.
intros H Hk Hpos [Ha|[Ha|[Ha|(c & Hc & Hne & Hd & Hdom)]]].
- left. unfold param_ids. by rewrite Hparams.
- right; left. by apply (ed_keep _ _ H v Hk).
- right; right; left. by apply Hpos.
- right; right; right. destruct (edit_to c Hc) as (c' & Hc' & H'). exists c'. split; [done|].
rewrite (ed_id _ _ H), (ed_id _ _ H'). split; [done|]. split; [|by apply edit_dominates].
apply def_ids_split in Hd as [Hd|Hd]; apply def_ids_split; [left | right]; by apply (ed_keep _ _ H' v Hk).
Qed.

Lemma edit_defs : NoDup (fn_def_ids f').
Proof.
eapply sublist_NoDup; [apply (wf_defs f Hwf)|]. unfold fn_def_ids, param_ids. rewrite Hparams.
apply sublist_app; [done|]. apply sublist_bind2. eapply Forall2_impl; [exact Hed|]. intros b b' H.
apply sublist_app; [apply (ed_bparams _ _ H) | apply (ed_insts _ _ H)].
Qed.

Lemma ssa_wf_edit :
args_fit f' (entry f') 0 -> (forall b t, b ∈ blocks f' -> block_term b = Some t -> term_fits f' t) -> ssa_wf f'.
Proof.
intros Hep Hfits. split; try done.
- rewrite edit_ids, Hentry. apply (wf_entry f Hwf).
- intros b' Hb'. destruct (edit_of b' Hb') as (b & Hb & H). rewrite Hentry, (ed_targets _ _ H).
by apply (wf_no_entry_edge f Hwf).
- apply edit_defs.
- intros b' Hb'. destruct (edit_of b' Hb') as (b & Hb & H). by apply (ed_term _ _ H), (wf_term f Hwf).
- intros b' t Hb' Ht. destruct (edit_of b' Hb') as (b & Hb & H). rewrite (ed_targets _ _ H) in Ht.
rewrite edit_ids. by eapply (wf_targets f Hwf).
- intros b' i' ins' v Hb' Hi' Hv. destruct (edit_of b' Hb') as (b & Hb & H).
destruct (ed_uses _ _ H ins' v ltac:(by eapply list_elem_of_lookup_2) Hv) as (Hk & i & ins & Hi & Hid & Ha).
eapply edit_avail; [exact H | done | | exact Ha]. intros Hx.
assert (Hni : NoDup (inst_ids b)).
{ pose proof (wf_defs f Hwf) as Hnd. apply list.NoDup_app in Hnd as (_ & _ & Hnd).
apply (NoDup_bind_part _ _ b) in Hnd; [|done]. by apply list.NoDup_app in Hnd as (_ & _ & ?). }
apply (sublist_before _ (inst_ids b) _ i v (inst_id ins')); [apply (ed_insts _ _ H) | done | | | | done].
+ unfold inst_ids. by rewrite list_lookup_fmap, Hi'.
+ unfold inst_ids. by rewrite list_lookup_fmap, Hi, <- Hid.
+ apply (ed_keep _ _ H v Hk). by apply elem_of_take in Hx as (? & ? & _); eapply list_elem_of_lookup_2.
- intros b' t' v Hb' Ht' Hv. destruct (edit_of b' Hb') as (b & Hb & H).
destruct (ed_term_uses _ _ H t' v Ht' Hv) as [Hk Ha].
eapply edit_avail; [exact H | done | | exact Ha]. intros Hx.
rewrite take_ge by (unfold inst_ids; by rewrite length_fmap).
apply (ed_keep _ _ H v Hk). by apply elem_of_take in Hx as (? & ? & _); eapply list_elem_of_lookup_2.
Qed.
End edit.

(** * Edits that remove edges, followed by pruning *)

Section cut.
Context (f f1 f2 : Function).

Record cut_block (b b1 : BasicBlock) : Prop := {
cut_id : block_id b1 = block_id b;
cut_params : block_params b1 = block_params b;
cut_insts : block_insts b1 = block_insts b;
cut_targets : forall t, t ∈ block_targets b1 -> t ∈ block_targets b;
cut_term : is_Some (block_term b) -> is_Some (block_term b1);
cut_fits : forall t, block_term b1 = Some t -> term_fits f t;
cut_uses : forall t v, block_term b1 = Some t -> v ∈ terminator_uses t -> avail f b (length (block_insts b)) v }.

Context (Hwf : ssa_wf f) (Hok1 : block_index_ok f1) (Hok2 : block_index_ok f2).
Context (He1 : entry f1 = entry f) (He2 : entry f2 = entry f) (Hp2 : fn_params f2 = fn_params f).
Context (Hcut : Forall2 cut_block (blocks f) (blocks f1)) (Hkept : blocks f2 = kept_blocks f1).

Lemma cut_of b1 : b1 ∈ blocks f1 -> exists b, b ∈ blocks f /\ cut_block b b1.
Proof.
intros [p Hp]%list_elem_of_lookup. destruct (Forall2_lookup_r _ _ _ _ _ Hcut Hp) as (b & Hb & H).
exists b. split; [by eapply list_elem_of_lookup_2 | done].
Qed.

Lemma cut_to b : b ∈ blocks f -> exists b1, b1 ∈ blocks f1 /\ cut_block b b1.
Proof.
intros [p Hp]%list_elem_of_lookup. destruct (Forall2_lookup_l _ _ _ _ _ Hcut Hp) as (b1 & Hb & H).
exists b1. split; [by eapply list_elem_of_lookup_2 | done].
Qed.

Lemma cut_kept b1 : b1 ∈ blocks f2 <-> b1 ∈ blocks f1 /\ reachable f1 (block_id b1).
Proof. rewrite Hkept. unfold kept_blocks. rewrite list_elem_of_filter, reachable_blocks_spec. tauto. Qed.

Lemma cut_edge a c : cfg_edge f1 a c -> cfg_edge f a c.
Proof.
rewrite !cfg_edge_iff by (done || apply wf_index, Hwf). intros (b1 & Hb1 & <- & Ht).
destruct (cut_of b1 Hb1) as (b & Hb & H). exists b. rewrite (cut_id _ _ H).
split; [done|]. split; [done|]. by apply (cut_targets _ _ H).
Qed.

Lemma kept_edge a c : cfg_edge f2 a c <-> cfg_edge f1 a c /\ reachable f1 a.
Proof.
rewrite !cfg_edge_iff by done. split.
- intros (b & Hb & <- & Ht). apply cut_kept in Hb as [Hb Hr]. eauto.
- intros [(b & Hb & <- & Ht) Hr]. exists b. split; [by apply cut_kept | done].
Qed.

Lemma kept_reachable b : reachable f1 b -> reachable f2 b.
Proof.
revert b. apply (rtc_ind_r (fun b => reachable f2 b)); [unfold reachable; rewrite He1, <- He2; apply rtc_refl|].
intros b c Hr Hbc IH. eapply rtc_r; [exact IH|]. by apply kept_edge.
Qed.

Lemma cut_ids b : b ∈ blocks f -> reachable f1 (block_id b) -> exists b2, b2 ∈ blocks f2 /\ cut_block b b2.
Proof.
intros Hb Hr. destruct (cut_to b Hb) as (b1 & Hb1 & H). exists b1. split; [|done].
apply cut_kept. by rewrite (cut_id _ _ H).
Qed.

Lemma cut_avail b b2 i v :
cut_block b b2 -> reachable f1 (block_id b2) -> avail f b i v -> avail f2 b2 i v.
Proof.
intros H Hr. assert (Hi : inst_ids b2 = inst_ids b) by (unfold inst_ids; by rewrite (cut_insts _ _ H)).
assert (Hps : bparam_ids b2 = bparam_ids b) by (unfold bparam_ids; by rewrite (cut_params _ _ H)).
intros [Ha|[Ha|[Ha|(c & Hc & Hne & Hd & Hdom)]]].
- left. unfold param_ids. by rewrite Hp2.
- right; left. by rewrite Hps.
- right; right; left. by rewrite Hi.
- right; right; right. rewrite (cut_id _ _ H) in Hr |- *.
assert (Hdom1 : dominates_path f1 (block_id c) (block_id b)) by (by eapply dominates_mono; [| apply cut_edge | |]).
assert (Hrc : reachable f1 (block_id c)) by (by eapply dominates_reachable_l).
destruct (cut_ids c Hc Hrc) as (c2 & Hc2 & H2). exists c2. split; [done|]. rewrite (cut_id _ _ H2). split; [done|].
split; [unfold def_ids, bparam_ids, inst_ids; by rewrite (cut_params _ _ H2), (cut_insts _ _ H2)|].
eapply dominates_mono; [|intros x y Hxy; apply kept_edge in Hxy; apply Hxy | by apply kept_reachable | done].
by rewrite He1.
Qed.

Lemma cut_args_fit d n : args_fit f d n -> args_fit f2 d n.
Proof.
intros Hf b2 Hb2 Hd. apply cut_kept in Hb2 as [Hb1 _]. destruct (cut_of b2 Hb1) as (b & Hb & H).
rewrite (cut_params _ _ H). apply Hf; [done|]. by rewrite <- (cut_id _ _ H).
Qed.

Lemma cut_defs : NoDup (fn_def_ids f2).
Proof.
eapply sublist_NoDup; [apply (wf_defs f Hwf)|]. unfold fn_def_ids, param_ids. rewrite Hp2.
apply sublist_app; [done|]. trans (blocks f1 ≫= def_ids).
- rewrite Hkept. unfold kept_blocks. generalize (blocks f1). intros bs. clear.
induction bs as [|b bs IH]; [done|]. rewrite filter_cons. case_decide; rewrite ?bind_cons.
+ by apply sublist_app.
+ by apply sublist_inserts_l.
- apply sublist_bind2. eapply Forall2_impl; [exact Hcut|]. intros b b1 H.
unfold def_ids, bparam_ids, inst_ids. by rewrite (cut_params _ _ H), (cut_insts _ _ H).
Qed.

Lemma ssa_wf_cut : ssa_wf f2.
Proof.
pose proof (wf_entry f Hwf) as Hent. apply list_elem_of_fmap in Hent as (be & Hbe & Hbein).
split; try done.
- destruct (cut_ids be Hbein) as (b2 & Hb2 & H); [rewrite <- Hbe, <- He1; apply rtc_refl|].
rewrite He2, Hbe, <- (cut_id _ _ H). by apply list_elem_of_fmap_2.
- rewrite He2. apply cut_args_fit, (wf_entry_params f Hwf).
- intros b2 Hb2. apply cut_kept in Hb2 as [Hb1 _]. destruct (cut_of b2 Hb1) as (b & Hb & H). rewrite He2.
intros Hin. by eapply (wf_no_entry_edge f Hwf), (cut_targets _ _ H).
- apply cut_defs.
- intros b2 Hb2. apply cut_kept in Hb2 as [Hb1 _]. destruct (cut_of b2 Hb1) as (b & Hb & H).
by apply (cut_term _ _ H), (wf_term f Hwf).
- intros b2 t Hb2 Ht. apply cut_kept in Hb2 as [Hb1 Hr]. destruct (cut_of b2 Hb1) as (b & Hb & H).
pose proof (wf_targets f Hwf b t Hb (cut_targets _ _ H t Ht)) as Hin.
apply list_elem_of_fmap in Hin as (c & -> & Hc). destruct (cut_ids c Hc) as (c2 & Hc2 & H2).
+ eapply rtc_r; [exact Hr|]. apply cfg_edge_iff; [done|]. eauto.
+ rewrite <- (cut_id _ _ H2). by apply list_elem_of_fmap_2.
- intros b2 t Hb2 Ht. apply cut_kept in Hb2 as [Hb1 _]. destruct (cut_of b2 Hb1) as (b & Hb & H).
eapply term_fits_mono; [apply cut_args_fit | by apply (cut_fits _ _ H)].
- intros b2 i ins v Hb2 Hi Hv. apply cut_kept in Hb2 as [Hb1 Hr]. destruct (cut_of b2 Hb1) as (b & Hb & H).
eapply cut_avail; [exact H | done|]. rewrite (cut_insts _ _ H) in Hi. by eapply (wf_inst_uses f Hwf).
- intros b2 t v Hb2 Ht Hv. apply cut_kept in Hb2 as [Hb1 Hr]. destruct (cut_of b2 Hb1) as (b & Hb & H).
eapply cut_avail; [exact H | done|]. rewrite (cut_insts _ _ H). by eapply (cut_uses _ _ H).
Qed.
End cut.
