(* ===== verification/Rename.v ===== *)
(** Batched operand substitution: [substitute_uses_batch] of src/src/opt/cse.rs and
    src/src/opt/strength_reduce.rs. *)

From S2P Require Import Prelude IrTypes IrInst Worklist IrWalk Floats IrSem Dominators Ssa Lockstep.

(** [substitute_uses_batch]. *)
Definition rename (rewrites : gmap ValueId ValueId) (v : ValueId) : ValueId := default v (rewrites !! v).

Definition substitute_uses_batch (f : Function) (rewrites : gmap ValueId ValueId) : Function :=
  map_blocks (map_block_operands (rename rewrites)) f.

Lemma map_block_operands_nil b : map_block_operands (rename ∅) b = b.
Proof.
  assert (Hl : forall l, rename ∅ <$> l = l) by (intros l; apply list_fmap_id).
  destruct b as [id nm ps il t]. unfold map_block_operands, set_term, set_insts. cbn. f_equal.
  - transitivity ((fun i : Inst => i) <$> il); [|apply list_fmap_id]. apply list_fmap_ext. intros _ [iid k ty sp] _.
    unfold map_inst_operands, set_kind. simpl. f_equal. transitivity (map_operands (fun v => v) k); [|apply map_operands_id].
    by apply map_operands_ext.
  - destruct t as [[[v|]|d l|c td ta fd fa|s cs d|]|]; simpl; rewrite ?Hl; done.
Qed.

Lemma substitute_nothing f : substitute_uses_batch f ∅ = f.
Proof.
  unfold substitute_uses_batch, map_blocks.
  assert (E : map_block_operands (rename ∅) <$> blocks f = blocks f).
  { transitivity ((fun b : BasicBlock => b) <$> blocks f); [|apply list_fmap_id].
    apply list_fmap_ext. intros _ b _. apply map_block_operands_nil. }
  rewrite E. by destruct f.
Qed.

Lemma mjoin_fmap {A B} (g : A -> B) (cs : list (list A)) : g <$> mjoin cs = mjoin ((fun c : list A => g <$> c) <$> cs).
Proof.
  induction cs as [|c cs IH]; [done|]. change (g <$> (c ++ mjoin cs) = (g <$> c) ++ mjoin ((fun c : list A => g <$> c) <$> cs)).
  by rewrite fmap_app, IH.
Qed.


(** The renaming of [ids] is sound where each entry relates equal, kept values. *)
Lemma renames_map {X} (keep : ValueId -> Prop) (ids : gmap ValueId ValueId) l (ρ ρ' : gmap ValueId (val X)) :
  agree keep ρ ρ' -> (forall v u, v ∈ l -> ids !! v = Some u -> keep u /\ ρ !! u = ρ !! v) ->
  (forall v, v ∈ l -> ids !! v = None -> keep v) -> renames (rename ids) l ρ ρ'.
Proof.
  intros Ha Hids Hkeep v Hin. unfold rename. destruct (ids !! v) as [u|] eqn:E; simpl.
  - destruct (Hids v u Hin E) as [Hu <-]. by apply Ha.
  - by apply Ha, Hkeep.
Qed.
