(* ===== verification/ConstFold.v ===== *)
(** Constant folding (src/src/opt/const_fold.rs).

    The pass keeps a map from values to normalized constants, sweeps the
    instructions in block order and replaces an instruction whose operands are
    known by a constant instruction with the same identifier, until a sweep
    changes nothing.  [powf] stands for the platform's [f64::powf]. *)

From S2P Require Import Prelude IrTypes IrInst Sample Worklist IrWalk Floats IrSem Fpenv Dominators Ssa IrVerify Lockstep.
Local Open Scope Z_scope.

(** * Normalized constants *)

Inductive Const :=
| CInt (v : Z) (w : IntWidth)
| CFloat (v : f64) (w : FloatWidth)
| CBool (b : bool).

(** [(v << shift) >> shift] on [i128]. *)
Definition sext (v bits : Z) : Z :=
  if 128 <=? bits then v
  else let shift := 128 - bits in Z.shiftr (swrap 128 (Z.shiftl v shift)) shift.

Definition mask (v bits : Z) : Z :=
  if 128 <=? bits then v else Z.land v (Z.shiftl 1 bits - 1).

Definition norm (v : Z) (w : IntWidth) : Z := sext (mask v (int_bits w)) (int_bits w).

Definition signed_min (w : IntWidth) : Z :=
  match w with
  | I8 => - 2 ^ 7 | I16 => - 2 ^ 15 | I32 => - 2 ^ 31 | I64 => - 2 ^ 63 | I128 => - 2 ^ 127
  end.

Definition round_for_width (v : f64) (w : FloatWidth) : f64 :=
  match w with F32 => round_f32 v | F64 => v end.

(** [Const::from_inst]. *)
Definition from_inst (k : InstKind) : option Const :=
  match k with
  | ConstInt v w => Some (CInt (sext v (int_bits w)) w)
  | ConstFloat v w => Some (CFloat (round_for_width v w) w)
  | ConstBool b => Some (CBool b)
  | _ => None
  end.

(** The outcome of a fold attempt; [FoldPanic] is the overflow panic of
    [i128::MIN / -1]. *)
Inductive fold_res := NoFold | Folded (k : InstKind) | FoldPanic.

(** [v as u128] and [u128 as i128]. *)
Definition as_u128 (v : Z) : Z := v mod 2 ^ 128.
Definition as_i128 (u : Z) : Z := swrap 128 u.

Definition fold_int_bin (a b : option Const) (ty : IrType) (op : Z -> Z -> Z) : fold_res :=
  match a, b, ty with
  | Some (CInt av _), Some (CInt bv _), TInt w => Folded (ConstInt (norm (op av bv) w) w)
  | _, _, _ => NoFold
  end.

Definition fold_int_un (a : option Const) (ty : IrType) (op : Z -> Z) : fold_res :=
  match a, ty with
  | Some (CInt av _), TInt w => Folded (ConstInt (norm (op av) w) w)
  | _, _ => NoFold
  end.

Definition fold_float_bin (a b : option Const) (ty : IrType) (op : f64 -> f64 -> f64) : fold_res :=
  match a, b, ty with
  | Some (CFloat av _), Some (CFloat bv _), TFloat w => Folded (ConstFloat (round_for_width (op av bv) w) w)
  | _, _, _ => NoFold
  end.

Definition fold_float_un (a : option Const) (ty : IrType) (op : f64 -> f64) : fold_res :=
  match a, ty with
  | Some (CFloat av _), TFloat w => Folded (ConstFloat (round_for_width (op av) w) w)
  | _, _ => NoFold
  end.

(** The common guards of [IDiv] and [IMod]. *)
Definition fold_div (a b : option Const) (ty : IrType) (op : Z -> Z -> Z) : fold_res :=
  match a, b, ty with
  | Some (CInt av _), Some (CInt bv _), TInt w =>
      if bv =? 0 then NoFold
      else if (av =? signed_min w) && (bv =? -1) then NoFold
      else if (av =? - 2 ^ 127) && (bv =? -1) then FoldPanic
      else Folded (ConstInt (norm (op av bv) w) w)
  | _, _, _ => NoFold
  end.

(** The common guard of the shifts: [(0..bits).contains(&bv)]. *)
Definition fold_shift (a b : option Const) (ty : IrType) (op : IntWidth -> Z -> Z -> Z) : fold_res :=
  match a, b, ty with
  | Some (CInt av _), Some (CInt bv _), TInt w =>
      if (0 <=? bv) && (bv <? int_bits w) then Folded (ConstInt (norm (op w av bv) w) w) else NoFold
  | _, _, _ => NoFold
  end.

Definition fold_count (a : option Const) (ty : IrType) (op : Z -> Z -> Z) : fold_res :=
  match a, ty with
  | Some (CInt av src_w), TInt out_w =>
      Folded (ConstInt (norm (op (int_bits src_w) (as_u128 (mask av (int_bits src_w)))) out_w) out_w)
  | _, _ => NoFold
  end.

(** [val.leading_zeros()] of a [u128]. *)
Definition u128_leading_zeros (u : Z) : Z := clz 128 u.

(** The largest magnitudes the range check of [FloatToInt] admits: the [f64]
    values of [iN::MIN] and [iN::MAX], which are integers. *)
Definition cvt_lo (w : IntWidth) : Z := f64_trunc_Z (f64_of_Z (signed_min w)).
Definition cvt_hi (w : IntWidth) : Z := f64_trunc_Z (f64_of_Z (- signed_min w - 1)).

Definition fold_float_to_int (a : option Const) (w : IntWidth) : fold_res :=
  match a with
  | Some (CFloat av src_fw) =>
      if negb (f64_is_finite av) then NoFold
      else
        let truncd := f64_trunc_Z (round_for_width av src_fw) in
        match w with
        | I128 => NoFold
        | _ => if (truncd <? cvt_lo w) || (cvt_hi w <? truncd) then NoFold
               else Folded (ConstInt (norm truncd w) w)
        end
  | _ => NoFold
  end.

Definition fold_select (consts : gmap ValueId Const) (ty : IrType) (c t f : ValueId) : fold_res :=
  match consts !! c with
  | Some (CBool cv) =>
      let chosen := if cv then t else f in
      match consts !! chosen with
      | Some k =>
          match ty, k with
          | TInt w, CInt v src_w => Folded (ConstInt (norm (sext v (int_bits src_w)) w) w)
          | TFloat F32, CFloat v _ => Folded (ConstFloat (round_f32 v) F32)
          | TFloat F64, CFloat v _ => Folded (ConstFloat v F64)
          | TBool, CBool b => Folded (ConstBool b)
          | _, _ => NoFold
          end
      | None => NoFold
      end
  | _ => NoFold
  end.

Section fold.
Context (powf : f64 -> f64 -> f64).

Definition try_fold (k : InstKind) (ty : IrType) (consts : gmap ValueId Const) (preserve_fpenv_effects : bool)
: fold_res :=
let get v := consts !! v in
if preserve_fpenv_effects && is_fpenv_sensitive k then NoFold
else
match k with
| IAdd a b => fold_int_bin (get a) (get b) ty (fun x y => swrap 128 (x + y))
| ISub a b => fold_int_bin (get a) (get b) ty (fun x y => swrap 128 (x - y))
| IMul a b => fold_int_bin (get a) (get b) ty (fun x y => swrap 128 (x * y))
| IDiv a b => fold_div (get a) (get b) ty Z.quot
| IMod a b => fold_div (get a) (get b) ty Z.rem
| INeg a => fold_int_un (get a) ty (fun x => swrap 128 (- x))
| FAdd a b => fold_float_bin (get a) (get b) ty f64_add
| FSub a b => fold_float_bin (get a) (get b) ty f64_sub
| FMul a b => fold_float_bin (get a) (get b) ty f64_mul
| FDiv a b => fold_float_bin (get a) (get b) ty f64_div
| FNeg a => fold_float_un (get a) ty f64_neg
| FAbs a => fold_float_un (get a) ty f64_abs
| FSqrt a => fold_float_un (get a) ty f64_sqrt
| FPow a b =>
match ty with
| TFloat F32 => NoFold
| _ => fold_float_bin (get a) (get b) ty powf
end
| ICmp op a b =>
match get a, get b with
| Some (CInt av aw), Some (CInt bv bw) =>
Folded (ConstBool (icmp op (sext av (int_bits aw)) (sext bv (int_bits bw))))
| _, _ => NoFold
end
| FCmp op a b =>
match get a, get b with
| Some (CFloat av aw), Some (CFloat bv bw) =>
Folded (ConstBool (fcmp op (round_for_width av aw) (round_for_width bv bw)))
| _, _ => NoFold
end
| And a b =>
match get a, get b with
| Some (CBool av), Some (CBool bv) => Folded (ConstBool (av && bv)) | _, _ => NoFold
end
| Or a b =>
match get a, get b with
| Some (CBool av), Some (CBool bv) => Folded (ConstBool (av || bv)) | _, _ => NoFold
end
| Not a => match get a with Some (CBool av) => Folded (ConstBool (negb av)) | _ => NoFold end
| BitAnd a b => fold_int_bin (get a) (get b) ty Z.land
| BitOr a b => fold_int_bin (get a) (get b) ty Z.lor
| BitXor a b => fold_int_bin (get a) (get b) ty Z.lxor
| BitNot a => fold_int_un (get a) ty Z.lnot
| Shl a b => fold_shift (get a) (get b) ty (fun _ x s => swrap 128 (Z.shiftl x s))
| LShr a b => fold_shift (get a) (get b) ty (fun w x s =>
as_i128 (Z.shiftr (as_u128 (mask x (int_bits w))) s))
| AShr a b => fold_shift (get a) (get b) ty (fun w x s => Z.shiftr (sext x (int_bits w)) s)
| PopCount a => fold_count (get a) ty (fun _ u => popcount u)
| CountLeadingZeros a => fold_count (get a) ty (fun bits u =>
if u =? 0 then bits else u128_leading_zeros u - (128 - bits))
| CountTrailingZeros a => fold_count (get a) ty (fun bits u =>
if u =? 0 then bits else ctz 128 u)
| IntToFloat a fw =>
match get a with
| Some (CInt av w) =>
let signed := sext av (int_bits w) in
Folded (ConstFloat (match fw with F32 => f32_of_Z signed | F64 => f64_of_Z signed end) fw)
| _ => NoFold
end
| FloatToInt a w => fold_float_to_int (get a) w
| FloatExtend a fw | FloatTrunc a fw =>
match get a with
| Some (CFloat av _) => Folded (ConstFloat (match fw with F32 => round_f32 av | F64 => av end) fw)
| _ => NoFold
end
| IntExtend a w signed =>
match get a with
| Some (CInt av src_w) =>
let v := if (signed : bool) then sext av (int_bits src_w) else mask av (int_bits src_w) in
Folded (ConstInt (norm v w) w)
| _ => NoFold
end
| IntTrunc a w =>
match get a with Some (CInt av _) => Folded (ConstInt (norm av w) w) | _ => NoFold end
| Select c t f => fold_select consts ty c t f
| _ => NoFold
end.

(** * The pass *)

Abbreviation cmap := (gmap ValueId Const).

(** [consts.insert(inst.id, c)] for every constant instruction. *)
Definition collect_insts (consts : cmap) (il : list Inst) : cmap :=
foldl (fun m i => match from_inst (inst_kind i) with Some c => <[inst_id i := c]> m | None => m end) consts il.
Definition pre_collect (f : Function) : cmap :=
foldl (fun m b => collect_insts m (block_insts b)) ∅ (blocks f).

Inductive inst_step := IKeep | IFold (k : InstKind) (consts : cmap) | IPanic.

Definition fold_inst (preserve : bool) (consts : cmap) (i : Inst) : inst_step :=
if bool_decide (is_Some (consts !! inst_id i)) then IKeep
else
match try_fold (inst_kind i) (inst_ty i) consts preserve with
| NoFold => IKeep
| FoldPanic => IPanic
| Folded k =>
IFold k (match from_inst k with Some c => <[inst_id i := c]> consts | None => consts end)
end.

(** One sweep over a block's instructions; [None] is a panic. *)
Fixpoint fold_insts (preserve : bool) (consts : cmap) (il : list Inst) : option (cmap * list Inst * bool) :=
match il with
| [] => Some (consts, [], false)
| i :: il =>
match fold_inst preserve consts i with
| IPanic => None
| IKeep =>
'(m, il', ch) ← fold_insts preserve consts il; Some (m, i :: il', ch)
| IFold k consts' =>
'(m, il', _) ← fold_insts preserve consts' il; Some (m, set_kind i k :: il', true)
end
end.

Fixpoint fold_blocks (preserve : bool) (consts : cmap) (bs : list BasicBlock)
: option (cmap * list BasicBlock * bool) :=
match bs with
| [] => Some (consts, [], false)
| b :: bs =>
'(m1, il, ch1) ← fold_insts preserve consts (block_insts b);
'(m2, bs', ch2) ← fold_blocks preserve m1 bs;
Some (m2, set_insts b il :: bs', ch1 || ch2)
end.

Inductive loop_res := LDone (bs : list BasicBlock) (changed : bool) | LPanic | LFuel.

(** [while inner_changed] *)
Fixpoint fold_loop (fuel : nat) (preserve : bool) (consts : cmap) (bs : list BasicBlock) (changed : bool)
: loop_res :=
match fuel with
| O => LFuel
| S fuel =>
match fold_blocks preserve consts bs with
| None => LPanic
| Some (m, bs', inner) =>
if (inner : bool) then fold_loop fuel preserve m bs' true else LDone bs' changed
end
end.

(** A sweep that changes something turns at least one more instruction into a
known constant. *)
Definition fold_fuel (f : Function) : nat := S (length (blocks f ≫= block_insts)).

Definition fold_function (preserve : bool) (f : Function) : loop_res :=
fold_loop (fold_fuel f) preserve (pre_collect f) (blocks f) false.

(** [ConstFold::run]; [None] is a panic. *)
Definition const_fold (m : Module_) : option (Module_ * bool) :=
let effects := analyze_fpenv_effects m in
rs ← mapM (fun p =>
match fold_function (default false (may_run_in_dynamic_fpenv effects !! p.1)) p.2 with
| LDone bs ch => Some (set_blocks p.2 bs, ch)
| LPanic | LFuel => None
end) (zip (seq 0 (length (functions m))) (functions m));
Some (set_functions m rs.*1, existsb (fun r => r.2) rs).
End fold.

(** * Normalization *)

Lemma sext_swrap bits v : 0 < bits <= 128 -> srange 128 v -> sext v bits = swrap bits v.
Proof.
  intros Hb Hv. unfold sext. destruct (128 <=? bits) eqn:E; bool_props.
  - replace bits with 128 by lia. by rewrite swrap_id.
  - by apply shl_shr_swrap.
Qed.

Lemma mask_mod bits v : 0 < bits < 128 -> mask v bits = v mod 2 ^ bits.
Proof.
  intros Hb. unfold mask. destruct (128 <=? bits) eqn:E; bool_props; [lia|].
  rewrite Z.shiftl_1_l. replace (2 ^ bits - 1) with (Z.ones bits) by (rewrite Z.ones_equiv; lia).
  apply Z.land_ones. lia.
Qed.

Lemma norm_wrapw w v : srange 128 v -> norm v w = wrapw w v.
Proof.
  intros Hv. unfold norm, wrapw. pose proof (int_bits_bounds w).
  destruct (decide (int_bits w = 128)) as [E|E].
  - rewrite E. unfold mask. simpl. unfold sext. simpl. rewrite swrap_id; [done | lia | done].
  - rewrite mask_mod by lia. rewrite sext_swrap; [apply swrap_mod_r; lia | lia |].
    pose proof (Z.mod_pos_bound v (2 ^ int_bits w) ltac:(apply Z.pow_pos_nonneg; lia)).
    pose proof (Z.pow_le_mono_r 2 (int_bits w) 127 ltac:(lia)) as Hle.
    assert (int_bits w <= 127) by lia. specialize (Hle ltac:(lia)). unfold srange. change (128 - 1) with 127. lia.
Qed.

Lemma wrapw_range w z : srange (int_bits w) (wrapw w z).
Proof. apply swrap_range. pose proof (int_bits_bounds w). lia. Qed.

Lemma wrapw_range128 w z : srange 128 (wrapw w z).
Proof. eapply srange_mono; [apply int_bits_bounds | apply wrapw_range]. Qed.

Lemma wrapw_swrap128 w z : wrapw w (swrap 128 z) = wrapw w z.
Proof. apply swrap_narrow, int_bits_bounds. Qed.

Lemma swrap128_range z : srange 128 (swrap 128 z).
Proof. apply swrap_range. lia. Qed.

Lemma round_for_width_roundw x w : round_for_width x w = roundw w x.
Proof. by destruct w. Qed.

Lemma roundw_idem w x : roundw w (roundw w x) = roundw w x.
Proof. destruct w; [apply round_f32_idem | done]. Qed.

(** Canonical constants, and the run-time value they stand for. *)
Definition const_ok (c : Const) : Prop :=
  match c with
  | CInt z w => srange (int_bits w) z
  | CFloat x w => roundw w x = x
  | CBool _ => True
  end.

Definition const_val {X} (c : Const) : val X :=
  match c with CInt z w => VInt w z | CFloat x w => VFloat w x | CBool b => VBool b end.

(** The payload of an integer constant is a Rust [i128]. *)
Definition payload_ok (k : InstKind) : Prop :=
  match k with ConstInt v _ => srange 128 v | _ => True end.

Lemma from_inst_ok k c : payload_ok k -> from_inst k = Some c -> const_ok c.
Proof.
  destruct k; try done; simpl; intros Hp [= <-]; simpl; [| |done].
  - rewrite sext_swrap by auto with width. apply wrapw_range.
  - rewrite round_for_width_roundw. apply roundw_idem.
Qed.

(** A constant instruction evaluates to its constant. *)
Lemma from_inst_eval {X W} `{!Host X W} k c ty :
  payload_ok k -> from_inst k = Some c -> eval_pure k ty [] = Some (const_val c).
Proof.
  unfold eval_pure. destruct k; try done; simpl; intros Hp [= <-]; simpl; [| |done].
  - by rewrite sext_swrap by auto with width.
  - by rewrite round_for_width_roundw.
Qed.

Lemma from_inst_pure k c : from_inst k = Some c -> class_of k = KPure /\ touches_fpenv k = false /\ inst_uses k = [].
Proof. by destruct k. Qed.

Lemma from_inst_int v w :
  srange 128 v -> payload_ok (ConstInt (norm v w) w) /\ from_inst (ConstInt (norm v w) w) = Some (CInt (wrapw w v) w).
Proof.
  intros Hv. simpl. rewrite norm_wrapw by done. split; [apply wrapw_range128|].
  rewrite sext_swrap by (auto with width; apply wrapw_range128). f_equal. f_equal.
  apply wrapw_id, wrapw_range.
Qed.

Lemma from_inst_float v w :
  from_inst (ConstFloat (round_for_width v w) w) = Some (CFloat (roundw w v) w).
Proof. simpl. by rewrite !round_for_width_roundw, roundw_idem. Qed.

(** * Ranges of the folded operations *)

Lemma srange_shiftr n z : 0 < n -> srange n z <-> Z.shiftr z (n - 1) = 0 \/ Z.shiftr z (n - 1) = -1.
Proof.
  intros Hn. rewrite Z.shiftr_div_pow2 by lia. pose proof (pow2_half_pos n Hn). unfold srange. split.
  - intros [H1 H2]. destruct (Z.lt_ge_cases z 0).
    + right. symmetry. apply (Z.div_unique_pos _ _ _ (z + 2 ^ (n - 1))); lia.
    + left. apply Z.div_small. lia.
  - pose proof (Z.div_mod z (2 ^ (n - 1)) ltac:(lia)). pose proof (Z.mod_pos_bound z (2 ^ (n - 1)) ltac:(lia)).
    intros [E|E]; rewrite E in *; lia.
Qed.

Lemma srange_bitop (op : Z -> Z -> Z) n a b :
  0 < n -> (forall x y k, Z.shiftr (op x y) k = op (Z.shiftr x k) (Z.shiftr y k)) ->
  (forall x y, x = 0 \/ x = -1 -> y = 0 \/ y = -1 -> op x y = 0 \/ op x y = -1) ->
  srange n a -> srange n b -> srange n (op a b).
Proof. intros Hn Hsh Hop. rewrite !srange_shiftr by done. rewrite Hsh. auto. Qed.

Lemma srange_land n a b : 0 < n -> srange n a -> srange n b -> srange n (Z.land a b).
Proof.
  intros Hn. apply (srange_bitop Z.land); [done | intros; apply Z.shiftr_land |].
  intros x y [->| ->] [->| ->]; auto.
Qed.
Lemma srange_lor n a b : 0 < n -> srange n a -> srange n b -> srange n (Z.lor a b).
Proof.
  intros Hn. apply (srange_bitop Z.lor); [done | intros; apply Z.shiftr_lor |].
  intros x y [->| ->] [->| ->]; auto.
Qed.
Lemma srange_lxor n a b : 0 < n -> srange n a -> srange n b -> srange n (Z.lxor a b).
Proof.
  intros Hn. apply (srange_bitop Z.lxor); [done | intros; apply Z.shiftr_lxor |].
  intros x y [->| ->] [->| ->]; auto.
Qed.
Lemma srange_lnot n a : srange n a -> srange n (Z.lnot a).
Proof. unfold srange, Z.lnot. lia. Qed.

Lemma srange_ashr n a s : 0 < n -> 0 <= s -> srange n a -> srange n (Z.shiftr a s).
Proof.
  intros Hn Hs. rewrite Z.shiftr_div_pow2 by lia. unfold srange. pose proof (pow2_half_pos n Hn).
  assert (0 < 2 ^ s) by (apply Z.pow_pos_nonneg; lia). intros [H1 H2]. split.
  - apply Z.div_le_lower_bound; [done|]. nia.
  - apply Z.div_lt_upper_bound; [done|]. nia.
Qed.

Lemma srange_quot n a b :
  0 < n -> srange n a -> b <> 0 -> ~ (a = - 2 ^ (n - 1) /\ b = -1) -> srange n (Z.quot a b).
Proof.
  intros Hn Ha Hb Hmin. unfold srange in *.
  assert (Habs : Z.abs (Z.quot a b) <= Z.abs a).
  { rewrite <- Z.quot_abs by done. apply Z.quot_le_upper_bound; [lia|]. nia. }
  destruct (decide (a = - 2 ^ (n - 1))) as [->|]; [|lia].
  destruct (decide (b = -1)) as [->|]; [tauto|].
  destruct (decide (b = 1)) as [->|]; [rewrite Z.quot_1_r; lia|].
  assert (Z.abs (Z.quot (- 2 ^ (n - 1)) b) < 2 ^ (n - 1)); [|lia].
  rewrite <- Z.quot_abs by done. apply Z.quot_lt_upper_bound; [lia | lia |]. nia.
Qed.

Lemma srange_rem n a b : 0 < n -> srange n a -> b <> 0 -> srange n (Z.rem a b).
Proof.
  intros Hn Ha Hb. unfold srange in *. pose proof (pow2_half_pos n Hn).
  destruct (Z.le_ge_cases 0 a).
  - pose proof (Z.rem_nonneg a b Hb ltac:(lia)). assert (Z.rem a b <= a); [|lia].
    rewrite <- (Z.rem_abs_r a b) by done. apply Z.rem_le; lia.
  - pose proof (Z.rem_nonpos a b Hb ltac:(lia)). assert (- a >= - Z.rem a b); [|lia].
    rewrite <- Z.rem_opp_l by done. rewrite <- (Z.rem_abs_r (- a) b) by done.
    pose proof (Z.rem_le (- a) (Z.abs b) ltac:(lia) ltac:(lia)). lia.
Qed.

Lemma as_u128_mask bits v : 0 < bits <= 128 -> as_u128 (mask v bits) = v mod 2 ^ bits.
Proof.
  intros Hb. destruct (decide (bits = 128)) as [->|]; [done|].
  rewrite mask_mod by lia. unfold as_u128. apply Z.mod_small.
  pose proof (Z.mod_pos_bound v (2 ^ bits) ltac:(apply Z.pow_pos_nonneg; lia)).
  pose proof (Z.pow_le_mono_r 2 bits 128 ltac:(lia) ltac:(lia)). lia.
Qed.

Lemma log2_bound bits u : 0 < bits -> 0 < u < 2 ^ bits -> 0 <= Z.log2 u < bits.
Proof.
  intros Hb Hu. split; [apply Z.log2_nonneg|]. apply Z.log2_lt_pow2; lia.
Qed.

Lemma small_srange128 z : 0 <= z <= 128 -> srange 128 z.
Proof. unfold srange. change (2 ^ (128 - 1)) with 170141183460469231731687303715884105728. lia. Qed.

Lemma clz_fits bits u : 0 < bits <= 128 -> 0 <= u < 2 ^ bits ->
  srange 128 (if u =? 0 then bits else u128_leading_zeros u - (128 - bits)) /\
  (if u =? 0 then bits else u128_leading_zeros u - (128 - bits)) = clz bits u.
Proof.
  intros Hb Hu. unfold u128_leading_zeros, clz. destruct (u =? 0) eqn:E; bool_props.
  - split; [apply small_srange128; lia | done].
  - pose proof (log2_bound bits u ltac:(lia) ltac:(lia)). split; [apply small_srange128; lia | lia].
Qed.

Lemma ctz_pos_log2 p : 0 <= ctz_pos p <= Z.log2 (Zpos p).
Proof.
  induction p as [p IH|p IH|]; cbn [ctz_pos]; [pose proof (Z.log2_nonneg (Zpos p~1)); lia | | done].
  change (Zpos p~0) with (2 * Zpos p). rewrite Z.log2_double by lia. lia.
Qed.

Lemma ctz_fits bits u : 0 < bits <= 128 -> 0 <= u < 2 ^ bits ->
  srange 128 (if u =? 0 then bits else ctz 128 u) /\ (if u =? 0 then bits else ctz 128 u) = ctz bits u.
Proof.
  intros Hb Hu. destruct u as [|p|p]; [|simpl|lia].
  - split; [simpl; apply small_srange128; lia | done].
  - split; [|done]. pose proof (ctz_pos_log2 p). pose proof (log2_bound bits (Zpos p) ltac:(lia) ltac:(lia)).
    apply small_srange128. lia.
Qed.

Lemma popcount_pos_log2 p : 0 <= popcount_pos p <= Z.log2 (Zpos p) + 1.
Proof.
  induction p as [p IH|p IH|]; cbn [popcount_pos]; [| |done].
  - change (Zpos p~1) with (2 * Zpos p + 1). rewrite Z.log2_succ_double by lia. lia.
  - change (Zpos p~0) with (2 * Zpos p). rewrite Z.log2_double by lia. lia.
Qed.

Lemma popcount_fits bits u : 0 < bits <= 128 -> 0 <= u < 2 ^ bits -> srange 128 (popcount u).
Proof.
  intros Hb Hu. apply small_srange128. destruct u as [|p|p]; simpl; [lia | | lia].
  pose proof (popcount_pos_log2 p). pose proof (log2_bound bits (Zpos p) ltac:(lia) ltac:(lia)). lia.
Qed.

Lemma signed_min_pow w : signed_min w = - 2 ^ (int_bits w - 1).
Proof. by destruct w. Qed.

(** * Each fold agrees with the semantics *)

(** A scalar rule that yields [c]'s value or is undefined. *)
Definition fits {X} (r : core_res X) (c : Const) : Prop :=
  match r with CVal v => v = const_val c | CStuck => True | CHost => False end.

(** The constant a folded instruction carries. *)
Definition folds_to (k : InstKind) (c : Const) : Prop := payload_ok k /\ from_inst k = Some c.

Lemma const_ok_128 z w : srange (int_bits w) z -> srange 128 z.
Proof. apply srange_mono, int_bits_bounds. Qed.
#[local] Hint Resolve const_ok_128 swrap128_range : width.

Ltac fold_cases H :=
  repeat match type of H with
  | context [match ?x with _ => _ end] => destruct x eqn:?; try discriminate H
  end; try discriminate H; injection H as <-.

Section folds.
Context {X : Type}.
Implicit Types (ca cb : Const) (k : InstKind).

Lemma int_result w z z' :
srange 128 z -> wrapw w z = wrapw w z' ->
exists c, folds_to (ConstInt (norm z w) w) c /\ VInt w (wrapw w z') = const_val (X := X) c.
Proof.
intros Hz E. destruct (from_inst_int z w Hz) as [Hp Hf]. eexists. split; [split; [done | exact Hf]|].
simpl. by rewrite E.
Qed.

Lemma fold_int_bin_fits ca cb ty op op' k :
const_ok ca -> const_ok cb -> fold_int_bin (Some ca) (Some cb) ty op = Folded k ->
(forall a b, srange 128 a -> srange 128 b -> srange 128 (op a b) /\ forall w, wrapw w (op a b) = wrapw w (op' a b)) ->
exists c, folds_to k c /\ fits (int_bin (X := X) ty [const_val ca; const_val cb] (fun _ a b => Some (op' a b))) c.
Proof.
intros Ha Hb H Hop. unfold fold_int_bin in H. fold_cases H. simpl in *.
match goal with |- context [norm (op ?a ?b) ?w] =>
destruct (Hop a b) as [Hr E]; [eauto with width..|];
destruct (int_result w (op a b) (op' a b) Hr (E w)) as (c & Hc & Hv)
end.
exists c. split; [done|]. by destruct (_ && _).
Qed.

Lemma fold_int_un_fits ca ty op op' k :
const_ok ca -> fold_int_un (Some ca) ty op = Folded k ->
(forall a, srange 128 a -> srange 128 (op a) /\ forall w, wrapw w (op a) = wrapw w (op' a)) ->
exists c, folds_to k c /\ fits (int_un (X := X) ty [const_val ca] (fun _ a => op' a)) c.
Proof.
intros Ha H Hop. unfold fold_int_un in H. fold_cases H. simpl in *.
match goal with |- context [norm (op ?a) ?w] =>
destruct (Hop a) as [Hr E]; [eauto with width|];
destruct (int_result w (op a) (op' a) Hr (E w)) as (c & Hc & Hv)
end.
exists c. split; [done|]. by destruct (bool_decide _).
Qed.

Lemma fold_div_fits ca cb ty op k :
const_ok ca -> const_ok cb -> fold_div (Some ca) (Some cb) ty op = Folded k ->
(forall a b, srange 128 a -> b <> 0 -> ~ (a = - 2 ^ 127 /\ b = -1) -> srange 128 (op a b)) ->
exists c, folds_to k c /\
fits (int_bin (X := X) ty [const_val ca; const_val cb] (fun w a b => if div_ok w a b then Some (op a b) else None)) c.
Proof.
intros Ha Hb H Hop. unfold fold_div in H. fold_cases H. simpl in *.
match goal with |- context [norm (op ?a ?b) ?w] =>
destruct (int_result w (op a b) (op a b)) as (c & Hc & Hv); [apply Hop; [eauto with width | lia | lia] | done|];
exists c; split; [done|]; destruct (bool_decide _ && bool_decide _); [|exact I];
replace (div_ok w a b) with true; [exact Hv|]
end.
unfold div_ok, signed_min_of. rewrite <- signed_min_pow. symmetry.
match goal with H1 : _ && _ = false, H2 : (_ =? 0) = false |- _ => by rewrite H2, H1 end.
Qed.

Lemma fold_shift_fits ca cb ty op op' k :
const_ok ca -> const_ok cb -> fold_shift (Some ca) (Some cb) ty op = Folded k ->
(forall w a s, srange 128 a -> 0 <= s < int_bits w -> srange 128 (op w a s) /\
(srange (int_bits w) a -> wrapw w (op w a s) = wrapw w (op' w a s))) ->
exists c, folds_to k c /\
fits (int_bin (X := X) ty [const_val ca; const_val cb]
(fun w a s => if shift_ok w s then Some (op' w a s) else None)) c.
Proof.
intros Ha Hb H Hop. unfold fold_shift in H. fold_cases H. simpl in *.
match goal with |- context [norm (op ?w ?a ?b) ?w] =>
destruct (Hop w a b) as [Hr E]; [eauto with width | lia|];
destruct (from_inst_int (op w a b) w Hr) as [Hp Hf]
end.
eexists. split; [split; [done | exact Hf]|].
case_bool_decide; [subst|done]. destruct (bool_decide _); [|done]. simpl.
unfold shift_ok. match goal with H1 : _ && _ = true |- _ => rewrite H1 end. simpl. by rewrite E.
Qed.

Lemma fold_count_fits ca ty op op' k :
const_ok ca -> fold_count (Some ca) ty op = Folded k ->
(forall w u, 0 <= u < 2 ^ int_bits w -> srange 128 (op (int_bits w) u) /\ op (int_bits w) u = op' (int_bits w) u) ->
exists c, folds_to k c /\ fits (int_count (X := X) ty [const_val ca] op') c.
Proof.
intros Ha H Hop. unfold fold_count in H. fold_cases H. simpl in *.
rewrite as_u128_mask by auto with width.
match goal with |- context [norm (op (int_bits ?sw) (?v mod _)) ?w] =>
destruct (Hop sw (v mod 2 ^ int_bits sw)) as [Hr E];
[apply Z.mod_pos_bound, Z.pow_pos_nonneg; [lia | pose proof (int_bits_bounds sw); lia]|];
destruct (int_result w (op (int_bits sw) (v mod 2 ^ int_bits sw)) (op' (int_bits sw) (v mod 2 ^ int_bits sw)) Hr)
as (c & Hc & Hv); [by rewrite E|]
end.
by exists c.
Qed.

Lemma fold_float_bin_fits ca cb ty op k :
fold_float_bin (Some ca) (Some cb) ty op = Folded k ->
exists c, folds_to k c /\ fits (float_bin (X := X) ty [const_val ca; const_val cb] op) c.
Proof.
intros H. unfold fold_float_bin in H. fold_cases H.
eexists. split; [split; [done | apply from_inst_float]|]. simpl. by destruct (_ && _).
Qed.

Lemma fold_float_un_fits ca ty op k :
fold_float_un (Some ca) ty op = Folded k ->
exists c, folds_to k c /\ fits (float_un (X := X) ty [const_val ca] op) c.
Proof.
intros H. unfold fold_float_un in H. fold_cases H.
eexists. split; [split; [done | apply from_inst_float]|]. simpl. by destruct (bool_decide _).
Qed.
End folds.

(** What the pass assumes of the target about the two folds that are not decided
    by the scalar rules: [FPow] at binary64 is the compiler's own [powf], and the
    conversion of exactly 2^63 to [i64], which the range check of the pass
    admits, yields [i64::MIN] (x86's integer-indefinite result). *)
Class FoldHost (X W : Type) `{!Host X W} (powf : f64 -> f64 -> f64) : Prop := {
  fold_host_pow wa wb x y v :
    host_pure (FPow 0 0) (TFloat F64) [VFloat wa x; VFloat wb y] = Some v -> v = VFloat F64 (powf x y);
  fold_host_cvt ty fw x v :
    f64_is_finite x = true -> f64_trunc_Z x = 2 ^ 63 ->
    host_pure (FloatToInt 0 I64) ty [VFloat fw x] = Some v -> v = VInt I64 (- 2 ^ 63) }.

Section try_fold.
Context {X W : Type} `{!Host X W} (powf : f64 -> f64 -> f64) `{!FoldHost X W powf}.
Implicit Types (consts : gmap ValueId Const) (k : InstKind).

Lemma fits_eval k ty (vs : list (val X)) c x :
fits (core_eval k ty vs) c -> eval_pure k ty vs = Some x -> x = const_val c.
Proof. unfold eval_pure, fits. destruct (core_eval k ty vs); [congruence | done | done]. Qed.

(** Values of the known operands. *)
Definition agrees consts (l : list ValueId) (vs : list (val X)) : Prop :=
Forall2 (fun u y => forall c, consts !! u = Some c -> y = const_val c) l vs.

(** [k], with the operand values [vs] allowed by [consts], can only evaluate to
the constant of [k']. *)
Definition fold_ok consts k ty k' : Prop :=
exists c, folds_to k' c /\ forall vs x, agrees consts (inst_uses k) vs -> eval_pure k ty vs = Some x -> x = const_val c.

Lemma fold_ok_un consts k ty k' a ca :
inst_uses k = [a] -> consts !! a = Some ca ->
(exists c, folds_to k' c /\ fits (core_eval (X := X) k ty [const_val ca]) c) -> fold_ok consts k ty k'.
Proof.
intros Hu Ha (c & Hc & Hf). exists c. split; [done|]. intros vs x Hvs. unfold agrees in Hvs. rewrite Hu in Hvs.
inversion Hvs as [|? y ? ? Hy Hnil]; subst. inversion Hnil; subst. rewrite (Hy _ Ha). by apply fits_eval.
Qed.

Lemma fold_ok_bin consts k ty k' a b ca cb :
inst_uses k = [a; b] -> consts !! a = Some ca -> consts !! b = Some cb ->
(exists c, folds_to k' c /\ fits (core_eval (X := X) k ty [const_val ca; const_val cb]) c) -> fold_ok consts k ty k'.
Proof.
intros Hu Ha Hb (c & Hc & Hf). exists c. split; [done|]. intros vs x Hvs. unfold agrees in Hvs. rewrite Hu in Hvs.
inversion Hvs as [|? y ? vs' Hy Hvs']; subst. inversion Hvs' as [|? z ? ? Hz Hnil]; subst. inversion Hnil; subst.
rewrite (Hy _ Ha), (Hz _ Hb). by apply fits_eval.
Qed.

Lemma folds_to_bool b : folds_to (ConstBool b) (CBool b).
Proof. done. Qed.

Lemma sext_const z w : srange (int_bits w) z -> sext z (int_bits w) = z.
Proof. intros Hz. rewrite sext_swrap by eauto with width. by apply wrapw_id. Qed.

Lemma fold_ok_pow consts ty k' a b ca cb :
consts !! a = Some ca -> consts !! b = Some cb -> const_ok ca -> const_ok cb ->
match ty with TFloat F32 => NoFold | _ => fold_float_bin (Some ca) (Some cb) ty powf end = Folded k' ->
fold_ok consts (FPow a b) ty k'.
Proof.
intros Ha Hb Hca Hcb H. unfold fold_float_bin in H. fold_cases H. subst.
exists (CFloat (powf v v0) F64). split; [done|]. intros vs x Hvs.
inversion Hvs as [|? y ? vs' Hy Hvs']; subst. inversion Hvs' as [|? z ? ? Hz Hnil]; subst. inversion Hnil; subst.
rewrite (Hy _ Ha), (Hz _ Hb). unfold eval_pure. simpl. intros (v1 & Hv1 & ->)%fmap_Some. by rewrite (fold_host_pow _ _ _ _ _ Hv1).
Qed.

Lemma cvt_bounds w : w <> I128 -> cvt_lo w = signed_min w /\
(w <> I64 -> cvt_hi w = - signed_min w - 1) /\ (w = I64 -> cvt_hi w = 2 ^ 63).
Proof. intros Hw. destruct w; try done; split; try (vm_compute; reflexivity); split; intros; try done; vm_compute; reflexivity. Qed.

Lemma fold_ok_cvt consts ty k' a w ca :
consts !! a = Some ca -> const_ok ca -> fold_float_to_int (Some ca) w = Folded k' ->
fold_ok consts (FloatToInt a w) ty k'.
Proof.
intros Ha Hca H. unfold fold_float_to_int in H. destruct ca as [|x fw|]; try done.
destruct (f64_is_finite x) eqn:Ef; simpl in H; [|done]. rewrite round_for_width_roundw in H.
simpl in Hca. rewrite Hca in H.
assert (Hw : w <> I128) by (by intros ->).
assert (H' : (if (f64_trunc_Z x <? cvt_lo w) || (cvt_hi w <? f64_trunc_Z x) then NoFold
else Folded (ConstInt (norm (f64_trunc_Z x) w) w)) = Folded k') by (by destruct w).
clear H. destruct (_ || _) eqn:Eb in H'; [done|]. injection H' as <-.
apply orb_false_iff in Eb as [Elo Ehi]. bool_props.
destruct (cvt_bounds w Hw) as (Hlo & Hhi & Hhi64). rewrite Hlo, signed_min_pow in Elo.
pose proof (int_bits_bounds w) as Hbits.
pose proof (pow2_half_pos (int_bits w) ltac:(lia)) as Hpos.
destruct (decide (srange (int_bits w) (f64_trunc_Z x))) as [Hr|Hr].
- eapply fold_ok_un; [done | done |].
destruct (from_inst_int (f64_trunc_Z x) w (const_ok_128 _ _ Hr)) as [Hp Hf].
eexists. split; [split; [done | exact Hf]|]. simpl. rewrite Ef.
apply in_srange_spec in Hr as Hr'. rewrite Hr'. simpl. by rewrite wrapw_id.
- assert (w = I64) as ->.
{ destruct (decide (w = I64)) as [|Hne]; [done|]. exfalso. apply Hr. rewrite (Hhi Hne), signed_min_pow in Ehi.
unfold srange. lia. }
assert (Hx : f64_trunc_Z x = 2 ^ 63).
{ rewrite (Hhi64 eq_refl) in Ehi. unfold srange in Hr. change (int_bits I64 - 1) with 63 in *. lia. }
rewrite Hx. exists (CInt (- 2 ^ 63) I64). split; [split; [|vm_compute; reflexivity]|].
{ simpl. vm_compute. split; [intros E; discriminate E | reflexivity]. }
intros vs y Hvs. inversion Hvs as [|? z ? ? Hz Hnil]; subst. inversion Hnil; subst. rewrite (Hz _ Ha).
unfold eval_pure. simpl. rewrite Ef, Hx. simpl. intros (v1 & Hv1 & ->)%fmap_Some. by rewrite (fold_host_cvt _ _ _ _ Ef Hx Hv1).
Qed.

Lemma fold_ok_select consts ty k' c t f :
(forall v cv, consts !! v = Some cv -> const_ok cv) ->
fold_select consts ty c t f = Folded k' -> fold_ok consts (Select c t f) ty k'.
Proof.
intros Hok H. unfold fold_select in H.
destruct (consts !! c) as [[| |cv]|] eqn:Ec; try done.
destruct (consts !! (if cv then t else f)) as [kc|] eqn:Ek; [|done]. pose proof (Hok _ _ Ek) as Hkc.
assert (Hgen : exists c0, folds_to k' c0 /\ (val_has_type ty (const_val (X := X) kc) = true -> const_val (X := X) kc = const_val c0)).
{ fold_cases H; subst; simpl in *.
- eexists. split; [split; [done | reflexivity]|]. done.
- destruct (from_inst_int (sext v (int_bits w0)) w) as [Hp Hf].
{ rewrite sext_const by done. eauto with width. }
eexists. split; [split; [done | exact Hf]|]. intros E%bool_decide_eq_true. subst.
rewrite sext_const by done. simpl. by rewrite wrapw_id.
- eexists. split; [split; [done | reflexivity]|]. intros E%bool_decide_eq_true. subst.
simpl in *. by rewrite !Hkc.
- eexists. split; [split; [done | reflexivity]|]. intros E%bool_decide_eq_true. by subst. }
destruct Hgen as (c0 & Hc0 & Hv). exists c0. split; [done|]. intros vs x Hvs.
inversion Hvs as [|? yc ? vs1 Hyc Hvs1]; subst. inversion Hvs1 as [|? yt ? vs2 Hyt Hvs2]; subst.
inversion Hvs2 as [|? yf ? ? Hyf Hnil]; subst. inversion Hnil; subst. rewrite (Hyc _ Ec).
unfold eval_pure. simpl. destruct cv.
- rewrite (Hyt _ Ek). destruct (val_has_type ty _) eqn:E; [|done]. intros [= <-]. by apply Hv.
- rewrite (Hyf _ Ek). destruct (val_has_type ty _) eqn:E; [|done]. intros [= <-]. by apply Hv.
Qed.

Lemma fold_ok_ext consts ty k' a w (signed : bool) c :
consts !! a = Some c -> const_ok c ->
match c with
| CInt av src_w =>
Folded (ConstInt (norm (if signed then sext av (int_bits src_w) else mask av (int_bits src_w)) w) w)
| _ => NoFold
end = Folded k' -> fold_ok consts (IntExtend a w signed) ty k'.
Proof.
intros Ha Hc H. destruct c as [z sw| |]; try done. injection H as <-. eapply fold_ok_un; [done | done |]. simpl in Hc.
assert (Hr : srange 128 (if signed then sext z (int_bits sw) else mask z (int_bits sw))).
{ destruct signed; [rewrite sext_const by done; eauto with width|].
destruct (decide (int_bits sw = 128)) as [E|E].
- unfold mask. rewrite E. simpl. eauto with width.
- pose proof (int_bits_bounds sw). rewrite mask_mod by lia.
pose proof (Z.mod_pos_bound z (2 ^ int_bits sw) ltac:(apply Z.pow_pos_nonneg; lia)).
pose proof (Z.pow_le_mono_r 2 (int_bits sw) 127 ltac:(lia) ltac:(lia)).
unfold srange. change (128 - 1) with 127. lia. }
destruct (from_inst_int _ w Hr) as [Hp Hf]. eexists. split; [split; [done | exact Hf]|]. simpl.
f_equal. destruct signed; [by rewrite sext_const|].
destruct (decide (int_bits sw = 128)) as [E|E].
- unfold mask. rewrite E. simpl. apply swrap_eq_mod.
pose proof (int_bits_bounds w). apply Z.mod_mod_divide.
exists (2 ^ (128 - int_bits w)). rewrite <- Z.pow_add_r by lia. f_equal. lia.
- pose proof (int_bits_bounds sw). by rewrite mask_mod by lia.
Qed.

(** Bring a fold attempt into the form its helper lemma speaks of. *)
Ltac known H :=
repeat match type of H with
| context [?m !! ?v] =>
let E := fresh "E" in destruct (m !! v) as [?c|] eqn:E;
[|exfalso; revert H; unfold fold_int_bin, fold_int_un, fold_div, fold_shift, fold_count,
fold_float_bin, fold_float_un, fold_float_to_int; repeat (case_match; try discriminate)]
end.

Lemma try_fold_ok consts k ty dyn k' :
(forall v c, consts !! v = Some c -> const_ok c) -> try_fold powf k ty consts dyn = Folded k' ->
pure_inst dyn k /\ fold_ok consts k ty k'.
Proof.
intros Hok H. unfold try_fold in H. destruct (dyn && is_fpenv_sensitive k) eqn:Ed; [done|].
split.
{ split; [|by rewrite <- fpenv_sensitive_touches]. destruct k; try discriminate; done. }
destruct k; try discriminate.
all: try (by apply fold_ok_select).
all: known H.
all: repeat match goal with E : _ !! _ = Some ?c |- _ =>
lazymatch goal with _ : const_ok c |- _ => fail | _ => pose proof (Hok _ _ E) end end.
all: try (eapply fold_ok_bin; [done | done | done |]; apply fold_float_bin_fits; exact H).
all: try (eapply fold_ok_un; [done | done |]; apply fold_float_un_fits; exact H).
all: try (by eapply fold_ok_pow).
all: try (by eapply fold_ok_cvt).
all: try discriminate.
all: try (eapply fold_ok_bin; [done | done | done |]; eapply fold_int_bin_fits; [done | done | exact H |];
intros; split; [by eauto with width | intros; apply wrapw_swrap128]).
all: try (eapply fold_ok_bin; [done | done | done |]; eapply fold_int_bin_fits; [done | done | exact H |];
intros; split; [apply srange_land + apply srange_lor + apply srange_lxor; done || lia | done]).
all: try (eapply fold_ok_bin; [done | done | done |]; eapply fold_div_fits; [done | done | exact H |];
intros; apply srange_quot + apply srange_rem; done || lia).
all: try (eapply fold_ok_bin; [done | done | done |]; eapply fold_shift_fits; [done | done | exact H |]).
all: try (eapply fold_ok_un; [done | done |]; eapply fold_count_fits; [done | exact H |]).
(* INeg, ICmp, FCmp, And, Or, Not, BitNot *)
- eapply fold_ok_un; [done | done |]. eapply fold_int_un_fits; [done | exact H |].
intros; split; [eauto with width | intros; apply wrapw_swrap128].
- fold_cases H. subst. eapply fold_ok_bin; [done | done | done |].
eexists. split; [done|]. simpl in *. by rewrite !sext_const.
- fold_cases H. subst. eapply fold_ok_bin; [done | done | done |].
eexists. split; [done|]. simpl in *. rewrite !round_for_width_roundw. congruence.
- fold_cases H. subst. eapply fold_ok_bin; [done | done | done |]. by eexists.
- fold_cases H. subst. eapply fold_ok_bin; [done | done | done |]. by eexists.
- fold_cases H. subst. eapply fold_ok_un; [done | done |]. by eexists.
- eapply fold_ok_un; [done | done |]. eapply fold_int_un_fits; [done | exact H |].
intros; split; [by apply srange_lnot | done].
(* shifts and counts *)
- intros w x s' _ _. split; [eauto with width | intros _; apply wrapw_swrap128].
- intros w x s' _ _. unfold as_i128. split; [eauto with width|]. intros _.
by rewrite wrapw_swrap128, as_u128_mask by auto with width.
- intros w x s' Hx Hs. split; [|intros Hr; by rewrite sext_const].
apply srange_ashr; [lia | lia |]. rewrite sext_swrap by auto with width. apply wrapw_range128.
- intros w u Hu. apply clz_fits; [apply int_bits_bounds | done].
- intros w u Hu. apply ctz_fits; [apply int_bits_bounds | done].
- intros w u Hu. split; [|done]. eapply popcount_fits; [apply int_bits_bounds | done].
(* conversions *)
- fold_cases H; subst; (eapply fold_ok_un; [done | done |]); simpl in *; rewrite sext_const by done;
eexists; (split; [done|]); simpl; rewrite ?f32_of_Z_round; done.
- fold_cases H; subst; (eapply fold_ok_un; [done | done |]); eexists; (split; [done|]); simpl; by rewrite ?round_f32_idem.
- fold_cases H; subst; (eapply fold_ok_un; [done | done |]); eexists; (split; [done|]); simpl; by rewrite ?round_f32_idem.
- by eapply fold_ok_ext.
- fold_cases H. subst. eapply fold_ok_un; [done | done |]. simpl in *.
destruct (from_inst_int v w ltac:(eauto with width)) as [Hp Hf]. eexists. split; [by split|]. done.
Qed.
End try_fold.

(** * The pass preserves behaviour *)

(** Integer payloads are [i128]s throughout the function. *)
Definition payloads_ok (f : Function) : Prop :=
  forall b i, b ∈ blocks f -> i ∈ block_insts b -> payload_ok (inst_kind i).

Section pass.
Context {X W : Type} `{!Host X W} (powf : f64 -> f64 -> f64) `{!FoldHost X W powf}.
(** [dyn] is the environment the pass assumes, [env_dyn] the one the function runs in. *)
Context (f : Function) (dyn env_dyn : bool) (Henv_dyn : env_dyn = true -> dyn = true).
Context (Hnd : NoDup (fn_def_ids f)) (Hpay : payloads_ok f).
Notation env := (gmap ValueId (val X)).

(** The facts the pass derives: a value is a constant when its instruction is
one, or folds to one under derived facts. *)
Inductive is_const : ValueId -> Const -> Prop :=
| is_const_base b i c :
b ∈ blocks f -> i ∈ block_insts b -> from_inst (inst_kind i) = Some c -> is_const (inst_id i) c
| is_const_fold b i consts k c :
b ∈ blocks f -> i ∈ block_insts b ->
(forall v cv, consts !! v = Some cv -> is_const v cv) ->
try_fold powf (inst_kind i) (inst_ty i) consts dyn = Folded k -> from_inst k = Some c ->
is_const (inst_id i) c.

Lemma is_const_ok v c : is_const v c -> const_ok c.
Proof.
induction 1 as [b i c Hb Hi Hc|b i consts k c Hb Hi _ IH Hf Hc].
- eapply from_inst_ok; [|done]. by eapply Hpay.
- destruct (try_fold_ok powf consts _ _ dyn k IH Hf) as (_ & c' & [Hp Hc'] & _).
simplify_eq. by eapply from_inst_ok.
Qed.

(** At run time a derived constant has its value wherever it has one. *)
Definition const_env (ρ : env) : Prop := forall v c x, is_const v c -> ρ !! v = Some x -> x = const_val c.

Lemma const_env_inst call b i ρ w ρ' w' :
b ∈ blocks f -> i ∈ block_insts b -> const_env ρ ->
exec_inst env_dyn call i ρ w = SNext ρ' w' -> const_env ρ'.
Proof.
intros Hb Hi Henv Hex v c x Hc Hx. destruct (decide (v = inst_id i)) as [->|Hne].
2:{ rewrite (exec_inst_frame _ _ _ _ _ _ _ _ Hex Hne) in Hx. by eapply Henv. }
inversion Hc as [b' i' c' Hb' Hi' Hf E|b' i' consts k c' Hb' Hi' Hcs Hf Hk E]; subst;
assert (i' = i) as -> by (by eapply (inst_unique f Hnd b' b)).
- destruct (from_inst_pure _ _ Hf) as (Hcl & Ht & Hu).
rewrite exec_inst_pure in Hex by (split; [done | rewrite Ht; apply andb_false_r]).
rewrite Hu in Hex. simpl in Hex. rewrite (from_inst_eval _ _ _ (Hpay _ _ Hb Hi) Hf) in Hex.
simplify_eq. rewrite lookup_insert_eq in Hx. by simplify_eq.
- destruct (try_fold_ok powf consts _ _ dyn k (fun v cv H => is_const_ok v cv (Hcs v cv H)) Hf)
as (Hp & c' & [_ Hc'] & Hev). simplify_eq.
rewrite exec_inst_pure in Hex by (by eapply pure_inst_mono).
destruct (lookup_all ρ _) as [vs|] eqn:Hvs; simpl in Hex; [|done].
destruct (eval_pure _ _ vs) as [y|] eqn:Hy; [|done]. simplify_eq.
rewrite lookup_insert_eq in Hx. simplify_eq. eapply Hev; [|done].
apply lookup_all_Some in Hvs. eapply Forall2_impl; [exact Hvs|]. intros u z Hz cz Hcz.
eapply Henv; [by apply Hcs | done].
Qed.

Lemma is_const_def v c : is_const v c -> exists b, b ∈ blocks f /\ v ∈ inst_ids b.
Proof. destruct 1 as [b i c Hb Hi _|b i consts k c Hb Hi _ _ _]; exists b; split; try done; by apply list_elem_of_fmap_2. Qed.

Lemma const_env_bind ps vs ρ ρ' :
(forall v c, is_const v c -> v ∉ (bp_id <$> ps)) -> const_env ρ -> bind_params ps vs ρ = Some ρ' -> const_env ρ'.
Proof.
intros Hps Henv Hb v c x Hc Hx. rewrite (bind_params_frame _ _ _ _ v Hb (Hps v c Hc)) in Hx. by eapply Henv.
Qed.

Lemma is_const_not_bparam b v c : b ∈ blocks f -> is_const v c -> v ∉ bparam_ids b.
Proof.
intros Hb Hc Hv. destruct (is_const_def v c Hc) as (b' & Hb' & Hin).
assert (b' = b) as ->.
{ apply (def_block_unique f Hnd b' b v); [done | done | |]; apply elem_of_app; [by right | by left]. }
by eapply (inst_not_bparam f Hnd b).
Qed.

Lemma visits_const_env call b i ρ w : visits f env_dyn call b i ρ w -> b ∈ blocks f /\ const_env ρ.
Proof.
induction 1 as [args ρ0 w b ρ Ha Hf Hb|b i ins ρ w ρ' w' _ [Hb IH] Hi Hex|b ρ w d vs b2 ρ' _ [Hb IH] Ht Hf Hbind].
- apply find_block_Some in Hf as [Hin _]. split; [done|].
eapply const_env_bind; [intros v c Hc; by eapply is_const_not_bparam | | done].
intros v c x Hc Hx. exfalso. destruct (is_const_def v c Hc) as (b' & Hb' & Hv).
rewrite (bind_args_frame _ _ _ _ v Ha), lookup_empty in Hx; [done|].
eapply (def_not_param f Hnd b'); [done|]. apply elem_of_app. by right.
- split; [done|]. eapply const_env_inst; [done | by eapply list_elem_of_lookup_2 | done | done].
- apply find_block_Some in Hf as [Hin _]. split; [done|].
eapply const_env_bind; [intros v c Hc; by eapply is_const_not_bparam | done | done].
Qed.

(** ** What a sweep does to the code *)

Definition consts_valid (m : gmap ValueId Const) : Prop := forall v c, m !! v = Some c -> is_const v c.

Definition folded_inst (i i' : Inst) : Prop :=
i' = i \/ exists k c, i' = set_kind i k /\ folds_to k c /\ is_const (inst_id i) c /\ pure_inst dyn (inst_kind i) /\
exists m, consts_valid m /\ try_fold powf (inst_kind i) (inst_ty i) m dyn = Folded k.

Lemma try_fold_const k c ty m : from_inst k = Some c -> try_fold powf k ty m dyn = NoFold.
Proof. unfold try_fold. destruct k; try done; destruct dyn; done. Qed.

Lemma fold_inst_spec b i i1 m :
b ∈ blocks f -> i ∈ block_insts b -> folded_inst i i1 -> consts_valid m ->
match fold_inst powf dyn m i1 with
| IFold k m' => folded_inst i (set_kind i1 k) /\ consts_valid m'
| _ => True
end.
Proof.
intros Hb Hi Hrel Hm. unfold fold_inst. case_bool_decide as Hin; [done|].
destruct (try_fold powf (inst_kind i1) (inst_ty i1) m dyn) as [|k|] eqn:E; try done.
destruct Hrel as [->|(k1 & c1 & -> & [_ Hc1] & _)]; [|simpl in E; by rewrite (try_fold_const _ _ _ _ Hc1) in E].
destruct (try_fold_ok powf m _ _ dyn k (fun v cv H => is_const_ok v cv (Hm v cv H)) E) as (Hp & c & [Hpk Hc] & _).
rewrite Hc. assert (Hic : is_const (inst_id i) c) by (by eapply is_const_fold).
split; [right; exists k, c; split_and!; by eauto|].
intros v cv. destruct (decide (v = inst_id i)) as [->|Hne].
- rewrite lookup_insert_eq. intros [= <-]. done.
- rewrite lookup_insert_ne by done. apply Hm.
Qed.

Lemma fold_insts_spec b il il1 m m' il' ch :
b ∈ blocks f -> (forall i, i ∈ il -> i ∈ block_insts b) -> Forall2 folded_inst il il1 -> consts_valid m ->
fold_insts powf dyn m il1 = Some (m', il', ch) -> Forall2 folded_inst il il' /\ consts_valid m'.
Proof.
intros Hb Hil HF. revert m m' il' ch Hil. induction HF as [|i i1 il il1 Hrel _ IH]; intros m m' il' ch Hil Hm H; simpl in H.
{ by simplify_eq. }
pose proof (fold_inst_spec b i i1 m Hb (Hil i ltac:(left)) Hrel Hm) as Hstep.
assert (Hil' : forall j, j ∈ il -> j ∈ block_insts b) by (intros j Hj; apply Hil; by right).
destruct (fold_inst powf dyn m i1) as [|k mk|]; [| |done].
- destruct (fold_insts powf dyn m il1) as [[[m1 il2] ch1]|] eqn:E; simpl in H; [|done]. simplify_eq.
destruct (IH _ _ _ _ Hil' Hm E). by split; [constructor|].
- destruct (fold_insts powf dyn mk il1) as [[[m1 il2] ch1]|] eqn:E; simpl in H; [|done]. simplify_eq.
destruct Hstep as [Hrel' Hmk]. destruct (IH _ _ _ _ Hil' Hmk E). by split; [constructor|].
Qed.

Definition folded_block (b b' : BasicBlock) : Prop :=
exists il, b' = set_insts b il /\ Forall2 folded_inst (block_insts b) il.

Lemma fold_blocks_spec bs bs1 m m' bs' ch :
(forall b, b ∈ bs -> b ∈ blocks f) -> Forall2 folded_block bs bs1 -> consts_valid m ->
fold_blocks powf dyn m bs1 = Some (m', bs', ch) -> Forall2 folded_block bs bs' /\ consts_valid m'.
Proof.
intros Hbs HF. revert m m' bs' ch Hbs. induction HF as [|b b1 bs bs1 Hrel _ IH]; intros m m' bs' ch Hbs Hm H; simpl in H.
{ by simplify_eq. }
destruct Hrel as (il & -> & Hil). simpl in H.
destruct (fold_insts powf dyn m il) as [[[m1 il2] ch1]|] eqn:E1; simpl in H; [|done].
destruct (fold_blocks powf dyn m1 bs1) as [[[m2 bs2] ch2]|] eqn:E2; simpl in H; [|done]. simplify_eq.
destruct (fold_insts_spec b _ _ _ _ _ _ (Hbs b ltac:(left)) (fun i Hi => Hi) Hil Hm E1) as [Hil2 Hm1].
destruct (IH _ _ _ _ (fun c Hc => Hbs c (list_elem_of_further _ _ _ Hc)) Hm1 E2) as [Hbs2 Hm2].
split; [|done]. constructor; [|done]. by exists il2.
Qed.

Lemma fold_loop_spec fuel m bs1 bs' changed ch :
Forall2 folded_block (blocks f) bs1 -> consts_valid m ->
fold_loop powf fuel dyn m bs1 changed = LDone bs' ch -> Forall2 folded_block (blocks f) bs'.
Proof.
revert m bs1 changed. induction fuel as [|fuel IH]; intros m bs1 changed HF Hm H; [done|]. simpl in H.
destruct (fold_blocks powf dyn m bs1) as [[[m1 bs2] inner]|] eqn:E; [|done].
destruct (fold_blocks_spec _ _ _ _ _ _ (fun b Hb => Hb) HF Hm E) as [HF2 Hm2].
destruct inner; [by eapply IH | by simplify_eq].
Qed.

Lemma pre_collect_valid : consts_valid (pre_collect f).
Proof.
unfold pre_collect.
assert (Hi : forall b il m, b ∈ blocks f -> (forall i, i ∈ il -> i ∈ block_insts b) -> consts_valid m -> consts_valid (collect_insts m il)).
{ intros b il. induction il as [|i il IH]; intros m Hb Hil Hm; [done|]. simpl. apply IH; [done | intros j Hj; apply Hil; by right |].
destruct (from_inst (inst_kind i)) as [c|] eqn:E; [|done]. intros v cv.
destruct (decide (v = inst_id i)) as [->|Hne].
- rewrite lookup_insert_eq. intros [= <-]. eapply is_const_base; [done | apply Hil; left | done].
- rewrite lookup_insert_ne by done. apply Hm. }
assert (Hbs : forall bs m, (forall b, b ∈ bs -> b ∈ blocks f) -> consts_valid m ->
consts_valid (foldl (fun m b => collect_insts m (block_insts b)) m bs)).
{ induction bs as [|b bs IH]; intros m Hin Hm; [done|]. simpl. apply IH; [intros c Hc; apply Hin; by right|].
apply (Hi b); [apply Hin; left | done | done]. }
apply Hbs; [done|]. intros v c. by rewrite lookup_empty.
Qed.

Lemma folded_block_refl b : folded_block b b.
Proof.
exists (block_insts b). split; [by destruct b|]. induction (block_insts b); constructor; [by left | done].
Qed.

Lemma fold_function_spec bs ch : fold_function powf dyn f = LDone bs ch -> Forall2 folded_block (blocks f) bs.
Proof.
apply fold_loop_spec; [|apply pre_collect_valid]. induction (blocks f); constructor; [apply folded_block_refl | done].
Qed.

(** The rewritten function refines the original, in the floating-point
environment the pass assumed. *)
Lemma fold_function_refines bs ch (call call' : call_sem X W) fuel args w :
fold_function powf dyn f = LDone bs ch -> refines_call true call call' ->
refines true (enter_function env_dyn call fuel f args w) (enter_function env_dyn call' fuel (set_blocks f bs) args w).
Proof.
intros Hfold Hcall. apply fold_function_spec in Hfold.
apply (lockstep_refines true env_dyn call call' f (set_blocks f bs) folded_block); [done | done | | |].
- eapply Forall2_impl; [exact Hfold|]. intros b b' Hb. split; [|done].
destruct Hb as (il & -> & HF). split; [done|]. split; [done|]. simpl. by apply Forall2_length in HF.
- intros b b' i ins ins' ρ w' Hb (il & -> & HF) Hv Hi Hi' Hok. simpl in Hi'.
pose proof (Forall2_lookup_lr _ _ _ _ _ _ HF Hi Hi') as [->|(k & c & -> & Hk & Hic & Hp & _)].
+ by apply (exec_inst_refines true).
+ destruct Hk as [Hpk Hk]. destruct (from_inst_pure _ _ Hk) as (Hcl & Ht & Hu).
rewrite (exec_inst_pure env_dyn call' (set_kind ins k)) by (simpl; split; [done | rewrite Ht; apply andb_false_r]).
simpl. rewrite Hu. simpl. rewrite (from_inst_eval _ _ _ Hpk Hk).
destruct (exec_inst env_dyn call ins ρ w') as [ρ1 w1| | |] eqn:E.
* pose proof (visits_const_env _ _ _ _ _ (visit_inst _ _ _ _ _ _ _ _ _ _ Hv Hi E)) as [_ Henv].
rewrite (exec_inst_pure env_dyn call ins ρ w' (pure_inst_mono _ _ _ Henv_dyn Hp)) in E.
destruct (lookup_all ρ _ ≫= _) as [x|]; [|done]. simplify_eq.
by rewrite (Henv _ c x Hic (lookup_insert_eq _ _ _)).
* rewrite (exec_inst_pure env_dyn call ins ρ w' (pure_inst_mono _ _ _ Henv_dyn Hp)) in E. by destruct (_ ≫= _).
* done.
* rewrite (exec_inst_pure env_dyn call ins ρ w' (pure_inst_mono _ _ _ Henv_dyn Hp)) in E. by destruct (_ ≫= _).
- intros b b' ρ w' _ (il & -> & _) _ _. done.
Qed.
End pass.

(** * Termination of the sweeps *)

Section termination.
Context (powf : f64 -> f64 -> f64) (dyn : bool).
Implicit Types (m : gmap ValueId Const).

Lemma try_fold_is_const k ty m k' : try_fold powf k ty m dyn = Folded k' -> is_Some (from_inst k').
Proof.
unfold try_fold. destruct (dyn && is_fpenv_sensitive k); [done|].
unfold fold_int_bin, fold_int_un, fold_div, fold_shift, fold_count, fold_float_bin, fold_float_un,
fold_float_to_int, fold_select.
destruct k; try done; intros H; fold_cases H; done.
Qed.

Lemma fold_inst_grows m i k m' :
fold_inst powf dyn m i = IFold k m' -> m ⊆ m' /\ m !! inst_id i = None /\ is_Some (m' !! inst_id i).
Proof.
unfold fold_inst. case_bool_decide as Hin; [done|]. apply eq_None_not_Some in Hin.
destruct (try_fold powf _ _ m dyn) as [|k0|] eqn:E; try done. intros [= <- <-].
apply try_fold_is_const in E as [c ->]. split; [by apply insert_subseteq|]. split; [done|].
by rewrite lookup_insert_eq.
Qed.

(** Instructions whose value is not known yet. *)
Definition unknown m (ids : list ValueId) : nat := length (filter (fun v => m !! v = None) ids).

Lemma unknown_mono m m' ids : m ⊆ m' -> (unknown m' ids <= unknown m ids)%nat.
Proof.
intros Hsub. unfold unknown. apply length_filter_mono. intros v Hn. destruct (m !! v) as [c|] eqn:E; [|done].
rewrite (lookup_weaken _ _ _ _ E Hsub) in Hn. done.
Qed.

Lemma unknown_cons m v ids :
unknown m (v :: ids) = ((if decide (m !! v = None) then 1 else 0) + unknown m ids)%nat.
Proof. unfold unknown. rewrite filter_cons. by case_decide. Qed.

Lemma unknown_app m l1 l2 : unknown m (l1 ++ l2) = (unknown m l1 + unknown m l2)%nat.
Proof. unfold unknown. by rewrite filter_app, length_app. Qed.

Lemma fold_insts_measure m il m' il' ch :
fold_insts powf dyn m il = Some (m', il', ch) ->
m ⊆ m' /\ (inst_id <$> il') = (inst_id <$> il) /\
(ch = true -> (unknown m' (inst_id <$> il) < unknown m (inst_id <$> il))%nat).
Proof.
revert m m' il' ch. induction il as [|i il IH]; intros m m' il' ch H; simpl in H; [by simplify_eq|].
destruct (fold_inst powf dyn m i) as [|k mk|] eqn:Ei; [| |done].
- destruct (fold_insts powf dyn m il) as [[[m1 il2] ch1]|] eqn:E; simpl in H; [|done]. simplify_eq.
destruct (IH _ _ _ _ E) as (Hsub & Hids & Hch). split; [done|]. split; [by rewrite !fmap_cons, Hids|].
intros Hc. specialize (Hch Hc). rewrite fmap_cons, !unknown_cons.
pose proof (unknown_mono m m' [inst_id i] Hsub) as Hone. rewrite !unknown_cons in Hone.
change (unknown m' []) with 0%nat in Hone. change (unknown m []) with 0%nat in Hone. lia.
- destruct (fold_insts powf dyn mk il) as [[[m1 il2] ch1]|] eqn:E; simpl in H; [|done]. simplify_eq.
apply fold_inst_grows in Ei as (Hsub0 & Hnone & c & Hc). destruct (IH _ _ _ _ E) as (Hsub & Hids & _).
assert (Hsub' : m ⊆ m') by (by transitivity mk).
split; [done|]. split; [by rewrite !fmap_cons, Hids|]. intros _. rewrite fmap_cons, !unknown_cons.
pose proof (unknown_mono m m' (inst_id <$> il) Hsub').
rewrite (decide_True _ _ Hnone), decide_False; [lia|]. by rewrite (lookup_weaken _ _ _ _ Hc Hsub).
Qed.

Abbreviation ids_of bs := (bs ≫= inst_ids).

Lemma fold_blocks_measure m bs m' bs' ch :
fold_blocks powf dyn m bs = Some (m', bs', ch) ->
m ⊆ m' /\ ids_of bs' = ids_of bs /\ (ch = true -> (unknown m' (ids_of bs) < unknown m (ids_of bs))%nat).
Proof.
revert m m' bs' ch. induction bs as [|b bs IH]; intros m m' bs' ch H; simpl in H; [by simplify_eq|].
destruct (fold_insts powf dyn m (block_insts b)) as [[[m1 il] ch1]|] eqn:E1; simpl in H; [|done].
destruct (fold_blocks powf dyn m1 bs) as [[[m2 bs2] ch2]|] eqn:E2; simpl in H; [|done]. simplify_eq.
destruct (fold_insts_measure _ _ _ _ _ E1) as (Hs1 & Hi1 & Hc1).
destruct (IH _ _ _ _ E2) as (Hs2 & Hi2 & Hc2).
assert (Hs : m ⊆ m') by (by transitivity m1).
rewrite !bind_cons, !unknown_app. split; [done|].
split; [rewrite Hi2; f_equal; exact Hi1|]. intros [Hc|Hc]%orb_true_iff.
- specialize (Hc1 Hc). pose proof (unknown_mono m m' (ids_of bs) Hs).
pose proof (unknown_mono m1 m' (inst_ids b) Hs2). unfold inst_ids in *. lia.
- specialize (Hc2 Hc). pose proof (unknown_mono m m' (inst_ids b) Hs).
pose proof (unknown_mono m m1 (ids_of bs) Hs1). lia.
Qed.

Lemma fold_loop_total fuel m bs changed :
(unknown m (ids_of bs) < fuel)%nat -> fold_loop powf fuel dyn m bs changed <> LFuel.
Proof.
revert m bs changed. induction fuel as [|fuel IH]; intros m bs changed Hf; [lia|]. simpl.
destruct (fold_blocks powf dyn m bs) as [[[m1 bs1] inner]|] eqn:E; [|done]. destruct inner; [|done].
apply fold_blocks_measure in E as (_ & Hids & Hlt). specialize (Hlt eq_refl). apply IH. rewrite Hids. lia.
Qed.

Lemma unknown_le m ids : (unknown m ids <= length ids)%nat.
Proof. apply length_filter. Qed.

Lemma fold_function_total f : fold_function powf dyn f <> LFuel.
Proof.
apply fold_loop_total. unfold fold_fuel.
pose proof (unknown_le (pre_collect f) (ids_of (blocks f))) as Hle.
assert (length (ids_of (blocks f)) = length (blocks f ≫= block_insts)); [|lia].
clear. induction (blocks f) as [|b bs IH]; [done|]. rewrite !bind_cons, !length_app, IH.
unfold inst_ids. by rewrite length_fmap.
Qed.
End termination.

(** The module-level statement, in any environment the pass allows for. *)
Lemma const_fold_refines {X W} `{!Host X W} powf `{!FoldHost X W powf} m m' changed (dyn : nat -> bool) :
  (forall n, dyn n = true -> dynamic_fn m n = true) ->
  (forall f, f ∈ functions m -> NoDup (fn_def_ids f) /\ payloads_ok f) ->
  const_fold powf m = Some (m', changed) ->
  forall fuel idx args (w : W),
    refines true (run_func dyn fuel (functions m) idx args w) (run_func dyn fuel (functions m') idx args w).
Proof.
  intros Hdyn Hfs. unfold const_fold. intros H. destruct (mapM _ _) as [rs|] eqn:E; simpl in H; [|done]. simplify_eq.
  apply mapM_zip_seq in E as [Hlen Hrs]. simpl.
  apply run_func_refines; [by rewrite length_fmap|].
  intros n f f' Hn Hn' call call' fuel args w Hcall.
  destruct (Hrs n f Hn) as (r & Hr & Hrn). cbn [fst snd] in Hr. rewrite list_lookup_fmap, Hrn in Hn'. simpl in Hn'. simplify_eq.
  fold (dynamic_fn m n) in Hr.
  destruct (fold_function powf (dynamic_fn m n) f) as [bs ch| |] eqn:Ef; try done. simplify_eq. simpl.
  destruct (Hfs f ltac:(by eapply list_elem_of_lookup_2)) as [Hnd Hpay].
  exact (fold_function_refines powf f (dynamic_fn m n) (dyn n) (Hdyn n) Hnd Hpay bs ch call call' fuel args w Ef Hcall).
Qed.

(** * Properties *)

(** C2: Constant folding preserves behaviour: every run of every procedure of the
    module, with its internal calls, has the same result after the pass (same
    value, same effects, same halt, same non-termination), for every target whose
    [pow] is the compiler's and whose conversion of 2^63 is the folded one.
    Procedures the analysis marks may run in a dynamic floating-point environment.
    Functions are in SSA form; undefined behaviour of the original is excused. *)
Theorem const_fold_preserves {X W} `{!Host X W} powf `{!FoldHost X W powf} m m' changed (dyn : nat -> bool) :
  (forall n, dyn n = true -> dynamic_fn m n = true) ->
  (forall f, f ∈ functions m -> NoDup (fn_def_ids f) /\ payloads_ok f) ->
  const_fold powf m = Some (m', changed) ->
  forall fuel idx args (w : W),
    refines true (run_func dyn fuel (functions m) idx args w) (run_func dyn fuel (functions m') idx args w).
Proof. exact (const_fold_refines powf m m' changed dyn). Qed.

#[local] Existing Instance unit_host.

#[local] Instance unit_fold_host : FoldHost unit unit (fun x _ => x).
Proof. split; [intros wa wb x y v H | intros ty fw x v _ _ H]; discriminate H. Qed.

Lemma sum_fn_ok : NoDup (fn_def_ids sum_fn) /\ payloads_ok sum_fn.
Proof.
  split; [apply (bool_decide_unpack (NoDup (fn_def_ids sum_fn))); vm_compute; exact I|].
  intros b i Hb Hi. apply list_elem_of_singleton in Hb as ->. simpl in Hi.
  repeat (apply elem_of_cons in Hi as [->|Hi]; [simpl; unfold srange; lia|]). by apply not_elem_of_nil in Hi.
Qed.

Lemma const_fold_preserves_witness :
  exists m', const_fold (fun x _ => x) (mk_module [sum_fn]) = Some (m', true) /\
    run_func (X := unit) (dynamic_fn (mk_module [sum_fn])) 1 (functions m') 0 [] () = RRet (Some (VInt I32 5)) ().
Proof.
  eexists. split; [vm_compute; reflexivity|].
  transitivity (run_func (X := unit) (dynamic_fn (mk_module [sum_fn])) 1 [sum_fn] 0 [] ()); [|vm_compute; reflexivity].
  apply (const_fold_preserves (fun x _ => x) (mk_module [sum_fn]) _ true).
  - done.
  - intros f Hf. apply list_elem_of_singleton in Hf as ->. apply sum_fn_ok.
  - vm_compute. reflexivity.
  - vm_compute. exact I.
Defined.

(** Folding one instruction is sound: when [try_fold] replaces an instruction
    under a map of canonical constants, the instruction is pure in its
    floating-point environment and, on operand values that agree with the map,
    evaluates to exactly the value of the replacement (or is undefined). *)
Theorem try_fold_sound {X W} `{!Host X W} powf `{!FoldHost X W powf} consts k ty dyn k' :
  (forall v c, consts !! v = Some c -> const_ok c) -> try_fold powf k ty consts dyn = Folded k' ->
  pure_inst dyn k /\
  exists c, payload_ok k' /\ from_inst k' = Some c /\ const_ok c /\
    forall vs x, agrees consts (inst_uses k) vs -> eval_pure k ty vs = Some x ->
      x = const_val c /\ eval_pure k' ty [] = Some x.
Proof.
  intros Hok Hf. destruct (try_fold_ok powf consts k ty dyn k' Hok Hf) as (Hp & c & [Hpk Hc] & Hev).
  split; [done|]. exists c. split; [done|]. split; [done|]. split; [by eapply from_inst_ok|].
  intros vs x Hvs Hx. rewrite (Hev vs x Hvs Hx). split; [done|]. by apply from_inst_eval.
Qed.

Lemma try_fold_sound_witness :
  pure_inst false (IDiv 0 1) /\
  exists c, payload_ok (ConstInt (-3) I8) /\ from_inst (ConstInt (-3) I8) = Some c /\ const_ok c /\
    forall vs x, agrees (X := unit) (<[0%N := CInt (-7) I8]> (<[1%N := CInt 2 I8]> ∅)) [0%N; 1%N] vs ->
      eval_pure (IDiv 0 1) (TInt I8) vs = Some x -> x = const_val c /\ eval_pure (ConstInt (-3) I8) (TInt I8) [] = Some x.
Proof.
  apply (try_fold_sound (X := unit) (fun x _ => x) (<[0%N := CInt (-7) I8]> (<[1%N := CInt 2 I8]> ∅)) (IDiv 0 1) (TInt I8) false).
  - intros v c H. apply lookup_insert_Some in H as [[_ <-]|[_ H]]; [simpl; unfold srange; lia|].
    apply lookup_insert_Some in H as [[_ <-]|[_ H]]; [simpl; unfold srange; lia|]. by rewrite lookup_empty in H.
  - vm_compute. reflexivity.
Defined.

(** The conversion fold at its boundary: a double of 2^63 passes the range
    check, whose upper bound [i64::MAX as f64] rounds up to 2^63, and is folded to
    [i64::MIN]; every admitted value below it folds to its exact truncation. *)
Theorem float_to_int_i64_edge powf consts a ty x :
  consts !! a = Some (CFloat x F64) -> f64_is_finite x = true ->
  - 2 ^ 63 <= f64_trunc_Z x <= 2 ^ 63 ->
  try_fold powf (FloatToInt a I64) ty consts false =
    Folded (ConstInt (if f64_trunc_Z x =? 2 ^ 63 then - 2 ^ 63 else f64_trunc_Z x) I64).
Proof.
  intros Ha Hfin Hr. unfold try_fold. simpl. rewrite Ha. unfold fold_float_to_int. rewrite Hfin. simpl.
  destruct (cvt_bounds I64) as (Hlo & _ & Hhi); [done|]. rewrite Hlo, (Hhi eq_refl). simpl.
  replace (f64_trunc_Z x <? - 2 ^ 63) with false by (symmetry; apply Z.ltb_ge; lia).
  replace (2 ^ 63 <? f64_trunc_Z x) with false by (symmetry; apply Z.ltb_ge; lia). simpl.
  destruct (f64_trunc_Z x =? 2 ^ 63) eqn:E; bool_props.
  - rewrite E. reflexivity.
  - assert (Hrange : srange (int_bits I64) (f64_trunc_Z x)).
    { unfold srange. change (int_bits I64 - 1) with 63. lia. }
    rewrite norm_wrapw by (by eapply const_ok_128). by rewrite wrapw_id.
Qed.

Lemma float_to_int_i64_edge_witness :
  try_fold (fun x _ => x) (FloatToInt 0 I64) (TInt I64) {[0%N := CFloat (f64_of_Z (2 ^ 63)) F64]} false =
    Folded (ConstInt (- 2 ^ 63) I64).
Proof.
  apply (float_to_int_i64_edge (fun x _ => x) {[0%N := CFloat (f64_of_Z (2 ^ 63)) F64]} 0 (TInt I64) (f64_of_Z (2 ^ 63)));
    [by rewrite lookup_singleton_eq | reflexivity | vm_compute; split; intros E; discriminate E].
Defined.

(** The inner fixpoint loop of constant folding terminates on every function,
    in SSA form or not: at most one sweep per instruction changes something. *)
Theorem const_fold_terminates powf preserve f : fold_function powf preserve f <> LFuel.
Proof. apply fold_function_total. Qed.
