(* ===== verification/ConstProp.v ===== *)
(** Constant propagation into terminators (src/src/opt/const_prop.rs): a branch or
    switch on a constant becomes an unconditional branch, and the blocks that
    lose their last path are pruned. *)

From S2P Require Import Prelude IrTypes IrInst Sample Worklist IrWalk Floats IrSem Dominators Ssa Lockstep Prune.
Local Open Scope Z_scope.

Inductive Const := CBool (b : bool) | CInt (v : Z) (w : IntWidth).

(** [i64::try_from(v).ok()] *)
Definition try_i64 (v : Z) : option Z := if in_srange 64 v then Some v else None.

(** [(v << shift) >> shift] on [i64]. *)
Definition sext64 (v bits : Z) : Z :=
  if 64 <=? bits then v
  else let shift := 64 - bits in Z.shiftr (swrap 64 (Z.shiftl v shift)) shift.

Definition from_inst (k : InstKind) : option Const :=
  match k with
  | ConstBool b => Some (CBool b)
  | ConstInt v w =>
      signed ← (if 64 <=? int_bits w then try_i64 v
                else narrow ← try_i64 v;
                     let shift := 64 - int_bits w in
                     Some (Z.shiftr (swrap 64 (Z.shiftl narrow shift)) shift));
      Some (CInt signed w)
  | _ => None
  end.

Definition collect_consts (f : Function) : gmap ValueId Const :=
  foldl (fun m b =>
    foldl (fun m i => match from_inst (inst_kind i) with Some c => <[inst_id i := c]> m | None => m end)
      m (block_insts b)) ∅ (blocks f).

(** The new terminator and whether it changed. *)
Definition simplify_terminator (t : Terminator) (consts : gmap ValueId Const) : Terminator * bool :=
  match t with
  | CondBranch cond td ta fd fa =>
      match consts !! cond with
      | Some (CBool c) => (if c then Branch td ta else Branch fd fa, true)
      | _ => (t, false)
      end
  | Switch selector cases default =>
      match consts !! selector with
      | Some (CInt sv w) =>
          let target := match list_find (fun c => sext64 c.1 (int_bits w) = sv) cases with
                        | Some (_, (_, b)) => b
                        | None => default
                        end in
          (Branch target [], true)
      | _ => (t, false)
      end
  | other => (other, false)
  end.

Definition simplify_block (consts : gmap ValueId Const) (b : BasicBlock) : BasicBlock * bool :=
  match block_term b with
  | None => (b, false)
  | Some t => let '(t', ch) := simplify_terminator t consts in (set_term b (Some t'), ch)
  end.

(** One function of [ConstProp::run]; [None] is the panic of
    [rebuild_block_positions]. *)
Definition const_prop_function (f : Function) : option (Function * bool) :=
  let consts := collect_consts f in
  let rs := simplify_block consts <$> blocks f in
  let f1 := set_blocks f rs.*1 in
  if existsb (fun r => r.2) rs then '(f2, _) ← prune_unreachable f1; Some (f2, true)
  else Some (f1, false).

(** [ConstProp::run]. *)
Definition const_prop (m : Module_) : option (Module_ * bool) :=
  rs ← mapM const_prop_function (functions m);
  Some (set_functions m rs.*1, existsb (fun r => r.2) rs).

(** * The propagated constants *)

(** Case keys are Rust [i64]s. *)
Definition keys_ok (t : Terminator) : Prop :=
  match t with Switch _ cases _ => Forall (fun c => srange 64 c.1) cases | _ => True end.

Lemma sext64_wrapw v w : srange 64 v -> sext64 v (int_bits w) = wrapw w v.
Proof.
  intros Hv. pose proof (int_bits_bounds w). unfold sext64. destruct (64 <=? int_bits w) eqn:E; bool_props.
  - symmetry. apply wrapw_id. apply (srange_mono 64); [lia | done].
  - apply (shl_shr_swrap 64). lia.
Qed.

Definition const_val {X} (c : Const) : val X := match c with CBool b => VBool b | CInt z w => VInt w z end.

Lemma from_inst_value {X W} `{!Host X W} k c ty :
  from_inst k = Some c ->
  inst_uses k = [] /\ class_of k = KPure /\ touches_fpenv k = false /\ eval_pure k ty [] = Some (const_val c).
Proof.
  destruct k; try done; simpl.
  - intros H. split; [done|]. split; [done|]. split; [done|]. unfold eval_pure. simpl. f_equal. unfold try_i64 in H.
    destruct (in_srange 64 v) eqn:Er; [apply in_srange_spec in Er | destruct (64 <=? int_bits w); done].
    pose proof (sext64_wrapw v w Er) as E. unfold sext64 in E.
    destruct (64 <=? int_bits w); simpl in H; simplify_eq; simpl; by rewrite <- E.
  - intros [= <-]. done.
Qed.

Lemma collect_consts_spec f v c :
  collect_consts f !! v = Some c ->
  exists b i, b ∈ blocks f /\ i ∈ block_insts b /\ inst_id i = v /\ from_inst (inst_kind i) = Some c.
Proof.
  intros H. apply (collect_insts_spec (fun i => from_inst (inst_kind i))) in H as [H|H]; [by rewrite lookup_empty in H | done].
Qed.

Section correct.
Context {X W : Type} `{!Host X W}.
Context (f : Function) (Hnd : NoDup (fn_def_ids f)).
Context (Hkeys : forall b t, b ∈ blocks f -> block_term b = Some t -> keys_ok t).
Notation env := (gmap ValueId (val X)).

Lemma collected_value dyn (call : call_sem X W) b i (ρ : env) w v c x :
visits f dyn call b i ρ w -> collect_consts f !! v = Some c -> ρ !! v = Some x -> x = const_val c.
Proof.
intros Hv Hc Hx. apply collect_consts_spec in Hc as (b0 & ins & Hb0 & Hin & <- & Hf).
destruct (from_inst_value _ _ (inst_ty ins) Hf) as (Hu & Hcl & Ht & He).
eapply (visits_nullary f Hnd dyn call b0 ins); [done | done | | done | done | exact Hv | done].
split; [done|]. rewrite Ht. apply andb_false_r.
Qed.

(** The simplified terminator leads where the original does. *)
Lemma simplify_terminator_exec t (ρ : env) :
keys_ok t -> (forall v c x, collect_consts f !! v = Some c -> ρ !! v = Some x -> x = const_val c) ->
exec_term (Some t) ρ <> TStuck ->
exec_term (Some (simplify_terminator t (collect_consts f)).1) ρ = exec_term (Some t) ρ.
Proof.
intros Hk Hc Hok. destruct t as [| |cond td ta fd fa|s cases d|]; try done; simpl in *.
- destruct (collect_consts f !! cond) as [[b|]|] eqn:E; try done.
destruct (ρ !! cond) as [x|] eqn:Ex; [|done]. rewrite (Hc _ _ _ E Ex). by destruct b.
- destruct (collect_consts f !! s) as [[|sv w]|] eqn:E; try done.
destruct (ρ !! s) as [x|] eqn:Ex; [|done]. rewrite (Hc _ _ _ E Ex). simpl. unfold jump. simpl. f_equal.
rewrite (list_find_ext_in (fun c => sext64 c.1 (int_bits w) = sv) (fun c => wrapw w c.1 = sv)); [done|].
eapply Forall_impl; [exact Hk|]. intros c Hr. by rewrite sext64_wrapw.
Qed.

Definition simplified : Function := map_blocks (fun b => (simplify_block (collect_consts f) b).1) f.

Lemma simplify_block_frame b :
let b' := (simplify_block (collect_consts f) b).1 in
block_id b' = block_id b /\ block_params b' = block_params b /\ block_insts b' = block_insts b /\
block_term b' = (fun t => (simplify_terminator t (collect_consts f)).1) <$> block_term b.
Proof.
unfold simplify_block. destruct (block_term b) as [t|] eqn:E; simpl; [|by rewrite E].
by destruct (simplify_terminator t (collect_consts f)).
Qed.

Lemma simplified_refines dyn (call call' : call_sem X W) fuel args w :
refines_call true call call' ->
refines true (enter_function dyn call fuel f args w) (enter_function dyn call' fuel simplified args w).
Proof.
intros Hcall.
apply (lockstep_refines true dyn call call' f simplified
(fun b b' => b' = (simplify_block (collect_consts f) b).1)); [done | done | | |].
- apply Forall2_fmap_r, Forall_Forall2_diag, Forall_forall. intros b _. split; [|done].
destruct (simplify_block_frame b) as (H1 & H2 & H3 & _). split; [done|]. split; [done|]. by rewrite H3.
- intros b b' i ins ins' ρ w' _ -> _ Hi Hi' Hok.
destruct (simplify_block_frame b) as (_ & _ & H3 & _). rewrite H3 in Hi'. simplify_eq.
by apply (exec_inst_refines true).
- intros b b' ρ w' Hb -> Hv Hok. destruct (simplify_block_frame b) as (_ & _ & _ & ->).
destruct (block_term b) as [t|] eqn:Et; [|done]. simpl.
apply simplify_terminator_exec; [by eapply Hkeys | | done].
intros v c x Hc Hx. by eapply collected_value.
Qed.

Lemma const_prop_function_refines f' ch dyn (call call' : call_sem X W) fuel args w :
block_index_ok f -> counters_ok f -> const_prop_function f = Some (f', ch) -> refines_call true call call' ->
refines true (enter_function dyn call fuel f args w) (enter_function dyn call' fuel f' args w).
Proof.
intros Hok Hc. unfold const_prop_function.
rewrite <- list_fmap_compose. change (set_blocks f _) with simplified.
intros H Hcall. etrans; [by apply simplified_refines|].
destruct (existsb _ _); [|by simplify_eq].
assert (Hok' : block_index_ok simplified) by (apply map_blocks_index; [|done]; intros b; apply simplify_block_frame).
destruct (prune_unreachable_total simplified Hok' Hc) as (f2 & ch2 & Hp & Hbs & _ & He & Hps & _).
rewrite Hp in H. simpl in H. simplify_eq. by apply kept_blocks_refines.
Qed.
End correct.

(** * Properties *)

Definition const_prop_ready (f : Function) : Prop :=
  NoDup (fn_def_ids f) /\ block_index_ok f /\ counters_ok f /\
  forall b t, b ∈ blocks f -> block_term b = Some t -> keys_ok t.

(** Constant propagation preserves behaviour: replacing branches and switches
    on known constants by unconditional branches, and dropping the blocks that
    become unreachable, leaves every run of every procedure unchanged. *)
Theorem const_prop_preserves {X W} `{!Host X W} m m' changed (dyn : nat -> bool) :
  (forall f, f ∈ functions m -> const_prop_ready f) -> const_prop m = Some (m', changed) ->
  forall fuel idx args (w : W),
    refines true (run_func dyn fuel (functions m) idx args w) (run_func dyn fuel (functions m') idx args w).
Proof.
  intros Hfs. unfold const_prop. intros H. destruct (mapM _ _) as [rs|] eqn:E; simpl in H; [|done]. simplify_eq.
  apply (run_func_mapM true const_prop_function dyn _ _ E).
  intros n f f' ch Hn Hf call call' fuel args w Hcall.
  destruct (Hfs f ltac:(by eapply list_elem_of_lookup_2)) as (Hnd & Hok & Hc & Hk).
  exact (const_prop_function_refines f Hnd Hk _ _ (dyn n) call call' fuel args w Hok Hc Hf Hcall).
Qed.

#[local] Existing Instance unit_host.

(** [if (.true.) then 7 else 8], with the untaken arm reachable only there. *)
Definition cond_fn : Function :=
  mk_fn "cond" [] i32
    [mk_block 0 "entry" [] [mk_inst 0 (ConstBool true) TBool] (CondBranch 0 1 [] 2 []);
     mk_block 1 "then" [] [mk_inst 1 (ConstInt 7 I32) i32] (Return (Some 1%N));
     mk_block 2 "else" [] [mk_inst 2 (ConstInt 8 I32) i32] (Return (Some 2%N))] 3.

Lemma cond_fn_ready : const_prop_ready cond_fn.
Proof.
  split; [apply (bool_decide_unpack (NoDup (fn_def_ids cond_fn))); vm_compute; exact I|].
  split; [apply index_okb_sound; vm_compute; reflexivity|].
  split; [vm_compute; intros E; discriminate E|]. intros b t Hb Ht.
  repeat (apply elem_of_cons in Hb as [->|Hb]; [injection Ht as <-; exact I|]). by apply not_elem_of_nil in Hb.
Qed.

Lemma const_prop_preserves_witness :
  exists m', const_prop (mk_module [cond_fn]) = Some (m', true) /\
    run_func (X := unit) (fun _ => false) 2 (functions m') 0 [] () = RRet (Some (VInt I32 7)) ().
Proof.
  eexists. split; [vm_compute; reflexivity|].
  transitivity (run_func (X := unit) (fun _ => false) 2 [cond_fn] 0 [] ()); [|vm_compute; reflexivity].
  apply (const_prop_preserves (mk_module [cond_fn]) _ true).
  - intros f Hf. apply list_elem_of_singleton in Hf as ->. apply cond_fn_ready.
  - vm_compute. reflexivity.
  - vm_compute. exact I.
Defined.

(** Constant propagation never panics on indexed functions, and its result
    keeps a valid block index. *)
Theorem const_prop_total f :
  block_index_ok f -> counters_ok f ->
  exists f' changed, const_prop_function f = Some (f', changed) /\ block_index_ok f'.
Proof.
  intros Hok Hc. unfold const_prop_function. rewrite <- list_fmap_compose.
  change (set_blocks f _) with (simplified f).
  assert (Hok' : block_index_ok (simplified f)) by (apply map_blocks_index; [|done]; intros b; apply simplify_block_frame).
  destruct (existsb _ _); [|eauto].
  destruct (prune_unreachable_total (simplified f) Hok' Hc) as (f2 & ch2 & -> & _ & Hok2 & _). simpl. eauto.
Qed.

Lemma const_prop_total_witness :
  exists f' changed, const_prop_function cond_fn = Some (f', changed) /\ block_index_ok f'.
Proof. apply const_prop_total; apply cond_fn_ready. Defined.
