(* ===== verification/StrengthReduce.v ===== *)
(** Strength reduction (src/src/opt/strength_reduce.rs): multiplications by powers
    of two become shifts, algebraic identities redirect the uses of a value to
    one of its operands. *)

From S2P Require Import Prelude IrTypes IrInst Sample Worklist IrWalk Floats IrSem Dominators Ssa IrVerify Lockstep Rename.
Local Open Scope Z_scope.

(** * The pass *)

(** [i64::try_from(v).ok()] *)
Definition try_i64 (v : Z) : option Z := if in_srange 64 v then Some v else None.

(** [(v << shift) >> shift] on [i64]. *)
Definition sext (v bits : Z) : Z :=
  if 64 <=? bits then v
  else let shift := 64 - bits in Z.shiftr (swrap 64 (Z.shiftl v shift)) shift.

Definition int_const (k : InstKind) : option (Z * IntWidth) :=
  match k with
  | ConstInt v w => v' ← try_i64 v; Some (sext v' (int_bits w), w)
  | _ => None
  end.

Definition collect_int_consts (f : Function) : gmap ValueId (Z * IntWidth) :=
  foldl (fun m b =>
    foldl (fun m i => match int_const (inst_kind i) with Some c => <[inst_id i := c]> m | None => m end)
      m (block_insts b)) ∅ (blocks f).

(** [u64::is_power_of_two] counts the one bits; [u64::trailing_zeros] is [ctz]. *)
Definition pow2_exponent (v : Z) : option Z :=
  if v <=? 0 then None
  else if (popcount v =? 1) && negb (v =? 1) then Some (ctz 64 v) else None.

Inductive Rewrite :=
| KindOnly (k : InstKind)
| Identity (pass_through : ValueId)
| ShlByConst (var : ValueId) (k : Z).

Section rewrite_for.
Context (consts : gmap ValueId (Z * IntWidth)).

(** The value of [const_int(consts, id)], if any. *)
Definition const_int (id : ValueId) : option Z := fst <$> consts !! id.

(** The [imul] arm: the second operand is tried as the constant first. *)
Definition rewrite_mul (int_w : IntWidth) (a b : ValueId) : option Rewrite :=
'(var_id, kv) ← match const_int b with
  | Some kv => Some (a, kv)
  | None => match const_int a with Some kv => Some (b, kv) | None => None end
  end;
if kv =? 0 then Some (KindOnly (ConstInt 0 int_w))
else if kv =? 1 then Some (Identity var_id)
else if kv =? -1 then Some (KindOnly (INeg var_id))
else k ← pow2_exponent kv; Some (ShlByConst var_id k).

(** The arms of [bit_and] and [bit_or], for one constant operand. *)
Definition rewrite_and (int_w : IntWidth) (kv : option Z) (other : ValueId) : option Rewrite :=
match kv with
| Some kv =>
if kv =? 0 then Some (KindOnly (ConstInt 0 int_w))
else if kv =? -1 then Some (Identity other) else None
| None => None
end.

Definition rewrite_or (int_w : IntWidth) (kv : option Z) (other : ValueId) : option Rewrite :=
match kv with
| Some kv =>
if kv =? 0 then Some (Identity other)
else if kv =? -1 then Some (KindOnly (ConstInt (-1) int_w)) else None
| None => None
end.

Definition or_else {A} (x y : option A) : option A := match x with Some _ => x | None => y end.

Definition is_const (v : ValueId) (z : Z) : bool := bool_decide (const_int v = Some z).

Definition rewrite_for (inst : Inst) : option Rewrite :=
match inst_ty inst with
| TInt int_w =>
match inst_kind inst with
| IMul a b => rewrite_mul int_w a b
| IAdd a b | BitXor a b =>
if is_const b 0 then Some (Identity a)
else if is_const a 0 then Some (Identity b) else None
| ISub a b =>
if is_const b 0 then Some (Identity a)
else if is_const a 0 then Some (KindOnly (INeg b)) else None
| IDiv a b =>
if is_const b 1 then Some (Identity a)
else if is_const b (-1) then Some (KindOnly (INeg a)) else None
| BitAnd a b => or_else (rewrite_and int_w (const_int b) a) (rewrite_and int_w (const_int a) b)
| BitOr a b => or_else (rewrite_or int_w (const_int b) a) (rewrite_or int_w (const_int a) b)
| Shl a b | LShr a b | AShr a b => if is_const b 0 then Some (Identity a) else None
| _ => None
end
| _ => None
end.
End rewrite_for.

(** One entry of [rewrites]: block index, instruction index, directive, value and
    type. *)
Definition entry_t : Type := nat * nat * Rewrite * ValueId * IrType.

(** The collecting walk. *)
Definition block_rewrites (consts : gmap ValueId (Z * IntWidth)) (bi : nat) (b : BasicBlock) : list entry_t :=
  mjoin (imap (fun ii i => match rewrite_for consts i with
                           | Some rw => [(bi, ii, rw, inst_id i, inst_ty i)]
                           | None => []
                           end) (block_insts b)).

Definition collect_rewrites (consts : gmap ValueId (Z * IntWidth)) (f : Function) : list entry_t :=
  mjoin (imap (block_rewrites consts) (blocks f)).

(** [func.blocks[bi].insts] replaced; [None] is an out-of-range index. *)
Definition with_insts (f : Function) (bi : nat) (g : list Inst -> option (list Inst)) : option Function :=
  b ← blocks f !! bi;
  il ← g (block_insts b);
  Some (set_blocks f (<[bi := set_insts b il]> (blocks f))).

(** [insts[ii].kind = k] *)
Definition set_kind_at (ii : nat) (k : InstKind) (il : list Inst) : option (list Inst) :=
  i ← il !! ii; Some (<[ii := set_kind i k]> il).

(** [insts.insert(ii, ConstInt(k) : kid)], then [insts[ii + 1].kind = Shl(var, kid)]. *)
Definition insert_shl (ii : nat) (var kid : ValueId) (k : Z) (w : IntWidth) (il : list Inst) : option (list Inst) :=
  i ← il !! ii;
  let c := {| inst_id := kid; inst_kind := ConstInt k w; inst_ty := TInt w; inst_span := inst_span i |} in
  set_kind_at (S ii) (Shl var kid) (take ii il ++ c :: drop ii il).

(** One iteration of the applying loop; the state is the function and
    [identity_rewrites].  [None] is a panic. *)
Definition apply_rewrite (st : Function * gmap ValueId ValueId) (e : entry_t)
    : option (Function * gmap ValueId ValueId) :=
  let '(f, ids) := st in
  let '(bi, ii, rw, old_id, ty) := e in
  match rw with
  | ShlByConst var k =>
      match ty with
      | TInt int_w =>
          let '(kid, f1) := next_value_id f in
          f2 ← with_insts f1 bi (insert_shl ii var kid k int_w); Some (f2, ids)
      | _ => None
      end
  | KindOnly new_kind => f1 ← with_insts f bi (set_kind_at ii new_kind); Some (f1, ids)
  | Identity pass_through => Some (f, <[old_id := pass_through]> ids)
  end.

Fixpoint apply_rewrites (st : Function * gmap ValueId ValueId) (l : list entry_t)
    : option (Function * gmap ValueId ValueId) :=
  match l with
  | [] => Some st
  | e :: l => st' ← apply_rewrite st e; apply_rewrites st' l
  end.

(** The [while let] loop that chases a chain, with its visited set; [None] is
    exhausted fuel. *)
Fixpoint chase (fuel : nat) (ids : gmap ValueId ValueId) (visited : gset ValueId) (cur : ValueId) : option ValueId :=
  match fuel with
  | O => None
  | S fuel =>
      match ids !! cur with
      | None => Some cur
      | Some next => if decide (next ∈ visited) then Some cur else chase fuel ids ({[next]} ∪ visited) next
      end
  end.

(** The loop over the keys, each entry replaced by the end of its chain. *)
Fixpoint chase_all (keys : list ValueId) (ids : gmap ValueId ValueId) : option (gmap ValueId ValueId) :=
  match keys with
  | [] => Some ids
  | k :: keys =>
      start ← ids !! k;
      cur ← chase (S (size ids)) ids {[k]} start;
      chase_all keys (<[k := cur]> ids)
  end.

Section run.
(** The iteration order of [identity_rewrites.keys()], which a hash map leaves
open. *)
Context (key_order : gmap ValueId ValueId -> list ValueId).

(** One function of [StrengthReduce::run].  The entries are collected in
strictly ascending [(bi, ii)] order, so the descending sort is a reversal. *)
Definition reduce_function (f : Function) : option (Function * bool) :=
let consts := collect_int_consts f in
let rewrites := collect_rewrites consts f in
match rewrites with
| [] => Some (f, false)
| _ =>
'(f1, ids) ← apply_rewrites (f, ∅) (reverse rewrites);
if decide (ids = ∅) then Some (f1, true)
else ids' ← chase_all (key_order ids) ids; Some (substitute_uses_batch f1 ids', true)
end.

(** [StrengthReduce::run]. *)
Definition strength_reduce (m : Module_) : option (Module_ * bool) :=
rs ← mapM reduce_function (functions m);
Some (set_functions m rs.*1, existsb (fun r => r.2) rs).
End run.

(** * What the applying loop builds *)

Section applied.
Context (consts : gmap ValueId (Z * IntWidth)).

(** The instructions that replace one instruction; identifiers from [lo] on are
fresh. *)
Definition chunk_of (lo : ValueId) (i : Inst) (c : list Inst) : Prop :=
match rewrite_for consts i with
| None | Some (Identity _) => c = [i]
| Some (KindOnly k) => c = [set_kind i k]
| Some (ShlByConst var k) => exists kid w, inst_ty i = TInt w /\ (lo <= kid)%N /\
c = [{| inst_id := kid; inst_kind := ConstInt k w; inst_ty := TInt w; inst_span := inst_span i |};
set_kind i (Shl var kid)]
end.

Definition inst_entries (bi ii : nat) (i : Inst) : list entry_t :=
match rewrite_for consts i with Some rw => [(bi, ii, rw, inst_id i, inst_ty i)] | None => [] end.

(** [f] with other blocks and value counter. *)
Definition updated (f : Function) (n : N) (bs : list BasicBlock) : Function := set_blocks (set_next_value f n) bs.

Lemma updated_same f : updated f (next_value f) (blocks f) = f.
Proof. by destruct f. Qed.

(** New identity entries come from instructions of [il]. *)
Definition ids_from (il : list Inst) (ids ids' : gmap ValueId ValueId) : Prop :=
forall v u, ids' !! v = Some u -> ids !! v = Some u \/
exists i, i ∈ il /\ inst_id i = v /\ rewrite_for consts i = Some (Identity u).

Definition counter_ok (n n' : N) (entries : list entry_t) : Prop := (n <= n' <= n + N.of_nat (length entries))%N.

Lemma rewrite_for_int i rw : rewrite_for consts i = Some rw -> exists w, inst_ty i = TInt w.
Proof. unfold rewrite_for. destruct (inst_ty i); try done. eauto. Qed.

Lemma with_insts_eq f bi b pre i tail g il :
blocks f !! bi = Some b -> block_insts b = pre ++ i :: tail -> g (pre ++ i :: tail) = Some il ->
with_insts f bi g = Some (set_blocks f (<[bi := set_insts b il]> (blocks f))).
Proof. intros Hb Hi Hg. unfold with_insts. rewrite Hb. cbn [mbind option_bind]. rewrite Hi, Hg. done. Qed.

Lemma set_kind_at_mid pre i tail k : set_kind_at (length pre) k (pre ++ i :: tail) = Some (pre ++ set_kind i k :: tail).
Proof.
unfold set_kind_at. rewrite list_lookup_middle by done. cbn [mbind option_bind].
by rewrite <- (Nat.add_0_r (length pre)), insert_app_r.
Qed.

(** One entry, at the end of the part of the block still to be processed. *)
Lemma inst_applied lo f ids bi b pre i tail :
(lo <= next_value f)%N -> (next_value f < u32_max)%N ->
blocks f !! bi = Some b -> block_insts b = pre ++ i :: tail ->
exists c n' ids',
apply_rewrites (f, ids) (inst_entries bi (length pre) i) =
Some (updated f n' (<[bi := set_insts b (pre ++ c ++ tail)]> (blocks f)), ids') /\
chunk_of lo i c /\ ids_from [i] ids ids' /\ counter_ok (next_value f) n' (inst_entries bi (length pre) i).
Proof.
intros Hlo Hmax Hb Hi. unfold inst_entries, chunk_of.
assert (Hsame : set_blocks f (<[bi := set_insts b (pre ++ [i] ++ tail)]> (blocks f)) = f).
{ rewrite list_insert_id; [by destruct f|]. rewrite Hb. f_equal. destruct b; simpl in *. by rewrite Hi. }
destruct (rewrite_for consts i) as [[k|u|var k]|] eqn:E; cbn [apply_rewrites apply_rewrite length].
- rewrite (with_insts_eq f bi b pre i tail _ _ Hb Hi (set_kind_at_mid pre i tail k)). cbn [mbind option_bind].
exists [set_kind i k], (next_value f), ids. split; [by destruct f|]. split; [done|].
split; [by left | unfold counter_ok; lia].
- exists [i], (next_value f), (<[inst_id i := u]> ids). split; [by rewrite <- Hsame at 1; destruct f|].
split; [done|]. split; [|unfold counter_ok; lia].
intros v x Hx. apply lookup_insert_Some in Hx as [[<- <-]|[_ Hx]]; [|by left].
right. exists i. split; [by left | done].
- destruct (rewrite_for_int i _ E) as [w Hw]. rewrite Hw. unfold next_value_id.
rewrite (with_insts_eq (set_next_value f _) bi b pre i tail _
(pre ++ [{| inst_id := next_value f; inst_kind := ConstInt k w; inst_ty := TInt w; inst_span := inst_span i |};
set_kind i (Shl var (next_value f))] ++ tail) Hb Hi).
+ cbn [mbind option_bind]. eexists _, _, ids. split; [reflexivity|].
split; [exists (next_value f), w; done|]. split; [by left|].
unfold counter_ok, wrap_u32, u32_max in *. rewrite N.mod_small by lia. simpl. lia.
+ unfold insert_shl. rewrite list_lookup_middle by done. cbn [mbind option_bind].
rewrite take_app_length, drop_app_length.
set (c := {| inst_id := next_value f |}). change (c :: i :: tail) with ([c] ++ i :: tail).
rewrite app_assoc. replace (S (length pre)) with (length (pre ++ [c])) by (rewrite length_app; simpl; lia).
rewrite set_kind_at_mid. by rewrite <- app_assoc.
- exists [i], (next_value f), ids. split; [by rewrite <- Hsame at 1; destruct f|]. split; [done|].
split; [by left | unfold counter_ok; lia].
Qed.

Lemma apply_rewrites_app st l1 l2 : apply_rewrites st (l1 ++ l2) = apply_rewrites st l1 ≫= fun st' => apply_rewrites st' l2.
Proof.
revert st. induction l1 as [|e l1 IH]; intros st; [done|]. cbn [app apply_rewrites].
destruct (apply_rewrite st e) as [st'|]; cbn [mbind option_bind]; [apply IH | done].
Qed.

Definition list_entries (bi : nat) (il : list Inst) : list entry_t := mjoin (imap (inst_entries bi) il).

Lemma block_rewrites_entries bi b : block_rewrites consts bi b = list_entries bi (block_insts b).
Proof. done. Qed.

Lemma list_entries_snoc bi il i :
list_entries bi (il ++ [i]) = list_entries bi il ++ inst_entries bi (length il) i.
Proof.
unfold list_entries. rewrite imap_app, join_app. f_equal. cbn [imap mjoin list_join].
by rewrite app_nil_r, Nat.add_0_r.
Qed.

Lemma reverse_entry bi ii i : reverse (inst_entries bi ii i) = inst_entries bi ii i.
Proof. unfold inst_entries. by destruct (rewrite_for consts i). Qed.

Lemma ids_from_trans il1 il2 ids1 ids2 ids3 :
ids_from il2 ids1 ids2 -> ids_from il1 ids2 ids3 -> ids_from (il1 ++ il2) ids1 ids3.
Proof.
intros H1 H2 v u Hv. destruct (H2 v u Hv) as [Hv2|(i & Hi & H)].
- destruct (H1 v u Hv2) as [Hv1|(i & Hi & H)]; [by left|]. right. exists i. split; [apply elem_of_app; by right | done].
- right. exists i. split; [apply elem_of_app; by left | done].
Qed.

(** The entries of the instructions [pre] of one block, last first. *)
Lemma insts_applied lo bi pre f ids b tail :
(lo <= next_value f)%N -> (next_value f + N.of_nat (length (list_entries bi pre)) < u32_max)%N ->
blocks f !! bi = Some b -> block_insts b = pre ++ tail ->
exists cs n' ids',
apply_rewrites (f, ids) (reverse (list_entries bi pre)) =
Some (updated f n' (<[bi := set_insts b (mjoin cs ++ tail)]> (blocks f)), ids') /\
Forall2 (chunk_of lo) pre cs /\ ids_from pre ids ids' /\ counter_ok (next_value f) n' (list_entries bi pre).
Proof.
revert f ids b tail. induction pre as [|i pre IH] using rev_ind; intros f ids b tail Hlo Hmax Hb Hi.
{ exists [], (next_value f), ids. split; [|split; [constructor | split; [by left | unfold counter_ok; lia]]].
simpl in *. f_equal. f_equal. rewrite list_insert_id; [by rewrite updated_same|].
rewrite Hb. f_equal. destruct b; simpl in *. by rewrite Hi. }
rewrite <- app_assoc in Hi. simpl in Hi.
rewrite list_entries_snoc, length_app in Hmax. rewrite list_entries_snoc, reverse_app, reverse_entry, apply_rewrites_app.
destruct (inst_applied lo f ids bi b pre i tail Hlo ltac:(lia) Hb Hi) as (c & n1 & ids1 & -> & Hc & Hids & Hn).
cbn [mbind option_bind]. unfold counter_ok in Hn.
destruct (IH (updated f n1 (<[bi := set_insts b (pre ++ c ++ tail)]> (blocks f))) ids1 (set_insts b (pre ++ c ++ tail)) (c ++ tail))
as (cs & n2 & ids2 & -> & Hcs & Hids2 & Hn2).
- simpl. lia.
- simpl. lia.
- simpl. apply list_lookup_insert_eq. by eapply lookup_lt_Some.
- done.
- exists (cs ++ [c]), n2, ids2. split; [|split; [|split]].
+ f_equal. f_equal. unfold updated. simpl. rewrite list_insert_insert_eq, join_app.
cbn [mjoin list_join]. rewrite app_nil_r, <- app_assoc. by destruct f.
+ apply Forall2_app; [done | by constructor].
+ by eapply ids_from_trans.
+ unfold counter_ok in *. rewrite length_app. simpl in Hn2. lia.
Qed.

(** A block whose instructions became chunks. *)
Definition expanded (lo : ValueId) (b b' : BasicBlock) : Prop :=
exists cs, b' = set_insts b (mjoin cs) /\ Forall2 (chunk_of lo) (block_insts b) cs.

Definition fn_entries (bs : list BasicBlock) : list entry_t := mjoin (imap (block_rewrites consts) bs).

Lemma fn_entries_snoc bs b : fn_entries (bs ++ [b]) = fn_entries bs ++ list_entries (length bs) (block_insts b).
Proof.
unfold fn_entries. rewrite imap_app, join_app. f_equal. cbn [imap mjoin list_join].
by rewrite app_nil_r, Nat.add_0_r.
Qed.

(** The whole loop. *)
Lemma blocks_applied lo pre f ids post :
(lo <= next_value f)%N -> (next_value f + N.of_nat (length (fn_entries pre)) < u32_max)%N ->
blocks f = pre ++ post ->
exists bs n' ids',
apply_rewrites (f, ids) (reverse (fn_entries pre)) = Some (updated f n' (bs ++ post), ids') /\
Forall2 (expanded lo) pre bs /\ ids_from (pre ≫= block_insts) ids ids' /\
counter_ok (next_value f) n' (fn_entries pre).
Proof.
revert f ids post. induction pre as [|b pre IH] using rev_ind; intros f ids post Hlo Hmax Hf.
{ exists [], (next_value f), ids. split; [|split; [constructor | split; [by left | unfold counter_ok; lia]]].
simpl in *. by rewrite <- Hf, updated_same. }
rewrite <- app_assoc in Hf. simpl in Hf. rewrite fn_entries_snoc, length_app in Hmax.
rewrite fn_entries_snoc, reverse_app, apply_rewrites_app.
destruct (insts_applied lo (length pre) (block_insts b) f ids b []) as (cs & n1 & ids1 & -> & Hcs & Hids & Hn).
{ done. } { lia. } { rewrite Hf. by apply list_lookup_middle. } { by rewrite app_nil_r. }
cbn [mbind option_bind]. rewrite app_nil_r. unfold counter_ok in Hn.
assert (Hbs : <[length pre := set_insts b (mjoin cs)]> (blocks f) = pre ++ set_insts b (mjoin cs) :: post).
{ rewrite Hf. by rewrite <- (Nat.add_0_r (length pre)), insert_app_r. }
rewrite Hbs.
destruct (IH (updated f n1 (pre ++ set_insts b (mjoin cs) :: post)) ids1 (set_insts b (mjoin cs) :: post))
as (bs & n2 & ids2 & -> & Hbs2 & Hids2 & Hn2); [simpl; lia | simpl; lia | done |].
exists (bs ++ [set_insts b (mjoin cs)]), n2, ids2. split; [|split; [|split]].
- rewrite <- app_assoc. by destruct f.
- apply Forall2_app; [done|]. constructor; [by exists cs | constructor].
- rewrite bind_app. cbn [mbind list_bind]. rewrite app_nil_r. by eapply ids_from_trans.
- unfold counter_ok in *. rewrite length_app. simpl in Hn2. lia.
Qed.
End applied.

(** * Chains of identities *)

Section chains.
Context (P : ValueId -> ValueId -> Prop).

(** Every entry relates its key to a value of its chain. *)
Definition chained (ids : gmap ValueId ValueId) : Prop := forall v u, ids !! v = Some u -> rtc P v u.

Lemma chase_chained fuel ids visited cur u :
chained ids -> chase fuel ids visited cur = Some u -> rtc P cur u.
Proof.
intros Hids. revert visited cur. induction fuel as [|fuel IH]; intros visited cur H; simpl in H; [done|].
destruct (ids !! cur) as [next|] eqn:E; [|simplify_eq; apply rtc_refl].
case_decide; [simplify_eq; apply rtc_refl|]. etrans; [by apply Hids | by eapply IH].
Qed.

Lemma chase_all_chained keys ids ids' : chained ids -> chase_all keys ids = Some ids' -> chained ids'.
Proof.
revert ids. induction keys as [|k keys IH]; intros ids Hids H; cbn [chase_all] in H; [by simplify_eq|].
destruct (ids !! k) as [start|] eqn:E; cbn [mbind option_bind] in H; [|done].
destruct (chase (S (size ids)) ids {[k]} start) as [cur|] eqn:Ec; cbn [mbind option_bind] in H; [|done].
apply (IH (<[k := cur]> ids)); [|done]. intros v u Hv. apply lookup_insert_Some in Hv as [[<- <-]|[_ Hv]]; [|by apply Hids].
etrans; [by apply Hids|]. eapply chase_chained; [exact Hids|]. exact Ec.
Qed.
End chains.

(** The visited guard ends every chase, cyclic maps included. *)
Lemma chase_total fuel ids visited cur :
  (size (map_img (SA := gset ValueId) ids ∖ visited) < fuel)%nat -> is_Some (chase fuel ids visited cur).
Proof.
  revert visited cur. induction fuel as [|fuel IH]; intros visited cur Hf; [lia|]. simpl.
  destruct (ids !! cur) as [next|] eqn:E; [|eauto]. case_decide as Hn; [eauto|].
  apply IH. apply Nat.lt_le_trans with (size (map_img (SA := gset ValueId) ids ∖ visited)); [|lia].
  apply subset_size. pose proof (elem_of_map_img_2 (SA := gset ValueId) ids cur next E). set_solver.
Qed.

Lemma map_img_size (ids : gmap ValueId ValueId) : (size (map_img (SA := gset ValueId) ids) <= size ids)%nat.
Proof.
  induction ids as [|k v m Hk IH] using map_ind; [by rewrite map_img_empty, size_empty|].
  rewrite map_img_insert_notin_L, map_size_insert_None, size_union_alt, size_singleton by done.
  pose proof (subseteq_size (map_img (SA := gset ValueId) m ∖ {[v]}) (map_img m) ltac:(set_solver)). lia.
Qed.

Lemma chase_all_total keys ids : (forall k, k ∈ keys -> is_Some (ids !! k)) -> is_Some (chase_all keys ids).
Proof.
  revert ids. induction keys as [|k keys IH]; intros ids Hk; [eauto|]. cbn [chase_all].
  destruct (Hk k ltac:(left)) as [start ->]. cbn [mbind option_bind].
  destruct (chase_total (S (size ids)) ids {[k]} start) as [cur ->].
  { pose proof (map_img_size ids).
    pose proof (subseteq_size (map_img (SA := gset ValueId) ids ∖ {[k]}) (map_img ids) ltac:(set_solver)). lia. }
  cbn [mbind option_bind]. apply IH. intros v Hv. destruct (decide (v = k)) as [->|].
  - rewrite lookup_insert_eq. eauto.
  - rewrite lookup_insert_ne by done. apply Hk. by right.
Qed.

(** * The algebra *)

Lemma popcount_ctz p : popcount_pos p = 1 -> Zpos p = 2 ^ ctz_pos p /\ 0 <= ctz_pos p.
Proof.
  induction p as [p IH|p IH|]; simpl; intros H.
  - assert (Hpos : forall q, 0 < popcount_pos q) by (clear; induction q; simpl; lia). specialize (Hpos p). lia.
  - destruct (IH H) as [E ?]. split; [|lia]. rewrite Z.pow_add_r, <- E by lia. lia.
  - done.
Qed.

Lemma pow2_exponent_spec v k : pow2_exponent v = Some k -> v = 2 ^ k /\ 0 <= k.
Proof.
  unfold pow2_exponent. destruct (v <=? 0) eqn:E; [done|]. destruct ((popcount v =? 1) && _) eqn:E2; [|done].
  intros [= <-]. bool_props. destruct v as [|p|p]; [lia | | lia]. simpl in *. by apply popcount_ctz.
Qed.

Lemma sext_wrapw v w : srange 64 v -> sext v (int_bits w) = wrapw w v.
Proof.
  intros Hv. pose proof (int_bits_bounds w). unfold sext. destruct (64 <=? int_bits w) eqn:E; bool_props.
  - symmetry. apply wrapw_id. apply (srange_mono 64); [lia | done].
  - apply (shl_shr_swrap 64). lia.
Qed.

Lemma int_const_eval {X W} `{!Host X W} k ty z w :
  int_const k = Some (z, w) ->
  inst_uses k = [] /\ class_of k = KPure /\ touches_fpenv k = false /\ eval_pure k ty [] = Some (VInt w z).
Proof.
  destruct k; try done. simpl. unfold try_i64. destruct (in_srange 64 v) eqn:E; simpl; [|done].
  intros [= <- <-]. apply in_srange_spec in E. split; [done|]. split; [done|]. split; [done|].
  unfold eval_pure. simpl. by rewrite sext_wrapw.
Qed.

(** What the pass assumes of the target where the scalar rules leave the result
    open: [MIN / -1], if it has a value at all, wraps to [MIN] (AArch64's
    [sdiv]; a trap is undefined behaviour of the source). *)
Class DivHost (X W : Type) `{!Host X W} : Prop :=
  div_min : forall w v,
    host_pure (IDiv 0 0) (TInt w) [VInt w (signed_min_of w); VInt w (-1)] = Some v -> v = VInt w (signed_min_of w).

Section algebra.
Context {X W : Type} `{!Host X W} `{!DivHost X W}.
Notation env := (gmap ValueId (val X)).

(** A binary integer rule that is not stuck had two operands of the type. *)
Lemma int_bin_inv w (vs : list (val X)) op :
int_bin (TInt w) vs op <> CStuck ->
exists a b, vs = [VInt w a; VInt w b] /\
int_bin (TInt w) vs op = match op w a b with Some z => CVal (VInt w (wrapw w z)) | None => CHost end.
Proof.
destruct vs as [|[wa a| | |] [|[wb b| | |] [|]]]; try done. simpl.
destruct (bool_decide (wa = w)) eqn:Ea; simpl; [|done]. destruct (bool_decide (wb = w)) eqn:Eb; [|done].
apply bool_decide_eq_true in Ea, Eb. subst. eauto.
Qed.

Context (consts : gmap ValueId (Z * IntWidth)) (ρ : env).
Context (Hconsts : forall v z w x, consts !! v = Some (z, w) -> ρ !! v = Some x -> x = VInt w z).
Context (Hcanon : map_Forall (fun _ => canonical) ρ).

Definition known (v : ValueId) (z : Z) : Prop := forall w a, ρ !! v = Some (VInt w a) -> a = z.

Lemma const_int_known v z : const_int consts v = Some z -> known v z.
Proof.
intros H w a Ha. unfold const_int in H. apply fmap_Some in H as ([z' w'] & H & ->).
pose proof (Hconsts _ _ _ _ H Ha) as E. by injection E.
Qed.

Lemma is_const_known v z : is_const consts v z = true -> known v z.
Proof. intros H. apply bool_decide_eq_true in H. by apply const_int_known. Qed.

(** The operands and result of a binary integer instruction. *)
Lemma int_bin_values k w op a0 b0 vs x :
(forall vs, core_eval (X := X) k (TInt w) vs = int_bin (TInt w) vs op) -> inst_uses k = [a0; b0] ->
lookup_all ρ (inst_uses k) = Some vs -> eval_pure k (TInt w) vs = Some x ->
exists a b, ρ !! a0 = Some (VInt w a) /\ ρ !! b0 = Some (VInt w b) /\ wrapw w a = a /\ wrapw w b = b /\
match op w a b with
| Some z => x = VInt w (wrapw w z)
| None => exists v, host_pure (shape k) (TInt w) [VInt w a; VInt w b] = Some v /\ x = canon v
end.
Proof.
intros Hk Hu Hvs Hx. unfold eval_pure in Hx. rewrite Hk in Hx.
destruct (int_bin_inv w vs op) as (a & b & -> & E); [by intros E; rewrite E in Hx|].
rewrite Hu in Hvs. apply lookup_all_Some in Hvs. inversion Hvs as [|? ? ? ? Ha Hvs']; subst.
inversion Hvs' as [|? ? ? ? Hb _]; subst.
exists a, b. split; [done|]. split; [done|].
split; [by apply (canonical_int (X := X)), (Hcanon a0)|]. split; [by apply (canonical_int (X := X)), (Hcanon b0)|].
rewrite E in Hx. destruct (op w a b); [by simplify_eq|]. apply fmap_Some in Hx as (v & Hv & ->). eauto.
Qed.

(** What a rewrite directive promises about the value [x] of the instruction. *)
Definition directive_ok (w : IntWidth) (uses : list ValueId) (x : val X) (rw : Rewrite) : Prop :=
match rw with
| Identity u => u ∈ uses /\ ρ !! u = Some x
| KindOnly k' => incl (inst_uses k') uses /\ class_of k' = KPure /\ touches_fpenv k' = false /\
exists vs', lookup_all ρ (inst_uses k') = Some vs' /\ eval_pure k' (TInt w) vs' = Some x
| ShlByConst var k => var ∈ uses /\
exists a, ρ !! var = Some (VInt w a) /\ wrapw w k = k /\ eval_pure (Shl var var) (TInt w) [VInt w a; VInt w k] = Some x
end.

Lemma ok_identity w uses u a x :
u ∈ uses -> ρ !! u = Some (VInt w a) -> x = VInt w a -> directive_ok w uses x (Identity u).
Proof. intros ? Hu ->. done. Qed.

Lemma ok_const w uses z : directive_ok w uses (VInt w (wrapw w z)) (KindOnly (ConstInt z w)).
Proof. split; [intros u []|]. split; [done|]. split; [done|]. by exists []. Qed.

Lemma ok_neg w uses u a x :
u ∈ uses -> ρ !! u = Some (VInt w a) -> x = VInt w (wrapw w (- a)) -> directive_ok w uses x (KindOnly (INeg u)).
Proof.
intros Hin Hu ->. split; [intros v [<-|[]]; by apply list_elem_of_In|]. split; [done|]. split; [done|].
exists [VInt w a]. split; [cbn; by rewrite Hu|]. unfold eval_pure. simpl. by rewrite bool_decide_eq_true_2.
Qed.

Lemma wrapw_fixed w z : wrapw w z = z -> srange (int_bits w) z.
Proof. intros <-. apply swrap_range. pose proof (int_bits_bounds w). lia. Qed.

Lemma shift_count w k : 0 <= k -> wrapw w (2 ^ k) = 2 ^ k -> k < int_bits w /\ wrapw w k = k.
Proof.
intros Hk Hr%wrapw_fixed. pose proof (int_bits_bounds w). unfold srange in Hr.
assert (k < int_bits w - 1) by (apply (Z.pow_lt_mono_r_iff 2); lia).
pose proof (Z.pow_gt_lin_r 2 k ltac:(lia) ltac:(lia)).
split; [lia|]. apply wrapw_id. unfold srange. lia.
Qed.

Lemma ok_shl w uses u a k x :
u ∈ uses -> ρ !! u = Some (VInt w a) -> 0 <= k -> wrapw w (2 ^ k) = 2 ^ k ->
x = VInt w (wrapw w (a * 2 ^ k)) -> directive_ok w uses x (ShlByConst u k).
Proof.
intros Hin Hu Hk Hr ->. destruct (shift_count w k Hk Hr) as [Hlt Hw]. split; [done|]. exists a. split; [done|].
split; [done|]. unfold eval_pure. simpl. rewrite !bool_decide_eq_true_2 by done. simpl.
unfold shift_ok. rewrite (proj2 (Z.leb_le 0 k)), (proj2 (Z.ltb_lt k _)) by done. simpl.
by rewrite Z.shiftl_mul_pow2.
Qed.

Lemma rewrite_mul_ok w a0 b0 a b rw :
rewrite_mul consts w a0 b0 = Some rw -> ρ !! a0 = Some (VInt w a) -> ρ !! b0 = Some (VInt w b) ->
wrapw w a = a -> wrapw w b = b -> directive_ok w [a0; b0] (VInt w (wrapw w (a * b))) rw.
Proof.
intros H Ha Hb Wa Wb.
assert (Hgen : exists u z c, u ∈ [a0; b0] /\ ρ !! u = Some (VInt w z) /\ wrapw w z = z /\ wrapw w c = c /\ a * b = z * c /\
(if c =? 0 then Some (KindOnly (ConstInt 0 w)) else if c =? 1 then Some (Identity u)
else if c =? -1 then Some (KindOnly (INeg u)) else k ← pow2_exponent c; Some (ShlByConst u k)) = Some rw).
{ unfold rewrite_mul in H. destruct (const_int consts b0) as [kb|] eqn:Eb; simpl in H.
- rewrite <- (const_int_known _ _ Eb _ _ Hb) in H. exists a0, a, b. split; [left|]. done.
- destruct (const_int consts a0) as [ka|] eqn:Ea; simpl in H; [|done].
rewrite <- (const_int_known _ _ Ea _ _ Ha) in H. exists b0, b, a. split; [right; left|].
split; [done|]. split; [done|]. split; [done|]. split; [lia | done]. }
destruct Hgen as (u & z & c & Hin & Hu & Wz & Wc & -> & Hrw). clear H.
destruct (c =? 0) eqn:E0; [bool_props; subst; simplify_eq; rewrite Z.mul_0_r; apply ok_const|].
destruct (c =? 1) eqn:E1; [bool_props; subst; simplify_eq; rewrite Z.mul_1_r, Wz; by eapply ok_identity|].
destruct (c =? -1) eqn:E2; [bool_props; subst; simplify_eq; eapply ok_neg; [done | done | f_equal; f_equal; lia]|].
destruct (pow2_exponent c) as [k|] eqn:Ek; simpl in Hrw; simplify_eq.
apply pow2_exponent_spec in Ek as [-> Hk]. by eapply ok_shl.
Qed.

Lemma rewrite_and_ok w uses c0 u c z rw :
rewrite_and w (const_int consts c0) u = Some rw -> ρ !! c0 = Some (VInt w c) -> u ∈ uses ->
ρ !! u = Some (VInt w z) -> wrapw w z = z -> directive_ok w uses (VInt w (wrapw w (Z.land z c))) rw.
Proof.
intros H Hc Hin Hu Wz. unfold rewrite_and in H. destruct (const_int consts c0) as [kc|] eqn:E; [|done].
rewrite <- (const_int_known _ _ E _ _ Hc) in H.
destruct (c =? 0) eqn:E0; [bool_props; subst; simplify_eq; rewrite Z.land_0_r; apply ok_const|].
destruct (c =? -1) eqn:E1; [|done]. bool_props; subst; simplify_eq. rewrite Z.land_m1_r, Wz. by eapply ok_identity.
Qed.

Lemma rewrite_or_ok w uses c0 u c z rw :
rewrite_or w (const_int consts c0) u = Some rw -> ρ !! c0 = Some (VInt w c) -> u ∈ uses ->
ρ !! u = Some (VInt w z) -> wrapw w z = z -> directive_ok w uses (VInt w (wrapw w (Z.lor z c))) rw.
Proof.
intros H Hc Hin Hu Wz. unfold rewrite_or in H. destruct (const_int consts c0) as [kc|] eqn:E; [|done].
rewrite <- (const_int_known _ _ E _ _ Hc) in H.
destruct (c =? 0) eqn:E0; [bool_props; subst; simplify_eq; rewrite Z.lor_0_r, Wz; by eapply ok_identity|].
destruct (c =? -1) eqn:E1; [|done]. bool_props; subst; simplify_eq. rewrite Z.lor_m1_r. apply ok_const.
Qed.

(** A directive of a neutral operand on either side. *)
Lemma neutral_ok w (op : Z -> Z -> Z) a0 b0 a b rw :
(if is_const consts b0 0 then Some (Identity a0) else if is_const consts a0 0 then Some (Identity b0) else None) = Some rw ->
(forall z, op z 0 = z) -> (forall z, op 0 z = z) ->
ρ !! a0 = Some (VInt w a) -> ρ !! b0 = Some (VInt w b) -> wrapw w a = a -> wrapw w b = b ->
directive_ok w [a0; b0] (VInt w (wrapw w (op a b))) rw.
Proof.
intros H Hr Hl Ha Hb Wa Wb. destruct (is_const consts b0 0) eqn:Eb.
- rewrite (is_const_known _ _ Eb _ _ Hb) in *. simplify_eq. rewrite Hr, Wa. eapply ok_identity; [left | done | done].
- destruct (is_const consts a0 0) eqn:Ea; [|done].
rewrite (is_const_known _ _ Ea _ _ Ha) in *. simplify_eq. rewrite Hl, Wb. eapply ok_identity; [right; left | done | done].
Qed.

Lemma sub_ok w a0 b0 a b rw :
(if is_const consts b0 0 then Some (Identity a0) else if is_const consts a0 0 then Some (KindOnly (INeg b0)) else None) = Some rw ->
ρ !! a0 = Some (VInt w a) -> ρ !! b0 = Some (VInt w b) -> wrapw w a = a ->
directive_ok w [a0; b0] (VInt w (wrapw w (a - b))) rw.
Proof.
intros H Ha Hb Wa. destruct (is_const consts b0 0) eqn:Eb.
- rewrite (is_const_known _ _ Eb _ _ Hb) in *. simplify_eq. rewrite Z.sub_0_r, Wa. eapply ok_identity; [left | done | done].
- destruct (is_const consts a0 0) eqn:Ea; [|done].
rewrite (is_const_known _ _ Ea _ _ Ha) in *. simplify_eq. eapply ok_neg; [right; left | done | done].
Qed.

Lemma div_ok_rw w a0 b0 a b x rw :
(if is_const consts b0 1 then Some (Identity a0) else if is_const consts b0 (-1) then Some (KindOnly (INeg a0)) else None) = Some rw ->
ρ !! a0 = Some (VInt w a) -> ρ !! b0 = Some (VInt w b) -> wrapw w a = a ->
match (if div_ok w a b then Some (Z.quot a b) else None) with
| Some z => x = VInt w (wrapw w z)
| None => exists v, host_pure (IDiv 0 0) (TInt w) [VInt w a; VInt w b] = Some v /\ x = canon v
end -> directive_ok w [a0; b0] x rw.
Proof.
intros H Ha Hb Wa Hx. unfold div_ok in Hx. destruct (is_const consts b0 1) eqn:E1.
- rewrite (is_const_known _ _ E1 _ _ Hb) in *. rewrite andb_false_r in Hx. simpl in Hx. rewrite Z.quot_1_r, Wa in Hx.
simplify_eq. eapply ok_identity; [left | done | done].
- destruct (is_const consts b0 (-1)) eqn:E2; [|done]. rewrite (is_const_known _ _ E2 _ _ Hb) in *. simplify_eq.
eapply ok_neg; [left | done |]. simpl in Hx. rewrite andb_true_r in Hx.
destruct (a =? signed_min_of w) eqn:Em; simpl in Hx.
+ bool_props. subst. destruct Hx as (v & Hv & ->). rewrite (div_min w v Hv). simpl. f_equal.
apply swrap_eq_mod. unfold signed_min_of.
pose proof (pow2_split (int_bits w) ltac:(pose proof (int_bits_bounds w); lia)) as E.
rewrite Z.opp_involutive. replace (- 2 ^ (int_bits w - 1)) with (2 ^ (int_bits w - 1) + (-1) * 2 ^ int_bits w) by lia.
apply Z.mod_add. pose proof (pow2_half_pos (int_bits w) ltac:(pose proof (int_bits_bounds w); lia)). lia.
+ rewrite Hx. do 2 f_equal. change (-1) with (- (1)). by rewrite Z.quot_opp_r, Z.quot_1_r by lia.
Qed.

Lemma shift_ok_rw w a0 b0 a b x rw (g : Z -> Z -> Z) k :
(if is_const consts b0 0 then Some (Identity a0) else None) = Some rw ->
wrapw w (g a 0) = a -> ρ !! a0 = Some (VInt w a) -> ρ !! b0 = Some (VInt w b) ->
match (if shift_ok w b then Some (g a b) else None) with
| Some z => x = VInt w (wrapw w z)
| None => exists v, host_pure k (TInt w) [VInt w a; VInt w b] = Some v /\ x = canon v
end -> directive_ok w [a0; b0] x rw.
Proof.
intros H Hg Ha Hb Hx. destruct (is_const consts b0 0) eqn:E; [|done].
rewrite (is_const_known _ _ E _ _ Hb) in *. simplify_eq.
assert (Hs : shift_ok w 0 = true) by (by destruct w). rewrite Hs, Hg in Hx.
eapply ok_identity; [left | done | done].
Qed.

Lemma or_else_Some {A} (x y : option A) z : or_else x y = Some z -> x = Some z \/ y = Some z.
Proof. destruct x; simpl; auto. Qed.

(** Every directive of [rewrite_for] keeps the value of the instruction. *)
Lemma rewrite_for_ok i rw vs x :
rewrite_for consts i = Some rw -> lookup_all ρ (inst_uses (inst_kind i)) = Some vs ->
eval_pure (inst_kind i) (inst_ty i) vs = Some x ->
exists w, inst_ty i = TInt w /\ directive_ok w (inst_uses (inst_kind i)) x rw.
Proof.
unfold rewrite_for. destruct (inst_ty i) as [| |w| | | | | |]; try done. intros H Hvs Hx. exists w. split; [done|].
destruct (inst_kind i) eqn:Ek; try done;
(match type of Hx with eval_pure ?k _ _ = _ =>
destruct (int_bin_values k w _ _ _ vs x (fun _ => eq_refl) eq_refl Hvs Hx) as (za & zb & Ha & Hb & Wa & Wb & Hr) end);
cbn [inst_uses] in *; try (match type of Hr with x = _ => subst x end).
- apply (neutral_ok w Z.add); auto with zarith.
- by apply sub_ok.
- by apply rewrite_mul_ok.
- by eapply div_ok_rw.
- apply or_else_Some in H as [H|H].
+ eapply rewrite_and_ok; [exact H | exact Hb | left | done | done].
+ rewrite Z.land_comm. eapply rewrite_and_ok; [exact H | exact Ha | right; left | done | done].
- apply or_else_Some in H as [H|H].
+ eapply rewrite_or_ok; [exact H | exact Hb | left | done | done].
+ rewrite Z.lor_comm. eapply rewrite_or_ok; [exact H | exact Ha | right; left | done | done].
- apply (neutral_ok w Z.lxor); auto using Z.lxor_0_r, Z.lxor_0_l.
- by eapply (shift_ok_rw w _ _ za zb x rw Z.shiftl).
- eapply (shift_ok_rw w _ _ za zb x rw (fun a b => Z.shiftr (a mod 2 ^ int_bits w) b)); [done | | done | done | exact Hr].
rewrite Z.shiftr_0_r. unfold wrapw. by rewrite swrap_mod_r by (pose proof (int_bits_bounds w); lia).
- by eapply (shift_ok_rw w _ _ za zb x rw Z.shiftr).
Qed.
End algebra.

(** * Behaviour *)

Lemma rewrite_for_pure consts i rw dyn : rewrite_for consts i = Some rw -> pure_inst dyn (inst_kind i).
Proof.
  unfold rewrite_for, pure_inst. destruct (inst_ty i); try done. destruct (inst_kind i); try done;
    intros _; split; try done; apply andb_false_r.
Qed.

Section correct.
Context {X W : Type} `{!Host X W} `{!DivHost X W}.
Context (f : Function) (Hwf : ssa_wf f) (dyn : bool) (call : call_sem X W).
Notation env := (gmap ValueId (val X)).
Implicit Types (ρ : env) (w : W).

Let consts := collect_int_consts f.

Lemma collected_int b i ρ w v z wd x :
visits f dyn call b i ρ w -> consts !! v = Some (z, wd) -> ρ !! v = Some x -> x = VInt wd z.
Proof.
intros Hv Hc Hx.
apply (collect_insts_spec (fun i => int_const (inst_kind i))) in Hc as [Hc|(b0 & ins & Hb0 & Hin & <- & Hc)];
[by rewrite lookup_empty in Hc|].
destruct (int_const_eval _ (inst_ty ins) _ _ Hc) as (Hu & Hcl & Ht & He).
eapply (visits_nullary f (wf_defs f Hwf) dyn call b0 ins); [done | done | | done | done | exact Hv | done].
split; [done|]. rewrite Ht. apply andb_false_r.
Qed.

(** [v] is the value of an instruction with an identity directive to [u]. *)
Definition same_as (v u : ValueId) : Prop :=
exists b ins, b ∈ blocks f /\ ins ∈ block_insts b /\ inst_id ins = v /\ rewrite_for consts ins = Some (Identity u).

Lemma same_as_value b i ρ w v u :
visits f dyn call b i ρ w -> rtc same_as v u -> avail f b i v -> avail f b i u /\ ρ !! u = ρ !! v.
Proof.
intros Hv. induction 1 as [v|v u t (b' & ins & Hb' & Hin & <- & Hrw) _ IH]; intros Ha; [done|].
pose proof (visits_block f Hwf dyn call b i ρ w Hv) as [Hb _].
destruct (visits_eqs_hold f Hwf dyn call b i ρ w Hv b' ins Hb' Hin) as (vs & x & Hvs & Hx & Hρ);
[by eapply rewrite_for_pure | done |].
destruct (rewrite_for_ok consts ρ) with (i := ins) (rw := Identity u) (vs := vs) (x := x) as (wd & _ & Hu & Hux); try done.
{ intros v z wd y. by eapply collected_int. }
{ by eapply visits_canonical. }
destruct IH as [Ht Et]; [by apply (avail_operand f Hwf b i b' ins)|]. split; [done|]. by rewrite Et, Hux.
Qed.

Context (call' : call_sem X W) (Hcall : refines_call true call call').
Context (ids : gmap ValueId ValueId) (Hids : chained same_as ids).
Let keep (v : ValueId) : Prop := v ∈ fn_def_ids f.

Lemma renames_avail b i ρ ρ' w l :
visits f dyn call b i ρ w -> agree keep ρ ρ' -> (forall v, v ∈ l -> avail f b i v) -> renames (rename ids) l ρ ρ'.
Proof.
intros Hv Ha Hl. pose proof (visits_block f Hwf dyn call b i ρ w Hv) as [Hb _].
apply (renames_map keep); [done | |].
- intros v u Hin E. destruct (same_as_value b i ρ w v u Hv (Hids v u E) (Hl v Hin)) as [Hu Eu].
split; [by eapply avail_def | done].
- intros v Hin _. eapply avail_def; [done | by apply Hl].
Qed.

Lemma ids_not_fresh v : v ∉ fn_def_ids f -> rename ids v = v.
Proof.
intros Hv. unfold rename. destruct (ids !! v) as [u|] eqn:E; [|done]. simpl.
pose proof (Hids v u E) as H. inversion H as [|? y ? (b & ins & Hb & Hin & <- & _)]; subst; [done|].
exfalso. apply Hv. unfold fn_def_ids. apply elem_of_app. right. apply list_elem_of_bind. exists b.
split; [by apply inst_def | done].
Qed.

Context (lo : ValueId) (Hlo : forall v, v ∈ fn_def_ids f -> (v < lo)%N).

Lemma chunk_sim b i ins c ρ ρ' w :
chunk_of consts lo ins c -> visits f dyn call b i ρ w -> block_insts b !! i = Some ins -> agree keep ρ ρ' ->
step_sim true keep (exec_inst dyn call ins ρ w) (exec_insts dyn call' (map_inst_operands (rename ids) <$> c) ρ' w).
Proof.
intros Hc Hv Hi Ha. pose proof (visits_block f Hwf dyn call b i ρ w Hv) as [Hb _].
assert (Hren : renames (rename ids) (inst_uses (inst_kind ins)) ρ ρ').
{ eapply renames_avail; [done | done|]. intros v Hin. by eapply (wf_inst_uses f Hwf). }
assert (Hone : forall ins', exec_insts dyn call' [ins'] ρ' w = exec_inst dyn call' ins' ρ' w).
{ intros ins'. simpl. by destruct (exec_inst dyn call' ins' ρ' w). }
assert (Hsame : step_sim true keep (exec_inst dyn call ins ρ w)
    (exec_insts dyn call' (map_inst_operands (rename ids) <$> [ins]) ρ' w)).
{ rewrite list_fmap_singleton, Hone. by apply renamed_inst. }
unfold chunk_of in Hc. destruct (rewrite_for consts ins) as [rw|] eqn:E; [|by subst].
destruct rw as [k'|u|var k]; [|by subst|]; rewrite (exec_inst_pure dyn call ins ρ w (rewrite_for_pure _ _ _ dyn E));
(destruct (lookup_all ρ (inst_uses (inst_kind ins))) as [vs|] eqn:Hvs; simpl; [|intros []]);
(destruct (eval_pure (inst_kind ins) (inst_ty ins) vs) as [x|] eqn:Hx; [|intros []]);
(destruct (rewrite_for_ok consts ρ (fun v z wd y => collected_int b i ρ w v z wd y Hv) (visits_canonical f dyn call b i ρ w Hv) ins _ vs x E Hvs Hx) as (wd & Hty & Hok)).
- destruct Hok as (Hincl & Hcl & Ht & vs' & Hvs' & Hx'). subst c. rewrite list_fmap_singleton, Hone.
exists (<[inst_id ins := x]> ρ'). split; [|by apply agree_insert].
eapply (renamed_pure dyn call' (rename ids) (set_kind ins k')); [done | done | done | | exact Hvs' | simpl; by rewrite Hty].
intros v Hin. apply Hren. apply list_elem_of_In, Hincl. by apply list_elem_of_In.
- destruct Hc as (kid & wd' & Hty' & Hkid & ->). assert (wd' = wd) as -> by congruence.
destruct Hok as (Hin & a & Hvar & Wk & Hx').
assert (Hfresh : kid ∉ fn_def_ids f) by (intros Hin'; apply Hlo in Hin'; lia).
rewrite !fmap_cons, fmap_nil. cbn [exec_insts].
erewrite (renamed_pure dyn call' (rename ids) {| inst_id := kid |} [] [] (VInt wd k) ρ); [|done | done | done | by intros ? ?%not_elem_of_nil | done |].
2: { unfold eval_pure. simpl. by rewrite Wk. }
simpl inst_id. set (ρ1 := <[kid := VInt wd k]> ρ').
assert (Hvar1 : ρ1 !! rename ids var = Some (VInt wd a)).
{ unfold ρ1. rewrite lookup_insert_ne; [by rewrite Hren|]. intros Ek. apply Hfresh. rewrite Ek.
pose proof (wf_inst_uses f Hwf b i ins var Hb Hi Hin) as Hav. unfold rename.
destruct (ids !! var) as [u|] eqn:Eu; simpl; [|by eapply avail_def].
eapply avail_def; [done|]. by apply (same_as_value b i ρ w var u Hv (Hids var u Eu)). }
exists (<[inst_id ins := x]> ρ1). split.
+ assert (Hl : lookup_all ρ1 [rename ids var; rename ids kid] = Some [VInt wd a; VInt wd k]).
{ rewrite (ids_not_fresh kid Hfresh), !lookup_all_cons, Hvar1. unfold ρ1. rewrite lookup_insert_eq. done. }
rewrite exec_inst_pure by (split; [done | apply andb_false_r]).
cbn [map_inst_operands set_kind inst_kind inst_ty inst_id map_operands inst_uses]. rewrite Hl, Hty.
cbn [mbind option_bind].
assert (Hx2 : eval_pure (Shl (rename ids var) (rename ids kid)) (TInt wd) [VInt wd a; VInt wd k] = Some x) by exact Hx'.
by rewrite Hx2.
+ apply agree_insert. intros v Hv'. unfold ρ1. rewrite lookup_insert_ne; [by apply Ha|]. by intros <-.
Qed.
End correct.

(** What the pass needs of a function: SSA form, and room in the [u32] value
    counter for one new constant per rewritten instruction. *)
Definition reduce_ready (f : Function) : Prop :=
  ssa_wf f /\ (forall v, v ∈ fn_def_ids f -> (v < next_value f)%N) /\
  (next_value f + N.of_nat (length (collect_rewrites (collect_int_consts f) f)) < u32_max)%N.

(** The hash map's key iterator yields keys of the map. *)
Definition lists_keys (key_order : gmap ValueId ValueId -> list ValueId) : Prop :=
  forall ids k, k ∈ key_order ids -> is_Some (ids !! k).

(** The function the pass builds: expanded blocks under a chained renaming. *)
Lemma reduce_function_shape key_order f :
  lists_keys key_order -> reduce_ready f ->
  exists n bs ids changed,
    reduce_function key_order f = Some (substitute_uses_batch (updated f n bs) ids, changed) /\
    Forall2 (expanded (collect_int_consts f) (next_value f)) (blocks f) bs /\ chained (same_as f) ids.
Proof.
  intros Hkeys (Hwf & Hlt & Hroom). unfold reduce_function. set (consts := collect_int_consts f) in *.
  destruct (blocks_applied consts (next_value f) (blocks f) f ∅ []) as (bs & n & ids & Happ & Hbs & Hids & _);
    [lia | done | by rewrite app_nil_r |]. rewrite app_nil_r in Happ.
  assert (Hch : chained (same_as f) ids).
  { intros v u Hv. destruct (Hids v u Hv) as [H|(i & Hi & E & Hrw)]; [by rewrite lookup_empty in H|].
    apply list_elem_of_bind in Hi as (b & Hi & Hb). apply rtc_once. by exists b, i. }
  fold (fn_entries consts (blocks f)) in Hroom. change (collect_rewrites consts f) with (fn_entries consts (blocks f)).
  destruct (fn_entries consts (blocks f)) as [|e es] eqn:Ees.
  { simpl in Happ. injection Happ as Ef Eids. exists n, bs, ∅, false. rewrite substitute_nothing.
    split; [by rewrite <- Ef|]. split; [done|]. intros v u H. by rewrite lookup_empty in H. }
  rewrite Happ. cbn [mbind option_bind]. case_decide as Hemp.
  - exists n, bs, ∅, true. rewrite substitute_nothing. split; [done|]. split; [done|].
    intros v u H. by rewrite lookup_empty in H.
  - destruct (chase_all_total (key_order ids) ids (Hkeys ids)) as [ids' Hchase]. rewrite Hchase. cbn [mbind option_bind].
    exists n, bs, ids', true. split; [done|]. split; [done|]. by eapply chase_all_chained.
Qed.

Lemma reduce_function_refines {X W} `{!Host X W} `{!DivHost X W} key_order f f' ch dyn (call call' : call_sem X W) fuel args w :
  lists_keys key_order -> reduce_ready f -> reduce_function key_order f = Some (f', ch) -> refines_call true call call' ->
  refines true (enter_function dyn call fuel f args w) (enter_function dyn call' fuel f' args w).
Proof.
  intros Hkeys Hready Hf Hcall.
  destruct (reduce_function_shape key_order f Hkeys Hready) as (n & bs & ids & ch' & Hf' & Hbs & Hids).
  rewrite Hf in Hf'. simplify_eq. destruct Hready as (Hwf & Hlt & _).
  apply (expand_refines true dyn call call' f _ (fun v => v ∈ fn_def_ids f)
    (fun b i ins c => exists c0, chunk_of (collect_int_consts f) (next_value f) ins c0 /\ c = map_inst_operands (rename ids) <$> c0)
    (fun b b' => block_term b' = map_term_operands (rename ids) <$> block_term b)); [done | done | | |].
  - simpl. apply Forall2_fmap_r. eapply Forall2_impl; [exact Hbs|]. intros b b' (cs & -> & Hcs).
    split; [|done]. split; [done|]. split; [done|].
    exists ((fun c : list Inst => map_inst_operands (rename ids) <$> c) <$> cs). split; [simpl; apply mjoin_fmap|].
    split; [rewrite length_fmap; symmetry; by eapply Forall2_length|].
    intros i ins c Hi Hc. rewrite list_lookup_fmap in Hc. apply fmap_Some in Hc as (c0 & Hc0 & ->).
    exists c0. split; [|done]. by eapply (Forall2_lookup_lr _ _ _ i ins c0 Hcs).
  - intros b i ins c ρ ρ' w' _ (c0 & Hc0 & ->) Hv Hi Ha.
    exact (chunk_sim f Hwf dyn call call' Hcall ids Hids (next_value f) Hlt b i ins c0 ρ ρ' w' Hc0 Hv Hi Ha).
  - intros b b' ρ ρ' w' Hb -> Hv Ha _. apply renamed_term.
    eapply (renames_avail f Hwf dyn call ids Hids b); [exact Hv | done|].
    intros v Hin. destruct (block_term b) as [t|] eqn:Et; [|by apply not_elem_of_nil in Hin].
    by eapply (wf_term_uses f Hwf).
Qed.

(** * Properties *)

(** C36: Strength reduction preserves behaviour: with shifts for multiplications by
    powers of two and uses redirected through algebraic identities, every run of
    every procedure has the same result, whatever the iteration order of the
    rewrite map, on every target whose [MIN / -1] wraps or traps. *)
Theorem strength_reduce_preserves {X W} `{!Host X W} `{!DivHost X W} key_order m m' changed (dyn : nat -> bool) :
  lists_keys key_order -> (forall f, f ∈ functions m -> reduce_ready f) ->
  strength_reduce key_order m = Some (m', changed) ->
  forall fuel idx args (w : W),
    refines true (run_func dyn fuel (functions m) idx args w) (run_func dyn fuel (functions m') idx args w).
Proof.
  intros Hkeys Hfs. unfold strength_reduce. intros H. destruct (mapM _ _) as [rs|] eqn:E; simpl in H; [|done]. simplify_eq.
  apply (run_func_mapM true (reduce_function key_order) dyn _ _ E).
  intros n f f' ch Hn Hf call call' fuel args w. apply (reduce_function_refines key_order f f' ch); [done | | done].
  apply Hfs. by eapply list_elem_of_lookup_2.
Qed.

(** Strength reduction finishes without a panic: indices stay in range while
    instructions are inserted, and the chain chase ends for every rewrite map. *)
Theorem strength_reduce_total key_order m :
  lists_keys key_order -> (forall f, f ∈ functions m -> reduce_ready f) -> is_Some (strength_reduce key_order m).
Proof.
  intros Hkeys Hfs. unfold strength_reduce.
  assert (is_Some (mapM (reduce_function key_order) (functions m))) as [rs ->]; [|eauto].
  apply mapM_is_Some, Forall_forall. intros f Hf.
  destruct (reduce_function_shape key_order f Hkeys (Hfs f Hf)) as (n & bs & ids & ch & H & _). by eexists.
Qed.

#[local] Existing Instance unit_host.

#[local] Instance unit_div_host : DivHost unit unit.
Proof. intros w v H. discriminate H. Qed.

(** [(x * 8) * 1 + 0] *)
Definition scale_fn : Function :=
  mk_fn "scale" [{| param_name := "x"; param_ty := i32; param_id := 0; fortran_noalias := false |}] i32
    [mk_block 0 "entry" []
       [mk_inst 1 (ConstInt 8 I32) i32; mk_inst 2 (IMul 0 1) i32; mk_inst 3 (ConstInt 1 I32) i32;
        mk_inst 4 (IMul 3 2) i32; mk_inst 5 (ConstInt 0 I32) i32; mk_inst 6 (IAdd 4 5) i32]
       (Return (Some 6%N))] 7.

Definition map_keys (ids : gmap ValueId ValueId) : list ValueId := (map_to_list ids).*1.

Lemma map_keys_ok : lists_keys map_keys.
Proof.
  intros ids k Hk. apply list_elem_of_fmap in Hk as ([k' v] & -> & Hk). apply elem_of_map_to_list in Hk. by exists v.
Qed.

Lemma scale_fn_ready : reduce_ready scale_fn.
Proof.
  split; [apply ssa_wf_check; vm_compute; reflexivity|].
  split; [|vm_compute; reflexivity].
  apply Forall_forall, (bool_decide_unpack (Forall (fun v => (v < next_value scale_fn)%N) (fn_def_ids scale_fn))).
  vm_compute. exact I.
Qed.

Lemma strength_reduce_preserves_witness :
  exists m', strength_reduce map_keys (mk_module [scale_fn]) = Some (m', true) /\
    run_func (X := unit) (fun _ => false) 1 (functions m') 0 [VInt I32 5] () = RRet (Some (VInt I32 40)) ().
Proof.
  eexists. split; [vm_compute; reflexivity|].
  transitivity (run_func (X := unit) (fun _ => false) 1 [scale_fn] 0 [VInt I32 5] ()); [|vm_compute; reflexivity].
  apply (strength_reduce_preserves map_keys (mk_module [scale_fn]) _ true).
  - apply map_keys_ok.
  - intros f Hf. apply list_elem_of_singleton in Hf as ->. apply scale_fn_ready.
  - vm_compute. reflexivity.
  - vm_compute. exact I.
Defined.

Lemma strength_reduce_total_witness : is_Some (strength_reduce map_keys (mk_module [scale_fn])).
Proof.
  apply strength_reduce_total; [apply map_keys_ok|].
  intros f Hf. apply list_elem_of_singleton in Hf as ->. apply scale_fn_ready.
Defined.
