(* ===== verification/Cse.v ===== *)
(** Local common-subexpression elimination (src/src/opt/cse.rs): within a block a
    pure instruction with the key of an earlier one is removed and its uses are
    redirected. *)

From S2P Require Import Prelude IrTypes IrInst Sample Worklist IrWalk Floats IrSem Fpenv Dominators Ssa IrVerify Lockstep Rename.
Local Open Scope Z_scope.

(** * Keys *)

Record Key := {
  key_tag : N; key_operands : list ValueId; key_aux : Z; key_name : option string; key_ty : IrType }.

#[export] Instance Key_eq_dec : EqDecision Key.
Proof. solve_decision. Defined.

(** [v.to_bits()]: sign, exponent and mantissa fields; every NaN is the quiet one. *)
Definition to_bits (x : f64) : Z :=
  match x with
  | S754_zero s => if s then 2 ^ 63 else 0
  | S754_infinity s => (if s then 2 ^ 63 else 0) + 2047 * 2 ^ 52
  | S754_nan => 2047 * 2 ^ 52 + 2 ^ 51
  | S754_finite s m e =>
      (if s then 2 ^ 63 else 0) +
      (if Zpos m <? 2 ^ 52 then Zpos m else (e + 1075) * 2 ^ 52 + (Zpos m - 2 ^ 52))
  end.

(** [op as i128] *)
Definition cmp_code (op : CmpOp) : Z :=
  match op with CEq => 0 | CNe => 1 | CLt => 2 | CLe => 3 | CGt => 4 | CGe => 5 end.

Definition canon_pair (a b : ValueId) : list ValueId := if (a <=? b)%N then [a; b] else [b; a].

(** Sign extension of the low [bits] bits of an [i128]. *)
Definition sext128 (v bits : Z) : Z :=
  if 128 <=? bits then v
  else let shift := 128 - bits in Z.shiftr (swrap 128 (Z.shiftl v shift)) shift.

Definition key_of (inst : Inst) : option Key :=
  let mk (tag : N) (ops : list ValueId) (aux : Z) : option Key :=
    Some {| key_tag := tag; key_operands := ops; key_aux := aux; key_name := None; key_ty := inst_ty inst |} in
  let mk_named (tag : N) (name : string) : option Key :=
    Some {| key_tag := tag; key_operands := []; key_aux := 0; key_name := Some name; key_ty := inst_ty inst |} in
  match inst_kind inst with
  | GlobalAddr name => mk_named 90%N name
  | ConstInt v w => mk 1%N [] (sext128 v (int_bits w))
  | ConstFloat v _ => mk 2%N [] (to_bits v)
  | ConstBool b => mk 3%N [] (if b then 1 else 0)
  | IAdd a b => mk 10%N (canon_pair a b) 0
  | ISub a b => mk 11%N [a; b] 0
  | IMul a b => mk 12%N (canon_pair a b) 0
  | IDiv a b => mk 13%N [a; b] 0
  | IMod a b => mk 14%N [a; b] 0
  | INeg a => mk 15%N [a] 0
  | FAdd a b => mk 20%N (canon_pair a b) 0
  | FSub a b => mk 21%N [a; b] 0
  | FMul a b => mk 22%N (canon_pair a b) 0
  | FDiv a b => mk 23%N [a; b] 0
  | FNeg a => mk 24%N [a] 0
  | FAbs a => mk 25%N [a] 0
  | FSqrt a => mk 26%N [a] 0
  | FPow a b => mk 27%N [a; b] 0
  | ICmp op a b =>
      mk 30%N (match op with CEq | CNe => canon_pair a b | _ => [a; b] end) (cmp_code op)
  | FCmp op a b =>
      mk 31%N (match op with CEq | CNe => canon_pair a b | _ => [a; b] end) (cmp_code op)
  | And a b => mk 40%N (canon_pair a b) 0
  | Or a b => mk 41%N (canon_pair a b) 0
  | Not a => mk 42%N [a] 0
  | Select c t f => mk 43%N [c; t; f] 0
  | BitAnd a b => mk 50%N (canon_pair a b) 0
  | BitOr a b => mk 51%N (canon_pair a b) 0
  | BitXor a b => mk 52%N (canon_pair a b) 0
  | BitNot a => mk 53%N [a] 0
  | Shl a b => mk 54%N [a; b] 0
  | LShr a b => mk 55%N [a; b] 0
  | AShr a b => mk 56%N [a; b] 0
  | CountLeadingZeros a => mk 57%N [a] 0
  | CountTrailingZeros a => mk 58%N [a] 0
  | PopCount a => mk 59%N [a] 0
  | IntToFloat v fw => mk 60%N [v] (float_bits fw)
  | FloatToInt v w => mk 61%N [v] (int_bits w)
  | FloatExtend v fw => mk 62%N [v] (float_bits fw)
  | FloatTrunc v fw => mk 63%N [v] (float_bits fw)
  | IntExtend v w sgn => mk 64%N [v] (Z.lor (int_bits w) (Z.shiftl (if (sgn : bool) then 1 else 0) 32))
  | IntTrunc v w => mk 65%N [v] (int_bits w)
  | PtrToInt v => mk 66%N [v] 0
  | IntToPtr v _ => mk 67%N [v] 0
  | GetElementPtr base idxs => mk 70%N (base :: idxs) 0
  | ExtractField agg i => mk 80%N [agg] (Z.of_N i)
  | InsertField agg i v => mk 81%N [agg; v] (Z.of_N i)
  | Load _ | Store _ _ | VolatileLoad _ | VolatileStore _ _ | Alloca _ | Call _ _ | RuntimeCall _ _
  | ConstString _ | Undef _ => None
  | VAdd _ _ | VSub _ _ | VMul _ _ | VDiv _ _ | VNeg _ | VAbs _ | VSqrt _ | VFma _ _ _ | VSelect _ _ _
  | VMin _ _ | VMax _ _ | VICmp _ _ _ | VFCmp _ _ _ | VLoad _ | VStore _ _ | VBitcast _ _ | VExtract _ _
  | VInsert _ _ _ | VBroadcast _ | VReduceSum _ | VReduceMin _ | VReduceMax _ => None
  end.

(** * The pass *)

(** The hash map from keys to the value first seen with each. *)
Definition seen_t : Type := list (Key * ValueId).
Definition seen_get (seen : seen_t) (k : Key) : option ValueId :=
  (fun e => e.2.2) <$> list_find (fun e => e.1 = k) seen.

(** Instructions the walk passes over: sensitive ones in a function that may cross
    a floating-point barrier. *)
Definition skipped (fpenv_barrier : bool) (i : Inst) : bool := fpenv_barrier && is_fpenv_sensitive (inst_kind i).

Definition cse_inst (fpenv_barrier : bool) (st : seen_t * gmap ValueId ValueId) (i : Inst) : seen_t * gmap ValueId ValueId :=
  let '(seen, rewrite_map) := st in
  if skipped fpenv_barrier i then st
  else match key_of i with
       | None => st
       | Some k =>
           match seen_get seen k with
           | Some first => (seen, <[inst_id i := first]> rewrite_map)
           | None => ((k, inst_id i) :: seen, rewrite_map)
           end
       end.

Definition cse_block (fpenv_barrier : bool) (rewrite_map : gmap ValueId ValueId) (b : BasicBlock) : gmap ValueId ValueId :=
  (foldl (cse_inst fpenv_barrier) ([], rewrite_map) (block_insts b)).2.

Definition cse_map (fpenv_barrier : bool) (f : Function) : gmap ValueId ValueId :=
  foldl (cse_block fpenv_barrier) ∅ (blocks f).

(** [block.insts.retain(|inst| !rewrite_map.contains_key(&inst.id))] *)
Definition retain_block (rewrite_map : gmap ValueId ValueId) (b : BasicBlock) : BasicBlock :=
  set_insts b (filter (fun i => rewrite_map !! inst_id i = None) (block_insts b)).

Definition cse_function (fpenv_barrier : bool) (f : Function) : Function * bool :=
  let rewrite_map := cse_map fpenv_barrier f in
  if decide (rewrite_map = ∅) then (f, false)
  else (rebuild_type_cache (map_blocks (retain_block rewrite_map) (substitute_uses_batch f rewrite_map)), true).

(** [LocalCse::run]. *)
Definition local_cse (m : Module_) : Module_ * bool :=
  let rs := imap (fun n f => cse_function (crosses_barrier_fn m n) f) (functions m) in
  (set_functions m rs.*1, existsb (fun r => r.2) rs).

(** * Bit patterns *)

(** A finite datum's exponent and mantissa fields. *)
Lemma valid_fields s m e :
  valid_binary 53 1024 (S754_finite s m e) = true ->
  Zpos m < 2 ^ 53 /\ -1074 <= e <= 971 /\ (Zpos m < 2 ^ 52 -> e = -1074).
Proof.
  unfold valid_binary, bounded, canonical_mantissa. intros H. apply andb_true_iff in H as [H1 H2].
  apply Zeq_bool_eq in H1. apply Z.leb_le in H2. rewrite digits2_log2 in H1. unfold fexp, SpecFloat.emin in H1. norm_Z.
  assert (Hm : 0 < Zpos m) by lia. destruct (Z.log2_spec (Zpos m) Hm) as [Hlo Hhi].
  assert (Hl : Z.log2 (Zpos m) <= 52) by lia.
  split; [|split; [lia|]].
  - apply Z.lt_le_trans with (1 := Hhi). apply Z.pow_le_mono_r; lia.
  - intros Hlt. assert (Z.log2 (Zpos m) < 52) by (apply Z.log2_lt_pow2; lia). lia.
Qed.

Lemma to_bits_inj x y :
  valid_binary 53 1024 x = true -> valid_binary 53 1024 y = true -> to_bits x = to_bits y -> x = y.
Proof.
  destruct x as [s|s| |s m e], y as [s'|s'| |s' m' e']; intros Hx Hy E; try (done);
    try (apply valid_fields in Hx as (Hx1 & Hx2 & Hx3)); try (apply valid_fields in Hy as (Hy1 & Hy2 & Hy3));
    unfold to_bits in E; repeat match goal with H : context [Z.ltb ?a ?b] |- _ => destruct (Z.ltb_spec a b) end;
    repeat match goal with H : context [if ?b then _ else _] |- _ => destruct b end;
    try reflexivity; try (exfalso; lia).
  all: try (assert (e = e') by lia; assert (Zpos m = Zpos m') by lia; congruence).
Qed.

(** * Commutativity *)

(** What the pass assumes of the target: the operators it treats as commutative
    are so on the values the scalar rules do not decide (pointers and the like). *)
Class CommHost (X W : Type) `{!Host X W} : Prop :=
  host_comm : forall k ty (x y : val X),
    k ∈ [And 0 0; Or 0 0; ICmp CEq 0 0; ICmp CNe 0 0; FCmp CEq 0 0; FCmp CNe 0 0] ->
    host_pure k ty [x; y] = host_pure k ty [y; x].

Definition commutative (k : InstKind) : bool :=
  match k with
  | IAdd _ _ | IMul _ _ | FAdd _ _ | FMul _ _ | And _ _ | Or _ _ | BitAnd _ _ | BitOr _ _ | BitXor _ _
  | ICmp (CEq | CNe) _ _ | FCmp (CEq | CNe) _ _ => true
  | _ => false
  end.

Section comm.
Context {X W : Type} `{!Host X W} `{!CommHost X W}.
Notation env := (gmap ValueId (val X)).

Lemma int_bin_comm ty (x y : val X) op :
(forall w a b, op w a b = op w b a) -> int_bin ty [x; y] op = int_bin ty [y; x] op.
Proof.
intros Hop. destruct ty; try done. simpl. destruct x, y; try done. rewrite andb_comm.
rewrite (Hop w z z0). by destruct (_ && _).
Qed.

Lemma float_bin_comm ty (x y : val X) op :
(forall a b, op a b = op b a) -> float_bin ty [x; y] op = float_bin ty [y; x] op.
Proof.
intros Hop. destruct ty; try done. simpl. destruct x, y; try done. by rewrite andb_comm, Hop.
Qed.

Lemma eval_comm k ty (x y : val X) : commutative k = true -> eval_pure k ty [x; y] = eval_pure k ty [y; x].
Proof.
assert (Hhost : forall k', shape k' ∈ [And 0 0; Or 0 0; ICmp CEq 0 0; ICmp CNe 0 0; FCmp CEq 0 0; FCmp CNe 0 0] ->
core_eval (X := X) k' ty [x; y] = core_eval k' ty [y; x] -> eval_pure k' ty [x; y] = eval_pure k' ty [y; x]).
{ intros k' Hk E. unfold eval_pure. rewrite E. destruct (core_eval k' ty [y; x]); try done. f_equal. by apply host_comm. }
assert (Hcore : core_eval (X := X) k ty [x; y] = core_eval k ty [y; x] -> core_eval (X := X) k ty [x; y] <> CHost ->
eval_pure k ty [x; y] = eval_pure k ty [y; x]).
{ intros E Hn. unfold eval_pure. rewrite <- E. by destruct (core_eval k ty [x; y]). }
assert (Hint : forall op, core_eval (X := X) k ty = (fun vs => int_bin ty vs op) -> (forall w a b, op w a b = op w b a) ->
(forall w a b, op w a b <> None) -> eval_pure k ty [x; y] = eval_pure k ty [y; x]).
{ intros op E Hop Hs. apply Hcore; rewrite E; [by apply int_bin_comm|].
unfold int_bin. repeat case_match; try done. by destruct (Hs w z z0). }
assert (Hfl : forall op, core_eval (X := X) k ty = (fun vs => float_bin ty vs op) -> (forall a b, op a b = op b a) ->
eval_pure k ty [x; y] = eval_pure k ty [y; x]).
{ intros op E Hop. apply Hcore; rewrite E; [by apply float_bin_comm|]. unfold float_bin. by repeat case_match. }
destruct k; try done; try (destruct op; try done); intros _.
- by apply (Hint (fun _ a b => Some (a + b))); [done | intros; f_equal; lia |].
- by apply (Hint (fun _ a b => Some (a * b))); [done | intros; f_equal; lia |].
- apply (Hfl f64_add); [done | apply f64_add_comm].
- apply (Hfl f64_mul); [done | apply f64_mul_comm].
- apply Hhost; [apply list_elem_of_In; simpl; tauto|]. simpl. destruct x, y; try done. by rewrite Z.eqb_sym.
- apply Hhost; [apply list_elem_of_In; simpl; tauto|]. simpl. destruct x, y; try done. by rewrite Z.eqb_sym.
- apply Hhost; [apply list_elem_of_In; simpl; tauto|]. simpl. destruct x, y; try done. by rewrite f64_eq_comm.
- apply Hhost; [apply list_elem_of_In; simpl; tauto|]. simpl. destruct x, y; try done. by rewrite f64_eq_comm.
- apply Hhost; [apply list_elem_of_In; simpl; tauto|]. simpl. destruct x, y; try done. simpl. by rewrite andb_comm.
- apply Hhost; [apply list_elem_of_In; simpl; tauto|]. simpl. destruct x, y; try done. simpl. by rewrite orb_comm.
- by apply (Hint (fun _ a b => Some (Z.land a b))); [done | intros; f_equal; apply Z.land_comm |].
- by apply (Hint (fun _ a b => Some (Z.lor a b))); [done | intros; f_equal; apply Z.lor_comm |].
- by apply (Hint (fun _ a b => Some (Z.lxor a b))); [done | intros; f_equal; apply Z.lxor_comm |].
Qed.

(** The value of an expression in an environment. *)
Definition value_of (ρ : env) (k : InstKind) (ty : IrType) : option (val X) :=
lookup_all ρ (inst_uses k) ≫= eval_pure k ty.

Lemma value_comm ρ k k' ty a b :
commutative k = true -> inst_uses k = [a; b] -> inst_uses k' = [b; a] -> shape k = shape k' ->
value_of ρ k' ty = value_of ρ k ty.
Proof.
intros Hc Hu Hu' Hs. unfold value_of. rewrite Hu, Hu', !lookup_all_cons. simpl.
destruct (ρ !! a) as [x|], (ρ !! b) as [y|]; try done. simpl. rewrite (eval_comm k ty x y Hc).
assert (Hsh : forall k0 vs, eval_pure (shape k0) ty vs = eval_pure (X := X) k0 ty vs) by (intros; apply eval_pure_map).
by rewrite <- (Hsh k'), <- (Hsh k), Hs.
Qed.
End comm.

(** * Equal keys *)

(** Constants and pointer casts are typed by their payload, and float payloads are
    binary64 data. *)
Definition payload_typed (i : Inst) : Prop :=
  match inst_kind i with
  | ConstInt v w => inst_ty i = TInt w /\ srange 128 v
  | ConstFloat v w => inst_ty i = TFloat w /\ f64_valid v
  | IntToPtr _ t => inst_ty i = TPtr t
  | _ => True
  end.

Definition width_of_bits (z : Z) : IntWidth :=
  if z =? 8 then I8 else if z =? 16 then I16 else if z =? 32 then I32 else if z =? 64 then I64 else I128.
Definition fwidth_of_bits (z : Z) : FloatWidth := if z =? 32 then F32 else F64.
Definition cmp_of_code (z : Z) : CmpOp :=
  if z =? 0 then CEq else if z =? 1 then CNe else if z =? 2 then CLt else if z =? 3 then CLe else if z =? 4 then CGt else CGe.

(** The expression a key stands for; floating-point constants apart. *)
Definition key_kind (k : Key) : option InstKind :=
  let z := key_aux k in
  match key_operands k with
  | [] =>
      match key_tag k, key_ty k with
      | 1%N, TInt w => Some (ConstInt z w)
      | 3%N, _ => Some (ConstBool (z =? 1))
      | 90%N, _ => GlobalAddr <$> key_name k
      | _, _ => None
      end
  | a :: rest =>
      if decide (key_tag k = 70%N) then Some (GetElementPtr a rest) else
      match rest with
      | [] =>
          match key_tag k with
          | 15%N => Some (INeg a) | 24%N => Some (FNeg a) | 25%N => Some (FAbs a) | 26%N => Some (FSqrt a)
          | 42%N => Some (Not a) | 53%N => Some (BitNot a) | 57%N => Some (CountLeadingZeros a)
          | 58%N => Some (CountTrailingZeros a) | 59%N => Some (PopCount a)
          | 60%N => Some (IntToFloat a (fwidth_of_bits z)) | 61%N => Some (FloatToInt a (width_of_bits z))
          | 62%N => Some (FloatExtend a (fwidth_of_bits z)) | 63%N => Some (FloatTrunc a (fwidth_of_bits z))
          | 64%N => Some (IntExtend a (width_of_bits (z mod 2 ^ 32)) (2 ^ 32 <=? z))
          | 65%N => Some (IntTrunc a (width_of_bits z)) | 66%N => Some (PtrToInt a)
          | 67%N => match key_ty k with TPtr t => Some (IntToPtr a t) | _ => None end
          | 80%N => Some (ExtractField a (Z.to_N z))
          | _ => None
          end
      | [b] =>
          match key_tag k with
          | 10%N => Some (IAdd a b) | 11%N => Some (ISub a b) | 12%N => Some (IMul a b) | 13%N => Some (IDiv a b)
          | 14%N => Some (IMod a b) | 20%N => Some (FAdd a b) | 21%N => Some (FSub a b) | 22%N => Some (FMul a b)
          | 23%N => Some (FDiv a b) | 27%N => Some (FPow a b)
          | 30%N => Some (ICmp (cmp_of_code z) a b) | 31%N => Some (FCmp (cmp_of_code z) a b)
          | 40%N => Some (And a b) | 41%N => Some (Or a b)
          | 50%N => Some (BitAnd a b) | 51%N => Some (BitOr a b) | 52%N => Some (BitXor a b)
          | 54%N => Some (Shl a b) | 55%N => Some (LShr a b) | 56%N => Some (AShr a b)
          | 81%N => Some (InsertField a (Z.to_N z) b)
          | _ => None
          end
      | [b; c] => match key_tag k with 43%N => Some (Select a b c) | _ => None end
      | _ => None
      end
  end.

Section keys.
Context {X W : Type} `{!Host X W} `{!CommHost X W}.
Notation env := (gmap ValueId (val X)).

Lemma sext128_wrapw v w : srange 128 v -> sext128 v (int_bits w) = wrapw w v.
Proof.
intros Hv. pose proof (int_bits_bounds w). unfold sext128. destruct (128 <=? int_bits w) eqn:E; bool_props.
- assert (E' : int_bits w = 128) by lia. unfold wrapw. rewrite E'. symmetry. by apply swrap_id.
- apply (shl_shr_swrap 128). lia.
Qed.

(** Keys other than those of float constants determine the value. *)
Lemma key_kind_value i k (ρ : env) :
key_of i = Some k -> payload_typed i -> key_tag k <> 2%N ->
exists k', key_kind k = Some k' /\ value_of ρ (inst_kind i) (inst_ty i) = value_of ρ k' (key_ty k).
Proof.
unfold key_of, payload_typed. intros H Hp Ht.
destruct (inst_kind i) eqn:Ek; try discriminate H; injection H as <-; cbn [key_tag key_ty key_aux key_operands key_name] in *;
try (eexists; split; [reflexivity | reflexivity]); try done.
all: try (unfold canon_pair; destruct (a <=? b)%N; (eexists; split; [reflexivity|]); [done | by apply (value_comm _ _ _ _ b a)]).
all: try (destruct op; simpl; unfold canon_pair; try (destruct (a <=? b)%N); (eexists; split; [reflexivity|]);
try done; by apply (value_comm _ _ _ _ b a)).
all: try (destruct w; try (destruct signed); eexists; split; reflexivity).
- destruct Hp as [-> Hr]. eexists. split; [reflexivity|]. unfold value_of, eval_pure. simpl. do 2 f_equal.
rewrite sext128_wrapw by done. symmetry. apply swrap_idem. pose proof (int_bits_bounds w). lia.
- destruct b; eexists; split; reflexivity.
- rewrite Hp. eexists. split; reflexivity.
- eexists. split; [reflexivity|]. cbn [key_aux]. by rewrite N2Z.id.
- eexists. split; [reflexivity|]. cbn [key_aux]. by rewrite N2Z.id.
Qed.

Lemma key_float i k : key_of i = Some k -> key_tag k = 2%N ->
exists v w, inst_kind i = ConstFloat v w /\ key_aux k = to_bits v /\ key_ty k = inst_ty i.
Proof.
unfold key_of. intros H Ht. destruct (inst_kind i); try discriminate H; injection H as <-; try discriminate Ht. eauto.
Qed.

Lemma key_of_ty i k : key_of i = Some k -> key_ty k = inst_ty i.
Proof. unfold key_of. intros H. destruct (inst_kind i); try discriminate H; by injection H as <-. Qed.

(** Equal keys mean equal values, in every environment. *)
Lemma same_key_value i j k (ρ : env) :
key_of i = Some k -> key_of j = Some k -> payload_typed i -> payload_typed j ->
value_of ρ (inst_kind i) (inst_ty i) = value_of ρ (inst_kind j) (inst_ty j).
Proof.
intros Hi Hj Pi Pj. destruct (decide (key_tag k = 2%N)) as [Ht|Ht].
- destruct (key_float i k Hi Ht) as (v & w & Ei & Ai & Ti), (key_float j k Hj Ht) as (v' & w' & Ej & Aj & Tj).
unfold payload_typed in *. rewrite Ei in *. rewrite Ej in *. destruct Pi as [Pi Vi], Pj as [Pj Vj].
assert (w' = w) as -> by congruence.
assert (v' = v) as -> by (apply to_bits_inj; [done | done | congruence]). congruence.
- destruct (key_kind_value i k ρ Hi Pi Ht) as (k1 & E1 & ->), (key_kind_value j k ρ Hj Pj Ht) as (k2 & E2 & ->).
by simplify_eq.
Qed.

Lemma key_of_pure i k : key_of i = Some k -> class_of (inst_kind i) = KPure.
Proof. unfold key_of. destruct (inst_kind i); done. Qed.
End keys.

(** * The rewrite map *)

Section rewrite_map.
Context (barrier : bool) (f : Function) (Hnd : NoDup (fn_def_ids f)).

(** [v] repeats the earlier value [u] of block [b], both among its first [n]
instructions. *)
Definition repeats (b : BasicBlock) (n : nat) (v u : ValueId) : Prop :=
exists i j insi insj k, (i < j < n)%nat /\ block_insts b !! i = Some insi /\ block_insts b !! j = Some insj /\
inst_id insi = u /\ inst_id insj = v /\ key_of insi = Some k /\ key_of insj = Some k /\
skipped barrier insi = false /\ skipped barrier insj = false.

Definition repeats_in (b : BasicBlock) : ValueId -> ValueId -> Prop := repeats b (length (block_insts b)).

Lemma repeats_S b n v u : repeats b n v u -> repeats b (S n) v u.
Proof. intros (i & j & ? & ? & ? & Hij & H). exists i, j. do 3 eexists. split; [|exact H]. lia. Qed.

(** The walk after [n] instructions of [b], the blocks [bs] done before. *)
Record walk_inv (bs : list BasicBlock) (b : BasicBlock) (n : nat) (st : seen_t * gmap ValueId ValueId) : Prop := {
inv_seen : forall k u, (k, u) ∈ st.1 -> st.2 !! u = None /\
exists i ins, (i < n)%nat /\ block_insts b !! i = Some ins /\ inst_id ins = u /\
key_of ins = Some k /\ skipped barrier ins = false;
inv_map : forall v u, st.2 !! v = Some u -> st.2 !! u = None /\
(repeats b n v u \/ exists b', b' ∈ bs /\ repeats_in b' v u) }.

Lemma seen_get_elem seen k u : seen_get seen k = Some u -> (k, u) ∈ seen.
Proof.
unfold seen_get. intros H. apply fmap_Some in H as ([n [k' u']] & Hf & ->). simpl.
apply list_find_Some in Hf as (Hl & Hk & _). simpl in Hk. subst. by eapply list_elem_of_lookup_2.
Qed.

Lemma repeats_defs b n v u : repeats b n v u -> exists i j insi insj, (i < n)%nat /\ (j < n)%nat /\
block_insts b !! i = Some insi /\ block_insts b !! j = Some insj /\ inst_id insi = u /\ inst_id insj = v.
Proof. intros (i & j & insi & insj & k & Hij & ? & ? & ? & ? & _). exists i, j, insi, insj. split; [lia|]. split; [lia | done]. Qed.

(** The identifier of the next instruction is new to the state. *)
Lemma walk_fresh bs b n st ins :
b ∈ blocks f -> (forall b', b' ∈ bs -> b' ∈ blocks f /\ b' <> b) -> walk_inv bs b n st -> block_insts b !! n = Some ins ->
st.2 !! inst_id ins = None /\ (forall k u, (k, u) ∈ st.1 -> u <> inst_id ins) /\
(forall v u, st.2 !! v = Some u -> u <> inst_id ins).
Proof.
intros Hb Hbs Hinv Hn.
assert (Hloc : forall i ins', (i < n)%nat -> block_insts b !! i = Some ins' -> inst_id ins' <> inst_id ins).
{ intros i ins' Hi Hl E. assert (i = n); [by apply (inst_index_unique f Hnd b i n ins' ins) | lia]. }
assert (Hfar : forall b' ins' i, b' ∈ bs -> block_insts b' !! i = Some ins' -> inst_id ins' <> inst_id ins).
{ intros b' ins' i Hb' Hl E. destruct (Hbs b' Hb') as [Hin Hne]. apply Hne.
apply (def_block_unique f Hnd b' b (inst_id ins')); [done | done | |rewrite E]; by eapply inst_def, list_elem_of_lookup_2. }
assert (Hents : forall v u, st.2 !! v = Some u -> u <> inst_id ins /\ v <> inst_id ins).
{ intros v u Hv. destruct (inv_map _ _ _ _ Hinv v u Hv) as [_ [Hr|(b' & Hb' & Hr)]];
apply repeats_defs in Hr as (i & j & insi & insj & Hi & Hj & Hli & Hlj & <- & <-); eauto. }
split; [|split].
- destruct (st.2 !! inst_id ins) as [u|] eqn:E; [|done]. by destruct (Hents _ _ E) as [_ ?].
- intros k u Hin. destruct (inv_seen _ _ _ _ Hinv k u Hin) as (_ & i & x & Hi & Hl & <- & _). by eapply Hloc.
- intros v u Hv. by apply Hents in Hv as [? _].
Qed.

Lemma walk_step bs b n st ins :
b ∈ blocks f -> (forall b', b' ∈ bs -> b' ∈ blocks f /\ b' <> b) -> walk_inv bs b n st -> block_insts b !! n = Some ins ->
walk_inv bs b (S n) (cse_inst barrier st ins).
Proof.
intros Hb Hbs Hinv Hn. destruct (walk_fresh bs b n st ins Hb Hbs Hinv Hn) as (F1 & F2 & F3).
assert (Hmono : walk_inv bs b (S n) st).
{ split.
- intros k u Hin. destruct (inv_seen _ _ _ _ Hinv k u Hin) as (H & i & x & Hi & Hx). split; [done|].
exists i, x. split; [lia | done].
- intros v u Hv. destruct (inv_map _ _ _ _ Hinv v u Hv) as [H [Hr|Hr]]; split; try done; [left; by apply repeats_S | by right]. }
destruct st as [seen rw]. unfold cse_inst. destruct (skipped barrier ins) eqn:Hs; [done|].
destruct (key_of ins) as [k|] eqn:Hk; [|done]. simpl in *.
destruct (seen_get seen k) as [first|] eqn:Hg.
- apply seen_get_elem in Hg. destruct (inv_seen _ _ _ _ Hinv k first Hg) as (Hf & i & x & Hi & Hl & Ex & Hkx & Hsx).
split; simpl.
+ intros k' u Hin. rewrite lookup_insert_ne by (by apply not_eq_sym, (F2 k')). by apply (inv_seen _ _ _ _ Hmono).
+ intros v u Hv. apply lookup_insert_Some in Hv as [[<- <-]|[Hne Hv]].
* rewrite lookup_insert_ne by (by apply not_eq_sym, (F2 k)). split; [done|]. left.
exists i, n, x, ins, k. split; [lia | done].
* rewrite lookup_insert_ne by (by apply not_eq_sym, (F3 v)). by apply (inv_map _ _ _ _ Hmono).
- split; simpl; [|by apply (inv_map _ _ _ _ Hmono)].
intros k' u Hin. apply elem_of_cons in Hin as [E|Hin]; [|by apply (inv_seen _ _ _ _ Hmono)].
injection E as -> ->. split; [done|]. exists n, ins. split; [lia | done].
Qed.

Lemma walk_insts bs b n il st :
b ∈ blocks f -> (forall b', b' ∈ bs -> b' ∈ blocks f /\ b' <> b) -> drop n (block_insts b) = il -> walk_inv bs b n st ->
walk_inv bs b (n + length il) (foldl (cse_inst barrier) st il).
Proof.
intros Hb Hbs. revert n st. induction il as [|ins il IH]; intros n st Hd Hinv; [by rewrite Nat.add_0_r|].
assert (Hn : block_insts b !! n = Some ins) by (rewrite <- (Nat.add_0_r n), <- lookup_drop, Hd; done).
cbn [foldl length]. rewrite Nat.add_succ_r, <- Nat.add_succ_l. apply IH; [|by apply walk_step].
by rewrite <- Nat.add_1_r, <- drop_drop, Hd.
Qed.

(** Every entry of the final map redirects a repetition to a value that stays. *)
Lemma cse_map_spec v u :
NoDup (blocks f) -> cse_map barrier f !! v = Some u -> cse_map barrier f !! u = None /\ exists b, b ∈ blocks f /\ repeats_in b v u.
Proof.
intros Hbl. unfold cse_map.
assert (Hgen : forall (todo bs : list BasicBlock) (rw : gmap ValueId ValueId), (forall b, b ∈ todo -> b ∈ blocks f /\ b ∉ bs) -> NoDup todo -> (forall b, b ∈ bs -> b ∈ blocks f) ->
(forall v u, rw !! v = Some u -> rw !! u = None /\ exists b, b ∈ bs /\ repeats_in b v u) ->
let rw' := foldl (cse_block barrier) rw todo in
forall v u, rw' !! v = Some u -> rw' !! u = None /\ exists b, b ∈ blocks f /\ repeats_in b v u).
{ induction todo as [|b todo IH]; intros bs rw Htodo Hndt Hbs Hrw; simpl.
- intros v' u' H. destruct (Hrw v' u' H) as (? & b & ? & ?). eauto.
- apply list.NoDup_cons in Hndt as [Hb Hndt]. destruct (Htodo b ltac:(left)) as [Hbin Hbnew].
apply (IH (b :: bs)); [| done | |].
+ intros b' Hb'. destruct (Htodo b' ltac:(by right)) as [? ?]. split; [done|]. intros [->|?]%elem_of_cons; done.
+ intros b' [->|?]%elem_of_cons; [done | by apply Hbs].
+ assert (Hi : walk_inv bs b 0 ([], rw)).
{ split; simpl; [by intros k u' ?%not_elem_of_nil|]. intros v' u' H. destruct (Hrw v' u' H) as (? & b' & ? & ?). eauto. }
apply (walk_insts bs b 0 (block_insts b)) in Hi; [|done | intros b' Hb'; split; [by apply Hbs | by intros ->] | apply drop_0].
intros v' u' H. destruct (inv_map _ _ _ _ Hi v' u' H) as [? [Hr|(b' & Hb' & Hr)]]; (split; [done|]).
* exists b. split; [left | done].
* exists b'. split; [by right | done]. }
apply (Hgen (blocks f) [] ∅).
- intros b Hb. split; [done | apply not_elem_of_nil].
- done.
- by intros b ?%not_elem_of_nil.
- intros v' u' H. by rewrite lookup_empty in H.
Qed.
End rewrite_map.

(** * Behaviour *)

Lemma blocks_NoDup f : block_index_ok f -> NoDup (blocks f).
Proof. intros H. eapply NoDup_fmap_1, (block_ids_NoDup f H). Qed.

(** An earlier instruction of the same block is available wherever a later one is. *)
Lemma avail_earlier f b0 i j insi insj b p :
  ssa_wf f -> b0 ∈ blocks f -> b ∈ blocks f -> (i < j)%nat ->
  block_insts b0 !! i = Some insi -> block_insts b0 !! j = Some insj ->
  avail f b p (inst_id insj) -> avail f b p (inst_id insi).
Proof.
  intros Hwf Hb0 Hb Hij Hi Hj Ha. destruct (decide (block_id b0 = block_id b)) as [E|Hne].
  - assert (b0 = b) as ->.
    { eapply (NoDup_fmap_inj_on block_id); [by apply block_ids_NoDup, wf_index | done..]. }
    pose proof (avail_inst f (wf_defs f Hwf) b p j insj Hb Hj Ha). right; right; left.
    apply elem_of_take_iff. exists i. split; [lia|]. unfold inst_ids. by rewrite list_lookup_fmap, Hi.
  - right; right; right. exists b0. split; [done|]. split; [done|]. split; [by eapply inst_def, list_elem_of_lookup_2|].
    apply (avail_cross f (wf_defs f Hwf) b0 b p (inst_id insj)); [done | done | | done | done].
    by eapply inst_def, list_elem_of_lookup_2.
Qed.

Section correct.
Context {X W : Type} `{!Host X W} `{!CommHost X W}.
Context (f : Function) (Hwf : ssa_wf f) (barrier env_dyn : bool) (Henv_dyn : env_dyn = true -> barrier = true) (call call' : call_sem X W) (Hcall : refines_call true call call').
Context (Htyped : forall b i, b ∈ blocks f -> i ∈ block_insts b -> payload_typed i).
Notation env := (gmap ValueId (val X)).
Implicit Types (ρ : env) (w : W).

Let rw := cse_map barrier f.
Let keep (v : ValueId) : Prop := rw !! v = None.

Lemma candidate_pure i k : key_of i = Some k -> skipped barrier i = false -> pure_inst env_dyn (inst_kind i).
Proof.
intros Hk Hs. apply (pure_inst_mono _ _ _ Henv_dyn). split; [by eapply key_of_pure|]. unfold skipped in Hs. by rewrite <- fpenv_sensitive_touches.
Qed.

Lemma repeats_value b0 v u b p ρ w :
visits f env_dyn call b p ρ w -> b0 ∈ blocks f -> repeats_in barrier b0 v u -> avail f b p v -> ρ !! u = ρ !! v.
Proof.
intros Hv Hb0 (i & j & insi & insj & k & Hij & Hi & Hj & <- & <- & Hki & Hkj & Hsi & Hsj) Ha.
pose proof (visits_block f Hwf env_dyn call b p ρ w Hv) as [Hb _].
pose proof (avail_earlier f b0 i j insi insj b p Hwf Hb0 Hb ltac:(lia) Hi Hj Ha) as Ha'.
apply list_elem_of_lookup_2 in Hi, Hj.
destruct (visits_eqs_hold f Hwf env_dyn call b p ρ w Hv b0 insi Hb0 Hi (candidate_pure _ _ Hki Hsi) Ha')
as (vs & x & Hvs & Hx & Hρ).
destruct (visits_eqs_hold f Hwf env_dyn call b p ρ w Hv b0 insj Hb0 Hj (candidate_pure _ _ Hkj Hsj) Ha)
as (vs' & x' & Hvs' & Hx' & Hρ').
pose proof (same_key_value insi insj k ρ Hki Hkj (Htyped b0 insi Hb0 Hi) (Htyped b0 insj Hb0 Hj)) as E.
unfold value_of in E. rewrite Hvs, Hvs' in E. simpl in E. rewrite Hρ, Hρ'. congruence.
Qed.

Lemma renames_cse b p ρ ρ' w l :
visits f env_dyn call b p ρ w -> agree keep ρ ρ' -> (forall v, v ∈ l -> avail f b p v) -> renames (rename rw) l ρ ρ'.
Proof.
intros Hv Ha Hl. apply (renames_map keep); [done | |done].
intros v u Hin E. pose proof (cse_map_spec barrier f (wf_defs f Hwf) v u (blocks_NoDup f (wf_index f Hwf)) E) as (Hu & b0 & Hb0 & Hr).
split; [done|]. by eapply repeats_value; eauto.
Qed.

(** A removed instruction is pure. *)
Lemma removed_pure b ins : b ∈ blocks f -> ins ∈ block_insts b -> is_Some (rw !! inst_id ins) ->
pure_inst env_dyn (inst_kind ins).
Proof.
intros Hb Hin [u Hu].
pose proof (cse_map_spec barrier f (wf_defs f Hwf) _ u (blocks_NoDup f (wf_index f Hwf)) Hu)
as (_ & b0 & Hb0 & i & j & insi & insj & k & _ & _ & Hj & _ & E & _ & Hk & _ & Hs).
apply list_elem_of_lookup_2 in Hj. rewrite <- (inst_unique f (wf_defs f Hwf) b0 b insj ins); try done.
by eapply candidate_pure.
Qed.

Definition cse_chunk (ins : Inst) : list Inst :=
match rw !! inst_id ins with Some _ => [] | None => [map_inst_operands (rename rw) ins] end.

Lemma cse_chunks (il : list Inst) :
filter (fun i => rw !! inst_id i = None) (map_inst_operands (rename rw) <$> il) = mjoin (cse_chunk <$> il).
Proof.
induction il as [|i il IH]; [done|]. rewrite fmap_cons, filter_cons.
change (mjoin (cse_chunk <$> i :: il)) with (cse_chunk i ++ mjoin (cse_chunk <$> il)). rewrite <- IH.
unfold cse_chunk. simpl. destruct (rw !! inst_id i); [by rewrite decide_False | by rewrite decide_True].
Qed.

Lemma cse_chunk_sim b i ins ρ ρ' w :
visits f env_dyn call b i ρ w -> block_insts b !! i = Some ins -> agree keep ρ ρ' ->
step_sim true keep (exec_inst env_dyn call ins ρ w) (exec_insts env_dyn call' (cse_chunk ins) ρ' w).
Proof.
intros Hv Hi Ha. pose proof (visits_block f Hwf env_dyn call b i ρ w Hv) as [Hb _]. unfold cse_chunk.
destruct (rw !! inst_id ins) as [u|] eqn:E.
- rewrite (exec_inst_pure env_dyn call ins ρ w) by (eapply removed_pure; [done | by eapply list_elem_of_lookup_2 | eauto]).
destruct (_ ≫= _) as [x|]; [|intros []]. exists ρ'. split; [done|]. intros v Hk.
rewrite lookup_insert_ne; [by apply Ha|]. intros <-. unfold keep in Hk. congruence.
- assert (Hone : forall ins', exec_insts env_dyn call' [ins'] ρ' w = exec_inst env_dyn call' ins' ρ' w).
{ intros ins'. simpl. by destruct (exec_inst env_dyn call' ins' ρ' w). }
rewrite Hone. apply renamed_inst; [done | done|].
eapply renames_cse; [done | done|]. intros v Hin. by eapply (wf_inst_uses f Hwf).
Qed.

Lemma cse_function_refines fuel args w :
refines true (enter_function env_dyn call fuel f args w)
(enter_function env_dyn call' fuel (cse_function barrier f).1 args w).
Proof.
unfold cse_function. fold rw. case_decide as Hemp; simpl.
{ by apply same_function_refines. }
apply (expand_refines true env_dyn call call' f _ keep (fun b i ins c => c = cse_chunk ins)
(fun b b' => block_term b' = map_term_operands (rename rw) <$> block_term b)); [done | done | | |].
- simpl. apply Forall2_fmap_r, Forall2_fmap_r, Forall_Forall2_diag, Forall_forall. intros b _. split; [|done].
split; [done|]. split; [done|]. exists (cse_chunk <$> block_insts b). split; [apply cse_chunks|].
split; [by rewrite length_fmap|]. intros i ins c Hi Hc. rewrite list_lookup_fmap, Hi in Hc. by injection Hc.
- intros b i ins c ρ ρ' w' _ -> Hv Hi Ha. by eapply cse_chunk_sim.
- intros b b' ρ ρ' w' Hb -> Hv Ha _. apply renamed_term. eapply renames_cse; [exact Hv | done|].
intros v Hin. destruct (block_term b) as [t|] eqn:Et; [|by apply not_elem_of_nil in Hin].
by eapply (wf_term_uses f Hwf).
Qed.
End correct.

(** * Properties *)

(** What the pass needs of a function: SSA form and payloads that match their
    types, as the IR builder produces them. *)
Definition cse_ready (f : Function) : Prop :=
  ssa_wf f /\ forall b i, b ∈ blocks f -> i ∈ block_insts b -> payload_typed i.

(** The module-level statement, in any environment the pass allows for. *)
Lemma local_cse_refines {X W} `{!Host X W} `{!CommHost X W} m (dyn : nat -> bool) :
  (forall n, dyn n = true -> crosses_barrier_fn m n = true) -> (forall f, f ∈ functions m -> cse_ready f) ->
  forall fuel idx args (w : W),
    refines true (run_func dyn fuel (functions m) idx args w) (run_func dyn fuel (functions (local_cse m).1) idx args w).
Proof.
  intros Hdyn Hfs. simpl. apply run_func_refines; [by rewrite length_fmap, length_imap|].
  intros n f f' Hn Hn' call call' fuel args w Hcall.
  rewrite list_lookup_fmap, list_lookup_imap, Hn in Hn'. simpl in Hn'. injection Hn' as <-.
  destruct (Hfs f ltac:(by eapply list_elem_of_lookup_2)) as [Hwf Ht]. apply cse_function_refines; try done. apply Hdyn.
Qed.

(** C35: Local common-subexpression elimination preserves behaviour: removing a
    repeated expression of a block and using the first one's value instead leaves
    every run of every procedure unchanged.  Functions that may cross a
    floating-point barrier may run in a dynamic floating-point environment;
    elsewhere floating-point operations are functions of their operands. *)
Theorem local_cse_preserves {X W} `{!Host X W} `{!CommHost X W} m (dyn : nat -> bool) :
  (forall n, dyn n = true -> crosses_barrier_fn m n = true) -> (forall f, f ∈ functions m -> cse_ready f) ->
  forall fuel idx args (w : W),
    refines true (run_func dyn fuel (functions m) idx args w) (run_func dyn fuel (functions (local_cse m).1) idx args w).
Proof. exact (local_cse_refines m dyn). Qed.

(** The key is sound: two instructions with the same key compute the same
    value in every environment, commuted operands, normalized constants and bit
    patterns of floats included. *)
Theorem key_of_sound {X W} `{!Host X W} `{!CommHost X W} i j k (ρ : gmap ValueId (val X)) :
  key_of i = Some k -> key_of j = Some k -> payload_typed i -> payload_typed j ->
  lookup_all ρ (inst_uses (inst_kind i)) ≫= eval_pure (inst_kind i) (inst_ty i) =
  lookup_all ρ (inst_uses (inst_kind j)) ≫= eval_pure (inst_kind j) (inst_ty j).
Proof. apply same_key_value. Qed.

#[local] Existing Instance unit_host.

#[local] Instance unit_comm_host : CommHost unit unit.
Proof. intros k ty x y _. reflexivity. Qed.

(** [(x + y) * (y + x)] *)
Definition square_fn : Function :=
  mk_fn "square"
    [{| param_name := "x"; param_ty := i32; param_id := 0; fortran_noalias := false |};
     {| param_name := "y"; param_ty := i32; param_id := 1; fortran_noalias := false |}] i32
    [mk_block 0 "entry" []
       [mk_inst 2 (IAdd 0 1) i32; mk_inst 3 (IAdd 1 0) i32; mk_inst 4 (IMul 2 3) i32] (Return (Some 4%N))] 5.

Lemma square_fn_ready : cse_ready square_fn.
Proof.
  split; [apply ssa_wf_check; vm_compute; reflexivity|].
  intros b i Hb Hi. apply list_elem_of_singleton in Hb as ->.
  repeat (apply elem_of_cons in Hi as [->|Hi]; [exact I|]). by apply not_elem_of_nil in Hi.
Qed.

Lemma local_cse_preserves_witness :
  length (blocks (cse_function false square_fn).1 ≫= block_insts) = 2%nat /\
  run_func (X := unit) (crosses_barrier_fn (mk_module [square_fn])) 1 (functions (local_cse (mk_module [square_fn])).1) 0
    [VInt I32 2; VInt I32 5] () = RRet (Some (VInt I32 49)) ().
Proof.
  split; [vm_compute; reflexivity|].
  transitivity (run_func (X := unit) (crosses_barrier_fn (mk_module [square_fn])) 1 [square_fn] 0 [VInt I32 2; VInt I32 5] ());
    [|vm_compute; reflexivity].
  apply (local_cse_preserves (mk_module [square_fn])).
  - done.
  - intros f Hf. apply list_elem_of_singleton in Hf as ->. apply square_fn_ready.
  - vm_compute. exact I.
Defined.

Lemma key_of_sound_witness :
  exists k, key_of (mk_inst 2 (ConstInt 255 I8) (TInt I8)) = Some k /\
    lookup_all (∅ : gmap ValueId (val unit)) [] ≫= eval_pure (ConstInt 255 I8) (TInt I8) =
    lookup_all ∅ [] ≫= eval_pure (ConstInt (-1) I8) (TInt I8).
Proof.
  eexists. split; [reflexivity|].
  eapply (key_of_sound (mk_inst 2 (ConstInt 255 I8) (TInt I8)) (mk_inst 3 (ConstInt (-1) I8) (TInt I8)) _ ∅);
    [reflexivity | vm_compute; reflexivity | |]; (split; [reflexivity | unfold srange; lia]).
Defined.
