(* ===== verification/Dce.v ===== *)
(** Dead-code elimination (src/src/opt/dce.rs): which internal calls may be
    discarded, the mark-and-sweep of instructions, and the removal of unused
    block parameters. *)

From stdpp Require Import sorting.
From S2P Require Import Prelude IrTypes IrInst Sample Worklist IrWalk Floats IrSem Fpenv Dominators Ssa IrVerify Lockstep Prune WfEdit ConstProp.

(** * Discardable calls *)

Definition alloca_ids (f : Function) : list ValueId :=
  omap (fun i => match inst_kind i with Alloca _ => Some (inst_id i) | _ => None end) (fn_insts f).

(** [derived_by_base] *)
Definition derived_by_base (f : Function) (base : ValueId) : list ValueId :=
  omap (fun i => match inst_kind i with
                 | GetElementPtr b _ => if decide (b = base) then Some (inst_id i) else None
                 | _ => None
                 end) (fn_insts f).

Definition local_stack_addresses (f : Function) : gset ValueId :=
  default ∅ (bfs (derived_by_base f) (length (fn_insts f)) (list_to_set (alloca_ids f)) (alloca_ids f)).

(** What one instruction contributes to [effect_free_body_dependencies]: an effect
    ([None]) or the internal callees it adds. *)
Definition inst_dependencies (f : Function) (local : gset ValueId) (preserve_fp_effects : bool) (i : Inst) : option (list N) :=
  if preserve_fp_effects && is_scalar_fpenv_sensitive f i then None
  else match inst_kind i with
       | Store _ addr | VStore _ addr => if decide (addr ∈ local) then Some [] else None
       | VolatileLoad _ | VolatileStore _ _ => None
       | RuntimeCall _ _ => None
       | Call (Internal idx) _ => Some [idx]
       | Call _ _ => None
       | _ => Some []
       end.

Definition block_dependencies (f : Function) (local : gset ValueId) (preserve_fp_effects : bool) (b : BasicBlock) : option (list N) :=
  ds ← mapM (inst_dependencies f local preserve_fp_effects) (block_insts b);
  match block_term b with Some Unreachable => None | _ => Some (mjoin ds) end.

Definition effect_free_body_dependencies (f : Function) (preserve_fp_effects : bool) : option (list N) :=
  ds ← mapM (block_dependencies f (local_stack_addresses f) preserve_fp_effects) (blocks f);
  Some (mjoin ds).

Definition body_dependencies (f : Function) (preserve_fp_effects : bool) : option (list N) :=
  if negb (bool_decide (return_type f = Void)) && is_pure f
  then effect_free_body_dependencies f preserve_fp_effects else None.

Section derive.
Context (fs : list Function) (preserve_fp_effects : nat -> bool).

Definition dependencies (i : nat) : option (list N) := fs !! i ≫= fun f => body_dependencies f (preserve_fp_effects i).

(** Not discardable from the start: an effect in the body, or a callee out of
range. *)
Definition poisoned (i : nat) : bool :=
match dependencies i with
| None => true
| Some ds => negb (forallb (fun d => bool_decide (N.to_nat d < length fs)%nat) ds)
end.

(** [callers_by_callee[j]]: the direct candidates that call [j]; the callees of
one caller are recorded up to the first one out of range. *)
Fixpoint recorded (ds : list N) : list nat :=
match ds with
| [] => []
| d :: ds => if decide (N.to_nat d < length fs)%nat then N.to_nat d :: recorded ds else []
end.

Definition dependents_of (j : nat) : list nat :=
seq 0 (length fs) ≫= fun i => match dependencies i with
                | Some ds => (fun _ => i) <$> filter (eq j) (recorded ds)
                | None => []
                end.

Definition poison_seeds : list nat := filter (fun i => poisoned i = true) (seq 0 (length fs)).

(** The poisoning worklist. *)
Definition effectful : gset nat :=
default ∅ (bfs dependents_of (length fs) (list_to_set poison_seeds) poison_seeds).

(** [info[i].discardable_when_unused] for an index in range. *)
Definition discardable (i : nat) : bool := bool_decide (i < length fs)%nat && bool_decide (i ∉ effectful).
End derive.

(** [derive_internal_call_dce_info_for_context]. *)
Definition derive_internal_call_dce_info_for_context (m : Module_) (preserve_fp_effects : nat -> bool) : list bool :=
  discardable (functions m) preserve_fp_effects <$> seq 0 (length (functions m)).

(** * Instructions *)

Definition has_side_effect (i : Inst) (internal_calls : list bool) (preserved_fp_effects : gset ValueId) : bool :=
  if decide (inst_id i ∈ preserved_fp_effects) then true
  else match inst_kind i with
       | Store _ _ | VolatileLoad _ | VolatileStore _ _ | VStore _ _ | RuntimeCall _ _ | Alloca _ => true
       | Call (Internal idx) _ =>
           match internal_calls !! N.to_nat idx with Some d => negb d | None => true end
       | Call _ _ => true
       | _ => false
       end.

Definition block_uses (b : BasicBlock) : list ValueId :=
  (block_insts b ≫= fun i => inst_uses (inst_kind i)) ++
  match block_term b with Some t => terminator_uses t | None => [] end.

Definition collect_live_uses (f : Function) : gset ValueId := list_to_set (blocks f ≫= block_uses).

(** [block.insts.retain(..)] *)
Definition sweep_block (live : gset ValueId) (calls : list bool) (fp : gset ValueId) (b : BasicBlock) : BasicBlock :=
  set_insts b (filter (fun i => has_side_effect i calls fp = true \/ inst_id i ∈ live) (block_insts b)).

(** One round of the inner loop, and whether an instruction went. *)
Definition sweep_round (calls : list bool) (fp : gset ValueId) (f : Function) : Function * bool :=
  let live := collect_live_uses f in
  let f' := map_blocks (sweep_block live calls fp) f in
  (f', existsb (fun b => negb (length (block_insts (sweep_block live calls fp b)) =? length (block_insts b))%nat) (blocks f)).

(** The inner [while changed] loop; the second component says whether anything
    changed, [None] is exhausted fuel. *)
Fixpoint sweep_loop (fuel : nat) (calls : list bool) (fp : gset ValueId) (f : Function) : option (Function * bool) :=
  match fuel with
  | O => None
  | S fuel =>
      match sweep_round calls fp f with
      | (f', true) => '(f'', _) ← sweep_loop fuel calls fp f'; Some (f'', true)
      | (f', false) => Some (f', false)
      end
  end.

(** * Block parameters *)

(** [Vec::remove(idx)] behind the length check is [delete]. *)
Definition drop_branch_arg (target : BlockId) (idx : nat) (t : Terminator) : Terminator :=
  match t with
  | Branch d args => if decide (d = target) then Branch d (delete idx args) else t
  | CondBranch c td ta fd fa =>
      CondBranch c td (if decide (td = target) then delete idx ta else ta)
                 fd (if decide (fd = target) then delete idx fa else fa)
  | _ => t
  end.

(** The indices of the dead parameters of a block, in ascending order. *)
Definition dead_params (live : gset ValueId) (b : BasicBlock) : list nat :=
  mjoin (imap (fun idx p => if decide (bp_id p ∈ live) then [] else [idx]) (block_params b)).

Definition by_block (f : Function) : gmap BlockId (list nat) :=
  let live := collect_live_uses f in
  foldl (fun m b =>
    if decide (block_id b = entry f) then m
    else match dead_params live b with
         | [] => m
         | idxs => <[block_id b := default [] (m !! block_id b) ++ idxs]> m
         end) ∅ (blocks f).

(** [block_index]; the last block with an identifier wins. *)
Definition block_index (f : Function) : gmap BlockId nat :=
  foldl (fun m p => <[p.1 := p.2]> m) ∅ (imap (fun i b => (block_id b, i)) (blocks f)).

(** The body of the loop over [idxs]: one parameter of the block at [target_idx]
    and the matching argument of every branch to it.  [None] is a panic. *)
Definition remove_param (f : Function) (target : BlockId) (target_idx idx : nat) : option Function :=
  blk ← blocks f !! target_idx;
  let bs := <[target_idx := set_params blk (delete idx (block_params blk))]> (blocks f) in
  Some (set_blocks f ((fun b => set_term b (drop_branch_arg target idx <$> block_term b)) <$> bs)).

Fixpoint remove_params (f : Function) (target : BlockId) (target_idx : nat) (idxs : list nat) : option Function :=
  match idxs with
  | [] => Some f
  | idx :: idxs => f' ← remove_param f target target_idx idx; remove_params f' target target_idx idxs
  end.

Fixpoint remove_entries (f : Function) (index : gmap BlockId nat) (entries : list (BlockId * list nat)) : option Function :=
  match entries with
  | [] => Some f
  | (target, idxs) :: entries =>
      target_idx ← index !! target;
      f' ← remove_params f target target_idx (reverse idxs);
      remove_entries f' index entries
  end.

Section dce.
(** The iteration order of the hash map [by_block]. *)
Context (entry_order : gmap BlockId (list nat) -> list (BlockId * list nat)).

Definition remove_dead_block_params (f : Function) : option (Function * bool) :=
let m := by_block f in
if decide (m = ∅) then Some (f, false)
else f' ← remove_entries f (block_index f) (entry_order m); Some (f', true).

(** Loop bounds: one round per instruction and per block parameter, and a last
one that finds nothing. *)
Definition inst_count (f : Function) : nat := length (fn_insts f).
Definition param_count (f : Function) : nat := length (blocks f ≫= block_params).

(** The outer loop. *)
Fixpoint dce_loop (fuel : nat) (calls : list bool) (fp : gset ValueId) (f : Function) : option (Function * bool) :=
match fuel with
| O => None
| S fuel =>
'(f1, c1) ← sweep_loop (S (inst_count f)) calls fp f;
'(f2, c2) ← remove_dead_block_params f1;
if (c2 : bool) then '(f3, _) ← dce_loop fuel calls fp f2; Some (f3, true) else Some (f2, c1)
end.

Definition preserved_fp_ids (f : Function) (preserve_fp_effects : bool) : gset ValueId :=
if preserve_fp_effects
then list_to_set (inst_id <$> filter (fun i => is_scalar_fpenv_sensitive f i = true) (fn_insts f)) else ∅.

Definition dce_function (f : Function) (internal_calls : list bool) (preserve_fp_effects : bool) : option (Function * bool) :=
let fp := preserved_fp_ids f preserve_fp_effects in
'(f1, c1) ← dce_loop (S (param_count f)) internal_calls fp f;
'(f2, c2) ← prune_unreachable f1;
Some (f2, c1 || c2).

(** [Dce::run]. *)
Definition dce (m : Module_) : option (Module_ * bool) :=
let preserve_fp_effects := dynamic_fn m in
let internal_calls := derive_internal_call_dce_info_for_context m preserve_fp_effects in
rs ← mapM (fun p => dce_function p.2 internal_calls (preserve_fp_effects p.1))
(zip (seq 0 (length (functions m))) (functions m));
Some (set_functions m rs.*1, existsb (fun r => r.2) rs).
End dce.

(** * The discardable functions *)

Section discardable.
Context (fs : list Function) (fp : nat -> bool).
Notation n := (length fs).

(** The dependencies of a direct candidate. *)
Definition depends (i j : nat) : Prop :=
exists ds d, dependencies fs fp i = Some ds /\ d ∈ ds /\ N.to_nat d = j.

Lemma recorded_spec ds j : j ∈ recorded fs ds -> (j < n)%nat /\ exists d, d ∈ ds /\ N.to_nat d = j.
Proof.
induction ds as [|d ds IH]; simpl; [by intros ?%not_elem_of_nil|]. case_decide; [|by intros ?%not_elem_of_nil].
intros [->|Hj]%elem_of_cons; [split; [done|]; exists d; split; [left | done]|].
destruct (IH Hj) as (? & d' & ? & ?). split; [done|]. exists d'. split; [by right | done].
Qed.

Lemma recorded_all ds d : Forall (fun d => (N.to_nat d < n)%nat) ds -> d ∈ ds -> N.to_nat d ∈ recorded fs ds.
Proof.
induction 1 as [|x ds Hx _ IH]; simpl; [by intros ?%not_elem_of_nil|]. rewrite decide_True by done.
intros [->|Hd]%elem_of_cons; [left | right; by apply IH].
Qed.

Lemma callers_edge i j : edge (dependents_of fs fp) j i -> (i < n)%nat /\ depends i j.
Proof.
unfold edge, dependents_of. intros (k & Hk & Hin)%list_elem_of_bind. apply elem_of_seq in Hin.
destruct (dependencies fs fp k) as [ds|] eqn:E; [|by apply not_elem_of_nil in Hk].
apply list_elem_of_fmap in Hk as (x & -> & Hx). apply list_elem_of_filter in Hx as [<- Hx].
apply recorded_spec in Hx as (_ & d & Hd & Ed). split; [lia|]. by exists ds, d.
Qed.

Lemma depends_edge i j : (i < n)%nat -> poisoned fs fp i = false -> depends i j -> edge (dependents_of fs fp) j i.
Proof.
intros Hi Hp (ds & d & E & Hd & <-). unfold edge, dependents_of. apply list_elem_of_bind. exists i.
split; [|apply elem_of_seq; lia]. rewrite E. apply list_elem_of_fmap. exists (N.to_nat d). split; [done|].
apply list_elem_of_filter. split; [done|]. apply recorded_all; [|done].
unfold poisoned in Hp. rewrite E in Hp. apply negb_false_iff in Hp. rewrite forallb_forall in Hp.
apply Forall_forall. intros x Hx. by apply list_elem_of_In, Hp, bool_decide_eq_true in Hx.
Qed.

Lemma poison_seed i : i ∈ poison_seeds fs fp <-> (i < n)%nat /\ poisoned fs fp i = true.
Proof. unfold poison_seeds. rewrite list_elem_of_filter, elem_of_seq. intuition lia. Qed.

Lemma effectful_spec i :
i ∈ effectful fs fp <-> exists r, r ∈ poison_seeds fs fp /\ rtc (edge (dependents_of fs fp)) r i.
Proof.
assert (Hnd : NoDup (poison_seeds fs fp)) by apply NoDup_filter, NoDup_seq.
unfold effectful. set (seeds := poison_seeds fs fp) in *.
destruct (bfs_total (dependents_of fs fp) (list_to_set (seq 0 n)) n (list_to_set seeds) seeds) as [s Hs].
- intros x y _ Hy. apply callers_edge in Hy as [Hy _]. apply elem_of_list_to_set, elem_of_seq. lia.
- intros x Hx. apply elem_of_list_to_set, poison_seed in Hx as [Hx _]. apply elem_of_list_to_set, elem_of_seq. lia.
- intros x Hx. by apply elem_of_list_to_set.
- done.
- rewrite !size_list_to_set by (done || apply NoDup_seq). rewrite length_seq.
assert (length seeds <= n)%nat; [|lia]. unfold seeds, poison_seeds. etrans; [apply list.length_filter|]. by rewrite length_seq.
- rewrite Hs. simpl.
rewrite (bfs_inv_spec (dependents_of fs fp) (list_to_set seeds) n (list_to_set seeds) seeds s);
[|apply bfs_inv_init; intros x; by rewrite elem_of_list_to_set | done | done].
by setoid_rewrite elem_of_list_to_set.
Qed.

(** A discardable function is a direct candidate and calls only discardable
functions. *)
Lemma discardable_inv i :
discardable fs fp i = true ->
(i < n)%nat /\ exists ds, dependencies fs fp i = Some ds /\ forall d, d ∈ ds -> discardable fs fp (N.to_nat d) = true.
Proof.
unfold discardable. rewrite andb_true_iff, !bool_decide_eq_true. intros [Hi Hne]. split; [done|].
assert (Hp : poisoned fs fp i = false).
{ destruct (poisoned fs fp i) eqn:E; [|done]. exfalso. apply Hne, effectful_spec. exists i.
split; [by apply poison_seed | apply rtc_refl]. }
unfold poisoned in Hp. destruct (dependencies fs fp i) as [ds|] eqn:E; [|done]. exists ds. split; [done|].
intros d Hd. rewrite andb_true_iff, !bool_decide_eq_true.
apply negb_false_iff in Hp. rewrite forallb_forall in Hp. pose proof Hd as Hr.
apply list_elem_of_In, Hp, bool_decide_eq_true in Hr. split; [done|]. intros He. apply Hne.
apply effectful_spec in He as (r & Hr' & Hrd). apply effectful_spec. exists r. split; [done|].
eapply rtc_r; [exact Hrd|]. apply depends_edge; [done | | by exists ds, d].
unfold poisoned. rewrite E. apply negb_false_iff, forallb_forall. done.
Qed.
End discardable.

(** * Discardable calls leave the world alone *)

Definition leaves_world {X W} (w : W) (r : result X W) : Prop :=
  match r with RRet _ w' => w' = w | RHalt _ => False | RStuck | RTimeout => True end.

Definition step_quiet {X W} (w : W) (s : step_res X W) : Prop :=
  match s with SNext _ w' => w' = w | SHalt _ => False | SStuck | STimeout => True end.

(** Sensitive floating-point instructions are scalar, as lowering emits them. *)
Definition scalar_fp (f : Function) : Prop :=
  forall i, i ∈ fn_insts f -> is_fpenv_sensitive (inst_kind i) = true -> is_scalar_fpenv_sensitive f i = true.

(** * Frames

    What the effect analysis relies on in the target: stack slots allocated by a
    procedure, and the addresses derived from them, belong to its frame; writing to
    them is invisible once the frame is released. *)
Class FrameHost (X W : Type) `{!Host X W} := {
  (** [local_to w0 w]: since [w0] only the frame of the procedure entered there changed. *)
  local_to : W -> W -> Prop;
  (** The value addresses a slot allocated after [w0]. *)
  slot_since : W -> val X -> Prop;
  local_refl w : local_to w w;
  local_leave w0 w : local_to w0 w -> host_leave w0 w = w0;
  local_alloca t ty vs w0 w : local_to w0 w ->
    match host_effect (shape (Alloca t)) ty vs w with
    | EVal v w' => local_to w0 w' /\ slot_since w0 (canon v) | EHalt _ => False | EStuck => True
    end;
  local_store k v a ty x y w0 w : k = Store v a \/ k = VStore v a -> local_to w0 w -> slot_since w0 y ->
    match host_effect (shape k) ty [x; y] w with EVal _ w' => local_to w0 w' | EHalt _ => False | EStuck => True end;
  slot_gep base idxs ty x vs v w0 : slot_since w0 x ->
    host_pure (shape (GetElementPtr base idxs)) ty (x :: vs) = Some v -> slot_since w0 (canon v) }.

(** An address of the analysis is a slot or is derived from one. *)
Lemma local_stack_inv f v :
  v ∈ local_stack_addresses f ->
  exists b i, b ∈ blocks f /\ i ∈ block_insts b /\ inst_id i = v /\
    ((exists t, inst_kind i = Alloca t) \/
     exists base idxs, inst_kind i = GetElementPtr base idxs /\ base ∈ local_stack_addresses f).
Proof.
  unfold local_stack_addresses. destruct (bfs _ _ _ _) as [s|] eqn:E; simpl; [|by intros ?%not_elem_of_empty].
  intros Hv. destruct (bfs_pred _ _ _ _ _ (fun x => proj2 (elem_of_list_to_set x (alloca_ids f))) E) as [_ Hp].
  destruct (Hp v Hv) as [Ha|(base & Hb & He)].
  - apply elem_of_list_to_set, list_elem_of_omap in Ha as (i & Hi & Ha). apply list_elem_of_bind in Hi as (b & Hi & Hb).
    exists b, i. destruct (inst_kind i) eqn:Ek; simplify_eq. eauto 10.
  - apply list_elem_of_omap in He as (i & Hi & He). apply list_elem_of_bind in Hi as (b & Hi & Hbk).
    exists b, i. destruct (inst_kind i) eqn:Ek; simplify_eq. case_decide; simplify_eq. eauto 12.
Qed.

Section quiet.
Context {X W : Type} `{!Host X W} `{!FrameHost X W}.
(** [dyn] is the environment the pass assumes, [env_dyn] the one the function runs in. *)
Context (f : Function) (dyn env_dyn : bool) (Henv_dyn : env_dyn = true -> dyn = true) (call : call_sem X W).
Context (Hnd : NoDup (fn_def_ids f)) (Hfp : env_dyn = true -> scalar_fp f) (w0 : W).
Notation env := (gmap ValueId (val X)).
Notation local := (local_stack_addresses f).

(** The addresses of the analysis that have a value address the frame entered at
[w0]. *)
Definition slots_hold (ρ : env) : Prop := forall v x, v ∈ local -> ρ !! v = Some x -> slot_since w0 x.

Definition step_local (s : step_res X W) : Prop :=
match s with SNext ρ w => slots_hold ρ /\ local_to w0 w | SHalt _ => False | SStuck | STimeout => True end.

Lemma slots_insert (ρ : env) v x : slots_hold ρ -> (v ∈ local -> slot_since w0 x) -> slots_hold (<[v := x]> ρ).
Proof.
intros Hs Hv u y Hu Hy. destruct (decide (u = v)) as [->|Hne].
- rewrite lookup_insert_eq in Hy. simplify_eq. by apply Hv.
- rewrite lookup_insert_ne in Hy by done. by eapply Hs.
Qed.

Lemma local_is_inst b i :
b ∈ blocks f -> i ∈ block_insts b -> inst_id i ∈ local ->
(exists t, inst_kind i = Alloca t) \/ exists base idxs, inst_kind i = GetElementPtr base idxs /\ base ∈ local.
Proof.
intros Hb Hi (b' & i' & Hb' & Hi' & E & Hk)%local_stack_inv. by rewrite (inst_unique f Hnd b b' i i') by done.
Qed.

Lemma bparam_not_local b v : b ∈ blocks f -> v ∈ (bp_id <$> block_params b) -> v ∉ local.
Proof.
intros Hb Hp (b' & i & Hb' & Hi & <- & _)%local_stack_inv. pose proof (inst_def b' i Hi) as Hd.
assert (b = b') as <-.
{ apply (def_block_unique f Hnd b b' (inst_id i)); [done | done | | done]. unfold def_ids. apply elem_of_app. by left. }
eapply (inst_not_bparam f Hnd b); [done | by apply list_elem_of_fmap_2 | done].
Qed.

Lemma slots_params b vs (ρ ρ' : env) :
b ∈ blocks f -> bind_params (block_params b) vs ρ = Some ρ' -> slots_hold ρ -> slots_hold ρ'.
Proof.
intros Hb Hbind Hs v x Hv Hx. rewrite (bind_params_frame _ _ _ _ v Hbind) in Hx; [by eapply Hs|].
intros Hp. by eapply bparam_not_local.
Qed.

Lemma slots_args vs (ρ : env) : bind_args (fn_params f) vs ∅ = Some ρ -> slots_hold ρ.
Proof.
assert (H : forall ps vs (ρ1 ρ2 : env), bind_args ps vs ρ1 = Some ρ2 -> (forall v, v ∈ (param_id <$> ps) -> v ∉ local) ->
slots_hold ρ1 -> slots_hold ρ2).
{ induction ps as [|p ps IH]; intros [|y ys] ρ1 ρ2 Hb Hp Hs; simpl in Hb; simplify_eq; [done|].
apply (IH ys _ _ Hb); [intros v Hv; apply Hp; by right|]. apply slots_insert; [done|].
intros Hl. by destruct (Hp (param_id p) ltac:(left)). }
intros Hb. apply (H _ _ _ _ Hb); [|by intros v x _ Hx; rewrite lookup_empty in Hx].
intros v Hp (b' & i & Hb' & Hi & <- & _)%local_stack_inv. by eapply (def_not_param f Hnd b'); [|apply inst_def|].
Qed.

(** An instruction the analysis lets pass keeps to the frame. *)
Lemma exec_inst_quiet b i ds (ρ : env) w :
b ∈ blocks f -> i ∈ block_insts b -> inst_dependencies f local dyn i = Some ds ->
(forall c vs w, c ∈ ds -> leaves_world w (call c vs w)) -> slots_hold ρ -> local_to w0 w ->
step_local (exec_inst env_dyn call i ρ w).
Proof.
intros Hb Hi Hd Hcalls Hs Hw. pose proof (local_is_inst b i Hb Hi) as Hl.
assert (Hf : i ∈ fn_insts f) by (apply list_elem_of_bind; eauto).
unfold exec_inst. destruct (lookup_all ρ _) as [vs|] eqn:Ev; [|done].
rewrite <- fpenv_sensitive_touches. unfold inst_dependencies in Hd.
destruct (env_dyn && is_fpenv_sensitive (inst_kind i)) eqn:Ed.
{ apply andb_true_iff in Ed as [Ee Ed]. by rewrite (Henv_dyn Ee), (Hfp Ee i Hf Ed) in Hd. }
destruct (dyn && is_scalar_fpenv_sensitive f i); [done|].
destruct (class_of (inst_kind i)) as [| | |c] eqn:Ec.
- destruct (eval_pure _ _ _) as [v|] eqn:Ep; [|done]. split; [|done]. apply slots_insert; [done|]. intros Hv.
destruct (Hl Hv) as [[t Ek]|(base & idxs & Ek & Hbase)]; rewrite Ek in *; [done|].
cbn [inst_uses] in Ev. rewrite lookup_all_cons in Ev. destruct (ρ !! base) as [x|] eqn:Ex; [|done]. cbn [mbind option_bind] in Ev.
destruct (lookup_all ρ idxs) as [ys|]; cbn [mbind option_bind] in Ev; [|done]. injection Ev as <-.
unfold eval_pure in Ep. cbn [core_eval] in Ep. apply fmap_Some in Ep as (u & Eu & ->).
eapply slot_gep; [|exact Eu]. by eapply Hs.
- destruct (host_read _ _ _ _) as [v|]; [|done]. split; [|done]. apply slots_insert; [done|]. intros Hv.
destruct (Hl Hv) as [[t Ek]|(base & idxs & Ek & Hbase)]; by rewrite Ek in Ec.
- assert (Hst : forall v a, inst_kind i = Store v a \/ inst_kind i = VStore v a -> a ∈ local ->
step_local (finish_effect ρ (inst_id i) (host_effect (shape (inst_kind i)) (inst_ty i) vs w))).
{ intros v a Hk Ha. assert (Hu : inst_uses (inst_kind i) = [v; a]) by (by destruct Hk as [-> | ->]).
rewrite Hu, !lookup_all_cons in Ev. destruct (ρ !! v) as [x|]; [|done]. destruct (ρ !! a) as [y|] eqn:Ey; [|done].
simpl in Ev. injection Ev as <-. pose proof (local_store (inst_kind i) v a (inst_ty i) x y w0 w Hk Hw (Hs _ _ Ha Ey)) as H.
destruct (host_effect _ _ _ w) as [u w'|w'|]; [|done|done]. split; [|done]. apply slots_insert; [done|]. intros Hv.
destruct (Hl Hv) as [[t Ek]|(base & idxs & Ek & _)]; rewrite Ek in Hk; by destruct Hk. }
destruct (inst_kind i) eqn:Ek; try done; try (by destruct callee);
try (case_decide as Ha; [|done]; eapply Hst; [|exact Ha]; eauto).
pose proof (local_alloca t (inst_ty i) vs w0 w Hw) as H. destruct (host_effect _ _ _ w) as [u w'|w'|]; [|done|done].
destruct H as [Hw' Hu]. split; [by apply slots_insert | done].
- apply class_of_call in Ec as [args Ek]. rewrite Ek in Hd. injection Hd as <-.
specialize (Hcalls c vs w ltac:(left)). unfold finish_call.
destruct (call c vs w) as [[v|] w'|w'| |]; try done; simpl in Hcalls; subst w'; [|done]. split; [|done].
apply slots_insert; [done|]. intros Hv. destruct (Hl Hv) as [[t Ek']|(base & idxs & Ek' & _)]; by rewrite Ek in Ek'.
Qed.

Lemma exec_insts_quiet b il (dss : list (list N)) (ρ : env) w :
b ∈ blocks f -> (forall i, i ∈ il -> i ∈ block_insts b) -> mapM (inst_dependencies f local dyn) il = Some dss ->
(forall c vs w, c ∈ mjoin dss -> leaves_world w (call c vs w)) -> slots_hold ρ -> local_to w0 w ->
step_local (exec_insts env_dyn call il ρ w).
Proof.
intros Hb Hin Hm. apply mapM_Some in Hm. revert ρ w Hin.
induction Hm as [|i ds il dss Hi _ IH]; intros ρ w Hin Hcalls Hs Hw; simpl; [done|].
assert (H1 : step_local (exec_inst env_dyn call i ρ w)).
{ apply (exec_inst_quiet b i ds); try done; [apply Hin; left|].
intros c vs w' Hc. apply Hcalls. cbn [mjoin list_join]. apply elem_of_app. by left. }
destruct (exec_inst env_dyn call i ρ w) as [ρ1 w1| | |]; try done. destruct H1.
apply IH; [intros j Hj; apply Hin; by right | | done | done].
intros c vs w' Hc. apply Hcalls. cbn [mjoin list_join]. apply elem_of_app. by right.
Qed.

Lemma run_blocks_quiet fuel b vs (ρ : env) w ds :
effect_free_body_dependencies f dyn = Some ds -> (forall c vs w, c ∈ ds -> leaves_world w (call c vs w)) ->
slots_hold ρ -> local_to w0 w ->
match run_blocks env_dyn call fuel f b vs ρ w with RRet _ w' => local_to w0 w' | RHalt _ => False | RStuck | RTimeout => True end.
Proof.
unfold effect_free_body_dependencies. intros Hd Hcalls.
destruct (mapM _ _) as [dss|] eqn:Em; simpl in Hd; [|done]. simplify_eq. apply mapM_Some in Em.
revert b vs ρ w. induction fuel as [|fuel IH]; intros b vs ρ w Hs Hw; simpl; [done|].
unfold exec_block. destruct (find_block f b) as [blk|] eqn:Ef; [|done].
destruct (bind_params _ vs ρ) as [ρ1|] eqn:Eb; [|done]. apply find_block_Some in Ef as [Hblk _].
pose proof Hblk as Hl. apply list_elem_of_lookup in Hl as [k Hk].
destruct (Forall2_lookup_l _ _ _ _ _ Em Hk) as (bds & Hbds & Hb). unfold block_dependencies in Hb.
destruct (mapM _ (block_insts blk)) as [dis|] eqn:Ei; simpl in Hb; [|done].
assert (bds = mjoin dis) as -> by (destruct (block_term blk) as [[]|]; by simplify_eq).
assert (Hq : step_local (exec_insts env_dyn call (block_insts blk) ρ1 w)).
{ apply (exec_insts_quiet blk _ dis); try done; [|by eapply slots_params].
intros c vs' w' Hc. apply Hcalls. apply list_elem_of_join. exists (mjoin dis).
split; [done | by eapply list_elem_of_lookup_2]. }
destruct (exec_insts env_dyn call (block_insts blk) ρ1 w) as [ρ2 w2| | |]; try done. destruct Hq.
destruct (exec_term (block_term blk) ρ2); [by apply IH | done | done].
Qed.

End quiet.

(** Sensitive instructions are scalar where the environment is dynamic. *)
Definition scalar_where (dyn : nat -> bool) (fs : list Function) : Prop :=
  forall n f, fs !! n = Some f -> dyn n = true -> scalar_fp f.

(** A run of a discardable function leaves the world as it found it. *)
Lemma discardable_quiet {X W} `{!Host X W} `{!FrameHost X W} (fp dyn : nat -> bool) (fs : list Function) :
  (forall n, dyn n = true -> fp n = true) -> (forall f, f ∈ fs -> NoDup (fn_def_ids f)) -> scalar_where dyn fs ->
  forall fuel i args (w : W), discardable fs fp i = true ->
    leaves_world w (run_func (X := X) dyn fuel fs (N.of_nat i) args w).
Proof.
  intros Hdyn Hnd Hfp fuel. induction fuel as [|fuel IH]; intros i args w Hd; [done|].
  destruct (discardable_inv fs fp i Hd) as (Hi & ds & Hds & Hcl).
  destruct (fs !! i) as [f|] eqn:Ef; [|apply lookup_ge_None in Ef; lia].
  cbn [run_func]. rewrite Nat2N.id, Ef. unfold enter_function. destruct (bind_args _ _ _) as [ρ|] eqn:Ea; [|done].
  unfold dependencies in Hds. rewrite Ef in Hds. simpl in Hds. unfold body_dependencies in Hds.
  destruct (negb _ && _); [|done]. assert (Hf : NoDup (fn_def_ids f)) by (apply Hnd; by eapply list_elem_of_lookup_2).
  pose proof (run_blocks_quiet f (fp i) (dyn i) (Hdyn i) (fun i vs w => run_func dyn fuel fs i vs w) Hf (Hfp i f Ef) w
    (S fuel) (entry f) [] ρ w ds Hds) as H.
  destruct (run_blocks _ _ _ _ _ _ _ _) as [v w'|w'| |]; try done; simpl.
  - apply local_leave, H; [| by eapply slots_args | apply local_refl].
    intros c vs w1 Hc. rewrite <- (N2Nat.id c). apply IH. by apply Hcl.
  - apply H; [| by eapply slots_args | apply local_refl].
    intros c vs w1 Hc. rewrite <- (N2Nat.id c). apply IH. by apply Hcl.
Qed.

(** * A target with a stack

    The world is the stack, one value per cell; an address is the number of its
    cell, [Alloca] pushes one, and a return cuts the stack back to its height at the
    call. *)
Definition stack_host : Host nat (list (val nat)) :=
  {| host_pure k _ vs :=
       match k, vs with GetElementPtr _ _, [VOpaque a; VInt _ Z0] => Some (VOpaque a) | _, _ => None end;
     host_read k _ vs w :=
       match k, vs with Load _, [VOpaque a] => w !! a | _, _ => None end;
     host_effect k _ vs w :=
       match k, vs with
       | Alloca _, _ => EVal (VOpaque (length w)) (w ++ [VBool false])
       | Store _ _, [x; VOpaque a] | VStore _ _, [x; VOpaque a] =>
           if decide (a < length w)%nat then EVal (VBool false) (<[a := x]> w) else EStuck
       | _, _ => EStuck
       end;
     host_leave w0 w := take (length w0) w |}.

#[export] Instance stack_frames : FrameHost (Host0 := stack_host) nat (list (val nat)).
Proof.
  refine {| local_to w0 w := take (length w0) w = w0 : Prop;
            slot_since w0 v := match v with VOpaque a => length w0 <= a | _ => False end |}.
  - intros w. by apply take_ge.
  - done.
  - intros t ty vs w0 w Hw. simpl. pose proof (f_equal length Hw) as Hl. rewrite length_take in Hl.
    split; [by rewrite take_app_le by lia | lia].
  - intros k v a ty x y w0 w Hk Hw Hy. destruct y as [| | |y]; try done.
    assert (H : match (if decide (y < length w)%nat then EVal (VBool false) (<[y := x]> w) else EStuck) : effect_result nat (list (val nat)) with
      | EVal _ w' => take (length w0) w' = w0 | EHalt _ => False | EStuck => True end).
    { case_decide; [|done]. by rewrite take_insert_ge by done. }
    destruct Hk as [-> | ->]; exact H.
  - intros base idxs ty x vs v w0 Hx. destruct x as [| | |a]; try done. simpl.
    destruct vs as [|[? []| | |] [|]]; try done. by intros [= <-].
Defined.

#[export] Instance unit_frames : FrameHost (Host0 := unit_host) unit unit.
Proof.
  refine {| local_to _ _ := True; slot_since _ _ := True |}; try done. by intros [] [] _.
Defined.

(** * One sweep *)

Lemma live_inst f b i v :
  b ∈ blocks f -> i ∈ block_insts b -> v ∈ inst_uses (inst_kind i) -> v ∈ collect_live_uses f.
Proof.
  intros Hb Hi Hv. apply elem_of_list_to_set, list_elem_of_bind. exists b. split; [|done].
  apply elem_of_app. left. apply list_elem_of_bind. eauto.
Qed.

Lemma live_term f b v :
  b ∈ blocks f -> v ∈ match block_term b with Some t => terminator_uses t | None => [] end -> v ∈ collect_live_uses f.
Proof.
  intros Hb Hv. apply elem_of_list_to_set, list_elem_of_bind. exists b. split; [|done]. apply elem_of_app. by right.
Qed.

Section sweeping.
Context {X W : Type} `{!Host X W}.
Context (calls : list bool) (fp : gset ValueId) (dyn : bool) (call call' : call_sem X W).
Context (Hcall : refines_call false call call').
Context (Hquiet : forall c vs w, calls !! N.to_nat c = Some true -> leaves_world w (call c vs w)).
Notation env := (gmap ValueId (val X)).

(** The preserved set covers the instructions that are effects. *)
Definition fp_covered (f : Function) : Prop :=
dyn = true -> forall i, i ∈ fn_insts f -> touches_fpenv (inst_kind i) = true -> inst_id i ∈ fp.

(** An instruction without side effect changes nothing but its value. *)
Lemma no_side_effect_step f i (ρ : env) w :
fp_covered f -> i ∈ fn_insts f -> has_side_effect i calls fp = false ->
match exec_inst dyn call i ρ w with
| SNext ρ' w' => w' = w /\ forall v, v <> inst_id i -> ρ' !! v = ρ !! v
| SHalt _ => False
| SStuck | STimeout => True
end.
Proof.
intros Hfp Hi Hs. pose proof (fun ρ' w' v => exec_inst_frame dyn call i ρ w ρ' w' v) as Hframe.
assert (Hq : step_quiet w (exec_inst dyn call i ρ w)).
{ clear Hframe. unfold has_side_effect in Hs. case_decide as Hin; [done|].
unfold exec_inst. destruct (lookup_all ρ _) as [vs|]; [|done].
destruct (dyn && touches_fpenv (inst_kind i)) eqn:Ed.
{ apply andb_true_iff in Ed as [Edyn Et]. by destruct (Hin (Hfp Edyn i Hi Et)). }
destruct (class_of (inst_kind i)) as [| | |c] eqn:Ec.
- by destruct (eval_pure _ _ _).
- by destruct (host_read _ _ _ _).
- destruct (inst_kind i); try done; by destruct callee.
- apply class_of_call in Ec as [args Ek]. rewrite Ek in Hs.
destruct (calls !! N.to_nat c) as [[]|] eqn:El; try done.
specialize (Hquiet c vs w El). unfold finish_call. destruct (call c vs w) as [[v|] w'|w'| |]; done. }
destruct (exec_inst dyn call i ρ w) as [ρ' w'| | |]; try done. split; [done|]. intros v. by apply (Hframe ρ' w').
Qed.

Lemma sweep_refines f fuel args w :
fp_covered f ->
refines false (enter_function dyn call fuel f args w) (enter_function dyn call' fuel (sweep_round calls fp f).1 args w).
Proof.
intros Hfp. simpl. set (live := collect_live_uses f).
set (P := fun i => has_side_effect i calls fp = true \/ inst_id i ∈ live).
apply (expand_refines false dyn call call' f _ (fun v => v ∈ live)
(fun b i ins c => ins ∈ block_insts b /\ c = if decide (P ins) then [ins] else [])
(fun b b' => block_term b' = block_term b)); [done | done | | |].
- simpl. apply Forall2_fmap_r, Forall_Forall2_diag, Forall_forall. intros b _. split; [|done].
split; [done|]. split; [done|]. exists ((fun x => if decide (P x) then [x] else []) <$> block_insts b).
split; [apply filter_chunks|]. split; [by rewrite length_fmap|].
intros i ins c Hi Hc. rewrite list_lookup_fmap, Hi in Hc. injection Hc as <-.
split; [by eapply list_elem_of_lookup_2 | done].
- intros b i ins c ρ ρ' w' Hb [Hin ->] _ Hi Ha. case_decide as HP.
+ apply agreeing_inst; [done | done|]. intros v Hv. by eapply live_inst.
+ assert (Hs : has_side_effect ins calls fp = false) by (destruct (has_side_effect ins calls fp) eqn:E; [|done]; destruct HP; by left).
pose proof (no_side_effect_step f ins ρ w' Hfp ltac:(apply list_elem_of_bind; eauto) Hs) as H.
destruct (exec_inst dyn call ins ρ w') as [ρ1 w1| | |]; simpl; try done.
destruct H as [-> Hframe]. exists ρ'. split; [done|]. intros v Hv. rewrite Hframe; [by apply Ha|].
intros ->. apply HP. by right.
- intros b b' ρ ρ' w' Hb -> _ Ha _. eapply agreeing_term; [exact Ha|]. intros v Hv. by eapply live_term.
Qed.
End sweeping.

(** * One block parameter *)

(** [remove_param] as a map over the blocks. *)
Definition drop_param (target : BlockId) (idx : nat) (b : BasicBlock) : BasicBlock :=
  let b1 := if decide (block_id b = target) then set_params b (delete idx (block_params b)) else b in
  set_term b1 (drop_branch_arg target idx <$> block_term b).

Lemma drop_param_id target idx b : block_id (drop_param target idx b) = block_id b.
Proof. unfold drop_param. by case_decide. Qed.

Lemma remove_param_map f target p idx blk :
  NoDup (block_id <$> blocks f) -> blocks f !! p = Some blk -> block_id blk = target ->
  remove_param f target p idx = Some (map_blocks (drop_param target idx) f).
Proof.
  intros Hnd Hp Ht. unfold remove_param. rewrite Hp. cbn [mbind option_bind]. f_equal.
  unfold map_blocks. f_equal. apply list_eq. intros q. rewrite !list_lookup_fmap. destruct (decide (q = p)) as [->|Hne].
  - rewrite list_lookup_insert_eq by (by eapply lookup_lt_Some). rewrite Hp. simpl. f_equal. unfold drop_param.
    by rewrite decide_True.
  - rewrite list_lookup_insert_ne by done. destruct (blocks f !! q) as [b|] eqn:Eq; [|done]. simpl. f_equal.
    unfold drop_param. rewrite decide_False; [done|]. intros E. apply Hne.
    eapply (proj1 (NoDup_alt _) Hnd q p (block_id b)); rewrite list_lookup_fmap; [by rewrite Eq | by rewrite Hp; simpl; rewrite E, Ht].
Qed.

Section drop.
Context {X W : Type} `{!Host X W}.
Context (dyn : bool) (call : call_sem X W).
Notation env := (gmap ValueId (val X)).
Context (keep : ValueId -> Prop).

Lemma bind_params_delete ps vs (ρ ρ' ρ1 : env) idx pa :
bind_params ps vs ρ = Some ρ1 -> ps !! idx = Some pa -> ~ keep (bp_id pa) -> agree keep ρ ρ' ->
exists ρ1', bind_params (delete idx ps) (delete idx vs) ρ' = Some ρ1' /\ agree keep ρ1 ρ1'.
Proof.
intros Hb Hpa Hk. revert vs ρ ρ' idx Hb Hpa. induction ps as [|p ps IH]; intros [|x vs] ρ ρ' idx Hb Hpa Ha; simpl in *; try done.
destruct idx as [|idx]; simpl in *.
- injection Hpa as ->.
assert (Ha' : agree keep (<[bp_id pa := x]> ρ) ρ').
{ intros v Hv. rewrite lookup_insert_ne by (by intros <-). by apply Ha. }
pose proof (bind_params_agree keep ps vs _ ρ' Ha') as H. by rewrite Hb in H.
- eapply IH; [exact Hb | done | by apply agree_insert].
Qed.

Lemma lookup_all_delete (ρ : env) l vs idx : lookup_all ρ l = Some vs -> lookup_all ρ (delete idx l) = Some (delete idx vs).
Proof. rewrite !lookup_all_Some. apply Forall2_delete. Qed.

Lemma drop_exec_term target idx t (ρ ρ' : env) :
agree keep ρ ρ' -> (forall v, v ∈ match t with Some t => terminator_uses t | None => [] end -> keep v) ->
match exec_term t ρ with
| TJump d vs => exec_term (drop_branch_arg target idx <$> t) ρ' = TJump d (if decide (d = target) then delete idx vs else vs)
| TRet v => exec_term (drop_branch_arg target idx <$> t) ρ' = TRet v
| TStuck => True
end.
Proof.
intros Ha Hu. rewrite <- (agreeing_term keep t ρ ρ' Ha Hu). clear ρ Ha Hu. rename ρ' into ρ.
assert (Hj : forall d args vs, lookup_all ρ args = Some vs ->
jump ρ d (if decide (d = target) then delete idx args else args) = TJump d (if decide (d = target) then delete idx vs else vs)).
{ intros d args vs E. unfold jump. case_decide; [by rewrite (lookup_all_delete ρ args vs idx E) | by rewrite E]. }
destruct t as [[[v|]|d args|c td ta fd fa|s cs d|]|]; simpl; try done.
- by destruct (ρ !! v).
- unfold jump at 1. destruct (lookup_all ρ args) as [vs|] eqn:E; [|done].
specialize (Hj d args vs E). by destruct (decide (d = target)).
- destruct (ρ !! c) as [[| |[]|]|]; try done.
+ unfold jump at 1. destruct (lookup_all ρ ta) as [vs|] eqn:E; [|done]. by apply Hj.
+ unfold jump at 1. destruct (lookup_all ρ fa) as [vs|] eqn:E; [|done]. by apply Hj.
- destruct (ρ !! s) as [[w z| | |]|]; try done. by case_decide.
Qed.
End drop.

(** A parameter that nothing reads can go. *)
Lemma drop_param_refines {X W} `{!Host X W} dyn (call : call_sem X W) f target idx blk pa fuel args w :
  NoDup (block_id <$> blocks f) -> blk ∈ blocks f -> block_id blk = target -> target <> entry f ->
  block_params blk !! idx = Some pa -> bp_id pa ∉ collect_live_uses f ->
  refines false (enter_function dyn call fuel f args w)
                (enter_function dyn call fuel (map_blocks (drop_param target idx) f) args w).
Proof.
  intros Hnd Hblk Ht He Hpa Hdead. unfold enter_function. simpl. destruct (bind_args _ _ _) as [ρ0|]; [|intros []].
  apply leave_refines. set (keep := fun v => v ∈ collect_live_uses f).
  apply (run_blocks_sim false dyn call call f _ (fun b vs ρ vs' ρ' =>
    agree keep ρ ρ' /\ vs' = if decide (b = target) then delete idx vs else vs)).
  2: { split; [done|]. by rewrite decide_False. }
  intros b vs ρ vs' ρ' w' [Ha ->]. unfold exec_block. rewrite find_block_map by apply drop_param_id.
  destruct (find_block f b) as [c|] eqn:Ef; cbn [fmap option_fmap option_map]; [|intros []].
  destruct (bind_params (block_params c) vs ρ) as [ρ1|] eqn:Eb; [|intros []].
  apply find_block_Some in Ef as [Hc Hid].
  assert (Hbind : exists ρ1', bind_params (block_params (drop_param target idx c)) (if decide (b = target) then delete idx vs else vs) ρ' = Some ρ1'
    /\ agree keep ρ1 ρ1').
  { unfold drop_param. rewrite Hid. case_decide as Hbt; simpl.
    - assert (c = blk) as -> by (eapply (NoDup_fmap_inj_on block_id); [exact Hnd | done | done | congruence]).
      by eapply bind_params_delete.
    - pose proof (bind_params_agree keep (block_params c) vs ρ ρ' Ha) as H. by rewrite Eb in H. }
  destruct Hbind as (ρ1' & -> & Ha1).
  assert (Hi : block_insts (drop_param target idx c) = block_insts c) by (unfold drop_param; by case_decide). rewrite Hi.
  pose proof (agreeing_insts false dyn call call keep (block_insts c) ρ1 ρ1' w' (fun c0 vs0 w0 => reflexivity _) (fun i v Hin Hv => live_inst f c i v Hc Hin Hv) Ha1) as Hs.
  destruct (exec_insts dyn call (block_insts c) ρ1 w') as [ρ2 w2|w2| |]; simpl in Hs.
  - destruct Hs as (ρ2' & -> & Ha2).
    pose proof (drop_exec_term keep target idx (block_term c) ρ2 ρ2' Ha2 (fun v Hv => live_term f c v Hc Hv)) as Hterm.
    assert (Etm : block_term (drop_param target idx c) = drop_branch_arg target idx <$> block_term c) by (unfold drop_param; by case_decide).
    rewrite Etm. destruct (exec_term (block_term c) ρ2) as [d vs2|v|]; [|by rewrite Hterm | intros []].
    rewrite Hterm. eexists _, ρ2'. done.
  - intros _. by rewrite (Hs I).
  - intros [].
  - intros H. discriminate H.
Qed.

Lemma drop_branch_arg_uses target idx t v : v ∈ terminator_uses (drop_branch_arg target idx t) -> v ∈ terminator_uses t.
Proof.
  assert (Hd : forall l : list ValueId, v ∈ delete idx l -> v ∈ l).
  { intros l. apply list_elem_of_delete_inv. }
  destruct t; simpl; try done.
  - case_decide; simpl; auto.
  - rewrite !elem_of_cons, !elem_of_app. repeat case_decide; intuition auto.
Qed.

Lemma live_drop_param f target idx : collect_live_uses (map_blocks (drop_param target idx) f) ⊆ collect_live_uses f.
Proof.
  intros v Hv. apply elem_of_list_to_set, list_elem_of_bind in Hv as (b' & Hv & Hb'). simpl in Hb'.
  apply list_elem_of_fmap in Hb' as (b & -> & Hb). apply elem_of_list_to_set, list_elem_of_bind. exists b. split; [|done].
  unfold block_uses in *. apply elem_of_app in Hv as [Hv|Hv]; apply elem_of_app.
  - left. unfold drop_param in Hv. by case_decide.
  - right. assert (Etm : block_term (drop_param target idx b) = drop_branch_arg target idx <$> block_term b)
      by (unfold drop_param; by case_decide). rewrite Etm in Hv.
    destruct (block_term b) as [t|]; simpl in *; [by eapply drop_branch_arg_uses | done].
Qed.

(** * Well-formedness of the steps *)

Lemma elem_of_delete_ne {A} (l : list A) idx x y : l !! idx = Some y -> x ∈ l -> x <> y -> x ∈ delete idx l.
Proof.
  intros Hy Hx Hne. rewrite <- (take_drop_middle l idx y Hy) in Hx. rewrite (delete_take_drop l idx).
  apply elem_of_app in Hx as [Hx|Hx]; apply elem_of_app; [by left|]. apply elem_of_cons in Hx as [->|Hx]; [done | by right].
Qed.

Lemma sweep_wf calls fp f : ssa_wf f -> ssa_wf (sweep_round calls fp f).1.
Proof.
  intros Hwf. set (live := collect_live_uses f). set (f' := (sweep_round calls fp f).1).
  assert (Hargs : forall d n, args_fit f d n -> args_fit f' d n).
  { intros d n Ha b' Hb' Hd. apply list_elem_of_fmap in Hb' as (b & -> & Hb). by apply (Ha b). }
  apply (ssa_wf_edit f f' (fun v => v ∈ live)); [done | | done | done | | |].
  - apply map_blocks_index; [done | apply (wf_index f Hwf)].
  - apply Forall2_fmap_r, Forall_Forall2_diag, Forall_forall. intros b Hb.
    set (P := fun i => has_side_effect i calls fp = true \/ inst_id i ∈ live).
    split; try done.
    + apply (fmap_sublist inst_id), sublist_filter.
    + intros v Hv. split; [done|]. intros (i & -> & Hi)%list_elem_of_fmap.
      apply list_elem_of_fmap_2, list_elem_of_filter. split; [by right | done].
    + intros ins v Hin Hv. apply list_elem_of_filter in Hin as [_ Hin]. split; [by eapply live_inst|].
      apply list_elem_of_lookup in Hin as [i Hi]. exists i, ins. split; [done|]. split; [done|]. by eapply (wf_inst_uses f Hwf).
    + intros t v Ht Hv. split; [|by eapply (wf_term_uses f Hwf)]. apply (live_term f b v Hb).
      change (block_term b = Some t) in Ht. by rewrite Ht.
  - apply Hargs, (wf_entry_params f Hwf).
  - intros b' t Hb' Ht. apply list_elem_of_fmap in Hb' as (b & -> & Hb).
    eapply term_fits_mono; [exact Hargs|]. by apply (wf_fits f Hwf b).
Qed.

Section drop_wf.
Context (f : Function) (Hwf : ssa_wf f) (target : BlockId) (idx : nat) (blk : BasicBlock) (pa : BlockParam).
Context (Hblk : blk ∈ blocks f) (Ht : block_id blk = target) (He : target <> entry f).
Context (Hpa : block_params blk !! idx = Some pa) (Hdead : bp_id pa ∉ collect_live_uses f).
Let f' := map_blocks (drop_param target idx) f.

Lemma drop_param_frame b :
block_id (drop_param target idx b) = block_id b /\ block_insts (drop_param target idx b) = block_insts b /\
block_params (drop_param target idx b) = (if decide (block_id b = target) then delete idx (block_params b) else block_params b) /\
block_term (drop_param target idx b) = drop_branch_arg target idx <$> block_term b.
Proof. unfold drop_param. by case_decide. Qed.

Lemma target_block b : b ∈ blocks f -> block_id b = target -> b = blk.
Proof.
intros Hb E. eapply (NoDup_fmap_inj_on block_id); [apply (block_ids_NoDup f (wf_index f Hwf)) | done | done | congruence].
Qed.

Lemma drop_args_fit d n : args_fit f d n -> args_fit f' d (if decide (d = target) then pred n else n).
Proof.
intros Ha b' Hb' Hd. apply list_elem_of_fmap in Hb' as (b & -> & Hb).
destruct (drop_param_frame b) as (Eid & _ & Eps & _). rewrite Eid in Hd. rewrite Eps. subst d.
pose proof (Ha b Hb eq_refl) as Hn. case_decide as Ed; [|done].
rewrite (target_block b Hb Ed) in *. rewrite length_delete by eauto. lia.
Qed.

(** The argument list of a branch to the target loses the same position. *)
Lemma drop_arg_length d (args : list ValueId) :
args_fit f d (length args) -> args_fit f' d (length (if decide (d = target) then delete idx args else args)).
Proof.
intros Ha. pose proof (drop_args_fit d _ Ha) as H. case_decide as Ed; [|done].
rewrite length_delete; [by rewrite Nat.sub_1_r|]. apply lookup_lt_is_Some. rewrite <- (Ha blk Hblk ltac:(congruence)).
by eapply lookup_lt_Some.
Qed.

Lemma drop_term_fits t : term_fits f t -> term_fits f' (drop_branch_arg target idx t).
Proof.
assert (Hz : forall d, args_fit f d 0 -> args_fit f' d 0).
{ intros d Ha. pose proof (drop_args_fit d 0 Ha) as H. by case_decide. }
destruct t; simpl; try done.
- intros Ha. apply drop_arg_length in Ha. by case_decide.
- intros [Ha Hb]. apply drop_arg_length in Ha, Hb. done.
- intros [Hd Hc]. split; [by apply Hz|]. eapply Forall_impl; [exact Hc|]. intros c. apply Hz.
Qed.

Lemma drop_edited b : b ∈ blocks f -> edited f (fun v => v ∈ collect_live_uses f) b (drop_param target idx b).
Proof.
intros Hb. destruct (drop_param_frame b) as (Eid & Ei & Eps & Et).
assert (Hin : inst_ids (drop_param target idx b) = inst_ids b) by (unfold inst_ids; by rewrite Ei).
split; rewrite ?Hin; try done.
- unfold block_targets. rewrite Et. destruct (block_term b) as [[]|]; simpl; try done. destruct (decide (dest = target)); reflexivity.
- unfold bparam_ids. rewrite Eps. case_decide; [|done]. apply fmap_sublist, sublist_delete.
- rewrite Et. intros [t ->]. simpl. eauto.
- intros v Hv. split; [|done]. unfold bparam_ids. rewrite Eps. case_decide as Ed; [|done].
rewrite (target_block b Hb Ed). rewrite list_fmap_delete.
intros Hx. apply (elem_of_delete_ne _ _ _ (bp_id pa)); [by rewrite list_lookup_fmap, Hpa | done|]. by intros ->.
- intros ins v Hi Hv. rewrite Ei in Hi. split; [by eapply live_inst|].
apply list_elem_of_lookup in Hi as [i Hi]. exists i, ins. split; [done|]. split; [done|]. by eapply (wf_inst_uses f Hwf).
- intros t' v Ht' Hv. rewrite Et in Ht'. apply fmap_Some in Ht' as (t & Ht0 & ->).
apply drop_branch_arg_uses in Hv. split; [|by eapply (wf_term_uses f Hwf)]. apply (live_term f b v Hb). by rewrite Ht0.
Qed.

Lemma drop_param_wf : ssa_wf f'.
Proof.
apply (ssa_wf_edit f f' (fun v => v ∈ collect_live_uses f)); [done | | done | done | | |].
- apply map_blocks_index; [apply drop_param_id | apply (wf_index f Hwf)].
- apply Forall2_fmap_r, Forall_Forall2_diag, Forall_forall, drop_edited.
- pose proof (drop_args_fit _ _ (wf_entry_params f Hwf)) as H. by rewrite decide_False in H by congruence.
- intros b' t Hb' Ht'. apply list_elem_of_fmap in Hb' as (b & -> & Hb).
destruct (drop_param_frame b) as (_ & _ & _ & Et). rewrite Et in Ht'. apply fmap_Some in Ht' as (t0 & Ht0 & ->).
apply drop_term_fits. by apply (wf_fits f Hwf b).
Qed.
End drop_wf.

(** * Sequences of removals *)

(** What every step of the pass leaves in place. *)
Record shrinks (f f' : Function) : Prop := {
  sh_ids : block_id <$> blocks f' = block_id <$> blocks f;
  sh_entry : entry f' = entry f;
  sh_index : block_index_ok f -> block_index_ok f';
  sh_next : next_block f' = next_block f;
  sh_insts : forall i, i ∈ fn_insts f' -> i ∈ fn_insts f;
  sh_live : collect_live_uses f' ⊆ collect_live_uses f;
  sh_params : fn_params f' = fn_params f;
  sh_keys : (forall b t, b ∈ blocks f -> block_term b = Some t -> keys_ok t) ->
    (forall b t, b ∈ blocks f' -> block_term b = Some t -> keys_ok t);
  sh_wf : ssa_wf f -> ssa_wf f' }.

#[export] Instance shrinks_preorder : PreOrder shrinks.
Proof.
  split; [by intros f|]. intros f1 f2 f3 [A1 A2 A3 A4 A5 A6 A7 A8 A9] [B1 B2 B3 B4 B5 B6 B7 B8 B9].
  split; [congruence | congruence | auto | congruence | auto | set_solver | congruence | intros Hk; apply B8, A8, Hk | auto].
Qed.

Lemma drop_param_shrinks f target idx blk pa :
  blk ∈ blocks f -> block_id blk = target -> target <> entry f ->
  block_params blk !! idx = Some pa -> bp_id pa ∉ collect_live_uses f ->
  shrinks f (map_blocks (drop_param target idx) f).
Proof.
  intros Hblk Ht He Hpa Hdead.
  split; [| done | | done | | apply live_drop_param | done | | intros Hwf; by eapply drop_param_wf].
  - simpl. rewrite <- list_fmap_compose. apply list_fmap_ext. intros _ b _. apply drop_param_id.
  - apply map_blocks_index. intros b. apply drop_param_id.
  - intros i Hi. apply list_elem_of_bind in Hi as (b' & Hi & Hb'). simpl in Hb'.
    apply list_elem_of_fmap in Hb' as (b & -> & Hb). apply list_elem_of_bind. exists b. split; [|done].
    unfold drop_param in Hi. by case_decide.
  - intros Hk b' t Hb' Hbt. apply list_elem_of_fmap in Hb' as (b & -> & Hb).
    destruct (drop_param_frame target idx b) as (_ & _ & _ & Et). rewrite Et in Hbt.
    apply fmap_Some in Hbt as (t0 & Ht0 & ->). specialize (Hk b t0 Hb Ht0). destruct t0; try done. simpl. by destruct (decide _).
Qed.

Lemma param_count_drop bs blk target idx :
  NoDup (block_id <$> bs) -> blk ∈ bs -> block_id blk = target -> (idx < length (block_params blk))%nat ->
  S (length ((drop_param target idx <$> bs) ≫= block_params)) = length (bs ≫= block_params).
Proof.
  intros Hnd Hin Ht Hidx. induction bs as [|b bs IH]; [by apply not_elem_of_nil in Hin|].
  rewrite fmap_cons, !bind_cons, !length_app. rewrite fmap_cons in Hnd. apply list.NoDup_cons in Hnd as [Hb Hnd].
  apply elem_of_cons in Hin as [<-|Hin].
  - assert (E : (drop_param target idx <$> bs) ≫= block_params = bs ≫= block_params).
    { clear IH. induction bs as [|c bs IHbs]; [done|]. rewrite fmap_cons, !bind_cons.
      rewrite fmap_cons, not_elem_of_cons in Hb. destruct Hb as [Hc Hb]. rewrite fmap_cons in Hnd.
      apply list.NoDup_cons in Hnd as [_ Hnd]. rewrite IHbs by done. f_equal. unfold drop_param.
      rewrite decide_False; [done | congruence]. }
    rewrite E. unfold drop_param. rewrite decide_True by done. simpl. rewrite length_delete; [lia|]. by apply lookup_lt_is_Some.
  - specialize (IH Hnd Hin). unfold drop_param at 1. rewrite decide_False; [simpl; lia|].
    intros E. apply Hb. rewrite E, <- Ht. by apply list_elem_of_fmap_2.
Qed.

Section refined.
Context {X W : Type} `{!Host X W}.
Context (dyn : bool) (call : call_sem X W).

Definition fn_refines (f f' : Function) : Prop := forall fuel args w,
refines false (enter_function dyn call fuel f args w) (enter_function dyn call fuel f' args w).

#[export] Instance fn_refines_preorder : PreOrder fn_refines.
Proof.
split; [by intros f fuel args w|]. intros f1 f2 f3 H12 H23 fuel args w. etrans; [apply H12 | apply H23].
Qed.

(** Dead parameters at the given positions of a block. *)
Definition all_dead (f : Function) (blk : BasicBlock) (idxs : list nat) : Prop :=
forall idx, idx ∈ idxs -> exists pa, block_params blk !! idx = Some pa /\ bp_id pa ∉ collect_live_uses f.

Lemma remove_params_spec idxs f target p blk :
NoDup (block_id <$> blocks f) -> blocks f !! p = Some blk -> block_id blk = target -> target <> entry f ->
StronglySorted gt idxs -> all_dead f blk idxs ->
exists f', remove_params f target p idxs = Some f' /\ shrinks f f' /\ fn_refines f f' /\
(param_count f' + length idxs = param_count f)%nat /\
(forall q b, blocks f !! q = Some b -> block_id b <> target ->
exists b', blocks f' !! q = Some b' /\ block_id b' = block_id b /\ block_params b' = block_params b).
Proof.
revert f blk. induction idxs as [|idx idxs IH]; intros f blk Hnd Hp Ht He Hs Hd; simpl.
{ exists f. split; [done|]. split; [done|]. split; [done|]. split; [lia|]. eauto. }
apply StronglySorted_cons in Hs as [Hgt Hs]. rewrite Forall_forall in Hgt.
rewrite (remove_param_map f target p idx blk Hnd Hp Ht). cbn [mbind option_bind].
set (f1 := map_blocks (drop_param target idx) f).
destruct (Hd idx ltac:(left)) as (pa & Hpa & Hdead). pose proof (list_elem_of_lookup_2 _ _ _ Hp) as Hin.
assert (Hsh : shrinks f f1) by (by eapply drop_param_shrinks).
destruct (IH f1 (drop_param target idx blk)) as (f' & Hf' & Hsh' & Href & Hcount & Hother).
- by rewrite (sh_ids _ _ Hsh).
- simpl. by rewrite list_lookup_fmap, Hp.
- by rewrite drop_param_id.
- done.
- done.
- intros j Hj. destruct (Hd j ltac:(by right)) as (pj & Hpj & Hdj). exists pj. split.
+ unfold drop_param. rewrite decide_True by done. simpl. rewrite list_lookup_delete_lt; [done|]. specialize (Hgt j Hj). lia.
+ intros Hl. by apply Hdj, (sh_live _ _ Hsh).
- exists f'. split; [done|]. split; [by etrans|]. split; [|split].
+ etrans; [|exact Href]. intros fuel args w. by eapply drop_param_refines.
+ pose proof (param_count_drop (blocks f) blk target idx Hnd Hin Ht ltac:(by eapply lookup_lt_Some)) as Hc.
unfold param_count in *. simpl in Hcount |- *. lia.
+ intros q b Hq Hne. destruct (Hother q (drop_param target idx b)) as (b' & Hb' & Hid & Hps).
* simpl. by rewrite list_lookup_fmap, Hq.
* by rewrite drop_param_id.
* exists b'. split; [done|]. rewrite Hid, Hps, drop_param_id. split; [done|].
unfold drop_param. by rewrite decide_False.
Qed.
End refined.

(** * Which parameters are removed *)

Lemma dead_params_spec live b idx :
  idx ∈ dead_params live b -> exists pa, block_params b !! idx = Some pa /\ bp_id pa ∉ live.
Proof.
  unfold dead_params. intros (l & Hi & Hl)%list_elem_of_join. apply elem_of_lookup_imap in Hl as (j & pa & -> & Hpa).
  case_decide; [by apply not_elem_of_nil in Hi|]. apply list_elem_of_singleton in Hi as ->. eauto.
Qed.

Lemma dead_params_sorted live b : StronglySorted gt (reverse (dead_params live b)).
Proof.
  unfold dead_params. generalize (block_params b) as ps. clear b. intros ps.
  assert (Hgen : forall k, let l := mjoin (imap (fun idx p => if decide (bp_id p ∈ live) then [] else [(k + idx)%nat]) ps) in
    StronglySorted gt (reverse l) /\ forall x, x ∈ l -> (k <= x)%nat).
  { induction ps as [|p ps IH]; intros k; [split; [constructor | by intros x ?%not_elem_of_nil]|].
    destruct (IH (S k)) as [Hs Hge]. clear IH. rewrite imap_cons. cbn [mjoin list_join].
    assert (E : imap ((fun idx p => if decide (bp_id p ∈ live) then [] else [(k + idx)%nat]) ∘ S) ps =
                imap (fun idx p => if decide (bp_id p ∈ live) then [] else [(S k + idx)%nat]) ps).
    { apply imap_ext. intros i x _. simpl. by rewrite Nat.add_succ_r. }
    rewrite E. case_decide; simpl.
    - split; [done|]. intros x Hx. specialize (Hge x Hx). lia.
    - rewrite Nat.add_0_r. split.
      + rewrite reverse_cons. apply StronglySorted_app_2; [|done | repeat constructor].
        intros x y Hx ->%list_elem_of_singleton. rewrite elem_of_reverse in Hx. specialize (Hge x Hx). lia.
      + intros x [->|Hx]%elem_of_cons; [done|]. specialize (Hge x Hx). lia. }
  apply (Hgen 0%nat).
Qed.

Lemma by_block_spec f t idxs :
  NoDup (block_id <$> blocks f) -> by_block f !! t = Some idxs ->
  exists b, b ∈ blocks f /\ block_id b = t /\ t <> entry f /\ idxs = dead_params (collect_live_uses f) b /\ idxs <> [].
Proof.
  unfold by_block. set (live := collect_live_uses f).
  assert (Hgen : forall bs (m : gmap BlockId (list nat)), NoDup (block_id <$> bs) -> (forall b, b ∈ bs -> m !! block_id b = None) ->
    foldl (fun m b => if decide (block_id b = entry f) then m
      else match dead_params live b with [] => m | idxs => <[block_id b := default [] (m !! block_id b) ++ idxs]> m end) m bs !! t = Some idxs ->
    m !! t = Some idxs \/ exists b, b ∈ bs /\ block_id b = t /\ t <> entry f /\ idxs = dead_params live b /\ idxs <> []).
  { induction bs as [|b bs IH]; intros m Hnd Hm H; [by left|]. rewrite fmap_cons in Hnd. apply list.NoDup_cons in Hnd as [Hb Hnd].
    cbn [foldl] in H. apply IH in H as [H|(c & Hc & H)]; [| | done |].
    - case_decide as He; [by left|]. destruct (dead_params live b) as [|i il] eqn:Ed; [by left|].
      rewrite (Hm b ltac:(left)) in H. apply lookup_insert_Some in H as [[<- <-]|[_ H]]; [|by left].
      right. exists b. split; [left|]. by rewrite Ed.
    - right. exists c. split; [by right | done].
    - intros c Hc. assert (block_id c <> block_id b) by (intros E; apply Hb; rewrite <- E; by apply list_elem_of_fmap_2).
      specialize (Hm c ltac:(by right)). case_decide; [done|]. destruct (dead_params live b); [done|].
      by rewrite lookup_insert_ne. }
  intros Hnd H. apply Hgen in H as [H|H]; [by rewrite lookup_empty in H | done | done | done].
Qed.


Lemma block_index_spec f p b :
  NoDup (block_id <$> blocks f) -> blocks f !! p = Some b -> block_index f !! block_id b = Some p.
Proof.
  intros Hnd Hp. unfold block_index.
  assert (E : (imap (fun i b => (block_id b, i)) (blocks f)).*1 = block_id <$> blocks f).
  { rewrite fmap_imap. clear. induction (blocks f) as [|b bs IH] using rev_ind; [done|]. rewrite imap_app, fmap_app. by rewrite IH. }
  apply foldl_insert_elem; [by rewrite E|]. left. apply elem_of_lookup_imap. eauto.
Qed.

Section entries.
Context {X W : Type} `{!Host X W}.
Context (dyn : bool) (call : call_sem X W).

(** An entry of the table that is still to be processed. *)
Definition entry_ok (f : Function) (index : gmap BlockId nat) (e : BlockId * list nat) : Prop :=
exists p blk, index !! e.1 = Some p /\ blocks f !! p = Some blk /\ block_id blk = e.1 /\ e.1 <> entry f /\
StronglySorted gt (reverse e.2) /\ all_dead f blk e.2.

Lemma remove_entries_spec entries f index :
NoDup (block_id <$> blocks f) -> NoDup entries.*1 -> (forall e, e ∈ entries -> entry_ok f index e) ->
exists f', remove_entries f index entries = Some f' /\ shrinks f f' /\ fn_refines dyn call f f' /\
(param_count f' + length (entries ≫= snd) = param_count f)%nat.
Proof.
revert f. induction entries as [|[t idxs] entries IH]; intros f Hnd Hnde Hok.
{ exists f. split; [done|]. split; [done|]. split; [done|]. simpl. lia. }
rewrite fmap_cons in Hnde. apply list.NoDup_cons in Hnde as [Ht Hnde].
destruct (Hok (t, idxs) ltac:(left)) as (p & blk & Hidx & Hp & Hid & He & Hs & Hd). cbn [fst snd] in *.
destruct (remove_params_spec dyn call (reverse idxs) f t p blk Hnd Hp Hid He Hs) as (f1 & Hf1 & Hsh & Href & Hcount & Hother).
{ intros idx Hin. apply Hd. by apply elem_of_reverse. }
cbn [remove_entries]. rewrite Hidx. cbn [mbind option_bind]. rewrite Hf1. cbn [mbind option_bind].
destruct (IH f1) as (f' & -> & Hsh' & Href' & Hcount').
- by rewrite (sh_ids _ _ Hsh).
- done.
- intros [t' idxs'] Hin. destruct (Hok (t', idxs') ltac:(by right)) as (p' & blk' & Hidx' & Hp' & Hid' & He' & Hs' & Hd').
cbn [fst snd] in *. assert (Hne : block_id blk' <> t).
{ rewrite Hid'. intros ->. apply Ht. apply list_elem_of_fmap. by exists (t, idxs'). }
destruct (Hother p' blk' Hp' Hne) as (b' & Hb' & Eid & Eps). exists p', b'. cbn [fst snd].
split; [done|]. split; [done|]. split; [congruence|]. split; [by rewrite (sh_entry _ _ Hsh)|]. split; [done|].
intros idx Hi. destruct (Hd' idx Hi) as (pa & Hpa & Hl). exists pa. rewrite Eps. split; [done|].
intros Hl'. by apply Hl, (sh_live _ _ Hsh).
- exists f'. split; [done|]. split; [by etrans|]. split; [by etrans|].
rewrite bind_cons, length_app. cbn [snd]. rewrite length_reverse in Hcount. lia.
Qed.

(** The hash map's iterator yields each entry once. *)
Definition lists_entries (entry_order : gmap BlockId (list nat) -> list (BlockId * list nat)) : Prop :=
forall m, entry_order m ≡ₚ map_to_list m.

Lemma remove_dead_block_params_spec entry_order f :
lists_entries entry_order -> NoDup (block_id <$> blocks f) ->
exists f' ch, remove_dead_block_params entry_order f = Some (f', ch) /\ shrinks f f' /\ fn_refines dyn call f f' /\
(param_count f' <= param_count f)%nat /\ (ch = true -> (param_count f' < param_count f)%nat) /\ (ch = false -> f' = f).
Proof.
intros Horder Hnd. unfold remove_dead_block_params. case_decide as Hemp; [by exists f, false|].
destruct (remove_entries_spec (entry_order (by_block f)) f (block_index f)) as (f' & -> & Hsh & Href & Hcount).
- done.
- rewrite (Horder (by_block f)). apply NoDup_fst_map_to_list.
- intros [t idxs] Hin. rewrite (Horder (by_block f)) in Hin. apply elem_of_map_to_list in Hin.
destruct (by_block_spec f t idxs Hnd Hin) as (b & Hb & Hid & He & -> & _).
apply list_elem_of_lookup in Hb as [p Hp]. exists p, b. cbn [fst snd]. split; [rewrite <- Hid; by apply block_index_spec|].
split; [done|]. split; [done|]. split; [done|]. split; [apply dead_params_sorted|].
intros idx Hidx. by apply dead_params_spec.
- cbn [mbind option_bind]. exists f', true. split; [done|]. split; [done|]. split; [done|].
assert (Hpos : (0 < length (entry_order (by_block f) ≫= snd))%nat); [|split; [lia | split; [lia | done]]].
destruct (map_choose _ Hemp) as (t & idxs & Hm).
destruct (by_block_spec f t idxs Hnd Hm) as (_ & _ & _ & _ & _ & Hne).
assert (Hin : (t, idxs) ∈ entry_order (by_block f)) by (rewrite (Horder (by_block f)); by apply elem_of_map_to_list).
destruct idxs as [|i il]; [done|].
assert (Hi : i ∈ (entry_order (by_block f) ≫= snd)) by (apply list_elem_of_bind; exists (t, i :: il); split; [left | done]).
destruct (entry_order (by_block f) ≫= snd); [by apply not_elem_of_nil in Hi | simpl; lia].
Qed.
End entries.

(** * The loops *)

Lemma sweep_block_same live calls fp b :
  length (block_insts (sweep_block live calls fp b)) = length (block_insts b) -> sweep_block live calls fp b = b.
Proof.
  unfold sweep_block. simpl. intros E. rewrite filter_same_length by done. by destruct b.
Qed.

Lemma sweep_shrinks calls fp f : shrinks f (sweep_round calls fp f).1.
Proof.
  split; [| done | | done | | | done | | apply sweep_wf]; simpl.
  - by rewrite <- list_fmap_compose.
  - by apply map_blocks_index.
  - intros i Hi. apply list_elem_of_bind in Hi as (b' & Hi & Hb'). simpl in Hb'.
    apply list_elem_of_fmap in Hb' as (b & -> & Hb). apply list_elem_of_bind. exists b. split; [|done].
    simpl in Hi. by apply list_elem_of_filter in Hi as [_ Hi].
  - intros v Hv. apply elem_of_list_to_set, list_elem_of_bind in Hv as (b' & Hv & Hb'). simpl in Hb'.
    apply list_elem_of_fmap in Hb' as (b & -> & Hb). apply elem_of_list_to_set, list_elem_of_bind. exists b. split; [|done].
    unfold block_uses in *. apply elem_of_app in Hv as [Hv|Hv]; apply elem_of_app; [left | by right].
    simpl in Hv. apply list_elem_of_bind in Hv as (i & Hv & Hi). apply list_elem_of_filter in Hi as [_ Hi].
    apply list_elem_of_bind. eauto.
  - intros Hk b' t Hb' Ht. apply list_elem_of_fmap in Hb' as (b & -> & Hb). by apply (Hk b).
Qed.

Lemma sweep_false calls fp f : (sweep_round calls fp f).2 = false -> (sweep_round calls fp f).1 = f.
Proof.
  unfold sweep_round. cbn [fst snd]. intros H.
  assert (E : sweep_block (collect_live_uses f) calls fp <$> blocks f = blocks f).
  { transitivity ((fun b : BasicBlock => b) <$> blocks f); [|apply list_fmap_id].
    apply list_fmap_ext. intros i b Hb. apply sweep_block_same. apply list_elem_of_lookup_2, list_elem_of_In in Hb.
    destruct (length (block_insts (sweep_block (collect_live_uses f) calls fp b)) =? length (block_insts b))%nat eqn:El;
      [by apply Nat.eqb_eq|].
    assert (Hex : existsb (fun b => negb (length (block_insts (sweep_block (collect_live_uses f) calls fp b)) =? length (block_insts b))%nat)
      (blocks f) = true) by (apply existsb_exists; exists b; by rewrite El). congruence. }
  unfold map_blocks. rewrite E. by destruct f.
Qed.

Lemma length_bind_le {A B} (g h : A -> list B) (l : list A) :
  (forall x, x ∈ l -> (length (g x) <= length (h x))%nat) -> (length (l ≫= g) <= length (l ≫= h))%nat.
Proof.
  induction l as [|x l IH]; intros H; [done|]. rewrite !bind_cons, !length_app.
  specialize (H x ltac:(left)) as Hx. assert ((length (l ≫= g) <= length (l ≫= h))%nat) by (apply IH; intros y Hy; apply H; by right). lia.
Qed.

Lemma bind_fmap_l {A B C} (g : A -> B) (h : B -> list C) (l : list A) : (g <$> l) ≫= h = l ≫= (h ∘ g).
Proof. induction l as [|x l IH]; [done|]. rewrite fmap_cons, !bind_cons. by rewrite IH. Qed.

Lemma sweep_true calls fp f : (sweep_round calls fp f).2 = true -> (inst_count (sweep_round calls fp f).1 < inst_count f)%nat.
Proof.
  unfold sweep_round. cbn [fst snd]. intros H. apply existsb_exists in H as (b & Hb & Hlt). apply list_elem_of_In in Hb.
  apply negb_true_iff, Nat.eqb_neq in Hlt. unfold inst_count, fn_insts. simpl. rewrite bind_fmap_l.
  set (g := fun b => block_insts (sweep_block (collect_live_uses f) calls fp b)).
  assert (Hle : forall b, (length (g b) <= length (block_insts b))%nat) by (intros c; apply list.length_filter).
  change (length (blocks f ≫= g) < length (blocks f ≫= block_insts))%nat.
  apply list_elem_of_split in Hb as (l1 & l2 & ->). rewrite !bind_app, !bind_cons, !length_app.
  pose proof (length_bind_le g block_insts l1 (fun x _ => Hle x)). pose proof (length_bind_le g block_insts l2 (fun x _ => Hle x)).
  specialize (Hle b). unfold g in *. lia.
Qed.

Lemma sweep_param_count calls fp f : param_count (sweep_round calls fp f).1 = param_count f.
Proof. unfold param_count. simpl. by rewrite bind_fmap_l. Qed.

Section loops.
Context {X W : Type} `{!Host X W}.
Context (calls : list bool) (fp : gset ValueId) (dyn : bool) (call : call_sem X W).
Context (Hquiet : forall c vs w, calls !! N.to_nat c = Some true -> leaves_world w (call c vs w)).
Context (entry_order : gmap BlockId (list nat) -> list (BlockId * list nat)) (Horder : lists_entries entry_order).

Lemma fp_covered_shrinks f f' : shrinks f f' -> fp_covered fp dyn f -> fp_covered fp dyn f'.
Proof. intros Hsh Hc Hd i Hi. apply Hc; [done | by apply (sh_insts _ _ Hsh)]. Qed.

Lemma sweep_fn_refines f : fp_covered fp dyn f -> fn_refines dyn call f (sweep_round calls fp f).1.
Proof.
intros Hc fuel args w. apply (sweep_refines calls fp dyn call call); [|done | done].
intros c vs w'. reflexivity.
Qed.

(** The inner loop ends with a function that a sweep leaves alone. *)
Lemma sweep_loop_spec fuel f :
(inst_count f < fuel)%nat -> fp_covered fp dyn f ->
exists f' ch, sweep_loop fuel calls fp f = Some (f', ch) /\ shrinks f f' /\ fn_refines dyn call f f' /\
param_count f' = param_count f /\ (sweep_round calls fp f').2 = false.
Proof.
revert f. induction fuel as [|fuel IH]; intros f Hf Hc; [lia|]. cbn [sweep_loop].
destruct (sweep_round calls fp f) as [f1 c] eqn:Es. pose proof (sweep_shrinks calls fp f) as Hsh.
pose proof (sweep_fn_refines f Hc) as Href. pose proof (sweep_param_count calls fp f) as Hpc.
pose proof (sweep_true calls fp f) as Ht. pose proof (sweep_false calls fp f) as Hfl.
rewrite Es in Hsh, Href, Hpc, Ht, Hfl. cbn [fst snd] in *. destruct c.
- destruct (IH f1) as (f' & ch & -> & Hsh' & Href' & Hpc' & Hend).
{ specialize (Ht eq_refl). lia. }
{ by eapply fp_covered_shrinks. }
cbn [mbind option_bind]. exists f', true. split; [done|]. split; [by etrans|]. split; [by etrans|].
split; [congruence | done].
- rewrite (Hfl eq_refl) in *. exists f, false. split; [done|]. split; [done|]. split; [done|]. split; [done|]. by rewrite Es.
Qed.

Lemma dce_loop_spec fuel f :
(param_count f < fuel)%nat -> fp_covered fp dyn f -> NoDup (block_id <$> blocks f) ->
exists f' ch, dce_loop entry_order fuel calls fp f = Some (f', ch) /\ shrinks f f' /\ fn_refines dyn call f f' /\
(sweep_round calls fp f').2 = false /\ by_block f' = ∅.
Proof.
revert f. induction fuel as [|fuel IH]; intros f Hf Hc Hnd; [lia|]. cbn [dce_loop].
destruct (sweep_loop_spec (S (inst_count f)) f ltac:(lia) Hc) as (f1 & c1 & -> & Hsh1 & Href1 & Hpc1 & Hend1).
cbn [mbind option_bind]. pose proof (fp_covered_shrinks _ _ Hsh1 Hc) as Hc1.
assert (Hnd1 : NoDup (block_id <$> blocks f1)) by (by rewrite (sh_ids _ _ Hsh1)).
destruct (remove_dead_block_params_spec dyn call entry_order f1 Horder Hnd1)
as (f2 & c2 & H2 & Hsh2 & Href2 & _ & Hpc2 & Heq2). rewrite H2. cbn [mbind option_bind]. destruct c2.
- destruct (IH f2) as (f3 & c3 & -> & Hsh3 & Href3 & Hend).
{ specialize (Hpc2 eq_refl). lia. }
{ by eapply fp_covered_shrinks. }
{ by rewrite (sh_ids _ _ Hsh2). }
cbn [mbind option_bind]. exists f3, true. split; [done|]. split; [etrans; [exact Hsh1|]; by etrans|].
split; [etrans; [exact Href1|]; by etrans | done].
- rewrite (Heq2 eq_refl) in *. exists f1, c1. split; [done|]. split; [done|]. split; [done|]. split; [done|].
unfold remove_dead_block_params in H2. case_decide as He; [done|].
destruct (remove_entries f1 (block_index f1) (entry_order (by_block f1))); cbn [mbind option_bind] in H2; by simplify_eq.
Qed.
End loops.

(** * Properties *)

(** What the pass needs of a function: an indexed CFG. *)
Definition dce_ready (f : Function) : Prop := block_index_ok f /\ counters_ok f.

Lemma preserved_covers f (dyn env_dyn : bool) :
  (env_dyn = true -> dyn = true) -> (env_dyn = true -> scalar_fp f) -> fp_covered (preserved_fp_ids f dyn) env_dyn f.
Proof.
  intros Hd Hs E i Hi Ht. unfold preserved_fp_ids. rewrite (Hd E).
  apply elem_of_list_to_set, list_elem_of_fmap_2, list_elem_of_filter. split; [|done].
  apply (Hs E); [done|]. by rewrite fpenv_sensitive_touches.
Qed.

(** What the pass does to one function: steps that shrink it, then pruning. *)
Lemma dce_function_shape {X W} `{!Host X W} entry_order f calls (dyn env_dyn : bool) (call : call_sem X W) :
  lists_entries entry_order -> dce_ready f -> (env_dyn = true -> dyn = true) -> (env_dyn = true -> scalar_fp f) ->
  (forall c vs w, calls !! N.to_nat c = Some true -> leaves_world w (call c vs w)) ->
  exists f1 f2 ch, dce_function entry_order f calls dyn = Some (f2, ch) /\ shrinks f f1 /\ fn_refines env_dyn call f f1 /\
    blocks f2 = kept_blocks f1 /\ block_index_ok f2 /\ entry f2 = entry f1 /\ fn_params f2 = fn_params f1.
Proof.
  intros Horder (Hok & Hc) Hd Hs Hquiet. unfold dce_function.
  destruct (dce_loop_spec calls (preserved_fp_ids f dyn) env_dyn call Hquiet entry_order Horder (S (param_count f)) f
    ltac:(lia) (preserved_covers f dyn env_dyn Hd Hs) (block_ids_NoDup f Hok)) as (f1 & c1 & -> & Hsh & Href & _).
  cbn [mbind option_bind].
  destruct (prune_unreachable_total f1 (sh_index _ _ Hsh Hok)) as (f2 & c2 & -> & Hbs & Hok2 & He & Hps & _);
    [unfold counters_ok in *; by rewrite (sh_next _ _ Hsh)|]. cbn [mbind option_bind].
  exists f1, f2, (c1 || c2). done.
Qed.

(** The pass on one function never panics or runs out of rounds. *)
Lemma dce_function_total entry_order f calls dyn :
  lists_entries entry_order -> dce_ready f -> exists f' ch, dce_function entry_order f calls dyn = Some (f', ch) /\ block_index_ok f'.
Proof.
  intros Horder Hr.
  destruct (dce_function_shape (Host0 := unit_host) entry_order f calls dyn false (fun _ _ _ => RStuck) Horder Hr)
    as (f1 & f2 & ch & H & _ & _ & _ & Hok & _); try done. eauto.
Qed.

Lemma dce_function_refines {X W} `{!Host X W} entry_order f f' ch calls (dyn env_dyn : bool) (call call' : call_sem X W) fuel args w :
  lists_entries entry_order -> dce_ready f -> (env_dyn = true -> dyn = true) -> (env_dyn = true -> scalar_fp f) ->
  (forall c vs w, calls !! N.to_nat c = Some true -> leaves_world w (call c vs w)) ->
  dce_function entry_order f calls dyn = Some (f', ch) -> refines_call false call call' ->
  refines false (enter_function env_dyn call fuel f args w) (enter_function env_dyn call' fuel f' args w).
Proof.
  intros Horder Hr Hd Hs Hquiet Hf Hcall.
  destruct (dce_function_shape entry_order f calls dyn env_dyn call Horder Hr Hd Hs Hquiet)
    as (f1 & f2 & c & H & Hsh & Href & Hbs & Hok & He & Hps). rewrite H in Hf. simplify_eq.
  etrans; [apply Href|]. apply kept_blocks_refines; [apply (sh_index _ _ Hsh), Hr | done..].
Qed.

(** The module-level statement, in any environment the pass allows for. *)
Lemma dce_refines {X W} `{!Host X W} `{!FrameHost X W} entry_order m m' changed (dyn : nat -> bool) :
  (forall n, dyn n = true -> dynamic_fn m n = true) -> scalar_where dyn (functions m) ->
  lists_entries entry_order -> (forall f, f ∈ functions m -> dce_ready f) ->
  (forall f, f ∈ functions m -> NoDup (fn_def_ids f)) ->
  dce entry_order m = Some (m', changed) ->
  forall fuel idx args (w : W),
    refines false (run_func dyn fuel (functions m) idx args w) (run_func dyn fuel (functions m') idx args w).
Proof.
  intros Hdyn Hsc Horder Hfs Hnd H. unfold dce in H. destruct (mapM _ _) as [rs|] eqn:E; simpl in H; [|done]. simplify_eq.
  apply mapM_zip_seq in E as [Hlen Hrs]. simpl.
  apply (run_func_refines_calls false dyn _ _ (fun call => forall c vs w,
    derive_internal_call_dce_info_for_context m (dynamic_fn m) !! N.to_nat c = Some true -> leaves_world w (call c vs w)));
    [by rewrite length_fmap | |].
  - intros fuel c vs w Hd. unfold derive_internal_call_dce_info_for_context in Hd. rewrite list_lookup_fmap in Hd.
    apply fmap_Some in Hd as (i & Hi & Hd). apply lookup_seq in Hi as [-> _]. rewrite <- (N2Nat.id c).
    by apply (discardable_quiet (dynamic_fn m) dyn).
  - intros n f f' Hn Hn' call call' fuel args w Hquiet Hcall.
    destruct (Hrs n f Hn) as (r & Hr & Hrn). cbn [fst snd] in Hr. rewrite list_lookup_fmap, Hrn in Hn'. simpl in Hn'. simplify_eq.
    destruct r as [f2 ch].
    eapply dce_function_refines; [exact Horder | | exact (Hdyn n) | exact (Hsc n f Hn) | exact Hquiet | exact Hr | done].
    apply Hfs. by eapply list_elem_of_lookup_2.
Qed.

(** Dead-code elimination preserves definite results: whenever a run of a
    procedure returns or halts, it does so with the same value and the same
    effects after the pass (a discarded call may have been one that never
    returned).  Which internal calls are discarded is decided by the pass's own
    effect analysis; that writes to a procedure's own stack slots are invisible to its
    caller is the law [FrameHost] of the target. *)
Theorem dce_preserves {X W} `{!Host X W} `{!FrameHost X W} entry_order m m' changed (dyn : nat -> bool) :
  (forall n, dyn n = true -> dynamic_fn m n = true) -> scalar_where dyn (functions m) ->
  lists_entries entry_order -> (forall f, f ∈ functions m -> dce_ready f) ->
  (forall f, f ∈ functions m -> NoDup (fn_def_ids f)) ->
  dce entry_order m = Some (m', changed) ->
  forall fuel idx args (w : W),
    refines false (run_func dyn fuel (functions m) idx args w) (run_func dyn fuel (functions m') idx args w).
Proof. exact (dce_refines entry_order m m' changed dyn). Qed.

(** Dead-code elimination finishes: the sweeps and the parameter removals
    reach their fixed point within one round per instruction and per block
    parameter, without a panic, and the block index stays valid. *)
Theorem dce_total entry_order f calls dyn :
  lists_entries entry_order -> dce_ready f ->
  exists f' ch, dce_function entry_order f calls dyn = Some (f', ch) /\ block_index_ok f'.
Proof. apply dce_function_total. Qed.


(** The effect analysis is exact: an internal call may be discarded exactly
    when every function it can reach through the dependencies of direct
    candidates is itself a direct candidate (a PURE function with a result and
    an effect-free body) whose internal callees all exist. *)
Theorem dce_info_exact m fp i :
  derive_internal_call_dce_info_for_context m fp !! i = Some true <->
  (i < length (functions m))%nat /\
  forall j, rtc (depends (functions m) fp) i j -> (j < length (functions m))%nat /\ poisoned (functions m) fp j = false.
Proof.
  unfold derive_internal_call_dce_info_for_context. set (fs := functions m). split.
  - intros H. rewrite list_lookup_fmap in H. apply fmap_Some in H as (k & Hk & Hd). apply lookup_seq in Hk as [-> Hi].
    simpl in *. split; [done|]. clear Hi. intros j Hj. symmetry in Hd. revert Hd.
    induction Hj as [i|i k j (ds & d & E & Hin & <-) _ IH]; intros Hd; destruct (discardable_inv fs fp i Hd) as (Hi & ds' & E' & Hcl).
    + split; [done|]. destruct (poisoned fs fp i) eqn:Ep; [|done]. exfalso.
      unfold discardable in Hd. apply andb_true_iff in Hd as [_ Hd%bool_decide_eq_true]. apply Hd, effectful_spec.
      exists i. split; [by apply poison_seed | apply rtc_refl].
    + apply IH. apply Hcl. congruence.
  - intros [Hi Hall]. rewrite list_lookup_fmap, lookup_seq_lt by done. simpl. f_equal. unfold discardable.
    apply andb_true_iff. split; [by apply bool_decide_eq_true|]. apply bool_decide_eq_true. intros He.
    apply effectful_spec in He as (r & Hr & Hri). apply poison_seed in Hr as [_ Hr].
    assert (Hrev : rtc (depends fs fp) i r).
    { clear Hr Hall Hi. induction Hri as [|a b c Hab _ IH]; [apply rtc_refl|].
      apply callers_edge in Hab as [_ Hab]. eapply rtc_r; [exact IH | exact Hab]. }
    destruct (Hall r Hrev) as [_ ?]. congruence.
Qed.

#[local] Existing Instance unit_host.

(** A dead sum, and a block parameter nobody reads. *)
Definition dead_fn : Function :=
  mk_fn "dead" [{| param_name := "x"; param_ty := i32; param_id := 0; fortran_noalias := false |}] i32
    [mk_block 0 "entry" [] [mk_inst 1 (ConstInt 1 I32) i32; mk_inst 2 (IAdd 0 1) i32] (Branch 1 [2%N]);
     mk_block 1 "exit" [{| bp_id := 3; bp_ty := i32 |}] [] (Return (Some 0%N))] 4.

Definition map_entries (m : gmap BlockId (list nat)) : list (BlockId * list nat) := map_to_list m.

Lemma map_entries_ok : lists_entries map_entries.
Proof. intros m. reflexivity. Qed.

Lemma dead_fn_ready : dce_ready dead_fn.
Proof.
  split; [apply index_okb_sound; vm_compute; reflexivity | vm_compute; intros E; discriminate E].
Qed.

Definition as_pure (f : Function) : Function :=
  {| fn_name := fn_name f; fn_params := fn_params f; return_type := return_type f; blocks := blocks f;
     block_positions := block_positions f; directly_dereferenceable_params := directly_dereferenceable_params f;
     entry := entry f; next_value := next_value f; next_block := next_block f; type_cache := type_cache f;
     is_pure := true; is_elemental := is_elemental f; internal_only := internal_only f |}.

(** A pure function that keeps its argument in a stack slot, and a caller that does
    not use its result. *)
Definition slot_fn : Function :=
  as_pure (mk_fn "slot" [{| param_name := "x"; param_ty := i32; param_id := 0; fortran_noalias := false |}] i32
    [mk_block 0 "entry" []
       [mk_inst 1 (Alloca i32) (TPtr i32); mk_inst 2 (Store 0 1) Void; mk_inst 3 (Load 1) i32] (Return (Some 3%N))] 4).
Definition slot_caller : Function :=
  mk_fn "caller" [{| param_name := "x"; param_ty := i32; param_id := 0; fortran_noalias := false |}] i32
    [mk_block 0 "entry" [] [mk_inst 1 (Call (Internal 1) [0%N]) i32] (Return (Some 0%N))] 2.

Lemma slot_fns_ready f : f ∈ [slot_caller; slot_fn] -> dce_ready f /\ NoDup (fn_def_ids f) /\ scalar_fp f.
Proof.
  rewrite !elem_of_cons, elem_of_nil. intros [->|[->|[]]]; (split; [split; [apply index_okb_sound; vm_compute; reflexivity |
    vm_compute; intros E; discriminate E]|]; split; [apply (bool_decide_unpack (NoDup _)); vm_compute; exact I |]);
    intros i Hi; repeat (apply elem_of_cons in Hi as [->|Hi]; [intros E; discriminate E|]); by apply not_elem_of_nil in Hi.
Qed.

(** The dead call goes, and the caller runs as before on the target with a stack. *)
Lemma dce_preserves_witness :
  exists m', dce map_entries (mk_module [slot_caller; slot_fn]) = Some (m', true) /\
    ((fun f => length (fn_insts f)) <$> functions m') = [0; 3]%nat /\
    run_func (X := nat) (Host0 := stack_host) (fun _ => false) 2 (functions m') 0 [VInt I32 9] [VBool true] = RRet (Some (VInt I32 9)) [VBool true].
Proof.
  eexists. split; [vm_compute; reflexivity|]. split; [vm_compute; reflexivity|].
  transitivity (run_func (X := nat) (Host0 := stack_host) (fun _ => false) 2 [slot_caller; slot_fn] 0 [VInt I32 9] [VBool true]);
    [|vm_compute; reflexivity].
  apply (dce_preserves (Host0 := stack_host) map_entries (mk_module [slot_caller; slot_fn]) _ true (fun _ => false)).
  - done.
  - done.
  - apply map_entries_ok.
  - intros f Hf. by apply slot_fns_ready.
  - intros f Hf. by apply slot_fns_ready.
  - vm_compute. reflexivity.
  - vm_compute. exact I.
Defined.

Lemma dce_total_witness :
  exists f' ch, dce_function map_entries dead_fn [false] false = Some (f', ch) /\ block_index_ok f'.
Proof. apply dce_total; [apply map_entries_ok | apply dead_fn_ready]. Defined.

