(* ===== verification/PassLaws.v ===== *)
(** The passes keep functions well-formed.

    [fn_ok] is the invariant the optimizer's passes share: SSA form, typed
    payloads, representable switch keys and identifier counters.  Constant folding,
    constant propagation, local CSE and dead-code elimination are shown to keep it,
    so that they can be composed in any order ([PassManager]). *)

From S2P Require Import Prelude IrTypes IrInst Sample Worklist IrWalk Floats IrSem Fpenv Dominators Ssa IrVerify.
From S2P Require Import Lockstep Prune WfEdit Rename ConstProp ConstFold Cse Dce.
Local Open Scope Z_scope.

(** * The invariant *)

(** Conversions are typed by their target, as the IR builder creates them. *)
Definition cast_typed (i : Inst) : Prop :=
  match inst_kind i with
  | IntToFloat _ w | FloatExtend _ w | FloatTrunc _ w => inst_ty i = TFloat w
  | FloatToInt _ w | IntExtend _ w _ | IntTrunc _ w => inst_ty i = TInt w
  | _ => True
  end.

Definition inst_typed (i : Inst) : Prop := payload_typed i /\ cast_typed i.

Record fn_ok (f : Function) : Prop := {
  fn_ssa : ssa_wf f;
  fn_typed : forall b i, b ∈ blocks f -> i ∈ block_insts b -> inst_typed i;
  fn_keys : forall b t, b ∈ blocks f -> block_term b = Some t -> keys_ok t;
  fn_counters : counters_ok f }.

Definition module_ok (m : Module_) : Prop := forall f, f ∈ functions m -> fn_ok f.

Lemma typed_payloads f : fn_ok f -> payloads_ok f.
Proof.
  intros Hf b i Hb Hi. destruct (fn_typed f Hf b i Hb Hi) as [Hp _]. unfold payload_typed in Hp.
  destruct (inst_kind i); try done. apply Hp.
Qed.

(** A pass that maps the functions of a module keeps the invariant function by
    function. *)
Lemma module_ok_mapM (g : nat * Function -> option (Function * bool)) m rs :
  module_ok m -> mapM g (zip (seq 0 (length (functions m))) (functions m)) = Some rs ->
  (forall n f f' ch, fn_ok f -> g (n, f) = Some (f', ch) -> fn_ok f') -> module_ok (set_functions m rs.*1).
Proof.
  intros Hm E Hg f' Hf'. simpl in Hf'. apply list_elem_of_lookup in Hf' as [n Hn].
  rewrite list_lookup_fmap in Hn. apply fmap_Some in Hn as ([f2 ch] & Hr & ->).
  apply mapM_zip_seq in E as [Hlen Hrs].
  assert (is_Some (functions m !! n)) as [f Hf].
  { apply lookup_lt_is_Some. rewrite <- Hlen. by eapply lookup_lt_Some. }
  destruct (Hrs n f Hf) as (r & Hgr & Hrn). simplify_eq. eapply Hg; [|exact Hgr]. apply Hm. by eapply list_elem_of_lookup_2.
Qed.

(** * Constant folding *)

Definition const_valid (c : ConstFold.Const) : Prop := match c with CFloat x _ => f64_valid x | _ => True end.

Lemma round_for_width_valid x w : f64_valid x -> f64_valid (round_for_width x w).
Proof. destruct w; [intros _; apply round_f32_valid | done]. Qed.

Lemma from_inst_valid i c : payload_typed i -> ConstFold.from_inst (inst_kind i) = Some c -> const_valid c.
Proof.
  unfold payload_typed. destruct (inst_kind i); try done; simpl; intros Hp [= <-]; try done. apply round_for_width_valid, Hp.
Qed.

(** What folds is typed as the instruction it replaces. *)
Lemma try_fold_typed powf i k consts dyn :
  (forall x y, f64_valid x -> f64_valid y -> f64_valid (powf x y)) ->
  (forall v c, consts !! v = Some c -> const_valid c) -> cast_typed i -> ConstFold.payload_ok k ->
  try_fold powf (inst_kind i) (inst_ty i) consts dyn = Folded k -> inst_typed (set_kind i k).
Proof.
  intros Hpow Hc Hcast Hpay H. split.
  2:{ unfold cast_typed. simpl. unfold try_fold in H. destruct (dyn && _); [done|]. destruct (inst_kind i); try discriminate;
      cbv [fold_int_bin fold_int_un fold_float_bin fold_float_un fold_div fold_shift fold_count fold_float_to_int fold_select] in H;
      fold_cases H; done. }
  unfold try_fold in H. destruct (dyn && _); [done|]. unfold payload_typed. simpl. unfold cast_typed in Hcast.
  destruct (inst_kind i); try discriminate;
    cbv [fold_int_bin fold_int_un fold_float_bin fold_float_un fold_div fold_shift fold_count fold_float_to_int fold_select] in H;
    fold_cases H; try done;
    repeat match goal with E : consts !! _ = Some _ |- _ => apply Hc in E; simpl in E end;
    (split; [done | auto using round_for_width_valid with f64]).
Qed.

Section fold_keeps.
Context (powf : f64 -> f64 -> f64) (Hpow : forall x y, f64_valid x -> f64_valid y -> f64_valid (powf x y)).
Context (f : Function) (Hf : fn_ok f) (dyn : bool).

#[local] Existing Instance unit_host.
#[local] Instance unit_fold_host : FoldHost unit unit powf.
Proof. split; [intros wa wb x y v H | intros ty fw x v _ _ H]; discriminate H. Qed.

Lemma is_const_valid v c : ConstFold.is_const powf f dyn v c -> const_valid c.
Proof.
induction 1 as [b i c Hb Hi Hc|b i consts k c Hb Hi Hcs IH Hk Hc].
- eapply from_inst_valid; [|exact Hc]. by apply (fn_typed f Hf b).
- assert (Hok : forall v c, consts !! v = Some c -> const_ok c)
by (intros u cu Hu; eapply (is_const_ok powf f dyn (typed_payloads f Hf)); by eapply Hcs).
destruct (try_fold_ok powf consts _ _ dyn k Hok Hk) as (_ & c' & [Hp _] & _).
destruct (try_fold_typed powf i k consts dyn Hpow IH (proj2 (fn_typed f Hf b i Hb Hi)) Hp Hk) as [Ht _].
by eapply (from_inst_valid (set_kind i k)).
Qed.

Lemma folded_typed b i i' : b ∈ blocks f -> i ∈ block_insts b -> folded_inst powf f dyn i i' -> inst_typed i'.
Proof.
intros Hb Hi [->|(k & c & -> & [Hp _] & _ & _ & m & Hm & Hk)]; [by apply (fn_typed f Hf b)|].
eapply try_fold_typed; [done | | apply (fn_typed f Hf b i Hb Hi) | done | exact Hk].
intros v cv Hv. eapply is_const_valid. by apply Hm.
Qed.

Lemma folded_frame i i' : folded_inst powf f dyn i i' -> inst_id i' = inst_id i /\
(inst_uses (inst_kind i') = inst_uses (inst_kind i) \/ inst_uses (inst_kind i') = []).
Proof.
intros [->|(k & c & -> & [_ Hk] & _)]; [by split; [|left]|]. split; [done|]. right. simpl. by destruct k.
Qed.

Lemma folded_ids il il' : Forall2 (folded_inst powf f dyn) il il' -> inst_id <$> il' = inst_id <$> il.
Proof.
induction 1 as [|i i' il il' H _ IH]; [done|]. rewrite !fmap_cons, IH. by destruct (folded_frame _ _ H) as [-> _].
Qed.

Lemma folded_edited b b' : b ∈ blocks f -> folded_block powf f dyn b b' -> edited f (fun _ => True) b b'.
Proof.
intros Hb (il & -> & HF). pose proof (folded_ids _ _ HF) as Hids.
assert (Hi : inst_ids (set_insts b il) = inst_ids b) by exact Hids.
split; try done.
- by rewrite Hi.
- intros v _. by rewrite Hi.
- intros ins' v Hin Hv. split; [done|]. simpl in Hin. apply list_elem_of_lookup in Hin as [p Hp].
destruct (Forall2_lookup_r _ _ _ _ _ HF Hp) as (ins & Hp0 & Hrel). destruct (folded_frame _ _ Hrel) as [Hid [Hu|Hu]];
rewrite Hu in Hv; [|by apply not_elem_of_nil in Hv].
exists p, ins. split; [done|]. split; [done|]. by eapply (wf_inst_uses f (fn_ssa f Hf)).
- intros t v Ht Hv. split; [done|]. by eapply (wf_term_uses f (fn_ssa f Hf)).
Qed.

Lemma fold_function_ok bs ch : fold_function powf dyn f = LDone bs ch -> fn_ok (set_blocks f bs).
Proof.
intros Hbs. apply (fold_function_spec powf f dyn false ltac:(done) (typed_payloads f Hf)) in Hbs.
assert (Hin : forall b', b' ∈ bs -> exists b, b ∈ blocks f /\ folded_block powf f dyn b b').
{ intros b' [p Hp]%list_elem_of_lookup. destruct (Forall2_lookup_r _ _ _ _ _ Hbs Hp) as (b & Hb & H).
exists b. split; [by eapply list_elem_of_lookup_2 | done]. }
assert (Hargs : forall d n, args_fit f d n -> args_fit (set_blocks f bs) d n).
{ intros d n Ha b' Hb' Hd. destruct (Hin b' Hb') as (b & Hb & il & -> & _). by apply (Ha b). }
split.
- apply (ssa_wf_edit f _ (fun _ => True)); [apply Hf | | done | done | | |].
+ apply (block_index_ext f); [|done|done|apply Hf]. symmetry. apply list_eq_Forall2, Forall2_fmap. eapply Forall2_impl; [exact Hbs|].
by intros b b' (il & -> & _).
+ simpl. apply Forall2_same_length_lookup_2; [by apply Forall2_length in Hbs|]. intros p b b' Hb Hb'.
apply folded_edited; [by eapply list_elem_of_lookup_2 | by eapply Forall2_lookup_lr].
+ apply Hargs, (wf_entry_params f (fn_ssa f Hf)).
+ intros b' t Hb' Ht. destruct (Hin b' Hb') as (b & Hb & il & -> & _).
eapply term_fits_mono; [exact Hargs|]. by apply (wf_fits f (fn_ssa f Hf) b).
- intros b' i' Hb' Hi'. simpl in Hb'. destruct (Hin b' Hb') as (b & Hb & il & -> & HF). simpl in Hi'.
apply list_elem_of_lookup in Hi' as [p Hp]. destruct (Forall2_lookup_r _ _ _ _ _ HF Hp) as (i & Hi & H).
eapply (folded_typed b i); [done | by eapply list_elem_of_lookup_2 | done].
- intros b' t Hb' Ht. destruct (Hin b' Hb') as (b & Hb & il & -> & _). by apply (fn_keys f Hf b).
- apply (fn_counters f Hf).
Qed.
End fold_keeps.

(** * Local common-subexpression elimination *)

Section cse_keeps.
Context (f : Function) (Hf : fn_ok f) (barrier : bool).
Let rw := cse_map barrier f.
Let g (b : BasicBlock) : BasicBlock := retain_block rw (map_block_operands (rename rw) b).

(** A redirected use is available where the original one is, and stays. *)
Lemma cse_redirect b p u :
b ∈ blocks f -> avail f b p u -> rw !! rename rw u = None /\ avail f b p (rename rw u).
Proof.
intros Hb Ha. unfold rename. destruct (rw !! u) as [v|] eqn:E; [|done]. simpl.
pose proof (fn_ssa f Hf) as Hwf.
destruct (cse_map_spec barrier f (wf_defs f Hwf) u v (blocks_NoDup f (wf_index f Hwf)) E)
as (Hv & b0 & Hb0 & i & j & insi & insj & k & Hij & Hi & Hj & <- & <- & _).
split; [done|]. by eapply (avail_earlier f b0 i j insi insj); [| | |lia| | |].
Qed.

Lemma cse_edited b : b ∈ blocks f -> edited f (fun v => rw !! v = None) b (g b).
Proof.
intros Hb. pose proof (fn_ssa f Hf) as Hwf.
assert (Hids : inst_ids (g b) = filter (fun v => rw !! v = None) (inst_ids b)).
{ unfold inst_ids. simpl. induction (block_insts b) as [|i il IH]; [done|]. rewrite !fmap_cons, !filter_cons. simpl.
case_decide; [|done]. rewrite fmap_cons. by f_equal. }
split.
- done.
- unfold block_targets. simpl. destruct (block_term b) as [t|]; [apply terminator_targets_map | done].
- done.
- rewrite Hids. apply sublist_filter.
- simpl. intros [t ->]. simpl. eauto.
- intros v Hk. split; [done|]. intros Hv. rewrite Hids. by apply list_elem_of_filter.
- intros ins' v Hin Hv. simpl in Hin. apply list_elem_of_filter in Hin as [_ Hin].
apply list_elem_of_fmap in Hin as (ins & -> & Hin). simpl in Hv. rewrite inst_uses_map in Hv.
apply list_elem_of_fmap in Hv as (u & -> & Hu). apply list_elem_of_lookup in Hin as [i Hi].
destruct (cse_redirect b i u Hb) as [Hk Ha]; [by eapply (wf_inst_uses f Hwf)|]. split; [done|]. by exists i, ins.
- intros t' v Ht Hv. simpl in Ht. apply fmap_Some in Ht as (t & Ht & ->). rewrite terminator_uses_map in Hv.
apply list_elem_of_fmap in Hv as (u & -> & Hu). apply cse_redirect; [done|]. by eapply (wf_term_uses f Hwf).
Qed.

Lemma map_term_fits f' r t : term_fits f' t -> term_fits f' (map_term_operands r t).
Proof. destruct t as [[]| | | |]; simpl; by rewrite ?length_fmap. Qed.

Lemma map_operands_typed r i : inst_typed i -> inst_typed (map_inst_operands r i).
Proof. unfold inst_typed, payload_typed, cast_typed. simpl. destruct (inst_kind i); try done; by destruct callee. Qed.

Lemma map_term_keys_ok r t : keys_ok t -> keys_ok (map_term_operands r t).
Proof. by destruct t as [[]| | | |]. Qed.

Lemma cse_function_ok : fn_ok (cse_function barrier f).1.
Proof.
unfold cse_function. fold rw. case_decide as Hemp; [done|]. simpl.
set (f' := rebuild_type_cache _).
assert (Hbs : blocks f' = g <$> blocks f) by (unfold f'; simpl; by rewrite <- list_fmap_compose).
assert (Hargs : forall d n, args_fit f d n -> args_fit f' d n).
{ intros d n Ha b' Hb' Hd. rewrite Hbs in Hb'. apply list_elem_of_fmap in Hb' as (b & -> & Hb). by apply (Ha b). }
split.
- apply (ssa_wf_edit f f' (fun v => rw !! v = None)); [apply Hf | | done | done | | |].
+ apply (block_index_ext f); [|done|done|apply Hf]. rewrite Hbs, <- list_fmap_compose. done.
+ rewrite Hbs. apply Forall2_fmap_r, Forall_Forall2_diag, Forall_forall. apply cse_edited.
+ apply Hargs, (wf_entry_params f (fn_ssa f Hf)).
+ intros b' t Hb' Ht. rewrite Hbs in Hb'. apply list_elem_of_fmap in Hb' as (b & -> & Hb).
simpl in Ht. apply fmap_Some in Ht as (t0 & Ht & ->). apply map_term_fits.
eapply term_fits_mono; [exact Hargs|]. by apply (wf_fits f (fn_ssa f Hf) b).
- intros b' i' Hb' Hi'. rewrite Hbs in Hb'. apply list_elem_of_fmap in Hb' as (b & -> & Hb). simpl in Hi'.
apply list_elem_of_filter in Hi' as [_ Hi']. apply list_elem_of_fmap in Hi' as (i & -> & Hi).
apply map_operands_typed. by apply (fn_typed f Hf b).
- intros b' t Hb' Ht. rewrite Hbs in Hb'. apply list_elem_of_fmap in Hb' as (b & -> & Hb).
simpl in Ht. apply fmap_Some in Ht as (t0 & Ht & ->). apply map_term_keys_ok. by apply (fn_keys f Hf b).
- apply (fn_counters f Hf).
Qed.
End cse_keeps.

(** * Pruning and constant propagation *)

(** Cutting edges and pruning keeps the invariant. *)
Lemma cut_ok f f1 f2 ch :
  fn_ok f -> block_index_ok f1 -> entry f1 = entry f -> fn_params f1 = fn_params f -> counters_ok f1 ->
  Forall2 (cut_block f) (blocks f) (blocks f1) ->
  (forall b t, b ∈ blocks f1 -> block_term b = Some t -> keys_ok t) ->
  prune_unreachable f1 = Some (f2, ch) -> fn_ok f2.
Proof.
  intros Hf Hok1 He Hp Hc1 Hcut Hk H.
  destruct (prune_unreachable_total f1 Hok1 Hc1) as (f2' & ch' & H' & Hbs & Hok2 & He2 & Hp2 & _).
  rewrite H' in H. injection H as -> ->.
  assert (Hin : forall b, b ∈ blocks f2 -> b ∈ blocks f1).
  { intros b Hb. rewrite Hbs in Hb. by apply list_elem_of_filter in Hb as [_ Hb]. }
  split.
  - apply (ssa_wf_cut f f1 f2); [apply Hf | done | done | done | congruence | congruence | done | done].
  - intros b i Hb Hi. apply Hin in Hb. apply list_elem_of_lookup in Hb as [p Hp1].
    destruct (Forall2_lookup_r _ _ _ _ _ Hcut Hp1) as (b0 & Hb0 & Hcb). rewrite (cut_insts _ _ _ Hcb) in Hi.
    apply (fn_typed f Hf b0); [by eapply list_elem_of_lookup_2 | done].
  - intros b t Hb Ht. by eapply Hk; [apply Hin|].
  - by eapply prune_counters.
Qed.

Lemma cut_refl f b : fn_ok f -> b ∈ blocks f -> cut_block f b b.
Proof.
  intros Hf Hb. split; try done.
  - intros t Ht. by apply (wf_fits f (fn_ssa f Hf) b).
  - intros t v Ht Hv. by eapply (wf_term_uses f (fn_ssa f Hf)).
Qed.

Lemma prune_ok f f' ch : fn_ok f -> prune_unreachable f = Some (f', ch) -> fn_ok f'.
Proof.
  intros Hf. apply (cut_ok f f); try done; [apply Hf | apply Hf | | apply (fn_keys f Hf)].
  apply Forall_Forall2_diag, Forall_forall. intros b. by apply cut_refl.
Qed.

(** The simplified terminator goes to targets of the original, with operands of
    the original. *)
Lemma simplify_terminator_cut f t consts :
  term_fits f t -> keys_ok t ->
  let t' := (simplify_terminator t consts).1 in
  term_fits f t' /\ keys_ok t' /\
  (forall d, d ∈ terminator_targets t' -> d ∈ terminator_targets t) /\
  (forall v, v ∈ terminator_uses t' -> v ∈ terminator_uses t).
Proof.
  intros Hfit Hk. destruct t as [| |c td ta fd fa|s cases d|]; simpl in *; try done.
  - destruct (consts !! c) as [[[]|]|]; simpl; try done; (split; [apply Hfit|]; split; [done|]; split).
    + intros d ->%list_elem_of_singleton. left.
    + intros v Hv. right. apply elem_of_app. by left.
    + intros d ->%list_elem_of_singleton. right. left.
    + intros v Hv. right. apply elem_of_app. by right.
  - destruct (consts !! s) as [[|sv w]|]; simpl; try done. destruct Hfit as [Hd Hc].
    set (tgt := match list_find _ cases with Some (_, (_, b)) => b | None => d end).
    assert (Htgt : args_fit f tgt 0 /\ tgt ∈ ((cases.*2) ++ [d])).
    { unfold tgt. destruct (list_find _ cases) as [[n [key b]]|] eqn:E.
      - apply list_find_Some in E as (Hl & _ & _). apply list_elem_of_lookup_2 in Hl.
        split; [by apply (proj1 (Forall_forall _ _) Hc (key, b))|]. apply elem_of_app. left. by apply (list_elem_of_fmap_2 snd _ (key, b)).
      - split; [done|]. apply elem_of_app. right. left. }
    destruct Htgt as [Hf0 Hin]. split; [done|]. split; [done|]. split; [|by intros v ?%not_elem_of_nil].
    intros e ->%list_elem_of_singleton. done.
Qed.

Lemma simplify_block_cut f b consts :
  fn_ok f -> b ∈ blocks f ->
  cut_block f b (simplify_block consts b).1 /\
  (forall t, block_term (simplify_block consts b).1 = Some t -> keys_ok t).
Proof.
  intros Hf Hb. unfold simplify_block. destruct (block_term b) as [t|] eqn:Et; simpl.
  2:{ split; [by apply cut_refl|]. intros t Ht. congruence. }
  pose proof (simplify_terminator_cut f t consts (wf_fits f (fn_ssa f Hf) b t Hb Et) (fn_keys f Hf b t Hb Et)) as H.
  destruct (simplify_terminator t consts) as [t' ch]. simpl in *. destruct H as (Hfit & Hk & Htg & Hu). split.
  - split; simpl; try done.
    + unfold block_targets. simpl. by rewrite Et.
    + by intros t0 [= <-].
    + intros t0 v [= <-] Hv. eapply (wf_term_uses f (fn_ssa f Hf)); [done | done | by apply Hu].
  - by intros t0 [= <-].
Qed.

Lemma simplify_unchanged consts b : (simplify_block consts b).2 = false -> (simplify_block consts b).1 = b.
Proof.
  unfold simplify_block. destruct (block_term b) as [t|] eqn:Et; [|done]. intros H.
  assert (Ht : simplify_terminator t consts = (t, false)).
  { destruct t; simpl in *; try done; (destruct (consts !! _) as [[]|]; done). }
  rewrite Ht. simpl. destruct b. simpl in *. by rewrite <- Et.
Qed.

Lemma const_prop_function_ok f f' ch : fn_ok f -> const_prop_function f = Some (f', ch) -> fn_ok f'.
Proof.
  intros Hf. unfold const_prop_function. set (consts := ConstProp.collect_consts f).
  set (rs := simplify_block consts <$> blocks f). destruct (existsb _ rs) eqn:Ex.
  - destruct (prune_unreachable (set_blocks f rs.*1)) as [[f2 c2]|] eqn:E; cbn [mbind option_bind]; [|done].
    intros [= <- _]. revert E. apply (cut_ok f); try done.
    + apply (block_index_ext f); [|done|done|apply Hf]. simpl. unfold rs. rewrite <- !list_fmap_compose. apply list_fmap_ext.
      intros _ b _. unfold compose, simplify_block. destruct (block_term b) as [t|]; [|done]. by destruct (simplify_terminator t consts).
    + apply Hf.
    + simpl. unfold rs. rewrite <- list_fmap_compose. apply Forall2_fmap_r, Forall_Forall2_diag, Forall_forall.
      intros b Hb. by apply simplify_block_cut.
    + intros b t Hb Ht. simpl in Hb. unfold rs in Hb. rewrite <- list_fmap_compose in Hb.
      apply list_elem_of_fmap in Hb as (b0 & -> & Hb0). by eapply simplify_block_cut.
  - intros [= <- _]. rewrite (unchanged_map rs (blocks f)); [by destruct f | unfold rs; by rewrite length_fmap | done|].
    intros n b b' Hb Hr. unfold rs in Hr. rewrite list_lookup_fmap, Hb in Hr. injection Hr as Hr.
    pose proof (simplify_unchanged consts b) as H. rewrite Hr in H. by apply H.
Qed.

(** * Dead-code elimination *)

Lemma shrinks_ok f f' : shrinks f f' -> fn_ok f -> fn_ok f'.
Proof.
  intros Hsh Hf. split.
  - apply (sh_wf _ _ Hsh), Hf.
  - intros b i Hb Hi. assert (Hin : i ∈ fn_insts f) by (apply (sh_insts _ _ Hsh), list_elem_of_bind; eauto).
    apply list_elem_of_bind in Hin as (b0 & Hi0 & Hb0). by apply (fn_typed f Hf b0).
  - apply (sh_keys _ _ Hsh), (fn_keys f Hf).
  - unfold counters_ok. rewrite (sh_next _ _ Hsh). apply Hf.
Qed.

Lemma dce_function_ok entry_order f f' calls dyn ch :
  lists_entries entry_order -> fn_ok f -> dce_function entry_order f calls dyn = Some (f', ch) -> fn_ok f'.
Proof.
  intros Horder Hf H. unfold dce_function in H.
  destruct (dce_loop_spec (Host0 := unit_host) calls (preserved_fp_ids f dyn) false (fun _ _ _ => RStuck) ltac:(done) entry_order Horder
    (S (param_count f)) f ltac:(lia) ltac:(done) (block_ids_NoDup f (wf_index f (fn_ssa f Hf)))) as (f1 & c1 & E1 & Hsh & _).
  rewrite E1 in H. cbn [mbind option_bind] in H.
  destruct (prune_unreachable f1) as [[f2 c2]|] eqn:E2; cbn [mbind option_bind] in H; [|done]. simplify_eq.
  eapply prune_ok; [|exact E2]. by eapply shrinks_ok.
Qed.

(** * A pass that reports no change has made none *)

Lemma set_functions_same m : set_functions m (functions m) = m.
Proof. by destruct m. Qed.

Lemma fold_insts_same powf dyn m il m' il' : fold_insts powf dyn m il = Some (m', il', false) -> il' = il.
Proof.
  revert m m' il'. induction il as [|i il IH]; intros m m' il' H; simpl in H; [by simplify_eq|].
  destruct (fold_inst powf dyn m i) as [|k mk|]; [| |done].
  - destruct (fold_insts powf dyn m il) as [[[m1 il1] ch]|] eqn:E; cbn [mbind option_bind] in H; [|done]. simplify_eq. f_equal. by eapply IH.
  - destruct (fold_insts powf dyn mk il) as [[[m1 il1] ch]|]; cbn [mbind option_bind] in H; by simplify_eq.
Qed.

Lemma set_insts_same b : set_insts b (block_insts b) = b.
Proof. by destruct b. Qed.

Lemma fold_blocks_same powf dyn m bs m' bs' : fold_blocks powf dyn m bs = Some (m', bs', false) -> bs' = bs.
Proof.
  revert m m' bs'. induction bs as [|b bs IH]; intros m m' bs' H; simpl in H; [by simplify_eq|].
  destruct (fold_insts powf dyn m (block_insts b)) as [[[m1 il] ch1]|] eqn:E1; cbn [mbind option_bind] in H; [|done].
  destruct (fold_blocks powf dyn m1 bs) as [[[m2 bs2] ch2]|] eqn:E2; cbn [mbind option_bind] in H; [|done].
  injection H as <- <- Hch. apply orb_false_iff in Hch as [-> ->].
  rewrite (fold_insts_same _ _ _ _ _ _ E1), set_insts_same. f_equal. by eapply IH.
Qed.

Lemma fold_loop_same powf fuel dyn m bs bs' : fold_loop powf fuel dyn m bs false = LDone bs' false -> bs' = bs.
Proof.
  destruct fuel as [|fuel]; simpl; [done|]. destruct (fold_blocks powf dyn m bs) as [[[m1 bs1] inner]|] eqn:E; [|done].
  destruct inner; [|intros [= <-]; by eapply fold_blocks_same].
  clear E. intros H. exfalso. revert m1 bs1 H. induction fuel as [|fuel IH]; intros m1 bs1 H; simpl in H; [done|].
  destruct (fold_blocks powf dyn m1 bs1) as [[[m2 bs2] []]|]; [by eapply IH | done | done].
Qed.

Lemma set_blocks_same f : set_blocks f (blocks f) = f.
Proof. by destruct f. Qed.

Lemma prune_same f f' : prune_unreachable f = Some (f', false) -> f' = f.
Proof.
  unfold prune_unreachable. destruct (negb _) eqn:E; simpl in E.
  - by destruct (rebuild_block_positions _); cbn [mbind option_bind].
  - intros [= <-]. apply negb_false_iff, Nat.eqb_eq, filter_same_length in E. by rewrite E, set_blocks_same.
Qed.

Lemma const_prop_same f f' : const_prop_function f = Some (f', false) -> f' = f.
Proof.
  unfold const_prop_function. set (consts := ConstProp.collect_consts f). destruct (existsb _ _) eqn:Ex.
  - by destruct (prune_unreachable _) as [[]|]; cbn [mbind option_bind].
  - intros [= <-]. rewrite (unchanged_map (simplify_block consts <$> blocks f) (blocks f)); [by apply set_blocks_same| by rewrite length_fmap | done|].
    intros n b b' Hb Hr. rewrite list_lookup_fmap, Hb in Hr. injection Hr as Hr.
    pose proof (simplify_unchanged consts b) as H. rewrite Hr in H. by apply H.
Qed.

Lemma sweep_loop_same fuel calls fp f f' : sweep_loop fuel calls fp f = Some (f', false) -> f' = f.
Proof.
  destruct fuel as [|fuel]; [done|]. cbn [sweep_loop]. pose proof (sweep_false calls fp f) as Hs.
  destruct (sweep_round calls fp f) as [f1 []]; [by destruct (sweep_loop fuel calls fp f1) as [[]|]; cbn [mbind option_bind]|].
  intros [= <-]. by apply Hs.
Qed.

Lemma dce_same entry_order f f' calls dyn : dce_function entry_order f calls dyn = Some (f', false) -> f' = f.
Proof.
  unfold dce_function. cbn [dce_loop]. set (fp := preserved_fp_ids f dyn).
  destruct (sweep_loop _ calls fp f) as [[f1 c1]|] eqn:E1; cbn [mbind option_bind]; [|done].
  unfold remove_dead_block_params. case_decide as Hb; cbn [mbind option_bind].
  - destruct (prune_unreachable f1) as [[f2 c2]|] eqn:E2; cbn [mbind option_bind]; [|done].
    intros [= <- Hc]. apply orb_false_iff in Hc as [-> ->].
    apply sweep_loop_same in E1. apply prune_same in E2. congruence.
  - destruct (remove_entries _ _ _) as [f2|]; cbn [mbind option_bind]; [|done].
    destruct (dce_loop _ _ _ _ f2) as [[f3 c3]|]; cbn [mbind option_bind]; [|done].
    destruct (prune_unreachable f3) as [[f4 c4]|]; cbn [mbind option_bind]; done.
Qed.
