(* ===== verification/SimplifyWf.v ===== *)
(** CFG simplification keeps functions well-formed.

    Both edits contract an edge of the CFG, [x] onto [c x]: a path of the edited
    function stretches to a path of the original, so that a definition that
    dominates its uses still does. *)

From S2P Require Import Prelude IrTypes IrInst Worklist IrWalk Floats IrSem Dominators Ssa NaturalLoops.
From S2P Require Import Lockstep Prune WfEdit ConstProp PassLaws Stutter SimplifyCfg.

(** * Threading a jump *)

Section thread_wf.
Context (f : Function) (ph : gset BlockId) (b : BasicBlock) (e t : BlockId).
Context (Hwf : ssa_wf f) (Hcf : cfg_ok f) (Hb : b ∈ blocks f) (Hfw : forwards f ph b = Some (e, t)).
Notation f' := (map_blocks (threaded e t) f).

Lemma thread_index : block_index_ok f'.
Proof. apply map_blocks_index; [apply threaded_id | apply Hwf]. Qed.

(** The edges after the edit: none leaves or enters the empty block. *)
Lemma thread_edges x y : cfg_edge f' x y <-> x <> e /\ exists z, cfg_edge f x z /\ y = redirect e t z.
Proof.
rewrite cfg_edge_iff by apply thread_index. split.
- intros (c & Hc & <- & Hy). apply list_elem_of_fmap in Hc as (c0 & -> & Hc). rewrite threaded_id.
unfold threaded, block_targets in Hy. case_decide; simpl in Hy; [by apply not_elem_of_nil in Hy|]. split; [done|].
destruct (block_term c0) as [term|] eqn:Et; simpl in Hy; [|by apply not_elem_of_nil in Hy]. rewrite redirect_targets in Hy.
apply list_elem_of_fmap in Hy as (z & -> & Hz). exists z. split; [|done]. apply cfg_edge_iff; [apply Hwf|].
exists c0. split; [done|]. split; [done|]. unfold block_targets. by rewrite Et.
- intros (Hx & z & Hz & ->). apply cfg_edge_iff in Hz as (c & Hc & <- & Hz); [|apply Hwf].
exists (threaded e t c). split; [by apply list_elem_of_fmap_2|]. split; [apply threaded_id|].
unfold threaded, block_targets in *. rewrite decide_False by done. simpl. destruct (block_term c) as [term|]; [|by apply not_elem_of_nil in Hz].
simpl. rewrite redirect_targets. by apply list_elem_of_fmap_2.
Qed.

Lemma thread_e_edge z : cfg_edge f e z <-> z = t.
Proof.
pose proof Hfw as (E & _ & _ & _ & _ & _ & Et)%forwards_Some. rewrite cfg_edge_iff by apply Hwf. split.
- intros (c & Hc & Hid & Hz). rewrite (NoDup_fmap_inj_on block_id (blocks f) c b (block_ids_NoDup f (wf_index f Hwf)) Hc Hb) in Hz by congruence.
unfold block_targets in Hz. rewrite Et in Hz. by apply list_elem_of_singleton in Hz.
- intros ->. exists b. split; [done|]. split; [done|]. by eapply thread_edge.
Qed.

Lemma thread_reachable x : reachable f x -> reachable f' (redirect e t x).
Proof.
pose proof Hfw as (_ & Hne & _ & Hte & _)%forwards_Some.
revert x. apply (rtc_ind_r (fun x => reachable f' (redirect e t x))).
- unfold redirect. rewrite decide_False by done. apply rtc_refl.
- intros x y _ Hxy IH. destruct (decide (x = e)) as [->|Hx].
+ apply thread_e_edge in Hxy as ->. unfold redirect in *. rewrite decide_True in IH by done. by rewrite decide_False.
+ eapply rtc_r; [exact IH|]. apply thread_edges. unfold redirect at 1 2. rewrite !decide_False by done. split; [done|]. by exists y.
Qed.

Lemma thread_avoids d x : d <> e -> avoids f' d x -> avoids f d x.
Proof.
intros Hd. induction 1 as [Hent|x y _ IH Hxy Hyd]; [by apply (avoids_entry f)|].
apply thread_edges in Hxy as (Hx & z & Hxz & ->). unfold redirect in *. case_decide as Hz; [subst z|].
- eapply avoids_step; [eapply (avoids_step _ _ x e); [done | done | congruence] | by apply thread_e_edge | done].
- by eapply avoids_step.
Qed.

Lemma thread_avail c i v : c ∈ blocks f -> block_id c <> e -> avail f c i v -> avail f' (threaded e t c) i v.
Proof.
pose proof Hfw as (E & Hne & _ & Hte & Ei & Ep & _)%forwards_Some.
assert (Hdefs : forall c, inst_ids (threaded e t c) = inst_ids c /\ bparam_ids (threaded e t c) = bparam_ids c)
by (intros c'; unfold threaded; by case_decide).
intros Hc Hce Ha. unfold avail, def_ids. destruct (Hdefs c) as [-> ->]. rewrite threaded_id.
destruct Ha as [Ha|[Ha|[Ha|(d & Hd & Hdc & Hv & Hr & Hdom)]]]; [by left | by right; left | by right; right; left|].
right; right; right. exists (threaded e t d). destruct (Hdefs d) as [-> ->]. rewrite threaded_id.
split; [by apply list_elem_of_fmap_2|]. split; [done|]. split; [done|].
assert (Hde : block_id d <> e).
{ intros Hde. assert (d = b) as -> by (apply (NoDup_fmap_inj_on block_id (blocks f)); [apply block_ids_NoDup, Hwf | done | done | congruence]).
unfold def_ids, bparam_ids, inst_ids in Hv. rewrite Ei, Ep in Hv. by apply not_elem_of_nil in Hv. }
split; [|intros Ha; by apply Hdom, thread_avoids].
apply thread_reachable in Hr. unfold redirect in Hr. by rewrite decide_False in Hr.
Qed.

Lemma thread_args_fit d n : args_fit f d n -> args_fit f' d n.
Proof.
intros Ha c' (c & -> & Hc)%list_elem_of_fmap Hd. rewrite threaded_id in Hd. specialize (Ha c Hc Hd).
unfold threaded. by case_decide.
Qed.

(** An edge into the empty block passes nothing, as its own edge does. *)
Lemma thread_redirect_fit d n : args_fit f d n -> args_fit f' (redirect e t d) n.
Proof.
pose proof Hfw as (E & _ & _ & _ & _ & Ep & Et)%forwards_Some.
intros Ha. unfold redirect. case_decide as Hd; [subst d|by apply thread_args_fit].
specialize (Ha b Hb E). rewrite Ep in Ha. subst n. apply thread_args_fit. exact (wf_fits f Hwf b _ Hb Et).
Qed.

Lemma thread_term_fits term : term_fits f term -> term_fits f' (redirect_terminator e t term).
Proof.
destruct term as [|d args|c td ta fd fa|s cases d|]; try done; simpl.
- apply thread_redirect_fit.
- intros [H1 H2]. split; by apply thread_redirect_fit.
- intros [H1 H2]. split; [by apply thread_redirect_fit|]. apply Forall_fmap. eapply Forall_impl; [exact H2|].
intros c Hc. by apply thread_redirect_fit.
Qed.

Lemma redirect_uses term : terminator_uses (redirect_terminator e t term) = terminator_uses term.
Proof. by destruct term. Qed.

Lemma thread_wf : ssa_wf f'.
Proof.
pose proof (thread_cfg_ok f ph b e t Hcf Hb Hfw) as Hcf'.
pose proof Hfw as (E & Hne & _ & Hte & Ei & Ep & Et)%forwards_Some.
split; try apply Hcf'.
- apply thread_args_fit, Hwf.
- unfold fn_def_ids, param_ids. simpl. rewrite list_fmap_bind.
erewrite list_bind_ext; [apply (wf_defs f Hwf) | | done]. intros c. unfold compose, threaded. by case_decide.
- intros c' (c & -> & Hc)%list_elem_of_fmap. unfold threaded. case_decide; simpl; [by eexists|].
destruct (wf_term f Hwf c Hc) as [term ->]. by eexists.
- intros c' term (c & -> & Hc)%list_elem_of_fmap. unfold threaded. case_decide; simpl; [by intros [= <-]|].
destruct (block_term c) as [term0|] eqn:Et0; [|done]. intros [= <-]. by eapply thread_term_fits, (wf_fits f Hwf).
- intros c' i ins v (c & -> & Hc)%list_elem_of_fmap Hi Hv. destruct (decide (block_id c = e)) as [Hce|Hce].
+ assert (c = b) as -> by (apply (NoDup_fmap_inj_on block_id (blocks f)); [apply block_ids_NoDup, Hwf | done | done | congruence]).
unfold threaded in Hi. rewrite decide_True in Hi by done. simpl in Hi. by rewrite Ei in Hi.
+ apply thread_avail; [done | done|]. eapply (wf_inst_uses f Hwf); [done | | done]. unfold threaded in Hi. by rewrite decide_False in Hi.
- intros c' term v (c & -> & Hc)%list_elem_of_fmap. destruct (decide (block_id c = e)) as [Hce|Hce].
+ unfold threaded. rewrite decide_True by done. simpl. intros [= <-] Hv. by apply not_elem_of_nil in Hv.
+ assert (length (block_insts (threaded e t c)) = length (block_insts c)) as -> by (unfold threaded; by case_decide).
intros Ht Hv. apply thread_avail; [done | done|]. unfold threaded in Ht. rewrite decide_False in Ht by done. simpl in Ht.
destruct (block_term c) as [term0|] eqn:Et0; [|done]. injection Ht as <-. rewrite redirect_uses in Hv. by eapply (wf_term_uses f Hwf).
Qed.
End thread_wf.

(** * Merging two blocks *)

Section merge_wf.
Context (f : Function) (b sb : BasicBlock).
Context (Hwf : ssa_wf f) (Hcf : cfg_ok f) (Hb : b ∈ blocks f) (Hsb : sb ∈ blocks f) (Hne : block_id sb <> block_id b).
Context (Hbt : block_term b = Some (Branch (block_id sb) [])).
Context (Hpred : forall c, c ∈ blocks f -> block_id sb ∈ block_targets c -> c = b).
Notation p := (block_id b).
Notation s := (block_id sb).
Notation f' := (map_blocks (merged p sb) f).

Lemma same_block c d : c ∈ blocks f -> d ∈ blocks f -> block_id c = block_id d -> c = d.
Proof. apply (NoDup_fmap_inj_on block_id (blocks f)), block_ids_NoDup, Hwf. Qed.

Lemma merge_index : block_index_ok f'.
Proof. apply map_blocks_index; [apply merged_id | apply Hwf]. Qed.

(** The absorbed block has no parameters: its only edge passes nothing. *)
Lemma merge_no_params : block_params sb = [].
Proof. apply length_zero_iff_nil. exact (wf_fits f Hwf b _ Hb Hbt sb Hsb eq_refl). Qed.

Lemma merged_s : merged p sb sb = set_insts (set_term sb (Some Unreachable)) [].
Proof. unfold merged. by rewrite decide_True. Qed.

Lemma merged_p : merged p sb b = set_term (set_insts b (block_insts b ++ block_insts sb)) (block_term sb).
Proof. unfold merged. rewrite decide_False by done. by rewrite decide_True. Qed.

Lemma merged_other c : block_id c <> s -> block_id c <> p -> merged p sb c = c.
Proof. intros H1 H2. unfold merged. by rewrite !decide_False by done. Qed.

Lemma s_pred x : cfg_edge f x s -> x = p.
Proof. intros (c & Hc & <- & Ht)%cfg_edge_iff; [|apply Hwf]. by rewrite (Hpred c Hc Ht). Qed.

Lemma p_edge y : cfg_edge f p y <-> y = s.
Proof.
rewrite cfg_edge_iff by apply Hwf. split.
- intros (c & Hc & Hid & Hy). rewrite (same_block c b Hc Hb Hid) in Hy. unfold block_targets in Hy. rewrite Hbt in Hy.
by apply list_elem_of_singleton in Hy.
- intros ->. exists b. split; [done|]. split; [done|]. by apply merge_target.
Qed.

Lemma entry_ne_s : entry f <> s.
Proof. intros E. apply (wf_no_entry_edge f Hwf b Hb). rewrite E. by apply merge_target. Qed.

(** The edges after the edit: those of the absorbed block leave [p]. *)
Lemma merge_edges x y : cfg_edge f' x y <-> x <> s /\ cfg_edge f (if decide (x = p) then s else x) y.
Proof.
rewrite cfg_edge_iff by apply merge_index. split.
- intros (c' & (c & -> & Hc)%list_elem_of_fmap & <- & Hy). rewrite merged_id. destruct (decide (block_id c = s)) as [Es|Es].
+ rewrite (same_block c sb Hc Hsb Es), merged_s in Hy. by apply not_elem_of_nil in Hy.
+ split; [done|]. apply cfg_edge_iff; [apply Hwf|]. destruct (decide (block_id c = p)) as [Ep|Ep].
* rewrite (same_block c b Hc Hb Ep), merged_p in Hy. by exists sb.
* rewrite merged_other in Hy by done. by exists c.
- intros [Hx Hy]. case_decide as Hp; apply cfg_edge_iff in Hy as (c & Hc & Hid & Hy); try apply Hwf.
+ exists (merged p sb b). split; [by apply list_elem_of_fmap_2|]. rewrite merged_id. split; [done|].
rewrite (same_block c sb Hc Hsb Hid) in Hy. by rewrite merged_p.
+ subst x. exists (merged p sb c). split; [by apply list_elem_of_fmap_2|]. rewrite merged_id. split; [done|]. by rewrite merged_other.
Qed.

Lemma merge_reachable x : reachable f x -> reachable f' (if decide (x = s) then p else x).
Proof.
revert x. apply (rtc_ind_r (fun x => reachable f' (if decide (x = s) then p else x))).
- rewrite decide_False by apply entry_ne_s. apply rtc_refl.
- intros x y _ Hxy IH. destruct (decide (y = s)) as [->|Hy].
+ apply s_pred in Hxy as ->. by rewrite decide_False in IH by done.
+ eapply rtc_r; [exact IH|]. apply merge_edges. destruct (decide (x = s)) as [->|Hx]; [by rewrite decide_True|].
split; [done|]. rewrite decide_False; [done|]. intros ->. by apply p_edge in Hxy.
Qed.

(** A path of the edited function that avoids [d] is a path of the original that
does; after [p] it goes on through the absorbed block. *)
Lemma merge_avoids d x : d <> s -> avoids f' d x -> avoids f d x.
Proof.
intros Hd. induction 1 as [Hent|x y _ IH Hxy Hyd]; [by apply (avoids_entry f)|].
apply merge_edges in Hxy as (Hx & Hxy). case_decide as Hp; [subst x|by eapply avoids_step].
eapply avoids_step; [eapply (avoids_step _ _ p s); [done | by apply p_edge | congruence] | done | done].
Qed.

Lemma merge_avoids_s x : avoids f' p x -> avoids f s x.
Proof.
induction 1 as [Hent|x y Hx IH Hxy Hyd]; [apply (avoids_entry f), entry_ne_s|].
apply avoids_ne in Hx. apply merge_edges in Hxy as (Hxs & Hxy). rewrite decide_False in Hxy by done.
eapply avoids_step; [done | done|]. intros ->. by apply s_pred in Hxy.
Qed.

Lemma reachable_sp : reachable f s -> reachable f p.
Proof.
intros Hr. apply rtc_inv_r in Hr as [E|(x & Hr & Hx)]; [by destruct (entry_ne_s E)|]. by apply s_pred in Hx as <-.
Qed.

Lemma p_dominates_s : reachable f s -> dominates_path f p s.
Proof.
intros Hr. split; [done|]. intros Ha. inversion Ha as [E|x y Hx Hxy Hy]; subst; [by destruct entry_ne_s|].
apply s_pred in Hxy as ->. by apply avoids_ne in Hx.
Qed.

(** Where the definitions of a block are found after the edit. *)
Lemma merged_defs c v : c ∈ blocks f -> v ∈ def_ids c ->
v ∈ def_ids (merged p sb (if decide (block_id c = s) then b else c)).
Proof.
intros Hc Hv. destruct (decide (block_id c = s)) as [E|E].
- rewrite (same_block c sb Hc Hsb E) in Hv. rewrite merged_p. unfold def_ids, bparam_ids, inst_ids in *. rewrite merge_no_params in Hv.
simpl in *. rewrite fmap_app, !elem_of_app. by right; right.
- destruct (decide (block_id c = p)) as [Ep|Ep]; [|by rewrite merged_other]. rewrite (same_block c b Hc Hb Ep) in Hv |- *.
rewrite merged_p. unfold def_ids, bparam_ids, inst_ids in *. simpl. rewrite fmap_app. set_solver.
Qed.

(** A dominating definition, seen from a block [x] that keeps its place. *)
Lemma merge_dominating d x v :
d ∈ blocks f -> x <> s -> v ∈ def_ids d -> block_id d <> x -> dominates_path f (block_id d) x ->
exists d', d' ∈ blocks f' /\ block_id d' <> x /\ v ∈ def_ids d' /\ dominates_path f' (block_id d') x.
Proof.
intros Hd Hx Hv Hdx Hdom. pose proof (merged_defs d v Hd Hv) as Hv'. pose proof Hdom as [Hr Hna].
apply merge_reachable in Hr. rewrite decide_False in Hr by done.
destruct (decide (block_id d = s)) as [E|E].
- exists (merged p sb b). rewrite merged_id, E in *. split; [by apply list_elem_of_fmap_2|]. split; [|split; [done|split; [done|]]].
+ intros <-. apply Hne. eapply dominates_antisym; [exact Hdom|]. apply p_dominates_s.
by eapply dominates_reachable_l.
+ intros Ha. by apply Hna, merge_avoids_s.
- exists (merged p sb d). rewrite merged_id. split; [by apply list_elem_of_fmap_2|]. split; [done|]. split; [done|].
split; [done|]. intros Ha. by apply Hna, merge_avoids.
Qed.

(** What is available in a block stays so: at the same place in a block that
keeps its place, and after the code of [p] for the absorbed block. *)
Lemma merge_avail c i v :
c ∈ blocks f -> block_id c <> s -> i <= length (block_insts c) -> avail f c i v -> avail f' (merged p sb c) i v.
Proof.
intros Hc Hcs Hi Ha. unfold avail. rewrite merged_id.
assert (Hps : bparam_ids (merged p sb c) = bparam_ids c) by (unfold bparam_ids, merged; by repeat case_decide). rewrite Hps.
assert (Hin : take i (inst_ids (merged p sb c)) = take i (inst_ids c)).
{ unfold merged. rewrite decide_False by done. case_decide; [|done]. unfold inst_ids. simpl.
rewrite fmap_app, take_app_le; [done|]. by rewrite length_fmap. }
rewrite Hin. destruct Ha as [Ha|[Ha|[Ha|(d & Hd & Hdc & Hv & Hdom)]]]; [by left | by right; left | by right; right; left|].
right; right; right. by eapply merge_dominating.
Qed.

Lemma merge_avail_s i v :
avail f sb i v -> avail f' (merged p sb b) (length (block_insts b) + i) v.
Proof.
intros Ha. unfold avail. rewrite merged_id, merged_p.
assert (Hin : take (length (block_insts b) + i) (inst_ids (set_term (set_insts b (block_insts b ++ block_insts sb)) (block_term sb))) =
inst_ids b ++ take i (inst_ids sb)).
{ unfold inst_ids. simpl. rewrite fmap_app. rewrite <- (length_fmap inst_id (block_insts b)). by rewrite take_app_add. }
rewrite Hin. change (bparam_ids (set_term _ _)) with (bparam_ids b).
destruct Ha as [Ha|[Ha|[Ha|(d & Hd & Hds & Hv & Hdom)]]].
- by left.
- unfold bparam_ids in Ha. rewrite merge_no_params in Ha. by apply not_elem_of_nil in Ha.
- right; right; left. apply elem_of_app. by right.
- destruct (decide (block_id d = p)) as [Ep|Ep].
+ rewrite (same_block d b Hd Hb Ep) in Hv. unfold def_ids in Hv. apply elem_of_app in Hv as [Hv|Hv]; [by right; left|].
right; right; left. apply elem_of_app. by left.
+ right; right; right. apply merge_dominating with d; try done. apply (dominates_pred f (block_id d) p s); try done.
* apply reachable_sp, Hdom.
* by apply p_edge.
Qed.

Lemma merge_args_fit d n : args_fit f d n -> args_fit f' d n.
Proof.
intros Ha c' (c & -> & Hc)%list_elem_of_fmap Hd. rewrite merged_id in Hd. specialize (Ha c Hc Hd).
unfold merged. by repeat case_decide.
Qed.

(** The definitions are the same, in other places. *)
Lemma merged_defs_inv c v : c ∈ blocks f -> v ∈ def_ids (merged p sb c) ->
exists d, d ∈ blocks f /\ v ∈ def_ids d /\ block_id c = (if decide (block_id d = s) then p else block_id d).
Proof.
intros Hc Hv. destruct (decide (block_id c = s)) as [Es|Es].
- rewrite (same_block c sb Hc Hsb Es), merged_s in Hv. unfold def_ids, bparam_ids in Hv. simpl in Hv.
rewrite merge_no_params in Hv. by apply not_elem_of_nil in Hv.
- destruct (decide (block_id c = p)) as [Ep|Ep].
+ rewrite (same_block c b Hc Hb Ep), merged_p in Hv. unfold def_ids, bparam_ids, inst_ids in Hv. simpl in Hv.
rewrite fmap_app, !elem_of_app in Hv. destruct Hv as [Hv|[Hv|Hv]].
* exists b. split; [done|]. split; [apply elem_of_app; by left|]. by rewrite decide_False.
* exists b. split; [done|]. split; [apply elem_of_app; by right|]. by rewrite decide_False.
* exists sb. split; [done|]. split; [apply elem_of_app; by right|]. by rewrite decide_True.
+ rewrite merged_other in Hv by done. exists c. split; [done|]. split; [done|]. by rewrite decide_False.
Qed.

Lemma merge_defs : NoDup (fn_def_ids f').
Proof.
pose proof (wf_defs f Hwf) as Hnd. unfold fn_def_ids in *. apply list.NoDup_app in Hnd as (Hnp & Hdis & Hnb).
apply list.NoDup_app. split; [done|]. simpl. rewrite list_fmap_bind. split.
- intros v Hv (c & Hvc & Hc)%list_elem_of_bind. apply merged_defs_inv in Hvc as (d & Hd & Hvd & _); [|done].
apply (Hdis v Hv). apply list_elem_of_bind. by exists d.
- apply NoDup_bind.
+ intros c1 c2 v Hc1 Hc2 Hv1 Hv2. apply merged_defs_inv in Hv1 as (d1 & Hd1 & Hvd1 & E1); [|done].
apply merged_defs_inv in Hv2 as (d2 & Hd2 & Hvd2 & E2); [|done].
assert (d1 = d2) as <- by (by eapply (NoDup_bind_elem def_ids)). apply same_block; [done | done | congruence].
+ intros c Hc. unfold compose. destruct (decide (block_id c = s)) as [Es|Es].
{ rewrite (same_block c sb Hc Hsb Es), merged_s. unfold def_ids, bparam_ids, inst_ids. simpl. rewrite merge_no_params. constructor. }
destruct (decide (block_id c = p)) as [Ep|Ep]; [|rewrite merged_other by done; by eapply NoDup_bind_part].
rewrite (same_block c b Hc Hb Ep), merged_p. change (NoDup (bparam_ids b ++ (inst_id <$> (block_insts b ++ block_insts sb)))).
rewrite fmap_app. change (NoDup (bparam_ids b ++ inst_ids b ++ inst_ids sb)). rewrite (assoc_L (++)). apply list.NoDup_app.
split; [exact (NoDup_bind_part def_ids _ _ Hnb Hb)|]. split.
* intros v Hv1 Hv2. assert (Hv2' : v ∈ def_ids sb) by (apply elem_of_app; by right).
apply Hne. by rewrite (NoDup_bind_elem def_ids _ sb b v Hnb Hsb Hb Hv2' Hv1).
* pose proof (NoDup_bind_part def_ids _ _ Hnb Hsb) as H. by apply list.NoDup_app in H as (_ & _ & H).
+ pose proof (block_ids_NoDup f (wf_index f Hwf)) as H. by apply NoDup_fmap_1 in H.
Qed.

Lemma merge_wf : ssa_wf f'.
Proof.
pose proof (merge_cfg_ok f b sb Hcf Hsb) as Hcf'. split; try apply Hcf'.
- apply merge_args_fit, Hwf.
- apply merge_defs.
- intros c' (c & -> & Hc)%list_elem_of_fmap. unfold merged. repeat case_decide; simpl; [by eexists | by apply Hwf..].
- intros c' term (c & -> & Hc)%list_elem_of_fmap. unfold merged. repeat case_decide; simpl; [by intros [= <-]|..];
intros Ht; (eapply term_fits_mono; [apply merge_args_fit|]).
+ exact (wf_fits f Hwf sb _ Hsb Ht).
+ exact (wf_fits f Hwf c _ Hc Ht).
- intros c' i ins v (c & -> & Hc)%list_elem_of_fmap Hi Hv. destruct (decide (block_id c = s)) as [Es|Es].
{ rewrite (same_block c sb Hc Hsb Es), merged_s in Hi. done. }
destruct (decide (block_id c = p)) as [Ep|Ep].
+ rewrite (same_block c b Hc Hb Ep) in Hi |- *. rewrite merged_p in Hi. simpl in Hi. apply lookup_app_Some in Hi as [Hi|[Hle Hi]].
* apply merge_avail; [done | by rewrite <- (same_block c b Hc Hb Ep) | apply lookup_lt_Some in Hi; lia|].
by eapply (wf_inst_uses f Hwf).
* replace i with (length (block_insts b) + (i - length (block_insts b))) by lia.
apply merge_avail_s. by eapply (wf_inst_uses f Hwf).
+ rewrite merged_other in Hi by done. apply merge_avail; [done | done | apply lookup_lt_Some in Hi; lia|].
by eapply (wf_inst_uses f Hwf).
- intros c' term v (c & -> & Hc)%list_elem_of_fmap Ht Hv. destruct (decide (block_id c = s)) as [Es|Es].
{ rewrite (same_block c sb Hc Hsb Es), merged_s in Ht. simpl in Ht. injection Ht as <-. by apply not_elem_of_nil in Hv. }
destruct (decide (block_id c = p)) as [Ep|Ep].
+ rewrite (same_block c b Hc Hb Ep) in Ht |- *. rewrite merged_p in Ht |- *. simpl in Ht. simpl. rewrite length_app.
rewrite <- merged_p. apply merge_avail_s. by eapply (wf_term_uses f Hwf).
+ rewrite merged_other in Ht by done. rewrite (merged_other c) at 2 by done.
apply merge_avail; [done | done | done|]. by eapply (wf_term_uses f Hwf).
Qed.
End merge_wf.

(** * The pass *)

Lemma redirect_keys e t term : keys_ok term -> keys_ok (redirect_terminator e t term).
Proof. destruct term; try done. simpl. intros H. apply Forall_fmap. eapply Forall_impl; [exact H|]. by intros c. Qed.

Lemma fn_cfg_ok f : fn_ok f -> cfg_ok f.
Proof. intros Hf. apply ssa_cfg_ok; apply Hf. Qed.

Lemma thread_step_ok ph f f' : thread_step ph f f' -> fn_ok f -> fn_ok f'.
Proof.
  intros (b & e & t & Hb & Hfw & ->) Hf. split.
  - eapply thread_wf; [apply Hf | by apply fn_cfg_ok | done | done].
  - intros c' i (c & -> & Hc)%list_elem_of_fmap Hi. apply (fn_typed f Hf c); [done|]. unfold threaded in Hi. by case_decide.
  - intros c' term (c & -> & Hc)%list_elem_of_fmap. unfold threaded. case_decide; simpl; [by intros [= <-]|].
    destruct (block_term c) as [term0|] eqn:Et; [|done]. intros [= <-]. by apply redirect_keys, (fn_keys f Hf c).
  - apply Hf.
Qed.

Lemma merge_step_ok f f' : merge_step f f' -> fn_ok f -> fn_ok f'.
Proof.
  intros (b & sb & Hb & Hsb & Hne & Hbt & Hp & ->) Hf. split.
  - apply merge_wf; try done; [apply Hf | by apply fn_cfg_ok].
  - intros c' i (c & -> & Hc)%list_elem_of_fmap Hi. unfold merged in Hi. repeat case_decide; simpl in Hi.
    + by apply not_elem_of_nil in Hi.
    + apply elem_of_app in Hi as [Hi|Hi]; [by apply (fn_typed f Hf c) | by apply (fn_typed f Hf sb)].
    + by apply (fn_typed f Hf c).
  - intros c' term (c & -> & Hc)%list_elem_of_fmap. unfold merged. repeat case_decide; simpl; [by intros [= <-]|..]; intros Ht.
    + by apply (fn_keys f Hf sb).
    + by apply (fn_keys f Hf c).
  - apply Hf.
Qed.

Lemma steps_ok (step : Function -> Function -> Prop) f f' :
  (forall g g', step g g' -> fn_ok g -> fn_ok g') -> rtc step f f' -> fn_ok f -> fn_ok f'.
Proof. intros Hs. induction 1; eauto. Qed.

Lemma simplify_function_ok f f' ch : fn_ok f -> simplify_function f = Some (f', ch) -> fn_ok f'.
Proof.
  intros Hf E. destruct (simplify_function_steps f (fn_cfg_ok f Hf)) as (ph & f1 & f2 & f3 & c & _ & E' & R1 & R2 & _ & _ & _ & _ & Hc).
  simplify_eq. assert (Hf2 : fn_ok f2).
  { eapply steps_ok; [apply merge_step_ok | exact R2|]. eapply steps_ok; [apply (thread_step_ok ph) | exact R1 | done]. }
  destruct ch; [|by destruct Hc as [-> _]]. destruct Hc as [c Hp]. by eapply prune_ok.
Qed.

Lemma simplify_function_same f f' : fn_ok f -> simplify_function f = Some (f', false) -> f' = f.
Proof.
  intros Hf E. destruct (simplify_function_steps f (fn_cfg_ok f Hf)) as (ph & f1 & f2 & f3 & c & _ & E' & _ & _ & _ & _ & _ & _ & Hc).
  simplify_eq. by destruct Hc as [-> ->].
Qed.

Lemma module_simplifiable m : module_ok m -> simplifiable m.
Proof. intros Hm f Hf. split; apply (Hm f Hf). Qed.
