(* ===== verification/PassManager.v ===== *)
(** The pass manager (src/src/opt/pass.rs): passes run in order until a round
    changes nothing, the IR verified on entry, on exit and, on request, after
    every change.

    [LawfulPass] is the interface between the manager and a pass: what the manager
    needs of it to preserve behaviour.  The passes of [PassLaws] are instances. *)

From S2P Require Import Prelude IrTypes IrInst Sample Worklist IrWalk Floats IrSem Fpenv Dominators Ssa IrVerify.
From S2P Require Import Lockstep Prune WfEdit Rename ConstProp ConstFold Cse Dce PassLaws Stutter SimplifyCfg SimplifyWf.

(** * The manager *)

(** The trait [Pass]; a run returns the module and whether it changed, [None] is a
    panic. *)
Record Pass := { pass_name : string; pass_run : Module_ -> option (Module_ * bool) }.

Record PassRunResult := { change_count : nat; iterations : nat }.
Record PassRunError := { err_max_iterations : nat; err_changing_passes : list string }.

Record PassManager := { passes : list Pass; verify_after_each : bool; max_iterations : nat }.

(** [PassManager::new]; the flag is whether [AFS_VERIFY_AFTER_EACH] is set. *)
Definition new_manager (verify_env : bool) : PassManager :=
  {| passes := []; verify_after_each := verify_env; max_iterations := 32 |}.

(** [PassManager::add]. *)
Definition add_pass (pm : PassManager) (p : Pass) : PassManager :=
  {| passes := passes pm ++ [p]; verify_after_each := verify_after_each pm; max_iterations := max_iterations pm |}.

(** [verify_module_or_panic]. *)
Definition verify_module_or_panic (m : Module_) : option unit :=
  match verify_module m with Some [] => Some () | _ => None end.

(** [func.rebuild_type_cache()] for every function. *)
Definition rebuild_caches (m : Module_) : Module_ := set_functions m (rebuild_type_cache <$> functions m).

(** The variables of [PassManager::run]. *)
Record run_state := {
  rs_module : Module_;
  rs_changes : nat;
  rs_changed : bool;
  rs_changing : list string }.

(** The body of the loop over the passes. *)
Definition run_pass (verify_each : bool) (st : run_state) (p : Pass) : option run_state :=
  '(m, pass_changed) ← pass_run p (rs_module st);
  if (pass_changed : bool) then
    let m' := rebuild_caches m in
    _ ← (if verify_each then verify_module_or_panic m' else Some ());
    Some {| rs_module := m'; rs_changes := S (rs_changes st); rs_changed := true;
            rs_changing := rs_changing st ++ [pass_name p] |}
  else Some {| rs_module := m; rs_changes := rs_changes st; rs_changed := rs_changed st; rs_changing := rs_changing st |}.

Fixpoint run_round (verify_each : bool) (ps : list Pass) (st : run_state) : option run_state :=
  match ps with
  | [] => Some st
  | p :: ps => st' ← run_pass verify_each st p; run_round verify_each ps st'
  end.

(** The [while] loop; [fuel] is the number of iterations left below the limit. *)
Fixpoint run_loop (pm : PassManager) (fuel : nat) (its : nat) (st : run_state) : option (run_state * nat) :=
  if rs_changed st then
    match fuel with
    | O => Some (st, its)
    | S fuel =>
        st' ← run_round (verify_after_each pm) (passes pm)
                {| rs_module := rs_module st; rs_changes := rs_changes st; rs_changed := false; rs_changing := [] |};
        run_loop pm fuel (S its) st'
    end
  else Some (st, its).

(** [PassManager::run]: the module it leaves behind and its result. *)
Definition run_manager (pm : PassManager) (m : Module_) : option (Module_ * (PassRunError + PassRunResult)) :=
  _ ← verify_module_or_panic m;
  '(st, its) ← run_loop pm (max_iterations pm) 0
      {| rs_module := m; rs_changes := 0; rs_changed := true; rs_changing := [] |};
  _ ← verify_module_or_panic (rs_module st);
  Some (rs_module st,
        if rs_changed st
        then inl {| err_max_iterations := max_iterations pm; err_changing_passes := rs_changing st |}
        else inr {| change_count := rs_changes st; iterations := its |}).

(** * The interface *)

(** What the manager asks of a pass: it keeps the invariant, the module it leaves
    behind refines the one it was given, and a pass that reports no change made
    none. *)
Class LawfulPass (Inv : Module_ -> Prop) (R : Module_ -> Module_ -> Prop) (p : Pass) : Prop := {
  pass_keeps : forall m m' ch, Inv m -> pass_run p m = Some (m', ch) -> Inv m';
  pass_refines : forall m m' ch, Inv m -> pass_run p m = Some (m', ch) -> R m m';
  pass_honest : forall m m', Inv m -> pass_run p m = Some (m', false) -> m' = m }.

Section manager.
Context (Inv : Module_ -> Prop) (R : Module_ -> Module_ -> Prop) `{!PreOrder R}.
Context (Hcache : forall m, Inv m -> Inv (rebuild_caches m) /\ R m (rebuild_caches m)).
Context (pm : PassManager) (Hlaw : forall p, p ∈ passes pm -> LawfulPass Inv R p).

(** The state of a loop that started from [m0]. *)
Definition state_ok (m0 : Module_) (st : run_state) : Prop := Inv (rs_module st) /\ R m0 (rs_module st).

Lemma run_pass_ok m0 v st p st' :
p ∈ passes pm -> state_ok m0 st -> run_pass v st p = Some st' -> state_ok m0 st'.
Proof.
intros Hp [Hi HR]. unfold run_pass. destruct (pass_run p (rs_module st)) as [[m ch]|] eqn:E; cbn [mbind option_bind]; [|done].
destruct (Hlaw p Hp) as [Hk Href _].
assert (Hm : Inv m /\ R m0 m) by (split; [by eapply Hk | etrans; [exact HR | by eapply Href]]). destruct Hm as [Him HRm].
destruct (Hcache m Him) as [Hic HRc]. destruct ch.
- destruct (if v then _ else _); cbn [mbind option_bind]; [|done]. intros [= <-]. split; [done|]. by etrans.
- by intros [= <-].
Qed.

Lemma run_round_ok m0 v ps st st' :
(forall p, p ∈ ps -> p ∈ passes pm) -> state_ok m0 st -> run_round v ps st = Some st' -> state_ok m0 st'.
Proof.
revert st. induction ps as [|p ps IH]; intros st Hps Hst H; simpl in H; [by simplify_eq|].
destruct (run_pass v st p) as [st1|] eqn:E; cbn [mbind option_bind] in H; [|done].
eapply IH; [intros q Hq; apply Hps; by right | | exact H]. eapply run_pass_ok; [|exact Hst | exact E]. apply Hps. left.
Qed.

(** A round that ends unchanged ran every pass on the same module. *)
Lemma run_round_fixed v ps st st' :
(forall p, p ∈ ps -> p ∈ passes pm) -> Inv (rs_module st) -> run_round v ps st = Some st' -> rs_changed st' = false ->
rs_module st' = rs_module st /\ rs_changed st = false /\ forall p, p ∈ ps -> pass_run p (rs_module st) = Some (rs_module st, false).
Proof.
revert st. induction ps as [|p ps IH]; intros st Hps Hi H Hch; simpl in H.
{ simplify_eq. split; [done|]. split; [done|]. by intros p ?%not_elem_of_nil. }
destruct (run_pass v st p) as [st1|] eqn:E; cbn [mbind option_bind] in H; [|done].
destruct (run_pass_ok (rs_module st) v st p st1 (Hps p ltac:(left)) (conj Hi (reflexivity _)) E) as [Hi1 _].
destruct (IH st1 (fun q Hq => Hps q (list_elem_of_further _ _ _ Hq)) Hi1 H Hch) as (Em & Ec & Hall).
unfold run_pass in E. destruct (pass_run p (rs_module st)) as [[m ch]|] eqn:Ep; cbn [mbind option_bind] in E; [|done].
destruct ch.
- destruct (if v then _ else _); cbn [mbind option_bind] in E; [|done]. injection E as <-. discriminate Ec.
- injection E as <-. simpl in *. destruct (Hlaw p (Hps p ltac:(left))) as [_ _ Hh].
assert (m = rs_module st) as -> by (by apply Hh). split; [done|]. split; [done|].
intros q [->|Hq]%elem_of_cons; [done | by apply Hall].
Qed.

Lemma run_loop_ok m0 fuel its st st' its' :
state_ok m0 st -> run_loop pm fuel its st = Some (st', its') -> state_ok m0 st'.
Proof.
revert its st. induction fuel as [|fuel IH]; intros its st Hst H; simpl in H; destruct (rs_changed st); simplify_eq; try done.
destruct (run_round _ _ _) as [st1|] eqn:E; cbn [mbind option_bind] in H; [|done].
eapply IH; [|exact H]. by eapply run_round_ok; [| |exact E].
Qed.

Lemma run_loop_fixed m0 fuel its st st' its' :
state_ok m0 st -> rs_changed st = true -> run_loop pm fuel its st = Some (st', its') -> rs_changed st' = false ->
forall p, p ∈ passes pm -> pass_run p (rs_module st') = Some (rs_module st', false).
Proof.
revert its st. induction fuel as [|fuel IH]; intros its st Hst Hch H Hend; simpl in H; rewrite Hch in H; simplify_eq; [congruence|].
destruct (run_round _ _ _) as [st1|] eqn:E; cbn [mbind option_bind] in H; [|done].
assert (Hst1 : state_ok m0 st1) by (by eapply run_round_ok; [| |exact E]).
destruct (rs_changed st1) eqn:Ec; [by eapply IH|].
assert (st' = st1) as -> by (destruct fuel; simpl in H; rewrite Ec in H; by simplify_eq).
eapply run_round_fixed in E as (Em & _ & Hall); [|done | exact (proj1 Hst) | exact Ec]. rewrite Em. exact Hall.
Qed.

Lemma run_manager_ok m m' r :
Inv m -> run_manager pm m = Some (m', r) ->
Inv m' /\ R m m' /\ verify_module m' = Some [] /\
(forall res, r = inr res -> forall p, p ∈ passes pm -> pass_run p m' = Some (m', false)).
Proof.
intros Hi H. unfold run_manager in H.
destruct (verify_module_or_panic m); cbn [mbind option_bind] in H; [|done].
set (st0 := {| rs_module := m; rs_changes := 0; rs_changed := true; rs_changing := [] |}) in *.
destruct (run_loop pm (max_iterations pm) 0 st0) as [[st its]|] eqn:E; cbn [mbind option_bind] in H; [|done].
assert (Hst0 : state_ok m st0) by (split; [done | reflexivity]).
destruct (run_loop_ok m _ _ _ _ _ Hst0 E) as [Hi' HR'].
unfold verify_module_or_panic in H. destruct (verify_module (rs_module st)) as [[|]|] eqn:Ev; cbn [mbind option_bind] in H; try done.
injection H as <- <-. split; [done|]. split; [done|]. split; [done|].
intros res Hr. destruct (rs_changed st) eqn:Ec; [done|]. by eapply (run_loop_fixed m).
Qed.
End manager.

(** * How a run ends *)

(** One round: every pass once, in order, each on what the one before left; [names] are
    the passes that changed the module.  Caches are rebuilt, and on request the module is
    verified, after a change. *)
Inductive round (verify_each : bool) : list Pass -> Module_ -> list string -> Module_ -> Prop :=
| round_nil m : round verify_each [] m [] m
| round_quiet p ps m m1 names m2 :
    pass_run p m = Some (m1, false) -> round verify_each ps m1 names m2 -> round verify_each (p :: ps) m names m2
| round_change p ps m m1 names m2 :
    pass_run p m = Some (m1, true) -> (verify_each = true -> verify_module (rebuild_caches m1) = Some []) ->
    round verify_each ps (rebuild_caches m1) names m2 -> round verify_each (p :: ps) m (pass_name p :: names) m2.

(** Rounds one after the other, with what each changed. *)
Inductive rounds (pm : PassManager) : Module_ -> list (list string) -> Module_ -> Prop :=
| rounds_nil m : rounds pm m [] m
| rounds_cons m names m1 trace m2 :
    round (verify_after_each pm) (passes pm) m names m1 -> rounds pm m1 trace m2 -> rounds pm m (names :: trace) m2.

Lemma verify_or_panic m u : verify_module_or_panic m = Some u -> verify_module m = Some [].
Proof. unfold verify_module_or_panic. by destruct (verify_module m) as [[|]|]. Qed.

Lemma run_round_trace v ps st st' :
  run_round v ps st = Some st' ->
  exists names, round v ps (rs_module st) names (rs_module st') /\ rs_changing st' = rs_changing st ++ names /\
    rs_changes st' = (rs_changes st + length names)%nat /\ rs_changed st' = rs_changed st || negb (bool_decide (names = [])).
Proof.
  revert st. induction ps as [|p ps IH]; intros st H; simpl in H.
  { simplify_eq. exists []. rewrite app_nil_r, Nat.add_0_r, orb_false_r. split; [constructor|done]. }
  destruct (run_pass v st p) as [st1|] eqn:E; cbn [mbind option_bind] in H; [|done]. destruct (IH st1 H) as (names & Hr & H1 & H2 & H3).
  unfold run_pass in E. destruct (pass_run p (rs_module st)) as [[m ch]|] eqn:Ep; cbn [mbind option_bind] in E; [|done]. destruct ch.
  - destruct (if v then _ else _) as [u|] eqn:Ev; cbn [mbind option_bind] in E; [|done]. injection E as <-. simpl in *.
    exists (pass_name p :: names). split; [eapply round_change; [exact Ep| |exact Hr]; intros ->; by eapply verify_or_panic|].
    rewrite H1, <- app_assoc. split; [done|]. split; [simpl; lia|]. by rewrite H3, orb_true_r.
  - injection E as <-. simpl in *. exists names. split; [by eapply round_quiet|done].
Qed.

Lemma run_loop_trace pm fuel its st st' its' :
  run_loop pm fuel its st = Some (st', its') ->
  exists trace, rounds pm (rs_module st) trace (rs_module st') /\ its' = (its + length trace)%nat /\ (length trace <= fuel)%nat /\
    rs_changes st' = (rs_changes st + length (mjoin trace))%nat /\ rs_changing st' = default (rs_changing st) (last trace) /\
    if rs_changed st' then length trace = fuel /\ Forall (fun names => names <> []) trace
    else (rs_changed st = false /\ trace = []) \/ exists earlier, trace = earlier ++ [[]] /\ Forall (fun names => names <> []) earlier.
Proof.
  revert its st. induction fuel as [|fuel IH]; intros its st H; simpl in H; destruct (rs_changed st) eqn:Ec; simplify_eq.
  1,2,4: exists []; (split; [constructor|]); do 4 (split; [cbn; first [done|lia]|]); rewrite Ec; simpl; first [by split|by left].
  destruct (run_round _ _ _) as [st1|] eqn:E; cbn [mbind option_bind] in H; [|done].
  apply run_round_trace in E as (names & Hr & H1 & H2 & H3). simpl in Hr, H1, H2, H3.
  destruct (IH (S its) st1 H) as (trace & Ht & -> & Hl & Hc & Hn & Hend). exists (names :: trace).
  split; [by eapply rounds_cons|]. split; [simpl; lia|]. split; [simpl; lia|]. split; [change (mjoin (names :: trace)) with (names ++ mjoin trace); rewrite length_app; lia|]. split.
  { rewrite Hn, H1. destruct trace as [|x trace]; [done|]. rewrite last_cons_cons. by destruct (last_is_Some (x :: trace)) as [_ [y ->]]. }
  destruct (rs_changed st') eqn:Ec'.
  - destruct Hend as [Hlen Hall]. split; [simpl; lia|]. constructor; [|done]. intros ->. rewrite bool_decide_eq_true_2 in H3 by done. simpl in H3.
    destruct fuel as [|fuel]; simpl in H; rewrite H3 in H; simpl in H; simplify_eq; congruence.
  - right. destruct Hend as [[Hs ->]|(earlier & -> & Hall)].
    + rewrite Hs in H3. symmetry in H3. apply negb_false_iff, bool_decide_eq_true in H3 as ->. by exists [].
    + exists (names :: earlier). split; [done|]. constructor; [|done]. intros ->. rewrite bool_decide_eq_true_2 in H3 by done. simpl in H3.
      rewrite length_app in H. destruct fuel as [|fuel]; simpl in H; rewrite H3 in H; injection H as _ Hits; lia.
Qed.

(** * The verified passes *)

Definition const_fold_pass (powf : f64 -> f64 -> f64) : Pass := {| pass_name := "const-fold"; pass_run := const_fold powf |}.
Definition const_prop_pass : Pass := {| pass_name := "const-prop"; pass_run := const_prop |}.
Definition simplify_cfg_pass : Pass := {| pass_name := "simplify-cfg"; pass_run := simplify_cfg |}.
Definition local_cse_pass : Pass := {| pass_name := "local-cse"; pass_run m := Some (local_cse m) |}.
Definition dce_pass (entry_order : gmap BlockId (list nat) -> list (BlockId * list nat)) : Pass :=
  {| pass_name := "dce"; pass_run := dce entry_order |}.

(** Refinement of modules run in the default floating-point environment. *)
Definition mod_refines (X W : Type) `{!Host X W} (m m' : Module_) : Prop :=
  forall fuel idx args (w : W),
    refines false (run_func (X := X) (fun _ => false) fuel (functions m) idx args w)
                  (run_func (fun _ => false) fuel (functions m') idx args w).

Section laws.
Context {X W : Type} `{!Host X W}.
Notation R := (mod_refines X W).

#[export] Instance mod_refines_preorder : PreOrder R.
Proof.
split; [by intros m fuel idx args w|]. intros m1 m2 m3 H12 H23 fuel idx args w. etrans; [apply H12 | apply H23].
Qed.

(** Rebuilding the type caches changes nothing the semantics or the invariant
sees. *)
Lemma run_func_cache fs fuel idx args (w : W) :
run_func (X := X) (fun _ => false) fuel (rebuild_type_cache <$> fs) idx args w = run_func (fun _ => false) fuel fs idx args w.
Proof.
assert (H : refines true (run_func (X := X) (fun _ => false) fuel fs idx args w)
           (run_func (fun _ => false) fuel (rebuild_type_cache <$> fs) idx args w) /\
refines true (run_func (X := X) (fun _ => false) fuel (rebuild_type_cache <$> fs) idx args w)
           (run_func (fun _ => false) fuel fs idx args w)).
{ split; (apply run_func_refines; [by rewrite length_fmap|]);
intros n f f' Hn Hn' call call' fuel' args' w' Hcall; [rewrite list_lookup_fmap, Hn in Hn' | rewrite list_lookup_fmap, Hn' in Hn];
simplify_eq/=; by apply same_body_refines. }
destruct H as [H1 H2]. destruct (run_func (X := X) (fun _ => false) fuel fs idx args w) eqn:E; try by apply H1.
destruct (run_func _ fuel (rebuild_type_cache <$> fs) idx args w) eqn:E'; try done; exfalso.
all: specialize (H2 I) || specialize (H2 eq_refl); congruence.
Qed.

Lemma rebuild_fn_ok f : fn_ok f -> fn_ok (rebuild_type_cache f).
Proof.
intros Hf. split; [| apply (fn_typed f Hf) | apply (fn_keys f Hf) | apply (fn_counters f Hf)].
apply (ssa_wf_edit f _ (fun _ => True)); [apply Hf | | done | done | | |].
- by apply (block_index_ext f); [| | |apply Hf].
- apply Forall_Forall2_diag, Forall_forall. intros b Hb. split; try done.
+ intros ins v Hin Hv. split; [done|]. apply list_elem_of_lookup in Hin as [i Hi]. exists i, ins.
split; [done|]. split; [done|]. by eapply (wf_inst_uses f (fn_ssa f Hf)).
+ intros t v Ht Hv. split; [done|]. by eapply (wf_term_uses f (fn_ssa f Hf)).
- apply (wf_entry_params f (fn_ssa f Hf)).
- apply (wf_fits f (fn_ssa f Hf)).
Qed.

Lemma rebuild_caches_ok m : module_ok m -> module_ok (rebuild_caches m) /\ R m (rebuild_caches m).
Proof.
intros Hm. split.
- intros f' Hf'. apply list_elem_of_fmap in Hf' as (f & -> & Hf). by apply rebuild_fn_ok, Hm.
- intros fuel idx args w Hok. apply run_func_cache.
Qed.

#[export] Instance const_fold_lawful powf `{!FoldHost X W powf} :
(forall x y, f64_valid x -> f64_valid y -> f64_valid (powf x y)) -> LawfulPass module_ok R (const_fold_pass powf).
Proof.
intros Hpow. split; simpl.
- intros m m' ch Hm H. unfold const_fold in H. destruct (mapM _ _) as [rs|] eqn:E; cbn [mbind option_bind] in H; [|done].
injection H as <- _. eapply module_ok_mapM; [done | exact E|]. intros n f f' c Hf Hr. cbn [fst snd] in Hr.
destruct (fold_function powf _ f) as [bs ch'| |] eqn:Ef; try done. injection Hr as <- _. by eapply fold_function_ok.
- intros m m' ch Hm H fuel idx args w. apply refines_weaken.
eapply (const_fold_refines powf m m' ch (fun _ => false)); [done | | exact H].
intros f Hf. split; [apply (wf_defs f), (Hm f Hf) | by apply typed_payloads, Hm].
- intros m m' Hm H. unfold const_fold in H. destruct (mapM _ _) as [rs|] eqn:E; cbn [mbind option_bind] in H; [|done].
injection H as <- Hex. rewrite (unchanged_map rs (functions m)); [apply set_functions_same | | exact Hex |];
apply mapM_zip_seq in E as [Hlen Hrs]; [done|].
intros n f f' Hf Hr. destruct (Hrs n f Hf) as (r & Hg & Hrn). simplify_eq. cbn [fst snd] in Hg.
destruct (fold_function powf _ f) as [bs ch'| |] eqn:Ef; try done. injection Hg as <- ->.
unfold fold_function in Ef. by rewrite (fold_loop_same _ _ _ _ _ _ Ef), set_blocks_same.
Qed.

#[export] Instance local_cse_lawful `{!CommHost X W} : LawfulPass module_ok R local_cse_pass.
Proof.
split; simpl.
- intros m m' ch Hm [= <- _]. intros f' Hf'. simpl in Hf'. apply list_elem_of_fmap in Hf' as ([f2 c] & -> & Hf').
apply elem_of_lookup_imap in Hf' as (n & f & E & Hf). change f2 with (f2, c).1. rewrite E. apply cse_function_ok, Hm.
by eapply list_elem_of_lookup_2.
- intros m m' ch Hm [= <- _] fuel idx args w. apply refines_weaken, (local_cse_refines m (fun _ => false)); [done|].
intros f Hf. split; [apply (Hm f Hf)|]. intros b i Hb Hi. by apply (fn_typed f (Hm f Hf) b).
- intros m m' Hm H. unfold local_cse in H. injection H as <- Hex.
rewrite (unchanged_map (imap (fun n f => cse_function (crosses_barrier_fn m n) f) (functions m)) (functions m));
[apply set_functions_same | by rewrite length_imap | exact Hex|].
intros n f f' Hf Hr. rewrite list_lookup_imap, Hf in Hr. injection Hr as Hr. unfold cse_function in Hr. by case_decide; simplify_eq.
Qed.

#[export] Instance const_prop_lawful : LawfulPass module_ok R const_prop_pass.
Proof.
split; simpl; unfold const_prop.
- intros m m' ch Hm H. destruct (mapM _ _) as [rs|] eqn:E; cbn [mbind option_bind] in H; [|done]. injection H as <- _.
apply mapM_Some in E. intros f' Hf'. simpl in Hf'. apply list_elem_of_fmap in Hf' as ([f2 c] & -> & Hr).
apply list_elem_of_lookup in Hr as [n Hn]. destruct (Forall2_lookup_r _ _ _ _ _ E Hn) as (f & Hf & Hg).
eapply const_prop_function_ok; [|exact Hg]. apply Hm. by eapply list_elem_of_lookup_2.
- intros m m' ch Hm H fuel idx args w. apply refines_weaken.
destruct (mapM _ _) as [rs|] eqn:E; cbn [mbind option_bind] in H; [|done]. injection H as <- _.
apply (run_func_mapM true const_prop_function (fun _ => false) _ _ E).
intros n f f' c Hn Hf call call' fuel' args' w' Hcall. pose proof (Hm f ltac:(by eapply list_elem_of_lookup_2)) as Hok.
eapply (const_prop_function_refines f); [apply (wf_defs f), Hok | apply (fn_keys f Hok) | apply Hok | apply Hok | exact Hf | done].
- intros m m' Hm H. destruct (mapM _ _) as [rs|] eqn:E; cbn [mbind option_bind] in H; [|done]. injection H as <- Hex.
apply mapM_Some in E. rewrite (unchanged_map rs (functions m)); [apply set_functions_same | symmetry; by eapply Forall2_length | exact Hex|].
intros n f f' Hf Hr. eapply const_prop_same. by apply (Forall2_lookup_lr _ _ _ _ _ _ E Hf Hr).
Qed.

#[export] Instance simplify_cfg_lawful : LawfulPass module_ok R simplify_cfg_pass.
Proof.
split; simpl.
- intros m m' ch Hm H. unfold simplify_cfg in H. destruct (mapM _ _) as [rs|] eqn:E; cbn [mbind option_bind] in H; [|done].
injection H as <- _. apply mapM_Some in E. intros f' Hf'. simpl in Hf'. apply list_elem_of_fmap in Hf' as ([f2 c] & -> & Hr).
apply list_elem_of_lookup in Hr as [n Hn]. destruct (Forall2_lookup_r _ _ _ _ _ E Hn) as (f & Hf & Hg).
eapply simplify_function_ok; [|exact Hg]. apply Hm. by eapply list_elem_of_lookup_2.
- intros m m' ch Hm H fuel idx args w. destruct (simplify_cfg_runs (X := X) (W := W) m (module_simplifiable m Hm)) as (m2 & c & k & E & Hk & HF).
simplify_eq. by apply (run_func_same_runs (fun _ => false) k).
- intros m m' Hm H. unfold simplify_cfg in H. destruct (mapM _ _) as [rs|] eqn:E; cbn [mbind option_bind] in H; [|done]. injection H as <- Hex.
apply mapM_Some in E. rewrite (unchanged_map rs (functions m)); [apply set_functions_same | symmetry; by eapply Forall2_length | exact Hex|].
intros n f f' Hf Hr. eapply simplify_function_same; [|by apply (Forall2_lookup_lr _ _ _ _ _ _ E Hf Hr)].
apply Hm. by eapply list_elem_of_lookup_2.
Qed.

#[export] Instance dce_lawful entry_order `{!FrameHost X W} :
lists_entries entry_order -> LawfulPass module_ok R (dce_pass entry_order).
Proof.
intros Horder. split; simpl.
- intros m m' ch Hm H. unfold dce in H. destruct (mapM _ _) as [rs|] eqn:E; cbn [mbind option_bind] in H; [|done].
injection H as <- _. eapply module_ok_mapM; [done | exact E|]. intros n f f' c Hf Hr. exact (dce_function_ok entry_order f f' _ _ c Horder Hf Hr).
- intros m m' ch Hm H fuel idx args w. apply (dce_refines entry_order m m' ch (fun _ => false)); try done.
+ intros f Hf. split; apply (Hm f Hf).
+ intros f Hf. apply (wf_defs f), (Hm f Hf).
- intros m m' Hm H. unfold dce in H. destruct (mapM _ _) as [rs|] eqn:E; cbn [mbind option_bind] in H; [|done].
injection H as <- Hex. rewrite (unchanged_map rs (functions m)); [apply set_functions_same | | exact Hex |];
apply mapM_zip_seq in E as [Hlen Hrs]; [done|].
intros n f f' Hf Hr. destruct (Hrs n f Hf) as (r & Hg & Hrn). simplify_eq. by eapply dce_same.
Qed.

(** The passes this development verifies, as the manager registers them. *)
Definition verified_passes powf entry_order : list Pass :=
[const_fold_pass powf; const_prop_pass; local_cse_pass; dce_pass entry_order; simplify_cfg_pass].

Lemma verified_lawful powf entry_order p `{!FoldHost X W powf} `{!CommHost X W} `{!FrameHost X W} :
(forall x y, f64_valid x -> f64_valid y -> f64_valid (powf x y)) -> lists_entries entry_order ->
p ∈ verified_passes powf entry_order -> LawfulPass module_ok R p.
Proof.
intros Hpow Horder Hp. unfold verified_passes in Hp. rewrite !elem_of_cons in Hp.
destruct Hp as [->|[->|[->|[->|[->|Hp]]]]]; [by apply const_fold_lawful | apply const_prop_lawful | apply local_cse_lawful
| by apply dce_lawful | apply simplify_cfg_lawful | by apply not_elem_of_nil in Hp].
Qed.
End laws.

(** * Properties *)

(** What lowering guarantees of a function beyond what the verifier checks. *)
Record lowered (f : Function) : Prop := {
  low_index : block_index_ok f;
  low_small : small_blocks f;
  low_typed : forall b i, b ∈ blocks f -> i ∈ block_insts b -> inst_typed i;
  low_keys : forall b t, b ∈ blocks f -> block_term b = Some t -> keys_ok t;
  low_counters : counters_ok f }.

Lemma verified_module_ok m : (forall f, f ∈ functions m -> lowered f) -> verify_module m = Some [] -> module_ok m.
Proof.
  intros Hl Hv f Hf. destruct (Hl f Hf) as [Hi Hs Ht Hk Hc]. split; try done. apply silent_ssa_wf; [done | done|].
  apply verify_function_silent. unfold verify_module in Hv.
  destruct (check_all _ _) as [es|] eqn:E; cbn [mbind option_bind] in Hv; [|done].
  injection Hv as Hv. apply app_nil in Hv as [_ Hv]. apply app_nil in Hv as [_ ->].
  apply check_all_nil in E. rewrite Forall_forall in E. specialize (E f Hf). simpl in E.
  destruct (verify_function f) as [es|]; cbn [mbind option_bind] in E; [|done]. injection E as E.
  by destruct es.
Qed.

(** C4: The optimizer preserves behaviour end to end: a manager that runs any
    selection of the passes verified here (constant folding and propagation, local
    CSE, dead-code elimination, CFG simplification), in any order and any number of
    times, to its fixed point or its limit, leaves a module that the verifier accepts
    and in which every definite result of every procedure, run in the default
    floating-point environment, is the one of the original.  The target's laws are
    [FoldHost] (its pow and its float-to-integer conversion at 2^63 are the ones
    folding computes), [CommHost] (commutative instructions commute where the target
    decides them) and [FrameHost] (a frame's own slots are invisible to its caller);
    [lowered] is what lowering guarantees beyond the verifier's checks. *)
Theorem optimizer_preserves {X W} `{!Host X W} powf entry_order `{!FoldHost X W powf} `{!CommHost X W} `{!FrameHost X W} pm m m' r :
  (forall x y, f64_valid x -> f64_valid y -> f64_valid (powf x y)) -> lists_entries entry_order ->
  (forall p, p ∈ passes pm -> p ∈ verified_passes powf entry_order) ->
  (forall f, f ∈ functions m -> lowered f) -> run_manager pm m = Some (m', r) ->
  verify_module m' = Some [] /\
  forall fuel idx args (w : W),
    refines false (run_func (X := X) (fun _ => false) fuel (functions m) idx args w)
                  (run_func (fun _ => false) fuel (functions m') idx args w).
Proof.
  intros Hpow Horder Hps Hl Hrun.
  assert (Hm : module_ok m).
  { apply verified_module_ok; [done|]. unfold run_manager, verify_module_or_panic in Hrun. by destruct (verify_module m) as [[|]|]. }
  destruct (run_manager_ok module_ok (mod_refines X W) rebuild_caches_ok pm
    (fun p Hp => verified_lawful powf entry_order p Hpow Horder (Hps p Hp)) m m' r Hm Hrun) as (_ & HR & Hv & _).
  split; [done | apply HR].
Qed.

(** C34: The verified passes keep functions well-formed: SSA form, typed payloads,
    switch keys and counters survive constant folding, constant propagation, local
    CSE, dead-code elimination and CFG simplification. *)
Theorem verified_passes_keep powf entry_order p m m' ch :
  (forall x y, f64_valid x -> f64_valid y -> f64_valid (powf x y)) -> lists_entries entry_order ->
  p ∈ verified_passes powf entry_order -> module_ok m -> pass_run p m = Some (m', ch) -> module_ok m'.
Proof.
  intros Hpow Horder Hp Hm H.
  assert (HF : FoldHost (Host0 := unit_host) unit unit powf) by (split; [intros wa wb x y v E | intros ty fw x v _ _ E]; discriminate E).
  assert (HC : CommHost (Host0 := unit_host) unit unit) by (by intros k ty x y _).
  exact (pass_keeps (LawfulPass := verified_lawful (Host0 := unit_host) powf entry_order p Hpow Horder Hp) m m' ch Hm H).
Qed.

(** A result of the optimizer is a fixed point: when the manager reports
    success, every registered pass would leave the module as it is. *)
Theorem optimizer_fixed_point {X W} `{!Host X W} powf entry_order `{!FoldHost X W powf} `{!CommHost X W} `{!FrameHost X W} pm m m' res :
  (forall x y, f64_valid x -> f64_valid y -> f64_valid (powf x y)) -> lists_entries entry_order ->
  (forall p, p ∈ passes pm -> p ∈ verified_passes powf entry_order) ->
  module_ok m -> run_manager pm m = Some (m', inr res) ->
  forall p, p ∈ passes pm -> pass_run p m' = Some (m', false).
Proof.
  intros Hpow Horder Hps Hm Hrun.
  destruct (run_manager_ok module_ok (mod_refines X W) rebuild_caches_ok pm
    (fun p Hp => verified_lawful powf entry_order p Hpow Horder (Hps p Hp)) m m' (inr res) Hm Hrun) as (_ & _ & _ & Hfix).
  by eapply Hfix.
Qed.

(** C40: How a run of the manager ends, for any passes.  The run is a sequence of rounds,
    each of which ran every pass once, on a module that is verified at both ends.  It
    succeeds when a round changed nothing, which is its last round and the only such
    one, within the limit, and reports the number of rounds and of changes; or it reports
    non-convergence when exactly the limit of rounds ran and every one of them changed the
    module, and names exactly the passes that changed it in the last one, in order. *)
Theorem manager_outcome pm m m' r :
  run_manager pm m = Some (m', r) ->
  verify_module m = Some [] /\ verify_module m' = Some [] /\
  exists trace, rounds pm m trace m' /\
  match r with
  | inr res =>
      iterations res = length trace /\ (length trace <= max_iterations pm)%nat /\ change_count res = length (mjoin trace) /\
      exists earlier, trace = earlier ++ [[]] /\ Forall (fun names => names <> []) earlier
  | inl e =>
      err_max_iterations e = max_iterations pm /\ length trace = max_iterations pm /\ Forall (fun names => names <> []) trace /\
      err_changing_passes e = default [] (last trace)
  end.
Proof.
  intros H. unfold run_manager in H. destruct (verify_module_or_panic m) eqn:Ev; cbn [mbind option_bind] in H; [|done].
  destruct (run_loop _ _ _ _) as [[st its]|] eqn:E; cbn [mbind option_bind] in H; [|done].
  destruct (verify_module_or_panic (rs_module st)) eqn:Ev'; cbn [mbind option_bind] in H; [|done]. injection H as <- <-.
  split; [by eapply verify_or_panic|]. split; [by eapply verify_or_panic|].
  destruct (run_loop_trace _ _ _ _ _ _ E) as (trace & Ht & -> & Hl & Hc & Hn & Hend). exists trace. split; [exact Ht|].
  destruct (rs_changed st); simpl in *; [by destruct Hend|]. destruct Hend as [[? _]|Hend]; [done|]. done.
Qed.

(** * A run *)

#[local] Existing Instance unit_host.

#[local] Instance demo_fold_host : FoldHost unit unit (fun x _ => x).
Proof. split; [intros wa wb x y v H | intros ty fw x v _ _ H]; discriminate H. Qed.
#[local] Instance demo_comm_host : CommHost unit unit.
Proof. by intros k ty x y _. Qed.
#[local] Instance stack_fold_host : FoldHost (Host0 := stack_host) nat (list (val nat)) (fun x _ => x).
Proof. split; [intros wa wb x y v H | intros ty fw x v _ _ H]; discriminate H. Qed.
#[local] Instance stack_comm_host : CommHost (Host0 := stack_host) nat (list (val nat)).
Proof. intros k ty x y Hk. rewrite !elem_of_cons, elem_of_nil in Hk. by destruct Hk as [->|[->|[->|[->|[->|[->|[]]]]]]]. Qed.

Definition demo_manager : PassManager :=
  {| passes := verified_passes (fun x _ => x) map_entries; verify_after_each := true; max_iterations := 32 |}.

Lemma sum_fn_lowered f : f ∈ functions (mk_module [sum_fn]) -> lowered f.
Proof.
  intros ->%list_elem_of_singleton. split.
  - apply index_okb_sound. vm_compute. reflexivity.
  - intros b ->%list_elem_of_singleton. vm_compute. reflexivity.
  - intros b i ->%list_elem_of_singleton Hi. simpl in Hi. rewrite !elem_of_cons in Hi.
    destruct Hi as [->|[->|[->|Hi]]]; [| | |by apply not_elem_of_nil in Hi];
      (split; [|exact I]); try exact I; (split; [reflexivity | unfold srange; lia]).
  - intros b t ->%list_elem_of_singleton [= <-]. exact I.
  - vm_compute. intros E. discriminate E.
Qed.

Lemma sum_module_ok : module_ok (mk_module [sum_fn]).
Proof. apply verified_module_ok; [apply sum_fn_lowered | vm_compute; reflexivity]. Qed.

Lemma slot_fns_lowered f : f ∈ functions (mk_module [slot_caller; slot_fn]) -> lowered f.
Proof.
  intros Hf. destruct (slot_fns_ready f Hf) as ((Hi & Hc) & _).
  assert (Hb : forall b, b ∈ blocks f -> (Z.of_nat (length (block_insts b)) < 2 ^ 31)%Z /\
    (forall i, i ∈ block_insts b -> inst_typed i) /\ forall t, block_term b = Some t -> keys_ok t).
  { simpl in Hf. rewrite !elem_of_cons, elem_of_nil in Hf.
    destruct Hf as [->|[->|[]]]; intros b ->%list_elem_of_singleton; (split; [vm_compute; reflexivity|]); (split; [|by intros t [= <-]]);
      intros i Hin; repeat (apply elem_of_cons in Hin as [->|Hin]; [by split|]); by apply not_elem_of_nil in Hin. }
  split; [done | intros b Hin; by apply Hb | intros b i Hin; by apply Hb | intros b t Hin; by apply Hb | done].
Qed.

(** On a target whose stack holds values, a caller of a pure function with a stack
    slot. *)
Lemma optimizer_preserves_witness :
  exists m' r, run_manager demo_manager (mk_module [slot_caller; slot_fn]) = Some (m', r) /\ verify_module m' = Some [] /\
    ((fun f => length (fn_insts f)) <$> functions m') = [0; 3]%nat /\
    run_func (X := nat) (Host0 := stack_host) (fun _ => false) 2 (functions m') 0 [VInt I32 9] [VBool true] = RRet (Some (VInt I32 9)) [VBool true].
Proof.
  eexists _, _. split; [vm_compute; reflexivity|].
  edestruct (optimizer_preserves (Host0 := stack_host) (fun x _ => x) map_entries demo_manager (mk_module [slot_caller; slot_fn])) as [Hv HR];
    [by intros x y Hx _ | apply map_entries_ok | done | apply slot_fns_lowered | vm_compute; reflexivity|].
  split; [exact Hv|]. split; [vm_compute; reflexivity|]. apply (HR 2%nat 0%N [VInt I32 9] [VBool true]). vm_compute. exact I.
Defined.

Lemma verified_passes_keep_witness :
  exists m', pass_run local_cse_pass (mk_module [sum_fn]) = Some (m', false) /\ module_ok m'.
Proof.
  eexists. split; [vm_compute; reflexivity|].
  eapply (verified_passes_keep (fun x _ => x) map_entries local_cse_pass (mk_module [sum_fn]) _ false);
    [by intros x y Hx _ | apply map_entries_ok | right; right; left | apply sum_module_ok | vm_compute; reflexivity].
Defined.

Lemma optimizer_fixed_point_witness :
  exists m' res, run_manager demo_manager (mk_module [sum_fn]) = Some (m', inr res) /\
    pass_run (dce_pass map_entries) m' = Some (m', false).
Proof.
  eexists _, _. split; [vm_compute; reflexivity|].
  eapply (optimizer_fixed_point (X := unit) (W := unit) (fun x _ => x) map_entries demo_manager (mk_module [sum_fn]));
    [by intros x y Hx _ | apply map_entries_ok | done | apply sum_module_ok | vm_compute; reflexivity | right; right; right; left].
Defined.

(** One round is not enough to see that nothing changes any more. *)
Definition short_manager : PassManager :=
  {| passes := passes demo_manager; verify_after_each := false; max_iterations := 1 |}.

Lemma manager_outcome_witness :
  match run_manager short_manager (mk_module [sum_fn]) with
  | Some (_, inl e) => err_max_iterations e = 1%nat /\ exists trace, length trace = 1%nat /\ Some (err_changing_passes e) = last trace
  | _ => False
  end.
Proof.
  destruct (run_manager short_manager (mk_module [sum_fn])) as [[m' [e|res]]|] eqn:E.
  - destruct (manager_outcome short_manager _ _ _ E) as (_ & _ & trace & _ & H1 & H2 & _ & H3). split; [exact H1|]. exists trace. split; [exact H2|].
    rewrite H3. destruct trace as [|x [|y trace]]; [discriminate H2|reflexivity|discriminate H2].
  - exfalso. vm_compute in E. discriminate E.
  - exfalso. vm_compute in E. discriminate E.
Defined.
