(* ===== verification/Pipeline.v ===== *)
(** Optimization levels and their pipelines (src/src/opt/pipeline.rs).

    A pipeline is the list of passes the builder registers, in order; [interp] gives
    the pass object each name stands for. *)

From S2P Require Import Prelude IrTypes IrInst Sample Worklist IrWalk Floats IrSem Fpenv Dominators Ssa IrVerify.
From S2P Require Import Lockstep Prune WfEdit Rename ConstProp ConstFold Cse Dce PassLaws PassManager.
Local Open Scope string_scope.

Inductive OptLevel := O0 | O1 | O2 | O3 | Os | Ofast.

(** [OptLevel::parse_flag]. *)
Definition parse_flag (s : string) : option OptLevel :=
  if decide (s = "O0" \/ s = "0") then Some O0
  else if decide (s = "O1" \/ s = "1") then Some O1
  else if decide (s = "O2" \/ s = "2") then Some O2
  else if decide (s = "O3" \/ s = "3") then Some O3
  else if decide (s = "Os" \/ s = "s") then Some Os
  else if decide (s = "Ofast" \/ s = "fast") then Some Ofast
  else None.

(** [OptLevel::flag_name]. *)
Definition flag_name (l : OptLevel) : string :=
  match l with O0 => "-O0" | O1 => "-O1" | O2 => "-O2" | O3 => "-O3" | Os => "-Os" | Ofast => "-Ofast" end.

Definition inlining (l : OptLevel) : bool := match l with O1 | O2 | O3 | Os | Ofast => true | O0 => false end.
Definition level_vectorize (l : OptLevel) : bool := match l with O3 | Ofast => true | _ => false end.
Definition fast_math (l : OptLevel) : bool := match l with Ofast => true | _ => false end.
Definition fp_contract (l : OptLevel) : bool := match l with Ofast => true | _ => false end.

(** The pass objects the builder creates. *)
Inductive PassId :=
| PCallResolve | PMem2Reg | PConstFold | PSroa | PConstArgSpecialize | PDeadArgElim
| PReturnPropagate | PSimplifyCfg | PDeadFuncElim | PBce | PStrengthReduce | PLocalLsf
| PGlobalLsf | PLocalCse | PPreheaderInsert | PLoopPeel | PLoopUnswitch | PLicm | PSccp
| PJumpThread | PConstProp | PDse | PLoopInterchange | PLoopFission | PLoopFusion | PLoopUnroll
| PSseVectorize | PVectorize | PFastMathReassoc | PGvn | PDce | PInline (level : OptLevel)
| PNeonVectorize (fp_contract : bool).

(** What [build_pipeline] adds, in order. *)
Definition pipeline_passes (level : OptLevel) (arch : Arch) : list PassId :=
  match level with
  | O0 => []
  | O1 =>
      [PCallResolve; PMem2Reg; PConstFold; PInline O1; PConstArgSpecialize; PDeadArgElim; PReturnPropagate;
       PSimplifyCfg; PDeadFuncElim; PLocalLsf; PLocalCse; PSccp; PJumpThread; PConstProp; PDce]
  | O2 =>
      [PCallResolve; PMem2Reg; PConstFold; PSroa; PMem2Reg; PInline O2; PConstArgSpecialize; PDeadArgElim;
       PReturnPropagate; PSimplifyCfg; PDeadFuncElim; PBce; PStrengthReduce; PLocalLsf; PGlobalLsf;
       PLocalCse; PPreheaderInsert; PLoopPeel; PLoopUnswitch; PLicm; PSccp; PJumpThread; PConstProp; PDse;
       PLoopInterchange; PLoopFission; PLoopFusion; PLoopUnroll; PGvn; PDce]
  | Os =>
      [PCallResolve; PMem2Reg; PConstFold; PSroa; PMem2Reg; PInline Os; PConstArgSpecialize; PDeadArgElim;
       PReturnPropagate; PSimplifyCfg; PDeadFuncElim; PBce; PStrengthReduce; PLocalLsf; PGlobalLsf;
       PLocalCse; PPreheaderInsert; PLoopPeel; PLoopUnswitch; PLicm; PSccp; PJumpThread; PConstProp; PDse;
       PLoopInterchange; PGvn; PDce]
  | O3 =>
      [PCallResolve; PMem2Reg; PConstFold; PSroa; PMem2Reg; PInline O3; PConstArgSpecialize; PDeadArgElim;
       PReturnPropagate; PSimplifyCfg; PDeadFuncElim; PBce; PStrengthReduce; PLocalLsf; PGlobalLsf;
       PLocalCse; PPreheaderInsert; PLoopPeel; PLoopUnswitch; PLicm; PSccp; PJumpThread; PConstProp; PDse;
       PLoopInterchange; PLoopFission; PLoopFusion] ++
      match arch with
      | Arm64 => [PNeonVectorize (fp_contract level); PVectorize]
      | X86_64 => [PSseVectorize; PVectorize]
      end ++
      [PLoopUnroll; PGvn; PDce]
  | Ofast =>
      [PCallResolve; PMem2Reg; PConstFold; PSroa; PMem2Reg; PInline O3; PConstArgSpecialize; PDeadArgElim;
       PReturnPropagate; PSimplifyCfg; PDeadFuncElim; PBce; PStrengthReduce; PLocalLsf; PGlobalLsf;
       PLocalCse; PPreheaderInsert; PLoopPeel; PLoopUnswitch; PLicm; PSccp; PJumpThread; PConstProp; PDse;
       PLoopInterchange; PLoopFission; PLoopFusion] ++
      match arch with
      | Arm64 => [PNeonVectorize (fp_contract level); PVectorize]
      | X86_64 => [PSseVectorize; PVectorize]
      end ++
      [PLoopUnroll; PFastMathReassoc; PGvn; PDce]
  end.

(** [build_pipeline]. *)
Definition build_pipeline (interp : PassId -> Pass) (verify_env : bool) (level : OptLevel) (arch : Arch) : PassManager :=
  foldl add_pass (new_manager verify_env) (interp <$> pipeline_passes level arch).

(** [build_i128_pipeline]. *)
Definition build_i128_pipeline (interp : PassId -> Pass) (verify_env : bool) (level : OptLevel) (arch : Arch) : option PassManager :=
  match level with O0 => None | _ => Some (build_pipeline interp verify_env level arch) end.

(** * Facts *)

#[export] Instance OptLevel_eq_dec : EqDecision OptLevel.
Proof. solve_decision. Defined.
#[export] Instance PassId_eq_dec : EqDecision PassId.
Proof. solve_decision. Defined.

Lemma foldl_add_pass pm ps :
  foldl add_pass pm ps =
  {| passes := passes pm ++ ps; verify_after_each := verify_after_each pm; max_iterations := max_iterations pm |}.
Proof.
  revert pm. induction ps as [|p ps IH]; intros pm; simpl; [rewrite app_nil_r; by destruct pm|].
  rewrite IH. simpl. by rewrite <- (assoc_L (++)).
Qed.

(** The names in a pipeline that stand for vectorizers, and for inliners. *)
Definition is_vectorizer (p : PassId) : bool :=
  match p with PNeonVectorize _ | PSseVectorize | PVectorize => true | _ => false end.
Definition is_inliner (p : PassId) : bool := match p with PInline _ => true | _ => false end.

(** -O0 preserves the IR exactly: whatever the passes, a run of its pipeline
    that does not panic returns the module it was given after one round without
    changes. *)
Lemma o0_is_identity interp verify_env arch m m' r :
  run_manager (build_pipeline interp verify_env O0 arch) m = Some (m', r) ->
  m' = m /\ r = inr {| change_count := 0; iterations := 1 |}.
Proof.
  unfold build_pipeline, run_manager. simpl. destruct (verify_module_or_panic m); cbn [mbind option_bind]; [|done].
  by intros [= <- <-].
Qed.

(** * Properties *)

(** The pipelines agree with what the levels promise: a level registers an
    inliner, a vectorizer or the value-changing reassociation exactly when its
    predicate says so, contracts multiply-adds in the NEON vectorizer only where
    allowed, never unrolls at -Os, and vectorizes for the architecture at hand. *)
Theorem pipeline_respects_level level arch :
  (existsb is_inliner (pipeline_passes level arch) = inlining level) /\
  (existsb is_vectorizer (pipeline_passes level arch) = level_vectorize level) /\
  (PFastMathReassoc ∈ pipeline_passes level arch <-> fast_math level = true) /\
  (forall c, PNeonVectorize c ∈ pipeline_passes level arch -> c = fp_contract level /\ arch = Arm64) /\
  (PSseVectorize ∈ pipeline_passes level arch -> arch = X86_64) /\
  (PLoopUnroll ∉ pipeline_passes Os arch) /\
  (level <> O0 -> head (pipeline_passes level arch) = Some PCallResolve /\ last (pipeline_passes level arch) = Some PDce).
Proof.
  assert (Hin : forall p, p ∈ pipeline_passes level arch <-> existsb (fun q => bool_decide (p = q)) (pipeline_passes level arch) = true).
  { intros p. rewrite existsb_exists. split.
    - intros Hp. exists p. split; [by apply list_elem_of_In | by apply bool_decide_eq_true].
    - intros (q & Hq & E%bool_decide_eq_true). subst. by apply list_elem_of_In. }
  split; [by destruct level, arch|]. split; [by destruct level, arch|].
  split; [rewrite Hin; by destruct level, arch|].
  split; [intros c; rewrite Hin; destruct level, arch, c; intros Hc; vm_compute in Hc; (discriminate Hc || done)|].
  split; [rewrite Hin; destruct level, arch; intros Hc; vm_compute in Hc; (discriminate Hc || done)|].
  split; [|by destruct level, arch]. apply (bool_decide_unpack (PLoopUnroll ∉ pipeline_passes Os arch)). by destruct arch.
Qed.

Lemma pipeline_respects_level_witness : last (pipeline_passes Ofast X86_64) = Some PDce.
Proof. apply (pipeline_respects_level Ofast X86_64). discriminate. Defined.
