(* ===== verification/X86Mir.v ===== *)
(** The x86-64 machine IR (src/src/codegen/x86/mir.rs): registers, opcodes,
    operands, instructions and functions, before and after register allocation. *)

From stdpp Require Import pretty.
From S2P Require Import Prelude.

(** [VRegId] and [MBlockId] of src/src/codegen/shared.rs wrap a [u32]. *)
Notation VRegId := N (only parsing).
Notation MBlockId := N (only parsing).

(** The value of an expression of type [u32] whose exact result is [n]. *)
Definition u32 (n : N) : N := (n mod 2 ^ 32)%N.

Lemma u32_small n : (n < 2 ^ 32)%N -> u32 n = n.
Proof. apply N.mod_small. Qed.

Inductive X86RegClass := Gp64 | Gp32 | Gp8 | Xmm | Xmm128.

#[global] Instance X86RegClass_eq_dec : EqDecision X86RegClass.
Proof. solve_decision. Defined.

Inductive X86Reg :=
| Rax | Rcx | Rdx | Rbx | Rsp | Rbp | Rsi | Rdi
| R8 | R9 | R10 | R11 | R12 | R13 | R14 | R15
| Xmm0 | Xmm1 | Xmm2 | Xmm3 | Xmm4 | Xmm5 | Xmm6 | Xmm7
| Xmm8 | Xmm9 | Xmm10 | Xmm11 | Xmm12 | Xmm13 | Xmm14 | Xmm15.

#[global] Instance X86Reg_eq_dec : EqDecision X86Reg.
Proof. solve_decision. Defined.

Definition all_regs : list X86Reg :=
  [ Rax; Rcx; Rdx; Rbx; Rsp; Rbp; Rsi; Rdi; R8; R9; R10; R11; R12; R13; R14; R15;
    Xmm0; Xmm1; Xmm2; Xmm3; Xmm4; Xmm5; Xmm6; Xmm7;
    Xmm8; Xmm9; Xmm10; Xmm11; Xmm12; Xmm13; Xmm14; Xmm15 ].

(** [self as u8]: the position of the variant. *)
Definition reg_index (r : X86Reg) : nat :=
  match r with
  | Rax => 0 | Rcx => 1 | Rdx => 2 | Rbx => 3 | Rsp => 4 | Rbp => 5 | Rsi => 6 | Rdi => 7
  | R8 => 8 | R9 => 9 | R10 => 10 | R11 => 11 | R12 => 12 | R13 => 13 | R14 => 14 | R15 => 15
  | Xmm0 => 16 | Xmm1 => 17 | Xmm2 => 18 | Xmm3 => 19 | Xmm4 => 20 | Xmm5 => 21 | Xmm6 => 22 | Xmm7 => 23
  | Xmm8 => 24 | Xmm9 => 25 | Xmm10 => 26 | Xmm11 => 27 | Xmm12 => 28 | Xmm13 => 29 | Xmm14 => 30 | Xmm15 => 31
  end.

Lemma all_regs_index r : all_regs !! reg_index r = Some r.
Proof. by destruct r. Qed.

#[global] Instance X86Reg_countable : Countable X86Reg.
Proof.
  refine (inj_countable reg_index (fun i => all_regs !! i) _). apply all_regs_index.
Defined.

Definition is_gp (r : X86Reg) : bool := (reg_index r <? reg_index Xmm0)%nat.

Inductive OpSize := SzB | SzW | SzL | SzQ.

#[global] Instance OpSize_eq_dec : EqDecision OpSize.
Proof. solve_decision. Defined.

(** AT&T spellings of a general-purpose register: (q, l, w, b). *)
Definition gp_names (r : X86Reg) : string * string * string * string :=
  match r with
  | Rax => ("%rax", "%eax", "%ax", "%al")
  | Rcx => ("%rcx", "%ecx", "%cx", "%cl")
  | Rdx => ("%rdx", "%edx", "%dx", "%dl")
  | Rbx => ("%rbx", "%ebx", "%bx", "%bl")
  | Rsp => ("%rsp", "%esp", "%sp", "%spl")
  | Rbp => ("%rbp", "%ebp", "%bp", "%bpl")
  | Rsi => ("%rsi", "%esi", "%si", "%sil")
  | Rdi => ("%rdi", "%edi", "%di", "%dil")
  | R8 => ("%r8", "%r8d", "%r8w", "%r8b")
  | R9 => ("%r9", "%r9d", "%r9w", "%r9b")
  | R10 => ("%r10", "%r10d", "%r10w", "%r10b")
  | R11 => ("%r11", "%r11d", "%r11w", "%r11b")
  | R12 => ("%r12", "%r12d", "%r12w", "%r12b")
  | R13 => ("%r13", "%r13d", "%r13w", "%r13b")
  | R14 => ("%r14", "%r14d", "%r14w", "%r14b")
  | R15 => ("%r15", "%r15d", "%r15w", "%r15b")
  | Xmm0 => ("%xmm0", "%xmm0", "%xmm0", "%xmm0")
  | Xmm1 => ("%xmm1", "%xmm1", "%xmm1", "%xmm1")
  | Xmm2 => ("%xmm2", "%xmm2", "%xmm2", "%xmm2")
  | Xmm3 => ("%xmm3", "%xmm3", "%xmm3", "%xmm3")
  | Xmm4 => ("%xmm4", "%xmm4", "%xmm4", "%xmm4")
  | Xmm5 => ("%xmm5", "%xmm5", "%xmm5", "%xmm5")
  | Xmm6 => ("%xmm6", "%xmm6", "%xmm6", "%xmm6")
  | Xmm7 => ("%xmm7", "%xmm7", "%xmm7", "%xmm7")
  | Xmm8 => ("%xmm8", "%xmm8", "%xmm8", "%xmm8")
  | Xmm9 => ("%xmm9", "%xmm9", "%xmm9", "%xmm9")
  | Xmm10 => ("%xmm10", "%xmm10", "%xmm10", "%xmm10")
  | Xmm11 => ("%xmm11", "%xmm11", "%xmm11", "%xmm11")
  | Xmm12 => ("%xmm12", "%xmm12", "%xmm12", "%xmm12")
  | Xmm13 => ("%xmm13", "%xmm13", "%xmm13", "%xmm13")
  | Xmm14 => ("%xmm14", "%xmm14", "%xmm14", "%xmm14")
  | Xmm15 => ("%xmm15", "%xmm15", "%xmm15", "%xmm15")
  end%string.

(** [X86Reg::name]. *)
Definition reg_name (r : X86Reg) (size : OpSize) : string :=
  let '(q, l, w, b) := gp_names r in
  match size with SzQ => q | SzL => l | SzW => w | SzB => b end.

Definition size_suffix (s : OpSize) : string :=
  match s with SzB => "b" | SzW => "w" | SzL => "l" | SzQ => "q" end.

Inductive X86Cond := CcE | CcNe | CcL | CcLe | CcG | CcGe | CcB | CcBe | CcA | CcAe | CcS | CcNs | CcP | CcNp.

#[global] Instance X86Cond_eq_dec : EqDecision X86Cond.
Proof. solve_decision. Defined.

Definition cond_mnemonic (c : X86Cond) : string :=
  match c with
  | CcE => "e" | CcNe => "ne" | CcL => "l" | CcLe => "le" | CcG => "g" | CcGe => "ge" | CcB => "b"
  | CcBe => "be" | CcA => "a" | CcAe => "ae" | CcS => "s" | CcNs => "ns" | CcP => "p" | CcNp => "np"
  end.

Record X86VReg := { vr_id : VRegId; vr_class : X86RegClass }.

#[global] Instance X86VReg_eq_dec : EqDecision X86VReg.
Proof. solve_decision. Defined.

Inductive X86Operand :=
| VReg (v : X86VReg)
| Reg (r : X86Reg)
| Imm (z : Z)
| FrameSlot (slot : Z)
| Mem (base index : option X86Reg) (scale : N) (disp : Z)
| RipLabel (l : string)
| Cond (c : X86Cond)
| BlockRef (b : MBlockId)
| Extern (s : string).

#[global] Instance X86Operand_eq_dec : EqDecision X86Operand.
Proof. solve_decision. Defined.

Inductive X86Opcode :=
| MovRR | MovRI | MovRM | MovMR | MovMI
| Movsx (src : OpSize) | Movzx (src : OpSize) | MovsxRM (src : OpSize) | MovzxRM (src : OpSize)
| Lea | CallReg | MovqGpToXmm | MovqXmmToGp
| Add | Sub | Adc | Sbb | Imul | And | Or | Xor | Neg | Not | Shl | Shr | Sar | Bsr | Bsf
| Cltd | Cqto | Idiv
| Cmp | Test_ | Setcc
| Jmp | Jcc | Call | Ret
| Push | Pop
| Movss | Movsd | Addss | Addsd | Subss | Subsd | Mulss | Mulsd | Divss | Divsd
| Ucomiss | Ucomisd | Cvtsi2ss | Cvtsi2sd | Cvttss2si | Cvttsd2si | Cvtss2sd | Cvtsd2ss
| Xorps | Xorpd | Andps | Andpd | Sqrtss | Sqrtsd
| Movups | Movaps | Addps | Addpd | Subps | Subpd | Mulps | Mulpd | Divps | Divpd | Sqrtps | Sqrtpd
| Minps | Minpd | Maxps | Maxpd | Paddd | Paddq | Psubd | Psubq | Pmuludq
| Pand | Pandn | Por | Pxor | Pcmpgtd | Pcmpeqd | Cmpps | Cmppd
| Pshufd | Shufps | Movhlps | Unpcklpd | Punpcklqdq | Movd.

#[global] Instance X86Opcode_eq_dec : EqDecision X86Opcode.
Proof. solve_decision. Defined.

Definition tied_use (op : X86Opcode) : option nat :=
  match op with
  | Add | Sub | Adc | Sbb | Imul | And | Or | Xor | Neg | Not | Shl | Shr | Sar | Addss
  | Addsd | Subss | Subsd | Mulss | Mulsd | Divss | Divsd | Xorps | Xorpd | Andps
  | Andpd => Some 0%nat
  | Addps | Addpd | Subps | Subpd | Mulps | Mulpd | Divps | Divpd | Minps | Minpd
  | Maxps | Maxpd | Paddd | Paddq | Psubd | Psubq | Pmuludq | Pand | Pandn | Por
  | Pxor | Pcmpgtd | Pcmpeqd | Cmpps | Cmppd | Shufps | Movhlps | Unpcklpd
  | Punpcklqdq => Some 0%nat
  | _ => None
  end.

Record X86Inst := {
  x_opcode : X86Opcode;
  x_size : OpSize;
  x_operands : list X86Operand;
  x_def : option X86Operand }.

#[global] Instance X86Inst_eq_dec : EqDecision X86Inst.
Proof. solve_decision. Defined.

(** A class whose physical registers are the xmm registers. *)
Definition is_fp_class (c : X86RegClass) : bool := match c with Xmm | Xmm128 => true | _ => false end.

Definition fp_store_addr_vreg (i : X86Inst) : option X86VReg :=
  match x_opcode i with
  | Movss | Movsd | Movups =>
      match x_def i with
      | Some (VReg v) => if bool_decide (vr_class v <> Xmm) && bool_decide (vr_class v <> Xmm128) then Some v else None
      | _ => None
      end
  | _ => None
  end.

Definition def_vreg (i : X86Inst) : option X86VReg :=
  match fp_store_addr_vreg i with
  | Some _ => None
  | None => match x_def i with Some (VReg v) => Some v | _ => None end
  end.

Definition operand_vreg (op : X86Operand) : option X86VReg := match op with VReg v => Some v | _ => None end.

(** [for_each_use_vreg]: the registers it visits, in order. *)
Definition use_vregs (i : X86Inst) : list X86VReg :=
  option_list (fp_store_addr_vreg i) ++ omap operand_vreg (x_operands i).

Record X86Block := { xb_id : MBlockId; xb_insts : list X86Inst }.

Record X86FrameSlot := { fs_id : Z; fs_size : Z; fs_align : Z }.

Record X86Function := {
  xf_name : string;
  xf_blocks : list X86Block;
  rodata : list (string * Z);
  rodata_bytes : list (string * list N);
  frame_slots : list X86FrameSlot;
  outgoing_arg_bytes : Z;
  frame_bytes : Z;
  entry_live_ins : list X86Reg;
  next_vreg : N;
  next_block : N }.

(** * Operations on functions *)

Definition new_x86_function (name : string) : X86Function :=
  {| xf_name := name; xf_blocks := [{| xb_id := 0; xb_insts := [] |}]; rodata := []; rodata_bytes := [];
     frame_slots := []; outgoing_arg_bytes := 0; frame_bytes := 0; entry_live_ins := [];
     next_vreg := 0; next_block := 1 |}.

Definition with_blocks (f : X86Function) (bs : list X86Block) : X86Function :=
  {| xf_name := xf_name f; xf_blocks := bs; rodata := rodata f; rodata_bytes := rodata_bytes f;
     frame_slots := frame_slots f; outgoing_arg_bytes := outgoing_arg_bytes f; frame_bytes := frame_bytes f;
     entry_live_ins := entry_live_ins f; next_vreg := next_vreg f; next_block := next_block f |}.

Definition add_entry_live_in (f : X86Function) (r : X86Reg) : X86Function :=
  if bool_decide (r ∈ entry_live_ins f) then f
  else {| xf_name := xf_name f; xf_blocks := xf_blocks f; rodata := rodata f; rodata_bytes := rodata_bytes f;
          frame_slots := frame_slots f; outgoing_arg_bytes := outgoing_arg_bytes f; frame_bytes := frame_bytes f;
          entry_live_ins := entry_live_ins f ++ [r]; next_vreg := next_vreg f; next_block := next_block f |}.

Definition new_vreg (f : X86Function) (c : X86RegClass) : X86VReg * X86Function :=
  ({| vr_id := next_vreg f; vr_class := c |},
   {| xf_name := xf_name f; xf_blocks := xf_blocks f; rodata := rodata f; rodata_bytes := rodata_bytes f;
      frame_slots := frame_slots f; outgoing_arg_bytes := outgoing_arg_bytes f; frame_bytes := frame_bytes f;
      entry_live_ins := entry_live_ins f; next_vreg := u32 (next_vreg f + 1); next_block := next_block f |}).

Definition new_block (f : X86Function) : MBlockId * X86Function :=
  (next_block f,
   {| xf_name := xf_name f; xf_blocks := xf_blocks f ++ [{| xb_id := next_block f; xb_insts := [] |}];
      rodata := rodata f; rodata_bytes := rodata_bytes f;
      frame_slots := frame_slots f; outgoing_arg_bytes := outgoing_arg_bytes f; frame_bytes := frame_bytes f;
      entry_live_ins := entry_live_ins f; next_vreg := next_vreg f; next_block := u32 (next_block f + 1) |}).

Definition add_rodata (f : X86Function) (bits : Z) : string * X86Function :=
  match list_find (fun p => p.2 = bits) (rodata f) with
  | Some (_, (label, _)) => (label, f)
  | None =>
      let label := (".LC" +:+ xf_name f +:+ "_" +:+ pretty (length (rodata f)))%string in
      (label,
       {| xf_name := xf_name f; xf_blocks := xf_blocks f; rodata := rodata f ++ [(label, bits)];
          rodata_bytes := rodata_bytes f; frame_slots := frame_slots f;
          outgoing_arg_bytes := outgoing_arg_bytes f; frame_bytes := frame_bytes f;
          entry_live_ins := entry_live_ins f; next_vreg := next_vreg f; next_block := next_block f |})
  end.

Definition add_rodata_bytes (f : X86Function) (bytes : list N) : string * X86Function :=
  match list_find (fun p => p.2 = bytes) (rodata_bytes f) with
  | Some (_, (label, _)) => (label, f)
  | None =>
      let label := (".Lstr" +:+ xf_name f +:+ "_" +:+ pretty (length (rodata_bytes f)))%string in
      (label,
       {| xf_name := xf_name f; xf_blocks := xf_blocks f; rodata := rodata f;
          rodata_bytes := rodata_bytes f ++ [(label, bytes)]; frame_slots := frame_slots f;
          outgoing_arg_bytes := outgoing_arg_bytes f; frame_bytes := frame_bytes f;
          entry_live_ins := entry_live_ins f; next_vreg := next_vreg f; next_block := next_block f |})
  end.

(** The identifier of a slot is its index cast to [i32]. *)
Definition alloc_frame_slot (f : X86Function) (size align : Z) : Z * X86Function :=
  let id := swrap 32 (Z.of_nat (length (frame_slots f))) in
  (id,
   {| xf_name := xf_name f; xf_blocks := xf_blocks f; rodata := rodata f; rodata_bytes := rodata_bytes f;
      frame_slots := frame_slots f ++ [{| fs_id := id; fs_size := size; fs_align := align |}];
      outgoing_arg_bytes := outgoing_arg_bytes f; frame_bytes := frame_bytes f;
      entry_live_ins := entry_live_ins f; next_vreg := next_vreg f; next_block := next_block f |}).

Definition reserve_outgoing_args (f : X86Function) (bytes : Z) : X86Function :=
  if (outgoing_arg_bytes f <? bytes)%Z
  then {| xf_name := xf_name f; xf_blocks := xf_blocks f; rodata := rodata f; rodata_bytes := rodata_bytes f;
          frame_slots := frame_slots f; outgoing_arg_bytes := bytes; frame_bytes := frame_bytes f;
          entry_live_ins := entry_live_ins f; next_vreg := next_vreg f; next_block := next_block f |}
  else f.

(** * Positions

    Liveness analysis, the occupancy table and the rewriting pass number the
    instructions alike: in block order, two positions per instruction. *)

Fixpoint number_insts (pos : N) (l : list X86Inst) : list (N * X86Inst) :=
  match l with
  | [] => []
  | i :: l' => (pos, i) :: number_insts (u32 (pos + 2)) l'
  end.

Fixpoint end_pos (pos : N) (l : list X86Inst) : N :=
  match l with
  | [] => pos
  | _ :: l' => end_pos (u32 (pos + 2)) l'
  end.

Record numbered_block := { nb_start : N; nb_end : N; nb_insts : list (N * X86Inst) }.

Fixpoint number_blocks (pos : N) (bs : list X86Block) : list numbered_block :=
  match bs with
  | [] => []
  | b :: bs' =>
      let e := end_pos pos (xb_insts b) in
      {| nb_start := pos; nb_end := e; nb_insts := number_insts pos (xb_insts b) |} :: number_blocks e bs'
  end.

Definition numbered (f : X86Function) : list numbered_block := number_blocks 0 (xf_blocks f).

Definition inst_count (f : X86Function) : nat := foldr (fun b n => length (xb_insts b) + n)%nat 0%nat (xf_blocks f).

(** The positions of the function fit in a [u32]. *)
Definition small (f : X86Function) : Prop := (2 * N.of_nat (inst_count f) < 2 ^ 32)%N.

Definition is_call (i : X86Inst) : bool := match x_opcode i with Call | CallReg => true | _ => false end.

(** * Facts about positions *)

Definition inst_count_of (bs : list X86Block) : nat := foldr (fun b n => length (xb_insts b) + n)%nat 0%nat bs.

#[local] Arguments N.of_nat : simpl never.
#[local] Arguments N.mul : simpl never.
#[local] Arguments N.add : simpl never.

Section positions.
Local Open Scope N_scope.

Lemma end_pos_exact pos l : pos + 2 * N.of_nat (length l) < 2 ^ 32 -> end_pos pos l = pos + 2 * N.of_nat (length l).
Proof.
revert pos. induction l as [|i l IH]; intros pos H; simpl in *; [lia|].
rewrite u32_small by lia. rewrite IH by lia. lia.
Qed.

Lemma number_insts_lookup pos l k i :
pos + 2 * N.of_nat (length l) < 2 ^ 32 ->
l !! k = Some i -> number_insts pos l !! k = Some (pos + 2 * N.of_nat k, i).
Proof.
revert pos k. induction l as [|j l IH]; intros pos k H Hk; [done|]. simpl in H.
destruct k as [|k]; simpl in *; [simplify_eq; do 2 f_equal; lia|].
rewrite u32_small by lia. rewrite (IH _ k) by (done || lia). do 2 f_equal; lia.
Qed.

Lemma number_insts_inv pos l p i :
pos + 2 * N.of_nat (length l) < 2 ^ 32 ->
(p, i) ∈ number_insts pos l -> exists k, l !! k = Some i /\ p = pos + 2 * N.of_nat k.
Proof.
revert pos. induction l as [|j l IH]; intros pos H Hin; simpl in *; [by apply elem_of_nil in Hin|].
rewrite u32_small in Hin by lia.
apply elem_of_cons in Hin as [[= -> ->]|Hin]; [exists 0%nat; split; [done|lia]|].
destruct (IH (pos + 2) ltac:(lia) Hin) as (k & Hk & ->). exists (S k). split; [done|lia].
Qed.

(** Number of instructions in front of block [n]. *)
Definition before (bs : list X86Block) (n : nat) : nat := inst_count_of (take n bs).

Lemma before_S bs n b : bs !! n = Some b -> before bs (S n) = (before bs n + length (xb_insts b))%nat.
Proof.
unfold before, inst_count_of. revert n. induction bs as [|c bs IH]; intros [|n] H; simpl in *; simplify_eq; [simpl; lia|].
rewrite (IH n) by done. lia.
Qed.

Lemma before_le bs n m : (n <= m)%nat -> (before bs n <= before bs m)%nat.
Proof.
unfold before, inst_count_of. revert n m. induction bs as [|c bs IH]; intros [|n] [|m] H; simpl; try lia.
specialize (IH n m). lia.
Qed.

Lemma before_total bs n : (before bs n <= inst_count_of bs)%nat.
Proof.
unfold before, inst_count_of. revert n. induction bs as [|c bs IH]; intros [|n]; simpl; try lia. specialize (IH n). lia.
Qed.

Lemma number_blocks_lookup pos bs n b :
pos + 2 * N.of_nat (inst_count_of bs) < 2 ^ 32 -> bs !! n = Some b ->
let s := pos + 2 * N.of_nat (before bs n) in
number_blocks pos bs !! n =
Some {| nb_start := s; nb_end := s + 2 * N.of_nat (length (xb_insts b)); nb_insts := number_insts s (xb_insts b) |}.
Proof.
revert pos n. induction bs as [|c bs IH]; intros pos n H Hn; [done|]. simpl in H.
assert (He : end_pos pos (xb_insts c) = pos + 2 * N.of_nat (length (xb_insts c))).
{ apply end_pos_exact. unfold inst_count_of in H. simpl in H. lia. }
assert (Hc : inst_count_of (c :: bs) = (length (xb_insts c) + inst_count_of bs)%nat) by done.
destruct n as [|n]; simpl in *.
- simplify_eq. rewrite He. unfold before. simpl. by replace (pos + 2 * N.of_nat 0) with pos by lia.
- rewrite He. rewrite (IH _ n) by (done || lia).
assert (Hb : before (c :: bs) (S n) = (length (xb_insts c) + before bs n)%nat) by done.
rewrite Hb. do 2 f_equal; try lia. f_equal. lia.
Qed.

Lemma length_number_blocks pos bs : length (number_blocks pos bs) = length bs.
Proof. revert pos. induction bs as [|b bs IH]; intros pos; simpl; [done|]. by rewrite IH. Qed.

End positions.

Lemma small_before f n b :
  small f -> xf_blocks f !! n = Some b ->
  (2 * N.of_nat (before (xf_blocks f) n) + 2 * N.of_nat (length (xb_insts b)) < 2 ^ 32)%N.
Proof.
  intros H Hn. pose proof (before_total (xf_blocks f) (S n)) as Ht. rewrite (before_S _ _ _ Hn) in Ht.
  unfold small, inst_count in H. unfold inst_count_of in Ht. lia.
Qed.

(** Every spelling the printer can produce names one register. *)
Lemma reg_name_injective r1 r2 s1 s2 : reg_name r1 s1 = reg_name r2 s2 -> r1 = r2.
Proof.
  assert (H : forallb (fun p => forallb (fun q => negb (bool_decide (reg_name p.1 p.2 = reg_name q.1 q.2)) || bool_decide (p.1 = q.1))
     (list_prod all_regs [SzB; SzW; SzL; SzQ])) (list_prod all_regs [SzB; SzW; SzL; SzQ]) = true) by (vm_compute; reflexivity).
  rewrite List.forallb_forall in H. intros E.
  assert (Hin : forall r s, List.In (r, s) (list_prod all_regs [SzB; SzW; SzL; SzQ])).
  { intros r s. apply List.in_prod; [|destruct s; simpl; tauto]. apply list_elem_of_In, list_elem_of_lookup.
    exists (reg_index r). apply all_regs_index. }
  specialize (H _ (Hin r1 s1)). rewrite List.forallb_forall in H. specialize (H _ (Hin r2 s2)). simpl in H.
  rewrite (bool_decide_eq_true_2 _ E) in H. simpl in H. by apply bool_decide_eq_true in H.
Qed.

(** * A sample function

    [call_fn] computes with an argument and a constant across a call, the shape a
    Fortran function that prints gives: an incoming register captured on entry, a
    floating-point value that is live over the call, and two blocks. *)

Definition gp_vreg (n : N) : X86VReg := {| vr_id := n; vr_class := Gp64 |}.
Definition xmm_vreg (n : N) : X86VReg := {| vr_id := n; vr_class := Xmm |}.
Definition mk_inst (op : X86Opcode) (operands : list X86Operand) (def : option X86Operand) : X86Inst :=
  {| x_opcode := op; x_size := SzQ; x_operands := operands; x_def := def |}.

Definition call_fn : X86Function :=
  {| xf_name := "f";
     xf_blocks :=
       [ {| xb_id := 0; xb_insts :=
              [ mk_inst MovRR [Reg Rdi] (Some (VReg (gp_vreg 0)));
                mk_inst Movsd [RipLabel ".LCf_0"] (Some (VReg (xmm_vreg 1)));
                mk_inst Call [Extern "print"] None;
                mk_inst MovRR [Reg Rax] (Some (VReg (gp_vreg 2)));
                mk_inst Addsd [VReg (xmm_vreg 1); VReg (xmm_vreg 1)] (Some (VReg (xmm_vreg 1)));
                mk_inst MovMR [VReg (gp_vreg 2); FrameSlot 0] None;
                mk_inst Movsd [VReg (xmm_vreg 1)] (Some (Reg Xmm0));
                mk_inst Jmp [BlockRef 1] None ] |};
         {| xb_id := 1; xb_insts :=
              [ mk_inst Add [VReg (gp_vreg 0); VReg (gp_vreg 0)] (Some (VReg (gp_vreg 0)));
                mk_inst MovRR [VReg (gp_vreg 0)] (Some (Reg Rax));
                mk_inst Ret [] None ] |} ];
     rodata := [(".LCf_0", 0%Z)]; rodata_bytes := [];
     frame_slots := [{| fs_id := 0; fs_size := 8; fs_align := 8 |}];
     outgoing_arg_bytes := 0; frame_bytes := 0; entry_live_ins := [Rdi]; next_vreg := 3; next_block := 2 |}.
