(* ===== verification/X86Liveness.v ===== *)
(** Liveness analysis of the x86-64 machine IR (src/src/codegen/x86/liveness.rs):
    positions, successors, backward dataflow on bit sets, live intervals, hints. *)

From stdpp Require Import sorting.
From S2P Require Import Prelude BitSet Slices X86Mir.
From stdpp Require Import list.

Record LiveInterval := {
  li_vreg : VRegId;
  li_class : X86RegClass;
  li_start : N;
  li_end : N;
  li_hint : option X86Reg }.

#[global] Instance LiveInterval_eq_dec : EqDecision LiveInterval.
Proof. solve_decision. Defined.

Record LivenessResult := {
  intervals : list LiveInterval;
  call_positions : list N;
  num_positions : N }.

(** * Virtual registers of an instruction *)

Definition bit_of (v : X86VReg) : nat := N.to_nat (vr_id v).

(** The registers [vreg_capacity] and the interval phase visit, in order. *)
Definition inst_vregs (i : X86Inst) : list X86VReg := option_list (def_vreg i) ++ use_vregs i.

Definition block_vregs (b : X86Block) : list X86VReg := xb_insts b ≫= inst_vregs.

Definition vreg_capacity (f : X86Function) : nat :=
  foldl (fun m v => Nat.max m (bit_of v + 1)) 0%nat (xf_blocks f ≫= block_vregs).

Definition liveness_footprint_bytes (f : X86Function) : N :=
  let words := ((N.of_nat (vreg_capacity f) + 63) / 64)%N in
  (2 * N.of_nat (length (xf_blocks f)) * words * 8)%N.

(** * Phase 2: successors *)

Definition inst_target (i : X86Inst) : option MBlockId :=
  let target_op := match x_opcode i with
                   | Jmp => x_operands i !! 0%nat
                   | Jcc => x_operands i !! 1%nat
                   | _ => None
                   end in
  match target_op with Some (BlockRef t) => Some t | _ => None end.

Definition block_succs (index : gmap MBlockId nat) (b : X86Block) : list nat :=
  foldl (fun succs i =>
           match inst_target i ≫= (index !!.) with
           | Some s => if bool_decide (s ∈ succs) then succs else succs ++ [s]
           | None => succs
           end) [] (xb_insts b).

Definition successors (f : X86Function) : list (list nat) :=
  block_succs (index_of (xb_id <$> xf_blocks f)) <$> xf_blocks f.

(** * Phase 3: backward dataflow *)

(** One instruction, backwards: the definition leaves the set, the uses enter. *)
Definition transfer_inst (i : X86Inst) (ws : list N) : list N :=
  let ws := match def_vreg i with Some d => clear_bit ws (bit_of d) | None => ws end in
  foldl (fun ws v => set_bit ws (bit_of v)) ws (use_vregs i).

Definition transfer (insts : list X86Inst) (out : list N) : list N := foldr transfer_inst out insts.

Record live_sets := { live_in : list (list N); live_out : list (list N) }.

(** The union of the live-in rows of the successors. *)
Definition union_out (num_vregs : nat) (ins : list (list N)) (succs : list nat) : list N :=
  foldl (fun acc s => or_bits_into acc (row ins s)) (replicate (bit_word_count num_vregs) 0%N) succs.

Definition live_step (f : X86Function) (succs : list (list nat)) (num_vregs : nat)
    (st : live_sets * bool) (bi : nat) : live_sets * bool :=
  let '(s, changed) := st in
  let insts := default [] (xb_insts <$> xf_blocks f !! bi) in
  let out := union_out num_vregs (live_in s) (default [] (succs !! bi)) in
  let inn := transfer insts out in
  ({| live_in := <[bi := inn]> (live_in s); live_out := <[bi := out]> (live_out s) |},
   changed || negb (bool_decide (row (live_in s) bi = inn)) || negb (bool_decide (row (live_out s) bi = out))).

Definition live_sweep (f : X86Function) (succs : list (list nat)) (num_vregs : nat) (s : live_sets) : live_sets * bool :=
  foldl (live_step f succs num_vregs) (s, false) (rev (seq 0 (length (xf_blocks f)))).

Fixpoint live_loop (fuel : nat) (f : X86Function) (succs : list (list nat)) (num_vregs : nat) (s : live_sets) : option live_sets :=
  match fuel with
  | O => None
  | S fuel' =>
      let '(s', changed) := live_sweep f succs num_vregs s in
      if changed then live_loop fuel' f succs num_vregs s' else Some s'
  end.

(** A sweep that changes something sets a bit of one of the two tables. *)
Definition live_fuel (f : X86Function) : nat :=
  S (2 * (length (xf_blocks f) * (64 * bit_word_count (vreg_capacity f)))).

Definition solve_liveness (f : X86Function) : option live_sets :=
  let num_vregs := vreg_capacity f in
  let empty := replicate (length (xf_blocks f)) (replicate (bit_word_count num_vregs) 0%N) in
  live_loop (live_fuel f) f (successors f) num_vregs {| live_in := empty; live_out := empty |}.

(** * Phase 4: intervals *)

Record tables := { starts : list (option N); ends : list (option N); classes : list X86RegClass }.

(** An update of the tables: the register, the lowest and the highest position it
    is known to be live at, and its class if the update carries it. *)
Record touch := { t_vreg : nat; t_lo : N; t_hi : N; t_class : option X86RegClass }.

Definition apply_touch (t : tables) (e : touch) : tables :=
  {| starts := alter (fun s => Some match s with Some x => N.min x (t_lo e) | None => t_lo e end) (t_vreg e) (starts t);
     ends := alter (fun s => Some match s with Some x => N.max x (t_hi e) | None => t_hi e end) (t_vreg e) (ends t);
     classes := match t_class e with Some c => <[t_vreg e := c]> (classes t) | None => classes t end |}.

Definition block_touches (nb : numbered_block) (inn out : list N) : list touch :=
  ((fun v => {| t_vreg := v; t_lo := nb_start nb; t_hi := nb_end nb; t_class := None |}) <$> live_iter inn) ++
  ((fun v => {| t_vreg := v; t_lo := nb_start nb; t_hi := nb_end nb; t_class := None |}) <$> live_iter out) ++
  (nb_insts nb ≫= fun pi =>
     (fun v => {| t_vreg := bit_of v; t_lo := pi.1; t_hi := pi.1; t_class := Some (vr_class v) |}) <$> inst_vregs pi.2).

Definition all_touches (f : X86Function) (s : live_sets) : list touch :=
  mjoin (imap (fun bi nb => block_touches nb (row (live_in s) bi) (row (live_out s) bi)) (numbered f)).

Definition build_tables (f : X86Function) (s : live_sets) : tables :=
  let n := vreg_capacity f in
  foldl apply_touch {| starts := replicate n None; ends := replicate n None; classes := replicate n Gp64 |}
        (all_touches f s).

(** Positions of direct and indirect calls. *)
Definition collect_calls (f : X86Function) : list N :=
  sort_by_key id (numbered f ≫= fun nb => (filter (fun pi => is_call pi.2 = true) (nb_insts nb)).*1).

Definition add_hint (m : gmap VRegId X86Reg) (v : VRegId) (r : X86Reg) : gmap VRegId X86Reg :=
  match m !! v with Some _ => m | None => <[v := r]> m end.

Definition is_plain_move (op : X86Opcode) : bool :=
  match op with MovRR | Movss | Movsd | Movaps => true | _ => false end.

(** A register-to-register move between a virtual and a physical register. *)
Definition hint_inst (m : gmap VRegId X86Reg) (i : X86Inst) : gmap VRegId X86Reg :=
  match fp_store_addr_vreg i with
  | Some _ => m
  | None =>
      if is_plain_move (x_opcode i) then
        match x_def i, x_operands i !! 0%nat with
        | Some (Reg p), Some (VReg v) => add_hint m (vr_id v) p
        | Some (VReg v), Some (Reg p) => add_hint m (vr_id v) p
        | _, _ => m
        end
      else m
  end.

Definition collect_hints (f : X86Function) : gmap VRegId X86Reg :=
  foldl hint_inst ∅ (xf_blocks f ≫= xb_insts).

(** The sort key of an interval: [(start, vreg)], lexicographically. *)
Definition interval_le (a b : LiveInterval) : bool :=
  (li_start a <? li_start b)%N || ((li_start a =? li_start b)%N && (li_vreg a <=? li_vreg b)%N).

Definition make_interval (t : tables) (hints : gmap VRegId X86Reg) (idx : nat) : option LiveInterval :=
  match starts t !! idx, ends t !! idx, classes t !! idx with
  | Some (Some s), Some (Some e), Some c =>
      Some {| li_vreg := N.of_nat idx; li_class := c; li_start := s; li_end := e; li_hint := hints !! N.of_nat idx |}
  | _, _, _ => None
  end.

Definition build_intervals (f : X86Function) (s : live_sets) : list LiveInterval :=
  let t := build_tables f s in
  sort_by interval_le (omap (make_interval t (collect_hints f)) (seq 0 (vreg_capacity f))).

Definition compute_liveness (f : X86Function) : option LivenessResult :=
  s ← solve_liveness f;
  Some {| intervals := build_intervals f s;
          call_positions := collect_calls f;
          num_positions := foldl end_pos 0%N (xb_insts <$> xf_blocks f) |}.

(** * What liveness means

    [exposed v insts]: [v] is read before it is written.  A register is live into a
    block when it is exposed there, or not written there and live into a successor. *)

Definition reads (v : nat) (i : X86Inst) : bool := bool_decide (v ∈ bit_of <$> use_vregs i).
Definition writes (v : nat) (i : X86Inst) : bool := bool_decide (bit_of <$> def_vreg i = Some v).

Fixpoint exposed (v : nat) (insts : list X86Inst) : bool :=
  match insts with
  | [] => false
  | i :: l => reads v i || (negb (writes v i) && exposed v l)
  end.

Definition killed (v : nat) (insts : list X86Inst) : bool := existsb (writes v) insts.

(** Control may pass from the block at position [b] to the one at position [s]. *)
Definition x86_edge (f : X86Function) (b s : nat) : Prop :=
  exists blk blk' i, xf_blocks f !! b = Some blk /\ xf_blocks f !! s = Some blk' /\
    i ∈ xb_insts blk /\ inst_target i = Some (xb_id blk').

Inductive live_into (f : X86Function) (v : nat) : nat -> Prop :=
| live_exposed b blk :
    xf_blocks f !! b = Some blk -> exposed v (xb_insts blk) = true -> live_into f v b
| live_through b blk s :
    xf_blocks f !! b = Some blk -> killed v (xb_insts blk) = false -> x86_edge f b s ->
    live_into f v s -> live_into f v b.

Definition live_out_of (f : X86Function) (v b : nat) : Prop := exists s, x86_edge f b s /\ live_into f v s.

(** * Facts *)

Lemma foldl_max_le {A} (g : A -> nat) (l : list A) m :
  (m <= foldl (fun m v => Nat.max m (g v)) m l)%nat /\
  forall x, x ∈ l -> (g x <= foldl (fun m v => Nat.max m (g v)) m l)%nat.
Proof.
  revert m. induction l as [|y l IH]; intros m; simpl; [split; [done|by intros x ?%elem_of_nil]|].
  destruct (IH (Nat.max m (g y))) as [H1 H2]. split; [lia|]. intros x [->|Hx]%elem_of_cons; [lia|by apply H2].
Qed.

Lemma capacity_bound f b i v :
  b ∈ xf_blocks f -> i ∈ xb_insts b -> v ∈ inst_vregs i -> (bit_of v < vreg_capacity f)%nat.
Proof.
  intros Hb Hi Hv. destruct (foldl_max_le (fun v => bit_of v + 1)%nat (xf_blocks f ≫= block_vregs) 0) as [_ H].
  specialize (H v). unfold vreg_capacity. enough (bit_of v + 1 <= vreg_capacity f)%nat by (unfold vreg_capacity in *; lia).
  apply H. apply list_elem_of_bind. exists b. split; [|done]. apply list_elem_of_bind. by exists i.
Qed.

Lemma use_in_vregs i v : v ∈ use_vregs i -> v ∈ inst_vregs i.
Proof. intros H. apply elem_of_app. by right. Qed.

Lemma def_in_vregs i v : def_vreg i = Some v -> v ∈ inst_vregs i.
Proof. intros H. apply elem_of_app. left. rewrite H. simpl. by left. Qed.

Lemma fold_set_bit wc ws (vs : list X86VReg) :
  row_ok wc ws -> (forall v, v ∈ vs -> (bit_of v / 64 < wc)%nat) ->
  row_ok wc (foldl (fun ws v => set_bit ws (bit_of v)) ws vs) /\
  forall j, bit_is_set (foldl (fun ws v => set_bit ws (bit_of v)) ws vs) j =
            bool_decide (j ∈ bit_of <$> vs) || bit_is_set ws j.
Proof.
  revert ws. induction vs as [|v vs IH]; intros ws Hok Hr; simpl; [done|].
  destruct (IH (set_bit ws (bit_of v))) as [H1 H2].
  { by apply set_bit_row_ok. }
  { intros u Hu. apply Hr. by right. }
  split; [done|]. intros j. rewrite H2, bit_is_set_set by (rewrite (proj1 Hok); apply Hr; left).
  rewrite orb_assoc. f_equal. apply eq_true_iff_eq. rewrite orb_true_iff, !bool_decide_eq_true, elem_of_cons. tauto.
Qed.

Lemma transfer_spec wc insts out :
  row_ok wc out -> (forall i v, i ∈ insts -> v ∈ use_vregs i -> (bit_of v / 64 < wc)%nat) ->
  row_ok wc (transfer insts out) /\
  forall j, bit_is_set (transfer insts out) j = exposed j insts || (negb (killed j insts) && bit_is_set out j).
Proof.
  intros Hout. induction insts as [|i l IH]; intros Hr; simpl; [done|].
  destruct IH as [Hok Hbits]; [intros i' v Hi' Hv; apply (Hr i'); [by right|done]|].
  set (ws := match def_vreg i with Some d => clear_bit (transfer l out) (bit_of d) | None => transfer l out end).
  assert (Hws : row_ok wc ws) by (unfold ws; destruct (def_vreg i); [by apply clear_bit_row_ok|done]).
  destruct (fold_set_bit wc ws (use_vregs i) Hws) as [H1 H2]; [intros v Hv; apply (Hr i); [left|done]|].
  split; [done|]. intros j. unfold transfer_inst. rewrite H2.
  assert (Hw : bit_is_set ws j = negb (writes j i) && bit_is_set (transfer l out) j).
  { unfold ws, writes. destruct (def_vreg i) as [d|]; [|by rewrite bool_decide_false]. cbn [fmap option_fmap option_map].
    rewrite bit_is_set_clear. do 2 f_equal. apply bool_decide_ext. split; congruence. }
  rewrite Hw, Hbits. unfold reads. fold (killed j l). destruct (writes j i), (bool_decide (j ∈ _)); simpl; try done.
Qed.

Lemma elem_of_block_succs index b s :
  s ∈ block_succs index b <-> exists i t, i ∈ xb_insts b /\ inst_target i = Some t /\ index !! t = Some s.
Proof.
  unfold block_succs.
  assert (H : forall l acc, s ∈ foldl (fun succs i => match inst_target i ≫= (index !!.) with
     | Some s => if bool_decide (s ∈ succs) then succs else succs ++ [s] | None => succs end) acc l <->
     s ∈ acc \/ exists i t, i ∈ l /\ inst_target i = Some t /\ index !! t = Some s).
  { induction l as [|i l IH]; intros acc; simpl.
    - split; [by left|]. intros [?|(i & t & Hi & _)]; [done|by apply elem_of_nil in Hi].
    - rewrite IH. destruct (inst_target i ≫= (index !!.)) as [x|] eqn:E.
      + apply bind_Some in E as (t & Ht & Hx).
        assert (Hacc : s ∈ (if bool_decide (x ∈ acc) then acc else acc ++ [x]) <-> s ∈ acc \/ s = x).
        { case_bool_decide; [split; [by left|by intros [?| ->]]|]. rewrite elem_of_app, list_elem_of_singleton. done. }
        rewrite Hacc. split.
        * intros [[?| ->]|(j & u & Hj & Hu)]; [by left| |]; right; [exists i, t; by repeat split; [left|..]|].
          exists j, u. split; [by right|done].
        * intros [?|(j & u & [->|Hj]%elem_of_cons & Hu & Hs)]; [by left; left| |right; eauto].
          left. right. congruence.
      + split.
        * intros [?|(j & u & Hj & Hu)]; [by left|right]. exists j, u. split; [by right|done].
        * intros [?|(j & u & [->|Hj]%elem_of_cons & Hu & Hs)]; [by left| |right; eauto].
          rewrite Hu in E. simpl in E. congruence. }
  rewrite H. split; [|by right]. intros [Hn|?]; [by apply elem_of_nil in Hn|done].
Qed.

(** Block identifiers of a machine function are unique. *)
Definition unique_blocks (f : X86Function) : Prop := NoDup (xb_id <$> xf_blocks f).

Lemma successors_spec f b s :
  unique_blocks f -> s ∈ default [] (successors f !! b) <-> x86_edge f b s.
Proof.
  intros Hu. unfold successors. rewrite list_lookup_fmap. unfold x86_edge.
  destruct (xf_blocks f !! b) as [blk|] eqn:Eb; simpl.
  - rewrite elem_of_block_succs. split.
    + intros (i & t & Hi & Ht & Hs). apply (index_of_spec _ _ _ Hu) in Hs. rewrite list_lookup_fmap in Hs.
      apply fmap_Some in Hs as (blk' & Hs & ->). eauto 10.
    + intros (blk0 & blk' & i & ? & Hs & Hi & Ht). simplify_eq. exists i, (xb_id blk'). split; [done|]. split; [done|].
      apply (index_of_spec _ _ _ Hu). by rewrite list_lookup_fmap, Hs.
  - split; [by intros ?%elem_of_nil|]. by intros (? & ? & ? & ? & _).
Qed.

(** * The dataflow solver *)

Section solver.
Context (f : X86Function) (Huniq : unique_blocks f).
Local Abbreviation n := (length (xf_blocks f)).
Local Abbreviation cap := (vreg_capacity f).
Local Abbreviation wc := (bit_word_count (vreg_capacity f)).
Local Abbreviation S_ := (successors f).

Definition in_bit (s : live_sets) (b v : nat) : Prop := bit_is_set (row (live_in s) b) v = true.
Definition out_bit (s : live_sets) (b v : nat) : Prop := bit_is_set (row (live_out s) b) v = true.

Lemma uses_in_words b i v : b ∈ xf_blocks f -> i ∈ xb_insts b -> v ∈ use_vregs i -> (bit_of v / 64 < wc)%nat.
Proof. intros Hb Hi Hv. apply bit_in_words. eapply capacity_bound; [done..|]. by apply use_in_vregs. Qed.

(** What the loop keeps: the rows have the right shape, every set bit is justified
by a path, and no row exceeds what recomputing it would give. *)
Record live_inv (s : live_sets) : Prop := {
li_len_in : length (live_in s) = n;
li_len_out : length (live_out s) = n;
li_rows_in : forall b, (b < n)%nat -> row_ok wc (row (live_in s) b);
li_rows_out : forall b, (b < n)%nat -> row_ok wc (row (live_out s) b);
li_sound : forall b v, (b < n)%nat -> in_bit s b v -> live_into f v b;
li_grow_in : forall b blk v, xf_blocks f !! b = Some blk -> in_bit s b v ->
exposed v (xb_insts blk) = true \/ (killed v (xb_insts blk) = false /\ exists s', x86_edge f b s' /\ in_bit s s' v);
li_grow_out : forall b v, (b < n)%nat -> out_bit s b v -> exists s', x86_edge f b s' /\ in_bit s s' v }.

Lemma edge_lt b s : x86_edge f b s -> (b < n)%nat /\ (s < n)%nat.
Proof. intros (blk & blk' & i & Hb & Hs & _). by apply lookup_lt_Some in Hb, Hs. Qed.

Lemma union_out_spec s b :
live_inv s ->
row_ok wc (union_out cap (live_in s) (default [] (S_ !! b))) /\
forall v, bit_is_set (union_out cap (live_in s) (default [] (S_ !! b))) v = true <->
exists s', x86_edge f b s' /\ in_bit s s' v.
Proof.
intros Hs. unfold union_out.
assert (H : forall l acc, (forall x, x ∈ l -> (x < n)%nat) -> row_ok wc acc ->
row_ok wc (foldl (fun acc x => or_bits_into acc (row (live_in s) x)) acc l) /\
forall v, bit_is_set (foldl (fun acc x => or_bits_into acc (row (live_in s) x)) acc l) v = true <->
bit_is_set acc v = true \/ exists x, x ∈ l /\ in_bit s x v).
{ induction l as [|x l IH]; intros acc Hl Hacc; simpl.
- split; [done|]. intros v. split; [by left|]. intros [?|(x & Hx & _)]; [done|by apply elem_of_nil in Hx].
- assert (Hx : row_ok wc (row (live_in s) x)) by (apply (li_rows_in s Hs), Hl; left).
destruct (IH (or_bits_into acc (row (live_in s) x))) as [H1 H2]; [intros; apply Hl; by right|by apply or_bits_row_ok|].
split; [done|]. intros v. rewrite H2, bit_is_set_or, orb_true_iff by (destruct Hacc, Hx; congruence).
split.
+ intros [[?|?]|(y & ? & ?)]; [by left| |]; right; [exists x; split; [left|done]|exists y; split; [by right|done]].
+ intros [?|(y & [->|?]%elem_of_cons & ?)]; [by left; left|by left; right|right; eauto]. }
destruct (H (default [] (S_ !! b)) (replicate wc 0%N)) as [H1 H2].
- intros x Hx. apply successors_spec in Hx; [|done]. by apply edge_lt in Hx as [_ ?].
- apply zero_row_ok.
- split; [done|]. intros v. rewrite H2, bit_is_set_zero. split.
+ intros [?|(x & Hx & ?)]; [done|]. exists x. split; [by apply successors_spec|done].
+ intros (x & Hx & ?). right. exists x. split; [by apply successors_spec|done].
Qed.

Lemma row_insert_in D i nd j : length D = n -> (i < n)%nat -> row (<[i := nd]> D) j = if decide (j = i) then nd else row D j.
Proof. intros Hl Hi. apply row_insert. by rewrite Hl. Qed.

(** Recomputing a block keeps the invariant and sets bits only. *)
Lemma live_step_spec s ch b blk :
live_inv s -> xf_blocks f !! b = Some blk ->
let '(s', ch') := live_step f S_ cap (s, ch) b in
live_inv s' /\
(forall c v, in_bit s c v -> in_bit s' c v) /\ (forall c v, (c < n)%nat -> out_bit s c v -> out_bit s' c v) /\
(ch' = false -> ch = false /\ s' = s /\
row (live_out s) b = union_out cap (live_in s) (default [] (S_ !! b)) /\
row (live_in s) b = transfer (xb_insts blk) (row (live_out s) b)).
Proof.
intros Hs Hb. unfold live_step. rewrite Hb. cbn [fmap option_fmap option_map default from_option id].
assert (Hbn : (b < n)%nat) by (by eapply lookup_lt_Some).
set (out := union_out cap (live_in s) (default [] (S_ !! b))). set (inn := transfer (xb_insts blk) out).
destruct (union_out_spec s b Hs) as [Hout_ok Hout]. fold out in Hout_ok, Hout.
destruct (transfer_spec wc (xb_insts blk) out Hout_ok) as [Hin_ok Hin].
{ intros i v Hi Hv. eapply uses_in_words; [by eapply list_elem_of_lookup_2|done..]. }
fold inn in Hin_ok, Hin.
assert (Hsub : forall v, in_bit s b v -> bit_is_set inn v = true).
{ intros v Hv. rewrite Hin. destruct (li_grow_in s Hs b blk v Hb Hv) as [-> |(-> & Hex)]; [done|].
rewrite (proj2 (Hout v) Hex). by rewrite orb_true_r. }
assert (Hmono : forall c v, in_bit s c v -> bit_is_set (row (<[b:=inn]> (live_in s)) c) v = true).
{ intros c v Hv. rewrite row_insert_in by (done || apply Hs). case_decide; [subst; by apply Hsub|done]. }
split; [split; simpl|].
- rewrite length_insert. apply Hs.
- rewrite length_insert. apply Hs.
- intros c Hc. rewrite row_insert_in by (done || apply Hs). case_decide; [done|by apply Hs].
- intros c Hc. rewrite row_insert_in by (done || apply Hs). case_decide; [done|by apply Hs].
- intros c v Hc. unfold in_bit. simpl. rewrite row_insert_in by (done || apply Hs).
case_decide; [subst|by apply Hs]. rewrite Hin, orb_true_iff, andb_true_iff, negb_true_iff.
intros [He|(Hk & Ho)]; [by eapply live_exposed|]. apply Hout in Ho as (x & Hx & Hv).
eapply live_through; [done..|]. apply (li_sound s Hs); [by apply edge_lt in Hx as [_ ?]|done].
- intros c blk' v Hc. unfold in_bit. simpl. rewrite row_insert_in by (done || apply Hs). case_decide.
+ subst. simplify_eq. rewrite Hin, orb_true_iff, andb_true_iff, negb_true_iff.
intros [He|(Hk & Ho)]; [by left|right]. split; [done|]. apply Hout in Ho as (x & Hx & Hv). eauto.
+ intros Hv. destruct (li_grow_in s Hs c blk' v Hc Hv) as [?|(? & x & ? & ?)]; [by left|right; eauto 10].
- intros c v Hc. unfold out_bit, in_bit. simpl. rewrite row_insert_in by (done || apply Hs). case_decide.
+ subst. intros Ho. apply Hout in Ho as (x & Hx & Hv). eauto.
+ intros Ho. destruct (li_grow_out s Hs c v Hc Ho) as (x & ? & ?). eauto.
- split; [done|]. split.
+ intros c v Hc Ho. unfold out_bit. simpl. rewrite row_insert_in by (done || apply Hs).
case_decide; [subst|done]. apply Hout. by apply (li_grow_out s Hs).
+ rewrite !orb_false_iff, !negb_false_iff, !bool_decide_eq_true. intros [[-> Hi] Ho].
split; [done|]. rewrite <- Hi, <- Ho. split; [|by rewrite Hi, Ho].
unfold row. destruct s as [ins outs]. simpl in *.
destruct (lookup_lt_is_Some_2 ins b) as [x Hx]; [pose proof (li_len_in _ Hs) as E; simpl in E; by rewrite E|].
destruct (lookup_lt_is_Some_2 outs b) as [y Hy]; [pose proof (li_len_out _ Hs) as E; simpl in E; by rewrite E|].
rewrite Hx, Hy. simpl. by rewrite !list_insert_id.
Qed.

(** ** Termination: sweeps that change something set a bit *)

Definition weight (s : live_sets) : nat := (total_bits wc (live_in s) + total_bits wc (live_out s))%nat.

Lemma total_bits_mono D D' :
length D = length D' -> (forall b, (b < length D)%nat -> row_ok wc (row D b) /\ row_ok wc (row D' b)) ->
(forall b v, (b < length D)%nat -> bit_is_set (row D b) v = true -> bit_is_set (row D' b) v = true) ->
D = D' \/ (total_bits wc D < total_bits wc D')%nat.
Proof.
revert D'. induction D as [|r D IH]; intros [|r' D'] Hl Hok Hsub; try done; [by left|].
destruct (Hok 0%nat) as [Hr Hr']; [simpl; lia|]. unfold row in Hr, Hr'. simpl in Hr, Hr'.
destruct (IH D') as [->|Hlt].
{ by injection Hl. }
{ intros b Hb. apply (Hok (S b)). simpl. lia. }
{ intros b v Hb. apply (Hsub (S b)). simpl. lia. }
- destruct (decide (r = r')) as [->|Hne]; [by left|right].
apply Nat.add_lt_mono_r. apply count_bits_lt; [done..|]. intros v. apply (Hsub 0%nat). simpl. lia.
- right. destruct (decide (r = r')) as [->|Hne]; [by apply Nat.add_lt_mono_l|].
apply Nat.add_lt_mono; [|done]. apply count_bits_lt; [done..|]. intros v. apply (Hsub 0%nat). simpl. lia.
Qed.

Lemma weight_mono s s' :
live_inv s -> live_inv s' -> (forall c v, in_bit s c v -> in_bit s' c v) ->
(forall c v, (c < n)%nat -> out_bit s c v -> out_bit s' c v) -> s = s' \/ (weight s < weight s')%nat.
Proof.
intros Hs Hs' Hi Ho. unfold weight.
destruct (total_bits_mono (live_in s) (live_in s')) as [Ei|Li].
{ by rewrite (li_len_in s Hs), (li_len_in s' Hs'). }
{ intros b Hb. rewrite (li_len_in s Hs) in Hb. split; by apply li_rows_in. }
{ intros b v _. apply Hi. }
all: destruct (total_bits_mono (live_out s) (live_out s')) as [Eo|Lo];
[by rewrite (li_len_out s Hs), (li_len_out s' Hs')
|intros b Hb; rewrite (li_len_out s Hs) in Hb; split; by apply li_rows_out
|intros b v Hb; apply Ho; by rewrite <- (li_len_out s Hs)| |].
- left. destruct s, s'. simpl in *. by subst.
- right. rewrite Ei. lia.
- right. rewrite Eo. lia.
- right. lia.
Qed.

(** A change is reported only when a row differs. *)
Lemma live_step_changes s ch b blk s' :
live_inv s -> xf_blocks f !! b = Some blk -> live_step f S_ cap (s, ch) b = (s', true) -> ch = true \/ s <> s'.
Proof.
intros Hs Hb. assert (Hbn : (b < n)%nat) by (by eapply lookup_lt_Some). unfold live_step. intros [= <- Hch].
apply orb_true_iff in Hch as [Hch|Hch]; [apply orb_true_iff in Hch as [->|Hch]; [by left|]|]; right; intros E;
apply negb_true_iff, bool_decide_eq_false in Hch; apply Hch; rewrite E at 1; simpl;
rewrite row_insert_in by (done || apply Hs); by rewrite decide_True.
Qed.

(** A block whose rows are the recomputed ones. *)
Definition settled (s : live_sets) (b : nat) : Prop :=
forall blk, xf_blocks f !! b = Some blk ->
row (live_out s) b = union_out cap (live_in s) (default [] (S_ !! b)) /\
row (live_in s) b = transfer (xb_insts blk) (row (live_out s) b).

Lemma sweep_blocks_spec l s ch :
live_inv s -> (forall b, b ∈ l -> (b < n)%nat) ->
let '(s', ch') := foldl (live_step f S_ cap) (s, ch) l in
live_inv s' /\ (forall c v, in_bit s c v -> in_bit s' c v) /\
(forall c v, (c < n)%nat -> out_bit s c v -> out_bit s' c v) /\
(ch' = false -> ch = false /\ s' = s /\ forall b, b ∈ l -> settled s b) /\
(ch' = true -> ch = true \/ (weight s < weight s')%nat) /\ (weight s <= weight s')%nat.
Proof.
revert s ch. induction l as [|b l IH]; intros s ch Hs Hl; cbn [foldl].
{ split; [done|]. split; [done|]. split; [done|]. split; [|split; [by left|done]]. intros ->. split; [done|]. split; [done|]. intros b Hb. by apply elem_of_nil in Hb. }
destruct (lookup_lt_is_Some_2 (xf_blocks f) b) as [blk Hb]; [apply Hl; left|].
pose proof (live_step_spec s ch b blk Hs Hb) as Hstep. pose proof (live_step_changes s ch b blk) as Hch.
destruct (live_step f S_ cap (s, ch) b) as [s1 ch1]. destruct Hstep as (Hs1 & Hi1 & Ho1 & Hc1).
assert (Hw1 : (ch1 = true -> ch = true \/ (weight s < weight s1)%nat) /\ (weight s <= weight s1)%nat).
{ destruct (weight_mono s s1 Hs Hs1 Hi1 Ho1) as [<-|Hlt]; split; try lia; intros ->.
destruct (Hch s) as [->|]; [done..|by left|done]. }
specialize (IH s1 ch1 Hs1 ltac:(intros; apply Hl; by right)).
destruct (foldl _ (s1, ch1) l) as [s2 ch2]. destruct IH as (Hs2 & Hi2 & Ho2 & Hc2 & Hw2).
split; [done|]. split; [eauto|]. split; [eauto|]. split; [|by intuition lia]. intros Hf.
destruct (Hc2 Hf) as (Hf1 & -> & Hset). destruct (Hc1 Hf1) as (-> & -> & Hx).
split; [done|]. split; [done|]. intros c [->|Hc]%elem_of_cons; [|by apply Hset].
intros blk' Hb'. by simplify_eq.
Qed.

Lemma live_loop_spec fuel s :
live_inv s -> (2 * (n * (64 * wc)) - weight s < fuel)%nat ->
exists s', live_loop fuel f S_ cap s = Some s' /\ live_inv s' /\ forall b, (b < n)%nat -> settled s' b.
Proof.
revert s. induction fuel as [|fuel IH]; intros s Hs Hf; [lia|]. cbn [live_loop]. unfold live_sweep.
assert (Hl : forall b, b ∈ rev (seq 0 n) -> (b < n)%nat).
{ intros b Hb. apply list_elem_of_In, in_rev, in_seq in Hb. lia. }
pose proof (sweep_blocks_spec (rev (seq 0 n)) s false Hs Hl) as Hsw.
destruct (foldl _ (s, false) _) as [s1 ch]. destruct Hsw as (Hs1 & _ & _ & Hc & Hw & _).
destruct ch.
- destruct (Hw eq_refl) as [?|Hlt]; [done|]. apply IH; [done|].
pose proof (total_bits_le wc (live_in s1)) as H1. pose proof (total_bits_le wc (live_out s1)) as H2.
rewrite (li_len_in s1 Hs1) in H1. rewrite (li_len_out s1 Hs1) in H2. unfold weight in *. lia.
- destruct (Hc eq_refl) as (_ & -> & Hset). exists s. split; [done|]. split; [done|].
intros b Hb. apply Hset. apply list_elem_of_In, in_rev. rewrite rev_involutive. apply in_seq. lia.
Qed.

Lemma zero_sets_inv :
live_inv {| live_in := replicate n (replicate wc 0%N); live_out := replicate n (replicate wc 0%N) |}.
Proof.
assert (Hrow : forall b, (b < n)%nat -> row (replicate n (replicate wc 0%N)) b = replicate wc 0%N).
{ intros b Hb. unfold row. by rewrite lookup_replicate_2. }
assert (Hbit : forall b v, bit_is_set (row (replicate n (replicate wc 0%N)) b) v = false).
{ intros b v. destruct (decide (b < n)%nat) as [Hb|Hb]; [rewrite Hrow by done; apply bit_is_set_zero|].
unfold row. rewrite lookup_ge_None_2 by (rewrite length_replicate; lia). simpl. unfold bit_is_set. by rewrite lookup_nil. }
split; simpl; try apply length_replicate; unfold in_bit, out_bit; simpl.
1,2: intros b Hb; rewrite Hrow by done; apply zero_row_ok.
all: intros *; rewrite Hbit; done.
Qed.

Lemma solve_liveness_spec :
exists s, solve_liveness f = Some s /\ live_inv s /\ forall b, (b < n)%nat -> settled s b.
Proof.
unfold solve_liveness. apply live_loop_spec; [apply zero_sets_inv|]. unfold live_fuel. lia.
Qed.

(** A settled table has every live register. *)
Lemma settled_complete s v b :
live_inv s -> (forall b, (b < n)%nat -> settled s b) -> live_into f v b -> in_bit s b v.
Proof.
intros Hs Hset. induction 1 as [b blk Hb He|b blk x Hb Hk Hx _ IH];
(assert (Hbn : (b < n)%nat) by (by eapply lookup_lt_Some));
destruct (Hset b Hbn blk Hb) as [Ho Hi]; unfold in_bit; rewrite Hi;
(destruct (transfer_spec wc (xb_insts blk) (row (live_out s) b)) as [_ ->];
[by apply (li_rows_out s Hs)|intros i u Hi' Hu; eapply uses_in_words; [by eapply list_elem_of_lookup_2|done..]|]).
- by rewrite He.
- rewrite Hk, orb_true_iff. right. simpl. rewrite Ho. destruct (union_out_spec s b Hs) as [_ Hu]. apply Hu. eauto.
Qed.

Lemma solve_liveness_exact s b v :
solve_liveness f = Some s -> (b < n)%nat ->
(in_bit s b v <-> live_into f v b) /\ (out_bit s b v <-> live_out_of f v b).
Proof.
intros E Hb. destruct solve_liveness_spec as (s' & E' & Hs & Hset). rewrite E in E'. injection E' as <-.
assert (Hin : forall c, (c < n)%nat -> in_bit s c v <-> live_into f v c).
{ intros c Hc. split; [by apply (li_sound s Hs)|by apply settled_complete]. }
split; [by apply Hin|]. split.
- intros Ho. destruct (li_grow_out s Hs b v Hb Ho) as (x & Hx & Hv). exists x. split; [done|].
apply Hin; [by apply edge_lt in Hx as [_ ?]|done].
- intros (x & Hx & Hv). destruct (lookup_lt_is_Some_2 (xf_blocks f) b Hb) as [blk Hblk].
destruct (Hset b Hb blk Hblk) as [Ho _]. unfold out_bit. rewrite Ho.
destruct (union_out_spec s b Hs) as [_ Hu]. apply Hu. exists x. split; [done|]. apply Hin; [by apply edge_lt in Hx as [_ ?]|done].
Qed.

End solver.

(** * Intervals *)

(** The range recorded for a register. *)
Definition range_of (t : tables) (v : nat) : option (N * N) :=
  match starts t !! v, ends t !! v with
  | Some (Some s), Some (Some e) => Some (s, e)
  | _, _ => None
  end.

Definition tables_len (t : tables) (n : nat) : Prop :=
  length (starts t) = n /\ length (ends t) = n /\ length (classes t) = n.

(** Both ends of a range are recorded together. *)
Definition paired (t : tables) : Prop :=
  forall v, (exists s, starts t !! v = Some (Some s)) <-> (exists e, ends t !! v = Some (Some e)).

Lemma apply_touch_len t e n : tables_len t n -> tables_len (apply_touch t e) n.
Proof.
  intros (H1 & H2 & H3). repeat split; simpl; rewrite ?length_alter; try done.
  destruct (t_class e); rewrite ?length_insert; done.
Qed.

Lemma apply_touch_range t e n v :
  tables_len t n -> paired t -> (t_vreg e < n)%nat ->
  paired (apply_touch t e) /\
  range_of (apply_touch t e) v =
    if decide (v = t_vreg e) then
      Some match range_of t v with
           | Some (s, h) => (N.min s (t_lo e), N.max h (t_hi e))
           | None => (t_lo e, t_hi e)
           end
    else range_of t v.
Proof.
  intros (H1 & H2 & _) Hp He.
  destruct (lookup_lt_is_Some_2 (starts t) (t_vreg e)) as [os Hs]; [lia|].
  destruct (lookup_lt_is_Some_2 (ends t) (t_vreg e)) as [oe Hh]; [lia|]. split.
  - intros u. simpl. destruct (decide (u = t_vreg e)) as [->|Hne].
    + rewrite !list_lookup_alter_eq, Hs, Hh. simpl. split; intros _; eauto.
    + rewrite !list_lookup_alter_ne by done. apply Hp.
  - unfold range_of. simpl. case_decide as Hv; [subst|by rewrite !list_lookup_alter_ne by done].
    rewrite !list_lookup_alter_eq, Hs, Hh. simpl. specialize (Hp (t_vreg e)). rewrite Hs, Hh in Hp.
    destruct os as [x|], oe as [y|]; try done.
    + destruct Hp as [Hp _]. by destruct Hp as [? ?]; [eauto|].
    + destruct Hp as [_ Hp]. by destruct Hp as [? ?]; [eauto|].
Qed.

Lemma fold_touch_spec l t n :
  tables_len t n -> paired t -> (forall e, e ∈ l -> (t_vreg e < n)%nat) ->
  tables_len (foldl apply_touch t l) n /\ paired (foldl apply_touch t l) /\
  (forall v s h, range_of t v = Some (s, h) ->
     exists s' h', range_of (foldl apply_touch t l) v = Some (s', h') /\ (s' <= s)%N /\ (h <= h')%N) /\
  (forall e, e ∈ l -> exists s h, range_of (foldl apply_touch t l) (t_vreg e) = Some (s, h) /\ (s <= t_lo e)%N /\ (t_hi e <= h)%N) /\
  (forall top, (forall e, e ∈ l -> (t_lo e <= t_hi e <= top)%N) ->
     (forall v s h, range_of t v = Some (s, h) -> (s <= h <= top)%N) ->
     forall v s h, range_of (foldl apply_touch t l) v = Some (s, h) -> (s <= h <= top)%N).
Proof.
  revert t. induction l as [|e l IH]; intros t Hlen Hp Hl; cbn [foldl].
  { split; [done|]. split; [done|]. split; [intros v s h ->; exists s, h; by repeat split|].
    split; [intros e He; by apply elem_of_nil in He|]. done. }
  assert (He : (t_vreg e < n)%nat) by (apply Hl; left).
  destruct (IH (apply_touch t e)) as (I1 & I2 & I3 & I4 & I5).
  { by apply apply_touch_len. }
  { by apply (apply_touch_range t e n 0). }
  { intros x Hx. apply Hl. by right. }
  pose proof (fun v => proj2 (apply_touch_range t e n v Hlen Hp He)) as Hr.
  split; [done|]. split; [done|]. split; [|split].
  - intros v s h Hv. specialize (Hr v). rewrite Hv in Hr. case_decide.
    + destruct (I3 _ _ _ Hr) as (s' & h' & -> & ? & ?). exists s', h'. repeat split; lia.
    + by apply I3.
  - intros x [->|Hx]%elem_of_cons; [|by apply I4]. specialize (Hr (t_vreg e)). rewrite decide_True in Hr by done.
    destruct (range_of t (t_vreg e)) as [[s h]|]; destruct (I3 _ _ _ Hr) as (s' & h' & -> & ? & ?);
      exists s', h'; repeat split; lia.
  - intros top Htop Ht. apply I5; [intros x Hx; apply Htop; by right|]. intros v s h Hv. rewrite Hr in Hv.
    pose proof (Htop e ltac:(left)). case_decide; [|by apply (Ht v)].
    destruct (range_of t v) as [[s0 h0]|] eqn:E; simplify_eq; [|done]. pose proof (Ht _ s0 h0 E). lia.
Qed.

(** The class recorded for a register, when all its updates agree. *)
Lemma fold_touch_class l t n v c :
  tables_len t n -> (v < n)%nat -> (forall e d, e ∈ l -> t_vreg e = v -> t_class e = Some d -> d = c) ->
  classes t !! v = Some c \/ (exists e, e ∈ l /\ t_vreg e = v /\ t_class e = Some c) ->
  classes (foldl apply_touch t l) !! v = Some c.
Proof.
  revert t. induction l as [|e l IH]; intros t Hlen Hv Hc H; cbn [foldl].
  { destruct H as [?|(e & He & _)]; [done|by apply elem_of_nil in He]. }
  apply IH; [by apply apply_touch_len|done|intros x d Hx; apply Hc; by right|].
  assert (Hset : t_vreg e = v -> t_class e = Some c -> classes (apply_touch t e) !! v = Some c).
  { intros <- E. simpl. rewrite E. apply list_lookup_insert_eq. destruct Hlen as (_ & _ & ->). done. }
  assert (Hkeep : classes t !! v = Some c -> classes (apply_touch t e) !! v = Some c).
  { intros E. destruct (decide (t_vreg e = v)) as [Ev|Ev]; simpl; destruct (t_class e) as [d|] eqn:Ed; try done.
    - rewrite (Hc e d ltac:(left) Ev Ed), Ev. apply list_lookup_insert_eq. by eapply lookup_lt_Some.
    - by rewrite list_lookup_insert_ne. }
  destruct H as [?|(x & [->|Hx]%elem_of_cons & Ev & Ec)]; [left; by apply Hkeep|left; by apply Hset|right; eauto].
Qed.

(** Occurrences of a register agree on its class. *)
Definition classes_agree (f : X86Function) : Prop :=
  forall b b' i i' u u', b ∈ xf_blocks f -> b' ∈ xf_blocks f -> i ∈ xb_insts b -> i' ∈ xb_insts b' ->
    u ∈ inst_vregs i -> u' ∈ inst_vregs i' -> vr_id u = vr_id u' -> vr_class u = vr_class u'.

(** ** Positions of instructions *)

Definition pos_of (f : X86Function) (b k : nat) : N := (2 * N.of_nat (before (xf_blocks f) b + k))%N.

(** [v] is live just before instruction [k] of block [b]. *)
Definition live_at (f : X86Function) (v b k : nat) : Prop :=
  exists blk, xf_blocks f !! b = Some blk /\ (k <= length (xb_insts blk))%nat /\
    (exposed v (drop k (xb_insts blk)) = true \/
     (killed v (drop k (xb_insts blk)) = false /\ live_out_of f v b)).

Lemma exposed_app v l1 l2 : exposed v (l1 ++ l2) = exposed v l1 || (negb (killed v l1) && exposed v l2).
Proof.
  induction l1 as [|i l1 IH]; simpl; [done|]. rewrite IH. unfold killed.
  destruct (reads v i), (writes v i), (exposed v l1), (existsb (writes v) l1); done.
Qed.

Lemma exposed_read v l : exposed v l = true -> exists k i, l !! k = Some i /\ reads v i = true.
Proof.
  induction l as [|i l IH]; simpl; [done|]. intros [H|[_ H]%andb_prop]%orb_true_iff; [by exists 0%nat, i|].
  destruct (IH H) as (k & j & ? & ?). by exists (S k), j.
Qed.

Lemma killed_write v l : killed v l = true -> exists k i, l !! k = Some i /\ writes v i = true.
Proof.
  unfold killed. induction l as [|i l IH]; simpl; [done|]. intros [H|H]%orb_true_iff; [by exists 0%nat, i|].
  destruct (IH H) as (k & j & ? & ?). by exists (S k), j.
Qed.

Lemma reads_vreg v i : reads v i = true -> exists u, u ∈ inst_vregs i /\ bit_of u = v.
Proof.
  intros H%bool_decide_eq_true. apply list_elem_of_fmap in H as (u & -> & Hu). exists u. split; [by apply use_in_vregs|done].
Qed.

Lemma writes_vreg v i : writes v i = true -> exists u, u ∈ inst_vregs i /\ bit_of u = v.
Proof.
  intros H%bool_decide_eq_true. apply fmap_Some in H as (u & Hu & ->). exists u. split; [by apply def_in_vregs|done].
Qed.

Section intervals.
Context (f : X86Function) (Huniq : unique_blocks f) (Hsmall : small f).
Context (s : live_sets) (Hs : solve_liveness f = Some s).
Local Abbreviation n := (length (xf_blocks f)).
Local Abbreviation T := (build_tables f s).

Lemma numbered_lookup b blk :
xf_blocks f !! b = Some blk ->
numbered f !! b = Some {| nb_start := pos_of f b 0; nb_end := pos_of f b (length (xb_insts blk));
            nb_insts := number_insts (pos_of f b 0) (xb_insts blk) |}.
Proof.
intros Hb. unfold numbered. rewrite (number_blocks_lookup 0 _ b blk); [|exact Hsmall|done].
unfold pos_of. do 2 f_equal; [lia|lia|f_equal; lia].
Qed.

Lemma number_insts_pos b blk k i :
xf_blocks f !! b = Some blk -> xb_insts blk !! k = Some i ->
(pos_of f b k, i) ∈ number_insts (pos_of f b 0) (xb_insts blk).
Proof.
intros Hb Hk. apply list_elem_of_lookup. exists k. rewrite (number_insts_lookup _ _ k i); [|unfold pos_of|done].
- unfold pos_of. do 2 f_equal. lia.
- pose proof (small_before f b blk Hsmall Hb). lia.
Qed.

Lemma elem_of_touches e :
e ∈ all_touches f s <-> exists b blk, xf_blocks f !! b = Some blk /\
((t_lo e = pos_of f b 0 /\ t_hi e = pos_of f b (length (xb_insts blk)) /\ t_class e = None /\
(in_bit s b (t_vreg e) \/ out_bit s b (t_vreg e))) \/
exists k i v, xb_insts blk !! k = Some i /\ v ∈ inst_vregs i /\
e = {| t_vreg := bit_of v; t_lo := pos_of f b k; t_hi := pos_of f b k; t_class := Some (vr_class v) |}).
Proof.
destruct (solve_liveness_spec f Huniq) as (s' & E' & Hinv & _). rewrite Hs in E'. injection E' as <-.
unfold all_touches. rewrite list_elem_of_join. split.
- intros (l & He & Hl). apply elem_of_lookup_imap in Hl as (b & nb & -> & Hnb).
assert (Hb : (b < n)%nat) by (apply lookup_lt_Some in Hnb; unfold numbered in Hnb; by rewrite length_number_blocks in Hnb).
destruct (lookup_lt_is_Some_2 _ _ Hb) as [blk Hblk]. rewrite (numbered_lookup b blk Hblk) in Hnb. injection Hnb as <-.
exists b, blk. split; [done|]. unfold block_touches in He. cbn [nb_start nb_end nb_insts] in He.
rewrite !elem_of_app in He. destruct He as [He|[He|He]].
+ left. apply list_elem_of_fmap in He as (v & -> & Hv). repeat split. left.
apply (elem_of_live_iter _ _ v (li_rows_in f s Hinv b Hb)) in Hv. done.
+ left. apply list_elem_of_fmap in He as (v & -> & Hv). repeat split. right.
apply (elem_of_live_iter _ _ v (li_rows_out f s Hinv b Hb)) in Hv. done.
+ right. apply list_elem_of_bind in He as ([p i] & He & Hp). apply list_elem_of_fmap in He as (v & -> & Hv).
apply number_insts_inv in Hp as (k & Hk & ->); [|unfold pos_of; pose proof (small_before f b blk Hsmall Hblk); lia].
exists k, i, v. split; [done|]. split; [done|]. simpl. unfold pos_of. f_equal; lia.
- intros (b & blk & Hblk & H). assert (Hb : (b < n)%nat) by (by eapply lookup_lt_Some).
eexists. split; [|apply elem_of_lookup_imap; exists b; eexists; split; [reflexivity|by apply numbered_lookup]].
unfold block_touches. cbn [nb_start nb_end nb_insts]. rewrite !elem_of_app.
destruct H as [(Hlo & Hhi & Hc & [Hi|Ho])|(k & i & v & Hk & Hv & ->)].
+ left. apply list_elem_of_fmap. exists (t_vreg e). split; [destruct e; simpl in *; by subst|].
by apply (elem_of_live_iter _ _ _ (li_rows_in f s Hinv b Hb)).
+ right. left. apply list_elem_of_fmap. exists (t_vreg e). split; [destruct e; simpl in *; by subst|].
by apply (elem_of_live_iter _ _ _ (li_rows_out f s Hinv b Hb)).
+ right. right. apply list_elem_of_bind. exists (pos_of f b k, i). split; [|by apply number_insts_pos].
apply list_elem_of_fmap. by exists v.
Qed.

(** A register that is live somewhere occurs in the function. *)
Lemma live_into_occurs v b : live_into f v b -> exists blk i u, blk ∈ xf_blocks f /\ i ∈ xb_insts blk /\ u ∈ inst_vregs i /\ bit_of u = v.
Proof.
induction 1 as [b blk Hb He|]; [|done]. destruct (exposed_read _ _ He) as (k & i & Hk & Hr).
destruct (reads_vreg _ _ Hr) as (u & Hu & Hv). exists blk, i, u. split; [by eapply list_elem_of_lookup_2|].
split; [by eapply list_elem_of_lookup_2|done].
Qed.

Lemma touch_in_range e : e ∈ all_touches f s -> (t_vreg e < vreg_capacity f)%nat.
Proof.
intros He. apply elem_of_touches in He as (b & blk & Hb & [(_ & _ & _ & Hbit)|(k & i & v & Hk & Hv & ->)]).
- assert (Hbn : (b < n)%nat) by (by eapply lookup_lt_Some).
destruct (solve_liveness_exact f Huniq s b (t_vreg e) Hs Hbn) as [Hi Ho].
assert (Hl : exists c, live_into f (t_vreg e) c).
{ destruct Hbit as [H|H]; [exists b; by apply Hi|]. apply Ho in H as (x & _ & Hx). eauto. }
destruct Hl as [c Hc]. apply live_into_occurs in Hc as (blk' & i & u & ? & ? & ? & <-). by eapply capacity_bound.
- simpl. eapply capacity_bound; [by eapply list_elem_of_lookup_2..|done].
Qed.

Definition last_pos : N := pos_of f n 0.

Lemma pos_of_mono b blk k : xf_blocks f !! b = Some blk -> (k <= length (xb_insts blk))%nat ->
(pos_of f b 0 <= pos_of f b k <= pos_of f b (length (xb_insts blk)))%N /\ (pos_of f b (length (xb_insts blk)) <= last_pos)%N.
Proof.
intros Hb Hk. split; [unfold pos_of; lia|]. unfold last_pos, pos_of.
pose proof (before_S _ _ _ Hb). pose proof (before_le (xf_blocks f) (S b) n).
apply lookup_lt_Some in Hb. lia.
Qed.

Lemma tables_spec :
tables_len T (vreg_capacity f) /\
(forall e, e ∈ all_touches f s -> exists lo hi, range_of T (t_vreg e) = Some (lo, hi) /\ (lo <= t_lo e)%N /\ (t_hi e <= hi)%N) /\
(forall v lo hi, range_of T v = Some (lo, hi) -> (lo <= hi <= last_pos)%N).
Proof.
set (t0 := {| starts := replicate (vreg_capacity f) None; ends := replicate (vreg_capacity f) None;
classes := replicate (vreg_capacity f) Gp64 |}).
assert (Hnone : forall v, range_of t0 v = None).
{ intros v. unfold range_of, t0. simpl. destruct (replicate (vreg_capacity f) None !! v) as [o|] eqn:E; [|done].
apply lookup_replicate in E as [-> _]. done. }
destruct (fold_touch_spec (all_touches f s) t0 (vreg_capacity f)) as (H1 & _ & _ & H4 & H5).
{ repeat split; apply length_replicate. }
{ intros v. simpl. split; intros [x Hx]; apply lookup_replicate in Hx as [? _]; done. }
{ apply touch_in_range. }
split; [done|]. split; [done|]. apply H5; [|intros v lo hi E; by rewrite Hnone in E].
intros e He. apply elem_of_touches in He as (b & blk & Hb & [(-> & -> & _)|(k & i & v & Hk & _ & ->)]); simpl.
- destruct (pos_of_mono b blk 0 Hb) as [? ?]; lia.
- apply lookup_lt_Some in Hk. destruct (pos_of_mono b blk k Hb) as [? ?]; lia.
Qed.

(** ** The interval list *)

Lemma elem_of_intervals iv :
iv ∈ build_intervals f s <->
exists v, (v < vreg_capacity f)%nat /\ make_interval T (collect_hints f) v = Some iv.
Proof.
unfold build_intervals. rewrite sort_by_perm, list_elem_of_omap. split.
- intros (v & Hv & Hm). apply elem_of_seq in Hv. exists v. split; [lia|done].
- intros (v & Hv & Hm). exists v. split; [apply elem_of_seq; lia|done].
Qed.

Lemma make_interval_range v iv :
make_interval T (collect_hints f) v = Some iv -> li_vreg iv = N.of_nat v /\ range_of T v = Some (li_start iv, li_end iv).
Proof.
unfold make_interval, range_of. destruct (starts T !! v) as [[x|]|], (ends T !! v) as [[y|]|], (classes T !! v) as [c|]; try done.
by intros [= <-].
Qed.

Lemma range_interval v lo hi :
range_of T v = Some (lo, hi) ->
exists iv, iv ∈ build_intervals f s /\ li_vreg iv = N.of_nat v /\ li_start iv = lo /\ li_end iv = hi.
Proof.
intros Hr. destruct tables_spec as [(H1 & H2 & H3) _].
assert (Hv : (v < vreg_capacity f)%nat).
{ unfold range_of in Hr. destruct (starts T !! v) as [o|] eqn:E; [|done]. apply lookup_lt_Some in E. lia. }
destruct (lookup_lt_is_Some_2 (classes T) v) as [c Hc]; [lia|].
destruct (make_interval T (collect_hints f) v) as [iv|] eqn:E.
- exists iv. destruct (make_interval_range v iv E) as [Hvr Hrg]. rewrite Hr in Hrg. injection Hrg as <- <-.
split; [apply elem_of_intervals; eauto|done].
- exfalso. revert E Hr. unfold make_interval, range_of. rewrite Hc.
destruct (starts T !! v) as [[x|]|], (ends T !! v) as [[y|]|]; done.
Qed.

Lemma interval_le_total a b : interval_le a b = false -> interval_le b a = true.
Proof.
unfold interval_le. rewrite orb_false_iff, orb_true_iff, andb_false_iff, andb_true_iff, !N.ltb_ge, !N.ltb_lt, !N.eqb_eq, !N.eqb_neq, N.leb_gt, N.leb_le.
lia.
Qed.

Lemma interval_le_trans a b c : interval_le a b = true -> interval_le b c = true -> interval_le a c = true.
Proof. unfold interval_le. rewrite !orb_true_iff, !andb_true_iff, !N.ltb_lt, !N.eqb_eq, !N.leb_le. lia. Qed.

Lemma intervals_sorted : StronglySorted (fun a b => interval_le a b = true) (build_intervals f s).
Proof. apply sort_by_sorted; [apply interval_le_total|apply interval_le_trans]. Qed.

Lemma intervals_NoDup : NoDup (li_vreg <$> build_intervals f s).
Proof.
unfold build_intervals. rewrite sort_by_perm.
assert (H : forall l, NoDup l -> NoDup (li_vreg <$> omap (make_interval T (collect_hints f)) l)).
{ induction l as [|v l IH]; intros Hnd; [constructor|]. apply list.NoDup_cons in Hnd as [Hv Hnd]. simpl.
destruct (make_interval T (collect_hints f) v) as [iv|] eqn:E; [|by apply IH]. simpl. constructor; [|by apply IH].
intros Hin. apply list_elem_of_fmap in Hin as (iv' & Heq & Hin). apply list_elem_of_omap in Hin as (u & Hu & E').
apply make_interval_range in E as [E _], E' as [E' _]. rewrite E, E' in Heq. apply Nat2N.inj in Heq. by subst. }
apply H. apply NoDup_seq.
Qed.

Lemma intervals_bounds iv : iv ∈ build_intervals f s -> (li_start iv <= li_end iv <= last_pos)%N.
Proof.
intros (v & _ & Hm)%elem_of_intervals. destruct (make_interval_range v iv Hm) as [_ Hr].
destruct tables_spec as (_ & _ & H). by eapply H.
Qed.

(** Every reference to a register, and every point at which it is live, lies in the
interval of the register. *)
Lemma touch_covered e :
e ∈ all_touches f s -> exists iv, iv ∈ build_intervals f s /\ li_vreg iv = N.of_nat (t_vreg e) /\
(li_start iv <= t_lo e)%N /\ (t_hi e <= li_end iv)%N.
Proof.
intros He. destruct tables_spec as (_ & H & _). destruct (H e He) as (lo & hi & Hr & Hlo & Hhi).
destruct (range_interval _ _ _ Hr) as (iv & Hiv & Hv & <- & <-). eauto 10.
Qed.

Lemma interval_unique a b : a ∈ build_intervals f s -> b ∈ build_intervals f s -> li_vreg a = li_vreg b -> a = b.
Proof.
intros (u & _ & Hu)%elem_of_intervals (v & _ & Hv)%elem_of_intervals E.
destruct (make_interval_range _ _ Hu) as [Eu _], (make_interval_range _ _ Hv) as [Ev _].
rewrite Eu, Ev in E. apply Nat2N.inj in E. subst. congruence.
Qed.

Lemma ref_touch b blk k i u :
xf_blocks f !! b = Some blk -> xb_insts blk !! k = Some i -> u ∈ inst_vregs i ->
{| t_vreg := bit_of u; t_lo := pos_of f b k; t_hi := pos_of f b k; t_class := Some (vr_class u) |} ∈ all_touches f s.
Proof. intros Hb Hk Hu. apply elem_of_touches. exists b, blk. split; [done|]. right. eauto 10. Qed.

Lemma flow_touch b blk v :
xf_blocks f !! b = Some blk -> live_into f v b \/ live_out_of f v b ->
{| t_vreg := v; t_lo := pos_of f b 0; t_hi := pos_of f b (length (xb_insts blk)); t_class := None |} ∈ all_touches f s.
Proof.
intros Hb H. apply elem_of_touches. exists b, blk. split; [done|]. left. simpl. repeat split.
destruct (solve_liveness_exact f Huniq s b v Hs) as [Hi Ho]; [by eapply lookup_lt_Some|].
destruct H as [H|H]; [left; by apply Hi|right; by apply Ho].
Qed.

Lemma interval_class b blk k i u iv :
classes_agree f -> xf_blocks f !! b = Some blk -> xb_insts blk !! k = Some i -> u ∈ inst_vregs i ->
iv ∈ build_intervals f s -> li_vreg iv = vr_id u -> li_class iv = vr_class u.
Proof.
intros Hag Hb Hk Hu Hiv Hv. apply elem_of_intervals in Hiv as (v & Hvc & Hm). destruct (make_interval_range v iv Hm) as [Ev _].
assert (v = bit_of u) as -> by (unfold bit_of; lia).
assert (Hc : classes T !! bit_of u = Some (vr_class u)).
{ apply (fold_touch_class _ _ (vreg_capacity f)); [repeat split; apply length_replicate|done| |].
- intros e d He Ev' Ed. apply elem_of_touches in He as (b' & blk' & Hb' & [(_ & _ & En & _)|(k' & i' & u' & Hk' & Hu' & ->)]); [congruence|].
simpl in *. injection Ed as <-. apply (Hag blk' blk i' i u' u); [by eapply list_elem_of_lookup_2..|done|done|unfold bit_of in Ev'; lia].
- right. eexists. split; [by eapply ref_touch|done]. }
unfold make_interval in Hm. rewrite Hc in Hm. destruct (starts T !! bit_of u) as [[x|]|], (ends T !! bit_of u) as [[y|]|]; try done.
by injection Hm as <-.
Qed.

Lemma live_covered v b k :
live_at f v b k ->
exists iv, iv ∈ build_intervals f s /\ li_vreg iv = N.of_nat v /\ (li_start iv <= pos_of f b k <= li_end iv)%N.
Proof.
intros (blk & Hb & Hk & H). pose proof (pos_of_mono b blk k Hb Hk) as [Hp _].
destruct H as [He|[_ Ho]].
2:{ destruct (touch_covered _ (flow_touch b blk v Hb (or_intror Ho))) as (iv & Hiv & Hv & Hlo & Hhi). simpl in *.
exists iv. split; [done|]. split; [done|]. lia. }
destruct (exposed_read _ _ He) as (j & i & Hj & Hr). rewrite lookup_drop in Hj. apply reads_vreg in Hr as (u & Hu & <-).
destruct (touch_covered _ (ref_touch b blk (k + j) i u Hb Hj Hu)) as (iv & Hiv & Hv & Hlo & Hhi). simpl in *.
exists iv. split; [done|]. split; [done|]. split; [|unfold pos_of in *; lia].
destruct (killed (bit_of u) (take k (xb_insts blk))) eqn:Ek.
- destruct (killed_write _ _ Ek) as (j' & i' & Hj' & Hw). apply lookup_take_Some in Hj' as [Hj' Hlt].
apply writes_vreg in Hw as (u' & Hu' & E).
destruct (touch_covered _ (ref_touch b blk j' i' u' Hb Hj' Hu')) as (iv' & Hiv' & Hv' & Hlo' & _). simpl in *.
rewrite E, <- Hv in Hv'. apply (interval_unique _ _ Hiv' Hiv) in Hv' as ->. unfold pos_of in *. lia.
- assert (Hin : live_into f (bit_of u) b).
{ eapply live_exposed; [done|]. rewrite <- (take_drop k (xb_insts blk)), exposed_app, Ek, He. by rewrite orb_true_r. }
destruct (touch_covered _ (flow_touch b blk _ Hb (or_introl Hin))) as (iv' & Hiv' & Hv' & Hlo' & _). simpl in *.
rewrite <- Hv in Hv'. apply (interval_unique _ _ Hiv' Hiv) in Hv' as ->. lia.
Qed.

End intervals.

(** * Theorems *)

(** C33: The backward dataflow reaches its fixed point, and the sets it returns are exact:
    a bit is set exactly when a path leads from the block, without an intervening
    definition, to a use of the register. *)
Theorem liveness_exact f :
  unique_blocks f ->
  exists s, solve_liveness f = Some s /\
    forall b v, (b < length (xf_blocks f))%nat ->
      (bit_is_set (row (live_in s) b) v = true <-> live_into f v b) /\
      (bit_is_set (row (live_out s) b) v = true <-> live_out_of f v b).
Proof.
  intros Hu. destruct (solve_liveness_spec f Hu) as (s & E & _). exists s. split; [done|].
  intros b v Hb. by apply solve_liveness_exact.
Qed.

Lemma liveness_exact_witness :
  exists s, solve_liveness call_fn = Some s /\ bit_is_set (row (live_in s) 1) 0 = true /\ live_into call_fn 0 1.
Proof.
  destruct (liveness_exact call_fn) as (s & E & H); [apply (bool_decide_unpack _); vm_compute; done|].
  exists s. split; [done|]. assert (Hb : bit_is_set (row (live_in s) 1) 0 = true).
  { vm_compute in E. injection E as <-. vm_compute. reflexivity. }
  split; [done|]. apply H; [vm_compute; lia|done].
Defined.

(** The intervals handed to the allocator are one per register, in start order, and
    cover every point at which their register is live. *)
Theorem intervals_sound f lv :
  unique_blocks f -> small f -> compute_liveness f = Some lv ->
  NoDup (li_vreg <$> intervals lv) /\
  StronglySorted (fun a b => interval_le a b = true) (intervals lv) /\
  forall v b k, live_at f v b k ->
    exists iv, iv ∈ intervals lv /\ li_vreg iv = N.of_nat v /\ (li_start iv <= pos_of f b k <= li_end iv)%N.
Proof.
  intros Hu Hs. unfold compute_liveness. destruct (solve_liveness f) as [s|] eqn:E; [|done]. intros [= <-]. simpl.
  split; [by apply intervals_NoDup|]. split; [apply intervals_sorted|]. intros v b k. by apply live_covered.
Qed.

Lemma intervals_sound_witness :
  exists lv iv, compute_liveness call_fn = Some lv /\ iv ∈ intervals lv /\ li_vreg iv = 1%N /\ (li_start iv <= 4 <= li_end iv)%N.
Proof.
  destruct (compute_liveness call_fn) as [lv|] eqn:E; [|vm_compute in E; done].
  destruct (intervals_sound call_fn lv) as (_ & _ & H).
  - apply (bool_decide_unpack _). vm_compute. done.
  - vm_compute. done.
  - done.
  - destruct (H 1%nat 0%nat 2%nat) as (iv & Hiv & Hv & Hp).
    + eexists. split; [reflexivity|]. split; [vm_compute; lia|]. left. vm_compute. reflexivity.
    + exists lv, iv. split; [done|]. split; [done|]. split; [done|]. exact Hp.
Defined.
