(* ===== verification/X86LinearScan.v ===== *)
(** The linear-scan register allocator of the x86-64 backend
    (src/src/codegen/x86/linearscan.rs): fixed-register occupancy, the scan with
    hints, live-range splitting at calls, eviction and spilling, and where a
    register lives at a position.

    Hash maps are finite maps; where the code iterates over one, the order is a
    parameter.  [None] is a panic of the code. *)

From stdpp Require Import sorting.
From S2P Require Import Prelude BitSet Slices X86Mir X86Liveness.
From stdpp Require Import list.

(** * Call crossings (src/src/codegen/shared.rs) *)

Inductive CallCrossing := CrossNone | CrossOne (position : N) | CrossMultiple.

Definition classify_call_crossing (sorted_calls : list N) (start end_ : N) : CallCrossing :=
  let first := partition_point (fun p => p <=? start)%N sorted_calls in
  let after_last := partition_point (fun p => p <? end_)%N sorted_calls in
  match (after_last - first)%nat with
  | O => CrossNone
  | 1%nat => match sorted_calls !! first with Some p => CrossOne p | None => CrossNone end
  | _ => CrossMultiple
  end.

(** * The register file *)

Definition GP_SCRATCH : list X86Reg := [R10; R11].
Definition FP_SCRATCH : list X86Reg := [Xmm14; Xmm15].

Definition GP_ALLOC_ORDER : list X86Reg :=
  [Rax; Rcx; Rdx; Rsi; Rdi; R8; R9; Rbx; R12; R13; R14; R15].

Definition FP_ALLOC_ORDER : list X86Reg :=
  [Xmm0; Xmm1; Xmm2; Xmm3; Xmm4; Xmm5; Xmm6; Xmm7; Xmm8; Xmm9; Xmm10; Xmm11; Xmm12; Xmm13].

Definition is_callee_saved (r : X86Reg) : bool :=
  match r with Rbx | R12 | R13 | R14 | R15 => true | _ => false end.

Definition CALL_CLOBBER : list X86Reg :=
  [Rax; Rcx; Rdx; Rsi; Rdi; R8; R9; R10; R11;
   Xmm0; Xmm1; Xmm2; Xmm3; Xmm4; Xmm5; Xmm6; Xmm7; Xmm8; Xmm9; Xmm10; Xmm11; Xmm12; Xmm13; Xmm14; Xmm15].

(** Implicit uses and definitions of an opcode. *)
Definition implicit_phys_effects (op : X86Opcode) : list X86Reg * list X86Reg :=
  match op with
  | Cltd | Cqto => ([Rax], [Rdx])
  | Idiv => ([Rax; Rdx], [Rax; Rdx])
  | Call | CallReg => ([], CALL_CLOBBER)
  | _ => ([], [])
  end.

(** * Occupancy *)

Notation occupancy := (gmap X86Reg (list N)).

Definition mark (occ : occupancy) (r : X86Reg) (pos : N) : occupancy :=
  <[r := default [] (occ !! r) ++ [pos]]> occ.

Definition operand_regs (op : X86Operand) : list X86Reg :=
  match op with
  | Reg r => [r]
  | Mem base index _ _ => option_list base ++ option_list index
  | _ => []
  end.

(** Every physical register an instruction references, in the order of marking. *)
Definition phys_refs (i : X86Inst) : list X86Reg :=
  ((x_operands i ++ option_list (x_def i)) ≫= operand_regs) ++
  (implicit_phys_effects (x_opcode i)).1 ++ (implicit_phys_effects (x_opcode i)).2.

Definition mark_inst (occ : occupancy) (pi : N * X86Inst) : occupancy :=
  foldl (fun occ r => mark occ r pi.1) occ (phys_refs pi.2).

(** Where the incoming argument registers are first read in the entry block. *)
Definition capture_inst (live_ins : list X86Reg) (m : gmap X86Reg N) (pi : N * X86Inst) : gmap X86Reg N :=
  foldl (fun m op => match op with
                     | Reg r => if bool_decide (r ∈ live_ins) then
                                  match m !! r with Some _ => m | None => <[r := pi.1]> m end
                                else m
                     | _ => m
                     end) m (x_operands pi.2).

Definition entry_captures (f : X86Function) : gmap X86Reg N :=
  match numbered f with
  | nb :: _ => foldl (capture_inst (entry_live_ins f)) ∅ (nb_insts nb)
  | [] => ∅
  end.

(** [(0..=last).step_by(2)]. *)
Definition even_positions (last : N) : list N := (fun k => (2 * N.of_nat k)%N) <$> seq 0 (S (N.to_nat (last / 2))).

Definition dedup_sorted (l : list N) : list N :=
  foldr (fun x acc => match acc with y :: _ => if (x =? y)%N then acc else x :: acc | [] => [x] end) [] l.

(** An incoming register is occupied from the entry to its first capture. *)
Definition reserve_entry (f : X86Function) (occ : option occupancy) (r : X86Reg) : option occupancy :=
  match occ, entry_captures f !! r with
  | Some m, Some capture_pos => Some (<[r := default [] (m !! r) ++ even_positions capture_pos]> m)
  | _, _ => None
  end.

Definition build_phys_occupancy (f : X86Function) : option occupancy :=
  let marked := foldl mark_inst ∅ (numbered f ≫= nb_insts) in
  match foldl (reserve_entry f) (Some marked) (entry_live_ins f) with
  | Some occ => Some ((fun ps => dedup_sorted (sort_by_key id ps)) <$> occ)
  | None => None
  end.

Definition phys_free_over (occ : occupancy) (r : X86Reg) (start end_ : N) : bool :=
  match occ !! r with
  | None => true
  | Some positions =>
      let idx := partition_point (fun p => p <? start)%N positions in
      match positions !! idx with
      | None => true
      | Some p => (end_ <? p)%N
      end
  end.

(** Bytes and alignment of a spill slot. *)
Definition spill_slot_size (c : X86RegClass) : Z * Z :=
  match c with Xmm128 => (16, 16) | _ => (8, 8) end%Z.

(** * The scan *)

Inductive PostHalf := Allocated (r : X86Reg) | SpilledHalf.

Record SplitRecord := {
  sr_vreg : VRegId;
  sr_class : X86RegClass;
  sr_call : N;
  sr_pre : X86Reg;
  sr_post : PostHalf;
  sr_bridge : Z }.

Record AllocResult := {
  assignments : gmap VRegId X86Reg;
  spills : gmap VRegId Z;
  callee_saved_used : list X86Reg;
  split_records : list SplitRecord;
  liveness : LivenessResult }.

(** An active interval: register, end, virtual register. *)
Notation active_entry := (X86Reg * N * VRegId)%type.

Definition entry_reg (e : active_entry) : X86Reg := e.1.1.
Definition entry_end (e : active_entry) : N := e.1.2.
Definition entry_vreg (e : active_entry) : VRegId := e.2.

Fixpoint expire_intervals (active : list active_entry) (free : list X86Reg) (pos : N)
    : list active_entry * list X86Reg :=
  match active with
  | [] => ([], free)
  | e :: active' =>
      if (entry_end e <? pos)%N then expire_intervals active' (free ++ [entry_reg e]) pos
      else let '(a, fr) := expire_intervals active' free pos in (e :: a, fr)
  end.

(** The tables the scan consults and does not change. *)
Record scan_ctx := {
  cx_occ : occupancy;
  cx_calls : list N;
  cx_class : gmap VRegId X86RegClass;
  cx_range : gmap VRegId (N * N);
  cx_multi_def : gset VRegId;
  cx_ref_blocks : gmap VRegId (gset nat) }.

Record scan := {
  sc_f : X86Function;
  sc_assignments : gmap VRegId X86Reg;
  sc_spills : gmap VRegId Z;
  sc_callee_saved : gset X86Reg;
  sc_active_gp : list active_entry;
  sc_active_fp : list active_entry;
  sc_free_gp : list X86Reg;
  sc_free_fp : list X86Reg;
  sc_splits : gmap VRegId (VRegId * N * Z) }.

Definition active_of (fp : bool) (sc : scan) : list active_entry := if fp then sc_active_fp sc else sc_active_gp sc.
Definition free_of (fp : bool) (sc : scan) : list X86Reg := if fp then sc_free_fp sc else sc_free_gp sc.

(** Replace the active and free lists of one class, and everything else. *)
Definition update_scan (sc : scan) (fp : bool) (active : list active_entry) (free : list X86Reg)
    (f : X86Function) (asg : gmap VRegId X86Reg) (sp : gmap VRegId Z) (cs : gset X86Reg)
    (splits : gmap VRegId (VRegId * N * Z)) : scan :=
  {| sc_f := f; sc_assignments := asg; sc_spills := sp; sc_callee_saved := cs;
     sc_active_gp := if fp then sc_active_gp sc else active;
     sc_active_fp := if fp then active else sc_active_fp sc;
     sc_free_gp := if fp then sc_free_gp sc else free;
     sc_free_fp := if fp then free else sc_free_fp sc;
     sc_splits := splits |}.

Definition push_active (active : list active_entry) (e : active_entry) : list active_entry :=
  sort_by_key entry_end (active ++ [e]).

Definition note_callee_saved (r : X86Reg) (cs : gset X86Reg) : gset X86Reg :=
  if is_callee_saved r then {[r]} ∪ cs else cs.

(** The hint if it is free and clear, otherwise the first free register that is. *)
Definition pick_free (cx : scan_ctx) (free : list X86Reg) (iv : LiveInterval) : option nat :=
  let clear r := phys_free_over (cx_occ cx) r (li_start iv) (li_end iv) in
  let hinted := hr ← li_hint iv;
                i ← position (fun r => bool_decide (r = hr)) free;
                if clear hr then Some i else None in
  match hinted with
  | Some i => Some i
  | None => position clear free
  end.

Definition single_call (cx : scan_ctx) (iv : LiveInterval) : option N :=
  match classify_call_crossing (cx_calls cx) (li_start iv) (li_end iv) with CrossOne p => Some p | _ => None end.

(** The guards of a split at a call. *)
Definition split_ok (cx : scan_ctx) (iv : LiveInterval) : bool :=
  match single_call cx iv with
  | None => false
  | Some cp =>
      negb (bool_decide (li_vreg iv ∈ cx_multi_def cx)) &&
      match cx_ref_blocks cx !! li_vreg iv with Some b => bool_decide (size b = 1%nat) | None => false end &&
      match cx_range cx !! li_vreg iv with Some (rs, re) => (rs <? cp)%N && (cp <? re)%N | None => false end
  end.

Definition u32_max : N := (2 ^ 32 - 1)%N.

(** The part of the step up to the split: a register for the whole range. *)
Definition take_free (sc : scan) (fp : bool) (active : list active_entry) (free : list X86Reg)
    (iv : LiveInterval) (i : nat) (r : X86Reg) : scan :=
  update_scan sc fp (push_active active (r, li_end iv, li_vreg iv)) (delete i free) (sc_f sc)
    (<[li_vreg iv := r]> (sc_assignments sc)) (sc_spills sc) (note_callee_saved r (sc_callee_saved sc)) (sc_splits sc).

(** The split: the part before the call takes the register, the rest of the range
    goes back to the worklist under a fresh name. *)
Definition take_split (sc : scan) (fp : bool) (active : list active_entry) (free : list X86Reg)
    (iv : LiveInterval) (cp : N) (i : nat) (r : X86Reg) : scan * LiveInterval :=
  let pre_end := N.pred cp in
  let '(sz, al) := spill_slot_size (li_class iv) in
  let '(bridge_slot, f1) := alloc_frame_slot (sc_f sc) sz al in
  let '(v, f2) := new_vreg f1 (li_class iv) in
  (update_scan sc fp (push_active active (r, pre_end, li_vreg iv)) (delete i free) f2
     (<[li_vreg iv := r]> (sc_assignments sc)) (sc_spills sc) (sc_callee_saved sc)
     (<[vr_id v := (li_vreg iv, cp, bridge_slot)]> (sc_splits sc)),
   {| li_vreg := vr_id v; li_class := li_class iv; li_start := N.min (cp + 1) u32_max; li_end := li_end iv; li_hint := None |}).

Definition spill_interval (sc : scan) (fp : bool) (active : list active_entry) (free : list X86Reg) (iv : LiveInterval) : scan :=
  let '(sz, al) := spill_slot_size (li_class iv) in
  let '(slot, f1) := alloc_frame_slot (sc_f sc) sz al in
  update_scan sc fp active free f1 (sc_assignments sc) (<[li_vreg iv := slot]> (sc_spills sc)) (sc_callee_saved sc) (sc_splits sc).

(** The victim: the last active interval of greatest end whose register is clear. *)
Definition pick_victim (cx : scan_ctx) (active : list active_entry) (iv : LiveInterval) : option (nat * active_entry) :=
  max_by_key (fun p => entry_end p.2)
    (filter (fun p => phys_free_over (cx_occ cx) (entry_reg p.2) (li_start iv) (li_end iv) = true)
            (zip (seq 0 (length active)) active)).

Definition evict (cx : scan_ctx) (sc : scan) (fp : bool) (active : list active_entry) (free : list X86Reg)
    (iv : LiveInterval) (vidx : nat) (victim : active_entry) : scan :=
  let vclass := default Gp64 (cx_class cx !! entry_vreg victim) in
  let '(sz, al) := spill_slot_size vclass in
  let '(slot, f1) := alloc_frame_slot (sc_f sc) sz al in
  let r := entry_reg victim in
  update_scan sc fp (push_active (delete vidx active) (r, li_end iv, li_vreg iv)) free f1
    (<[li_vreg iv := r]> (delete (entry_vreg victim) (sc_assignments sc)))
    (<[entry_vreg victim := slot]> (sc_spills sc)) (note_callee_saved r (sc_callee_saved sc)) (sc_splits sc).

(** Evict the victim if it outlives the interval, otherwise spill the interval. *)
Definition evict_or_spill (cx : scan_ctx) (sc : scan) (fp : bool) (active : list active_entry) (free : list X86Reg)
    (iv : LiveInterval) : scan :=
  match pick_victim cx active iv with
  | Some (vidx, victim) =>
      if (li_end iv <? entry_end victim)%N then evict cx sc fp active free iv vidx victim
      else spill_interval sc fp active free iv
  | None => spill_interval sc fp active free iv
  end.

(** One interval of the worklist; [rest] is what follows it. *)
Definition scan_step (cx : scan_ctx) (sc : scan) (iv : LiveInterval) (rest : list LiveInterval) : scan * list LiveInterval :=
  let fp := is_fp_class (li_class iv) in
  let '(active, free) := expire_intervals (active_of fp sc) (free_of fp sc) (li_start iv) in
  match pick_free cx free iv ≫= fun i => pair i <$> free !! i with
  | Some (i, r) => (take_free sc fp active free iv i r, rest)
  | None =>
      let pre_pick :=
        match single_call cx iv with
        | Some cp =>
            if split_ok cx iv then
              i ← position (fun r => negb (is_callee_saved r) && phys_free_over (cx_occ cx) r (li_start iv) (N.pred cp)) free;
              r ← free !! i;
              Some (cp, i, r)
            else None
        | None => None
        end in
      match pre_pick with
      | Some (cp, i, r) =>
          let '(sc', post) := take_split sc fp active free iv cp i r in
          (sc', insert_after (fun w => interval_le w post) post rest)
      | None => (evict_or_spill cx sc fp active free iv, rest)
      end
  end.

Fixpoint scan_loop (fuel : nat) (cx : scan_ctx) (sc : scan) (worklist : list LiveInterval) : option scan :=
  match worklist with
  | [] => Some sc
  | iv :: rest =>
      match fuel with
      | O => None
      | S fuel' => let '(sc', rest') := scan_step cx sc iv rest in scan_loop fuel' cx sc' rest'
      end
  end.

(** * Tables *)

(** One class per register; a divergent class is a failed assertion. *)
Definition add_class (m : option (gmap VRegId X86RegClass)) (iv : LiveInterval) : option (gmap VRegId X86RegClass) :=
  match m with
  | None => None
  | Some m =>
      match m !! li_vreg iv with
      | Some prev => if bool_decide (prev = li_class iv) then Some (<[li_vreg iv := li_class iv]> m) else None
      | None => Some (<[li_vreg iv := li_class iv]> m)
      end
  end.

Definition vreg_classes (ivs : list LiveInterval) : option (gmap VRegId X86RegClass) := foldl add_class (Some ∅) ivs.

Definition touch_range (m : gmap VRegId (N * N)) (v : VRegId) (p : N) : gmap VRegId (N * N) :=
  let '(a, b) := default (p, p) (m !! v) in <[v := (N.min a p, N.max b p)]> m.

Definition add_block (m : gmap VRegId (gset nat)) (v : VRegId) (b : nat) : gmap VRegId (gset nat) :=
  <[v := {[b]} ∪ default ∅ (m !! v)]> m.

(** The instructions with their block and position. *)
Definition located (f : X86Function) : list (nat * (N * X86Inst)) :=
  mjoin (imap (fun b nb => pair b <$> nb_insts nb) (numbered f)).

Definition actual_ranges (f : X86Function) : gmap VRegId (N * N) :=
  foldl (fun m x => foldl (fun m v => touch_range m (vr_id v) x.2.1) m (inst_vregs x.2.2)) ∅ (located f).

Definition def_blocks (f : X86Function) : gmap VRegId (gset nat) :=
  foldl (fun m x => match def_vreg x.2.2 with Some d => add_block m (vr_id d) x.1 | None => m end) ∅ (located f).

Definition ref_blocks (f : X86Function) : gmap VRegId (gset nat) :=
  foldl (fun m x => foldl (fun m v => add_block m (vr_id v) x.1) m (inst_vregs x.2.2)) ∅ (located f).

Definition multi_def (f : X86Function) : gset VRegId :=
  dom (filter (fun p => (1 < size p.2)%nat) (def_blocks f)).

(** * Split records *)

Notation split_map := (gmap VRegId (VRegId * N * Z)).

Definition materialize (cls : gmap VRegId X86RegClass)
    (st : gmap VRegId X86Reg * gmap VRegId Z * list SplitRecord) (e : VRegId * (VRegId * N * Z)) :
    gmap VRegId X86Reg * gmap VRegId Z * list SplitRecord :=
  let '(asg, sp, recs) := st in
  let '(syn, (orig, cp, bridge)) := e in
  match asg !! orig with
  | None => st
  | Some pre =>
      let post := match asg !! syn with
                  | Some p => Some (Allocated p)
                  | None => match sp !! syn with Some _ => Some SpilledHalf | None => None end
                  end in
      match post with
      | None => st
      | Some post =>
          (delete syn asg, delete syn sp,
           recs ++ [{| sr_vreg := orig; sr_class := default Gp64 (cls !! orig); sr_call := cp;
                       sr_pre := pre; sr_post := post; sr_bridge := bridge |}])
      end
  end.

Definition record_le (a b : SplitRecord) : bool :=
  (sr_vreg a <? sr_vreg b)%N || ((sr_vreg a =? sr_vreg b)%N && (sr_call a <=? sr_call b)%N).

Definition reg_sort_key (r : X86Reg) : N :=
  match r with Rbx => 0 | R12 => 1 | R13 => 2 | R14 => 3 | R15 => 4 | _ => 255 end.

Definition make_ctx (f : X86Function) (lv : LivenessResult) : option scan_ctx :=
  cls ← vreg_classes (intervals lv);
  occ ← build_phys_occupancy f;
  Some {| cx_occ := occ; cx_calls := call_positions lv; cx_class := cls; cx_range := actual_ranges f;
          cx_multi_def := multi_def f; cx_ref_blocks := ref_blocks f |}.

Definition init_scan (f : X86Function) : scan :=
  {| sc_f := f; sc_assignments := ∅; sc_spills := ∅; sc_callee_saved := ∅; sc_active_gp := []; sc_active_fp := [];
     sc_free_gp := GP_ALLOC_ORDER; sc_free_fp := FP_ALLOC_ORDER; sc_splits := ∅ |}.

Definition linear_scan (entries : split_map -> list (VRegId * (VRegId * N * Z))) (f : X86Function)
    : option (AllocResult * X86Function) :=
  lv ← compute_liveness f;
  cx ← make_ctx f lv;
  sc ← scan_loop (2 * length (intervals lv)) cx (init_scan f) (intervals lv);
  let '(asg, sp, recs) := foldl (materialize (cx_class cx)) (sc_assignments sc, sc_spills sc, []) (entries (sc_splits sc)) in
  Some ({| assignments := asg; spills := sp;
           callee_saved_used := sort_by_key reg_sort_key (elements (sc_callee_saved sc));
           split_records := sort_by record_le recs; liveness := lv |}, sc_f sc).

(** * Where a register lives *)

Inductive Resolved := InReg (r : X86Reg) | InSlot (slot : Z).

(** [resolve] of [apply_allocation]. *)
Definition resolve (res : AllocResult) (v : VRegId) (cur_pos : N) : option Resolved :=
  match list_find (fun r => sr_vreg r = v) (split_records res) with
  | Some (_, r) =>
      Some (if (sr_call r <? cur_pos)%N
            then match sr_post r with Allocated p => InReg p | SpilledHalf => InSlot (sr_bridge r) end
            else InReg (sr_pre r))
  | None =>
      match assignments res !! v with
      | Some p => Some (InReg p)
      | None => InSlot <$> spills res !! v
      end
  end.
