(* ===== verification/X86AllocInv.v ===== *)
(** What the linear scan keeps while it runs.

    [regs_inv] is the register discipline: the segments of the live ranges that hold
    a register never share one at a position, each register is clear of fixed
    references over its segment, and free and active registers partition the pools.
    The lemmas follow the four things a step does with an interval (take a free
    register, split, evict, spill). *)

From stdpp Require Import sorting.
From S2P Require Import Prelude BitSet Slices X86Mir X86Liveness X86LinearScan.
From stdpp Require Import list.

Definition pool (fp : bool) : list X86Reg := if fp then FP_ALLOC_ORDER else GP_ALLOC_ORDER.

Lemma pool_NoDup fp : NoDup (pool fp).
Proof. destruct fp; apply (bool_decide_unpack _); vm_compute; done. Qed.

Lemma pools_disjoint r : r ∈ pool true -> r ∈ pool false -> False.
Proof. destruct r; intros H1 H2; apply (bool_decide_pack _) in H1, H2; vm_compute in H1, H2; done. Qed.

(** A segment of a live range that sits in a register. *)
Record seg := { sg_reg : X86Reg; sg_lo : N; sg_hi : N; sg_fp : bool }.

Definition disjoint_segs (a b : seg) : Prop := (sg_hi a < sg_lo b)%N \/ (sg_hi b < sg_lo a)%N.

Section regs.
Context (occ : occupancy).
Implicit Types (asg : gmap VRegId X86Reg) (act : bool -> list active_entry) (fre : bool -> list X86Reg).
Implicit Types (rest : list LiveInterval) (segs : gmap VRegId seg).

Record regs_inv asg act fre rest segs : Prop := {
ri_asg : asg = sg_reg <$> segs;
ri_disj : forall v w a b, v <> w -> segs !! v = Some a -> segs !! w = Some b -> sg_reg a = sg_reg b -> disjoint_segs a b;
ri_clear : forall v a, segs !! v = Some a ->
phys_free_over occ (sg_reg a) (sg_lo a) (sg_hi a) = true /\ sg_reg a ∈ pool (sg_fp a) /\ (sg_lo a <= sg_hi a)%N;
ri_pool : forall fp, fre fp ++ (entry_reg <$> act fp) ≡ₚ pool fp;
ri_active : forall fp e, e ∈ act fp -> exists a, segs !! entry_vreg e = Some a /\
sg_reg a = entry_reg e /\ sg_hi a = entry_end e /\ sg_fp a = fp;
ri_ended : forall v a, segs !! v = Some a ->
(sg_reg a, sg_hi a, v) ∈ act (sg_fp a) \/ forall iv, iv ∈ rest -> (sg_hi a < li_start iv)%N;
ri_new : forall iv, iv ∈ rest -> segs !! li_vreg iv = None }.

(** Replace the component of one class. *)
Definition upd {A} (g : bool -> A) (fp : bool) (x : A) : bool -> A := fun c => if Bool.eqb c fp then x else g c.

Lemma upd_eq {A} (g : bool -> A) fp x : upd g fp x fp = x.
Proof. unfold upd. by rewrite eqb_reflx. Qed.

Lemma upd_ne {A} (g : bool -> A) fp c x : c <> fp -> upd g fp x c = g c.
Proof. intros H. unfold upd. by destruct c, fp. Qed.

(** Fewer intervals to come, the lists of a class permuted: nothing changes. *)
Lemma regs_inv_weaken asg act fre rest segs act' fre' rest' :
regs_inv asg act fre rest segs ->
(forall fp, act' fp ≡ₚ act fp) -> (forall fp, fre' fp ≡ₚ fre fp) -> (forall iv, iv ∈ rest' -> iv ∈ rest) ->
regs_inv asg act' fre' rest' segs.
Proof.
intros [H1 H2 H3 H4 H5 H6 H7] Ha Hf Hr. split; try done.
- intros fp. by rewrite Ha, Hf.
- intros fp e. rewrite Ha. apply H5.
- intros v a Hv. rewrite Ha. destruct (H6 v a Hv) as [?|?]; [by left|right; eauto].
- eauto.
Qed.

(** ** Expiry *)

Lemma expire_spec active free pos :
let '(a, fr) := expire_intervals active free pos in
fr ++ (entry_reg <$> a) ≡ₚ free ++ (entry_reg <$> active) /\
forall e, e ∈ a <-> e ∈ active /\ (pos <= entry_end e)%N.
Proof.
revert free. induction active as [|e active IH]; intros free; cbn [expire_intervals].
- split; [done|]. intros e. rewrite elem_of_nil. tauto.
- destruct (entry_end e <? pos)%N eqn:E; [apply N.ltb_lt in E|apply N.ltb_ge in E].
+ specialize (IH (free ++ [entry_reg e])). destruct (expire_intervals _ _ _) as [a fr]. destruct IH as [Hp He].
split; [rewrite Hp; by rewrite <- (assoc_L (++))|]. intros x. rewrite He, elem_of_cons.
split; [tauto|]. intros [[->|?] ?]; [lia|done].
+ specialize (IH free). destruct (expire_intervals _ _ _) as [a fr]. destruct IH as [Hp He]. split.
* simpl. rewrite <- Permutation_middle, Hp. by rewrite Permutation_middle.
* intros x. rewrite !elem_of_cons, He. split; [intros [->|?]; tauto|tauto].
Qed.

Lemma regs_expire asg act fre iv rest segs fp a fr :
regs_inv asg act fre (iv :: rest) segs -> (forall w, w ∈ rest -> (li_start iv <= li_start w)%N) ->
expire_intervals (act fp) (fre fp) (li_start iv) = (a, fr) ->
regs_inv asg (upd act fp a) (upd fre fp fr) (iv :: rest) segs.
Proof.
intros [H1 H2 H3 H4 H5 H6 H7] Hs E. pose proof (expire_spec (act fp) (fre fp) (li_start iv)) as Hx. rewrite E in Hx.
destruct Hx as [Hp He]. split; try done.
- intros c. destruct (decide (c = fp)) as [->|]; [rewrite !upd_eq, Hp|rewrite !upd_ne by done]; apply H4.
- intros c e. destruct (decide (c = fp)) as [->|]; [rewrite upd_eq, He; intros [? _]|rewrite upd_ne by done]; by apply H5.
- intros v g Hv. destruct (H6 v g Hv) as [Hin|?]; [|by right].
destruct (decide (sg_fp g = fp)) as [Hf|]; [|rewrite upd_ne by done; by left]. rewrite Hf, upd_eq, He.
destruct (N.le_gt_cases (li_start iv) (sg_hi g)) as [Hle|Hlt]; [left; split; [by rewrite <- Hf|done]|right].
intros w [->|Hw]%elem_of_cons; [done|]. specialize (Hs w Hw). lia.
Qed.

(** ** Giving a register to an interval *)

Lemma regs_assign asg act fre iv rest segs fp (i : nat) r hi rest' (nact : list active_entry) :
regs_inv asg act fre (iv :: rest) segs ->
fre fp !! i = Some r -> phys_free_over occ r (li_start iv) hi = true -> (li_start iv <= hi)%N ->
(forall w, w ∈ rest' -> li_vreg w <> li_vreg iv /\
(w ∈ rest \/ (segs !! li_vreg w = None /\ (li_start iv <= li_start w)%N))) ->
nact ≡ₚ act fp ++ [(r, hi, li_vreg iv)] ->
regs_inv (<[li_vreg iv := r]> asg) (upd act fp nact) (upd fre fp (delete i (fre fp))) rest'
(<[li_vreg iv := {| sg_reg := r; sg_lo := li_start iv; sg_hi := hi; sg_fp := fp |}]> segs).
Proof.
intros [H1 H2 H3 H4 H5 H6 H7] Hi Hclear Hle Hrest Hact.
assert (Hrp : r ∈ pool fp) by (rewrite <- (H4 fp); apply elem_of_app; left; by eapply list_elem_of_lookup_2).
assert (Hnew : segs !! li_vreg iv = None) by (apply H7; left).
(* a segment in the same register has ended *)
assert (Hended : forall v a, segs !! v = Some a -> sg_reg a = r -> (sg_hi a < li_start iv)%N).
{ intros v a Hv Hr. destruct (H6 v a Hv) as [Hin|He]; [exfalso|apply He; left].
destruct (H3 v a Hv) as (_ & Hpa & _). rewrite Hr in Hpa.
assert (sg_fp a = fp) as <-.
{ destruct (sg_fp a), fp; try done; exfalso; by eapply pools_disjoint. }
pose proof (pool_NoDup (sg_fp a)) as Hnd. rewrite <- (H4 (sg_fp a)) in Hnd. apply list.NoDup_app in Hnd as (_ & Hnd & _).
apply (Hnd r); [by eapply list_elem_of_lookup_2|]. apply list_elem_of_fmap. exists (sg_reg a, sg_hi a, v). done. }
split.
- by rewrite fmap_insert, H1.
- intros v w a b Hvw Ha Hb Hr. unfold disjoint_segs.
rewrite lookup_insert_Some in Ha, Hb. destruct Ha as [[<- <-]|[Hva Ha]], Hb as [[<- <-]|[Hwb Hb]]; simpl in *; [done| | |].
+ right. by apply (Hended w).
+ left. by apply (Hended v).
+ by apply (H2 v w).
- intros v a [[<- <-]|[_ Hv]]%lookup_insert_Some; [done|by apply (H3 v)].
- intros c. destruct (decide (c = fp)) as [->|]; [rewrite !upd_eq|rewrite !upd_ne by done; apply H4].
rewrite <- (H4 fp), Hact, fmap_app. simpl.
transitivity ((r :: delete i (fre fp)) ++ (entry_reg <$> act fp)); [|by rewrite <- (delete_Permutation (fre fp) i r Hi)].
rewrite (assoc_L (++)), <- Permutation_cons_append. done.
- intros c e He. assert (He' : e ∈ act c \/ (c = fp /\ e = (r, hi, li_vreg iv))).
{ destruct (decide (c = fp)) as [->|]; [rewrite upd_eq, Hact, elem_of_app, list_elem_of_singleton in He; tauto
                           |rewrite upd_ne in He by done; by left]. }
destruct He' as [He'|[-> ->]].
+ destruct (H5 c e He') as (a & Ha & Hb). exists a. split; [|done]. rewrite lookup_insert_ne; [done|]. congruence.
+ eexists. simpl. rewrite lookup_insert_eq. done.
- assert (Hmon : forall c e, e ∈ act c -> e ∈ upd act fp nact c).
{ intros c e. destruct (decide (c = fp)) as [->|]; [rewrite upd_eq, Hact, elem_of_app; by left|by rewrite upd_ne]. }
intros v a [[<- <-]|[_ Hv]]%lookup_insert_Some; simpl.
+ left. rewrite upd_eq, Hact, elem_of_app, list_elem_of_singleton. by right.
+ destruct (H6 v a Hv) as [?|He]; [left; by apply Hmon|right].
intros w Hw. destruct (Hrest w Hw) as [_ [?|[_ ?]]]; [apply He; by right|].
specialize (He iv ltac:(left)). lia.
- intros w Hw. destruct (Hrest w Hw) as [Hne [Hin|[? _]]]; rewrite lookup_insert_ne by done; [apply H7; by right|done].
Qed.

(** ** Taking a register away *)

Lemma regs_release asg act fre rest segs fp (i : nat) e :
regs_inv asg act fre rest segs -> act fp !! i = Some e ->
regs_inv (delete (entry_vreg e) asg) (upd act fp (delete i (act fp))) (upd fre fp (fre fp ++ [entry_reg e])) rest
(delete (entry_vreg e) segs).
Proof.
intros [H1 H2 H3 H4 H5 H6 H7] Hi.
pose proof (delete_Permutation (act fp) i e Hi) as Hperm.
assert (Hne : forall e', e' ∈ delete i (act fp) -> entry_vreg e' <> entry_vreg e).
{ intros e' He' E. pose proof (pool_NoDup fp) as Hnd. rewrite <- (H4 fp) in Hnd. apply list.NoDup_app in Hnd as (_ & _ & Hnd).
rewrite (fmap_Permutation entry_reg _ _ Hperm) in Hnd. apply list.NoDup_cons in Hnd as [Hnd _]. apply Hnd.
destruct (H5 fp e) as (a & Ha & Hra & _); [by eapply list_elem_of_lookup_2|].
destruct (H5 fp e') as (a' & Ha' & Hra' & _); [rewrite Hperm; by right|].
rewrite E, Ha in Ha'. injection Ha' as <-. apply list_elem_of_fmap. exists e'. split; [congruence|done]. }
split.
- by rewrite fmap_delete, H1.
- intros v w a b Hvw [_ Ha]%lookup_delete_Some [_ Hb]%lookup_delete_Some. by apply (H2 v w).
- intros v a [_ Hv]%lookup_delete_Some. by apply (H3 v).
- intros c. destruct (decide (c = fp)) as [->|]; [rewrite !upd_eq|rewrite !upd_ne by done; apply H4].
transitivity (fre fp ++ (entry_reg <$> e :: delete i (act fp))); [|rewrite <- (H4 fp); by rewrite <- Hperm].
simpl. by rewrite <- (assoc_L (++)).
- intros c x Hx. assert (Hx' : x ∈ act c /\ entry_vreg x <> entry_vreg e).
{ destruct (decide (c = fp)) as [->|Hc]; [rewrite upd_eq in Hx; split; [rewrite Hperm; by right|by apply Hne]|].
rewrite upd_ne in Hx by done. split; [done|]. intros E.
destruct (H5 c x Hx) as (a & Ha & _ & _ & Hfa).
destruct (H5 fp e) as (a' & Ha' & _ & _ & Hfa'); [by eapply list_elem_of_lookup_2|]. congruence. }
destruct (H5 c x (proj1 Hx')) as (a & Ha & ?). exists a. split; [rewrite lookup_delete_ne; [done|]|done]. apply not_eq_sym, Hx'.
- intros v a [Hv Ha]%lookup_delete_Some. destruct (H6 v a Ha) as [Hin|?]; [left|by right].
destruct (decide (sg_fp a = fp)) as [Hf|]; [|by rewrite upd_ne]. rewrite Hf, upd_eq. rewrite Hf, Hperm in Hin.
apply elem_of_cons in Hin as [<-|?]; [done|done].
- intros w Hw. rewrite lookup_delete_None. right. by apply H7.
Qed.

End regs.

(** * Bookkeeping

    [base] are the intervals the scan starts from, [first] the first register name
    it may introduce.  The registers in play are those of [base] and the names given
    to the second halves of splits; [planned] is the range each is meant to cover. *)

Section book.
Context (cx : scan_ctx) (base : list LiveInterval) (first : N).
Implicit Types (spl : gmap VRegId Z) (segs : gmap VRegId seg) (splits : split_map) (rest : list LiveInterval).

Inductive planned splits (v : VRegId) : N -> N -> bool -> Prop :=
| plan_whole iv :
iv ∈ base -> li_vreg iv = v -> (forall syn x, splits !! syn = Some x -> x.1.1 <> v) ->
planned splits v (li_start iv) (li_end iv) (is_fp_class (li_class iv))
| plan_pre iv syn cp slot :
iv ∈ base -> li_vreg iv = v -> splits !! syn = Some (v, cp, slot) ->
planned splits v (li_start iv) (N.pred cp) (is_fp_class (li_class iv))
| plan_post iv cp slot :
iv ∈ base -> splits !! v = Some (li_vreg iv, cp, slot) ->
planned splits v (cp + 1)%N (li_end iv) (is_fp_class (li_class iv)).

(** A split the guards allow. *)
Definition split_at (orig : VRegId) (cp : N) : Prop :=
exists iv, iv ∈ base /\ li_vreg iv = orig /\ single_call cx iv = Some cp /\ split_ok cx iv = true /\
(li_start iv < cp < li_end iv)%N.

Record book_inv spl segs splits rest (next : N) : Prop := {
bi_excl : forall v a, segs !! v = Some a -> spl !! v = None;
bi_rest : forall iv, iv ∈ rest -> segs !! li_vreg iv = None /\ spl !! li_vreg iv = None /\
planned splits (li_vreg iv) (li_start iv) (li_end iv) (is_fp_class (li_class iv)) /\
(forall syn x, splits !! syn = Some x -> x.1.1 <> li_vreg iv);
bi_segs : forall v a, segs !! v = Some a -> planned splits v (sg_lo a) (sg_hi a) (sg_fp a);
bi_acct : forall v, v ∈ li_vreg <$> base \/ is_Some (splits !! v) ->
v ∈ li_vreg <$> rest \/ is_Some (segs !! v) \/ is_Some (spl !! v);
bi_split : forall syn orig cp slot, splits !! syn = Some (orig, cp, slot) -> (first <= syn < next)%N /\ split_at orig cp;
bi_inj : forall s1 s2 x y, splits !! s1 = Some x -> splits !! s2 = Some y -> x.1.1 = y.1.1 -> s1 = s2;
bi_pre : forall syn orig cp slot a, splits !! syn = Some (orig, cp, slot) -> segs !! orig = Some a ->
is_callee_saved (sg_reg a) = false;
bi_known : forall v, is_Some (segs !! v) \/ is_Some (spl !! v) \/ v ∈ li_vreg <$> rest -> (v < next)%N;
bi_origin : forall iv, iv ∈ rest -> iv ∈ base \/ (first <= li_vreg iv)%N }.

(** The interval at the head receives a register for its whole range. *)
Lemma book_take spl segs splits iv rest next r :
book_inv spl segs splits (iv :: rest) next -> NoDup (li_vreg <$> iv :: rest) ->
book_inv spl (<[li_vreg iv := {| sg_reg := r; sg_lo := li_start iv; sg_hi := li_end iv;
                   sg_fp := is_fp_class (li_class iv) |}]> segs) splits rest next.
Proof.
intros [H1 H2 H3 H4 H5 H6 H7 H8 H9] Hnd. cbn [fmap list_fmap] in Hnd. apply list.NoDup_cons in Hnd as [Hni _].
destruct (H2 iv) as (Hs & Hp & Hpl & Hno); [left|]. split; try done.
- intros v a [[<- _]|[_ Hv]]%lookup_insert_Some; [done|by eapply H1].
- intros w Hw. destruct (H2 w) as (? & ? & ? & ?); [by right|]. rewrite lookup_insert_ne; [done|].
intros E. apply Hni. rewrite E. by apply list_elem_of_fmap_2.
- intros v a [[<- <-]|[_ Hv]]%lookup_insert_Some; [done|by apply H3].
- intros v Hv. destruct (H4 v Hv) as [[->|?]%elem_of_cons|[?|?]]; [|by left| |by right; right]; right; left.
+ rewrite lookup_insert_eq. done.
+ rewrite lookup_insert_is_Some. destruct (decide (li_vreg iv = v)); [by left|by right].
- intros syn orig cp slot a Hsp [[<- <-]|[_ Ha]]%lookup_insert_Some; [by destruct (Hno _ _ Hsp)|by eapply H7].
- intros v [Hv|Hv]; [|apply H8; destruct Hv as [?|?]; [by right; left|right; right; by right]].
apply lookup_insert_is_Some in Hv as [<-|[_ ?]]; [apply H8; right; right; by left|apply H8; by left].
- intros w Hw. apply H9. by right.
Qed.

(** The interval at the head is spilled. *)
Lemma book_spill spl segs splits iv rest next slot :
book_inv spl segs splits (iv :: rest) next -> NoDup (li_vreg <$> iv :: rest) ->
book_inv (<[li_vreg iv := slot]> spl) segs splits rest next.
Proof.
intros [H1 H2 H3 H4 H5 H6 H7 H8 H9] Hnd. cbn [fmap list_fmap] in Hnd. apply list.NoDup_cons in Hnd as [Hni _].
destruct (H2 iv) as (Hs & Hp & Hpl & Hno); [left|]. split; try done.
- intros v a Hv. rewrite lookup_insert_ne; [by eapply H1|congruence].
- intros w Hw. destruct (H2 w) as (? & ? & ? & ?); [by right|]. rewrite lookup_insert_ne; [done|].
intros E. apply Hni. rewrite E. by apply list_elem_of_fmap_2.
- intros v Hv. destruct (H4 v Hv) as [[->|?]%elem_of_cons|[?|?]]; [|by left|by right; left|]; right; right.
+ rewrite lookup_insert_eq. done.
+ rewrite lookup_insert_is_Some. destruct (decide (li_vreg iv = v)); [by left|by right].
- intros v [Hv|[Hv|Hv]]; [apply H8; by left| |apply H8; right; right; by right].
apply lookup_insert_is_Some in Hv as [<-|[_ ?]]; apply H8; [right; right; by left|by right; left].
- intros w Hw. apply H9. by right.
Qed.

(** A register that had been assigned is spilled instead. *)
Lemma book_victim spl segs splits rest next v a slot :
book_inv spl segs splits rest next -> segs !! v = Some a ->
book_inv (<[v := slot]> spl) (delete v segs) splits rest next.
Proof.
intros [H1 H2 H3 H4 H5 H6 H7 H8 H9] Hv. split; try done.
- intros w b [Hne Hw]%lookup_delete_Some. rewrite lookup_insert_ne by done. by eapply H1.
- intros w Hw. destruct (H2 w Hw) as (? & ? & ? & ?). assert (v <> li_vreg w) by congruence.
rewrite lookup_delete_ne, lookup_insert_ne by done. done.
- intros w b [_ Hw]%lookup_delete_Some. by apply H3.
- intros w Hw. destruct (decide (v = w)) as [<-|Hne]; [right; right; by rewrite lookup_insert_eq|].
rewrite lookup_delete_ne, lookup_insert_ne by done. by apply H4.
- intros syn orig cp z b Hsp [_ Hb]%lookup_delete_Some. by eapply H7.
- intros w [Hw|[Hw|Hw]]; [|destruct (decide (v = w)) as [<-|Hne]|]; apply H8.
+ left. destruct Hw as [b [_ Hb]%lookup_delete_Some]. eauto.
+ left. eauto.
+ rewrite lookup_insert_ne in Hw by done. by right; left.
+ by right; right.
Qed.

(** Ranges of the other registers are not affected by a split. *)
Lemma planned_mono splits syn v cp slot u lo hi fp :
splits !! syn = None -> u <> v ->
planned splits u lo hi fp -> planned (<[syn := (v, cp, slot)]> splits) u lo hi fp.
Proof.
intros Hsyn Hne [iv Hiv <- Hno|iv s' c' z' Hiv <- Hs|iv c' z' Hiv Hs].
- apply plan_whole; [done..|]. intros s' x [[<- <-]|[_ Hx]]%lookup_insert_Some; [done|by eapply Hno].
- eapply (plan_pre _ _ _ s' c' z'); [done..|]. rewrite lookup_insert_ne; congruence.
- eapply (plan_post _ _ _ c' z'); [done|]. rewrite lookup_insert_ne; congruence.
Qed.

Definition post_half (syn : VRegId) (cp : N) (iv : LiveInterval) : LiveInterval :=
{| li_vreg := syn; li_class := li_class iv; li_start := N.min (cp + 1) u32_max; li_end := li_end iv; li_hint := None |}.

Lemma book_split spl segs splits iv rest next cp slot r rest' :
book_inv spl segs splits (iv :: rest) next -> NoDup (li_vreg <$> iv :: rest) ->
iv ∈ base -> (first <= next)%N -> (forall w, w ∈ base -> (li_vreg w < first)%N) ->
single_call cx iv = Some cp -> split_ok cx iv = true -> (li_start iv < cp < li_end iv)%N -> (li_end iv <= u32_max)%N ->
is_callee_saved r = false -> rest' ≡ₚ post_half next cp iv :: rest ->
book_inv spl (<[li_vreg iv := {| sg_reg := r; sg_lo := li_start iv; sg_hi := N.pred cp;
                   sg_fp := is_fp_class (li_class iv) |}]> segs)
(<[next := (li_vreg iv, cp, slot)]> splits) rest' (next + 1).
Proof.
intros [H1 H2 H3 H4 H5 H6 H7 H8 H9] Hnd Hbase Hfirst Hlow Hcall Hok Hin Hmax Hcs Hperm.
cbn [fmap list_fmap] in Hnd. apply list.NoDup_cons in Hnd as [Hni _].
destruct (H2 iv) as (Hs & Hp & Hpl & Hno); [left|].
assert (Hfresh : forall x, is_Some (segs !! x) \/ is_Some (spl !! x) \/ x ∈ li_vreg <$> iv :: rest -> x <> next).
{ intros x Hx. specialize (H8 x Hx). lia. }
assert (Hnone : splits !! next = None).
{ apply eq_None_not_Some. intros [[[o c] z] Hx]. destruct (H5 _ _ _ _ Hx) as [? _]. lia. }
assert (Hivn : li_vreg iv <> next) by (apply Hfresh; right; right; by left).
assert (Hsegn : segs !! next = None) by (apply eq_None_not_Some; intros Hx; by destruct (Hfresh next (or_introl Hx))).
assert (Hspln : spl !! next = None) by (apply eq_None_not_Some; intros Hx; by destruct (Hfresh next (or_intror (or_introl Hx)))).
set (splits' := <[next := (li_vreg iv, cp, slot)]> splits).
assert (Hnew : splits' !! next = Some (li_vreg iv, cp, slot)) by apply lookup_insert_eq. split.
- intros v a [[<- _]|[_ Hv]]%lookup_insert_Some; [done|by eapply H1].
- intros w Hw. rewrite Hperm in Hw. apply elem_of_cons in Hw as [->|Hw]; simpl.
+ rewrite lookup_insert_ne by done. split; [done|]. split; [done|]. split.
* replace (N.min (cp + 1) u32_max) with (cp + 1)%N by (unfold u32_max in *; lia). by eapply plan_post.
* intros syn x [[<- <-]|[_ Hx]]%lookup_insert_Some; simpl; [done|]. destruct x as [[o c] z].
destruct (H5 _ _ _ _ Hx) as [_ (w & Hw & <- & _)]. simpl. specialize (Hlow w Hw). lia.
+ destruct (H2 w) as (? & ? & ? & Hno'); [by right|].
assert (li_vreg w <> li_vreg iv) by (intros E; apply Hni; rewrite <- E; by apply list_elem_of_fmap_2).
rewrite lookup_insert_ne by done. split; [done|]. split; [done|]. split; [by apply planned_mono|].
intros syn x [[<- <-]|[_ Hx]]%lookup_insert_Some; simpl; [done|by eapply Hno'].
- intros v a [[<- <-]|[Hne Hv]]%lookup_insert_Some; simpl; [by eapply plan_pre|]. apply planned_mono; [done|done|by apply H3].
- intros v Hv. assert (Hv' : v = next \/ v ∈ li_vreg <$> base \/ is_Some (splits !! v)).
{ destruct Hv as [?|Hv]; [by right; left|]. apply lookup_insert_is_Some in Hv as [<-|[_ ?]]; [by left|by right; right]. }
rewrite Hperm. cbn [fmap list_fmap]. rewrite elem_of_cons.
destruct Hv' as [->|Hv']; [by left; left|]. destruct (H4 v Hv') as [[->|?]%elem_of_cons|[?|?]];
[|by left; right| |by right; right]; right; left; rewrite lookup_insert_is_Some; [by left|].
destruct (decide (li_vreg iv = v)); [by left|by right].
- intros syn o c z [[<- [= <- <- <-]]|[_ Hx]]%lookup_insert_Some.
+ split; [lia|]. exists iv. done.
+ destruct (H5 _ _ _ _ Hx) as [? ?]. split; [lia|done].
- intros s1 s2 x y [[<- <-]|[? Hx]]%lookup_insert_Some [[<- <-]|[? Hy]]%lookup_insert_Some E; simpl in *; [done| | |by eapply H6].
+ by destruct (Hno _ _ Hy).
+ by destruct (Hno _ _ Hx).
- intros syn o c z a [[<- [= <- <- <-]]|[_ Hx]]%lookup_insert_Some [[Hva <-]|[Hne Ha]]%lookup_insert_Some; simpl; try done.
by eapply H7.
- intros v [Hv|[Hv|Hv]]; [apply lookup_insert_is_Some in Hv as [<-|[_ Hv]]| |].
+ enough (li_vreg iv < next)%N by lia. apply H8. right. right. by left.
+ enough (v < next)%N by lia. apply H8. by left.
+ enough (v < next)%N by lia. apply H8. by right; left.
+ rewrite Hperm in Hv. cbn [fmap list_fmap] in Hv. apply elem_of_cons in Hv as [->|Hv]; simpl; [lia|].
enough (v < next)%N by lia. apply H8. right. right. by right.
- intros w Hw. rewrite Hperm in Hw. apply elem_of_cons in Hw as [->|Hw]; [by right|]. apply H9. by right.
Qed.

End book.

(** * Slots and the worklist *)

Section queue.
Context (cx : scan_ctx).
Implicit Types (rest : list LiveInterval).

(** How many intervals of the worklist could still be split. *)
Definition splittable rest : nat := length (filter (fun iv => is_Some (cx_ref_blocks cx !! li_vreg iv)) rest).

Record queue_inv rest (next : N) (slots : nat) : Prop := {
qi_sorted : StronglySorted (fun a b => interval_le a b = true) rest;
qi_nodup : NoDup (li_vreg <$> rest);
qi_bounds : forall iv, iv ∈ rest -> (li_start iv <= li_end iv <= u32_max)%N;
qi_vregs : (next + N.of_nat (splittable rest) < 2 ^ 32)%N;
qi_slots : (Z.of_nat (slots + length rest + splittable rest + 5) < 2 ^ 31)%Z }.

Lemma splittable_cons iv rest : (splittable rest <= splittable (iv :: rest) <= S (splittable rest))%nat.
Proof. unfold splittable. rewrite filter_cons. case_decide; simpl; lia. Qed.

Lemma queue_pop iv rest next slots slots' :
queue_inv (iv :: rest) next slots -> (slots <= slots' <= S slots)%nat -> queue_inv rest next slots'.
Proof.
intros [H1 H2 H3 H4 H5] Hs. pose proof (splittable_cons iv rest). split.
- by apply StronglySorted_inv in H1 as [? _].
- cbn [fmap list_fmap] in H2. by apply list.NoDup_cons in H2 as [_ ?].
- intros w Hw. apply H3. by right.
- lia.
- simpl in H5. lia.
Qed.

Lemma queue_head_le iv rest next slots w :
queue_inv (iv :: rest) next slots -> w ∈ rest -> (li_start iv <= li_start w)%N.
Proof.
intros [H _ _ _ _] Hw. apply StronglySorted_inv in H as [_ H]. rewrite list.Forall_forall in H. specialize (H w Hw).
unfold interval_le in H. apply orb_true_iff in H as [H|[H _]%andb_prop]; [apply N.ltb_lt in H|apply N.eqb_eq in H]; lia.
Qed.

Lemma queue_split iv rest next slots cp :
queue_inv (iv :: rest) next slots -> is_Some (cx_ref_blocks cx !! li_vreg iv) -> cx_ref_blocks cx !! next = None ->
next ∉ li_vreg <$> rest -> (li_start iv < cp < li_end iv)%N ->
queue_inv (insert_after (fun w => interval_le w (post_half next cp iv)) (post_half next cp iv) rest) (next + 1) (S slots).
Proof.
intros Hq Hsome Hnone Hni Hcp. pose proof (queue_pop iv rest next slots slots Hq ltac:(lia)) as [H1 H2 H3 H4 H5].
destruct Hq as [_ _ Hb Hv Hsl]. set (post := post_half next cp iv).
assert (Hperm : insert_after (fun w => interval_le w post) post rest ≡ₚ post :: rest) by apply insert_after_perm.
assert (Hsp : splittable (iv :: rest) = S (splittable rest)).
{ unfold splittable. rewrite filter_cons, decide_True by done. done. }
assert (Hsp' : splittable (insert_after (fun w => interval_le w post) post rest) = splittable rest).
{ unfold splittable. rewrite Hperm, filter_cons, decide_False; [done|]. simpl. rewrite Hnone. by intros [? ?]. }
specialize (Hb iv ltac:(left)). split.
- apply insert_after_sorted; [intros a b c; apply interval_le_trans|done|intros y; apply interval_le_total|done].
- rewrite Hperm. cbn [fmap list_fmap]. by constructor.
- intros w Hw. rewrite Hperm in Hw. apply elem_of_cons in Hw as [->|Hw]; [|by apply H3]. simpl. unfold u32_max in *. lia.
- rewrite Hsp'. lia.
- rewrite Hsp', Hperm. simpl in *. lia.
Qed.

End queue.

Section slots.
Context (n0 : nat).
Implicit Types (spl : gmap VRegId Z) (splits : split_map).

(** Slots given out by the scan: all fresh, no two alike. *)
Record slot_inv (slots : nat) spl splits : Prop := {
sl_spill : forall v z, spl !! v = Some z -> (Z.of_nat n0 <= z < Z.of_nat slots)%Z;
sl_split : forall v o c z, splits !! v = Some (o, c, z) -> (Z.of_nat n0 <= z < Z.of_nat slots)%Z;
sl_spill_inj : forall v w z, spl !! v = Some z -> spl !! w = Some z -> v = w;
sl_split_inj : forall v w x y, splits !! v = Some x -> splits !! w = Some y -> x.2 = y.2 -> v = w;
sl_cross : forall v w z x, spl !! v = Some z -> splits !! w = Some x -> x.2 <> z }.

Lemma slots_spill slots spl splits v :
(n0 <= slots)%nat -> slot_inv slots spl splits -> slot_inv (S slots) (<[v := Z.of_nat slots]> spl) splits.
Proof.
intros Hn [H1 H2 H3 H4 H5]. split; try done.
- intros w z [[<- <-]|[_ Hw]]%lookup_insert_Some; [lia|]. specialize (H1 w z Hw). lia.
- intros w o c z Hw. specialize (H2 _ _ _ _ Hw). lia.
- intros u w z [[<- <-]|[_ Hu]]%lookup_insert_Some [[<- Hz]|[_ Hw]]%lookup_insert_Some; try done; [| |by eapply H3].
+ specialize (H1 _ _ Hw). lia.
+ specialize (H1 _ _ Hu). lia.
- intros u w z [[o c] z'] [[<- <-]|[_ Hu]]%lookup_insert_Some Hw; [|by eapply H5]. specialize (H2 _ _ _ _ Hw). simpl. lia.
Qed.

Lemma slots_split slots spl splits v o c :
(n0 <= slots)%nat -> slot_inv slots spl splits -> slot_inv (S slots) spl (<[v := (o, c, Z.of_nat slots)]> splits).
Proof.
intros Hn [H1 H2 H3 H4 H5]. split; try done.
- intros w z Hw. specialize (H1 w z Hw). lia.
- intros w o' c' z [[<- [= <- <- <-]]|[_ Hw]]%lookup_insert_Some; [lia|]. specialize (H2 _ _ _ _ Hw). lia.
- intros u w [[o1 c1] z1] [[o2 c2] z2] [[<- [= <- <- <-]]|[_ Hu]]%lookup_insert_Some [[<- [= <- <- <-]]|[_ Hw]]%lookup_insert_Some E;
simpl in E; try done; [| |by eapply H4].
+ specialize (H2 _ _ _ _ Hw). lia.
+ specialize (H2 _ _ _ _ Hu). lia.
- intros u w z x Hu [[<- <-]|[_ Hw]]%lookup_insert_Some; [|by eapply H5]. specialize (H1 _ _ Hu). simpl. lia.
Qed.

End slots.

(** * One step *)

(** The scan after expiry, as the rest of the step sees it. *)
Definition expired (sc : scan) (fp : bool) (pos : N) : scan :=
  let '(a, fr) := expire_intervals (active_of fp sc) (free_of fp sc) pos in
  update_scan sc fp a fr (sc_f sc) (sc_assignments sc) (sc_spills sc) (sc_callee_saved sc) (sc_splits sc).

(** What a step does with an interval, as a relation; the free and active lists are
    those after expiry. *)
Inductive scan_action (cx : scan_ctx) (sc : scan) (iv : LiveInterval) (rest : list LiveInterval) :
    scan -> list LiveInterval -> Prop :=
| act_take i r :
    free_of (is_fp_class (li_class iv)) sc !! i = Some r ->
    phys_free_over (cx_occ cx) r (li_start iv) (li_end iv) = true ->
    scan_action cx sc iv rest
      (take_free sc (is_fp_class (li_class iv)) (active_of (is_fp_class (li_class iv)) sc)
         (free_of (is_fp_class (li_class iv)) sc) iv i r) rest
| act_split cp i r sc' post :
    single_call cx iv = Some cp -> split_ok cx iv = true ->
    free_of (is_fp_class (li_class iv)) sc !! i = Some r -> is_callee_saved r = false ->
    phys_free_over (cx_occ cx) r (li_start iv) (N.pred cp) = true ->
    take_split sc (is_fp_class (li_class iv)) (active_of (is_fp_class (li_class iv)) sc)
      (free_of (is_fp_class (li_class iv)) sc) iv cp i r = (sc', post) ->
    scan_action cx sc iv rest sc' (insert_after (fun w => interval_le w post) post rest)
| act_evict vidx e :
    active_of (is_fp_class (li_class iv)) sc !! vidx = Some e ->
    phys_free_over (cx_occ cx) (entry_reg e) (li_start iv) (li_end iv) = true -> (li_end iv < entry_end e)%N ->
    scan_action cx sc iv rest
      (evict cx sc (is_fp_class (li_class iv)) (active_of (is_fp_class (li_class iv)) sc)
         (free_of (is_fp_class (li_class iv)) sc) iv vidx e) rest
| act_spill :
    scan_action cx sc iv rest
      (spill_interval sc (is_fp_class (li_class iv)) (active_of (is_fp_class (li_class iv)) sc)
         (free_of (is_fp_class (li_class iv)) sc) iv) rest.

Lemma active_of_update sc fp a fr f g sp cs spl c :
  active_of c (update_scan sc fp a fr f g sp cs spl) = upd (fun c => active_of c sc) fp a c.
Proof. by destruct c, fp. Qed.

Lemma free_of_update sc fp a fr f g sp cs spl c :
  free_of c (update_scan sc fp a fr f g sp cs spl) = upd (fun c => free_of c sc) fp fr c.
Proof. by destruct c, fp. Qed.

Lemma pick_free_clear cx free iv i r :
  pick_free cx free iv = Some i -> free !! i = Some r -> phys_free_over (cx_occ cx) r (li_start iv) (li_end iv) = true.
Proof.
  unfold pick_free. intros H Hr. destruct (li_hint iv) as [hr|]; simpl in H.
  - destruct (position (fun r => bool_decide (r = hr)) free) as [j|] eqn:E; simpl in H.
    + destruct (phys_free_over (cx_occ cx) hr _ _) eqn:Ec.
      * injection H as <-. apply position_Some in E as (x & Hx & Hxr). apply bool_decide_eq_true in Hxr. congruence.
      * apply position_Some in H as (x & Hx & ?). congruence.
    + apply position_Some in H as (x & Hx & ?). congruence.
  - apply position_Some in H as (x & Hx & ?). congruence.
Qed.

Lemma pick_victim_spec cx active iv vidx e :
  pick_victim cx active iv = Some (vidx, e) ->
  active !! vidx = Some e /\ phys_free_over (cx_occ cx) (entry_reg e) (li_start iv) (li_end iv) = true.
Proof.
  intros [Hin _]%max_by_key_Some. apply list_elem_of_filter in Hin as [Hc Hin].
  apply elem_of_zip_seq in Hin as [_ Hin]. by rewrite Nat.sub_0_r in Hin.
Qed.

(** The operations of a step replace the lists of the class they are given, so it
    does not matter whether the old lists are still there. *)
Section stale.
Context (sc : scan) (fp : bool) (a : list active_entry) (fr : list X86Reg).
Local Abbreviation sc0 :=
(update_scan sc fp a fr (sc_f sc) (sc_assignments sc) (sc_spills sc) (sc_callee_saved sc) (sc_splits sc)).

Lemma update_stale A F f g s1 s2 s3 : update_scan sc fp A F f g s1 s2 s3 = update_scan sc0 fp A F f g s1 s2 s3.
Proof. unfold update_scan. by destruct fp. Qed.

Lemma take_free_stale A F iv i r : take_free sc fp A F iv i r = take_free sc0 fp A F iv i r.
Proof. apply update_stale. Qed.

Lemma take_split_stale A F iv cp i r : take_split sc fp A F iv cp i r = take_split sc0 fp A F iv cp i r.
Proof.
unfold take_split. cbn [sc_f update_scan sc_assignments sc_spills sc_callee_saved sc_splits].
destruct (spill_slot_size (li_class iv)) as [sz al]. destruct (alloc_frame_slot (sc_f sc) sz al) as [slot f1].
destruct (new_vreg f1 (li_class iv)) as [v f2]. by rewrite update_stale.
Qed.

Lemma spill_stale A F iv : spill_interval sc fp A F iv = spill_interval sc0 fp A F iv.
Proof.
unfold spill_interval. cbn [sc_f update_scan]. destruct (spill_slot_size _) as [sz al].
destruct (alloc_frame_slot (sc_f sc) sz al) as [slot f1]. apply update_stale.
Qed.

Lemma evict_stale cx A F iv k e : evict cx sc fp A F iv k e = evict cx sc0 fp A F iv k e.
Proof.
unfold evict. cbn [sc_f update_scan]. destruct (spill_slot_size _) as [sz al].
destruct (alloc_frame_slot (sc_f sc) sz al) as [slot f1]. apply update_stale.
Qed.

End stale.

Lemma scan_step_action cx sc iv rest sc' rest' :
  scan_step cx sc iv rest = (sc', rest') ->
  scan_action cx (expired sc (is_fp_class (li_class iv)) (li_start iv)) iv rest sc' rest'.
Proof.
  unfold scan_step, expired. set (fp := is_fp_class (li_class iv)).
  destruct (expire_intervals (active_of fp sc) (free_of fp sc) (li_start iv)) as [active free].
  unfold evict_or_spill.
  set (sc0 := update_scan sc fp active free (sc_f sc) (sc_assignments sc) (sc_spills sc) (sc_callee_saved sc) (sc_splits sc)).
  assert (Ha : active_of fp sc0 = active) by (unfold sc0; by rewrite active_of_update, upd_eq).
  assert (Hf : free_of fp sc0 = free) by (unfold sc0; by rewrite free_of_update, upd_eq).
  assert (Hspill : scan_action cx sc0 iv rest (spill_interval sc fp active free iv) rest).
  { rewrite (spill_stale sc fp active free). pose proof (act_spill cx sc0 iv rest) as H. fold fp in H. by rewrite Ha, Hf in H. }
  destruct (pick_free cx free iv ≫= fun i => pair i <$> free !! i) as [[i r]|] eqn:Ep.
  { intros [= <- <-]. apply bind_Some in Ep as (j & Hj & Hr). apply fmap_Some in Hr as (x & Hx & [= -> ->]).
    rewrite (take_free_stale sc fp active free). pose proof (act_take cx sc0 iv rest j x) as H. fold fp in H. rewrite Ha, Hf in H.
    apply H; [done|by eapply pick_free_clear]. }
  match goal with |- context [match ?x with Some _ => _ | None => (match pick_victim _ _ _ with _ => _ end, _) end] =>
    destruct x as [[[cp i] r]|] eqn:Es end.
  - destruct (single_call cx iv) as [cp'|] eqn:Ec; [|done]. destruct (split_ok cx iv) eqn:Eo; [|done].
    apply bind_Some in Es as (j & Hj & Es). apply bind_Some in Es as (x & Hx & [= -> -> ->]).
    destruct (position_Some _ _ _ Hj) as (y & Hy & Hc). rewrite Hx in Hy. injection Hy as <-.
    apply andb_prop in Hc as [Hcs Hc]. apply negb_true_iff in Hcs.
    rewrite (take_split_stale sc fp active free). fold sc0.
    destruct (take_split sc0 fp active free iv cp i r) as [s' post] eqn:Et. intros [= <- <-].
    pose proof (act_split cx sc0 iv rest cp i r s' post Ec Eo) as H. fold fp in H. rewrite Ha, Hf in H. by apply H.
  - intros [= <- <-]. destruct (pick_victim cx active iv) as [[vidx e]|] eqn:Ev; [|done].
    destruct (pick_victim_spec _ _ _ _ _ Ev) as [Hv Hc]. destruct (li_end iv <? entry_end e)%N eqn:El; [|done].
    apply N.ltb_lt in El. rewrite (evict_stale sc fp active free).
    pose proof (act_evict cx sc0 iv rest vidx e) as H. fold fp in H. rewrite Ha, Hf in H. by apply H.
Qed.

(** * The invariant of the scan *)

(** The scan only appends frame slots and draws register names. *)
Record frame_grown (f g : X86Function) : Prop := {
  fg_name : xf_name g = xf_name f;
  fg_blocks : xf_blocks g = xf_blocks f;
  fg_args : outgoing_arg_bytes g = outgoing_arg_bytes f;
  fg_pool : rodata g = rodata f /\ rodata_bytes g = rodata_bytes f;
  fg_slots : exists extra, frame_slots g = frame_slots f ++ extra }.

(** Slot identifiers are indices. *)
Definition slots_numbered (l : list X86FrameSlot) : Prop := forall k s, l !! k = Some s -> fs_id s = Z.of_nat k.

Section invariant.
Context (cx : scan_ctx) (base : list LiveInterval) (f : X86Function).
Local Abbreviation first := (next_vreg f).
Context (Hlow : forall w, w ∈ base -> (li_vreg w < first)%N).
Context (Hrefs : forall v, is_Some (cx_ref_blocks cx !! v) -> (v < first)%N).
Context (Hcls : forall w, w ∈ base -> cx_class cx !! li_vreg w = Some (li_class w)).
Context (Huniq : forall a b, a ∈ base -> b ∈ base -> li_vreg a = li_vreg b -> a = b).

(** The slot of a register has the size and alignment of its class. *)
Definition slot_fits (l : list X86FrameSlot) (z : Z) (c : X86RegClass) : Prop :=
exists s, l !! Z.to_nat z = Some s /\ (fs_size s, fs_align s) = spill_slot_size c.

Record scan_inv (sc : scan) (rest : list LiveInterval) (segs : gmap VRegId seg) : Prop := {
sv_regs : regs_inv (cx_occ cx) (sc_assignments sc) (fun fp => active_of fp sc) (fun fp => free_of fp sc) rest segs;
sv_book : book_inv cx base first (sc_spills sc) segs (sc_splits sc) rest (next_vreg (sc_f sc));
sv_queue : queue_inv cx rest (next_vreg (sc_f sc)) (length (frame_slots (sc_f sc)));
sv_slots : slot_inv (length (frame_slots f)) (length (frame_slots (sc_f sc))) (sc_spills sc) (sc_splits sc);
sv_first : (first <= next_vreg (sc_f sc))%N;
sv_frame : frame_grown f (sc_f sc);
sv_numbered : slots_numbered (frame_slots (sc_f sc));
sv_fits_spill : forall w z, w ∈ base -> sc_spills sc !! li_vreg w = Some z -> slot_fits (frame_slots (sc_f sc)) z (li_class w);
sv_fits_split : forall w syn cp z, w ∈ base -> sc_splits sc !! syn = Some (li_vreg w, cp, z) ->
slot_fits (frame_slots (sc_f sc)) z (li_class w);
sv_saved : forall v a, segs !! v = Some a -> is_callee_saved (sg_reg a) = true -> sg_reg a ∈ sc_callee_saved sc;
sv_only_saved : forall r, r ∈ sc_callee_saved sc -> is_callee_saved r = true }.

(** What [alloc_frame_slot] does while identifiers last. *)
Lemma alloc_frame_slot_spec g sz al slot g' :
alloc_frame_slot g sz al = (slot, g') -> (Z.of_nat (length (frame_slots g)) < 2 ^ 31)%Z ->
slot = Z.of_nat (length (frame_slots g)) /\
frame_slots g' = frame_slots g ++ [{| fs_id := slot; fs_size := sz; fs_align := al |}] /\
next_vreg g' = next_vreg g /\ frame_grown g g'.
Proof.
unfold alloc_frame_slot. intros [= <- <-] H. rewrite swrap_id by (unfold srange; lia). simpl.
repeat split; try done. by exists [{| fs_id := Z.of_nat (length (frame_slots g)); fs_size := sz; fs_align := al |}].
Qed.

Lemma frame_grown_trans a b c : frame_grown a b -> frame_grown b c -> frame_grown a c.
Proof.
intros [A1 A2 A3 [A4 A5] [e A6]] [B1 B2 B3 [B4 B5] [e' B6]]. split; [congruence..|by rewrite B4, B5|]. exists (e ++ e'). by rewrite B6, A6, (assoc_L (++)).
Qed.

Lemma frame_grown_len a b : frame_grown a b -> (length (frame_slots a) <= length (frame_slots b))%nat.
Proof. intros [_ _ _ _ [e ->]]. rewrite length_app. lia. Qed.

Lemma slot_fits_app l l' z c : slot_fits l z c -> slot_fits (l ++ l') z c.
Proof. intros (s & Hs & E). exists s. split; [by apply lookup_app_l_Some|done]. Qed.

Lemma slot_fits_new l z sz al c :
(sz, al) = spill_slot_size c -> z = Z.of_nat (length l) -> slot_fits (l ++ [{| fs_id := z; fs_size := sz; fs_align := al |}]) z c.
Proof. intros E ->. eexists. rewrite Nat2Z.id. split; [by rewrite lookup_app_r, Nat.sub_diag by lia|done]. Qed.

Lemma slots_numbered_snoc l z sz al :
slots_numbered l -> z = Z.of_nat (length l) -> slots_numbered (l ++ [{| fs_id := z; fs_size := sz; fs_align := al |}]).
Proof.
intros H -> k s [Hk|[Hk Hs]]%lookup_app_Some; [by apply H|]. apply list_lookup_singleton_Some in Hs as [E <-]. simpl. f_equal. lia.
Qed.

(** Before anything is assigned. *)
Lemma init_scan_inv :
(forall a b, a ∈ base -> b ∈ base -> li_vreg a = li_vreg b -> a = b) ->
queue_inv cx base first (length (frame_slots f)) -> slots_numbered (frame_slots f) ->
scan_inv (init_scan f) base ∅.
Proof.
intros _ Hq Hn. split; simpl; try done.
- split; simpl; try done.
+ by intros [].
+ intros [] e He; by apply elem_of_nil in He.
- split; simpl; try done.
+ intros iv Hiv. split; [done|]. split; [done|]. split; [by apply plan_whole|done].
+ intros v [?|[? ?]]; [by left|done].
+ intros v [[? ?]|[[? ?]|Hv]]; [done|done|]. apply list_elem_of_fmap in Hv as (w & -> & Hw). by apply Hlow.
+ by left.
- split; try done. exists []. by rewrite app_nil_r.
Qed.

Lemma expired_inv sc iv rest segs :
scan_inv sc (iv :: rest) segs ->
scan_inv (expired sc (is_fp_class (li_class iv)) (li_start iv)) (iv :: rest) segs.
Proof.
intros H. unfold expired. set (fp := is_fp_class (li_class iv)).
destruct (expire_intervals (active_of fp sc) (free_of fp sc) (li_start iv)) as [a fr] eqn:E.
pose proof (regs_expire (cx_occ cx) _ (fun fp => active_of fp sc) (fun fp => free_of fp sc) iv rest segs fp a fr (sv_regs _ _ _ H)) as Hr.
destruct H. split; simpl; try done.
eapply regs_inv_weaken; [apply Hr; [|exact E]| | |done].
- intros w. by eapply queue_head_le.
- intros c. by rewrite active_of_update.
- intros c. by rewrite free_of_update.
Qed.

Lemma regs_inv_update sc fp a fr g asg sp cs spl rest segs :
regs_inv (cx_occ cx) asg (upd (fun c => active_of c sc) fp a) (upd (fun c => free_of c sc) fp fr) rest segs ->
regs_inv (cx_occ cx) asg (fun c => active_of c (update_scan sc fp a fr g asg sp cs spl))
(fun c => free_of c (update_scan sc fp a fr g asg sp cs spl)) rest segs.
Proof.
intros H. eapply regs_inv_weaken; [exact H| | |done]; intros c; [by rewrite active_of_update|by rewrite free_of_update].
Qed.

Lemma note_saved (segs : gmap VRegId seg) cs v a :
(forall w b, segs !! w = Some b -> is_callee_saved (sg_reg b) = true -> sg_reg b ∈ cs) ->
forall w b, <[v := a]> segs !! w = Some b -> is_callee_saved (sg_reg b) = true -> sg_reg b ∈ note_callee_saved (sg_reg a) cs.
Proof.
intros H w b [[<- <-]|[_ Hb]]%lookup_insert_Some Hs; unfold note_callee_saved; [rewrite Hs; set_solver|].
specialize (H w b Hb Hs). destruct (is_callee_saved (sg_reg a)); set_solver.
Qed.

Lemma note_only_saved r cs :
(forall x, x ∈ cs -> is_callee_saved x = true) -> forall x, x ∈ note_callee_saved r cs -> is_callee_saved x = true.
Proof.
intros H x. unfold note_callee_saved. destruct (is_callee_saved r) eqn:E; [|apply H]. rewrite elem_of_union, elem_of_singleton.
intros [->|?]; [done|by apply H].
Qed.

Lemma queue_head sc iv rest segs :
scan_inv sc (iv :: rest) segs -> NoDup (li_vreg <$> iv :: rest) /\ (li_start iv <= li_end iv <= u32_max)%N /\
(forall w, w ∈ rest -> li_vreg w <> li_vreg iv) /\ (Z.of_nat (length (frame_slots (sc_f sc))) < 2 ^ 31)%Z.
Proof.
intros H. destruct (sv_queue _ _ _ H) as [_ Hnd Hb _ Hs]. split; [done|]. split; [apply Hb; left|]. split; [|simpl in Hs; lia].
intros w Hw E. cbn [fmap list_fmap] in Hnd. apply list.NoDup_cons in Hnd as [Hn _]. apply Hn. rewrite <- E. by apply list_elem_of_fmap_2.
Qed.

Lemma take_inv sc iv rest segs i r :
scan_inv sc (iv :: rest) segs ->
free_of (is_fp_class (li_class iv)) sc !! i = Some r ->
phys_free_over (cx_occ cx) r (li_start iv) (li_end iv) = true ->
exists segs', scan_inv (take_free sc (is_fp_class (li_class iv)) (active_of (is_fp_class (li_class iv)) sc)
            (free_of (is_fp_class (li_class iv)) sc) iv i r) rest segs'.
Proof.
intros H Hi Hc. destruct (queue_head _ _ _ _ H) as (Hnd & Hb & Hne & _). eexists.
pose proof (regs_assign (cx_occ cx) _ _ _ iv rest segs _ i r (li_end iv) rest
(push_active (active_of (is_fp_class (li_class iv)) sc) (r, li_end iv, li_vreg iv)) (sv_regs _ _ _ H) Hi Hc) as Hr.
pose proof (book_take cx base first _ _ _ iv rest _ r (sv_book _ _ _ H) Hnd) as Hk. destruct H. split; simpl; try done.
- apply regs_inv_update. apply Hr; [lia|by eauto|apply sort_by_key_perm].
- eapply queue_pop; [done|lia].
- by apply (note_saved segs _ (li_vreg iv) {| sg_reg := r; sg_lo := li_start iv; sg_hi := li_end iv; sg_fp := is_fp_class (li_class iv) |}).
- by apply note_only_saved.
Qed.

Lemma spill_inv sc iv rest segs :
scan_inv sc (iv :: rest) segs ->
scan_inv (spill_interval sc (is_fp_class (li_class iv)) (active_of (is_fp_class (li_class iv)) sc)
(free_of (is_fp_class (li_class iv)) sc) iv) rest segs.
Proof.
intros H. destruct (queue_head _ _ _ _ H) as (Hnd & Hb & Hne & Hlen). unfold spill_interval.
destruct (spill_slot_size (li_class iv)) as [sz al] eqn:Esz. destruct (alloc_frame_slot (sc_f sc) sz al) as [slot g] eqn:Eg.
destruct (alloc_frame_slot_spec _ _ _ _ _ Eg Hlen) as (Hslot & Hslots & Hnext & Hgrown).
pose proof (book_spill cx base first _ _ _ iv rest _ slot (sv_book _ _ _ H) Hnd) as Hk. destruct H.
assert (Hl : length (frame_slots g) = S (length (frame_slots (sc_f sc)))) by (rewrite Hslots, length_app; simpl; lia).
pose proof (frame_grown_len _ _ sv_frame0) as Hgl. split; simpl; rewrite ?Hl; try done.
- apply regs_inv_update. eapply regs_inv_weaken; [done| | |by right].
+ intros c. destruct (decide (c = is_fp_class (li_class iv))) as [->|]; [by rewrite upd_eq|by rewrite upd_ne].
+ intros c. destruct (decide (c = is_fp_class (li_class iv))) as [->|]; [by rewrite upd_eq|by rewrite upd_ne].
- by rewrite Hnext.
- rewrite Hnext. eapply queue_pop; [done|lia].
- rewrite Hslot. by apply slots_spill.
- by rewrite Hnext.
- by eapply frame_grown_trans.
- rewrite Hslots. by apply slots_numbered_snoc.
- intros w z Hw [[E <-]|[_ Hz]]%lookup_insert_Some; rewrite Hslots; [|by apply slot_fits_app, sv_fits_spill0].
apply slot_fits_new; [|done]. rewrite <- Esz. f_equal.
destruct (bi_origin _ _ _ _ _ _ _ _ sv_book0 iv ltac:(left)) as [Hiv|Hge]; [by rewrite (Huniq iv w)|].
specialize (Hlow w Hw). lia.
- intros w syn cp z Hw Hsp. rewrite Hslots. by eapply slot_fits_app, sv_fits_split0.
Qed.

Lemma evict_inv sc iv rest segs k e :
scan_inv sc (iv :: rest) segs ->
active_of (is_fp_class (li_class iv)) sc !! k = Some e ->
phys_free_over (cx_occ cx) (entry_reg e) (li_start iv) (li_end iv) = true ->
exists segs', scan_inv (evict cx sc (is_fp_class (li_class iv)) (active_of (is_fp_class (li_class iv)) sc)
            (free_of (is_fp_class (li_class iv)) sc) iv k e) rest segs'.
Proof.
set (fp := is_fp_class (li_class iv)). intros H Hk Hc. destruct (queue_head _ _ _ _ H) as (Hnd & Hb & Hne & Hlen). unfold evict.
destruct (spill_slot_size (default Gp64 (cx_class cx !! entry_vreg e))) as [sz al] eqn:Esz.
destruct (alloc_frame_slot (sc_f sc) sz al) as [slot g] eqn:Eg.
destruct (alloc_frame_slot_spec _ _ _ _ _ Eg Hlen) as (Hslot & Hslots & Hnext & Hgrown).
destruct (ri_active _ _ _ _ _ _ (sv_regs _ _ _ H) fp e) as (a & Ha & _); [by eapply list_elem_of_lookup_2|].
pose proof (regs_release (cx_occ cx) _ _ _ _ _ fp k e (sv_regs _ _ _ H) Hk) as Hrel.
pose proof (regs_assign (cx_occ cx) _ _ _ iv rest _ fp (length (free_of fp sc)) (entry_reg e) (li_end iv) rest
(push_active (delete k (active_of fp sc)) (entry_reg e, li_end iv, li_vreg iv)) Hrel) as Hr.
pose proof (book_victim cx base first _ _ _ _ _ (entry_vreg e) a slot (sv_book _ _ _ H) Ha) as Hv.
pose proof (book_take cx base first _ _ _ iv rest _ (entry_reg e) Hv Hnd) as Hbk. destruct H.
assert (Hl : length (frame_slots g) = S (length (frame_slots (sc_f sc)))) by (rewrite Hslots, length_app; simpl; lia).
pose proof (frame_grown_len _ _ sv_frame0) as Hgl. eexists. split; simpl; rewrite ?Hl, ?Hnext; try done.
- apply regs_inv_update. eapply regs_inv_weaken; [apply Hr| | |done].
+ rewrite upd_eq, lookup_app_r, Nat.sub_diag by lia. done.
+ done.
+ lia.
+ eauto.
+ unfold push_active. rewrite sort_by_key_perm, upd_eq. done.
+ intros c. destruct (decide (c = fp)) as [->|]; [by rewrite !upd_eq|by rewrite !upd_ne].
+ intros c. destruct (decide (c = fp)) as [->|]; [|by rewrite !upd_ne].
rewrite !upd_eq, delete_take_drop, take_app_length, drop_ge, app_nil_r by (rewrite length_app; simpl; lia). done.
- eapply queue_pop; [done|lia].
- rewrite Hslot. by apply slots_spill.
- by eapply frame_grown_trans.
- rewrite Hslots. by apply slots_numbered_snoc.
- intros w z Hw [[E <-]|[_ Hz]]%lookup_insert_Some; rewrite Hslots; [|by apply slot_fits_app, sv_fits_spill0].
apply slot_fits_new; [|done]. rewrite <- Esz, E, (Hcls w Hw). done.
- intros w syn cp z Hw Hsp. rewrite Hslots. by eapply slot_fits_app, sv_fits_split0.
- apply (note_saved (delete (entry_vreg e) segs) _ (li_vreg iv)
{| sg_reg := entry_reg e; sg_lo := li_start iv; sg_hi := li_end iv; sg_fp := fp |}).
intros w b [_ Hw]%lookup_delete_Some. by eapply sv_saved0.
- by apply note_only_saved.
Qed.

Lemma single_call_bounds iv cp :
single_call cx iv = Some cp -> (li_start iv < cp < li_end iv)%N /\ cp ∈ cx_calls cx.
Proof.
unfold single_call, classify_call_crossing.
set (a := partition_point (fun p => p <=? li_start iv)%N (cx_calls cx)).
set (b := partition_point (fun p => p <? li_end iv)%N (cx_calls cx)).
destruct (b - a)%nat as [|[|d]] eqn:E; try done. destruct (cx_calls cx !! a) as [p|] eqn:Ep; [|done]. intros [= ->].
assert (Ha : (cp <=? li_start iv)%N = false) by (by apply (partition_point_stop (fun p => p <=? li_start iv)%N (cx_calls cx))).
assert (Hb : (cp <? li_end iv)%N = true) by (apply (partition_point_prefix (fun p => p <? li_end iv)%N (cx_calls cx) a); [fold b; lia|done]).
apply N.leb_gt in Ha. apply N.ltb_lt in Hb. split; [lia|]. by eapply list_elem_of_lookup_2.
Qed.

Lemma split_ok_ref iv : split_ok cx iv = true -> is_Some (cx_ref_blocks cx !! li_vreg iv).
Proof.
unfold split_ok. destruct (single_call cx iv); [|done]. intros [[_ H]%andb_prop _]%andb_prop.
destruct (cx_ref_blocks cx !! li_vreg iv); done.
Qed.

Lemma split_inv sc iv rest segs cp i r sc' post :
scan_inv sc (iv :: rest) segs -> single_call cx iv = Some cp -> split_ok cx iv = true ->
free_of (is_fp_class (li_class iv)) sc !! i = Some r -> is_callee_saved r = false ->
phys_free_over (cx_occ cx) r (li_start iv) (N.pred cp) = true ->
take_split sc (is_fp_class (li_class iv)) (active_of (is_fp_class (li_class iv)) sc)
(free_of (is_fp_class (li_class iv)) sc) iv cp i r = (sc', post) ->
exists segs', scan_inv sc' (insert_after (fun w => interval_le w post) post rest) segs'.
Proof.
set (fp := is_fp_class (li_class iv)). intros H Hcall Hok Hi Hcs Hc Et.
destruct (queue_head _ _ _ _ H) as (Hnd & Hb & Hne & Hlen). destruct (single_call_bounds _ _ Hcall) as [Hcp _].
pose proof (split_ok_ref _ Hok) as Href. unfold take_split in Et.
destruct (spill_slot_size (li_class iv)) as [sz al] eqn:Esz. destruct (alloc_frame_slot (sc_f sc) sz al) as [slot g] eqn:Eg.
destruct (alloc_frame_slot_spec _ _ _ _ _ Eg Hlen) as (Hslot & Hslots & Hnext & Hgrown).
cbn [new_vreg vr_id] in Et. rewrite Hnext in Et. injection Et as <- <-. fold (post_half (next_vreg (sc_f sc)) cp iv).
assert (Hbase : iv ∈ base).
{ destruct (bi_origin _ _ _ _ _ _ _ _ (sv_book _ _ _ H) iv) as [?|Hge]; [left|done|]. specialize (Hrefs _ Href). lia. }
assert (Hfresh : forall v, is_Some (segs !! v) \/ v ∈ li_vreg <$> rest -> v <> next_vreg (sc_f sc)).
{ intros v Hv. enough (v < next_vreg (sc_f sc))%N by lia. apply (bi_known _ _ _ _ _ _ _ _ (sv_book _ _ _ H)).
destruct Hv as [?|?]; [by left|right; right; by right]. }
assert (Hu : u32 (next_vreg (sc_f sc) + 1) = (next_vreg (sc_f sc) + 1)%N).
{ apply u32_small. pose proof (qi_vregs _ _ _ _ (sv_queue _ _ _ H)) as Hroom. unfold splittable in Hroom.
rewrite filter_cons, decide_True in Hroom by done. simpl in Hroom. lia. }
set (rest' := insert_after _ (post_half (next_vreg (sc_f sc)) cp iv) rest).
assert (Hperm : rest' ≡ₚ post_half (next_vreg (sc_f sc)) cp iv :: rest) by apply insert_after_perm.
pose proof (regs_assign (cx_occ cx) _ _ _ iv rest segs fp i r (N.pred cp) rest'
(push_active (active_of fp sc) (r, N.pred cp, li_vreg iv)) (sv_regs _ _ _ H) Hi Hc) as Hr.
pose proof (book_split cx base first _ _ _ iv rest _ cp slot r rest' (sv_book _ _ _ H) Hnd Hbase (sv_first _ _ _ H)
Hlow Hcall Hok Hcp ltac:(lia) Hcs Hperm) as Hk.
assert (Hq : queue_inv cx rest' (next_vreg (sc_f sc) + 1) (S (length (frame_slots (sc_f sc))))).
{ apply queue_split; [apply H|done| | |done].
- apply eq_None_not_Some. intros Hx. specialize (Hrefs _ Hx). pose proof (sv_first _ _ _ H). lia.
- intros Hx. by apply (Hfresh _ (or_intror Hx)). }
assert (Hivn : li_vreg iv <> next_vreg (sc_f sc)).
{ pose proof (bi_known _ _ _ _ _ _ _ _ (sv_book _ _ _ H) (li_vreg iv)) as Hx. assert (li_vreg iv < next_vreg (sc_f sc))%N; [|lia].
apply Hx. right. right. by left. }
destruct H. assert (Hl : length (frame_slots g) = S (length (frame_slots (sc_f sc)))) by (rewrite Hslots, length_app; simpl; lia).
pose proof (frame_grown_len _ _ sv_frame0) as Hgl. eexists. split; simpl; rewrite ?Hl, ?Hnext, ?Hu; try done.
- apply regs_inv_update. apply Hr; [lia| |apply sort_by_key_perm]. intros w Hw. rewrite Hperm in Hw.
apply elem_of_cons in Hw as [->|Hw]; [|split; [by apply Hne|by left]]. simpl. split; [done|right]. split; [|unfold u32_max in *; lia].
apply eq_None_not_Some. intros Hx. by apply (Hfresh _ (or_introl Hx)).
- rewrite Hslot. by apply slots_split.
- lia.
- eapply frame_grown_trans; [done|]. destruct Hgrown. split; done.
- rewrite Hslots. by apply slots_numbered_snoc.
- intros w z Hw Hz. rewrite Hslots. by apply slot_fits_app, sv_fits_spill0.
- intros w syn c z Hw [[<- [= E <- <-]]|[_ Hx]]%lookup_insert_Some; rewrite Hslots; [|by eapply slot_fits_app, sv_fits_split0].
apply slot_fits_new; [|done]. by rewrite <- (Huniq iv w).
- intros v b [[<- <-]|[_ Hb']]%lookup_insert_Some; simpl; [congruence|]. by eapply sv_saved0.
Qed.

(** ** Steps and the loop *)

Lemma scan_step_inv sc iv rest segs sc' rest' :
scan_inv sc (iv :: rest) segs -> scan_step cx sc iv rest = (sc', rest') -> exists segs', scan_inv sc' rest' segs'.
Proof.
intros H%expired_inv E%scan_step_action. destruct E as [i r Hi Hc|cp i r sc' post Hcall Hok Hi Hcs Hc Et|k e Hk Hc _|].
- by apply take_inv with (segs := segs).
- by eapply split_inv.
- by apply evict_inv with (segs := segs).
- exists segs. by apply spill_inv.
Qed.

(** A split adds an interval that cannot be split again. *)
Lemma scan_step_measure sc iv rest segs sc' rest' :
scan_inv sc (iv :: rest) segs -> scan_step cx sc iv rest = (sc', rest') ->
(length rest' + splittable cx rest' < length (iv :: rest) + splittable cx (iv :: rest))%nat.
Proof.
intros H%expired_inv E%scan_step_action. pose proof (splittable_cons cx iv rest) as Hs.
destruct E as [i r Hi Hc|cp i r sc' post Hcall Hok Hi Hcs Hc Et|k e Hk Hc _|]; simpl; try lia.
pose proof (split_ok_ref _ Hok) as Href. set (sc0 := expired _ _ _) in *.
assert (Hnone : cx_ref_blocks cx !! li_vreg post = None).
{ apply eq_None_not_Some. intros Hx. specialize (Hrefs _ Hx). pose proof (sv_first _ _ _ H).
unfold take_split in Et. destruct (spill_slot_size _) as [sz al]. cbn in Et. injection Et as _ <-. simpl in Hrefs. lia. }
set (rest' := insert_after _ post rest). assert (Hperm : rest' ≡ₚ post :: rest) by apply insert_after_perm.
assert (Hsp : splittable cx rest' = splittable cx rest).
{ unfold splittable. rewrite Hperm, filter_cons, decide_False; [done|]. rewrite Hnone. by intros [? ?]. }
assert (Hsp' : splittable cx (iv :: rest) = S (splittable cx rest)).
{ unfold splittable. rewrite filter_cons, decide_True by done. done. }
rewrite Hsp, Hperm, Hsp'. simpl. lia.
Qed.

Lemma scan_loop_inv fuel sc rest segs :
scan_inv sc rest segs -> (length rest + splittable cx rest <= fuel)%nat ->
exists sc' segs', scan_loop fuel cx sc rest = Some sc' /\ scan_inv sc' [] segs'.
Proof.
revert sc rest segs. induction fuel as [|fuel IH]; intros sc [|iv rest] segs H Hf; simpl; eauto; [simpl in Hf; lia|].
destruct (scan_step cx sc iv rest) as [sc' rest'] eqn:E.
destruct (scan_step_inv _ _ _ _ _ _ H E) as [segs' H']. pose proof (scan_step_measure _ _ _ _ _ _ H E).
apply (IH sc' rest' segs' H'). lia.
Qed.

Lemma splittable_le rest : (splittable cx rest <= length rest)%nat.
Proof. unfold splittable. apply list.length_filter. Qed.

End invariant.
