(* ===== verification/X86AllocSafe.v ===== *)
(** The register allocator is safe: it always returns, every register has a place at
    every position of its interval, two registers that are live at a point never
    share a physical register, and no register is kept in a physical register that
    the code around it refers to. *)

From stdpp Require Import sorting.
From S2P Require Import Prelude BitSet Slices X86Mir X86Liveness X86LinearScan X86AllocInv.
From stdpp Require Import list.

(** * Occupancy *)

Section occupancy_facts.
Local Open Scope N_scope.

Lemma elem_of_dedup_sorted x l : x ∈ dedup_sorted l <-> x ∈ l.
Proof.
induction l as [|y l IH]; simpl; [done|]. rewrite elem_of_cons, <- IH.
destruct (dedup_sorted l) as [|z d]; [rewrite elem_of_cons; done|].
destruct (N.eqb_spec y z) as [->|Hne]; rewrite !elem_of_cons; tauto.
Qed.

Lemma dedup_sorted_sorted l : StronglySorted N.le l -> StronglySorted N.le (dedup_sorted l).
Proof.
induction 1 as [|x l Hs IH Hx]; simpl; [constructor|].
assert (Hd : Forall (N.le x) (dedup_sorted l)).
{ rewrite list.Forall_forall in *. intros y Hy. apply Hx. by apply elem_of_dedup_sorted. }
destruct (dedup_sorted l) as [|z d]; [by repeat constructor|]. destruct (x =? z); [done|by constructor].
Qed.

Lemma sort_by_key_id_sorted l : StronglySorted N.le (sort_by_key id l).
Proof.
eapply sorted_impl; [|apply sort_by_sorted].
- intros a b H. by apply N.leb_le in H.
- intros a b H. apply N.leb_gt in H. apply N.leb_le. unfold id in *. lia.
- intros a b c H1 H2. apply N.leb_le in H1, H2. apply N.leb_le. unfold id in *. lia.
Qed.

(** A register that is clear over a range is not referred to in it. *)
Lemma phys_free_over_spec occ r lo hi ps p :
occ !! r = Some ps -> StronglySorted N.le ps -> phys_free_over occ r lo hi = true -> p ∈ ps -> ~ (lo <= p <= hi).
Proof.
unfold phys_free_over. intros -> Hs Hfree Hp Hin. apply list_elem_of_lookup in Hp as [k Hk].
set (idx := partition_point (fun p => p <? lo) ps) in *.
assert (Hle : (idx <= k)%nat).
{ destruct (decide (k < idx)%nat) as [Hlt|]; [|lia]. apply (partition_point_prefix _ _ _ _ Hlt) in Hk. apply N.ltb_lt in Hk. lia. }
destruct (ps !! idx) as [q|] eqn:Eq; [|apply lookup_ge_None in Eq; apply lookup_lt_Some in Hk; lia].
apply N.ltb_lt in Hfree. enough (q <= p) by lia.
destruct (decide (idx = k)) as [->|Hne]; [rewrite Hk in Eq; injection Eq; lia|].
eapply (sorted_lookup N.le ps idx k); [done..|lia].
Qed.

Lemma marked_spec l occ r p :
p ∈ default [] (foldl mark_inst occ l !! r) <->
p ∈ default [] (occ !! r) \/ exists i, (p, i) ∈ l /\ r ∈ phys_refs i.
Proof.
assert (Hone : forall rs q occ, p ∈ default [] (foldl (fun occ r => mark occ r q) occ rs !! r) <->
p ∈ default [] (occ !! r) \/ (p = q /\ r ∈ rs)).
{ induction rs as [|x rs IH]; intros q o; simpl.
- split; [by left|]. intros [?|[_ Hn]]; [done|by apply elem_of_nil in Hn].
- rewrite IH. unfold mark. rewrite elem_of_cons. destruct (decide (x = r)) as [->|Hne].
+ rewrite lookup_insert_eq. simpl. rewrite elem_of_app, list_elem_of_singleton. tauto.
+ rewrite lookup_insert_ne by done. split; [intros [?|[? ?]]; tauto|]. intros [?|[? [->|?]]]; tauto. }
revert occ. induction l as [|[q i] l IH]; intros occ; simpl.
- split; [by left|]. intros [?|(i & Hn & _)]; [done|by apply elem_of_nil in Hn].
- rewrite IH. unfold mark_inst. simpl. rewrite Hone. split.
+ intros [[?|[-> ?]]|(j & ? & ?)]; [by left| |]; right; [exists i; split; [left|done]|exists j; split; [by right|done]].
+ intros [?|(j & [[= -> ->]|?]%elem_of_cons & ?)]; [by left; left|by left; right|right; eauto].
Qed.

Lemma reserve_mono f l occ occ' r p :
foldl (reserve_entry f) (Some occ) l = Some occ' -> p ∈ default [] (occ !! r) -> p ∈ default [] (occ' !! r).
Proof.
revert occ. induction l as [|x l IH]; intros occ; simpl; [by intros [= ->]|].
destruct (entry_captures f !! x) as [cp|].
- intros H Hp. apply (IH _ H). destruct (decide (x = r)) as [->|Hne]; [|by rewrite lookup_insert_ne].
rewrite lookup_insert_eq. simpl. apply elem_of_app. by left.
- intros H. exfalso. clear IH. induction l as [|y l IHl]; simpl in H; [done|by apply IHl].
Qed.

(** Each physical register an instruction refers to is occupied at its position. *)
Lemma occupancy_spec f occ nb p i r :
build_phys_occupancy f = Some occ -> nb ∈ numbered f -> (p, i) ∈ nb_insts nb -> r ∈ phys_refs i ->
exists ps, occ !! r = Some ps /\ p ∈ ps /\ StronglySorted N.le ps.
Proof.
unfold build_phys_occupancy. destruct (foldl (reserve_entry f) _ _) as [occ0|] eqn:E; [|done]. intros [= <-] Hnb Hi Hr.
assert (Hp : p ∈ default [] (occ0 !! r)).
{ eapply reserve_mono; [done|]. apply marked_spec. right. exists i. split; [|done]. apply list_elem_of_bind. eauto. }
rewrite lookup_fmap. destruct (occ0 !! r) as [ps|]; [|by apply elem_of_nil in Hp]. simpl in *.
eexists. split; [done|]. split; [by apply elem_of_dedup_sorted; rewrite sort_by_key_perm|].
apply dedup_sorted_sorted, sort_by_key_id_sorted.
Qed.

Lemma reserve_total f l occ :
(forall r, r ∈ l -> is_Some (entry_captures f !! r)) -> is_Some (foldl (reserve_entry f) (Some occ) l).
Proof.
revert occ. induction l as [|x l IH]; intros occ Hl; simpl; [done|].
destruct (Hl x ltac:(left)) as [cp ->]. apply IH. intros r Hr. apply Hl. by right.
Qed.

(** A capture is an instruction of the entry block that names the register. *)
Lemma capture_source f nb r p :
numbered f !! 0%nat = Some nb -> entry_captures f !! r = Some p -> exists i, (p, i) ∈ nb_insts nb /\ Reg r ∈ x_operands i.
Proof.
unfold entry_captures. destruct (numbered f) as [|n0 ns]; [done|]. intros [= ->].
assert (Hone : forall ops q (m : gmap X86Reg N), foldl (fun m op => match op with
| Reg r => if bool_decide (r ∈ entry_live_ins f) then match m !! r with Some _ => m | None => <[r := q]> m end else m
| _ => m end) m ops !! r = Some p -> m !! r = Some p \/ (p = q /\ Reg r ∈ ops)).
{ intros ops q. induction ops as [|op ops IH]; intros m; [by left|]. cbn [foldl]. intros H. apply IH in H as [H|[-> H]]; [|right; split; [done|by right]].
destruct op as [|x| | | | | | |]; try (by left). case_bool_decide; [|by left]. destruct (m !! x) eqn:Ex; [by left|].
apply lookup_insert_Some in H as [[-> ->]|[_ H]]; [right; split; [done|left]|by left]. }
assert (Hall : forall l m, foldl (capture_inst (entry_live_ins f)) m l !! r = Some p -> m !! r = Some p \/ exists i, (p, i) ∈ l /\ Reg r ∈ x_operands i).
{ induction l as [|[q i] l IH]; intros m; [by left|]. cbn [foldl]. intros H. apply IH in H as [H|(j & Hj & Hr)].
- unfold capture_inst in H. cbn [fst snd] in H. apply Hone in H as [H|[-> Hr]]; [by left|]. right. exists i. split; [left|done].
- right. exists j. split; [by right|done]. }
intros [H|H]%Hall; [by rewrite lookup_empty in H|done].
Qed.

Lemma even_position cp k : 2 * N.of_nat k <= cp -> 2 * N.of_nat k ∈ even_positions cp.
Proof.
intros H. unfold even_positions. apply list_elem_of_fmap. exists k. split; [done|]. apply elem_of_seq. split; [lia|].
pose proof (N.Div0.div_le_mono (2 * N.of_nat k) cp 2 H) as Hd. rewrite N.mul_comm, N.div_mul in Hd by done. lia.
Qed.

Lemma reserve_spec f l occ occ' r cp p :
foldl (reserve_entry f) (Some occ) l = Some occ' -> r ∈ l -> entry_captures f !! r = Some cp -> p ∈ even_positions cp -> p ∈ default [] (occ' !! r).
Proof.
revert occ. induction l as [|x l IH]; intros occ H Hr Hc Hp; [by apply elem_of_nil in Hr|]. cbn [foldl] in H.
apply elem_of_cons in Hr as [<-|Hr].
- unfold reserve_entry at 2 in H. rewrite Hc in H. eapply reserve_mono; [exact H|]. rewrite lookup_insert_eq. simpl. apply elem_of_app. by right.
- destruct (reserve_entry f (Some occ) x) as [occ1|] eqn:E; [by apply (IH occ1)|]. exfalso. clear -H. induction l as [|y l IHl]; [done|by apply IHl].
Qed.

(** A register that holds an incoming argument is occupied up to its capture. *)
Lemma occupancy_reserved f occ r cp p :
build_phys_occupancy f = Some occ -> r ∈ entry_live_ins f -> entry_captures f !! r = Some cp -> p ∈ even_positions cp ->
exists ps, occ !! r = Some ps /\ p ∈ ps /\ StronglySorted N.le ps.
Proof.
unfold build_phys_occupancy. destruct (foldl (reserve_entry f) _ _) as [occ0|] eqn:E; [|done]. intros [= <-] Hr Hc Hp.
pose proof (reserve_spec f _ _ _ r cp p E Hr Hc Hp) as Hin.
rewrite lookup_fmap. destruct (occ0 !! r) as [ps|]; [|by apply elem_of_nil in Hin]. simpl in *.
eexists. split; [done|]. split; [by apply elem_of_dedup_sorted; rewrite sort_by_key_perm|].
apply dedup_sorted_sorted, sort_by_key_id_sorted.
Qed.

End occupancy_facts.

(** * The tables of the scan *)

Lemma add_blocks_spec (l : list (nat * list VRegId)) m v :
  let m' := foldl (fun m x => foldl (fun m u => add_block m u x.1) m x.2) m l in
  (forall b, b ∈ default ∅ (m' !! v) <-> b ∈ default ∅ (m !! v) \/ exists us, (b, us) ∈ l /\ v ∈ us) /\
  (is_Some (m' !! v) -> is_Some (m !! v) \/ exists b us, (b, us) ∈ l /\ v ∈ us).
Proof.
  assert (Hone : forall us b0 m, let m' := foldl (fun m u => add_block m u b0) m us in
    (forall b, b ∈ default ∅ (m' !! v) <-> b ∈ default ∅ (m !! v) \/ (b = b0 /\ v ∈ us)) /\
    (is_Some (m' !! v) -> is_Some (m !! v) \/ v ∈ us)).
  { induction us as [|u us IH]; intros b0 m0; simpl.
    - split; [|by left]. intros b. split; [by left|]. intros [?|[_ Hn]]; [done|by apply elem_of_nil in Hn].
    - destruct (IH b0 (add_block m0 u b0)) as [I1 I2]. unfold add_block in *. split.
      + intros b. rewrite I1, elem_of_cons. destruct (decide (u = v)) as [->|Hne].
        * rewrite lookup_insert_eq. simpl. rewrite elem_of_union, elem_of_singleton. tauto.
        * rewrite lookup_insert_ne by done. split; [tauto|]. intros [?|[? [->|?]]]; tauto.
      + intros H. rewrite elem_of_cons. destruct (I2 H) as [H'|?]; [|by right; right].
        apply lookup_insert_is_Some in H' as [->|[_ ?]]; [by right; left|by left]. }
  revert m. induction l as [|[b0 us] l IH]; intros m; simpl.
  - split; [|by left]. intros b. split; [by left|]. intros [?|(us & Hn & _)]; [done|by apply elem_of_nil in Hn].
  - destruct (IH (foldl (fun m u => add_block m u b0) m us)) as [I1 I2]. destruct (Hone us b0 m) as [O1 O2]. split.
    + intros b. rewrite I1, O1. split.
      * intros [[?|[-> ?]]|(us' & ? & ?)]; [by left| |]; right; [exists us; split; [left|done]|exists us'; split; [by right|done]].
      * intros [?|(us' & [[= -> ->]|?]%elem_of_cons & ?)]; [by left; left|by left; right|right; eauto].
    + intros H. destruct (I2 H) as [H'|(b & us' & ? & ?)]; [|right; exists b, us'; split; [by right|done]].
      destruct (O2 H') as [?|?]; [by left|right]. exists b0, us. split; [left|done].
Qed.

Lemma elem_of_located f b p i :
  (b, (p, i)) ∈ located f <-> exists nb, numbered f !! b = Some nb /\ (p, i) ∈ nb_insts nb.
Proof.
  unfold located. rewrite list_elem_of_join. split.
  - intros (l & Hp & Hl). apply elem_of_lookup_imap in Hl as (c & nb & -> & Hnb).
    apply list_elem_of_fmap in Hp as ([q j] & [= -> -> ->] & Hq). eauto.
  - intros (nb & Hnb & Hi). eexists. split; [|apply elem_of_lookup_imap; eauto]. apply list_elem_of_fmap. by exists (p, i).
Qed.

(** The blocks recorded for a register are those that refer to it. *)
Lemma ref_blocks_spec f v :
  (forall b, b ∈ default ∅ (ref_blocks f !! v) <->
     exists p i u, (b, (p, i)) ∈ located f /\ u ∈ inst_vregs i /\ vr_id u = v) /\
  (is_Some (ref_blocks f !! v) -> exists b p i u, (b, (p, i)) ∈ located f /\ u ∈ inst_vregs i /\ vr_id u = v).
Proof.
  pose proof (add_blocks_spec ((fun x => (x.1, vr_id <$> inst_vregs x.2.2)) <$> located f) ∅ v) as H. cbv zeta in H.
  assert (E : foldl (fun m x => foldl (fun m u => add_block m u x.1) m x.2) ∅ ((fun x => (x.1, vr_id <$> inst_vregs x.2.2)) <$> located f)
              = ref_blocks f).
  { clear H. assert (Hin : forall b (us : list X86VReg) m, foldl (fun m u => add_block m u b) m (vr_id <$> us) =
                                                foldl (fun m v => add_block m (vr_id v) b) m us).
    { intros b us. induction us as [|u us IH]; intros m; simpl; [done|apply IH]. }
    unfold ref_blocks. generalize (∅ : gmap VRegId (gset nat)). induction (located f) as [|x l IH]; intros m; simpl; [done|].
    rewrite Hin. apply IH. }
  rewrite E, lookup_empty in H. destruct H as [H1 H2].
  assert (Hin : forall b us, (b, us) ∈ ((fun x : nat * (N * X86Inst) => (x.1, vr_id <$> inst_vregs x.2.2)) <$> located f) /\ v ∈ us ->
    exists p i u, (b, (p, i)) ∈ located f /\ u ∈ inst_vregs i /\ vr_id u = v).
  { intros b us [Hl Hv]. apply list_elem_of_fmap in Hl as ([c [p i]] & [= -> ->] & Hl). apply list_elem_of_fmap in Hv as (u & -> & Hu). eauto 10. }
  split.
  - intros b. rewrite H1. split.
    + intros [Hn|(us & ?)]; [simpl in Hn; set_solver|]. by eapply Hin.
    + intros (p & i & u & Hl & Hu & <-). right. exists (vr_id <$> inst_vregs i). split; [|by apply list_elem_of_fmap_2].
      apply list_elem_of_fmap. exists (b, (p, i)). done.
  - intros Hs. destruct (H2 Hs) as [[? ?]|(b & us & ?)]; [done|]. exists b. by eapply Hin.
Qed.

Lemma vreg_classes_spec ivs :
  NoDup (li_vreg <$> ivs) ->
  exists m, vreg_classes ivs = Some m /\ forall w, w ∈ ivs -> m !! li_vreg w = Some (li_class w).
Proof.
  assert (H : forall l m, NoDup (li_vreg <$> l) -> (forall w, w ∈ l -> m !! li_vreg w = None) ->
    exists m', foldl add_class (Some m) l = Some m' /\ (forall w, w ∈ l -> m' !! li_vreg w = Some (li_class w)) /\
      (forall v, v ∉ li_vreg <$> l -> m' !! v = m !! v)).
  { induction l as [|iv l IH]; intros m Hnd Hm; [exists m; split; [done|]; split; [intros w Hw; by apply elem_of_nil in Hw|done]|].
    cbn [fmap list_fmap] in *. apply list.NoDup_cons in Hnd as [Hni Hnd]. cbn [foldl add_class].
    rewrite (Hm iv) by left. destruct (IH (<[li_vreg iv := li_class iv]> m) Hnd) as (m' & E & H1 & H2).
    { intros w Hw. rewrite lookup_insert_ne; [apply Hm; by right|]. intros Ew. apply Hni. rewrite Ew. by apply list_elem_of_fmap_2. }
    exists m'. split; [done|]. split.
    - intros w [->|Hw]%elem_of_cons; [|by apply H1]. rewrite H2 by done. apply lookup_insert_eq.
    - intros v Hv. apply not_elem_of_cons in Hv as [Hv1 Hv2]. rewrite H2 by done. by rewrite lookup_insert_ne. }
  intros Hnd. destruct (H ivs ∅ Hnd) as (m & E & H1 & _); [done|]. eauto.
Qed.

(** * Functions the allocator is given *)

(** What instruction selection guarantees: distinct block names, fewer than [2^31]
    instructions, registers drawn from the counter, room for the names and slots of
    the allocator, slots numbered by index, incoming registers read in the entry
    block. *)
Record alloc_ready (f : X86Function) : Prop := {
  ar_unique : unique_blocks f;
  ar_small : small f;
  ar_vregs : (N.of_nat (vreg_capacity f) <= next_vreg f)%N;
  ar_names : (next_vreg f + N.of_nat (vreg_capacity f) < 2 ^ 32)%N;
  ar_slots : (Z.of_nat (length (frame_slots f) + 2 * vreg_capacity f + 5) < 2 ^ 31)%Z;
  ar_numbered : slots_numbered (frame_slots f);
  ar_captured : forall r, r ∈ entry_live_ins f -> is_Some (entry_captures f !! r) }.

(** * The scan returns *)

Lemma length_omap_le {A B} (g : A -> option B) l : (length (omap g l) <= length l)%nat.
Proof. induction l as [|x l IH]; [done|]. change (omap g (x :: l)) with (match g x with Some y => y :: omap g l | None => omap g l end). destruct (g x); simpl in *; lia. Qed.

Section scan_run.
Context (f : X86Function) (Hready : alloc_ready f).

Lemma vreg_id_bound v : (v < vreg_capacity f)%nat -> (N.of_nat v < next_vreg f)%N.
Proof. intros H. pose proof (ar_vregs f Hready). lia. Qed.

Lemma located_in_f b p i : (b, (p, i)) ∈ located f -> exists blk k, xf_blocks f !! b = Some blk /\ xb_insts blk !! k = Some i /\ p = pos_of f b k.
Proof.
intros (nb & Hnb & Hi)%elem_of_located.
assert (Hb : (b < length (xf_blocks f))%nat).
{ apply lookup_lt_Some in Hnb. unfold numbered in Hnb. by rewrite length_number_blocks in Hnb. }
destruct (lookup_lt_is_Some_2 _ _ Hb) as [blk Hblk].
rewrite (numbered_lookup f (ar_small f Hready) b blk Hblk) in Hnb. injection Hnb as <-.
cbn [nb_insts] in Hi. apply number_insts_inv in Hi as (k & Hk & ->).
- exists blk, k. split; [done|]. split; [done|]. unfold pos_of. lia.
- pose proof (small_before f b blk (ar_small f Hready) Hblk). unfold pos_of. lia.
Qed.

Lemma scan_setup :
exists s lv cx, solve_liveness f = Some s /\ compute_liveness f = Some lv /\ intervals lv = build_intervals f s /\
make_ctx f lv = Some cx /\ build_phys_occupancy f = Some (cx_occ cx) /\ cx_calls cx = collect_calls f /\
cx_range cx = actual_ranges f /\ cx_multi_def cx = multi_def f /\ cx_ref_blocks cx = ref_blocks f /\
(forall w, w ∈ intervals lv -> (li_vreg w < next_vreg f)%N /\ cx_class cx !! li_vreg w = Some (li_class w)).
Proof.
destruct (solve_liveness_spec f (ar_unique f Hready)) as (s & Es & _).
exists s, {| intervals := build_intervals f s; call_positions := collect_calls f;
num_positions := foldl end_pos 0%N (xb_insts <$> xf_blocks f) |}.
unfold compute_liveness, make_ctx. cbn [intervals call_positions]. rewrite Es.
destruct (vreg_classes_spec (build_intervals f s)) as (cls & Ec & Hc).
{ by apply intervals_NoDup. }
unfold build_phys_occupancy. destruct (reserve_total f (entry_live_ins f) (foldl mark_inst ∅ (numbered f ≫= nb_insts)) (ar_captured f Hready)) as [occ Eo].
rewrite Ec, Eo. eexists. split; [done|]. split; [done|]. split; [done|]. split; [done|].
repeat split; try done; [|by apply Hc].
apply (elem_of_intervals f s) in H as (v & Hv & Hm).
apply make_interval_range in Hm as [-> _]. by apply vreg_id_bound.
Qed.

Lemma scan_queue s cx :
solve_liveness f = Some s -> cx_ref_blocks cx = ref_blocks f ->
queue_inv cx (build_intervals f s) (next_vreg f) (length (frame_slots f)).
Proof.
intros Es Eb. pose proof (splittable_le cx (build_intervals f s)) as Hsp.
assert (Hlen : (length (build_intervals f s) <= vreg_capacity f)%nat).
{ unfold build_intervals. rewrite sort_by_perm. etrans; [apply length_omap_le|]. by rewrite length_seq. }
pose proof (ar_names f Hready). pose proof (ar_slots f Hready). split.
- apply intervals_sorted.
- by apply intervals_NoDup.
- intros iv Hiv. pose proof (intervals_bounds f (ar_unique f Hready) (ar_small f Hready) s Es iv Hiv) as Hb.
assert (last_pos f <= u32_max)%N; [|lia].
unfold last_pos, pos_of, u32_max. pose proof (ar_small f Hready) as Hsm. unfold small, inst_count in Hsm.
pose proof (before_total (xf_blocks f) (length (xf_blocks f))) as Hbt. unfold inst_count_of in Hbt. lia.
- lia.
- lia.
Qed.

Lemma scan_final :
exists s lv cx sc segs,
solve_liveness f = Some s /\ compute_liveness f = Some lv /\ intervals lv = build_intervals f s /\
make_ctx f lv = Some cx /\ build_phys_occupancy f = Some (cx_occ cx) /\ cx_calls cx = collect_calls f /\
cx_ref_blocks cx = ref_blocks f /\ cx_range cx = actual_ranges f /\
scan_loop (2 * length (intervals lv)) cx (init_scan f) (intervals lv) = Some sc /\
scan_inv cx (intervals lv) f sc [] segs.
Proof.
destruct scan_setup as (s & lv & cx & Es & El & Ei & Ec & Eo & Ecl & Er & Em & Eb & Hw).
assert (Huniq : forall a b, a ∈ intervals lv -> b ∈ intervals lv -> li_vreg a = li_vreg b -> a = b).
{ rewrite Ei. by apply interval_unique. }
assert (Hrefs : forall v, is_Some (cx_ref_blocks cx !! v) -> (v < next_vreg f)%N).
{ intros v. rewrite Eb. intros Hv. destruct (proj2 (ref_blocks_spec f v) Hv) as (b & p & i & u & Hl & Hu & <-).
apply located_in_f in Hl as (blk & k & Hblk & Hk & _). assert (Hc : (bit_of u < vreg_capacity f)%nat).
{ eapply capacity_bound; [by eapply list_elem_of_lookup_2..|done]. }
apply vreg_id_bound in Hc. unfold bit_of in Hc. by rewrite N2Nat.id in Hc. }
assert (Hq : queue_inv cx (intervals lv) (next_vreg f) (length (frame_slots f))) by (rewrite Ei; by apply scan_queue).
assert (H0 : scan_inv cx (intervals lv) f (init_scan f) (intervals lv) ∅).
{ apply init_scan_inv; [intros w Hw'; by apply Hw|done|done|apply Hready]. }
destruct (scan_loop_inv cx (intervals lv) f ltac:(intros w Hw'; by apply Hw) Hrefs ltac:(intros w Hw'; by apply Hw) Huniq
(2 * length (intervals lv)) (init_scan f) (intervals lv) ∅ H0) as (sc & segs & Esc & Hsc).
{ pose proof (splittable_le cx (intervals lv)). lia. }
exists s, lv, cx, sc, segs. done.
Qed.

End scan_run.

(** * Split records *)

(** Where the second half of a split ended up. *)
Definition post_of (asg : gmap VRegId X86Reg) (sp : gmap VRegId Z) (syn : VRegId) : option PostHalf :=
  match asg !! syn with
  | Some p => Some (Allocated p)
  | None => match sp !! syn with Some _ => Some SpilledHalf | None => None end
  end.

Definition split_record (cls : gmap VRegId X86RegClass) (orig : VRegId) (cp : N) (z : Z) (pre : X86Reg) (post : PostHalf) : SplitRecord :=
  {| sr_vreg := orig; sr_class := default Gp64 (cls !! orig); sr_call := cp; sr_pre := pre; sr_post := post; sr_bridge := z |}.

Lemma materialize_spec (first : N) cls l asg sp recs :
  NoDup l.*1 -> (forall syn x, (syn, x) ∈ l -> (first <= syn)%N /\ (x.1.1 < first)%N) ->
  let '(asg', sp', recs') := foldl (materialize cls) (asg, sp, recs) l in
  (forall v, (v < first)%N -> asg' !! v = asg !! v /\ sp' !! v = sp !! v) /\
  forall r, r ∈ recs' <-> r ∈ recs \/ exists syn orig cp z pre post,
    (syn, (orig, cp, z)) ∈ l /\ asg !! orig = Some pre /\ post_of asg sp syn = Some post /\ r = split_record cls orig cp z pre post.
Proof.
  revert asg sp recs. induction l as [|[syn [[orig cp] z]] l IH]; intros asg sp recs Hnd Hl.
  { simpl. split; [done|]. intros r. split; [by left|]. intros [?|(? & ? & ? & ? & ? & ? & Hn & _)]; [done|by apply elem_of_nil in Hn]. }
  cbn [fmap list_fmap] in Hnd. apply list.NoDup_cons in Hnd as [Hni Hnd]. simpl in Hni.
  destruct (Hl syn (orig, cp, z) ltac:(left)) as [Hsyn Horig]. simpl in Horig.
  assert (Hl' : forall s x, (s, x) ∈ l -> (first <= s)%N /\ (x.1.1 < first)%N) by (intros s x Hx; apply Hl; by right).
  assert (Hother : forall s x, (s, x) ∈ l -> s <> syn).
  { intros s x Hx ->. apply Hni. apply list_elem_of_fmap. by exists (syn, x). }
  cbn [foldl]. unfold materialize at 2. fold (post_of asg sp syn).
  (* the entry yields no record *)
  assert (Hskip : forall st, st = (asg, sp, recs) -> asg !! orig = None \/ post_of asg sp syn = None ->
    let '(asg', sp', recs') := foldl (materialize cls) st l in
    (forall v, (v < first)%N -> asg' !! v = asg !! v /\ sp' !! v = sp !! v) /\
    forall r, r ∈ recs' <-> r ∈ recs \/ exists s o c y pre post,
      (s, (o, c, y)) ∈ (syn, (orig, cp, z)) :: l /\ asg !! o = Some pre /\ post_of asg sp s = Some post /\ r = split_record cls o c y pre post).
  { intros st -> Hno. specialize (IH asg sp recs Hnd Hl'). destruct (foldl _ _ l) as [[asg' sp'] recs']. destruct IH as [I1 I2].
    split; [done|]. intros r. rewrite I2. split; (intros [?|(s & o & c & y & pre & post & Hin & Hpre & Hpost & ->)]; [by left|right]).
    - exists s, o, c, y, pre, post. split; [by right|done].
    - apply elem_of_cons in Hin as [[= -> -> -> ->]|Hin]; [destruct Hno; congruence|]. exists s, o, c, y, pre, post. done. }
  destruct (asg !! orig) as [pre|] eqn:Epre; [|apply Hskip; [done|by left]].
  destruct (post_of asg sp syn) as [post|] eqn:Epost; [|apply Hskip; [done|by right]]. clear Hskip.
  fold (split_record cls orig cp z pre post).
  specialize (IH (delete syn asg) (delete syn sp) (recs ++ [split_record cls orig cp z pre post]) Hnd Hl').
  destruct (foldl _ _ l) as [[asg' sp'] recs']. destruct IH as [I1 I2]. split.
  - intros v Hv. destruct (I1 v Hv) as [-> ->]. rewrite !lookup_delete_ne by lia. done.
  - intros r. rewrite I2, elem_of_app, list_elem_of_singleton. split.
    + intros [[?| ->]|(s & o & c & y & pre' & post' & Hin & Hpre & Hpost & ->)]; [by left| |]; right.
      * exists syn, orig, cp, z, pre, post. split; [left|done].
      * exists s, o, c, y, pre', post'. pose proof (Hother _ _ Hin). destruct (Hl' _ _ Hin) as [_ ?]. simpl in *.
        rewrite lookup_delete_ne in Hpre by lia. unfold post_of in *. rewrite !lookup_delete_ne in Hpost by done.
        split; [by right|done].
    + intros [?|(s & o & c & y & pre' & post' & [[= -> -> -> ->]|Hin]%elem_of_cons & Hpre & Hpost & ->)]; [by left; left| |].
      * left. right. congruence.
      * right. exists s, o, c, y, pre', post'. pose proof (Hother _ _ Hin). destruct (Hl' _ _ Hin) as [_ ?]. simpl in *.
        rewrite lookup_delete_ne by lia. unfold post_of in *. rewrite !lookup_delete_ne by done. done.
Qed.

(** * Where registers live *)

(** An iteration order of the split map. *)
Definition lists_splits (entries : split_map -> list (VRegId * (VRegId * N * Z))) : Prop :=
  forall m, entries m ≡ₚ map_to_list m.

Section final.
Context (entries : split_map -> list (VRegId * (VRegId * N * Z))) (Hent : lists_splits entries).
Context (f : X86Function) (Hready : alloc_ready f).

(** A finished allocation with the segments that justify it. *)
Record allocated (res : AllocResult) (f' : X86Function) (s : live_sets) (cx : scan_ctx) (sc : scan) (segs : gmap VRegId seg) : Prop := {
al_solve : solve_liveness f = Some s;
al_ivs : intervals (liveness res) = build_intervals f s;
al_live : compute_liveness f = Some (liveness res);
al_occ : build_phys_occupancy f = Some (cx_occ cx);
al_calls : cx_calls cx = collect_calls f;
al_refs : cx_ref_blocks cx = ref_blocks f;
al_ranges : cx_range cx = actual_ranges f;
al_inv : scan_inv cx (intervals (liveness res)) f sc [] segs;
al_f : f' = sc_f sc;
al_same : forall v, (v < next_vreg f)%N -> assignments res !! v = sc_assignments sc !! v /\ spills res !! v = sc_spills sc !! v;
al_records : forall r, r ∈ split_records res <-> exists syn orig cp z a post,
sc_splits sc !! syn = Some (orig, cp, z) /\ segs !! orig = Some a /\ post_of (sc_assignments sc) (sc_spills sc) syn = Some post /\
r = split_record (cx_class cx) orig cp z (sg_reg a) post;
al_saved : callee_saved_used res = sort_by_key reg_sort_key (elements (sc_callee_saved sc));
al_classes : forall w, w ∈ intervals (liveness res) -> (li_vreg w < next_vreg f)%N /\ cx_class cx !! li_vreg w = Some (li_class w) }.

Lemma linear_scan_run :
exists res f' s cx sc segs, linear_scan entries f = Some (res, f') /\ allocated res f' s cx sc segs.
Proof.
destruct (scan_final f Hready) as (s & lv & cx & sc & segs & Es & El & Ei & Ec & Eo & Ecl & Er & Ear & Esc & Hsc).
unfold linear_scan. rewrite El. cbn [mbind option_bind]. rewrite Ec. cbn [mbind option_bind]. rewrite Esc. cbn [mbind option_bind].
pose proof (sv_regs _ _ _ _ _ _ Hsc) as Hregs. pose proof (sv_book _ _ _ _ _ _ Hsc) as Hbook.
assert (Hcl : forall w, w ∈ intervals lv -> (li_vreg w < next_vreg f)%N /\ cx_class cx !! li_vreg w = Some (li_class w)).
{ destruct (scan_setup f Hready) as (s' & lv' & cx' & _ & El' & _ & Ec' & _ & _ & _ & _ & _ & Hw).
rewrite El in El'. injection El' as <-. rewrite Ec in Ec'. injection Ec' as <-. done. }
pose proof (materialize_spec (next_vreg f) (cx_class cx) (entries (sc_splits sc)) (sc_assignments sc) (sc_spills sc) []) as Hm.
destruct (foldl _ _ _) as [[asg sp] recs]. destruct Hm as [H1 H2].
{ rewrite (Hent _). apply NoDup_fst_map_to_list. }
{ intros syn [[o c] z] Hin. rewrite (Hent _) in Hin. apply elem_of_map_to_list in Hin.
destruct (bi_split _ _ _ _ _ _ _ _ Hbook _ _ _ _ Hin) as [? (w & Hw & <- & _)]. simpl. split; [lia|]. by apply Hcl. }
do 2 eexists. exists s, cx, sc, segs. split; [done|]. split; simpl; try done.
intros r. rewrite sort_by_perm, H2. split.
- intros [Hn|(syn & o & c & z & pre & post & Hin & Hpre & Hpost & ->)]; [by apply elem_of_nil in Hn|].
rewrite (Hent _) in Hin. apply elem_of_map_to_list in Hin. rewrite (ri_asg _ _ _ _ _ _ Hregs), lookup_fmap in Hpre.
apply fmap_Some in Hpre as (a & Ha & ->). eauto 10.
- intros (syn & o & c & z & a & post & Hin & Ha & Hpost & ->). right. exists syn, o, c, z, (sg_reg a), post.
rewrite (Hent _), elem_of_map_to_list. split; [done|]. split; [|done].
by rewrite (ri_asg _ _ _ _ _ _ Hregs), lookup_fmap, Ha.
Qed.

Section facts.
Context (res : AllocResult) (f' : X86Function) (s : live_sets) (cx : scan_ctx) (sc : scan) (segs : gmap VRegId seg).
Context (Hal : allocated res f' s cx sc segs).
Local Abbreviation ivs := (intervals (liveness res)).
Local Abbreviation book := (sv_book _ _ _ _ _ _ (al_inv _ _ _ _ _ _ Hal)).
Local Abbreviation regs := (sv_regs _ _ _ _ _ _ (al_inv _ _ _ _ _ _ Hal)).

Lemma iv_unique a b : a ∈ ivs -> b ∈ ivs -> li_vreg a = li_vreg b -> a = b.
Proof. rewrite (al_ivs _ _ _ _ _ _ Hal). by apply interval_unique. Qed.

Lemma iv_low iv : iv ∈ ivs -> (li_vreg iv < next_vreg f)%N.
Proof. intros H. by apply (al_classes _ _ _ _ _ _ Hal). Qed.

(** Every register in play ended up in a register or in memory. *)
Lemma accounted v : v ∈ li_vreg <$> ivs \/ is_Some (sc_splits sc !! v) -> is_Some (segs !! v) \/ is_Some (sc_spills sc !! v).
Proof. intros H. destruct (bi_acct _ _ _ _ _ _ _ _ book v H) as [Hn|?]; [by apply elem_of_nil in Hn|done]. Qed.

(** The record of a register, if it has one, is that of its split. *)
Lemma find_record_none v :
(forall syn x a, sc_splits sc !! syn = Some x -> x.1.1 = v -> segs !! v = Some a -> False) ->
list_find (fun r => sr_vreg r = v) (split_records res) = None.
Proof.
intros H. apply list_find_None, list.Forall_forall. intros r Hr E.
apply (al_records _ _ _ _ _ _ Hal) in Hr as (syn & o & c & z & a & post & Hsyn & Ha & _ & ->). simpl in E. subst.
by eapply (H syn (v, c, z) a).
Qed.

Lemma find_record v syn cp z a :
sc_splits sc !! syn = Some (v, cp, z) -> segs !! v = Some a ->
exists i post, post_of (sc_assignments sc) (sc_spills sc) syn = Some post /\
split_record (cx_class cx) v cp z (sg_reg a) post ∈ split_records res /\
list_find (fun r => sr_vreg r = v) (split_records res) = Some (i, split_record (cx_class cx) v cp z (sg_reg a) post).
Proof.
intros Hsyn Ha. assert (Hpost : is_Some (post_of (sc_assignments sc) (sc_spills sc) syn)).
{ unfold post_of. destruct (sc_assignments sc !! syn) eqn:E; [done|].
destruct (accounted syn) as [[b Hb]|[y Hy]]; [by right| |by rewrite Hy].
by rewrite (ri_asg _ _ _ _ _ _ regs), lookup_fmap, Hb in E. }
destruct Hpost as [post Hpost].
assert (Hin : split_record (cx_class cx) v cp z (sg_reg a) post ∈ split_records res).
{ apply (al_records _ _ _ _ _ _ Hal). eauto 10. }
destruct (list_find (fun r => sr_vreg r = v) (split_records res)) as [[i r]|] eqn:Ef.
- exists i, post. split; [done|]. split; [done|]. apply list_find_Some in Ef as (Hi & Hv & _).
apply list_elem_of_lookup_2 in Hi. apply (al_records _ _ _ _ _ _ Hal) in Hi as (syn' & o & c & z' & a' & post' & Hsyn' & Ha' & Hpost' & ->).
simpl in Hv. subst. pose proof (bi_inj _ _ _ _ _ _ _ _ book _ _ _ _ Hsyn' Hsyn eq_refl) as ->. rewrite Hsyn in Hsyn'. simplify_eq. done.
- exfalso. apply list_find_None in Ef. rewrite list.Forall_forall in Ef. by apply (Ef _ Hin).
Qed.

(** The names a register's value goes by. *)
Definition half_of (u v : VRegId) : Prop := u = v \/ exists cp z, sc_splits sc !! u = Some (v, cp, z).

(** At position [p] the value of [v] is in the register of a segment: one that covers
[p], or the first half of a split at the call at [p]. *)
Definition in_segment (v : VRegId) (p : N) (r : X86Reg) : Prop :=
exists u a, segs !! u = Some a /\ sg_reg a = r /\ half_of u v /\
((sg_lo a <= p <= sg_hi a)%N \/
(sg_hi a = N.pred p /\ (sg_lo a < p)%N /\ p ∈ cx_calls cx /\ is_callee_saved r = false /\
exists rec, rec ∈ split_records res /\ sr_vreg rec = v /\ sr_call rec = p)).

Definition in_slot (v : VRegId) (z : Z) : Prop :=
sc_spills sc !! v = Some z \/ exists syn cp, sc_splits sc !! syn = Some (v, cp, z).

Lemma not_a_half iv : iv ∈ ivs -> sc_splits sc !! li_vreg iv = None.
Proof.
intros Hiv. apply eq_None_not_Some. intros [[[o c] z] Hx]. destruct (bi_split _ _ _ _ _ _ _ _ book _ _ _ _ Hx) as [? _].
pose proof (iv_low iv Hiv). lia.
Qed.

Lemma resolve_cases iv p :
iv ∈ ivs -> (li_start iv <= p <= li_end iv)%N ->
exists loc, resolve res (li_vreg iv) p = Some loc /\
match loc with InReg r => in_segment (li_vreg iv) p r | InSlot z => in_slot (li_vreg iv) z end.
Proof.
intros Hiv Hp. set (v := li_vreg iv). destruct (al_same _ _ _ _ _ _ Hal v (iv_low iv Hiv)) as [Hasg Hspl].
pose proof (ri_asg _ _ _ _ _ _ regs) as Hra. unfold resolve.
destruct (segs !! v) as [a|] eqn:Ea.
2:{ destruct (accounted v) as [[? ?]|[z Hz]]; [left; by apply list_elem_of_fmap_2|congruence|].
rewrite find_record_none by (intros; congruence). rewrite Hasg, Hra, lookup_fmap, Ea, Hspl, Hz. simpl.
exists (InSlot z). split; [done|by left]. }
assert (Hv : assignments res !! v = Some (sg_reg a)) by (by rewrite Hasg, Hra, lookup_fmap, Ea).
pose proof (bi_segs _ _ _ _ _ _ _ _ book v a Ea) as Hpl.
inversion Hpl as [iv' Hiv' Hvr Hno E1 E2 E3|iv' syn cp z Hiv' Hvr Hsyn E1 E2 E3|iv' cp z Hiv' Hsyn E1 E2 E3].
- rewrite (iv_unique iv' iv) in * by done. rewrite find_record_none by (intros syn x b Hx Eb _; by eapply Hno). rewrite Hv.
exists (InReg (sg_reg a)). split; [done|]. exists v, a. repeat split; [done|by left|]. left. lia.
- rewrite (iv_unique iv' iv) in * by done. destruct (find_record v syn cp z a Hsyn Ea) as (i & post & Hpost & Hin & ->).
destruct (bi_split _ _ _ _ _ _ _ _ book _ _ _ _ Hsyn) as [Hrange (w & Hw & Hwv & Hcall & _ & Hcp)].
rewrite (iv_unique w iv) in * by done. cbn [sr_call sr_post sr_bridge sr_pre split_record].
destruct (cp <? p)%N eqn:Ecp; [apply N.ltb_lt in Ecp|apply N.ltb_ge in Ecp].
+ unfold post_of in Hpost. rewrite Hra, lookup_fmap in Hpost. destruct (segs !! syn) as [b|] eqn:Eb; simpl in Hpost.
* injection Hpost as <-. exists (InReg (sg_reg b)). split; [done|]. exists syn, b.
repeat split; [done|right; eauto|]. left.
pose proof (bi_segs _ _ _ _ _ _ _ _ book syn b Eb) as Hpb.
inversion Hpb as [w' Hw' Hwv' _|w' ? ? ? Hw' Hwv' _|w' cp' z' Hw' Hsyn' F1 F2 F3];
[pose proof (iv_low _ Hw'); lia|pose proof (iv_low _ Hw'); lia|].
rewrite Hsyn in Hsyn'. injection Hsyn' as Ev <- <-. rewrite (iv_unique w' iv) in * by done. lia.
* destruct (sc_spills sc !! syn); [|done]. injection Hpost as <-. exists (InSlot z). split; [done|]. right. eauto.
+ exists (InReg (sg_reg a)). split; [done|]. exists v, a. split; [done|]. split; [done|]. split; [by left|].
destruct (N.eq_dec p cp) as [->|Hne]; [right|left; lia].
split; [lia|]. split; [lia|]. split; [by apply (single_call_bounds cx iv)|].
split; [by eapply (bi_pre _ _ _ _ _ _ _ _ book)|]. eexists. split; [exact Hin|done].
- pose proof (not_a_half iv Hiv) as Hn. fold v in Hn. congruence.
Qed.

(** Registers that hold halves of different values are different names. *)
Lemma half_of_inj iv iv' u : iv ∈ ivs -> iv' ∈ ivs -> half_of u (li_vreg iv) -> half_of u (li_vreg iv') -> li_vreg iv = li_vreg iv'.
Proof.
intros Hiv Hiv' [->|(c & z & Hu)] [E|(c' & z' & Hu')]; [done| | |congruence].
- by rewrite (not_a_half iv Hiv) in Hu'.
- subst. by rewrite (not_a_half iv' Hiv') in Hu.
Qed.

(** A call occupies every register it does not preserve. *)
Lemma call_clobbers p r lo hi :
p ∈ cx_calls cx -> is_callee_saved r = false -> r ∈ pool (negb (is_gp r)) -> phys_free_over (cx_occ cx) r lo hi = true -> ~ (lo <= p <= hi)%N.
Proof.
rewrite (al_calls _ _ _ _ _ _ Hal). unfold collect_calls. rewrite sort_by_key_perm. intros Hp Hcs Hpool Hfree.
apply list_elem_of_bind in Hp as (nb & Hp & Hnb). apply list_elem_of_fmap in Hp as ([q i] & -> & Hq).
apply list_elem_of_filter in Hq as [Hcall Hq]. simpl in *.
assert (Hr : r ∈ phys_refs i).
{ assert (Hc : r ∈ CALL_CLOBBER).
{ clear -Hcs Hpool. apply (bool_decide_pack _) in Hpool. apply (bool_decide_unpack _). by destruct r. }
unfold phys_refs, is_call in *. rewrite !elem_of_app. right. right. destruct (x_opcode i); done. }
destruct (occupancy_spec f _ nb q i r (al_occ _ _ _ _ _ _ Hal) Hnb Hq Hr) as (ps & Hps & Hin & Hs).
by eapply phys_free_over_spec.
Qed.

Lemma pool_class fp r : r ∈ pool fp -> r ∈ pool (negb (is_gp r)).
Proof. destruct fp, r; intros H; apply (bool_decide_pack _) in H; vm_compute in H; try done; apply (bool_decide_unpack _); vm_compute; done. Qed.

(** A half of a value is in the pool of its class. *)
Lemma half_class iv u a : iv ∈ ivs -> half_of u (li_vreg iv) -> segs !! u = Some a -> sg_fp a = is_fp_class (li_class iv).
Proof.
intros Hiv Hu Ha. pose proof (bi_segs _ _ _ _ _ _ _ _ book u a Ha) as Hpl.
inversion Hpl as [w Hw Hwv Hx E1 E2 E|w syn cp z Hw Hwv Hx E1 E2 E|w cp z Hw Hsyn E1 E2 E]; do 2 f_equal.
- apply iv_unique; [done..|]. destruct Hu as [->|(c & y & Hu)]; [done|]. rewrite <- Hwv, (not_a_half w Hw) in Hu. done.
- apply iv_unique; [done..|]. destruct Hu as [->|(c & y & Hu)]; [done|]. rewrite <- Hwv, (not_a_half w Hw) in Hu. done.
- apply iv_unique; [done..|]. destruct Hu as [->|(c & y & Hu)]; [|congruence]. by rewrite (not_a_half iv Hiv) in Hsyn.
Qed.

(** Two values in play at a position are never in one register. *)
Lemma no_conflict iv iv' p r :
iv ∈ ivs -> iv' ∈ ivs -> li_vreg iv <> li_vreg iv' ->
in_segment (li_vreg iv) p r -> in_segment (li_vreg iv') p r -> False.
Proof.
intros Hiv Hiv' Hne (u & a & Ha & Hra & Hu & Hca) (w & b & Hb & Hrb & Hw & Hcb).
assert (Huw : u <> w) by (intros ->; apply Hne; by eapply half_of_inj).
pose proof (ri_disj _ _ _ _ _ _ regs u w a b Huw Ha Hb ltac:(congruence)) as Hd.
destruct (ri_clear _ _ _ _ _ _ regs u a Ha) as (Hfa & Hpa & _), (ri_clear _ _ _ _ _ _ regs w b Hb) as (Hfb & Hpb & _).
unfold disjoint_segs in Hd. rewrite Hra in *. rewrite Hrb in *.
destruct Hca as [Hca|(Hha & Hla & Hpc & Hcs & _)], Hcb as [Hcb|(Hhb & Hlb & Hpc' & Hcs' & _)].
- lia.
- by apply (call_clobbers p r _ _ Hpc' Hcs' (pool_class _ _ Hpa) Hfa).
- by apply (call_clobbers p r _ _ Hpc Hcs (pool_class _ _ Hpb) Hfb).
- lia.
Qed.

(** A value is not kept in a register that is occupied, unless it is being carried over
the call there. *)
Lemma no_fixed_conflict iv p ps r :
iv ∈ ivs -> cx_occ cx !! r = Some ps -> p ∈ ps -> StronglySorted N.le ps -> in_segment (li_vreg iv) p r ->
exists rec, rec ∈ split_records res /\ sr_vreg rec = li_vreg iv /\ sr_call rec = p.
Proof.
intros Hiv Hps Hin Hs (u & a & Ha & Hra & Hu & [Hc|(_ & _ & _ & _ & Hrec)]); [exfalso|done].
destruct (ri_clear _ _ _ _ _ _ regs u a Ha) as (Hfa & _ & _).
rewrite Hra in Hfa. by eapply (phys_free_over_spec _ _ _ _ ps p Hps Hs Hfa Hin).
Qed.

(** Values in memory have slots of their own, none of which the function had. *)
Lemma no_slot_conflict v w z : in_slot v z -> in_slot w z -> v = w.
Proof.
pose proof (sv_slots _ _ _ _ _ _ (al_inv _ _ _ _ _ _ Hal)) as Hs.
intros [Hv|(s1 & c1 & Hv)] [Hw|(s2 & c2 & Hw)].
- by eapply (sl_spill_inj _ _ _ _ Hs).
- by destruct (sl_cross _ _ _ _ Hs _ _ _ _ Hv Hw).
- by destruct (sl_cross _ _ _ _ Hs _ _ _ _ Hw Hv).
- pose proof (sl_split_inj _ _ _ _ Hs _ _ _ _ Hv Hw eq_refl) as ->. congruence.
Qed.

Lemma slot_fresh v z : in_slot v z -> (Z.of_nat (length (frame_slots f)) <= z < Z.of_nat (length (frame_slots f')))%Z.
Proof.
pose proof (sv_slots _ _ _ _ _ _ (al_inv _ _ _ _ _ _ Hal)) as Hs. rewrite (al_f _ _ _ _ _ _ Hal).
intros [Hv|(s1 & c1 & Hv)]; [by eapply (sl_spill _ _ _ _ Hs)|by eapply (sl_split _ _ _ _ Hs)].
Qed.

Lemma slot_sized iv z : iv ∈ ivs -> in_slot (li_vreg iv) z -> slot_fits (frame_slots f') z (li_class iv).
Proof.
rewrite (al_f _ _ _ _ _ _ Hal). intros Hiv [Hv|(syn & cp & Hv)].
- by apply (sv_fits_spill _ _ _ _ _ _ (al_inv _ _ _ _ _ _ Hal)).
- by eapply (sv_fits_split _ _ _ _ _ _ (al_inv _ _ _ _ _ _ Hal)).
Qed.

End facts.
End final.

(** * Points of the program *)

(** At instruction [k] of block [b] the value of [v] matters: it is live, or the
    instruction refers to it. *)
Definition in_play (f : X86Function) (v b k : nat) : Prop :=
  exists blk i, xf_blocks f !! b = Some blk /\ xb_insts blk !! k = Some i /\
    (live_at f v b k \/ exists u, u ∈ inst_vregs i /\ bit_of u = v).

Lemma in_play_covered f s v b k :
  alloc_ready f -> solve_liveness f = Some s -> in_play f v b k ->
  exists iv, iv ∈ build_intervals f s /\ li_vreg iv = N.of_nat v /\ (li_start iv <= pos_of f b k <= li_end iv)%N.
Proof.
  intros Hr Hs (blk & i & Hb & Hi & [Hl|(u & Hu & <-)]).
  - by apply live_covered; [apply Hr|apply Hr| |].
  - destruct (touch_covered f (ar_unique f Hr) (ar_small f Hr) s Hs _ (ref_touch f (ar_unique f Hr) (ar_small f Hr) s Hs b blk k i u Hb Hi Hu))
      as (iv & Hiv & Hv & Hlo & Hhi). simpl in *. eauto.
Qed.

(** The place of a value at a point. *)
Lemma in_play_place f res f' s cx sc segs v b k loc :
  alloc_ready f -> allocated f res f' s cx sc segs -> in_play f v b k ->
  resolve res (N.of_nat v) (pos_of f b k) = Some loc ->
  exists iv, iv ∈ intervals (liveness res) /\ li_vreg iv = N.of_nat v /\
    match loc with InReg r => in_segment res cx sc segs (N.of_nat v) (pos_of f b k) r | InSlot z => in_slot sc (N.of_nat v) z end.
Proof.
  intros Hr Hal Hp E. destruct (in_play_covered f s v b k Hr (al_solve _ _ _ _ _ _ _ Hal) Hp) as (iv & Hiv & Hv & Hin).
  rewrite <- (al_ivs _ _ _ _ _ _ _ Hal) in Hiv. exists iv. split; [done|]. split; [done|].
  destruct (resolve_cases f res f' s cx sc segs Hal iv (pos_of f b k) Hiv Hin) as (loc' & E' & H').
  rewrite Hv in *. rewrite E in E'. by injection E' as <-.
Qed.

Lemma position_numbered f b blk k i :
  alloc_ready f -> xf_blocks f !! b = Some blk -> xb_insts blk !! k = Some i ->
  exists nb, nb ∈ numbered f /\ (pos_of f b k, i) ∈ nb_insts nb.
Proof.
  intros Hr Hb Hi. pose proof (numbered_lookup f (ar_small f Hr) b blk Hb) as Hnb. eexists.
  split; [by eapply list_elem_of_lookup_2|]. apply number_insts_pos; [apply Hr|done..].
Qed.

(** At instruction [k] of block [b] the argument that came in [r] is not received yet: no
    earlier instruction reads it. *)
Definition awaits (f : X86Function) (b k : nat) (r : X86Reg) : Prop :=
  b = 0%nat /\ r ∈ entry_live_ins f /\
  forall blk j i, xf_blocks f !! 0%nat = Some blk -> xb_insts blk !! j = Some i -> (j < k)%nat -> Reg r ∉ x_operands i.

(** An instruction refers to a register, or an argument waits in it. *)
Definition occupied (f : X86Function) (b k : nat) (i : X86Inst) (r : X86Reg) : Prop := r ∈ phys_refs i \/ awaits f b k r.

Lemma occupied_marked f occ b blk k i r :
  alloc_ready f -> build_phys_occupancy f = Some occ -> xf_blocks f !! b = Some blk -> xb_insts blk !! k = Some i -> occupied f b k i r ->
  exists ps, occ !! r = Some ps /\ pos_of f b k ∈ ps /\ StronglySorted N.le ps.
Proof.
  intros Hr Eo Hb Hk [Hri|(-> & Hlive & Hnone)].
  - destruct (position_numbered f b blk k i Hr Hb Hk) as (nb & Hnb & Hp). by eapply occupancy_spec.
  - destruct (ar_captured f Hr r Hlive) as [cp Hcp]. apply (occupancy_reserved f occ r cp); [done..|].
    destruct (capture_source f _ r cp (numbered_lookup f (ar_small f Hr) 0 blk Hb) Hcp) as (j & Hj & Hreg). cbn [nb_insts] in Hj.
    apply number_insts_inv in Hj as (kc & Hkc & ->).
    + assert (k <= kc)%nat. { destruct (decide (kc < k)%nat) as [Hlt|]; [|lia]. by destruct (Hnone blk kc j Hb Hkc Hlt). }
      replace (pos_of f 0 k) with (2 * N.of_nat k)%N by (unfold pos_of; simpl; lia). apply even_position. unfold pos_of. simpl. lia.
    + pose proof (small_before f 0 blk (ar_small f Hr) Hb). unfold pos_of. lia.
Qed.

(** * Splits stay inside a block *)

Lemma touch_range_inv (P : N -> Prop) v (l : list (VRegId * N)) m a b :
  (forall p, (v, p) ∈ l -> P p) -> (forall a b, m !! v = Some (a, b) -> P a /\ P b) ->
  foldl (fun m e => touch_range m e.1 e.2) m l !! v = Some (a, b) -> P a /\ P b.
Proof.
  revert m. induction l as [|[u p] l IH]; intros m Hl Hm; simpl; [apply Hm|]. apply IH; [intros q Hq; apply Hl; by right|].
  intros a' b'. unfold touch_range. destruct (decide (u = v)) as [->|Hne].
  - assert (Hp : P p) by (apply Hl; left). destruct (m !! v) as [[a0 b0]|] eqn:E; simpl; rewrite lookup_insert_eq; intros [= <- <-].
    + destruct (Hm a0 b0 eq_refl) as [? ?]. split; [by destruct (N.min_spec a0 p) as [[_ ->]|[_ ->]]|by destruct (N.max_spec b0 p) as [[_ ->]|[_ ->]]].
    + rewrite N.min_id, N.max_id. done.
  - destruct (default (p, p) (m !! u)) as [a0 b0]. rewrite lookup_insert_ne by done. apply Hm.
Qed.

(** Both ends of the tight range are positions that refer to the register. *)
Lemma actual_range_refs f v rs re :
  actual_ranges f !! v = Some (rs, re) ->
  (exists b i u, (b, (rs, i)) ∈ located f /\ u ∈ inst_vregs i /\ vr_id u = v) /\
  (exists b i u, (b, (re, i)) ∈ located f /\ u ∈ inst_vregs i /\ vr_id u = v).
Proof.
  set (evs := located f ≫= fun x => (fun u => (vr_id u, x.2.1)) <$> inst_vregs x.2.2).
  assert (E : actual_ranges f = foldl (fun m e => touch_range m e.1 e.2) ∅ evs).
  { unfold actual_ranges, evs. generalize (∅ : gmap VRegId (N * N)). induction (located f) as [|x l IH]; intros m; [done|].
    rewrite bind_cons, foldl_app. cbn [foldl]. rewrite IH. f_equal. clear. revert m.
    induction (inst_vregs x.2.2) as [|u us IH]; intros m; [done|]. cbn [fmap list_fmap foldl]. by rewrite IH. }
  rewrite E. apply (touch_range_inv (fun p => exists b i u, (b, (p, i)) ∈ located f /\ u ∈ inst_vregs i /\ vr_id u = v)); [|done].
  intros p Hp. apply list_elem_of_bind in Hp as ([b [q i]] & Hp & Hl). apply list_elem_of_fmap in Hp as (u & [= -> ->] & Hu). eauto 10.
Qed.

(** Positions between two positions of a block are in the block. *)
Lemma between_same_block f b c blk blkc k1 k2 kc :
  xf_blocks f !! b = Some blk -> xf_blocks f !! c = Some blkc -> (k2 < length (xb_insts blk))%nat -> (kc < length (xb_insts blkc))%nat ->
  (pos_of f b k1 < pos_of f c kc < pos_of f b k2)%N -> c = b.
Proof.
  intros Hb Hc Hk2 Hkc Hp. unfold pos_of in Hp. pose proof (before_S _ _ _ Hb) as Sb. pose proof (before_S _ _ _ Hc) as Sc.
  destruct (Nat.lt_trichotomy c b) as [Hlt|[?|Hlt]]; [|done|].
  - pose proof (before_le (xf_blocks f) (S c) b Hlt). lia.
  - pose proof (before_le (xf_blocks f) (S b) c Hlt). lia.
Qed.

Definition refers (v : nat) (i : X86Inst) : Prop := exists u, u ∈ inst_vregs i /\ bit_of u = v.

(** A register referred to in one block only, in a function that reads nothing before
    it is written, is not live across blocks. *)
Lemma local_not_live f v b :
  (forall c blk i, xf_blocks f !! c = Some blk -> i ∈ xb_insts blk -> refers v i -> c = b) ->
  rtc (x86_edge f) 0%nat b -> ~ live_into f v 0 -> forall c, ~ live_into f v c.
Proof.
  intros Hloc Hreach Hentry c Hc. apply Hentry.
  assert (Hb : live_into f v b).
  { induction Hc as [c blk Hblk He|]; [|done]. destruct (exposed_read _ _ He) as (k & i & Hk & Hr).
    assert (c = b) as <-; [|by eapply live_exposed]. apply (Hloc c blk i); [done|by eapply list_elem_of_lookup_2|by apply reads_vreg]. }
  clear Hc Hentry. induction Hreach as [x|x y z Hxy _ IH]; [done|]. specialize (IH Hloc Hb).
  destruct Hxy as (blk & blk' & i & Hx & Hy & Hi & Ht). destruct (killed v (xb_insts blk)) eqn:Ek.
  - destruct (killed_write _ _ Ek) as (k & j & Hk & Hw). assert (x = z) as ->; [|done].
    apply (Hloc x blk j); [done|by eapply list_elem_of_lookup_2|by apply writes_vreg].
  - eapply live_through; [done..| |exact IH]. exists blk, blk', i. done.
Qed.

(** The block of a split, from the guards of the scan. *)
Lemma split_block f cx iv cp :
  alloc_ready f -> cx_calls cx = collect_calls f -> cx_ref_blocks cx = ref_blocks f -> cx_range cx = actual_ranges f ->
  single_call cx iv = Some cp -> split_ok cx iv = true ->
  exists b blk k i, xf_blocks f !! b = Some blk /\ xb_insts blk !! k = Some i /\ is_call i = true /\ pos_of f b k = cp /\
    forall c blk' j, xf_blocks f !! c = Some blk' -> j ∈ xb_insts blk' -> refers (N.to_nat (li_vreg iv)) j -> c = b.
Proof.
  intros Hr Ecalls Erefs Eranges Hcall Hok. destruct (single_call_bounds cx iv cp Hcall) as [_ Hcp]. rewrite Ecalls in Hcp.
  unfold split_ok in Hok. rewrite Hcall, Erefs, Eranges in Hok. apply andb_prop in Hok as [[_ Hok1]%andb_prop Hok2].
  destruct (ref_blocks f !! li_vreg iv) as [B|] eqn:EB; [|done]. apply bool_decide_eq_true in Hok1.
  destruct (actual_ranges f !! li_vreg iv) as [[rs re]|] eqn:ER; [|done]. apply andb_prop in Hok2 as [H1 H2].
  apply N.ltb_lt in H1, H2. destruct (ref_blocks_spec f (li_vreg iv)) as [HB _]. rewrite EB in HB. simpl in HB.
  apply size_1_elem_of in Hok1 as [b HBb]. 
  assert (Hin : forall c p i u, (c, (p, i)) ∈ located f -> u ∈ inst_vregs i -> vr_id u = li_vreg iv -> c = b).
  { intros c p i u Hl Hu Hv. assert (c ∈ B) as Hc by (apply HB; eauto 10). set_solver. }
  destruct (actual_range_refs f _ _ _ ER) as [(b1 & i1 & u1 & Hl1 & Hu1 & Hv1) (b2 & i2 & u2 & Hl2 & Hu2 & Hv2)].
  rewrite (Hin _ _ _ _ Hl1 Hu1 Hv1) in Hl1. rewrite (Hin _ _ _ _ Hl2 Hu2 Hv2) in Hl2.
  apply (located_in_f f Hr) in Hl1 as (blk & k1 & Hb & Hk1 & ->), Hl2 as (blk2 & k2 & Hb2 & Hk2 & ->).
  rewrite Hb in Hb2. injection Hb2 as <-.
  unfold collect_calls in Hcp. rewrite sort_by_key_perm in Hcp. apply list_elem_of_bind in Hcp as (nb & Hcp & Hnb).
  apply list_elem_of_fmap in Hcp as ([q i] & -> & Hq). apply list_elem_of_filter in Hq as [Hi Hq]. simpl in *.
  apply list_elem_of_lookup in Hnb as [c Hnb].
  destruct (located_in_f f Hr c q i) as (blkc & kc & Hc & Hkc & ->); [apply elem_of_located; eauto|].
  assert (c = b) as ->.
  { eapply (between_same_block f b c blk blkc k1 k2 kc); [done..| | |done]; by eapply lookup_lt_Some. }
  rewrite Hb in Hc. injection Hc as <-. exists b, blk, kc, i. repeat split; try done.
  intros c blk' j Hc Hj (u & Hu & Huv). apply list_elem_of_lookup in Hj as [k Hk].
  destruct (position_numbered f c blk' k j Hr Hc Hk) as (nb' & Hnb' & Hp').
  apply (Hin c (pos_of f c k) j u); [|done|unfold bit_of in Huv; lia].
  apply elem_of_located. pose proof (numbered_lookup f (ar_small f Hr) c blk' Hc) as Hn. eexists. split; [done|].
  apply number_insts_pos; [apply Hr|done..].
Qed.

(** * Hints *)

(** A hint comes from a move that names both registers. *)
Lemma hint_source f v r :
  collect_hints f !! v = Some r ->
  exists b i u, b ∈ xf_blocks f /\ i ∈ xb_insts b /\ u ∈ inst_vregs i /\ vr_id u = v /\ r ∈ phys_refs i.
Proof.
  unfold collect_hints.
  enough (H : forall l, foldl hint_inst ∅ l !! v = Some r -> exists i u, i ∈ l /\ u ∈ inst_vregs i /\ vr_id u = v /\ r ∈ phys_refs i).
  { intros (i & u & Hi & Hu)%H. apply list_elem_of_bind in Hi as (b & Hi & Hb). eauto 10. }
  intros l. induction l as [|i l IH] using rev_ind; [done|]. rewrite foldl_app. simpl. intros H.
  assert (Hold : foldl hint_inst ∅ l !! v = Some r -> exists j u, j ∈ l ++ [i] /\ u ∈ inst_vregs j /\ vr_id u = v /\ r ∈ phys_refs j).
  { intros (j & u & Hj & Hu)%IH. exists j, u. split; [apply elem_of_app; by left|done]. }
  assert (Hadd : forall u p, add_hint (foldl hint_inst ∅ l) (vr_id u) p !! v = Some r -> u ∈ inst_vregs i -> p ∈ phys_refs i ->
    exists j u, j ∈ l ++ [i] /\ u ∈ inst_vregs j /\ vr_id u = v /\ r ∈ phys_refs j).
  { intros u p Hh Hu Hp. unfold add_hint in Hh. destruct (_ !! vr_id u); [by apply Hold|].
    apply lookup_insert_Some in Hh as [[<- <-]|[_ Hh]]; [|by apply Hold]. exists i, u. split; [apply elem_of_app; right; left|done]. }
  unfold hint_inst in H at 1. destruct (fp_store_addr_vreg i) eqn:Ef; [by apply Hold|].
  destruct (is_plain_move (x_opcode i)); [|by apply Hold].
  destruct (x_def i) as [[u|p| | | | | | |]|] eqn:Ed; try (by apply Hold);
    destruct (x_operands i) as [|o ops] eqn:Eo; simpl in H; try (by apply Hold); destruct o as [u'|p'| | | | | | |]; try (by apply Hold).
  - apply (Hadd _ _ H).
    + unfold inst_vregs, def_vreg. rewrite Ef, Ed. left.
    + unfold phys_refs. rewrite Eo. simpl. left.
  - apply (Hadd _ _ H).
    + unfold inst_vregs, def_vreg, use_vregs. rewrite Ef, Ed, Eo. simpl. left.
    + unfold phys_refs. rewrite Ed, Eo. simpl. apply elem_of_app. left. apply list_elem_of_bind. exists (Reg p). split; [left|].
      apply elem_of_app. right. left.
Qed.

(** * Theorems *)

(** Register allocation always finishes, and gives a place to every register at
    every instruction that refers to it or that it is live at. *)
Theorem linear_scan_total entries f :
  lists_splits entries -> alloc_ready f ->
  exists res f', linear_scan entries f = Some (res, f') /\
    forall v b k, in_play f v b k -> is_Some (resolve res (N.of_nat v) (pos_of f b k)).
Proof.
  intros He Hr. destruct (linear_scan_run entries He f Hr) as (res & f' & s & cx & sc & segs & E & Hal).
  exists res, f'. split; [done|]. intros v b k Hp.
  destruct (in_play_covered f s v b k Hr (al_solve _ _ _ _ _ _ _ Hal) Hp) as (iv & Hiv & <- & Hin).
  rewrite <- (al_ivs _ _ _ _ _ _ _ Hal) in Hiv.
  destruct (resolve_cases f res f' s cx sc segs Hal iv (pos_of f b k) Hiv Hin) as (loc & -> & _). done.
Qed.

(** C9: Two registers whose values matter at the same instruction are in different
    places, be it registers or frame slots. *)
Theorem allocation_no_conflict entries f res f' v w b k x y :
  lists_splits entries -> alloc_ready f -> linear_scan entries f = Some (res, f') ->
  in_play f v b k -> in_play f w b k -> v <> w ->
  resolve res (N.of_nat v) (pos_of f b k) = Some x -> resolve res (N.of_nat w) (pos_of f b k) = Some y -> x <> y.
Proof.
  intros He Hr E Hv Hw Hne Ex Ey <-. destruct (linear_scan_run entries He f Hr) as (res' & g & s & cx & sc & segs & E' & Hal).
  rewrite E in E'. injection E' as <- <-.
  destruct (in_play_place _ _ _ _ _ _ _ _ _ _ _ Hr Hal Hv Ex) as (iv & Hiv & Ev & Hx).
  destruct (in_play_place _ _ _ _ _ _ _ _ _ _ _ Hr Hal Hw Ey) as (iv' & Hiv' & Ew & Hy).
  rewrite <- Ev in Hx. rewrite <- Ew in Hy. assert (Hvw : li_vreg iv <> li_vreg iv') by (rewrite Ev, Ew; lia).
  destruct x as [r|z]; [by eapply (no_conflict f _ _ _ _ _ _ Hal iv iv')|].
  apply Hvw. by eapply (no_slot_conflict f _ _ _ _ _ _ Hal).
Qed.

(** C10: A register whose value matters at an instruction is not in a physical register
    that the instruction names, reads or clobbers, nor in one in which an argument still waits to
    be received, except at the call that splits its range, where the value is saved and reloaded. *)
Theorem allocation_avoids_fixed entries f res f' v b k blk i r :
  lists_splits entries -> alloc_ready f -> linear_scan entries f = Some (res, f') ->
  in_play f v b k -> xf_blocks f !! b = Some blk -> xb_insts blk !! k = Some i -> occupied f b k i r ->
  resolve res (N.of_nat v) (pos_of f b k) = Some (InReg r) ->
  exists rec, rec ∈ split_records res /\ sr_vreg rec = N.of_nat v /\ sr_call rec = pos_of f b k.
Proof.
  intros He Hr E Hv Hb Hi Hri Ex. destruct (linear_scan_run entries He f Hr) as (res' & g & s & cx & sc & segs & E' & Hal).
  rewrite E in E'. injection E' as <- <-.
  destruct (in_play_place _ _ _ _ _ _ _ _ _ _ _ Hr Hal Hv Ex) as (iv & Hiv & Ev & Hx). rewrite <- Ev in *.
  destruct (occupied_marked f _ b blk k i r Hr (al_occ _ _ _ _ _ _ _ Hal) Hb Hi Hri) as (ps & Hps & Hin & Hs).
  by eapply (no_fixed_conflict f _ _ _ _ _ _ Hal iv).
Qed.

(** A register keeps to the pool of its class, callee-saved registers that are used are
    recorded for the prologue, and a spilled register has a slot of its class that the
    function did not have before. *)
Theorem allocation_places entries f res f' iv p loc :
  lists_splits entries -> alloc_ready f -> linear_scan entries f = Some (res, f') ->
  iv ∈ intervals (liveness res) -> (li_start iv <= p <= li_end iv)%N -> resolve res (li_vreg iv) p = Some loc ->
  match loc with
  | InReg r => r ∈ (if is_fp_class (li_class iv) then FP_ALLOC_ORDER else GP_ALLOC_ORDER) /\
               (is_callee_saved r = true -> r ∈ callee_saved_used res)
  | InSlot z => (Z.of_nat (length (frame_slots f)) <= z)%Z /\
               exists slot, frame_slots f' !! Z.to_nat z = Some slot /\ (fs_size slot, fs_align slot) = spill_slot_size (li_class iv)
  end.
Proof.
  intros He Hr E Hiv Hp Eloc. destruct (linear_scan_run entries He f Hr) as (res' & g & s & cx & sc & segs & E' & Hal).
  rewrite E in E'. injection E' as <- <-.
  destruct (resolve_cases f res f' s cx sc segs Hal iv p Hiv Hp) as (loc' & E' & H'). rewrite Eloc in E'. injection E' as <-.
  destruct loc as [r|z].
  - destruct H' as (u & a & Ha & <- & Hu & _). pose proof (al_inv _ _ _ _ _ _ _ Hal) as Hinv. split.
    + destruct (ri_clear _ _ _ _ _ _ (sv_regs _ _ _ _ _ _ Hinv) u a Ha) as (_ & Hpool & _).
      by rewrite (half_class f res f' s cx sc segs Hal iv u a) in Hpool.
    + intros Hcs. rewrite (al_saved _ _ _ _ _ _ _ Hal), sort_by_key_perm, elem_of_elements.
      by eapply (sv_saved _ _ _ _ _ _ Hinv).
  - split; [by apply (slot_fresh f _ _ _ _ _ _ Hal) in H' as [? _]|]. by eapply (slot_sized f _ _ _ _ _ _ Hal).
Qed.

(** A range is split only inside a block: when nothing is read before it is written,
    the split register is live across no block boundary, every reference to it is in
    the block of the call, and the call is an instruction of that block. *)
Theorem splits_are_local entries f res f' rec :
  lists_splits entries -> alloc_ready f -> linear_scan entries f = Some (res, f') -> rec ∈ split_records res ->
  (forall v, ~ live_into f v 0) -> (forall b, (b < length (xf_blocks f))%nat -> rtc (x86_edge f) 0%nat b) ->
  exists b blk k i, xf_blocks f !! b = Some blk /\ xb_insts blk !! k = Some i /\ is_call i = true /\
    pos_of f b k = sr_call rec /\
    (forall c, ~ live_into f (N.to_nat (sr_vreg rec)) c) /\
    (forall c blk' j, xf_blocks f !! c = Some blk' -> j ∈ xb_insts blk' -> refers (N.to_nat (sr_vreg rec)) j -> c = b).
Proof.
  intros He Hr E Hrec Hentry Hreach. destruct (linear_scan_run entries He f Hr) as (res' & g & s & cx & sc & segs & E' & Hal).
  rewrite E in E'. injection E' as <- <-.
  apply (al_records _ _ _ _ _ _ _ Hal) in Hrec as (syn & v & cp & z & a & post & Hsyn & _ & _ & ->). cbn [sr_vreg sr_call split_record].
  destruct (bi_split _ _ _ _ _ _ _ _ (sv_book _ _ _ _ _ _ (al_inv _ _ _ _ _ _ _ Hal)) _ _ _ _ Hsyn) as [_ (iv & Hiv & <- & Hcall & Hok & _)].
  destruct (split_block f cx iv cp Hr (al_calls _ _ _ _ _ _ _ Hal) (al_refs _ _ _ _ _ _ _ Hal) (al_ranges _ _ _ _ _ _ _ Hal) Hcall Hok)
    as (b & blk & k & i & Hb & Hk & Hi & Hpos & Hloc).
  exists b, blk, k, i. repeat split; try done.
  apply (local_not_live f _ b); [done| |apply Hentry]. apply Hreach. by eapply lookup_lt_Some.
Qed.

(** A hint is never honoured: the register an interval prefers is named by the
    move the hint comes from, inside the interval, so it is never free over it. *)
Theorem hint_never_free f lv occ iv r :
  alloc_ready f -> compute_liveness f = Some lv -> build_phys_occupancy f = Some occ ->
  iv ∈ intervals lv -> li_hint iv = Some r -> phys_free_over occ r (li_start iv) (li_end iv) = false.
Proof.
  intros Hr El Eo Hiv Hh. unfold compute_liveness in El. destruct (solve_liveness f) as [s|] eqn:Es; [|done].
  injection El as <-. cbn [intervals] in Hiv.
  assert (Hc : collect_hints f !! li_vreg iv = Some r).
  { apply elem_of_intervals in Hiv as (v & _ & Hm). unfold make_interval in Hm.
    set (t := build_tables f s) in Hm. destruct (starts t !! v) as [[x|]|], (ends t !! v) as [[y|]|], (classes t !! v) as [c|]; try done. by injection Hm as <-. }
  apply hint_source in Hc as (b & i & u & Hb & Hi & Hu & Eu & Hri).
  apply list_elem_of_lookup in Hb as [n Hb]. apply list_elem_of_lookup in Hi as [k Hi].
  destruct (in_play_covered f s (bit_of u) n k Hr Es) as (iv' & Hiv' & Ev & Hin); [exists b, i; eauto 10|].
  assert (iv' = iv) as ->.
  { eapply (interval_unique f); [done..|]. rewrite Ev. unfold bit_of. rewrite <- Eu. lia. }
  destruct (position_numbered f n b k i Hr Hb Hi) as (nb & Hnb & Hp).
  destruct (occupancy_spec f occ nb _ i r Eo Hnb Hp Hri) as (ps & Hps & Hps' & Hs).
  apply not_true_is_false. intros Hf. by eapply (phys_free_over_spec _ _ _ _ ps _ Hps Hs Hf Hps').
Qed.

(** * Witnesses *)

Lemma call_fn_ready : alloc_ready call_fn.
Proof.
  split.
  - apply (bool_decide_unpack _). vm_compute. done.
  - vm_compute. done.
  - vm_compute. done.
  - vm_compute. done.
  - vm_compute. done.
  - intros [|k] s Hs; [by injection Hs as <-|done].
  - intros r Hr. apply list_elem_of_singleton in Hr as ->. vm_compute. eauto.
Qed.

Lemma map_splits : lists_splits map_to_list.
Proof. by intros m. Qed.

(** The allocation of the sample: the value live over the call is split. *)
Definition call_alloc : option (AllocResult * X86Function) := linear_scan map_to_list call_fn.

Lemma call_fn_edge : x86_edge call_fn 0 1.
Proof.
  do 2 eexists. exists (mk_inst Jmp [BlockRef 1] None). split; [reflexivity|]. split; [reflexivity|]. split; [|reflexivity].
  do 7 right. left.
Qed.

(** The argument is live out of the first block. *)
Lemma call_live_out : live_out_of call_fn 0 0.
Proof. exists 1%nat. split; [apply call_fn_edge|]. eapply live_exposed; [reflexivity|vm_compute; reflexivity]. Qed.

Lemma call_in_play v : (v = 0 \/ v = 1)%nat -> in_play call_fn v 0 2.
Proof.
  intros Hv. do 2 eexists. split; [reflexivity|]. split; [reflexivity|]. left. eexists. split; [reflexivity|].
  split; [vm_compute; lia|]. destruct Hv as [->| ->].
  - right. split; [vm_compute; reflexivity|apply call_live_out].
  - left. vm_compute. reflexivity.
Qed.

Lemma linear_scan_total_witness :
  exists res f', linear_scan map_to_list call_fn = Some (res, f') /\ is_Some (resolve res 1 (pos_of call_fn 0 2)).
Proof.
  destruct (linear_scan_total map_to_list call_fn map_splits call_fn_ready) as (res & f' & E & H).
  exists res, f'. split; [exact E|]. apply (H 1%nat). apply call_in_play. by right.
Defined.

Lemma allocation_no_conflict_witness : InReg Xmm0 <> InReg Rbx.
Proof.
  destruct (linear_scan map_to_list call_fn) as [[res f']|] eqn:E; [|vm_compute in E; done].
  apply (allocation_no_conflict map_to_list call_fn res f' 1 0 0 2 (InReg Xmm0) (InReg Rbx) map_splits call_fn_ready E).
  - apply call_in_play. by right.
  - apply call_in_play. by left.
  - done.
  - vm_compute in E. injection E as <- _. vm_compute. reflexivity.
  - vm_compute in E. injection E as <- _. vm_compute. reflexivity.
Defined.

Lemma allocation_avoids_fixed_witness :
  exists res f' rec, linear_scan map_to_list call_fn = Some (res, f') /\ rec ∈ split_records res /\ sr_vreg rec = 1%N /\ sr_call rec = 4%N.
Proof.
  destruct (linear_scan map_to_list call_fn) as [[res f']|] eqn:E; [|vm_compute in E; done].
  destruct (allocation_avoids_fixed map_to_list call_fn res f' 1 0 2 _ _ Xmm0 map_splits call_fn_ready E
    ltac:(apply call_in_play; by right) eq_refl eq_refl) as (rec & Hin & Hv & Hc).
  - left. apply (bool_decide_unpack _). vm_compute. done.
  - vm_compute in E. injection E as <- _. vm_compute. reflexivity.
  - exists res, f', rec. split; [reflexivity|]. split; [exact Hin|]. split; [exact Hv|]. rewrite Hc. vm_compute. reflexivity.
Defined.

Lemma allocation_places_witness :
  exists res f', linear_scan map_to_list call_fn = Some (res, f') /\ Rbx ∈ callee_saved_used res.
Proof.
  destruct (linear_scan map_to_list call_fn) as [[res f']|] eqn:E; [|vm_compute in E; done].
  exists res, f'. split; [reflexivity|].
  assert (Hiv : {| li_vreg := 0; li_class := Gp64; li_start := 0; li_end := 22; li_hint := Some Rdi |} ∈ intervals (liveness res)).
  { vm_compute in E. injection E as <- _. apply (bool_decide_unpack _). vm_compute. done. }
  apply (allocation_places map_to_list call_fn res f' _ 4 (InReg Rbx) map_splits call_fn_ready E Hiv).
  - split; apply N.leb_le; reflexivity.
  - vm_compute in E. injection E as <- _. vm_compute. reflexivity.
  - reflexivity.
Defined.

Lemma call_fn_entry v : ~ live_into call_fn v 0.
Proof.
  intros H. destruct (solve_liveness call_fn) as [s|] eqn:E; [|vm_compute in E; done].
  apply (solve_liveness_exact call_fn (ar_unique _ call_fn_ready) s 0 v E) in H; [|vm_compute; lia].
  vm_compute in E. injection E as <-. unfold in_bit in H. change (row _ 0) with (replicate 1 0%N) in H.
  by rewrite bit_is_set_zero in H.
Qed.

Lemma splits_are_local_witness :
  exists res f' rec, linear_scan map_to_list call_fn = Some (res, f') /\ rec ∈ split_records res /\
    forall c, ~ live_into call_fn (N.to_nat (sr_vreg rec)) c.
Proof.
  destruct (linear_scan map_to_list call_fn) as [[res f']|] eqn:E; [|vm_compute in E; done].
  assert (Hrec : exists rec, rec ∈ split_records res).
  { vm_compute in E. injection E as <- _. cbn [split_records]. eexists. left. }
  destruct Hrec as [rec Hrec]. exists res, f', rec. split; [reflexivity|]. split; [exact Hrec|].
  destruct (splits_are_local map_to_list call_fn res f' rec map_splits call_fn_ready E Hrec call_fn_entry) as (b & blk & k & i & _ & _ & _ & _ & H & _).
  - intros [|[|b]] Hb; [apply rtc_refl|apply rtc_once, call_fn_edge|vm_compute in Hb; lia].
  - exact H.
Defined.

Lemma hint_never_free_witness :
  exists occ, build_phys_occupancy call_fn = Some occ /\ phys_free_over occ Rdi 0 22 = false.
Proof.
  destruct (scan_setup call_fn call_fn_ready) as (s & lv & cx & _ & El & _ & _ & Eo & _).
  exists (cx_occ cx). split; [exact Eo|].
  apply (hint_never_free call_fn lv (cx_occ cx) {| li_vreg := 0; li_class := Gp64; li_start := 0; li_end := 22; li_hint := Some Rdi |} Rdi call_fn_ready El Eo).
  - vm_compute in El. injection El as <-. apply (bool_decide_unpack _). vm_compute. done.
  - reflexivity.
Defined.
