(* ===== verification/X86Apply.v ===== *)
(** Applying a register allocation (src/src/codegen/x86/linearscan.rs,
    [apply_allocation]; src/src/codegen/x86/regalloc.rs, the helpers it shares with
    the naive allocator, and the naive allocator itself): frame layout, operand
    rewriting, spill code, split bridges, callee-saved registers, coalescing.

    [None] is a panic of the code. *)

From stdpp Require Import sorting.
From S2P Require Import Prelude BitSet Slices X86Mir X86Liveness X86LinearScan X86AllocInv X86AllocSafe.
From stdpp Require Import list.

(** * Spill traffic (src/src/codegen/x86/regalloc.rs) *)

(** The widths of the xmm operands of a conversion: (use, def). *)
Definition xmm_width_override (op : X86Opcode) : option OpSize * option OpSize :=
  match op with
  | Cvtsi2ss => (None, Some SzL)
  | Cvtsi2sd => (None, Some SzQ)
  | Cvttss2si => (Some SzL, None)
  | Cvttsd2si => (Some SzQ, None)
  | Cvtss2sd => (Some SzL, Some SzQ)
  | Cvtsd2ss => (Some SzQ, Some SzL)
  | _ => (None, None)
  end.

(** The operand that carries an address in a register. *)
Definition addr_operand_position (i : X86Inst) : option nat :=
  match x_opcode i with
  | MovRM | MovzxRM _ | MovsxRM _ => Some 0%nat
  | MovMR | MovMI => Some 1%nat
  | Lea => Some 0%nat
  | Movss | Movsd | Movups =>
      match x_operands i !! 0%nat with
      | Some (VReg v) => if bool_decide (vr_class v <> Xmm) && bool_decide (vr_class v <> Xmm128) then Some 0%nat else None
      | _ => None
      end
  | _ => None
  end.

Definition load (scratch : X86Reg) (c : X86RegClass) (mem : X86Operand) (size : OpSize) : X86Inst :=
  match c with
  | Xmm128 => {| x_opcode := Movups; x_size := SzQ; x_operands := [mem]; x_def := Some (Reg scratch) |}
  | Xmm => {| x_opcode := if bool_decide (size = SzL) then Movss else Movsd; x_size := size; x_operands := [mem];
              x_def := Some (Reg scratch) |}
  | _ => {| x_opcode := MovRM; x_size := size; x_operands := [mem]; x_def := Some (Reg scratch) |}
  end.

Definition store (scratch : X86Reg) (c : X86RegClass) (mem : X86Operand) (size : OpSize) : X86Inst :=
  match c with
  | Xmm128 => {| x_opcode := Movups; x_size := SzQ; x_operands := [Reg scratch]; x_def := Some mem |}
  | Xmm => {| x_opcode := if bool_decide (size = SzL) then Movss else Movsd; x_size := size; x_operands := [Reg scratch];
              x_def := Some mem |}
  | _ => {| x_opcode := MovMR; x_size := size; x_operands := [Reg scratch; mem]; x_def := None |}
  end.

(** * Frame layout *)

Definition i64 (z : Z) : Z := swrap 64 z.

(** The displacement of a slot placed below [offset]. *)
Definition place_slot (offset : Z) (slot : X86FrameSlot) : Z :=
  let align := i64 (Z.max (fs_align slot) 1) in
  i64 (- Z.land (i64 (- offset + i64 (fs_size slot) + align - 1)) (Z.lnot (align - 1))).

Record layout := { ly_offset : Z; ly_disp : gmap Z Z; ly_size : gmap Z Z }.

Definition layout_slot (l : layout) (slot : X86FrameSlot) : layout :=
  let offset := place_slot (ly_offset l) slot in
  {| ly_offset := offset; ly_disp := <[fs_id slot := offset]> (ly_disp l); ly_size := <[fs_id slot := fs_size slot]> (ly_size l) |}.

Definition lay_out (slots : list X86FrameSlot) : layout :=
  foldl layout_slot {| ly_offset := 0; ly_disp := ∅; ly_size := ∅ |} slots.

(** The size of the frame: the slots and the outgoing arguments, rounded to 16. *)
Definition frame_size (l : layout) (outgoing : Z) : Z :=
  Z.land (i64 (- ly_offset l + outgoing + 15)) (Z.lnot 15).

Definition set_frame_bytes (f : X86Function) (bytes : Z) : X86Function :=
  {| xf_name := xf_name f; xf_blocks := xf_blocks f; rodata := rodata f; rodata_bytes := rodata_bytes f;
     frame_slots := frame_slots f; outgoing_arg_bytes := outgoing_arg_bytes f; frame_bytes := bytes;
     entry_live_ins := entry_live_ins f; next_vreg := next_vreg f; next_block := next_block f |}.

Definition slot_mem (d : Z) : X86Operand := Mem (Some Rbp) None 1 d.
Definition reg_mem (r : X86Reg) : X86Operand := Mem (Some r) None 1 0.

Definition mem_for_slot (l : layout) (slot : Z) : option X86Operand := slot_mem <$> ly_disp l !! slot.

(** * Rewriting an instruction

    [where v] is the place of a register, the resolution at the position of the
    instruction; [check] says whether the access width of a spilled operand is
    compared with its slot. *)

Record scratch_st := { st_pre : list X86Inst; st_gp : nat; st_fp : nat }.

Definition next_scratch (c : X86RegClass) (st : scratch_st) : option (X86Reg * scratch_st) :=
  if is_fp_class c
  then (fun r => (r, {| st_pre := st_pre st; st_gp := st_gp st; st_fp := S (st_fp st) |})) <$> FP_SCRATCH !! st_fp st
  else (fun r => (r, {| st_pre := st_pre st; st_gp := S (st_gp st); st_fp := st_fp st |})) <$> GP_SCRATCH !! st_gp st.

Definition push_pre (i : X86Inst) (st : scratch_st) : scratch_st :=
  {| st_pre := st_pre st ++ [i]; st_gp := st_gp st; st_fp := st_fp st |}.

Definition u64_max : Z := (2 ^ 64 - 1)%Z.

Section rewrite.
Context (l : layout) (check : bool) (place : X86VReg -> option Resolved).

(** The assertion on the width of an access to a slot. *)
Definition width_ok (c : X86RegClass) (slot : Z) : bool :=
negb check || ((spill_slot_size c).1 <=? default u64_max (ly_size l !! slot))%Z.

(** Load a spilled register into the next scratch register. *)
Definition reload (c : X86RegClass) (slot : Z) (size : OpSize) (st : scratch_st) : option (X86Reg * scratch_st) :=
'(r, st) ← next_scratch c st;
mem ← mem_for_slot l slot;
Some (r, push_pre (load r c mem size) st).

Definition use_size (i : X86Inst) (is_addr : bool) (c : X86RegClass) : OpSize :=
if is_addr then SzQ
else if bool_decide (c = Xmm) then default (x_size i) (xmm_width_override (x_opcode i)).1
else x_size i.

Definition rewrite_use (i : X86Inst) (k : nat) (op : X86Operand) (st : scratch_st) : option (X86Operand * scratch_st) :=
match op with
| VReg v =>
let is_addr := bool_decide (addr_operand_position i = Some k) in
let as_operand r := if is_addr then reg_mem r else Reg r in
match place v with
| None => None
| Some (InReg phys) => Some (as_operand phys, st)
| Some (InSlot slot) =>
if width_ok (vr_class v) slot then
'(r, st) ← reload (vr_class v) slot (use_size i is_addr (vr_class v)) st;
Some (as_operand r, st)
else None
end
| FrameSlot slot => mem ← mem_for_slot l slot; Some (mem, st)
| _ => Some (op, st)
end.

Fixpoint rewrite_uses (i : X86Inst) (k : nat) (ops : list X86Operand) (st : scratch_st) : option (list X86Operand * scratch_st) :=
match ops with
| [] => Some ([], st)
| op :: ops' =>
'(op', st) ← rewrite_use i k op st;
'(rest, st) ← rewrite_uses i (S k) ops' st;
Some (op' :: rest, st)
end.

(** A definition that must share the place of operand 0. *)
Definition is_tied (i : X86Inst) : option X86VReg :=
match tied_use (x_opcode i), x_def i, x_operands i !! 0%nat with
| Some _, Some (VReg d), Some (VReg a) => if bool_decide (vr_id d = vr_id a) then Some a else None
| _, _, _ => None
end.

(** What has to be written back after the instruction. *)
Notation write_back := (option (X86Reg * X86RegClass * Z)).

Definition rewrite_tied (i : X86Inst) (v : X86VReg) (st : scratch_st) : option (X86Reg * write_back * scratch_st) :=
match place v with
| None => None
| Some (InReg phys) => Some (phys, None, st)
| Some (InSlot slot) =>
'(r, st) ← reload (vr_class v) slot (x_size i) st;
Some (r, Some (r, vr_class v, slot), st)
end.

Definition rewrite_def (i : X86Inst) (st : scratch_st) : option (option X86Operand * write_back * scratch_st) :=
match x_def i with
| Some (VReg v) =>
let is_addr := match fp_store_addr_vreg i with Some _ => true | None => false end in
match place v with
| None => None
| Some (InReg phys) => Some (Some (if is_addr then reg_mem phys else Reg phys), None, st)
| Some (InSlot slot) =>
if width_ok (vr_class v) slot then
if is_addr then
'(r, st) ← reload (vr_class v) slot SzQ st;
Some (Some (reg_mem r), None, st)
else
'(r, st) ← next_scratch (vr_class v) st;
Some (Some (Reg r), Some (r, vr_class v, slot), st)
else None
end
| Some (FrameSlot slot) => mem ← mem_for_slot l slot; Some (Some mem, None, st)
| d => Some (d, None, st)
end.

Definition store_size (i : X86Inst) (c : X86RegClass) : OpSize :=
if bool_decide (c = Xmm) then default (x_size i) (xmm_width_override (x_opcode i)).2
else if bool_decide (x_size i = SzL) then SzQ else x_size i.

Definition write_back_inst (i : X86Inst) (wb : write_back) : option (list X86Inst) :=
match wb with
| None => Some []
| Some (r, c, slot) => mem ← mem_for_slot l slot; Some [store r c mem (store_size i c)]
end.

(** The loads, the rewritten instruction and the store it becomes. *)
Definition rewrite_inst (i : X86Inst) : option (list X86Inst) :=
let st0 := {| st_pre := []; st_gp := 0; st_fp := 0 |} in
match is_tied i with
| Some v =>
'(r, wb, st) ← rewrite_tied i v st0;
let i1 := {| x_opcode := x_opcode i; x_size := x_size i; x_operands := <[0%nat := Reg r]> (x_operands i); x_def := Some (Reg r) |} in
'(ops, st) ← rewrite_uses i1 1 (drop 1 (x_operands i)) st;
tail ← write_back_inst i wb;
Some (st_pre st ++ [{| x_opcode := x_opcode i; x_size := x_size i; x_operands := Reg r :: ops; x_def := Some (Reg r) |}] ++ tail)
| None =>
'(ops, st) ← rewrite_uses i 0 (x_operands i) st0;
'(d, wb, st) ← rewrite_def {| x_opcode := x_opcode i; x_size := x_size i; x_operands := ops; x_def := x_def i |} st;
tail ← write_back_inst i wb;
Some (st_pre st ++ [{| x_opcode := x_opcode i; x_size := x_size i; x_operands := ops; x_def := d |}] ++ tail)
end.

End rewrite.

(** * Applying the linear scan *)

(** A slot for each callee-saved register that is used. *)
Definition alloc_saves (f : X86Function) (regs : list X86Reg) : list (X86Reg * Z) * X86Function :=
  foldl (fun st r => let '(slot, f) := alloc_frame_slot st.2 8 8 in (st.1 ++ [(r, slot)], f)) ([], f) regs.

(** The splits a call bridges. *)
Definition bridges_at (res : AllocResult) (pos : N) (i : X86Inst) : list SplitRecord :=
  if is_call i then filter (fun r => sr_call r = pos) (split_records res) else [].

Definition bridge_store (l : layout) (r : SplitRecord) : option X86Inst :=
  (fun mem => store (sr_pre r) (sr_class r) mem SzQ) <$> mem_for_slot l (sr_bridge r).

Definition bridge_load (l : layout) (r : SplitRecord) : option (list X86Inst) :=
  match sr_post r with
  | Allocated p => (fun mem => [load p (sr_class r) mem SzQ]) <$> mem_for_slot l (sr_bridge r)
  | SpilledHalf => Some []
  end.

Definition apply_inst (l : layout) (res : AllocResult) (pi : N * X86Inst) : option (list X86Inst) :=
  let bridges := bridges_at res pi.1 pi.2 in
  before ← mapM (bridge_store l) bridges;
  body ← rewrite_inst l true (fun v => resolve res (vr_id v) pi.1) pi.2;
  after ← mapM (bridge_load l) bridges;
  Some (before ++ body ++ mjoin after).

Definition apply_block (l : layout) (res : AllocResult) (b : X86Block) (nb : numbered_block) : option X86Block :=
  insts ← mapM (apply_inst l res) (nb_insts nb);
  Some {| xb_id := xb_id b; xb_insts := mjoin insts |}.

Definition is_ret (i : X86Inst) : bool := match x_opcode i with Ret => true | _ => false end.

(** The restores go in front of every return, the saves to the head of the first block. *)
Definition add_restores (restores : list X86Inst) (b : X86Block) : X86Block :=
  {| xb_id := xb_id b; xb_insts := xb_insts b ≫= fun i => if is_ret i then restores ++ [i] else [i] |}.

Definition add_saves (saves : list X86Inst) (bs : list X86Block) : option (list X86Block) :=
  match bs with
  | b :: bs' => Some ({| xb_id := xb_id b; xb_insts := saves ++ xb_insts b |} :: bs')
  | [] => None
  end.

Definition is_self_move (i : X86Inst) : bool :=
  is_plain_move (x_opcode i) &&
  match x_def i, x_operands i !! 0%nat with
  | Some (Reg d), Some (Reg s) => bool_decide (d = s)
  | _, _ => false
  end.

Definition coalesce_self_moves (bs : list X86Block) : list X86Block :=
  (fun b => {| xb_id := xb_id b; xb_insts := filter (fun i => is_self_move i = false) (xb_insts b) |}) <$> bs.

Definition save_inst (l : layout) (p : X86Reg * Z) : option X86Inst := (fun mem => store p.1 Gp64 mem SzQ) <$> mem_for_slot l p.2.
Definition restore_inst (l : layout) (p : X86Reg * Z) : option X86Inst := (fun mem => load p.1 Gp64 mem SzQ) <$> mem_for_slot l p.2.

Definition save_and_restore (l : layout) (callee_slot : list (X86Reg * Z)) (bs : list X86Block) : option (list X86Block) :=
  match callee_slot with
  | [] => Some bs
  | _ =>
      saves ← mapM (save_inst l) callee_slot;
      restores ← mapM (restore_inst l) callee_slot;
      add_saves saves (add_restores restores <$> bs)
  end.

Fixpoint apply_blocks (l : layout) (res : AllocResult) (bs : list X86Block) (nbs : list numbered_block) : option (list X86Block) :=
  match bs, nbs with
  | b :: bs', nb :: nbs' =>
      b' ← apply_block l res b nb;
      rest ← apply_blocks l res bs' nbs';
      Some (b' :: rest)
  | _, _ => Some []
  end.

Definition apply_allocation (f : X86Function) (res : AllocResult) : option X86Function :=
  let '(callee_slot, f1) := alloc_saves f (callee_saved_used res) in
  let l := lay_out (frame_slots f1) in
  bs ← apply_blocks l res (xf_blocks f1) (numbered f1);
  bs ← save_and_restore l callee_slot bs;
  Some (with_blocks (set_frame_bytes f1 (frame_size l (outgoing_arg_bytes f1))) (coalesce_self_moves bs)).

(** * The naive allocator *)

Definition operand_vregs (i : X86Inst) : list X86VReg := omap operand_vreg (x_operands i ++ option_list (x_def i)).

Definition naive_classes (f : X86Function) : gmap VRegId X86RegClass :=
  foldl (fun m v => <[vr_id v := vr_class v]> m) ∅ (xf_blocks f ≫= fun b => xb_insts b ≫= operand_vregs).

(** A slot for every register, in the order of their identifiers. *)
Definition naive_slots (f : X86Function) : gmap VRegId Z * X86Function :=
  foldl (fun st id =>
           let '(sz, al) := if bool_decide (naive_classes f !! id = Some Xmm128) then (16, 16)%Z else (8, 8)%Z in
           let '(slot, f) := alloc_frame_slot st.2 sz al in
           (<[id := slot]> st.1, f))
        (∅, f) (sort_by_key id (elements (dom (naive_classes f)))).

Definition naive_block (l : layout) (slots : gmap VRegId Z) (b : X86Block) : option X86Block :=
  insts ← mapM (rewrite_inst l false (fun v => InSlot <$> slots !! vr_id v)) (xb_insts b);
  Some {| xb_id := xb_id b; xb_insts := mjoin insts |}.

Definition regalloc_naive (f : X86Function) : option X86Function :=
  let '(slots, f1) := naive_slots f in
  let l := lay_out (frame_slots f1) in
  bs ← mapM (naive_block l slots) (xf_blocks f1);
  Some (with_blocks (set_frame_bytes f1 (frame_size l (outgoing_arg_bytes f1))) bs).

(** * What is left after rewriting *)

Definition physical_operand (op : X86Operand) : bool := match op with VReg _ | FrameSlot _ => false | _ => true end.

(** No virtual register and no unresolved frame slot remains. *)
Definition physical (i : X86Inst) : bool :=
  forallb physical_operand (x_operands i) && match x_def i with Some d => physical_operand d | None => true end.

Definition physical_fn (f : X86Function) : Prop := forall b i, b ∈ xf_blocks f -> i ∈ xb_insts b -> physical i = true.

(** Operands an instruction may need a scratch register for. *)
Definition scratch_operands (i : X86Inst) : list X86VReg :=
  match is_tied i with
  | Some v => v :: omap operand_vreg (drop 1 (x_operands i))
  | None => omap operand_vreg (x_operands i) ++ omap operand_vreg (option_list (x_def i))
  end.

Definition count_class (fp : bool) (vs : list X86VReg) : nat := length (filter (fun v => is_fp_class (vr_class v) = fp) vs).

(** The two scratch registers of a class are enough for the instruction. *)
Definition scratch_fits (i : X86Inst) : Prop := forall fp, (count_class fp (scratch_operands i) <= 2)%nat.

Definition operand_slots (i : X86Inst) : list Z :=
  omap (fun op => match op with FrameSlot z => Some z | _ => None end) (x_operands i ++ option_list (x_def i)).

Section rewrite_facts.
Context (l : layout) (check : bool) (place : X86VReg -> option Resolved).

(** A register has a place the rewriting can use. *)
Definition usable (v : X86VReg) : Prop :=
exists loc, place v = Some loc /\
match loc with InReg _ => True | InSlot z => is_Some (ly_disp l !! z) /\ width_ok l check (vr_class v) z = true end.

Definition slot_known (z : Z) : Prop := is_Some (ly_disp l !! z).

(** Scratch registers in use, by class. *)
Definition used (fp : bool) (st : scratch_st) : nat := if fp then st_fp st else st_gp st.

Lemma mem_for_slot_known z : slot_known z -> exists m, mem_for_slot l z = Some m /\ physical_operand m = true.
Proof. intros [d Hd]. unfold mem_for_slot. rewrite Hd. simpl. by eexists. Qed.

Lemma next_scratch_ok c st :
(used (is_fp_class c) st < 2)%nat ->
exists r st', next_scratch c st = Some (r, st') /\ st_pre st' = st_pre st /\
forall fp, used fp st' = (used fp st + if Bool.eqb fp (is_fp_class c) then 1 else 0)%nat.
Proof.
unfold next_scratch, used. intros H.
destruct (is_fp_class c); destruct st as [pre g p]; simpl in *;
[destruct p as [|[|p]] | destruct g as [|[|g]]]; try lia; simpl;
do 2 eexists; (split; [reflexivity|]); (split; [reflexivity|]); intros []; simpl; lia.
Qed.

Lemma load_physical r c m size : physical_operand m = true -> physical (load r c m size) = true.
Proof. intros H. unfold load, physical. destruct c; simpl; by rewrite H. Qed.

Lemma store_physical r c m size : physical_operand m = true -> physical (store r c m size) = true.
Proof. intros H. unfold store, physical. destruct c; simpl; by rewrite ?H. Qed.

Lemma reload_ok c z size st :
(used (is_fp_class c) st < 2)%nat -> slot_known z -> Forall (fun i => physical i = true) (st_pre st) ->
exists r st', reload l c z size st = Some (r, st') /\ Forall (fun i => physical i = true) (st_pre st') /\
forall fp, used fp st' = (used fp st + if Bool.eqb fp (is_fp_class c) then 1 else 0)%nat.
Proof.
intros Hu Hz Hpre. destruct (next_scratch_ok c st Hu) as (r & st' & E & Hp & Hc). destruct (mem_for_slot_known z Hz) as (m & Em & Hm).
unfold reload. rewrite E. simpl. rewrite Em. simpl. do 2 eexists. split; [done|]. split; [|done].
simpl. rewrite Hp. apply list.Forall_app. split; [done|]. repeat constructor. by apply load_physical.
Qed.

Lemma rewrite_use_ok i k op st :
(forall v, op = VReg v -> usable v) -> (forall z, op = FrameSlot z -> slot_known z) ->
(forall fp, used fp st + count_class fp (option_list (operand_vreg op)) <= 2)%nat ->
Forall (fun i => physical i = true) (st_pre st) ->
exists op' st', rewrite_use l check place i k op st = Some (op', st') /\ physical_operand op' = true /\
Forall (fun i => physical i = true) (st_pre st') /\
(forall fp, used fp st' <= used fp st + count_class fp (option_list (operand_vreg op)))%nat.
Proof.
intros Hv Hz Hc Hpre. unfold rewrite_use. destruct op as [v| | |z| | | | |]; try (do 2 eexists; split; [done|]; split; [done|]; split; [done|]; intros fp; lia).
- destruct (Hv v eq_refl) as (loc & -> & Hloc). destruct loc as [r|z].
+ do 2 eexists. split; [done|]. split; [by case_bool_decide|]. split; [done|]. intros fp. lia.
+ destruct Hloc as [Hk ->]. unfold count_class in *. simpl in *.
assert (Hroom : (used (is_fp_class (vr_class v)) st < 2)%nat).
{ specialize (Hc (is_fp_class (vr_class v))). rewrite filter_cons, decide_True in Hc by done. simpl in Hc. lia. }
destruct (reload_ok (vr_class v) z (use_size i (bool_decide (addr_operand_position i = Some k)) (vr_class v)) st Hroom Hk Hpre)
as (r & st' & -> & Hp' & Hu'). simpl. do 2 eexists. split; [done|]. split; [by case_bool_decide|]. split; [done|].
intros fp. rewrite Hu', filter_cons. destruct fp, (is_fp_class (vr_class v)); simpl; lia.
- destruct (mem_for_slot_known z (Hz z eq_refl)) as (m & -> & Hm). simpl. do 2 eexists. split; [done|]. split; [done|]. split; [done|].
intros fp. lia.
Qed.

Lemma rewrite_uses_ok i k ops st :
(forall v, v ∈ omap operand_vreg ops -> usable v) -> (forall z, FrameSlot z ∈ ops -> slot_known z) ->
(forall fp, used fp st + count_class fp (omap operand_vreg ops) <= 2)%nat ->
Forall (fun i => physical i = true) (st_pre st) ->
exists ops' st', rewrite_uses l check place i k ops st = Some (ops', st') /\ Forall (fun op => physical_operand op = true) ops' /\
Forall (fun i => physical i = true) (st_pre st') /\
(forall fp, used fp st' <= used fp st + count_class fp (omap operand_vreg ops))%nat.
Proof.
revert k st. induction ops as [|op ops IH]; intros k st Hv Hz Hc Hpre.
{ do 2 eexists. split; [done|]. split; [constructor|]. split; [done|]. intros fp. lia. }
assert (Hsplit : forall fp, count_class fp (omap operand_vreg (op :: ops)) =
(count_class fp (option_list (operand_vreg op)) + count_class fp (omap operand_vreg ops))%nat).
{ intros fp. unfold count_class. rewrite <- length_app, <- filter_app. do 2 f_equal. by destruct op. }
cbn [rewrite_uses].
destruct (rewrite_use_ok i k op st) as (op' & st1 & -> & Hop & Hp1 & Hu1).
{ intros v ->. apply Hv. left. }
{ intros z ->. apply Hz. left. }
{ intros fp. specialize (Hc fp). rewrite Hsplit in Hc. lia. }
{ done. }
simpl. destruct (IH (S k) st1) as (ops' & st2 & -> & Hops & Hp2 & Hu2).
{ intros v Hin. apply Hv. destruct op; try done. by right. }
{ intros z Hin. apply Hz. by right. }
{ intros fp. specialize (Hc fp). specialize (Hu1 fp). rewrite Hsplit in Hc. lia. }
{ done. }
simpl. do 2 eexists. split; [done|]. split; [by constructor|]. split; [done|].
intros fp. specialize (Hu1 fp). specialize (Hu2 fp). rewrite Hsplit. lia.
Qed.

Lemma rewrite_def_ok i st :
(forall v, x_def i = Some (VReg v) -> usable v) -> (forall z, x_def i = Some (FrameSlot z) -> slot_known z) ->
(forall fp, used fp st + count_class fp (omap operand_vreg (option_list (x_def i))) <= 2)%nat ->
Forall (fun i => physical i = true) (st_pre st) ->
exists d wb st', rewrite_def l check place i st = Some (d, wb, st') /\ from_option physical_operand true d = true /\
Forall (fun i => physical i = true) (st_pre st') /\ (forall r c z, wb = Some (r, c, z) -> slot_known z).
Proof.
intros Hv Hz Hc Hpre. unfold rewrite_def. destruct (x_def i) as [[v| | |z| | | | |]|] eqn:Ed; try (by do 3 eexists).
- destruct (Hv v eq_refl) as (loc & -> & Hloc). destruct loc as [r|z].
+ do 3 eexists. split; [done|]. split; [by case_match|]. done.
+ destruct Hloc as [Hk ->]. unfold count_class in *. simpl in *.
assert (Hroom : (used (is_fp_class (vr_class v)) st < 2)%nat).
{ specialize (Hc (is_fp_class (vr_class v))). rewrite filter_cons, decide_True in Hc by done. simpl in Hc. lia. }
destruct (fp_store_addr_vreg i).
* destruct (reload_ok (vr_class v) z SzQ st Hroom Hk Hpre) as (r & st' & -> & Hp' & _). simpl. by do 3 eexists.
* destruct (next_scratch_ok (vr_class v) st Hroom) as (r & st' & -> & Hp' & _). simpl. do 3 eexists. split; [done|].
split; [done|]. split; [by rewrite Hp'|]. intros r' c' z' [= <- <- <-]. done.
- destruct (mem_for_slot_known z (Hz z eq_refl)) as (m & -> & Hm). simpl. by do 3 eexists.
Qed.

Lemma write_back_ok i wb :
(forall r c z, wb = Some (r, c, z) -> slot_known z) ->
exists tail, write_back_inst l i wb = Some tail /\ Forall (fun i => physical i = true) tail.
Proof.
intros H. unfold write_back_inst. destruct wb as [[[r c] z]|]; [|by eexists].
destruct (mem_for_slot_known z (H r c z eq_refl)) as (m & -> & Hm). simpl. eexists. split; [done|].
repeat constructor. by apply store_physical.
Qed.

Lemma physical_intro op size ops d :
Forall (fun o => physical_operand o = true) ops -> from_option physical_operand true d = true ->
physical {| x_opcode := op; x_size := size; x_operands := ops; x_def := d |} = true.
Proof.
intros H1 H2. unfold physical. simpl. apply andb_true_intro. split; [|by destruct d].
apply forallb_forall. intros o Ho. rewrite list.Forall_forall in H1. apply H1. by apply list_elem_of_In.
Qed.

Lemma is_tied_Some i v :
is_tied i = Some v -> exists ops d, x_operands i = VReg v :: ops /\ x_def i = Some (VReg d).
Proof.
unfold is_tied. destruct (tied_use (x_opcode i)); [|done]. destruct (x_def i) as [[d| | | | | | | |]|]; try done.
destruct (x_operands i) as [|[a| | | | | | | |] ops] eqn:E; simpl; try done. case_bool_decide; [|done]. intros [= <-]. eauto.
Qed.

Lemma elem_of_operand_vregs v (ops : list X86Operand) : v ∈ omap operand_vreg ops <-> VReg v ∈ ops.
Proof.
rewrite list_elem_of_omap. split.
- intros (op & Hop & E). destruct op; try done. by injection E as <-.
- intros H. by exists (VReg v).
Qed.

Lemma elem_of_operand_slots z i : z ∈ operand_slots i <-> FrameSlot z ∈ x_operands i ++ option_list (x_def i).
Proof.
unfold operand_slots. rewrite list_elem_of_omap. split.
- intros (op & Hop & E). destruct op; try done. by injection E as <-.
- intros H. by exists (FrameSlot z).
Qed.

Lemma rewrite_inst_ok i :
(forall v, v ∈ operand_vregs i -> usable v) -> (forall z, z ∈ operand_slots i -> slot_known z) -> scratch_fits i ->
exists out, rewrite_inst l check place i = Some out /\ Forall (fun i => physical i = true) out.
Proof.
intros Hv Hz Hs. unfold rewrite_inst, scratch_fits, scratch_operands in *.
assert (Hz' : forall z, FrameSlot z ∈ x_operands i ++ option_list (x_def i) -> slot_known z) by (intros z H; apply Hz; by apply elem_of_operand_slots).
assert (Hv' : forall v, VReg v ∈ x_operands i ++ option_list (x_def i) -> usable v) by (intros v H; apply Hv; by apply elem_of_operand_vregs).
clear Hv Hz. destruct (is_tied i) as [v|] eqn:Et.
- destruct (is_tied_Some i v Et) as (ops & d & Eo & Ed). rewrite Eo in *. cbn [drop] in *.
assert (Hroom : (used (is_fp_class (vr_class v)) {| st_pre := []; st_gp := 0; st_fp := 0 |} < 2)%nat) by (destruct (is_fp_class (vr_class v)); simpl; lia).
assert (Htied : exists r wb st, rewrite_tied l place i v {| st_pre := []; st_gp := 0; st_fp := 0 |} = Some (r, wb, st) /\
Forall (fun i => physical i = true) (st_pre st) /\ (forall r c z, wb = Some (r, c, z) -> slot_known z) /\
forall fp, (used fp st <= count_class fp [v])%nat).
{ unfold rewrite_tied. destruct (Hv' v) as (loc & -> & Hloc); [left|]. destruct loc as [r|z].
- do 3 eexists. split; [done|]. split; [constructor|]. split; [done|]. intros []; simpl; lia.
- destruct Hloc as [Hk _]. destruct (reload_ok (vr_class v) z (x_size i) _ Hroom Hk ltac:(constructor)) as (r & st' & -> & Hp' & Hu').
simpl. do 3 eexists. split; [done|]. split; [done|]. split; [by intros ? ? ? [= <- <- <-]|].
intros fp. rewrite Hu'. unfold count_class. rewrite filter_cons. destruct fp, (is_fp_class (vr_class v)); simpl; lia. }
destruct Htied as (r & wb & st1 & -> & Hp1 & Hwb & Hu1). simpl.
set (i1 := {| x_opcode := x_opcode i; x_size := x_size i; x_operands := Reg r :: ops; x_def := Some (Reg r) |}).
rewrite ?drop_0 in *. destruct (rewrite_uses_ok i1 1 ops st1) as (ops' & st2 & -> & Hops & Hp2 & _).
{ intros u Hu. apply Hv'. right. apply elem_of_app. left. by apply elem_of_operand_vregs. }
{ intros z Hin. apply Hz'. right. apply elem_of_app. by left. }
{ intros fp. specialize (Hs fp). specialize (Hu1 fp). unfold count_class in *. rewrite !filter_cons in *. destruct (decide _); simpl in *; lia. }
{ done. }
simpl. destruct (write_back_ok i wb Hwb) as (tail & -> & Htail). simpl. eexists. split; [done|].
apply list.Forall_app. split; [done|]. constructor; [|done]. apply physical_intro; [by constructor|done].
- destruct (rewrite_uses_ok i 0 (x_operands i) {| st_pre := []; st_gp := 0; st_fp := 0 |}) as (ops' & st1 & -> & Hops & Hp1 & Hu1).
{ intros u Hu. apply Hv', elem_of_app. left. by apply elem_of_operand_vregs. }
{ intros z Hin. apply Hz', elem_of_app. by left. }
{ intros fp. specialize (Hs fp). unfold count_class in *. rewrite filter_app, length_app in Hs. destruct fp; simpl; lia. }
{ constructor. }
simpl. set (i1 := {| x_opcode := x_opcode i; x_size := x_size i; x_operands := ops'; x_def := x_def i |}).
destruct (rewrite_def_ok i1 st1) as (d & wb & st2 & -> & Hd & Hp2 & Hwb).
{ intros u Hu. apply Hv', elem_of_app. right. simpl in Hu. rewrite Hu. left. }
{ intros z Hin. apply Hz', elem_of_app. right. simpl in Hin. rewrite Hin. left. }
{ intros fp. specialize (Hs fp). specialize (Hu1 fp). unfold count_class in *. rewrite filter_app, length_app in Hs.
change (x_def i1) with (x_def i). destruct fp; simpl in *; lia. }
{ done. }
simpl. destruct (write_back_ok i wb Hwb) as (tail & -> & Htail). simpl. eexists. split; [done|].
apply list.Forall_app. split; [done|]. constructor; [|done]. by apply physical_intro.
Qed.

End rewrite_facts.

(** * Frame layout facts *)

Section frame.
Local Open Scope Z_scope.

(** Slots whose alignment is a power of two and which together fit an [i64]. *)
Definition slot_valid (s : X86FrameSlot) : Prop := 0 <= fs_size s /\ exists a, 0 <= a /\ fs_align s = 2 ^ a.

Definition slots_span (slots : list X86FrameSlot) : Z := foldr (fun s n => fs_size s + fs_align s + n) 0 slots.

Record slots_valid (slots : list X86FrameSlot) : Prop := {
sv_each : Forall slot_valid slots;
sv_span : slots_span slots < 2 ^ 62 }.

Lemma land_lnot_round x a : 0 <= a -> Z.land x (Z.lnot (2 ^ a - 1)) = 2 ^ a * (x / 2 ^ a).
Proof.
intros Ha. rewrite <- Z.ldiff_land. replace (2 ^ a - 1) with (Z.ones a) by (rewrite Z.ones_equiv; lia).
rewrite Z.ldiff_ones_r, Z.shiftl_mul_pow2, Z.shiftr_div_pow2 by done. lia.
Qed.

Lemma i64_id z : - 2 ^ 63 <= z < 2 ^ 63 -> i64 z = z.
Proof. intros H. apply swrap_id; [lia|]. unfold srange. simpl. lia. Qed.

(** A slot is placed below what has been laid out, aligned, with less than an
alignment of padding. *)
Lemma place_slot_spec offset s :
slot_valid s -> offset <= 0 -> - offset + fs_size s + fs_align s < 2 ^ 62 ->
place_slot offset s + fs_size s <= offset /\ place_slot offset s mod fs_align s = 0 /\
- place_slot offset s < - offset + fs_size s + fs_align s.
Proof.
intros (Hsz & a & Ha & Hal) Ho Hb. assert (Hp : 0 < 2 ^ a) by (by apply Z.pow_pos_nonneg).
unfold place_slot. rewrite Z.max_l by lia. rewrite !i64_id with (z := fs_align s) by lia. rewrite (i64_id (fs_size s)) by lia.
rewrite (i64_id (- offset + fs_size s + fs_align s - 1)) by lia. rewrite Hal in *. rewrite land_lnot_round by done.
set (x := - offset + fs_size s + 2 ^ a - 1).
pose proof (Z.div_mod x (2 ^ a) ltac:(lia)) as Hdm. pose proof (Z.mod_pos_bound x (2 ^ a) Hp) as Hm.
rewrite i64_id by (unfold x in *; lia). split; [unfold x in *; lia|]. split; [|unfold x in *; lia].
rewrite <- Z.mul_opp_r, Z.mul_comm. apply Z.mod_mul. lia.
Qed.

Lemma lay_out_snoc slots s : lay_out (slots ++ [s]) = layout_slot (lay_out slots) s.
Proof. unfold lay_out. by rewrite foldl_app. Qed.

Lemma slots_span_app l1 l2 : slots_span (l1 ++ l2) = slots_span l1 + slots_span l2.
Proof. unfold slots_span. induction l1 as [|s l1 IH]; simpl; lia. Qed.

Lemma lay_out_bounds slots :
slots_valid slots -> ly_offset (lay_out slots) <= 0 /\ - ly_offset (lay_out slots) <= slots_span slots.
Proof.
induction slots as [|s slots IH] using rev_ind; intros [He Hs]; [done|].
apply list.Forall_app in He as [He1 He2]. rewrite list.Forall_singleton in He2. rewrite slots_span_app in *.
assert (Hs0 : slots_span [s] = fs_size s + fs_align s) by (unfold slots_span; simpl; lia).
assert (Hpos : 0 <= fs_size s /\ 0 < fs_align s) by (destruct He2 as (? & a & ? & ->); split; [done|by apply Z.pow_pos_nonneg]).
destruct IH as [H1 H2]; [split; [done|lia]|]. rewrite lay_out_snoc. simpl.
destruct (place_slot_spec (ly_offset (lay_out slots)) s He2 H1) as (? & ? & ?); lia.
Qed.

(** Every slot has a place in the frame. *)
Lemma lay_out_known slots k s :
(forall j t, slots !! j = Some t -> fs_id t = Z.of_nat j) -> slots !! k = Some s ->
is_Some (ly_disp (lay_out slots) !! Z.of_nat k) /\ ly_size (lay_out slots) !! Z.of_nat k = Some (fs_size s).
Proof.
induction slots as [|t slots IH] using rev_ind; intros Hn Hk; [done|]. rewrite lay_out_snoc. simpl.
rewrite (Hn (length slots) t) by (by rewrite lookup_app_r, Nat.sub_diag by lia).
apply lookup_app_Some in Hk as [Hk|[Hk Hs]].
- destruct IH as [H1 H2]; [intros j u Hj; apply Hn; by apply lookup_app_l_Some|done|].
apply lookup_lt_Some in Hk. rewrite !lookup_insert_ne by lia. done.
- apply list_lookup_singleton_Some in Hs as [E ->]. replace k with (length slots) by lia. rewrite !lookup_insert_eq. done.
Qed.

(** Slots do not overlap, are aligned and lie in the frame. *)
Lemma lay_out_sound slots k s d :
(forall j t, slots !! j = Some t -> fs_id t = Z.of_nat j) -> slots_valid slots -> slots !! k = Some s ->
ly_disp (lay_out slots) !! Z.of_nat k = Some d ->
d mod fs_align s = 0 /\ d + fs_size s <= 0 /\ ly_offset (lay_out slots) <= d /\
forall j t d', (j < k)%nat -> slots !! j = Some t -> ly_disp (lay_out slots) !! Z.of_nat j = Some d' -> d + fs_size s <= d'.
Proof.
revert k s d. induction slots as [|u slots IH] using rev_ind; intros k s d Hn [He Hs] Hk Hd; [done|]. rewrite lay_out_snoc in *. simpl in *.
rewrite (Hn (length slots) u) in * by (by rewrite lookup_app_r, Nat.sub_diag by lia).
apply list.Forall_app in He as [He1 He2]. rewrite list.Forall_singleton in He2. rewrite slots_span_app in Hs.
assert (Hs0 : slots_span [u] = fs_size u + fs_align u) by (unfold slots_span; simpl; lia).
assert (Hpos : 0 <= fs_size u /\ 0 < fs_align u) by (destruct He2 as (? & a & ? & ->); split; [done|by apply Z.pow_pos_nonneg]).
assert (Hval : slots_valid slots) by (split; [done|lia]). destruct (lay_out_bounds slots Hval) as [Ho1 Ho2].
destruct (place_slot_spec (ly_offset (lay_out slots)) u He2 Ho1) as (Hp1 & Hp2 & Hp3); [lia|].
assert (Hn' : forall j t, slots !! j = Some t -> fs_id t = Z.of_nat j) by (intros j t Hj; apply Hn; by apply lookup_app_l_Some).
assert (Hold : forall j t d', slots !! j = Some t -> ly_disp (lay_out slots) !! Z.of_nat j = Some d' -> ly_offset (lay_out slots) <= d').
{ intros j t d' Hj Hd'. by destruct (IH j t d' Hn' Hval Hj Hd') as (_ & _ & ? & _). }
apply lookup_app_Some in Hk as [Hk|[Hk Hu]].
- assert (Hlt : (k < length slots)%nat) by (by eapply lookup_lt_Some). rewrite lookup_insert_ne in Hd by lia.
destruct (IH k s d Hn' Hval Hk Hd) as (I1 & I2 & I3 & I4). split; [done|]. split; [done|]. split; [lia|].
intros j t d' Hjk Hj Hd'. rewrite lookup_insert_ne in Hd' by lia. rewrite lookup_app_l in Hj by lia. by apply (I4 j t).
- apply list_lookup_singleton_Some in Hu as [E <-]. assert (k = length slots) as -> by lia.
rewrite lookup_insert_eq in Hd. injection Hd as <-. split; [done|]. split; [lia|]. split; [done|].
intros j t d' Hjk Hj Hd'. rewrite lookup_insert_ne in Hd' by lia. rewrite lookup_app_l in Hj by lia.
specialize (Hold j t d' Hj Hd'). lia.
Qed.

End frame.

(** * Applying an allocation never fails *)

Lemma mapM_ok {A B} (g : A -> option B) (P : B -> Prop) l :
  (forall x, x ∈ l -> exists y, g x = Some y /\ P y) -> exists ys, mapM g l = Some ys /\ Forall P ys.
Proof.
  induction l as [|x l IH]; intros H; simpl; [by exists []|].
  destruct (H x) as (y & -> & Hy); [left|]. simpl. destruct IH as (ys & -> & Hys); [intros z Hz; apply H; by right|].
  simpl. exists (y :: ys). split; [done|by constructor].
Qed.

Lemma Forall_join {A} (P : A -> Prop) (ls : list (list A)) : Forall (Forall P) ls -> Forall P (mjoin ls).
Proof. induction 1 as [|l ls Hl Hls IH]; simpl; [constructor|]. by apply list.Forall_app. Qed.

(** What instruction selection guarantees of operands. *)
Record rewrite_ready (f : X86Function) : Prop := {
  rr_blocks : xf_blocks f <> [];
  rr_classes : classes_agree f;
  rr_scratch : forall b i, b ∈ xf_blocks f -> i ∈ xb_insts b -> scratch_fits i;
  rr_slots : forall b i z, b ∈ xf_blocks f -> i ∈ xb_insts b -> z ∈ operand_slots i -> (0 <= z < Z.of_nat (length (frame_slots f)))%Z }.

Lemma operand_vregs_in i v : v ∈ operand_vregs i -> v ∈ inst_vregs i.
Proof.
  unfold operand_vregs. rewrite elem_of_operand_vregs, elem_of_app. unfold inst_vregs, use_vregs, def_vreg. rewrite !elem_of_app.
  intros [H|H].
  - right. right. by apply elem_of_operand_vregs.
  - destruct (x_def i) as [d|] eqn:Ed; [|by apply elem_of_nil in H]. apply list_elem_of_singleton in H as <-.
    destruct (fp_store_addr_vreg i) as [u|] eqn:Ef; [right; left|left; left].
    unfold fp_store_addr_vreg in Ef. rewrite Ed in Ef. destruct (x_opcode i); try done; destruct (_ && _); try done; injection Ef as <-; left.
Qed.

Lemma alloc_saves_spec regs f cs f1 :
  alloc_saves f regs = (cs, f1) -> (Z.of_nat (length (frame_slots f) + length regs) < 2 ^ 31)%Z -> slots_numbered (frame_slots f) ->
  frame_grown f f1 /\ slots_numbered (frame_slots f1) /\
  forall p, p ∈ cs -> (0 <= p.2 < Z.of_nat (length (frame_slots f1)))%Z.
Proof.
  unfold alloc_saves. induction regs as [|r regs IH] using rev_ind in cs, f1 |- *; intros E Hb Hn.
  { injection E as <- <-. split; [split; try done; exists []; by rewrite app_nil_r|]. split; [done|]. intros p Hp. by apply elem_of_nil in Hp. }
  rewrite foldl_app in E. cbn [foldl] in E. rewrite length_app in Hb. simpl in Hb.
  destruct (foldl _ _ regs) as [cs0 f0] eqn:E0. cbn [fst snd] in E.
  destruct (alloc_frame_slot f0 8 8) as [slot f2] eqn:Ea. injection E as <- <-.
  destruct (IH cs0 f0 eq_refl) as (Hg & Hn0 & Hcs); [lia|done|].
  assert (Hlen : (length (frame_slots f0) <= length (frame_slots f) + length regs)%nat).
  { clear -E0. revert cs0 f0 E0. induction regs as [|r regs IH] using rev_ind; intros cs0 f0 E0; [injection E0 as <- <-; simpl; lia|].
    rewrite foldl_app in E0. cbn [foldl] in E0. destruct (foldl _ _ regs) as [cs1 f1]. specialize (IH cs1 f1 eq_refl).
    cbn in E0. injection E0 as <- <-. simpl. rewrite !length_app. simpl. lia. }
  destruct (alloc_frame_slot_spec _ _ _ _ _ Ea ltac:(lia)) as (Hslot & Hslots & _ & Hg2).
  split; [by eapply frame_grown_trans|]. rewrite Hslots. split; [by apply slots_numbered_snoc|].
  intros p Hp. rewrite length_app. simpl. apply elem_of_app in Hp as [Hp|Hp]; [specialize (Hcs p Hp); lia|].
  apply list_elem_of_singleton in Hp as ->. simpl. lia.
Qed.

Lemma slot_known_in l slots z :
  slots_numbered slots -> l = lay_out slots -> (0 <= z < Z.of_nat (length slots))%Z -> slot_known l z.
Proof.
  intros Hn -> Hz. destruct (lookup_lt_is_Some_2 slots (Z.to_nat z)) as [s Hs]; [lia|].
  destruct (lay_out_known slots (Z.to_nat z) s Hn Hs) as [H _]. by rewrite Z2Nat.id in H by lia.
Qed.

Section apply_facts.
Context (f : X86Function) (Hready : alloc_ready f) (Hrw : rewrite_ready f).
Context (res : AllocResult) (f' : X86Function) (s : live_sets) (cx : scan_ctx) (sc : scan) (segs : gmap VRegId seg).
Context (Hal : allocated f res f' s cx sc segs).
Context (slots : list X86FrameSlot) (Hnum : slots_numbered slots) (Hgrow : exists extra, slots = frame_slots f' ++ extra).
Local Abbreviation l := (lay_out slots).

Lemma frame_slots_grow : exists extra, slots = frame_slots f ++ extra.
Proof.
destruct Hgrow as [e ->]. destruct (fg_slots _ _ (sv_frame _ _ _ _ _ _ (al_inv _ _ _ _ _ _ _ Hal))) as [e' E].
rewrite (al_f _ _ _ _ _ _ _ Hal), E, <- (assoc_L (++)). eauto.
Qed.

(** Every register operand can be rewritten. *)
Lemma vreg_usable b blk k i v :
xf_blocks f !! b = Some blk -> xb_insts blk !! k = Some i -> v ∈ operand_vregs i ->
usable l true (fun v => resolve res (vr_id v) (pos_of f b k)) v.
Proof.
intros Hb Hk Hv. apply operand_vregs_in in Hv.
assert (Hp : in_play f (bit_of v) b k) by (exists blk, i; split; [done|]; split; [done|]; right; eauto).
destruct (in_play_covered f s (bit_of v) b k Hready (al_solve _ _ _ _ _ _ _ Hal) Hp) as (iv & Hiv & Ev & Hin).
assert (Eid : li_vreg iv = vr_id v) by (unfold bit_of in Ev; lia).
assert (Hcl : li_class iv = vr_class v).
{ eapply (interval_class f (ar_unique f Hready) (ar_small f Hready) s (al_solve _ _ _ _ _ _ _ Hal)); [apply Hrw|done..]. }
rewrite <- (al_ivs _ _ _ _ _ _ _ Hal) in Hiv.
destruct (resolve_cases f res f' s cx sc segs Hal iv (pos_of f b k) Hiv Hin) as (loc & E & H). rewrite Eid in *.
exists loc. split; [done|]. destruct loc as [r|z]; [done|].
pose proof (slot_fresh f _ _ _ _ _ _ Hal _ _ H) as Hz. rewrite <- Eid in H.
destruct (slot_sized f _ _ _ _ _ _ Hal iv z Hiv H) as (sl & Hsl & Esl). destruct Hgrow as [extra Hext].
assert (Hsl' : slots !! Z.to_nat z = Some sl) by (rewrite Hext; by apply lookup_app_l_Some).
destruct (lay_out_known slots _ _ Hnum Hsl') as [Hd Hs]. rewrite Z2Nat.id in Hd, Hs by lia. split; [done|].
unfold width_ok. rewrite Hs, <- Hcl, <- Esl. simpl. apply Z.leb_refl.
Qed.

Lemma slot_operand_known b i z : b ∈ xf_blocks f -> i ∈ xb_insts b -> z ∈ operand_slots i -> slot_known l z.
Proof.
intros Hb Hi Hz. pose proof (rr_slots f Hrw b i z Hb Hi Hz) as Hr. destruct frame_slots_grow as [e He].
eapply slot_known_in; [done..|]. rewrite He, length_app. lia.
Qed.

Lemma bridge_known r : r ∈ split_records res -> slot_known l (sr_bridge r).
Proof.
intros (syn & o & c & z & a & post & Hsyn & _ & _ & ->)%(al_records _ _ _ _ _ _ _ Hal). simpl.
pose proof (sl_split _ _ _ _ (sv_slots _ _ _ _ _ _ (al_inv _ _ _ _ _ _ _ Hal)) _ _ _ _ Hsyn) as Hz.
rewrite <- (al_f _ _ _ _ _ _ _ Hal) in Hz. destruct Hgrow as [e He]. eapply slot_known_in; [done..|]. rewrite He, length_app. lia.
Qed.

Lemma apply_inst_ok b blk k i :
xf_blocks f !! b = Some blk -> xb_insts blk !! k = Some i ->
exists out, apply_inst l res (pos_of f b k, i) = Some out /\ Forall (fun i => physical i = true) out.
Proof.
intros Hb Hk. unfold apply_inst. cbn [fst snd].
assert (Hbr : forall r, r ∈ bridges_at res (pos_of f b k) i -> r ∈ split_records res).
{ intros r. unfold bridges_at. destruct (is_call i); [|by intros ?%elem_of_nil]. by intros [_ ?]%list_elem_of_filter. }
destruct (mapM_ok (bridge_store l) (fun i => physical i = true) (bridges_at res (pos_of f b k) i)) as (pre & -> & Hpre).
{ intros r Hr. destruct (mem_for_slot_known l _ (bridge_known r (Hbr r Hr))) as (m & Em & Hm). unfold bridge_store. rewrite Em.
eexists. split; [done|]. by apply store_physical. }
destruct (rewrite_inst_ok l true (fun v => resolve res (vr_id v) (pos_of f b k)) i) as (body & Eb & Hbody).
{ intros v Hv. by eapply vreg_usable. }
{ intros z Hz. eapply slot_operand_known; [by eapply list_elem_of_lookup_2..|done]. }
{ eapply (rr_scratch f Hrw); by eapply list_elem_of_lookup_2. }
destruct (mapM_ok (bridge_load l) (Forall (fun i => physical i = true)) (bridges_at res (pos_of f b k) i)) as (post & Ep & Hpost).
{ intros r Hr. unfold bridge_load. destruct (sr_post r); [|by eexists].
destruct (mem_for_slot_known l _ (bridge_known r (Hbr r Hr))) as (m & Em & Hm). rewrite Em.
eexists. split; [done|]. repeat constructor. by apply load_physical. }
cbn [mbind option_bind]. rewrite Eb. cbn [mbind option_bind]. rewrite Ep. cbn [mbind option_bind].
eexists. split; [done|]. apply list.Forall_app. split; [done|]. apply list.Forall_app. split; [done|]. by apply Forall_join.
Qed.

Definition block_ok (b : X86Block) : Prop := Forall (fun i => physical i = true) (xb_insts b).

Lemma apply_blocks_ok bs nbs :
(forall n b nb, bs !! n = Some b -> nbs !! n = Some nb -> forall pi, pi ∈ nb_insts nb ->
exists out, apply_inst l res pi = Some out /\ Forall (fun i => physical i = true) out) ->
exists bs', apply_blocks l res bs nbs = Some bs' /\ Forall block_ok bs' /\ (length nbs = length bs -> xb_id <$> bs' = xb_id <$> bs).
Proof.
revert nbs. induction bs as [|b bs IH]; intros nbs H; [by exists []|]. destruct nbs as [|nb nbs]; [by exists []|].
cbn [apply_blocks]. unfold apply_block.
destruct (mapM_ok (apply_inst l res) (Forall (fun i => physical i = true)) (nb_insts nb)) as (out & -> & Hout).
{ intros pi Hpi. by apply (H 0%nat b nb). }
destruct (IH nbs) as (bs' & E & Hbs & Hids); [intros n c nc Hc Hnc; by apply (H (S n) c nc)|].
cbn [mbind option_bind]. rewrite E. cbn [mbind option_bind]. eexists. split; [done|]. split; [|intros Hl; simpl; f_equal; apply Hids; simpl in Hl; lia].
constructor; [|done]. by apply Forall_join.
Qed.

Lemma save_and_restore_ok cs bs :
bs <> [] -> Forall block_ok bs -> (forall p, p ∈ cs -> (0 <= p.2 < Z.of_nat (length slots))%Z) ->
exists bs', save_and_restore l cs bs = Some bs' /\ Forall block_ok bs' /\ xb_id <$> bs' = xb_id <$> bs.
Proof.
intros Hne Hok Hcs. unfold save_and_restore. destruct cs as [|c cs]; [by exists bs|]. set (all := c :: cs) in *.
destruct (mapM_ok (save_inst l) (fun i => physical i = true) all) as (saves & -> & Hs).
{ intros p Hp. destruct (mem_for_slot_known l p.2) as (m & Em & Hm); [by eapply slot_known_in; eauto|].
unfold save_inst. rewrite Em. eexists. split; [done|]. by apply store_physical. }
destruct (mapM_ok (restore_inst l) (fun i => physical i = true) all) as (restores & E & Hr).
{ intros p Hp. destruct (mem_for_slot_known l p.2) as (m & Em & Hm); [by eapply slot_known_in; eauto|].
unfold restore_inst. rewrite Em. eexists. split; [done|]. by apply load_physical. }
cbn [mbind option_bind]. rewrite E. cbn [mbind option_bind].
assert (Hadd : forall b, block_ok b -> block_ok (add_restores restores b)).
{ intros b Hb. unfold block_ok, add_restores. simpl. induction Hb as [|i is_ Hi _ IH]; [constructor|].
rewrite bind_cons. apply list.Forall_app. split; [|done]. destruct (is_ret i); [apply list.Forall_app; split; [done|]|]; by repeat constructor. }
destruct bs as [|b bs]; [done|]. simpl. eexists. split; [done|]. apply list.Forall_cons in Hok as [Hb Hbs]. split.
- constructor; [unfold block_ok; simpl; apply list.Forall_app; split; [done|by apply Hadd]|]. apply list.Forall_fmap. eapply list.Forall_impl; [exact Hbs|]. intros b' Hb'. by apply Hadd.
- simpl. f_equal. rewrite <- list_fmap_compose. done.
Qed.

End apply_facts.

(** * Theorems *)

Lemma coalesced_ok bs : Forall block_ok bs -> Forall block_ok (coalesce_self_moves bs).
Proof.
  intros H. apply list.Forall_fmap. eapply list.Forall_impl; [exact H|]. intros b Hb. unfold block_ok in *. simpl.
  apply list.Forall_forall. intros i [_ Hi]%list_elem_of_filter. by eapply list.Forall_forall in Hb.
Qed.

(** Rewriting the blocks of [f] after a scan: every instruction numbered for the
    rewriting is the instruction of [f] at the position the scan knew it by. *)
Lemma numbered_known f f1 n nb p i :
  small f -> xf_blocks f1 = xf_blocks f -> numbered f1 !! n = Some nb -> (p, i) ∈ nb_insts nb ->
  exists blk k, xf_blocks f !! n = Some blk /\ xb_insts blk !! k = Some i /\ p = pos_of f n k.
Proof.
  intros Hs Eb Hn Hin. assert (En : numbered f1 = numbered f) by (unfold numbered; by rewrite Eb). rewrite En in Hn.
  destruct (xf_blocks f !! n) as [blk|] eqn:Hb.
  - rewrite (numbered_lookup f Hs n blk Hb) in Hn. injection Hn as <-. simpl in Hin.
    assert (Hfit : (pos_of f n 0 + 2 * N.of_nat (length (xb_insts blk)) < 2 ^ 32)%N).
    { pose proof (small_before f n blk Hs Hb) as Hsb. unfold pos_of. lia. }
    destruct (number_insts_inv _ _ _ _ Hfit Hin) as (k & Hk & ->).
    exists blk, k. split; [done|]. split; [done|]. unfold pos_of. lia.
  - apply lookup_lt_Some in Hn. unfold numbered in Hn. rewrite length_number_blocks in Hn. apply lookup_ge_None in Hb. lia.
Qed.

(** At most five registers are saved, for which the scan leaves room in the frame. *)
Lemma save_room f res f' s cx sc segs :
  allocated f res f' s cx sc segs -> (Z.of_nat (length (frame_slots f') + length (callee_saved_used res)) < 2 ^ 31)%Z.
Proof.
  intros Hal. pose proof (qi_slots _ _ _ _ (sv_queue _ _ _ _ _ _ (al_inv _ _ _ _ _ _ _ Hal))) as Hq. rewrite <- (al_f _ _ _ _ _ _ _ Hal) in Hq.
  simpl length in Hq. assert (Hl : (length (callee_saved_used res) <= 5)%nat); [|lia].
  rewrite (al_saved _ _ _ _ _ _ _ Hal), sort_by_key_perm. change 5%nat with (length [Rbx; R12; R13; R14; R15]).
  apply submseteq_length, NoDup_submseteq; [apply NoDup_elements|]. intros r Hr%elem_of_elements%(sv_only_saved _ _ _ _ _ _ (al_inv _ _ _ _ _ _ _ Hal)).
  destruct r; try done; rewrite !elem_of_cons; tauto.
Qed.

(** The scan and the rewriting together. *)
Lemma apply_allocation_ok entries f :
  lists_splits entries -> alloc_ready f -> rewrite_ready f ->
  exists res f' g, linear_scan entries f = Some (res, f') /\ apply_allocation f' res = Some g /\ frame_grown f f' /\ physical_fn g /\ xb_id <$> xf_blocks g = xb_id <$> xf_blocks f.
Proof.
  intros He Hr Hrw. destruct (linear_scan_run entries He f Hr) as (res & f' & s & cx & sc & segs & E & Hal).
  rewrite E. exists res, f'. pose proof (save_room f res f' s cx sc segs Hal) as Hlen. unfold apply_allocation.
  pose proof (sv_frame _ _ _ _ _ _ (al_inv _ _ _ _ _ _ _ Hal)) as Hf. pose proof (sv_numbered _ _ _ _ _ _ (al_inv _ _ _ _ _ _ _ Hal)) as Hn.
  rewrite <- (al_f _ _ _ _ _ _ _ Hal) in Hf, Hn.
  destruct (alloc_saves f' (callee_saved_used res)) as [cs f1] eqn:Es.
  destruct (alloc_saves_spec _ _ _ _ Es Hlen Hn) as (Hg & Hn1 & Hcs).
  assert (Eb : xf_blocks f1 = xf_blocks f) by (rewrite (fg_blocks _ _ Hg); apply Hf).
  destruct (apply_blocks_ok res (frame_slots f1) (xf_blocks f1) (numbered f1)) as (bs & Ebs & Hok & Hids).
  { intros n b nb Hb Hnb [p i] Hin. destruct (numbered_known f f1 n nb p i (ar_small f Hr) Eb Hnb Hin) as (blk & k & Hblk & Hi & ->).
    exact (apply_inst_ok f Hr Hrw res f' s cx sc segs Hal (frame_slots f1) Hn1 (fg_slots _ _ Hg) n blk k i Hblk Hi). }
  rewrite Eb in Hids, Ebs. specialize (Hids ltac:(unfold numbered; by rewrite length_number_blocks, Eb)).
  destruct (save_and_restore_ok (frame_slots f1) Hn1 cs bs) as (bs' & Ebs' & Hok' & Hids'); [|done|done|].
  { intros ->. apply (rr_blocks f Hrw). destruct (xf_blocks f); [done|]. simpl in Hids. done. }
  rewrite Eb, Ebs. cbn [mbind option_bind]. rewrite Ebs'. cbn [mbind option_bind]. eexists. split; [done|]. split; [done|]. split; [done|]. split.
  - intros b i Hb Hi. pose proof (coalesced_ok bs' Hok') as Hc. rewrite list.Forall_forall in Hc. specialize (Hc b Hb).
    unfold block_ok in Hc. rewrite list.Forall_forall in Hc. by apply Hc.
  - simpl. rewrite <- Hids, <- Hids'. unfold coalesce_self_moves. rewrite <- list_fmap_compose. done.
Qed.

(** C11: Applying the result of the linear scan never panics: every register has a
    place, every slot a displacement and every instruction enough scratch registers;
    what comes out has no virtual register and no frame slot left, and the same
    blocks in the same order. *)
Theorem allocation_applies entries f :
  lists_splits entries -> alloc_ready f -> rewrite_ready f ->
  exists res f' g, linear_scan entries f = Some (res, f') /\ apply_allocation f' res = Some g /\
    physical_fn g /\ xb_id <$> xf_blocks g = xb_id <$> xf_blocks f.
Proof. intros He Hr Hrw. destruct (apply_allocation_ok entries f He Hr Hrw) as (res & f' & g & ? & ? & _ & ? & ?). by exists res, f', g. Qed.

Lemma frame_size_spec slots outgoing :
  slots_valid slots -> (0 <= outgoing < 2 ^ 61)%Z ->
  (frame_size (lay_out slots) outgoing mod 16 = 0 /\ - ly_offset (lay_out slots) + outgoing <= frame_size (lay_out slots) outgoing)%Z.
Proof.
  intros Hv Ho. destruct (lay_out_bounds slots Hv) as [H1 H2]. pose proof (sv_span _ Hv) as Hs. unfold frame_size.
  rewrite i64_id by lia. rewrite (land_lnot_round _ 4) by lia. change (2 ^ 4)%Z with 16%Z.
  split; [rewrite Z.mul_comm; by apply Z.mod_mul|]. pose proof (Z.div_mod (- ly_offset (lay_out slots) + outgoing + 15) 16 ltac:(lia)).
  pose proof (Z.mod_pos_bound (- ly_offset (lay_out slots) + outgoing + 15) 16 ltac:(lia)). lia.
Qed.

(** C12: The frame is laid out soundly, whatever the slots: its size keeps the stack
    pointer 16-byte aligned, every slot gets a displacement below the frame pointer
    that has its alignment and leaves the outgoing argument area at the bottom of the
    frame untouched, and two slots never share a byte. *)
Theorem frame_layout_sound slots outgoing :
  slots_numbered slots -> slots_valid slots -> (0 <= outgoing < 2 ^ 61)%Z ->
  (frame_size (lay_out slots) outgoing mod 16 = 0)%Z /\
  forall k s, slots !! k = Some s -> exists d, ly_disp (lay_out slots) !! Z.of_nat k = Some d /\
    (d mod fs_align s = 0 /\ d + fs_size s <= 0 /\ - frame_size (lay_out slots) outgoing + outgoing <= d)%Z /\
    forall j t d', j <> k -> slots !! j = Some t -> ly_disp (lay_out slots) !! Z.of_nat j = Some d' ->
      (d + fs_size s <= d' \/ d' + fs_size t <= d)%Z.
Proof.
  intros Hn Hv Ho. destruct (frame_size_spec slots outgoing Hv Ho) as [Hm Hf]. split; [done|]. intros k s Hk.
  destruct (lay_out_known slots k s Hn Hk) as [[d Hd] _]. exists d. split; [done|].
  destruct (lay_out_sound slots k s d Hn Hv Hk Hd) as (H1 & H2 & H3 & H4). split; [split; [done|]; split; lia|].
  intros j t d' Hne Hj Hd'. destruct (decide (j < k)%nat) as [Hlt|Hge]; [left; by apply (H4 j t)|]. right.
  destruct (lay_out_sound slots j t d' Hn Hv Hj Hd') as (_ & _ & _ & H5). apply (H5 k s); [lia|done..].
Qed.

(** ** The naive allocator *)

Lemma naive_classes_dom f v b i :
  b ∈ xf_blocks f -> i ∈ xb_insts b -> v ∈ operand_vregs i -> vr_id v ∈ dom (naive_classes f).
Proof.
  intros Hb Hi Hv. unfold naive_classes.
  assert (Hin : v ∈ xf_blocks f ≫= fun b => xb_insts b ≫= operand_vregs).
  { apply list_elem_of_bind. exists b. split; [|done]. apply list_elem_of_bind. eauto. }
  clear Hb Hi Hv. induction (xf_blocks f ≫= _) as [|u l IH] using rev_ind; [by apply elem_of_nil in Hin|].
  rewrite foldl_app. simpl. apply elem_of_app in Hin as [Hin|Hin]; [specialize (IH Hin); set_solver|].
  apply list_elem_of_singleton in Hin as ->. set_solver.
Qed.

(** Every identifier of the list gets a slot of the frame; the rest of the function is kept. *)
Lemma naive_slots_fold (size_of : VRegId -> Z * Z) ids f (slots : gmap VRegId Z) f1 :
  foldl (fun st id => let '(sz, al) := size_of id in let '(slot, f) := alloc_frame_slot st.2 sz al in (<[id := slot]> st.1, f)) (∅, f) ids = (slots, f1) ->
  (Z.of_nat (length (frame_slots f) + length ids) < 2 ^ 31)%Z -> slots_numbered (frame_slots f) ->
  frame_grown f f1 /\ slots_numbered (frame_slots f1) /\ length (frame_slots f1) = (length (frame_slots f) + length ids)%nat /\
  forall id, id ∈ ids -> exists z, slots !! id = Some z /\ (0 <= z < Z.of_nat (length (frame_slots f1)))%Z.
Proof.
  induction ids as [|id ids IH] using rev_ind in slots, f1 |- *; intros E Hb Hn.
  { injection E as <- <-. split; [split; try done; exists []; by rewrite app_nil_r|]. split; [done|]. split; [simpl; lia|].
    intros id Hid. by apply elem_of_nil in Hid. }
  rewrite foldl_app in E. cbn [foldl] in E. rewrite length_app in Hb. simpl in Hb.
  destruct (foldl _ _ ids) as [s0 f0]. cbn [fst snd] in E. destruct (size_of id) as [sz al].
  destruct (alloc_frame_slot f0 sz al) as [slot f2] eqn:Ea. injection E as <- <-.
  destruct (IH s0 f0 eq_refl) as (Hg & Hn0 & Hl & Hids); [lia|done|].
  destruct (alloc_frame_slot_spec _ _ _ _ _ Ea ltac:(lia)) as (Hslot & Hslots & _ & Hg2).
  split; [by eapply frame_grown_trans|]. rewrite Hslots, !length_app, Hl. simpl. split; [by apply slots_numbered_snoc|]. split; [lia|].
  intros j Hj. destruct (decide (j = id)) as [->|Hne].
  - exists slot. rewrite lookup_insert_eq. split; [done|lia].
  - rewrite lookup_insert_ne by done. apply elem_of_app in Hj as [Hj|Hj]; [|by apply list_elem_of_singleton in Hj].
    destruct (Hids j Hj) as (z & Hz & Hr). exists z. split; [done|lia].
Qed.

Lemma naive_slots_spec f slots f1 :
  naive_slots f = (slots, f1) -> (Z.of_nat (length (frame_slots f) + size (naive_classes f)) < 2 ^ 31)%Z -> slots_numbered (frame_slots f) ->
  frame_grown f f1 /\ slots_numbered (frame_slots f1) /\
  forall id, id ∈ dom (naive_classes f) -> exists z, slots !! id = Some z /\ (0 <= z < Z.of_nat (length (frame_slots f1)))%Z.
Proof.
  intros E Hb Hn. set (sz := fun id => if bool_decide (naive_classes f !! id = Some Xmm128) then (16, 16)%Z else (8, 8)%Z).
  assert (Hp : Permutation (sort_by_key id (elements (dom (naive_classes f)))) (elements (dom (naive_classes f)))) by apply sort_by_key_perm.
  destruct (naive_slots_fold sz _ f slots f1 E) as (Hg & Hn1 & _ & Hids); [|done|].
  { rewrite Hp. change (length (elements (dom (naive_classes f)))) with (size (dom (naive_classes f))). by rewrite size_dom. }
  split; [done|]. split; [done|]. intros id Hid. apply Hids. rewrite Hp. by apply elem_of_elements.
Qed.

(** The naive allocator never panics, and leaves no virtual register and no frame
    slot: every register it meets got a slot of the frame first. *)
Theorem regalloc_naive_total f :
  slots_numbered (frame_slots f) -> rewrite_ready f -> (Z.of_nat (length (frame_slots f) + size (naive_classes f)) < 2 ^ 31)%Z ->
  exists g, regalloc_naive f = Some g /\ physical_fn g /\ xb_id <$> xf_blocks g = xb_id <$> xf_blocks f.
Proof.
  intros Hn Hrw Hb. unfold regalloc_naive. destruct (naive_slots f) as [slots f1] eqn:Es.
  destruct (naive_slots_spec f slots f1 Es Hb Hn) as (Hg & Hn1 & Hids).
  set (l := lay_out (frame_slots f1)).
  assert (Hblk : forall bs, (forall b, b ∈ bs -> b ∈ xf_blocks f) ->
    exists bs', mapM (naive_block l slots) bs = Some bs' /\ Forall block_ok bs' /\ xb_id <$> bs' = xb_id <$> bs).
  { intros bs. induction bs as [|b bs IH]; intros Hin; [by exists []|].
    destruct (mapM_ok (rewrite_inst l false (fun v => InSlot <$> slots !! vr_id v)) (Forall (fun i => physical i = true)) (xb_insts b)) as (out & Eo & Hout).
    { intros i Hi. assert (Hbf : b ∈ xf_blocks f) by (apply Hin; left). apply rewrite_inst_ok.
      - intros v Hv. destruct (Hids (vr_id v)) as (z & Ez & Hz); [by eapply naive_classes_dom|].
        exists (InSlot z). rewrite Ez. split; [done|]. split; [by eapply slot_known_in|done].
      - intros z Hz. pose proof (rr_slots f Hrw b i z Hbf Hi Hz). eapply slot_known_in; [done..|]. pose proof (frame_grown_len _ _ Hg). lia.
      - by eapply (rr_scratch f Hrw). }
    destruct IH as (bs' & E' & Hok & Hid); [intros c Hc; apply Hin; by right|].
    assert (Enb : naive_block l slots b = Some {| xb_id := xb_id b; xb_insts := mjoin out |}) by (unfold naive_block; by rewrite Eo).
    exists ({| xb_id := xb_id b; xb_insts := mjoin out |} :: bs'). split; [simpl; by rewrite Enb, E'|]. split; [constructor; [by apply Forall_join|done]|]. simpl. by f_equal. }
  rewrite (fg_blocks _ _ Hg). destruct (Hblk (xf_blocks f)) as (bs' & -> & Hok & Hid); [done|]. cbn [mbind option_bind].
  eexists. split; [done|]. split; [|done]. intros b i Hbb Hi. simpl in Hbb. rewrite list.Forall_forall in Hok. specialize (Hok b Hbb).
  unfold block_ok in Hok. rewrite list.Forall_forall in Hok. by apply Hok.
Qed.

(** * Witnesses *)

Lemma insts_checked (P : X86Inst -> bool) f :
  forallb P (xf_blocks f ≫= xb_insts) = true -> forall b i, b ∈ xf_blocks f -> i ∈ xb_insts b -> P i = true.
Proof. rewrite forallb_forall. intros H b i Hb Hi. apply H, list_elem_of_In, list_elem_of_bind. eauto. Qed.

Lemma call_fn_rewrite_ready : rewrite_ready call_fn.
Proof.
  set (cls := fun v : X86VReg => bool_decide (vr_class v = if bool_decide (vr_id v = 1%N) then Xmm else Gp64)).
  split.
  - done.
  - intros b c i j v w Hb Hc Hi Hj Hv Hw E.
    assert (H : forall b i, b ∈ xf_blocks call_fn -> i ∈ xb_insts b -> forallb cls (inst_vregs i) = true)
      by (apply (insts_checked (fun i => forallb cls (inst_vregs i))); vm_compute; done).
    pose proof (H b i Hb Hi) as H1. pose proof (H c j Hc Hj) as H2. rewrite forallb_forall in H1, H2.
    specialize (H1 v ltac:(by apply list_elem_of_In)). specialize (H2 w ltac:(by apply list_elem_of_In)).
    apply bool_decide_eq_true in H1, H2. by rewrite H1, H2, E.
  - intros b i Hb Hi fp.
    assert (H : forall b i, b ∈ xf_blocks call_fn -> i ∈ xb_insts b -> forallb (fun fp => count_class fp (scratch_operands i) <=? 2)%nat [true; false] = true)
      by (apply (insts_checked (fun i => forallb _ _)); vm_compute; done).
    specialize (H b i Hb Hi). rewrite forallb_forall in H. apply Nat.leb_le, H. destruct fp; simpl; tauto.
  - intros b i z Hb Hi Hz.
    assert (H : forall b i, b ∈ xf_blocks call_fn -> i ∈ xb_insts b -> forallb (Z.eqb 0) (operand_slots i) = true)
      by (apply (insts_checked (fun i => forallb _ _)); vm_compute; done).
    specialize (H b i Hb Hi). rewrite forallb_forall in H. specialize (H z ltac:(by apply list_elem_of_In)). apply Z.eqb_eq in H as <-. simpl. lia.
Qed.

Lemma allocation_applies_witness :
  exists res f' g, linear_scan map_to_list call_fn = Some (res, f') /\ apply_allocation f' res = Some g /\ physical_fn g.
Proof.
  destruct (allocation_applies map_to_list call_fn map_splits call_fn_ready call_fn_rewrite_ready) as (res & f' & g & E & Hg & Hp & _).
  exists res, f', g. split; [exact E|]. split; [exact Hg|exact Hp].
Defined.

Definition sample_slots : list X86FrameSlot :=
  [ {| fs_id := 0; fs_size := 4; fs_align := 4 |}; {| fs_id := 1; fs_size := 16; fs_align := 16 |}; {| fs_id := 2; fs_size := 8; fs_align := 8 |} ].

Lemma frame_layout_sound_witness :
  exists d, ly_disp (lay_out sample_slots) !! 1%Z = Some d /\ (d mod 16 = 0)%Z.
Proof.
  destruct (frame_layout_sound sample_slots 24) as [_ H].
  - intros [|[|[|k]]] s Hs; [by injection Hs as <-..|done].
  - split; [|reflexivity]. repeat constructor; simpl; try lia; [exists 2%Z|exists 4%Z|exists 3%Z]; split; [lia|reflexivity|lia|reflexivity|lia|reflexivity].
  - split; [lia|reflexivity].
  - destruct (H 1%nat _ eq_refl) as (d & Hd & (Hm & _) & _). exists d. split; [exact Hd|exact Hm].
Defined.

Lemma regalloc_naive_total_witness : exists g, regalloc_naive call_fn = Some g /\ physical_fn g.
Proof.
  destruct (regalloc_naive_total call_fn) as (g & Hg & Hp & _).
  - intros [|k] s Hs; [by injection Hs as <-|done].
  - apply call_fn_rewrite_ready.
  - vm_compute. reflexivity.
  - exists g. split; [exact Hg|exact Hp].
Defined.
