(* ===== verification/X86Sem.v ===== *)
(** Running machine IR (src/src/codegen/x86/mir.rs).

    The registers of the machine, the flags and the memory are a [world]; virtual
    registers are a map beside it.  What an opcode computes is a parameter, [sem]: it
    gets the operation size, the arguments and the world, and gives a value and a new
    world.  Registers among the operands are replaced by their contents; every other
    operand is passed as it is written.  Control flow is the one the opcodes document:
    [Jmp] and [Jcc] name a block, [Ret] leaves. *)

From S2P Require Import Prelude X86Mir.

Section machine.
Context (val flg memory : Type).

Record world := { w_regs : gmap X86Reg val; w_flags : flg; w_mem : memory }.

(** The contents of a register, or an operand as written. *)
Inductive arg := Val (v : val) | Raw (op : X86Operand).

Class Machine := {
junk : val;  (** in a register nothing wrote *)
holds : X86Cond -> flg -> bool;
sem : X86Opcode -> OpSize -> list arg -> world -> val * world }.

Record mstate := { ms_vregs : gmap VRegId val; ms_world : world }.

End machine.

Arguments w_regs {val flg memory}.
Arguments w_flags {val flg memory}.
Arguments w_mem {val flg memory}.
Arguments Val {val}.
Arguments Raw {val}.
Arguments junk {val flg memory Machine}.
Arguments holds {val flg memory Machine}.
Arguments sem {val flg memory Machine}.
Arguments ms_vregs {val flg memory}.
Arguments ms_world {val flg memory}.

Section run.
Context {val flg memory : Type} `{!Machine val flg memory}.
Local Abbreviation world := (world val flg memory).
Local Abbreviation mstate := (mstate val flg memory).

Definition vreg_val (st : mstate) (v : VRegId) : val := default junk (ms_vregs st !! v).
Definition reg_val (w : world) (r : X86Reg) : val := default junk (w_regs w !! r).

Definition set_reg (r : X86Reg) (x : val) (w : world) : world :=
{| w_regs := <[r := x]> (w_regs w); w_flags := w_flags w; w_mem := w_mem w |}.

Definition arg_of (st : mstate) (op : X86Operand) : arg val :=
match op with
| VReg v => Val (vreg_val st (vr_id v))
| Reg r => Val (reg_val (ms_world st) r)
| _ => Raw op
end.

(** A definition that is not a register is a destination the opcode is told of. *)
Definition destination (st : mstate) (i : X86Inst) : list (arg val) :=
match fp_store_addr_vreg i, x_def i with
| Some v, _ => [Val (vreg_val st (vr_id v))]
| None, Some (VReg _) | None, Some (Reg _) | None, None => []
| None, Some op => [Raw op]
end.

Definition args_of (st : mstate) (i : X86Inst) : list (arg val) := (arg_of st <$> x_operands i) ++ destination st i.

Definition write_def (i : X86Inst) (x : val) (st : mstate) : mstate :=
match fp_store_addr_vreg i, x_def i with
| None, Some (VReg v) => {| ms_vregs := <[vr_id v := x]> (ms_vregs st); ms_world := ms_world st |}
| None, Some (Reg r) => {| ms_vregs := ms_vregs st; ms_world := set_reg r x (ms_world st) |}
| _, _ => st
end.

Definition exec_inst (i : X86Inst) (st : mstate) : mstate :=
let '(x, w) := sem (x_opcode i) (x_size i) (args_of st i) (ms_world st) in
write_def i x {| ms_vregs := ms_vregs st; ms_world := w |}.

Inductive exit := Goto (b : MBlockId) | Leave.

(** Where an instruction transfers control, given the flags. *)
Definition flow (i : X86Inst) (fl : flg) : option exit :=
match x_opcode i, x_operands i with
| Jmp, BlockRef b :: _ => Some (Goto b)
| Jcc, Cond c :: BlockRef b :: _ => if holds c fl then Some (Goto b) else None
| Ret, _ => Some Leave
| _, _ => None
end.

Fixpoint run_insts (insts : list X86Inst) (st : mstate) : mstate * option exit :=
match insts with
| [] => (st, None)
| i :: rest =>
let st' := exec_inst i st in
match flow i (w_flags (ms_world st')) with
| Some e => (st', Some e)
| None => run_insts rest st'
end
end.

Definition block_named (f : X86Function) (b : MBlockId) : option X86Block :=
snd <$> list_find (fun blk => xb_id blk = b) (xf_blocks f).

(** A run that left the function, one that ran past a block or to a block that does
not exist, one that has not finished. *)
Inductive outcome := Left_ (st : mstate) | Lost (st : mstate) | Running (st : mstate).

Fixpoint run_function (fuel : nat) (f : X86Function) (b : MBlockId) (st : mstate) : outcome :=
match fuel with
| O => Running st
| S n =>
match block_named f b with
| None => Lost st
| Some blk =>
match run_insts (xb_insts blk) st with
| (st', Some Leave) => Left_ st'
| (st', Some (Goto b')) => run_function n f b' st'
| (st', None) => Lost st'
end
end
end.

(** ** Agreement on some registers *)

(** The same world, and the same virtual registers among those that satisfy [P]. *)
Record agree_on (P : VRegId -> Prop) (st st' : mstate) : Prop := {
ag_world : ms_world st' = ms_world st;
ag_vregs : forall v, P v -> vreg_val st' v = vreg_val st v }.

#[export] Instance agree_equivalence P : Equivalence (agree_on P).
Proof.
split.
- by split.
- intros a b [H1 H2]. split; [done|]. intros v Hv. by rewrite H2.
- intros a b c [H1 H2] [H3 H4]. split; [congruence|]. intros v Hv. by rewrite H4, H2.
Qed.

Definition agree_outcome (P : VRegId -> Prop) (a b : outcome) : Prop :=
match a, b with
| Left_ st, Left_ st' | Lost st, Lost st' | Running st, Running st' => agree_on P st st'
| _, _ => False
end.

#[export] Instance agree_outcome_trans P : Transitive (agree_outcome P).
Proof. intros a b c. destruct a, b, c; simpl; try done; by intros ->. Qed.

(** An instruction reads registers that satisfy [P] only. *)
Definition reads_in (P : VRegId -> Prop) (i : X86Inst) : Prop := forall v, v ∈ use_vregs i -> P (vr_id v).

Lemma agree_vreg P st st' v : agree_on P st st' -> P v -> vreg_val st' v = vreg_val st v.
Proof. intros [_ H] Hv. by apply H. Qed.

Lemma agree_arg P st st' op : agree_on P st st' -> (forall v, op = VReg v -> P (vr_id v)) -> arg_of st' op = arg_of st op.
Proof.
intros H Hv. destruct op as [v|r| | | | | | |]; try done; simpl.
- f_equal. by eapply agree_vreg, Hv.
- unfold reg_val. by rewrite (ag_world _ _ _ H).
Qed.

Lemma agree_args P st st' i : agree_on P st st' -> reads_in P i -> args_of st' i = args_of st i.
Proof.
intros H Hb. unfold args_of. f_equal.
- apply list_fmap_ext. intros k op Hk. apply (agree_arg P); [done|]. intros v ->.
apply Hb. unfold use_vregs. apply elem_of_app. right. apply list_elem_of_omap. exists (VReg v). split; [by eapply list_elem_of_lookup_2|done].
- unfold destination. destruct (fp_store_addr_vreg i) as [v|] eqn:E; [|done]. do 2 f_equal. eapply agree_vreg; [done|].
apply Hb. unfold use_vregs. rewrite E. left.
Qed.

Lemma agree_write P i x st st' : agree_on P st st' -> agree_on P (write_def i x st) (write_def i x st').
Proof.
intros [Hw Hv]. unfold write_def. destruct (fp_store_addr_vreg i), (x_def i) as [[v|r| | | | | | |]|]; try done; split; simpl; try done.
- intros u Hu. unfold vreg_val. simpl. destruct (decide (vr_id v = u)) as [->|Hne]; [by rewrite !lookup_insert_eq|].
rewrite !lookup_insert_ne by done. by apply Hv.
- by rewrite Hw.
Qed.

Lemma agree_exec P i st st' : agree_on P st st' -> reads_in P i -> agree_on P (exec_inst i st) (exec_inst i st').
Proof.
intros H Hb. unfold exec_inst. rewrite (agree_args P st st' i H Hb), (ag_world _ _ _ H).
destruct (sem _ _ _ _) as [x w]. apply agree_write. split; [done|apply H].
Qed.

(** Blocks that run alike make functions that run alike. *)
Definition runs_alike (P : VRegId -> Prop) (b b' : X86Block) : Prop :=
xb_id b' = xb_id b /\
forall st st', agree_on P st st' ->
(run_insts (xb_insts b') st').2 = (run_insts (xb_insts b) st).2 /\ agree_on P (run_insts (xb_insts b) st).1 (run_insts (xb_insts b') st').1.

Lemma named_alike P bs bs' id :
Forall2 (runs_alike P) bs bs' ->
match list_find (fun b => xb_id b = id) bs, list_find (fun b => xb_id b = id) bs' with
| Some (_, b), Some (_, b') => runs_alike P b b'
| None, None => True
| _, _ => False
end.
Proof.
induction 1 as [|b b' bs bs' Hb _ IH]; [done|]. simpl. destruct Hb as [Hid Hrest].
destruct (decide (xb_id b = id)) as [E|E]; destruct (decide (xb_id b' = id)) as [E'|E']; try congruence; [done|].
destruct (list_find _ bs) as [[k c]|], (list_find _ bs') as [[k' c']|]; done.
Qed.

Lemma alike_runs P f g :
Forall2 (runs_alike P) (xf_blocks f) (xf_blocks g) ->
forall fuel b st st', agree_on P st st' -> agree_outcome P (run_function fuel f b st) (run_function fuel g b st').
Proof.
intros H fuel. induction fuel as [|fuel IH]; intros b st st' Hag; [done|]. simpl. unfold block_named.
pose proof (named_alike P _ _ b H) as Hb. destruct (list_find _ (xf_blocks f)) as [[k c]|], (list_find _ (xf_blocks g)) as [[k' c']|]; try done.
simpl. destruct Hb as (_ & Hsim). destruct (Hsim st st' Hag) as [He Ha].
destruct (run_insts (xb_insts c) st) as [s e], (run_insts (xb_insts c') st') as [s' e']. simpl in *. subst e'.
destruct e as [[b'|]|]; [by apply IH|done..].
Qed.

(** A register an instruction does not define keeps its contents. *)
Lemma exec_keeps i st v : (vr_id <$> def_vreg i) <> Some v -> ms_vregs (exec_inst i st) !! v = ms_vregs st !! v.
Proof.
unfold exec_inst, def_vreg, write_def. destruct (sem _ _ _ _) as [x w].
destruct (fp_store_addr_vreg i), (x_def i) as [[u| | | | | | | |]|]; try done. simpl. intros H. apply lookup_insert_ne. congruence.
Qed.

End run.

Lemma find_fmap (h : X86Block -> X86Block) bs b :
  (forall c, xb_id (h c) = xb_id c) ->
  snd <$> list_find (fun blk => xb_id blk = b) (h <$> bs) = h <$> (snd <$> list_find (fun blk => xb_id blk = b) bs).
Proof.
  intros Hid. induction bs as [|c bs IH]; [done|]. rewrite fmap_cons. cbn [list_find].
  destruct (decide (xb_id (h c) = b)) as [E|E], (decide (xb_id c = b)) as [E'|E']; try (rewrite Hid in E; done).
  destruct (list_find _ (h <$> bs)) as [[k1 c1]|], (list_find _ bs) as [[k2 c2]|]; simpl in *; congruence.
Qed.

Lemma block_named_in f b blk : block_named f b = Some blk -> blk ∈ xf_blocks f.
Proof.
  unfold block_named. destruct (list_find _ (xf_blocks f)) as [[k c]|] eqn:E; [|done]. intros [= <-].
  apply list_find_Some in E as (E & _). by eapply list_elem_of_lookup_2.
Qed.

(** Agreement below a register. *)
Notation below n := (fun v : N => (v < n)%N).

(** * A sample machine

    Registers hold 64-bit integers, operations work at their size and extend with zeros,
    the flags hold the last result (signed), and the memory has a cell per frame
    displacement. *)

Definition size_bits (sz : OpSize) : Z := match sz with SzB => 8 | SzW => 16 | SzL => 32 | SzQ => 64 end.

Definition trunc (sz : OpSize) (z : Z) : Z := (z mod 2 ^ size_bits sz)%Z.

(** A copy of a full register is the register. *)
Definition keep (sz : OpSize) (z : Z) : Z := match sz with SzQ => z | _ => trunc sz z end.

Local Abbreviation int_world := (world Z Z (gmap Z Z)).

Definition arg_int (a : option (arg Z)) : Z :=
  match a with Some (Val z) => z | Some (Raw (Imm z)) => z | _ => 0%Z end.

Definition set_flags (fl : Z) (w : int_world) : int_world := {| w_regs := w_regs w; w_flags := fl; w_mem := w_mem w |}.

Definition cell (a : option (arg Z)) : option Z :=
  match a with Some (Raw (Mem (Some Rbp) None _ d)) => Some d | _ => None end.

Definition address (w : int_world) (a : option (arg Z)) : Z :=
  let reg r := default 0%Z (w_regs w !! r) in
  match a with
  | Some (Raw (Mem b i s d)) => (from_option reg 0 b + from_option reg 0 i * Z.of_N s + d)%Z
  | _ => 0%Z
  end.

Definition int_sem (op : X86Opcode) (sz : OpSize) (args : list (arg Z)) (w : int_world) : Z * int_world :=
  let a := arg_int (args !! 0%nat) in
  let b := arg_int (args !! 1%nat) in
  let flagged z := set_flags (swrap (size_bits sz) z) w in
  let result z := (trunc sz z, flagged z) in
  match op with
  | MovRR | MovRI | Movss | Movsd | Movaps => (keep sz a, w)
  | MovRM => (match cell (args !! 0%nat) with Some d => keep sz (default 0%Z (w_mem w !! d)) | None => 0%Z end, w)
  | MovMR =>
      (0%Z, match cell (args !! 1%nat) with
            | Some d => {| w_regs := w_regs w; w_flags := w_flags w; w_mem := <[d := a]> (w_mem w) |}
            | None => w
            end)
  | Lea => (trunc sz (address w (args !! 0%nat)), w)
  | Add => result (a + b)%Z
  | Sub => result (a - b)%Z
  | Imul => result (a * b)%Z
  | Neg => result (- a)%Z
  | Cmp | Ucomiss | Ucomisd => (0%Z, flagged (a - b)%Z)
  | And => result (Z.land (trunc sz a) (trunc sz b))
  | Or => result (Z.lor (trunc sz a) (trunc sz b))
  | Xor => result (Z.lxor (trunc sz a) (trunc sz b))
  | Test_ => (0%Z, flagged (Z.land (trunc sz a) (trunc sz b)))
  | _ => (0%Z, w)
  end.

Definition int_holds (c : X86Cond) (fl : Z) : bool :=
  match c with
  | CcE => (fl =? 0)%Z | CcNe => negb (fl =? 0)%Z
  | CcL => (fl <? 0)%Z | CcLe => (fl <=? 0)%Z | CcG => (0 <? fl)%Z | CcGe => (0 <=? fl)%Z
  | _ => false
  end.

#[export] Instance int_machine : Machine Z Z (gmap Z Z) := {| junk := 0%Z; holds := int_holds; sem := int_sem |}.

(** Truncating to a larger size is invisible at a smaller one. *)
Lemma trunc_shift sz sz' a : (size_bits sz <= size_bits sz')%Z -> exists k, trunc sz' a = (a + k * 2 ^ size_bits sz)%Z.
Proof.
  intros H. unfold trunc. pose proof (Z.div_mod a (2 ^ size_bits sz') ltac:(by destruct sz')) as E.
  exists (- (a / 2 ^ size_bits sz') * 2 ^ (size_bits sz' - size_bits sz))%Z.
  rewrite <- Z.mul_assoc, <- Z.pow_add_r by (destruct sz, sz'; simpl in *; lia). rewrite Z.sub_add. lia.
Qed.

Lemma keep_shift sz sz' a : (size_bits sz <= size_bits sz')%Z -> exists k, keep sz' a = (a + k * 2 ^ size_bits sz)%Z.
Proof. intros H. destruct sz'; try (by apply (trunc_shift sz)). exists 0%Z. simpl. lia. Qed.

Lemma trunc_add sz a k : trunc sz (a + k * 2 ^ size_bits sz) = trunc sz a.
Proof. unfold trunc. apply Z.mod_add. by destruct sz. Qed.

Lemma swrap_add n a k : (0 < n)%Z -> swrap n (a + k * 2 ^ n) = swrap n a.
Proof.
  intros Hn. unfold swrap. f_equal. rewrite <- Z.mod_add with (b := k) (a := (a + 2 ^ (n - 1))%Z) by (by apply Z.pow_nonzero; lia). f_equal. lia.
Qed.
