(* ===== verification/TwoAddr.v ===== *)
(** Two-address conversion (src/src/codegen/x86/twoaddr.rs): every instruction whose
    definition is tied to operand 0 is rewritten so that it holds operand 0.

    [None] is a panic of the code. *)

From S2P Require Import Prelude.
From stdpp Require Import list.
From S2P Require Import X86Mir X86Sem.

(** * The conversion *)

(** Tied opcodes whose operands may swap. *)
Definition is_commutative (op : X86Opcode) : bool :=
  match op with
  | Add | Imul | And | Or | Xor | Addss | Addsd | Mulss | Mulsd | Xorps | Xorpd | Andps | Andpd => true
  | _ => false
  end.

(** The register move of a tied opcode; [None] keeps the size of the instruction. *)
Definition move_opcode (op : X86Opcode) : X86Opcode * option OpSize :=
  match op with
  | Addss | Subss | Mulss | Divss | Xorps | Andps => (Movss, Some SzL)
  | Addsd | Subsd | Mulsd | Divsd | Xorpd | Andpd => (Movsd, Some SzQ)
  | Addps | Addpd | Subps | Subpd | Mulps | Mulpd | Divps | Divpd | Minps | Minpd | Maxps
  | Maxpd | Paddd | Paddq | Psubd | Psubq | Pand | Pandn | Por | Pxor | Pcmpgtd | Pcmpeqd
  | Cmpps | Cmppd | Shufps | Movhlps | Unpcklpd | Punpcklqdq => (Movaps, Some SzQ)
  | _ => (MovRR, None)
  end.

(** The move of an instruction: a 128-bit definition copies all lanes. *)
Definition tie_move (op : X86Opcode) (size : OpSize) (def : X86Operand) : X86Opcode * OpSize :=
  let '(mv, sz) := move_opcode op in
  match def with
  | VReg v => if bool_decide (vr_class v = Xmm128) then (Movaps, SzQ) else (mv, default size sz)
  | _ => (mv, default size sz)
  end.

Definition swap_first (ops : list X86Operand) : list X86Operand :=
  match ops with a :: b :: rest => b :: a :: rest | _ => ops end.

Definition copy_inst (mv : X86Opcode * OpSize) (src dst : X86Operand) : X86Inst :=
  {| x_opcode := mv.1; x_size := mv.2; x_operands := [src]; x_def := Some dst |}.

Definition with_operands (i : X86Inst) (ops : list X86Operand) : X86Inst :=
  {| x_opcode := x_opcode i; x_size := x_size i; x_operands := ops; x_def := x_def i |}.

Definition convert_inst (f : X86Function) (i : X86Inst) : option (list X86Inst * X86Function) :=
  match tied_use (x_opcode i) with
  | None => Some ([i], f)
  | Some _ =>
      def ← x_def i;
      match x_operands i with
      | [] => None
      | a :: rest =>
          if bool_decide (a = def) then Some ([i], f)
          else if is_commutative (x_opcode i) && bool_decide (rest !! 0%nat = Some def)
          then Some ([with_operands i (swap_first (x_operands i))], f)
          else
            let mv := tie_move (x_opcode i) (x_size i) def in
            if bool_decide (rest !! 0%nat = Some def) then
              match def with
              | VReg d =>
                  let '(temp, f) := new_vreg f (vr_class d) in
                  Some ([copy_inst mv def (VReg temp); copy_inst mv a def;
                         with_operands i (def :: VReg temp :: drop 1 rest)], f)
              | _ => None
              end
            else Some ([copy_inst mv a def; with_operands i (def :: rest)], f)
      end
  end.

Fixpoint convert_insts (f : X86Function) (insts : list X86Inst) : option (list X86Inst * X86Function) :=
  match insts with
  | [] => Some ([], f)
  | i :: rest =>
      '(out, f) ← convert_inst f i;
      '(outs, f) ← convert_insts f rest;
      Some (out ++ outs, f)
  end.

Fixpoint convert_blocks (f : X86Function) (bs : list X86Block) : option (list X86Block * X86Function) :=
  match bs with
  | [] => Some ([], f)
  | b :: rest =>
      '(insts, f) ← convert_insts f (xb_insts b);
      '(bs', f) ← convert_blocks f rest;
      Some ({| xb_id := xb_id b; xb_insts := insts |} :: bs', f)
  end.

Definition convert_to_two_address (f : X86Function) : option X86Function :=
  '(bs, f) ← convert_blocks f (xf_blocks f);
  Some (with_blocks f bs).

(** * What instruction selection hands over

    A tied instruction defines a virtual register, unless it is tied already; a virtual
    register has one class; only operands 0 and 1 may be the definition; the definition
    of a scalar floating-point operation is an xmm register. *)

Record tied_shape (n : N) (i : X86Inst) : Prop := {
  ts_below : forall v, VReg v ∈ x_operands i ++ option_list (x_def i) -> (vr_id v < n)%N;
  ts_def : is_Some (tied_use (x_opcode i)) -> exists a rest, x_operands i = a :: rest /\
    (x_def i = Some a \/ exists d, x_def i = Some (VReg d) /\
       (forall v, VReg v ∈ x_operands i -> vr_id v = vr_id d -> v = d) /\ VReg d ∉ drop 1 rest /\
       (is_fp_class (vr_class d) = false -> (tie_move (x_opcode i) (x_size i) (VReg d)).1 = MovRR)) }.

(** * What an opcode has to satisfy *)

(** The moves copy what the operation reads and touch nothing else (the tie copy only
    needs the lanes the operation reads), and commutative operations commute. *)
Class TieLaws (val flg memory : Type) `{!Machine val flg memory} : Prop := {
  copy_pure op size d a w :
    is_Some (tied_use op) -> (sem (tie_move op size (VReg d)).1 (tie_move op size (VReg d)).2 [a] w).2 = w;
  copy_first op size d a rest w :
    is_Some (tied_use op) ->
    sem op size (Val (sem (tie_move op size (VReg d)).1 (tie_move op size (VReg d)).2 [a] w).1 :: rest) w = sem op size (a :: rest) w;
  copy_second op size d a b rest w :
    is_Some (tied_use op) ->
    sem op size (a :: Val (sem (tie_move op size (VReg d)).1 (tie_move op size (VReg d)).2 [b] w).1 :: rest) w = sem op size (a :: b :: rest) w;
  swap_args op size a b rest w :
    is_commutative op = true -> sem op size (a :: b :: rest) w = sem op size (b :: a :: rest) w }.

(** * One instruction *)

Lemma shape_reads n i : tied_shape n i -> reads_in (below n) i.
Proof.
  intros [Hb _] v Hv. apply Hb, elem_of_app. unfold use_vregs in Hv. apply elem_of_app in Hv as [Hv|Hv].
  - right. unfold fp_store_addr_vreg in Hv. destruct (x_def i) as [[u| | | | | | | |]|];
      destruct (x_opcode i); try (by apply elem_of_nil in Hv); destruct (_ && _); simpl in Hv; try (by apply elem_of_nil in Hv);
      apply list_elem_of_singleton in Hv as ->; left.
  - left. apply list_elem_of_omap in Hv as (op & Hop & E). destruct op; try done. by injection E as ->.
Qed.

(** A tied instruction holds its definition in operand 0. *)
Definition tied_ok (i : X86Inst) : Prop :=
  is_Some (tied_use (x_opcode i)) -> exists a rest, x_operands i = a :: rest /\ x_def i = Some a.

Lemma move_not_tied op size def : tied_use (tie_move op size def).1 = None.
Proof. unfold tie_move. destruct (move_opcode op) as [mv sz] eqn:E. destruct op; injection E as <- <-; destruct def; simpl; try case_bool_decide; done. Qed.

Lemma convert_inst_total n f i :
  tied_shape n i ->
  exists out f', convert_inst f i = Some (out, f') /\ Forall tied_ok out /\ xf_blocks f' = xf_blocks f /\
    (next_vreg f' = next_vreg f \/ next_vreg f' = u32 (next_vreg f + 1)).
Proof.
  intros [_ Hs]. unfold convert_inst. destruct (tied_use (x_opcode i)) as [t|] eqn:Et.
  2: { exists [i], f. repeat split; try done; [|by left]. repeat constructor. intros [t Ht]. congruence. }
  destruct Hs as (a & rest & Eo & Hd); [done|]. rewrite Eo.
  assert (Hdef : exists def, x_def i = Some def) by (destruct Hd as [->|(d & -> & _)]; eauto). destruct Hdef as [def Edef]. rewrite Edef. cbn [mbind option_bind].
  assert (Hmv : forall src dst, tied_ok (copy_inst (tie_move (x_opcode i) (x_size i) def) src dst)).
  { intros src dst [t' Ht']. simpl in Ht'. by rewrite move_not_tied in Ht'. }
  assert (Hthis : forall b r, b = def -> tied_ok (with_operands i (b :: r))) by (intros b r -> _; exists def, r; split; [done|exact Edef]).
  case_bool_decide as Ha.
  { exists [i], f. repeat split; try done; [|by left]. repeat constructor. intros _. exists a, rest. split; [done|]. by rewrite Ha. }
  destruct (is_commutative (x_opcode i) && bool_decide (rest !! 0%nat = Some def)) eqn:Ec.
  { apply andb_true_iff in Ec as [_ Ec]. apply bool_decide_eq_true in Ec. destruct rest as [|b rest]; [done|]. injection Ec as ->.
    do 2 eexists. repeat split; [|by left]. repeat constructor. by apply Hthis. }
  case_bool_decide as Hb.
  - destruct Hd as [Hd|(d & Hd & _)]; [congruence|]. rewrite Edef in Hd. injection Hd as ->.
    cbn [new_vreg]. do 2 eexists. repeat split; [|by right]. repeat constructor; try apply Hmv. by apply Hthis.
  - do 2 eexists. repeat split; [|by left]. repeat constructor; try apply Hmv. by apply Hthis.
Qed.

Section simulation.
Context {val flg memory : Type} `{!Machine val flg memory, !TieLaws val flg memory}.
Local Abbreviation mstate := (mstate val flg memory).

Definition set_vreg (v : VRegId) (x : val) (st : mstate) : mstate :=
{| ms_vregs := <[v := x]> (ms_vregs st); ms_world := ms_world st |}.

Lemma tied_not_store op size ops d : is_Some (tied_use op) -> fp_store_addr_vreg {| x_opcode := op; x_size := size; x_operands := ops; x_def := d |} = None.
Proof. intros [t Ht]. destruct op; done. Qed.

(** A tied instruction with a virtual definition. *)
Lemma exec_tied op size ops d st :
is_Some (tied_use op) ->
exec_inst {| x_opcode := op; x_size := size; x_operands := ops; x_def := Some (VReg d) |} st =
let '(x, w) := sem op size (arg_of st <$> ops) (ms_world st) in set_vreg (vr_id d) x {| ms_vregs := ms_vregs st; ms_world := w |}.
Proof.
intros Ht. unfold exec_inst, args_of, destination, write_def. rewrite (tied_not_store op size ops (Some (VReg d)) Ht). simpl.
rewrite app_nil_r. done.
Qed.

Lemma exec_copy op size c d src st :
is_Some (tied_use op) -> vr_class c = vr_class d ->
(is_fp_class (vr_class d) = false -> (tie_move op size (VReg d)).1 = MovRR) ->
let mv := tie_move op size (VReg d) in
exec_inst (copy_inst mv src (VReg c)) st = set_vreg (vr_id c) (sem mv.1 mv.2 [arg_of st src] (ms_world st)).1 st.
Proof.
intros Ht Hc Hcls mv.
assert (Hst : fp_store_addr_vreg (copy_inst mv src (VReg c)) = None).
{ unfold fp_store_addr_vreg. simpl. destruct (is_fp_class (vr_class d)) eqn:Ed.
- rewrite Hc. destruct (vr_class d); try done; simpl; by destruct mv.1.
- unfold mv. by rewrite (Hcls eq_refl). }
unfold exec_inst, args_of, destination, write_def. rewrite Hst. simpl.
pose proof (copy_pure op size d (arg_of st src) (ms_world st) Ht) as Hp. fold mv in Hp.
destruct (sem mv.1 mv.2 [arg_of st src] (ms_world st)) as [x w]. simpl in *. by subst w.
Qed.

Lemma arg_of_set v x st op : op <> VReg v -> (forall u, op = VReg u -> vr_id u = vr_id v -> u = v) -> arg_of (set_vreg (vr_id v) x st) op = arg_of st op.
Proof.
intros Hne Hc. destruct op as [u| | | | | | | |]; try done. simpl. unfold vreg_val. simpl.
rewrite lookup_insert_ne; [done|]. intros E. apply Hne. f_equal. by apply (Hc u).
Qed.

Lemma args_of_set v x st (ops : list X86Operand) :
VReg v ∉ ops -> (forall u, VReg u ∈ ops -> vr_id u = vr_id v -> u = v) -> arg_of (set_vreg (vr_id v) x st) <$> ops = arg_of st <$> ops.
Proof.
intros Hn Hc. apply list_fmap_ext. intros k op Hk%list_elem_of_lookup_2. apply arg_of_set; [by intros ->|]. intros u ->. by apply Hc.
Qed.

Lemma arg_of_own v x st : arg_of (set_vreg (vr_id v) x st) (VReg v) = Val x.
Proof. simpl. unfold vreg_val. simpl. by rewrite lookup_insert_eq. Qed.

(** Any two ways to produce the same result for the definition agree, temporaries apart. *)
Lemma agree_set n v x (w : world val flg memory) (st st' : mstate) :
(forall u, (u < n)%N -> u <> v -> ms_vregs st' !! u = ms_vregs st !! u) ->
agree_on (below n) (set_vreg v x {| ms_vregs := ms_vregs st; ms_world := w |}) (set_vreg v x {| ms_vregs := ms_vregs st'; ms_world := w |}).
Proof.
intros H. split; [done|]. intros u Hu. unfold vreg_val. simpl. destruct (decide (v = u)) as [->|Hne]; [by rewrite !lookup_insert_eq|].
rewrite !lookup_insert_ne by done. by rewrite H.
Qed.

(** [d = op a, rest] and [d = a; d = op d, rest]. *)
Lemma copy_then_op op size a d (rest : list X86Operand) st :
is_Some (tied_use op) -> VReg d ∉ rest -> (forall u, VReg u ∈ rest -> vr_id u = vr_id d -> u = d) ->
(is_fp_class (vr_class d) = false -> (tie_move op size (VReg d)).1 = MovRR) ->
let tied ops := {| x_opcode := op; x_size := size; x_operands := ops; x_def := Some (VReg d) |} in
exec_inst (tied (VReg d :: rest)) (exec_inst (copy_inst (tie_move op size (VReg d)) a (VReg d)) st) =
exec_inst (tied (a :: rest)) st.
Proof.
intros Ht Hn Hc Hcls tied. unfold tied. rewrite (exec_copy op size d d a st Ht eq_refl Hcls), !exec_tied by done.
set (x := (sem _ _ [arg_of st a] _).1). rewrite fmap_cons, arg_of_own, args_of_set by done. cbn [ms_world set_vreg].
unfold x. rewrite copy_first by done. rewrite fmap_cons. destruct (sem op size _ _) as [y w]. unfold set_vreg. simpl. by rewrite insert_insert_eq.
Qed.

Definition exec_all (insts : list X86Inst) (st : mstate) : mstate := foldl (fun st i => exec_inst i st) st insts.

(** [d = op a, d, rest] through a temporary. *)
Lemma temp_then_op n op size a d t (rest : list X86Operand) st :
is_Some (tied_use op) -> VReg d ∉ rest -> (forall u, VReg u ∈ a :: rest -> vr_id u = vr_id d -> u = d) ->
(forall u, VReg u ∈ a :: VReg d :: rest -> (vr_id u < n)%N) -> (n <= vr_id t)%N -> vr_class t = vr_class d ->
(is_fp_class (vr_class d) = false -> (tie_move op size (VReg d)).1 = MovRR) ->
let tied ops := {| x_opcode := op; x_size := size; x_operands := ops; x_def := Some (VReg d) |} in
let mv := tie_move op size (VReg d) in
agree_on (below n) (exec_inst (tied (a :: VReg d :: rest)) st)
(exec_all [copy_inst mv (VReg d) (VReg t); copy_inst mv a (VReg d); tied (VReg d :: VReg t :: rest)] st).
Proof.
intros Ht Hn Hc Hb Hnt Hct Hcls tied mv. unfold exec_all. cbn [foldl]. unfold mv, tied.
rewrite (exec_copy op size t d (VReg d) st Ht Hct Hcls). set (x := (sem _ _ [arg_of st (VReg d)] _).1).
assert (Hdt : vr_id d <> vr_id t) by (specialize (Hb d ltac:(right; left)); lia).
assert (Hfresh : forall u : X86VReg, (vr_id u < n)%N -> u <> t) by (intros u Hu ->; lia).
rewrite (copy_then_op op size a d (VReg t :: rest) (set_vreg (vr_id t) x st)); [|done| | |done].
2: { intros [E|H]%elem_of_cons; [injection E as ->; done|done]. }
2: { intros u [E|H]%elem_of_cons E2; [injection E as ->; done|]. apply Hc; [by right|done]. }
rewrite !exec_tied, !fmap_cons by done.
rewrite (arg_of_set t x st a), (arg_of_own t x st), (args_of_set t x st rest).
- cbn [ms_world set_vreg]. unfold x. rewrite copy_second by done. destruct (sem op size _ _) as [y w].
apply agree_set. intros u Hu Hne. simpl. by rewrite lookup_insert_ne by lia.
- intros H. specialize (Hb t ltac:(do 2 right; exact H)). lia.
- intros u H E. specialize (Hb u ltac:(do 2 right; exact H)). lia.
- intros ->. specialize (Hb t ltac:(left)). lia.
- intros u -> E. specialize (Hb u ltac:(left)). lia.
Qed.

Lemma convert_inst_sim n f i out f' st :
tied_shape n i -> (n <= next_vreg f)%N -> convert_inst f i = Some (out, f') -> agree_on (below n) (exec_inst i st) (exec_all out st).
Proof.
intros [Hbelow Hs] Hn. unfold convert_inst. destruct (tied_use (x_opcode i)) as [t|] eqn:Et; [|by intros [= <- <-]].
destruct Hs as (a & rest & Eo & Hd); [done|]. destruct i as [op size ops def]. simpl in *. subst ops.
assert (Ht : is_Some (tied_use op)) by done. destruct def as [def|]; [|done]. cbn [mbind option_bind].
case_bool_decide as Ha; [by intros [= <- <-]|].
destruct Hd as [[= ->]|(d & [= ->] & Hc & Hrest & Hcls)]; [done|].
destruct (is_commutative op && bool_decide (rest !! 0%nat = Some (VReg d))) eqn:Ec.
{ intros [= <- <-]. apply andb_true_iff in Ec as [Ec Er]. apply bool_decide_eq_true in Er. destruct rest as [|b rest]; [done|]. injection Er as ->.
unfold exec_all, with_operands. simpl. rewrite !exec_tied, !fmap_cons by done. by rewrite swap_args. }
clear Ec. case_bool_decide as Hb.
- destruct rest as [|b rest]; [done|]. injection Hb as ->. cbn [new_vreg drop] in *. rewrite ?drop_0 in *. intros [= <- <-].
apply temp_then_op; try done.
+ intros u Hu. apply Hc. apply elem_of_cons in Hu as [->|Hu]; [left|by do 2 right].
+ intros u Hu. apply Hbelow, elem_of_app. by left.
- intros [= <- <-]. unfold exec_all, with_operands. cbn [foldl x_opcode x_size x_def].
rewrite (copy_then_op op size a d rest st Ht); [done| | |done].
+ intros Hin. destruct rest as [|b rest]; [by apply elem_of_nil in Hin|]. simpl in Hrest. rewrite drop_0 in Hrest.
apply elem_of_cons in Hin as [<-|Hin]; done.
+ intros u Hu. apply Hc. by right.
Qed.

(** Instructions that fall through. *)
Definition straight (i : X86Inst) : Prop := match x_opcode i with Jmp | Jcc | Ret => False | _ => True end.

Lemma straight_flow i fl : straight i -> flow i fl = None.
Proof. unfold straight, flow. destruct (x_opcode i); done. Qed.

Lemma run_straight out rest (st : mstate) : Forall straight out -> run_insts (out ++ rest) st = run_insts rest (exec_all out st).
Proof. intros H. revert st. induction H as [|i out Hi _ IH]; intros st; [done|]. simpl. rewrite straight_flow by done. apply IH. Qed.

Lemma tied_straight op size ops d : is_Some (tied_use op) -> straight {| x_opcode := op; x_size := size; x_operands := ops; x_def := d |}.
Proof. intros [t Ht]. destruct op; done. Qed.

Lemma convert_inst_run n f i out f' rest outs st st' :
tied_shape n i -> (n <= next_vreg f)%N -> convert_inst f i = Some (out, f') -> agree_on (below n) st st' ->
(forall s s', agree_on (below n) s s' -> (run_insts outs s').2 = (run_insts rest s).2 /\ agree_on (below n) (run_insts rest s).1 (run_insts outs s').1) ->
(run_insts (out ++ outs) st').2 = (run_insts (i :: rest) st).2 /\ agree_on (below n) (run_insts (i :: rest) st).1 (run_insts (out ++ outs) st').1.
Proof.
intros Hs Hn E Hag Hrest. assert (Hi : agree_on (below n) (exec_inst i st) (exec_all out st')).
{ transitivity (exec_inst i st'); [by apply agree_exec, shape_reads|by eapply convert_inst_sim]. }
destruct (tied_use (x_opcode i)) as [t|] eqn:Et.
- assert (Ht : is_Some (tied_use (x_opcode i))) by (rewrite Et; done).
assert (Hst : forall ops, straight (with_operands i ops)) by (intros ops; apply tied_straight; done).
assert (Hsi : straight i) by (destruct i; by apply tied_straight).
assert (Hmv : forall src dst dst', straight (copy_inst (tie_move (x_opcode i) (x_size i) dst) src dst')).
{ intros src dst dst'. pose proof (move_not_tied (x_opcode i) (x_size i) dst) as Hmn. unfold straight, copy_inst, tie_move. simpl.
destruct (x_opcode i); try done; destruct dst; simpl; try case_bool_decide; done. }
assert (Hout : Forall straight out).
{ unfold convert_inst in E. rewrite Et in E. destruct (x_def i) as [def|]; [|done]. cbn [mbind option_bind] in E.
destruct (x_operands i) as [|a ops]; [done|].
case_bool_decide; [injection E as <- <-; by repeat constructor|].
destruct (_ && _); [injection E as <- <-; repeat constructor; apply Hst|].
case_bool_decide; [|injection E as <- <-; repeat constructor; [apply Hmv|apply Hst]].
destruct def; try done. cbn in E. injection E as <- <-. repeat constructor; try apply Hmv. apply Hst. }
rewrite (run_straight out outs st' Hout). cbn [run_insts]. rewrite straight_flow by done. by apply Hrest.
- unfold convert_inst in E. rewrite Et in E. injection E as <- <-. cbn [app run_insts]. unfold exec_all in Hi. cbn [foldl] in Hi.
rewrite (ag_world _ _ _ Hi). destruct (flow i _); [done|]. by apply Hrest.
Qed.

End simulation.

(** * Lists of instructions and blocks *)

Lemma u32_le n : (u32 n <= n)%N.
Proof. unfold u32. apply N.Div0.mod_le. Qed.

Lemma convert_insts_spec n insts f :
  Forall (tied_shape n) insts -> (n <= next_vreg f)%N -> (next_vreg f + N.of_nat (length insts) < 2 ^ 32)%N ->
  exists out f', convert_insts f insts = Some (out, f') /\ Forall tied_ok out /\ xf_blocks f' = xf_blocks f /\
    (next_vreg f <= next_vreg f' <= next_vreg f + N.of_nat (length insts))%N /\
    forall (val flg memory : Type) (M : Machine val flg memory) (L : TieLaws val flg memory) (s s' : mstate val flg memory), agree_on (below n) s s' ->
      (run_insts out s').2 = (run_insts insts s).2 /\ agree_on (below n) (run_insts insts s).1 (run_insts out s').1.
Proof.
  intros Hs. revert f. induction Hs as [|i insts Hi _ IH]; intros f Hn Hb.
  { exists [], f. split; [done|]. split; [constructor|]. split; [done|]. split; [simpl; lia|]. done. }
  destruct (convert_inst_total n f i Hi) as (out & f1 & E & Hok & Hb1 & Hnext). simpl in Hb.
  assert (Hn1 : (next_vreg f <= next_vreg f1 <= next_vreg f + 1)%N).
  { destruct Hnext as [->| ->]; [lia|]. rewrite u32_small by lia. lia. }
  destruct (IH f1) as (outs & f2 & E2 & Hok2 & Hb2 & Hn2 & Hsim); [lia|lia|].
  exists (out ++ outs), f2. cbn [convert_insts]. rewrite E. cbn [mbind option_bind]. rewrite E2. cbn [mbind option_bind].
  split; [done|]. split; [by apply list.Forall_app|]. split; [congruence|]. split; [simpl; lia|].
  intros val flg memory M L s s' Hag. eapply convert_inst_run; [done..|]. intros. by apply Hsim.
Qed.

(** A converted block runs like the block it comes from. *)
Definition same_block (n : N) (b b' : X86Block) : Prop :=
  xb_id b' = xb_id b /\ Forall tied_ok (xb_insts b') /\
  forall (val flg memory : Type) (M : Machine val flg memory) (L : TieLaws val flg memory) (s s' : mstate val flg memory), agree_on (below n) s s' ->
    (run_insts (xb_insts b') s').2 = (run_insts (xb_insts b) s).2 /\ agree_on (below n) (run_insts (xb_insts b) s).1 (run_insts (xb_insts b') s').1.

Lemma convert_blocks_spec n bs f :
  (forall b, b ∈ bs -> Forall (tied_shape n) (xb_insts b)) -> (n <= next_vreg f)%N -> (next_vreg f + N.of_nat (inst_count_of bs) < 2 ^ 32)%N ->
  exists bs' f', convert_blocks f bs = Some (bs', f') /\ Forall2 (same_block n) bs bs'.
Proof.
  revert f. induction bs as [|b bs IH]; intros f Hs Hn Hb; [by exists [], f|].
  assert (Hc : inst_count_of (b :: bs) = (length (xb_insts b) + inst_count_of bs)%nat) by done.
  destruct (convert_insts_spec n (xb_insts b) f) as (out & f1 & E & Hok & _ & Hn1 & Hsim); [apply Hs; left|done|lia|].
  destruct (IH f1) as (bs' & f2 & E2 & Hbs); [intros c Hin; apply Hs; by right|lia|lia|].
  cbn [convert_blocks]. rewrite E. cbn [mbind option_bind]. rewrite E2. cbn [mbind option_bind].
  do 2 eexists. split; [done|]. constructor; [|done]. done.
Qed.

(** * Theorems *)

(** What the conversion is given. *)
Definition two_address_ready (f : X86Function) : Prop :=
  (forall b i, b ∈ xf_blocks f -> i ∈ xb_insts b -> tied_shape (next_vreg f) i) /\
  (next_vreg f + N.of_nat (inst_count f) < 2 ^ 32)%N.

Lemma convert_spec f :
  two_address_ready f -> exists g, convert_to_two_address f = Some g /\ Forall2 (same_block (next_vreg f)) (xf_blocks f) (xf_blocks g).
Proof.
  intros [Hs Hb]. unfold convert_to_two_address.
  destruct (convert_blocks_spec (next_vreg f) (xf_blocks f) f) as (bs & f' & E & H); [|lia|exact Hb|].
  - intros b Hin. apply list.Forall_forall. intros i Hi. by eapply Hs.
  - rewrite E. cbn [mbind option_bind]. by eexists.
Qed.

(** Two-address conversion never panics on a ready function, keeps
    the blocks, and leaves every destructive instruction with its definition in operand 0,
    which the printer asserts. *)
Theorem two_address_tied f :
  two_address_ready f ->
  exists g, convert_to_two_address f = Some g /\ xb_id <$> xf_blocks g = xb_id <$> xf_blocks f /\
    forall b i, b ∈ xf_blocks g -> i ∈ xb_insts b -> tied_ok i.
Proof.
  intros Hr. destruct (convert_spec f Hr) as (g & E & H). exists g. split; [done|]. split.
  - clear E Hr. induction H as [|b b' bs bs' [Hid _] _ IH]; [done|]. rewrite !fmap_cons. by rewrite Hid, IH.
  - intros b i Hb Hi. apply list_elem_of_lookup in Hb as [k Hk]. destruct (Forall2_lookup_r _ _ _ _ _ H Hk) as (b0 & _ & _ & Hok & _).
    rewrite list.Forall_forall in Hok. by apply Hok.
Qed.

(** C13: Two-address conversion never panics on a ready function, and the converted
    function runs like the original on every machine whose moves copy what a
    destructive operation reads: from states that agree on the registers of the
    function, both leave, get lost or are still running together, in states that agree. *)
Theorem two_address_preserves (f : X86Function) :
  two_address_ready f ->
  exists g, convert_to_two_address f = Some g /\
    forall (val flg memory : Type) (M : Machine val flg memory), TieLaws val flg memory ->
    forall fuel b st st', agree_on (below (next_vreg f)) st st' ->
      agree_outcome (below (next_vreg f)) (run_function fuel f b st) (run_function fuel g b st').
Proof.
  intros Hr. destruct (convert_spec f Hr) as (g & E & H). exists g. split; [done|]. intros val flg memory M L.
  apply alike_runs. eapply Forall2_impl; [exact H|]. intros b b' (Hid & _ & Hsim). split; [done|]. intros s s'. by apply Hsim.
Qed.

(** * Witnesses *)

(** Two arguments an operation of size [sz] cannot tell apart. *)
Definition close (sz : OpSize) (x y : arg Z) : Prop :=
  exists k, arg_int (Some x) = (arg_int (Some y) + k * 2 ^ size_bits sz)%Z.

Lemma close_at sz x y : close sz x y -> forall (g : Z -> Z),
  (forall z k, exists j, g (z + k * 2 ^ size_bits sz) = g z + j * 2 ^ size_bits sz)%Z ->
  trunc sz (g (arg_int (Some x))) = trunc sz (g (arg_int (Some y))) /\
  swrap (size_bits sz) (g (arg_int (Some x))) = swrap (size_bits sz) (g (arg_int (Some y))).
Proof.
  intros [k ->] g Hg. destruct (Hg (arg_int (Some y)) k) as [j ->]. split; [apply trunc_add|]. apply swrap_add. by destruct sz.
Qed.

Lemma int_close op sz x y a rest w :
  is_Some (tied_use op) -> close sz x y ->
  int_sem op sz (x :: rest) w = int_sem op sz (y :: rest) w /\ int_sem op sz (a :: x :: rest) w = int_sem op sz (a :: y :: rest) w.
Proof.
  intros [t Ht] Hc.
  assert (Hfirst : forall g : Z -> Z -> Z, (forall z b k, exists j, g (z + k * 2 ^ size_bits sz) b = g z b + j * 2 ^ size_bits sz)%Z ->
    forall b, trunc sz (g (arg_int (Some x)) b) = trunc sz (g (arg_int (Some y)) b) /\
      swrap (size_bits sz) (g (arg_int (Some x)) b) = swrap (size_bits sz) (g (arg_int (Some y)) b)).
  { intros g Hg b. by apply (close_at sz x y Hc (fun z => g z b)). }
  assert (Hx : trunc sz (arg_int (Some x)) = trunc sz (arg_int (Some y))) by (destruct Hc as [k ->]; apply trunc_add).
  destruct op; try done; cbn -[trunc swrap arg_int Z.add Z.sub Z.mul Z.opp Z.land Z.lor Z.lxor set_flags size_bits].
  - pose proof (Hfirst Z.add ltac:(intros z b k; exists k; lia)) as H1. pose proof (Hfirst (fun z b => b + z)%Z ltac:(intros z b k; exists k; lia) (arg_int (Some a))) as [E1 E2].
    cbn beta in *. split; [|by rewrite E1, E2]. f_equal; [apply H1|]. f_equal. apply H1.
  - pose proof (Hfirst Z.sub ltac:(intros z b k; exists k; lia)) as H1. pose proof (Hfirst (fun z b => b - z)%Z ltac:(intros z b k; exists (- k)%Z; lia) (arg_int (Some a))) as [E1 E2].
    cbn beta in *. split; [|by rewrite E1, E2]. f_equal; [apply H1|]. f_equal. apply H1.
  - pose proof (Hfirst Z.mul ltac:(intros z b k; exists (k * b)%Z; lia)) as H1. pose proof (Hfirst (fun z b => b * z)%Z ltac:(intros z b k; exists (k * b)%Z; lia) (arg_int (Some a))) as [E1 E2].
    cbn beta in *. split; [|by rewrite E1, E2]. f_equal; [apply H1|]. f_equal. apply H1.
  - by rewrite !Hx.
  - by rewrite !Hx.
  - by rewrite !Hx.
  - split; [|done]. destruct (Hfirst (fun z _ => - z)%Z ltac:(intros z b k; exists (- k)%Z; lia) 0%Z) as [E1 E2]. cbn beta in *. by rewrite E1, E2.
Qed.

Lemma tie_move_close op size d a w :
  is_Some (tied_use op) -> int_sem op size = (fun _ w => (0%Z, w)) \/
  close size (Val (int_sem (tie_move op size (VReg d)).1 (tie_move op size (VReg d)).2 [a] w).1) a.
Proof.
  intros Ht. destruct (decide (op ∈ [Add; Sub; Imul; And; Or; Xor; Neg])) as [Hin|Hout].
  - right. assert (E : exists sz', (size_bits size <= size_bits sz')%Z /\
      int_sem (tie_move op size (VReg d)).1 (tie_move op size (VReg d)).2 [a] w = (keep sz' (arg_int (Some a)), w)).
    { rewrite !elem_of_cons in Hin. unfold tie_move.
      assert (Hmv : move_opcode op = (MovRR, None)).
      { repeat (destruct Hin as [->|Hin]; [done|]). by apply elem_of_nil in Hin. }
      rewrite Hmv. case_bool_decide; simpl;
        [exists SzQ|exists size]; (split; [destruct size; simpl; lia|reflexivity]). }
    destruct E as (sz' & Hs & ->). destruct (keep_shift size sz' (arg_int (Some a)) Hs) as [k Hk]. exists k. exact Hk.
  - left. destruct Ht as [t Ht]. destruct op; try done; exfalso; apply Hout; apply (bool_decide_unpack _); vm_compute; done.
Qed.

#[export] Instance int_tie_laws : TieLaws Z Z (gmap Z Z).
Proof.
  split; simpl.
  - intros op size d a w _. unfold tie_move. destruct op; simpl; try case_bool_decide; reflexivity.
  - intros op size d a rest w Ht. destruct (tie_move_close op size d a w Ht) as [->|Hc]; [done|].
    by destruct (int_close op size _ _ a rest w Ht Hc) as [-> _].
  - intros op size d a b rest w Ht. destruct (tie_move_close op size d b w Ht) as [->|Hc]; [done|].
    by destruct (int_close op size _ _ a rest w Ht Hc) as [_ ->].
  - intros op size a b rest w H. destruct op; try done; unfold int_sem; simpl.
    + by rewrite (Z.add_comm (arg_int (Some a))).
    + by rewrite (Z.mul_comm (arg_int (Some a))).
    + by rewrite (Z.land_comm (trunc size (arg_int (Some a)))).
    + by rewrite (Z.lor_comm (trunc size (arg_int (Some a)))).
    + by rewrite (Z.lxor_comm (trunc size (arg_int (Some a)))).
Qed.

(** [v2 = v0 + v1], then [v1 = v0 - v1] and [v1 = v2 * v1]. *)
Definition arith_fn : X86Function :=
  {| xf_name := "g";
     xf_blocks :=
       [ {| xb_id := 0; xb_insts :=
              [ mk_inst Add [VReg (gp_vreg 0); VReg (gp_vreg 1)] (Some (VReg (gp_vreg 2)));
                mk_inst Sub [VReg (gp_vreg 0); VReg (gp_vreg 1)] (Some (VReg (gp_vreg 1)));
                mk_inst Imul [VReg (gp_vreg 2); VReg (gp_vreg 1)] (Some (VReg (gp_vreg 1)));
                mk_inst Ret [] None ] |} ];
     rodata := []; rodata_bytes := []; frame_slots := [];
     outgoing_arg_bytes := 0; frame_bytes := 0; entry_live_ins := []; next_vreg := 3; next_block := 1 |}.

Lemma arith_fn_ready : two_address_ready arith_fn.
Proof.
  split; [|vm_compute; done].
  assert (Hgp : forall op x y z, (x < 3 -> y < 3 -> z < 3 -> tie_move op SzQ (VReg (gp_vreg z)) = (MovRR, SzQ) ->
    tied_shape 3 (mk_inst op [VReg (gp_vreg x); VReg (gp_vreg y)] (Some (VReg (gp_vreg z)))))%N).
  { intros op x y z Hx Hy Hz Hm. split.
    - intros v Hv. simpl in Hv. rewrite !elem_of_cons in Hv. destruct Hv as [[= ->]|[[= ->]|[[= ->]|Hv]]]; try done. by apply elem_of_nil in Hv.
    - intros _. do 2 eexists. split; [done|]. right. eexists. split; [done|]. split; [|split; [apply not_elem_of_nil|by intros _; simpl; rewrite Hm]].
      intros v Hv E. simpl in Hv. rewrite !elem_of_cons in Hv. destruct Hv as [[= ->]|[[= ->]|Hv]]; [unfold gp_vreg in *; simpl in *; by rewrite E..|].
      by apply elem_of_nil in Hv. }
  intros b i Hb Hi. apply list_elem_of_singleton in Hb as ->. simpl in Hi. rewrite !elem_of_cons in Hi.
  destruct Hi as [->|[->|[->|[->|Hi]]]]; [by apply Hgp..| |by apply elem_of_nil in Hi].
  split; [intros v Hv; by apply elem_of_nil in Hv|]. intros [t Ht]. done.
Qed.

Lemma two_address_tied_witness :
  exists g, convert_to_two_address arith_fn = Some g /\ forall b i, b ∈ xf_blocks g -> i ∈ xb_insts b -> tied_ok i.
Proof. destruct (two_address_tied arith_fn arith_fn_ready) as (g & E & _ & H). exists g. split; [exact E|exact H]. Defined.

Definition arith_start : mstate Z Z (gmap Z Z) :=
  {| ms_vregs := {[ 0%N := 10%Z; 1%N := 4%Z ]}; ms_world := {| w_regs := ∅; w_flags := 0%Z; w_mem := ∅ |} |}.

(** (10 + 4) * (10 - 4) = 84, before and after. *)
Lemma two_address_preserves_witness :
  exists g st, convert_to_two_address arith_fn = Some g /\ run_function 1 g 0 arith_start = Left_ st /\ vreg_val st 1 = 84%Z.
Proof.
  destruct (two_address_preserves arith_fn arith_fn_ready) as (g & E & Hruns).
  pose proof (Hruns Z Z (gmap Z Z) int_machine int_tie_laws 1%nat 0%N arith_start arith_start ltac:(reflexivity)) as H.
  destruct (run_function 1 arith_fn 0 arith_start) as [s|s|s] eqn:Es; [|vm_compute in Es; discriminate Es|vm_compute in Es; discriminate Es].
  destruct (run_function 1 g 0 arith_start) as [s'|s'|s'] eqn:Es'; [|exact (False_ind _ H)|exact (False_ind _ H)].
  exists g, s'. split; [exact E|]. split; [exact Es'|].
  rewrite (agree_vreg _ _ _ 1 H ltac:(vm_compute; reflexivity)). vm_compute in Es. injection Es as <-. vm_compute. reflexivity.
Defined.
