(* ===== verification/X86Peephole.v ===== *)
(** Peephole patterns of the x86-64 backend (src/src/codegen/x86/peephole.rs).

    Before allocation: [cmp v, 0] becomes [test], self-moves are dropped.  After it:
    stores are forwarded to loads of the same slot, a copy and an addition become [lea],
    a zero constant becomes [xor].  Every pattern returns the function and the number of
    instructions it rewrote or removed. *)

From S2P Require Import Prelude.
From stdpp Require Import list.
From S2P Require Import Slices X86Mir.

(** Blocks are rewritten one by one; the counts add up. *)
Definition map_blocks (g : list X86Inst -> list X86Inst * nat) (f : X86Function) : X86Function * nat :=
  (with_blocks f ((fun b => {| xb_id := xb_id b; xb_insts := (g (xb_insts b)).1 |}) <$> xf_blocks f),
   foldr (fun b n => (g (xb_insts b)).2 + n)%nat 0%nat (xf_blocks f)).

(** * Flags *)

Inductive FlagEffect := Writer | Reader | ReadWrite | Transparent.

Definition flag_effect (op : X86Opcode) : FlagEffect :=
  match op with
  | Add | Sub | Imul | And | Or | Xor | Neg | Shl | Shr | Sar | Bsr | Bsf | Cmp | Test_ | Idiv => Writer
  | Jcc | Setcc => Reader
  | Adc | Sbb => ReadWrite
  | _ => Transparent
  end.

Definition ends_in_ret (insts : list X86Inst) : bool :=
  match last insts with Some i => bool_decide (x_opcode i = Ret) | None => false end.

(** Whether the flags are dead after each instruction, and live before the first. *)
Fixpoint flags_scan (live_out : bool) (insts : list X86Inst) : list bool * bool :=
  match insts with
  | [] => ([], live_out)
  | i :: rest =>
      let '(dead, live) := flags_scan live_out rest in
      (negb live :: dead,
       match flag_effect (x_opcode i) with Reader | ReadWrite => true | Writer => false | Transparent => live end)
  end.

Definition flags_dead_after (insts : list X86Inst) : list bool := (flags_scan (negb (ends_in_ret insts)) insts).1.

(** * Pattern 1: xor-zeroing *)

Definition zeroed_reg (i : X86Inst) (dead : bool) : option X86Reg :=
  match x_opcode i, x_operands i !! 0%nat, x_def i with
  | MovRI, Some (Imm 0), Some (Reg r) => if is_gp r && dead then Some r else None
  | _, _, _ => None
  end.

Definition xor_zero_inst (i : X86Inst) (dead : bool) : X86Inst :=
  match zeroed_reg i dead with
  | Some r => {| x_opcode := Xor; x_size := SzL; x_operands := [Reg r; Reg r]; x_def := x_def i |}
  | None => i
  end.

Definition xor_zero_block (insts : list X86Inst) : list X86Inst * nat :=
  let dead := flags_dead_after insts in
  (zip_with xor_zero_inst insts dead,
   length (filter (fun p => is_Some (zeroed_reg p.1 p.2)) (zip insts dead))).

Definition xor_zero (f : X86Function) : X86Function * nat := map_blocks xor_zero_block f.

(** * Pattern 2: lea folding *)

Definition try_lea_fold (mov add : X86Inst) (add_flags_dead : bool) : option X86Inst :=
  if negb add_flags_dead || bool_decide (x_opcode mov <> MovRR) || bool_decide (x_opcode add <> Add) then None
  else
    match x_def mov, x_operands mov !! 0%nat, x_def add, x_operands add !! 0%nat, x_operands add !! 1%nat with
    | Some (Reg d), Some (Reg a), Some (Reg add_def), Some (Reg add_op0), Some (Reg b) =>
        if bool_decide (add_def <> d) || bool_decide (add_op0 <> d) then None
        else if bool_decide (a = d) || bool_decide (b = d) then None
        else if negb (is_gp d) || negb (is_gp a) || negb (is_gp b) then None
        else Some {| x_opcode := Lea; x_size := x_size add; x_operands := [Mem (Some a) (Some b) 1 0]; x_def := Some (Reg d) |}
    | _, _, _, _, _ => None
    end.

(** [dead] belongs to the instructions that are left. *)
Fixpoint lea_pairs (insts : list X86Inst) (dead : list bool) : list X86Inst * nat :=
  match insts with
  | [] => ([], 0%nat)
  | i :: tl =>
      let keep := let '(out, n) := lea_pairs tl (drop 1 dead) in (i :: out, n) in
      match tl with
      | j :: rest =>
          match try_lea_fold i j (default false (dead !! 1%nat)) with
          | Some lea => let '(out, n) := lea_pairs rest (drop 2 dead) in (lea :: out, S n)
          | None => keep
          end
      | [] => keep
      end
  end.

Definition lea_fold (f : X86Function) : X86Function * nat :=
  map_blocks (fun insts => lea_pairs insts (flags_dead_after insts)) f.

(** * Pattern 3: store-to-load forwarding *)

(** The displacement of a stack slot operand. *)
Definition rbp_slot_disp (op : X86Operand) : option Z :=
  match op with Mem (Some Rbp) None _ disp => Some disp | _ => None end.

Definition clobbered_regs (i : X86Inst) : list X86Reg :=
  match x_def i with Some (Reg r) => [r] | _ => [] end ++
  match x_opcode i with Idiv => [Rax; Rdx] | Cltd | Cqto => [Rdx] | _ => [] end.

(** Slots with the register that holds the stored value and the stored size. *)
Notation available := (gmap Z (X86Reg * OpSize)) (only parsing).

(** The register a load can be replaced by. *)
Definition forwarded (avail : available) (i : X86Inst) : option X86Reg :=
  match x_opcode i, x_def i, x_operands i !! 0%nat with
  | MovRM, Some (Reg rd), Some op =>
      match rbp_slot_disp op with
      | Some disp =>
          match avail !! disp with
          | Some (rs, sz) => if bool_decide (sz = x_size i) && is_gp rd then Some rs else None
          | None => None
          end
      | None => None
      end
  | _, _, _ => None
  end.

Definition forward_load (avail : available) (i : X86Inst) : X86Inst :=
  match forwarded avail i with
  | Some rs => {| x_opcode := MovRR; x_size := x_size i; x_operands := [Reg rs]; x_def := x_def i |}
  | None => i
  end.

(** What a write to an operand leaves. *)
Definition drop_slot (avail : available) (op : X86Operand) : available :=
  match rbp_slot_disp op with Some disp => delete disp avail | None => ∅ end.

Definition drop_held (avail : available) (r : X86Reg) : available :=
  filter (fun p => p.2.1 <> r) avail.

Definition memory_writes (avail : available) (i : X86Inst) : available :=
  match x_opcode i, x_operands i !! 0%nat, x_operands i !! 1%nat with
  | MovMR, Some (Reg rs), Some mem =>
      match rbp_slot_disp mem with
      | Some disp => <[disp := (rs, x_size i)]> avail
      | None => ∅
      end
  | _, _, _ =>
      let avail := match x_def i with Some (Mem b x s d) => drop_slot avail (Mem b x s d) | _ => avail end in
      match x_opcode i, x_operands i !! 1%nat with
      | MovMI, Some mem => drop_slot avail mem
      | _, _ => avail
      end
  end.

Definition after_inst (avail : available) (i : X86Inst) : available :=
  if is_call i then ∅ else memory_writes (foldl drop_held avail (clobbered_regs i)) i.

Fixpoint forward_insts (avail : available) (insts : list X86Inst) : list X86Inst * nat :=
  match insts with
  | [] => ([], 0%nat)
  | i :: rest =>
      let i' := forward_load avail i in
      let '(out, n) := forward_insts (after_inst avail i') rest in
      (i' :: out, ((if forwarded avail i then 1 else 0) + n)%nat)
  end.

Definition store_to_load_forward (f : X86Function) : X86Function * nat := map_blocks (forward_insts ∅) f.

Definition run_peephole_post_regalloc (f : X86Function) : X86Function * nat :=
  let '(f, n1) := store_to_load_forward f in
  let '(f, n2) := lea_fold f in
  let '(f, n3) := xor_zero f in
  (f, (n1 + n2 + n3)%nat).

(** * Before allocation *)

(** Occurrences of every register as an operand. *)
Definition use_counts (f : X86Function) : gmap VRegId nat :=
  foldl (fun m v => <[vr_id v := S (default 0%nat (m !! vr_id v))]> m) ∅
        (xf_blocks f ≫= fun b => xb_insts b ≫= fun i => omap operand_vreg (x_operands i)).

(** Instructions with their place. *)
Definition placed (f : X86Function) : list ((nat * nat) * X86Inst) :=
  mjoin (imap (fun bi b => imap (fun ii i => ((bi, ii), i)) (xb_insts b)) (xf_blocks f)).

Definition def_operand_vreg (i : X86Inst) : option X86VReg := match x_def i with Some (VReg d) => Some d | _ => None end.

Definition is_zero_load (i : X86Inst) : bool :=
  match x_opcode i, x_operands i !! 0%nat with MovRI, Some (Imm 0) => true | _, _ => false end.

Definition def_counts (f : X86Function) : gmap VRegId nat :=
  foldl (fun m v => <[vr_id v := S (default 0%nat (m !! vr_id v))]> m) ∅ (omap (fun p => def_operand_vreg p.2) (placed f)).

Definition zero_site (f : X86Function) : gmap VRegId (nat * nat) :=
  foldl (fun m p => match def_operand_vreg p.2 with
                    | Some d => if is_zero_load p.2 then <[vr_id d := p.1]> m else m
                    | None => m
                    end) ∅ (placed f).

Definition is_zero (f : X86Function) (v : VRegId) : bool :=
  bool_decide (def_counts f !! v = Some 1%nat) && bool_decide (is_Some (zero_site f !! v)).

(** The compared register and the zero, when an instruction can become a test. *)
Definition zero_cmp (zero : VRegId -> bool) (i : X86Inst) : option (X86VReg * X86VReg) :=
  match x_opcode i, x_operands i !! 0%nat, x_operands i !! 1%nat with
  | Cmp, Some (VReg lhs), Some (VReg rhs) => if zero (vr_id rhs) then Some (lhs, rhs) else None
  | _, _, _ => None
  end.

Definition test_inst (zero : VRegId -> bool) (i : X86Inst) : X86Inst :=
  match zero_cmp zero i with
  | Some (lhs, _) => {| x_opcode := Test_; x_size := x_size i; x_operands := [VReg lhs; VReg lhs]; x_def := x_def i |}
  | None => i
  end.

Definition rewritten_uses (f : X86Function) : gmap VRegId nat :=
  foldl (fun m v => <[v := S (default 0%nat (m !! v))]> m) ∅
        (xf_blocks f ≫= fun b => omap (fun i => vr_id ∘ snd <$> zero_cmp (is_zero f) i) (xb_insts b)).

Definition site_le (a b : nat * nat) : bool := (a.1 <? b.1)%nat || ((a.1 =? b.1)%nat && (a.2 <=? b.2)%nat).

(** The zero constants with no use left, in order of place; [entries] lists the map. *)
Definition dead_sites (entries : gmap VRegId (nat * nat) -> list (VRegId * (nat * nat))) (f : X86Function) : list (nat * nat) :=
  sort_by site_le
    ((filter (fun p => rewritten_uses f !! p.1 = use_counts f !! p.1 /\ is_Some (rewritten_uses f !! p.1)) (entries (zero_site f))).*2).

Definition remove_site (f : X86Function) (site : nat * nat) : option X86Function :=
  b ← xf_blocks f !! site.1;
  _ ← xb_insts b !! site.2;
  Some (with_blocks f (<[site.1 := {| xb_id := xb_id b; xb_insts := delete site.2 (xb_insts b) |}]> (xf_blocks f))).

(** [None] is an index out of range. *)
Definition cmp_zero_to_test (entries : gmap VRegId (nat * nat) -> list (VRegId * (nat * nat))) (f : X86Function) : option (X86Function * nat) :=
  let f1 := with_blocks f ((fun b => {| xb_id := xb_id b; xb_insts := test_inst (is_zero f) <$> xb_insts b |}) <$> xf_blocks f) in
  let changed := length (xf_blocks f ≫= fun b => omap (zero_cmp (is_zero f)) (xb_insts b)) in
  f2 ← foldl (fun g site => g ← g; remove_site g site) (Some f1) (reverse (dead_sites entries f));
  Some (f2, changed).

Definition self_move (i : X86Inst) : bool :=
  match x_opcode i, x_def i, x_operands i !! 0%nat with
  | MovRR, Some (VReg d), Some (VReg s) => bool_decide (vr_id d = vr_id s)
  | MovRR, Some (Reg d), Some (Reg s) => bool_decide (d = s)
  | _, _, _ => false
  end.

Definition drop_self_moves (f : X86Function) : X86Function * nat :=
  map_blocks (fun insts => let out := filter (fun i => self_move i = false) insts in (out, (length insts - length out)%nat)) f.

Definition run_peephole (entries : gmap VRegId (nat * nat) -> list (VRegId * (nat * nat))) (f : X86Function) : option (X86Function * nat) :=
  '(f, n1) ← cmp_zero_to_test entries f;
  let '(f, n2) := drop_self_moves f in
  Some (f, (n1 + n2)%nat).
