(* ===== verification/X86PeepPost.v ===== *)
(** Correctness of the patterns that change where flags are written
    (src/src/codegen/x86/peephole.rs: [xor_zero], [lea_fold]).

    The flags scan of the code treats shifts, bit scans and [imul] as full writers and the
    scalar compares as transparent; what the proofs need is weaker: values never depend on
    flags except in the readers, and a reader follows, in its block, an instruction that
    defines them. *)

From S2P Require Import Prelude.
From stdpp Require Import list.
From S2P Require Import X86Mir X86Sem X86Peephole.

(** * Flags *)

Definition reads_flags (op : X86Opcode) : bool :=
  match flag_effect op with Reader | ReadWrite => true | _ => false end.

(** Opcodes whose flags depend on the operands alone. *)
Definition defines_flags (op : X86Opcode) : bool :=
  match op with Add | Sub | And | Or | Xor | Neg | Cmp | Test_ | Ucomiss | Ucomisd => true | _ => false end.

Definition with_flags {val flg memory} (fl : flg) (w : world val flg memory) : world val flg memory :=
  {| w_regs := w_regs w; w_flags := fl; w_mem := w_mem w |}.

(** Whether the flags an instruction leaves may be read. *)
Definition next_valid (valid : bool) (i : X86Inst) : bool :=
  if defines_flags (x_opcode i) then true
  else match flag_effect (x_opcode i) with
       | ReadWrite => true
       | Writer => false
       | Reader | Transparent => if is_call i then false else valid
       end.

(** In a block, flags are read only after an instruction that defines them. *)
Fixpoint flags_local (valid : bool) (insts : list X86Inst) : bool :=
  match insts with
  | [] => true
  | i :: rest => implb (reads_flags (x_opcode i)) valid && flags_local (next_valid valid i) rest
  end.

Class FlagLaws (val flg memory : Type) `{!Machine val flg memory} : Prop := {
  flags_unread op size args w fl :
    reads_flags op = false ->
    exists fl', sem op size args (with_flags fl w) = ((sem op size args w).1, with_flags fl' (sem op size args w).2);
  flags_defined op size args w fl :
    defines_flags op = true -> w_flags (sem op size args (with_flags fl w)).2 = w_flags (sem op size args w).2 }.

(** What the two patterns rely on: a constant load and a copy touch nothing else, an
    addition touches the flags and depends on its arguments only; [xor] of a register with
    itself is the zero of every size; [lea] of two registers is the copy and the addition
    of its size. *)
Class FoldLaws (val flg memory : Type) `{!Machine val flg memory} : Prop := {
  const_pure size args w : (sem MovRI size (Raw (Imm 0) :: args) w).2 = w;
  xor_self size args x w : exists fl, sem Xor SzL [Val x; Val x] w = ((sem MovRI size (Raw (Imm 0) :: args) w).1, with_flags fl w);
  mov_pure size a w : (sem MovRR size [a] w).2 = w;
  add_local size x y w w' : exists fl, sem Add size [Val x; Val y] w' = ((sem Add size [Val x; Val y] w).1, with_flags fl w');
  lea_adds size a b w :
    sem Lea size [Raw (Mem (Some a) (Some b) 1 0)] w =
    ((sem Add size [Val (sem MovRR size [Val (reg_val w a)] w).1; Val (reg_val w b)] w).1, w) }.

Section post.
Context {val flg memory : Type} `{!Machine val flg memory, !FlagLaws val flg memory, !FoldLaws val flg memory}.
Local Abbreviation mstate := (mstate val flg memory).

(** States that differ in the flags at most, and not even there when [same]. *)
Record near (same : bool) (st st' : mstate) : Prop := {
nr_vregs : ms_vregs st' = ms_vregs st;
nr_regs : w_regs (ms_world st') = w_regs (ms_world st);
nr_mem : w_mem (ms_world st') = w_mem (ms_world st);
nr_flags : same = true -> w_flags (ms_world st') = w_flags (ms_world st) }.

Lemma near_same st st' : near true st st' -> st' = st.
Proof.
destruct st as [v [r fl m]], st' as [v' [r' fl' m']]. intros [H1 H2 H3 H4]. simpl in *. rewrite (H4 eq_refl). by subst.
Qed.

Lemma near_weaken c c' st st' : near c st st' -> (c' = true -> c = true) -> near c' st st'.
Proof. intros [H1 H2 H3 H4] Hc. split; try done. intros E. by apply H4, Hc. Qed.

Lemma near_refl c st : near c st st.
Proof. by split. Qed.

Lemma near_world c st st' : near c st st' -> ms_world st' = with_flags (w_flags (ms_world st')) (ms_world st).
Proof. intros [_ H2 H3 _]. destruct st' as [v' [r' fl' m']]. unfold with_flags. simpl in *. by rewrite H2, H3. Qed.

Lemma near_args c st st' i : near c st st' -> args_of st' i = args_of st i.
Proof.
intros [H1 H2 _ _]. assert (Ha : forall op, arg_of st' op = arg_of st op).
{ intros []; simpl; try done; unfold vreg_val, reg_val; by rewrite ?H1, ?H2. }
unfold args_of. f_equal; [apply list_fmap_ext; intros k op _; apply Ha|].
unfold destination, vreg_val. by rewrite H1.
Qed.

Lemma near_write c i x st st' : near c st st' -> near c (write_def i x st) (write_def i x st').
Proof.
intros [H1 H2 H3 H4]. unfold write_def. destruct (fp_store_addr_vreg i), (x_def i) as [[]|]; split; simpl; try done; by rewrite ?H1, ?H2.
Qed.

(** The same instruction in states that agree on the flags when they are valid and live. *)
Lemma near_exec valid live live' i st st' :
near (valid && live) st st' -> implb (reads_flags (x_opcode i)) valid = true ->
(live' = true -> live = true \/ flag_effect (x_opcode i) = Writer) -> (reads_flags (x_opcode i) = true -> live = true) ->
near (next_valid valid i && live') (exec_inst i st) (exec_inst i st').
Proof.
intros Hn Hv Hl Hr. destruct (valid && live) eqn:Hc; [apply near_same in Hn as ->; apply near_refl|].
assert (Hread : reads_flags (x_opcode i) = false).
{ destruct (reads_flags (x_opcode i)); [|done]. simpl in Hv. subst valid. by rewrite Hr in Hc. }
unfold exec_inst. rewrite (near_args _ _ _ _ Hn), (near_world _ _ _ Hn).
destruct (flags_unread (x_opcode i) (x_size i) (args_of st i) (ms_world st) (w_flags (ms_world st')) Hread) as [fl' E].
pose proof (flags_defined (x_opcode i) (x_size i) (args_of st i) (ms_world st) (w_flags (ms_world st'))) as Hd. rewrite E in *.
destruct (sem (x_opcode i) (x_size i) (args_of st i) (ms_world st)) as [x w]. simpl in *. apply near_write. split; simpl; try done.
- apply Hn.
- intros Ht. apply andb_true_iff in Ht as [Ht1 Ht2]. unfold next_valid in Ht1.
destruct (defines_flags (x_opcode i)) eqn:Ed; [by apply Hd|]. unfold reads_flags in Hread.
destruct (flag_effect (x_opcode i)) eqn:Ef; try done. destruct (is_call i); [done|]. subst valid.
destruct (Hl Ht2) as [->|]; done.
Qed.

(** What the scan says of an instruction. *)
Definition live_before (i : X86Inst) (live : bool) : bool :=
match flag_effect (x_opcode i) with Reader | ReadWrite => true | Writer => false | Transparent => live end.

Lemma scan_cons live_out i rest :
flags_scan live_out (i :: rest) = (negb (flags_scan live_out rest).2 :: (flags_scan live_out rest).1, live_before i (flags_scan live_out rest).2).
Proof. simpl. by destruct (flags_scan live_out rest). Qed.

Lemma near_step valid i live st st' :
near (valid && live_before i live) st st' -> implb (reads_flags (x_opcode i)) valid = true ->
near (next_valid valid i && live) (exec_inst i st) (exec_inst i st').
Proof.
intros Hn Hv. eapply near_exec; [done..| |]; unfold live_before, reads_flags; destruct (flag_effect (x_opcode i)); try done; auto.
Qed.

(** An instruction that may branch sees flags that agree. *)
Lemma near_flow valid i live (st st' : mstate) :
near (valid && live_before i live) st st' -> implb (reads_flags (x_opcode i)) valid = true ->
flow i (w_flags (ms_world (exec_inst i st'))) = flow i (w_flags (ms_world (exec_inst i st))).
Proof.
intros Hn Hv. unfold live_before, reads_flags in *. unfold flow. destruct (x_opcode i) eqn:Eo; try done. simpl in *. subst valid.
apply near_same in Hn as ->. done.
Qed.

(** Runs that end in the same way, in states that differ in the flags at most. *)
Definition near_runs (r r' : mstate * option exit) : Prop := r'.2 = r.2 /\ near false r.1 r'.1.

Lemma near_cons valid i rest out live st st' :
near (valid && live_before i live) st st' -> implb (reads_flags (x_opcode i)) valid = true ->
(near (next_valid valid i && live) (exec_inst i st) (exec_inst i st') ->
near_runs (run_insts rest (exec_inst i st)) (run_insts out (exec_inst i st'))) ->
near_runs (run_insts (i :: rest) st) (run_insts (i :: out) st').
Proof.
intros Hn Hv Hrest. pose proof (near_step valid i live st st' Hn Hv) as Hs. cbn [run_insts].
rewrite (near_flow valid i live st st' Hn Hv). destruct (flow i _); [|by apply Hrest].
split; [done|]. by eapply near_weaken.
Qed.

(** ** Zeroing *)

Lemma zeroed_reg_Some i dead r :
zeroed_reg i dead = Some r ->
exists rest, x_opcode i = MovRI /\ x_operands i = Imm 0 :: rest /\ x_def i = Some (Reg r) /\ dead = true.
Proof.
unfold zeroed_reg. destruct (x_opcode i); try done. destruct (x_operands i) as [|[| |z| | | | | |] rest]; try done.
destruct z; try done. destruct (x_def i) as [[| | | | | | | |]|]; try done. simpl. destruct (is_gp _), dead; try done. intros [= ->]. eauto.
Qed.

Lemma xor_zero_exec i dead r st st' :
zeroed_reg i dead = Some r -> near false st st' -> near false (exec_inst i st) (exec_inst (xor_zero_inst i dead) st').
Proof.
intros Hz Hn. unfold xor_zero_inst. rewrite Hz. destruct (zeroed_reg_Some _ _ _ Hz) as (rest & Eo & Eops & Ed & _).
destruct i as [op size ops def]. simpl in *. subst op ops def.
unfold exec_inst, args_of, destination, write_def. cbn [x_opcode x_size x_operands x_def fp_store_addr_vreg fmap list_fmap app arg_of].
pose proof (near_world _ _ _ Hn) as Ew. set (args := (arg_of st <$> rest) ++ []).
change (list_fmap X86Operand (arg val) (arg_of st) rest ++ []) with args.
destruct (xor_self size args (reg_val (ms_world st') r) (ms_world st')) as [fl E]. rewrite E.
pose proof (const_pure size args (ms_world st)) as Ep.
destruct (xor_self size args (reg_val (ms_world st) r) (ms_world st)) as [fl0 E0].
assert (Hv : (sem MovRI size (Raw (Imm 0) :: args) (ms_world st')).1 = (sem MovRI size (Raw (Imm 0) :: args) (ms_world st)).1).
{ rewrite Ew. destruct (flags_unread MovRI size (Raw (Imm 0) :: args) (ms_world st) (w_flags (ms_world st')) eq_refl) as [fl' E']. by rewrite E'. }
rewrite Hv. destruct (sem MovRI size (Raw (Imm 0) :: args) (ms_world st)) as [x w]. simpl in *. subst w.
destruct Hn as [H1 H2 H3 _]. split; simpl; try done; by rewrite ?H2.
Qed.

Lemma xor_zero_insts live_out insts valid st st' :
flags_local valid insts = true -> near (valid && (flags_scan live_out insts).2) st st' ->
near_runs (run_insts insts st) (run_insts (zip_with xor_zero_inst insts (flags_scan live_out insts).1) st').
Proof.
revert valid st st'. induction insts as [|i rest IH]; intros valid st st' Hl Hn; [split; [done|]; by eapply near_weaken|].
rewrite scan_cons in *. cbn [fst snd zip_with flags_local] in *. apply andb_true_iff in Hl as [Hv Hl].
set (live := (flags_scan live_out rest).2) in *. destruct (zeroed_reg i (negb live)) as [r|] eqn:Ez.
- assert (Hn0 : near false st st') by (by eapply near_weaken). pose proof (xor_zero_exec i (negb live) r st st' Ez Hn0) as Hx.
destruct (zeroed_reg_Some _ _ _ Ez) as (ops & Eo & _ & _ & Hd). apply negb_true_iff in Hd.
assert (Hf : forall fl : flg, flow i fl = None) by (intros fl; unfold flow; by rewrite Eo).
assert (Hf' : forall fl : flg, flow (xor_zero_inst i (negb live)) fl = None) by (intros fl; unfold xor_zero_inst; by rewrite Ez).
cbn [run_insts]. rewrite Hf, Hf'. apply (IH (next_valid valid i)); [done|]. eapply near_weaken; [exact Hx|]. fold live. rewrite Hd, andb_false_r. done.
- assert (Ei : xor_zero_inst i (negb live) = i) by (unfold xor_zero_inst; by rewrite Ez). rewrite Ei.
apply (near_cons valid i rest _ live); [done..|]. intros Hs. by apply (IH (next_valid valid i)).
Qed.

(** ** Folding *)

Lemma try_lea_fold_Some mov add dead lea :
try_lea_fold mov add dead = Some lea ->
exists d a b ms as_ ra rs, dead = true /\ a <> d /\ b <> d /\
mov = {| x_opcode := MovRR; x_size := ms; x_operands := Reg a :: ra; x_def := Some (Reg d) |} /\
add = {| x_opcode := Add; x_size := as_; x_operands := Reg d :: Reg b :: rs; x_def := Some (Reg d) |} /\
lea = {| x_opcode := Lea; x_size := as_; x_operands := [Mem (Some a) (Some b) 1 0]; x_def := Some (Reg d) |}.
Proof.
unfold try_lea_fold. destruct mov as [mo ms mops md], add as [ao as_ aops ad]. simpl.
destruct dead; [|done]. case_bool_decide as Hm; [done|]. case_bool_decide as Ha; [done|]. simpl.
destruct md as [[|d| | | | | | |]|]; try done. destruct mops as [|[|a| | | | | | |] ra]; try done.
destruct ad as [[|d'| | | | | | |]|]; try done. destruct aops as [|[|o| | | | | | |] [|[|b| | | | | | |] rs]]; try done. simpl.
case_bool_decide as H1; [done|]. case_bool_decide as H2; [done|]. simpl. case_bool_decide as H3; [done|]. case_bool_decide as H4; [done|]. simpl.
destruct (_ || _); [done|]. intros [= <-].
assert (mo = MovRR) as -> by (destruct (decide (mo = MovRR)); done). assert (ao = Add) as -> by (destruct (decide (ao = Add)); done).
assert (d' = d) as -> by (destruct (decide (d' = d)); done). assert (o = d) as -> by (destruct (decide (o = d)); done).
exists d, a, b, ms, as_, ra, rs. done.
Qed.

(** What a pair that folds looks like: a copy and an addition of one size, with the
operands the opcodes have. *)
Definition pair_ready (mov add : X86Inst) : Prop :=
x_size mov = x_size add /\ length (x_operands mov) = 1%nat /\ length (x_operands add) = 2%nat.

Lemma lea_exec mov add lea st st' :
try_lea_fold mov add true = Some lea -> pair_ready mov add -> near false st st' ->
near false (exec_inst add (exec_inst mov st)) (exec_inst lea st').
Proof.
intros Hf (Hs & Hl1 & Hl2) Hn. destruct (try_lea_fold_Some _ _ _ _ Hf) as (d & a & b & ms & sz & ra & rs & _ & Ha & Hb & -> & -> & ->).
simpl in Hs, Hl1, Hl2. subst ms. destruct ra; [|done]. destruct rs; [|done]. clear Hf Hl1 Hl2.
destruct st as [vr w], st' as [vr' w']. destruct Hn as [H1 H2 H3 _]. simpl in H1, H2, H3. subst vr'.
assert (Hr : forall r, reg_val w' r = reg_val w r) by (intros r; unfold reg_val; by rewrite H2).
assert (Hmov : exec_inst {| x_opcode := MovRR; x_size := sz; x_operands := [Reg a]; x_def := Some (Reg d) |} {| ms_vregs := vr; ms_world := w |} =
{| ms_vregs := vr; ms_world := set_reg d (sem MovRR sz [Val (reg_val w a)] w).1 w |}).
{ unfold exec_inst, args_of, destination, write_def. cbn [x_opcode x_size x_operands x_def fp_store_addr_vreg fmap list_fmap app arg_of ms_world ms_vregs].
pose proof (mov_pure sz (Val (reg_val w a)) w) as Hp. destruct (sem MovRR sz [Val (reg_val w a)] w) as [x w1]. simpl in *. by subst w1. }
rewrite Hmov. set (x := (sem MovRR sz [Val (reg_val w a)] w).1).
assert (Hd : reg_val (set_reg d x w) d = x) by (unfold reg_val, set_reg; simpl; by rewrite lookup_insert_eq).
assert (Hbv : reg_val (set_reg d x w) b = reg_val w b) by (unfold reg_val, set_reg; simpl; by rewrite lookup_insert_ne).
unfold exec_inst, args_of, destination, write_def. cbn [x_opcode x_size x_operands x_def fp_store_addr_vreg fmap list_fmap app arg_of ms_world ms_vregs].
rewrite Hd, Hbv. rewrite (lea_adds sz a b w'), !Hr.
assert (Ew : w' = with_flags (w_flags w') w) by (destruct w'; unfold with_flags; simpl in *; by rewrite H2, H3).
assert (Hx : (sem MovRR sz [Val (reg_val w a)] w').1 = x).
{ rewrite Ew. destruct (flags_unread MovRR sz [Val (reg_val w a)] w (w_flags w') eq_refl) as [fl' E']. by rewrite E'. }
rewrite Hx. destruct (add_local sz x (reg_val w b) w' (set_reg d x w)) as [fl E]. rewrite E.
split; simpl; try done. by rewrite H2, insert_insert_eq.
Qed.

Fixpoint pairs_ready (insts : list X86Inst) : Prop :=
match insts with
| mov :: tl => match tl with add :: _ => (forall lea, try_lea_fold mov add true = Some lea -> pair_ready mov add) | [] => True end /\ pairs_ready tl
| [] => True
end.

Lemma lea_insts live_out n insts valid st st' :
(length insts <= n)%nat -> flags_local valid insts = true -> pairs_ready insts -> near (valid && (flags_scan live_out insts).2) st st' ->
near_runs (run_insts insts st) (run_insts (lea_pairs insts (flags_scan live_out insts).1).1 st').
Proof.
revert insts valid st st'. induction n as [|n IH]; intros insts valid st st' Hlen Hl Hp Hn.
{ destruct insts; [|simpl in Hlen; lia]. split; [done|]. by eapply near_weaken. }
destruct insts as [|i tl]; [split; [done|]; by eapply near_weaken|]. simpl in Hlen. destruct Hp as [Hpair Hp].
rewrite scan_cons in *. cbn [fst snd flags_local] in *. apply andb_true_iff in Hl as [Hv Hl].
set (live := (flags_scan live_out tl).2) in *. set (dead := (flags_scan live_out tl).1) in *.
assert (Hkeep : near_runs (run_insts (i :: tl) st) (run_insts (let '(out, k) := lea_pairs tl dead in (i :: out, k)).1 st')).
{ pose proof (IH tl (next_valid valid i)) as IHt. fold live dead in IHt. destruct (lea_pairs tl dead) as [out k]. cbn [fst] in *.
apply (near_cons valid i tl out live); [done..|]. intros Hs. apply IHt; [lia|done..]. }
cbn [lea_pairs]. change (drop 1 (negb live :: dead)) with (drop 0 dead). rewrite drop_0.
destruct tl as [|j rest]; [exact Hkeep|].
destruct (try_lea_fold i j (default false ((negb live :: dead) !! 1%nat))) as [lea|] eqn:Ef; [|exact Hkeep]. clear Hkeep.
unfold dead, live in *. clear dead live. rewrite scan_cons in *. cbn [fst snd flags_local] in *. cbn [lookup list_lookup default] in Ef.
destruct (try_lea_fold_Some _ _ _ _ Ef) as (d & a & b & ms & sz & ra & rs & Hdead & _ & _ & Ei & Ej & El).
simpl in Hdead. rewrite Hdead in Ef. apply negb_true_iff in Hdead.
pose proof (lea_exec i j lea st st' Ef (Hpair lea Ef) ltac:(by eapply near_weaken)) as Hx.
assert (Hfl : forall fl : flg, flow i fl = None /\ flow j fl = None /\ flow lea fl = None) by (intros fl; by rewrite Ei, Ej, El).
apply andb_true_iff in Hl as [_ Hl]. simpl in Hlen.
pose proof (IH rest (next_valid (next_valid valid i) j)) as IHr.
replace (drop 2 (negb (live_before j (flags_scan live_out rest).2) :: negb (flags_scan live_out rest).2 :: (flags_scan live_out rest).1))
with (flags_scan live_out rest).1 by (simpl; by rewrite drop_0).
destruct (lea_pairs rest (flags_scan live_out rest).1) as [out k]. cbn [fst run_insts] in *.
rewrite (proj1 (Hfl _)), (proj1 (proj2 (Hfl _))), (proj2 (proj2 (Hfl _))). apply IHr; [lia|done| |].
- apply Hp.
- rewrite Hdead, andb_false_r. done.
Qed.

End post.
