(* ===== verification/X86PeepSlots.v ===== *)
(** Correctness of store-to-load forwarding (src/src/codegen/x86/peephole.rs,
    [store_to_load_forward]): a load of a slot becomes a move from the register that was
    stored there. *)

From S2P Require Import Prelude.
From stdpp Require Import list.
From S2P Require Import X86Mir X86Sem X86Peephole X86PeepPost.

Definition access_bytes (sz : OpSize) : Z := match sz with SzB => 1 | SzW => 2 | SzL => 4 | SzQ => 8 end.

(** Two ranges of bytes that do not meet. *)
Definition apart (d n d' n' : Z) : Prop := (d + n <= d' \/ d' + n' <= d)%Z.

(** The operand an instruction writes in memory, and how many bytes. *)
Definition memory_target (i : X86Inst) : option X86Operand :=
  match x_opcode i with
  | MovMR | MovMI => x_operands i !! 1%nat
  | _ => match x_def i with Some (Mem b x s d) => Some (Mem b x s d) | _ => None end
  end.

Definition write_bytes (i : X86Inst) : Z :=
  match x_opcode i with Movups | Movaps => 16 | _ => access_bytes (x_size i) end.

(** Registers an opcode changes without naming them. *)
Definition implicit_defs (op : X86Opcode) : list X86Reg :=
  match op with Idiv => [Rax; Rdx] | Cltd | Cqto => [Rdx] | Push | Pop => [Rsp] | _ => [] end.

Notation slot s d := (Mem (Some Rbp) None s d).

(** What the pattern expects of an instruction after allocation. *)
Record slot_shape (i : X86Inst) : Prop := {
  ss_store : x_opcode i = MovMR -> exists r mem, x_operands i = [Reg r; mem] /\ x_def i = None;
  ss_const : x_opcode i = MovMI -> x_def i = None;
  ss_load : x_opcode i = MovRM -> length (x_operands i) = 1%nat;
  ss_stack : x_opcode i <> Push /\ x_opcode i <> Pop;
  ss_frame : x_def i <> Some (Reg Rbp);
  ss_phys : fp_store_addr_vreg i = None }.

(** Memory, as far as frame slots go: a load sees the last store of its size; nothing
    but a store to an overlapping place, or a call, changes what a load sees; registers
    change where an instruction says so. *)
Class SlotLaws (val flg memory : Type) `{!Machine val flg memory} : Prop := {
  load_pure size s d w : (sem MovRM size [Raw (slot s d)] w).2 = w;
  copy_value size a w w' : (sem MovRR size [a] w').1 = (sem MovRR size [a] w).1;
  store_hits size x s s' d w :
    (sem MovRM size [Raw (slot s' d)] (sem MovMR size [Val x; Raw (slot s d)] w).2).1 = (sem MovRR size [Val x] w).1;
  regs_kept i args w r :
    is_call i = false -> r ∉ implicit_defs (x_opcode i) -> reg_val (sem (x_opcode i) (x_size i) args w).2 r = reg_val w r;
  load_kept i (st : mstate val flg memory) size s d :
    slot_shape i -> is_call i = false ->
    (forall op, memory_target i = Some op -> exists s' d', op = slot s' d' /\ apart d (access_bytes size) d' (write_bytes i)) ->
    (sem MovRM size [Raw (slot s d)] (sem (x_opcode i) (x_size i) (args_of st i) (ms_world st)).2).1 =
    (sem MovRM size [Raw (slot s d)] (ms_world st)).1;
  load_regs size s d r x w : r <> Rbp -> (sem MovRM size [Raw (slot s d)] (set_reg r x w)).1 = (sem MovRM size [Raw (slot s d)] w).1 }.

(** A store of the block tracks [d] at [size]. *)
Definition tracked (insts : list X86Inst) (d : Z) (size : OpSize) : Prop :=
  exists i op, i ∈ insts /\ x_opcode i = MovMR /\ x_operands i !! 1%nat = Some op /\ rbp_slot_disp op = Some d /\ x_size i = size.

(** Accesses to different displacements do not overlap, as in a frame that was laid out. *)
Definition slots_apart (insts : list X86Inst) : Prop :=
  forall d size i op d', tracked insts d size -> i ∈ insts -> memory_target i = Some op -> rbp_slot_disp op = Some d' -> d <> d' ->
    apart d (access_bytes size) d' (write_bytes i).

Lemma rbp_slot_disp_Some op d : rbp_slot_disp op = Some d -> exists s, op = slot s d.
Proof. unfold rbp_slot_disp. destruct op as [| | | |[[]|] [|] s d'| | | |]; try done. intros [= <-]. eauto. Qed.

Section slots.
Context {val flg memory : Type} `{!Machine val flg memory, !FoldLaws val flg memory, !SlotLaws val flg memory}.
Local Abbreviation mstate := (mstate val flg memory).

Definition loaded (w : world val flg memory) (size : OpSize) (s : N) (d : Z) : val := (sem MovRM size [Raw (slot s d)] w).1.
Definition moved (w : world val flg memory) (size : OpSize) (r : X86Reg) : val := (sem MovRR size [Val (reg_val w r)] w).1.

(** What is recorded of the slots holds. *)
Definition avail_ok (insts : list X86Inst) (avail : available) (w : world val flg memory) : Prop :=
forall d r size, avail !! d = Some (r, size) ->
tracked insts d size /\ forall s, loaded w size s d = moved w size r.

Lemma forwarded_Some avail i rs :
forwarded avail i = Some rs ->
x_opcode i = MovRM /\ exists rd s d ops, x_def i = Some (Reg rd) /\ x_operands i = slot s d :: ops /\ avail !! d = Some (rs, x_size i).
Proof.
unfold forwarded. destruct (x_opcode i); try done. destruct (x_def i) as [[|rd| | | | | | |]|]; try done.
destruct (x_operands i) as [|op ops]; [done|]. simpl. destruct (rbp_slot_disp op) as [d|] eqn:E; [|done].
apply rbp_slot_disp_Some in E as [s ->]. destruct (avail !! d) as [[r sz]|] eqn:Ea; [|done]. case_bool_decide; [|done]. simpl.
destruct (is_gp rd); [|done]. intros [= <-]. subst sz. split; [done|]. by exists rd, s, d, ops.
Qed.

(** The forwarded instruction does what the load does. *)
Lemma forward_load_exec insts avail i st :
slot_shape i -> avail_ok insts avail (ms_world st) -> exec_inst (forward_load avail i) st = exec_inst i st.
Proof.
intros Hs Hok. unfold forward_load. destruct (forwarded avail i) as [rs|] eqn:E; [|done].
destruct (forwarded_Some _ _ _ E) as (Eo & rd & s & d & ops & Ed & Eops & Ea). destruct (Hok _ _ _ Ea) as (_ & Hv).
pose proof (ss_load i Hs Eo) as Hl. destruct i as [op size ops0 def]. simpl in *. subst op ops0 def. destruct ops; [|done].
unfold exec_inst, args_of, destination, write_def. cbn [x_opcode x_size x_operands x_def fp_store_addr_vreg fmap list_fmap app arg_of].
specialize (Hv s). unfold loaded, moved in Hv. pose proof (load_pure size s d (ms_world st)) as Hp.
pose proof (mov_pure size (Val (reg_val (ms_world st) rs)) (ms_world st)) as Hm.
destruct (sem MovRM _ _ _) as [x w1], (sem MovRR _ _ _) as [y w2]. simpl in *. by subst.
Qed.

(** What an instruction leaves in the registers that are not clobbered. *)
Lemma exec_reg i st r :
slot_shape i -> is_call i = false -> r ∉ clobbered_regs i -> reg_val (ms_world (exec_inst i st)) r = reg_val (ms_world st) r.
Proof.
intros Hs Hc Hr. unfold exec_inst. pose proof (regs_kept i (args_of st i) (ms_world st) r Hc) as Hk.
destruct (sem _ _ _ _) as [x w]. simpl in Hk.
assert (Hi : r ∉ implicit_defs (x_opcode i)).
{ intros Hin. apply Hr. unfold clobbered_regs. apply elem_of_app. right. destruct (ss_stack i Hs). by destruct (x_opcode i). }
rewrite <- (Hk Hi). unfold write_def. rewrite (ss_phys i Hs). destruct (x_def i) as [[|r'| | | | | | |]|] eqn:Ed; try done. simpl.
unfold reg_val, set_reg. simpl. rewrite lookup_insert_ne; [done|]. intros ->. apply Hr. unfold clobbered_regs. rewrite Ed. left.
Qed.

Lemma exec_loaded i st size s d :
slot_shape i -> is_call i = false ->
(forall op, memory_target i = Some op -> exists s' d', op = slot s' d' /\ apart d (access_bytes size) d' (write_bytes i)) ->
loaded (ms_world (exec_inst i st)) size s d = loaded (ms_world st) size s d.
Proof.
intros Hs Hc Ht. unfold exec_inst.
pose proof (load_kept i st size s d Hs Hc Ht) as Hk. destruct (sem (x_opcode i) _ _ _) as [x w]. simpl in Hk.
unfold loaded. rewrite <- Hk. unfold write_def. rewrite (ss_phys i Hs).
destruct (x_def i) as [[|r'| | | | | | |]|] eqn:Ed; try done. simpl. apply load_regs. intros ->. by apply (ss_frame i Hs).
Qed.

Lemma drop_held_lookup avail rs d r (size : OpSize) :
foldl drop_held avail rs !! d = Some (r, size) -> avail !! d = Some (r, size) /\ r ∉ rs.
Proof.
revert avail. induction rs as [|r' rs IH]; intros avail; simpl; [intros H; split; [done|apply not_elem_of_nil]|].
intros [H Hr]%IH. apply map_lookup_filter_Some in H as [H Hne]. simpl in Hne. split; [done|]. by apply not_elem_of_cons.
Qed.

(** An entry survives an instruction that neither clobbers its register nor writes its slot. *)
Lemma entry_kept insts avail i st d r size :
slot_shape i -> is_call i = false -> slots_apart insts -> (memory_target i = None \/ i ∈ insts) ->
avail_ok insts avail (ms_world st) -> avail !! d = Some (r, size) -> r ∉ clobbered_regs i ->
(forall op, memory_target i = Some op -> exists d', rbp_slot_disp op = Some d' /\ d <> d') ->
tracked insts d size /\ forall s, loaded (ms_world (exec_inst i st)) size s d = moved (ms_world (exec_inst i st)) size r.
Proof.
intros Hs Hc Hap Hin Hok Ha Hr Ht. destruct (Hok _ _ _ Ha) as [Htr Hv]. split; [done|]. intros s.
rewrite (exec_loaded i st size s d Hs Hc).
- rewrite Hv. unfold moved. rewrite (exec_reg i st r Hs Hc Hr). apply copy_value.
- intros op Hop. destruct (Ht op Hop) as (d' & Hd' & Hne). pose proof Hd' as [s' ->]%rbp_slot_disp_Some. exists s', d'. split; [done|].
destruct Hin as [Hin|Hin]; [congruence|]. by eapply Hap.
Qed.

Definition written_def (avail : available) (i : X86Inst) : available :=
match x_def i with Some (Mem b x s d) => drop_slot avail (Mem b x s d) | _ => avail end.

Lemma memory_writes_other avail i :
x_opcode i <> MovMR ->
memory_writes avail i =
match x_opcode i, x_operands i !! 1%nat with MovMI, Some mem => drop_slot (written_def avail i) mem | _, _ => written_def avail i end.
Proof. intros H. unfold memory_writes, written_def. by destruct (x_opcode i). Qed.

Lemma after_ok insts avail i st :
slot_shape i -> slots_apart insts -> (memory_target i = None \/ i ∈ insts) -> avail_ok insts avail (ms_world st) ->
avail_ok insts (after_inst avail i) (ms_world (exec_inst i st)).
Proof.
intros Hs Hap Hin Hok. unfold after_inst. destruct (is_call i) eqn:Hc; [intros d r size H; by rewrite lookup_empty in H|].
set (avail1 := foldl drop_held avail (clobbered_regs i)).
assert (Hkeep : forall d r size, avail1 !! d = Some (r, size) ->
(forall op, memory_target i = Some op -> exists d', rbp_slot_disp op = Some d' /\ d <> d') ->
tracked insts d size /\ forall s, loaded (ms_world (exec_inst i st)) size s d = moved (ms_world (exec_inst i st)) size r).
{ intros d r size [Ha Hr]%drop_held_lookup Ht. by apply (entry_kept insts avail). }
assert (Hdrop : forall op, memory_target i = Some op -> avail_ok insts (drop_slot avail1 op) (ms_world (exec_inst i st))).
{ intros op Hop d r size. unfold drop_slot. destruct (rbp_slot_disp op) as [d'|] eqn:Ed; [|by rewrite lookup_empty].
intros [Hne H]%lookup_delete_Some. apply Hkeep; [done|]. intros op' Hop'. rewrite Hop in Hop'. injection Hop' as <-. eauto. }
assert (Hnone : memory_target i = None -> avail_ok insts avail1 (ms_world (exec_inst i st))).
{ intros Ht d r size Ha. apply Hkeep; [done|]. intros op. by rewrite Ht. }
destruct (decide (x_opcode i = MovMR)) as [Eo|Eo].
- unfold memory_writes. destruct (ss_store i Hs Eo) as (rs & mem & Eops & Ed). rewrite Eo, Eops. simpl.
assert (Ht : memory_target i = Some mem) by (unfold memory_target; by rewrite Eo, Eops).
destruct (rbp_slot_disp mem) as [d'|] eqn:Edisp; [|intros d r size H; by rewrite lookup_empty in H].
intros d r size [[-> [= <- <-]]|[Hne Ha]]%lookup_insert_Some.
+ destruct Hin as [Hin|Hin]; [congruence|]. split; [exists i, mem; by rewrite Eops|]. intros s.
apply rbp_slot_disp_Some in Edisp as [s' ->].
assert (Hr : reg_val (ms_world (exec_inst i st)) rs = reg_val (ms_world st) rs).
{ apply exec_reg; [done..|]. unfold clobbered_regs. rewrite Ed, Eo. apply not_elem_of_nil. }
unfold moved. rewrite Hr. destruct i as [op size ops def]. simpl in *. subst op ops def. unfold loaded.
unfold exec_inst, args_of, destination, write_def. cbn [x_opcode x_size x_operands x_def fp_store_addr_vreg fmap list_fmap app arg_of].
pose proof (store_hits size (reg_val (ms_world st) rs) s' s d (ms_world st)) as Hh. destruct (sem MovMR _ _ _) as [x w]. simpl in *.
rewrite Hh. apply copy_value.
+ apply Hkeep; [done|]. intros op Hop. rewrite Ht in Hop. injection Hop as <-. eauto.
- rewrite (memory_writes_other avail1 i Eo). destruct (decide (x_opcode i = MovMI)) as [Em|Em].
+ unfold written_def. rewrite Em, (ss_const i Hs Em). assert (Ht : memory_target i = x_operands i !! 1%nat) by (unfold memory_target; by rewrite Em).
destruct (x_operands i !! 1%nat); [by apply Hdrop|by apply Hnone].
+ assert (Ht : memory_target i = match x_def i with Some (Mem b x s d) => Some (Mem b x s d) | _ => None end)
by (unfold memory_target; by destruct (x_opcode i)).
replace (match x_opcode i, x_operands i !! 1%nat with MovMI, Some mem => drop_slot (written_def avail1 i) mem | _, _ => written_def avail1 i end)
with (written_def avail1 i) by (by destruct (x_opcode i)).
unfold written_def. destruct (x_def i) as [[]|]; first [by apply Hdrop|by apply Hnone].
Qed.

(** ** Blocks *)

Lemma forward_shape avail i : slot_shape i -> slot_shape (forward_load avail i).
Proof.
intros Hs. unfold forward_load. destruct (forwarded avail i) as [rs|] eqn:E; [|done].
destruct (forwarded_Some _ _ _ E) as (_ & rd & _ & _ & _ & Ed & _ & _). split; simpl; try done. apply Hs.
Qed.

Lemma forward_target avail i : memory_target (forward_load avail i) = None \/ forward_load avail i = i.
Proof.
unfold forward_load. destruct (forwarded avail i) as [rs|] eqn:E; [left|by right].
destruct (forwarded_Some _ _ _ E) as (_ & rd & _ & _ & _ & Ed & _ & _). unfold memory_target. simpl. by rewrite Ed.
Qed.

Lemma forward_flow avail i (fl : flg) : flow (forward_load avail i) fl = flow i fl.
Proof.
unfold forward_load. destruct (forwarded avail i) as [rs|] eqn:E; [|done].
destruct (forwarded_Some _ _ _ E) as (Eo & _). unfold flow. simpl. by rewrite Eo.
Qed.

Lemma forward_insts_run insts rest avail st :
(forall i, i ∈ rest -> i ∈ insts /\ slot_shape i) -> slots_apart insts -> avail_ok insts avail (ms_world st) ->
run_insts (forward_insts avail rest).1 st = run_insts rest st.
Proof.
intros Hin Hap. revert avail st. induction rest as [|i rest IH]; intros avail st Hok; [done|].
destruct (Hin i ltac:(left)) as [Hi Hs]. pose proof (forward_load_exec insts avail i st Hs Hok) as Hx.
assert (Hnext : avail_ok insts (after_inst avail (forward_load avail i)) (ms_world (exec_inst i st))).
{ rewrite <- Hx. apply after_ok; [by apply forward_shape|done| |done]. destruct (forward_target avail i) as [H| ->]; auto. }
specialize (IH (fun j Hj => Hin j ltac:(by right)) _ _ Hnext). cbn [forward_insts].
destruct (forward_insts (after_inst avail (forward_load avail i)) rest) as [out k]. cbn [fst run_insts] in *.
rewrite Hx, forward_flow. by destruct (flow i _).
Qed.

End slots.
