(* ===== verification/X86PeepRun.v ===== *)
(** The peephole patterns that run after allocation, together
    (src/src/codegen/x86/peephole.rs, [run_peephole_post_regalloc]). *)

From S2P Require Import Prelude.
From stdpp Require Import list.
From S2P Require Import X86Mir X86Sem X86Peephole X86PeepPost X86PeepSlots.

(** * Conditions the patterns hand on *)

(** A copy or a load in front of an addition to its register has the size of the
    addition, and both have the operands of their opcode. *)
Definition add_sized (i j : X86Inst) : Prop :=
  x_opcode i ∈ [MovRR; MovRM] -> x_opcode j = Add -> x_def i = x_def j ->
  x_size i = x_size j /\ length (x_operands i) = 1%nat /\ length (x_operands j) = 2%nat.

Fixpoint adds_sized (insts : list X86Inst) : Prop :=
  match insts with
  | i :: tl => match tl with j :: _ => add_sized i j | [] => True end /\ adds_sized tl
  | [] => True
  end.

Lemma adds_sized_pairs insts : adds_sized insts -> pairs_ready insts.
Proof.
  induction insts as [|i tl IH]; [done|]. intros [H Htl]. split; [|by apply IH]. destruct tl as [|j rest]; [done|].
  intros lea Hl. destruct (try_lea_fold_Some _ _ _ _ Hl) as (d & a & b & ms & sz & ra & rs & _ & _ & _ & -> & -> & _).
  apply H; [simpl; left|done..].
Qed.

Lemma forward_load_fields avail i :
  x_size (forward_load avail i) = x_size i /\ x_def (forward_load avail i) = x_def i /\
  (forward_load avail i = i \/ x_opcode i = MovRM /\ x_opcode (forward_load avail i) = MovRR /\ length (x_operands (forward_load avail i)) = 1%nat).
Proof.
  unfold forward_load. destruct (forwarded avail i) as [rs|] eqn:E; [|auto].
  destruct (forwarded_Some avail i rs E) as (Eo & _). simpl. split; [done|]. split; [done|]. by right.
Qed.

Lemma forward_head avail i rest :
  exists avail' , (forward_insts avail (i :: rest)).1 = forward_load avail i :: (forward_insts avail' rest).1.
Proof. simpl. exists (after_inst avail (forward_load avail i)). by destruct (forward_insts _ rest). Qed.

Lemma forward_adds_sized avail insts : adds_sized insts -> adds_sized (forward_insts avail insts).1.
Proof.
  revert avail. induction insts as [|i tl IH]; intros avail; [done|]. intros [H Htl].
  destruct (forward_head avail i tl) as [avail' E]. rewrite E. split; [|by apply IH].
  destruct tl as [|j rest]; [done|]. destruct (forward_head avail' j rest) as [avail'' E']. rewrite E'.
  destruct (forward_load_fields avail i) as (Es & Ed & Hi). destruct (forward_load_fields avail' j) as (Es' & Ed' & Hj).
  intros Ho Ha Hdef. rewrite Es, Es', Ed, Ed' in *. destruct Hj as [Ej|(_ & Ej & _)]; [|congruence]. rewrite Ej in *.
  destruct Hi as [Ei|(Ei & _ & Hl)]; [rewrite Ei in *; by apply H|]. rewrite Hl.
  destruct H as (H1 & _ & H3); [rewrite Ei; right; left|done..].
Qed.

Lemma forward_flags_local avail insts valid : flags_local valid insts = true -> flags_local valid (forward_insts avail insts).1 = true.
Proof.
  revert avail valid. induction insts as [|i tl IH]; intros avail valid; [done|]. intros [Hv Hl]%andb_true_iff.
  destruct (forward_head avail i tl) as [avail' ->]. cbn [flags_local].
  destruct (forward_load_fields avail i) as (_ & _ & [->|(Eo & Eo' & _)]).
  - rewrite Hv. by apply IH.
  - unfold reads_flags, next_valid, is_call in *. rewrite Eo, Eo' in *. simpl in *. by apply IH.
Qed.

(** Flags that are dead need not be valid. *)
Lemma dead_flags_local live_out valid valid' insts :
  flags_local valid insts = true -> (flags_scan live_out insts).2 = false -> flags_local valid' insts = true.
Proof.
  revert valid valid'. induction insts as [|i tl IH]; intros valid valid'; [done|]. rewrite scan_cons. cbn [flags_local snd].
  intros [Hv Hl]%andb_true_iff. unfold live_before, reads_flags, next_valid in *.
  destruct (flag_effect (x_opcode i)) eqn:Ef; try done; simpl; intros Hlive.
  destruct (defines_flags (x_opcode i)), (is_call i); try done. by eapply IH.
Qed.

Lemma lea_flags_local live_out n insts valid :
  (length insts <= n)%nat -> flags_local valid insts = true ->
  flags_local valid (lea_pairs insts (flags_scan live_out insts).1).1 = true.
Proof.
  revert insts valid. induction n as [|n IH]; intros insts valid Hlen Hl; [destruct insts; [done|simpl in Hlen; lia]|].
  destruct insts as [|i tl]; [done|]. simpl in Hlen. rewrite scan_cons. cbn [flags_local fst] in *. apply andb_true_iff in Hl as [Hv Hl].
  set (live := (flags_scan live_out tl).2). set (dead := (flags_scan live_out tl).1).
  assert (Hkeep : flags_local valid (let '(out, k) := lea_pairs tl dead in (i :: out, k)).1 = true).
  { pose proof (IH tl (next_valid valid i) ltac:(lia) Hl) as IHt. fold dead in IHt. destruct (lea_pairs tl dead). simpl in *. by rewrite Hv. }
  cbn [lea_pairs]. change (drop 1 (negb live :: dead)) with (drop 0 dead). rewrite drop_0.
  destruct tl as [|j rest]; [exact Hkeep|].
  destruct (try_lea_fold i j (default false ((negb live :: dead) !! 1%nat))) as [lea|] eqn:Ef; [|exact Hkeep]. clear Hkeep.
  unfold dead, live in *. clear dead live. rewrite scan_cons in *. cbn [fst snd flags_local] in *.
  destruct (try_lea_fold_Some _ _ _ _ Ef) as (d & a & b & ms & sz & ra & rs & Hdead & _ & _ & -> & -> & ->).
  simpl in Hdead. apply negb_true_iff in Hdead.
  replace (drop 2 _) with (flags_scan live_out rest).1 by (simpl; by rewrite drop_0). simpl in Hl, Hlen.
  pose proof (dead_flags_local live_out true valid rest Hl Hdead) as Hr. pose proof (IH rest valid ltac:(lia) Hr) as IHr.
  destruct (lea_pairs rest (flags_scan live_out rest).1). simpl in *. done.
Qed.

(** * Functions *)

Section runs.
Context {val flg memory : Type} `{!Machine val flg memory, !FlagLaws val flg memory, !FoldLaws val flg memory, !SlotLaws val flg memory}.
Local Abbreviation mstate := (mstate val flg memory).

(** Outcomes of one kind, in states that differ in the flags at most. *)
Definition near_outcome (a b : outcome (val := val) (flg := flg) (memory := memory)) : Prop :=
match a, b with
| Left_ st, Left_ st' | Lost st, Lost st' | Running st, Running st' => near false st st'
| _, _ => False
end.

Lemma near_false_trans (a b c : mstate) : near false a b -> near false b c -> near false a c.
Proof. intros [H1 H2 H3 _] [H4 H5 H6 _]. split; try congruence. Qed.

Lemma near_outcome_trans a b c : near_outcome a b -> near_outcome b c -> near_outcome a c.
Proof. destruct a, b, c; simpl; try done; apply near_false_trans. Qed.

Lemma map_blocks_named g f b :
block_named (map_blocks g f).1 b = (fun c => {| xb_id := xb_id c; xb_insts := (g (xb_insts c)).1 |}) <$> block_named f b.
Proof. by apply find_fmap. Qed.

Lemma map_blocks_runs g f :
(forall b st st', b ∈ xf_blocks f -> near false st st' -> near_runs (run_insts (xb_insts b) st) (run_insts (g (xb_insts b)).1 st')) ->
forall fuel b st st', near false st st' -> near_outcome (run_function fuel f b st) (run_function fuel (map_blocks g f).1 b st').
Proof.
intros Hg fuel. induction fuel as [|fuel IH]; intros b st st' Hn; [done|]. cbn [run_function]. rewrite map_blocks_named.
destruct (block_named f b) as [blk|] eqn:Eb; [|done]. simpl. destruct (Hg blk st st' (block_named_in _ _ _ Eb) Hn) as [He Ha].
destruct (run_insts (xb_insts blk) st) as [s e], (run_insts (g (xb_insts blk)).1 st') as [s' e']. simpl in *. subst e'.
destruct e as [[b'|]|]; [by apply IH|done..].
Qed.

Definition blocks_satisfy (P : list X86Inst -> Prop) (f : X86Function) : Prop := forall b, b ∈ xf_blocks f -> P (xb_insts b).

Lemma map_blocks_satisfy (P Q : list X86Inst -> Prop) g f :
blocks_satisfy P f -> (forall insts, P insts -> Q (g insts).1) -> blocks_satisfy Q (map_blocks g f).1.
Proof. intros Hf HPQ b (c & -> & Hc)%list_elem_of_fmap. simpl. by apply HPQ, Hf. Qed.

(** What register allocation leaves for the patterns, of the instructions of a block. *)
Record post_ready (insts : list X86Inst) : Prop := {
pr_flags : flags_local false insts = true;
pr_sized : adds_sized insts;
pr_shape : forall i, i ∈ insts -> slot_shape i;
pr_apart : slots_apart insts }.

Lemma same_insts insts valid (s s' : mstate) :
flags_local valid insts = true -> near (valid && (flags_scan true insts).2) s s' -> near_runs (run_insts insts s) (run_insts insts s').
Proof.
revert valid s s'. induction insts as [|i tl IH]; intros valid s s' Hl Hn; [split; [done|]; by eapply near_weaken|].
rewrite scan_cons in Hn. cbn [flags_local snd] in *. apply andb_true_iff in Hl as [Hv Hl].
apply (near_cons valid i tl tl (flags_scan true tl).2); [done..|]. intros Hs. by apply (IH (next_valid valid i)).
Qed.

Lemma forward_runs f fuel b st st' :
blocks_satisfy post_ready f -> near false st st' ->
near_outcome (run_function fuel f b st) (run_function fuel (store_to_load_forward f).1 b st').
Proof.
intros Hf. apply map_blocks_runs. clear b st st'. intros b st st' Hb Hn. destruct (Hf b Hb) as [Hfl _ Hs Ha].
rewrite (forward_insts_run (xb_insts b) (xb_insts b) ∅ st'); [|auto|done|intros d r size H; by rewrite lookup_empty in H].
by apply (same_insts (xb_insts b) false).
Qed.

Lemma lea_runs f fuel b st st' :
blocks_satisfy (fun insts => flags_local false insts = true /\ adds_sized insts) f -> near false st st' ->
near_outcome (run_function fuel f b st) (run_function fuel (lea_fold f).1 b st').
Proof.
intros Hf. apply map_blocks_runs. clear b st st'. intros b st st' Hb Hn. destruct (Hf b Hb) as [Hfl Ha].
unfold flags_dead_after. by apply (lea_insts _ (length (xb_insts b)) (xb_insts b) false); [lia| |apply adds_sized_pairs|].
Qed.

Lemma xor_runs f fuel b st st' :
blocks_satisfy (fun insts => flags_local false insts = true) f -> near false st st' ->
near_outcome (run_function fuel f b st) (run_function fuel (xor_zero f).1 b st').
Proof.
intros Hf. apply map_blocks_runs. clear b st st'. intros b st st' Hb Hn.
unfold xor_zero_block, flags_dead_after. by apply (xor_zero_insts _ (xb_insts b) false); [apply Hf|].
Qed.

End runs.

(** * Theorem *)

(** C14: The peephole patterns that run after register allocation leave every run of the
    function unchanged, the contents of the flags apart: forwarding a store to a load,
    folding a copy and an addition into [lea], and zeroing with [xor] are invisible on
    every machine where flags matter to their readers only and slots are memory. *)
Theorem peephole_post_preserves (val flg memory : Type) (M : Machine val flg memory) (f : X86Function) :
  FlagLaws val flg memory -> FoldLaws val flg memory -> SlotLaws val flg memory -> blocks_satisfy post_ready f ->
  forall fuel b (st : mstate val flg memory),
    near_outcome (run_function fuel f b st) (run_function fuel (run_peephole_post_regalloc f).1 b st).
Proof.
  intros L1 L2 L3 Hf fuel b st. unfold run_peephole_post_regalloc.
  destruct (store_to_load_forward f) as [f1 n1] eqn:E1. destruct (lea_fold f1) as [f2 n2] eqn:E2. destruct (xor_zero f2) as [f3 n3] eqn:E3.
  assert (H1 : blocks_satisfy (fun insts => flags_local false insts = true /\ adds_sized insts) f1).
  { replace f1 with (store_to_load_forward f).1 by (by rewrite E1). eapply map_blocks_satisfy; [exact Hf|].
    intros insts [Hfl Ha _ _]. split; [by apply forward_flags_local|by apply forward_adds_sized]. }
  assert (H2 : blocks_satisfy (fun insts => flags_local false insts = true) f2).
  { replace f2 with (lea_fold f1).1 by (by rewrite E2). eapply map_blocks_satisfy; [exact H1|].
    intros insts [Hfl _]. by apply (lea_flags_local _ (length insts)). }
  pose proof (forward_runs f fuel b st st Hf (near_refl _ _)) as R1. rewrite E1 in R1.
  pose proof (lea_runs f1 fuel b st st H1 (near_refl _ _)) as R2. rewrite E2 in R2.
  pose proof (xor_runs f2 fuel b st st H2 (near_refl _ _)) as R3. rewrite E3 in R3. simpl in *.
  eapply near_outcome_trans; [exact R1|]. by eapply near_outcome_trans.
Qed.

(** * Witness *)

#[export] Instance int_flag_laws : FlagLaws Z Z (gmap Z Z).
Proof.
  split; simpl.
  - intros op size args w fl _. destruct op; try (eexists; reflexivity).
    unfold int_sem. destruct (cell (args !! 1%nat)); eexists; reflexivity.
  - intros op size args w fl H. by destruct op.
Qed.

#[export] Instance int_fold_laws : FoldLaws Z Z (gmap Z Z).
Proof.
  split; simpl.
  - done.
  - intros size args x w. unfold int_sem. cbn -[trunc swrap Z.lxor]. rewrite Z.lxor_nilpotent. destruct size; by eexists.
  - done.
  - intros size x y w w'. by eexists.
  - intros size a b w. unfold int_sem. cbn -[trunc keep swrap Z.add Z.mul]. f_equal.
    destruct (keep_shift size size (reg_val w a)) as [k E]; [lia|]. rewrite E. rewrite <- (trunc_add size _ k).
    f_equal. change (default 0%Z (w_regs w !! a)) with (reg_val w a). change (default 0%Z (w_regs w !! b)) with (reg_val w b). lia.
Qed.

#[export] Instance int_slot_laws : SlotLaws Z Z (gmap Z Z).
Proof.
  split; simpl.
  - done.
  - done.
  - intros size x s s' d w. unfold int_sem. simpl. by rewrite lookup_insert_eq.
  - intros i args w r _ _. destruct (x_opcode i); try done. unfold int_sem. by destruct (cell (args !! 1%nat)).
  - intros i st size s d Hs _ Ht. destruct (decide (x_opcode i = MovMR)) as [Eo|Eo].
    + destruct (ss_store i Hs Eo) as (r & mem & Eops & Ed). rewrite Eo. unfold args_of, destination. rewrite (ss_phys i Hs), Eops, Ed. simpl.
      destruct (Ht mem) as (s' & d' & -> & Ha); [unfold memory_target; by rewrite Eo, Eops|]. unfold int_sem. simpl.
      unfold apart, write_bytes in Ha. rewrite Eo in Ha. rewrite lookup_insert_ne; [done|]. intros ->.
      destruct size, (x_size i); simpl in Ha; lia.
    + destruct (x_opcode i); try done.
  - done.
Qed.

(** A store, a reload, a copy with an addition, and a zero. *)
Definition post_fn : X86Function :=
  {| xf_name := "p";
     xf_blocks :=
       [ {| xb_id := 0; xb_insts :=
              [ mk_inst MovMR [Reg Rax; slot 1 (-8)] None;
                mk_inst MovRM [slot 1 (-8)] (Some (Reg Rdx));
                mk_inst Add [Reg Rdx; Reg Rcx] (Some (Reg Rdx));
                mk_inst MovRI [Imm 0] (Some (Reg Rsi));
                mk_inst Cmp [Reg Rdx; Reg Rsi] None;
                mk_inst Jcc [Cond CcNe; BlockRef 1] None;
                mk_inst Jmp [BlockRef 1] None ] |};
         {| xb_id := 1; xb_insts := [ mk_inst MovRR [Reg Rdx] (Some (Reg Rax)); mk_inst Ret [] None ] |} ];
     rodata := []; rodata_bytes := []; frame_slots := [];
     outgoing_arg_bytes := 0; frame_bytes := 16; entry_live_ins := []; next_vreg := 0; next_block := 2 |}.

Lemma post_fn_ready : blocks_satisfy post_ready post_fn.
Proof.
  intros b Hb. simpl in Hb. rewrite !elem_of_cons in Hb. destruct Hb as [->|[->|Hb]]; [| |by apply elem_of_nil in Hb].
  - split; [reflexivity| | |].
    + simpl. repeat split; try done; intros H; simpl in *; rewrite ?elem_of_cons in H; naive_solver.
    + intros i Hi. simpl in Hi. rewrite !elem_of_cons in Hi.
      repeat destruct Hi as [->|Hi]; try (by apply elem_of_nil in Hi); split; simpl; try done; eauto.
    + intros d size i op d' (j & oj & Hj & Eo & E1 & Ed & _) Hi Ht Hd Hne.
      assert (Hone : forall k, k ∈ xb_insts (default {| xb_id := 0; xb_insts := [] |} (xf_blocks post_fn !! 0%nat)) ->
        forall o z, (memory_target k = Some o \/ (x_opcode k = MovMR /\ x_operands k !! 1%nat = Some o)) -> rbp_slot_disp o = Some z -> z = (-8)%Z).
      { intros k Hk o z Ho Hz. simpl in Hk. rewrite !elem_of_cons in Hk.
        repeat destruct Hk as [->|Hk]; try (by apply elem_of_nil in Hk); unfold memory_target in Ho; simpl in Ho;
          destruct Ho as [Ho|[Ho1 Ho]]; try done; injection Ho as <-; simpl in Hz; congruence. }
      exfalso. apply Hne. rewrite (Hone j Hj oj d); [|by right|done]. symmetry. eapply (Hone i Hi op); [by left|done].
  - split; [reflexivity| | |].
    + simpl. repeat split; try done.
    + intros i Hi. simpl in Hi. rewrite !elem_of_cons in Hi.
      repeat destruct Hi as [->|Hi]; try (by apply elem_of_nil in Hi); split; simpl; done.
    + intros d size i op d' (j & oj & Hj & Eo & _) Hi. simpl in Hj. rewrite !elem_of_cons in Hj.
      repeat destruct Hj as [->|Hj]; try (by apply elem_of_nil in Hj); done.
Qed.

Definition post_start : mstate Z Z (gmap Z Z) :=
  {| ms_vregs := ∅; ms_world := {| w_regs := {[ Rax := 30%Z; Rcx := 12%Z ]}; w_flags := 0%Z; w_mem := ∅ |} |}.

(** All three patterns fire, and the function still returns 42. *)
Lemma peephole_post_preserves_witness :
  (run_peephole_post_regalloc post_fn).2 = 3%nat /\
  exists st, run_function 2 (run_peephole_post_regalloc post_fn).1 0 post_start = Left_ st /\ reg_val (ms_world st) Rax = 42%Z.
Proof.
  split; [reflexivity|].
  pose proof (peephole_post_preserves Z Z (gmap Z Z) int_machine post_fn int_flag_laws int_fold_laws int_slot_laws post_fn_ready 2 0 post_start) as H.
  destruct (run_function 2 post_fn 0 post_start) as [s|s|s] eqn:Es; [|vm_compute in Es; discriminate Es|vm_compute in Es; discriminate Es].
  destruct (run_function 2 (run_peephole_post_regalloc post_fn).1 0 post_start) as [s'|s'|s'] eqn:Es'; [|exact (False_ind _ H)|exact (False_ind _ H)].
  exists s'. split; [reflexivity|]. unfold reg_val. rewrite (nr_regs _ _ _ H). vm_compute in Es. injection Es as <-. reflexivity.
Defined.
