(* ===== verification/X86PeepPre.v ===== *)
(** Correctness of the peephole patterns that run before allocation
    (src/src/codegen/x86/peephole.rs, [run_peephole]). *)

From stdpp Require Import sorting.
From S2P Require Import Prelude.
From stdpp Require Import list.
From S2P Require Import Slices X86Mir X86Liveness X86Sem X86Peephole.

(** * Counting *)

Definition count_of (v : VRegId) (l : list VRegId) : nat := length (filter (fun u => u = v) l).

Lemma counts_spec l (m : gmap VRegId nat) v :
  default 0%nat (foldl (fun m v => <[v := S (default 0%nat (m !! v))]> m) m l !! v) = (default 0%nat (m !! v) + count_of v l)%nat.
Proof.
  unfold count_of. revert m. induction l as [|u l IH]; intros m; simpl; [lia|]. rewrite IH, filter_cons. destruct (decide (u = v)) as [->|Hne].
  - rewrite lookup_insert_eq. simpl. lia.
  - rewrite lookup_insert_ne by done. lia.
Qed.

Lemma foldl_fmap_counts (l : list X86VReg) (m : gmap VRegId nat) :
  foldl (fun m v => <[vr_id v := S (default 0%nat (m !! vr_id v))]> m) m l =
  foldl (fun m v => <[v := S (default 0%nat (m !! v))]> m) m (vr_id <$> l).
Proof. revert m. induction l as [|v l IH]; intros m; simpl; [done|]. apply IH. Qed.

Lemma count_app v l1 l2 : count_of v (l1 ++ l2) = (count_of v l1 + count_of v l2)%nat.
Proof. unfold count_of. by rewrite filter_app, length_app. Qed.

Lemma count_zero v l : count_of v l = 0%nat <-> v ∉ l.
Proof.
  unfold count_of. split.
  - intros H Hin. apply length_zero_iff_nil in H. assert (Hf : v ∈ filter (fun u => u = v) l) by (by apply list_elem_of_filter).
    rewrite H in Hf. by apply elem_of_nil in Hf.
  - intros H. induction l as [|u l IH]; [done|]. rewrite filter_cons, decide_False; [apply IH|]; set_solver.
Qed.

(** * Zeros *)

Lemma placed_in f p i : (p, i) ∈ placed f <-> exists b, xf_blocks f !! p.1 = Some b /\ xb_insts b !! p.2 = Some i.
Proof.
  unfold placed. rewrite list_elem_of_join. split.
  - intros (l & Hi & Hl). apply elem_of_lookup_imap in Hl as (bi & b & -> & Hb). apply elem_of_lookup_imap in Hi as (ii & j & E & Hj).
    injection E as -> ->. eauto.
  - intros (b & Hb & Hi). destruct p as [bi ii]. exists (imap (fun ii i => ((bi, ii), i)) (xb_insts b)).
    split; apply elem_of_lookup_imap; [by exists ii, i|by exists bi, b].
Qed.

Section zeros.
Context (f : X86Function).

Lemma zero_site_in v p : zero_site f !! v = Some p -> exists i d, (p, i) ∈ placed f /\ def_operand_vreg i = Some d /\ vr_id d = v /\ is_zero_load i = true.
Proof.
unfold zero_site. induction (placed f) as [|[q i] l IH] using rev_ind; [done|]. rewrite foldl_app. simpl. set (m0 := foldl _ _ l) in *.
assert (Hold : m0 !! v = Some p ->
exists j d, (p, j) ∈ l ++ [(q, i)] /\ def_operand_vreg j = Some d /\ vr_id d = v /\ is_zero_load j = true).
{ intros (j & d & Hj & H)%IH. exists j, d. split; [apply elem_of_app; by left|done]. }
destruct (def_operand_vreg i) as [d|] eqn:Ed; [|done]. destruct (is_zero_load i) eqn:Ez; [|done].
intros [[E <-]|[_ H]]%lookup_insert_Some; [|by apply Hold]. exists i, d. split; [apply elem_of_app; right; left|done].
Qed.

(** All definitions of a zero load zero. *)
Lemma zero_defs v p i d : is_zero f v = true -> (p, i) ∈ placed f -> def_operand_vreg i = Some d -> vr_id d = v -> is_zero_load i = true.
Proof.
intros [Hc%bool_decide_eq_true Hs%bool_decide_eq_true]%andb_true_iff Hin Hd Hv. destruct Hs as [q Hq].
destruct (zero_site_in v q Hq) as (j & e & Hj & He & Hve & Hz).
assert (Hone : count_of v (vr_id <$> omap (fun p => def_operand_vreg p.2) (placed f)) = 1%nat).
{ pose proof (counts_spec (vr_id <$> omap (fun p => def_operand_vreg p.2) (placed f)) ∅ v) as H.
unfold def_counts in Hc. rewrite foldl_fmap_counts in Hc. rewrite Hc, lookup_empty in H. simpl in H. lia. }
destruct (is_zero_load i) eqn:Ei; [done|exfalso]. assert (Hne : (p, i) <> (q, j)) by congruence.
apply list_elem_of_lookup in Hin as [k1 Hk1]. apply list_elem_of_lookup in Hj as [k2 Hk2].
assert (Hkk : k1 <> k2) by (intros ->; congruence). clear Hc Hq.
assert (Htwo : forall l k1 k2 a b, l !! k1 = Some a -> l !! k2 = Some b -> (k1 < k2)%nat ->
vr_id <$> def_operand_vreg a.2 = Some v -> vr_id <$> def_operand_vreg b.2 = Some v ->
(2 <= count_of v (vr_id <$> omap (fun p : (nat * nat) * X86Inst => def_operand_vreg p.2) l))%nat).
{ clear. intros l k1 k2 a b Ha Hb Hlt Ea Eb. rewrite <- (take_drop k2 l), omap_app, fmap_app, count_app.
assert (Hone : forall l k c, l !! k = Some c -> vr_id <$> def_operand_vreg c.2 = Some v ->
(1 <= count_of v (vr_id <$> omap (fun p : (nat * nat) * X86Inst => def_operand_vreg p.2) l))%nat).
{ clear. intros l k c Hk Ec. destruct (count_of v _) eqn:E; [|lia]. apply count_zero in E. exfalso. apply E.
apply fmap_Some in Ec as (d & Ed & ->). apply list_elem_of_fmap. exists d. split; [done|]. apply list_elem_of_omap.
exists c. split; [by eapply list_elem_of_lookup_2|done]. }
pose proof (Hone (take k2 l) k1 a ltac:(by rewrite lookup_take_lt) Ea). pose proof (Hone (drop k2 l) 0%nat b ltac:(by rewrite lookup_drop, Nat.add_0_r) Eb). lia. }
assert (Ea : vr_id <$> def_operand_vreg (p, i).2 = Some v) by (simpl; by rewrite Hd, <- Hv).
assert (Eb : vr_id <$> def_operand_vreg (q, j).2 = Some v) by (simpl; by rewrite He, <- Hve).
destruct (decide (k1 < k2)%nat).
- pose proof (Htwo _ _ _ _ _ Hk1 Hk2 ltac:(lia) Ea Eb). lia.
- pose proof (Htwo _ _ _ _ _ Hk2 Hk1 ltac:(lia) Eb Ea). lia.
Qed.

Lemma placed_block b blk i : xf_blocks f !! b = Some blk -> i ∈ xb_insts blk -> exists p, (p, i) ∈ placed f.
Proof. intros Hb [k Hk]%list_elem_of_lookup. exists (b, k). apply placed_in. eauto. Qed.

End zeros.

(** * Comparing with zero *)

(** What the patterns rely on: a zero constant is one value, loading it touches nothing
    else, comparing with it sets the flags as testing does, and a copy of a full register
    is the register. *)
Class PreLaws (val flg memory : Type) `{!Machine val flg memory} : Prop := {
  zero_pure size args w : (sem MovRI size (Raw (Imm 0) :: args) w).2 = w;
  zero_same size args w size' args' w' : (sem MovRI size (Raw (Imm 0) :: args) w).1 = (sem MovRI size' (Raw (Imm 0) :: args') w').1;
  cmp_zero_test size x w size' args w' :
    sem Test_ size [Val x; Val x] w = sem Cmp size [Val x; Val (sem MovRI size' (Raw (Imm 0) :: args) w').1] w;
  full_copy x w : sem MovRR SzQ [Val x] w = (x, w) }.

(** Control may pass to the next instruction. *)
Definition falls_through (i : X86Inst) : bool :=
  match x_opcode i, x_operands i with Jmp, BlockRef _ :: _ | Ret, _ => false | _, _ => true end.

(** Some path from the entry reaches instruction [k] of block [b] without passing a
    definition of [v].  Branches may stand anywhere in a block: selections, bit scans and
    switches leave one in its middle. *)
Inductive unset (f : X86Function) (v : VRegId) : nat -> nat -> Prop :=
| unset_entry : unset f v 0 0
| unset_next b blk k i :
    unset f v b k -> xf_blocks f !! b = Some blk -> xb_insts blk !! k = Some i ->
    falls_through i = true -> vr_id <$> def_vreg i <> Some v -> unset f v b (S k)
| unset_jump b blk k i t s blk' :
    unset f v b k -> xf_blocks f !! b = Some blk -> xb_insts blk !! k = Some i ->
    inst_target i = Some t -> xf_blocks f !! s = Some blk' -> xb_id blk' = t ->
    vr_id <$> def_vreg i <> Some v -> unset f v s 0.

(** What the pass needs of the function it is given: comparisons have two operands, a constant
    zero is loaded on every path to an instruction that reads it, and a copy of a
    register to itself is of the full register. *)
Record pre_ready (f : X86Function) : Prop := {
  pe_cmp : forall b i, b ∈ xf_blocks f -> i ∈ xb_insts b -> x_opcode i = Cmp -> length (x_operands i) = 2%nat /\ x_def i = None;
  pe_defined : forall v b blk k i, is_zero f v = true -> unset f v b k -> xf_blocks f !! b = Some blk -> xb_insts blk !! k = Some i ->
    v ∉ vr_id <$> use_vregs i;
  pe_moves : forall b i, b ∈ xf_blocks f -> i ∈ xb_insts b -> self_move i = true ->
    x_size i = SzQ /\ length (x_operands i) = 1%nat /\ exists d, x_def i = Some (VReg d) }.

Section tests.
Context {val flg memory : Type} `{!Machine val flg memory, !PreLaws val flg memory}.
Local Abbreviation mstate := (mstate val flg memory).
Context (f : X86Function) (Hready : pre_ready f).

Definition zero_of (w : world val flg memory) : val := (sem MovRI SzQ [Raw (Imm 0)] w).1.

Lemma zero_of_same w w' : zero_of w' = zero_of w.
Proof. apply zero_same. Qed.

(** A zero that is set on every path to here holds zero. *)
Definition zeros_hold (b k : nat) (st : mstate) : Prop :=
forall v, is_zero f v = true -> ~ unset f v b k -> vreg_val st v = zero_of (ms_world st).

Lemma zero_cmp_Some zero i lhs rhs :
zero_cmp zero i = Some (lhs, rhs) ->
x_opcode i = Cmp /\ zero (vr_id rhs) = true /\ exists ops, x_operands i = VReg lhs :: VReg rhs :: ops.
Proof.
unfold zero_cmp. destruct (x_opcode i); try done. destruct (x_operands i) as [|[a| | | | | | | |] [|[b| | | | | | | |] ops]]; try done. simpl.
destruct (zero (vr_id b)) eqn:E; [|done]. intros [= <- <-]. eauto.
Qed.

Lemma test_exec b blk k i st :
xf_blocks f !! b = Some blk -> xb_insts blk !! k = Some i -> zeros_hold b k st ->
exec_inst (test_inst (is_zero f) i) st = exec_inst i st.
Proof.
intros Hb Hk Hz. unfold test_inst. destruct (zero_cmp (is_zero f) i) as [[lhs rhs]|] eqn:E; [|done].
destruct (zero_cmp_Some _ _ _ _ E) as (Eo & Hzero & ops & Eops).
destruct (pe_cmp f Hready blk i ltac:(by eapply list_elem_of_lookup_2) ltac:(by eapply list_elem_of_lookup_2) Eo) as [Hl Hd].
assert (Hv : vreg_val st (vr_id rhs) = zero_of (ms_world st)).
{ apply Hz; [done|]. intros Hu. apply (pe_defined f Hready _ b blk k i Hzero Hu Hb Hk). apply list_elem_of_fmap. exists rhs. split; [done|].
  unfold use_vregs. rewrite Eops. apply elem_of_app. right. simpl. right. left. }
destruct i as [op size ops0 def]. simpl in *. subst op ops0 def. destruct ops; [|done].
unfold exec_inst, args_of, destination, write_def. cbn [x_opcode x_size x_operands x_def fp_store_addr_vreg fmap list_fmap app arg_of].
rewrite Hv. unfold zero_of. by rewrite <- cmp_zero_test.
Qed.

(** A zero holds zero after its load, and what does not define it leaves it alone. *)
Lemma zeros_step b blk k i st b' k' :
xf_blocks f !! b = Some blk -> xb_insts blk !! k = Some i -> zeros_hold b k st ->
(forall v, unset f v b k -> vr_id <$> def_vreg i <> Some v -> unset f v b' k') ->
zeros_hold b' k' (exec_inst i st).
Proof.
intros Hb Hk Hz Hnext v Hzero Hset. destruct (decide ((vr_id <$> def_vreg i) = Some v)) as [Ed|Ed].
- apply fmap_Some in Ed as (d & Ed & ->).
assert (Hdo : def_operand_vreg i = Some d /\ fp_store_addr_vreg i = None).
{ unfold def_vreg in Ed. destruct (fp_store_addr_vreg i); [done|]. done. }
destruct Hdo as [Hdo Hfp]. destruct (placed_block f b blk i Hb ltac:(by eapply list_elem_of_lookup_2)) as [p Hp].
pose proof (zero_defs f (vr_id d) p i d Hzero Hp Hdo eq_refl) as Hload. unfold is_zero_load in Hload.
destruct (x_opcode i) eqn:Eo; try done. destruct (x_operands i) as [|op ops] eqn:Eops; [done|]. simpl in Hload. destruct op as [| |z| | | | | |]; try done. destruct z; try done.
unfold def_operand_vreg in Hdo. destruct (x_def i) as [[u| | | | | | | |]|] eqn:Edef; try done. injection Hdo as ->.
unfold exec_inst, args_of, destination, write_def. rewrite Hfp, Edef, Eo, Eops. cbn [fmap list_fmap app arg_of].
match goal with |- context [sem MovRI _ (_ :: ?a) _] => set (args := a) end. pose proof (zero_pure (x_size i) args (ms_world st)) as Hp'.
pose proof (zero_same (x_size i) args (ms_world st) SzQ [] (ms_world st)) as Hs.
destruct (sem MovRI (x_size i) (Raw (Imm 0) :: args) (ms_world st)) as [x w]. simpl in *. subst w. unfold vreg_val. simpl.
rewrite lookup_insert_eq. exact Hs.
- unfold vreg_val. rewrite exec_keeps by done. rewrite (zero_of_same (ms_world st)). apply Hz; [done|]. intros Hu. by apply Hset, Hnext.
Qed.

Lemma flow_falls i (fl : flg) : flow i fl = None -> falls_through i = true.
Proof. unfold flow, falls_through. destruct (x_opcode i); try done. by destruct (x_operands i) as [|[] ?]. Qed.

Lemma flow_target i (fl : flg) t : flow i fl = Some (Goto t) -> inst_target i = Some t.
Proof.
unfold flow, inst_target. destruct (x_opcode i); try done.
- destruct (x_operands i) as [|[] ops]; try done. by intros [= ->].
- destruct (x_operands i) as [|[] [|[] ops]]; try done. destruct (holds _ fl); [|done]. by intros [= ->].
Qed.

(** The rest of a block: the same run, and zeros that are set when it jumps hold zero. *)
Lemma test_insts b blk k rest st :
xf_blocks f !! b = Some blk -> drop k (xb_insts blk) = rest -> zeros_hold b k st ->
run_insts (test_inst (is_zero f) <$> rest) st = run_insts rest st /\
forall t s blk', (run_insts rest st).2 = Some (Goto t) -> xf_blocks f !! s = Some blk' -> xb_id blk' = t ->
zeros_hold s 0 (run_insts rest st).1.
Proof.
intros Hb. revert k st. induction rest as [|i rest IH]; intros k st Hk Hz; [done|].
assert (Hi : xb_insts blk !! k = Some i) by (rewrite <- (Nat.add_0_r k), <- lookup_drop, Hk; done).
assert (Hrest : drop (S k) (xb_insts blk) = rest) by (by rewrite <- Nat.add_1_r, <- drop_drop, Hk).
rewrite fmap_cons. cbn [run_insts]. rewrite (test_exec b blk k i st Hb Hi Hz).
assert (Hfl : forall fl : flg, flow (test_inst (is_zero f) i) fl = flow i fl).
{ intros fl. unfold test_inst. destruct (zero_cmp _ i) as [[]|] eqn:E; [|done]. destruct (zero_cmp_Some _ _ _ _ E) as (Eo & _). unfold flow. by rewrite Eo. }
rewrite Hfl. destruct (flow i (w_flags (ms_world (exec_inst i st)))) as [e|] eqn:Ef.
- split; [done|]. simpl. intros t s blk' [= ->] Hs Ht. apply (zeros_step b blk k i); [done..|]. intros v Hu Hd.
  eapply unset_jump; [exact Hu|done|done|by eapply flow_target|done|done|done].
- apply (IH (S k)); [done|]. apply (zeros_step b blk k i); [done..|]. intros v Hu Hd. eapply unset_next; [exact Hu|done|done|by eapply flow_falls|done].
Qed.

End tests.

Section test_runs.
Context {val flg memory : Type} `{!Machine val flg memory, !PreLaws val flg memory}.
Local Abbreviation mstate := (mstate val flg memory).
Context (f : X86Function) (Hready : pre_ready f).

Definition test_fn : X86Function :=
with_blocks f ((fun b => {| xb_id := xb_id b; xb_insts := test_inst (is_zero f) <$> xb_insts b |}) <$> xf_blocks f).

Lemma test_runs fuel b (st : mstate) :
(forall s blk, xf_blocks f !! s = Some blk -> xb_id blk = b -> zeros_hold f s 0 st) ->
run_function fuel test_fn b st = run_function fuel f b st.
Proof.
revert b st. induction fuel as [|fuel IH]; intros b st Hz; [done|]. cbn [run_function].
assert (Eb : block_named test_fn b = (fun c => {| xb_id := xb_id c; xb_insts := test_inst (is_zero f) <$> xb_insts c |}) <$> block_named f b) by (by apply find_fmap).
rewrite Eb. unfold block_named. destruct (list_find _ (xf_blocks f)) as [[s blk]|] eqn:E; [|done]. simpl.
apply list_find_Some in E as (Hs & Hid & _). specialize (Hz s blk Hs Hid).
destruct (test_insts f Hready s blk 0 (xb_insts blk) st Hs eq_refl Hz) as [Hrun Hnext].
rewrite Hrun. destruct (run_insts (xb_insts blk) st) as [st' [[t|]|]] eqn:Er; try done. apply IH. intros s' blk' Hs' Ht. by apply (Hnext t s' blk').
Qed.

End test_runs.

(** * Removing dead zeros *)

Section thin.
Context (D : VRegId -> Prop).

(** A load of zero into a register nobody reads. *)
Definition droppable (i : X86Inst) : Prop := is_zero_load i = true /\ exists d, x_def i = Some (VReg d) /\ D (vr_id d).

Inductive thinned : list X86Inst -> list X86Inst -> Prop :=
| thin_nil : thinned [] []
| thin_keep i l l' : thinned l l' -> thinned (i :: l) (i :: l')
| thin_drop i l l' : droppable i -> thinned l l' -> thinned (i :: l) l'.

#[local] Hint Constructors thinned : core.

Lemma thinned_refl l : thinned l l.
Proof. induction l; auto. Qed.

Lemma thinned_trans l1 l2 l3 : thinned l1 l2 -> thinned l2 l3 -> thinned l1 l3.
Proof.
intros H. revert l3. induction H as [|i l l' _ IH|i l l' Hi _ IH]; intros l3 H3; [done| |auto].
inversion H3; subst; auto.
Qed.

Lemma thinned_delete l k i : l !! k = Some i -> droppable i -> thinned l (delete k l).
Proof.
revert k. induction l as [|j l IH]; intros [|k] Hk Hi; simpl in *; try done.
- injection Hk as ->. apply thin_drop; [done|apply thinned_refl].
- apply thin_keep. by apply IH.
Qed.

Lemma zero_load_shape i : is_zero_load i = true -> x_opcode i = MovRI /\ exists ops, x_operands i = Imm 0 :: ops.
Proof.
unfold is_zero_load. destruct (x_opcode i); try done. destruct (x_operands i) as [|[| |z| | | | | |] ops]; try done. destruct z; try done. eauto.
Qed.

Context {val flg memory : Type} `{!Machine val flg memory, !PreLaws val flg memory}.

Lemma drop_exec i (st : mstate val flg memory) : droppable i -> agree_on (fun v => ~ D v) (exec_inst i st) st.
Proof.
intros [Hz (d & Hd & HD)]. destruct (zero_load_shape i Hz) as (Eo & ops & Eops).
split.
- unfold exec_inst, args_of, destination, write_def. assert (Hfp : fp_store_addr_vreg i = None) by (unfold fp_store_addr_vreg; by rewrite Eo).
rewrite Hfp, Hd, Eo, Eops. cbn [fmap list_fmap app arg_of].
match goal with |- context [sem MovRI _ (_ :: ?a) _] => pose proof (zero_pure (x_size i) a (ms_world st)) as Hp end.
destruct (sem MovRI _ _ _) as [x w]. simpl in *. by subst.
- intros v Hv. unfold vreg_val. rewrite exec_keeps; [done|]. unfold def_vreg. destruct (fp_store_addr_vreg i); [done|]. rewrite Hd. simpl. intros [= <-]. done.
Qed.

Lemma thinned_run l l' (st st' : mstate val flg memory) :
thinned l l' -> (forall i, i ∈ l -> reads_in (fun v => ~ D v) i) -> agree_on (fun v => ~ D v) st st' ->
(run_insts l' st').2 = (run_insts l st).2 /\ agree_on (fun v => ~ D v) (run_insts l st).1 (run_insts l' st').1.
Proof.
intros H. revert st st'. induction H as [|i l l' _ IH|i l l' Hi _ IH]; intros st st' Hr Ha; [done| |].
- pose proof (agree_exec _ i st st' Ha ltac:(apply Hr; left)) as He. cbn [run_insts]. rewrite (ag_world _ _ _ He).
destruct (flow i _); [done|]. apply IH; [|done]. intros j Hj. apply Hr. by right.
- cbn [run_insts]. assert (Hfl : forall fl : flg, flow i fl = None).
{ intros fl. destruct Hi as [Hz _]. destruct (zero_load_shape i Hz) as (Eo & _). unfold flow. by rewrite Eo. }
rewrite Hfl. apply IH; [intros j Hj; apply Hr; by right|]. etransitivity; [by apply drop_exec|done].
Qed.

End thin.

(** ** Taking sites out from the back *)

Definition site_lt (a b : nat * nat) : Prop := (a.1 < b.1 \/ (a.1 = b.1 /\ a.2 < b.2))%nat.

Definition inst_at (g : X86Function) (s : nat * nat) : option X86Inst := b ← xf_blocks g !! s.1; xb_insts b !! s.2.

Definition thinned_block (D : VRegId -> Prop) (b b' : X86Block) : Prop := xb_id b' = xb_id b /\ thinned D (xb_insts b) (xb_insts b').

Lemma remove_site_spec D g s i :
  inst_at g s = Some i -> droppable D i ->
  exists g', remove_site g s = Some g' /\ Forall2 (thinned_block D) (xf_blocks g) (xf_blocks g') /\
    forall t, site_lt t s -> inst_at g' t = inst_at g t.
Proof.
  unfold inst_at, remove_site. destruct (xf_blocks g !! s.1) as [b|] eqn:Hb; [|done]. cbn [mbind option_bind]. intros Hi Hd. rewrite Hi. cbn [mbind option_bind].
  eexists. split; [done|]. simpl. split.
  - apply Forall2_same_length_lookup. rewrite length_insert. split; [done|]. intros k x y Hx Hy.
    apply list_lookup_insert_Some in Hy as [(E & <- & _)|(Hne & Hy)].
    + rewrite <- E, Hb in Hx. injection Hx as <-. split; [done|]. by eapply thinned_delete.
    + rewrite Hx in Hy. injection Hy as <-. split; [done|apply thinned_refl].
  - intros t Ht. destruct (decide (t.1 = s.1)) as [E|E].
    + destruct Ht as [Ht|[_ Ht]]; [lia|]. rewrite E, list_lookup_insert_eq, Hb by (by eapply lookup_lt_Some). cbn [mbind option_bind xb_insts].
      by rewrite list_lookup_delete_lt.
    + by rewrite list_lookup_insert_ne.
Qed.

Lemma thinned_blocks_trans D : Transitive (Forall2 (thinned_block D)).
Proof.
  intros l1 l2 l3 H12. revert l3. induction H12 as [|a b l1 l2 [H1 H2] _ IH]; intros l3 H; [done|].
  inversion H as [|? c ? l3' [H3 H4] H5]; subst. constructor; [|by apply IH]. split; [congruence|by eapply thinned_trans].
Qed.

Lemma remove_sites_spec D g sites :
  StronglySorted site_lt sites -> (forall s, s ∈ sites -> exists i, inst_at g s = Some i /\ droppable D i) ->
  exists g', foldl (fun g s => g ← g; remove_site g s) (Some g) (reverse sites) = Some g' /\
    Forall2 (thinned_block D) (xf_blocks g) (xf_blocks g') /\
    forall t, (forall s, s ∈ sites -> site_lt t s) -> inst_at g' t = inst_at g t.
Proof.
  induction 1 as [|s sites Hs IH Hlt]; intros Hd.
  { exists g. split; [done|]. split; [|done]. apply Forall2_same_length_lookup. split; [done|]. intros k x y Hx Hy. rewrite Hx in Hy.
    injection Hy as <-. split; [done|apply thinned_refl]. }
  destruct IH as (g1 & E1 & H1 & Hat); [intros t Ht; apply Hd; by right|]. rewrite reverse_cons, foldl_app, E1. cbn [foldl mbind option_bind].
  destruct (Hd s ltac:(left)) as (i & Hi & Hdi).
  rewrite list.Forall_forall in Hlt. rewrite <- (Hat s Hlt) in Hi. destruct (remove_site_spec D g1 s i Hi Hdi) as (g2 & E2 & H2 & Hat2).
  exists g2. split; [done|]. split; [by eapply thinned_blocks_trans|]. intros t Ht. rewrite Hat2 by (apply Ht; left). apply Hat.
  intros u Hu. apply Ht. by right.
Qed.

(** ** Which sites *)

(** All uses of [v] were rewritten, and there were some. *)
Definition dead_zero (f : X86Function) (v : VRegId) : Prop :=
  rewritten_uses f !! v = use_counts f !! v /\ is_Some (rewritten_uses f !! v).

Lemma bind_counts {A} (g h : A -> list VRegId) v (l : list A) :
  (forall x, x ∈ l -> (count_of v (h x) <= count_of v (g x))%nat) ->
  (count_of v (l ≫= h) <= count_of v (l ≫= g))%nat /\
  (count_of v (l ≫= h) = count_of v (l ≫= g) -> forall x, x ∈ l -> count_of v (h x) = count_of v (g x)).
Proof.
  induction l as [|y l IH]; intros Hle; [split; [done|]; intros _ x Hx; by apply elem_of_nil in Hx|].
  rewrite !bind_cons, !count_app. destruct IH as [IH1 IH2]; [intros x Hx; apply Hle; by right|].
  pose proof (Hle y ltac:(left)) as Hy. split; [lia|]. intros E x [->|Hx]%elem_of_cons; [lia|]. apply IH2; [lia|done].
Qed.

Lemma count_cons v u l : count_of v (u :: l) = ((if decide (u = v) then 1 else 0) + count_of v l)%nat.
Proof. unfold count_of. rewrite filter_cons. by destruct (decide (u = v)). Qed.

Section dead.
Context (f : X86Function).

Definition operand_ids (i : X86Inst) : list VRegId := vr_id <$> omap operand_vreg (x_operands i).
Definition rewritten_ids (i : X86Inst) : list VRegId := option_list (vr_id ∘ snd <$> zero_cmp (is_zero f) i).

Lemma rewritten_le v i : (count_of v (rewritten_ids i) <= count_of v (operand_ids i))%nat.
Proof.
unfold rewritten_ids. destruct (zero_cmp (is_zero f) i) as [[lhs rhs]|] eqn:E; simpl; [|unfold count_of; simpl; lia].
destruct (zero_cmp_Some _ _ _ _ E) as (_ & _ & ops & Eops). unfold operand_ids. rewrite Eops. simpl. rewrite !count_cons. unfold count_of at 1. simpl. lia.
Qed.

Lemma omap_bind {A B} (g : A -> option B) (l : list A) : omap g l = l ≫= (fun x => option_list (g x)).
Proof. induction l as [|x l IH]; [done|]. rewrite bind_cons, <- IH. simpl. by destruct (g x). Qed.

Lemma fmap_bind_ids {A} (g : A -> list X86VReg) (l : list A) : vr_id <$> (l ≫= g) = l ≫= (fun x => vr_id <$> g x).
Proof. induction l as [|x l IH]; [done|]. rewrite !bind_cons, fmap_app. by rewrite IH. Qed.

Lemma dead_counts v b i :
dead_zero f v -> b ∈ xf_blocks f -> i ∈ xb_insts b -> count_of v (rewritten_ids i) = count_of v (operand_ids i).
Proof.
intros [Heq _] Hb Hi.
pose proof (counts_spec (vr_id <$> (xf_blocks f ≫= fun b => xb_insts b ≫= fun i => omap operand_vreg (x_operands i))) ∅ v) as Hu.
pose proof (counts_spec (xf_blocks f ≫= fun b => omap (fun i => vr_id ∘ snd <$> zero_cmp (is_zero f) i) (xb_insts b)) ∅ v) as Hr.
unfold use_counts, rewritten_uses in Heq. rewrite foldl_fmap_counts in Heq. rewrite <- Heq, Hr in Hu. clear Hr Heq.
rewrite lookup_empty in Hu. simpl in Hu. rewrite fmap_bind_ids in Hu.
set (hb := fun b : X86Block => omap (fun i => vr_id ∘ snd <$> zero_cmp (is_zero f) i) (xb_insts b)) in Hu.
set (gb := fun b : X86Block => vr_id <$> (xb_insts b ≫= fun i => omap operand_vreg (x_operands i))) in Hu.
assert (Hin : forall c, (count_of v (hb c) <= count_of v (gb c))%nat /\
(count_of v (hb c) = count_of v (gb c) -> forall j, j ∈ xb_insts c -> count_of v (rewritten_ids j) = count_of v (operand_ids j))).
{ intros c. unfold hb, gb. rewrite omap_bind, fmap_bind_ids.
apply (bind_counts operand_ids rewritten_ids v (xb_insts c)). intros j _. apply rewritten_le. }
destruct (bind_counts gb hb v (xf_blocks f)) as [_ H]; [intros c _; apply Hin|]. by apply (proj2 (Hin b)); [apply H|].
Qed.

Lemma dead_is_zero v : dead_zero f v -> is_zero f v = true.
Proof.
intros [_ [n Hn]]. pose proof (counts_spec (xf_blocks f ≫= fun b => omap (fun i => vr_id ∘ snd <$> zero_cmp (is_zero f) i) (xb_insts b)) ∅ v) as Hr.
fold (rewritten_uses f) in Hr. rewrite Hn, lookup_empty in Hr. simpl in Hr.
assert (Hpos : forall l (m : gmap VRegId nat), (forall k, m !! v = Some k -> k <> 0%nat) ->
forall k, foldl (fun m v => <[v := S (default 0%nat (m !! v))]> m) m l !! v = Some k -> k <> 0%nat).
{ clear. induction l as [|u l IH]; intros m Hm; simpl; [done|]. apply IH. intros k [[_ <-]|[_ H]]%lookup_insert_Some; [lia|by apply Hm]. }
assert (Hn0 : n <> 0%nat) by (eapply Hpos; [|exact Hn]; intros k; by rewrite lookup_empty).
destruct (decide (v ∈ xf_blocks f ≫= fun b => omap (fun i => vr_id ∘ snd <$> zero_cmp (is_zero f) i) (xb_insts b))) as [Hin|Hout].
2: { apply count_zero in Hout. lia. }
apply list_elem_of_bind in Hin as (b & Hin & _). apply list_elem_of_omap in Hin as (i & _ & E).
apply fmap_Some in E as ([lhs rhs] & E & ->). by destruct (zero_cmp_Some _ _ _ _ E) as (_ & ? & _).
Qed.

(** No instruction reads a dead zero once the comparisons are rewritten. *)
Lemma dead_unread b i : b ∈ xf_blocks f -> i ∈ xb_insts b -> reads_in (fun v => ~ dead_zero f v) (test_inst (is_zero f) i).
Proof.
intros Hb Hi u Hu Hdead. pose proof (dead_counts _ b i Hdead Hb Hi) as Hc.
unfold use_vregs in Hu. apply elem_of_app in Hu as [Hu|Hu].
- unfold test_inst in Hu. destruct (zero_cmp (is_zero f) i) as [[lhs rhs]|] eqn:E; [by apply elem_of_nil in Hu|].
destruct (fp_store_addr_vreg i) as [w|] eqn:Ef; [|by apply elem_of_nil in Hu]. apply list_elem_of_singleton in Hu as ->.
apply list_elem_of_lookup in Hb as [n Hb]. destruct (placed_block f n b i Hb Hi) as [p Hp].
unfold fp_store_addr_vreg in Ef. assert (Hd : def_operand_vreg i = Some w).
{ unfold def_operand_vreg. destruct (x_opcode i), (x_def i) as [[]|]; try done; destruct (_ && _); try done; by injection Ef as ->. }
pose proof (zero_defs f _ p i w (dead_is_zero _ Hdead) Hp Hd eq_refl) as Hz. destruct (zero_load_shape i Hz) as (Eo & _). by rewrite Eo in Ef.
- assert (Hin : vr_id u ∈ vr_id <$> omap operand_vreg (x_operands (test_inst (is_zero f) i))) by (by apply list_elem_of_fmap; eexists).
unfold test_inst in Hin. unfold rewritten_ids in Hc. destruct (zero_cmp (is_zero f) i) as [[lhs rhs]|] eqn:E.
+ destruct (zero_cmp_Some _ _ _ _ E) as (_ & _ & ops & Eops). unfold operand_ids in Hc. rewrite Eops in Hc. simpl in Hc, Hin.
rewrite !count_cons in Hc. unfold count_of at 1 in Hc. simpl in Hc.
assert (Hl : vr_id lhs = vr_id u) by (rewrite !elem_of_cons in Hin; destruct Hin as [?|[?|?%elem_of_nil]]; done).
destruct (decide (vr_id lhs = vr_id u)); [lia|done].
+ simpl in Hc. unfold count_of at 1 in Hc. simpl in Hc. symmetry in Hc. apply count_zero in Hc. done.
Qed.

End dead.

(** ** The comparison pattern *)

Definition lists_sites (entries : gmap VRegId (nat * nat) -> list (VRegId * (nat * nat))) : Prop := forall m, Permutation (entries m) (map_to_list m).

Lemma site_le_strict a b : site_le a b = true -> a <> b -> site_lt a b.
Proof.
  unfold site_le, site_lt. destruct a as [a1 a2], b as [b1 b2]. simpl. intros H Hne.
  destruct (Nat.ltb_spec a1 b1); [by left|]. simpl in H. destruct (Nat.eqb_spec a1 b1) as [->|]; [|done]. simpl in H. apply Nat.leb_le in H.
  right. split; [done|]. destruct (decide (a2 = b2)) as [->|]; [done|lia].
Qed.

Lemma sites_sorted l : NoDup l -> StronglySorted site_lt (sort_by site_le l).
Proof.
  intros Hn. assert (Hnd : NoDup (sort_by site_le l)) by (by rewrite sort_by_perm).
  assert (Hs : StronglySorted (fun a b => site_le a b = true) (sort_by site_le l)).
  { apply sort_by_sorted.
    - intros [a1 a2] [b1 b2]. unfold site_le. simpl. destruct (Nat.ltb_spec a1 b1), (Nat.eqb_spec a1 b1), (Nat.leb_spec a2 b2); simpl; try done; try lia; intros _;
        destruct (Nat.ltb_spec b1 a1), (Nat.eqb_spec b1 a1), (Nat.leb_spec b2 a2); simpl; try done; lia.
    - intros [a1 a2] [b1 b2] [c1 c2]. unfold site_le. simpl.
      destruct (Nat.ltb_spec a1 b1), (Nat.eqb_spec a1 b1), (Nat.leb_spec a2 b2), (Nat.ltb_spec b1 c1), (Nat.eqb_spec b1 c1), (Nat.leb_spec b2 c2);
        simpl; try done; intros _ _; destruct (Nat.ltb_spec a1 c1), (Nat.eqb_spec a1 c1), (Nat.leb_spec a2 c2); simpl; try done; lia. }
  induction Hs as [|x l' Hs IH Hx]; [constructor|]. apply list.NoDup_cons in Hnd as [Hnx Hnd]. constructor; [by apply IH|].
  rewrite list.Forall_forall in Hx |- *. intros y Hy. apply site_le_strict; [by apply Hx|]. intros ->. done.
Qed.

Lemma zero_site_inj f v w s : zero_site f !! v = Some s -> zero_site f !! w = Some s -> v = w.
Proof.
  intros (i & d & Hi & Hd & <- & _)%zero_site_in (j & e & Hj & He & <- & _)%zero_site_in.
  apply placed_in in Hi as (b & Hb & Hi). apply placed_in in Hj as (b' & Hb' & Hj). congruence.
Qed.

Section cmp.
Context (entries : gmap VRegId (nat * nat) -> list (VRegId * (nat * nat))) (Hentries : lists_sites entries).
Context (f : X86Function).

Lemma dead_sites_in s : s ∈ dead_sites entries f -> exists v, zero_site f !! v = Some s /\ dead_zero f v.
Proof.
unfold dead_sites. rewrite sort_by_perm. intros ([v s'] & -> & H)%list_elem_of_fmap. apply list_elem_of_filter in H as [Hd Hin].
rewrite (Hentries (zero_site f)) in Hin. apply elem_of_map_to_list in Hin. by exists v.
Qed.

Lemma dead_sites_sorted : StronglySorted site_lt (dead_sites entries f).
Proof.
apply sites_sorted. apply NoDup_fmap_2_strong.
- intros [v s] [w t] Hx Hy E. simpl in E. subst t. apply list_elem_of_filter in Hx as [_ Hx]. apply list_elem_of_filter in Hy as [_ Hy].
rewrite (Hentries (zero_site f)) in Hx, Hy. apply elem_of_map_to_list in Hx, Hy. f_equal. by eapply zero_site_inj.
- apply list.NoDup_filter. rewrite (Hentries (zero_site f)). apply NoDup_map_to_list.
Qed.

Lemma test_fn_at s i : inst_at f s = Some i -> inst_at (test_fn f) s = Some (test_inst (is_zero f) i).
Proof.
unfold inst_at, test_fn. simpl. rewrite list_lookup_fmap. destruct (xf_blocks f !! s.1) as [b|]; [|done]. simpl.
rewrite list_lookup_fmap. by intros ->.
Qed.

Lemma cmp_zero_spec :
exists g n, cmp_zero_to_test entries f = Some (g, n) /\ Forall2 (thinned_block (dead_zero f)) (xf_blocks (test_fn f)) (xf_blocks g).
Proof.
destruct (remove_sites_spec (dead_zero f) (test_fn f) (dead_sites entries f) dead_sites_sorted) as (g & E & H & _).
- intros s (v & Hs & Hd)%dead_sites_in. destruct (zero_site_in f v s Hs) as (i & d & Hi & Ed & Hv & Hz).
apply placed_in in Hi as (b & Hb & Hi). exists i.
assert (Et : test_inst (is_zero f) i = i).
{ unfold test_inst. destruct (zero_cmp (is_zero f) i) as [[]|] eqn:E; [|done]. destruct (zero_cmp_Some _ _ _ _ E) as (Eo & _).
destruct (zero_load_shape i Hz) as (Eo' & _). congruence. }
split; [rewrite <- Et at 1; apply test_fn_at; unfold inst_at; by rewrite Hb|]. split; [done|].
unfold def_operand_vreg in Ed. destruct (x_def i) as [[u| | | | | | | |]|] eqn:Edef; try done. injection Ed as ->. exists d. by rewrite Hv.
- exists g. eexists. split; [|exact H]. unfold cmp_zero_to_test. fold (test_fn f). rewrite E. done.
Qed.

End cmp.

(** ** Self-moves *)

Section self_moves.
Context {val flg memory : Type} `{!Machine val flg memory, !PreLaws val flg memory}.

Lemma self_move_exec P i (st : mstate val flg memory) :
self_move i = true -> x_size i = SzQ -> length (x_operands i) = 1%nat -> (exists d, x_def i = Some (VReg d)) -> agree_on P (exec_inst i st) st.
Proof.
intros Hm Hs Hl [d Hd]. unfold self_move in Hm. destruct i as [op size ops def]. simpl in *. subst size def.
destruct op; try done. destruct ops as [|[u| | | | | | | |] [|]]; try done. simpl in Hm. apply bool_decide_eq_true in Hm.
unfold exec_inst, args_of, destination, write_def. cbn [x_opcode x_size x_operands x_def fp_store_addr_vreg fmap list_fmap app arg_of].
rewrite full_copy. split; [done|]. intros v _. unfold vreg_val. simpl. destruct (decide (vr_id d = v)) as [<-|Hne].
- rewrite lookup_insert_eq. simpl. by rewrite Hm.
- by rewrite lookup_insert_ne.
Qed.

Lemma self_moves_run P insts (st st' : mstate val flg memory) :
(forall i, i ∈ insts -> self_move i = true -> x_size i = SzQ /\ length (x_operands i) = 1%nat /\ exists d, x_def i = Some (VReg d)) ->
(forall i, i ∈ insts -> reads_in P i) -> agree_on P st st' ->
(run_insts (filter (fun i => self_move i = false) insts) st').2 = (run_insts insts st).2 /\
agree_on P (run_insts insts st).1 (run_insts (filter (fun i => self_move i = false) insts) st').1.
Proof.
revert st st'. induction insts as [|i insts IH]; intros st st' Hm Hr Ha; [done|]. rewrite filter_cons.
assert (Hm' : forall j, j ∈ insts -> self_move j = true -> x_size j = SzQ /\ length (x_operands j) = 1%nat /\ exists d, x_def j = Some (VReg d))
by (intros j Hj; apply Hm; by right).
assert (Hr' : forall j, j ∈ insts -> reads_in P j) by (intros j Hj; apply Hr; by right).
destruct (self_move i) eqn:Es; [rewrite decide_False by done|rewrite decide_True by done].
- destruct (Hm i ltac:(left) Es) as (Hsz & Hlen & Hdef). cbn [run_insts].
assert (Hfl : forall fl : flg, flow i fl = None) by (intros fl; unfold self_move in Es; unfold flow; by destruct (x_opcode i)).
rewrite Hfl. apply IH; [done..|]. etransitivity; [by apply self_move_exec|done].
- pose proof (agree_exec P i st st' Ha ltac:(apply Hr; left)) as He. cbn [run_insts]. rewrite (ag_world _ _ _ He). destruct (flow i _); [done|]. by apply IH.
Qed.

End self_moves.

(** * Theorem *)

Lemma thinned_sub D l l' i : thinned D l l' -> i ∈ l' -> i ∈ l.
Proof. intros H. induction H as [|j l l' _ IH|j l l' _ _ IH]; intros Hi; [done| |right; by apply IH]. apply elem_of_cons in Hi as [->|Hi]; [left|right; by apply IH]. Qed.

(** The instructions of the function with the comparisons rewritten. *)
Lemma test_fn_inst f b i : b ∈ xf_blocks (test_fn f) -> i ∈ xb_insts b -> exists c j, c ∈ xf_blocks f /\ j ∈ xb_insts c /\ i = test_inst (is_zero f) j.
Proof. intros (c & -> & Hc)%list_elem_of_fmap (j & -> & Hj)%list_elem_of_fmap. eauto. Qed.

Lemma test_self_move f j : self_move (test_inst (is_zero f) j) = true -> test_inst (is_zero f) j = j.
Proof. unfold test_inst. by destruct (zero_cmp _ j) as [[]|]. Qed.

(** C15: The peephole that runs before allocation never panics on a [pre_ready] function,
    for every iteration order of its map, and leaves every run from the entry unchanged except in
    registers that held a zero nobody reads any more: [test] sets the flags of a comparison with zero,
    the constants it makes unused are removed, and so are copies of a register to itself. *)
Theorem peephole_pre_preserves (val flg memory : Type) (M : Machine val flg memory) entries f :
  PreLaws val flg memory -> lists_sites entries -> unique_blocks f -> pre_ready f ->
  exists g n, run_peephole entries f = Some (g, n) /\
    forall fuel blk (st : mstate val flg memory), xf_blocks f !! 0%nat = Some blk ->
      agree_outcome (fun v => ~ dead_zero f v) (run_function fuel f (xb_id blk) st) (run_function fuel g (xb_id blk) st).
Proof.
  intros L He Hu Hr. destruct (cmp_zero_spec entries He f) as (g1 & n1 & E1 & H1). unfold run_peephole. rewrite E1. cbn [mbind option_bind].
  do 2 eexists. split; [done|]. intros fuel blk st Hblk. set (P := fun v => ~ dead_zero f v).
  assert (Ht : run_function fuel (test_fn f) (xb_id blk) st = run_function fuel f (xb_id blk) st).
  { apply test_runs; [done|]. intros s c Hs Hid v Hzero Hset. exfalso. apply Hset.
    assert (s = 0%nat) as ->; [|constructor]. eapply (NoDup_lookup (xb_id <$> xf_blocks f)); [done| |].
    - rewrite list_lookup_fmap, Hs. simpl. by rewrite Hid.
    - by rewrite list_lookup_fmap, Hblk. }
  rewrite <- Ht.
  assert (Hin1 : forall b i, b ∈ xf_blocks g1 -> i ∈ xb_insts b -> exists c j, c ∈ xf_blocks f /\ j ∈ xb_insts c /\ i = test_inst (is_zero f) j).
  { intros b i Hb Hi. apply list_elem_of_lookup in Hb as [k Hk]. destruct (Forall2_lookup_r _ _ _ _ _ H1 Hk) as (c & Hc & _ & Hth).
    eapply test_fn_inst; [by eapply list_elem_of_lookup_2|by eapply thinned_sub]. }
  transitivity (run_function fuel g1 (xb_id blk) st).
  - apply alike_runs; [|done]. apply Forall2_same_length_lookup. split; [by eapply Forall2_length|]. intros k b b' Hb Hb'.
    destruct (Forall2_lookup_lr _ _ _ _ _ _ H1 Hb Hb') as [Hid Hth]. split; [done|]. intros s s' Ha. eapply thinned_run; [done|done| |done].
    intros i Hi. destruct (test_fn_inst f b i ltac:(by eapply list_elem_of_lookup_2) Hi) as (c & j & Hc & Hj & ->). by eapply dead_unread.
  - apply alike_runs; [|done]. unfold drop_self_moves, map_blocks. simpl.
    apply Forall2_fmap_r, Forall_Forall2_diag, list.Forall_forall. intros b Hb. split; [done|]. intros s s' Ha. simpl. apply self_moves_run; [| |done].
    + intros i Hi Hm. destruct (Hin1 b i Hb Hi) as (c & j & Hc & Hj & ->). pose proof (test_self_move f j Hm) as E. rewrite E in Hm |- *. by apply (pe_moves f Hr c j).
    + intros i Hi. destruct (Hin1 b i Hb Hi) as (c & j & Hc & Hj & ->). by eapply dead_unread.
Qed.

(** * Witness *)

#[export] Instance int_pre_laws : PreLaws Z Z (gmap Z Z).
Proof.
  split; simpl.
  - done.
  - intros size args w size' args' w'. by destruct size, size'.
  - intros size x w size' args w'. unfold int_sem. cbn -[trunc keep swrap Z.land Z.sub]. rewrite Z.land_diag. do 2 f_equal.
    replace (keep size' 0) with 0%Z by (by destruct size'). rewrite Z.sub_0_r.
    destruct (trunc_shift size size x) as [k ->]; [lia|]. apply swrap_add. by destruct size.
  - done.
Qed.

(** A switch on [v0 < 0] and [v0 == 5]: [v1 = 0; v0 = v0; if v0 < v1 ...; v2 = 5; if v0 == v2 ...]. *)
Definition zero_fn : X86Function :=
  {| xf_name := "z";
     xf_blocks :=
       [ {| xb_id := 0; xb_insts :=
              [ mk_inst MovRI [Imm 0] (Some (VReg (gp_vreg 1)));
                mk_inst MovRR [VReg (gp_vreg 0)] (Some (VReg (gp_vreg 0)));
                mk_inst Cmp [VReg (gp_vreg 0); VReg (gp_vreg 1)] None;
                mk_inst Jcc [Cond CcL; BlockRef 1] None;
                mk_inst MovRI [Imm 5] (Some (VReg (gp_vreg 2)));
                mk_inst Cmp [VReg (gp_vreg 0); VReg (gp_vreg 2)] None;
                mk_inst Jcc [Cond CcE; BlockRef 1] None;
                mk_inst Jmp [BlockRef 2] None ] |};
         {| xb_id := 1; xb_insts := [ mk_inst MovRI [Imm 7] (Some (Reg Rax)); mk_inst Ret [] None ] |};
         {| xb_id := 2; xb_insts := [ mk_inst MovRI [Imm 9] (Some (Reg Rax)); mk_inst Ret [] None ] |} ];
     rodata := []; rodata_bytes := []; frame_slots := [];
     outgoing_arg_bytes := 0; frame_bytes := 0; entry_live_ins := []; next_vreg := 3; next_block := 3 |}.

Lemma zero_fn_checked (P : X86Inst -> bool) :
  forallb (fun b => forallb P (xb_insts b)) (xf_blocks zero_fn) = true -> forall b i, b ∈ xf_blocks zero_fn -> i ∈ xb_insts b -> P i = true.
Proof. rewrite forallb_forall. intros H b i Hb Hi. specialize (H b ltac:(by apply list_elem_of_In)). rewrite forallb_forall in H. apply H. by apply list_elem_of_In. Qed.

Local Definition cmp_shaped (i : X86Inst) : bool :=
  implb (bool_decide (x_opcode i = Cmp)) ((length (x_operands i) =? 2)%nat && bool_decide (x_def i = None)).

Local Definition move_shaped (i : X86Inst) : bool :=
  implb (self_move i) (bool_decide (x_size i = SzQ) && (length (x_operands i) =? 1)%nat && bool_decide (is_Some (def_operand_vreg i))).

Lemma zero_fn_ready : pre_ready zero_fn.
Proof.
  split.
  - intros b i Hb Hi Eo.
    pose proof (zero_fn_checked cmp_shaped ltac:(vm_compute; reflexivity) b i Hb Hi) as H. unfold cmp_shaped in H.
    rewrite (bool_decide_eq_true_2 _ Eo) in H. apply andb_true_iff in H as [H1 H2]. split; [by apply Nat.eqb_eq|by apply bool_decide_eq_true in H2].
  - intros v b blk k i Hz Hu Hb Hi.
    assert (Hv : v = 1%N).
    { apply andb_true_iff in Hz as [_ Hz%bool_decide_eq_true]. assert (E : zero_site zero_fn = {[ 1%N := (0, 0)%nat ]}) by (vm_compute; reflexivity).
      rewrite E in Hz. destruct Hz as [s Hs]. by apply lookup_singleton_Some in Hs as [? _]. }
    subst v. assert (Hstart : b = 0%nat /\ k = 0%nat).
    { clear Hb Hi Hz. induction Hu as [|b' blk' k' i' _ [-> ->] Hb Hi _ Hd|b' blk' k' i' t s blk2 _ [-> ->] Hb Hi Ht _ _ _]; [done| |]; injection Hb as <-; injection Hi as <-; done. }
    destruct Hstart as [-> ->]. injection Hb as <-. injection Hi as <-. apply not_elem_of_nil.
  - intros b i Hb Hi Hm.
    pose proof (zero_fn_checked move_shaped ltac:(vm_compute; reflexivity) b i Hb Hi) as H. unfold move_shaped in H.
    rewrite Hm in H. apply andb_true_iff in H as [H H3]. apply andb_true_iff in H as [H1 H2].
    apply bool_decide_eq_true in H1, H3. apply Nat.eqb_eq in H2. split; [done|]. split; [done|].
    destruct H3 as [d Hd]. exists d. unfold def_operand_vreg in Hd. destruct (x_def i) as [[]|]; try done. by injection Hd as ->.
Qed.

Definition zero_start : mstate Z Z (gmap Z Z) :=
  {| ms_vregs := {[ 0%N := (-5)%Z ]}; ms_world := {| w_regs := ∅; w_flags := 0%Z; w_mem := ∅ |} |}.

(** The constant, the self-move and the comparison go; the branch is still taken. *)
Lemma peephole_pre_preserves_witness :
  exists g n st, run_peephole map_to_list zero_fn = Some (g, n) /\ run_function 2 g 0 zero_start = Left_ st /\ reg_val (ms_world st) Rax = 7%Z.
Proof.
  destruct (peephole_pre_preserves Z Z (gmap Z Z) int_machine map_to_list zero_fn int_pre_laws ltac:(intros m; reflexivity)
    ltac:(apply (bool_decide_unpack _); vm_compute; reflexivity) zero_fn_ready) as (g & n & E & H).
  specialize (H 2%nat _ zero_start eq_refl). simpl xb_id in H.
  destruct (run_function 2 zero_fn 0 zero_start) as [s|s|s] eqn:Es; [|vm_compute in Es; discriminate Es|vm_compute in Es; discriminate Es].
  destruct (run_function 2 g 0 zero_start) as [s'|s'|s'] eqn:Es'; [|exact (False_ind _ H)|exact (False_ind _ H)].
  exists g, n, s'. split; [exact E|]. split; [exact Es'|]. unfold reg_val. rewrite (ag_world _ _ _ H). vm_compute in Es. injection Es as <-. reflexivity.
Defined.
