(* ===== verification/X86Emit.v ===== *)
(** The assembly printer of the x86-64 backend (src/src/codegen/x86/emit.rs).

    Text is a list of lines until it is returned; [None] is a panic. *)

From stdpp Require Import pretty.
From S2P Require Import Prelude.
From stdpp Require Import list.
From S2P Require Import Slices X86Mir.

Local Open Scope string_scope.
Local Open Scope list_scope.

Definition nl : string := String (Ascii.ascii_of_nat 10) EmptyString.
Definition quote : string := String (Ascii.ascii_of_nat 34) EmptyString.

(** What a sequence of [writeln!]s leaves. *)
Definition unlines (ls : list string) : string := foldr (fun l s => l +:+ nl +:+ s) EmptyString ls.

(** * Labels *)

Definition symbol (name : string) : string := name.

Definition block_label_by_id (func : X86Function) (id : MBlockId) : string := ".L" +:+ xf_name func +:+ "_" +:+ pretty id.

Definition block_label (func : X86Function) (block_idx : nat) : option string :=
  block_label_by_id func ∘ xb_id <$> xf_blocks func !! block_idx.

(** * Operands *)

Definition operand (op : X86Operand) (size : OpSize) : option string :=
  match op with
  | Reg r => Some (reg_name r size)
  | Imm v => Some ("$" +:+ pretty v)
  | Mem base index scale disp =>
      Some ((if negb (disp =? 0)%Z || (bool_decide (base = None) && bool_decide (index = None)) then pretty disp else EmptyString) +:+
            "(" +:+ from_option (fun b => reg_name b SzQ) EmptyString base +:+
            from_option (fun i => "," +:+ reg_name i SzQ +:+ "," +:+ pretty scale) EmptyString index +:+ ")")
  | RipLabel l => Some (l +:+ "(%rip)")
  | Extern name => Some (symbol name)
  | VReg _ | FrameSlot _ | Cond _ | BlockRef _ => None
  end.

(** The tie assertion: the operand the printer leaves out must be the definition. *)
Definition assert_tie (i : X86Inst) : option unit :=
  match tied_use (x_opcode i) with
  | Some idx => def ← x_def i; tied ← x_operands i !! idx; if bool_decide (def = tied) then Some tt else None
  | None => Some tt
  end.

(** * Instructions *)

Definition one (mn : string) (a : option string) : option string := (fun a => mn +:+ " " +:+ a) <$> a.

Definition two (mn : string) (a b : option string) : option string :=
  a ← a; b ← b; Some (mn +:+ " " +:+ a +:+ ", " +:+ b).

Definition three (mn : string) (a b c : option string) : option string :=
  a ← a; b ← b; c ← c; Some (mn +:+ " " +:+ a +:+ ", " +:+ b +:+ ", " +:+ c).

(** Mnemonics of the groups of opcodes that print alike. *)
Definition sse_mnemonic (op : X86Opcode) : string :=
  match op with
  | Addss => "addss" | Addsd => "addsd" | Subss => "subss" | Subsd => "subsd" | Mulss => "mulss" | Mulsd => "mulsd"
  | Divss => "divss" | Divsd => "divsd" | Xorps => "xorps" | Xorpd => "xorpd" | Andps => "andps" | _ => "andpd"
  end.

Definition packed_mnemonic (op : X86Opcode) : string :=
  match op with
  | Addps => "addps" | Addpd => "addpd" | Subps => "subps" | Subpd => "subpd" | Mulps => "mulps" | Mulpd => "mulpd"
  | Divps => "divps" | Divpd => "divpd" | Minps => "minps" | Minpd => "minpd" | Maxps => "maxps" | Maxpd => "maxpd"
  | Paddd => "paddd" | Paddq => "paddq" | Psubd => "psubd" | Psubq => "psubq" | Pmuludq => "pmuludq"
  | Pand => "pand" | Pandn => "pandn" | Por => "por" | Pxor => "pxor" | Pcmpgtd => "pcmpgtd" | Pcmpeqd => "pcmpeqd"
  | Movhlps => "movhlps" | Unpcklpd => "unpcklpd" | _ => "punpcklqdq"
  end.

Definition shift_mnemonic (op : X86Opcode) : string := match op with Shl => "shl" | Shr => "shr" | _ => "sar" end.

Definition shift_count (op : option X86Operand) : option string :=
  match op with
  | Some (Imm v) => Some ("$" +:+ pretty v)
  | Some (Reg Rcx) => Some "%cl"
  | _ => None
  end.

Definition emit_inst (i : X86Inst) (func : X86Function) : option string :=
  _ ← assert_tie i;
  let s := x_size i in
  let suf := size_suffix s in
  let def := d ← x_def i; operand d s in
  let at_size k sz := o ← x_operands i !! k; operand o sz in
  let op k := at_size k s in
  let opq k := at_size k SzQ in
  let cond k := match x_operands i !! k with Some (Cond c) => Some c | _ => None end in
  let block k := match x_operands i !! k with Some (BlockRef id) => Some (block_label_by_id func id) | _ => None end in
  match x_opcode i with
  | MovRR | MovRM | MovRI => two ("mov" +:+ suf) (op 0%nat) def
  | MovMR | MovMI => two ("mov" +:+ suf) (op 0%nat) (op 1%nat)
  | Movsx src | MovsxRM src => two ("movs" +:+ size_suffix src +:+ suf) (at_size 0%nat src) def
  | Movzx src | MovzxRM src =>
      if bool_decide (src = SzL) && bool_decide (s = SzQ) then None
      else two ("movz" +:+ size_suffix src +:+ suf) (at_size 0%nat src) def
  | Lea => two ("lea" +:+ suf) (op 0%nat) def
  | Add => two ("add" +:+ suf) (op 1%nat) def
  | Sub => two ("sub" +:+ suf) (op 1%nat) def
  | Adc => two ("adc" +:+ suf) (op 1%nat) def
  | Sbb => two ("sbb" +:+ suf) (op 1%nat) def
  | Imul => two ("imul" +:+ suf) (op 1%nat) def
  | And => two ("and" +:+ suf) (op 1%nat) def
  | Or => two ("or" +:+ suf) (op 1%nat) def
  | Xor => two ("xor" +:+ suf) (op 1%nat) def
  | Neg => one ("neg" +:+ suf) def
  | Not => one ("not" +:+ suf) def
  | Shl | Shr | Sar => two (shift_mnemonic (x_opcode i) +:+ suf) (shift_count (x_operands i !! 1%nat)) def
  | Bsr => two ("bsr" +:+ suf) (op 0%nat) def
  | Bsf => two ("bsf" +:+ suf) (op 0%nat) def
  | Cltd => Some "cltd"
  | Cqto => Some "cqto"
  | Idiv => one ("idiv" +:+ suf) (op 0%nat)
  | Cmp => two ("cmp" +:+ suf) (op 1%nat) (op 0%nat)
  | Test_ => two ("test" +:+ suf) (op 1%nat) (op 0%nat)
  | Setcc => c ← cond 0%nat; one ("set" +:+ cond_mnemonic c) (d ← x_def i; operand d SzB)
  | Jmp => one "jmp" (block 0%nat)
  | Jcc => c ← cond 0%nat; one ("j" +:+ cond_mnemonic c) (block 1%nat)
  | Call => one "call" (opq 0%nat)
  | CallReg => (fun t => "call *" +:+ t) <$> opq 0%nat
  | MovqGpToXmm | MovqXmmToGp => two "movq" (opq 0%nat) def
  | Ret => Some ("movq %rbp, %rsp" +:+ nl +:+ "    popq %rbp" +:+ nl +:+ "    ret")
  | Push => one "pushq" (opq 0%nat)
  | Pop => one "popq" (opq 0%nat)
  | Movss => two "movss" (op 0%nat) def
  | Movsd => two "movsd" (op 0%nat) def
  | Addss | Addsd | Subss | Subsd | Mulss | Mulsd | Divss | Divsd | Xorps | Xorpd | Andps | Andpd =>
      two (sse_mnemonic (x_opcode i)) (op 1%nat) def
  | Sqrtss => two "sqrtss" (op 0%nat) def
  | Sqrtsd => two "sqrtsd" (op 0%nat) def
  | Addps | Addpd | Subps | Subpd | Mulps | Mulpd | Divps | Divpd | Minps | Minpd | Maxps | Maxpd
  | Paddd | Paddq | Psubd | Psubq | Pmuludq | Pand | Pandn | Por | Pxor | Pcmpgtd | Pcmpeqd
  | Movhlps | Unpcklpd | Punpcklqdq => two (packed_mnemonic (x_opcode i)) (op 1%nat) def
  | Movups => two "movups" (op 0%nat) def
  | Movaps => two "movaps" (op 0%nat) def
  | Sqrtps => two "sqrtps" (op 0%nat) def
  | Sqrtpd => two "sqrtpd" (op 0%nat) def
  | Cmpps => three "cmpps" (op 2%nat) (op 1%nat) def
  | Cmppd => three "cmppd" (op 2%nat) (op 1%nat) def
  | Pshufd => three "pshufd" (op 1%nat) (op 0%nat) def
  | Shufps => three "shufps" (op 2%nat) (op 1%nat) def
  | Movd => match s with SzQ => two "movq" (op 0%nat) def | _ => two "movd" (op 0%nat) def end
  | Ucomiss => two "ucomiss" (op 1%nat) (op 0%nat)
  | Ucomisd => two "ucomisd" (op 1%nat) (op 0%nat)
  | Cvtsi2ss => two ("cvtsi2ss" +:+ suf) (op 0%nat) def
  | Cvtsi2sd => two ("cvtsi2sd" +:+ suf) (op 0%nat) def
  | Cvttss2si => two ("cvttss2si" +:+ suf) (op 0%nat) def
  | Cvttsd2si => two ("cvttsd2si" +:+ suf) (op 0%nat) def
  | Cvtss2sd => two "cvtss2sd" (op 0%nat) def
  | Cvtsd2ss => two "cvtsd2ss" (op 0%nat) def
  end.

(** * Functions *)

Definition indent (s : string) : string := "    " +:+ s.

Definition sub_rsp (n : Z) : string := indent ("subq $" +:+ pretty n +:+ ", %rsp").
Definition touch_rsp : string := indent "orq $0, (%rsp)".

(** The stack allocation: one step for a page, probed strides beyond it. *)
Definition stack_lines (frame : Z) : list string :=
  if (0 <? frame)%Z then
    if (frame <=? 4096)%Z then [sub_rsp frame]
    else
      let pages := Z.to_nat (frame / 4096) in
      let residual := (frame mod 4096)%Z in
      mjoin (replicate pages [sub_rsp 4096; touch_rsp]) ++ (if (0 <? residual)%Z then [sub_rsp residual] else [])
  else [].

Definition prologue_lines (func : X86Function) : list string :=
  let name := symbol (xf_name func) in
  [".text"; ".globl " +:+ name; ".p2align 4"; ".type " +:+ name +:+ ",@function"; name +:+ ":";
   "    pushq %rbp"; "    movq %rsp, %rbp"] ++ stack_lines (frame_bytes func).

Definition block_lines (func : X86Function) (idx : nat) (b : X86Block) : option (list string) :=
  label ← (if bool_decide (idx = 0%nat) then Some [] else (fun l => [l +:+ ":"]) <$> block_label func idx);
  insts ← mapM (fun i => indent <$> emit_inst i func) (xb_insts b);
  Some (label ++ insts).

Definition function_lines (func : X86Function) : option (list string) :=
  blocks ← mapM (fun p => block_lines func p.1 p.2) (imap pair (xf_blocks func));
  let name := symbol (xf_name func) in
  Some (prologue_lines func ++ mjoin blocks ++ [".size " +:+ name +:+ ", .-" +:+ name]).

Definition emit_function (func : X86Function) : option string := unlines <$> function_lines func.

(** * Data *)

Definition hex_digit (n : Z) : Ascii.ascii :=
  Ascii.ascii_of_nat (Z.to_nat (if n <? 10 then 48 + n else 87 + n)%Z).

(** [{:016x}] of a [u64]. *)
Fixpoint hex_digits (k : nat) (n : Z) : string :=
  match k with
  | O => EmptyString
  | S k => String (hex_digit (Z.land (Z.shiftr n (4 * Z.of_nat k)) 15)) (hex_digits k n)
  end.

Definition rodata_f64_lines (label : string) (bits : Z) : list string :=
  [".section .rodata"; ".p2align 3"; label +:+ ":"; "    .quad 0x" +:+ hex_digits 16 bits].

Definition emit_rodata_f64 (label : string) (bits : Z) : string := unlines (rodata_f64_lines label bits).

(** [chunks(n)]: consecutive pieces of [n] elements, the last one shorter. *)
Fixpoint chunks {A} (fuel n : nat) (l : list A) : list (list A) :=
  match fuel, l with
  | S fuel, _ :: _ => take n l :: chunks fuel n (drop n l)
  | _, _ => []
  end.

Definition join_commas (l : list string) : string :=
  match l with [] => EmptyString | s :: l => foldl (fun acc t => acc +:+ "," +:+ t) s l end.

Definition byte_line (chunk : list N) : string := "    .byte " +:+ join_commas (pretty <$> chunk).

Definition rodata_bytes_lines (label : string) (bytes : list N) : list string :=
  [".section .rodata"; label +:+ ":"] ++ (byte_line <$> chunks (length bytes) 16 bytes).

Definition emit_rodata_bytes (label : string) (bytes : list N) : string := unlines (rodata_bytes_lines label bytes).

Definition emit_data_quad (name : string) (value : Z) (hidden : bool) : string :=
  let sym := symbol name in
  unlines ([".data"; ".globl " +:+ sym] ++ (if hidden then [".hidden " +:+ sym] else []) ++
           [".p2align 3"; ".type " +:+ sym +:+ ",@object"; ".size " +:+ sym +:+ ", 8"; sym +:+ ":"; "    .quad " +:+ pretty value]).

(** * Stack probes

    The guard page below the stack is one page: between two touches of the stack the
    pointer may move by at most a page. *)

Inductive stack_step := Move (n : Z) | Touch.

Definition show_step (s : stack_step) : string := match s with Move n => sub_rsp n | Touch => touch_rsp end.

Definition total_move (steps : list stack_step) : Z := foldr (fun s n => match s with Move k => k + n | Touch => n end)%Z 0%Z steps.

(** [acc] bytes below the last touch, the steps keep within a page of it. *)
Fixpoint probed (acc : Z) (steps : list stack_step) : bool :=
  match steps with
  | [] => true
  | Move n :: rest => (acc + n <=? 4096)%Z && probed (acc + n) rest
  | Touch :: rest => probed 0 rest
  end.

Lemma pages_probed n rest : probed 0 rest = true ->
  probed 0 (mjoin (replicate n [Move 4096; Touch]) ++ rest) = true /\
  total_move (mjoin (replicate n [Move 4096; Touch]) ++ rest) = (4096 * Z.of_nat n + total_move rest)%Z.
Proof.
  intros H. induction n as [|n [IH1 IH2]]; [split; [done|]; simpl; lia|]. simpl in *. split; [done|]. unfold total_move in *. simpl. lia.
Qed.

(** C18: The prologue allocates exactly the frame, and never moves the stack pointer more
    than a page below the last address it touched, whatever the size of the frame. *)
Theorem prologue_probes frame :
  (0 <= frame)%Z -> exists steps, stack_lines frame = show_step <$> steps /\ total_move steps = frame /\ probed 0 steps = true.
Proof.
  intros Hf. unfold stack_lines. destruct (Z.ltb_spec 0 frame) as [Hpos|Hz]; [|exists []; split; [done|]; split; [simpl; lia|done]].
  destruct (Z.leb_spec frame 4096) as [Hle|Hgt]; [exists [Move frame]; split; [done|]; split; [simpl; lia|]; simpl; by rewrite (proj2 (Z.leb_le _ _)) by lia|].
  set (rest := if (0 <? frame mod 4096)%Z then [Move (frame mod 4096)] else []).
  pose proof (Z.mod_pos_bound frame 4096 ltac:(lia)) as Hm. pose proof (Z.div_mod frame 4096 ltac:(lia)) as Hd. pose proof (Z.div_pos frame 4096 ltac:(lia) ltac:(lia)).
  assert (Hrest : probed 0 rest = true /\ total_move rest = (frame mod 4096)%Z).
  { unfold rest. destruct (Z.ltb_spec 0 (frame mod 4096)); simpl; [rewrite (proj2 (Z.leb_le _ _)) by lia|]; split; try done; lia. }
  destruct Hrest as [Hp Ht]. destruct (pages_probed (Z.to_nat (frame / 4096)) rest Hp) as [H1 H2].
  exists (mjoin (replicate (Z.to_nat (frame / 4096)) [Move 4096; Touch]) ++ rest). split; [|split; [rewrite H2, Ht; lia|done]].
  rewrite fmap_app. f_equal; [|unfold rest; by destruct (0 <? _)%Z]. generalize (Z.to_nat (frame / 4096)). intros n. induction n as [|n IH]; [done|]. simpl. by rewrite IH.
Qed.

Lemma prologue_probes_witness : exists steps, stack_lines 10000 = show_step <$> steps /\ total_move steps = 10000%Z.
Proof. destruct (prologue_probes 10000 ltac:(lia)) as (steps & H1 & H2 & _). exists steps. split; [exact H1|exact H2]. Defined.
