(* ===== verification/X86Shape.v ===== *)
(** The shape of machine instructions: which operands an opcode has.

    The printer (src/src/codegen/x86/emit.rs) panics on an instruction that lacks an
    operand, carries a virtual register or a frame slot, or whose definition is not the
    operand it is tied to.  What follows states the shape instruction selection gives to
    instructions, that the printer accepts allocated instructions of that shape, and that
    every pass between the two keeps it. *)

From S2P Require Import Prelude.
From stdpp Require Import list.
From S2P Require Import Slices X86Mir X86Liveness X86LinearScan X86Apply X86Sem TwoAddr X86Peephole X86Emit.

(** * Signatures of opcodes *)

Inductive kind := KVal | KCond | KBlock | KCount.

Definition value_operand (op : X86Operand) : bool := match op with Cond _ | BlockRef _ => false | _ => true end.

Definition kind_ok (k : kind) (op : X86Operand) : bool :=
  match k, op with
  | KVal, _ => value_operand op
  | KCond, Cond _ => true
  | KBlock, BlockRef _ => true
  | KCount, (Imm _ | Reg Rcx) => true
  | _, _ => false
  end.

(** The operands an opcode needs, and whether it needs a definition. *)
Definition operand_kinds (op : X86Opcode) : list kind :=
  match op with
  | MovMR | MovMI | Cmp | Test_ | Ucomiss | Ucomisd | Pshufd => [KVal; KVal]
  | Neg | Not => [KVal]
  | Shl | Shr | Sar => [KVal; KCount]
  | Cltd | Cqto | Ret => []
  | Setcc => [KCond]
  | Jmp => [KBlock]
  | Jcc => [KCond; KBlock]
  | Cmpps | Cmppd | Shufps => [KVal; KVal; KVal]
  | _ => match tied_use op with Some _ => [KVal; KVal] | None => [KVal] end
  end.

Definition has_def (op : X86Opcode) : bool :=
  match op with
  | MovMR | MovMI | Cmp | Test_ | Ucomiss | Ucomisd | Cltd | Cqto | Ret | Idiv | Jmp | Jcc | Call | CallReg | Push | Pop => false
  | _ => true
  end.

Fixpoint kinds_ok (ks : list kind) (ops : list X86Operand) : bool :=
  match ks, ops with
  | [], _ => true
  | k :: ks, op :: ops => kind_ok k op && kinds_ok ks ops
  | _ :: _, [] => false
  end.

(** [movzlq] does not exist. *)
Definition extension_ok (i : X86Inst) : bool :=
  match x_opcode i with
  | Movzx src | MovzxRM src => negb (bool_decide (src = SzL) && bool_decide (x_size i = SzQ))
  | _ => true
  end.

Definition def_ok (i : X86Inst) : bool := negb (has_def (x_opcode i)) || from_option value_operand false (x_def i).

Definition shape_ok (i : X86Inst) : bool := kinds_ok (operand_kinds (x_opcode i)) (x_operands i) && def_ok i && extension_ok i.

(** What the printer prints. *)
Record printable (i : X86Inst) : Prop := {
  pb_shape : shape_ok i = true;
  pb_physical : physical i = true;
  pb_tied : tied_ok i }.

(** * The printer *)

Lemma kinds_ok_lookup ks ops k kd : kinds_ok ks ops = true -> ks !! k = Some kd -> exists o, ops !! k = Some o /\ kind_ok kd o = true.
Proof.
  revert ops k. induction ks as [|k0 ks IH]; intros ops k H Hk; [done|]. destruct ops as [|o ops]; [done|].
  simpl in H. apply andb_true_iff in H as [H1 H2]. destruct k as [|k]; [injection Hk as <-; eauto|]. by apply (IH ops k).
Qed.

Lemma operand_prints op size : physical_operand op = true -> value_operand op = true -> is_Some (operand op size).
Proof. destruct op; simpl; intros; try done; eauto. Qed.

Lemma physical_lookup i k o : physical i = true -> x_operands i !! k = Some o -> physical_operand o = true.
Proof. intros H Hk. apply andb_true_iff in H as [H _]. rewrite forallb_forall in H. apply H, list_elem_of_In. by eapply list_elem_of_lookup_2. Qed.

Lemma two_prints mn a b : is_Some a -> is_Some b -> is_Some (two mn a b).
Proof. intros [? ->] [? ->]. by eexists. Qed.

Lemma three_prints mn a b c : is_Some a -> is_Some b -> is_Some c -> is_Some (three mn a b c).
Proof. intros [? ->] [? ->] [? ->]. by eexists. Qed.

Lemma one_prints mn a : is_Some a -> is_Some (one mn a).
Proof. intros [? ->]. by eexists. Qed.

Lemma tied_use_zero op t : tied_use op = Some t -> t = 0%nat.
Proof. destruct op; by intros [= <-]. Qed.

Lemma tie_holds i : tied_ok i -> assert_tie i = Some tt.
Proof.
  unfold assert_tie, tied_ok. destruct (tied_use (x_opcode i)) as [t|] eqn:E; [|done]. apply tied_use_zero in E as ->.
  intros (a & rest & -> & ->); [eauto|]. cbn [mbind option_bind lookup list_lookup]. by rewrite bool_decide_eq_true_2.
Qed.

(** Every allocated instruction of the right shape prints. *)
Lemma emit_inst_total i func : printable i -> is_Some (emit_inst i func).
Proof.
  intros [Hs Hp Ht]. unfold emit_inst. rewrite (tie_holds i Ht). cbn [mbind option_bind].
  apply andb_true_iff in Hs as [[Hk Hd]%andb_true_iff He].
  assert (Hv : forall k sz, operand_kinds (x_opcode i) !! k = Some KVal -> is_Some (o ← x_operands i !! k; operand o sz)).
  { intros k sz H. destruct (kinds_ok_lookup _ _ _ _ Hk H) as (o & Ho & Hko). rewrite Ho. cbn [mbind option_bind]. apply operand_prints; [|done]. by eapply physical_lookup. }
  assert (Hdef : forall sz, has_def (x_opcode i) = true -> is_Some (d ← x_def i; operand d sz)).
  { intros sz H. unfold def_ok in Hd. rewrite H in Hd. simpl in Hd. apply andb_true_iff in Hp as [_ Hp]. destruct (x_def i) as [d|]; [|done]. by apply operand_prints. }
  assert (Hc : forall k kd, operand_kinds (x_opcode i) !! k = Some kd -> exists o, x_operands i !! k = Some o /\ kind_ok kd o = true) by (intros; by eapply kinds_ok_lookup).
  unfold extension_ok in He. destruct (x_opcode i); try (by eexists);
    try (apply two_prints; first [by apply (Hv 0%nat)|by apply (Hv 1%nat)|by apply Hdef|idtac]);
    try (apply three_prints; first [by apply (Hv 0%nat)|by apply (Hv 1%nat)|by apply (Hv 2%nat)|by apply Hdef]);
    try (apply one_prints; first [by apply (Hv 0%nat)|by apply Hdef]).
  all: try (destruct (x_size i); apply two_prints; first [by apply (Hv 0%nat)|by apply Hdef]).
  all: try (apply negb_true_iff in He; rewrite He; apply two_prints; first [by apply (Hv 0%nat)|by apply Hdef]).
  all: try (destruct (Hc 1%nat KCount eq_refl) as (o & -> & Ho); destruct o as [|[]| | | | | | |]; try done; by eexists).
  - destruct (Hv 0%nat SzQ eq_refl) as [t ->]. by eexists.
  - destruct (Hc 0%nat KCond eq_refl) as (o & -> & Ho). destruct o; try done. cbn [mbind option_bind]. apply one_prints. by apply Hdef.
  - destruct (Hc 0%nat KBlock eq_refl) as (o & -> & Ho). destruct o; try done.
  - destruct (Hc 0%nat KCond eq_refl) as (o & -> & Ho), (Hc 1%nat KBlock eq_refl) as (o' & -> & Ho'). destruct o, o'; try done.
Qed.

(** * Register allocation *)

(** An instruction the printer accepts once its registers are assigned. *)
Definition well_shaped (i : X86Inst) : Prop := shape_ok i = true /\ tied_ok i.

Lemma untied_ok i : tied_use (x_opcode i) = None -> tied_ok i.
Proof. intros E [t Ht]. congruence. Qed.

Lemma load_shaped r c m size : value_operand m = true -> well_shaped (load r c m size).
Proof.
  intros H. unfold load. split.
  - destruct c; unfold shape_ok; simpl; try (by rewrite H); case_bool_decide; simpl; by rewrite H.
  - apply untied_ok. destruct c; try done; simpl; by case_bool_decide.
Qed.

Lemma store_shaped r c m size : value_operand m = true -> well_shaped (store r c m size).
Proof.
  intros H. unfold store. split.
  - destruct c; unfold shape_ok, def_ok; simpl; rewrite ?H; try done; case_bool_decide; simpl; by rewrite ?H.
  - apply untied_ok. destruct c; try done; simpl; by case_bool_decide.
Qed.

Section rewriting.
Context (l : layout) (check : bool) (place : X86VReg -> option Resolved).

Lemma mem_for_slot_value z m : mem_for_slot l z = Some m -> value_operand m = true.
Proof. unfold mem_for_slot. destruct (ly_disp l !! z); [|done]. by intros [= <-]. Qed.

Lemma next_scratch_pre c st r st' : next_scratch c st = Some (r, st') -> st_pre st' = st_pre st.
Proof. unfold next_scratch. by destruct (is_fp_class c); intros (? & _ & [= _ ->])%fmap_Some. Qed.

Lemma reload_shaped c z size st r st' :
reload l c z size st = Some (r, st') -> Forall well_shaped (st_pre st) -> Forall well_shaped (st_pre st').
Proof.
unfold reload. destruct (next_scratch c st) as [[r0 st0]|] eqn:E; [|done]. cbn [mbind option_bind].
destruct (mem_for_slot l z) as [m|] eqn:Em; [|done]. cbn [mbind option_bind]. intros [= <- <-] H. simpl.
rewrite (next_scratch_pre _ _ _ _ E). apply list.Forall_app. split; [done|]. repeat constructor; apply load_shaped; by eapply mem_for_slot_value.
Qed.

Lemma rewrite_use_shaped i k op st op' st' :
rewrite_use l check place i k op st = Some (op', st') -> Forall well_shaped (st_pre st) ->
Forall well_shaped (st_pre st') /\ forall kd, kind_ok kd op = true -> kind_ok kd op' = true.
Proof.
unfold rewrite_use. destruct op as [v| | |z| | | | |]; try (by intros [= <- <-]).
- destruct (place v) as [[r|z]|]; [intros [= <- <-]; split; [done|]; intros [] ?; try done; by case_bool_decide| |done].
destruct (width_ok l check (vr_class v) z); [|done].
destruct (reload l _ _ _ st) as [[r st1]|] eqn:E; [|done]. cbn [mbind option_bind]. intros [= <- <-] H.
split; [by eapply reload_shaped|]. intros [] ?; try done; by case_bool_decide.
- destruct (mem_for_slot l z) as [m|] eqn:Em; [|done]. cbn [mbind option_bind]. intros [= <- <-] H. split; [done|].
intros [] ?; try done. simpl. by eapply mem_for_slot_value.
Qed.

Lemma rewrite_uses_shaped i k ops st ops' st' :
rewrite_uses l check place i k ops st = Some (ops', st') -> Forall well_shaped (st_pre st) ->
Forall well_shaped (st_pre st') /\ forall ks, kinds_ok ks ops = true -> kinds_ok ks ops' = true.
Proof.
revert k st ops'. induction ops as [|op ops IH]; intros k st ops'; cbn [rewrite_uses]; [by intros [= <- <-]|].
destruct (rewrite_use l check place i k op st) as [[op1 st1]|] eqn:E1; [|done]. cbn [mbind option_bind].
destruct (rewrite_uses l check place i (S k) ops st1) as [[rest st2]|] eqn:E2; [|done]. cbn [mbind option_bind]. intros [= <- <-] H.
destruct (rewrite_use_shaped _ _ _ _ _ _ E1 H) as [H1 Hk]. destruct (IH _ _ _ E2 H1) as [H2 Hks]. split; [done|].
intros [|kd ks]; [done|]. simpl. intros [Ha Hb]%andb_true_iff. by rewrite (Hk _ Ha), (Hks _ Hb).
Qed.

Lemma rewrite_def_shaped i st d wb st' :
rewrite_def l check place i st = Some (d, wb, st') -> Forall well_shaped (st_pre st) ->
Forall well_shaped (st_pre st') /\ (from_option value_operand false (x_def i) = true -> from_option value_operand false d = true).
Proof.
unfold rewrite_def. destruct (x_def i) as [[v| | |z| | | | |]|]; try (by intros [= <- <- <-]).
- destruct (place v) as [[r|z]|]; [intros [= <- <- <-]; split; [done|]; intros _; by case_match| |done].
destruct (width_ok l check (vr_class v) z); [|done]. destruct (fp_store_addr_vreg i).
+ destruct (reload l _ _ _ st) as [[r st1]|] eqn:E; [|done]. cbn [mbind option_bind]. intros [= <- <- <-] H. split; [by eapply reload_shaped|done].
+ destruct (next_scratch _ st) as [[r st1]|] eqn:E; [|done]. cbn [mbind option_bind]. intros [= <- <- <-] H. by rewrite (next_scratch_pre _ _ _ _ E).
- destruct (mem_for_slot l z) as [m|] eqn:Em; [|done]. cbn [mbind option_bind]. intros [= <- <- <-] H. split; [done|]. intros _. simpl. by eapply mem_for_slot_value.
Qed.

Lemma write_back_shaped i wb tail : write_back_inst l i wb = Some tail -> Forall well_shaped tail.
Proof.
unfold write_back_inst. destruct wb as [[[r c] z]|]; [|by intros [= <-]].
destruct (mem_for_slot l z) as [m|] eqn:Em; [|done]. cbn [mbind option_bind]. intros [= <-]. repeat constructor; apply store_shaped; by eapply mem_for_slot_value.
Qed.

(** Operands that are not virtual registers are rewritten alike as uses and definitions. *)
Lemma rewrite_fixed i op st op' st' d wb st1 st2 i' :
(forall v, op <> VReg v) -> x_def i' = Some op ->
rewrite_use l check place i 0 op st = Some (op', st') -> rewrite_def l check place i' st1 = Some (d, wb, st2) -> d = Some op'.
Proof.
intros Hv Ed. unfold rewrite_use, rewrite_def. rewrite Ed. destruct op as [v| | |z| | | | |]; try (by intros [= <- _] [= <- _ _]).
- by destruct (Hv v).
- destruct (mem_for_slot l z); [|done]. cbn [mbind option_bind]. by intros [= <- _] [= <- _ _].
Qed.

Lemma shape_ok_intro op size ops d :
kinds_ok (operand_kinds op) ops = true -> (has_def op = true -> from_option value_operand false d = true) ->
extension_ok {| x_opcode := op; x_size := size; x_operands := ops; x_def := d |} = true ->
shape_ok {| x_opcode := op; x_size := size; x_operands := ops; x_def := d |} = true.
Proof. intros H1 H2 H3. unfold shape_ok, def_ok. simpl in *. rewrite H1, H3. destruct (has_def op); [by rewrite H2|done]. Qed.

Lemma shape_ok_elim i :
shape_ok i = true -> kinds_ok (operand_kinds (x_opcode i)) (x_operands i) = true /\
(has_def (x_opcode i) = true -> from_option value_operand false (x_def i) = true) /\ extension_ok i = true.
Proof. intros [[H1 H2]%andb_true_iff H3]%andb_true_iff. split; [done|]. split; [|done]. unfold def_ok in H2. intros E. by rewrite E in H2. Qed.

Lemma rewrite_inst_shaped i out : well_shaped i -> rewrite_inst l check place i = Some out -> Forall well_shaped out.
Proof.
intros [Hs Ht]. destruct (shape_ok_elim i Hs) as (Hk & Hd & He). unfold rewrite_inst. destruct (is_tied i) as [v|] eqn:Eti.
- destruct (is_tied_Some i v Eti) as (ops & d & Eo & Ed). rewrite Eo in *. cbn [drop] in *. rewrite drop_0.
destruct (rewrite_tied l place i v _) as [[[r wb] st]|] eqn:Er; [|done]. cbn [mbind option_bind].
assert (Hst : Forall well_shaped (st_pre st)).
{ unfold rewrite_tied in Er. destruct (place v) as [[r0|z]|]; [by injection Er as _ _ <-| |done].
destruct (reload l _ _ _ _) as [[r1 st1]|] eqn:Ere; [|done]. cbn [mbind option_bind] in Er. injection Er as _ _ <-. by eapply reload_shaped. }
destruct (rewrite_uses l check place _ 1 ops st) as [[ops' st2]|] eqn:Eu; [|done]. cbn [mbind option_bind].
destruct (rewrite_uses_shaped _ _ _ _ _ _ Eu Hst) as [Hst2 Hks].
destruct (write_back_inst l i wb) as [tail|] eqn:Ew; [|done]. cbn [mbind option_bind]. intros [= <-].
apply list.Forall_app. split; [done|]. constructor; [|by eapply write_back_shaped]. split.
+ apply shape_ok_intro; [|done|done]. destruct (operand_kinds (x_opcode i)) as [|kd ks] eqn:Ek; [done|]. simpl in Hk |- *.
apply andb_true_iff in Hk as [Hk1 Hk2]. apply andb_true_iff. split; [|by apply Hks]. by destruct kd.
+ intros _. by eexists _, _.
- destruct (rewrite_uses l check place i 0 (x_operands i) _) as [[ops' st]|] eqn:Eu; [|done]. cbn [mbind option_bind].
destruct (rewrite_uses_shaped _ _ _ _ _ _ Eu) as [Hst Hks]; [constructor|].
destruct (rewrite_def l check place _ st) as [[[d wb] st2]|] eqn:Er; [|done]. cbn [mbind option_bind].
destruct (rewrite_def_shaped _ _ _ _ _ Er Hst) as [Hst2 Hdv].
destruct (write_back_inst l i wb) as [tail|] eqn:Ew; [|done]. cbn [mbind option_bind]. intros [= <-].
apply list.Forall_app. split; [done|]. constructor; [|by eapply write_back_shaped]. split.
+ apply shape_ok_intro; [by apply Hks|intros Eh; by apply Hdv, Hd|done].
+ intros Hti. destruct (Ht Hti) as (a & rest & Eo & Ed). rewrite Eo in Eu. cbn [rewrite_uses] in Eu.
destruct (rewrite_use l check place i 0 a _) as [[a' sta]|] eqn:Ea; [|done]. cbn [mbind option_bind] in Eu.
destruct (rewrite_uses l check place i 1 rest sta) as [[rest' str]|]; [|done]. cbn [mbind option_bind] in Eu. injection Eu as <- <-.
exists a', rest'. split; [done|]. eapply (rewrite_fixed i a); [|exact Ed|exact Ea|exact Er].
intros v ->. unfold is_tied in Eti. destruct Hti as [t Htu]. cbn [x_opcode] in Htu. rewrite Htu, Ed, Eo in Eti. cbn [lookup list_lookup] in Eti. by rewrite bool_decide_eq_true_2 in Eti.
Qed.

End rewriting.

Definition each_inst (P : X86Inst -> Prop) (f : X86Function) : Prop := forall b i, b ∈ xf_blocks f -> i ∈ xb_insts b -> P i.

(** What a pass leaves alone: names and data. *)
Record same_data (f g : X86Function) : Prop := {
  sd_name : xf_name g = xf_name f;
  sd_pool : rodata g = rodata f /\ rodata_bytes g = rodata_bytes f;
  sd_ids : xb_id <$> xf_blocks g = xb_id <$> xf_blocks f }.

#[global] Instance same_data_refl : Reflexive same_data.
Proof. done. Qed.

#[global] Instance same_data_trans : Transitive same_data.
Proof. intros f g h [A1 [A2 A3] A4] [B1 [B2 B3] B4]. split; [congruence|split; congruence|congruence]. Qed.

Lemma mapM_Forall {A B} (g : A -> option B) (P : B -> Prop) l ys :
  mapM g l = Some ys -> (forall x y, x ∈ l -> g x = Some y -> P y) -> Forall P ys.
Proof.
  intros E%mapM_Some H. apply list.Forall_forall. intros y [k Hk]%list_elem_of_lookup.
  destruct (Forall2_lookup_r _ _ _ _ _ E Hk) as (x & Hx & Hg). eapply H; [by eapply list_elem_of_lookup_2|done].
Qed.

Lemma elem_of_number_insts pos l p i : (p, i) ∈ number_insts pos l -> i ∈ l.
Proof.
  revert pos. induction l as [|j l IH]; intros pos H; [by apply elem_of_nil in H|]. simpl in H.
  apply elem_of_cons in H as [[= _ ->]|H]; [left|right; by eapply IH].
Qed.

Lemma elem_of_number_blocks pos bs nb : nb ∈ number_blocks pos bs -> exists b p, b ∈ bs /\ nb_insts nb = number_insts p (xb_insts b).
Proof.
  revert pos. induction bs as [|b bs IH]; intros pos H; [by apply elem_of_nil in H|]. simpl in H.
  apply elem_of_cons in H as [->|H]; [exists b, pos; split; [left|done]|]. destruct (IH _ H) as (c & p & Hc & E). exists c, p. split; [by right|done].
Qed.

Lemma alloc_saves_grown f regs cs f1 : alloc_saves f regs = (cs, f1) -> xf_blocks f1 = xf_blocks f /\ same_data f f1.
Proof.
  unfold alloc_saves. revert cs f1. induction regs as [|r regs IH] using rev_ind; intros cs f1; [by intros [= <- <-]|].
  rewrite foldl_app. cbn [foldl]. destruct (foldl _ _ regs) as [cs0 f0]. destruct (IH cs0 f0 eq_refl) as (E & H).
  cbn [fst snd alloc_frame_slot]. intros [= <- <-]. split; [done|]. etransitivity; [exact H|done].
Qed.

Lemma bridge_shaped l res pos i pre post :
  mapM (bridge_store l) (bridges_at res pos i) = Some pre -> mapM (bridge_load l) (bridges_at res pos i) = Some post ->
  Forall well_shaped pre /\ Forall well_shaped (mjoin post).
Proof.
  intros E1 E2. split.
  - apply (mapM_Forall _ _ _ _ E1). intros r j _. unfold bridge_store. intros (m & Hm & ->)%fmap_Some. apply store_shaped. by eapply mem_for_slot_value.
  - apply Forall_join. apply (mapM_Forall _ _ _ _ E2). intros r js _. unfold bridge_load.
    destruct (sr_post r); [|by intros [= <-]]. intros (m & Hm & ->)%fmap_Some. repeat constructor; apply load_shaped; by eapply mem_for_slot_value.
Qed.

Lemma apply_inst_shaped l res pi out : well_shaped pi.2 -> apply_inst l res pi = Some out -> Forall well_shaped out.
Proof.
  intros Hi. unfold apply_inst. destruct (mapM (bridge_store l) _) as [pre|] eqn:E1; [|done]. cbn [mbind option_bind].
  destruct (rewrite_inst _ _ _ _) as [body|] eqn:E2; [|done]. cbn [mbind option_bind].
  destruct (mapM (bridge_load l) _) as [post|] eqn:E3; [|done]. cbn [mbind option_bind]. intros [= <-].
  destruct (bridge_shaped _ _ _ _ _ _ E1 E3). repeat (apply list.Forall_app; split); try done. by eapply rewrite_inst_shaped.
Qed.

Definition shaped_block (b : X86Block) : Prop := Forall well_shaped (xb_insts b).

Lemma apply_blocks_shaped l res bs nbs bs' :
  (forall nb pi, nb ∈ nbs -> pi ∈ nb_insts nb -> well_shaped pi.2) -> apply_blocks l res bs nbs = Some bs' -> Forall shaped_block bs'.
Proof.
  revert nbs bs'. induction bs as [|b bs IH]; intros nbs bs' H; [intros [= <-]; constructor|].
  destruct nbs as [|nb nbs]; [intros [= <-]; constructor|]. cbn [apply_blocks]. unfold apply_block.
  destruct (mapM (apply_inst l res) (nb_insts nb)) as [out|] eqn:Eo; [|done]. cbn [mbind option_bind].
  destruct (apply_blocks l res bs nbs) as [rest|] eqn:Er; [|done]. cbn [mbind option_bind]. intros [= <-]. constructor.
  - apply Forall_join. apply (mapM_Forall _ _ _ _ Eo). intros pi y Hpi. apply apply_inst_shaped. eapply H; [left|done].
  - eapply IH; [|done]. intros nb' pi Hnb. apply H. by right.
Qed.

Lemma save_and_restore_shaped l cs bs bs' : save_and_restore l cs bs = Some bs' -> Forall shaped_block bs -> Forall shaped_block bs'.
Proof.
  unfold save_and_restore. destruct cs as [|c cs]; [by intros [= <-]|]. set (all := c :: cs).
  destruct (mapM (save_inst l) all) as [saves|] eqn:E1; [|done]. cbn [mbind option_bind].
  destruct (mapM (restore_inst l) all) as [restores|] eqn:E2; [|done]. cbn [mbind option_bind]. intros E H.
  assert (Hs : Forall well_shaped saves).
  { apply (mapM_Forall _ _ _ _ E1). intros p i _. unfold save_inst. intros (m & Hm & ->)%fmap_Some. apply store_shaped. by eapply mem_for_slot_value. }
  assert (Hr : Forall well_shaped restores).
  { apply (mapM_Forall _ _ _ _ E2). intros p i _. unfold restore_inst. intros (m & Hm & ->)%fmap_Some. apply load_shaped. by eapply mem_for_slot_value. }
  assert (Ha : Forall shaped_block (add_restores restores <$> bs)).
  { apply list.Forall_fmap. eapply list.Forall_impl; [exact H|]. intros b Hb. unfold shaped_block, add_restores in *. simpl.
    induction Hb as [|i l0 Hi _ IH]; [constructor|]. rewrite bind_cons. apply list.Forall_app. split; [|done].
    destruct (is_ret i); [apply list.Forall_app; split; [done|]|]; (constructor; [done|constructor]). }
  destruct (add_restores restores <$> bs) as [|b0 bs0]; [done|]. injection E as <-. apply list.Forall_cons in Ha as [Hb Hbs].
  constructor; [|done]. by apply list.Forall_app.
Qed.

(** Allocated code has the shape of the code it comes from. *)
Lemma apply_allocation_shaped f res g : apply_allocation f res = Some g -> each_inst well_shaped f -> each_inst well_shaped g.
Proof.
  intros E Hf. unfold apply_allocation in E. destruct (alloc_saves f (callee_saved_used res)) as [cs f1] eqn:Es.
  destruct (alloc_saves_grown _ _ _ _ Es) as [Eb Hd].
  destruct (apply_blocks _ res (xf_blocks f1) (numbered f1)) as [bs|] eqn:Ea; [|done]. cbn [mbind option_bind] in E.
  destruct (save_and_restore _ cs bs) as [bs'|] eqn:Esr; [|done]. cbn [mbind option_bind] in E. injection E as <-.
  assert (H : Forall shaped_block bs').
  { eapply save_and_restore_shaped; [exact Esr|]. eapply apply_blocks_shaped; [|exact Ea]. intros nb [p i] Hnb Hpi.
    destruct (elem_of_number_blocks _ _ _ Hnb) as (b & q & Hb & Eq). rewrite Eq in Hpi. apply elem_of_number_insts in Hpi. rewrite Eb in Hb. by eapply Hf. }
  intros b i Hb Hi. simpl in Hb. apply list_elem_of_fmap in Hb as (c & -> & Hc). simpl in Hi. apply list_elem_of_filter in Hi as [_ Hi].
  rewrite list.Forall_forall in H. specialize (H c Hc). unfold shaped_block in H. rewrite list.Forall_forall in H. by apply H.
Qed.

Lemma naive_slots_grown f slots f1 : naive_slots f = (slots, f1) -> xf_blocks f1 = xf_blocks f /\ same_data f f1.
Proof.
  unfold naive_slots. set (sz := fun id : N => if bool_decide (naive_classes f !! id = Some Xmm128) then (16, 16)%Z else (8, 8)%Z).
  change (fun id : N => if bool_decide (naive_classes f !! id = Some Xmm128) then (16, 16)%Z else (8, 8)%Z) with sz.
  generalize (sort_by_key id (elements (dom (naive_classes f)))). intros ids. revert slots f1.
  induction ids as [|id ids IH] using rev_ind; intros slots f1; [by intros [= <- <-]|].
  rewrite foldl_app. cbn [foldl]. destruct (foldl _ _ ids) as [s0 f0]. destruct (IH s0 f0 eq_refl) as [E H].
  cbn [fst snd]. destruct (bool_decide _); cbn [alloc_frame_slot]; intros [= <- <-]; (split; [done|]); (etransitivity; [exact H|done]).
Qed.

Lemma regalloc_naive_shaped f g : regalloc_naive f = Some g -> each_inst well_shaped f -> each_inst well_shaped g.
Proof.
  intros E Hf. unfold regalloc_naive in E. destruct (naive_slots f) as [slots f1] eqn:Es. destruct (naive_slots_grown _ _ _ Es) as [Eb _].
  destruct (mapM _ (xf_blocks f1)) as [bs|] eqn:Em; [|done]. cbn [mbind option_bind] in E. injection E as <-. rewrite Eb in Em.
  assert (H : Forall shaped_block bs).
  { apply (mapM_Forall _ _ _ _ Em). intros b b' Hb. unfold naive_block. destruct (mapM _ (xb_insts b)) as [out|] eqn:Eo; [|done]. cbn [mbind option_bind].
    intros [= <-]. apply Forall_join. apply (mapM_Forall _ _ _ _ Eo). intros i y Hi. apply rewrite_inst_shaped. by eapply Hf. }
  intros b i Hb Hi. simpl in Hb. rewrite list.Forall_forall in H. specialize (H b Hb). unfold shaped_block in H. rewrite list.Forall_forall in H. by apply H.
Qed.

Lemma apply_allocation_data f res g : apply_allocation f res = Some g -> xf_name g = xf_name f /\ rodata g = rodata f /\ rodata_bytes g = rodata_bytes f.
Proof.
  unfold apply_allocation. destruct (alloc_saves f (callee_saved_used res)) as [cs f1] eqn:Es. destruct (alloc_saves_grown _ _ _ _ Es) as [_ [H1 [H2 H3] _]].
  destruct (apply_blocks _ _ _ _); [|done]. cbn [mbind option_bind]. destruct (save_and_restore _ _ _); [|done]. cbn [mbind option_bind]. by intros [= <-].
Qed.

Lemma regalloc_naive_data f g : regalloc_naive f = Some g -> xf_name g = xf_name f /\ rodata g = rodata f /\ rodata_bytes g = rodata_bytes f.
Proof.
  unfold regalloc_naive. destruct (naive_slots f) as [slots f1] eqn:Es. destruct (naive_slots_grown _ _ _ Es) as [_ [H1 [H2 H3] _]].
  destruct (mapM _ _); [|done]. cbn [mbind option_bind]. by intros [= <-].
Qed.

(** * Two-address conversion *)

(** What an instruction is converted to; [t] is the next free register. *)
Inductive conversion (i : X86Inst) (t : VRegId) : list X86Inst -> bool -> Prop :=
| conv_same : tied_ok i -> conversion i t [i] false
| conv_swap a d rest :
    is_Some (tied_use (x_opcode i)) -> is_commutative (x_opcode i) = true -> x_operands i = a :: d :: rest -> x_def i = Some d ->
    conversion i t [with_operands i (d :: a :: rest)] false
| conv_copy a rest d :
    is_Some (tied_use (x_opcode i)) -> x_operands i = a :: rest -> x_def i = Some d ->
    conversion i t [copy_inst (tie_move (x_opcode i) (x_size i) d) a d; with_operands i (d :: rest)] false
| conv_temp a rest d :
    is_Some (tied_use (x_opcode i)) -> x_operands i = a :: VReg d :: rest -> x_def i = Some (VReg d) ->
    conversion i t
      [copy_inst (tie_move (x_opcode i) (x_size i) (VReg d)) (VReg d) (VReg {| vr_id := t; vr_class := vr_class d |});
       copy_inst (tie_move (x_opcode i) (x_size i) (VReg d)) a (VReg d);
       with_operands i (VReg d :: VReg {| vr_id := t; vr_class := vr_class d |} :: rest)] true.

Lemma convert_inst_conversion f i out f' :
  convert_inst f i = Some (out, f') ->
  exists fresh, conversion i (next_vreg f) out fresh /\ next_vreg f' = (if fresh then u32 (next_vreg f + 1) else next_vreg f) /\
    f' = (if fresh then (new_vreg f Gp64).2 else f).
Proof.
  unfold convert_inst. destruct (tied_use (x_opcode i)) as [t|] eqn:Et.
  2: { intros [= <- <-]. exists false. split; [apply conv_same; by apply untied_ok|done]. }
  destruct (x_def i) as [d|] eqn:Ed; [|done]. cbn [mbind option_bind]. destruct (x_operands i) as [|a rest] eqn:Eo; [done|].
  case_bool_decide as Ha; [intros [= <- <-]; exists false; split; [apply conv_same; intros _; exists a, rest; split; [done|congruence]|done]|].
  destruct (is_commutative (x_opcode i) && bool_decide (rest !! 0%nat = Some d)) eqn:Ec.
  { apply andb_true_iff in Ec as [Ecm Ec%bool_decide_eq_true]. destruct rest as [|b rest]; [done|]. injection Ec as ->. intros [= <- <-].
    exists false. split; [by eapply conv_swap|done]. }
  case_bool_decide as Hb.
  - destruct d as [d| | | | | | | |]; try done. destruct rest as [|b rest]; [done|]. injection Hb as ->. cbn [new_vreg]. intros [= <- <-].
    exists true. split; [by eapply conv_temp|done].
  - intros [= <- <-]. exists false. split; [by eapply conv_copy|done].
Qed.

(** A property of single instructions that conversions keep holds after the pass. *)
Lemma convert_insts_each (P Q : X86Inst -> Prop) :
  (forall i t out fresh, P i -> conversion i t out fresh -> Forall Q out) ->
  forall insts f out f', Forall P insts -> convert_insts f insts = Some (out, f') -> Forall Q out.
Proof.
  intros HPQ insts. induction insts as [|i insts IH]; intros f out f' H; cbn [convert_insts]; [intros [= <- <-]; constructor|].
  destruct (convert_inst f i) as [[o1 f1]|] eqn:E1; [|done]. cbn [mbind option_bind].
  destruct (convert_insts f1 insts) as [[o2 f2]|] eqn:E2; [|done]. cbn [mbind option_bind]. intros [= <- <-].
  apply list.Forall_cons in H as [Hi H]. destruct (convert_inst_conversion _ _ _ _ E1) as (fresh & Hc & _).
  apply list.Forall_app. split; [by eapply HPQ|by eapply IH].
Qed.

Lemma convert_blocks_each (P Q : X86Inst -> Prop) :
  (forall i t out fresh, P i -> conversion i t out fresh -> Forall Q out) ->
  forall bs f bs' f', (forall b i, b ∈ bs -> i ∈ xb_insts b -> P i) -> convert_blocks f bs = Some (bs', f') ->
    forall b i, b ∈ bs' -> i ∈ xb_insts b -> Q i.
Proof.
  intros HPQ bs. induction bs as [|b bs IH]; intros f bs' f' H; cbn [convert_blocks]; [intros [= <- <-] b i Hb; by apply elem_of_nil in Hb|].
  destruct (convert_insts f (xb_insts b)) as [[out f2]|] eqn:E1; [|done]. cbn [mbind option_bind].
  destruct (convert_blocks f2 bs) as [[bs2 f3]|] eqn:E2; [|done]. cbn [mbind option_bind]. intros [= <- <-] c i Hc Hi.
  apply elem_of_cons in Hc as [->|Hc].
  - simpl in Hi. assert (Hout : Forall Q out); [|by eapply list.Forall_forall in Hout].
    eapply convert_insts_each; [done| |exact E1]. apply list.Forall_forall. intros j Hj. eapply H; [left|done].
  - eapply (IH f2 bs2 f3); [|exact E2|exact Hc|exact Hi]. intros b0 j Hb0. apply H. by right.
Qed.

Lemma convert_each (P Q : X86Inst -> Prop) f g :
  (forall i t out fresh, P i -> conversion i t out fresh -> Forall Q out) ->
  convert_to_two_address f = Some g -> each_inst P f -> each_inst Q g.
Proof.
  intros HPQ. unfold convert_to_two_address. destruct (convert_blocks f (xf_blocks f)) as [[bs f1]|] eqn:E; [|done]. cbn [mbind option_bind].
  intros [= <-] H. exact (convert_blocks_each P Q HPQ (xf_blocks f) f bs f1 H E).
Qed.

Lemma copy_shaped op size d a b : value_operand a = true -> value_operand b = true -> well_shaped (copy_inst (tie_move op size d) a b).
Proof.
  intros Ha Hb. split; [|apply untied_ok; apply move_not_tied]. unfold copy_inst, shape_ok, def_ok, extension_ok. simpl.
  assert (H : (tie_move op size d).1 = MovRR \/ (tie_move op size d).1 = Movss \/ (tie_move op size d).1 = Movsd \/ (tie_move op size d).1 = Movaps).
  { unfold tie_move. destruct (move_opcode op) as [mv sz] eqn:E. destruct op; injection E as <- <-; destruct d; simpl; try case_bool_decide; tauto. }
  destruct H as [H|[H|[H|H]]]; rewrite H; simpl; by rewrite Ha, Hb.
Qed.

Lemma tied_kinds op : is_Some (tied_use op) -> has_def op = true /\ exists ks, operand_kinds op = KVal :: ks.
Proof. intros [t H]. destruct op; try done; split; try done; by eexists. Qed.

Lemma commutative_kinds op : is_commutative op = true -> operand_kinds op = [KVal; KVal].
Proof. by destruct op. Qed.

Lemma conversion_shaped i t out fresh : shape_ok i = true -> conversion i t out fresh -> Forall well_shaped out.
Proof.
  intros Hs Hc. destruct (shape_ok_elim i Hs) as (Hk & Hd & He).
  assert (Hnew : forall ops d, x_def i = Some d -> kinds_ok (operand_kinds (x_opcode i)) (d :: ops) = true -> well_shaped (with_operands i (d :: ops))).
  { intros ops d Ed Hops. split; [by apply shape_ok_intro|]. intros _. exists d, ops. by rewrite <- Ed. }
  destruct Hc as [Ht|a d rest Ht Hcm Eo Ed|a rest d Ht Eo Ed|a rest d Ht Eo Ed]; [repeat constructor; done|..];
    destruct (tied_kinds _ Ht) as (Hhd & ks & Eks); specialize (Hd Hhd); rewrite Ed in Hd; rewrite Eo in Hk; simpl in Hd.
  - constructor; [|constructor]. apply Hnew; [done|]. rewrite (commutative_kinds _ Hcm) in Hk |- *. simpl in Hk |- *.
    apply andb_true_iff in Hk as [Hk1 _]. by rewrite Hd, Hk1.
  - rewrite Eks in Hk. simpl in Hk. apply andb_true_iff in Hk as [Hk1 Hk2]. constructor; [by apply copy_shaped|]. constructor; [|constructor].
    apply Hnew; [done|]. rewrite Eks. simpl. by rewrite Hd.
  - rewrite Eks in Hk. simpl in Hk. apply andb_true_iff in Hk as [Hk1 Hk2]. constructor; [by apply copy_shaped|]. constructor; [by apply copy_shaped|]. constructor; [|constructor].
    apply Hnew; [done|]. rewrite Eks. simpl. destruct ks as [|k ks]; [done|]. simpl in Hk2 |- *. apply andb_true_iff in Hk2 as [Hk2 Hk3]. by destruct k.
Qed.

(** * The peephole after allocation *)

Lemma map_blocks_data g f : same_data f (map_blocks g f).1.
Proof. split; [done|done|]. simpl. rewrite <- list_fmap_compose. done. Qed.

Lemma map_blocks_each (P : X86Inst -> Prop) g f :
  (forall insts, Forall P insts -> Forall P (g insts).1) -> each_inst P f -> each_inst P (map_blocks g f).1.
Proof.
  intros Hg Hf b i Hb Hi. simpl in Hb. apply list_elem_of_fmap in Hb as (c & -> & Hc). simpl in Hi.
  assert (H : Forall P (g (xb_insts c)).1) by (apply Hg, list.Forall_forall; intros j Hj; by eapply Hf). by eapply list.Forall_forall in H.
Qed.

Lemma forward_load_printable avail i : printable i -> printable (forward_load avail i).
Proof.
  intros Hp. unfold forward_load. destruct (forwarded avail i) as [rs|] eqn:E; [|done]. unfold forwarded in E.
  destruct (x_opcode i) eqn:Eo; try done. destruct (x_def i) as [[|rd| | | | | | |]|] eqn:Ed; try done. split; [done|done|by apply untied_ok].
Qed.

Lemma forward_printable avail insts : Forall printable insts -> Forall printable (forward_insts avail insts).1.
Proof.
  intros H. revert avail. induction H as [|i insts Hi _ IH]; intros avail; [constructor|]. cbn [forward_insts].
  specialize (IH (after_inst avail (forward_load avail i))). destruct (forward_insts _ insts) as [out n]. constructor; [by apply forward_load_printable|done].
Qed.

Lemma lea_fold_printable mov add dead lea : try_lea_fold mov add dead = Some lea -> printable lea.
Proof.
  unfold try_lea_fold. destruct (_ || _); [done|]. destruct (x_def mov) as [[|d| | | | | | |]|]; try done. destruct (x_operands mov !! 0%nat) as [[|a| | | | | | |]|]; try done.
  destruct (x_def add) as [[|ad| | | | | | |]|]; try done. destruct (x_operands add !! 0%nat) as [[|a0| | | | | | |]|]; try done.
  destruct (x_operands add !! 1%nat) as [[|b| | | | | | |]|]; try done. repeat (destruct (_ || _); [done|]). intros [= <-]. split; [done|done|by apply untied_ok].
Qed.

Lemma lea_printable insts dead : Forall printable insts -> Forall printable (lea_pairs insts dead).1.
Proof.
  remember (length insts) as n eqn:En. revert insts dead En. induction (lt_wf n) as [n _ IH]. intros insts dead -> H.
  destruct insts as [|i tl]; [constructor|]. apply list.Forall_cons in H as [Hi Htl]. cbn [lea_pairs].
  assert (Hkeep : Forall printable (let '(out, n) := lea_pairs tl (drop 1 dead) in (i :: out, n)).1).
  { pose proof (IH (length tl) ltac:(simpl; lia) tl (drop 1 dead) eq_refl Htl) as Ht. destruct (lea_pairs tl (drop 1 dead)). by constructor. }
  destruct tl as [|j rest]; [exact Hkeep|]. destruct (try_lea_fold i j _) as [lea|] eqn:El; [|exact Hkeep].
  apply list.Forall_cons in Htl as [_ Hrest]. pose proof (IH (length rest) ltac:(simpl; lia) rest (drop 2 dead) eq_refl Hrest) as Ht.
  destruct (lea_pairs rest (drop 2 dead)). constructor; [by eapply lea_fold_printable|done].
Qed.

Lemma xor_zero_printable i dead : printable i -> printable (xor_zero_inst i dead).
Proof.
  intros Hp. unfold xor_zero_inst. destruct (zeroed_reg i dead) as [r|] eqn:E; [|done]. unfold zeroed_reg in E.
  destruct (x_opcode i); try done. destruct (x_operands i !! 0%nat) as [[| |z| | | | | |]|]; try done. destruct z; try done.
  destruct (x_def i) as [[|r'| | | | | | |]|] eqn:Ed; try done. destruct (is_gp r' && dead); [|done]. injection E as ->.
  split; [done|done|]. intros _. by exists (Reg r), [Reg r].
Qed.

Lemma post_printable f : each_inst printable f -> each_inst printable (run_peephole_post_regalloc f).1 /\ same_data f (run_peephole_post_regalloc f).1.
Proof.
  intros H. unfold run_peephole_post_regalloc.
  pose proof (map_blocks_each printable (forward_insts ∅) f (forward_printable ∅) H) as H1. pose proof (map_blocks_data (forward_insts ∅) f) as D1.
  fold (store_to_load_forward f) in H1, D1. destruct (store_to_load_forward f) as [f1 n1]. cbn [fst] in H1, D1.
  set (lf := fun insts => lea_pairs insts (flags_dead_after insts)).
  pose proof (map_blocks_each printable lf f1 (fun insts => lea_printable insts _) H1) as H2. pose proof (map_blocks_data lf f1) as D2.
  change (map_blocks lf f1) with (lea_fold f1) in H2, D2. destruct (lea_fold f1) as [f2 n2]. cbn [fst] in H2, D2.
  assert (H3 : each_inst printable (map_blocks xor_zero_block f2).1).
  { apply map_blocks_each; [|done]. intros insts Hi. unfold xor_zero_block. cbn [fst]. generalize (flags_dead_after insts).
    induction Hi as [|i l Hi _ IH]; intros [|d dl]; try constructor; [by apply xor_zero_printable|apply IH]. }
  pose proof (map_blocks_data xor_zero_block f2) as D3. fold (xor_zero f2) in H3, D3. destruct (xor_zero f2) as [f3 n3]. cbn [fst] in *.
  split; [done|]. etransitivity; [exact D1|]. by etransitivity.
Qed.

(** * Functions *)

Lemma block_lines_total func idx b : xf_blocks func !! idx = Some b -> Forall printable (xb_insts b) -> is_Some (block_lines func idx b).
Proof.
  intros Hb H. unfold block_lines, block_label. rewrite Hb.
  destruct (mapM_ok (fun i => indent <$> emit_inst i func) (fun _ => True) (xb_insts b)) as (ls & E & _).
  { intros i Hi. rewrite list.Forall_forall in H. destruct (emit_inst_total i func (H i Hi)) as [t ->]. by eexists. }
  rewrite E. by case_bool_decide; eexists.
Qed.

(** The printer never panics on a function whose instructions are printable. *)
Lemma function_lines_total func : each_inst printable func -> is_Some (function_lines func).
Proof.
  intros H. unfold function_lines.
  destruct (mapM_ok (fun p => block_lines func p.1 p.2) (fun _ => True) (imap pair (xf_blocks func))) as (ls & E & _); [|rewrite E; by eexists].
  intros [k b] Hp. apply list_elem_of_lookup in Hp as [k' Hk]. rewrite list_lookup_imap in Hk. apply fmap_Some in Hk as (b' & Hb & [= -> ->]).
  destruct (block_lines_total func k' b') as [t Ht]; [done| |by exists t]. apply list.Forall_forall. intros i Hi. eapply H; [by eapply list_elem_of_lookup_2|done].
Qed.
