(* ===== verification/X86Ready.v ===== *)
(** What the passes of the x86-64 backend hand to each other.

    [selected] collects what the passes take from instruction selection
    (src/src/codegen/x86/isel.rs), as a condition on its functions;
    the peephole that runs first keeps it, and two-address conversion turns it into what
    the register allocators expect. *)

From S2P Require Import Prelude.
From stdpp Require Import list.
From S2P Require Import Slices X86Mir X86Liveness X86LinearScan X86AllocInv X86AllocSafe X86Apply X86Sem TwoAddr X86Peephole X86PeepPre X86Emit X86Shape.

(** Apart from one operand, a tied instruction reads at most one register. *)
Definition operands_fit (i : X86Inst) : Prop :=
  match tied_use (x_opcode i) with
  | Some _ => (length (omap operand_vreg (drop 1 (x_operands i))) <= 1)%nat
  | None => scratch_fits i
  end.

(** What receives an incoming argument: a copy into a virtual register, or a store of a
    half of an i128 or complex(8) argument into its frame slot (isel.rs, phases 3 and 3.5). *)
Definition captures (r : X86Reg) (i : X86Inst) : Prop :=
  x_operands i !! 0%nat = Some (Reg r) /\ x_def i <> Some (Reg r) /\ tied_use (x_opcode i) = None.

Record selected_inst (f : X86Function) (i : X86Inst) : Prop := {
  si_tied : tied_shape (next_vreg f) i;
  si_shape : shape_ok i = true;
  si_fits : operands_fit i;
  si_cmp : x_opcode i = Cmp -> x_def i = None;
  si_slots : forall z, z ∈ operand_slots i -> (0 <= z < Z.of_nat (length (frame_slots f)))%Z }.

Record selected (f : X86Function) : Prop := {
  se_blocks : xf_blocks f <> [];
  se_unique : unique_blocks f;
  se_room : (Z.of_nat (length (frame_slots f)) + 8 * (Z.of_N (next_vreg f) + Z.of_nat (inst_count f)) + 5 < 2 ^ 31)%Z;
  se_numbered : slots_numbered (frame_slots f);
  se_captured : forall r, r ∈ entry_live_ins f -> exists b i, xf_blocks f !! 0%nat = Some b /\ i ∈ xb_insts b /\ captures r i;
  se_classes : classes_agree f;
  se_insts : each_inst (selected_inst f) f }.

(** The fields no pass before allocation touches. *)
Record same_frame (f g : X86Function) : Prop := {
  sf_name : xf_name g = xf_name f;
  sf_pool : rodata g = rodata f /\ rodata_bytes g = rodata_bytes f;
  sf_slots : frame_slots g = frame_slots f;
  sf_entry : entry_live_ins g = entry_live_ins f }.

#[global] Instance same_frame_refl : Reflexive same_frame.
Proof. done. Qed.

#[global] Instance same_frame_trans : Transitive same_frame.
Proof. intros f g h [A1 [A2 A3] A4 A5] [B1 [B2 B3] B4 B5]. split; [congruence|split; congruence|congruence..]. Qed.

(** * Registers of instructions *)

Lemma inst_vregs_operands i v : v ∈ inst_vregs i -> VReg v ∈ x_operands i ++ option_list (x_def i).
Proof.
  unfold inst_vregs, use_vregs. rewrite !elem_of_app. intros [H|[H|H]].
  - right. unfold def_vreg in H. destruct (fp_store_addr_vreg i); [by apply elem_of_nil in H|]. destruct (x_def i) as [[]|]; simpl in H; try (by apply elem_of_nil in H).
    apply list_elem_of_singleton in H as ->. left.
  - right. unfold fp_store_addr_vreg in H. destruct (x_def i) as [[u| | | | | | | |]|]; destruct (x_opcode i); try (by apply elem_of_nil in H);
      destruct (_ && _); simpl in H; try (by apply elem_of_nil in H); apply list_elem_of_singleton in H as ->; left.
  - left. by apply elem_of_operand_vregs.
Qed.

Lemma vreg_capacity_bound f n : each_inst (fun i => forall v, VReg v ∈ x_operands i ++ option_list (x_def i) -> (vr_id v < n)%N) f -> (N.of_nat (vreg_capacity f) <= n)%N.
Proof.
  intros H. unfold vreg_capacity.
  assert (Hin : forall v, v ∈ xf_blocks f ≫= block_vregs -> (vr_id v < n)%N).
  { intros v (b & Hv & Hb)%list_elem_of_bind. unfold block_vregs in Hv. apply list_elem_of_bind in Hv as (i & Hv & Hi). eapply H; [done|done|]. by apply inst_vregs_operands. }
  induction (xf_blocks f ≫= block_vregs) as [|v l IH] using rev_ind; [simpl; lia|]. rewrite foldl_app. simpl.
  specialize (IH ltac:(intros u Hu; apply Hin, elem_of_app; by left)). specialize (Hin v ltac:(apply elem_of_app; right; left)). unfold bit_of in *. lia.
Qed.

(** An argument that is copied in the entry block is captured. *)
Lemma captured_some f r b i :
  xf_blocks f !! 0%nat = Some b -> i ∈ xb_insts b -> Reg r ∈ x_operands i -> r ∈ entry_live_ins f -> is_Some (entry_captures f !! r).
Proof.
  intros Hb Hi Ho Hr. unfold entry_captures, numbered. destruct (xf_blocks f) as [|b0 bs]; [done|]. injection Hb as ->. cbn [number_blocks nb_insts].
  assert (Hkeep : forall ops (m : gmap X86Reg N) p, is_Some (m !! r) -> is_Some (foldl (fun m op => match op with
      | Reg r => if bool_decide (r ∈ entry_live_ins f) then match m !! r with Some _ => m | None => <[r := p]> m end else m
      | _ => m end) m ops !! r)).
  { intros ops. induction ops as [|op ops IH]; intros m p Hm; [done|]. cbn [foldl]. apply IH. destruct op; try done. case_bool_decide; [|done].
    destruct (m !! r0) eqn:E; [done|]. destruct (decide (r0 = r)) as [->|Hne]; [by rewrite lookup_insert_eq; eexists|by rewrite lookup_insert_ne]. }
  assert (Hhit : forall m p, is_Some (capture_inst (entry_live_ins f) m (p, i) !! r)).
  { intros m p. unfold capture_inst. cbn [fst snd]. revert m. induction (x_operands i) as [|op ops IH]; intros m; [by apply elem_of_nil in Ho|]. cbn [foldl].
    apply elem_of_cons in Ho as [<-|Ho]; [|by apply IH]. apply Hkeep. rewrite bool_decide_eq_true_2 by done. destruct (m !! r) eqn:E; [by rewrite E; eexists|by rewrite lookup_insert_eq; eexists]. }
  generalize (0%N). generalize (∅ : gmap X86Reg N). induction (xb_insts b) as [|j l IH]; intros m p; [by apply elem_of_nil in Hi|]. cbn [number_insts foldl].
  apply elem_of_cons in Hi as [<-|Hi]; [|by apply IH]. specialize (Hhit m p). revert Hhit. generalize (capture_inst (entry_live_ins f) m (p, i)) (u32 (p + 2)). clear IH.
  induction l as [|k l IH]; intros m' q Hm; [done|]. cbn [number_insts foldl]. apply IH. unfold capture_inst. cbn [fst snd]. by apply Hkeep.
Qed.

(** * Two-address conversion *)

(** Registers of a list of instructions. *)
Definition regs_in (insts : list X86Inst) (v : X86VReg) : Prop := exists i, i ∈ insts /\ VReg v ∈ x_operands i ++ option_list (x_def i).

Lemma conversion_regs i t out fresh v :
  conversion i t out fresh -> regs_in out v ->
  VReg v ∈ x_operands i ++ option_list (x_def i) \/
  (fresh = true /\ vr_id v = t /\ exists d, x_def i = Some (VReg d) /\ vr_class v = vr_class d).
Proof.
  intros Hc (j & Hj & Hv). rewrite elem_of_app in Hv |- *.
  destruct Hc as [Ht|a d rest Ht Hcm Eo Ed|a rest d Ht Eo Ed|a rest d Ht Eo Ed].
  - apply list_elem_of_singleton in Hj as ->. by left.
  - apply list_elem_of_singleton in Hj as ->. left. rewrite Eo. simpl in Hv. rewrite !elem_of_cons in *. tauto.
  - left. rewrite Eo, Ed. simpl. rewrite !elem_of_cons in Hj. destruct Hj as [->|[->|Hj]]; [| |by apply elem_of_nil in Hj]; simpl in Hv; rewrite ?Ed in Hv; simpl in Hv;
      rewrite ?elem_of_cons, ?elem_of_nil in *; tauto.
  - rewrite !elem_of_cons in Hj.
    assert (H : VReg v ∈ a :: VReg d :: rest \/ v = {| vr_id := t; vr_class := vr_class d |}).
    { destruct Hj as [->|[->|[->|Hj]]]; [| | |by apply elem_of_nil in Hj]; simpl in Hv; rewrite ?Ed in Hv; simpl in Hv; rewrite ?elem_of_cons, ?elem_of_nil in *;
        firstorder (first [by (left; left)|by (left; right; left)|idtac]); try (left; tauto); right; congruence. }
    destruct H as [H| ->]; [left; left; by rewrite Eo|]. right. split; [done|]. split; [done|]. by exists d.
Qed.

Lemma conversion_length i t out fresh : conversion i t out fresh -> (length out <= 3)%nat.
Proof. intros []; simpl; lia. Qed.

(** The registers of converted code: those of the source and fresh ones, each of one class. *)
Definition fresh_regs (lo hi : N) (cls : VRegId -> X86RegClass) (v : X86VReg) : Prop :=
  (lo <= vr_id v < hi)%N /\ vr_class v = cls (vr_id v).

Lemma convert_insts_regs insts f out f' :
  convert_insts f insts = Some (out, f') -> (next_vreg f + N.of_nat (length insts) < 2 ^ 32)%N ->
  same_frame f f' /\ (next_vreg f <= next_vreg f' <= next_vreg f + N.of_nat (length insts))%N /\ (length out <= 3 * length insts)%nat /\
  exists cls, forall v, regs_in out v -> regs_in insts v \/ fresh_regs (next_vreg f) (next_vreg f') cls v.
Proof.
  revert f out f'. induction insts as [|i insts IH]; intros f out f'; cbn [convert_insts].
  { intros [= <- <-] _. split; [done|]. split; [lia|]. split; [done|]. exists (fun _ => Gp64). intros v (j & Hj & _). by apply elem_of_nil in Hj. }
  destruct (convert_inst f i) as [[o1 f1]|] eqn:E1; [|done]. cbn [mbind option_bind].
  destruct (convert_insts f1 insts) as [[o2 f2]|] eqn:E2; [|done]. cbn [mbind option_bind]. intros [= <- <-] Hb. cbn [length] in *.
  destruct (convert_inst_conversion _ _ _ _ E1) as (fresh & Hc & En & Ef).
  assert (Hn1 : next_vreg f1 = (next_vreg f + if fresh then 1 else 0)%N) by (rewrite En; destruct fresh; [apply u32_small|]; lia).
  destruct (IH f1 o2 f2 E2) as (Hs & Hr & Hl & cls & Hcls); [destruct fresh; lia|]. pose proof (conversion_length _ _ _ _ Hc).
  split; [etransitivity; [|exact Hs]; subst f1; by destruct fresh|]. split; [destruct fresh; lia|]. split; [rewrite length_app; lia|].
  exists (fun n => if bool_decide (n = next_vreg f) then if fresh then match x_def i with Some (VReg d) => vr_class d | _ => Gp64 end else cls n else cls n).
  intros v (j & Hj & Hv). apply elem_of_app in Hj as [Hj|Hj].
  - destruct (conversion_regs _ _ _ _ v Hc) as [H'|(-> & Eid & d & Ed & Ecl)]; [by exists j|left; exists i; split; [left|done]|].
    right. split; [lia|]. cbn. rewrite Eid, bool_decide_eq_true_2, Ed by done. done.
  - destruct (Hcls v) as [(k & Hk & Hkv)|[Hv1 Hv2]]; [by exists j|left; exists k; split; [by right|done]|]. right. split; [destruct fresh; lia|]. cbn.
    case_bool_decide as Hid; [|done]. destruct fresh; [lia|done].
Qed.

Lemma convert_blocks_regs bs f bs' f' :
  convert_blocks f bs = Some (bs', f') -> (next_vreg f + N.of_nat (inst_count_of bs) < 2 ^ 32)%N ->
  same_frame f f' /\ (next_vreg f <= next_vreg f' <= next_vreg f + N.of_nat (inst_count_of bs))%N /\ (inst_count_of bs' <= 3 * inst_count_of bs)%nat /\
  xb_id <$> bs' = xb_id <$> bs /\
  exists cls, forall b v, b ∈ bs' -> regs_in (xb_insts b) v -> (exists c, c ∈ bs /\ regs_in (xb_insts c) v) \/ fresh_regs (next_vreg f) (next_vreg f') cls v.
Proof.
  revert f bs' f'. induction bs as [|b bs IH]; intros f bs' f'; cbn [convert_blocks].
  { intros [= <- <-] _. split; [done|]. split; [lia|]. split; [done|]. split; [done|]. exists (fun _ => Gp64). intros b v Hb. by apply elem_of_nil in Hb. }
  destruct (convert_insts f (xb_insts b)) as [[o1 f1]|] eqn:E1; [|done]. cbn [mbind option_bind].
  destruct (convert_blocks f1 bs) as [[bs2 f2]|] eqn:E2; [|done]. cbn [mbind option_bind]. intros [= <- <-] Hb.
  assert (Hc : forall c cs, inst_count_of (c :: cs) = (length (xb_insts c) + inst_count_of cs)%nat) by done. rewrite !Hc in *. cbn [xb_insts].
  destruct (convert_insts_regs _ _ _ _ E1) as (Hs1 & Hr1 & Hl1 & cls1 & Hcls1); [lia|].
  destruct (IH f1 bs2 f2 E2) as (Hs2 & Hr2 & Hl2 & Hid & cls2 & Hcls2); [lia|].
  split; [by etransitivity|]. split; [lia|]. split; [lia|]. split; [rewrite !fmap_cons; by f_equal|].
  exists (fun n => if bool_decide (n < next_vreg f1)%N then cls1 n else cls2 n).
  intros c v [->|Hin]%elem_of_cons Hv.
  - destruct (Hcls1 v Hv) as [H|[H1 H2]]; [left; exists b; split; [left|done]|]. right. split; [lia|]. cbn. by rewrite bool_decide_eq_true_2 by lia.
  - destruct (Hcls2 c v Hin Hv) as [(c' & Hc' & Hv')|[H1 H2]]; [left; exists c'; split; [by right|done]|]. right. split; [lia|]. cbn. by rewrite bool_decide_eq_false_2 by lia.
Qed.

(** ** Operands *)

Lemma count_class_length fp vs : (count_class fp vs <= length vs)%nat.
Proof. apply length_filter. Qed.

Lemma copy_fits mv a d : scratch_fits (copy_inst mv a d).
Proof.
  intros fp. etransitivity; [apply count_class_length|]. unfold scratch_operands. destruct (is_tied (copy_inst mv a d)) as [v|] eqn:E.
  - apply is_tied_Some in E as (ops & d' & [= -> <-] & _). simpl. lia.
  - rewrite length_app. simpl. destruct a, d; simpl; lia.
Qed.

(** An instruction whose first operand is its definition needs at most two registers. *)
Lemma tied_fits i d rest :
  is_Some (tied_use (x_opcode i)) -> x_operands i = d :: rest -> x_def i = Some d -> (length (omap operand_vreg rest) <= 1)%nat -> scratch_fits i.
Proof.
  intros [t Ht] Eo Ed Hl fp. etransitivity; [apply count_class_length|]. unfold scratch_operands, is_tied. rewrite Ht, Ed, Eo. cbn [lookup list_lookup].
  assert (Hcons : forall op l, length (omap operand_vreg (op :: l)) = (length (option_list (operand_vreg op)) + length (omap operand_vreg l))%nat) by (by intros []).
  destruct d as [d| | | | | | | |]; try (rewrite length_app, Hcons; simpl; lia). rewrite bool_decide_eq_true_2 by done. cbn [drop length]. rewrite drop_0. lia.
Qed.

Lemma conversion_fits n i t out fresh : tied_shape n i -> operands_fit i -> conversion i t out fresh -> Forall scratch_fits out.
Proof.
  intros [_ Hsh] Hf Hc. unfold operands_fit in Hf.
  assert (Hcons : forall op l, length (omap operand_vreg (op :: l)) = (length (option_list (operand_vreg op)) + length (omap operand_vreg l))%nat) by (by intros []).
  destruct Hc as [Ht|a d rest [t0 Ht] Hcm Eo Ed|a rest d [t0 Ht] Eo Ed|a rest d [t0 Ht] Eo Ed].
  - constructor; [|constructor]. destruct (tied_use (x_opcode i)) as [t0|] eqn:Et; [|done]. destruct Ht as (a & rest & Eo & Ed); [by exists t0|]. rewrite Eo in Hf. eapply tied_fits; [by rewrite Et|done|done|]. cbn [drop] in Hf. by rewrite ?drop_0 in Hf.
  - rewrite Ht, Eo in Hf. cbn [drop] in Hf. rewrite ?drop_0, Hcons in Hf. constructor; [|constructor]. eapply tied_fits; [by exists t0|done|done|]. rewrite Hcons.
    destruct Hsh as (a' & r' & Eo' & Hd); [by exists t0|]. rewrite Eo in Eo'. injection Eo' as <- <-. rewrite Ed in Hd.
    destruct Hd as [[= ->]|(d' & [= ->] & _)]; [|destruct a]; simpl in *; lia.
  - rewrite Ht, Eo in Hf. cbn [drop] in Hf. rewrite ?drop_0 in Hf. constructor; [apply copy_fits|]. constructor; [|constructor]. by eapply tied_fits; [by exists t0|..].
  - rewrite Ht, Eo in Hf. cbn [drop] in Hf. rewrite ?drop_0, Hcons in Hf. constructor; [apply copy_fits|]. constructor; [apply copy_fits|]. constructor; [|constructor].
    eapply tied_fits; [by exists t0|done|done|]. rewrite Hcons. simpl in *. lia.
Qed.

Lemma conversion_slots i t out fresh z j : conversion i t out fresh -> j ∈ out -> z ∈ operand_slots j -> z ∈ operand_slots i.
Proof.
  intros Hc Hj. rewrite !elem_of_operand_slots, !elem_of_app. destruct Hc as [Ht|a d rest Ht Hcm Eo Ed|a rest d Ht Eo Ed|a rest d Ht Eo Ed].
  - by apply list_elem_of_singleton in Hj as ->.
  - apply list_elem_of_singleton in Hj as ->. rewrite Eo, Ed. simpl. rewrite Ed. simpl. rewrite !elem_of_cons. tauto.
  - rewrite Eo, Ed. rewrite !elem_of_cons in Hj. destruct Hj as [->|[->|Hj]]; [| |by apply elem_of_nil in Hj]; simpl; rewrite ?Ed; simpl; rewrite !elem_of_cons, ?elem_of_nil; tauto.
  - rewrite Eo, Ed. rewrite !elem_of_cons in Hj. destruct Hj as [->|[->|[->|Hj]]]; [| | |by apply elem_of_nil in Hj]; simpl; rewrite ?Ed; simpl; rewrite !elem_of_cons, ?elem_of_nil;
      intros; repeat match goal with H : _ \/ _ |- _ => destruct H end; try done; tauto.
Qed.

Lemma convert_keeps_untied insts f out f' i :
  convert_insts f insts = Some (out, f') -> i ∈ insts -> tied_use (x_opcode i) = None -> i ∈ out.
Proof.
  revert f out. induction insts as [|j insts IH]; intros f out; cbn [convert_insts]; [intros _ H; by apply elem_of_nil in H|].
  destruct (convert_inst f j) as [[o1 f1]|] eqn:E1; [|done]. cbn [mbind option_bind].
  destruct (convert_insts f1 insts) as [[o2 f2]|] eqn:E2; [|done]. cbn [mbind option_bind]. intros [= <- <-] Hi Ht. apply elem_of_app.
  apply elem_of_cons in Hi as [->|Hi]; [left|right; by eapply IH].
  unfold convert_inst in E1. rewrite Ht in E1. injection E1 as <- <-. left.
Qed.

(** What instruction selection produces is ready for the allocators once it is converted. *)
Lemma selected_converts f :
  selected f -> exists g, convert_to_two_address f = Some g /\ alloc_ready g /\ rewrite_ready g /\ each_inst well_shaped g /\ same_data f g.
Proof.
  intros Hsel. pose proof (se_room f Hsel) as Hroom.
  assert (Hready : two_address_ready f) by (split; [intros b i Hb Hi; by apply (se_insts f Hsel b i)|unfold inst_count in *; lia]).
  destruct (convert_spec f Hready) as (g & E & _). exists g. split; [done|].
  assert (Heach : forall (P : X86Inst -> Prop), (forall i t out fresh, selected_inst f i -> conversion i t out fresh -> Forall P out) -> each_inst P g).
  { intros P HP. eapply convert_each; [exact HP|exact E|exact (se_insts f Hsel)]. }
  assert (Hshape : each_inst well_shaped g) by (apply Heach; intros i t out fresh Hi; apply conversion_shaped, Hi).
  assert (Hfits : each_inst scratch_fits g) by (apply Heach; intros i t out fresh Hi; eapply conversion_fits; apply Hi).
  assert (Hslots : each_inst (fun j => forall z, z ∈ operand_slots j -> (0 <= z < Z.of_nat (length (frame_slots f)))%Z) g).
  { apply Heach. intros i t out fresh Hi Hc. apply list.Forall_forall. intros j Hj z Hz. apply (si_slots f i Hi). by eapply conversion_slots. }
  unfold convert_to_two_address in E. destruct (convert_blocks f (xf_blocks f)) as [[bs f1]|] eqn:Eb; [|done]. cbn [mbind option_bind] in E. injection E as <-.
  change (inst_count f) with (inst_count_of (xf_blocks f)) in Hroom.
  destruct (convert_blocks_regs _ _ _ _ Eb) as (Hsf & Hnv & Hlen & Hids & cls & Hregs); [lia|]. pose proof (sf_slots _ _ Hsf) as Esl.
  assert (Hold : forall c v, c ∈ xf_blocks f -> regs_in (xb_insts c) v -> (vr_id v < next_vreg f)%N).
  { intros c v Hc (i & Hi & Hv). eapply (ts_below _ _ (si_tied _ _ (se_insts f Hsel c i Hc Hi))), Hv. }
  assert (Hcap : (N.of_nat (vreg_capacity (with_blocks f1 bs)) <= next_vreg f1)%N).
  { apply vreg_capacity_bound. intros b i Hb Hi v Hv. destruct (Hregs b v Hb) as [(c & Hc & Hv')|[Hf _]]; [by exists i|specialize (Hold c v Hc Hv'); lia|lia]. }
  assert (Hcl : classes_agree (with_blocks f1 bs)).
  { intros b b' i i' u u' Hb Hb' Hi Hi' Hu Hu' Eid. apply inst_vregs_operands in Hu, Hu'.
    destruct (Hregs b u Hb) as [(c & Hc & k & Hk & Hku)|[Hf Ef]]; [by exists i| |]; destruct (Hregs b' u' Hb') as [(c' & Hc' & k' & Hk' & Hku')|[Hf' Ef']]; try by (by exists i').
    - eapply (se_classes f Hsel c c' k k'); try done; apply operand_vregs_in; unfold operand_vregs; by apply elem_of_operand_vregs.
    - assert (vr_id u < next_vreg f)%N by (eapply Hold; [exact Hc|by exists k]). lia.
    - assert (vr_id u' < next_vreg f)%N by (eapply Hold; [exact Hc'|by exists k']). lia.
    - by rewrite Ef, Ef', Eid. }
  split; [|split; [|split; [done|]]].
  - split.
    + unfold unique_blocks. simpl. rewrite Hids. apply Hsel.
    + unfold small. change (inst_count (with_blocks f1 bs)) with (inst_count_of bs). lia.
    + done.
    + simpl. lia.
    + simpl. rewrite Esl. lia.
    + simpl. rewrite Esl. apply Hsel.
    + simpl. rewrite (sf_entry _ _ Hsf). intros r Hr. destruct (se_captured f Hsel r Hr) as (b & i & Hb & Hi & Hop & _ & Ht).
      destruct (xf_blocks f) as [|b0 bs0]; [done|]. injection Hb as ->. cbn [convert_blocks] in Eb.
      destruct (convert_insts f (xb_insts b)) as [[out f2]|] eqn:Ei; [|done]. cbn [mbind option_bind] in Eb.
      destruct (convert_blocks f2 bs0) as [[bs2 f3]|]; [|done]. cbn [mbind option_bind] in Eb. injection Eb as <- <-.
      eapply (captured_some _ r _ i); [reflexivity|simpl; by eapply convert_keeps_untied|by eapply list_elem_of_lookup_2|]. simpl. by rewrite (sf_entry _ _ Hsf).
  - split.
    + simpl. intros ->. apply (se_blocks f Hsel). by destruct (xf_blocks f).
    + done.
    + done.
    + simpl. rewrite Esl. intros b i z Hb Hi Hz. by apply (Hslots b i).
  - split; [apply Hsf|apply Hsf|done].
Qed.

(** * The peephole before allocation *)

Lemma remove_sites_frame sites g g' :
  foldl (fun g site => g ← g; remove_site g site) (Some g) sites = Some g' -> exists bs, g' = with_blocks g bs.
Proof.
  assert (Hnone : forall sites, foldl (fun g site => g ← g; remove_site g site) None sites = None) by (by intros l; induction l).
  revert g. induction sites as [|s sites IH]; intros g; cbn [foldl].
  { intros [= <-]. exists (xf_blocks g). by destruct g. }
  cbn [mbind option_bind]. destruct (remove_site g s) as [g1|] eqn:E; [|by rewrite Hnone]. intros (bs & ->)%IH. exists bs.
  unfold remove_site in E. destruct (xf_blocks g !! s.1) as [b|]; [|done]. cbn [mbind option_bind] in E. destruct (xb_insts b !! s.2); [|done]. by injection E as <-.
Qed.

Lemma test_inst_fields z i :
  (test_inst z i = i \/ (x_opcode i = Cmp /\ exists lhs rhs, x_operands i !! 0%nat = Some (VReg lhs) /\ x_operands i !! 1%nat = Some (VReg rhs) /\
     test_inst z i = {| x_opcode := Test_; x_size := x_size i; x_operands := [VReg lhs; VReg lhs]; x_def := x_def i |})).
Proof.
  unfold test_inst, zero_cmp. destruct (x_opcode i) eqn:Eo; try (by left). destruct (x_operands i !! 0%nat) as [[lhs| | | | | | | |]|] eqn:E0; try (by left).
  destruct (x_operands i !! 1%nat) as [[rhs| | | | | | | |]|] eqn:E1; try (by left). destruct (z (vr_id rhs)); [|by left]. right. eauto 10.
Qed.

(** What a test reads, the comparison it comes from reads. *)
Lemma test_inst_operands z i op : op ∈ x_operands (test_inst z i) ++ option_list (x_def (test_inst z i)) -> op ∈ x_operands i ++ option_list (x_def i).
Proof.
  destruct (test_inst_fields z i) as [->|(_ & lhs & rhs & H0 & _ & ->)]; [done|]. cbn [x_operands x_def]. rewrite !elem_of_app, !elem_of_cons, elem_of_nil.
  intros [[->|[->|[]]]|H]; [left; by eapply list_elem_of_lookup_2..|by right].
Qed.

Lemma test_inst_selected z f g i :
  selected_inst f i -> next_vreg g = next_vreg f -> frame_slots g = frame_slots f -> selected_inst g (test_inst z i).
Proof.
  intros [H1 H2 H3 H4 H5] Ev Es. destruct (test_inst_fields z i) as [->|(Eo & lhs & rhs & E0 & E1 & Et)].
  - split; [by rewrite Ev|done|done|done|by rewrite Es].
  - split.
    + split; [intros v Hv%test_inst_operands; rewrite Ev; by apply (ts_below _ _ H1)|]. rewrite Et. simpl. intros [t Ht]. done.
    + rewrite Et. unfold shape_ok, def_ok, extension_ok. done.
    + rewrite Et. unfold operands_fit. simpl. intros fp. etransitivity; [apply count_class_length|]. rewrite (H4 Eo). simpl. lia.
    + by rewrite Et.
    + intros s Hs. rewrite Es. apply H5. apply elem_of_operand_slots. by apply elem_of_operand_slots, test_inst_operands in Hs.
Qed.

(** A block after the peephole: comparisons rewritten, some instructions removed, the
    copies of arguments kept. *)
Record trimmed (z : VRegId -> bool) (b b' : X86Block) : Prop := {
  tr_id : xb_id b' = xb_id b;
  tr_len : (length (xb_insts b') <= length (xb_insts b))%nat;
  tr_from : forall j, j ∈ xb_insts b' -> exists i, i ∈ xb_insts b /\ j = test_inst z i;
  tr_kept : forall r i, captures r i -> i ∈ xb_insts b -> i ∈ xb_insts b' }.

Lemma thinned_kept D l l' i : thinned D l l' -> i ∈ l -> is_zero_load i = false -> i ∈ l'.
Proof.
  induction 1 as [|j l l' _ IH|j l l' [Hz _] _ IH]; intros Hi Hn; [done| |]; apply elem_of_cons in Hi as [->|Hi].
  - left.
  - right. by apply IH.
  - congruence.
  - by apply IH.
Qed.

Lemma thinned_length D l l' : thinned D l l' -> (length l' <= length l)%nat.
Proof. induction 1; simpl; lia. Qed.

Lemma captures_kept z r i : captures r i -> test_inst z i = i /\ is_zero_load i = false /\ self_move i = false.
Proof.
  intros (H0 & Hd & _). split; [|split].
  - destruct (test_inst_fields z i) as [->|(_ & lhs & rhs & E0 & _)]; [done|congruence].
  - unfold is_zero_load. rewrite H0. by destruct (x_opcode i).
  - unfold self_move. rewrite H0. destruct (x_opcode i); try done. destruct (x_def i) as [[|d| | | | | | |]|]; try done.
    apply bool_decide_eq_false. congruence.
Qed.

Lemma run_peephole_trims entries f :
  lists_sites entries -> exists g n bs, run_peephole entries f = Some (g, n) /\ g = with_blocks f bs /\ Forall2 (trimmed (is_zero f)) (xf_blocks f) bs.
Proof.
  intros He. destruct (cmp_zero_spec entries He f) as (g1 & n1 & E1 & H1). unfold run_peephole. rewrite E1. cbn [mbind option_bind].
  assert (Eg : exists bs, g1 = with_blocks f bs).
  { unfold cmp_zero_to_test in E1. destruct (foldl _ _ _) as [g2|] eqn:Ef; [|done]. cbn [mbind option_bind] in E1. injection E1 as <- _.
    apply remove_sites_frame in Ef as [bs ->]. by exists bs. }
  destruct Eg as [bs1 ->]. cbn [xf_blocks with_blocks test_fn] in H1. do 3 eexists. split; [reflexivity|]. split; [reflexivity|].
  cbn [xf_blocks with_blocks]. rewrite Forall2_fmap_l in H1. apply Forall2_fmap_r. eapply Forall2_impl; [exact H1|]. intros b b' [Hid Hth]. simpl in *. split; simpl.
  - done.
  - etransitivity; [apply length_filter|]. pose proof (thinned_length _ _ _ Hth) as Hl. by rewrite length_fmap in Hl.
  - intros j [_ Hj]%list_elem_of_filter. apply (thinned_sub _ _ _ _ Hth) in Hj. apply list_elem_of_fmap in Hj as (i & -> & Hi). by exists i.
  - intros r i Hc Hi. destruct (captures_kept (is_zero f) r i Hc) as (Et & Hz & Hm). apply list_elem_of_filter. split; [done|].
    eapply thinned_kept; [exact Hth| |done]. rewrite <- Et. by apply list_elem_of_fmap_2.
Qed.

Lemma trimmed_count z bs bs' : Forall2 (trimmed z) bs bs' -> (inst_count_of bs' <= inst_count_of bs)%nat.
Proof.
  induction 1 as [|b b' bs bs' Hb _ IH]; [done|]. pose proof (tr_len _ _ _ Hb).
  change (inst_count_of (b :: bs)) with (length (xb_insts b) + inst_count_of bs)%nat. change (inst_count_of (b' :: bs')) with (length (xb_insts b') + inst_count_of bs')%nat. lia.
Qed.

Lemma trimmed_ids z bs bs' : Forall2 (trimmed z) bs bs' -> xb_id <$> bs' = xb_id <$> bs.
Proof. induction 1 as [|b b' bs bs' Hb _ IH]; [done|]. rewrite !fmap_cons, IH. by rewrite (tr_id _ _ _ Hb). Qed.

(** The peephole keeps [selected]. *)
Lemma selected_peephole entries f :
  lists_sites entries -> selected f -> exists g n, run_peephole entries f = Some (g, n) /\ selected g /\ same_data f g.
Proof.
  intros He Hsel. destruct (run_peephole_trims entries f He) as (g & n & bs & E & -> & Ht). exists (with_blocks f bs), n. split; [done|].
  pose proof (trimmed_ids _ _ _ Ht) as Hids. pose proof (trimmed_count _ _ _ Ht) as Hcount.
  assert (Hfrom : forall b j, b ∈ bs -> j ∈ xb_insts b -> exists c i, c ∈ xf_blocks f /\ i ∈ xb_insts c /\ j = test_inst (is_zero f) i).
  { intros b j [k Hk]%list_elem_of_lookup Hj. destruct (Forall2_lookup_r _ _ _ _ _ Ht Hk) as (c & Hc & Hcb).
    destruct (tr_from _ _ _ Hcb j Hj) as (i & Hi & ->). exists c, i. split; [by eapply list_elem_of_lookup_2|done]. }
  split; [|split; done]. split.
  - simpl. intros ->. apply (se_blocks f Hsel). by destruct (xf_blocks f).
  - unfold unique_blocks. simpl. rewrite Hids. apply Hsel.
  - pose proof (se_room f Hsel) as Hroom. change (inst_count (with_blocks f bs)) with (inst_count_of bs). change (inst_count f) with (inst_count_of (xf_blocks f)) in Hroom. simpl. lia.
  - apply Hsel.
  - simpl. intros r Hr. destruct (se_captured f Hsel r Hr) as (b & i & Hb & Hi & Hc). destruct (Forall2_lookup_l _ _ _ _ _ Ht Hb) as (b' & Hb' & Htb).
    exists b', i. split; [done|]. split; [by eapply (tr_kept _ _ _ Htb)|done].
  - intros b b' j j' u u' Hb Hb' Hj Hj' Hu Hu'. destruct (Hfrom b j Hb Hj) as (c & i & Hc & Hi & ->). destruct (Hfrom b' j' Hb' Hj') as (c' & i' & Hc' & Hi' & ->).
    apply (se_classes f Hsel c c' i i'); try done; apply operand_vregs_in; unfold operand_vregs; apply elem_of_operand_vregs; eapply test_inst_operands; by apply inst_vregs_operands.
  - intros b j Hb Hj. destruct (Hfrom b j Hb Hj) as (c & i & Hc & Hi & ->). eapply test_inst_selected; [by eapply (se_insts f Hsel)|done..].
Qed.
