(* ===== verification/X86Backend.v ===== *)
(** The x86-64 backend driver (src/src/codegen/mod.rs, [emit_module]): the passes in the
    order the compiler runs them, the size guard, and the assembly of the module.

    The selected functions are the input (instruction selection is not modelled), and so
    are the lines of the module's globals.  [None] is a panic of the code. *)

From stdpp Require Import pretty.
From S2P Require Import Prelude.
From stdpp Require Import list.
From S2P Require Import Slices X86Mir X86Liveness X86LinearScan X86AllocInv X86AllocSafe X86Apply X86Sem TwoAddr X86Peephole X86PeepPre X86Emit X86Shape X86Ready.

Local Open Scope string_scope.
Local Open Scope list_scope.

(** * The driver *)

(** [driver::OptLevel], in order. *)
Inductive OptLevel := O0 | O1 | O2 | O3 | Os | Ofast.

Definition level_index (l : OptLevel) : nat :=
  match l with O0 => 0 | O1 => 1 | O2 => 2 | O3 => 3 | Os => 4 | Ofast => 5 end.

(** The level, and the environment variables the backend reads. *)
Record Options := {
  opt_level : OptLevel;
  use_naive_regalloc : bool;  (* ARMFORTAS_USE_NAIVE_REGALLOC is set *)
  no_post_peep : bool }.      (* ARMFORTAS_NO_POST_PEEP is set *)

Definition at_least_o2 (opts : Options) : bool := (2 <=? level_index (opt_level opts))%nat.

Definition x86_use_linear_scan (_ : OptLevel) (force_naive : bool) : bool := negb force_naive.

Definition LIVENESS_FOOTPRINT_CAP : N := 2 * 1024 * 1024 * 1024.

Definition too_large (f : X86Function) : string :=
  "codegen: function '" +:+ xf_name f +:+ "' is too large to register-allocate (" +:+
  pretty (N.of_nat (length (xf_blocks f))) +:+ " basic blocks, " +:+ pretty (N.of_nat (inst_count f)) +:+ " instructions → " +:+
  pretty (liveness_footprint_bytes f / (1024 * 1024))%N +:+ " MB of liveness bitsets, over the " +:+
  pretty (LIVENESS_FOOTPRINT_CAP / (1024 * 1024))%N +:+
  " MB cap). This indicates an IR size explosion in lowering, not a normal program.".

(** Iteration orders of the two hash maps the passes walk. *)
Record orders := {
  site_entries : gmap VRegId (nat * nat) -> list (VRegId * (nat * nat));
  split_entries : split_map -> list (VRegId * (VRegId * N * Z)) }.

Section driver.
Context (os : orders) (opts : Options).

Definition allocate (f : X86Function) : option X86Function :=
if x86_use_linear_scan (opt_level opts) (use_naive_regalloc opts)
then '(res, f) ← linear_scan (split_entries os) f; apply_allocation f res
else regalloc_naive f.

(** The passes over one function: the allocated function, or an error. *)
Definition backend_function (f : X86Function) : option (X86Function + string) :=
f ← (if at_least_o2 opts then fst <$> run_peephole (site_entries os) f else Some f);
f ← convert_to_two_address f;
if (LIVENESS_FOOTPRINT_CAP <? liveness_footprint_bytes f)%N then Some (inr (too_large f))
else
f ← allocate f;
Some (inl (if at_least_o2 opts && negb (no_post_peep opts) then (run_peephole_post_regalloc f).1 else f)).

(** The text of a function with its constant pools. *)
Definition function_text (f : X86Function) : option (list string) :=
body ← function_lines f;
Some (body ++ (rodata f ≫= fun p => rodata_f64_lines p.1 p.2) ++ (rodata_bytes f ≫= fun p => rodata_bytes_lines p.1 p.2) ++ [EmptyString]).

Fixpoint emit_functions (funcs : list X86Function) : option (list string + string) :=
match funcs with
| [] => Some (inl [])
| f :: rest =>
r ← backend_function f;
match r with
| inr e => Some (inr e)
| inl f =>
text ← function_text f;
r ← emit_functions rest;
match r with inr e => Some (inr e) | inl more => Some (inl (text ++ more)) end
end
end.

(** The program body is wrapped in [main]. *)
Definition main_lines (prog : string) : list string :=
[".text"; ".globl main"; ".p2align 4"; ".type main,@function"; "main:"; "    pushq %rbp"; "    movq %rsp, %rbp";
"    callq afs_program_init"; "    callq " +:+ prog; "    callq afs_program_finalize"; "    xorl %eax, %eax";
"    movq %rbp, %rsp"; "    popq %rbp"; "    ret"; ".size main, .-main"].

Definition wrapper_lines (funcs : list X86Function) : list string :=
match list_find (fun f => String.prefix "__prog_" (xf_name f) = true) funcs with
| Some (_, prog) => main_lines (xf_name prog)
| None => []
end.

Definition module_lines (funcs : list X86Function) (globals : list string) : option (list string + string) :=
r ← emit_functions funcs;
match r with
| inr e => Some (inr e)
| inl text =>
Some (inl (text ++ (if bool_decide (globals = []) then [] else globals ++ [EmptyString]) ++ wrapper_lines funcs ++
 [".section .note.GNU-stack," +:+ quote +:+ quote +:+ ",@progbits"]))
end.

Definition emit_module (funcs : list X86Function) (globals : list string) : option (string + string) :=
r ← module_lines funcs globals;
match r with inr e => Some (inr e) | inl ls => Some (inl (unlines ls)) end.

End driver.

(** * The backend never panics *)

Record orders_ok (os : orders) : Prop := {
  oo_sites : lists_sites (site_entries os);
  oo_splits : lists_splits (split_entries os) }.

(** The function as the allocator gets it. *)
Definition converted (os : orders) (opts : Options) (f : X86Function) : option X86Function :=
  f ← (if at_least_o2 opts then fst <$> run_peephole (site_entries os) f else Some f);
  convert_to_two_address f.

(** Its liveness sets would not fit. *)
Definition oversized (os : orders) (opts : Options) (f : X86Function) : Prop :=
  exists g, converted os opts f = Some g /\ (LIVENESS_FOOTPRINT_CAP < liveness_footprint_bytes g)%N.

Lemma naive_classes_size f : (size (naive_classes f) <= vreg_capacity f)%nat.
Proof.
  rewrite <- size_dom. change (size (dom (naive_classes f))) with (length (elements (dom (naive_classes f)))).
  rewrite <- (length_fmap N.to_nat), <- (length_seq (vreg_capacity f) 0). apply submseteq_length, NoDup_submseteq.
  - apply NoDup_fmap_2; [intros ? ? ?; lia|]. apply NoDup_elements.
  - intros k (v & -> & Hv)%list_elem_of_fmap. apply elem_of_elements in Hv. apply elem_of_seq. split; [lia|]. simpl.
    unfold naive_classes in Hv.
    assert (H : exists u, u ∈ (xf_blocks f ≫= fun b => xb_insts b ≫= operand_vregs) /\ vr_id u = v).
    { revert Hv. induction (xf_blocks f ≫= _) as [|u l IH] using rev_ind; [set_solver|]. rewrite foldl_app. simpl. rewrite dom_insert, elem_of_union, elem_of_singleton.
      intros [->|Hv]; [exists u; split; [apply elem_of_app; right; left|done]|]. destruct (IH Hv) as (w & Hw & E). exists w. split; [apply elem_of_app; by left|done]. }
    destruct H as (u & Hu & <-). apply list_elem_of_bind in Hu as (b & Hu & Hb). apply list_elem_of_bind in Hu as (i & Hu & Hi).
    apply (capacity_bound f b i u Hb Hi). by apply operand_vregs_in.
Qed.

Section total.
Context (os : orders) (opts : Options) (Hos : orders_ok os).

Lemma converted_ready f :
selected f -> exists g, converted os opts f = Some g /\ alloc_ready g /\ rewrite_ready g /\ each_inst well_shaped g /\ same_data f g.
Proof.
intros Hs. unfold converted. destruct (at_least_o2 opts).
- destruct (selected_peephole (site_entries os) f (oo_sites os Hos) Hs) as (f1 & n & E & Hs1 & D1). rewrite E. cbn [fmap option_fmap option_map mbind option_bind fst].
destruct (selected_converts f1 Hs1) as (g & Eg & H1 & H2 & H3 & D2). exists g. do 4 (split; [done|]). by etransitivity.
- cbn [mbind option_bind]. by apply selected_converts.
Qed.

Lemma allocate_total g :
alloc_ready g -> rewrite_ready g -> each_inst well_shaped g -> exists h, allocate os opts g = Some h /\ each_inst printable h /\ same_data g h.
Proof.
intros Ha Hr Hw. unfold allocate. destruct (x86_use_linear_scan _ _).
- destruct (apply_allocation_ok (split_entries os) g (oo_splits os Hos) Ha Hr) as (res & f' & h & E1 & E2 & Hg & Hp & Hids).
rewrite E1. cbn [mbind option_bind]. exists h. split; [done|]. destruct (apply_allocation_data _ _ _ E2) as (D1 & D2 & D3). destruct Hg as [G1 G2 _ [G3 G4] _].
split; [|split; [congruence|split; congruence|done]].
assert (Hsh : each_inst well_shaped h) by (eapply apply_allocation_shaped; [exact E2|]; unfold each_inst; by rewrite G2).
intros b i Hb Hi. destruct (Hsh b i Hb Hi). split; [done|by eapply Hp|done].
- destruct (regalloc_naive_total g (ar_numbered g Ha) Hr) as (h & E & Hp & Hids).
{ pose proof (naive_classes_size g). pose proof (ar_slots g Ha). lia. }
exists h. split; [done|]. destruct (regalloc_naive_data _ _ E) as (D1 & D2 & D3). split; [|split; [done|done|done]].
pose proof (regalloc_naive_shaped _ _ E Hw) as Hsh. intros b i Hb Hi. destruct (Hsh b i Hb Hi). split; [done|by eapply Hp|done].
Qed.

Lemma backend_function_total f :
selected f ->
(exists h, backend_function os opts f = Some (inl h) /\ each_inst printable h /\ same_data f h /\ ~ oversized os opts f) \/
(exists g, backend_function os opts f = Some (inr (too_large g)) /\ converted os opts f = Some g /\ oversized os opts f).
Proof.
intros Hs. destruct (converted_ready f Hs) as (g & E & Ha & Hr & Hw & Hd). unfold backend_function.
unfold converted in E. destruct (if at_least_o2 opts then _ else _) as [f1|] eqn:E1; [|done]. cbn [mbind option_bind] in *. rewrite E. cbn [mbind option_bind].
assert (Ec : converted os opts f = Some g) by (unfold converted; by rewrite E1).
destruct (N.ltb_spec LIVENESS_FOOTPRINT_CAP (liveness_footprint_bytes g)) as [Hlt|Hge].
- right. exists g. split; [done|]. split; [done|]. by exists g.
- left. destruct (allocate_total g Ha Hr Hw) as (h & Eh & Hp & Dh). rewrite Eh. cbn [mbind option_bind].
assert (Hno : ~ oversized os opts f) by (intros (g' & Eg' & Hg'); rewrite Ec in Eg'; injection Eg' as <-; lia).
destruct (at_least_o2 opts && negb (no_post_peep opts)).
+ destruct (post_printable h Hp) as [Hp' D']. eexists. split; [done|]. split; [done|]. split; [|done]. etransitivity; [exact Hd|]. by etransitivity.
+ exists h. split; [done|]. split; [done|]. split; [by etransitivity|done].
Qed.

Lemma emit_functions_total funcs :
Forall selected funcs ->
(exists ls, emit_functions os opts funcs = Some (inl ls) /\ Forall (fun f => ~ oversized os opts f) funcs) \/
(exists f g, emit_functions os opts funcs = Some (inr (too_large g)) /\ f ∈ funcs /\ oversized os opts f /\ converted os opts f = Some g).
Proof.
induction 1 as [|f funcs Hf _ IH]; [left; by exists []|]. cbn [emit_functions].
destruct (backend_function_total f Hf) as [(h & E & Hp & _ & Hno)|(g & E & Ec & Ho)]; rewrite E; cbn [mbind option_bind].
2: { right. exists f, g. split; [done|]. split; [left|done]. }
unfold function_text. destruct (function_lines_total h Hp) as [body ->]. cbn [mbind option_bind].
destruct IH as [(ls & El & Hall)|(f' & g & El & Hin & Ho & Ec)]; rewrite El; cbn [mbind option_bind].
- left. eexists. split; [done|]. by constructor.
- right. exists f', g. split; [done|]. split; [by right|done].
Qed.

End total.

(** C16: The x86-64 backend never panics, for every level, allocator choice and iteration
    order of its hash maps: on [selected] functions it either
    returns the text of the module, or reports an error, which names a function whose
    liveness sets exceed the cap, and does so exactly when there is one. *)
Theorem backend_total os opts funcs globals :
  orders_ok os -> Forall selected funcs ->
  (exists text, emit_module os opts funcs globals = Some (inl text) /\ Forall (fun f => ~ oversized os opts f) funcs) \/
  (exists f g, emit_module os opts funcs globals = Some (inr (too_large g)) /\ f ∈ funcs /\ oversized os opts f /\ converted os opts f = Some g).
Proof.
  intros Hos Hs. unfold emit_module, module_lines. destruct (emit_functions_total os opts Hos funcs Hs) as [(ls & -> & Hall)|(f & g & -> & H)]; cbn [mbind option_bind].
  - left. by eexists.
  - right. by exists f, g.
Qed.

(** * Witness *)

(** Two string constants and two blocks. *)
Definition two_texts (name : string) : X86Function :=
  let '(l1, f) := add_rodata_bytes (new_x86_function name) [104; 105]%N in
  let '(l2, f) := add_rodata_bytes f [104; 111]%N in
  let f := (new_vreg f Gp64).2 in
  with_blocks f
    [ {| xb_id := 0; xb_insts := [ {| x_opcode := Lea; x_size := SzQ; x_operands := [RipLabel l2]; x_def := Some (VReg {| vr_id := 0; vr_class := Gp64 |}) |};
                                   {| x_opcode := Jmp; x_size := SzQ; x_operands := [BlockRef 1]; x_def := None |} ] |};
      {| xb_id := 1; xb_insts := [ {| x_opcode := Ret; x_size := SzQ; x_operands := []; x_def := None |} ] |} ].

Lemma two_texts_name name : xf_name (two_texts name) = name.
Proof. done. Qed.

Lemma two_texts_selected name : selected (two_texts name).
Proof.
  assert (Hall : forall (P : X86Inst -> Prop) l, (forall i, i ∈ (xf_blocks (two_texts name) ≫= xb_insts) -> P i) -> l = two_texts name -> each_inst P l).
  { intros P l H -> b i Hb Hi. apply H. apply list_elem_of_bind. by exists b. }
  split.
  - done.
  - apply (bool_decide_unpack _). vm_compute. done.
  - done.
  - intros k s Hk. done.
  - intros r Hr. by apply elem_of_nil in Hr.
  - intros b b' i i' u u' Hb Hb' Hi Hi' Hu Hu' _.
    assert (H : forall b i, b ∈ xf_blocks (two_texts name) -> i ∈ xb_insts b -> forall u, u ∈ inst_vregs i -> vr_class u = Gp64).
    { apply (Hall (fun i => forall u, u ∈ inst_vregs i -> vr_class u = Gp64)); [|done]. intros j Hj. simpl in Hj. rewrite !elem_of_cons in Hj.
      destruct Hj as [->|[->|[->|Hj]]]; [..|by apply elem_of_nil in Hj]; intros w Hw%inst_vregs_operands; simpl in Hw; rewrite ?elem_of_cons, ?elem_of_nil in Hw; naive_solver. }
    by rewrite (H b i), (H b' i').
  - apply Hall; [|done]. intros j Hj. simpl in Hj. rewrite !elem_of_cons in Hj. destruct Hj as [->|[->|[->|Hj]]]; [..|by apply elem_of_nil in Hj].
    all: split; [split|..]; try done.
    all: try (intros v Hv; simpl in Hv; rewrite ?elem_of_cons, ?elem_of_nil in Hv; naive_solver (simpl; lia)).
    all: try (by intros [t Ht]).
    all: try (unfold operands_fit; simpl; intros []; vm_compute; lia).
    all: intros z Hz; by apply elem_of_nil in Hz.
Qed.

(** A function that receives an i128 and a real argument into frame slots and returns. *)
Definition wide_argument (name : string) : X86Function :=
  let f := add_entry_live_in (add_entry_live_in (add_entry_live_in (new_x86_function name) Rdi) Rsi) Xmm0 in
  let '(lo, f) := alloc_frame_slot f 8 8 in
  let '(hi, f) := alloc_frame_slot f 8 8 in
  let '(re, f) := alloc_frame_slot f 8 8 in
  with_blocks f
    [ {| xb_id := 0; xb_insts := [ {| x_opcode := MovMR; x_size := SzQ; x_operands := [Reg Rdi; FrameSlot lo]; x_def := None |};
                                   {| x_opcode := MovMR; x_size := SzQ; x_operands := [Reg Rsi; FrameSlot hi]; x_def := None |};
                                   {| x_opcode := Movsd; x_size := SzQ; x_operands := [Reg Xmm0]; x_def := Some (FrameSlot re) |};
                                   {| x_opcode := Ret; x_size := SzQ; x_operands := []; x_def := None |} ] |} ].

Lemma wide_argument_selected name : selected (wide_argument name).
Proof.
  split.
  - done.
  - apply (bool_decide_unpack _). vm_compute. done.
  - done.
  - intros k s Hk. destruct k as [|[|[|k]]]; [by injection Hk as <-..|done].
  - intros r Hr. simpl in Hr. rewrite !elem_of_cons in Hr.
    destruct Hr as [->|[->|[->|Hr]]]; [..|by apply elem_of_nil in Hr]; do 2 eexists; (split; [reflexivity|]); simpl.
    + split; [left|done].
    + split; [right; left|done].
    + split; [right; right; left|done].
  - intros b b' i i' u u' Hb Hb' Hi Hi' Hu. exfalso. apply inst_vregs_operands in Hu. apply list_elem_of_singleton in Hb as ->. simpl in Hi.
    rewrite !elem_of_cons in Hi. destruct Hi as [->|[->|[->|[->|Hi]]]]; [..|by apply elem_of_nil in Hi]; simpl in Hu; rewrite ?elem_of_cons, ?elem_of_nil in Hu; naive_solver.
  - intros b j Hb Hj. apply list_elem_of_singleton in Hb as ->. simpl in Hj. rewrite !elem_of_cons in Hj. destruct Hj as [->|[->|[->|[->|Hj]]]]; [..|by apply elem_of_nil in Hj].
    all: split; [split|..]; try done.
    all: try (intros v Hv; simpl in Hv; rewrite ?elem_of_cons, ?elem_of_nil in Hv; naive_solver (simpl; lia)).
    all: try (by intros [t Ht]).
    all: try (unfold operands_fit; simpl; intros []; vm_compute; lia).
    all: apply list.Forall_forall; apply (bool_decide_unpack _); vm_compute; done.
Qed.

Definition plain_orders : orders := {| site_entries := map_to_list; split_entries := map_to_list |}.
Definition plain_opts : Options := {| opt_level := O2; use_naive_regalloc := false; no_post_peep := false |}.

Lemma plain_orders_ok : orders_ok plain_orders.
Proof. split; [by intros m|exact map_splits]. Qed.

Lemma backend_total_witness : exists text, emit_module plain_orders plain_opts [two_texts "cat"; wide_argument "wide"] [] = Some (inl text).
Proof.
  destruct (backend_total plain_orders plain_opts [two_texts "cat"; wide_argument "wide"] [] plain_orders_ok) as [(text & E & _)|(f & g & E & _ & _ & Ec)].
  - constructor; [apply two_texts_selected|constructor; [apply wide_argument_selected|constructor]].
  - exists text. exact E.
  - exfalso. clear Ec. vm_compute in E. discriminate E.
Defined.
