(* ===== verification/X86Labels.v ===== *)
(** Labels of the assembly text of a module (src/src/codegen/x86/emit.rs, mir.rs and
    src/src/codegen/mod.rs).

    A function defines its symbol, a label per block after the first, and a label per
    entry of its two constant pools.  The spellings are [name], [.Lname_id], [.LCname_k]
    and [.Lstrname_k]: they are distinct unless one function's name is another's with
    [C] or [str] in front. *)

From Stdlib Require Import Ascii.
From stdpp Require Import pretty.
From S2P Require Import Prelude.
From stdpp Require Import list.
From S2P Require Import Slices X86Mir X86Liveness X86LinearScan X86AllocInv X86AllocSafe X86Apply X86Sem TwoAddr X86Peephole X86PeepPre X86Emit X86Shape X86Ready X86Backend.

Local Open Scope string_scope.
Local Open Scope list_scope.

(** * The labels a text defines *)

(** [Some s] when the line is [s] and a colon. *)
Fixpoint strip_colon (s : string) : option string :=
  match s with
  | EmptyString => None
  | String c EmptyString => if bool_decide (c = ":"%char) then Some EmptyString else None
  | String c s => String c <$> strip_colon s
  end.

(** A label stands in the first column. *)
Definition label_of (line : string) : option string :=
  match line with String " " _ => None | _ => strip_colon line end.

Definition defined_labels (lines : list string) : list string := omap label_of lines.

(** The labels of the constant pools are numbered as [add_rodata] and
    [add_rodata_bytes] number them. *)
Record pool_labelled (f : X86Function) : Prop := {
  pl_consts : (rodata f).*1 = (fun k => ".LC" +:+ xf_name f +:+ "_" +:+ pretty k) <$> seq 0 (length (rodata f));
  pl_bytes : (rodata_bytes f).*1 = (fun k => ".Lstr" +:+ xf_name f +:+ "_" +:+ pretty k) <$> seq 0 (length (rodata_bytes f)) }.

(** * Strings *)

Fixpoint occurs (c : Ascii.ascii) (s : string) : bool :=
  match s with EmptyString => false | String d s => bool_decide (c = d) || occurs c s end.

Lemma occurs_app c s t : occurs c (s +:+ t) = occurs c s || occurs c t.
Proof. induction s as [|d s IH]; simpl; [done|]. by rewrite IH, orb_assoc. Qed.

Lemma strip_colon_label s : strip_colon (s +:+ ":") = Some s.
Proof. induction s as [|c s IH]; [done|]. simpl. rewrite IH. by destruct s. Qed.

Lemma strip_colon_none s : occurs ":" s = false -> strip_colon s = None.
Proof.
  induction s as [|c s IH]; [done|]. simpl. intros [Hc Hs]%orb_false_iff. rewrite (IH Hs). destruct s; [|done].
  apply bool_decide_eq_false in Hc. rewrite bool_decide_eq_false_2; [done|congruence].
Qed.

Lemma app_inv_head s t u : s +:+ t = s +:+ u -> t = u.
Proof. induction s as [|c s IH]; [done|]. simpl. intros [= H]. by apply IH. Qed.

(** The part after the last underscore is unambiguous. *)
Lemma split_last s s' d d' :
  occurs "_" d = false -> occurs "_" d' = false -> s +:+ "_" +:+ d = s' +:+ "_" +:+ d' -> s = s' /\ d = d'.
Proof.
  intros Hd Hd'. revert s'. induction s as [|c s IH]; intros [|c' s'] H; simpl in H.
  - simplify_eq/=. done.
  - injection H as <- H. change (EmptyString +:+ d) with d in H. subst d. rewrite occurs_app in Hd. change (occurs "_" ("_" +:+ d')) with true in Hd. by rewrite orb_true_r in Hd.
  - injection H as -> H. change (EmptyString +:+ d') with d' in H. subst d'. rewrite occurs_app in Hd'. change (occurs "_" ("_" +:+ d)) with true in Hd'. by rewrite orb_true_r in Hd'.
  - injection H as -> H. destruct (IH s' H) as [-> ->]. done.
Qed.

Lemma pretty_char_digit x : bool_decide ("_"%char = pretty_N_char x) = false.
Proof. apply bool_decide_eq_false. unfold pretty_N_char. destruct x as [|[[[|[]|]|[|[]|]|]|[[|[]|]|[|[]|]|]|]]; done. Qed.

Lemma pretty_no_underscore (x : N) : occurs "_" (pretty x) = false.
Proof.
  unfold pretty, pretty_N. case_decide; [done|].
  assert (H' : forall y s, occurs "_" s = false -> occurs "_" (pretty_N_go y s) = false).
  { intros y. induction (N.lt_wf_0 y) as [y _ IH]. intros s Hs. destruct (decide (y = 0)%N) as [->|Hne]; [done|].
    rewrite pretty_N_go_step by lia. apply IH; [apply N.div_lt; lia|]. simpl. by rewrite pretty_char_digit. }
  by apply H'.
Qed.

(** * The labels of a function *)

(** A name the assembler takes for a symbol. *)
Definition clean_name (n : string) : bool :=
  negb (occurs ":" n) && match n with String c _ => negb (bool_decide (c = " "%char)) && negb (bool_decide (c = "."%char)) | EmptyString => false end.

(** Labels before they are spelled. *)
Inductive lab := LSym (n : string) | LBlock (n : string) (id : MBlockId) | LConst (n : string) (k : nat) | LText (n : string) (k : nat).

Definition show_lab (l : lab) : string :=
  match l with
  | LSym n => n
  | LBlock n id => ".L" +:+ n +:+ "_" +:+ pretty id
  | LConst n k => ".LC" +:+ n +:+ "_" +:+ pretty k
  | LText n k => ".Lstr" +:+ n +:+ "_" +:+ pretty k
  end.

Definition fn_labs (f : X86Function) : list lab :=
  LSym (xf_name f) :: (LBlock (xf_name f) <$> drop 1 (xb_id <$> xf_blocks f)) ++
  (LConst (xf_name f) <$> seq 0 (length (rodata f))) ++ (LText (xf_name f) <$> seq 0 (length (rodata_bytes f))).

Lemma label_line s : clean_name s = true \/ (exists t, s = "." +:+ t) -> label_of (s +:+ ":") = Some s.
Proof.
  intros H. rewrite <- (strip_colon_label s). destruct s as [|c s]; [done|]. unfold label_of. change (String c s +:+ ":") with (String c (s +:+ ":")).
  destruct (decide (c = " "%char)) as [->|Hne].
  - exfalso. destruct H as [H|(t & H)]; [|discriminate H]. unfold clean_name in H. rewrite bool_decide_eq_true_2 in H by done. by rewrite andb_false_r in H.
  - destruct c as [[] [] [] [] [] [] [] []]; try done; by destruct Hne.
Qed.

Lemma plain_line s : occurs ":" s = false -> label_of s = None.
Proof. intros H. unfold label_of. rewrite (strip_colon_none s H). destruct s as [|c s]; [done|]. by destruct c as [[] [] [] [] [] [] [] []]. Qed.

Lemma indented_line s : label_of (indent s) = None.
Proof. done. Qed.

Lemma omap_none {A B} (g : A -> option B) l : (forall x, x ∈ l -> g x = None) -> omap g l = [].
Proof. induction l as [|x l IH]; intros H; [done|]. cbn. rewrite (H x) by left. apply IH. intros y Hy. apply H. by right. Qed.

Lemma defined_labels_app l1 l2 : defined_labels (l1 ++ l2) = defined_labels l1 ++ defined_labels l2.
Proof. apply omap_app. Qed.

Lemma stack_lines_none frame : defined_labels (stack_lines frame) = [].
Proof.
  apply omap_none. intros s Hs. unfold stack_lines in Hs. destruct (0 <? frame)%Z; [|by apply elem_of_nil in Hs].
  destruct (frame <=? 4096)%Z; [by apply list_elem_of_singleton in Hs as ->|]. apply elem_of_app in Hs as [Hs|Hs].
  - apply list_elem_of_join in Hs as (l & Hs & Hl). apply elem_of_replicate in Hl as [-> _]. rewrite !elem_of_cons in Hs. destruct Hs as [->|[->|Hs]]; [done|done|by apply elem_of_nil in Hs].
  - destruct (0 <? _)%Z; [by apply list_elem_of_singleton in Hs as ->|by apply elem_of_nil in Hs].
Qed.

Lemma name_no_colon n : clean_name n = true -> occurs ":" n = false.
Proof. intros [H _]%andb_true_iff. by apply negb_true_iff. Qed.

Lemma prologue_labels f : clean_name (xf_name f) = true -> defined_labels (prologue_lines f) = [xf_name f].
Proof.
  intros Hn. unfold prologue_lines, symbol. rewrite defined_labels_app, stack_lines_none, app_nil_r. pose proof (name_no_colon _ Hn) as Hc.
  unfold defined_labels. cbn [omap list_omap].
  assert (H1 : label_of (".globl " +:+ xf_name f) = None) by (apply plain_line; by rewrite occurs_app, Hc).
  assert (H2 : label_of (".type " +:+ xf_name f +:+ ",@function") = None) by (apply plain_line; by rewrite !occurs_app, Hc).
  rewrite H1, H2, (label_line (xf_name f)) by (by left). done.
Qed.

Lemma block_labels f idx b ls :
  xf_blocks f !! idx = Some b -> block_lines f idx b = Some ls ->
  defined_labels ls = if bool_decide (idx = 0%nat) then [] else [show_lab (LBlock (xf_name f) (xb_id b))].
Proof.
  intros Hb. unfold block_lines, block_label. rewrite Hb.
  assert (Hi : forall insts out, mapM (fun i => indent <$> emit_inst i f) insts = Some out -> defined_labels out = []).
  { intros insts out E. apply omap_none. intros s Hs. assert (H : Forall (fun s => label_of s = None) out); [|by eapply list.Forall_forall in H].
    apply (mapM_Forall _ _ _ _ E). intros i y _ (t & _ & ->)%fmap_Some. apply indented_line. }
  case_bool_decide; cbn [fmap option_fmap option_map mbind option_bind].
  - destruct (mapM _ _) as [out|] eqn:E; [|done]. cbn [mbind option_bind]. intros [= <-]. by eapply Hi.
  - destruct (mapM _ _) as [out|] eqn:E; [|done]. cbn [mbind option_bind]. intros [= <-]. pose proof (Hi _ _ E) as Hout. unfold defined_labels in *.
    cbn [omap list_omap app]. rewrite label_line; [by f_equal|]. right. by eexists.
Qed.

Lemma blocks_labels f k bs ls :
  (forall j b, bs !! j = Some b -> xf_blocks f !! (k + j)%nat = Some b) ->
  mapM (fun p => block_lines f p.1 p.2) (imap (fun j b => ((k + j)%nat, b)) bs) = Some ls ->
  defined_labels (mjoin ls) = show_lab <$> (LBlock (xf_name f) <$> drop (1 - k) (xb_id <$> bs)).
Proof.
  revert k ls. induction bs as [|b bs IH]; intros k ls Hbs; cbn [imap].
  { intros [= <-]. by destruct (1 - k)%nat. }
  simpl mapM. destruct (block_lines f (k + 0) b) as [l0|] eqn:E0; [|done]. cbn [mbind option_bind].
  destruct (mapM _ (imap _ bs)) as [rest|] eqn:Er; [|done]. cbn [mbind option_bind]. intros [= <-]. simpl mjoin. rewrite defined_labels_app.
  rewrite (block_labels f (k + 0) b l0 (Hbs 0%nat b eq_refl) E0).
  assert (Er' : mapM (fun p => block_lines f p.1 p.2) (imap (fun j b => ((S k + j)%nat, b)) bs) = Some rest).
  { rewrite <- Er. f_equal. apply imap_ext. intros j c _. simpl. do 2 f_equal. lia. }
  rewrite (IH (S k) rest); [|intros j c Hj; replace (S k + j)%nat with (k + S j)%nat by lia; by apply Hbs|done].
  destruct k as [|k]; [done|]. rewrite bool_decide_eq_false_2 by lia. done.
Qed.

Lemma pool_labels_const f : pool_labelled f ->
  defined_labels (rodata f ≫= fun p => rodata_f64_lines p.1 p.2) = show_lab <$> (LConst (xf_name f) <$> seq 0 (length (rodata f))).
Proof.
  intros [H _]. rewrite <- list_fmap_compose. change (show_lab ∘ LConst (xf_name f)) with (fun k : nat => ".LC" +:+ xf_name f +:+ "_" +:+ pretty k). rewrite <- H.
  assert (Hdot : Forall (fun s => exists t, s = "." +:+ t) (rodata f).*1) by (rewrite H; apply list.Forall_fmap, list.Forall_forall; intros k _; by eexists). clear H.
  induction (rodata f) as [|[s bits] l IH]; [done|]. rewrite bind_cons, defined_labels_app. rewrite fmap_cons in Hdot. apply list.Forall_cons in Hdot as [Hs Hl]. rewrite (IH Hl).
  unfold rodata_f64_lines, defined_labels. cbn [omap list_omap fst snd]. rewrite (label_line s) by (by right). done.
Qed.

Lemma pool_labels_text f : pool_labelled f ->
  defined_labels (rodata_bytes f ≫= fun p => rodata_bytes_lines p.1 p.2) = show_lab <$> (LText (xf_name f) <$> seq 0 (length (rodata_bytes f))).
Proof.
  intros [_ H]. rewrite <- list_fmap_compose. change (show_lab ∘ LText (xf_name f)) with (fun k : nat => ".Lstr" +:+ xf_name f +:+ "_" +:+ pretty k). rewrite <- H.
  assert (Hdot : Forall (fun s => exists t, s = "." +:+ t) (rodata_bytes f).*1) by (rewrite H; apply list.Forall_fmap, list.Forall_forall; intros k _; by eexists). clear H.
  induction (rodata_bytes f) as [|[s bytes] l IH]; [done|]. rewrite bind_cons, defined_labels_app. rewrite fmap_cons in Hdot. apply list.Forall_cons in Hdot as [Hs Hl]. rewrite (IH Hl).
  unfold rodata_bytes_lines. rewrite defined_labels_app. assert (Hb : defined_labels (byte_line <$> chunks (length bytes) 16 bytes) = []).
  { apply omap_none. by intros x (c & -> & _)%list_elem_of_fmap. }
  cbn [fst snd]. rewrite Hb. unfold defined_labels. cbn [omap list_omap]. rewrite (label_line s) by (by right). done.
Qed.

(** What the text of a function defines. *)
Lemma function_text_labels f ls :
  clean_name (xf_name f) = true -> pool_labelled f -> function_text f = Some ls -> defined_labels ls = show_lab <$> fn_labs f.
Proof.
  intros Hn Hp. unfold function_text, function_lines. destruct (mapM _ (imap pair (xf_blocks f))) as [blocks|] eqn:E; [|done].
  cbn [mbind option_bind]. pose proof (prologue_labels f Hn) as Hpro. revert Hpro. generalize (prologue_lines f). intros pro Hpro [= <-].
  rewrite !defined_labels_app, Hpro, (pool_labels_const f Hp), (pool_labels_text f Hp).
  rewrite (blocks_labels f 0 (xf_blocks f) blocks); [|done|done].
  assert (Hs : defined_labels [".size " +:+ symbol (xf_name f) +:+ ", .-" +:+ symbol (xf_name f)] = []).
  { apply omap_none. intros s ->%list_elem_of_singleton. apply plain_line. unfold symbol. rewrite !occurs_app, (name_no_colon _ Hn). done. }
  rewrite Hs. unfold fn_labs. rewrite fmap_cons, !fmap_app, app_nil_r. cbn [defined_labels omap list_omap label_of strip_colon]. rewrite app_nil_r. done.
Qed.

Lemma same_data_labs f g : same_data f g -> fn_labs g = fn_labs f.
Proof. intros [H1 [H2 H3] H4]. unfold fn_labs. by rewrite H1, H2, H3, H4. Qed.

Lemma same_data_pool f g : same_data f g -> pool_labelled f -> pool_labelled g.
Proof. intros [H1 [H2 H3] H4] [P1 P2]. split; by rewrite ?H1, ?H2, ?H3. Qed.

(** * Spellings *)

(** No name of the list is another one behind the prefix of a constant pool. *)
Definition names_clear (names : list string) : Prop :=
  forall n m, n ∈ names -> m ∈ names -> n <> "C" +:+ m /\ n <> "str" +:+ m.

Definition lab_name (l : lab) : string := match l with LSym n | LBlock n _ | LConst n _ | LText n _ => n end.

Lemma clean_not_dot n t : clean_name n = true -> n <> "." +:+ t.
Proof. intros H ->. unfold clean_name in H. simpl in H. by rewrite andb_false_r in H. Qed.

Lemma numbered_inj (s t : string) (a b : N) : s +:+ "_" +:+ pretty a = t +:+ "_" +:+ pretty b -> s = t /\ a = b.
Proof. intros H. apply split_last in H as [-> H]; [|apply pretty_no_underscore..]. split; [done|]. by apply (inj pretty). Qed.

Lemma dot_l_inj s t : ".L" +:+ s = ".L" +:+ t -> s = t.
Proof. apply (app_inv_head ".L"). Qed.

Lemma assoc_str (a b c : string) : (a +:+ b) +:+ c = a +:+ b +:+ c.
Proof. induction a as [|x a IH]; [done|]. change (String x ((a +:+ b) +:+ c) = String x (a +:+ b +:+ c)). by rewrite IH. Qed.

(** The three numbered labels are [.L], a stem, an underscore and a number. *)
Definition lab_stem (l : lab) : option (string * N) :=
  match l with
  | LSym _ => None
  | LBlock n id => Some (n, id)
  | LConst n k => Some ("C" +:+ n, N.of_nat k)
  | LText n k => Some ("str" +:+ n, N.of_nat k)
  end.

Lemma show_stem l s k : lab_stem l = Some (s, k) -> show_lab l = ".L" +:+ s +:+ "_" +:+ pretty k.
Proof. by destruct l; intros [= <- <-]. Qed.

Lemma stems_inj names l l' s k :
  names_clear names -> lab_name l ∈ names -> lab_name l' ∈ names -> lab_stem l = Some (s, k) -> lab_stem l' = Some (s, k) -> l = l'.
Proof.
  intros Hc Hn Hn' E E'. destruct l as [n|n a|n a|n a], l' as [m|m b|m b|m b]; try done; injection E as Es Ek; injection E' as Es' Ek'; simpl in *; subst.
  - done.
  - by destruct (Hc ("C" +:+ m) m Hn Hn') as [[] _].
  - by destruct (Hc ("str" +:+ m) m Hn Hn') as [_ []].
  - by destruct (Hc ("C" +:+ n) n Hn' Hn) as [[] _].
  - apply (app_inv_head "C") in Es' as ->. apply Nat2N.inj in Ek' as ->. done.
  - discriminate Es'.
  - by destruct (Hc ("str" +:+ n) n Hn' Hn) as [_ []].
  - discriminate Es'.
  - apply (app_inv_head "str") in Es' as ->. apply Nat2N.inj in Ek' as ->. done.
Qed.

Lemma show_lab_inj names l l' :
  names_clear names -> Forall (fun n => clean_name n = true) names -> lab_name l ∈ names -> lab_name l' ∈ names -> show_lab l = show_lab l' -> l = l'.
Proof.
  intros Hc Hcl Hn Hn' E. rewrite list.Forall_forall in Hcl.
  destruct (lab_stem l) as [[s k]|] eqn:El, (lab_stem l') as [[s' k']|] eqn:El'.
  - rewrite (show_stem _ _ _ El), (show_stem _ _ _ El') in E. apply dot_l_inj, numbered_inj in E as [-> ->]. by eapply stems_inj.
  - destruct l'; try done. rewrite (show_stem _ _ _ El) in E. simpl in Hn'. by destruct (clean_not_dot n ("L" +:+ s +:+ "_" +:+ pretty k) (Hcl n Hn')).
  - destruct l; try done. rewrite (show_stem _ _ _ El') in E. simpl in Hn. by destruct (clean_not_dot n ("L" +:+ s' +:+ "_" +:+ pretty k') (Hcl n Hn)).
  - destruct l, l'; try done. simpl in E. by subst.
Qed.

(** * Modules *)

Lemma fn_labs_name f l : l ∈ fn_labs f -> lab_name l = xf_name f.
Proof.
  unfold fn_labs. rewrite elem_of_cons, !elem_of_app. intros [->|[H|[H|H]]]; [done|..]; apply list_elem_of_fmap in H as (x & -> & _); done.
Qed.

Lemma fn_labs_nodup f : unique_blocks f -> NoDup (fn_labs f).
Proof.
  intros Hu. unfold fn_labs. apply NoDup_cons. split.
  - rewrite !elem_of_app. intros [H|[H|H]]; by apply list_elem_of_fmap in H as (? & ? & _).
  - apply NoDup_app. split; [apply NoDup_fmap_2; [by intros ? ? [= ?]|]; by eapply sublist_NoDup, sublist_drop|]. split.
    + intros l (a & -> & _)%list_elem_of_fmap. rewrite elem_of_app. intros [H|H]; by apply list_elem_of_fmap in H as (? & ? & _).
    + apply NoDup_app. split; [apply NoDup_fmap_2; [by intros ? ? [= ?]|apply NoDup_seq]|]. split.
      * intros l (a & -> & _)%list_elem_of_fmap H. by apply list_elem_of_fmap in H as (? & ? & _).
      * apply NoDup_fmap_2; [by intros ? ? [= ?]|apply NoDup_seq].
Qed.

Definition module_labs (funcs : list X86Function) : list lab := funcs ≫= fn_labs.

Lemma module_labs_nodup funcs : NoDup (xf_name <$> funcs) -> Forall unique_blocks funcs -> NoDup (module_labs funcs).
Proof.
  intros Hn Hu. rewrite list.Forall_forall in Hu. apply NoDup_bind.
  - intros f g l Hf Hg Hl Hl'. apply fn_labs_name in Hl, Hl'. apply list_elem_of_lookup in Hf as [i Hi]. apply list_elem_of_lookup in Hg as [j Hj].
    assert (i = j); [|congruence]. eapply (NoDup_lookup (xf_name <$> funcs)); [done|rewrite list_lookup_fmap, Hi; reflexivity|]. rewrite list_lookup_fmap, Hj. simpl. congruence.
  - intros f Hf. by apply fn_labs_nodup, Hu.
  - by eapply NoDup_fmap_1.
Qed.

Section modules.
Context (os : orders) (opts : Options) (Hos : orders_ok os).

Lemma emit_functions_labels funcs ls :
Forall selected funcs -> Forall pool_labelled funcs -> Forall (fun f => clean_name (xf_name f) = true) funcs ->
emit_functions os opts funcs = Some (inl ls) -> defined_labels ls = show_lab <$> module_labs funcs.
Proof.
intros Hs Hp Hn. revert ls. induction funcs as [|f funcs IH]; intros ls; cbn [emit_functions]; [by intros [= <-]|].
apply list.Forall_cons in Hs as [Hsf Hs], Hp as [Hpf Hp], Hn as [Hnf Hn].
destruct (backend_function_total os opts Hos f Hsf) as [(h & E & _ & Hd & _)|(g & E & _)]; rewrite E; cbn [mbind option_bind]; [|done].
destruct (function_text h) as [text|] eqn:Et; [|done]. cbn [mbind option_bind]. destruct (emit_functions os opts funcs) as [[more|]|]; try done. cbn [mbind option_bind].
intros [= <-]. rewrite defined_labels_app, (IH Hs Hp Hn more eq_refl). unfold module_labs. rewrite bind_cons, fmap_app. f_equal.
rewrite (function_text_labels h text); [by rewrite (same_data_labs f h Hd)|by rewrite (sd_name _ _ Hd)|by eapply same_data_pool|done].
Qed.

End modules.

Lemma main_labels n : clean_name n = true -> defined_labels (main_lines n) = ["main"].
Proof. done. Qed.

(** The main program of a module, for which [main] is emitted. *)
Definition has_program (funcs : list X86Function) : bool := existsb (fun f => String.prefix "__prog_" (xf_name f)) funcs.

Lemma wrapper_labels funcs :
  Forall (fun f => clean_name (xf_name f) = true) funcs -> defined_labels (wrapper_lines funcs) = if has_program funcs then ["main"] else [].
Proof.
  intros H. unfold wrapper_lines, has_program. destruct (list_find _ funcs) as [[k prog]|] eqn:E.
  - apply list_find_Some in E as (Hk & Hp & _). apply list_elem_of_lookup_2 in Hk. rewrite (proj2 (existsb_exists _ _)).
    + rewrite list.Forall_forall in H. by apply main_labels, H.
    + exists prog. split; [by apply list_elem_of_In|done].
  - apply list_find_None in E. destruct (existsb _ funcs) eqn:Ee; [|done]. apply existsb_exists in Ee as (f & Hf & Hp).
    rewrite list.Forall_forall in E. exfalso. by apply (E f); [apply list_elem_of_In|].
Qed.

(** The symbols of a module: its functions, the symbols the lines of the globals define, and [main]. *)
Definition symbols (funcs : list X86Function) (globals : list string) : list string :=
  (xf_name <$> funcs) ++ defined_labels globals ++ (if has_program funcs then ["main"] else []).

Lemma show_lab_symbol (names : list string) l : clean_name (show_lab l) = true -> lab_name l ∈ names -> show_lab l ∈ names.
Proof. intros Hc Hl. destruct l; [done|..]; exfalso; by apply (clean_not_dot _ _ Hc eq_refl). Qed.

(** C17: The labels of an assembled module are distinct: the symbols of the functions and
    of the globals, block labels and constant labels of all functions, and [main] when there
    is a main program, are defined once each.  This holds of [selected] functions with numbered
    pools when the symbols are distinct and well-formed (so that no function next to a
    main program is called [main]) and no function's name is another's with [C] or [str] in front. *)
Theorem labels_distinct os opts funcs globals ls :
  orders_ok os -> Forall selected funcs -> Forall pool_labelled funcs ->
  NoDup (symbols funcs globals) -> Forall (fun n => clean_name n = true) (symbols funcs globals) ->
  names_clear (xf_name <$> funcs) ->
  module_lines os opts funcs globals = Some (inl ls) -> NoDup (defined_labels ls).
Proof.
  intros Hos Hs Hp Hnd Hcl Hnc. unfold module_lines. destruct (emit_functions os opts funcs) as [[text|]|] eqn:E; try done. cbn [mbind option_bind].
  intros [= <-]. apply list.Forall_app in Hcl as [Hcn Hcg]. apply list.NoDup_app in Hnd as (Hnn & Hdis & Hng).
  assert (Hcl' : Forall (fun f => clean_name (xf_name f) = true) funcs) by (by rewrite list.Forall_fmap in Hcn).
  assert (Hin : forall l, l ∈ module_labs funcs -> lab_name l ∈ xf_name <$> funcs).
  { intros l (f & Hl & Hf)%list_elem_of_bind. rewrite (fn_labs_name f l Hl). by apply list_elem_of_fmap_2. }
  assert (Eg : defined_labels (if bool_decide (globals = []) then [] else globals ++ [EmptyString]) = defined_labels globals).
  { case_bool_decide as Hg; [by rewrite Hg|]. by rewrite defined_labels_app, app_nil_r. }
  rewrite !defined_labels_app, (emit_functions_labels os opts Hos funcs text Hs Hp Hcl' E), Eg, (wrapper_labels funcs Hcl').
  change (defined_labels [".section .note.GNU-stack," +:+ quote +:+ quote +:+ ",@progbits"]) with (@nil string). rewrite app_nil_r.
  apply list.NoDup_app. split; [|split; [|done]].
  - apply NoDup_fmap_2_strong; [intros l l' Hl Hl'; by apply (show_lab_inj (xf_name <$> funcs)); auto|].
    apply module_labs_nodup; [done|]. eapply list.Forall_impl; [exact Hs|]. intros f Hf. apply Hf.
  - intros s (l & -> & Hl)%list_elem_of_fmap Hm. apply (Hdis (show_lab l)); [|done].
    apply show_lab_symbol; [|by apply Hin]. rewrite list.Forall_forall in Hcg. by apply Hcg.
Qed.

(** ** The pools are numbered *)

Lemma add_rodata_labelled f bits : pool_labelled f -> pool_labelled (add_rodata f bits).2.
Proof.
  intros [H1 H2]. unfold add_rodata. destruct (list_find _ (rodata f)) as [[k [label b]]|]; [done|]. split; simpl; [|done].
  rewrite fmap_app, length_app, H1. simpl. by rewrite Nat.add_1_r, seq_S, fmap_app.
Qed.

Lemma add_rodata_bytes_labelled f bytes : pool_labelled f -> pool_labelled (add_rodata_bytes f bytes).2.
Proof.
  intros [H1 H2]. unfold add_rodata_bytes. destruct (list_find _ (rodata_bytes f)) as [[k [label b]]|]; [done|]. split; simpl; [done|].
  rewrite fmap_app, length_app, H2. simpl. by rewrite Nat.add_1_r, seq_S, fmap_app.
Qed.

Lemma two_texts_labelled name : pool_labelled (two_texts name).
Proof.
  pose proof (add_rodata_bytes_labelled _ [104; 111]%N (add_rodata_bytes_labelled (new_x86_function name) [104; 105]%N ltac:(done))) as [H1 H2]. by split.
Qed.

(** Distinct procedures can make the module unassemblable: a procedure [cat] with two
    string constants and a procedure [strcat] with two blocks both define [.Lstrcat_1]. *)
Theorem label_clash :
  exists ls, module_lines plain_orders plain_opts [two_texts "cat"; two_texts "strcat"] [] = Some (inl ls) /\ ~ NoDup (defined_labels ls).
Proof.
  destruct (module_lines plain_orders plain_opts [two_texts "cat"; two_texts "strcat"] []) as [[ls|e]|] eqn:E; [|vm_compute in E; discriminate E..].
  exists ls. split; [done|]. vm_compute in E. injection E as <-. intros H. apply (bool_decide_pack _) in H. vm_compute in H. exact H.
Qed.

(** Two procedures and a main program, next to a global. *)
Lemma labels_distinct_witness :
  exists ls, module_lines plain_orders plain_opts [two_texts "cat"; two_texts "dog"; two_texts "__prog_p"] ["x:"; "    .quad 0"] = Some (inl ls) /\
    "main" ∈ defined_labels ls /\ NoDup (defined_labels ls).
Proof.
  destruct (module_lines plain_orders plain_opts [two_texts "cat"; two_texts "dog"; two_texts "__prog_p"] ["x:"; "    .quad 0"]) as [[ls|e]|] eqn:E;
    [|vm_compute in E; discriminate E..].
  exists ls. split; [reflexivity|]. split; [vm_compute in E; injection E as <-; apply (bool_decide_unpack _); vm_compute; exact I|].
  apply (labels_distinct plain_orders plain_opts [two_texts "cat"; two_texts "dog"; two_texts "__prog_p"] ["x:"; "    .quad 0"] ls plain_orders_ok).
  - constructor; [apply two_texts_selected|]. constructor; [apply two_texts_selected|]. constructor; [apply two_texts_selected|constructor].
  - constructor; [apply two_texts_labelled|]. constructor; [apply two_texts_labelled|]. constructor; [apply two_texts_labelled|constructor].
  - apply (bool_decide_unpack _). vm_compute. exact I.
  - repeat constructor.
  - intros n m Hn Hm. simpl in Hn, Hm. rewrite !elem_of_cons, elem_of_nil in Hn, Hm. destruct Hn as [->|[->|[->|[]]]], Hm as [->|[->|[->|[]]]]; split; discriminate.
  - exact E.
Defined.
