(* ===== verification/ArmMir.v ===== *)
(** The AArch64 machine IR (src/src/codegen/arm64/mir.rs): opcodes, conditions,
    operands, instructions, blocks, stack frames and machine functions.

    [VRegId] and [MBlockId] wrap a [u32] and are [N]; [i32] and [u32] fields of a
    frame are [Z] with the wrap-around of a release build. *)

From stdpp Require Import pretty.
From S2P Require Import Prelude.
Local Open Scope string_scope.
Local Open Scope list_scope.

Notation VRegId := N (only parsing).
Notation MBlockId := N (only parsing).

Inductive RegClass := Gp64 | Gp32Class | Fp64 | Fp32Class | V128.

Record VReg := { vreg_id : VRegId; vreg_class_of : RegClass }.

Inductive ArmOpcode :=
| AddReg | AddsReg | AdcReg | AddImm | SubReg | SubsReg | SbcReg | SubImm | Mul | Sdiv | Madd | Msub | Neg
| AndReg | OrrReg | EorReg | OrnReg
| LslReg | LsrReg | AsrReg
| Mvn | Clz | Rbit
| CmpReg | CmpImm | Cset | CselReg | FCmpReg | FCset | FcselReg
| FaddS | FaddD | FsubS | FsubD | FmulS | FmulD | FdivS | FdivD | FnegS | FnegD | FabsS | FabsD | FsqrtS | FsqrtD
| FmaddS | FmaddD
| AddV4S | AddV2D | SubV4S | SubV2D | MulV4S | NegV4S | NegV2D | AbsV4S | AbsV2D
| FaddV4S | FaddV2D | FsubV4S | FsubV2D | FmulV4S | FmulV2D | FdivV4S | FdivV2D
| FnegV4S | FnegV2D | FabsV4S | FabsV2D | FsqrtV4S | FsqrtV2D | FmlaV4S | FmlaV2D
| BslV16B | FcmgtV4S | FcmgtV2D | FcmgeV4S | FcmgeV2D | FcmeqV4S | FcmeqV2D | CmgtV4S | CmgeV4S | CmeqV4S
| FminV4S | FminV2D | FmaxV4S | FmaxV2D | SminV4S | SmaxV4S | UminV4S | UmaxV4S
| FaddpV2S | FaddpV4S | FaddpV2D | Faddv4S | Sminv4S | Smaxv4S | FmaxvV4S | FminvV4S
| FmaxpV2DScalar | FminpV2DScalar | AddpV2D | Uminv4S | Umaxv4S | Addv4S
| DupGen4S | DupGen2D | DupEl4S | DupEl2D | Ins4S | Ins2D | Umov4S | Umov2D | FmovEl4S | FmovEl2D
| LdrQ | StrQ | Mov16B | FmsubS | FmsubD | FnmsubS | FnmsubD
| ScvtfSW | ScvtfDW | ScvtfSX | ScvtfDX | FcvtzsWS | FcvtzsWD | FcvtzsXS | FcvtzsXD | FcvtSD | FcvtDS
| MovImm | Movz | Movk | Movn | MovReg | FmovReg | CallArgCopyStart | CallResultCopyEnd
| StrImm | LdrImm | StrhImm | LdrshImm | StrbImm | LdrsbImm | StrFpImm | LdrFpImm
| LdrReg | StrReg | LdrFpReg | StrFpReg | StpPre | LdpPost | StpOffset | LdpOffset | AdrpLdr | AdrpAdd | AdrpGotLdr
| B | BLong | BCond | Cbz | Cbnz | Tbz | Tbnz | Bl | Blr | Ret
| Sxtw | Sxth | Sxtb
| Nop | Brk.

Definition reads_def_operand (o : ArmOpcode) : bool :=
  match o with FmlaV4S | FmlaV2D | BslV16B | Ins4S | Ins2D | Movk => true | _ => false end.

Inductive ArmCond := CEq | CNe | CHs | CLo | CMi | CPl | CHi | CLs | CGe | CLt | CGt | CLe.

#[global] Instance ArmCond_eq_dec : EqDecision ArmCond.
Proof. solve_decision. Defined.

Definition inverse (c : ArmCond) : ArmCond :=
  match c with
  | CEq => CNe | CNe => CEq | CHs => CLo | CLo => CHs | CMi => CPl | CPl => CMi
  | CHi => CLs | CLs => CHi | CGe => CLt | CLt => CGe | CGt => CLe | CLe => CGt
  end.

Lemma inverse_involutive c : inverse (inverse c) = c.
Proof. by destruct c. Qed.

Inductive PhysReg := Gp (n : N) | Gp32 (n : N) | Fp (n : N) | Fp32 (n : N) | Sp | Xzr | Wzr.

#[global] Instance PhysReg_eq_dec : EqDecision PhysReg.
Proof. solve_decision. Defined.

(** [PhysReg::FP] and [PhysReg::LR]. *)
Definition FP : PhysReg := Gp 29.
Definition LR : PhysReg := Gp 30.

Inductive MachineOperand :=
| OpVReg (v : VRegId) | OpPhys (r : PhysReg) | OpImm (v : Z) | OpFrameSlot (off : Z) | OpCond (c : ArmCond)
| OpBlock (b : MBlockId) | OpExtern (s : string) | OpGlobal (s : string) | OpConstPool (n : N) | OpShift (n : N).

#[global] Instance MachineOperand_eq_dec : EqDecision MachineOperand.
Proof. solve_decision. Defined.

Record MachineInst := { opcode : ArmOpcode; operands : list MachineOperand; def : option VRegId }.

Record MachineBlock := { mb_id : MBlockId; mb_label : string; mb_insts : list MachineInst }.

(** [MachineBlock::new]. *)
Definition new_machine_block (id : MBlockId) (label : string) : MachineBlock :=
  {| mb_id := id; mb_label := label; mb_insts := [] |}.

(** Floating-point constants by their bit patterns. *)
Inductive ConstPoolEntry := PoolF32 (bits : Z) | PoolF64 (bits : Z) | PoolI64 (v : Z) | PoolBytes (bs : list N).

(** * Stack frames *)

Record FrameSlot := { slot_offset : Z; slot_size : Z }.

Record StackFrame := {
  locals : list FrameSlot;
  sf_size : Z;
  next_offset : Z;
  outgoing_arg_size : Z }.

(** [StackFrame::new]. *)
Definition new_frame : StackFrame := {| locals := []; sf_size := 16; next_offset := 0; outgoing_arg_size := 0 |}.

Definition u32z (n : Z) : Z := (n mod 2 ^ 32)%Z.

(** [recompute_size]. *)
Definition recompute_size (f : StackFrame) : StackFrame :=
  let raw := u32z (16 + u32z (next_offset f) + outgoing_arg_size f) in
  {| locals := locals f; sf_size := Z.land (u32z (raw + 15)) (Z.lnot 15);
     next_offset := next_offset f; outgoing_arg_size := outgoing_arg_size f |}.

Definition slot_align (size : Z) : Z := if (16 <=? size)%Z then 16 else if (8 <=? size)%Z then 8 else 4.

(** [StackFrame::alloc_local]: the frame and the slot's offset. *)
Definition alloc_local (f : StackFrame) (size : Z) : StackFrame * Z :=
  let align := slot_align size in
  let next := swrap 32 (next_offset f + swrap 32 size) in
  let next := Z.land (swrap 32 (next + align - 1)) (Z.lnot (align - 1)) in
  let offset := swrap 32 (- next) in
  (recompute_size {| locals := locals f ++ [{| slot_offset := offset; slot_size := size |}];
                     sf_size := sf_size f; next_offset := next; outgoing_arg_size := outgoing_arg_size f |}, offset).

(** [StackFrame::reserve_outgoing_args]. *)
Definition reserve_outgoing_args (f : StackFrame) (size : Z) : StackFrame :=
  if (outgoing_arg_size f <? size)%Z then
    recompute_size {| locals := locals f; sf_size := sf_size f; next_offset := next_offset f; outgoing_arg_size := size |}
  else f.

(** * Machine functions *)

Record MachineFunction := {
  mf_name : string;
  mf_blocks : list MachineBlock;
  mf_frame : StackFrame;
  mf_vregs : list VReg;
  const_pool : list ConstPoolEntry;
  mf_internal_only : bool;
  entry_arg_receipts : list VRegId;
  callee_save_slots : list (PhysReg * Z);
  long_branch_labels : gmap MBlockId string;
  mf_next_vreg : N;
  mf_next_block : N }.

Definition u32n (n : N) : N := (n mod 2 ^ 32)%N.

(** [MachineFunction::new]. *)
Definition new_machine_function (name : string) : MachineFunction :=
  {| mf_name := name; mf_blocks := [new_machine_block 0 ("_" +:+ name)]; mf_frame := new_frame; mf_vregs := [];
     const_pool := []; mf_internal_only := false; entry_arg_receipts := []; callee_save_slots := [];
     long_branch_labels := ∅; mf_next_vreg := 0; mf_next_block := 1 |}.

Definition with_blocks (f : MachineFunction) (bs : list MachineBlock) : MachineFunction :=
  {| mf_name := mf_name f; mf_blocks := bs; mf_frame := mf_frame f; mf_vregs := mf_vregs f;
     const_pool := const_pool f; mf_internal_only := mf_internal_only f; entry_arg_receipts := entry_arg_receipts f;
     callee_save_slots := callee_save_slots f; long_branch_labels := long_branch_labels f;
     mf_next_vreg := mf_next_vreg f; mf_next_block := mf_next_block f |}.

Definition with_next_block (f : MachineFunction) (n : N) : MachineFunction :=
  {| mf_name := mf_name f; mf_blocks := mf_blocks f; mf_frame := mf_frame f; mf_vregs := mf_vregs f;
     const_pool := const_pool f; mf_internal_only := mf_internal_only f; entry_arg_receipts := entry_arg_receipts f;
     callee_save_slots := callee_save_slots f; long_branch_labels := long_branch_labels f;
     mf_next_vreg := mf_next_vreg f; mf_next_block := n |}.

Definition with_long_labels (f : MachineFunction) (m : gmap MBlockId string) : MachineFunction :=
  {| mf_name := mf_name f; mf_blocks := mf_blocks f; mf_frame := mf_frame f; mf_vregs := mf_vregs f;
     const_pool := const_pool f; mf_internal_only := mf_internal_only f; entry_arg_receipts := entry_arg_receipts f;
     callee_save_slots := callee_save_slots f; long_branch_labels := m;
     mf_next_vreg := mf_next_vreg f; mf_next_block := mf_next_block f |}.

Definition with_frame (f : MachineFunction) (fr : StackFrame) : MachineFunction :=
  {| mf_name := mf_name f; mf_blocks := mf_blocks f; mf_frame := fr; mf_vregs := mf_vregs f;
     const_pool := const_pool f; mf_internal_only := mf_internal_only f; entry_arg_receipts := entry_arg_receipts f;
     callee_save_slots := callee_save_slots f; long_branch_labels := long_branch_labels f;
     mf_next_vreg := mf_next_vreg f; mf_next_block := mf_next_block f |}.

(** [new_vreg]. *)
Definition new_vreg (f : MachineFunction) (c : RegClass) : MachineFunction * VRegId :=
  let id := mf_next_vreg f in
  ({| mf_name := mf_name f; mf_blocks := mf_blocks f; mf_frame := mf_frame f;
      mf_vregs := mf_vregs f ++ [{| vreg_id := id; vreg_class_of := c |}];
      const_pool := const_pool f; mf_internal_only := mf_internal_only f; entry_arg_receipts := entry_arg_receipts f;
      callee_save_slots := callee_save_slots f; long_branch_labels := long_branch_labels f;
      mf_next_vreg := u32n (id + 1); mf_next_block := mf_next_block f |}, id).

(** [vreg_class]. *)
Definition vreg_class (f : MachineFunction) (id : VRegId) : option RegClass :=
  v ← mf_vregs f !! N.to_nat id;
  if decide (vreg_id v = id) then Some (vreg_class_of v) else None.

(** [next_block_id]. *)
Definition next_block_id (f : MachineFunction) : MachineFunction * N :=
  let id := mf_next_block f in (with_next_block f (u32n (id + 1)), id).

(** [new_block]. *)
Definition new_block (f : MachineFunction) (label : string) : MachineFunction * MBlockId :=
  let '(f, id) := next_block_id f in
  (with_blocks f (mf_blocks f ++ [new_machine_block id label]), id).

(** [block] and [block_mut]: the position read or written; [None] is the panic. *)
Definition block_index (f : MachineFunction) (id : MBlockId) : option nat :=
  if decide (mb_id <$> mf_blocks f !! N.to_nat id = Some id) then Some (N.to_nat id)
  else fst <$> list_find (fun b => mb_id b = id) (mf_blocks f).

Definition block (f : MachineFunction) (id : MBlockId) : option MachineBlock :=
  block_index f id ≫= (mf_blocks f !!.).

(** [ensure_long_branch_label]. *)
Definition ensure_long_branch_label (f : MachineFunction) (target : MBlockId) : option MachineFunction :=
  match long_branch_labels f !! target with
  | Some _ => Some f
  | None =>
      _ ← block f target;
      Some (with_long_labels f
        (<[target := "larmfortas_" +:+ mf_name f +:+ "_long_" +:+ pretty target]> (long_branch_labels f)))
  end.

(** [add_const]. *)
Definition add_const (f : MachineFunction) (e : ConstPoolEntry) : MachineFunction * N :=
  ({| mf_name := mf_name f; mf_blocks := mf_blocks f; mf_frame := mf_frame f; mf_vregs := mf_vregs f;
      const_pool := const_pool f ++ [e]; mf_internal_only := mf_internal_only f; entry_arg_receipts := entry_arg_receipts f;
      callee_save_slots := callee_save_slots f; long_branch_labels := long_branch_labels f;
      mf_next_vreg := mf_next_vreg f; mf_next_block := mf_next_block f |}, u32n (N.of_nat (length (const_pool f)))).

(** [MachineFunction::alloc_local] and [MachineFunction::reserve_outgoing_args]. *)
Definition function_alloc_local (f : MachineFunction) (size : Z) : MachineFunction * Z :=
  let '(fr, off) := alloc_local (mf_frame f) size in (with_frame f fr, off).

Definition function_reserve_outgoing_args (f : MachineFunction) (size : Z) : MachineFunction :=
  with_frame f (reserve_outgoing_args (mf_frame f) size).

Example frame_example :
  let f := reserve_outgoing_args (alloc_local (alloc_local new_frame 4).1 16).1 8 in
  slot_offset <$> locals f = [-4; -32]%Z /\ sf_size f = 64%Z.
Proof. vm_compute. done. Qed.

(** * Layout of frames *)

Lemma land_align x k : (0 <= k)%Z -> Z.land x (Z.lnot (2 ^ k - 1)) = (x / 2 ^ k * 2 ^ k)%Z.
Proof.
  intros Hk. replace (2 ^ k - 1)%Z with (Z.ones k) by (rewrite Z.ones_equiv; lia). rewrite <- Z.ldiff_land, Z.ldiff_ones_r by done.
  by rewrite Z.shiftl_mul_pow2, Z.shiftr_div_pow2 by done.
Qed.

Lemma slot_align_pow size : exists k, (0 <= k)%Z /\ slot_align size = (2 ^ k)%Z /\ (slot_align size <= 16)%Z.
Proof.
  unfold slot_align. destruct (16 <=? size)%Z; [by exists 4%Z|]. destruct (8 <=? size)%Z; [by exists 3%Z | by exists 2%Z].
Qed.

(** Rounding up to the alignment of a slot. *)
Lemma round_up x size :
  let r := Z.land (x + slot_align size - 1) (Z.lnot (slot_align size - 1)) in
  (x <= r < x + slot_align size)%Z /\ (slot_align size | r)%Z.
Proof.
  destruct (slot_align_pow size) as (k & Hk & -> & _). rewrite land_align by done.
  assert (0 < 2 ^ k)%Z by (by apply Z.pow_pos_nonneg). split; [|by apply Z.divide_factor_r].
  pose proof (Z.mul_div_le (x + 2 ^ k - 1) (2 ^ k)). pose proof (Z.mul_succ_div_gt (x + 2 ^ k - 1) (2 ^ k)). lia.
Qed.

(** The sizes in bytes that a frame can still take without leaving [i32]. *)
Definition room (f : StackFrame) (n : Z) : Prop := (0 <= n /\ next_offset f + outgoing_arg_size f + n + 64 < 2 ^ 31)%Z.

(** Slots lie below the frame pointer, above the outgoing arguments, aligned, and
    each one below the slots allocated before it. *)
Record frame_ok (f : StackFrame) : Prop := {
  fo_next : (0 <= next_offset f)%Z;
  fo_out : (0 <= outgoing_arg_size f)%Z;
  fo_small : (next_offset f + outgoing_arg_size f + 32 < 2 ^ 31)%Z;
  fo_size : (16 | sf_size f)%Z /\ (16 + next_offset f + outgoing_arg_size f <= sf_size f)%Z;
  fo_inside : forall s, s ∈ locals f -> (- next_offset f <= slot_offset s /\ slot_offset s + slot_size s <= 0)%Z;
  fo_aligned : forall s, s ∈ locals f -> (slot_align (slot_size s) | slot_offset s)%Z;
  fo_below : forall i j a b, locals f !! i = Some a -> locals f !! j = Some b -> (i < j)%nat ->
    (slot_offset b + slot_size b <= slot_offset a)%Z }.

(** The frames a compilation can reach while there is room. *)
Inductive frame_reach : StackFrame -> Prop :=
| reach_new : frame_reach new_frame
| reach_alloc f size : frame_reach f -> room f size -> frame_reach (alloc_local f size).1
| reach_reserve f size : frame_reach f -> room f size -> frame_reach (reserve_outgoing_args f size).

Lemma recompute_size_spec f :
  (0 <= next_offset f)%Z -> (0 <= outgoing_arg_size f)%Z -> (next_offset f + outgoing_arg_size f + 32 < 2 ^ 31)%Z ->
  (16 | sf_size (recompute_size f))%Z /\ (16 + next_offset f + outgoing_arg_size f <= sf_size (recompute_size f))%Z.
Proof.
  intros Hn Ho Hs. unfold recompute_size. cbn [sf_size]. unfold u32z.
  rewrite !(Z.mod_small (next_offset f)) by lia. rewrite !Z.mod_small by (rewrite ?Z.mod_small; lia).
  pose proof (round_up (16 + next_offset f + outgoing_arg_size f) 16) as [H1 H2]. change (slot_align 16) with 16%Z in *.
  change (16 - 1)%Z with 15%Z in *. replace (16 + next_offset f + outgoing_arg_size f + 15)%Z
    with (16 + next_offset f + outgoing_arg_size f + 16 - 1)%Z by lia. split; [done | lia].
Qed.

Lemma alloc_local_next f size :
  frame_ok f -> room f size ->
  exists next, (next_offset f + size <= next < next_offset f + size + 16)%Z /\ (slot_align size | next)%Z /\
    alloc_local f size = (recompute_size {| locals := locals f ++ [{| slot_offset := - next; slot_size := size |}];
      sf_size := sf_size f; next_offset := next; outgoing_arg_size := outgoing_arg_size f |}, (- next)%Z).
Proof.
  intros [Hn Ho Hs _ _ _ _] [Hsz Hroom]. destruct (slot_align_pow size) as (k & Hk & Ea & Hle).
  assert (Hal : (0 < slot_align size)%Z) by (rewrite Ea; by apply Z.pow_pos_nonneg).
  pose proof (round_up (next_offset f + size) size) as [Hr Hd]. unfold alloc_local.
  assert (Hw : forall z, (- 2 ^ 31 <= z < 2 ^ 31)%Z -> swrap 32 z = z) by (intros z Hz; by apply swrap_id).
  rewrite (Hw size), (Hw (next_offset f + size)%Z), (Hw (next_offset f + size + slot_align size - 1)%Z) by lia.
  rewrite Hw by lia. eexists. split; [|split; [exact Hd | done]]. lia.
Qed.

Lemma alloc_local_ok f size : frame_ok f -> room f size -> frame_ok (alloc_local f size).1.
Proof.
  intros Hok Hroom. destruct (alloc_local_next f size Hok Hroom) as (next & Hnext & Hdiv & ->).
  destruct Hok as [Hn Ho Hs Hsz Hin Hal Hbel], Hroom as [Hp Hroom]. cbn [fst].
  destruct (recompute_size_spec {| locals := locals f ++ [{| slot_offset := - next; slot_size := size |}];
      sf_size := sf_size f; next_offset := next; outgoing_arg_size := outgoing_arg_size f |}) as [Hd Hle];
    cbn [next_offset outgoing_arg_size] in *; [lia | lia | lia |].
  split; cbn [recompute_size locals next_offset outgoing_arg_size]; [lia | lia | lia | done | | |].
  - intros s [Hsl| ->%list_elem_of_singleton]%elem_of_app; [|simpl; lia]. specialize (Hin s Hsl). lia.
  - intros s [Hsl| ->%list_elem_of_singleton]%elem_of_app; [by apply Hal|]. simpl. by apply Z.divide_opp_r.
  - intros i j a b Hi Hj Hij. pose proof (lookup_lt_Some _ _ _ Hj) as Hjl. rewrite length_app in Hjl. simpl in Hjl.
    rewrite lookup_app_l in Hi by lia. destruct (decide (j < length (locals f))%nat) as [Hlt|Hge].
    + rewrite lookup_app_l in Hj by done. by eapply Hbel.
    + rewrite lookup_app_r in Hj by lia. replace (j - length (locals f))%nat with 0%nat in Hj by lia.
      simpl in Hj. simplify_eq. simpl. apply list_elem_of_lookup_2 in Hi. specialize (Hin a Hi). lia.
Qed.

Lemma reserve_outgoing_args_ok f size : frame_ok f -> room f size -> frame_ok (reserve_outgoing_args f size).
Proof.
  intros Hok [Hp Hroom]. unfold reserve_outgoing_args. destruct (Z.ltb_spec (outgoing_arg_size f) size) as [Hlt|]; [|done].
  destruct Hok as [Hn Ho Hs Hsz Hin Hal Hbel].
  destruct (recompute_size_spec {| locals := locals f; sf_size := sf_size f; next_offset := next_offset f;
      outgoing_arg_size := size |}) as [Hd Hle]; cbn [next_offset outgoing_arg_size] in *; [lia | lia | lia |].
  split; cbn [recompute_size locals next_offset outgoing_arg_size]; [lia | lia | lia | done | done | done | done].
Qed.

Lemma frame_reach_ok f : frame_reach f -> frame_ok f.
Proof.
  induction 1 as [|f size _ IH Hr|f size _ IH Hr]; [|by apply alloc_local_ok | by apply reserve_outgoing_args_ok].
  split; simpl; [lia | lia | lia | split; [by exists 1%Z | lia] | intros s Hs | intros s Hs | intros i j a b Hi].
  - by apply not_elem_of_nil in Hs.
  - by apply not_elem_of_nil in Hs.
  - done.
Qed.

(** * Properties *)

(** AArch64 frames stay well-formed through every sequence of slot allocations and
    argument reservations that fits in 31 bits: the size is a multiple of 16 and
    covers the saved pair, the slots and the outgoing arguments; slots are aligned to
    their size class, lie between the outgoing arguments and the frame pointer, and
    are pairwise disjoint. *)
Theorem arm_frame_sound f :
  frame_reach f ->
  (16 | sf_size f)%Z /\
  (forall s, s ∈ locals f -> (slot_align (slot_size s) | slot_offset s)%Z /\
     (outgoing_arg_size f - (sf_size f - 16) <= slot_offset s /\ slot_offset s + slot_size s <= 0)%Z) /\
  (forall i j a b, locals f !! i = Some a -> locals f !! j = Some b -> i <> j ->
     (slot_offset a + slot_size a <= slot_offset b \/ slot_offset b + slot_size b <= slot_offset a)%Z).
Proof.
  intros [Hn Ho Hs [Hd Hsz] Hin Hal Hbel]%frame_reach_ok. split; [done|]. split.
  - intros s Hsl. split; [by apply Hal|]. specialize (Hin s Hsl). lia.
  - intros i j a b Hi Hj Hij. destruct (decide (i < j)%nat); [right; by eapply Hbel | left; eapply Hbel; [done..|lia]].
Qed.

Lemma arm_frame_sound_witness : (16 | sf_size (alloc_local (alloc_local new_frame 4).1 16).1)%Z.
Proof.
  apply arm_frame_sound. apply reach_alloc; [apply reach_alloc; [apply reach_new|]|]; vm_compute; split; done || congruence.
Defined.
