(* ===== verification/ArmText.v ===== *)
(** Text of operands, immediates and addresses in the AArch64 printer
    (src/src/codegen/arm64/emit.rs).

    A [u64] is an [N], an [i64] a [Z]; [None] is a panic.  A printed
    instruction of several lines separates them by a newline and four spaces. *)

From Stdlib Require Import Ascii.
From stdpp Require Import pretty.
From S2P Require Import Prelude Slices ArmMir.
Local Open Scope string_scope.
Local Open Scope list_scope.

Definition newline : Ascii.ascii := Ascii.ascii_of_nat 10.
Definition indent : string := String newline "    ".

(** [s.starts_with(c)] *)
Definition starts_with (c : Ascii.ascii) (s : string) : bool :=
  match s with String d _ => Ascii.eqb c d | EmptyString => false end.

Arguments starts_with c%_char s%_string.

(** [&s[1..]] *)
Definition tail_str (s : string) : string := match s with String _ s => s | EmptyString => EmptyString end.

(** * Numbers *)

(** The digits of a number, written from the end of the buffer. *)
Fixpoint decimal_loop (fuel : nat) (value : N) (digits : string) : string :=
  match fuel with
  | O => digits
  | S fuel =>
      let digits := String (Ascii.ascii_of_N (48 + value mod 10)) digits in
      let value := (value / 10)%N in
      if (value =? 0)%N then digits else decimal_loop fuel value digits
  end.

Definition append_u64_decimal (value : N) : string := decimal_loop (S (N.to_nat (N.size value))) value EmptyString.

(** * Immediates *)

Definition imm_shifts : list N := [0; 16; 32; 48]%N.

(** One 16-bit part of [write_u64_imm_into]. *)
Definition imm_part (reg : string) (value : N) (st : string * bool) (shift : N) : string * bool :=
  let '(out, wrote_part) := st in
  let chunk := N.land (N.shiftr value shift) 65535 in
  if (chunk =? 0)%N then (out, wrote_part)
  else if wrote_part then
    (out +:+ indent +:+ "movk " +:+ reg +:+ ", #" +:+ append_u64_decimal chunk +:+ ", lsl #" +:+ append_u64_decimal shift, true)
  else
    (out +:+ "movz " +:+ reg +:+ ", #" +:+ append_u64_decimal chunk +:+
       (if (shift =? 0)%N then EmptyString else ", lsl #" +:+ append_u64_decimal shift), true).

Definition write_u64_imm_into (reg : string) (value : N) : string :=
  let '(out, wrote_part) := foldl (imm_part reg value) (EmptyString, false) imm_shifts in
  if (wrote_part : bool) then out else out +:+ "movz " +:+ reg +:+ ", #0".

Definition fmt_u64_imm (reg : string) (value : N) : string := write_u64_imm_into reg value.

(** [value as u64] *)
Definition as_u64 (value : Z) : N := Z.to_N (value mod 2 ^ 64).

Definition fmt_mov_imm (reg : string) (value : Z) : string :=
  let bits := if starts_with "w" reg then N.land (as_u64 value) 4294967295 else as_u64 value in
  fmt_u64_imm reg bits.

Definition append_gp_imm_line (op dest base : string) (magnitude : N) (shift_12 : bool) : string :=
  op +:+ " " +:+ dest +:+ ", " +:+ base +:+ ", #" +:+ append_u64_decimal magnitude +:+
    (if shift_12 then ", lsl #12" else EmptyString).

(** The [while] loop of [write_gp_imm_into]: the text, the rest and whether a line was written. *)
Fixpoint gp_imm_loop (fuel : nat) (op dest base out : string) (remaining : N) (wrote_line : bool) : option (string * N * bool) :=
  match fuel with
  | O => None
  | S fuel =>
      if (4096 <=? remaining)%N then
        let chunk := N.min (N.shiftr remaining 12) 4095 in
        let out := if wrote_line then out +:+ indent +:+ append_gp_imm_line op dest dest chunk true
                   else out +:+ append_gp_imm_line op dest base chunk true in
        gp_imm_loop fuel op dest base out (remaining - N.shiftl chunk 12) true
      else Some (out, remaining, wrote_line)
  end.

(** A [u32] takes at most 257 parts. *)
Definition gp_imm_fuel : nat := 258.

Definition inverse_imm_op (op : string) : option string :=
  if bool_decide (op = "add") then Some "sub" else if bool_decide (op = "sub") then Some "add" else None.

Definition write_gp_imm_into (op dest base : string) (dest_base_alias dest_is_sp : bool) (n : Z) : option string :=
  op ← (if (0 <=? n)%Z then Some op else inverse_imm_op op);
  let magnitude := Z.to_N (Z.abs n) in
  if (magnitude <=? 4095)%N then Some (append_gp_imm_line op dest base magnitude false)
  else if negb dest_base_alias && negb dest_is_sp then
    Some (write_u64_imm_into dest magnitude +:+ indent +:+ op +:+ " " +:+ dest +:+ ", " +:+ base +:+ ", " +:+ dest)
  else if (magnitude <=? 4294967295)%N then
    '(out, remaining, wrote_line) ← gp_imm_loop gp_imm_fuel op dest base EmptyString magnitude false;
    Some (if (0 <? remaining)%N then
            if wrote_line : bool then out +:+ indent +:+ append_gp_imm_line op dest dest remaining false
            else out +:+ append_gp_imm_line op dest base remaining false
          else out)
  else None.

(** [reg.strip_prefix('x').or_else(|| reg.strip_prefix('w'))], when only digits follow. *)
Definition is_ascii_digit (c : Ascii.ascii) : bool := let n := Ascii.nat_of_ascii c in (48 <=? n)%nat && (n <=? 57)%nat.

Fixpoint all_digits (s : string) : bool :=
  match s with EmptyString => true | String c s => is_ascii_digit c && all_digits s end.

Definition gp_reg_index (reg : string) : option string :=
  match reg with
  | String c index => if (Ascii.eqb c "x"%char || Ascii.eqb c "w"%char) && all_digits index then Some index else None
  | EmptyString => None
  end.

Definition gp_regs_alias (lhs rhs : string) : bool :=
  match gp_reg_index lhs, gp_reg_index rhs with Some a, Some b => bool_decide (a = b) | _, _ => false end.

Definition fmt_gp_imm (op dest base : string) (n : Z) : option string :=
  write_gp_imm_into op dest base (gp_regs_alias dest base) (bool_decide (dest = "sp")) n.

Definition in_range (lo hi n : Z) : bool := (lo <=? n)%Z && (n <=? hi)%Z.

Definition fmt_sp_imm (op dest base : string) (n : Z) : string :=
  if in_range 0 4095 n then op +:+ " " +:+ dest +:+ ", " +:+ base +:+ ", #" +:+ pretty n
  else
    let lo := Z.land n 65535 in
    let hi := Z.land (Z.shiftr n 16) 65535 in
    let mov := if (hi =? 0)%Z then "movz x16, #" +:+ pretty lo
               else "movz x16, #" +:+ pretty lo +:+ indent +:+ "movk x16, #" +:+ pretty hi +:+ ", lsl #16" in
    mov +:+ indent +:+ op +:+ " " +:+ dest +:+ ", " +:+ base +:+ ", x16".

Definition STACK_PROBE_STRIDE : Z := 16 * 1024.

Fixpoint probe_loop (fuel : nat) (remaining : Z) (lines : list string) : list string :=
  match fuel with
  | O => lines
  | S fuel =>
      if (0 <? remaining)%Z then
        let step := Z.min remaining STACK_PROBE_STRIDE in
        probe_loop fuel (remaining - step) (lines ++ [fmt_sp_imm "sub" "sp" "sp" step; "str xzr, [sp]"])
      else lines
  end.

Definition fmt_stack_alloc (frame_size : Z) : string :=
  if (frame_size <=? STACK_PROBE_STRIDE)%Z then fmt_sp_imm "sub" "sp" "sp" frame_size
  else String.concat indent (probe_loop (S (Z.to_nat (frame_size / STACK_PROBE_STRIDE + 1))) frame_size []).

Definition fmt_addr_with_offset (dest base : string) (offset : Z) (scratch : string) : string :=
  if (offset =? 0)%Z then "mov " +:+ dest +:+ ", " +:+ base
  else if in_range 0 4095 offset then "add " +:+ dest +:+ ", " +:+ base +:+ ", #" +:+ pretty offset
  else if in_range (-4095) (-1) offset then "sub " +:+ dest +:+ ", " +:+ base +:+ ", #" +:+ pretty (- offset)%Z
  else
    let imm := fmt_u64_imm scratch (Z.to_N (Z.abs offset)) in
    let op := if (offset <? 0)%Z then "sub" else "add" in
    imm +:+ indent +:+ op +:+ " " +:+ dest +:+ ", " +:+ base +:+ ", " +:+ scratch.

(** The first reserved register that no operand of the access names. *)
Definition address_scratch (avoid : list string) : option string :=
  snd <$> list_find (fun candidate => existsb (gp_regs_alias candidate) avoid = false) ["x8"; "x9"; "x10"; "x11"].

(** * Operands *)

Definition cond_str (c : ArmCond) : string :=
  match c with
  | CEq => "eq" | CNe => "ne" | CHs => "hs" | CLo => "lo" | CMi => "mi" | CPl => "pl"
  | CHi => "hi" | CLs => "ls" | CGe => "ge" | CLt => "lt" | CGt => "gt" | CLe => "le"
  end.

(** Mach-O symbols carry an underscore. *)
Definition mach_symbol (name : string) : string := if starts_with "_" name then name else "_" +:+ name.

(** [OperandText]'s [Display], which [op_str] prints. *)
Definition op_str (op : MachineOperand) : string :=
  match op with
  | OpVReg id => "v" +:+ pretty id
  | OpPhys Sp => "sp"
  | OpPhys Xzr => "xzr"
  | OpPhys Wzr => "wzr"
  | OpPhys (Gp n) => "x" +:+ pretty n
  | OpPhys (Gp32 n) => "w" +:+ pretty n
  | OpPhys (Fp n) => "d" +:+ pretty n
  | OpPhys (Fp32 n) => "s" +:+ pretty n
  | OpImm v => "#" +:+ pretty v
  | OpFrameSlot off => "[fp, #" +:+ pretty off +:+ "]"
  | OpCond c => cond_str c
  | OpBlock id => "bb" +:+ pretty id
  | OpExtern name => name
  | OpGlobal name => mach_symbol name
  | OpConstPool idx => "cp" +:+ pretty idx
  | OpShift s => "lsl #" +:+ pretty s
  end.

(** [OperandText::append_to]: registers without the formatter. *)
Definition append_to (op : MachineOperand) : string :=
  match op with
  | OpVReg id => "v" +:+ append_u64_decimal id
  | OpPhys Sp => "sp"
  | OpPhys Xzr => "xzr"
  | OpPhys Wzr => "wzr"
  | OpPhys (Gp n) => "x" +:+ append_u64_decimal n
  | OpPhys (Gp32 n) => "w" +:+ append_u64_decimal n
  | _ => op_str op
  end.

Definition gp_operand_width (op : MachineOperand) : option N :=
  match op with
  | OpPhys (Gp _ | Sp | Xzr) => Some 64%N
  | OpPhys (Gp32 _ | Wzr) => Some 32%N
  | _ => None
  end.

Definition gp_index (op : MachineOperand) : option N :=
  match op with OpPhys (Gp n | Gp32 n) => Some n | _ => None end.

Definition gp_operands_alias (lhs rhs : MachineOperand) : bool :=
  match gp_index lhs, gp_index rhs with Some a, Some b => bool_decide (a = b) | _, _ => false end.

(** A vector or floating-point register under the letter of a view. *)
Definition fp_view (letter : string) (op : MachineOperand) : option string :=
  match op with
  | OpVReg id => Some (letter +:+ pretty id)
  | OpPhys (Fp n | Fp32 n) => Some (letter +:+ pretty n)
  | _ => None
  end.

Definition q_reg (op : MachineOperand) : string := default ("q" +:+ op_str op) (fp_view "q" op).
Definition fp32_scalar (op : MachineOperand) : string := default (op_str op) (fp_view "s" op).
Definition fp64_scalar (op : MachineOperand) : string := default (op_str op) (fp_view "d" op).
Definition v_reg_bare (op : MachineOperand) : string := default (op_str op) (fp_view "v" op).
Definition v_lane_bare (op : MachineOperand) (lane : Z) : string :=
  default (op_str op) (fp_view "v" op) +:+ "[" +:+ pretty lane +:+ "]".

(** [v as u8] *)
Definition imm_u8 (op : MachineOperand) : Z := match op with OpImm v => (v mod 256)%Z | _ => 0%Z end.

Definition fp_reg_str (op : MachineOperand) (is_f64 : bool) : string :=
  match op with
  | OpPhys (Fp n | Fp32 n) => (if is_f64 then "d" else "s") +:+ pretty n
  | _ => op_str op
  end.

Definition const_pool_label (func : string) (idx : N) : string := "__" +:+ func +:+ "_cp" +:+ pretty idx.

Example imm_example : fmt_mov_imm "x3" (-2) = "movz x3, #65534" +:+ indent +:+ "movk x3, #65535, lsl #16" +:+ indent +:+
  "movk x3, #65535, lsl #32" +:+ indent +:+ "movk x3, #65535, lsl #48".
Proof. reflexivity. Qed.

Example gp_imm_example : fmt_gp_imm "sub" "sp" "sp" 10632 = Some ("sub sp, sp, #2, lsl #12" +:+ indent +:+ "sub sp, sp, #2440").
Proof. reflexivity. Qed.
