(* ===== verification/ArmEmit.v ===== *)
(** The assembly printer of the AArch64 backend (src/src/codegen/arm64/emit.rs).

    [emit_common_inst_into] writes the common instructions without an intermediate
    string and leaves the others to [emit_inst].  [None] is a panic; a common
    printer that returns [Some None] wrote nothing. *)

From Stdlib Require Import Ascii.
From stdpp Require Import pretty.
From S2P Require Import Prelude Slices ArmMir ArmText.
Local Open Scope string_scope.
Local Open Scope list_scope.

(** * Lines *)

Definition line1 (mn : string) (a : option string) : option string := a ← a; Some (mn +:+ " " +:+ a).

Definition line2 (mn : string) (a b : option string) : option string :=
  a ← a; b ← b; Some (mn +:+ " " +:+ a +:+ ", " +:+ b).

Definition line3 (mn : string) (a b c : option string) : option string :=
  a ← a; b ← b; c ← c; Some (mn +:+ " " +:+ a +:+ ", " +:+ b +:+ ", " +:+ c).

Definition line4 (mn : string) (a b c d : option string) : option string :=
  a ← a; b ← b; c ← c; d ← d; Some (mn +:+ " " +:+ a +:+ ", " +:+ b +:+ ", " +:+ c +:+ ", " +:+ d).

(** [inst.operands[k]] *)
Definition opnd (i : MachineInst) (k : nat) : option MachineOperand := operands i !! k.
Definition op_at (i : MachineInst) (k : nat) : option string := op_str <$> opnd i k.
Definition app_at (i : MachineInst) (k : nat) : option string := append_to <$> opnd i k.

Definition imm_or (d : Z) (op : MachineOperand) : Z := match op with OpImm v => v | _ => d end.
Definition cond_or_eq (op : MachineOperand) : string := match op with OpCond c => cond_str c | _ => "eq" end.
Definition shift_or_0 (op : MachineOperand) : N := match op with OpShift s => s | _ => 0%N end.
Definition offset_or_0 (op : MachineOperand) : Z := match op with OpFrameSlot off => off | OpImm v => v | _ => 0%Z end.

Definition target_label (mf : MachineFunction) (op : MachineOperand) : option string :=
  match op with OpBlock id => mb_label <$> block mf id | _ => Some "???" end.

(** * The common instructions *)

Definition emitted (t : option string) : option (option string) := t ← t; Some (Some t).

(** [add] and [sub] of an immediate; [None] inside: left to [emit_inst]. *)
Definition common_imm (i : MachineInst) (op : string) (imm : option Z) : option (option string) :=
  match imm with
  | None => Some None
  | Some n =>
      d ← opnd i 0; b ← opnd i 1;
      emitted (write_gp_imm_into op (append_to d) (append_to b) (gp_operands_alias d b) (bool_decide (d = OpPhys Sp)) n)
  end.

Definition common_mov_wide (i : MachineInst) (mnemonic : string) : option (option string) :=
  imm ← opnd i 1; shift ← opnd i 2; d ← op_at i 0;
  if match opcode i with Movz => true | _ => false end && (shift_or_0 shift =? 0)%N then
    emitted (Some (mnemonic +:+ " " +:+ d +:+ ", #" +:+ pretty (imm_or 0 imm)))
  else emitted (Some (mnemonic +:+ " " +:+ d +:+ ", #" +:+ pretty (imm_or 0 imm) +:+ ", lsl #" +:+ pretty (shift_or_0 shift))).

(** Loads and stores with a small offset. *)
Definition common_mem (i : MachineInst) (mnemonic : string) : option (option string) :=
  off ← opnd i 2;
  let offset := offset_or_0 off in
  if negb (in_range (-256) 255 offset) then Some None
  else r ← op_at i 0; b ← op_at i 1;
       emitted (Some (mnemonic +:+ " " +:+ r +:+ ", [" +:+ b +:+ ", #" +:+ pretty offset +:+ "]")).

Definition common_indexed (i : MachineInst) (mnemonic : string) : option (option string) :=
  sh ← opnd i 3; r ← op_at i 0; b ← op_at i 1; x ← op_at i 2;
  let shift := imm_or 0 sh in
  if (shift =? 0)%Z then emitted (Some (mnemonic +:+ " " +:+ r +:+ ", [" +:+ b +:+ ", " +:+ x +:+ "]"))
  else emitted (Some (mnemonic +:+ " " +:+ r +:+ ", [" +:+ b +:+ ", " +:+ x +:+ ", lsl #" +:+ pretty shift +:+ "]")).

Definition load_mnemonic (o : ArmOpcode) : string := match o with LdrsbImm => "ldrsb" | LdrshImm => "ldrsh" | _ => "ldr" end.
Definition store_mnemonic (o : ArmOpcode) : string := match o with StrbImm => "strb" | StrhImm => "strh" | _ => "str" end.

Definition emit_common_inst_into (i : MachineInst) (mf : MachineFunction) : option (option string) :=
  let op := op_at i in
  match opcode i with
  | AddReg => emitted (line3 "add" (op 0) (op 1) (op 2))
  | AddsReg => emitted (line3 "adds" (op 0) (op 1) (op 2))
  | AdcReg => emitted (line3 "adc" (op 0) (op 1) (op 2))
  | AddImm =>
      k ← opnd i 2;
      common_imm i "add"
        match k with
        | OpFrameSlot off => Some off
        | OpImm v => if bool_decide (v = -1)%Z then None else Some v
        | _ => None
        end
  | SubReg => emitted (line3 "sub" (op 0) (op 1) (op 2))
  | SubsReg => emitted (line3 "subs" (op 0) (op 1) (op 2))
  | SbcReg => emitted (line3 "sbc" (op 0) (op 1) (op 2))
  | SubImm =>
      k ← opnd i 2;
      common_imm i "sub" match k with OpImm v => if bool_decide (v = -1)%Z then None else Some v | _ => None end
  | Mul => emitted (line3 "mul" (op 0) (op 1) (op 2))
  | Sdiv => emitted (line3 "sdiv" (op 0) (op 1) (op 2))
  | Madd => emitted (line4 "madd" (op 0) (op 1) (op 2) (op 3))
  | Msub => emitted (line4 "msub" (op 0) (op 1) (op 2) (op 3))
  | Neg => emitted (line2 "neg" (op 0) (op 1))
  | AndReg => emitted (line3 "and" (op 0) (op 1) (op 2))
  | OrrReg => emitted (line3 "orr" (op 0) (op 1) (op 2))
  | EorReg => emitted (line3 "eor" (op 0) (op 1) (op 2))
  | OrnReg => emitted (line3 "orn" (op 0) (op 1) (op 2))
  | LslReg => emitted (line3 "lsl" (op 0) (op 1) (op 2))
  | LsrReg => emitted (line3 "lsr" (op 0) (op 1) (op 2))
  | AsrReg => emitted (line3 "asr" (op 0) (op 1) (op 2))
  | Mvn => emitted (line2 "mvn" (op 0) (op 1))
  | Clz => emitted (line2 "clz" (op 0) (op 1))
  | Rbit => emitted (line2 "rbit" (op 0) (op 1))
  | CmpReg => emitted (line2 "cmp" (op 0) (op 1))
  | CmpImm => imm ← opnd i 1; d ← op 0; emitted (Some ("cmp " +:+ d +:+ ", #" +:+ pretty (imm_or 0 imm)))
  | Cset | FCset => emitted (line2 "cset" (op 0) (cond_or_eq <$> opnd i 1))
  | CselReg => emitted (line4 "csel" (op 0) (op 1) (op 2) (cond_or_eq <$> opnd i 3))
  | FCmpReg => emitted (line2 "fcmp" (op 0) (op 1))
  | FcselReg => emitted (line4 "fcsel" (op 0) (op 1) (op 2) (cond_or_eq <$> opnd i 3))
  | FaddS | FaddD => emitted (line3 "fadd" (op 0) (op 1) (op 2))
  | FsubS | FsubD => emitted (line3 "fsub" (op 0) (op 1) (op 2))
  | FmulS | FmulD => emitted (line3 "fmul" (op 0) (op 1) (op 2))
  | FdivS | FdivD => emitted (line3 "fdiv" (op 0) (op 1) (op 2))
  | FnegS | FnegD => emitted (line2 "fneg" (op 0) (op 1))
  | FabsS | FabsD => emitted (line2 "fabs" (op 0) (op 1))
  | FsqrtS | FsqrtD => emitted (line2 "fsqrt" (op 0) (op 1))
  | FmaddS | FmaddD => emitted (line4 "fmadd" (op 0) (op 1) (op 2) (op 3))
  | FmsubS | FmsubD => emitted (line4 "fmsub" (op 0) (op 1) (op 2) (op 3))
  | FnmsubS | FnmsubD => emitted (line4 "fnmsub" (op 0) (op 1) (op 2) (op 3))
  | ScvtfSW | ScvtfDW | ScvtfSX | ScvtfDX => emitted (line2 "scvtf" (op 0) (op 1))
  | FcvtzsWS | FcvtzsWD | FcvtzsXS | FcvtzsXD => emitted (line2 "fcvtzs" (op 0) (op 1))
  | Movz => common_mov_wide i "movz"
  | Movk => common_mov_wide i "movk"
  | Movn => common_mov_wide i "movn"
  | MovReg =>
      d ← opnd i 0; s ← opnd i 1;
      if bool_decide (gp_operand_width d = None) || negb (bool_decide (gp_operand_width d = gp_operand_width s)) then Some None
      else emitted (line2 "mov" (op 0) (op 1))
  | FmovReg => emitted (line2 "fmov" (op 0) (op 1))
  | LdrImm | LdrFpImm | LdrsbImm | LdrshImm => common_mem i (load_mnemonic (opcode i))
  | StrImm | StrFpImm | StrbImm | StrhImm => common_mem i (store_mnemonic (opcode i))
  | LdrReg | LdrFpReg => common_indexed i "ldr"
  | StrReg | StrFpReg => common_indexed i "str"
  | B =>
      t ← opnd i 0;
      match t with
      | OpBlock id => emitted (line1 "b" (mb_label <$> block mf id))
      | OpExtern name => if starts_with "_" name then emitted (Some ("b " +:+ name)) else emitted (Some ("b _" +:+ name))
      | _ => emitted (Some "b ???")
      end
  | BCond => emitted (c ← opnd i 0; t ← opnd i 1 ≫= target_label mf; Some ("b." +:+ cond_or_eq c +:+ " " +:+ t))
  | Cbz => emitted (line2 "cbz" (op 0) (opnd i 1 ≫= target_label mf))
  | Cbnz => emitted (line2 "cbnz" (op 0) (opnd i 1 ≫= target_label mf))
  | Tbz | Tbnz =>
      let mnemonic := match opcode i with Tbz => "tbz" | _ => "tbnz" end in
      emitted (bit ← opnd i 1; t ← opnd i 2 ≫= target_label mf; r ← op 0;
               Some (mnemonic +:+ " " +:+ r +:+ ", #" +:+ pretty (imm_or 0 bit) +:+ ", " +:+ t))
  | Bl =>
      t ← opnd i 0;
      match t with
      | OpExtern name => if starts_with "_" name then emitted (Some ("bl " +:+ name)) else emitted (Some ("bl _" +:+ name))
      | _ => emitted (Some "bl ???")
      end
  | Blr => emitted (line1 "blr" (op 0))
  | Sxtw => emitted (line2 "sxtw" (op 0) (op 1))
  | Sxth => emitted (line2 "sxth" (op 0) (op 1))
  | Sxtb => emitted (line2 "sxtb" (op 0) (op 1))
  | Ret => emitted (Some "ret")
  | Nop => emitted (Some "nop")
  | Brk => imm ← opnd i 0; emitted (Some ("brk #" +:+ pretty (imm_or 1 imm)))
  | _ => Some None
  end.

(** * The canonical printer *)

(** The frame size without the saved pair, which the sentinel -1 stands for. *)
Definition saved_pair_offset (mf : MachineFunction) : Z := Z.max 0 (sf_size (mf_frame mf) - 16).

Definition emit_add_imm (i : MachineInst) (mf : MachineFunction) : option string :=
  dest ← op_at i 0; base ← op_at i 1; k ← opnd i 2;
  match k with
  | OpFrameSlot off => fmt_gp_imm "add" dest base off
  | OpImm v => if bool_decide (v = -1)%Z then Some (fmt_sp_imm "add" dest base (saved_pair_offset mf)) else fmt_gp_imm "add" dest base v
  | _ => Some ("add " +:+ dest +:+ ", " +:+ base +:+ ", " +:+ op_str k)
  end.

Definition emit_sub_imm (i : MachineInst) (mf : MachineFunction) : option string :=
  dest ← op_at i 0; base ← op_at i 1; k ← opnd i 2;
  match k with
  | OpImm v => if bool_decide (v = -1)%Z then Some (fmt_sp_imm "sub" dest base (saved_pair_offset mf)) else fmt_gp_imm "sub" dest base v
  | _ => fmt_gp_imm "sub" dest base 0
  end.

Definition emit_mov_imm (i : MachineInst) : option string :=
  match operands i with
  | [OpPhys (Gp _ | Gp32 _) as dest; OpImm value] => Some (fmt_mov_imm (op_str dest) value)
  | _ => None
  end.

Definition emit_movz (i : MachineInst) : option string :=
  imm ← opnd i 1; shift ← opnd i 2; d ← op_at i 0;
  if (shift_or_0 shift =? 0)%N then Some ("movz " +:+ d +:+ ", #" +:+ pretty (imm_or 0 imm))
  else Some ("movz " +:+ d +:+ ", #" +:+ pretty (imm_or 0 imm) +:+ ", lsl #" +:+ pretty (shift_or_0 shift)).

Definition emit_mov_shifted (i : MachineInst) (mnemonic : string) : option string :=
  imm ← opnd i 1; shift ← opnd i 2; d ← op_at i 0;
  Some (mnemonic +:+ " " +:+ d +:+ ", #" +:+ pretty (imm_or 0 imm) +:+ ", lsl #" +:+ pretty (shift_or_0 shift)).

(** A move between registers, by the first letters of their names. *)
Definition mov_text (dest src : string) : string :=
  let dest_is_x := starts_with "x" dest in
  let dest_is_w := starts_with "w" dest in
  let src_is_w := starts_with "w" src in
  let src_is_x := starts_with "x" src in
  let dest_is_gp := dest_is_x || dest_is_w in
  let src_is_gp := src_is_x || src_is_w in
  let dest_is_fp := starts_with "s" dest || starts_with "d" dest in
  let src_is_fp := starts_with "s" src || starts_with "d" src in
  if dest_is_gp && src_is_fp then
    let gp := if starts_with "d" src then (if dest_is_x then dest else "x" +:+ tail_str dest)
              else if dest_is_w then dest else "w" +:+ tail_str dest in
    "fmov " +:+ gp +:+ ", " +:+ src
  else if dest_is_fp && src_is_gp then
    let gp := if starts_with "d" dest then (if src_is_x then src else "x" +:+ tail_str src)
              else if src_is_w then src else "w" +:+ tail_str src in
    "fmov " +:+ dest +:+ ", " +:+ gp
  else if dest_is_x && src_is_w then "uxtw " +:+ dest +:+ ", " +:+ src
  else if dest_is_w && src_is_x then "mov " +:+ dest +:+ ", w" +:+ tail_str src
  else "mov " +:+ dest +:+ ", " +:+ src.

Definition emit_mem (i : MachineInst) (mnemonic : string) : option string :=
  r ← op_at i 0; base ← op_at i 1; off ← opnd i 2;
  let offset := offset_or_0 off in
  if in_range (-256) 255 offset then Some (mnemonic +:+ " " +:+ r +:+ ", [" +:+ base +:+ ", #" +:+ pretty offset +:+ "]")
  else
    addr ← address_scratch [r; base];
    Some (fmt_addr_with_offset addr base offset addr +:+ indent +:+ mnemonic +:+ " " +:+ r +:+ ", [" +:+ addr +:+ "]").

Definition emit_indexed (i : MachineInst) (mnemonic : string) : option string :=
  r ← op_at i 0; base ← op_at i 1; idx ← op_at i 2; sh ← opnd i 3;
  let shift := imm_or 0 sh in
  if (shift =? 0)%Z then Some (mnemonic +:+ " " +:+ r +:+ ", [" +:+ base +:+ ", " +:+ idx +:+ "]")
  else Some (mnemonic +:+ " " +:+ r +:+ ", [" +:+ base +:+ ", " +:+ idx +:+ ", lsl #" +:+ pretty shift +:+ "]").

Definition emit_stp_pre (mf : MachineFunction) : string :=
  let frame_size := sf_size (mf_frame mf) in
  let stp_offset := (frame_size - 16)%Z in
  let sub_sp := fmt_stack_alloc frame_size in
  if (stp_offset <=? 504)%Z then sub_sp +:+ indent +:+ "stp x29, x30, [sp, #" +:+ pretty stp_offset +:+ "]"
  else if (stp_offset <=? 32760)%Z then
    sub_sp +:+ indent +:+ "str x29, [sp, #" +:+ pretty stp_offset +:+ "]" +:+ indent +:+
      "str x30, [sp, #" +:+ pretty (stp_offset + 8)%Z +:+ "]"
  else
    sub_sp +:+ indent +:+ fmt_sp_imm "add" "x9" "sp" stp_offset +:+ indent +:+ "str x29, [x9]" +:+ indent +:+ "str x30, [x9, #8]".

Definition emit_ldp_post (mf : MachineFunction) : string :=
  let frame_size := sf_size (mf_frame mf) in
  let ldp_offset := (frame_size - 16)%Z in
  let add_sp := fmt_sp_imm "add" "sp" "sp" frame_size in
  if (ldp_offset <=? 504)%Z then "ldp x29, x30, [sp, #" +:+ pretty ldp_offset +:+ "]" +:+ indent +:+ add_sp
  else if (ldp_offset <=? 32760)%Z then
    "ldr x29, [sp, #" +:+ pretty ldp_offset +:+ "]" +:+ indent +:+ "ldr x30, [sp, #" +:+ pretty (ldp_offset + 8)%Z +:+ "]" +:+ indent +:+ add_sp
  else
    fmt_sp_imm "add" "x9" "sp" ldp_offset +:+ indent +:+ "ldr x29, [x9]" +:+ indent +:+ "ldr x30, [x9, #8]" +:+ indent +:+ add_sp.

(** Register pairs: [pair] is the paired form, [single] the fallback. *)
Definition emit_pair (i : MachineInst) (pair single : string) : option string :=
  r1 ← op_at i 0; r2 ← op_at i 1; base ← op_at i 2; k ← opnd i 3;
  let off := offset_or_0 k in
  if in_range (-512) 504 off then Some (pair +:+ " " +:+ r1 +:+ ", " +:+ r2 +:+ ", [" +:+ base +:+ ", #" +:+ pretty off +:+ "]")
  else
    addr ← address_scratch [r1; r2; base];
    Some (fmt_addr_with_offset addr base off addr +:+ indent +:+ single +:+ " " +:+ r1 +:+ ", [" +:+ addr +:+ "]" +:+ indent +:+
            single +:+ " " +:+ r2 +:+ ", [" +:+ addr +:+ ", #8]").

Definition emit_adrp_ldr (i : MachineInst) (mf : MachineFunction) : option string :=
  k ← opnd i 1;
  match k with
  | OpConstPool idx =>
      dest ← op_at i 0;
      let label := const_pool_label (mf_name mf) idx in
      let via := if starts_with "s" dest || starts_with "d" dest then "x8" else dest in
      Some ("adrp " +:+ via +:+ ", " +:+ label +:+ "@PAGE" +:+ indent +:+ "ldr " +:+ dest +:+ ", [" +:+ via +:+ ", " +:+ label +:+ "@PAGEOFF]")
  | _ => Some "nop ; bad adrp+ldr"
  end.

Definition adrp_add_text (dest label : string) : string :=
  "adrp " +:+ dest +:+ ", " +:+ label +:+ "@PAGE" +:+ indent +:+ "add " +:+ dest +:+ ", " +:+ dest +:+ ", " +:+ label +:+ "@PAGEOFF".

Definition emit_adrp_add (i : MachineInst) (mf : MachineFunction) : option string :=
  dest ← op_at i 0; k ← opnd i 1;
  match k with
  | OpConstPool idx => Some (adrp_add_text dest (const_pool_label (mf_name mf) idx))
  | OpGlobal name => Some (adrp_add_text dest (mach_symbol name))
  | _ => Some "nop ; bad adrp+add"
  end.

Definition emit_adrp_got (i : MachineInst) : option string :=
  match operands i with
  | [dest; OpGlobal name] =>
      let d := op_str dest in
      Some ("adrp " +:+ d +:+ ", " +:+ mach_symbol name +:+ "@GOTPAGE" +:+ indent +:+
            "ldr " +:+ d +:+ ", [" +:+ d +:+ ", " +:+ mach_symbol name +:+ "@GOTPAGEOFF]")
  | _ => None
  end.

Definition emit_b (i : MachineInst) (mf : MachineFunction) : option string :=
  t ← opnd i 0;
  match t with
  | OpBlock id => line1 "b" (mb_label <$> block mf id)
  | OpExtern name => Some (if starts_with "_" name then "b " +:+ name else "b _" +:+ name)
  | _ => Some "b ???"
  end.

Definition emit_blong (i : MachineInst) (mf : MachineFunction) : option string :=
  match operands i with
  | [OpBlock id] =>
      label ← long_branch_labels mf !! id;
      Some ("adrp x16, " +:+ label +:+ "@PAGE" +:+ indent +:+ "add x16, x16, " +:+ label +:+ "@PAGEOFF" +:+ indent +:+ "br x16")
  | _ => None
  end.

Definition emit_bl (i : MachineInst) : option string :=
  t ← opnd i 0;
  match t with
  | OpExtern name => Some (if starts_with "_" name then "bl " +:+ name else "bl _" +:+ name)
  | _ => Some "bl ???"
  end.

Definition fmt_vbinop (i : MachineInst) (mnemonic shape : string) : option string :=
  line3 (mnemonic +:+ "." +:+ shape) (v_reg_bare <$> opnd i 0) (v_reg_bare <$> opnd i 1) (v_reg_bare <$> opnd i 2).

Definition fmt_vunop (i : MachineInst) (mnemonic shape : string) : option string :=
  line2 (mnemonic +:+ "." +:+ shape) (v_reg_bare <$> opnd i 0) (v_reg_bare <$> opnd i 1).

(** [v_lane_bare(&inst.operands[k], _, imm_u8(&inst.operands[l]))] *)
Definition lane_at (i : MachineInst) (k l : nat) : option string :=
  lane ← opnd i l; r ← opnd i k; Some (v_lane_bare r (imm_u8 lane)).

Definition emit_quad (i : MachineInst) (mnemonic : string) : option string :=
  q ← q_reg <$> opnd i 0; b ← op_at i 1; o ← op_at i 2; Some (mnemonic +:+ " " +:+ q +:+ ", [" +:+ b +:+ ", " +:+ o +:+ "]").

Definition emit_inst (i : MachineInst) (mf : MachineFunction) : option string :=
  let op := op_at i in
  let v k := v_reg_bare <$> opnd i k in
  match opcode i with
  | AddReg => line3 "add" (op 0) (op 1) (op 2)
  | AddsReg => line3 "adds" (op 0) (op 1) (op 2)
  | AdcReg => line3 "adc" (op 0) (op 1) (op 2)
  | AddImm => emit_add_imm i mf
  | SubReg => line3 "sub" (op 0) (op 1) (op 2)
  | SubsReg => line3 "subs" (op 0) (op 1) (op 2)
  | SbcReg => line3 "sbc" (op 0) (op 1) (op 2)
  | SubImm => emit_sub_imm i mf
  | Mul => line3 "mul" (op 0) (op 1) (op 2)
  | Sdiv => line3 "sdiv" (op 0) (op 1) (op 2)
  | Madd => line4 "madd" (op 0) (op 1) (op 2) (op 3)
  | Msub => line4 "msub" (op 0) (op 1) (op 2) (op 3)
  | Neg => line2 "neg" (op 0) (op 1)
  | AndReg => line3 "and" (op 0) (op 1) (op 2)
  | OrrReg => line3 "orr" (op 0) (op 1) (op 2)
  | EorReg => line3 "eor" (op 0) (op 1) (op 2)
  | OrnReg => line3 "orn" (op 0) (op 1) (op 2)
  | LslReg => line3 "lsl" (op 0) (op 1) (op 2)
  | LsrReg => line3 "lsr" (op 0) (op 1) (op 2)
  | AsrReg => line3 "asr" (op 0) (op 1) (op 2)
  | Mvn => line2 "mvn" (op 0) (op 1)
  | Clz => line2 "clz" (op 0) (op 1)
  | Rbit => line2 "rbit" (op 0) (op 1)
  | CmpReg => line2 "cmp" (op 0) (op 1)
  | CmpImm => d ← op 0; imm ← opnd i 1; Some ("cmp " +:+ d +:+ ", #" +:+ pretty (imm_or 0 imm))
  | Cset | FCset => line2 "cset" (op 0) (cond_or_eq <$> opnd i 1)
  | CselReg => line4 "csel" (op 0) (op 1) (op 2) (cond_or_eq <$> opnd i 3)
  | FCmpReg => line2 "fcmp" (op 0) (op 1)
  | FcselReg => line4 "fcsel" (op 0) (op 1) (op 2) (cond_or_eq <$> opnd i 3)
  | FaddS | FaddD => line3 "fadd" (op 0) (op 1) (op 2)
  | FsubS | FsubD => line3 "fsub" (op 0) (op 1) (op 2)
  | FmulS | FmulD => line3 "fmul" (op 0) (op 1) (op 2)
  | FdivS | FdivD => line3 "fdiv" (op 0) (op 1) (op 2)
  | FnegS | FnegD => line2 "fneg" (op 0) (op 1)
  | FabsS | FabsD => line2 "fabs" (op 0) (op 1)
  | FsqrtS | FsqrtD => line2 "fsqrt" (op 0) (op 1)
  | FmaddS | FmaddD => line4 "fmadd" (op 0) (op 1) (op 2) (op 3)
  | FmsubS | FmsubD => line4 "fmsub" (op 0) (op 1) (op 2) (op 3)
  | FnmsubS | FnmsubD => line4 "fnmsub" (op 0) (op 1) (op 2) (op 3)
  | ScvtfSW | ScvtfDW | ScvtfSX | ScvtfDX => line2 "scvtf" (op 0) (op 1)
  | FcvtzsWS | FcvtzsWD | FcvtzsXS | FcvtzsXD => line2 "fcvtzs" (op 0) (op 1)
  | FcvtSD => line2 "fcvt" ((fun o => fp_reg_str o false) <$> opnd i 0) ((fun o => fp_reg_str o true) <$> opnd i 1)
  | FcvtDS => line2 "fcvt" ((fun o => fp_reg_str o true) <$> opnd i 0) ((fun o => fp_reg_str o false) <$> opnd i 1)
  | MovImm => emit_mov_imm i
  | Movz => emit_movz i
  | Movk => emit_mov_shifted i "movk"
  | Movn => emit_mov_shifted i "movn"
  | MovReg => dest ← op 0; src ← op 1; Some (mov_text dest src)
  | FmovReg => line2 "fmov" (op 0) (op 1)
  | Mov16B => line2 "mov.16b" (v 0) (v 1)
  | AddpV2D => line3 "addp.2d" (v 0) (v 1) (v 2)
  | FaddpV4S => line3 "faddp.4s" (v 0) (v 1) (v 2)
  | LdrImm | LdrFpImm | LdrsbImm | LdrshImm => emit_mem i (load_mnemonic (opcode i))
  | StrImm | StrFpImm | StrbImm | StrhImm => emit_mem i (store_mnemonic (opcode i))
  | LdrReg | LdrFpReg => emit_indexed i "ldr"
  | StrReg | StrFpReg => emit_indexed i "str"
  | StpPre => Some (emit_stp_pre mf)
  | LdpPost => Some (emit_ldp_post mf)
  | StpOffset => emit_pair i "stp" "str"
  | LdpOffset => emit_pair i "ldp" "ldr"
  | AdrpLdr => emit_adrp_ldr i mf
  | AdrpAdd => emit_adrp_add i mf
  | AdrpGotLdr => emit_adrp_got i
  | B => emit_b i mf
  | BLong => emit_blong i mf
  | BCond => c ← opnd i 0; t ← opnd i 1 ≫= target_label mf; Some ("b." +:+ cond_or_eq c +:+ " " +:+ t)
  | Cbz => line2 "cbz" (op 0) (opnd i 1 ≫= target_label mf)
  | Cbnz => line2 "cbnz" (op 0) (opnd i 1 ≫= target_label mf)
  | Tbz | Tbnz =>
      let mnemonic := match opcode i with Tbz => "tbz" | _ => "tbnz" end in
      bit ← opnd i 1; t ← opnd i 2 ≫= target_label mf; r ← op 0;
      Some (mnemonic +:+ " " +:+ r +:+ ", #" +:+ pretty (imm_or 0 bit) +:+ ", " +:+ t)
  | Bl => emit_bl i
  | Blr => line1 "blr" (op 0)
  | Sxtw => line2 "sxtw" (op 0) (op 1)
  | Sxth => line2 "sxth" (op 0) (op 1)
  | Sxtb => line2 "sxtb" (op 0) (op 1)
  | Ret => Some "ret"
  | Nop => Some "nop"
  | CallArgCopyStart | CallResultCopyEnd => None
  | Brk => imm ← opnd i 0; Some ("brk #" +:+ pretty (imm_or 1 imm))
  | AddV4S => fmt_vbinop i "add" "4s"
  | AddV2D => fmt_vbinop i "add" "2d"
  | SubV4S => fmt_vbinop i "sub" "4s"
  | SubV2D => fmt_vbinop i "sub" "2d"
  | MulV4S => fmt_vbinop i "mul" "4s"
  | FaddV4S => fmt_vbinop i "fadd" "4s"
  | FaddV2D => fmt_vbinop i "fadd" "2d"
  | FsubV4S => fmt_vbinop i "fsub" "4s"
  | FsubV2D => fmt_vbinop i "fsub" "2d"
  | FmulV4S => fmt_vbinop i "fmul" "4s"
  | FmulV2D => fmt_vbinop i "fmul" "2d"
  | FdivV4S => fmt_vbinop i "fdiv" "4s"
  | FdivV2D => fmt_vbinop i "fdiv" "2d"
  | BslV16B => fmt_vbinop i "bsl" "16b"
  | FcmgtV4S => fmt_vbinop i "fcmgt" "4s"
  | FcmgtV2D => fmt_vbinop i "fcmgt" "2d"
  | FcmgeV4S => fmt_vbinop i "fcmge" "4s"
  | FcmgeV2D => fmt_vbinop i "fcmge" "2d"
  | FcmeqV4S => fmt_vbinop i "fcmeq" "4s"
  | FcmeqV2D => fmt_vbinop i "fcmeq" "2d"
  | CmgtV4S => fmt_vbinop i "cmgt" "4s"
  | CmgeV4S => fmt_vbinop i "cmge" "4s"
  | CmeqV4S => fmt_vbinop i "cmeq" "4s"
  | FmlaV4S => fmt_vbinop i "fmla" "4s"
  | FmlaV2D => fmt_vbinop i "fmla" "2d"
  | FminV4S => fmt_vbinop i "fmin" "4s"
  | FminV2D => fmt_vbinop i "fmin" "2d"
  | FmaxV4S => fmt_vbinop i "fmax" "4s"
  | FmaxV2D => fmt_vbinop i "fmax" "2d"
  | SminV4S => fmt_vbinop i "smin" "4s"
  | SmaxV4S => fmt_vbinop i "smax" "4s"
  | UminV4S => fmt_vbinop i "umin" "4s"
  | UmaxV4S => fmt_vbinop i "umax" "4s"
  | NegV4S => fmt_vunop i "neg" "4s"
  | NegV2D => fmt_vunop i "neg" "2d"
  | AbsV4S => fmt_vunop i "abs" "4s"
  | AbsV2D => fmt_vunop i "abs" "2d"
  | FnegV4S => fmt_vunop i "fneg" "4s"
  | FnegV2D => fmt_vunop i "fneg" "2d"
  | FabsV4S => fmt_vunop i "fabs" "4s"
  | FabsV2D => fmt_vunop i "fabs" "2d"
  | FsqrtV4S => fmt_vunop i "fsqrt" "4s"
  | FsqrtV2D => fmt_vunop i "fsqrt" "2d"
  | FaddpV2S => line2 "faddp.2s" (fp32_scalar <$> opnd i 0) (v 1)
  | FaddpV2D => line2 "faddp.2d" (fp64_scalar <$> opnd i 0) (v 1)
  | Faddv4S => line2 "faddv.4s" (fp32_scalar <$> opnd i 0) (v 1)
  | Sminv4S => line2 "sminv.4s" (fp32_scalar <$> opnd i 0) (v 1)
  | Smaxv4S => line2 "smaxv.4s" (fp32_scalar <$> opnd i 0) (v 1)
  | FmaxvV4S => line2 "fmaxv.4s" (fp32_scalar <$> opnd i 0) (v 1)
  | FminvV4S => line2 "fminv.4s" (fp32_scalar <$> opnd i 0) (v 1)
  | FmaxpV2DScalar => line2 "fmaxp.2d" (fp64_scalar <$> opnd i 0) (v 1)
  | FminpV2DScalar => line2 "fminp.2d" (fp64_scalar <$> opnd i 0) (v 1)
  | Uminv4S => line2 "uminv.4s" (fp32_scalar <$> opnd i 0) (v 1)
  | Umaxv4S => line2 "umaxv.4s" (fp32_scalar <$> opnd i 0) (v 1)
  | Addv4S => line2 "addv.4s" (fp32_scalar <$> opnd i 0) (v 1)
  | DupGen4S => line2 "dup.4s" (v 0) (op 1)
  | DupGen2D => line2 "dup.2d" (v 0) (op 1)
  | DupEl4S => line2 "dup.4s" (v 0) ((fun r => v_lane_bare r 0) <$> opnd i 1)
  | DupEl2D => line2 "dup.2d" (v 0) ((fun r => v_lane_bare r 0) <$> opnd i 1)
  | Ins4S => line2 "ins.s" (lane_at i 0 1) (op 2)
  | Ins2D => line2 "ins.d" (lane_at i 0 1) (op 2)
  | Umov4S => line2 "umov.s" (op 0) (lane_at i 1 2)
  | Umov2D => line2 "umov.d" (op 0) (lane_at i 1 2)
  | FmovEl4S => line2 "mov.s" (fp32_scalar <$> opnd i 0) (lane_at i 1 2)
  | FmovEl2D => line2 "mov.d" (fp64_scalar <$> opnd i 0) (lane_at i 1 2)
  | LdrQ => emit_quad i "ldr"
  | StrQ => emit_quad i "str"
  end.

Definition emit_inst_into (i : MachineInst) (mf : MachineFunction) : option string :=
  common ← emit_common_inst_into i mf;
  match common with Some t => Some t | None => emit_inst i mf end.

(** * Functions *)

Definition nl : string := String newline EmptyString.

(** What a sequence of [writeln!]s leaves. *)
Definition unlines (ls : list string) : string := foldr (fun l s => l +:+ nl +:+ s) EmptyString ls.

Definition block_label_lines (mf : MachineFunction) (b : MachineBlock) : list string :=
  match long_branch_labels mf !! mb_id b with Some label => [label +:+ ":"] | None => [] end ++
  (if bool_decide (mb_id b = 0%N) then [] else [mb_label b +:+ ":"]).

Definition emit_block_lines (mf : MachineFunction) (b : MachineBlock) : option (list string) :=
  insts ← mapM (fun i => t ← emit_inst_into i mf; Some ("    " +:+ t)) (mb_insts b);
  Some (block_label_lines mf b ++ insts).

(** Hexadecimal digits, padded to a width. *)
Definition hex_digit (d : N) : Ascii.ascii := Ascii.ascii_of_N (if (d <? 10)%N then 48 + d else 87 + d).
Fixpoint hex_padded (width : nat) (v : N) (acc : string) : string :=
  match width with O => acc | S w => hex_padded w (v / 16) (String (hex_digit (v mod 16)) acc) end.

(** [bytes.chunks(16)] *)
Fixpoint chunks16 (fuel : nat) (bs : list N) : list (list N) :=
  match fuel, bs with
  | S fuel, _ :: _ => take 16 bs :: chunks16 fuel (drop 16 bs)
  | _, _ => []
  end.

Definition emit_const_pool_bytes (bs : list N) : list string :=
  (fun chunk => "    .byte " +:+ String.concat "," (pretty <$> chunk)) <$> chunks16 (length bs) bs.

Definition const_pool_lines (func : string) (e : nat * ConstPoolEntry) : list string :=
  let label := const_pool_label func (u32n (N.of_nat e.1)) in
  match e.2 with
  | PoolF32 bits => [".p2align 2"; label +:+ ":"; "    .long 0x" +:+ hex_padded 8 (Z.to_N bits) EmptyString]
  | PoolF64 bits => [".p2align 3"; label +:+ ":"; "    .quad 0x" +:+ hex_padded 16 (Z.to_N bits) EmptyString]
  | PoolI64 v => [".p2align 3"; label +:+ ":"; "    .quad " +:+ pretty v]
  | PoolBytes bs => [".p2align 3"; label +:+ ":"] ++ emit_const_pool_bytes bs
  end.

Definition emit_function_lines (mf : MachineFunction) : option (list string) :=
  blocks ← mapM (emit_block_lines mf) (mf_blocks mf);
  Some ([(if mf_internal_only mf then ".private_extern _" else ".globl _") +:+ mf_name mf; ".p2align 2"; "_" +:+ mf_name mf +:+ ":"] ++
        mjoin blocks ++
        match const_pool mf with
        | [] => []
        | pool => [EmptyString; ".section __DATA,__const"] ++ (zip (seq 0 (length pool)) pool ≫= const_pool_lines (mf_name mf))
        end).

(** [emit_function_into] appends this text. *)
Definition emit_function (mf : MachineFunction) : option string := unlines <$> emit_function_lines mf.

Example emit_example :
  emit_inst_into {| opcode := StrImm; operands := [OpPhys (Gp 8); OpPhys (Gp 29); OpImm (-5000)]; def := None |} (new_machine_function "f") =
  Some ("movz x9, #5000" +:+ indent +:+ "sub x9, x29, x9" +:+ indent +:+ "str x8, [x9]").
Proof. reflexivity. Qed.
