(* ===== verification/ArmEmitEq.v ===== *)
(** The AArch64 printer that writes into a buffer prints what the canonical one
    returns. *)

From Stdlib Require Import Ascii.
From stdpp Require Import pretty.
From S2P Require Import Prelude Slices ArmMir ArmText ArmEmit.
Local Open Scope string_scope.
Local Open Scope list_scope.

(** * Decimal numbers *)

Lemma digit_char d : (d < 10)%N -> Ascii.ascii_of_N (48 + d) = pretty_N_char d.
Proof.
  intros H. assert (d = 0 \/ d = 1 \/ d = 2 \/ d = 3 \/ d = 4 \/ d = 5 \/ d = 6 \/ d = 7 \/ d = 8 \/ d = 9)%N as Hd by lia.
  destruct_or! Hd; by subst.
Qed.

Lemma decimal_loop_go fuel v s :
  (0 < v)%N -> (v < 2 ^ N.of_nat fuel)%N -> decimal_loop fuel v s = pretty_N_go v s.
Proof.
  revert v s. induction fuel as [|fuel IH]; intros v s H0 Hlt; [simpl in Hlt; lia|].
  cbn [decimal_loop]. rewrite digit_char by (apply N.mod_lt; lia). rewrite (pretty_N_go_step v s H0).
  destruct (N.eqb_spec (v / 10) 0) as [->|Hne]; [by rewrite pretty_N_go_0|]. apply IH; [by apply N.neq_0_lt_0|].
  apply N.Div0.div_lt_upper_bound. rewrite Nat2N.inj_succ, N.pow_succ_r' in Hlt. lia.
Qed.

Lemma append_u64_decimal_pretty v : append_u64_decimal v = pretty v.
Proof.
  unfold append_u64_decimal. unfold pretty, pretty_N. case_decide as Hv; [by subst|].
  apply decimal_loop_go; [lia|]. pose proof (N.size_gt v). rewrite Nat2N.inj_succ, N.pow_succ_r'.
  rewrite N2Nat.id. lia.
Qed.

Lemma append_to_op_str op : append_to op = op_str op.
Proof. destruct op as [v|[]| | | | | | | |]; simpl; rewrite ?append_u64_decimal_pretty; done. Qed.

(** * Register names *)

Lemma digit_is_digit d : (d < 10)%N -> is_ascii_digit (pretty_N_char d) = true.
Proof.
  intros H. assert (d = 0 \/ d = 1 \/ d = 2 \/ d = 3 \/ d = 4 \/ d = 5 \/ d = 6 \/ d = 7 \/ d = 8 \/ d = 9)%N as Hd by lia.
  destruct_or! Hd; by subst.
Qed.

Lemma pretty_go_digits v s : all_digits s = true -> all_digits (pretty_N_go v s) = true.
Proof.
  revert s. induction (N.lt_wf_0 v) as [v _ IH]; intros s Hs. destruct (decide (v = 0)%N) as [->|Hv]; [by rewrite pretty_N_go_0|].
  rewrite pretty_N_go_step by lia. apply IH; [apply N.div_lt; lia|]. simpl. by rewrite digit_is_digit, Hs by (apply N.mod_lt; lia).
Qed.

Lemma pretty_digits (v : N) : all_digits (pretty v) = true.
Proof. unfold pretty, pretty_N. case_decide; [done|]. by apply pretty_go_digits. Qed.

Lemma pretty_first (v : N) c s : pretty v = String c s -> is_ascii_digit c = true.
Proof. intros E. pose proof (pretty_digits v) as H. rewrite E in H. simpl in H. by apply andb_true_iff in H as [H _]. Qed.

Definition is_extern (op : MachineOperand) : bool := match op with OpExtern _ => true | _ => false end.

Lemma mach_symbol_head name : exists s, mach_symbol name = String "_" s.
Proof.
  unfold mach_symbol. destruct name as [|c name]; [by eexists|]. unfold starts_with. destruct (Ascii.eqb_spec "_" c); [subst|]; by eexists.
Qed.

Lemma append_empty s : EmptyString +:+ s = s.
Proof. reflexivity. Qed.

Lemma gp_reg_index_op op : is_extern op = false -> gp_reg_index (op_str op) = pretty <$> gp_index op.
Proof.
  destruct op as [v|[]| | |[]| | |name| |]; simpl; try done; intros _; rewrite ?append_empty, ?pretty_digits; try done.
  by destruct (mach_symbol_head name) as [s ->].
Qed.

Lemma alias_names d b :
  is_extern d = false -> is_extern b = false -> gp_regs_alias (op_str d) (op_str b) = gp_operands_alias d b.
Proof.
  intros Hd Hb. unfold gp_regs_alias, gp_operands_alias. rewrite !gp_reg_index_op by done.
  destruct (gp_index d) as [n|], (gp_index b) as [m|]; simpl; try done. apply bool_decide_ext.
  split; [apply (inj pretty) | by intros ->].
Qed.

Lemma sp_name d : is_extern d = false -> bool_decide (op_str d = "sp") = bool_decide (d = OpPhys Sp).
Proof.
  intros Hd. apply bool_decide_ext. split; [|by intros ->]. destruct d as [v|[]| | |[]| | |name| |]; simpl in *; try done.
  - intros E. injection E as E. rewrite append_empty in E. by apply pretty_first in E.
  - destruct (mach_symbol_head name) as [s ->]. done.
Qed.

(** * The two printers *)

Lemma emitted_bind t k : (c ← emitted t; match c with Some t => Some t | None => k end) = t.
Proof. by destruct t. Qed.

(** Operands on which the canonical printer is meant to work: [add] and [sub] of an
    immediate between registers, and no move between [sp] and another register. *)
Definition canonical_ok (i : MachineInst) : bool :=
  match opcode i, operands i with
  | (AddImm | SubImm), d :: b :: _ => negb (is_extern d) && negb (is_extern b)
  | MovReg, d :: s :: _ => Bool.eqb (bool_decide (d = OpPhys Sp)) (bool_decide (s = OpPhys Sp))
  | _, _ => true
  end.

Lemma common_imm_canonical i op n k :
  match operands i with d :: b :: _ => is_extern d = false /\ is_extern b = false | _ => True end ->
  (c ← common_imm i op (Some n); match c with Some t => Some t | None => k end) =
  (dest ← op_at i 0; base ← op_at i 1; fmt_gp_imm op dest base n).
Proof.
  unfold common_imm, op_at, opnd. destruct (operands i) as [|d [|b ops]]; simpl; [done | done |]. intros [Hd Hb].
  rewrite emitted_bind. unfold fmt_gp_imm. by rewrite !append_to_op_str, alias_names, sp_name.
Qed.

(** A move between registers of one width. *)
Lemma mov_same_width d s w :
  gp_operand_width d = Some w -> gp_operand_width s = Some w -> Bool.eqb (bool_decide (d = OpPhys Sp)) (bool_decide (s = OpPhys Sp)) = true ->
  mov_text (op_str d) (op_str s) = "mov " +:+ op_str d +:+ ", " +:+ op_str s.
Proof. intros Hd Hs Hsp. destruct d as [|[]| | | | | | | |], s as [|[]| | | | | | | |]; simpl in *; simplify_eq; done. Qed.

Lemma emitted_same (t : option string) k : t = k -> (c ← emitted t; match c with Some t => Some t | None => k end) = k.
Proof. intros ->. apply emitted_bind. Qed.

Lemma add_imm_same i mf :
  opcode i = AddImm -> canonical_ok i = true -> emit_inst_into i mf = emit_add_imm i mf.
Proof.
  intros Eo Hok. unfold emit_inst_into, emit_common_inst_into, emit_inst. rewrite Eo.
  assert (Hx : match operands i with d :: b :: _ => is_extern d = false /\ is_extern b = false | _ => True end).
  { unfold canonical_ok in Hok. rewrite Eo in Hok. destruct (operands i) as [|d [|b ?]]; try done.
    by apply andb_true_iff in Hok as [->%negb_true_iff ->%negb_true_iff]. }
  pose proof (fun n k => common_imm_canonical i "add" n k Hx) as Hc. unfold emit_add_imm.
  destruct (opnd i 2) as [k|] eqn:Ek; cbn [mbind option_bind];
    [|unfold op_at, opnd in *; destruct (operands i) as [|d [|b [|? ?]]]; done].
  destruct k; try done. case_bool_decide; [done | apply Hc].
Qed.

Lemma sub_imm_same i mf :
  opcode i = SubImm -> canonical_ok i = true -> emit_inst_into i mf = emit_sub_imm i mf.
Proof.
  intros Eo Hok. unfold emit_inst_into, emit_common_inst_into, emit_inst. rewrite Eo.
  assert (Hx : match operands i with d :: b :: _ => is_extern d = false /\ is_extern b = false | _ => True end).
  { unfold canonical_ok in Hok. rewrite Eo in Hok. destruct (operands i) as [|d [|b ?]]; try done.
    by apply andb_true_iff in Hok as [->%negb_true_iff ->%negb_true_iff]. }
  pose proof (fun n k => common_imm_canonical i "sub" n k Hx) as Hc. unfold emit_sub_imm.
  destruct (opnd i 2) as [k|] eqn:Ek; cbn [mbind option_bind];
    [|unfold op_at, opnd in *; destruct (operands i) as [|d [|b [|? ?]]]; done].
  destruct k; try done. case_bool_decide; [done | apply Hc].
Qed.

Lemma mov_reg_same i mf :
  opcode i = MovReg -> canonical_ok i = true ->
  emit_inst_into i mf = (dest ← op_at i 0; src ← op_at i 1; Some (mov_text dest src)).
Proof.
  intros Eo Hok. unfold emit_inst_into, emit_common_inst_into, emit_inst, canonical_ok, line2, op_at, opnd in *. rewrite Eo in *.
  destruct (operands i) as [|d [|s ops]]; try done. simpl.
  destruct (gp_operand_width d) as [wd|] eqn:Ed; simpl; [|done].
  destruct (bool_decide (Some wd = gp_operand_width s)) eqn:Ew; simpl; [|done].
  apply bool_decide_eq_true in Ew. by rewrite (mov_same_width d s wd Ed (eq_sym Ew) Hok).
Qed.

(** The forms with a buffer of their own. *)
Lemma mov_wide_same i mn k :
  k = (if match opcode i with Movz => true | _ => false end then emit_movz i else emit_mov_shifted i mn) ->
  (opcode i = Movz -> mn = "movz") ->
  (c ← common_mov_wide i mn; match c with Some t => Some t | None => k end) = k.
Proof.
  intros -> Hmn. unfold common_mov_wide, emit_movz, emit_mov_shifted.
  destruct (opnd i 1), (opnd i 2), (op_at i 0); cbn [mbind option_bind]; try (by destruct (opcode i)).
  destruct (opcode i); try done. rewrite (Hmn eq_refl). by destruct (_ =? _)%N.
Qed.

Lemma mem_same i mn : (c ← common_mem i mn; match c with Some t => Some t | None => emit_mem i mn end) = emit_mem i mn.
Proof.
  unfold common_mem. destruct (opnd i 2) as [off|] eqn:E; cbn [mbind option_bind].
  - destruct (in_range (-256) 255 (offset_or_0 off)) eqn:Er; cbn [negb mbind option_bind]; [|done].
    unfold emit_mem. rewrite E. destruct (op_at i 0), (op_at i 1); cbn [mbind option_bind]; try done. by rewrite Er.
  - unfold emit_mem. rewrite E. by destruct (op_at i 0), (op_at i 1).
Qed.

Lemma indexed_same i mn : (c ← common_indexed i mn; match c with Some t => Some t | None => emit_indexed i mn end) = emit_indexed i mn.
Proof.
  unfold common_indexed, emit_indexed. destruct (op_at i 0), (op_at i 1), (op_at i 2), (opnd i 3) as [sh|]; cbn [mbind option_bind]; try done.
  by destruct (_ =? _)%Z.
Qed.

(** C26: Printing an instruction into a buffer gives the text of the canonical
    printer, and panics exactly when it does, on every instruction but two kinds the
    canonical printer is not meant for: an [add] or [sub] of an immediate whose
    register operands are symbols, and a move between [sp] and another register.  The
    decimal digits written by hand, the operands written without the formatter and
    the alias test on registers instead of names agree with their counterparts. *)
Theorem common_printer_canonical i mf : canonical_ok i = true -> emit_inst_into i mf = emit_inst i mf.
Proof.
  intros Hok. destruct (opcode i) eqn:Eo.
  all: try (unfold emit_inst; rewrite Eo; first [by apply add_imm_same | by apply sub_imm_same | by apply mov_reg_same]).
  all: unfold emit_inst_into, emit_common_inst_into, emit_inst; rewrite Eo; try done.
  all: try (apply emitted_same; reflexivity).
  all: try apply mem_same.
  all: try apply indexed_same.
  all: try (apply mov_wide_same; rewrite Eo; done).
  all: unfold emit_b, emit_bl; try (destruct (opnd i 0) as [[]|]; cbn [mbind option_bind]; try done; try destruct (starts_with _ _); by try apply emitted_same).
  by destruct (opnd i 1), (op_at i 0).
Qed.

Lemma common_printer_canonical_witness :
  let i := {| opcode := AddImm; operands := [OpPhys (Gp 9); OpPhys (Gp 8); OpImm 65537]; def := None |} in
  emit_inst_into i (new_machine_function "f") = emit_inst i (new_machine_function "f").
Proof. apply common_printer_canonical. reflexivity. Defined.

(** The canonical printer takes [sp] for a floating-point register. *)
Lemma canonical_mov_sp :
  let i := {| opcode := MovReg; operands := [OpPhys FP; OpPhys Sp]; def := None |} in
  emit_inst_into i (new_machine_function "f") = Some "mov x29, sp" /\
  emit_inst i (new_machine_function "f") = Some "fmov w29, sp".
Proof. done. Qed.
