(* ===== verification/ArmImm.v ===== *)
(** What the immediates and addresses of the AArch64 printer compute.

    Printed text is read back as a list of machine lines: each has its text, the
    range of its immediates that the instruction set encodes, and its effect on the
    64-bit registers and the bytes it touches. *)

From Stdlib Require Import Ascii.
From stdpp Require Import pretty.
From S2P Require Import Prelude Slices ArmMir ArmText ArmEmit ArmEmitEq.
Local Open Scope string_scope.
Local Open Scope list_scope.

(** * Machine lines *)

Inductive aline :=
| AMovz (r : string) (v shift : Z)
| AMovk (r : string) (v shift : Z)
| AArithImm (sub : bool) (d b : string) (v : Z) (shift_12 : bool)
| AArith (sub : bool) (d b x : string)
| AMov (d s : string).

Definition arith_name (sub : bool) : string := if sub then "sub" else "add".

Definition line_text (l : aline) : string :=
  match l with
  | AMovz r v shift => "movz " +:+ r +:+ ", #" +:+ pretty v +:+ (if (shift =? 0)%Z then EmptyString else ", lsl #" +:+ pretty shift)
  | AMovk r v shift => "movk " +:+ r +:+ ", #" +:+ pretty v +:+ ", lsl #" +:+ pretty shift
  | AArithImm sub d b v shift_12 =>
      arith_name sub +:+ " " +:+ d +:+ ", " +:+ b +:+ ", #" +:+ pretty v +:+ (if shift_12 then ", lsl #12" else EmptyString)
  | AArith sub d b x => arith_name sub +:+ " " +:+ d +:+ ", " +:+ b +:+ ", " +:+ x
  | AMov d s => "mov " +:+ d +:+ ", " +:+ s
  end.

Definition code_text (ls : list aline) : string := String.concat indent (line_text <$> ls).

(** Immediates in the range of their field. *)
Definition encodable (l : aline) : bool :=
  match l with
  | AMovz _ v shift | AMovk _ v shift => in_range 0 65535 v && existsb (Z.eqb shift) [0; 16; 32; 48]%Z
  | AArithImm _ _ _ v _ => in_range 0 4095 v
  | AArith _ _ _ _ | AMov _ _ => true
  end.

(** Registers by name, 64 bits each. *)
Definition regs := string -> Z.
Definition upd (s : regs) (r : string) (v : Z) : regs := fun x => if decide (x = r) then v else s x.

Definition wrap64 (v : Z) : Z := (v mod 2 ^ 64)%Z.
Definition arith (sub : bool) (a b : Z) : Z := if sub then wrap64 (a - b) else wrap64 (a + b).

(** [movk] replaces sixteen bits. *)
Definition insert16 (old v shift : Z) : Z := (old - (old / 2 ^ shift) mod 65536 * 2 ^ shift + v * 2 ^ shift)%Z.

Definition exec_line (s : regs) (l : aline) : regs :=
  match l with
  | AMovz r v shift => upd s r (v * 2 ^ shift)
  | AMovk r v shift => upd s r (insert16 (s r) v shift)
  | AArithImm sub d b v shift_12 => upd s d (arith sub (s b) (if shift_12 then v * 4096 else v))
  | AArith sub d b x => upd s d (arith sub (s b) (s x))
  | AMov d b => upd s d (s b)
  end.

Definition exec_lines (s : regs) (ls : list aline) : regs := foldl exec_line s ls.

(** Lines that put a value in one register and change no other. *)
Definition computes (ls : list aline) (d : string) (v : regs -> Z) : Prop :=
  forall s, exec_lines s ls d = v s /\ forall r, r <> d -> exec_lines s ls r = s r.

Lemma reg_upd_eq s r v : upd s r v r = v.
Proof. unfold upd. by rewrite decide_True. Qed.

Lemma reg_upd_ne s r v x : x <> r -> upd s r v x = s x.
Proof. intros H. unfold upd. by rewrite decide_False. Qed.

Lemma exec_lines_app s l1 l2 : exec_lines s (l1 ++ l2) = exec_lines (exec_lines s l1) l2.
Proof. apply foldl_app. Qed.

Lemma str_app_assoc (a b c : string) : (a +:+ b) +:+ c = a +:+ (b +:+ c).
Proof. induction a as [|x a IH]; [done|]. change (String x ((a +:+ b) +:+ c) = String x (a +:+ (b +:+ c))). by rewrite IH. Qed.

Lemma str_app_nil_r (a : string) : a +:+ EmptyString = a.
Proof. induction a as [|x a IH]; [done|]. change (String x (a +:+ EmptyString) = String x a). by rewrite IH. Qed.

Lemma concat_snoc sep (l : list string) a x : String.concat sep ((a :: l) ++ [x]) = String.concat sep (a :: l) +:+ sep +:+ x.
Proof.
  revert a. induction l as [|b l IH]; intros a; [done|]. specialize (IH b).
  change (String.concat sep ((a :: b :: l) ++ [x])) with (a +:+ sep +:+ String.concat sep ((b :: l) ++ [x])).
  rewrite IH. change (String.concat sep (a :: b :: l)) with (a +:+ sep +:+ String.concat sep (b :: l)). by rewrite !str_app_assoc.
Qed.

Lemma code_text_snoc ls l :
  code_text (ls ++ [l]) = match ls with [] => line_text l | _ => code_text ls +:+ indent +:+ line_text l end.
Proof. destruct ls as [|l0 ls]; [done|]. unfold code_text. rewrite fmap_app. apply concat_snoc. Qed.

Lemma pretty_of_N (n : N) : pretty (Z.of_N n) = pretty n.
Proof. by destruct n. Qed.

(** * Immediates *)

(** The sixteen-bit part of a number at a shift. *)
Definition part (value shift : N) : N := N.land (N.shiftr value shift) 65535.

(** The lines of [write_u64_imm_into]. *)
Definition imm_lines (reg : string) (value : N) : list aline :=
  match filter (fun sh => part value sh <> 0%N) imm_shifts with
  | [] => [AMovz reg 0 0]
  | sh :: shs => AMovz reg (Z.of_N (part value sh)) (Z.of_N sh) ::
                 ((fun sh => AMovk reg (Z.of_N (part value sh)) (Z.of_N sh)) <$> shs)
  end.

Lemma imm_lines_text reg value : write_u64_imm_into reg value = code_text (imm_lines reg value).
Proof.
  unfold write_u64_imm_into, imm_lines, imm_shifts, code_text. cbn [foldl]. unfold imm_part. fold (part value 0) (part value 16) (part value 32) (part value 48).
  rewrite !filter_cons, filter_nil.
  destruct (N.eqb_spec (part value 0) 0) as [E0|E0], (N.eqb_spec (part value 16) 0) as [E1|E1],
    (N.eqb_spec (part value 32) 0) as [E2|E2], (N.eqb_spec (part value 48) 0) as [E3|E3];
    repeat case_decide; try done; cbn [fmap list_fmap String.concat line_text]; rewrite ?append_u64_decimal_pretty, ?pretty_of_N, ?str_app_assoc; done.
Qed.

Lemma part_spec value shift : part value shift = ((value / 2 ^ shift) mod 65536)%N.
Proof. unfold part. rewrite N.shiftr_div_pow2. change 65535%N with (N.ones 16). by rewrite N.land_ones. Qed.

Lemma parts_sum value : (value < 2 ^ 64)%N ->
  Z.of_N value = (Z.of_N (part value 0) * 2 ^ 0 + Z.of_N (part value 16) * 2 ^ 16 + Z.of_N (part value 32) * 2 ^ 32 + Z.of_N (part value 48) * 2 ^ 48)%Z.
Proof.
  intros H. rewrite !part_spec. rewrite !N2Z.inj_mod, !N2Z.inj_div, !N2Z.inj_pow. cbn [Z.of_N].
  assert (Hv : (Z.of_N value < 2 ^ 64)%Z) by lia. assert (Hv0 : (0 <= Z.of_N value)%Z) by lia. clear H. revert Hv Hv0.
  generalize (Z.of_N value). intros v Hv Hv0.
  change (2 ^ 0)%Z with 1%Z. change (2 ^ 16)%Z with 65536%Z. change (2 ^ 32)%Z with (65536 * 65536)%Z.
  change (2 ^ 48)%Z with (65536 * 65536 * 65536)%Z. change (2 ^ 64)%Z with (65536 * 65536 * 65536 * 65536)%Z in Hv.
  rewrite Z.div_1_r. rewrite <- !Z.div_div by lia. pose proof (Z.div_mod v 65536). pose proof (Z.div_mod (v / 65536) 65536).
  pose proof (Z.div_mod (v / 65536 / 65536) 65536). pose proof (Z.div_mod (v / 65536 / 65536 / 65536) 65536).
  assert (v / 65536 / 65536 / 65536 / 65536 = 0)%Z by (rewrite !Z.div_div by lia; apply Z.div_small; lia). lia.
Qed.

Lemma part_bound value shift : (0 <= Z.of_N (part value shift) < 65536)%Z.
Proof. rewrite part_spec. split; [apply N2Z.is_nonneg|]. apply (N2Z.inj_lt _ 65536), N.mod_lt. done. Qed.

Lemma insert16_above old v shift : (0 <= old < 2 ^ shift)%Z -> insert16 old v shift = (old + v * 2 ^ shift)%Z.
Proof. intros H. unfold insert16. rewrite Z.div_small by done. rewrite Z.mod_0_l by lia. lia. Qed.

Lemma imm_lines_encodable reg value : forallb encodable (imm_lines reg value) = true.
Proof.
  assert (Hp : forall sh, in_range 0 65535 (Z.of_N (part value sh)) = true).
  { intros sh. unfold in_range. pose proof (part_bound value sh). apply andb_true_iff. split; apply Z.leb_le; lia. }
  unfold imm_lines, imm_shifts. rewrite !filter_cons, filter_nil. repeat case_decide; cbn [fmap list_fmap forallb encodable]; by rewrite ?Hp.
Qed.

(** The lines load the number, whatever the register held. *)
Lemma imm_lines_value reg value : (value < 2 ^ 64)%N -> computes (imm_lines reg value) reg (fun _ => Z.of_N value).
Proof.
  intros Hv s. pose proof (parts_sum value Hv) as Hs. pose proof (part_bound value) as Hb.
  pose proof (Hb 0%N) as H0. pose proof (Hb 16%N) as H1. pose proof (Hb 32%N) as H2. pose proof (Hb 48%N) as H3. clear Hb.
  unfold imm_lines, imm_shifts. rewrite !filter_cons, filter_nil.
  repeat case_decide; cbn [fmap list_fmap exec_lines foldl exec_line Z.of_N]; (split; [|intros r Hr; by rewrite !reg_upd_ne by done]);
    rewrite ?reg_upd_eq; repeat first [rewrite (insert16_above (_ * _)) by lia | rewrite (insert16_above (_ + _)) by lia]; lia.
Qed.

(** * Adding and subtracting an immediate *)

Lemma arith_arith sub a m n : arith sub (arith sub a m) n = arith sub a (m + n).
Proof.
  unfold arith, wrap64. destruct sub.
  - rewrite Zminus_mod_idemp_l. f_equal. lia.
  - rewrite Zplus_mod_idemp_l. f_equal. lia.
Qed.

Lemma gp_line_text sub d b m sh :
  append_gp_imm_line (arith_name sub) d b m sh = line_text (AArithImm sub d b (Z.of_N m) sh).
Proof. unfold append_gp_imm_line. cbn [line_text]. by rewrite append_u64_decimal_pretty, pretty_of_N. Qed.

(** Lines printed so far that leave base plus or minus [m] in the destination. *)
Record progress (sub : bool) (d b : string) (ls : list aline) (m : Z) : Prop := {
  pr_enc : forallb encodable ls = true;
  pr_none : ls = [] -> m = 0%Z;
  pr_some : ls <> [] -> computes ls d (fun s => arith sub (s b) m) }.

(** One more line: from the base if it is the first, from the destination otherwise. *)
Lemma progress_line sub d b ls m v (sh : bool) :
  progress sub d b ls m -> (0 <= v <= 4095)%Z ->
  progress sub d b (ls ++ [AArithImm sub d (if bool_decide (ls = []) then b else d) v sh]) (m + (if sh then v * 4096 else v)).
Proof.
  intros [Henc Hnone Hsome] Hv. split.
  - rewrite forallb_app, Henc. simpl. unfold in_range. rewrite andb_true_r. apply andb_true_iff. split; apply Z.leb_le; lia.
  - by intros [_ ?]%app_eq_nil.
  - intros _ s. rewrite exec_lines_app. cbn [exec_lines foldl exec_line]. destruct ls as [|l0 ls].
    + simpl. rewrite reg_upd_eq. split; [by rewrite Hnone, Z.add_0_l|]. intros r Hr. by rewrite reg_upd_ne.
    + destruct (Hsome ltac:(done) s) as [Hd Hr]. rewrite reg_upd_eq. simpl (if bool_decide _ then _ else _). split.
      * by rewrite Hd, arith_arith.
      * intros r Hne. rewrite reg_upd_ne by done. by apply Hr.
Qed.

Definition line_base (wrote : bool) (d b : string) : string := if wrote then d else b.

Lemma gp_imm_loop_spec fuel sub d b ls (total rem : N) :
  (rem < N.of_nat fuel * 16773120 + 4096)%N -> (rem <= total)%N -> progress sub d b ls (Z.of_N (total - rem)) ->
  exists ls' rem', gp_imm_loop (S fuel) (arith_name sub) d b (code_text ls) rem (bool_decide (ls <> [])) =
      Some (code_text ls', rem', bool_decide (ls' <> [])) /\
    (rem' < 4096)%N /\ (rem' <= total)%N /\ progress sub d b ls' (Z.of_N (total - rem')) /\ (ls <> [] \/ (4096 <= rem)%N -> ls' <> []).
Proof.
  revert ls rem. induction fuel as [|fuel IH]; intros ls rem Hlt Hle Hp.
  { exists ls, rem. cbn [gp_imm_loop]. destruct (N.leb_spec 4096 rem); [lia|]. split_and!; [done.. | intros [|]; [done | lia]]. }
  remember (S fuel) as f1. cbn [gp_imm_loop]. subst f1. destruct (N.leb_spec 4096 rem) as [Hge|Hsm].
  2: { exists ls, rem. split_and!; [done.. | intros [|]; [done | lia]]. }
  set (chunk := N.min (N.shiftr rem 12) 4095). assert (Hc : (chunk <= 4095 /\ chunk * 4096 <= rem)%N).
  { unfold chunk. rewrite N.shiftr_div_pow2. change (2 ^ 12)%N with 4096%N. pose proof (N.Div0.mul_div_le rem 4096). lia. }
  assert (Hrest : (rem - N.shiftl chunk 12 < N.of_nat fuel * 16773120 + 4096)%N).
  { rewrite N.shiftl_mul_pow2. change (2 ^ 12)%N with 4096%N. unfold chunk in *. rewrite N.shiftr_div_pow2 in *. change (2 ^ 12)%N with 4096%N in *.
    pose proof (N.div_mod rem 4096 ltac:(lia)). pose proof (N.mod_lt rem 4096 ltac:(lia)). lia. }
  rewrite N.shiftl_mul_pow2 in *. change (2 ^ 12)%N with 4096%N in *.
  pose proof (progress_line sub d b ls _ (Z.of_N chunk) true Hp ltac:(lia)) as Hp'. cbn iota in Hp'.
  replace (Z.of_N (total - rem) + Z.of_N chunk * 4096)%Z with (Z.of_N (total - (rem - chunk * 4096))) in Hp' by lia.
  destruct (IH _ _ Hrest ltac:(lia) Hp') as (ls' & rem' & E & H1 & H2 & H3 & H4).
  exists ls', rem'. split_and!; try done.
  - rewrite <- E. rewrite (bool_decide_true (_ ++ _ <> [])) by (by intros [_ ?]%app_eq_nil). f_equal.
    rewrite code_text_snoc, !gp_line_text. destruct ls; done.
  - intros _. apply H4. left. by intros [_ ?]%app_eq_nil.
Qed.

Lemma imm_lines_nonempty reg value : imm_lines reg value <> [].
Proof. unfold imm_lines. by destruct (filter _ _). Qed.

Lemma code_text_app_one ls l : ls <> [] -> code_text (ls ++ [l]) = code_text ls +:+ indent +:+ line_text l.
Proof. intros H. rewrite code_text_snoc. by destruct ls. Qed.

(** Loading the immediate into the destination and adding it there. *)
Lemma via_lines_spec sub d b (m : N) : d <> b -> (m < 2 ^ 64)%N ->
  let ls := imm_lines d m ++ [AArith sub d b d] in
  forallb encodable ls = true /\ computes ls d (fun s => arith sub (s b) (Z.of_N m)).
Proof.
  intros Hne Hm. split; [by rewrite forallb_app, imm_lines_encodable|]. intros s. rewrite exec_lines_app.
  destruct (imm_lines_value d m Hm s) as [Hd Hr]. cbn [exec_lines foldl exec_line]. rewrite reg_upd_eq.
  change (foldl exec_line s (imm_lines d m)) with (exec_lines s (imm_lines d m)). split; [by rewrite Hd, (Hr b) by done|].
  intros r Hrd. rewrite reg_upd_ne by done. by apply Hr.
Qed.

Lemma computes_ext ls d v v' : (forall s, v s = v' s) -> computes ls d v -> computes ls d v'.
Proof. intros Hv Hc s. rewrite <- Hv. apply Hc. Qed.

Lemma gp_magnitude_spec sub d b alias sp (m : N) :
  (d = b -> alias || sp = true) -> (m < 2 ^ 64)%N -> (alias || sp = true -> (m < 2 ^ 32)%N) ->
  exists ls, (if (m <=? 4095)%N then Some (append_gp_imm_line (arith_name sub) d b m false)
    else if negb alias && negb sp then
      Some (write_u64_imm_into d m +:+ indent +:+ arith_name sub +:+ " " +:+ d +:+ ", " +:+ b +:+ ", " +:+ d)
    else if (m <=? 4294967295)%N then
      '(out, remaining, wrote_line) ← gp_imm_loop gp_imm_fuel (arith_name sub) d b EmptyString m false;
      Some (if (0 <? remaining)%N then
              if wrote_line : bool then out +:+ indent +:+ append_gp_imm_line (arith_name sub) d d remaining false
              else out +:+ append_gp_imm_line (arith_name sub) d b remaining false
            else out)
    else None) = Some (code_text ls) /\ forallb encodable ls = true /\ computes ls d (fun s => arith sub (s b) (Z.of_N m)).
Proof.
  intros Hal Hm Hsp. destruct (N.leb_spec m 4095) as [Hle|Hgt].
  { pose proof (progress_line sub d b [] 0 (Z.of_N m) false) as [He _ Hc]; [by split | lia |].
    exists [AArithImm sub d b (Z.of_N m) false]. rewrite gp_line_text. split; [reflexivity|]. split; [exact He|].
    by apply Hc. }
  destruct (negb alias && negb sp) eqn:Ea.
  { apply andb_true_iff in Ea as [Ea Es]. apply negb_true_iff in Ea, Es. subst. exists (imm_lines d m ++ [AArith sub d b d]).
    split; [|by apply via_lines_spec; [intros ->; specialize (Hal eq_refl)|]].
    by rewrite code_text_app_one, imm_lines_text by apply imm_lines_nonempty. }
  assert (Hs : (m < 2 ^ 32)%N) by (apply Hsp; by destruct alias, sp). destruct (N.leb_spec m 4294967295) as [_|]; [|lia].
  destruct (gp_imm_loop_spec 257 sub d b [] m m) as (ls & rem & E & Hrem & Hle & Hp & Hne); [lia | lia | by split; [|rewrite N.sub_diag|] |].
  change (code_text []) with EmptyString in E. change (bool_decide (@nil aline <> [])) with false in E.
  unfold gp_imm_fuel. rewrite E. cbn [mbind option_bind]. assert (Hls : ls <> []) by (apply Hne; right; lia).
  rewrite (bool_decide_true _ Hls). destruct (N.ltb_spec 0 rem) as [Hpos|Hz].
  - pose proof (progress_line sub d b ls _ (Z.of_N rem) false Hp ltac:(lia)) as [He _ Hc]. rewrite bool_decide_false in He, Hc by done.
    eexists. split; [by rewrite code_text_app_one, gp_line_text|]. split; [exact He|].
    eapply computes_ext; [|by apply Hc, not_eq_sym, app_cons_not_nil]. intros s. simpl. f_equal. lia.
  - exists ls. split; [done|]. split; [apply Hp|]. eapply computes_ext; [|by apply (pr_some _ _ _ _ _ Hp)]. intros s. simpl. f_equal. lia.
Qed.

Lemma arith_neg sub a n : arith (negb sub) a (- n) = arith sub a n.
Proof. unfold arith, wrap64. destruct sub; simpl; f_equal; lia. Qed.

Lemma gp_imm_spec sub d b alias sp n :
  (d = b -> alias || sp = true) -> (- 2 ^ 63 <= n < 2 ^ 63)%Z -> (alias || sp = true -> (Z.abs n < 2 ^ 32)%Z) ->
  exists ls, write_gp_imm_into (arith_name sub) d b alias sp n = Some (code_text ls) /\
    forallb encodable ls = true /\ computes ls d (fun s => arith sub (s b) n).
Proof.
  intros Hal Hn Hsp.
  assert (Hm : (Z.to_N (Z.abs n) < 2 ^ 64)%N) by lia.
  assert (Hs : alias || sp = true -> (Z.to_N (Z.abs n) < 2 ^ 32)%N) by (intros H; specialize (Hsp H); lia).
  unfold write_gp_imm_into. destruct (Z.leb_spec 0 n) as [Hpos|Hneg]; cbn [mbind option_bind].
  - destruct (gp_magnitude_spec sub d b alias sp _ Hal Hm Hs) as (ls & E & He & Hc). exists ls. split; [exact E|]. split; [done|].
    eapply computes_ext; [|exact Hc]. intros s. simpl. f_equal. lia.
  - assert (inverse_imm_op (arith_name sub) = Some (arith_name (negb sub))) as -> by (by destruct sub). cbn [mbind option_bind].
    destruct (gp_magnitude_spec (negb sub) d b alias sp _ Hal Hm Hs) as (ls & E & He & Hc). exists ls. split; [exact E|]. split; [done|].
    eapply computes_ext; [|exact Hc]. intros s. simpl. rewrite <- (arith_neg sub). f_equal. lia.
Qed.

(** * Addresses *)

(** Registers hold 64-bit values. *)
Definition bounded (s : regs) : Prop := forall r, (0 <= s r < 2 ^ 64)%Z.

Lemma addr_spec addr base off : addr <> base -> (off <> 0)%Z -> (- 2 ^ 63 <= off < 2 ^ 63)%Z ->
  exists ls, ls <> [] /\ fmt_addr_with_offset addr base off addr = code_text ls /\ forallb encodable ls = true /\
    computes ls addr (fun s => arith false (s base) off).
Proof.
  intros Hne H0 Hoff. unfold fmt_addr_with_offset. destruct (Z.eqb_spec off 0) as [|_]; [done|].
  destruct (in_range 0 4095 off) eqn:Er.
  { exists [AArithImm false addr base off false]. split_and!; [done | by cbn; rewrite str_app_nil_r | simpl; by rewrite Er|].
    intros s. cbn. rewrite reg_upd_eq. split; [done|]. intros r Hr. by rewrite reg_upd_ne. }
  destruct (in_range (-4095) (-1) off) eqn:En.
  { unfold in_range in En. apply andb_true_iff in En as [E1%Z.leb_le E2%Z.leb_le].
    exists [AArithImm true addr base (- off) false]. split_and!; [done | by cbn; rewrite str_app_nil_r | |].
    - simpl. unfold in_range. rewrite andb_true_r. apply andb_true_iff. split; apply Z.leb_le; lia.
    - intros s. cbn. rewrite reg_upd_eq. split; [unfold arith; f_equal; lia|]. intros r Hr. by rewrite reg_upd_ne. }
  exists (imm_lines addr (Z.to_N (Z.abs off)) ++ [AArith (off <? 0)%Z addr base addr]).
  destruct (via_lines_spec (off <? 0)%Z addr base (Z.to_N (Z.abs off)) Hne) as [He Hc]; [lia|].
  split_and!; [by intros [_ ?]%app_eq_nil | | done |].
  - rewrite code_text_app_one by apply imm_lines_nonempty. unfold fmt_u64_imm. rewrite imm_lines_text. cbn [line_text]. by destruct (off <? 0)%Z.
  - eapply computes_ext; [|exact Hc]. intros s. simpl. destruct (Z.ltb_spec off 0); unfold arith; f_equal; lia.
Qed.

Definition scratch_regs : list string := ["x8"; "x9"; "x10"; "x11"].

Lemma alias_index c r : gp_regs_alias c r = true <-> exists n, gp_reg_index c = Some n /\ gp_reg_index r = Some n.
Proof.
  unfold gp_regs_alias. destruct (gp_reg_index c) as [a|], (gp_reg_index r) as [b|]; split; try done; try (by intros (? & ? & ?)).
  - intros ->%bool_decide_eq_true. by exists b.
  - intros (n & [= ->] & [= ->]). by apply bool_decide_eq_true.
Qed.

(** Three names leave one of the four scratch registers free. *)
Lemma address_scratch_spec avoid : (length avoid <= 3)%nat ->
  exists a, address_scratch avoid = Some a /\ a ∈ scratch_regs /\ forall r, r ∈ avoid -> gp_regs_alias a r = false.
Proof.
  intros Hlen. unfold address_scratch. destruct (list_find _ ["x8"; "x9"; "x10"; "x11"]) as [[k a]|] eqn:E.
  - apply list_find_Some in E as (Hk & Ha & _). exists a. split; [done|]. split; [by eapply list_elem_of_lookup_2|].
    intros r Hr. apply not_true_is_false. intros Hal. apply not_true_iff_false in Ha. apply Ha, existsb_exists. exists r.
    split; [by apply list_elem_of_In | done].
  - exfalso. apply list_find_None in E. rewrite list.Forall_forall in E.
    assert (Hall : forall c, c ∈ scratch_regs -> exists r, r ∈ avoid /\ gp_reg_index r = Some (tail_str c)).
    { intros c Hc. specialize (E c Hc). apply not_false_iff_true, existsb_exists in E as (r & Hr & Hal).
      exists r. split; [by apply list_elem_of_In|]. apply alias_index in Hal as (n & Hn & ->). f_equal.
      unfold scratch_regs in Hc. repeat (apply elem_of_cons in Hc as [->|Hc]; [by injection Hn|]). by apply not_elem_of_nil in Hc. }
    assert (Hsub : (tail_str <$> scratch_regs) ⊆ omap gp_reg_index avoid).
    { intros n (c & -> & Hc)%list_elem_of_fmap. destruct (Hall c Hc) as (r & Hr & Hi). apply list_elem_of_omap. by exists r. }
    apply NoDup_submseteq in Hsub; [|apply (bool_decide_unpack _); vm_compute; exact I].
    apply submseteq_length in Hsub. assert (length (omap gp_reg_index avoid) <= length avoid)%nat.
    { clear. induction avoid as [|r l IH]; [done|]. unfold omap in *. simpl. destruct (gp_reg_index r); simpl; lia. }
    simpl in Hsub. lia.
Qed.

(** * Loads and stores *)

Definition access_text (mn r addr : string) (o : option Z) : string :=
  mn +:+ " " +:+ r +:+ ", [" +:+ addr +:+ match o with Some v => ", #" +:+ pretty v | None => EmptyString end +:+ "]".

(** Lines that put an address in a register that no operand names, for accesses through it. *)
Record addressed (ls : list aline) (addr base : string) (off : Z) (avoid : list string) : Prop := {
  ad_enc : forallb encodable ls = true;
  ad_value : forall s, exec_lines s ls addr = arith false (s base) off;
  ad_scratch : addr ∈ scratch_regs;
  ad_avoid : forall r, r ∈ avoid -> gp_regs_alias addr r = false;
  ad_frame : forall s r, r <> addr -> exec_lines s ls r = s r }.

Definition reg64 (r : PhysReg) : bool := match r with Gp _ | Sp => true | _ => false end.

Lemma reg64_alias r : reg64 r = true -> r <> Sp -> gp_regs_alias (op_str (OpPhys r)) (op_str (OpPhys r)) = true.
Proof. intros H Hsp. rewrite alias_names by done. destruct r; try done. simpl. by apply bool_decide_eq_true. Qed.

Lemma scratch_not_base a base : reg64 base = true -> a ∈ scratch_regs -> gp_regs_alias a (op_str (OpPhys base)) = false -> a <> op_str (OpPhys base).
Proof.
  intros Hb Ha Hal ->. destruct (decide (base = Sp)) as [->|Hsp].
  - unfold scratch_regs in Ha. repeat (apply elem_of_cons in Ha as [Ha|Ha]; [done|]). by apply not_elem_of_nil in Ha.
  - by rewrite reg64_alias in Hal.
Qed.

Lemma scratch_address avoid base off :
  (length avoid <= 2)%nat -> reg64 base = true -> (off <> 0)%Z -> (- 2 ^ 63 <= off < 2 ^ 63)%Z ->
  exists ls addr, address_scratch (avoid ++ [op_str (OpPhys base)]) = Some addr /\ ls <> [] /\
    fmt_addr_with_offset addr (op_str (OpPhys base)) off addr = code_text ls /\ addressed ls addr (op_str (OpPhys base)) off (avoid ++ [op_str (OpPhys base)]).
Proof.
  intros Hlen Hb H0 Hoff. destruct (address_scratch_spec (avoid ++ [op_str (OpPhys base)])) as (a & Ha & Hin & Hav).
  { rewrite length_app. simpl. lia. }
  destruct (addr_spec a (op_str (OpPhys base)) off) as (ls & Hne & E & He & Hc); [|done..|].
  { apply scratch_not_base; [done | done |]. apply Hav, elem_of_app. right. by apply list_elem_of_singleton. }
  exists ls, a. split_and!; try done. split; try done; intros s; [apply Hc | intros r Hr; by apply Hc].
Qed.

Definition mem_mnemonic (o : ArmOpcode) : option string :=
  match o with
  | LdrImm | LdrFpImm | LdrsbImm | LdrshImm => Some (load_mnemonic o)
  | StrImm | StrFpImm | StrbImm | StrhImm => Some (store_mnemonic o)
  | _ => None
  end.

Lemma emit_mem_into i mf mn : mem_mnemonic (opcode i) = Some mn -> emit_inst_into i mf = emit_mem i mn.
Proof.
  intros Hm. unfold emit_inst_into, emit_common_inst_into, emit_inst.
  destruct (opcode i); try done; injection Hm as <-; apply mem_same.
Qed.

Lemma concat_code ls t : ls <> [] -> String.concat indent ((line_text <$> ls) ++ [t]) = code_text ls +:+ indent +:+ t.
Proof. destruct ls as [|l ls]; [done|]. intros _. apply concat_snoc. Qed.

(** C28: Loads and stores reach the address they name.  A load or store of a register
    at a 64-bit base register and any 64-bit offset prints either one access with an
    offset of the unscaled range, or lines that leave the base plus the offset in a
    reserved scratch register followed by an access through it.  All immediates of
    the lines are encodable, and the scratch register is neither the base nor a view
    of the register transferred; every other register keeps its value. *)
Theorem memory_access_address i mf mn r base k off :
  mem_mnemonic (opcode i) = Some mn -> operands i = [r; OpPhys base; k] -> offset_or_0 k = off ->
  reg64 base = true -> (- 2 ^ 63 <= off < 2 ^ 63)%Z ->
  (in_range (-256) 255 off = true /\ emit_inst_into i mf = Some (access_text mn (op_str r) (op_str (OpPhys base)) (Some off))) \/
  (exists ls addr, emit_inst_into i mf = Some (String.concat indent ((line_text <$> ls) ++ [access_text mn (op_str r) addr None])) /\
     addressed ls addr (op_str (OpPhys base)) off [op_str r; op_str (OpPhys base)]).
Proof.
  intros Hm Hops Hk Hb Hoff. rewrite (emit_mem_into i mf mn Hm). unfold emit_mem, op_at, opnd. rewrite Hops. cbn [lookup list_lookup fmap option_fmap option_map mbind option_bind].
  rewrite Hk. destruct (in_range (-256) 255 off) eqn:Er; [left|right].
  - split; [done|]. unfold access_text. by rewrite !str_app_assoc.
  - destruct (scratch_address [op_str r] base off) as (ls & addr & Ea & Hne & Et & Had); [simpl; lia | done | by intros -> | done |].
    exists ls, addr. split; [|exact Had]. cbn [app] in Ea. rewrite Ea. cbn [mbind option_bind]. rewrite Et, concat_code by done.
    unfold access_text. by rewrite ?str_app_assoc.
Qed.

Lemma memory_access_address_witness :
  let i := {| opcode := StrImm; operands := [OpPhys (Gp32 8); OpPhys FP; OpImm (-5000)]; def := None |} in
  exists ls addr, emit_inst_into i (new_machine_function "f") =
      Some (String.concat indent ((line_text <$> ls) ++ [access_text "str" "w8" addr None])) /\
    addressed ls addr "x29" (-5000) ["w8"; "x29"].
Proof.
  destruct (memory_access_address {| opcode := StrImm; operands := [OpPhys (Gp32 8); OpPhys FP; OpImm (-5000)]; def := None |}
    (new_machine_function "f") "str" (OpPhys (Gp32 8)) FP (OpImm (-5000)) (-5000)) as [[Hr _]|H]; [done.. | lia | discriminate Hr | exact H].
Defined.

(** C27: Immediate additions compute what they say.  An [add] or [sub] of any 64-bit
    immediate (other than the sentinel -1, and within 32 bits when the destination
    is the base or [sp]) between 64-bit registers prints lines whose immediates are
    all encodable and which leave the base plus or minus the immediate in the
    destination, modulo 2^64, and change no other register. *)
Theorem immediate_arithmetic_correct (sub : bool) i mf d b k n :
  opcode i = (if sub then SubImm else AddImm) -> operands i = [OpPhys d; OpPhys b; k] ->
  k = OpImm n /\ (n <> -1)%Z \/ sub = false /\ k = OpFrameSlot n ->
  reg64 d = true -> reg64 b = true -> (- 2 ^ 63 <= n < 2 ^ 63)%Z -> (d = b \/ d = Sp -> (Z.abs n < 2 ^ 32)%Z) ->
  exists ls, emit_inst_into i mf = Some (code_text ls) /\ forallb encodable ls = true /\
    computes ls (op_str (OpPhys d)) (fun s => arith sub (s (op_str (OpPhys b))) n).
Proof.
  intros Eo Hops Hk Hd Hb Hn Hal.
  assert (E : emit_inst_into i mf = fmt_gp_imm (arith_name sub) (op_str (OpPhys d)) (op_str (OpPhys b)) n).
  { assert (Hok : canonical_ok i = true) by (unfold canonical_ok; rewrite Eo, Hops; by destruct sub). destruct sub.
    - rewrite sub_imm_same by done. unfold emit_sub_imm, op_at, opnd. rewrite Hops. destruct Hk as [[-> Hn1]|[? ->]]; [|done].
      cbn. by rewrite bool_decide_false.
    - rewrite add_imm_same by done. unfold emit_add_imm, op_at, opnd. rewrite Hops. destruct Hk as [[-> Hn1]|[? ->]]; [|done].
      cbn. by rewrite bool_decide_false. }
  rewrite E. unfold fmt_gp_imm. rewrite alias_names, sp_name by done. apply gp_imm_spec; [|done|].
  - intros Ename. destruct (decide (d = Sp)) as [->|Hsp]; [by rewrite orb_true_r|]. rewrite <- alias_names by done.
    rewrite <- Ename. by rewrite reg64_alias.
  - intros Hor. apply Hal. apply orb_true_iff in Hor as [Hg|Hg]; [left | right; by apply bool_decide_eq_true in Hg; simplify_eq].
    destruct d, b; try done. unfold gp_operands_alias in Hg. simpl in Hg. by apply bool_decide_eq_true in Hg as ->.
Qed.

Lemma immediate_arithmetic_correct_witness :
  exists ls, emit_inst_into {| opcode := SubImm; operands := [OpPhys Sp; OpPhys Sp; OpImm 10632]; def := None |} (new_machine_function "f") =
      Some (code_text ls) /\ forallb encodable ls = true /\ computes ls "sp" (fun s => arith true (s "sp") 10632).
Proof. apply (immediate_arithmetic_correct true _ _ Sp Sp (OpImm 10632) 10632); [done | done | by left | done | done | lia | lia]. Defined.
