(* ===== verification/ArmPrologue.v ===== *)
(** Prologues and epilogues of the AArch64 printer: the frame is allocated in probed
    steps, the frame pointer and the link register are saved and restored. *)

From Stdlib Require Import Ascii.
From stdpp Require Import pretty.
From S2P Require Import Prelude Slices ArmMir ArmText ArmEmit ArmEmitEq ArmImm.
Local Open Scope string_scope.
Local Open Scope list_scope.

(** * Lines with memory *)

Inductive mline :=
| MReg (l : aline)
| MStr (r base : string) (o : option Z)
| MStp (r1 r2 base : string) (o : Z)
| MLdr (r base : string) (o : option Z)
| MLdp (r1 r2 base : string) (o : Z).

Definition pair_text (mn r1 r2 base : string) (o : Z) : string :=
  mn +:+ " " +:+ r1 +:+ ", " +:+ r2 +:+ ", [" +:+ base +:+ ", #" +:+ pretty o +:+ "]".

Definition mline_text (m : mline) : string :=
  match m with
  | MReg l => line_text l
  | MStr r base o => access_text "str" r base o
  | MStp r1 r2 base o => pair_text "stp" r1 r2 base o
  | MLdr r base o => access_text "ldr" r base o
  | MLdp r1 r2 base o => pair_text "ldp" r1 r2 base o
  end.

Definition mcode_text (ms : list mline) : string := String.concat indent (mline_text <$> ms).

(** Scaled offsets in the range of their field. *)
Definition scaled (lo hi o : Z) : bool := in_range lo hi o && (o mod 8 =? 0)%Z.

Definition mencodable (m : mline) : bool :=
  match m with
  | MReg l => encodable l
  | MStr _ _ o | MLdr _ _ o => scaled 0 32760 (default 0%Z o)
  | MStp _ _ _ o | MLdp _ _ _ o => scaled (-512) 504 o
  end.

(** Registers, and memory by 8-byte cells. *)
Record machine := { m_regs : regs; m_mem : Z -> Z }.

Definition cell (f : Z -> Z) (a v : Z) : Z -> Z := fun x => if decide (x = a) then v else f x.
Definition read_reg (s : regs) (r : string) : Z := if decide (r = "xzr") then 0%Z else s r.
Definition at_off (s : regs) (base : string) (o : Z) : Z := wrap64 (s base + o).

Definition mexec (st : machine) (m : mline) : machine :=
  let s := m_regs st in
  match m with
  | MReg l => {| m_regs := exec_line s l; m_mem := m_mem st |}
  | MStr r base o => {| m_regs := s; m_mem := cell (m_mem st) (at_off s base (default 0%Z o)) (read_reg s r) |}
  | MStp r1 r2 base o =>
      {| m_regs := s; m_mem := cell (cell (m_mem st) (at_off s base o) (read_reg s r1)) (at_off s base (o + 8)) (read_reg s r2) |}
  | MLdr r base o => {| m_regs := upd s r (m_mem st (at_off s base (default 0%Z o))); m_mem := m_mem st |}
  | MLdp r1 r2 base o =>
      {| m_regs := upd (upd s r1 (m_mem st (at_off s base o))) r2 (m_mem st (at_off s base (o + 8))); m_mem := m_mem st |}
  end.

Definition mexecs (st : machine) (ms : list mline) : machine := foldl mexec st ms.

(** The lowest address touched so far stays within a stride of the stack pointer. *)
Definition touched (st : machine) (m : mline) (low : Z) : Z :=
  match m with
  | MStr _ base o => Z.min low (at_off (m_regs st) base (default 0%Z o))
  | MStp _ _ base o => Z.min low (at_off (m_regs st) base o)
  | _ => low
  end.

Fixpoint probed (low : Z) (st : machine) (ms : list mline) : option Z :=
  match ms with
  | [] => Some low
  | m :: ms =>
      let low := touched st m low in
      let st := mexec st m in
      if (low - STACK_PROBE_STRIDE <=? m_regs st "sp")%Z then probed low st ms else None
  end.

Lemma mexecs_app st a b : mexecs st (a ++ b) = mexecs (mexecs st a) b.
Proof. apply foldl_app. Qed.

Lemma probed_app low st a b : probed low st (a ++ b) = low' ← probed low st a; probed low' (mexecs st a) b.
Proof. revert low st. induction a as [|m a IH]; intros low st; [done|]. cbn [app probed]. case_match; [apply IH | done]. Qed.

Lemma concat_flat (lss : list (list string)) :
  Forall (fun ls => ls <> []) lss -> String.concat indent (String.concat indent <$> lss) = String.concat indent (mjoin lss).
Proof.
  assert (Hcat : forall (a b : list string), a <> [] -> b <> [] -> String.concat indent (a ++ b) = String.concat indent a +:+ indent +:+ String.concat indent b).
  { intros a. induction a as [|x [|y a] IH]; intros b Ha Hb; [done | by destruct b |].
    change (x +:+ indent +:+ String.concat indent ((y :: a) ++ b) = (x +:+ indent +:+ String.concat indent (y :: a)) +:+ indent +:+ String.concat indent b).
    rewrite IH by done. by rewrite !str_app_assoc. }
  induction lss as [|ls [|ls' lss] IH]; intros HF; [done | simpl; by rewrite app_nil_r|].
  apply list.Forall_cons in HF as [Hls HF]. specialize (IH HF).
  change (mjoin (ls :: ls' :: lss)) with (ls ++ mjoin (ls' :: lss)). rewrite Hcat; [|done|].
  - rewrite <- IH. done.
  - apply list.Forall_cons in HF as [Hls' _]. by destruct ls'.
Qed.

(** * Arithmetic through x16 *)

Definition sp_high (n : Z) : Z := Z.land (Z.shiftr n 16) 65535.

Definition sp_alines (sub : bool) (d b : string) (n : Z) : list aline :=
  if in_range 0 4095 n then [AArithImm sub d b n false]
  else (AMovz "x16" (Z.land n 65535) 0 :: (if (sp_high n =? 0)%Z then [] else [AMovk "x16" (sp_high n) 16])) ++ [AArith sub d b "x16"].

Definition sp_lines (sub : bool) (d b : string) (n : Z) : list mline := MReg <$> sp_alines sub d b n.

Lemma sp_lines_text sub d b n : fmt_sp_imm (arith_name sub) d b n = mcode_text (sp_lines sub d b n).
Proof.
  unfold fmt_sp_imm, mcode_text, sp_lines, sp_alines. fold (sp_high n). destruct (in_range 0 4095 n).
  { cbn [fmap list_fmap mline_text line_text String.concat]. by rewrite str_app_nil_r. }
  destruct (sp_high n =? 0)%Z; cbn [app fmap list_fmap mline_text line_text String.concat Z.eqb]; rewrite ?str_app_nil_r, ?str_app_assoc; done.
Qed.

Lemma sp_lines_nonempty sub d b n : sp_lines sub d b n <> [].
Proof. unfold sp_lines, sp_alines. by destruct (in_range 0 4095 n). Qed.

Lemma halves n : (0 <= n < 2 ^ 32)%Z ->
  (n = Z.land n 65535 + sp_high n * 2 ^ 16 /\ 0 <= Z.land n 65535 < 65536 /\ 0 <= sp_high n < 65536)%Z.
Proof.
  intros Hn. unfold sp_high. change 65535%Z with (Z.ones 16). rewrite !Z.land_ones by lia. rewrite Z.shiftr_div_pow2 by lia.
  change (2 ^ 16)%Z with 65536%Z. change (2 ^ 32)%Z with (65536 * 65536)%Z in Hn.
  pose proof (Z.mod_pos_bound n 65536 ltac:(lia)). pose proof (Z.div_mod n 65536 ltac:(lia)).
  assert (0 <= n / 65536 < 65536)%Z by (split; [apply Z.div_pos; lia | apply Z.div_lt_upper_bound; lia]).
  rewrite (Z.mod_small (n / 65536)) by lia. lia.
Qed.

Lemma sp_lines_enc sub d b n : (0 <= n < 2 ^ 32)%Z -> forallb mencodable (sp_lines sub d b n) = true.
Proof.
  intros Hn. destruct (halves n Hn) as (_ & Hl & Hh). unfold sp_lines, sp_alines. destruct (in_range 0 4095 n) eqn:Er; [simpl; by rewrite Er|].
  assert (Hr : forall v, (0 <= v < 65536)%Z -> in_range 0 65535 v = true).
  { intros v Hv. unfold in_range. apply andb_true_iff. split; apply Z.leb_le; lia. }
  destruct (sp_high n =? 0)%Z; cbn [fmap list_fmap app forallb mencodable encodable]; by rewrite ?Hr.
Qed.

(** Register lines run on the registers only. *)
Lemma mexecs_regs st ls : mexecs st (MReg <$> ls) = {| m_regs := exec_lines (m_regs st) ls; m_mem := m_mem st |}.
Proof. revert st. induction ls as [|l ls IH]; intros st; [by destruct st|]. apply (IH (mexec st (MReg l))). Qed.

Lemma sp_alines_spec sub d b n s : (0 <= n < 2 ^ 32)%Z -> d <> "x16" -> b <> "x16" ->
  exec_lines s (sp_alines sub d b n) d = arith sub (s b) n /\
  forall r, r <> d -> r <> "x16" -> exec_lines s (sp_alines sub d b n) r = s r.
Proof.
  intros Hn Hd Hb. destruct (halves n Hn) as (Hsum & Hl & Hh). unfold sp_alines. destruct (in_range 0 4095 n).
  { cbn. rewrite reg_upd_eq. split; [done|]. intros r Hr _. by rewrite reg_upd_ne. }
  destruct (Z.eqb_spec (sp_high n) 0) as [Hz|Hz]; cbn [app exec_lines foldl exec_line].
  - rewrite !reg_upd_eq, (reg_upd_ne _ "x16" _ b) by done. split; [f_equal; lia|]. intros r Hr Hx. by rewrite !reg_upd_ne.
  - rewrite !reg_upd_eq, !(reg_upd_ne _ "x16" _ b) by done. rewrite insert16_above by lia. split; [f_equal; lia|].
    intros r Hr Hx. by rewrite !reg_upd_ne.
Qed.

(** Such lines move the stack pointer in their last line only. *)
Lemma sp_lines_probed sub d b n low st : (0 <= n < 2 ^ 32)%Z -> d <> "x16" -> b <> "x16" ->
  (low - STACK_PROBE_STRIDE <= m_regs st "sp")%Z ->
  (low - STACK_PROBE_STRIDE <= m_regs (mexecs st (sp_lines sub d b n)) "sp")%Z -> probed low st (sp_lines sub d b n) = Some low.
Proof.
  intros Hn Hd Hb H1 H2. unfold sp_lines in *. rewrite mexecs_regs in H2. cbn [m_regs] in H2. unfold sp_alines in *.
  destruct (in_range 0 4095 n).
  { cbn [fmap list_fmap probed touched mexec m_regs]. cbn in H2. cbn [exec_line]. destruct (Z.leb_spec (low - STACK_PROBE_STRIDE) (upd (m_regs st) d (arith sub (m_regs st b) n) "sp")); [done | lia]. }
  destruct (sp_high n =? 0)%Z; cbn [app fmap list_fmap probed touched mexec m_regs exec_lines foldl] in *;
    cbn [exec_line] in H2 |- *; rewrite ?(reg_upd_ne _ "x16" _ "sp") by done;
    repeat (rewrite (proj2 (Z.leb_le _ _)) by (done || lia)); done.
Qed.

(** * Allocating the frame *)

Fixpoint probe_groups (fuel : nat) (remaining : Z) : list (list mline) :=
  match fuel with
  | O => []
  | S fuel =>
      if (0 <? remaining)%Z then
        let step := Z.min remaining STACK_PROBE_STRIDE in
        sp_lines true "sp" "sp" step :: [MStr "xzr" "sp" None] :: probe_groups fuel (remaining - step)
      else []
  end.

Definition alloc_lines (n : Z) : list mline :=
  if (n <=? STACK_PROBE_STRIDE)%Z then sp_lines true "sp" "sp" n
  else mjoin (probe_groups (S (Z.to_nat (n / STACK_PROBE_STRIDE + 1))) n).

Lemma probe_loop_text fuel rem acc : probe_loop fuel rem acc = acc ++ (mcode_text <$> probe_groups fuel rem).
Proof.
  revert rem acc. induction fuel as [|fuel IH]; intros rem acc; [by rewrite app_nil_r|]. cbn [probe_loop probe_groups].
  destruct (0 <? rem)%Z; [|by rewrite app_nil_r]. etrans; [apply IH|]. rewrite <- app_assoc, !fmap_cons. cbn [app].
  by rewrite <- (sp_lines_text true).
Qed.

Lemma fmap_mjoin {A C} (f : A -> C) (ls : list (list A)) : f <$> mjoin ls = mjoin (fmap f <$> ls).
Proof. induction ls as [|l ls IH]; [done|]. change (f <$> l ++ mjoin ls = (f <$> l) ++ mjoin (fmap f <$> ls)). by rewrite fmap_app, IH. Qed.

Lemma mcode_groups gs : Forall (fun g => g <> []) gs -> String.concat indent (mcode_text <$> gs) = mcode_text (mjoin gs).
Proof.
  intros HF. unfold mcode_text at 2. rewrite fmap_mjoin, <- concat_flat; [by rewrite <- list_fmap_compose|].
  apply list.Forall_fmap. eapply list.Forall_impl; [exact HF|]. intros g Hg. simpl. by destruct g.
Qed.

Lemma alloc_lines_text n : fmt_stack_alloc n = mcode_text (alloc_lines n).
Proof.
  unfold fmt_stack_alloc, alloc_lines. destruct (n <=? STACK_PROBE_STRIDE)%Z; [apply (sp_lines_text true)|].
  rewrite probe_loop_text. cbn [app]. apply mcode_groups. generalize (S (Z.to_nat (n / STACK_PROBE_STRIDE + 1))). intros fuel. revert n.
  induction fuel as [|fuel IH]; intros n; cbn [probe_groups]; [constructor|]. destruct (0 <? n)%Z; [|constructor].
  repeat constructor; [apply sp_lines_nonempty | done | apply IH].
Qed.

(** The frame of a given size below the stack pointer is allocated, the rest of memory and the registers are kept. *)
Record allocated (st st' : machine) (n : Z) : Prop := {
  al_sp : m_regs st' "sp" = (m_regs st "sp" - n)%Z;
  al_regs : forall r, r <> "sp" -> r <> "x16" -> m_regs st' r = m_regs st r;
  al_mem : forall a, (m_regs st "sp" <= a)%Z -> m_mem st' a = m_mem st a }.

Lemma sub_sp st n : (0 <= n < 2 ^ 32)%Z -> (n <= m_regs st "sp" < 2 ^ 64)%Z ->
  allocated st (mexecs st (sp_lines true "sp" "sp" n)) n /\ m_mem (mexecs st (sp_lines true "sp" "sp" n)) = m_mem st.
Proof.
  intros Hn Hsp. unfold sp_lines. rewrite mexecs_regs. destruct (sp_alines_spec true "sp" "sp" n (m_regs st) Hn) as [H1 H2]; [done..|].
  split; [|done]. split; cbn [m_regs m_mem]; [|done|done]. rewrite H1. unfold arith, wrap64. apply Z.mod_small. lia.
Qed.

Lemma probe_step st step : (0 < step <= STACK_PROBE_STRIDE)%Z -> (step <= m_regs st "sp" < 2 ^ 64)%Z ->
  let ms := sp_lines true "sp" "sp" step ++ [MStr "xzr" "sp" None] in
  probed (m_regs st "sp") st ms = Some (m_regs st "sp" - step)%Z /\ allocated st (mexecs st ms) step /\ forallb mencodable ms = true.
Proof.
  intros Hs Hsp ms. assert (Hs' : (0 < step <= 16384)%Z) by exact Hs. destruct (sub_sp st step) as [[A1 A2 A3] Am]; [lia | lia |].
  assert (Hat : at_off (m_regs (mexecs st (sp_lines true "sp" "sp" step))) "sp" 0 = (m_regs st "sp" - step)%Z).
  { unfold at_off, wrap64. rewrite A1. rewrite Z.add_0_r. apply Z.mod_small. lia. }
  split; [|split].
  - unfold ms. rewrite probed_app, sp_lines_probed; [|lia|done|done|unfold STACK_PROBE_STRIDE; lia|unfold STACK_PROBE_STRIDE; lia].
    cbn [mbind option_bind probed touched mexec m_regs default]. rewrite Hat, A1. rewrite Z.min_r by lia.
    by rewrite (proj2 (Z.leb_le _ _)) by (unfold STACK_PROBE_STRIDE; lia).
  - unfold ms. rewrite mexecs_app. cbn [mexecs foldl mexec]. split; cbn [m_regs m_mem default]; [done | done |].
    change (foldl mexec st (sp_lines true "sp" "sp" step)) with (mexecs st (sp_lines true "sp" "sp" step)).
    intros a Ha. unfold cell. rewrite Hat, decide_False by lia. by apply A3.
  - unfold ms. rewrite forallb_app, sp_lines_enc by lia. done.
Qed.

Lemma allocated_trans st1 st2 st3 a b : (0 <= a)%Z -> allocated st1 st2 a -> allocated st2 st3 b -> allocated st1 st3 (a + b).
Proof.
  intros Ha [H1 H2 H3] [K1 K2 K3]. split; [rewrite K1, H1; lia | intros r R1 R2; by rewrite K2, H2 |].
  intros x Hx. rewrite K3 by lia. by apply H3.
Qed.

Lemma probe_groups_spec fuel rem st :
  (0 <= rem <= Z.of_nat fuel * STACK_PROBE_STRIDE)%Z -> (rem <= m_regs st "sp" < 2 ^ 64)%Z ->
  let ms := mjoin (probe_groups fuel rem) in
  probed (m_regs st "sp") st ms = Some (m_regs st "sp" - rem)%Z /\ allocated st (mexecs st ms) rem /\ forallb mencodable ms = true.
Proof.
  revert rem st. induction fuel as [|fuel IH]; intros rem st Hrem Hsp; cbn [probe_groups].
  { assert (rem = 0%Z) as -> by lia. simpl. rewrite Z.sub_0_r. split_and!; [done | by split; [rewrite Z.sub_0_r| |] | done]. }
  destruct (Z.ltb_spec 0 rem) as [Hpos|].
  2: { assert (rem = 0%Z) as -> by lia. simpl. rewrite Z.sub_0_r. split_and!; [done | by split; [rewrite Z.sub_0_r| |] | done]. }
  set (step := Z.min rem STACK_PROBE_STRIDE). unfold STACK_PROBE_STRIDE in *.
  destruct (probe_step st step) as (P1 & A1 & E1); [unfold step, STACK_PROBE_STRIDE; lia | lia |].
  set (ms1 := sp_lines true "sp" "sp" step ++ [MStr "xzr" "sp" None]) in *.
  destruct (IH (rem - step)%Z (mexecs st ms1)) as (P2 & A2 & E2); [lia | rewrite (al_sp _ _ _ A1); lia |].
  assert (Em : mjoin (sp_lines true "sp" "sp" step :: [MStr "xzr" "sp" None] :: probe_groups fuel (rem - step)) = ms1 ++ mjoin (probe_groups fuel (rem - step))).
  { unfold ms1. rewrite <- app_assoc. done. }
  rewrite Em. split_and!.
  - rewrite probed_app, P1. cbn [mbind option_bind]. rewrite <- (al_sp _ _ _ A1), P2, (al_sp _ _ _ A1). f_equal. lia.
  - rewrite mexecs_app. replace rem with (step + (rem - step))%Z at 2 by lia. eapply allocated_trans; [lia | done | done].
  - by rewrite forallb_app, E1, E2.
Qed.

(** * Saving and restoring the frame pointer and the link register *)

Definition save_lines (n : Z) : list mline :=
  let o := (n - 16)%Z in
  if (o <=? 504)%Z then [MStp "x29" "x30" "sp" o]
  else if (o <=? 32760)%Z then [MStr "x29" "sp" (Some o); MStr "x30" "sp" (Some (o + 8)%Z)]
  else sp_lines false "x9" "sp" o ++ [MStr "x29" "x9" None; MStr "x30" "x9" (Some 8%Z)].

Definition restore_lines (n : Z) : list mline :=
  let o := (n - 16)%Z in
  (if (o <=? 504)%Z then [MLdp "x29" "x30" "sp" o]
   else if (o <=? 32760)%Z then [MLdr "x29" "sp" (Some o); MLdr "x30" "sp" (Some (o + 8)%Z)]
   else sp_lines false "x9" "sp" o ++ [MLdr "x29" "x9" None; MLdr "x30" "x9" (Some 8%Z)]) ++
  sp_lines false "sp" "sp" n.

Lemma mcode_text_app a b : a <> [] -> b <> [] -> mcode_text (a ++ b) = mcode_text a +:+ indent +:+ mcode_text b.
Proof.
  intros Ha Hb. pose proof (concat_flat [mline_text <$> a; mline_text <$> b]) as H. unfold mcode_text. rewrite fmap_app.
  rewrite <- (app_nil_r ((mline_text <$> a) ++ (mline_text <$> b))), <- app_assoc. symmetry. apply H.
  repeat constructor; by destruct a, b.
Qed.

Lemma alloc_lines_nonempty n : alloc_lines n <> [].
Proof.
  unfold alloc_lines. destruct (Z.leb_spec n STACK_PROBE_STRIDE) as [|Hgt]; [apply sp_lines_nonempty|].
  cbn [probe_groups]. unfold STACK_PROBE_STRIDE in Hgt. rewrite (proj2 (Z.ltb_lt 0 n)) by lia.
  intros H. change (sp_lines true "sp" "sp" (Z.min n STACK_PROBE_STRIDE) ++ mjoin ([MStr "xzr" "sp" None] :: probe_groups (Z.to_nat (n / STACK_PROBE_STRIDE + 1)) (n - Z.min n STACK_PROBE_STRIDE)) = []) in H.
  apply app_eq_nil in H as [H _]. by apply sp_lines_nonempty in H.
Qed.

Lemma prologue_text mf :
  emit_stp_pre mf = mcode_text (alloc_lines (sf_size (mf_frame mf)) ++ save_lines (sf_size (mf_frame mf))).
Proof.
  unfold emit_stp_pre. set (n := sf_size (mf_frame mf)). rewrite alloc_lines_text. unfold save_lines. set (o := (n - 16)%Z).
  destruct (o <=? 504)%Z; [|destruct (o <=? 32760)%Z]; (rewrite mcode_text_app; [|apply alloc_lines_nonempty | try done]).
  - done.
  - unfold mcode_text. cbn [fmap list_fmap mline_text String.concat]. unfold access_text. by rewrite ?str_app_assoc.
  - rewrite (sp_lines_text false). rewrite mcode_text_app by (try apply sp_lines_nonempty; done). by rewrite ?str_app_assoc.
  - intros [_ ?]%app_eq_nil. done.
Qed.

Lemma epilogue_text mf : emit_ldp_post mf = mcode_text (restore_lines (sf_size (mf_frame mf))).
Proof.
  unfold emit_ldp_post. set (n := sf_size (mf_frame mf)). unfold restore_lines. set (o := (n - 16)%Z).
  rewrite !(sp_lines_text false).
  destruct (o <=? 504)%Z; [|destruct (o <=? 32760)%Z]; (rewrite mcode_text_app; [| try done | apply sp_lines_nonempty]).
  - unfold mcode_text. cbn [fmap list_fmap mline_text String.concat]. unfold pair_text. by rewrite ?str_app_assoc.
  - unfold mcode_text. cbn [fmap list_fmap mline_text String.concat]. unfold access_text. by rewrite ?str_app_assoc.
  - rewrite mcode_text_app by (try apply sp_lines_nonempty; done). by rewrite ?str_app_assoc.
  - intros [_ ?]%app_eq_nil. done.
Qed.

Lemma add_x9 st n : (0 <= n < 2 ^ 32)%Z -> (0 <= m_regs st "sp")%Z -> (m_regs st "sp" + n < 2 ^ 64)%Z ->
  let st' := mexecs st (sp_lines false "x9" "sp" n) in
  m_regs st' "x9" = (m_regs st "sp" + n)%Z /\ m_mem st' = m_mem st /\ forall r, r <> "x9" -> r <> "x16" -> m_regs st' r = m_regs st r.
Proof.
  intros Hn H0 H1 st'. unfold st', sp_lines. rewrite mexecs_regs. cbn [m_regs m_mem].
  destruct (sp_alines_spec false "x9" "sp" n (m_regs st) Hn) as [E Hr]; [done..|]. rewrite E. split_and!; [|done|done].
  unfold arith, wrap64. apply Z.mod_small. lia.
Qed.

Lemma scaled_ok lo hi o : (lo <= o <= hi)%Z -> (8 | o)%Z -> scaled lo hi o = true.
Proof.
  intros H [k ->]. unfold scaled, in_range. rewrite Z.mod_mul by lia. rewrite !andb_true_iff.
  split; [split; apply Z.leb_le; lia | done].
Qed.

(** The two cells below the caller's stack pointer hold the pair. *)
Record saved (st st' : machine) (top : Z) : Prop := {
  sv_fp : m_mem st' (top - 16)%Z = m_regs st "x29";
  sv_lr : m_mem st' (top - 8)%Z = m_regs st "x30";
  sv_mem : forall a, (top <= a)%Z -> m_mem st' a = m_mem st a;
  sv_regs : forall r, r <> "x9" -> r <> "x16" -> m_regs st' r = m_regs st r }.

(** Frame sizes: multiples of 16 with room for the pair. *)
Definition frame_size_ok (n : Z) : Prop := (16 <= n < 2 ^ 32 /\ (16 | n))%Z.

Lemma store_pair st b1 o1 b2 o2 top :
  at_off (m_regs st) b1 o1 = (top - 16)%Z -> at_off (m_regs st) b2 o2 = (top - 8)%Z ->
  forall mem, mem = cell (cell (m_mem st) (at_off (m_regs st) b1 o1) (m_regs st "x29")) (at_off (m_regs st) b2 o2) (m_regs st "x30") ->
  mem (top - 16)%Z = m_regs st "x29" /\ mem (top - 8)%Z = m_regs st "x30" /\ forall a, (top <= a)%Z -> mem a = m_mem st a.
Proof.
  intros -> -> mem ->. unfold cell. split_and!; [| |intros a Ha]; repeat case_decide; done || lia.
Qed.

Lemma save_lines_spec st n low :
  frame_size_ok n -> (0 <= m_regs st "sp")%Z -> (m_regs st "sp" + n < 2 ^ 64)%Z -> (low - STACK_PROBE_STRIDE <= m_regs st "sp")%Z ->
  saved st (mexecs st (save_lines n)) (m_regs st "sp" + n) /\ forallb mencodable (save_lines n) = true /\ is_Some (probed low st (save_lines n)).
Proof.
  intros [Hn [q Hq]] H0 H1 Hlow. unfold save_lines. set (o := (n - 16)%Z).
  assert (Hat : forall s v, (0 <= v)%Z -> (s + v < 2 ^ 64)%Z -> (0 <= s)%Z -> wrap64 (s + v) = (s + v)%Z).
  { intros s v Hv Hs Hs0. unfold wrap64. apply Z.mod_small. lia. }
  assert (Hp : forall st0 m ms low0, m_regs (mexec st0 m) = m_regs st0 -> (low0 - STACK_PROBE_STRIDE <= m_regs st0 "sp")%Z ->
    (touched st0 m low0 <= low0)%Z -> is_Some (probed (touched st0 m low0) (mexec st0 m) ms) -> is_Some (probed low0 st0 (m :: ms))).
  { intros st0 m ms low0 E Hl Ht Hs. cbn [probed]. rewrite E, (proj2 (Z.leb_le _ _)) by lia. done. }
  destruct (Z.leb_spec o 504) as [Ho|Ho]; [|destruct (Z.leb_spec o 32760) as [Ho'|Ho']].
  - split_and!.
    + destruct (store_pair st "sp" o "sp" (o + 8) (m_regs st "sp" + n) ltac:(unfold at_off; rewrite Hat; lia) ltac:(unfold at_off; rewrite Hat; lia) _ eq_refl) as (? & ? & ?).
      by split.
    + cbn. rewrite scaled_ok; [done | lia |]. exists (2 * q - 2)%Z. lia.
    + apply Hp; [done | done | cbn [touched]; lia | by eexists].
  - split_and!.
    + destruct (store_pair st "sp" o "sp" (o + 8) (m_regs st "sp" + n) ltac:(unfold at_off; rewrite Hat; lia) ltac:(unfold at_off; rewrite Hat; lia) _ eq_refl) as (? & ? & ?).
      by split.
    + cbn. rewrite !scaled_ok; [done | lia | | lia |]; [exists (2 * q - 1)%Z | exists (2 * q - 2)%Z]; lia.
    + apply Hp; [done | done | cbn [touched]; lia |]. apply Hp; [done | cbn [touched mexec m_regs]; lia | cbn [touched]; lia | by eexists].
  - destruct (add_x9 st o ltac:(lia) H0 ltac:(lia)) as (Ex & Em & Er). set (st1 := mexecs st (sp_lines false "x9" "sp" o)) in *. split_and!.
    + rewrite mexecs_app. fold st1. destruct (store_pair st1 "x9" 0 "x9" 8 (m_regs st "sp" + n) ltac:(unfold at_off; rewrite Ex, Hat; lia) ltac:(unfold at_off; rewrite Ex, Hat; lia) _ eq_refl) as (S1 & S2 & S3).
      split; [etrans; [exact S1 | by apply Er] | etrans; [exact S2 | by apply Er] | | exact Er].
      intros a Ha. etrans; [by apply S3 | by rewrite Em].
    + rewrite forallb_app, sp_lines_enc by lia. done.
    + rewrite probed_app, sp_lines_probed; [|lia|done|done|done|fold st1; by rewrite Er]. cbn [mbind option_bind]. fold st1.
      apply Hp; [done | by rewrite Er | cbn [touched]; lia |].
      apply Hp; [done | cbn [touched mexec m_regs]; rewrite Er by done; lia | cbn [touched]; lia | by eexists].
Qed.

Lemma alloc_lines_spec st n : (0 < n < 2 ^ 32)%Z -> (n <= m_regs st "sp" < 2 ^ 64)%Z ->
  allocated st (mexecs st (alloc_lines n)) n /\ forallb mencodable (alloc_lines n) = true /\
  exists low, probed (m_regs st "sp") st (alloc_lines n) = Some low /\ (low - STACK_PROBE_STRIDE <= m_regs st "sp" - n)%Z.
Proof.
  intros Hn Hsp. unfold alloc_lines. destruct (Z.leb_spec n STACK_PROBE_STRIDE) as [Hle|Hgt].
  - destruct (sub_sp st n) as [Ha _]; [lia | lia |]. split; [done|]. split; [apply sp_lines_enc; lia|]. exists (m_regs st "sp"). split; [|lia].
    apply sp_lines_probed; [lia | done | done | unfold STACK_PROBE_STRIDE; lia |]. rewrite (al_sp _ _ _ Ha). lia.
  - destruct (probe_groups_spec (S (Z.to_nat (n / STACK_PROBE_STRIDE + 1))) n st) as (P & A & E); [|lia|].
    { unfold STACK_PROBE_STRIDE. pose proof (Z.mul_succ_div_gt n (16 * 1024) ltac:(lia)). pose proof (Z.div_pos n (16 * 1024) ltac:(lia) ltac:(lia)). lia. }
    split; [done|]. split; [done|]. exists (m_regs st "sp" - n)%Z. split; [done|]. unfold STACK_PROBE_STRIDE. lia.
Qed.

(** What a restored state has. *)
Record restored (st st' : machine) (top : Z) : Prop := {
  rs_sp : m_regs st' "sp" = top;
  rs_fp : m_regs st' "x29" = m_mem st (top - 16)%Z;
  rs_lr : m_regs st' "x30" = m_mem st (top - 8)%Z;
  rs_mem : m_mem st' = m_mem st;
  rs_regs : forall r, r ∉ ["sp"; "x29"; "x30"; "x9"; "x16"] -> m_regs st' r = m_regs st r }.

(** Read a register after known updates. *)
Ltac read_regs := repeat first [rewrite reg_upd_eq | rewrite reg_upd_ne by done].

(** The reload of the pair, before the stack pointer is moved. *)
Lemma reload_spec st n ms :
  frame_size_ok n -> (0 <= m_regs st "sp")%Z -> (m_regs st "sp" + n < 2 ^ 64)%Z -> restore_lines n = ms ++ sp_lines false "sp" "sp" n ->
  let st' := mexecs st ms in
  m_regs st' "sp" = m_regs st "sp" /\ m_regs st' "x29" = m_mem st (m_regs st "sp" + n - 16)%Z /\
  m_regs st' "x30" = m_mem st (m_regs st "sp" + n - 8)%Z /\ m_mem st' = m_mem st /\
  (forall r, r ∉ ["sp"; "x29"; "x30"; "x9"; "x16"] -> m_regs st' r = m_regs st r) /\ forallb mencodable ms = true.
Proof.
  intros [Hn [q Hq]] H0 H1 E. unfold restore_lines in E. apply app_inv_tail in E as <-. set (o := (n - 16)%Z).
  assert (Hat : forall s v, (0 <= v)%Z -> (s + v < 2 ^ 64)%Z -> (0 <= s)%Z -> wrap64 (s + v) = (s + v)%Z).
  { intros s v Hv Hs Hs0. unfold wrap64. apply Z.mod_small. lia. }
  assert (Hn16 : (m_regs st "sp" + o = m_regs st "sp" + n - 16)%Z) by lia.
  assert (Hn8 : (m_regs st "sp" + (o + 8) = m_regs st "sp" + n - 8)%Z) by lia.
  destruct (Z.leb_spec o 504) as [Ho|Ho]; [|destruct (Z.leb_spec o 32760) as [Ho'|Ho']].
  - cbn [mexecs foldl mexec m_regs m_mem forallb mencodable]. unfold at_off. read_regs. rewrite !Hat by lia.
    rewrite Hn16, Hn8, scaled_ok; [|lia | exists (2 * q - 2)%Z; lia]. split_and!; try done. intros r Hr. rewrite !reg_upd_ne; [done | set_solver..].
  - cbn [mexecs foldl mexec m_regs m_mem forallb mencodable default]. unfold at_off, id. read_regs. rewrite !Hat by lia.
    rewrite Hn16, Hn8, !scaled_ok; [|lia | exists (2 * q - 1)%Z; lia | lia | exists (2 * q - 2)%Z; lia]. split_and!; try done.
    intros r Hr. rewrite !reg_upd_ne; [done | set_solver..].
  - rewrite mexecs_app. destruct (add_x9 st o ltac:(lia) H0 ltac:(lia)) as (Ex & Em & Er). set (st1 := mexecs st (sp_lines false "x9" "sp" o)) in *.
    cbn [mexecs foldl mexec m_regs m_mem default]. unfold at_off, id. read_regs. rewrite Em, Ex, !Hat by lia.
    rewrite Z.add_0_r, Hn16. replace (m_regs st "sp" + n - 16 + 8)%Z with (m_regs st "sp" + n - 8)%Z by lia. split_and!; try done.
    + by apply Er.
    + intros r Hr. rewrite !reg_upd_ne; [apply Er | ..]; set_solver.
    + rewrite forallb_app, sp_lines_enc by lia. done.
Qed.

Lemma restore_lines_spec st n :
  frame_size_ok n -> (0 <= m_regs st "sp")%Z -> (m_regs st "sp" + n < 2 ^ 64)%Z ->
  restored st (mexecs st (restore_lines n)) (m_regs st "sp" + n) /\ forallb mencodable (restore_lines n) = true.
Proof.
  intros Hok H0 H1. assert (exists ms, restore_lines n = ms ++ sp_lines false "sp" "sp" n) as [ms E] by (by eexists).
  destruct (reload_spec st n ms Hok H0 H1 E) as (R1 & R2 & R3 & R4 & R5 & R6). rewrite E, mexecs_app. set (st1 := mexecs st ms) in *.
  destruct Hok as [Hn _]. destruct (sp_alines_spec false "sp" "sp" n (m_regs st1)) as [S1 S2]; [lia | done | done |].
  split; [|by rewrite forallb_app, R6, sp_lines_enc by lia]. unfold sp_lines. rewrite mexecs_regs. split; cbn [m_regs m_mem].
  - rewrite S1, R1. unfold arith, wrap64. apply Z.mod_small. lia.
  - by rewrite S2.
  - by rewrite S2.
  - done.
  - intros r Hr. rewrite S2; [by apply R5 | set_solver..].
Qed.

(** * Properties *)

(** C25: Prologue and epilogue.  For the frame of every function and a stack with room
    for it, the prologue prints encodable lines that lower the stack pointer by the
    frame size without ever moving it more than one probe stride (16 KiB) below the
    lowest address touched, save the frame pointer and the link register in the two
    cells below the caller's stack pointer, and keep every other register but x9 and
    x16 and all memory of the caller.  Whatever the body did in between, if it kept
    the stack pointer and those two cells, the epilogue gives back the caller's stack
    pointer, frame pointer and link register. *)
Theorem prologue_epilogue mf i j st n :
  frame_reach (mf_frame mf) -> sf_size (mf_frame mf) = n -> (n < 2 ^ 32)%Z -> opcode i = StpPre -> opcode j = LdpPost ->
  (n <= m_regs st "sp" < 2 ^ 64)%Z ->
  exists pro epi, emit_inst_into i mf = Some (mcode_text pro) /\ emit_inst_into j mf = Some (mcode_text epi) /\
    forallb mencodable pro = true /\ forallb mencodable epi = true /\ is_Some (probed (m_regs st "sp") st pro) /\
    let st1 := mexecs st pro in
    m_regs st1 "sp" = (m_regs st "sp" - n)%Z /\
    (forall r, r ∉ ["sp"; "x9"; "x16"] -> m_regs st1 r = m_regs st r) /\
    (forall a, (m_regs st "sp" <= a)%Z -> m_mem st1 a = m_mem st a) /\
    forall st2, m_regs st2 "sp" = m_regs st1 "sp" ->
      (forall a, a ∈ [m_regs st "sp" - 16; m_regs st "sp" - 8]%Z -> m_mem st2 a = m_mem st1 a) ->
      let st3 := mexecs st2 epi in
      m_regs st3 "sp" = m_regs st "sp" /\ m_regs st3 "x29" = m_regs st "x29" /\ m_regs st3 "x30" = m_regs st "x30" /\
      m_mem st3 = m_mem st2 /\ forall r, r ∉ ["sp"; "x29"; "x30"; "x9"; "x16"] -> m_regs st3 r = m_regs st2 r.
Proof.
  intros Hreach En Hlt Ei Ej Hsp. apply frame_reach_ok in Hreach as [F1 F2 _ [Hdiv Hsz] _ _ _]. rewrite En in *.
  assert (Hok : frame_size_ok n) by (split; [lia | done]).
  exists (alloc_lines n ++ save_lines n), (restore_lines n).
  unfold emit_inst_into, emit_common_inst_into, emit_inst. rewrite Ei, Ej. cbn [mbind option_bind]. rewrite prologue_text, epilogue_text, En.
  destruct (alloc_lines_spec st n) as ([A1 A2 A3] & Ea & low & Hp & Hlow); [lia | done |]. set (sta := mexecs st (alloc_lines n)) in *.
  destruct (save_lines_spec sta n low Hok) as ([S1 S2 S3 S4] & Es & Hps); [lia | lia | by rewrite A1 |].
  replace (m_regs sta "sp" + n)%Z with (m_regs st "sp") in * by lia. set (st1 := mexecs sta (save_lines n)) in *.
  split; [done|]. split; [done|]. split; [by rewrite forallb_app, Ea, Es|].
  split; [eapply (restore_lines_spec {| m_regs := fun _ => 0%Z; m_mem := m_mem st |} n Hok); simpl; lia|].
  split; [by rewrite probed_app, Hp|]. rewrite mexecs_app. fold sta. fold st1. cbn zeta. split; [by rewrite S4|]. split; [|split].
  - intros r Hr. rewrite S4 by set_solver. apply A2; set_solver.
  - intros a Ha. rewrite S3 by lia. by apply A3.
  - intros st2 E2 Hm. destruct (restore_lines_spec st2 n Hok) as [[R1 R2 R3 R4 R5] _]; [rewrite E2, S4 by done; lia.. |].
    replace (m_regs st2 "sp" + n)%Z with (m_regs st "sp") in * by (rewrite E2, S4 by done; lia).
    rewrite Hm in R2, R3 by set_solver. rewrite S1 in R2. rewrite S2 in R3.
    rewrite (A2 "x29") in R2 by done. rewrite (A2 "x30") in R3 by done. done.
Qed.

(** A frame that needs probing. *)
Definition big_fn : MachineFunction := with_frame (new_machine_function "f") (alloc_local new_frame 40000).1.

Lemma big_fn_reach : frame_reach (mf_frame big_fn).
Proof. apply reach_alloc; [apply reach_new | by vm_compute]. Qed.

Definition big_stack : machine := {| m_regs := fun r => if decide (r = "sp") then 2 ^ 40 else 7; m_mem := fun _ => 0 |}%Z.

Lemma prologue_epilogue_witness :
  exists pro epi, emit_inst_into {| opcode := StpPre; operands := []; def := None |} big_fn = Some (mcode_text pro) /\
    emit_inst_into {| opcode := LdpPost; operands := []; def := None |} big_fn = Some (mcode_text epi) /\
    is_Some (probed (2 ^ 40) big_stack pro) /\ m_regs (mexecs big_stack pro) "sp" = (2 ^ 40 - 40016)%Z.
Proof.
  destruct (prologue_epilogue big_fn {| opcode := StpPre; operands := []; def := None |} {| opcode := LdpPost; operands := []; def := None |}
    big_stack 40016) as (pro & epi & H1 & H2 & _ & _ & H3 & H4 & _);
    [apply big_fn_reach | vm_compute; reflexivity | done | done | done | split; [vm_compute; discriminate | vm_compute; reflexivity] |].
  exists pro, epi. split; [exact H1|]. split; [exact H2|]. split; [exact H3 | exact H4].
Defined.
