(* ===== verification/RelaxBranches.v ===== *)
(** Local-branch range relaxation of the AArch64 backend
    (src/src/codegen/arm64/relax_branches.rs).

    The pass lays the function out, finds the branches whose target is out of
    reach, replaces an out-of-reach conditional branch by an inverted one around a
    [B] and an out-of-reach [B] by a veneer, and repeats.  The size of an instruction
    is counted from the text the printer gives for it. *)

From Stdlib Require Import Ascii.
From stdpp Require Import sorting pretty.
From S2P Require Import Prelude Slices ArmMir ArmText ArmEmit.
Local Open Scope string_scope.
Local Open Scope list_scope.

Definition COND_BRANCH_LIMIT : Z := Z.shiftl 1 20 - 64.
Definition TBZ_BRANCH_LIMIT : Z := Z.shiftl 1 15 - 64.
Definition B_BRANCH_LIMIT : Z := Z.shiftl 1 27 - 64.

Record BranchLimits := { lim_cond : Z; lim_tbz : Z; lim_unconditional : Z }.

Definition PRODUCTION_BRANCH_LIMITS : BranchLimits :=
  {| lim_cond := COND_BRANCH_LIMIT; lim_tbz := TBZ_BRANCH_LIMIT; lim_unconditional := B_BRANCH_LIMIT |}.

Inductive RelaxKind :=
| KB
| KBCond (cond : ArmCond)
| KCbz (invert_to : ArmOpcode) (reg : MachineOperand)
| KTbz (invert_to : ArmOpcode) (reg : MachineOperand) (bit : Z).

Definition is_KB (k : RelaxKind) : bool := match k with KB => true | _ => false end.

Record OverflowSite := { os_block : MBlockId; os_inst : nat; os_target : MBlockId; os_kind : RelaxKind }.
Record BranchSite := { bs_overflow : OverflowSite; bs_local_offset : Z; bs_limit : Z }.
Record BranchLayout := { block_offsets : gmap MBlockId Z; sites : list BranchSite }.

(** The first operand of a kind. *)
Definition bcond_target (inst : MachineInst) : option MBlockId :=
  head (omap (fun op => match op with OpBlock id => Some id | _ => None end) (operands inst)).
Definition bcond_cond (inst : MachineInst) : option ArmCond :=
  head (omap (fun op => match op with OpCond c => Some c | _ => None end) (operands inst)).

Definition block_operand (op : MachineOperand) : option MBlockId :=
  match op with OpBlock id => Some id | _ => None end.

Definition relaxable_branch (inst : MachineInst) (limits : BranchLimits) : option (MBlockId * Z * RelaxKind) :=
  match opcode inst with
  | B =>
      target ← (operands inst !! 0%nat) ≫= block_operand;
      Some (target, lim_unconditional limits, KB)
  | BCond =>
      target ← bcond_target inst;
      cond ← bcond_cond inst;
      Some (target, lim_cond limits, KBCond cond)
  | Cbz | Cbnz =>
      target ← (operands inst !! 1%nat) ≫= block_operand;
      reg ← operands inst !! 0%nat;
      let invert_to := match opcode inst with Cbz => Cbnz | _ => Cbz end in
      Some (target, lim_cond limits, KCbz invert_to reg)
  | Tbz | Tbnz =>
      bit ← (operands inst !! 1%nat) ≫= fun op => match op with OpImm v => Some v | _ => None end;
      target ← (operands inst !! 2%nat) ≫= block_operand;
      reg ← operands inst !! 0%nat;
      let invert_to := match opcode inst with Tbz => Tbnz | _ => Tbz end in
      Some (target, lim_tbz limits, KTbz invert_to reg bit)
  | _ => None
  end.

(** [mf.blocks.iter().position(..).expect(..)] *)
Definition block_position (mf : MachineFunction) (id : MBlockId) : option nat :=
  fst <$> list_find (fun b => mb_id b = id) (mf_blocks mf).

(** [MachineInst] literals of the pass. *)
Definition branch_inst (o : ArmOpcode) (ops : list MachineOperand) : MachineInst :=
  {| opcode := o; operands := ops; def := None |}.

Definition inverted_branch (kind : RelaxKind) (skip_id : MBlockId) : option MachineInst :=
  match kind with
  | KB => None
  | KBCond cond => Some (branch_inst BCond [OpCond (inverse cond); OpBlock skip_id])
  | KCbz invert_to reg => Some (branch_inst invert_to [reg; OpBlock skip_id])
  | KTbz invert_to reg bit => Some (branch_inst invert_to [reg; OpImm bit; OpBlock skip_id])
  end.

(** [expand_conditional_to_trampoline]; [None] is a panic. *)
Definition expand_conditional_to_trampoline (mf : MachineFunction) (block_id : MBlockId) (inst_idx : nat)
    (far_target : MBlockId) (kind : RelaxKind) : option MachineFunction :=
  let '(mf, skip_id) := next_block_id mf in
  src ← block mf block_id;
  let skip_label := mb_label src +:+ "_relax" +:+ pretty skip_id in
  inverted ← inverted_branch kind skip_id;
  block_pos ← block_position mf block_id;
  blk ← mf_blocks mf !! block_pos;
  _ ← mb_insts blk !! inst_idx;
  let trailing := drop (S inst_idx) (mb_insts blk) in
  let blk' := {| mb_id := mb_id blk; mb_label := mb_label blk;
                 mb_insts := take inst_idx (mb_insts blk) ++ [inverted; branch_inst B [OpBlock far_target]] |} in
  let skip_block := {| mb_id := skip_id; mb_label := skip_label; mb_insts := trailing |} in
  Some (with_blocks mf (take block_pos (mf_blocks mf) ++ [blk'; skip_block] ++ drop (S block_pos) (mf_blocks mf))).

(** [expand_overflow]. *)
Definition expand_overflow (mf : MachineFunction) (site : OverflowSite) : option MachineFunction :=
  match os_kind site with
  | KB =>
      mf ← ensure_long_branch_label mf (os_target site);
      pos ← block_index mf (os_block site);
      blk ← mf_blocks mf !! pos;
      _ ← mb_insts blk !! os_inst site;
      let blk' := {| mb_id := mb_id blk; mb_label := mb_label blk;
                     mb_insts := <[os_inst site := branch_inst BLong [OpBlock (os_target site)]]> (mb_insts blk) |} in
      Some (with_blocks mf (<[pos := blk']> (mf_blocks mf)))
  | kind => expand_conditional_to_trampoline mf (os_block site) (os_inst site) (os_target site) kind
  end.

(** * The layout *)

(** [text.matches('\n').count()] *)
Fixpoint newlines (s : string) : nat :=
  match s with EmptyString => 0 | String c s => (if Ascii.eqb c newline then 1 else 0) + newlines s end.

Definition inst_emit_bytes (i : MachineInst) (mf : MachineFunction) : option Z :=
  text ← emit_inst_into i mf; Some (4 * (Z.of_nat (newlines text) + 1))%Z.

(** The sites of a block with the one of an instruction, if it is a local branch. *)
Definition add_site (limits : BranchLimits) (id : MBlockId) (ss : list BranchSite) (local : Z) (p : nat * MachineInst) : list BranchSite :=
  match relaxable_branch p.2 limits with
  | Some (target, limit, kind) =>
      ss ++ [{| bs_overflow := {| os_block := id; os_inst := p.1; os_target := target; os_kind := kind |};
                bs_local_offset := local; bs_limit := limit |}]
  | None => ss
  end.

(** One instruction of [scan_branch_layout]: its site, and the running offset. *)
Definition scan_inst (mf : MachineFunction) (limits : BranchLimits) (id : MBlockId)
    (st : list BranchSite * Z) (p : nat * MachineInst) : option (list BranchSite * Z) :=
  let '(ss, local) := st in
  bytes ← inst_emit_bytes p.2 mf;
  Some (add_site limits id ss local p, (local + bytes)%Z).

Definition scan_block (mf : MachineFunction) (limits : BranchLimits) (st : BranchLayout * Z) (b : MachineBlock)
    : option (BranchLayout * Z) :=
  let '(lay, running) := st in
  '(ss, local) ← foldM (scan_inst mf limits (mb_id b)) (zip (seq 0 (length (mb_insts b))) (mb_insts b)) (sites lay, 0%Z);
  Some ({| block_offsets := <[mb_id b := running]> (block_offsets lay); sites := ss |}, (running + local)%Z).

Definition scan_branch_layout (mf : MachineFunction) (limits : BranchLimits) : option BranchLayout :=
  fst <$> foldM (scan_block mf limits) (mf_blocks mf) ({| block_offsets := ∅; sites := [] |}, 0%Z).

(** The closure of [into_overflows]; [None] is the panic of indexing the offsets. *)
Definition overflow_step (lay : BranchLayout) (acc : list OverflowSite) (site : BranchSite) : option (list OverflowSite) :=
source ← block_offsets lay !! os_block (bs_overflow site);
match block_offsets lay !! os_target (bs_overflow site) with
| None => Some acc
| Some target =>
    let delta := (target - (source + bs_local_offset site))%Z in
    Some (if (bs_limit site <? Z.abs delta)%Z then acc ++ [bs_overflow site] else acc)
end.

Definition into_overflows (lay : BranchLayout) : option (list OverflowSite) :=
foldM (overflow_step lay) (sites lay) [].

(** Later blocks first, later instructions first. *)
Definition later (a b : (nat * nat) * OverflowSite) : Prop :=
(b.1.1 < a.1.1)%nat \/ (a.1.1 = b.1.1 /\ b.1.2 <= a.1.2)%nat.

#[global] Instance later_dec a b : Decision (later a b).
Proof. unfold later. apply _. Defined.

Definition sort_sites (mf : MachineFunction) (l : list OverflowSite) : option (list OverflowSite) :=
keyed ← mapM (fun s => p ← block_position mf (os_block s); Some ((p, os_inst s), s)) l;
Some (snd <$> merge_sort later keyed).

Definition relax_once_with_limits (mf : MachineFunction) (limits : BranchLimits) : option (MachineFunction * bool) :=
overflows ← scan_branch_layout mf limits ≫= into_overflows;
match overflows with
| [] => Some (mf, false)
| _ =>
    sorted ← sort_sites mf overflows;
    mf' ← foldM expand_overflow sorted mf;
    Some (mf', true)
end.

Definition all_insts (mf : MachineFunction) : list MachineInst := mf_blocks mf ≫= mb_insts.

Definition is_relaxable (kb : bool) (limits : BranchLimits) (i : MachineInst) : bool :=
match relaxable_branch i limits with Some (_, _, k) => Bool.eqb (is_KB k) kb | None => false end.

Definition unconditional_count (limits : BranchLimits) (l : list MachineInst) : nat :=
length (filter (fun i => is_relaxable true limits i = true) l).
Definition conditional_count (limits : BranchLimits) (l : list MachineInst) : nat :=
length (filter (fun i => is_relaxable false limits i = true) l).

(** [for _ in 0..=max { if !relax_once { return } } panic!(..)] *)
Fixpoint relax_loop (passes : nat) (mf : MachineFunction) (limits : BranchLimits) : option MachineFunction :=
match passes with
| O => None
| S passes =>
    '(mf', changed) ← relax_once_with_limits mf limits;
    if (changed : bool) then relax_loop passes mf' limits else Some mf'
end.

(** [None]: a pass panics, or the structural bound is exceeded. *)
Definition relax_branches_with_limits (mf : MachineFunction) (limits : BranchLimits) : option MachineFunction :=
relax_loop (S (conditional_count limits (all_insts mf) * 2 + unconditional_count limits (all_insts mf))) mf limits.

Definition relax_branches (mf : MachineFunction) : option MachineFunction :=
relax_branches_with_limits mf PRODUCTION_BRANCH_LIMITS.
(** A conditional branch over 10 bytes when only 8 are in reach. *)
Definition far_fn : MachineFunction :=
  with_next_block
    (with_blocks (new_machine_function "f")
      [{| mb_id := 0; mb_label := "_f"; mb_insts := [branch_inst BCond [OpCond CEq; OpBlock 1]; branch_inst Nop []; branch_inst Nop []; branch_inst Nop []; branch_inst Nop []; branch_inst Nop []] |};
       {| mb_id := 1; mb_label := "Lf_1"; mb_insts := [branch_inst Ret []] |}]) 2.

Example far_fn_relaxed :
  (fun mf => (fun b => (mb_id b, mb_label b, opcode <$> mb_insts b)) <$> mf_blocks mf) <$>
    relax_branches_with_limits far_fn {| lim_cond := 16; lim_tbz := 16; lim_unconditional := 16 |} =
  Some [(0%N, "_f", [BCond; BLong]); (2%N, "_f_relax2", [Nop; Nop; Nop; Nop; Nop]); (1%N, "Lf_1", [Ret])].
Proof. vm_compute. reflexivity. Qed.
