(* ===== verification/RelaxFlat.v ===== *)
(** Branch relaxation on flat code.

    A laid-out function is a list of labels and instructions.  Each rewrite of the
    pass replaces one instruction of that list in place; [widen] is that
    replacement, and [potential] counts the rewrites that can still happen. *)

From stdpp Require Import sorting pretty.
From S2P Require Import Prelude Slices ArmMir RelaxBranches.

Inductive item := Label (b : MBlockId) | Code (i : MachineInst).

Definition flat_block (b : MachineBlock) : list item := Label (mb_id b) :: (Code <$> mb_insts b).
Definition flat (bs : list MachineBlock) : list item := bs ≫= flat_block.

Definition labels (l : list item) : list MBlockId :=
  omap (fun it => match it with Label b => Some b | Code _ => None end) l.

Definition is_jump (i : MachineInst) : bool := match opcode i with B | BLong => true | _ => false end.

(** The target of a conditional branch is the label behind the next jump. *)
Definition settled (t : MBlockId) (rest : list item) : bool :=
  match rest with
  | Code j :: Label s :: _ => is_jump j && bool_decide (s = t)
  | _ => false
  end.

(** Rewrites an item can still cause. *)
Definition cost (limits : BranchLimits) (it : item) (rest : list item) : nat :=
  match it with
  | Label _ => 0
  | Code i =>
      match relaxable_branch i limits with
      | Some (_, _, KB) => 1
      | Some (t, _, _) => if settled t rest then 0 else 2
      | None => 0
      end
  end.

Fixpoint potential (limits : BranchLimits) (l : list item) : nat :=
  match l with
  | [] => 0
  | it :: rest => cost limits it rest + potential limits rest
  end.

(** What replaces a branch: a veneer, or an inverted branch around a jump. *)
Definition expansion (k : RelaxKind) (t skip : MBlockId) : option (list item) :=
  match k with
  | KB => Some [Code (branch_inst BLong [OpBlock t])]
  | _ => inv ← inverted_branch k skip; Some [Code inv; Code (branch_inst B [OpBlock t]); Label skip]
  end.

Inductive widen (limits : BranchLimits) : list item -> list item -> Prop :=
| widen_at pre i post t lim k skip E :
    relaxable_branch i limits = Some (t, lim, k) -> expansion k t skip = Some E ->
    (is_KB k = false -> settled t post = false /\ skip ∉ labels (pre ++ Code i :: post)) ->
    widen limits (pre ++ Code i :: post) (pre ++ E ++ post).

(** Split a chain of binds that succeeded. *)
Ltac inv_binds H :=
  repeat match type of H with (_ ≫= _) = Some _ => apply bind_Some in H as (? & ? & H) end; simplify_eq.

Section potential.
Context (limits : BranchLimits).

Lemma labels_app l1 l2 : labels (l1 ++ l2) = labels l1 ++ labels l2.
Proof. apply omap_app. Qed.

Lemma labels_flat bs : labels (flat bs) = mb_id <$> bs.
Proof.
induction bs as [|b bs IH]; [done|]. change (flat (b :: bs)) with (flat_block b ++ flat bs).
rewrite labels_app, IH, fmap_cons. simpl. f_equal.
assert (forall l, labels (Code <$> l) = []) as H; [|by rewrite H]. intros l. by induction l.
Qed.

(** Only a branch can be replaced. *)
Lemma relaxable_is_jump i t lim k : relaxable_branch i limits = Some (t, lim, k) -> is_jump i = is_KB k.
Proof.
unfold relaxable_branch, is_jump. destruct (opcode i); try done; intros H; by inv_binds H.
Qed.

Lemma expansion_head k t skip E : expansion k t skip = Some E -> exists j E', E = Code j :: E' /\
(is_KB k = true -> E' = [] /\ is_jump j = true).
Proof.
destruct k; simpl; intros H; simplify_eq; eexists _, _; done.
Qed.

(** Inverted branches are relaxable, with the skip label as their target. *)
Lemma inverted_relaxable i t lim k skip inv :
relaxable_branch i limits = Some (t, lim, k) -> inverted_branch k skip = Some inv ->
exists lim' k', relaxable_branch inv limits = Some (skip, lim', k') /\ is_KB k' = false.
Proof.
unfold relaxable_branch at 1. destruct (opcode i) eqn:Eo; try done; intros H; inv_binds H; simpl; intros Hi; simplify_eq; eexists _, _; done.
Qed.

Lemma expansion_jump i t lim k skip E :
relaxable_branch i limits = Some (t, lim, k) -> expansion k t skip = Some E -> is_KB k = false ->
exists inv, inverted_branch k skip = Some inv /\ is_jump inv = false /\
E = [Code inv; Code (branch_inst B [OpBlock t]); Label skip].
Proof.
intros Hr HE Hk. assert (exists inv, inverted_branch k skip = Some inv /\ E = [Code inv; Code (branch_inst B [OpBlock t]); Label skip])
as (inv & Hinv & ->) by (destruct k; simpl in *; simplify_eq; eauto).
exists inv. split; [done|]. split; [|done]. destruct (inverted_relaxable _ _ _ _ _ _ Hr Hinv) as (l' & k' & Hr' & Hk').
by rewrite (relaxable_is_jump _ _ _ _ Hr').
Qed.

(** Replacing a branch does not change whether what stands before it is settled. *)
Lemma settled_widen pre i post t lim k skip E u :
relaxable_branch i limits = Some (t, lim, k) -> expansion k t skip = Some E ->
settled u (pre ++ E ++ post) = settled u (pre ++ Code i :: post).
Proof.
intros Hr HE. pose proof (relaxable_is_jump _ _ _ _ Hr) as Hj.
destruct pre as [|x [|y pre]]; simpl.
- destruct (is_KB k) eqn:Hk.
+ destruct k; try done. simpl in HE. simplify_eq. simpl. rewrite Hj. destruct post as [|[s|j] post]; done.
+ destruct (expansion_jump _ _ _ _ _ _ Hr HE Hk) as (inv & _ & _ & ->). simpl. rewrite Hj.
destruct post as [|[s|j] post]; done.
- destruct (expansion_head _ _ _ _ HE) as (j & E' & -> & _). destruct x; done.
- done.
Qed.

Lemma potential_app pre s s' d :
(potential limits s' + d <= potential limits s)%nat ->
(forall u pre', settled u (pre' ++ s') = settled u (pre' ++ s)) ->
(potential limits (pre ++ s') + d <= potential limits (pre ++ s))%nat.
Proof.
intros Hd Hs. induction pre as [|x pre IH]; [done|]. simpl. unfold cost.
destruct x as [b|i]; [lia|]. destruct (relaxable_branch i limits) as [[[t lim] k]|]; [|lia].
rewrite (Hs t pre). destruct k; lia.
Qed.

(** Each replacement lowers the potential. *)
Lemma widen_potential l l' : widen limits l l' -> (potential limits l' + 1 <= potential limits l)%nat.
Proof.
intros [pre i post t lim k skip E Hr HE Hc]. apply potential_app; [|intros u pre'; by eapply settled_widen].
cbn [potential]. unfold cost at 1. rewrite Hr. destruct (is_KB k) eqn:Hk.
- destruct k; try done. simpl in HE. simplify_eq. simpl. lia.
- destruct (Hc eq_refl) as [Hset _]. rewrite Hset.
destruct (expansion_jump _ _ _ _ _ _ Hr HE Hk) as (inv & Hinv & Hj & ->).
destruct (inverted_relaxable _ _ _ _ _ _ Hr Hinv) as (lim' & k' & Hr' & Hk').
cbn [potential app]. unfold cost. rewrite Hr'. cbn [settled]. rewrite bool_decide_true by done. simpl.
destruct k', k; done || (simpl; lia).
Qed.

(** The bound of the pass counts every rewrite. *)
Lemma potential_count bs :
(potential limits (flat bs) <= conditional_count limits (bs ≫= mb_insts) * 2 + unconditional_count limits (bs ≫= mb_insts))%nat.
Proof.
assert (Hcode : forall l rest, (potential limits ((Code <$> l) ++ rest) <=
conditional_count limits l * 2 + unconditional_count limits l + potential limits rest)%nat).
{ intros l rest. induction l as [|i l IH]; [simpl; unfold conditional_count, unconditional_count; simpl; lia|].
rewrite fmap_cons. cbn [app potential]. unfold cost, conditional_count, unconditional_count, is_relaxable in *. rewrite !filter_cons.
destruct (relaxable_branch i limits) as [[[t lim] k]|]; [|repeat case_decide; cbn [length]; done || lia].
destruct k; cbn [is_KB]; try destruct (settled _ _); repeat case_decide; cbn [length]; done || lia. }
induction bs as [|b bs IH]; [unfold conditional_count, unconditional_count; simpl; lia|].
unfold flat. rewrite !bind_cons. simpl. specialize (Hcode (mb_insts b) (bs ≫= flat_block)).
unfold flat, conditional_count, unconditional_count in *. rewrite !list.filter_app, !length_app. lia.
Qed.
End potential.
