(* ===== verification/RelaxPrint.v ===== *)
(** What branch relaxation relies on from the printer: instructions print without a
    panic and keep doing so while blocks and labels are added, short branches print
    to one line and veneers to three. *)

From Stdlib Require Import Ascii.
From stdpp Require Import sorting pretty.
From S2P Require Import Prelude Slices ArmMir ArmText ArmEmit ArmEmitEq RelaxBranches RelaxFlat.
Local Open Scope string_scope.
Local Open Scope list_scope.

Definition local_branch (i : MachineInst) : bool :=
  match opcode i with B | BLong | BCond | Cbz | Cbnz | Tbz | Tbnz => true | _ => false end.

(** Text on one line. *)
Notation plain s := (newlines s = 0%nat).

Lemma newlines_app a b : newlines (a +:+ b) = (newlines a + newlines b)%nat.
Proof.
  induction a as [|c a IH]; [done|].
  change (newlines (String c (a +:+ b)) = ((if Ascii.eqb c newline then 1 else 0) + newlines a + newlines b)%nat).
  cbn [newlines]. rewrite IH. lia.
Qed.

Lemma digits_plain s : all_digits s = true -> plain s.
Proof.
  induction s as [|c s IH]; [done|]. simpl. intros [Hc Hs]%andb_true_iff. rewrite IH by done.
  destruct (Ascii.eqb_spec c newline) as [->|]; [by vm_compute in Hc | done].
Qed.

Lemma pretty_plain (n : N) : plain (pretty n).
Proof. apply digits_plain, pretty_digits. Qed.

Lemma pretty_Z_plain (z : Z) : plain (pretty z).
Proof.
  destruct z; [done | apply (pretty_plain (N.pos p)) |].
  change (plain ("-" +:+ pretty (N.pos p))). rewrite newlines_app. by rewrite pretty_plain.
Qed.

Lemma cond_plain c : plain (cond_str c).
Proof. by destruct c. Qed.

(** * Printable functions *)

Record printable (mf : MachineFunction) : Prop := {
  pt_emit : forall i, Code i ∈ flat (mf_blocks mf) -> is_Some (emit_inst_into i mf);
  pt_labels : forall b, b ∈ mf_blocks mf -> plain (mb_label b);
  pt_long : forall id l, long_branch_labels mf !! id = Some l -> plain l;
  pt_name : plain (mf_name mf);
  pt_ops : forall i op, Code i ∈ flat (mf_blocks mf) -> local_branch i = true -> op ∈ operands i -> plain (op_str op) }.

Lemma block_elem mf id b : block mf id = Some b -> b ∈ mf_blocks mf.
Proof. unfold block. intros (k & _ & Hk)%bind_Some. by eapply list_elem_of_lookup_2. Qed.

Lemma block_is_Some mf id : is_Some (block mf id) <-> id ∈ (mb_id <$> mf_blocks mf).
Proof.
  unfold block, block_index. case_decide as Hd; cbn [mbind option_bind].
  - destruct (mf_blocks mf !! N.to_nat id) as [b|] eqn:E; [|done]. simpl in Hd. simplify_eq. split; [|done].
    intros _. by eapply list_elem_of_fmap_2, list_elem_of_lookup_2.
  - destruct (list_find (fun b => mb_id b = id) (mf_blocks mf)) as [[k b]|] eqn:E; simpl.
    + apply list_find_Some in E as (Hk & <- & _). rewrite Hk. split; [|done]. intros _. by eapply list_elem_of_fmap_2, list_elem_of_lookup_2.
    + split; [by intros [? ?]|]. intros (b & -> & Hb)%list_elem_of_fmap. apply list_find_None in E.
      rewrite list.Forall_forall in E. by destruct (E b Hb).
Qed.

Lemma target_plain mf op t : printable mf -> target_label mf op = Some t -> plain t.
Proof.
  intros Hp. destruct op; simpl; try (by intros [= <-]). intros (bl & Hb & ->)%fmap_Some. apply (pt_labels _ Hp). by eapply block_elem.
Qed.

(** ** Sizes *)

Lemma short_branch_plain i mf text :
  printable mf -> Code i ∈ flat (mf_blocks mf) -> local_branch i = true -> opcode i <> BLong ->
  emit_inst_into i mf = Some text -> plain text.
Proof.
  intros Hp Hi Hl Hnl. pose proof (pt_ops _ Hp i) as Hops. pose proof (fun op t => target_plain mf op t Hp) as Ht.
  assert (Hop : forall k t, op_at i k = Some t -> plain t).
  { intros k t (op & Hk & ->)%fmap_Some. apply Hops; [done | done |]. by eapply list_elem_of_lookup_2. }
  assert (Hext : forall name, opnd i 0 = Some (OpExtern name) -> plain name).
  { intros name Hn. apply (Hops (OpExtern name)); [done | done |]. by eapply list_elem_of_lookup_2. }
  unfold local_branch in Hl. unfold emit_inst_into, emit_common_inst_into. destruct (opcode i) eqn:Eo; try done.
  - destruct (opnd i 0) as [t|] eqn:E0; [|done]. cbn [mbind option_bind].
    destruct t; try (by intros [= <-]); [destruct (block mf b) as [bl|] eqn:Eb; [|done] | specialize (Hext _ eq_refl); destruct (starts_with "_" s)];
      intros [= <-]; rewrite ?newlines_app; [|by rewrite Hext..].
    rewrite (pt_labels _ Hp bl) by (by eapply block_elem). done.
  - destruct (opnd i 0) as [c|]; [|done]. cbn [mbind option_bind]. destruct (opnd i 1 ≫= target_label mf) as [t|] eqn:E1; [|done].
    apply bind_Some in E1 as (op & _ & E1). intros [= <-]. rewrite !newlines_app, (Ht _ _ E1). unfold cond_or_eq. destruct c; try done. by rewrite cond_plain.
  - destruct (op_at i 0) as [r|] eqn:Er; [|done]. destruct (opnd i 1 ≫= target_label mf) as [t|] eqn:E1; [|done].
    apply bind_Some in E1 as (op & _ & E1). intros [= <-]. by rewrite !newlines_app, (Ht _ _ E1), (Hop _ _ Er).
  - destruct (op_at i 0) as [r|] eqn:Er; [|done]. destruct (opnd i 1 ≫= target_label mf) as [t|] eqn:E1; [|done].
    apply bind_Some in E1 as (op & _ & E1). intros [= <-]. by rewrite !newlines_app, (Ht _ _ E1), (Hop _ _ Er).
  - destruct (opnd i 1) as [bit|]; [|done]. cbn [mbind option_bind]. destruct (opnd i 2 ≫= target_label mf) as [t|] eqn:E1; [|done].
    destruct (op_at i 0) as [r|] eqn:Er; [|done]. apply bind_Some in E1 as (op & _ & E1). intros [= <-].
    by rewrite !newlines_app, (Ht _ _ E1), (Hop _ _ Er), pretty_Z_plain.
  - destruct (opnd i 1) as [bit|]; [|done]. cbn [mbind option_bind]. destruct (opnd i 2 ≫= target_label mf) as [t|] eqn:E1; [|done].
    destruct (op_at i 0) as [r|] eqn:Er; [|done]. apply bind_Some in E1 as (op & _ & E1). intros [= <-].
    by rewrite !newlines_app, (Ht _ _ E1), (Hop _ _ Er), pretty_Z_plain.
Qed.

Lemma size_short i mf :
  printable mf -> Code i ∈ flat (mf_blocks mf) -> local_branch i = true -> opcode i <> BLong -> inst_emit_bytes i mf = Some 4%Z.
Proof.
  intros Hp Hi Hl Hn. destruct (pt_emit _ Hp i Hi) as [text E]. unfold inst_emit_bytes. rewrite E. cbn [mbind option_bind].
  by rewrite (short_branch_plain i mf text).
Qed.

Lemma size_long i mf : printable mf -> Code i ∈ flat (mf_blocks mf) -> opcode i = BLong -> inst_emit_bytes i mf = Some 12%Z.
Proof.
  intros Hp Hi Eo. destruct (pt_emit _ Hp i Hi) as [text E]. unfold inst_emit_bytes. rewrite E. cbn [mbind option_bind].
  revert E. unfold emit_inst_into, emit_common_inst_into, emit_inst. rewrite Eo. cbn [mbind option_bind]. unfold emit_blong.
  destruct (operands i) as [|[] [|? ?]]; try done. destruct (long_branch_labels mf !! b) as [l|] eqn:El; [|done]. intros [= <-].
  do 2 f_equal. rewrite !newlines_app. by rewrite (pt_long _ Hp _ _ El).
Qed.

(** ** Adding blocks and labels *)

(** What a rewrite may change about a function, as far as printing is concerned. *)
Record extends (mf mf' : MachineFunction) : Prop := {
  ex_name : mf_name mf' = mf_name mf;
  ex_frame : mf_frame mf' = mf_frame mf;
  ex_blocks : forall id, id ∈ (mb_id <$> mf_blocks mf) -> id ∈ (mb_id <$> mf_blocks mf');
  ex_long : forall id, is_Some (long_branch_labels mf !! id) -> is_Some (long_branch_labels mf' !! id) }.

Lemma target_extends mf mf' op : extends mf mf' -> is_Some (target_label mf op) -> is_Some (target_label mf' op).
Proof.
  intros He. destruct op; try done. simpl. rewrite !fmap_is_Some, !block_is_Some. apply (ex_blocks _ _ He).
Qed.

(** Emitting looks at the name, the frame and the blocks and labels an instruction names. *)
Lemma emit_extends i mf mf' : extends mf mf' -> is_Some (emit_inst_into i mf) -> is_Some (emit_inst_into i mf').
Proof.
  intros He. pose proof (target_extends mf mf') as Ht. destruct He as [En Ef Hb Hl].
  assert (Hop : forall o, is_Some (opnd i o ≫= target_label mf) -> is_Some (opnd i o ≫= target_label mf')).
  { intros o. destruct (opnd i o) as [op|]; [|done]. cbn [mbind option_bind]. by apply Ht. }
  assert (Hbl : forall id, is_Some (mb_label <$> block mf id) -> is_Some (mb_label <$> block mf' id)).
  { intros id. rewrite !fmap_is_Some, !block_is_Some. apply Hb. }
  unfold emit_inst_into, emit_common_inst_into, emit_inst, emit_add_imm, emit_sub_imm, saved_pair_offset, emit_stp_pre, emit_ldp_post,
    emit_adrp_ldr, emit_adrp_add. rewrite En, Ef. destruct (opcode i); try done.
  - destruct (opnd i 0) as [t|]; [|done]. destruct t; try done; cbn [mbind option_bind]; [|by destruct (starts_with "_" s)].
    intros H. specialize (Hbl b). destruct (mb_label <$> block mf b); [|by destruct H]. destruct (Hbl ltac:(by eexists)) as [l ->]. by eexists.
  - cbn [mbind option_bind]. unfold emit_blong. destruct (operands i) as [|[] [|? ?]]; try done. specialize (Hl b).
    destruct (long_branch_labels mf !! b); [|by intros [? ?]]. intros _. destruct (Hl ltac:(by eexists)) as [l ->]. by eexists.
  - specialize (Hop 1%nat). destruct (opnd i 0) as [c|]; [|done]. cbn [mbind option_bind].
    destruct (opnd i 1 ≫= target_label mf); [|by intros [? ?]]. intros _. destruct (Hop ltac:(by eexists)) as [l ->]. by eexists.
  - specialize (Hop 1%nat). destruct (op_at i 0) as [c|]; [|done]. unfold line2. cbn [mbind option_bind].
    destruct (opnd i 1 ≫= target_label mf); [|by intros [? ?]]. intros _. destruct (Hop ltac:(by eexists)) as [l ->]. by eexists.
  - specialize (Hop 1%nat). destruct (op_at i 0) as [c|]; [|done]. unfold line2. cbn [mbind option_bind].
    destruct (opnd i 1 ≫= target_label mf); [|by intros [? ?]]. intros _. destruct (Hop ltac:(by eexists)) as [l ->]. by eexists.
  - specialize (Hop 2%nat). destruct (opnd i 1) as [bit|]; [|done]. cbn [mbind option_bind].
    destruct (opnd i 2 ≫= target_label mf); [|by intros [? ?]]. destruct (Hop ltac:(by eexists)) as [l ->]. by destruct (op_at i 0).
  - specialize (Hop 2%nat). destruct (opnd i 1) as [bit|]; [|done]. cbn [mbind option_bind].
    destruct (opnd i 2 ≫= target_label mf); [|by intros [? ?]]. destruct (Hop ltac:(by eexists)) as [l ->]. by destruct (op_at i 0).
Qed.

Lemma printable_extends mf mf' :
  printable mf -> extends mf mf' ->
  (forall b, b ∈ mf_blocks mf' -> plain (mb_label b)) -> (forall id l, long_branch_labels mf' !! id = Some l -> plain l) ->
  (forall i, Code i ∈ flat (mf_blocks mf') -> Code i ∈ flat (mf_blocks mf) \/
     is_Some (emit_inst_into i mf') /\ forall op, op ∈ operands i -> plain (op_str op)) ->
  printable mf'.
Proof.
  intros Hp He Hlab Hlong Hnew. split; [|done|done| |].
  - intros i [Hi|[Hi _]]%Hnew; [|done]. eapply emit_extends; [done|]. by apply (pt_emit _ Hp).
  - rewrite (ex_name _ _ He). apply Hp.
  - intros i op [Hi|[_ Hi]]%Hnew Hl Hop; [by eapply (pt_ops _ Hp) | by apply Hi].
Qed.

(** The branches the pass inserts print. *)
Lemma emit_new_b mf t : t ∈ (mb_id <$> mf_blocks mf) -> is_Some (emit_inst_into (branch_inst B [OpBlock t]) mf).
Proof. intros Ht. apply block_is_Some in Ht as [b Hb]. unfold emit_inst_into. cbn. rewrite Hb. by eexists. Qed.

Lemma emit_new_blong mf t : is_Some (long_branch_labels mf !! t) -> is_Some (emit_inst_into (branch_inst BLong [OpBlock t]) mf).
Proof. intros [l Hl]. unfold emit_inst_into. cbn. rewrite Hl. by eexists. Qed.

Lemma emit_inverted limits mf i t lim k skip inv :
  relaxable_branch i limits = Some (t, lim, k) -> inverted_branch k skip = Some inv -> skip ∈ (mb_id <$> mf_blocks mf) ->
  is_Some (emit_inst_into inv mf).
Proof.
  intros Hr Hinv Hs. apply block_is_Some in Hs as [b Hb]. revert Hr. unfold relaxable_branch.
  destruct (opcode i); try done; intros Hr; inv_binds Hr; simpl in Hinv; simplify_eq; unfold emit_inst_into; cbn; rewrite Hb; by eexists.
Qed.

Lemma inverted_ops_plain limits i t lim k skip inv :
  relaxable_branch i limits = Some (t, lim, k) -> inverted_branch k skip = Some inv ->
  (forall op, op ∈ operands i -> plain (op_str op)) -> forall op, op ∈ operands inv -> plain (op_str op).
Proof.
  intros Hr Hinv Hi op Hop.
  assert (Hb : forall id, plain (op_str (OpBlock id))).
  { intros id. change (plain ("bb" +:+ pretty id)). rewrite newlines_app. apply pretty_plain. }
  assert (Hreg : forall r kk, operands i !! kk = Some r -> plain (op_str r)) by (intros r kk Hk; apply Hi; by eapply list_elem_of_lookup_2).
  revert Hr. unfold relaxable_branch. destruct (opcode i); try done; intros Hr; inv_binds Hr; simpl in Hinv; simplify_eq; simpl in Hop;
    repeat (apply elem_of_cons in Hop as [->|Hop]; [first [by apply Hb | by eapply Hreg | apply cond_plain | (change (plain ("#" +:+ pretty x)); rewrite newlines_app; apply pretty_Z_plain)]|]);
    by apply not_elem_of_nil in Hop.
Qed.

Lemma block_ref_plain id : plain (op_str (OpBlock id)).
Proof. change (plain ("bb" +:+ pretty id)). rewrite newlines_app. apply pretty_plain. Qed.

Lemma relaxable_local limits i t lim k : relaxable_branch i limits = Some (t, lim, k) -> local_branch i = true.
Proof. unfold relaxable_branch, local_branch. by destruct (opcode i). Qed.

(** Anchors of far targets. *)
Lemma ensure_label_spec mf t : printable mf -> t ∈ (mb_id <$> mf_blocks mf) ->
  exists mf1, ensure_long_branch_label mf t = Some mf1 /\ mf_blocks mf1 = mf_blocks mf /\ mf_next_block mf1 = mf_next_block mf /\
    extends mf mf1 /\ is_Some (long_branch_labels mf1 !! t) /\ forall id l, long_branch_labels mf1 !! id = Some l -> plain l.
Proof.
  intros Hp Ht. unfold ensure_long_branch_label. destruct (long_branch_labels mf !! t) as [l|] eqn:El.
  { exists mf. split_and!; [done | done | done | by split | by rewrite El | apply (pt_long _ Hp)]. }
  apply block_is_Some in Ht as [b ->]. cbn [mbind option_bind]. eexists. split; [done|]. split; [done|]. split; [done|].
  cbn [long_branch_labels with_long_labels]. split_and!.
  - split; try done. intros id Hid. cbn [long_branch_labels with_long_labels]. destruct (decide (id = t)) as [->|]; [by rewrite lookup_insert_eq|].
    by rewrite lookup_insert_ne.
  - by rewrite lookup_insert_eq.
  - intros id l. destruct (decide (id = t)) as [->|]; [|rewrite lookup_insert_ne by done; apply (pt_long _ Hp)].
    rewrite lookup_insert_eq. intros [= <-]. rewrite !newlines_app, (pt_name _ Hp). apply pretty_plain.
Qed.

Lemma printable_function mf : printable mf -> is_Some (emit_function mf).
Proof.
  intros Hp. unfold emit_function, emit_function_lines. rewrite fmap_is_Some.
  assert (is_Some (mapM (emit_block_lines mf) (mf_blocks mf))) as [bs ->]; [|by eexists].
  apply mapM_is_Some_2, list.Forall_forall. intros b Hb. cbn beta. unfold compose, emit_block_lines.
  match goal with |- context [mapM ?f (mb_insts b)] => assert (is_Some (mapM f (mb_insts b))) as [ls ->]; [|by eexists] end.
  apply mapM_is_Some_2, list.Forall_forall. intros i Hi.
  assert (Hin : Code i ∈ flat (mf_blocks mf)).
  { apply list_elem_of_bind. exists b. split; [|done]. right. by apply list_elem_of_fmap_2. }
  unfold compose. destruct (pt_emit _ Hp i Hin) as [t ->]. by eexists.
Qed.
