(* ===== verification/RelaxTotal.v ===== *)
(** Branch relaxation converges: no pass panics, the structural bound is never
    exceeded, and what is returned has every local branch in reach. *)

From stdpp Require Import sorting pretty.
From S2P Require Import Prelude Slices ArmMir ArmText ArmEmit RelaxBranches RelaxFlat RelaxPrint.
Local Open Scope string_scope.
Local Open Scope list_scope.

(** * Positions in the layout *)

Definition before (bs : list MachineBlock) (p : nat) (blk : MachineBlock) (idx : nat) : list item :=
  flat (take p bs) ++ Label (mb_id blk) :: (Code <$> take idx (mb_insts blk)).
Definition behind (bs : list MachineBlock) (p : nat) (blk : MachineBlock) (idx : nat) : list item :=
  (Code <$> drop (S idx) (mb_insts blk)) ++ flat (drop (S p) bs).

Lemma flat_app bs1 bs2 : flat (bs1 ++ bs2) = flat bs1 ++ flat bs2.
Proof. apply bind_app. Qed.

Lemma flat_split bs p blk idx i :
  bs !! p = Some blk -> mb_insts blk !! idx = Some i ->
  flat bs = before bs p blk idx ++ Code i :: behind bs p blk idx.
Proof.
  intros Hp Hi. rewrite <- (take_drop_middle bs p blk Hp) at 1. rewrite flat_app. unfold before, behind.
  rewrite <- !app_assoc. f_equal. change (flat (blk :: drop (S p) bs)) with (flat_block blk ++ flat (drop (S p) bs)).
  unfold flat_block. cbn [app]. f_equal. rewrite <- (take_drop_middle (mb_insts blk) idx i Hi) at 1.
  by rewrite fmap_app, fmap_cons, <- app_assoc.
Qed.

Lemma flat_label bs p blk :
  bs !! p = Some blk ->
  flat bs = flat (take p bs) ++ Label (mb_id blk) :: (Code <$> mb_insts blk) ++ flat (drop (S p) bs).
Proof. intros Hp. rewrite <- (take_drop_middle bs p blk Hp) at 1. by rewrite flat_app. Qed.

(** Every place of an instruction in the layout is such a position. *)
Lemma flat_position bs pre i post :
  flat bs = pre ++ Code i :: post ->
  exists p blk idx, bs !! p = Some blk /\ mb_insts blk !! idx = Some i /\
    pre = before bs p blk idx /\ post = behind bs p blk idx.
Proof.
  revert pre. induction bs as [|b bs IH]; intros pre E.
  { by destruct pre. }
  change (flat (b :: bs)) with (flat_block b ++ flat bs) in E. unfold flat_block in E.
  destruct pre as [|x pre]; simpl in E; [done|]. injection E as <- E.
  apply app_eq_inv in E as [(k & E1 & E2)|(k & E1 & E2)].
  - destruct k as [|y k]; simpl in E2; [by destruct bs|].
    injection E2 as <- ->. apply fmap_app_inv in E1 as (l1 & l2 & -> & Hl2 & El).
    destruct l2 as [|j l2]; [done|]. injection Hl2 as -> ->.
    exists 0%nat, b, (length l1). split; [done|]. unfold before, behind. rewrite El.
    split; [by apply list_lookup_middle|]. rewrite take_app_length, drop_app_ge by lia.
    replace (S (length l1) - length l1)%nat with 1%nat by lia. done.
  - destruct (IH k E2) as (p & blk & idx & Hp & Hi & -> & ->). subst pre.
    exists (S p), blk, idx. split; [done|]. split; [done|]. split; [|done].
    unfold before. cbn [take]. change (flat (b :: take p bs)) with (flat_block b ++ flat (take p bs)).
    unfold flat_block. by rewrite <- !app_assoc.
Qed.

(** * The layout scan *)

Section scan.
Context (inst_bytes : MachineInst -> MachineFunction -> Z) (mf : MachineFunction) (limits : BranchLimits).

(** The scan when every instruction prints. *)
Definition pure_inst (id : MBlockId) (st : list BranchSite * Z) (p : nat * MachineInst) : list BranchSite * Z :=
let '(ss, local) := st in (add_site limits id ss local p, (local + inst_bytes p.2 mf)%Z).

Definition pure_block (st : BranchLayout * Z) (b : MachineBlock) : BranchLayout * Z :=
let '(lay, running) := st in
let '(ss, local) := foldl (pure_inst (mb_id b)) (sites lay, 0%Z) (zip (seq 0 (length (mb_insts b))) (mb_insts b)) in
({| block_offsets := <[mb_id b := running]> (block_offsets lay); sites := ss |}, (running + local)%Z).

Definition pure_layout : BranchLayout := (foldl pure_block ({| block_offsets := ∅; sites := [] |}, 0%Z) (mf_blocks mf)).1.


Definition item_bytes (it : item) : Z := match it with Label _ => 0 | Code i => inst_bytes i mf end.

Fixpoint code_bytes (l : list item) : Z :=
match l with [] => 0 | it :: l => item_bytes it + code_bytes l end.

Lemma code_bytes_app l1 l2 : code_bytes (l1 ++ l2) = (code_bytes l1 + code_bytes l2)%Z.
Proof. induction l1 as [|x l1 IH]; simpl; [done|]. rewrite IH. lia. Qed.

(** The sites of a block from its [k]-th instruction on. *)
Fixpoint inst_sites (id : MBlockId) (k : nat) (loc : Z) (l : list MachineInst) : list BranchSite :=
match l with
| [] => []
| i :: l =>
match relaxable_branch i limits with
| Some (target, limit, kind) =>
[{| bs_overflow := {| os_block := id; os_inst := k; os_target := target; os_kind := kind |};
bs_local_offset := loc; bs_limit := limit |}]
| None => []
end ++ inst_sites id (S k) (loc + inst_bytes i mf) l
end.

Lemma scan_insts_spec id k loc l ss :
foldl (pure_inst id) (ss, loc) (zip (seq k (length l)) l) =
(ss ++ inst_sites id k loc l, (loc + code_bytes (Code <$> l))%Z).
Proof.
revert k loc ss. induction l as [|i l IH]; intros k loc ss.
{ simpl. by rewrite app_nil_r, Z.add_0_r. }
cbn [length seq zip zip_with foldl]. unfold pure_inst at 2, add_site. cbn [fst snd].
etrans; [apply IH|]. rewrite fmap_cons. cbn [inst_sites code_bytes item_bytes]. f_equal; [|lia].
destruct (relaxable_branch i limits) as [[[t lim] kd]|]; [by rewrite <- app_assoc | done].
Qed.

Lemma elem_of_inst_sites id k loc l s :
s ∈ inst_sites id k loc l <-> exists j i t lim kd, l !! j = Some i /\ relaxable_branch i limits = Some (t, lim, kd) /\
s = {| bs_overflow := {| os_block := id; os_inst := k + j; os_target := t; os_kind := kd |};
bs_local_offset := loc + code_bytes (Code <$> take j l); bs_limit := lim |}.
Proof.
revert k loc. induction l as [|i l IH]; intros k loc; cbn [inst_sites].
{ split; [intros H; by apply not_elem_of_nil in H | intros (j & i & ? & ? & ? & H & _); by rewrite lookup_nil in H]. }
rewrite elem_of_app, IH. split.
- intros [Hs|(j & i' & t & lim & kd & Hj & Hr & ->)].
+ destruct (relaxable_branch i limits) as [[[t lim] kd]|] eqn:Er; [|by apply not_elem_of_nil in Hs].
apply list_elem_of_singleton in Hs as ->. exists 0%nat, i, t, lim, kd. split; [done|]. split; [done|].
simpl. rewrite Z.add_0_r, Nat.add_0_r. done.
+ exists (S j), i', t, lim, kd. split; [done|]. split; [done|]. f_equal; [f_equal; lia|].
rewrite firstn_cons, fmap_cons. simpl. lia.
- intros ([|j] & i' & t & lim & kd & Hj & Hr & ->).
+ simpl in Hj. simplify_eq. left. rewrite Hr. simpl. rewrite Z.add_0_r, Nat.add_0_r. by apply list_elem_of_singleton.
+ right. exists j, i', t, lim, kd. split; [done|]. split; [done|]. f_equal; [f_equal; lia|].
rewrite firstn_cons, fmap_cons. simpl. lia.
Qed.

Lemma inst_sites_NoDup id k loc l : NoDup ((fun s => os_inst (bs_overflow s)) <$> inst_sites id k loc l).
Proof.
revert k loc. induction l as [|i l IH]; intros k loc; cbn [inst_sites]; [constructor|].
destruct (relaxable_branch i limits) as [[[t lim] kd]|]; [|apply IH]. simpl. apply list.NoDup_cons. split; [|apply IH].
intros (s & Hs & Hin)%list_elem_of_fmap. apply elem_of_inst_sites in Hin as (j & ? & ? & ? & ? & _ & _ & ->). simpl in Hs. lia.
Qed.

Lemma scan_blocks_spec bs offs ss run :
let r := foldl (pure_block) ({| block_offsets := offs; sites := ss |}, run) bs in
sites r.1 = ss ++ (bs ≫= fun b => inst_sites (mb_id b) 0 0 (mb_insts b)) /\
(NoDup (mb_id <$> bs) -> forall id,
(id ∉ (mb_id <$> bs) -> block_offsets r.1 !! id = offs !! id) /\
forall p b, bs !! p = Some b -> mb_id b = id -> block_offsets r.1 !! id = Some (run + code_bytes (flat (take p bs)))%Z).
Proof.
revert offs ss run. induction bs as [|b bs IH]; intros offs ss run; cbn [foldl].
{ split; [by rewrite app_nil_r|]. intros _ id. split; [done|]. intros p b Hb. by rewrite lookup_nil in Hb. }
assert (Es : pure_block ({| block_offsets := offs; sites := ss |}, run) b =
({| block_offsets := <[mb_id b := run]> offs; sites := ss ++ inst_sites (mb_id b) 0 0 (mb_insts b) |},
(run + (0 + code_bytes (Code <$> mb_insts b)))%Z)) by (unfold pure_block; cbn [sites block_offsets]; by rewrite scan_insts_spec).
rewrite Es. clear Es.
destruct (IH (<[mb_id b := run]> offs) (ss ++ inst_sites (mb_id b) 0 0 (mb_insts b)) (run + (0 + code_bytes (Code <$> mb_insts b)))%Z)
as [IH1 IH2]. split; [by rewrite IH1, bind_cons, <- app_assoc|].
rewrite fmap_cons. intros [Hb Hnd]%list.NoDup_cons id. destruct (IH2 Hnd id) as [Hout Hin]. split.
- intros [Hne Hni]%not_elem_of_cons. etrans; [by apply Hout|]. by apply lookup_insert_ne.
- intros [|p] b' Hp <-; simpl in Hp.
+ simplify_eq. etrans; [by apply Hout|]. rewrite lookup_insert_eq. f_equal. simpl. lia.
+ etrans; [by apply (Hin p b')|]. f_equal. cbn [take].
change (flat (b :: take p bs)) with (flat_block b ++ flat (take p bs)). rewrite code_bytes_app.
unfold flat_block. simpl. lia.
Qed.

Definition site_key (s : OverflowSite) : MBlockId * nat := (os_block s, os_inst s).

Lemma sites_NoDup bs :
NoDup (mb_id <$> bs) ->
NoDup ((fun s => site_key (bs_overflow s)) <$> (bs ≫= fun b => inst_sites (mb_id b) 0 0 (mb_insts b))).
Proof.
induction bs as [|b bs IH]; intros Hnd; [constructor|]. rewrite fmap_cons in Hnd. apply list.NoDup_cons in Hnd as [Hb Hnd].
rewrite bind_cons, fmap_app. apply list.NoDup_app. split; [|split; [|by apply IH]].
- apply (NoDup_fmap_1 snd). rewrite <- list_fmap_compose. apply inst_sites_NoDup.
- intros k (s1 & -> & H1)%list_elem_of_fmap (s2 & Ek & (b' & H2 & Hb')%list_elem_of_bind)%list_elem_of_fmap.
apply elem_of_inst_sites in H1 as (? & ? & ? & ? & ? & _ & _ & ->).
apply elem_of_inst_sites in H2 as (? & ? & ? & ? & ? & _ & _ & ->).
unfold site_key in Ek. simpl in Ek. apply Hb. injection Ek as -> _. by apply list_elem_of_fmap_2.
Qed.

(** A branch at position [p] whose target is out of reach. *)
Definition overflow_at (p : nat) (s : OverflowSite) : Prop :=
exists blk i lim tp tb, mf_blocks mf !! p = Some blk /\ mb_id blk = os_block s /\ mb_insts blk !! os_inst s = Some i /\
relaxable_branch i limits = Some (os_target s, lim, os_kind s) /\
mf_blocks mf !! tp = Some tb /\ mb_id tb = os_target s /\
(lim < Z.abs (code_bytes (flat (take tp (mf_blocks mf))) - code_bytes (before (mf_blocks mf) p blk (os_inst s))))%Z.

Lemma sublist_fmap {A C} (g : A -> C) (l1 l2 : list A) : l1 `sublist_of` l2 -> (g <$> l1) `sublist_of` (g <$> l2).
Proof. induction 1; simpl; by constructor. Qed.

Lemma overflow_fold lay ss acc :
(forall s, s ∈ ss -> is_Some (block_offsets lay !! os_block (bs_overflow s))) ->
exists new, foldM (overflow_step lay) ss acc = Some (acc ++ new) /\ new `sublist_of` (bs_overflow <$> ss) /\
forall o, o ∈ new <-> exists s src tgt, s ∈ ss /\ o = bs_overflow s /\
block_offsets lay !! os_block o = Some src /\ block_offsets lay !! os_target o = Some tgt /\
(bs_limit s < Z.abs (tgt - (src + bs_local_offset s)))%Z.
Proof.
revert acc. induction ss as [|s ss IH]; intros acc Hs; cbn [foldM].
{ exists []. rewrite app_nil_r. split; [done|]. split; [done|]. intros o. split; [intros H; by apply not_elem_of_nil in H|].
intros (s & ? & ? & H & _). by apply not_elem_of_nil in H. }
destruct (Hs s) as [src Hsrc]; [left|]. unfold overflow_step at 2. rewrite Hsrc. cbn [mbind option_bind].
assert (Hss : forall s', s' ∈ ss -> is_Some (block_offsets lay !! os_block (bs_overflow s'))) by (intros s' H'; apply Hs; by right).
assert (Hskip : (forall tgt, block_offsets lay !! os_target (bs_overflow s) = Some tgt ->
~ (bs_limit s < Z.abs (tgt - (src + bs_local_offset s)))%Z) -> forall o,
(exists s' src tgt, s' ∈ s :: ss /\ o = bs_overflow s' /\ block_offsets lay !! os_block o = Some src /\
block_offsets lay !! os_target o = Some tgt /\ (bs_limit s' < Z.abs (tgt - (src + bs_local_offset s')))%Z) ->
exists s' src tgt, s' ∈ ss /\ o = bs_overflow s' /\ block_offsets lay !! os_block o = Some src /\
block_offsets lay !! os_target o = Some tgt /\ (bs_limit s' < Z.abs (tgt - (src + bs_local_offset s')))%Z).
{ intros Hno o (s' & src' & tgt & [->|Hs']%elem_of_cons & -> & H1 & H2 & H3); [|by exists s', src', tgt].
simplify_eq. by destruct (Hno tgt). }
assert (Hmore : forall o, (exists s' src tgt, s' ∈ ss /\ o = bs_overflow s' /\ block_offsets lay !! os_block o = Some src /\
block_offsets lay !! os_target o = Some tgt /\ (bs_limit s' < Z.abs (tgt - (src + bs_local_offset s')))%Z) ->
exists s' src tgt, s' ∈ s :: ss /\ o = bs_overflow s' /\ block_offsets lay !! os_block o = Some src /\
block_offsets lay !! os_target o = Some tgt /\ (bs_limit s' < Z.abs (tgt - (src + bs_local_offset s')))%Z).
{ intros o (s' & src' & tgt & Hs' & H). exists s', src', tgt. split; [by right | done]. }
destruct (block_offsets lay !! os_target (bs_overflow s)) as [tgt|] eqn:Et.
- cbn zeta. destruct (Z.ltb_spec (bs_limit s) (Z.abs (tgt - (src + bs_local_offset s)))) as [Hlt|Hge]; cbn [mbind option_bind].
+ destruct (IH (acc ++ [bs_overflow s]) Hss) as (new & E & Hsub & Hn). exists (bs_overflow s :: new).
rewrite E, <- app_assoc. split; [done|]. split; [by apply sublist_skip|]. intros o. rewrite elem_of_cons, Hn. split.
* intros [->|H]; [exists s, src, tgt; split; [left | done] | by apply Hmore].
* intros (s' & src' & tgt' & [->|Hs']%elem_of_cons & -> & H); [by left|]. right. by exists s', src', tgt'.
+ destruct (IH acc Hss) as (new & E & Hsub & Hn). exists new. split; [done|]. split; [by apply sublist_cons|].
intros o. rewrite Hn. split; [apply Hmore | apply Hskip]. intros tgt' [= <-]. lia.
- destruct (IH acc Hss) as (new & E & Hsub & Hn). exists new. split; [done|]. split; [by apply sublist_cons|].
intros o. rewrite Hn. split; [apply Hmore | by apply Hskip].
Qed.

Lemma overflows_spec :
NoDup (mb_id <$> mf_blocks mf) ->
exists ovs, into_overflows pure_layout = Some ovs /\
NoDup (site_key <$> ovs) /\ forall s, s ∈ ovs <-> exists p, overflow_at p s.
Proof.
intros Hnd. unfold into_overflows, pure_layout.
destruct (scan_blocks_spec (mf_blocks mf) ∅ [] 0) as [Hsites Hoff].
set (lay := (foldl _ _ (mf_blocks mf)).1) in *. specialize (Hoff Hnd). simpl in Hsites.
assert (Hb : forall p b, mf_blocks mf !! p = Some b -> block_offsets lay !! mb_id b = Some (code_bytes (flat (take p (mf_blocks mf))))).
{ intros p b Hp. by rewrite (proj2 (Hoff (mb_id b)) p b Hp eq_refl), Z.add_0_l. }
assert (Hinv : forall id x, block_offsets lay !! id = Some x -> exists p b, mf_blocks mf !! p = Some b /\ mb_id b = id /\
x = code_bytes (flat (take p (mf_blocks mf)))).
{ intros id x Hx. destruct (decide (id ∈ (mb_id <$> mf_blocks mf))) as [Hin|Hno].
- apply list_elem_of_fmap in Hin as (b & -> & Hin). apply list_elem_of_lookup in Hin as [p Hp].
exists p, b. rewrite (Hb p b Hp) in Hx. by simplify_eq.
- rewrite (proj1 (Hoff id) Hno), lookup_empty in Hx. done. }
destruct (overflow_fold lay (sites lay) []) as (ovs & E & Hsub & Hov).
{ intros s Hs. rewrite Hsites in Hs. apply list_elem_of_bind in Hs as (b & Hs & Hbin).
apply elem_of_inst_sites in Hs as (? & ? & ? & ? & ? & _ & _ & ->). simpl.
apply list_elem_of_lookup in Hbin as [p Hp]. rewrite (Hb p b Hp). by eexists. }
exists ovs. split; [done|]. split.
- apply (sublist_NoDup _ (site_key <$> (bs_overflow <$> sites lay))).
+ rewrite <- list_fmap_compose, Hsites. by apply sites_NoDup.
+ by apply sublist_fmap.
- assert (Hbefore : forall p b j, code_bytes (before (mf_blocks mf) p b j) =
(code_bytes (flat (take p (mf_blocks mf))) + (0 + code_bytes (Code <$> take j (mb_insts b))))%Z).
{ intros p b j. unfold before. rewrite code_bytes_app. done. }
intros o. rewrite Hov, Hsites. split.
+ intros (s & src & tgt & (b & Hs & Hbin)%list_elem_of_bind & -> & Hsrc & Htgt & Hlt).
apply list_elem_of_lookup in Hbin as [p Hp].
apply elem_of_inst_sites in Hs as (j & i & t & lim & kd & Hj & Hr & ->). simpl in *.
rewrite (Hb p b Hp) in Hsrc. simplify_eq. apply Hinv in Htgt as (tp & tb & Htp & Htb & ->).
exists p, b, i, lim, tp, tb. cbn [os_block os_inst os_target os_kind]. rewrite Hbefore. done.
+ intros (p & blk & i & lim & tp & tb & Hp & Hid & Hi & Hr & Htp & Htb & Hlt).
eexists _, _, _. split; [apply list_elem_of_bind; exists blk; split; [|by eapply list_elem_of_lookup_2]|].
{ apply elem_of_inst_sites. exists (os_inst o), i, (os_target o), lim, (os_kind o). split_and!; done. }
rewrite <- Hid, <- Htb. rewrite (Hb p blk Hp), (Hb tp tb Htp). cbn [bs_overflow bs_local_offset bs_limit].
split_and!; [|done|done|]; [|by rewrite <- Hbefore]. destruct o. simpl in *. by subst.
Qed.
End scan.

(** The bytes an instruction of a printable function prints to. *)
Definition printed_bytes (i : MachineInst) (mf : MachineFunction) : Z := default 0%Z (inst_emit_bytes i mf).

Lemma foldM_pure {A C} (g : C -> A -> option C) (h : C -> A -> C) (l : list A) c :
  (forall c x, x ∈ l -> g c x = Some (h c x)) -> foldM g l c = Some (foldl h c l).
Proof.
  revert c. induction l as [|x l IH]; intros c H; [done|]. cbn [foldM foldl]. rewrite H by left. cbn [mbind option_bind].
  apply IH. intros c' y Hy. apply H. by right.
Qed.

Lemma scan_pure mf limits : printable mf -> scan_branch_layout mf limits = Some (pure_layout printed_bytes mf limits).
Proof.
  intros Hp. unfold scan_branch_layout, pure_layout. rewrite (foldM_pure _ (pure_block printed_bytes mf limits)); [done|].
  intros [lay run] b Hb. unfold scan_block, pure_block. rewrite (foldM_pure _ (pure_inst printed_bytes mf limits (mb_id b))).
  - cbn [mbind option_bind]. by destruct (foldl _ _ _).
  - intros [ss local] [k i] Hk. unfold scan_inst, pure_inst, printed_bytes. cbn [snd].
    assert (Hi : Code i ∈ flat (mf_blocks mf)).
    { apply list_elem_of_bind. exists b. split; [|done]. right. apply list_elem_of_fmap_2. apply elem_of_zip_r in Hk. done. }
    destruct (pt_emit _ Hp i Hi) as [t Et]. unfold inst_emit_bytes. rewrite Et. done.
Qed.

(** * One rewrite *)

(** A printable function with distinct block ids below the counter, and room for the ids still to come. *)
Record relax_ready (limits : BranchLimits) (mf : MachineFunction) : Prop := {
  rr_nodup : NoDup (mb_id <$> mf_blocks mf);
  rr_print : printable mf;
  rr_fresh : forall id, id ∈ (mb_id <$> mf_blocks mf) -> (id < mf_next_block mf)%N;
  rr_room : (mf_next_block mf + N.of_nat (potential limits (flat (mf_blocks mf))) < 2 ^ 32)%N }.

Lemma list_find_at mf p blk :
  NoDup (mb_id <$> mf_blocks mf) -> mf_blocks mf !! p = Some blk ->
  list_find (fun b => mb_id b = mb_id blk) (mf_blocks mf) = Some (p, blk).
Proof.
  intros Hnd Hp. apply list_find_Some. split; [done|]. split; [done|]. intros j y Hj Hlt E.
  assert (j = p); [|lia]. eapply NoDup_lookup; [done | by rewrite list_lookup_fmap, Hj | by rewrite list_lookup_fmap, Hp, E].
Qed.

Lemma block_position_at mf p blk :
  NoDup (mb_id <$> mf_blocks mf) -> mf_blocks mf !! p = Some blk -> block_position mf (mb_id blk) = Some p.
Proof. intros Hnd Hp. unfold block_position. by rewrite (list_find_at mf p blk). Qed.

Lemma block_index_at mf p blk :
  NoDup (mb_id <$> mf_blocks mf) -> mf_blocks mf !! p = Some blk -> block_index mf (mb_id blk) = Some p.
Proof.
  intros Hnd Hp. unfold block_index. case_decide as Hd; [|by rewrite (list_find_at mf p blk)].
  f_equal. eapply NoDup_lookup; [done | by rewrite list_lookup_fmap, Hd | by rewrite list_lookup_fmap, Hp].
Qed.

Lemma block_at mf p blk :
  NoDup (mb_id <$> mf_blocks mf) -> mf_blocks mf !! p = Some blk -> block mf (mb_id blk) = Some blk.
Proof. intros Hnd Hp. unfold block. by rewrite (block_index_at mf p blk). Qed.

Lemma u32n_small n : (n < 2 ^ 32)%N -> u32n n = n.
Proof. apply N.mod_small. Qed.

(** The rewrite at a position: what it returns, and the parts it leaves alone. *)
Record rewritten (limits : BranchLimits) (mf : MachineFunction) (p : nat) (blk : MachineBlock) (idx : nat) (i : MachineInst)
    (t : MBlockId) (k : RelaxKind) (mf' : MachineFunction) : Prop := {
  rw_widen : widen limits (flat (mf_blocks mf)) (flat (mf_blocks mf'));
  rw_shape : exists skip E, expansion k t skip = Some E /\
    flat (mf_blocks mf') = before (mf_blocks mf) p blk idx ++ E ++ behind (mf_blocks mf) p blk idx;
  rw_ready : relax_ready limits mf';
  rw_blocks : take p (mf_blocks mf') = take p (mf_blocks mf);
  rw_block : exists blk', mf_blocks mf' !! p = Some blk' /\ mb_id blk' = mb_id blk /\
    take idx (mb_insts blk') = take idx (mb_insts blk);
  rw_ids : forall id, id ∈ (mb_id <$> mf_blocks mf) -> id ∈ (mb_id <$> mf_blocks mf') }.

Section rewrite.
Context (limits : BranchLimits) (mf : MachineFunction) (Hwf : relax_ready limits mf).
Context (p : nat) (blk : MachineBlock) (idx : nat) (i : MachineInst) (t : MBlockId) (lim : Z) (k : RelaxKind).
Context (Hp : mf_blocks mf !! p = Some blk) (Hi : mb_insts blk !! idx = Some i).
Context (Hr : relaxable_branch i limits = Some (t, lim, k)).

Lemma code_before j : Code j ∈ before (mf_blocks mf) p blk idx -> Code j ∈ flat (mf_blocks mf).
Proof. intros Hj. rewrite (flat_split _ p blk idx i Hp Hi). apply elem_of_app. by left. Qed.

Lemma code_behind j : Code j ∈ behind (mf_blocks mf) p blk idx -> Code j ∈ flat (mf_blocks mf).
Proof. intros Hj. rewrite (flat_split _ p blk idx i Hp Hi). apply elem_of_app. right. by right. Qed.

Lemma expand_jump :
k = KB -> t ∈ (mb_id <$> mf_blocks mf) ->
exists mf', expand_overflow mf {| os_block := mb_id blk; os_inst := idx; os_target := t; os_kind := k |} = Some mf' /\
rewritten limits mf p blk idx i t k mf'.
Proof.
intros -> Ht. destruct Hwf as [Hnd Hpr Hfr Hroom]. unfold expand_overflow. cbn [os_kind os_target os_block os_inst].
destruct (ensure_label_spec mf t Hpr Ht) as (mf1 & -> & Eb & En & Hext & Hlt1 & Hlp).
cbn [mbind option_bind]. rewrite (block_index_at mf1 p blk) by (by rewrite Eb). cbn [mbind option_bind].
rewrite Eb, Hp. cbn [mbind option_bind]. rewrite Hi. cbn [mbind option_bind]. eexists. split; [done|].
set (blk' := {| mb_id := mb_id blk; mb_label := mb_label blk; mb_insts := _ |}).
assert (Hlt : (p < length (mf_blocks mf))%nat) by (by eapply lookup_lt_Some).
assert (Hli : (idx < length (mb_insts blk))%nat) by (by eapply lookup_lt_Some).
assert (Hflat : flat (<[p := blk']> (mf_blocks mf)) =
before (mf_blocks mf) p blk idx ++ [Code (branch_inst BLong [OpBlock t])] ++ behind (mf_blocks mf) p blk idx).
{ rewrite (flat_split _ p blk' idx (branch_inst BLong [OpBlock t])).
- unfold before, behind, blk'. cbn [mb_id mb_insts].
rewrite !take_insert_ge, !drop_insert_lt by lia. done.
- by apply list_lookup_insert_eq.
- by apply list_lookup_insert_eq. }
assert (Hw : widen limits (flat (mf_blocks mf)) (flat (<[p := blk']> (mf_blocks mf)))).
{ rewrite Hflat, (flat_split _ p blk idx i Hp Hi). by apply (widen_at limits _ i _ t lim KB 0). }
assert (Hids : mb_id <$> <[p := blk']> (mf_blocks mf) = mb_id <$> mf_blocks mf).
{ rewrite list_fmap_insert. apply list_insert_id. by rewrite list_lookup_fmap, Hp. }
pose proof (widen_potential limits _ _ Hw) as Hpot.
split; cbn [mf_blocks with_blocks mf_next_block]; rewrite ?En.
- done.
- by exists 0%N, [Code (branch_inst BLong [OpBlock t])].
- split; cbn [mf_blocks with_blocks mf_next_block]; rewrite ?En, ?Hids; [done | | done | lia].
apply (printable_extends mf); [done | destruct Hext as [X1 X2 X3 X4]; split; cbn [mf_name mf_frame mf_blocks with_blocks long_branch_labels];
[done | done | by rewrite Hids | done] | | exact Hlp |].
+ intros b [q Hq]%list_elem_of_lookup. cbn [mf_blocks with_blocks] in Hq. destruct (decide (q = p)) as [->|Hne].
* rewrite list_lookup_insert_eq in Hq by done. injection Hq as <-. change (plain (mb_label blk)). by eapply (pt_labels _ Hpr), list_elem_of_lookup_2.
* rewrite list_lookup_insert_ne in Hq by done. by eapply (pt_labels _ Hpr), list_elem_of_lookup_2.
+ intros j. cbn [mf_blocks with_blocks]. rewrite Hflat, !elem_of_app. intros [Hj|[Hj|Hj]].
* left. by apply code_before.
* right. apply list_elem_of_singleton in Hj. injection Hj as ->. split; [by apply emit_new_blong|].
intros op ->%list_elem_of_singleton. apply block_ref_plain.
* left. by apply code_behind.
- by rewrite take_insert_ge by lia.
- exists blk'. split; [by apply list_lookup_insert_eq|]. split; [done|]. cbn [mb_insts blk']. by rewrite take_insert_ge by lia.
- by rewrite Hids.
Qed.

Lemma expand_conditional :
is_KB k = false -> t ∈ (mb_id <$> mf_blocks mf) -> settled t (behind (mf_blocks mf) p blk idx) = false ->
exists mf', expand_overflow mf {| os_block := mb_id blk; os_inst := idx; os_target := t; os_kind := k |} = Some mf' /\
rewritten limits mf p blk idx i t k mf'.
Proof.
intros Hk Ht Hset. destruct Hwf as [Hnd Hpr Hfr Hroom]. set (skip := mf_next_block mf).
assert (exists E, expansion k t skip = Some E) as [E HE] by (destruct k; [done | by eexists..]).
destruct (expansion_jump limits _ _ _ _ _ _ Hr HE Hk) as (inv & Hinv & _ & HEq).
assert (Hlt : (p < length (mf_blocks mf))%nat) by (by eapply lookup_lt_Some).
assert (Hli : (idx < length (mb_insts blk))%nat) by (by eapply lookup_lt_Some).
assert (Hskip : skip ∉ (mb_id <$> mf_blocks mf)) by (intros Hin; apply Hfr in Hin; unfold skip in Hin; lia).
set (mf1 := with_next_block mf (u32n (skip + 1))).
assert (Hb1 : mf_blocks mf1 = mf_blocks mf) by done.
set (blk' := {| mb_id := mb_id blk; mb_label := mb_label blk;
mb_insts := take idx (mb_insts blk) ++ [inv; branch_inst B [OpBlock t]] |}).
set (sb := {| mb_id := skip; mb_label := (mb_label blk +:+ "_relax" +:+ pretty skip)%string;
mb_insts := drop (S idx) (mb_insts blk) |}).
set (bs' := take p (mf_blocks mf) ++ [blk'; sb] ++ drop (S p) (mf_blocks mf)).
assert (Eexp : expand_overflow mf {| os_block := mb_id blk; os_inst := idx; os_target := t; os_kind := k |} =
Some (with_blocks mf1 bs')).
{ unfold expand_overflow. cbn [os_kind os_target os_block os_inst]. destruct k eqn:Ek; [done | ..];
unfold expand_conditional_to_trampoline, next_block_id; fold skip; fold mf1;
rewrite (block_at mf1 p blk Hnd Hp); cbn [mbind option_bind]; rewrite Hinv; cbn [mbind option_bind];
rewrite (block_position_at mf1 p blk Hnd Hp); cbn [mbind option_bind]; rewrite Hb1, Hp; cbn [mbind option_bind];
rewrite Hi; done. }
assert (Hflat : flat bs' = before (mf_blocks mf) p blk idx ++ E ++ behind (mf_blocks mf) p blk idx).
{ unfold bs'. rewrite !flat_app, HEq. unfold before, behind. change (flat [blk'; sb]) with (flat_block blk' ++ flat_block sb ++ []).
unfold flat_block. cbn [mb_id mb_insts blk' sb]. rewrite app_nil_r, fmap_app. simpl. by rewrite <- !app_assoc. }
assert (Hw : widen limits (flat (mf_blocks mf)) (flat bs')).
{ rewrite Hflat, (flat_split _ p blk idx i Hp Hi). apply (widen_at limits _ i _ t lim k skip); [done | done |].
intros _. split; [done|]. rewrite <- (flat_split _ p blk idx i Hp Hi), labels_flat. done. }
pose proof (widen_potential limits _ _ Hw) as Hpot.
assert (Hids : mb_id <$> bs' ≡ₚ skip :: (mb_id <$> mf_blocks mf)).
{ unfold bs'. rewrite <- (take_drop_middle (mf_blocks mf) p blk Hp) at 3.
rewrite !fmap_app, !fmap_cons. cbn [mb_id blk' sb fmap list_fmap app].
rewrite <- (Permutation_middle _ _ (mb_id blk)), <- (Permutation_middle _ _ skip), <- (Permutation_middle _ _ (mb_id blk)).
apply Permutation_swap. }
assert (Hnext : u32n (skip + 1) = (skip + 1)%N) by (apply u32n_small; unfold skip; lia).
exists (with_blocks mf1 bs'). split; [done|]. split; cbn [mf_blocks with_blocks mf_next_block mf1 with_next_block].
- done.
- by exists skip, E.
- split; cbn [mf_blocks with_blocks mf_next_block mf1 with_next_block]; rewrite ?Hids, ?Hnext.
+ by apply list.NoDup_cons.
+ apply (printable_extends mf); [done | split; cbn [mf_name mf_frame mf_blocks with_blocks long_branch_labels mf1 with_next_block];
[done | done | intros id Hid; rewrite Hids; by right | done] | | exact (pt_long _ Hpr) |].
* intros b. cbn [mf_blocks with_blocks]. unfold bs'. rewrite !elem_of_app. intros [Hb|[Hb|Hb]].
-- apply (pt_labels _ Hpr). by apply elem_of_take in Hb as (? & Hb & _); eapply list_elem_of_lookup_2.
-- assert (Hl : plain (mb_label blk)) by (by eapply (pt_labels _ Hpr), list_elem_of_lookup_2).
apply elem_of_cons in Hb as [->|Hb]; [exact Hl|]. apply list_elem_of_singleton in Hb as ->. cbn [mb_label sb].
rewrite !newlines_app, Hl. apply pretty_plain.
-- apply (pt_labels _ Hpr). apply list_elem_of_lookup in Hb as [q Hq]. rewrite lookup_drop in Hq. by eapply list_elem_of_lookup_2.
* intros j. cbn [mf_blocks with_blocks]. rewrite Hflat, HEq, !elem_of_app. intros [Hj|[Hj|Hj]]; [left; by apply code_before | | left; by apply code_behind].
right. assert (Hops : forall op, op ∈ operands i -> plain (op_str op)).
{ intros op Hop. apply (pt_ops _ Hpr i); [by rewrite (flat_split _ p blk idx i Hp Hi); set_solver | by eapply relaxable_local | done]. }
apply elem_of_cons in Hj as [Ej|Hj]; [injection Ej as ->|apply elem_of_cons in Hj as [Ej|Hj]; [injection Ej as ->|by apply list_elem_of_singleton in Hj]].
-- split; [eapply emit_inverted; [exact Hr | exact Hinv | cbn [mf_blocks with_blocks]; rewrite Hids; left] | by eapply inverted_ops_plain].
-- split; [apply emit_new_b; cbn [mf_blocks with_blocks]; rewrite Hids; by right | intros op ->%list_elem_of_singleton; apply block_ref_plain].
+ intros id. rewrite Hids, elem_of_cons. intros [->|Hin]; [lia|]. apply Hfr in Hin. unfold skip. lia.
+ unfold skip. lia.
- unfold bs'. rewrite take_app_le by (rewrite length_take; lia). rewrite take_take. f_equal. lia.
- exists blk'. split; [|split; [done|]].
+ unfold bs'. rewrite lookup_app_r by (rewrite length_take; lia). rewrite length_take.
replace (p - p `min` length (mf_blocks mf))%nat with 0%nat by lia. done.
+ cbn [mb_insts blk']. rewrite take_app_le by (rewrite length_take; lia). rewrite take_take. f_equal. lia.
- intros id Hid. rewrite Hids. by right.
Qed.
End rewrite.

(** * One pass *)

(** A site whose branch is still in place and still worth widening. *)
Definition live (limits : BranchLimits) (mf : MachineFunction) (s : OverflowSite) (p : nat) : Prop :=
  exists blk i lim, mf_blocks mf !! p = Some blk /\ mb_id blk = os_block s /\ mb_insts blk !! os_inst s = Some i /\
    relaxable_branch i limits = Some (os_target s, lim, os_kind s) /\
    (is_KB (os_kind s) = false -> settled (os_target s) (behind (mf_blocks mf) p blk (os_inst s)) = false) /\
    os_target s ∈ (mb_id <$> mf_blocks mf).

Definition earlier (a b : nat * nat) : Prop := (a.1 < b.1)%nat \/ (a.1 = b.1 /\ a.2 < b.2)%nat.

Lemma before_length bs p blk idx i :
  mb_insts blk !! idx = Some i -> length (before bs p blk idx) = (length (flat (take p bs)) + S idx)%nat.
Proof.
  intros Hi. unfold before. rewrite length_app. simpl. rewrite length_fmap, length_take.
  apply lookup_lt_Some in Hi. lia.
Qed.

Lemma before_earlier bs p1 b1 i1 j1 p2 b2 i2 j2 :
  bs !! p1 = Some b1 -> mb_insts b1 !! i1 = Some j1 -> mb_insts b2 !! i2 = Some j2 -> bs !! p2 = Some b2 ->
  earlier (p1, i1) (p2, i2) -> (length (before bs p1 b1 i1) < length (before bs p2 b2 i2))%nat.
Proof.
  intros Hp1 Hi1 Hi2 Hp2 He. rewrite (before_length _ _ _ _ _ Hi1), (before_length _ _ _ _ _ Hi2).
  destruct He as [Hlt|[Heq Hlt]]; cbn [fst snd] in *; [|subst; lia].
  replace p2 with (p1 + S (p2 - p1 - 1))%nat by lia. rewrite <- take_take_drop, flat_app, length_app.
  rewrite (drop_S bs b1 p1 Hp1). cbn [take].
  change (flat (b1 :: take (p2 - p1 - 1) (drop (S p1) bs))) with (flat_block b1 ++ flat (take (p2 - p1 - 1) (drop (S p1) bs))).
  unfold flat_block. simpl. rewrite length_app, length_fmap. apply lookup_lt_Some in Hi1. lia.
Qed.

(** Two splits of one list, one behind the other. *)
Lemma split_inside {A} (pre1 pre2 post1 post2 : list A) x1 x2 :
  pre1 ++ x1 :: post1 = pre2 ++ x2 :: post2 -> (length pre1 < length pre2)%nat ->
  exists mid, pre2 = pre1 ++ x1 :: mid /\ post1 = mid ++ x2 :: post2.
Proof.
  intros E Hlt. apply app_eq_inv in E as [(l & -> & E)|(l & -> & E)].
  - rewrite length_app in Hlt. lia.
  - destruct l as [|y l]; simpl in E; [rewrite app_nil_r in Hlt; lia|]. simplify_eq. by exists l.
Qed.

(** A rewrite leaves the earlier sites live. *)
Lemma live_preserved limits mf p blk idx i t lim k mf' s q :
  mf_blocks mf !! p = Some blk -> mb_insts blk !! idx = Some i -> relaxable_branch i limits = Some (t, lim, k) ->
  rewritten limits mf p blk idx i t k mf' -> live limits mf s q -> earlier (q, os_inst s) (p, idx) -> live limits mf' s q.
Proof.
  intros Hp Hi Hr [_ (skip & E & HE & Hflat) _ Htake (blk' & Hblk' & Hid' & Hpre) Hids]
    (b & j & l & Hb & Hbid & Hj & Hrj & Hset & Ht) Hearlier.
  assert (exists b', mf_blocks mf' !! q = Some b' /\ mb_id b' = mb_id b /\ mb_insts b' !! os_inst s = Some j /\
    before (mf_blocks mf') q b' (os_inst s) = before (mf_blocks mf) q b (os_inst s)) as (b' & Hb' & Hbid' & Hj' & Hbef).
  { destruct Hearlier as [Hlt|[Heq Hlt]]; cbn [fst snd] in *.
    - exists b. assert (Hq : mf_blocks mf' !! q = Some b) by (rewrite <- (lookup_take_lt _ p), Htake, lookup_take_lt by done; done).
      split; [done|]. split; [done|]. split; [done|]. unfold before. f_equal. f_equal.
      replace q with (q `min` p)%nat by lia. rewrite <- !take_take, Htake. done.
    - subst q. simplify_eq. exists blk'. split; [done|]. split; [done|]. split.
      + by rewrite <- (lookup_take_lt _ idx), Hpre, lookup_take_lt by done.
      + unfold before. rewrite Htake, Hid'. do 3 f_equal.
        replace (os_inst s) with (os_inst s `min` idx)%nat by lia. by rewrite <- !take_take, Hpre. }
  exists b', j, l. split; [done|]. split; [congruence|]. split; [done|]. split; [done|]. split; [|by apply Hids].
  intros Hk. rewrite <- (Hset Hk).
  pose proof (flat_split _ _ _ _ _ Hb Hj) as F1. pose proof (flat_split _ _ _ _ _ Hp Hi) as F2.
  pose proof (flat_split _ _ _ _ _ Hb' Hj') as F3. rewrite Hbef, Hflat in F3. rewrite F1 in F2.
  apply split_inside in F2 as (mid & Epre & Epost); [|by eapply before_earlier].
  rewrite Epre, <- app_assoc, <- app_comm_cons in F3. apply app_inv_head in F3. injection F3 as F3.
  rewrite <- F3, Epost. by eapply settled_widen.
Qed.

Lemma live_rewrite limits mf s p :
  relax_ready limits mf -> live limits mf s p ->
  exists mf' blk i lim, expand_overflow mf s = Some mf' /\
    mf_blocks mf !! p = Some blk /\ mb_insts blk !! os_inst s = Some i /\
    relaxable_branch i limits = Some (os_target s, lim, os_kind s) /\
    rewritten limits mf p blk (os_inst s) i (os_target s) (os_kind s) mf'.
Proof.
  intros Hwf (blk & i & lim & Hp & Hid & Hi & Hr & Hset & Ht).
  assert (exists mf', expand_overflow mf {| os_block := mb_id blk; os_inst := os_inst s; os_target := os_target s; os_kind := os_kind s |} = Some mf' /\
    rewritten limits mf p blk (os_inst s) i (os_target s) (os_kind s) mf') as (mf' & E & Hrw).
  { destruct (is_KB (os_kind s)) eqn:Hk.
    - eapply expand_jump; [done.. | | done]. by destruct (os_kind s).
    - eapply expand_conditional; [done.. | by apply Hset]. }
  exists mf', blk, i, lim. rewrite Hid in E. by destruct s.
Qed.

(** Expanding the sites of a pass, later ones first. *)
Lemma expand_all limits mf (l : list (nat * OverflowSite)) :
  relax_ready limits mf -> (forall e, e ∈ l -> live limits mf e.2 e.1) ->
  StronglySorted (fun a b => earlier (b.1, os_inst b.2) (a.1, os_inst a.2)) l ->
  exists mf', foldM expand_overflow (l.*2) mf = Some mf' /\ relax_ready limits mf' /\
    rtc (widen limits) (flat (mf_blocks mf)) (flat (mf_blocks mf')) /\
    (potential limits (flat (mf_blocks mf')) + length l <= potential limits (flat (mf_blocks mf)))%nat.
Proof.
  revert mf. induction l as [|[p s] l IH]; intros mf Hwf Hlive Hsort.
  { exists mf. simpl. split; [done|]. split; [done|]. split; [apply rtc_refl | lia]. }
  apply StronglySorted_inv in Hsort as [Hsort Hall]. rewrite list.Forall_forall in Hall.
  destruct (live_rewrite limits mf s p Hwf) as (mf1 & blk & i & lim & E & Hp & Hi & Hr & Hrw); [apply (Hlive (p, s)); left|].
  destruct (IH mf1) as (mf' & E' & Hwf' & Hrtc & Hpot); [apply Hrw | | done |].
  - intros e He. eapply live_preserved; [exact Hp | exact Hi | exact Hr | exact Hrw | |].
    + apply Hlive. by right.
    + by apply (Hall e).
  - exists mf'. cbn [fmap list_fmap foldM snd]. rewrite E. cbn [mbind option_bind]. split; [done|]. split; [done|].
    pose proof (rw_widen _ _ _ _ _ _ _ _ _ Hrw) as Hw. split; [by eapply rtc_l|].
    apply widen_potential in Hw. simpl. lia.
Qed.

(** ** The order of the rewrites *)

#[export] Instance later_trans : Transitive later.
Proof. intros [[p i] s] [[q j] t] [[r k] u]. unfold later. simpl. lia. Qed.

#[export] Instance later_total : Total later.
Proof. intros [[p i] s] [[q j] t]. unfold later. simpl. lia. Qed.

Lemma sort_sites_spec limits mf ovs :
  NoDup (mb_id <$> mf_blocks mf) -> NoDup (site_key <$> ovs) ->
  (forall s, s ∈ ovs -> exists p, live limits mf s p) ->
  exists l, sort_sites mf ovs = Some (l.*2) /\ length l = length ovs /\
    (forall e, e ∈ l -> live limits mf e.2 e.1) /\
    StronglySorted (fun a b => earlier (b.1, os_inst b.2) (a.1, os_inst a.2)) l.
Proof.
  intros Hnd Hkeys Hlive.
  set (posf := fun s => default 0%nat (block_position mf (os_block s))).
  assert (Hpos : forall s p, live limits mf s p -> block_position mf (os_block s) = Some p).
  { intros s p (blk & i & lim & Hp & <- & _). by apply block_position_at. }
  assert (Hm : mapM (fun s => p ← block_position mf (os_block s); Some ((p, os_inst s), s)) ovs =
    Some ((fun s => ((posf s, os_inst s), s)) <$> ovs)).
  { clear Hkeys. induction ovs as [|s ovs IH]; [done|]. simpl. destruct (Hlive s) as [p Hp]; [left|]. unfold posf at 1.
    rewrite (Hpos s p Hp). simpl. rewrite IH by (intros s' Hs'; apply Hlive; by right). done. }
  set (keyed := merge_sort later ((fun s => ((posf s, os_inst s), s)) <$> ovs)).
  assert (Hperm : keyed ≡ₚ (fun s => ((posf s, os_inst s), s)) <$> ovs) by apply merge_sort_Permutation.
  exists ((fun k => (k.1.1, k.2)) <$> keyed). split; [|split; [|split]].
  - unfold sort_sites. rewrite Hm. simpl. rewrite <- list_fmap_compose. done.
  - by rewrite length_fmap, Hperm, length_fmap.
  - intros e (k & -> & Hk)%list_elem_of_fmap. rewrite Hperm in Hk. apply list_elem_of_fmap in Hk as (s & -> & Hs). simpl.
    destruct (Hlive s Hs) as [p Hp]. unfold posf. by rewrite (Hpos s p Hp).
  - assert (Hs : StronglySorted later keyed) by (apply (Sorted_StronglySorted _), (Sorted_merge_sort _)).
    assert (Hnk : NoDup keyed).
    { rewrite Hperm. apply (NoDup_fmap_1 (fun k => site_key k.2)). by rewrite <- list_fmap_compose. }
    assert (Hshape : forall k, k ∈ keyed -> exists s p, k = ((p, os_inst s), s) /\ live limits mf s p).
    { intros k Hk. rewrite Hperm in Hk. apply list_elem_of_fmap in Hk as (s & -> & Hin). destruct (Hlive s Hin) as [p Hp].
      exists s, p. unfold posf. by rewrite (Hpos s p Hp). }
    clear Hm Hperm. clearbody keyed. induction Hs as [|a l Hs IH Ha]; [constructor|].
    apply list.NoDup_cons in Hnk as [Hal Hnk]. rewrite fmap_cons. constructor.
    + apply IH; [done|]. intros k Hk. apply Hshape. by right.
    + rewrite list.Forall_forall in Ha. rewrite list.Forall_forall. intros e (b & -> & Hb)%list_elem_of_fmap. specialize (Ha b Hb).
      destruct (Hshape a) as (sa & pa & -> & Hla); [left|]. destruct (Hshape b) as (sb & pb & -> & Hlb); [by right|].
      unfold later, earlier in *. cbn [fst snd] in *. destruct (decide (pa = pb /\ os_inst sa = os_inst sb)) as [[-> Ei]|]; [|lia].
      destruct Hla as (ba & ia & la & Hba & Hida & Hia & Hra & _). destruct Hlb as (bb & ib & lb & Hbb & Hidb & Hib & Hrb & _).
      exfalso. apply Hal. assert (sa = sb) as ->; [|done]. rewrite Ei in Hia. simplify_eq.
      destruct sa, sb. simpl in *. congruence.
Qed.

(** ** Branches over a jump stay in reach *)

(** A conditional branch reaches over itself and a veneer. *)
Definition reach_ok (limits : BranchLimits) : Prop := (16 <= lim_cond limits /\ 16 <= lim_tbz limits)%Z.

Lemma label_split_unique (a b c d : list item) t :
  NoDup (labels (a ++ Label t :: b)) -> a ++ Label t :: b = c ++ Label t :: d -> a = c.
Proof.
  revert c. induction a as [|x a IH]; intros [|y c] Hnd E; simpl in *; simplify_eq.
  - done.
  - exfalso. apply list.NoDup_cons in Hnd as [Ht _]. apply Ht. rewrite labels_app. apply elem_of_app. right. left.
  - exfalso. apply list.NoDup_cons in Hnd as [Ht _]. apply Ht. rewrite labels_app. apply elem_of_app. right. left.
  - f_equal. apply IH; [|done]. destruct y; simpl in Hnd; [by apply list.NoDup_cons in Hnd as [_ ?] | done].
Qed.

Lemma conditional_size limits mf i t lim k :
  printable mf -> Code i ∈ flat (mf_blocks mf) -> relaxable_branch i limits = Some (t, lim, k) -> is_KB k = false -> reach_ok limits ->
  printed_bytes i mf = 4%Z /\ (16 <= lim)%Z.
Proof.
  intros Hp Hin Hr Hk [Hc Ht]. pose proof (relaxable_is_jump _ _ _ _ _ Hr) as Hj. rewrite Hk in Hj. split.
  - unfold printed_bytes. rewrite size_short; [done | done | done | by eapply relaxable_local |]. intros Eo. unfold is_jump in Hj. by rewrite Eo in Hj.
  - revert Hr. unfold relaxable_branch. destruct (opcode i); try done; intros Hr; inv_binds Hr; done.
Qed.

Lemma jump_size mf j : printable mf -> Code j ∈ flat (mf_blocks mf) -> is_jump j = true -> (printed_bytes j mf = 4 \/ printed_bytes j mf = 12)%Z.
Proof.
  intros Hp Hin Hj. unfold is_jump in Hj. unfold printed_bytes. destruct (opcode j) eqn:Eo; try done.
  - left. rewrite size_short; [done | done | done | unfold local_branch; by rewrite Eo | by rewrite Eo].
  - right. by rewrite size_long.
Qed.

Lemma settled_in_reach limits mf p s :
  printable mf -> reach_ok limits -> NoDup (mb_id <$> mf_blocks mf) ->
  overflow_at printed_bytes mf limits p s -> live limits mf s p.
Proof.
  intros Hpr [Hc Ht] Hnd (blk & i & lim & tp & tb & Hp & Hid & Hi & Hr & Htp & Htb & Hlt).
  exists blk, i, lim. split_and!; [done.. | | rewrite <- Htb; apply list_elem_of_fmap_2; by eapply list_elem_of_lookup_2].
  intros Hk. apply not_true_is_false. intros Hset.
  destruct (behind (mf_blocks mf) p blk (os_inst s)) as [|[?|j] [|[u|?] rest]] eqn:Eb; try done.
  simpl in Hset. apply andb_true_iff in Hset as [Hj Hu]. apply bool_decide_eq_true in Hu. subst u.
  pose proof (flat_split _ _ _ _ _ Hp Hi) as F. rewrite Eb in F.
  pose proof (flat_label _ tp tb Htp) as F2. rewrite Htb in F2.
  assert (E : flat (take tp (mf_blocks mf)) = before (mf_blocks mf) p blk (os_inst s) ++ [Code i; Code j]).
  { eapply label_split_unique; [rewrite <- F2, labels_flat; exact Hnd|]. rewrite <- F2, F, <- app_assoc. done. }
  rewrite E, code_bytes_app in Hlt. simpl in Hlt.
  destruct (conditional_size limits mf i _ _ _ Hpr ltac:(rewrite F; set_solver) Hr Hk (conj Hc Ht)) as [Hb4 Hlim].
  pose proof (jump_size mf j Hpr ltac:(rewrite F; set_solver) Hj). lia.
Qed.

(** * Convergence *)

(** Every local branch whose target exists reaches it. *)
Definition in_reach (limits : BranchLimits) (mf : MachineFunction) : Prop :=
  forall pre i post t lim k pre' post',
    flat (mf_blocks mf) = pre ++ Code i :: post -> relaxable_branch i limits = Some (t, lim, k) ->
    flat (mf_blocks mf) = pre' ++ Label t :: post' ->
    (Z.abs (code_bytes printed_bytes mf pre' - code_bytes printed_bytes mf pre) <= lim)%Z.

Lemma no_overflow_in_reach limits mf :
  (forall s p, ~ overflow_at printed_bytes mf limits p s) -> NoDup (mb_id <$> mf_blocks mf) -> in_reach limits mf.
Proof.
  intros Hno Hnd pre i post t lim k pre' post' F Hr F'.
  destruct (flat_position _ _ _ _ F) as (p & blk & idx & Hp & Hi & -> & ->).
  assert (Htin : t ∈ (mb_id <$> mf_blocks mf)).
  { rewrite <- labels_flat, F', labels_app. apply elem_of_app. right. left. }
  apply list_elem_of_fmap in Htin as (tb & -> & Htb). apply list_elem_of_lookup in Htb as [tp Htp].
  assert (E : flat (take tp (mf_blocks mf)) = pre').
  { pose proof (flat_label _ tp tb Htp) as F2. eapply label_split_unique; [rewrite <- F2, labels_flat; exact Hnd|].
    by rewrite <- F2. }
  apply Z.nlt_ge. intros Hlt.
  apply (Hno {| os_block := mb_id blk; os_inst := idx; os_target := mb_id tb; os_kind := k |} p).
  exists blk, i, lim, tp, tb. cbn [os_block os_inst os_target os_kind]. rewrite E. split_and!; done.
Qed.

Section converge.
Context (limits : BranchLimits) (Hreach : reach_ok limits).

Lemma relax_once_spec mf :
relax_ready limits mf ->
exists mf' ch, relax_once_with_limits mf limits = Some (mf', ch) /\ relax_ready limits mf' /\
rtc (widen limits) (flat (mf_blocks mf)) (flat (mf_blocks mf')) /\
(ch = true -> potential limits (flat (mf_blocks mf')) < potential limits (flat (mf_blocks mf)))%nat /\
(ch = false -> mf' = mf /\ in_reach limits mf).
Proof.
intros Hwf. pose proof (rr_nodup _ _ Hwf) as Hnd. pose proof (rr_print _ _ Hwf) as Hpr. unfold relax_once_with_limits.
rewrite (scan_pure mf limits Hpr). cbn [mbind option_bind].
destruct (overflows_spec printed_bytes mf limits Hnd) as (ovs & -> & Hkeys & Hov). cbn [mbind option_bind].
destruct ovs as [|o ovs].
- exists mf, false. split; [done|]. split; [done|]. split; [apply rtc_refl|]. split; [done|]. intros _. split; [done|].
apply no_overflow_in_reach; [|done]. intros s p Hs. apply (not_elem_of_nil s). apply Hov. by exists p.
- destruct (sort_sites_spec limits mf (o :: ovs) Hnd Hkeys) as (l & -> & Hlen & Hlive & Hsort).
{ intros s [p Hs]%Hov. exists p. by eapply settled_in_reach. }
cbn [mbind option_bind]. destruct (expand_all limits mf l Hwf Hlive Hsort) as (mf' & -> & Hwf' & Hrtc & Hpot).
exists mf', true. split; [done|]. split; [done|]. split; [done|]. split; [|done]. intros _. simpl in Hlen. lia.
Qed.

Lemma relax_loop_spec passes mf :
relax_ready limits mf -> (potential limits (flat (mf_blocks mf)) < passes)%nat ->
exists mf', relax_loop passes mf limits = Some mf' /\ relax_ready limits mf' /\
rtc (widen limits) (flat (mf_blocks mf)) (flat (mf_blocks mf')) /\ in_reach limits mf'.
Proof.
revert mf. induction passes as [|passes IH]; intros mf Hwf Hlt; [lia|].
cbn [relax_loop]. destruct (relax_once_spec mf Hwf) as (mf1 & ch & -> & Hwf1 & Hrtc & Ht & Hf). cbn [mbind option_bind].
destruct ch.
- specialize (Ht eq_refl). destruct (IH mf1) as (mf' & E & Hwf' & Hrtc' & Hin); [done | lia |].
exists mf'. split; [done|]. split; [done|]. split; [by etrans | done].
- destruct (Hf eq_refl) as [-> Hin]. by exists mf.
Qed.

Lemma relax_branches_spec mf :
relax_ready limits mf ->
exists mf', relax_branches_with_limits mf limits = Some mf' /\ relax_ready limits mf' /\
rtc (widen limits) (flat (mf_blocks mf)) (flat (mf_blocks mf')) /\ in_reach limits mf'.
Proof.
intros Hwf. apply relax_loop_spec; [done|]. pose proof (potential_count limits (mf_blocks mf)). unfold all_insts. lia.
Qed.
End converge.

(** * Properties *)

(** C24: Branch relaxation converges.  On a function whose instructions print, with
    labels and branch operands on one line each, distinct block ids below its counter
    and ids left for the skip blocks, and for all limits of at least 16 bytes (the
    production limits in particular), no pass panics and the structural bound on the
    number of passes is never exceeded; in the function returned every local branch
    whose target exists is within the limit of its form, measured in the bytes that
    the printer gives every instruction in between, and that function prints. *)
Theorem relaxation_converges limits mf :
  reach_ok limits -> relax_ready limits mf ->
  exists mf', relax_branches_with_limits mf limits = Some mf' /\ in_reach limits mf' /\ is_Some (emit_function mf').
Proof.
  intros Hreach Hwf. destruct (relax_branches_spec limits Hreach mf Hwf) as (mf' & E & Hwf' & _ & H). exists mf'.
  split; [done|]. split; [done|]. apply printable_function, Hwf'.
Qed.

Definition sixteen : BranchLimits := {| lim_cond := 16; lim_tbz := 16; lim_unconditional := 16 |}.

(** A decidable form of [printable]. *)
Definition printableb (mf : MachineFunction) : bool :=
  forallb (fun it => match it with
                     | Label _ => true
                     | Code i => bool_decide (is_Some (emit_inst_into i mf)) &&
                                 (negb (local_branch i) || forallb (fun op => Nat.eqb (newlines (op_str op)) 0) (operands i))
                     end) (flat (mf_blocks mf)) &&
  forallb (fun b => Nat.eqb (newlines (mb_label b)) 0) (mf_blocks mf) &&
  forallb (fun p => Nat.eqb (newlines p.2) 0) (map_to_list (long_branch_labels mf)) &&
  Nat.eqb (newlines (mf_name mf)) 0.

Lemma printableb_spec mf : printableb mf = true -> printable mf.
Proof.
  unfold printableb. rewrite !andb_true_iff, !forallb_forall. setoid_rewrite <- list_elem_of_In. intros [[[Hc Hb] Hl] Hn].
  split.
  - intros i Hi. specialize (Hc _ Hi). simpl in Hc. apply andb_true_iff in Hc as [Hc _]. by apply bool_decide_eq_true in Hc.
  - intros b Hin. by apply Nat.eqb_eq, Hb.
  - intros id l Hid. apply elem_of_map_to_list in Hid. by apply Nat.eqb_eq, (Hl (id, l)).
  - by apply Nat.eqb_eq.
  - intros i op Hi Hlb Hop. specialize (Hc _ Hi). simpl in Hc. apply andb_true_iff in Hc as [_ Hc]. rewrite Hlb in Hc. simpl in Hc.
    rewrite forallb_forall in Hc. apply Nat.eqb_eq, Hc. by apply list_elem_of_In.
Qed.

Lemma far_fn_ready : relax_ready sixteen far_fn.
Proof.
  split.
  - apply (bool_decide_unpack _). vm_compute. exact I.
  - apply printableb_spec. vm_compute. reflexivity.
  - intros id Hid. simpl in Hid. apply elem_of_cons in Hid as [->|Hid]; [done|]. by apply list_elem_of_singleton in Hid as ->.
  - vm_compute. done.
Qed.

Lemma relaxation_converges_witness :
  exists mf', relax_branches_with_limits far_fn sixteen = Some mf' /\ in_reach sixteen mf' /\ is_Some (emit_function mf').
Proof. apply relaxation_converges; [done | apply far_fn_ready]. Defined.
