(* ===== verification/RelaxSem.v ===== *)
(** Branch relaxation leaves every run unchanged.

    Laid-out code runs instruction by instruction: a label is passed, a block that
    ends without a jump falls into the next one.  What an instruction computes and
    which conditions hold are parameters; control flow is the one the opcodes
    document.  A veneer overwrites the intra-procedure scratch register x16 on its way
    to a block, so worlds are compared up to an equivalence that may forget x16, and
    code is required to write x16 before reading it, between one label or local
    branch and the next. *)

From stdpp Require Import sorting pretty.
From S2P Require Import Prelude Slices ArmMir RelaxBranches RelaxFlat RelaxPrint RelaxTotal.
Local Open Scope string_scope.
Local Open Scope list_scope.

Class ArmMachine (world : Type) := {
  holds : ArmCond -> world -> bool;
  is_zero : MachineOperand -> world -> bool;
  bit_set : MachineOperand -> Z -> world -> bool;
  exec : MachineInst -> world -> world;
  veneer : MBlockId -> world -> world;  (** the address of a block in x16 *)
  reads_ip0 : MachineInst -> bool;
  writes_ip0 : MachineInst -> bool }.

Section run.
Context {world : Type} `{!ArmMachine world}.

Inductive flow := Fall | Jump (t : MBlockId) | Leave.

Definition branch_if (c : bool) (t : MBlockId) : flow := if c then Jump t else Fall.

(** Where an instruction transfers control. *)
Definition flow_of (i : MachineInst) (w : world) : flow :=
match opcode i, operands i with
| B, OpBlock t :: _ => Jump t
| B, _ => Leave  (** tail call *)
| BLong, [OpBlock t] => Jump t
| BCond, _ =>
match bcond_target i, bcond_cond i with
| Some t, Some c => branch_if (holds c w) t
| _, _ => Fall
end
| Cbz, reg :: OpBlock t :: _ => branch_if (is_zero reg w) t
| Cbnz, reg :: OpBlock t :: _ => branch_if (negb (is_zero reg w)) t
| Tbz, reg :: OpImm n :: OpBlock t :: _ => branch_if (negb (bit_set reg n w)) t
| Tbnz, reg :: OpImm n :: OpBlock t :: _ => branch_if (bit_set reg n w) t
| Ret, _ => Leave
| _, _ => Fall
end.

(** The world behind an instruction: local branches only move control. *)
Definition world_after (i : MachineInst) (w : world) : world :=
match opcode i, operands i with
| BLong, [OpBlock t] => veneer t w
| B, OpBlock _ :: _ => w
| (BCond | Cbz | Cbnz | Tbz | Tbnz), _ => w
| _, _ => exec i w
end.

(** What follows a label. *)
Fixpoint find_label (t : MBlockId) (l : list item) : option (list item) :=
match l with
| [] => None
| Label b :: l => if decide (b = t) then Some l else find_label t l
| Code _ :: l => find_label t l
end.

(** A run left the function, or ran past its end or to a block that does not exist. *)
Inductive outcome := Left_ (w : world) | Lost (w : world).

Inductive state := At (s : list item) (w : world) | Done (o : outcome).

Definition step (C s : list item) (w : world) : state :=
match s with
| [] => Done (Lost w)
| Label _ :: s => At s w
| Code i :: s =>
let w' := world_after i w in
match flow_of i w with
| Fall => At s w'
| Jump t => match find_label t C with Some s' => At s' w' | None => Done (Lost w') end
| Leave => Done (Left_ w')
end
end.

Fixpoint run (fuel : nat) (C s : list item) (w : world) : option outcome :=
match fuel with
| O => None
| S fuel => match step C s w with At s' w' => run fuel C s' w' | Done o => Some o end
end.

(** Runs of a function from the start of a block. *)
Definition run_from (fuel : nat) (mf : MachineFunction) (b : MBlockId) (w : world) : option outcome :=
s ← find_label b (flat (mf_blocks mf)); run fuel (flat (mf_blocks mf)) s w.

(** * Worlds up to the scratch register *)

Definition is_ip0 (op : MachineOperand) : bool := bool_decide (op = OpPhys (Gp 16) \/ op = OpPhys (Gp32 16)).

(** A branch reads what it names. *)
Definition uses_ip0 (i : MachineInst) : bool := if local_branch i then existsb is_ip0 (operands i) else reads_ip0 i.

(** Whether x16 holds a value of the code itself: not behind a label or a branch. *)
Definition clean_after (c : bool) (it : item) : bool :=
match it with
| Label _ => false
| Code i => negb (local_branch i) && (c || writes_ip0 i)
end.
Definition clean_from (c : bool) (l : list item) : bool := foldl clean_after c l.

(** x16 is written before it is read. *)
Fixpoint ip0_ok (c : bool) (l : list item) : bool :=
match l with
| [] => true
| it :: l => match it with Label _ => true | Code i => c || negb (uses_ip0 i) end && ip0_ok (clean_after c it) l
end.

Class RelaxLaws (eqw : relation world) : Prop := {
eqw_equiv :: Equivalence eqw;
inverse_holds : forall c w, holds (inverse c) w = negb (holds c w);
eqw_veneer : forall t w, eqw (veneer t w) w;
eqw_holds : forall c w w', eqw w w' -> holds c w = holds c w';
eqw_zero : forall op w w', is_ip0 op = false -> eqw w w' -> is_zero op w = is_zero op w';
eqw_bit : forall op n w w', is_ip0 op = false -> eqw w w' -> bit_set op n w = bit_set op n w';
eqw_exec : forall i w w', uses_ip0 i = false -> eqw w w' -> eqw (exec i w) (exec i w');
eqw_write : forall i w w', uses_ip0 i = false -> writes_ip0 i = true -> eqw w w' -> exec i w = exec i w' }.

Context (eqw : relation world) `{!RelaxLaws eqw}.

Definition eqo (o o' : outcome) : Prop :=
match o, o' with Left_ w, Left_ w' | Lost w, Lost w' => eqw w w' | _, _ => False end.

(** Worlds that agree at a place where x16 is clean or not. *)
Definition rel (c : bool) (w w' : world) : Prop := if c then w = w' else eqw w w'.

Lemma rel_eqw c w w' : rel c w w' -> eqw w w'.
Proof. destruct c; simpl; [by intros -> | done]. Qed.

Lemma flow_eqw i w w' : uses_ip0 i = false -> eqw w w' -> flow_of i w = flow_of i w'.
Proof.
intros Hi Hw. unfold uses_ip0, local_branch in Hi. unfold flow_of. destruct (opcode i); try done.
1: { destruct (bcond_target i), (bcond_cond i); try done. by rewrite (eqw_holds _ w w' Hw). }
all: destruct (operands i) as [|r [|[] ?]]; try done; simpl in Hi; apply orb_false_iff in Hi as [H1 _];
try (by rewrite (eqw_zero r w w' H1 Hw)); destruct l as [|[] ?]; try done; by rewrite (eqw_bit r _ w w' H1 Hw).
Qed.

Lemma after_eqw i w w' : uses_ip0 i = false -> eqw w w' -> eqw (world_after i w) (world_after i w').
Proof.
intros Hi Hw. pose proof (eqw_exec i w w' Hi Hw). unfold world_after. destruct (opcode i); try done.
- destruct (operands i) as [|[] ?]; done.
- destruct (operands i) as [|[] [|? ?]]; try done. etrans; [apply eqw_veneer|]. etrans; [exact Hw|]. symmetry. apply eqw_veneer.
Qed.

(** An instruction keeps worlds related and transfers control to the same place. *)
Lemma inst_rel c i w w' :
c || negb (uses_ip0 i) = true -> rel c w w' ->
flow_of i w = flow_of i w' /\ rel (clean_after c (Code i)) (world_after i w) (world_after i w').
Proof.
destruct c; simpl.
{ intros _ ->. split; [done|]. unfold rel. by destruct (_ && _). }
intros Hu%negb_true_iff Hw. split; [by apply flow_eqw|]. destruct (negb (local_branch i) && writes_ip0 i) eqn:Ec; simpl;
[|by apply after_eqw]. apply andb_true_iff in Ec as [Hb Hwr]. pose proof (eqw_write i w w' Hu Hwr Hw) as He.
unfold world_after, local_branch in *. by destruct (opcode i).
Qed.

(** * Control flow of the branches the pass handles *)

Definition taken (k : RelaxKind) (w : world) : bool :=
match k with
| KB => true
| KBCond c => holds c w
| KCbz Cbnz reg => is_zero reg w
| KCbz _ reg => negb (is_zero reg w)
| KTbz Tbnz reg n => negb (bit_set reg n w)
| KTbz _ reg n => bit_set reg n w
end.

Lemma relaxable_flow limits i t lim k w :
relaxable_branch i limits = Some (t, lim, k) -> flow_of i w = branch_if (taken k w) t /\ world_after i w = w.
Proof.
unfold relaxable_branch, flow_of, world_after. destruct (opcode i) eqn:Eo; try done; intros H.
1: { destruct (operands i) as [|[] ?]; simpl in H; try done. by simplify_eq. }
1: { inv_binds H. by rewrite H0, H1. }
all: destruct (operands i) as [|r [|[] ?]]; simpl in H; try done; try (by simplify_eq).
all: destruct l as [|[] ?]; simpl in H; try done; by simplify_eq.
Qed.

Lemma inverted_flow limits i t lim k skip inv w :
relaxable_branch i limits = Some (t, lim, k) -> inverted_branch k skip = Some inv ->
flow_of inv w = branch_if (negb (taken k w)) skip /\ world_after inv w = w.
Proof.
unfold relaxable_branch. destruct (opcode i) eqn:Eo; try done; intros H; inv_binds H; simpl; intros Hinv; simplify_eq;
unfold flow_of, world_after; simpl; rewrite ?inverse_holds, ?negb_involutive; done.
Qed.

(** * Code the pass may be given *)

(** x16 is written before it is read, and every block named exists. *)
Record relax_code (C : list item) : Prop := {
rc_ip0 : ip0_ok false C = true;
rc_targets : forall i t, Code i ∈ C -> OpBlock t ∈ operands i -> t ∈ labels C }.

Lemma ip0_ok_app c l1 l2 : ip0_ok c (l1 ++ l2) = ip0_ok c l1 && ip0_ok (clean_from c l1) l2.
Proof. revert c. induction l1 as [|x l1 IH]; intros c; [done|]. simpl. by rewrite IH, andb_assoc. Qed.

Lemma clean_from_snoc c l x : clean_from c (l ++ [x]) = clean_after (clean_from c l) x.
Proof. apply foldl_snoc. Qed.

Lemma relaxable_operands limits i t lim k :
relaxable_branch i limits = Some (t, lim, k) ->
OpBlock t ∈ operands i /\ match k with KCbz _ reg | KTbz _ reg _ => reg ∈ operands i | _ => True end.
Proof.
unfold relaxable_branch. destruct (opcode i) eqn:Eo; try done; intros H.
1: { destruct (operands i) as [|[] ?]; simpl in H; try done. simplify_eq. split; [left | done]. }
1: { inv_binds H. split; [|done]. apply head_Some_elem_of in H0. apply list_elem_of_omap in H0 as (op & Hin & Hop).
destruct op; try done. by simplify_eq. }
all: destruct (operands i) as [|r [|[] ?]]; simpl in H; try done; try (simplify_eq; split; [right; left | left]).
all: destruct l as [|[] ?]; simpl in H; try done; simplify_eq; (split; [right; right; left | left]).
Qed.

(** An inverted branch reads no more than the branch it replaces. *)
Lemma inverted_uses limits i t lim k skip inv :
relaxable_branch i limits = Some (t, lim, k) -> inverted_branch k skip = Some inv ->
local_branch inv = true /\ (uses_ip0 i = false -> uses_ip0 inv = false).
Proof.
intros Hr Hinv. destruct (inverted_relaxable limits _ _ _ _ _ _ Hr Hinv) as (l' & k' & Hr' & _).
pose proof (relaxable_local _ _ _ _ _ Hr') as Hl. split; [done|]. unfold uses_ip0. rewrite Hl, (relaxable_local _ _ _ _ _ Hr).
destruct (relaxable_operands _ _ _ _ _ Hr) as [_ Hk]. intros Hno.
assert (Hreg : forall r, r ∈ operands i -> is_ip0 r = false).
{ intros r Hin. apply not_true_is_false. intros Hr16. apply not_true_iff_false in Hno. apply Hno, existsb_exists.
exists r. split; [by apply list_elem_of_In | done]. }
destruct k; simpl in Hinv; simplify_eq; simpl; rewrite ?(Hreg _ Hk); done.
Qed.

Lemma jump_operand i w t : flow_of i w = Jump t -> OpBlock t ∈ operands i.
Proof.
unfold flow_of, branch_if. destruct (opcode i); try done.
1: { destruct (operands i) as [|[] ?]; try done. intros [= ->]. left. }
1: { destruct (operands i) as [|[] [|? ?]]; try done. intros [= ->]. left. }
1: { unfold bcond_target. destruct (bcond_cond i) as [c|]; [|by destruct (head _)].
destruct (head _) as [u|] eqn:Eh; [|done]. destruct (holds c w); [|done]. intros [= ->].
apply head_Some_elem_of in Eh. apply list_elem_of_omap in Eh as (op & Hin & Hop). destruct op; try done. by simplify_eq. }
1, 2: destruct (operands i) as [|r [|[] ?]]; try done; destruct (is_zero r w); simpl; try done; intros [= ->]; right; left.
all: destruct (operands i) as [|r [|[] [|[] ?]]]; try done; destruct (bit_set r _ w); simpl; try done; intros [= ->]; right; right; left.
Qed.

(** * One replacement *)

Lemma find_label_app u l1 l2 :
find_label u (l1 ++ l2) = match find_label u l1 with Some s => Some (s ++ l2) | None => find_label u l2 end.
Proof. induction l1 as [|[b|j] l1 IH]; simpl; [done | by case_decide | done]. Qed.

Lemma find_label_None u l : find_label u l = None <-> u ∉ labels l.
Proof.
induction l as [|[b|j] l IH]; simpl; [split; [intros _; apply not_elem_of_nil | done] | | done].
case_decide as Hb; rewrite not_elem_of_cons; [split; [done | intros [? _]; congruence] | rewrite IH; naive_solver].
Qed.

Lemma find_label_Some u l s : find_label u l = Some s -> exists l1, l = l1 ++ Label u :: s.
Proof.
induction l as [|[b|j] l IH]; simpl; [done | |].
- case_decide as Hb; [intros [= ->]; exists []; by subst|]. intros H. destruct (IH H) as [l1 ->]. by exists (Label b :: l1).
- intros H. destruct (IH H) as [l1 ->]. by exists (Code j :: l1).
Qed.

Lemma step_jump C j s w u s' :
flow_of j w = Jump u -> find_label u C = Some s' -> step C (Code j :: s) w = At s' (world_after j w).
Proof. intros Ef El. unfold step. by rewrite Ef, El. Qed.

Section widen.
Context (limits : BranchLimits) (pre post : list item) (i : MachineInst) (t : MBlockId) (lim : Z) (k : RelaxKind).
Context (skip : MBlockId) (E : list item).
Context (Hr : relaxable_branch i limits = Some (t, lim, k)) (HE : expansion k t skip = Some E).

Local Abbreviation C := (pre ++ Code i :: post).
Local Abbreviation C' := (pre ++ E ++ post).

Context (Hskip : is_KB k = false -> skip ∉ labels C) (HC : relax_code C).

(** The same place in both codes, before the branch or behind it, and whether x16 is clean there. *)
Inductive same_place : bool -> list item -> list item -> Prop :=
| place_before p1 p2 : pre = p1 ++ p2 -> same_place (clean_from false p1) (p2 ++ Code i :: post) (p2 ++ E ++ post)
| place_behind p1 p2 : post = p1 ++ p2 -> same_place (clean_from false p1) p2 p2.

Lemma labels_E : labels E = if is_KB k then [] else [skip].
Proof. destruct k; simpl in HE; simplify_eq; done. Qed.

Lemma find_same u : u ∈ labels C -> exists s s', find_label u C = Some s /\ find_label u C' = Some s' /\ same_place false s s'.
Proof.
intros Hu. rewrite !find_label_app. destruct (find_label u pre) as [s|] eqn:Ep.
- exists (s ++ Code i :: post), (s ++ E ++ post). split; [done|]. split; [done|].
apply find_label_Some in Ep as [l Hl]. rewrite <- (clean_from_snoc false l (Label u)) at 1. apply place_before. by rewrite <- app_assoc.
- rewrite find_label_None in Ep. rewrite labels_app in Hu. apply elem_of_app in Hu as [Hu|Hu]; [done|].
assert (find_label u E = None) as ->.
{ apply find_label_None. rewrite labels_E. destruct (is_KB k) eqn:Hk; [apply not_elem_of_nil|].
intros ->%list_elem_of_singleton. apply (Hskip eq_refl). rewrite labels_app. apply elem_of_app. by right. }
simpl in Hu |- *. destruct (find_label u post) as [s|] eqn:Es; [|by rewrite find_label_None in Es].
exists s, s. split; [done|]. split; [done|]. apply find_label_Some in Es as [l Hl].
rewrite <- (clean_from_snoc false l (Label u)) at 1. apply place_behind. by rewrite <- app_assoc.
Qed.

Lemma find_skip : is_KB k = false -> find_label skip C' = Some post.
Proof.
intros Hk. specialize (Hskip Hk). rewrite labels_app in Hskip. apply not_elem_of_app in Hskip as [Hp _].
rewrite !find_label_app. rewrite (proj2 (find_label_None skip pre) Hp).
destruct (expansion_jump limits _ _ _ _ _ _ Hr HE Hk) as (inv & _ & _ & ->). simpl. by rewrite decide_True.
Qed.

(** Steps of the widened code. *)
Definition reaches (st st' : list item * world) : Prop := tc (fun a b => step C' a.1 a.2 = At b.1 b.2) st st'.

(** Related states, and what matches a step of the original code. *)
Inductive related : list item -> world -> list item -> world -> Prop :=
| related_at c s s' w w' : same_place c s s' -> rel c w w' -> related s w s' w'.

Definition matched (st : state) (s' : list item) (w' : world) : Prop :=
match st with
| At s1 w1 => exists s1' w1', reaches (s', w') (s1', w1') /\ related s1 w1 s1' w1'
| Done o => exists o', step C' s' w' = Done o' /\ eqo o o'
end.

(** An item both codes have. *)
Lemma common_step c x r r' w w' :
match x with Label _ => True | Code j => c || negb (uses_ip0 j) = true /\ Code j ∈ C end ->
same_place (clean_after c x) r r' -> rel c w w' -> matched (step C (x :: r) w) (x :: r') w'.
Proof.
intros Hx Hrr Hw. destruct x as [b|j]; simpl.
{ exists r', w'. split; [by apply tc_once|]. apply (related_at false); [done | by eapply rel_eqw]. }
destruct Hx as [Hu Hj]. destruct (inst_rel c j w w' Hu Hw) as [Ef Ha]. rewrite Ef. destruct (flow_of j w') as [|u|] eqn:Eu.
- exists r', (world_after j w'). split; [apply tc_once; simpl; by rewrite Eu|]. by eapply related_at.
- apply jump_operand in Eu as Hin. destruct (find_same u) as (s1 & s1' & E1 & E2 & Hss); [by eapply (rc_targets _ HC)|]. rewrite E1.
exists s1', (world_after j w'). split; [apply tc_once; by apply (step_jump _ j _ _ u)|].
apply (related_at false); [done | by eapply rel_eqw].
- exists (Left_ (world_after j w')). simpl. rewrite Eu. split; [done|]. by eapply rel_eqw.
Qed.

(** The branch itself. *)
Lemma branch_step c w w' :
c || negb (uses_ip0 i) = true -> rel c w w' -> matched (step C (Code i :: post) w) (E ++ post) w'.
Proof.
intros Hu Hw. pose proof find_skip as Hfs. pose proof (rel_eqw c w w' Hw) as Hw0. destruct (inst_rel c i w w' Hu Hw) as [Eflow _].
destruct (relaxable_flow limits i t lim k w Hr) as [_ Ew]. destruct (relaxable_flow limits i t lim k w' Hr) as [Ef _].
destruct (relaxable_operands _ _ _ _ _ Hr) as [Hop _].
assert (Ht : t ∈ labels C) by (apply (rc_targets _ HC i); [set_solver | done]).
destruct (find_same t Ht) as (s1 & s1' & E1 & E2 & Hss).
unfold step. rewrite Ew, Eflow, Ef. unfold branch_if in *. destruct (is_KB k) eqn:Hk.
- assert (Et : taken k w' = true) by (by destruct k). rewrite Et. rewrite E1.
assert (HEq : E = [Code (branch_inst BLong [OpBlock t])]) by (clear -Hk HE; destruct k; simpl in HE; by simplify_eq).
exists s1', (veneer t w'). split.
+ apply tc_once. cbn [fst snd]. rewrite HEq at 2. apply (step_jump _ (branch_inst BLong [OpBlock t]) _ _ t); [done | exact E2].
+ apply (related_at false); [done|]. simpl. etrans; [exact Hw0|]. symmetry. apply eqw_veneer.
- destruct (expansion_jump limits _ _ _ _ _ _ Hr HE Hk) as (inv & Hinv & _ & HEq).
destruct (inverted_flow limits i t lim k skip inv w' Hr Hinv) as [Fi Wi]. destruct (taken k w') eqn:Et; simpl in Fi.
+ rewrite E1. exists s1', w'. split; [|by apply (related_at false)]. eapply tc_l; [|apply tc_once].
* instantiate (1 := (Code (branch_inst B [OpBlock t]) :: Label skip :: post, w')). rewrite HEq. simpl. by rewrite Fi, Wi.
* apply (step_jump _ (branch_inst B [OpBlock t]) _ _ t); [done | exact E2].
+ exists post, w'. split; [|apply (related_at false); [by apply (place_behind []) | done]]. apply tc_once.
cbn [fst snd]. rewrite HEq at 2. rewrite <- Wi at 2. apply (step_jump _ inv _ _ skip); [done | by apply Hfs].
Qed.

Lemma ip0_ok_at c p j r : ip0_ok c (p ++ Code j :: r) = true -> clean_from c p || negb (uses_ip0 j) = true.
Proof. rewrite ip0_ok_app. intros [_ H]%andb_true_iff. simpl in H. by apply andb_true_iff in H as [H _]. Qed.

(** A step of the original is matched by at least one step of the widened code. *)
Lemma widen_step s s' w w' : related s w s' w' -> matched (step C s w) s' w'.
Proof.
intros [c s0 s0' w0 w0' Hs Hw]. pose proof (rc_ip0 _ HC) as Hok. destruct Hs as [p1 p2 Hpre|p1 p2 Hpost].
- destruct p2 as [|x p2].
{ eapply branch_step; [|done]. rewrite app_nil_r in Hpre. rewrite Hpre in Hok. by apply ip0_ok_at in Hok. }
apply (common_step (clean_from false p1)); [|rewrite <- clean_from_snoc; apply place_before; by rewrite <- app_assoc | done].
destruct x as [b|j]; [done|]. rewrite Hpre, <- app_assoc in Hok. apply ip0_ok_at in Hok. rewrite Hpre. set_solver.
- destruct p2 as [|x p2]; [exists (Lost w0'); by split; [|eapply rel_eqw]|].
apply (common_step (clean_from false p1)); [|rewrite <- clean_from_snoc; apply place_behind; by rewrite <- app_assoc | done].
destruct x as [b|j]; [done|]. split; [|rewrite Hpost; set_solver].
rewrite Hpost in Hok. rewrite app_comm_cons, app_assoc in Hok. apply ip0_ok_at in Hok.
unfold clean_from in Hok. rewrite foldl_app in Hok. simpl in Hok. by rewrite (relaxable_local _ _ _ _ _ Hr) in Hok.
Qed.

(** The widened code may be widened again. *)
Lemma widen_code : relax_code C'.
Proof.
destruct HC as [Hok Htgt]. destruct (relaxable_operands _ _ _ _ _ Hr) as [Hop _].
pose proof (relaxable_local _ _ _ _ _ Hr) as Hl.
assert (Hlab : forall u, u ∈ labels C -> u ∈ labels C').
{ intros u. rewrite !labels_app. simpl. set_solver. }
assert (Ht : t ∈ labels C) by (apply (Htgt i); [set_solver | done]).
rewrite ip0_ok_app in Hok. apply andb_true_iff in Hok as [Hpre Hok]. simpl in Hok. rewrite Hl in Hok. simpl in Hok.
apply andb_true_iff in Hok as [Hi Hpost].
assert (HE' : ip0_ok (clean_from false pre) E = true /\ clean_from (clean_from false pre) E = false /\
forall j u, Code j ∈ E -> OpBlock u ∈ operands j -> u ∈ labels C').
{ destruct (is_KB k) eqn:Hk.
- assert (E = [Code (branch_inst BLong [OpBlock t])]) as -> by (clear -Hk HE; destruct k; simpl in HE; by simplify_eq).
split; [by destruct (clean_from false pre)|]. split; [done|]. intros j u [= ->]%list_elem_of_singleton Hu.
apply list_elem_of_singleton in Hu. simplify_eq. by apply Hlab.
- destruct (expansion_jump limits _ _ _ _ _ _ Hr HE Hk) as (inv & Hinv & _ & HEq).
destruct (inverted_uses _ _ _ _ _ _ _ Hr Hinv) as [Hl' Hu]. rewrite HEq at 1 2. simpl. rewrite Hl'. split; [|split; [done|]].
+ rewrite andb_true_r. destruct (clean_from false pre); [done|]. apply negb_true_iff in Hi. by rewrite Hu.
+ intros j u Hj Hop'. rewrite HEq in Hj. apply elem_of_cons in Hj as [Ej|Hj].
* injection Ej as ->. assert (u = skip \/ OpBlock u ∈ operands i) as [->|Hin].
{ destruct (relaxable_operands _ _ _ _ _ Hr) as [_ Hreg]. clear - Hinv Hop' Hreg.
destruct k; simpl in Hinv; simplify_eq; simpl in Hop'; set_solver. }
-- rewrite HEq, !labels_app. simpl. set_solver.
-- apply Hlab, (Htgt i); [set_solver | done].
* apply elem_of_cons in Hj as [Ej|Hj]; [|by apply list_elem_of_singleton in Hj].
injection Ej as ->. apply list_elem_of_singleton in Hop'. simplify_eq. by apply Hlab. }
destruct HE' as (H1 & H2 & H3). split.
- by rewrite !ip0_ok_app, Hpre, H1, H2, Hpost.
- intros j u Hj Hu. apply elem_of_app in Hj as [Hj|[Hj|Hj]%elem_of_app]; [| by eapply H3 |];
apply Hlab, (Htgt j u); [set_solver | done | set_solver | done].
Qed.
(** Runs along steps of the widened code. *)
Lemma run_reaches st st' : reaches st st' ->
(forall n o, run n C' st'.1 st'.2 = Some o -> exists m, run m C' st.1 st.2 = Some o) /\
(forall m o, run m C' st.1 st.2 = Some o -> exists n, (n < m)%nat /\ run n C' st'.1 st'.2 = Some o).
Proof.
assert (Hone : forall a b, step C' a.1 a.2 = At b.1 b.2 ->
(forall n o, run n C' b.1 b.2 = Some o -> exists m, run m C' a.1 a.2 = Some o) /\
(forall m o, run m C' a.1 a.2 = Some o -> exists n, (n < m)%nat /\ run n C' b.1 b.2 = Some o)).
{ intros a b Hab. split.
- intros n o Hn. exists (S n). cbn [run]. by rewrite Hab.
- intros [|m] o Hm; [done|]. cbn [run] in Hm. rewrite Hab in Hm. exists m. split; [lia | done]. }
induction 1 as [a b Hab|a b d Hab Hbd IH]; [by apply Hone|]. destruct (Hone a b Hab) as [F1 B1], IH as [F2 B2]. split.
- intros n o (m & Hm)%F2. by eapply F1.
- intros m o (n & Hn & Hr1)%B1. apply B2 in Hr1 as (n' & Hn' & Hr2). exists n'. split; [lia | done].
Qed.

Lemma widen_forward n s s' w w' o :
related s w s' w' -> run n C s w = Some o -> exists m o', run m C' s' w' = Some o' /\ eqo o o'.
Proof.
revert s s' w w'. induction n as [|n IH]; intros s s' w w' Hrel Hn; [done|]. cbn [run] in Hn.
pose proof (widen_step s s' w w' Hrel) as Hm. destruct (step C s w) as [s1 w1|o1]; simpl in Hm.
- destruct Hm as (s1' & w1' & Hre & Hrel1). destruct (IH _ _ _ _ Hrel1 Hn) as (m & o' & Hm & Ho).
apply (proj1 (run_reaches _ _ Hre)) in Hm as [m' Hm']. by exists m', o'.
- destruct Hm as (o' & Hst & Ho). exists 1%nat, o'. cbn [run]. rewrite Hst. by simplify_eq.
Qed.

Lemma widen_backward m s s' w w' o' :
related s w s' w' -> run m C' s' w' = Some o' -> exists n o, run n C s w = Some o /\ eqo o o'.
Proof.
revert s s' w w'. induction m as [m IH] using (well_founded_induction lt_wf). intros s s' w w' Hrel Hrun.
pose proof (widen_step s s' w w' Hrel) as Hm. destruct (step C s w) as [s1 w1|o1] eqn:Est; simpl in Hm.
- destruct Hm as (s1' & w1' & Hre & Hrel1). apply (proj2 (run_reaches _ _ Hre)) in Hrun as (m' & Hlt & Hrun).
destruct (IH m' Hlt _ _ _ _ Hrel1 Hrun) as (n & o & Hn & Ho). exists (S n), o. cbn [run]. by rewrite Est.
- destruct Hm as (o2 & Hst & Ho). destruct m as [|m]; [done|]. cbn [run] in Hrun. rewrite Hst in Hrun. simplify_eq.
exists 1%nat, o1. cbn [run]. by rewrite Est.
Qed.
End widen.

(** * The whole pass *)

(** The code at a block, run to its end. *)
Definition ends (C : list item) (b : MBlockId) (w : world) (o : outcome) : Prop :=
exists n s, find_label b C = Some s /\ run n C s w = Some o.

(** Both codes end the same way from every block of the first, or neither ends. *)
Definition same_ends (C C' : list item) : Prop :=
forall b w, b ∈ labels C -> b ∈ labels C' /\
(forall o, ends C b w o -> exists o', ends C' b w o' /\ eqo o o') /\
(forall o', ends C' b w o' -> exists o, ends C b w o /\ eqo o o').

Lemma eqo_refl o : eqo o o.
Proof. by destruct o; simpl. Qed.

Lemma eqo_trans o1 o2 o3 : eqo o1 o2 -> eqo o2 o3 -> eqo o1 o3.
Proof. destruct o1, o2, o3; simpl; try done; by etrans. Qed.

Lemma widen_ends limits C C' : widen limits C C' -> relax_code C -> relax_code C' /\ same_ends C C'.
Proof.
intros [pre i post t lim k skip E Hr HE Hc] HC.
assert (Hskip : is_KB k = false -> skip ∉ labels (pre ++ Code i :: post)) by (intros Hk; by apply Hc).
split; [by eapply widen_code|]. intros b w Hb.
destruct (find_same limits pre post i t lim k skip E Hr HE Hskip b Hb) as (s & s' & E1 & E2 & Hss).
split; [apply dec_stable; intros Hno; apply find_label_None in Hno; congruence|].
pose proof (related_at pre post i E false s s' w w Hss (reflexivity w)) as Hrel. split.
- intros o (n & s0 & Hs0 & Hn). rewrite E1 in Hs0. simplify_eq.
eapply widen_forward in Hn as (m & o' & Hm & Ho); [|done..]. exists o'. split; [by exists m, s' | done].
- intros o' (n & s0 & Hs0 & Hn). rewrite E2 in Hs0. simplify_eq.
eapply widen_backward in Hn as (m & o & Hm & Ho); [|done..]. exists o. split; [by exists m, s | done].
Qed.

Lemma widens_ends limits C C' : rtc (widen limits) C C' -> relax_code C -> same_ends C C'.
Proof.
induction 1 as [C|C C1 C' Hw Hws IH]; intros HC.
{ intros b w Hb. split; [done|]. split; intros o Ho; exists o; (split; [done | apply eqo_refl]). }
destruct (widen_ends limits _ _ Hw HC) as [HC1 H1]. specialize (IH HC1). intros b w Hb.
destruct (H1 b w Hb) as (Hb1 & F1 & B1), (IH b w Hb1) as (Hb' & F2 & B2). split; [done|]. split.
- intros o (o1 & Ho1 & Hq1)%F1. apply F2 in Ho1 as (o2 & Ho2 & Hq2). exists o2. split; [done | by eapply eqo_trans].
- intros o (o1 & Ho1 & Hq1)%B2. apply B1 in Ho1 as (o2 & Ho2 & Hq2). exists o2. split; [done | by eapply eqo_trans].
Qed.

Lemma ends_run_from mf b w o : ends (flat (mf_blocks mf)) b w o <-> exists n, run_from n mf b w = Some o.
Proof.
unfold ends, run_from. split.
- intros (n & s & Hs & Hn). exists n. by rewrite Hs.
- intros (n & Hn). destruct (find_label b (flat (mf_blocks mf))) as [s|]; [|done]. by exists n, s.
Qed.
End run.

(** * Properties *)

(** C23: Branch relaxation preserves behaviour.  Let x16 be written before it is read
    between one label or local branch and the next, let every block that an
    instruction names exist, and let inverse conditions be complementary.  Then the
    relaxed function exists, and from the start of every original block in every
    world its run ends if and only if the original run does, in the same way (leaving
    the function, or falling off its end) and in worlds equal up to x16: inverted
    branches, skip blocks split off in the middle of a block, and veneers change
    neither what is executed nor whether execution terminates. *)
Theorem relaxation_preserves {world} `{!ArmMachine world} (eqw : relation world) limits mf :
  RelaxLaws eqw -> reach_ok limits -> relax_ready limits mf -> relax_code (flat (mf_blocks mf)) ->
  exists mf', relax_branches_with_limits mf limits = Some mf' /\ forall b w, b ∈ (mb_id <$> mf_blocks mf) ->
    (forall n o, run_from n mf b w = Some o -> exists n' o', run_from n' mf' b w = Some o' /\ eqo eqw o o') /\
    (forall n' o', run_from n' mf' b w = Some o' -> exists n o, run_from n mf b w = Some o /\ eqo eqw o o').
Proof.
  intros Hlaws Hreach Hwf HC. destruct (relax_branches_spec limits Hreach mf Hwf) as (mf' & E & _ & Hws & _).
  exists mf'. split; [done|]. intros b w Hb. rewrite <- labels_flat in Hb.
  destruct (widens_ends eqw limits _ _ Hws HC b w Hb) as (_ & F & B). split.
  - intros n o Hn. destruct (F o) as (o' & Ho' & Hq); [apply ends_run_from; by exists n|].
    apply ends_run_from in Ho' as [n' Hn']. by exists n', o'.
  - intros n' o' Hn. destruct (B o') as (o & Ho & Hq); [apply ends_run_from; by exists n'|].
    apply ends_run_from in Ho as [n Hn']. by exists n, o.
Qed.

(** A machine with the flags of one comparison and the general registers. *)
Record toy := { toy_cmp : Z; toy_regs : gmap N Z }.

Definition toy_reg (op : MachineOperand) (w : toy) : Z :=
  match op with OpPhys (Gp n | Gp32 n) => default 0%Z (toy_regs w !! n) | _ => 0%Z end.

Definition toy_holds (c : ArmCond) (w : toy) : bool :=
  match c with
  | CEq => Z.eqb (toy_cmp w) 0 | CNe => negb (Z.eqb (toy_cmp w) 0)
  | CHs | CPl | CGe => Z.leb 0 (toy_cmp w) | CLo | CMi | CLt => negb (Z.leb 0 (toy_cmp w))
  | CHi | CGt => Z.ltb 0 (toy_cmp w) | CLs | CLe => negb (Z.ltb 0 (toy_cmp w))
  end.

Definition set_reg (n : N) (v : Z) (w : toy) : toy := {| toy_cmp := toy_cmp w; toy_regs := <[n := v]> (toy_regs w) |}.

Definition toy_exec (i : MachineInst) (w : toy) : toy :=
  match opcode i, operands i with
  | MovImm, [OpPhys (Gp d); OpImm v] => set_reg d v w
  | AddReg, [OpPhys (Gp d); a; b] => set_reg d (toy_reg a w + toy_reg b w) w
  | CmpImm, [a; OpImm v] => {| toy_cmp := toy_reg a w - v; toy_regs := toy_regs w |}
  | _, _ => w
  end.

#[export] Instance toy_machine : ArmMachine toy := {
  holds := toy_holds;
  is_zero op w := Z.eqb (toy_reg op w) 0;
  bit_set op n w := Z.testbit (toy_reg op w) n;
  exec := toy_exec;
  veneer t w := set_reg 16 (Z.of_N t) w;
  reads_ip0 i := existsb is_ip0 (match opcode i, operands i with (MovImm | AddReg), _ :: ops => ops | _, ops => ops end);
  writes_ip0 i := match opcode i, operands i with MovImm, [OpPhys (Gp d); OpImm _] => N.eqb d 16 | _, _ => false end }.

Definition toy_eq (w w' : toy) : Prop := toy_cmp w = toy_cmp w' /\ forall n, n <> 16%N -> toy_regs w !! n = toy_regs w' !! n.

Lemma toy_reg_eq op w w' : is_ip0 op = false -> toy_eq w w' -> toy_reg op w = toy_reg op w'.
Proof.
  intros Hop [_ Hw]. unfold is_ip0 in Hop. apply bool_decide_eq_false in Hop.
  destruct op as [|[n|n| | | | |]| | | | | | | |]; simpl; try done; rewrite Hw; [done| | done|]; intros ->; apply Hop; auto.
Qed.

Lemma toy_set n v w w' : toy_eq w w' -> toy_eq (set_reg n v w) (set_reg n v w').
Proof.
  intros [Hc Hw]. split; [done|]. intros m Hm. simpl. destruct (decide (m = n)) as [->|]; [by rewrite !lookup_insert_eq|].
  by rewrite !lookup_insert_ne by done; apply Hw.
Qed.

#[export] Instance toy_laws : RelaxLaws toy_eq.
Proof.
  split.
  - split; [done | intros w w' [Hc Hw]; split; [done | intros n Hn; by rewrite Hw] |].
    intros w1 w2 w3 [Hc1 H1] [Hc2 H2]. split; [by rewrite Hc1 | intros n Hn; by rewrite H1, H2].
  - intros c w. change (toy_holds (inverse c) w = negb (toy_holds c w)). destruct c; simpl; by rewrite ?negb_involutive.
  - intros t w. split; [done|]. intros n Hn. simpl. by rewrite lookup_insert_ne.
  - intros c w w' [Hc _]. change (toy_holds c w = toy_holds c w'). unfold toy_holds. by rewrite Hc.
  - intros op w w' Hop Hw. simpl. by rewrite (toy_reg_eq op w w').
  - intros op n w w' Hop Hw. simpl. by rewrite (toy_reg_eq op w w').
  - intros i w w' Hu Hw. unfold uses_ip0, local_branch in Hu. simpl in *. unfold toy_exec.
    destruct (opcode i); try done.
    + destruct (operands i) as [|[|[d| | | | | |]| | | | | | | |] [|a [|b [|? ?]]]]; try done.
      simpl in Hu. apply orb_false_iff in Hu as [Ha Hb]. apply orb_false_iff in Hb as [Hb _].
      rewrite (toy_reg_eq a w w' Ha Hw), (toy_reg_eq b w w' Hb Hw). by apply toy_set.
    + destruct (operands i) as [|a [|[] [|? ?]]]; try done. simpl in Hu. apply orb_false_iff in Hu as [Ha _].
      split; [by simpl; rewrite (toy_reg_eq a w w' Ha Hw) | apply Hw].
    + destruct (operands i) as [|[|[d| | | | | |]| | | | | | | |] [|[] [|? ?]]]; try done. by apply toy_set.
  - intros i w w' _ Hwr [Hc Hw]. simpl in *. unfold toy_exec. destruct (opcode i); try done.
    destruct (operands i) as [|[|[d| | | | | |]| | | | | | | |] [|[] [|? ?]]]; try done.
    apply N.eqb_eq in Hwr as ->.
    unfold set_reg. rewrite Hc. f_equal. apply map_eq. intros n. destruct (decide (n = 16%N)) as [->|Hn]; [by rewrite !lookup_insert_eq|].
    rewrite !lookup_insert_ne by done. by apply Hw.
Qed.

(** A branch out of reach over code that uses x16. *)
Definition scratch_fn : MachineFunction :=
  with_next_block
    (with_blocks (new_machine_function "f")
      [{| mb_id := 0; mb_label := "_f";
          mb_insts := [branch_inst CmpImm [OpPhys (Gp 0); OpImm 5]; branch_inst BCond [OpCond CEq; OpBlock 1]] ++
            [branch_inst MovImm [OpPhys (Gp 16); OpImm 7]; branch_inst AddReg [OpPhys (Gp 0); OpPhys (Gp 0); OpPhys (Gp 16)]] ++
            replicate 4 (branch_inst Nop []) |};
       {| mb_id := 1; mb_label := "Lf_1"; mb_insts := [branch_inst Ret []] |}]) 2.

Lemma scratch_fn_ready : relax_ready sixteen scratch_fn.
Proof.
  split.
  - apply (bool_decide_unpack _). vm_compute. exact I.
  - apply printableb_spec. vm_compute. reflexivity.
  - intros id Hid. simpl in Hid. apply elem_of_cons in Hid as [->|Hid]; [done|]. by apply list_elem_of_singleton in Hid as ->.
  - vm_compute. done.
Qed.

Lemma scratch_fn_code : relax_code (flat (mf_blocks scratch_fn)).
Proof.
  split; [vm_compute; reflexivity|]. intros i t Hi Ht.
  assert (H : Forall (fun it => match it with Code j => Forall (fun op => match op with OpBlock u => u ∈ [0; 1]%N | _ => True end) (operands j)
    | Label _ => True end) (flat (mf_blocks scratch_fn))) by (repeat constructor).
  rewrite list.Forall_forall in H. specialize (H _ Hi). simpl in H. rewrite list.Forall_forall in H. exact (H _ Ht).
Qed.

Lemma relaxation_preserves_witness :
  exists mf', relax_branches_with_limits scratch_fn sixteen = Some mf' /\
    forall b w, b ∈ (mb_id <$> mf_blocks scratch_fn) ->
    (forall n o, run_from n scratch_fn b w = Some o -> exists n' o', run_from n' mf' b w = Some o' /\ eqo toy_eq o o') /\
    (forall n' o', run_from n' mf' b w = Some o' -> exists n o, run_from n scratch_fn b w = Some o /\ eqo toy_eq o o').
Proof.
  apply (relaxation_preserves toy_eq sixteen scratch_fn);
    [apply _ | done | apply scratch_fn_ready | apply scratch_fn_code].
Defined.
