(* ===== verification/Tokens.v ===== *)
(** Tokens (src/src/lexer/mod.rs) and the ASCII case folding of the Rust standard
    library that the front end uses on their texts.  Source spans are left out: they
    only reach diagnostics. *)

From Stdlib Require Import Ascii.
From S2P Require Import Prelude.

Inductive TokenKind :=
| TIntegerLiteral | TRealLiteral | TStringLiteral | TBozLiteral | TLogicalLiteral
| TIdentifier
| TPlus | TMinus | TStar | TSlash | TPower | TConcat
| TEq | TNe | TLt | TGt | TLe | TGe
| TDotOp (name : string) | TDefinedOp (name : string)
| TLParen | TRParen | TLBracket | TRBracket | TComma | TColon | TColonColon | TSemicolon
| TPercent | TQuestion | TArrow | TAssign | TAmpersand
| TNewline | TComment | TOmpDirective | TEof.

#[global] Instance TokenKind_eq_dec : EqDecision TokenKind.
Proof. solve_decision. Defined.

Record Token := { tok_kind : TokenKind; tok_text : string }.

#[global] Instance Token_eq_dec : EqDecision Token.
Proof. solve_decision. Defined.

(** [to_ascii_lowercase] of a byte and of a string. *)
Definition lower_ascii (c : ascii) : ascii :=
  let n := nat_of_ascii c in if (65 <=? n)%nat && (n <=? 90)%nat then ascii_of_nat (n + 32) else c.

Fixpoint to_ascii_lowercase (s : string) : string :=
  match s with EmptyString => EmptyString | String c s => String (lower_ascii c) (to_ascii_lowercase s) end.

Definition eq_ignore_ascii_case (s t : string) : bool := bool_decide (to_ascii_lowercase s = to_ascii_lowercase t).

Lemma lower_ascii_idem c : lower_ascii (lower_ascii c) = lower_ascii c.
Proof. by destruct c as [[] [] [] [] [] [] [] []]. Qed.

Lemma to_ascii_lowercase_idem s : to_ascii_lowercase (to_ascii_lowercase s) = to_ascii_lowercase s.
Proof. induction s as [|c s IH]; [done|]. simpl. by rewrite lower_ascii_idem, IH. Qed.

(** [slice::split]: the pieces between the elements that satisfy [p]. *)
Fixpoint split_slice {A} (p : A -> bool) (l : list A) : list (list A) :=
  match l with
  | [] => [[]]
  | x :: l =>
      if p x then [] :: split_slice p l
      else match split_slice p l with piece :: rest => (x :: piece) :: rest | [] => [[x]] end
  end.
