(* ===== verification/DepScan.v ===== *)
(** The dependency scanner of the multi-file driver (src/src/driver/dep_scan.rs).

    A source file is scanned for the modules it defines and uses; the files are then
    ordered so that a module is compiled before the files that use it.  The tokens of a
    preprocessed file are the input of the scan.  [None] is a panic (a counter that would
    underflow, an index out of range). *)

From Stdlib Require Import Ascii.
From S2P Require Import Prelude.
From stdpp Require Import list finite relations.
From S2P Require Import Slices Tokens.

Local Open Scope string_scope.
Local Open Scope list_scope.

(** * Scanning a file *)

Record FileDeps := {
  path : string;
  defines : list string;
  uses : list string;
  submodule_of : option (string * string) }.

Definition is_identifier (t : Token) (expected : string) : bool :=
  bool_decide (tok_kind t = TIdentifier) && eq_ignore_ascii_case (tok_text t) expected.

Definition identifier (t : Token) : option string := if bool_decide (tok_kind t = TIdentifier) then Some (tok_text t) else None.

Definition has_kind (k : TokenKind) (t : Token) : bool := bool_decide (tok_kind t = k).

(** A statement up to its comment, without its label. *)
Definition statement_tokens (tokens : list Token) : list Token :=
  let tokens := take (default (length tokens) (position (has_kind TComment) tokens)) tokens in
  match tokens with
  | t :: rest => if has_kind TIntegerLiteral t then rest else tokens
  | [] => tokens
  end.

Definition module_definition (statement : list Token) : option string :=
  match statement with
  | [keyword; name] => if is_identifier keyword "module" then to_ascii_lowercase <$> identifier name else None
  | _ => None
  end.

Definition submodule_definition (statement : list Token) : option (string * string * string) :=
  match statement with
  | keyword :: paren :: rest =>
      if is_identifier keyword "submodule" && has_kind TLParen paren then
        close ← position (has_kind TRParen) rest;
        let parent := take close rest in
        first ← parent !! 0%nat;
        ancestor ← to_ascii_lowercase <$> identifier first;
        parent_ref ← match parent with
                     | [_] => Some ancestor
                     | [_; colon; nested] =>
                         if has_kind TColon colon && has_kind TIdentifier nested
                         then Some (ancestor +:+ ":" +:+ to_ascii_lowercase (tok_text nested)) else None
                     | _ => None
                     end;
        name_tok ← rest !! S close;
        name ← to_ascii_lowercase <$> identifier name_tok;
        Some (ancestor +:+ ":" +:+ name, ancestor, parent_ref)
      else None
  | _ => None
  end.

Definition use_dependency (statement : list Token) : option string :=
  match statement with
  | keyword :: rest =>
      if is_identifier keyword "use" then
        match rest with
        | t :: rest' =>
            if has_kind TComma t then
              nature ← rest' !! 0%nat;
              word ← identifier nature;
              let explicit_intrinsic := eq_ignore_ascii_case word "intrinsic" in
              colons ← rest' !! 1%nat;
              if has_kind TColonColon colons then
                m ← rest' !! 2%nat;
                name ← identifier m;
                if explicit_intrinsic then None else Some (to_ascii_lowercase name)
              else None
            else if has_kind TColonColon t then
              m ← rest' !! 0%nat;
              to_ascii_lowercase <$> identifier m
            else to_ascii_lowercase <$> identifier t
        | [] => None
        end
      else None
  | [] => None
  end.

Definition ends_statement (t : Token) : bool := has_kind TNewline t || has_kind TSemicolon t || has_kind TEof t.

Definition scan_statement (d : FileDeps) (raw : list Token) : FileDeps :=
  let statement := statement_tokens raw in
  match statement with
  | [] => d
  | _ =>
      match submodule_definition statement with
      | Some (definition, ancestor, parent_ref) =>
          {| path := path d; defines := defines d ++ [definition]; uses := uses d ++ [parent_ref]; submodule_of := Some (ancestor, parent_ref) |}
      | None =>
          {| path := path d; defines := defines d ++ option_list (module_definition statement);
             uses := uses d ++ option_list (use_dependency statement); submodule_of := submodule_of d |}
      end
  end.

(** [sort] followed by [dedup]. *)
Fixpoint dedup (l : list string) : list string :=
  match l with
  | x :: ((y :: _) as rest) => if bool_decide (x = y) then dedup rest else x :: dedup rest
  | _ => l
  end.

Definition sorted_dedup (l : list string) : list string := dedup (sort_by String.leb l).

Definition scan_tokens (p : string) (tokens : list Token) : FileDeps :=
  let d := foldl scan_statement {| path := p; defines := []; uses := []; submodule_of := None |} (split_slice ends_statement tokens) in
  {| path := path d; defines := sorted_dedup (defines d); uses := sorted_dedup (uses d); submodule_of := submodule_of d |}.

(** * Ordering the files *)

Inductive OrderError := Duplicate (key : string) (first second : nat) | Circular (files : list nat).

(** Which file defines a module. *)
Definition add_definition (i : nat) (m : gmap string nat + OrderError) (def : string) : gmap string nat + OrderError :=
  match m with
  | inr e => inr e
  | inl m =>
      let key := to_ascii_lowercase def in
      match m !! key with
      | Some first => if bool_decide (first <> i) then inr (Duplicate key first i) else inl m
      | None => inl (<[key := i]> m)
      end
  end.

Definition module_to_file (files : list FileDeps) : gmap string nat + OrderError :=
  foldl (fun m p => foldl (add_definition p.1) m (defines p.2)) (inl ∅) (imap pair files).

(** The files the uses of a file refer to, other than itself. *)
Definition used_files (m : gmap string nat) (i : nat) (f : FileDeps) : list nat :=
  omap (fun used => match m !! to_ascii_lowercase used with
                    | Some j => if bool_decide (i <> j) then Some j else None
                    | None => None
                    end) (uses f).

(** A dependency: the file that is used and the file that uses it. *)
Definition edges (m : gmap string nat) (files : list FileDeps) : list (nat * nat) :=
  imap pair files ≫= fun p => (fun j => (j, p.1)) <$> used_files m p.1 p.2.

(** [dependents[j].push(i); in_degree[i] += 1]. *)
Definition add_edge (st : list (list nat) * list nat) (e : nat * nat) : option (list (list nat) * list nat) :=
  ds ← st.1 !! e.1;
  d ← st.2 !! e.2;
  Some (<[e.1 := ds ++ [e.2]]> st.1, <[e.2 := S d]> st.2).

Definition build_graph (n : nat) (es : list (nat * nat)) : option (list (list nat) * list nat) :=
  foldl (fun st e => st ← st; add_edge st e) (Some (replicate n [], replicate n 0%nat)) es.

(** One dependent loses a dependency. *)
Definition release (st : list nat * list nat) (dep : nat) : option (list nat * list nat) :=
  d ← st.2 !! dep;
  match d with
  | O => None
  | S d => Some (if bool_decide (d = 0%nat) then st.1 ++ [dep] else st.1, <[dep := d]> st.2)
  end.

Fixpoint kahn (fuel : nat) (dependents : list (list nat)) (queue order deg : list nat) : option (list nat * list nat) :=
  match queue with
  | [] => Some (order, deg)
  | j :: queue =>
      match fuel with
      | O => None
      | S fuel =>
          ds ← dependents !! j;
          st ← foldl (fun st dep => st ← st; release st dep) (Some (queue, deg)) ds;
          kahn fuel dependents st.1 (order ++ [j]) st.2
      end
  end.

(** Indices with no dependency left. *)
Definition ready (deg : list nat) : list nat := filter (fun i => deg !! i = Some 0%nat) (seq 0 (length deg)).

Definition resolve_compilation_order (files : list FileDeps) : option (list nat + OrderError) :=
  match module_to_file files with
  | inr e => Some (inr e)
  | inl m =>
      let n := length files in
      '(dependents, deg) ← build_graph n (edges m files);
      '(order, deg) ← kahn n dependents (ready deg) [] deg;
      if bool_decide (length order <> n)
      then Some (inr (Circular (filter (fun i => (0 < default 0 (deg !! i))%nat) (seq 0 n))))
      else Some (inl order)
  end.

(** * The dependency relation *)

(** File [i] defines the module [key]. *)
Definition provides (files : list FileDeps) (i : nat) (key : string) : Prop :=
  exists f def, files !! i = Some f /\ def ∈ defines f /\ key = to_ascii_lowercase def.

(** File [i] uses a module that another file [j] defines. *)
Definition depends (files : list FileDeps) (i j : nat) : Prop :=
  i <> j /\ exists f used, files !! i = Some f /\ used ∈ uses f /\ provides files j (to_ascii_lowercase used).

(** * The graph *)

Definition edge_count (es : list (nat * nat)) (p : nat * nat -> bool) : nat := length (filter (fun e => p e = true) es).

Lemma edge_count_app es es' p : edge_count (es ++ es') p = (edge_count es p + edge_count es' p)%nat.
Proof. unfold edge_count. by rewrite filter_app, length_app. Qed.

Lemma edge_count_cons e es p : edge_count (e :: es) p = ((if p e then 1 else 0) + edge_count es p)%nat.
Proof. unfold edge_count. rewrite filter_cons. destruct (p e); [by rewrite decide_True by done|by rewrite decide_False by done]. Qed.

Lemma edge_count_pos es p : (0 < edge_count es p)%nat <-> exists e, e ∈ es /\ p e = true.
Proof.
  unfold edge_count. split.
  - intros H. destruct (filter _ es) as [|e l] eqn:E; [simpl in H; lia|]. exists e.
    assert (He : e ∈ filter (fun e => p e = true) es) by (rewrite E; left). apply list_elem_of_filter in He as [? ?]. done.
  - intros (e & He & Hp). assert (H : e ∈ filter (fun e => p e = true) es) by (by apply list_elem_of_filter).
    destruct (filter _ es); [by apply elem_of_nil in H|simpl; lia].
Qed.

Definition into (i : nat) (e : nat * nat) : bool := bool_decide (e.2 = i).

(** The adjacency lists and the counters of a list of edges. *)
Record graph_of (n : nat) (es : list (nat * nat)) (dependents : list (list nat)) (deg : list nat) : Prop := {
  gr_len : length dependents = n /\ length deg = n;
  gr_out : forall j ds, dependents !! j = Some ds -> ds = omap (fun e => if bool_decide (e.1 = j) then Some e.2 else None) es;
  gr_deg : forall i d, deg !! i = Some d -> d = edge_count es (into i) }.

Lemma build_graph_spec n es :
  (forall e, e ∈ es -> e.1 < n /\ e.2 < n)%nat -> exists dependents deg, build_graph n es = Some (dependents, deg) /\ graph_of n es dependents deg.
Proof.
  unfold build_graph. induction es as [|e es IH] using rev_ind; intros Hb.
  { do 2 eexists. split; [done|]. split; [by rewrite !length_replicate|..].
    - intros j ds [-> _]%lookup_replicate_1. done.
    - intros i d [-> _]%lookup_replicate_1. done. }
  destruct IH as (dp & dg & E & [Hl Ho Hd]); [intros e' He'; apply Hb, elem_of_app; by left|]. rewrite foldl_app, E. cbn [foldl mbind option_bind].
  destruct (Hb e) as [H1 H2]; [apply elem_of_app; right; left|]. unfold add_edge. cbn [fst snd].
  destruct (lookup_lt_is_Some_2 dp e.1) as [ds Hds]; [lia|]. destruct (lookup_lt_is_Some_2 dg e.2) as [d Hdg]; [lia|].
  rewrite Hds. cbn [mbind option_bind]. rewrite Hdg. cbn [mbind option_bind]. do 2 eexists. split; [done|]. split; [by rewrite !length_insert|..].
  - intros j ds' Hj. rewrite omap_app. cbn. destruct (decide (e.1 = j)) as [<-|Hne].
    + rewrite list_lookup_insert_eq in Hj by lia. injection Hj as <-. rewrite (Ho _ _ Hds), bool_decide_eq_true_2 by done. done.
    + rewrite list_lookup_insert_ne in Hj by done. rewrite bool_decide_eq_false_2, app_nil_r by done. by apply Ho.
  - intros i d' Hi. rewrite edge_count_app, edge_count_cons. unfold into at 2. cbn. destruct (decide (e.2 = i)) as [<-|Hne].
    + rewrite list_lookup_insert_eq in Hi by lia. injection Hi as <-. rewrite (Hd _ _ Hdg), bool_decide_eq_true_2 by done. change (edge_count [] _) with 0%nat. lia.
    + rewrite list_lookup_insert_ne in Hi by done. rewrite (Hd _ _ Hi), bool_decide_eq_false_2 by done. change (edge_count [] _) with 0%nat. lia.
Qed.

(** * The loop *)

Definition occurrences (i : nat) (l : list nat) : nat := length (filter (eq i) l).

Lemma occurrences_cons i k l : occurrences i (k :: l) = ((if bool_decide (i = k) then 1 else 0) + occurrences i l)%nat.
Proof. unfold occurrences. rewrite filter_cons. by case_decide; case_bool_decide. Qed.

(** Releasing the dependents of a file: every counter loses the occurrences of its index,
    and the counters that reach zero are queued, once each. *)
Lemma release_all ds : forall queue deg,
  (forall i, i ∈ ds -> i < length deg)%nat -> (forall i d, deg !! i = Some d -> occurrences i ds <= d)%nat ->
  exists new deg',
    foldl (fun st dep => st ← st; release st dep) (Some (queue, deg)) ds = Some (queue ++ new, deg') /\ length deg' = length deg /\
    (forall i d, deg !! i = Some d -> deg' !! i = Some (d - occurrences i ds)%nat) /\ NoDup new /\
    (forall i, i ∈ new <-> exists d, deg !! i = Some d /\ (0 < d)%nat /\ d = occurrences i ds).
Proof.
  induction ds as [|k ds IH]; intros queue deg Hb Hc.
  { exists [], deg. rewrite app_nil_r. split_and!; [done|done|..|constructor|].
    - intros i d H. unfold occurrences. simpl. by rewrite Nat.sub_0_r.
    - intros i. split; [by intros ?%elem_of_nil|]. unfold occurrences. simpl. intros (d & _ & ? & ?). lia. }
  destruct (lookup_lt_is_Some_2 deg k) as [d Hd]; [apply Hb; left|].
  pose proof (Hc _ _ Hd) as Hk. rewrite occurrences_cons, bool_decide_eq_true_2 in Hk by done. destruct d as [|d]; [lia|].
  cbn [foldl mbind option_bind]. unfold release at 2. cbn [fst snd]. rewrite Hd. cbn [mbind option_bind].
  assert (Hlt : (k < length deg)%nat) by (eapply lookup_lt_Some; eauto).
  destruct (IH (if bool_decide (d = 0%nat) then queue ++ [k] else queue) (<[k := d]> deg)) as (new & deg' & E & Hl & Hdeg & Hnd & Hnew).
  { intros i Hi. rewrite length_insert. apply Hb. by right. }
  { intros i d' Hi. destruct (decide (i = k)) as [->|Hne].
    - rewrite list_lookup_insert_eq in Hi by done. injection Hi as <-. lia.
    - rewrite list_lookup_insert_ne in Hi by done. specialize (Hc _ _ Hi). rewrite occurrences_cons, bool_decide_eq_false_2 in Hc by done. lia. }
  rewrite E. exists ((if bool_decide (d = 0%nat) then [k] else []) ++ new), deg'.
  rewrite length_insert in Hl. split_and!; [|done|..].
  - case_bool_decide; [by rewrite <- app_assoc|done].
  - intros i di Hi. rewrite occurrences_cons. destruct (decide (i = k)) as [->|Hne].
    + rewrite Hd in Hi. injection Hi as <-. rewrite bool_decide_eq_true_2 by done. rewrite (Hdeg k d) by (by rewrite list_lookup_insert_eq). f_equal; lia.
    + rewrite bool_decide_eq_false_2 by done. apply Hdeg. by rewrite list_lookup_insert_ne.
  - apply NoDup_app. split_and!; [case_bool_decide; [apply NoDup_singleton|constructor]| |done].
    case_bool_decide as Hz; [|by intros ? ?%elem_of_nil]. intros i ->%list_elem_of_singleton (d' & Hi & ? & _)%Hnew.
    rewrite list_lookup_insert_eq in Hi by done. injection Hi as <-. lia.
  - intros i. rewrite elem_of_app, Hnew. setoid_rewrite occurrences_cons. destruct (decide (i = k)) as [->|Hne].
    + rewrite (bool_decide_eq_true_2 (k = k)) by done. rewrite list_lookup_insert_eq by done. split.
      * intros [Hi|(d' & [= <-] & ? & ?)]; [|exists (S d); split_and!; [done|lia|lia]].
        case_bool_decide as Hz; [|by apply elem_of_nil in Hi]. exists (S d). split_and!; [done|lia|lia].
      * intros (d' & Hi & ? & ?). rewrite Hd in Hi. injection Hi as <-. destruct (decide (d = 0%nat)) as [->|]; [left; simpl; left|].
        right. exists d. split_and!; [done|lia|lia].
    + rewrite (bool_decide_eq_false_2 (i = k)) by done. rewrite list_lookup_insert_ne by done. split.
      * intros [Hi|Hi]; [|done]. case_bool_decide; [by apply list_elem_of_singleton in Hi|by apply elem_of_nil in Hi].
      * intros Hi. by right.
Qed.

(** The edges into [i] whose source has not been ordered. *)
Definition waiting (order : list nat) (i : nat) (e : nat * nat) : bool := into i e && bool_decide (e.1 ∉ order).

(** Every dependency of an ordered file comes before it. *)
Definition respects (es : list (nat * nat)) (order : list nat) : Prop :=
  forall before i after j, order = before ++ i :: after -> (j, i) ∈ es -> j ∈ before.

(** The state of the loop: the counters count the edges from unordered files, and the files
    whose counter is zero are the ordered ones and the queued ones, each once. *)
Record kahn_inv (n : nat) (es : list (nat * nat)) (queue order deg : list nat) : Prop := {
  ki_len : length deg = n;
  ki_deg : forall i d, deg !! i = Some d -> d = edge_count es (waiting order i);
  ki_nodup : NoDup (order ++ queue);
  ki_zero : forall i, deg !! i = Some 0%nat <-> i ∈ order ++ queue;
  ki_respects : respects es order }.

Lemma edge_count_ext es p q : (forall e, e ∈ es -> p e = q e) -> edge_count es p = edge_count es q.
Proof.
  induction es as [|e es IH]; intros H; [done|]. rewrite !edge_count_cons, H by left. rewrite IH; [done|]. intros e' He'. apply H. by right.
Qed.

(** Ordering one more file splits its edges off the waiting ones. *)
Lemma waiting_split es order i j :
  j ∉ order ->
  edge_count es (waiting order i) =
  (occurrences i (omap (fun e => if bool_decide (e.1 = j) then Some e.2 else None) es) + edge_count es (waiting (order ++ [j]) i))%nat.
Proof.
  intros Hj. induction es as [|e es IH]; [done|]. rewrite !edge_count_cons, IH. cbn [omap list_omap]. unfold waiting at 1 3, into.
  destruct (decide (e.1 = j)) as [<-|Hne].
  - rewrite (bool_decide_eq_true_2 (e.1 = e.1)) by done. rewrite occurrences_cons.
    rewrite (bool_decide_eq_true_2 (e.1 ∉ order)), (bool_decide_eq_false_2 (e.1 ∉ order ++ [e.1])) by set_solver.
    rewrite andb_false_r, andb_true_r. rewrite (bool_decide_ext (e.2 = i) (i = e.2)) by (split; congruence). lia.
  - rewrite (bool_decide_eq_false_2 (e.1 = j)) by done. rewrite (bool_decide_ext (e.1 ∉ order ++ [j]) (e.1 ∉ order)) by set_solver. lia.
Qed.

Lemma bounded_length n (l : list nat) : NoDup l -> (forall i, i ∈ l -> i < n)%nat -> (length l <= n)%nat.
Proof.
  intros Hn Hb. rewrite <- (length_seq n 0). apply submseteq_length, NoDup_submseteq; [done|]. intros i Hi%Hb. apply elem_of_seq. lia.
Qed.

Section Loop.
Context (n : nat) (es : list (nat * nat)) (dependents : list (list nat)) (deg0 : list nat).
Context (Hbound : forall e, e ∈ es -> (e.1 < n)%nat /\ (e.2 < n)%nat).
Context (Hgraph : graph_of n es dependents deg0).

Lemma kahn_inv_init : kahn_inv n es (ready deg0) [] deg0.
Proof.
destruct Hgraph as [[_ Hl] _ Hd]. split; [done|..].
- intros i d H. rewrite (Hd _ _ H). apply edge_count_ext. intros e _. unfold waiting. rewrite bool_decide_eq_true_2 by (by intros ?%elem_of_nil).
by rewrite andb_true_r.
- apply NoDup_filter, NoDup_seq.
- intros i. simpl. unfold ready. rewrite list_elem_of_filter, elem_of_seq. split; [|by intros [? _]].
intros H. split; [done|]. apply lookup_lt_Some in H. lia.
- intros before i after j H. by destruct before.
Qed.

Lemma kahn_inv_lt queue order deg i : kahn_inv n es queue order deg -> i ∈ order ++ queue -> (i < n)%nat.
Proof. intros [Hl _ _ Hz _] Hi%Hz. rewrite <- Hl. by eapply lookup_lt_Some. Qed.

Lemma kahn_step j queue order deg :
kahn_inv n es (j :: queue) order deg ->
exists ds queue' deg',
dependents !! j = Some ds /\ foldl (fun st dep => st ← st; release st dep) (Some (queue, deg)) ds = Some (queue', deg') /\
kahn_inv n es queue' (order ++ [j]) deg'.
Proof.
intros I. assert (Hjn : (j < n)%nat) by (eapply kahn_inv_lt; [done|]; set_solver).
destruct I as [Hl Hd Hn Hz Hr]. destruct Hgraph as [[Hdl _] Ho _].
destruct (lookup_lt_is_Some_2 dependents j) as [ds Hds]; [lia|]. pose proof (Ho _ _ Hds) as Eds.
assert (Hj : j ∉ order) by (apply NoDup_app in Hn as (_ & Hn & _); intros Hj; apply (Hn j Hj); left).
destruct (release_all ds queue deg) as (new & deg' & E & Hl' & Hdeg & Hnd & Hnew).
{ intros i Hi. rewrite Eds in Hi. apply list_elem_of_omap in Hi as (e & He & Hi). case_bool_decide; [|done]. injection Hi as <-.
rewrite Hl. by apply Hbound. }
{ intros i d Hi. rewrite (Hd _ _ Hi), (waiting_split es order i j Hj), Eds. lia. }
assert (Hdeg' : forall i d, deg' !! i = Some d -> d = edge_count es (waiting (order ++ [j]) i)).
{ intros i d Hi. destruct (lookup_lt_is_Some_2 deg i) as [d0 Hd0]; [rewrite <- Hl'; by eapply lookup_lt_Some|].
rewrite (Hdeg _ _ Hd0) in Hi. injection Hi as <-. rewrite (Hd _ _ Hd0), (waiting_split es order i j Hj), Eds. lia. }
exists ds, (queue ++ new), deg'. split_and!; [done|done|]. split; [lia|done|..].
- rewrite <- app_assoc. change ([j] ++ queue ++ new) with ((j :: queue) ++ new). rewrite app_assoc. apply NoDup_app. split_and!; [done| |done].
intros i Hi (d & Hd' & ? & _)%Hnew. apply Hz in Hi. rewrite Hd' in Hi. injection Hi as ->. lia.
- intros i. rewrite <- app_assoc. change ([j] ++ queue ++ new) with ((j :: queue) ++ new). rewrite app_assoc, elem_of_app, <- Hz, Hnew. split.
+ intros Hi. destruct (lookup_lt_is_Some_2 deg i) as [d0 Hd0]; [rewrite <- Hl'; by eapply lookup_lt_Some|].
rewrite (Hdeg _ _ Hd0) in Hi. injection Hi as Hi. destruct d0 as [|d0]; [by left|]. right. exists (S d0). split_and!; [done|lia|].
pose proof (Hd _ _ Hd0) as Hw. rewrite (waiting_split es order i j Hj), <- Eds in Hw. lia.
+ intros [Hi|(d & Hi & _ & ->)]; rewrite (Hdeg _ _ Hi); f_equal; lia.
- intros before i after k Eo Hk. destruct after as [|a after] using rev_ind.
+ apply app_inj_tail in Eo as [-> ->]. destruct (decide (k ∈ before)) as [|Hb]; [done|exfalso].
assert (H0 : deg !! i = Some 0%nat) by (apply Hz; set_solver). apply Hd in H0.
assert (0 < edge_count es (waiting before i))%nat; [|lia]. apply edge_count_pos. exists (k, i). split; [done|].
unfold waiting, into. simpl. by rewrite !bool_decide_eq_true_2.
+ clear IHafter. rewrite app_comm_cons, app_assoc in Eo. apply app_inj_tail in Eo as [-> ->]. by eapply Hr.
Qed.

Lemma kahn_run fuel : forall queue order deg,
kahn_inv n es queue order deg -> (n <= fuel + length order)%nat ->
exists order' deg', kahn fuel dependents queue order deg = Some (order', deg') /\ kahn_inv n es [] order' deg'.
Proof.
induction fuel as [|fuel IH]; intros queue order deg I Hf.
- destruct queue as [|j queue]; [simpl; eauto|]. pose proof (bounded_length n (order ++ j :: queue) (ki_nodup _ _ _ _ _ I)) as Hb.
rewrite length_app in Hb. simpl in Hb. assert (length order + S (length queue) <= n)%nat; [|lia]. apply Hb. intros i. by eapply kahn_inv_lt.
- destruct queue as [|j queue]; [simpl; eauto|]. destruct (kahn_step j queue order deg I) as (ds & q & d & E1 & E2 & I').
cbn [kahn]. rewrite E1. cbn [mbind option_bind]. rewrite E2. cbn [mbind option_bind fst snd]. apply IH; [done|]. rewrite length_app. simpl. lia.
Qed.
End Loop.

(** * Cycles *)

(** In a set of indices below [n] where every member has a successor in the set, every
    member reaches a cycle. *)
Lemma reaches_cycle (n : nat) (R : nat -> nat -> Prop) (S : nat -> Prop) :
  (forall x, S x -> (x < n)%nat) -> (forall x, S x -> exists y, R x y /\ S y) ->
  forall i, S i -> exists c, rtc R i c /\ tc R c c.
Proof.
  intros Hb Hs i Hi.
  assert (H : forall k seen x, (n <= k + length seen)%nat -> NoDup seen -> (forall y, y ∈ seen -> S y /\ tc R y x) -> S x -> rtc R i x ->
    exists c, rtc R i c /\ tc R c c).
  { induction k as [|k IH]; intros seen x Hk Hn Hy Hx Hix.
    all: destruct (decide (x ∈ seen)) as [Hin|Hin]; [exists x; split; [done|by apply Hy]|].
    all: assert (Hn' : NoDup (x :: seen)) by (by constructor).
    - exfalso. pose proof (bounded_length n (x :: seen) Hn') as Hl. simpl in Hl. assert (Datatypes.S (length seen) <= n)%nat; [|lia]. apply Hl.
      intros y [->|Hys]%elem_of_cons; apply Hb; [done|by apply Hy].
    - destruct (Hs x Hx) as (z & Hxz & Hz). apply (IH (x :: seen) z); [simpl; lia|done| |done|by eapply rtc_r].
      intros y [->|Hys]%elem_of_cons; [split; [done|by apply tc_once]|]. destruct (Hy y Hys). split; [done|]. by eapply tc_r. }
  apply (H n [] i); [simpl; lia|constructor|by intros y ?%elem_of_nil|done|apply rtc_refl].
Qed.

(** * Which file defines a module *)

(** The index of the definitions read so far. *)
Definition indexes (ps : list (nat * string)) (r : gmap string nat + OrderError) : Prop :=
  match r with
  | inl m => forall key i, m !! key = Some i <-> exists def, (i, def) ∈ ps /\ key = to_ascii_lowercase def
  | inr (Duplicate key first second) =>
      first <> second /\ (exists def, (first, def) ∈ ps /\ key = to_ascii_lowercase def) /\ exists def, (second, def) ∈ ps /\ key = to_ascii_lowercase def
  | inr (Circular _) => False
  end.

Lemma add_definition_indexes ps r i def : indexes ps r -> indexes (ps ++ [(i, def)]) (add_definition i r def).
Proof.
  intros H. destruct r as [m|[key a b|]]; simpl in *; [|set_solver|done]. destruct (m !! to_ascii_lowercase def) as [first|] eqn:E.
  - case_bool_decide as Hne; simpl.
    + apply H in E. set_solver.
    + assert (first = i) as -> by (destruct (decide (first = i)); tauto). intros key k. rewrite H. split; [set_solver|].
      intros (d & [Hd|[= -> ->]%list_elem_of_singleton]%elem_of_app & ->); [eauto|]. by apply H.
  - simpl. intros key k. rewrite lookup_insert_Some, H. split.
    + intros [[<- <-]|[_ ?]]; set_solver.
    + intros (d & [Hd|[= -> ->]%list_elem_of_singleton]%elem_of_app & ->); [|by left]. right. split; [|eauto].
      intros Hk. assert (m !! to_ascii_lowercase def = Some k); [|congruence]. apply H. rewrite Hk. eauto.
Qed.

(** The definitions of the files in the order they are read. *)
Definition definitions (files : list (nat * FileDeps)) : list (nat * string) := files ≫= fun p => (fun def => (p.1, def)) <$> defines p.2.

Lemma index_file_indexes i defs : forall ps r, indexes ps r -> indexes (ps ++ ((fun def => (i, def)) <$> defs)) (foldl (add_definition i) r defs).
Proof.
  induction defs as [|def defs IH]; intros ps r H; [by rewrite app_nil_r|]. rewrite fmap_cons, cons_middle, app_assoc. cbn [foldl].
  by apply IH, add_definition_indexes.
Qed.

Lemma index_files_indexes files : forall ps r,
  indexes ps r -> indexes (ps ++ definitions files) (foldl (fun m p => foldl (add_definition p.1) m (defines p.2)) r files).
Proof.
  induction files as [|p files IH]; intros ps r H; [by rewrite app_nil_r|]. unfold definitions. rewrite bind_cons, app_assoc. simpl. by apply IH, index_file_indexes.
Qed.

Lemma module_to_file_indexes files : indexes (definitions (imap pair files)) (module_to_file files).
Proof. apply (index_files_indexes (imap pair files) [] (inl ∅)). simpl. intros key i. rewrite lookup_empty. set_solver. Qed.

Lemma elem_of_definitions files i def : (i, def) ∈ definitions (imap pair files) <-> exists f, files !! i = Some f /\ def ∈ defines f.
Proof.
  unfold definitions. rewrite list_elem_of_bind. split.
  - intros ([k f] & (d & Hd & Hin)%list_elem_of_fmap & (k' & f' & Ep & Hf)%elem_of_lookup_imap). simpl in *. simplify_eq. eauto.
  - intros (f & Hf & Hin). exists (i, f). simpl. split; [by apply list_elem_of_fmap_2|]. apply elem_of_lookup_imap. eauto.
Qed.

Lemma provides_definitions files i key : provides files i key <-> exists def, (i, def) ∈ definitions (imap pair files) /\ key = to_ascii_lowercase def.
Proof.
  unfold provides. setoid_rewrite elem_of_definitions. naive_solver.
Qed.

Lemma module_to_file_provides files m : module_to_file files = inl m -> forall key i, m !! key = Some i <-> provides files i key.
Proof. intros E key i. pose proof (module_to_file_indexes files) as H. rewrite E in H. simpl in H. rewrite H. symmetry. apply provides_definitions. Qed.

Lemma provides_lt files i key : provides files i key -> (i < length files)%nat.
Proof. intros (f & def & Hf & _). by eapply lookup_lt_Some. Qed.

Lemma depends_lt files i j : depends files i j -> (i < length files)%nat /\ (j < length files)%nat.
Proof. intros (_ & f & used & Hf & _ & Hp). split; [by eapply lookup_lt_Some|by eapply provides_lt]. Qed.

Lemma edges_depends files m i j : module_to_file files = inl m -> (j, i) ∈ edges m files <-> depends files i j.
Proof.
  intros E. unfold edges, depends, used_files. rewrite list_elem_of_bind. split.
  - intros ([k f] & (k' & [= -> ->] & Hj)%list_elem_of_fmap & (k'' & f' & [= -> ->] & Hf)%elem_of_lookup_imap_1). simpl in *.
    apply list_elem_of_omap in Hj as (used & Hu & Hj). destruct (m !! _) as [j|] eqn:Em; [|done]. case_bool_decide; [|done]. injection Hj as ->.
    split; [done|]. exists f', used. split_and!; [done|done|]. by eapply module_to_file_provides.
  - intros (Hne & f & used & Hf & Hu & Hp). exists (i, f). simpl. split; [|by apply (elem_of_lookup_imap_2 pair)]. apply list_elem_of_fmap. exists j. split; [done|]. apply list_elem_of_omap.
    exists used. split; [done|]. apply (module_to_file_provides _ _ E) in Hp. rewrite Hp. by rewrite bool_decide_eq_true_2.
Qed.

(** Nothing in an order that respects the edges reaches a cycle. *)
Lemma respects_acyclic es order (R : nat -> nat -> Prop) :
  (forall i j, R i j -> (j, i) ∈ es) -> respects es order -> forall i c, i ∈ order -> rtc R i c -> tc R c c -> False.
Proof.
  intros HR Hr.
  assert (Hpos : forall i j p, order !! p = Some i -> R i j -> exists q, (q < p)%nat /\ order !! q = Some j).
  { intros i j p Hp Hij%HR. pose proof (take_drop_middle _ _ _ Hp) as Eo. symmetry in Eo. pose proof (Hr _ _ _ _ Eo Hij) as Hj.
    apply list_elem_of_lookup_1 in Hj as [q Hq]. exists q. by apply lookup_take_Some in Hq as [? ?]. }
  assert (Htc : forall i j, tc R i j -> forall p, order !! p = Some i -> exists q, (q < p)%nat /\ order !! q = Some j).
  { intros i j. induction 1 as [x y Hxy|x y z Hxy _ IH]; intros p Hp; [by eapply Hpos|].
    destruct (Hpos _ _ _ Hp Hxy) as (q & Hq & Hy). destruct (IH _ Hy) as (r & ? & ?). exists r. split; [lia|done]. }
  intros i c Hi Hic Hcc. apply list_elem_of_lookup_1 in Hi as [p Hp].
  assert (Hc : exists q, order !! q = Some c).
  { apply rtc_tc in Hic as [->|Hic]; [eauto|]. destruct (Htc _ _ Hic _ Hp) as (q & _ & ?). eauto. }
  destruct Hc as [q Hq]. clear -Htc Hcc Hq. induction q as [q IH] using lt_wf_ind. destruct (Htc _ _ Hcc _ Hq) as (r & Hr & Hc). by apply (IH r).
Qed.

(** The loop on the files whose definitions do not clash. *)
Lemma resolve_run files m :
  module_to_file files = inl m ->
  exists order deg,
    kahn_inv (length files) (edges m files) [] order deg /\
    resolve_compilation_order files =
      Some (if bool_decide (length order <> length files)
            then inr (Circular (filter (fun i => (0 < default 0 (deg !! i))%nat) (seq 0 (length files)))) else inl order).
Proof.
  intros E. assert (Hb : forall e, e ∈ edges m files -> (e.1 < length files)%nat /\ (e.2 < length files)%nat).
  { intros [j i] He%(edges_depends _ _ _ _ E)%depends_lt. simpl. tauto. }
  destruct (build_graph_spec (length files) (edges m files) Hb) as (dp & dg & Eg & Hg).
  destruct (kahn_run _ _ dp dg Hb Hg (length files) (ready dg) [] dg) as (order & deg & Ek & I); [by eapply kahn_inv_init|simpl; lia|].
  exists order, deg. split; [done|]. unfold resolve_compilation_order. rewrite E, Eg. cbn [mbind option_bind]. rewrite Ek. cbn [mbind option_bind].
  by case_bool_decide.
Qed.

(** At the end of the loop an unordered file uses another unordered one. *)
Lemma unordered_serial files m order deg :
  module_to_file files = inl m -> kahn_inv (length files) (edges m files) [] order deg ->
  forall i, (i < length files)%nat /\ i ∉ order -> exists j, depends files i j /\ (j < length files)%nat /\ j ∉ order.
Proof.
  intros E [Hl Hd _ Hz _] i [Hi Hno]. destruct (lookup_lt_is_Some_2 deg i) as [d Hdi]; [lia|]. rewrite app_nil_r in Hz. destruct d as [|d].
  { by apply Hz in Hdi. }
  pose proof (Hd _ _ Hdi) as Hw. assert (0 < edge_count (edges m files) (waiting order i))%nat as ([j i'] & He & Hp)%edge_count_pos by lia.
  unfold waiting, into in Hp. simpl in Hp. apply andb_true_iff in Hp as [->%bool_decide_eq_true_1 Hj%bool_decide_eq_true_1].
  apply (edges_depends _ _ _ _ E) in He. exists j. split_and!; [done|by eapply depends_lt|done].
Qed.

(** The files whose counter is not zero at the end are the unordered ones. *)
Lemma unordered_listed n es order deg i :
  kahn_inv n es [] order deg -> i ∈ filter (fun i => (0 < default 0 (deg !! i))%nat) (seq 0 n) <-> (i < n)%nat /\ i ∉ order.
Proof.
  intros [Hl _ _ Hz _]. rewrite list_elem_of_filter, elem_of_seq. rewrite app_nil_r in Hz. rewrite <- Hz. split.
  - intros [H ?]. split; [lia|]. intros E. rewrite E in H. simpl in H. lia.
  - intros [Hi Hne]. split; [|lia]. destruct (lookup_lt_is_Some_2 deg i) as [d Hd]; [lia|]. rewrite Hd in Hne |- *. simpl. destruct d; [done|lia].
Qed.

(** No module is defined by two files. *)
Definition definitions_unique (files : list FileDeps) : Prop := forall key i j, provides files i key -> provides files j key -> i = j.

(** The order respects the uses. *)
Definition dependencies_first (files : list FileDeps) (order : list nat) : Prop :=
  forall before i after j, order = before ++ i :: after -> depends files i j -> j ∈ before.

(** The outcome on files whose definitions do not clash. *)
Lemma order_outcome files m :
  module_to_file files = inl m ->
  (~ (exists i, tc (depends files) i i) /\
   exists order, resolve_compilation_order files = Some (inl order) /\ order ≡ₚ seq 0 (length files) /\ dependencies_first files order) \/
  ((exists i, tc (depends files) i i) /\
   exists named, resolve_compilation_order files = Some (inr (Circular named)) /\
     forall i, i ∈ named <-> exists c, rtc (depends files) i c /\ tc (depends files) c c).
Proof.
  intros E. destruct (resolve_run files m E) as (order & deg & I & Er).
  pose proof (respects_acyclic (edges m files) order (depends files) (fun i j => proj2 (edges_depends files m i j E)) (ki_respects _ _ _ _ _ I)) as Hacyc.
  assert (Hreach : forall i, (i < length files)%nat /\ i ∉ order <-> exists c, rtc (depends files) i c /\ tc (depends files) c c).
  { intros i. split.
    - apply (reaches_cycle (length files) (depends files) (fun i => (i < length files)%nat /\ i ∉ order)); [tauto|]. by eapply unordered_serial.
    - intros (c & Hic & Hcc). split; [|intros Hi; by eapply Hacyc].
      assert (Hlt : forall x, tc (depends files) i x -> (i < length files)%nat) by (intros x Hx; destruct Hx as [? ? Hx|? ? ? Hx _]; by apply depends_lt in Hx as [? _]).
      apply rtc_tc in Hic as [->|Hic]; eauto. }
  pose proof (ki_nodup _ _ _ _ _ I) as Hn. rewrite app_nil_r in Hn.
  assert (Hlt : forall i, i ∈ order -> (i < length files)%nat) by (intros i Hi; eapply kahn_inv_lt; [done|]; by rewrite app_nil_r).
  case_bool_decide as Hlen.
  - right. assert (Hex : exists i, (i < length files)%nat /\ i ∉ order).
    { destruct (decide (Forall (fun i => i ∈ order) (seq 0 (length files)))) as [Hall|Hex].
      - exfalso. apply Hlen. apply Nat.le_antisymm; [by apply bounded_length|]. rewrite <- (length_seq (length files) 0) at 1.
        apply submseteq_length, NoDup_submseteq; [apply NoDup_seq|]. by apply list.Forall_forall.
      - apply not_Forall_Exists in Hex; [|apply _]. apply Exists_exists in Hex as (i & ?%elem_of_seq & ?). exists i. split; [lia|done]. }
    destruct Hex as [i Hi]. apply Hreach in Hi as (c & _ & Hc). split; [eauto|].
    eexists. split; [done|]. intros k. rewrite (unordered_listed _ _ _ _ _ I). apply Hreach.
  - left. assert (Hl : length order = length files) by lia.
    assert (Hp : order ≡ₚ seq 0 (length files)).
    { apply submseteq_length_Permutation; [|by rewrite length_seq, Hl]. apply NoDup_submseteq; [done|]. intros i Hi%Hlt. apply elem_of_seq. lia. }
    split.
    + intros (i & Hi). assert (Hc : exists c, rtc (depends files) i c /\ tc (depends files) c c) by (exists i; split; [apply rtc_refl|done]).
      apply Hreach in Hc as [? Hno]. apply Hno. rewrite Hp. apply elem_of_seq. lia.
    + exists order. split_and!; [done|done|]. intros before i after j Eo Hd. eapply (ki_respects _ _ _ _ _ I); [done|]. by apply (edges_depends _ _ _ _ E).
Qed.

(** C21: the compilation order of the multi-file driver, for every list of files.  The ordering terminates without a panic (no index
    is out of range and no counter underflows) with one of three results.  When two files define the same module, ignoring
    case, it is the duplicate-definition error, and it names a module and two files that define it.  Otherwise, when no file
    depends on itself through others, it is an order of all the files, each once, in which every file comes after the files
    whose modules it uses.  Otherwise it is the circular-dependency error, and it names exactly the files that lie on a
    cycle of uses or use, directly or not, a file that does. *)
Theorem compilation_order_correct files :
  (exists key i j, i <> j /\ provides files i key /\ provides files j key /\ resolve_compilation_order files = Some (inr (Duplicate key i j))) \/
  (definitions_unique files /\ ~ (exists i, tc (depends files) i i) /\
   exists order, resolve_compilation_order files = Some (inl order) /\ order ≡ₚ seq 0 (length files) /\ dependencies_first files order) \/
  (definitions_unique files /\ (exists i, tc (depends files) i i) /\
   exists named, resolve_compilation_order files = Some (inr (Circular named)) /\
     forall i, i ∈ named <-> exists c, rtc (depends files) i c /\ tc (depends files) c c).
Proof.
  destruct (module_to_file files) as [m|e] eqn:E.
  - right. assert (Hu : definitions_unique files).
    { intros key i j Hi%(module_to_file_provides _ _ E) Hj%(module_to_file_provides _ _ E). congruence. }
    destruct (order_outcome files m E) as [H|H]; [left|right]; by split.
  - left. pose proof (module_to_file_indexes files) as H. rewrite E in H. destruct e as [key i j|]; [|done]. destruct H as (Hne & Hi & Hj).
    exists key, i, j. rewrite !provides_definitions. split_and!; [done|done|done|]. unfold resolve_compilation_order. by rewrite E.
Qed.

(** * From the tokens to the order *)

Lemma elem_of_dedup x l : x ∈ dedup l <-> x ∈ l.
Proof.
  induction l as [|y l IH]; [done|]. destruct l as [|z l]; [done|]. change (dedup (y :: z :: l)) with (if bool_decide (y = z) then dedup (z :: l) else y :: dedup (z :: l)).
  case_bool_decide as Hyz; [subst z|]; rewrite ?elem_of_cons, IH, !elem_of_cons; tauto.
Qed.

Lemma elem_of_sorted_dedup x l : x ∈ sorted_dedup l <-> x ∈ l.
Proof. unfold sorted_dedup. by rewrite elem_of_dedup, sort_by_perm. Qed.

(** What a statement adds to the uses and to the definitions of its file. *)
Definition statement_uses (raw : list Token) : list string :=
  match submodule_definition (statement_tokens raw) with
  | Some (_, _, parent_ref) => [parent_ref]
  | None => option_list (use_dependency (statement_tokens raw))
  end.

Definition statement_defines (raw : list Token) : list string :=
  match submodule_definition (statement_tokens raw) with
  | Some (definition, _, _) => [definition]
  | None => option_list (module_definition (statement_tokens raw))
  end.

Lemma scan_statement_adds d raw :
  uses (scan_statement d raw) = uses d ++ statement_uses raw /\ defines (scan_statement d raw) = defines d ++ statement_defines raw.
Proof.
  unfold scan_statement, statement_uses, statement_defines. destruct (statement_tokens raw) as [|t l] eqn:E; [by rewrite !app_nil_r|].
  destruct (submodule_definition _) as [[[? ?] ?]|]; done.
Qed.

Lemma scan_statements_add l : forall d,
  uses (foldl scan_statement d l) = uses d ++ (l ≫= statement_uses) /\ defines (foldl scan_statement d l) = defines d ++ (l ≫= statement_defines).
Proof.
  induction l as [|raw l IH]; intros d; [by rewrite !app_nil_r|]. cbn [foldl]. destruct (IH (scan_statement d raw)) as [-> ->].
  destruct (scan_statement_adds d raw) as [-> ->]. by rewrite !bind_cons, !app_assoc.
Qed.

Lemma elem_of_scanned p toks x :
  (x ∈ uses (scan_tokens p toks) <-> exists s, s ∈ split_slice ends_statement toks /\ x ∈ statement_uses s) /\
  (x ∈ defines (scan_tokens p toks) <-> exists s, s ∈ split_slice ends_statement toks /\ x ∈ statement_defines s).
Proof.
  unfold scan_tokens. cbn [uses defines]. rewrite !elem_of_sorted_dedup.
  destruct (scan_statements_add (split_slice ends_statement toks) {| path := p; defines := []; uses := []; submodule_of := None |}) as [-> ->].
  cbn [uses defines app]. rewrite !list_elem_of_bind. naive_solver.
Qed.

(** ** What a file defines and uses, independently of the scanner

    Statements lie between newlines, semicolons and the end of the file; a statement may have a
    label in front and a comment behind. *)

Definition separator (k : TokenKind) : Prop := k = TNewline \/ k = TSemicolon \/ k = TEof.

Definition statement_in (toks s : list Token) : Prop :=
  Forall (fun t => ~ separator (tok_kind t)) s /\
  exists before after, toks = before ++ s ++ after /\
    (before = [] \/ exists b t, before = b ++ [t] /\ separator (tok_kind t)) /\
    (after = [] \/ exists t a, after = t :: a /\ separator (tok_kind t)).

Definition body_of (raw st : list Token) : Prop :=
  Forall (fun t => tok_kind t <> TComment) st /\
  exists label comment, raw = label ++ st ++ comment /\
    (label = [] \/ exists t, label = [t] /\ tok_kind t = TIntegerLiteral) /\
    (comment = [] \/ exists t c, comment = t :: c /\ tok_kind t = TComment).

(** An identifier, in lower case; keywords are identifiers. *)
Definition word_is (t : Token) (name : string) : Prop := tok_kind t = TIdentifier /\ to_ascii_lowercase (tok_text t) = name.

(** [submodule (ancestor) name] and [submodule (ancestor:parent) name]. *)
Inductive submodule_statement : list Token -> string -> string -> string -> Prop :=
| submodule_direct s o a c n rest ancestor name :
    word_is s "submodule" -> tok_kind o = TLParen -> word_is a ancestor -> tok_kind c = TRParen -> word_is n name ->
    submodule_statement (s :: o :: a :: c :: n :: rest) ancestor ancestor name
| submodule_nested s o a colon b c n rest ancestor parent name :
    word_is s "submodule" -> tok_kind o = TLParen -> word_is a ancestor -> tok_kind colon = TColon -> word_is b parent ->
    tok_kind c = TRParen -> word_is n name ->
    submodule_statement (s :: o :: a :: colon :: b :: c :: n :: rest) ancestor (ancestor +:+ ":" +:+ parent) name.

(** [use m], [use :: m], [use, nature :: m] with a nature other than [intrinsic], and
    the parent of a submodule. *)
Inductive uses_module : list Token -> string -> Prop :=
| use_plain u m rest name : word_is u "use" -> word_is m name -> uses_module (u :: m :: rest) name
| use_colons u cc m rest name : word_is u "use" -> tok_kind cc = TColonColon -> word_is m name -> uses_module (u :: cc :: m :: rest) name
| use_nature u comma w nature cc m rest name :
    word_is u "use" -> tok_kind comma = TComma -> word_is w nature -> nature <> "intrinsic" -> tok_kind cc = TColonColon -> word_is m name ->
    uses_module (u :: comma :: w :: cc :: m :: rest) name
| use_parent st ancestor parent name : submodule_statement st ancestor parent name -> uses_module st parent.

(** [module m], and a submodule as [ancestor:name]. *)
Inductive defines_module : list Token -> string -> Prop :=
| define_module m n name : word_is m "module" -> word_is n name -> defines_module [m; n] name
| define_submodule st ancestor parent name : submodule_statement st ancestor parent name -> defines_module st (ancestor +:+ ":" +:+ name).

(** ** The scanner finds them *)

Lemma ends_separator t : ends_statement t = true <-> separator (tok_kind t).
Proof. unfold ends_statement, has_kind, separator. rewrite !orb_true_iff, !bool_decide_eq_true. tauto. Qed.

Lemma not_separator t : ends_statement t = false -> ~ separator (tok_kind t).
Proof. intros H Hs%ends_separator. congruence. Qed.

Definition closed_after (after : list Token) : Prop := after = [] \/ exists t a, after = t :: a /\ separator (tok_kind t).

(** The first statement, and the later ones. *)
Definition first_statement (toks s : list Token) : Prop :=
  Forall (fun t => ~ separator (tok_kind t)) s /\ exists after, toks = s ++ after /\ closed_after after.

Definition later_statement (toks s : list Token) : Prop :=
  Forall (fun t => ~ separator (tok_kind t)) s /\ exists b t after, toks = b ++ t :: s ++ after /\ separator (tok_kind t) /\ closed_after after.

Lemma first_cons x toks s : ~ separator (tok_kind x) -> first_statement (x :: toks) s <-> exists s', s = x :: s' /\ first_statement toks s'.
Proof.
  intros Hx. split.
  - intros [Hs (after & E & Ha)]. destruct s as [|y s]; [|injection E as -> ->; apply list.Forall_cons in Hs as [_ Hs]; exists s; split; [done|]; split; eauto].
    simpl in E. subst. destruct Ha as [?|(t & a & [= -> ->] & Ht)]; done.
  - intros (s' & -> & Hs & after & -> & Ha). split; [by constructor|]. by exists after.
Qed.

Lemma first_separator x toks s : separator (tok_kind x) -> first_statement (x :: toks) s <-> s = [].
Proof.
  intros Hx. split.
  - intros [Hs (after & E & _)]. destruct s as [|y s]; [done|]. injection E as -> _. by apply list.Forall_cons in Hs as [? _].
  - intros ->. split; [constructor|]. exists (x :: toks). split; [done|]. right. eauto.
Qed.

Lemma later_cons x toks s : later_statement (x :: toks) s <-> (separator (tok_kind x) /\ first_statement toks s) \/ later_statement toks s.
Proof.
  split.
  - intros [Hs (b & t & after & E & Ht & Ha)]. destruct b as [|y b]; injection E as -> ->; [left; split; [done|]; split; eauto|right; split; [done|]; eauto 10].
  - intros [[Hx [Hs (after & -> & Ha)]]|[Hs (b & t & after & -> & Ht & Ha)]]; (split; [done|]).
    + by exists [], x, after.
    + by exists (x :: b), t, after.
Qed.

Lemma split_statements toks : exists piece rest, split_slice ends_statement toks = piece :: rest /\
  (forall s, first_statement toks s <-> s = piece) /\ (forall s, later_statement toks s <-> s ∈ rest).
Proof.
  induction toks as [|x toks (piece & rest & E & H1 & H2)]; cbn [split_slice].
  - exists [], []. split; [done|]. split; intros s; split.
    + intros [_ (after & E & _)]. by destruct s.
    + intros ->. split; [constructor|]. exists []. split; [done|by left].
    + intros [_ (b & t & after & E & _)]. by destruct b.
    + intros H. by apply elem_of_nil in H.
  - rewrite E. destruct (ends_statement x) eqn:Ex.
    + apply ends_separator in Ex. exists [], (piece :: rest). split; [done|]. split; intros s; [by apply first_separator|].
      rewrite later_cons, elem_of_cons, H1, H2. tauto.
    + apply not_separator in Ex. exists (x :: piece), rest. split; [done|]. split; intros s.
      * rewrite first_cons by done. split; [intros (s' & -> & ->%H1); done|intros ->; exists piece; split; [done|by apply H1]].
      * rewrite later_cons, H2. tauto.
Qed.

Lemma elem_of_statements toks s : s ∈ split_slice ends_statement toks <-> statement_in toks s.
Proof.
  destruct (split_statements toks) as (piece & rest & -> & H1 & H2). rewrite elem_of_cons, <- H1, <- H2. split.
  - intros [[Hs (after & -> & Ha)]|[Hs (b & t & after & -> & Ht & Ha)]]; (split; [done|]).
    + exists [], after. split; [done|]. split; [by left|done].
    + exists (b ++ [t]), after. rewrite <- app_assoc. split; [done|]. split; [right; eauto|done].
  - intros [Hs (before & after & -> & [->|(b & t & -> & Ht)] & Ha)].
    + left. split; [done|]. by exists after.
    + right. split; [done|]. exists b, t, after. by rewrite <- app_assoc.
Qed.

Lemma comment_end l c :
  Forall (fun t => tok_kind t <> TComment) l -> (c = [] \/ exists t c', c = t :: c' /\ tok_kind t = TComment) ->
  take (default (length (l ++ c)) (position (has_kind TComment) (l ++ c))) (l ++ c) = l.
Proof.
  intros Hl Hc. induction Hl as [|t l Ht Hl IH].
  - destruct Hc as [->|(t & c' & -> & Ht)]; [done|]. simpl. unfold has_kind. by rewrite bool_decide_eq_true_2.
  - cbn [app position]. unfold has_kind at 1. rewrite bool_decide_eq_false_2 by done. destruct (position _ (l ++ c)) as [k|]; simpl in *; by rewrite IH.
Qed.

Lemma comment_split (l : list Token) :
  let t := take (default (length l) (position (has_kind TComment) l)) l in
  Forall (fun t => tok_kind t <> TComment) t /\ exists c, l = t ++ c /\ (c = [] \/ exists x c', c = x :: c' /\ tok_kind x = TComment).
Proof.
  induction l as [|x l IH]; cbn [position]; [split; [constructor|]; exists []; split; [done|by left]|]. unfold has_kind at 1 3.
  case_bool_decide as Hx; [split; [constructor|]; exists (x :: l); split; [done|right; eauto]|]. cbv zeta in *. destruct IH as [H1 (c & E & Hc)].
  destruct (position _ l) as [k|]; simpl in *; unfold id in *; (split; [by constructor|]; exists c; split; [cbn; by f_equal|done]).
Qed.

Lemma tokens_body raw : body_of raw (statement_tokens raw).
Proof.
  unfold statement_tokens. destruct (comment_split raw) as [Hn (c & E & Hc)]. cbv zeta in *. set (t := take _ raw) in *. clearbody t. subst raw.
  destruct t as [|x t]; [split; [done|]; exists [], c; split; [done|]; split; [by left|done]|]. unfold has_kind. case_bool_decide as Hx.
  - apply list.Forall_cons in Hn as [_ Hn]. split; [done|]. exists [x], c. split; [done|]. split; [right; eauto|done].
  - split; [done|]. exists [], c. split; [done|]. split; [by left|done].
Qed.

(** A statement that begins with a name is what the scanner looks at. *)
Lemma body_tokens raw st t l : body_of raw st -> st = t :: l -> tok_kind t = TIdentifier -> statement_tokens raw = st.
Proof.
  intros [Hn (label & c & -> & Hl & Hc)] -> Ht. unfold statement_tokens.
  destruct Hl as [->|(x & -> & Hx)].
  - rewrite app_nil_l, comment_end by done. cbn [app]. unfold has_kind. by rewrite bool_decide_eq_false_2 by congruence.
  - assert (Hn' : Forall (fun t => tok_kind t <> TComment) (x :: t :: l)) by (constructor; [congruence|done]).
    change ([x] ++ (t :: l) ++ c) with ((x :: t :: l) ++ c). rewrite comment_end by done. unfold has_kind. by rewrite bool_decide_eq_true_2.
Qed.

Lemma is_named t w : to_ascii_lowercase w = w -> is_identifier t w = true <-> word_is t w.
Proof. intros E. unfold is_identifier, eq_ignore_ascii_case, word_is. rewrite andb_true_iff, !bool_decide_eq_true, E. done. Qed.

Lemma identifier_named t s : to_ascii_lowercase <$> identifier t = Some s <-> word_is t s.
Proof. unfold identifier, word_is. case_bool_decide; simpl; naive_solver. Qed.

Lemma kind_is k t : has_kind k t = true <-> tok_kind t = k.
Proof. apply bool_decide_eq_true. Qed.

Lemma submodule_found st ancestor parent name :
  submodule_statement st ancestor parent name -> submodule_definition st = Some (ancestor +:+ ":" +:+ name, ancestor, parent).
Proof.
  assert (Hid : forall t s, word_is t s -> has_kind TRParen t = false).
  { intros t s [H _]. unfold has_kind. by rewrite bool_decide_eq_false_2 by congruence. }
  intros [s o a c n rest anc nm Hs Ho Ha Hc Hn|s o a colon b c n rest anc par nm Hs Ho Ha Hcol Hb Hc Hn]; unfold submodule_definition;
    rewrite (proj2 (is_named s "submodule" eq_refl) Hs), (proj2 (kind_is _ _) Ho); cbn [andb position].
  - rewrite (Hid a anc Ha), (proj2 (kind_is _ _) Hc). cbn. rewrite (proj2 (identifier_named a anc) Ha). cbn. by rewrite (proj2 (identifier_named n nm) Hn).
  - rewrite (Hid a anc Ha), (Hid b par Hb), (proj2 (kind_is _ _) Hc). assert (has_kind TRParen colon = false) as -> by (unfold has_kind; by rewrite Hcol).
    cbn. rewrite (proj2 (identifier_named a anc) Ha). cbn. rewrite (proj2 (kind_is _ _) Hcol). destruct Hb as [Hbk Hbt]. rewrite (proj2 (kind_is _ _) Hbk). cbn.
    rewrite (proj2 (identifier_named n nm) Hn). cbn. by rewrite Hbt.
Qed.

Lemma found_submodule st d ancestor parent :
  submodule_definition st = Some (d, ancestor, parent) -> exists name, d = ancestor +:+ ":" +:+ name /\ submodule_statement st ancestor parent name.
Proof.
  unfold submodule_definition. destruct st as [|s [|o rest]]; [done..|]. destruct (is_identifier s "submodule" && has_kind TLParen o) eqn:E; [|done].
  apply andb_true_iff in E as [Hs%(is_named s "submodule" eq_refl) Ho%kind_is].
  destruct (position (has_kind TRParen) rest) as [close|] eqn:Ec; [|done]. apply position_Some in Ec as (c & Hc & Hck%kind_is). cbn [mbind option_bind].
  rewrite <- (take_drop_middle _ _ _ Hc). set (tl := drop (S close) rest). assert (Hl : length (take close rest) = close) by (apply length_take_le; apply lookup_lt_Some in Hc; lia).
  assert (Hnext : forall p, length p = close -> (p ++ c :: tl) !! S close = head tl).
  { intros p Hp. rewrite lookup_app_r by lia. replace (S close - length p)%nat with 1%nat by lia. by destruct tl. }
  rewrite (Hnext _ Hl), take_app_length' by done. destruct (take close rest) as [|a p] eqn:Ep; [done|]. cbn [mbind option_bind lookup list_lookup].
  destruct (to_ascii_lowercase <$> identifier a) as [anc|] eqn:Ea; [|done]. cbn [mbind option_bind]. apply identifier_named in Ea.
  destruct p as [|colon [|b [|]]]; try done.
  - cbn [mbind option_bind]. destruct tl as [|n tl']; [done|]. cbn [head mbind option_bind]. destruct (to_ascii_lowercase <$> identifier n) as [nm|] eqn:En; [|done].
    cbn [mbind option_bind]. intros [= <- <- <-]. apply identifier_named in En. exists nm. split; [done|]. by constructor.
  - destruct (has_kind TColon colon && has_kind TIdentifier b) eqn:Ek; [|done]. apply andb_true_iff in Ek as [Hcol%kind_is Hb%kind_is]. cbn [mbind option_bind].
    destruct tl as [|n tl']; [done|]. cbn [head mbind option_bind]. destruct (to_ascii_lowercase <$> identifier n) as [nm|] eqn:En; [|done].
    cbn [mbind option_bind]. intros [= <- <- <-]. apply identifier_named in En. exists nm. split; [done|]. by constructor.
Qed.

Lemma use_found st name : use_dependency st = Some name <->
  (exists u m rest, st = u :: m :: rest /\ word_is u "use" /\ word_is m name) \/
  (exists u cc m rest, st = u :: cc :: m :: rest /\ word_is u "use" /\ tok_kind cc = TColonColon /\ word_is m name) \/
  (exists u comma w nature cc m rest, st = u :: comma :: w :: cc :: m :: rest /\ word_is u "use" /\ tok_kind comma = TComma /\ word_is w nature /\
     nature <> "intrinsic" /\ tok_kind cc = TColonColon /\ word_is m name).
Proof.
  split.
  - unfold use_dependency. destruct st as [|u [|t rest]]; [done| |]; (destruct (is_identifier u "use") eqn:Eu; [|done]); [done|].
    apply (is_named u "use" eq_refl) in Eu. destruct (has_kind TComma t) eqn:Ec.
    + apply kind_is in Ec. destruct rest as [|w rest]; [done|]. cbn [lookup list_lookup mbind option_bind]. destruct (identifier w) as [nt|] eqn:Ew; [|done]. cbn [mbind option_bind].
      destruct rest as [|cc rest]; [done|]. cbn [lookup list_lookup mbind option_bind]. destruct (has_kind TColonColon cc) eqn:Ecc; [|done]. apply kind_is in Ecc.
      destruct rest as [|m rest]; [done|]. cbn [lookup list_lookup mbind option_bind]. destruct (identifier m) as [nm|] eqn:Em; [|done]. cbn [mbind option_bind].
      destruct (eq_ignore_ascii_case nt "intrinsic") eqn:Ei; [done|]. intros [= <-]. right. right.
      apply bool_decide_eq_false in Ei. change (to_ascii_lowercase "intrinsic") with "intrinsic" in Ei.
      exists u, t, w, (to_ascii_lowercase nt), cc, m, rest. split_and!; try done; apply identifier_named; [by rewrite Ew|by rewrite Em].
    + destruct (has_kind TColonColon t) eqn:Ecc.
      * apply kind_is in Ecc. destruct rest as [|m rest]; [done|]. cbn [lookup list_lookup mbind option_bind]. intros H%identifier_named. right. left. by exists u, t, m, rest.
      * intros H%identifier_named. left. by exists u, t, rest.
  - assert (Hk : forall t s k, word_is t s -> k <> TIdentifier -> has_kind k t = false).
    { intros t s k [H _] Hne. unfold has_kind. by rewrite bool_decide_eq_false_2 by congruence. }
    intros [(u & m & rest & -> & Hu & Hm)|[(u & cc & m & rest & -> & Hu & Hcc & Hm)|(u & comma & w & nt & cc & m & rest & -> & Hu & Hco & Hw & Hni & Hcc & Hm)]];
      unfold use_dependency; rewrite (proj2 (is_named u "use" eq_refl) Hu).
    + rewrite !(Hk _ _ _ Hm) by done. by apply identifier_named.
    + assert (has_kind TComma cc = false) as -> by (unfold has_kind; by rewrite Hcc). rewrite (proj2 (kind_is _ _) Hcc). cbn. by apply identifier_named.
    + rewrite (proj2 (kind_is _ _) Hco). cbn. destruct Hw as [Hwk Hwt], Hm as [Hmk Hmt]. unfold identifier. rewrite !bool_decide_eq_true_2 by done. cbn.
      rewrite (proj2 (kind_is _ _) Hcc). cbn. unfold eq_ignore_ascii_case. change (to_ascii_lowercase "intrinsic") with "intrinsic".
      rewrite bool_decide_eq_false_2 by (by rewrite Hwt). by rewrite Hmt.
Qed.

Lemma module_found st name : module_definition st = Some name <-> exists m n, st = [m; n] /\ word_is m "module" /\ word_is n name.
Proof.
  unfold module_definition. split.
  - destruct st as [|m [|n [|]]]; try done. destruct (is_identifier m "module") eqn:E; [|done]. apply (is_named m "module" eq_refl) in E. intros H%identifier_named. by exists m, n.
  - intros (m & n & -> & Hm & Hn). rewrite (proj2 (is_named m "module" eq_refl) Hm). by apply identifier_named.
Qed.

(** A submodule statement is neither of the others. *)
Lemma submodule_first st a p n : submodule_statement st a p n -> exists t l, st = t :: l /\ word_is t "submodule".
Proof. intros []; eauto. Qed.

Lemma first_word st t l v w : st = t :: l -> word_is t v -> (exists t' l', st = t' :: l' /\ word_is t' w) -> v = w.
Proof. intros -> [_ H1] (t' & l' & [= <- <-] & [_ H2]). congruence. Qed.

Lemma uses_found raw key : key ∈ statement_uses raw <-> exists st, body_of raw st /\ uses_module st key.
Proof.
  unfold statement_uses. split.
  - destruct (submodule_definition _) as [[[d a] p]|] eqn:E.
    + intros ->%list_elem_of_singleton. apply found_submodule in E as (n & _ & H). exists (statement_tokens raw). split; [apply tokens_body|by eapply use_parent].
    + destruct (use_dependency _) as [name|] eqn:Eu; [|intros H; by apply elem_of_nil in H]. intros ->%list_elem_of_singleton. exists (statement_tokens raw). split; [apply tokens_body|].
      apply use_found in Eu as [(u & m & rest & -> & ?)|[(u & cc & m & rest & -> & ?)|(u & comma & w & nt & cc & m & rest & -> & ?)]]; destruct_and?; by econstructor.
  - intros (st & Hb & Hu). assert (Hfirst : exists t l, st = t :: l /\ tok_kind t = TIdentifier).
    { destruct Hu as [u ? ? ? [? _]|u ? ? ? ? [? _]|u ? ? ? ? ? ? ? [? _]|? ? ? ? Hs]; [by do 2 eexists..|]. apply submodule_first in Hs as (t & l & -> & [? _]). eauto. }
    destruct Hfirst as (t & l & E & Ht). rewrite (body_tokens raw st t l Hb E Ht).
    assert (Hno : use_dependency st = Some key -> submodule_definition st = None).
    { intros Hd. destruct (submodule_definition st) as [[[d a] p]|] eqn:Es; [|done]. exfalso. apply found_submodule in Es as (n & _ & Hs).
      destruct (submodule_first _ _ _ _ Hs) as (t1 & l1 & E1 & N1). enough ("submodule" = "use") by done. eapply first_word; [exact E1|exact N1|].
      apply use_found in Hd as [(u & m & rest & -> & ? & _)|[(u & cc & m & rest & -> & ? & _)|(u & comma & w & nt & cc & m & rest & -> & ? & _)]]; eauto. }
    assert (Huse : use_dependency st = Some key -> key ∈ match submodule_definition st with Some (_, _, q) => [q] | None => option_list (use_dependency st) end).
    { intros Hd. rewrite (Hno Hd), Hd. left. }
    destruct Hu as [u m rest name ? ?|u cc m rest name ? ? ?|u comma w nt cc m rest name ? ? ? ? ? ?|st a p n Hs]; [apply Huse, use_found..|].
    + left. by exists u, m, rest.
    + right. left. by exists u, cc, m, rest.
    + right. right. by exists u, comma, w, nt, cc, m, rest.
    + rewrite (submodule_found _ _ _ _ Hs). left.
Qed.

Lemma defines_found raw key : key ∈ statement_defines raw <-> exists st, body_of raw st /\ defines_module st key.
Proof.
  unfold statement_defines. split.
  - destruct (submodule_definition _) as [[[d a] p]|] eqn:E.
    + intros ->%list_elem_of_singleton. apply found_submodule in E as (n & -> & H). exists (statement_tokens raw). split; [apply tokens_body|by eapply define_submodule].
    + destruct (module_definition _) as [name|] eqn:Em; [|intros H; by apply elem_of_nil in H]. intros ->%list_elem_of_singleton. exists (statement_tokens raw). split; [apply tokens_body|].
      apply module_found in Em as (m & n & -> & ? & ?). by constructor.
  - intros (st & Hb & Hd). assert (Hfirst : exists t l, st = t :: l /\ tok_kind t = TIdentifier).
    { destruct Hd as [m n name [? _] _|? ? ? ? Hs]; [by do 2 eexists|]. apply submodule_first in Hs as (t & l & -> & [? _]). eauto. }
    destruct Hfirst as (t & l & E & Ht). rewrite (body_tokens raw st t l Hb E Ht).
    destruct Hd as [m n name Hm Hn|st a p n Hs]; [|rewrite (submodule_found _ _ _ _ Hs); left].
    destruct (submodule_definition [m; n]) as [[[d a] p]|] eqn:Es.
    + exfalso. apply found_submodule in Es as (k & _ & Hs). by inversion Hs.
    + rewrite (proj2 (module_found [m; n] name)) by eauto. left.
Qed.

(** The scanned files of a command line: each path with its tokens. *)
Definition scan_all (sources : list (string * list Token)) : list FileDeps := (fun s => scan_tokens s.1 s.2) <$> sources.

(** A file has a statement that uses, or defines, a module. *)
Definition file_uses (toks : list Token) (key : string) : Prop := exists raw st, statement_in toks raw /\ body_of raw st /\ uses_module st key.
Definition file_defines (toks : list Token) (key : string) : Prop := exists raw st, statement_in toks raw /\ body_of raw st /\ defines_module st key.

Lemma scanned_exactly p toks key :
  (key ∈ uses (scan_tokens p toks) <-> file_uses toks key) /\ (key ∈ defines (scan_tokens p toks) <-> file_defines toks key).
Proof.
  destruct (elem_of_scanned p toks key) as [-> ->]. unfold file_uses, file_defines. split; split.
  - intros (raw & Hr%elem_of_statements & (st & ?)%uses_found). eauto.
  - intros (raw & st & Hr & ?). exists raw. split; [by apply elem_of_statements|]. apply uses_found. eauto.
  - intros (raw & Hr%elem_of_statements & (st & ?)%defines_found). eauto.
  - intros (raw & st & Hr & ?). exists raw. split; [by apply elem_of_statements|]. apply defines_found. eauto.
Qed.

(** C22: scanning and ordering together.  The scan of a file finds exactly the modules that its statements use ([use m],
    [use :: m], [use, nature :: m] unless the nature is [intrinsic], and the parent of a submodule, itself perhaps a submodule)
    and define, whatever the case of the names and the labels and comments on the statements; and in an order the driver
    accepts, the file that defines a module comes before every other file that uses it. *)
Theorem definition_before_use sources order i j pi ti pj tj key :
  sources !! i = Some (pi, ti) -> sources !! j = Some (pj, tj) ->
  (key ∈ uses (scan_tokens pi ti) <-> file_uses ti key) /\ (key ∈ defines (scan_tokens pj tj) <-> file_defines tj key) /\
  (resolve_compilation_order (scan_all sources) = Some (inl order) -> i <> j -> file_uses ti key -> file_defines tj key ->
   exists before between after, order = before ++ j :: between ++ i :: after).
Proof.
  intros Hi Hj. split; [apply scanned_exactly|]. split; [apply scanned_exactly|]. intros Er Hne Hu Hd.
  apply (scanned_exactly pi) in Hu. apply (scanned_exactly pj) in Hd. destruct (module_to_file (scan_all sources)) as [m|e] eqn:E.
  2: { unfold resolve_compilation_order in Er. rewrite E in Er. done. }
  assert (Hdep : depends (scan_all sources) i j).
  { split; [done|]. exists (scan_tokens pi ti), key. unfold scan_all, provides. rewrite !list_lookup_fmap, Hi, Hj. split_and!; [done|done|].
    by exists (scan_tokens pj tj), key. }
  destruct (order_outcome _ m E) as [(_ & o & Eo & Hp & Hdf)|(_ & n & Eo & _)]; [|by rewrite Eo in Er]. rewrite Er in Eo. injection Eo as <-.
  assert (Hin : i ∈ order). { rewrite Hp. apply elem_of_seq. apply depends_lt in Hdep. lia. }
  apply list_elem_of_split in Hin as (before & after & ->). pose proof (Hdf _ _ _ _ eq_refl Hdep) as Hjb.
  apply list_elem_of_split in Hjb as (b1 & b2 & ->). exists b1, b2, after. by rewrite <- app_assoc.
Qed.

Definition word (s : string) : Token := {| tok_kind := TIdentifier; tok_text := s |}.
Definition mark (k : TokenKind) : Token := {| tok_kind := k; tok_text := EmptyString |}.

(** A program that uses a module, a module, and a submodule of it. *)
Definition sample_sources : list (string * list Token) :=
  [("main.f90", [word "program"; word "p"; mark TNewline; word "USE"; word "Shapes"; mark TComma; word "only"; mark TColon; word "area"; mark TNewline;
                 word "use"; mark TComma; word "intrinsic"; mark TColonColon; word "iso_c_binding"; mark TSemicolon; word "end"; mark TNewline; mark TEof]);
   ("impl.f90", [word "submodule"; mark TLParen; word "shapes"; mark TRParen; word "impl"; mark TNewline; word "end"; mark TNewline; mark TEof]);
   ("shapes.f90", [word "module"; word "shapes"; mark TComment; mark TNewline; word "end"; word "module"; mark TNewline; mark TEof])].

(** The order puts the module first; a cycle is reported with the file that depends on it. *)
Example sample_order : resolve_compilation_order (scan_all sample_sources) = Some (inl [2; 0; 1]%nat).
Proof. vm_compute. reflexivity. Qed.

Example sample_cycle :
  resolve_compilation_order
    [{| path := "a"; defines := ["a"]; uses := ["b"]; submodule_of := None |};
     {| path := "b"; defines := ["b"]; uses := ["a"]; submodule_of := None |};
     {| path := "c"; defines := ["c"]; uses := ["a"]; submodule_of := None |};
     {| path := "d"; defines := ["d"]; uses := []; submodule_of := None |}]
  = Some (inr (Circular [0; 1; 2]%nat)).
Proof. vm_compute. reflexivity. Qed.

(** The program uses the module in its second statement. *)
Lemma main_uses_shapes : file_uses (nth 0 sample_sources ("", [])).2 "shapes".
Proof.
  exists [word "USE"; word "Shapes"; mark TComma; word "only"; mark TColon; word "area"], [word "USE"; word "Shapes"; mark TComma; word "only"; mark TColon; word "area"].
  split; [|split].
  - split; [repeat (apply list.Forall_cons; split; [by intros [|[|]]|]); constructor|].
    exists [word "program"; word "p"; mark TNewline], [mark TNewline; word "use"; mark TComma; word "intrinsic"; mark TColonColon; word "iso_c_binding"; mark TSemicolon; word "end"; mark TNewline; mark TEof].
    split; [reflexivity|]. split; right; [exists [word "program"; word "p"], (mark TNewline)|do 2 eexists]; (split; [reflexivity|by left]).
  - split; [repeat (apply list.Forall_cons; split; [done|]); constructor|]. exists [], []. split; [reflexivity|]. split; by left.
  - by apply use_plain.
Qed.

Lemma shapes_defined : file_defines (nth 2 sample_sources ("", [])).2 "shapes".
Proof.
  exists [word "module"; word "shapes"; mark TComment], [word "module"; word "shapes"]. split; [|split].
  - split; [repeat (apply list.Forall_cons; split; [by intros [|[|]]|]); constructor|].
    exists [], [mark TNewline; word "end"; word "module"; mark TNewline; mark TEof]. split; [reflexivity|]. split; [by left|right]. do 2 eexists. split; [reflexivity|by left].
  - split; [repeat (apply list.Forall_cons; split; [done|]); constructor|]. exists [], [mark TComment]. split; [reflexivity|]. split; [by left|right]. by do 2 eexists.
  - by constructor.
Qed.

Lemma definition_before_use_witness : exists before between after, [2; 0; 1]%nat = before ++ 2%nat :: between ++ 0%nat :: after.
Proof.
  destruct (definition_before_use sample_sources [2; 0; 1]%nat 0%nat 2%nat _ _ _ _ "shapes" eq_refl eq_refl) as (_ & _ & H).
  apply H; [vm_compute; reflexivity|lia|exact main_uses_shapes|exact shapes_defined].
Defined.
