(* ===== verification/AstExpr.v ===== *)
(** The expressions of the syntax tree (src/src/ast/expr.rs) and the type specifiers of
    declarations (src/src/ast/decl.rs).  Source spans are left out. *)

From S2P Require Import Prelude.
From stdpp Require Import list.
From S2P Require Import Tokens.

Inductive BozBase := BozBinary | BozOctal | BozHex.

Inductive UnaryOp := UPlus | UMinus | UNot | UDefined (name : string).

Inductive BinaryOp :=
| OpAdd | OpSub | OpMul | OpDiv | OpPow
| OpConcat
| OpEq | OpNe | OpLt | OpLe | OpGt | OpGe
| OpAnd | OpOr | OpEqv | OpNeqv
| OpDefined (name : string).

(** Literal contents with their provenance: escaped source bytes or plain text. *)
Record StringLiteralValue := { sl_text : string; sl_source_view : bool }.

Inductive Expr :=
| IntegerLiteral (text : string) (kind : option string)
| RealLiteral (text : string) (kind : option string)
| StringLiteral (value : StringLiteralValue) (kind : option string)
| LogicalLiteral (value : bool) (kind : option string)
| ComplexLiteral (real imag : Expr)
| BozLiteral (text : string) (base : BozBase)
| Name (name : string)
| ComponentAccess (base : Expr) (component : string)
| UnaryExpr (op : UnaryOp) (operand : Expr)
| BinaryExpr (op : BinaryOp) (left right : Expr)
| FunctionCall (callee : Expr) (args : list Argument)
| ArrayConstructor (type_spec : option string) (values : list AcValue)
| ParenExpr (inner : Expr)
| NilArgument
| ConditionalExpr (cond then_val else_val : Expr)
with Argument :=
| mkArgument (keyword : option string) (value : SectionSubscript)
with SectionSubscript :=
| Element (e : Expr)
| Range (start end_ stride : option Expr)
with AcValue :=
| AcExpr (e : Expr)
| ImpliedDo (values : list AcValue) (var : string) (start end_ : Expr) (step : option Expr).

(** Kind and length selectors and the type specifiers. *)
Inductive KindSelector := KindExpr (e : Expr) | KindStar (e : Expr).
Inductive LenSpec := LenExpr (e : Expr) | LenStar | LenColon.
Record CharSelector := { cs_len : option LenSpec; cs_kind : option Expr }.

Inductive TypeSpec :=
| TyInteger (k : option KindSelector) | TyReal (k : option KindSelector) | TyDoublePrecision
| TyComplex (k : option KindSelector) | TyDoubleComplex | TyLogical (k : option KindSelector)
| TyCharacter (c : option CharSelector)
| TyType (name : string) | TyClass (name : string) | TyClassStar | TyTypeStar
| TyTypeOf (name : string) | TyClassOf (name : string).

(** The shape of a procedure designator. *)
Fixpoint is_data_ref_shape (e : Expr) : bool :=
  match e with
  | Name _ => true
  | ComponentAccess base _ => is_data_ref_shape base
  | FunctionCall callee _ => is_data_ref_shape callee
  | _ => false
  end.

Definition is_procedure_designator_shape (e : Expr) : bool :=
  match e with
  | Name _ => true
  | ComponentAccess base _ => is_data_ref_shape base
  | _ => false
  end.
