(* ===== verification/Parser.v ===== *)
(** The parser's state and primitives (src/src/parser/mod.rs).

    A parsing function takes the state and gives a value, an error, a panic, or no result
    when the fuel of its model runs out.  An error keeps the state it was raised in: the
    callers that backtrack reset the position only. *)

From S2P Require Import Prelude.
From stdpp Require Import list.
From S2P Require Import Tokens.

Record Parser := {
  tokens : list Token;
  pos : nat;
  expr_depth : nat;
  slash_array_ctor_depth : nat;
  source_view : bool;
  fixed_form : bool }.

Definition with_pos (n : nat) (p : Parser) : Parser :=
  {| tokens := tokens p; pos := n; expr_depth := expr_depth p; slash_array_ctor_depth := slash_array_ctor_depth p;
     source_view := source_view p; fixed_form := fixed_form p |}.
Definition with_expr_depth (n : nat) (p : Parser) : Parser :=
  {| tokens := tokens p; pos := pos p; expr_depth := n; slash_array_ctor_depth := slash_array_ctor_depth p;
     source_view := source_view p; fixed_form := fixed_form p |}.
Definition with_slash_depth (n : nat) (p : Parser) : Parser :=
  {| tokens := tokens p; pos := pos p; expr_depth := expr_depth p; slash_array_ctor_depth := n;
     source_view := source_view p; fixed_form := fixed_form p |}.

Definition with_mode (toks : list Token) (sv ff : bool) : Parser :=
  {| tokens := toks; pos := 0; expr_depth := 0; slash_array_ctor_depth := 0; source_view := sv; fixed_form := ff |}.

(** What an error message reports. *)
Inductive ParseError :=
| NestingLimit | ChainedComparison | ExpectedExpression (got : TokenKind) | Expected (want got : TokenKind)
| ExpectedComponent (got : TokenKind) | ExpectedOperator (got : TokenKind) | UnknownDotOperator (name : string)
| ExpectedKindPrefix | ExpectedStringAfterKind (got : TokenKind) | NotImpliedDo
| ExpectedTypeName (got : TokenKind) | ExpectedEntityName (got : TokenKind) | ParameterizedType.

Inductive Res (A : Type) :=
| ROk (a : A) (p : Parser)
| RErr (e : ParseError) (p : Parser)
| RPanic
| RFuel.
#[global] Arguments ROk {A} a p.
#[global] Arguments RErr {A} e p.
#[global] Arguments RPanic {A}.
#[global] Arguments RFuel {A}.

Definition P (A : Type) : Type := Parser -> Res A.

#[global] Instance P_ret : MRet P := fun A a p => ROk a p.
#[global] Instance P_bind : MBind P := fun A B f m p =>
  match m p with
  | ROk a p => f a p
  | RErr e p => RErr e p
  | RPanic => RPanic
  | RFuel => RFuel
  end.

Definition panic {A} : P A := fun _ => RPanic.
Definition no_fuel {A} : P A := fun _ => RFuel.

(** Continue by looking at the state. *)
Definition inspect {A} (f : Parser -> P A) : P A := fun p => f p p.

(** * Looking at the tokens *)

Definition peek (p : Parser) : TokenKind := match tokens p !! pos p with Some t => tok_kind t | None => TEof end.

Definition peek_kind_at (n : nat) (p : Parser) : option TokenKind := tok_kind <$> tokens p !! (pos p + n)%nat.

Definition peek_text (p : Parser) : string := match tokens p !! pos p with Some t => tok_text t | None => EmptyString end.

(** The current token, or the last one past the end. *)
Definition current (p : Parser) : option Token :=
  match tokens p !! pos p with
  | Some t => Some t
  | None => last (tokens p)
  end.

Definition kind_now : P TokenKind := fun p => ROk (peek p) p.
Definition text_now : P string := fun p => ROk (peek_text p) p.
Definition kind_after (n : nat) : P (option TokenKind) := fun p => ROk (peek_kind_at n p) p.
Definition source_view_now : P bool := fun p => ROk (source_view p) p.
Definition position_now : P nat := fun p => ROk (pos p) p.
Definition reset_position (n : nat) : P unit := fun p => ROk tt (with_pos n p).

(** An error is raised at the current token. *)
Definition error {A} (e : ParseError) : P A := fun p => match current p with Some _ => RErr e p | None => RPanic end.
(** An error of a given token. *)
Definition raise {A} (e : ParseError) : P A := fun p => RErr e p.
Definition current_span : P unit := fun p => match current p with Some _ => ROk tt p | None => RPanic end.

(** * Moving *)

Definition advance : P Token := fun p =>
  match tokens p !! Nat.min (pos p) (pred (length (tokens p))) with
  | Some t => ROk t (if (pos p <? length (tokens p))%nat then with_pos (S (pos p)) p else p)
  | None => RPanic
  end.

Definition eat (k : TokenKind) : P bool :=
  k' ← kind_now;
  if bool_decide (k' = k) then _ ← advance; mret true else mret false.

Definition eat_ident (name : string) : P bool :=
  k ← kind_now;
  text ← text_now;
  if bool_decide (k = TIdentifier) && eq_ignore_ascii_case text name then _ ← advance; mret true else mret false.

Definition expect (k : TokenKind) : P Token :=
  k' ← kind_now;
  if bool_decide (k' = k) then advance else error (Expected k k').

(** Past newlines, comments and semicolons. *)
Definition skippable (k : TokenKind) : bool := bool_decide (k = TNewline) || bool_decide (k = TComment) || bool_decide (k = TSemicolon).

Fixpoint skip_newlines (fuel : nat) : P unit :=
  match fuel with
  | O => no_fuel
  | S fuel => k ← kind_now; if skippable k then _ ← advance; skip_newlines fuel else mret tt
  end.

Definition ends_stmt (k : TokenKind) : bool :=
  bool_decide (k = TNewline) || bool_decide (k = TSemicolon) || bool_decide (k = TEof) || bool_decide (k = TComment).

Definition at_stmt_end (p : Parser) : bool := ends_stmt (peek p).

Definition at_stmt_end_after (n : nat) (p : Parser) : bool := match peek_kind_at n p with None => true | Some k => ends_stmt k end.

(** Cutting an identifier of a fixed-form source in two (identifiers are ASCII). *)
Definition split_fixed_identifier_at (token_index prefix_len : nat) (p : Parser) : bool * Parser :=
  if fixed_form p then
    match tokens p !! token_index with
    | None => (false, p)
    | Some t =>
        if bool_decide (tok_kind t <> TIdentifier) || bool_decide (prefix_len = 0%nat) || (String.length (tok_text t) <=? prefix_len)%nat
        then (false, p)
        else
          let cut := [{| tok_kind := tok_kind t; tok_text := String.substring 0 prefix_len (tok_text t) |};
                      {| tok_kind := tok_kind t; tok_text := String.substring prefix_len (String.length (tok_text t) - prefix_len) (tok_text t) |}] in
          (true, {| tokens := take token_index (tokens p) ++ cut ++ drop (S token_index) (tokens p); pos := pos p; expr_depth := expr_depth p;
                    slash_array_ctor_depth := slash_array_ctor_depth p; source_view := source_view p; fixed_form := fixed_form p |})
    end
  else (false, p).
