(* ===== verification/ParseExpr.v ===== *)
(** The expression parser (src/src/parser/expr.rs) and the type specifiers it tries at the
    head of an array constructor (src/src/parser/decl.rs).

    The functions of the source call one another, so each recursive one is a constructor of
    [call], named after it (a loop inside a function is a call of its own), and its body is
    a definition over the calls it makes, [rec].  [run] ties the knot with fuel.  Keywords are compared
    after ASCII lowering: no other character has a lower-case form inside a keyword.  Texts
    are byte strings. *)

From Stdlib Require Import Ascii.
From S2P Require Import Prelude.
From stdpp Require Import list.
From S2P Require Import Tokens AstExpr Parser.

Local Open Scope string_scope.
Local Open Scope list_scope.

(** * Binding powers *)

Record Bp := { bp_left : nat; bp_right : nat }.

Definition BP_DEFINED_BINARY := {| bp_left := 2; bp_right := 3 |}.
Definition BP_EQV := {| bp_left := 4; bp_right := 5 |}.
Definition BP_OR := {| bp_left := 6; bp_right := 7 |}.
Definition BP_AND := {| bp_left := 8; bp_right := 9 |}.
Definition BP_NOT : nat := 10.
Definition BP_COMPARISON := {| bp_left := 12; bp_right := 12 |}.
Definition BP_CONCAT := {| bp_left := 14; bp_right := 15 |}.
Definition BP_ADD := {| bp_left := 16; bp_right := 17 |}.
Definition BP_MUL := {| bp_left := 20; bp_right := 21 |}.
Definition BP_UNARY_ADD : nat := 22.
Definition BP_POW := {| bp_left := 23; bp_right := 22 |}.
Definition BP_DEFINED_UNARY : nat := 24.

Definition EXPR_NESTING_LIMIT : nat := 1024.

Definition slash_closes_array_constructor (p : Parser) : bool :=
  (0 <? slash_array_ctor_depth p)%nat && bool_decide (peek_kind_at 1 p = Some TRParen).

Definition dot_bp (name : string) : option Bp :=
  if bool_decide (name ∈ ["eq"; "ne"; "lt"; "le"; "gt"; "ge"]) then Some BP_COMPARISON
  else if bool_decide (name = "and") then Some BP_AND
  else if bool_decide (name = "or") then Some BP_OR
  else if bool_decide (name = "eqv") then Some BP_EQV
  else if bool_decide (name = "neqv") then Some BP_EQV
  else None.

Definition infix_bp (p : Parser) : option Bp :=
  match peek p with
  | TPower => Some BP_POW
  | TStar => Some BP_MUL
  | TSlash => if slash_closes_array_constructor p then None else Some BP_MUL
  | TPlus | TMinus => Some BP_ADD
  | TConcat => Some BP_CONCAT
  | TEq | TNe | TLt | TLe | TGt | TGe => Some BP_COMPARISON
  | TDotOp name => dot_bp name
  | TDefinedOp _ => Some BP_DEFINED_BINARY
  | _ => None
  end.

Definition dot_binary_op (name : string) : option BinaryOp :=
  if bool_decide (name = "eq") then Some OpEq
  else if bool_decide (name = "ne") then Some OpNe
  else if bool_decide (name = "lt") then Some OpLt
  else if bool_decide (name = "le") then Some OpLe
  else if bool_decide (name = "gt") then Some OpGt
  else if bool_decide (name = "ge") then Some OpGe
  else if bool_decide (name = "and") then Some OpAnd
  else if bool_decide (name = "or") then Some OpOr
  else if bool_decide (name = "eqv") then Some OpEqv
  else if bool_decide (name = "neqv") then Some OpNeqv
  else None.

Definition token_to_binary_op (t : Token) : BinaryOp + ParseError :=
  match tok_kind t with
  | TPlus => inl OpAdd | TMinus => inl OpSub | TStar => inl OpMul | TSlash => inl OpDiv | TPower => inl OpPow
  | TConcat => inl OpConcat
  | TEq => inl OpEq | TNe => inl OpNe | TLt => inl OpLt | TLe => inl OpLe | TGt => inl OpGt | TGe => inl OpGe
  | TDotOp name => match dot_binary_op name with Some op => inl op | None => inr (UnknownDotOperator name) end
  | TDefinedOp name => inl (OpDefined name)
  | k => inr (ExpectedOperator k)
  end.

(** * Literals *)

(** The text before and after the first occurrence of a character. *)
Fixpoint cut_at (c : ascii) (s : string) : option (string * string) :=
  match s with
  | EmptyString => None
  | String c' s' =>
      if Ascii.eqb c c' then Some (EmptyString, s')
      else match cut_at c s' with Some (a, b) => Some (String c' a, b) | None => None end
  end.

Definition split_kind_suffix (text : string) : string * option string :=
  match cut_at "_"%char text with
  | Some (num, kind) => match kind with EmptyString => (text, None) | _ => (num, Some kind) end
  | None => (text, None)
  end.

(** [replace] of a doubled quote by a single one. *)
Fixpoint undouble (q : ascii) (s : string) : string :=
  match s with
  | String c ((String c' s') as rest) => if Ascii.eqb c q && Ascii.eqb c' q then String q (undouble q s') else String c (undouble q rest)
  | _ => s
  end.

Definition single_quote : ascii := "039"%char.
Definition double_quote : ascii := "034"%char.

Definition literal_value (text : string) : string :=
  if (2 <=? String.length text)%nat then
    let inner := String.substring 1 (String.length text - 2) text in
    match text with
    | String c _ => if Ascii.eqb c single_quote then undouble single_quote inner
                    else if Ascii.eqb c double_quote then undouble double_quote inner else inner
    | EmptyString => inner
    end
  else text.

(** [ends_with] and [strip_suffix] of an underscore. *)
Fixpoint strip_underscore (s : string) : option string :=
  match s with
  | EmptyString => None
  | String c EmptyString => if Ascii.eqb c "_"%char then Some EmptyString else None
  | String c s' => String c <$> strip_underscore s'
  end.

Definition ends_with_underscore (s : string) : bool := match strip_underscore s with Some _ => true | None => false end.

Fixpoint trim_end_dots (s : string) : string :=
  match s with
  | EmptyString => EmptyString
  | String c s' => match trim_end_dots s' with
                   | EmptyString => if Ascii.eqb c "."%char then EmptyString else String c EmptyString
                   | t => String c t
                   end
  end.

Definition logical_value (text : string) : bool :=
  match String.index 0 "true" (to_ascii_lowercase text) with Some _ => true | None => false end.

Definition logical_kind (text : string) : option string :=
  let lower := to_ascii_lowercase text in
  (fun n => trim_end_dots (String.substring (n + 2) (String.length lower - (n + 2)) lower)) <$> String.index 0 "._" lower.

Definition boz_base (c : ascii) : BozBase :=
  if Ascii.eqb c "B"%char || Ascii.eqb c "b"%char then BozBinary
  else if Ascii.eqb c "O"%char || Ascii.eqb c "o"%char then BozOctal
  else BozHex.

Definition parse_integer_literal : P Expr :=
  t ← advance;
  let '(text, kind) := split_kind_suffix (tok_text t) in mret (IntegerLiteral text kind).

Definition parse_real_literal : P Expr :=
  t ← advance;
  let '(text, kind) := split_kind_suffix (tok_text t) in mret (RealLiteral text kind).

Definition parse_string_literal_with_kind (kind : option string) : P Expr :=
  t ← advance;
  sv ← source_view_now;
  mret (StringLiteral {| sl_text := literal_value (tok_text t); sl_source_view := sv |} kind).

Definition parse_string_literal : P Expr := parse_string_literal_with_kind None.

Definition parse_kind_prefixed_string_literal : P Expr :=
  kind_tok ← advance;
  match strip_underscore (tok_text kind_tok) with
  | Some (String c s) =>
      k ← kind_now;
      if bool_decide (k <> TStringLiteral) then error (ExpectedStringAfterKind k)
      else parse_string_literal_with_kind (Some (String c s))
  | _ => raise ExpectedKindPrefix
  end.

Definition parse_logical_literal : P Expr :=
  t ← advance;
  mret (LogicalLiteral (logical_value (tok_text t)) (logical_kind (tok_text t))).

Definition parse_boz_literal : P Expr :=
  t ← advance;
  match tok_text t with
  | EmptyString => panic
  | String c _ => mret (BozLiteral (tok_text t) (boz_base c))
  end.

Definition parse_name : P Expr := t ← advance; mret (Name (tok_text t)).

(** * The recursive calls *)

Inductive call : Type -> Type :=
| ParseExprBp (min_bp : nat) : call Expr
| ExprBody (min_bp : nat) : call Expr
| ExprLoop (min_bp : nat) (left : Expr) : call Expr
| ParsePrefix : call Expr
| ParsePostfix (e : Expr) : call Expr
| ParseConditionalAfterQuestion (cond : Expr) : call Expr
| ArgumentLoop (args : list Argument) : call (list Argument)
| NameTupleLoop (checkpoint : nat) (first_name : string) (names : list Token) (saw_comma : bool) : call (option (list Argument))
| BracketLoop (values : list AcValue) : call (list AcValue)
| SlashLoop (values : list AcValue) : call (list AcValue)
| ParseAcValue : call AcValue
| TryParseImpliedDo : call AcValue
| ImpliedDoLoop (values : list AcValue) : call AcValue.

Section Bodies.
Context (rec : forall A, call A -> P A).

Definition parse_expr_bp (min_bp : nat) : P Expr := rec _ (ParseExprBp min_bp).
Definition parse_expr : P Expr := parse_expr_bp 0.
Definition parse_prefix : P Expr := rec _ ParsePrefix.
Definition parse_postfix (e : Expr) : P Expr := rec _ (ParsePostfix e).
Definition parse_conditional_after_question (cond : Expr) : P Expr := rec _ (ParseConditionalAfterQuestion cond).
Definition parse_ac_value : P AcValue := rec _ ParseAcValue.
Definition try_parse_implied_do : P AcValue := rec _ TryParseImpliedDo.

(** The nesting counter is restored whether the closure succeeds or not. *)
Definition parse_expr_bp_body (min_bp : nat) : P Expr := fun p =>
if (EXPR_NESTING_LIMIT <=? expr_depth p)%nat then error NestingLimit p
else
let leave p := with_expr_depth (pred (expr_depth p)) p in
match rec _ (ExprBody min_bp) (with_expr_depth (S (expr_depth p)) p) with
| ROk e p => ROk e (leave p)
| RErr e p => RErr e (leave p)
| RPanic => RPanic
| RFuel => RFuel
end.

Definition expr_body (min_bp : nat) : P Expr := left ← parse_prefix; rec _ (ExprLoop min_bp left).

Definition expr_loop (min_bp : nat) (left : Expr) : P Expr :=
left ← parse_postfix left;
bp ← inspect (fun p => mret (infix_bp p));
match bp with
| None => mret left
| Some bp =>
if (bp_left bp <? min_bp)%nat then mret left
else if bool_decide (bp_left bp = bp_right bp) && bool_decide (bp_left bp = min_bp) then error ChainedComparison
else
op_token ← advance;
match token_to_binary_op op_token with
| inr e => raise e
| inl op =>
right ← parse_expr_bp (bp_right bp);
rec _ (ExprLoop min_bp (BinaryExpr op left right))
end
end.

Definition parse_conditional_arm : P Expr :=
k ← kind_now;
match k with
| TDefinedOp op => if bool_decide (op = "nil") then _ ← advance; mret NilArgument else parse_expr
| _ => parse_expr
end.

Definition conditional_after_question (cond : Expr) : P Expr :=
then_val ← parse_conditional_arm;
_ ← expect TColon;
else_val ← parse_conditional_arm;
more ← eat TQuestion;
if more : bool then
else_val ← parse_conditional_after_question else_val;
mret (ConditionalExpr cond then_val else_val)
else mret (ConditionalExpr cond then_val else_val).

(** ** Array constructors *)

Definition bracket_loop (values : list AcValue) : P (list AcValue) :=
v ← parse_ac_value;
more ← eat TComma;
if more : bool then rec _ (BracketLoop (values ++ [v])) else mret (values ++ [v]).

Definition slash_loop (values : list AcValue) : P (list AcValue) :=
k ← kind_now;
if bool_decide (k = TSlash) then mret values
else
v ← parse_ac_value;
more ← eat TComma;
if more : bool then rec _ (SlashLoop (values ++ [v])) else mret (values ++ [v]).

Definition parse_array_constructor_slash : P Expr := fun p =>
let leave p := with_slash_depth (pred (slash_array_ctor_depth p)) p in
match (values ← rec _ (SlashLoop []); _ ← expect TSlash; _ ← expect TRParen; mret (ArrayConstructor None values) : P Expr)
(with_slash_depth (S (slash_array_ctor_depth p)) p) with
| ROk e p => ROk e (leave p)
| RErr e p => RErr e (leave p)
| RPanic => RPanic
| RFuel => RFuel
end.

Definition ac_expr : P AcValue := e ← parse_expr; mret (AcExpr e).

Definition ac_value : P AcValue := fun p =>
if bool_decide (peek p = TLParen) then
match try_parse_implied_do p with
| ROk v p => ROk v p
| RErr _ p' => ac_expr (with_pos (pos p) p')
| RPanic => RPanic
| RFuel => RFuel
end
else ac_expr p.

Definition implied_do : P AcValue :=
_ ← expect TLParen;
v ← parse_ac_value;
rec _ (ImpliedDoLoop [v]).

(** [var = start, end [, step])], the variable being the current token. *)
Definition implied_do_control (values : list AcValue) : P AcValue :=
var_tok ← advance;
_ ← advance;
start ← parse_expr;
_ ← expect TComma;
end_ ← parse_expr;
more ← eat TComma;
step ← (if more : bool then e ← parse_expr; mret (Some e) else mret None);
_ ← expect TRParen;
mret (ImpliedDo values (tok_text var_tok) start end_ step).

Definition implied_do_loop (values : list AcValue) : P AcValue :=
more ← eat TComma;
if more : bool then
k ← kind_now;
next ← kind_after 1;
if bool_decide (k = TIdentifier) && bool_decide (next = Some TAssign) then implied_do_control values
else
v ← parse_ac_value;
rec _ (ImpliedDoLoop (values ++ [v]))
else error NotImpliedDo.

(** ** Type specifiers *)

Definition try_parse_spaced_double_type_spec : P (option TypeSpec) := fun p =>
match tokens p !! S (pos p) with
| None => ROk None p
| Some t =>
if eq_ignore_ascii_case (tok_text t) "precision" then (_ ← advance; _ ← advance; mret (Some TyDoublePrecision) : P (option TypeSpec)) p
else if eq_ignore_ascii_case (tok_text t) "complex" then (_ ← advance; _ ← advance; mret (Some TyDoubleComplex) : P (option TypeSpec)) p
else ROk None p
end.

(** Skip [word =]. *)
Definition skip_keyword : P unit := _ ← advance; _ ← advance; mret tt.

(** The current text is [word], and [=] follows. *)
Definition text_is (word : string) : P bool := text ← text_now; mret (eq_ignore_ascii_case text word).
Definition assign_follows : P bool := next ← kind_after 1; mret (bool_decide (next = Some TAssign)).

Definition parse_kind_selector : P (option KindSelector) :=
star ← eat TStar;
if star : bool then e ← parse_expr; mret (Some (KindStar e))
else
k ← kind_now;
if bool_decide (k <> TLParen) then mret None
else
_ ← advance;
kind ← text_is "kind";
assign ← assign_follows;
_ ← (if (kind && assign)%bool then skip_keyword else mret tt);
e ← parse_expr;
_ ← expect TRParen;
mret (Some (KindExpr e)).

Definition parse_len_spec : P LenSpec :=
star ← eat TStar;
if star : bool then mret LenStar
else
k ← kind_now;
if bool_decide (k = TColon) then _ ← advance; mret LenColon
else if bool_decide (k = TLParen) then
_ ← advance;
star ← eat TStar;
inner ← (if star : bool then mret LenStar
 else
   colon ← eat TColon;
   if colon : bool then mret LenColon
   else
     e ← parse_expr;
     question ← eat TQuestion;
     e ← (if question : bool then parse_conditional_after_question e else mret e);
     mret (LenExpr e));
_ ← expect TRParen;
mret inner
else e ← parse_expr; mret (LenExpr e).

(** The second parameter of a character selector. *)
Definition second_parameter (len : option LenSpec) (kind : option Expr) : P (option CharSelector) :=
match kind with
| None => e ← parse_expr; _ ← expect TRParen; mret (Some {| cs_len := len; cs_kind := Some e |})
| Some _ => l ← parse_len_spec; _ ← expect TRParen; mret (Some {| cs_len := Some l; cs_kind := kind |})
end.

Definition char_parameters (len : option LenSpec) (kind : option Expr) : P (option CharSelector) :=
comma ← eat TComma;
if comma : bool then
is_kind ← text_is "kind";
is_len ← text_is "len";
assign ← assign_follows;
if is_kind : bool then
_ ← (if assign : bool then skip_keyword else mret tt);
second_parameter len kind
else if (is_len && assign)%bool then
_ ← skip_keyword;
l ← parse_len_spec;
_ ← expect TRParen;
mret (Some {| cs_len := Some l; cs_kind := kind |})
else second_parameter len kind
else
_ ← expect TRParen;
mret (Some {| cs_len := len; cs_kind := kind |}).

Definition parse_char_selector : P (option CharSelector) :=
star ← eat TStar;
if star : bool then l ← parse_len_spec; mret (Some {| cs_len := Some l; cs_kind := None |})
else
k ← kind_now;
if bool_decide (k <> TLParen) then mret None
else
_ ← advance;
is_len ← text_is "len";
is_kind ← text_is "kind";
assign ← assign_follows;
if is_len : bool then
_ ← (if assign : bool then skip_keyword else mret tt);
l ← parse_len_spec;
char_parameters (Some l) None
else if is_kind : bool then
if assign : bool then
_ ← skip_keyword;
e ← parse_expr;
char_parameters None (Some e)
else char_parameters None None
else
l ← parse_len_spec;
char_parameters (Some l) None.

Definition parse_type_or_class_spec (is_class : bool) : P TypeSpec :=
_ ← expect TLParen;
star ← eat TStar;
if star : bool then
_ ← expect TRParen;
mret (if is_class then TyClassStar else TyTypeStar)
else
k ← kind_now;
if bool_decide (k <> TIdentifier) then error (ExpectedTypeName k)
else
name ← advance;
k ← kind_now;
if bool_decide (k = TLParen) then error ParameterizedType
else
_ ← expect TRParen;
mret (if is_class then TyClass (tok_text name) else TyType (tok_text name)).

Definition parse_typeof_spec (is_classof : bool) : P TypeSpec :=
_ ← expect TLParen;
k ← kind_now;
if bool_decide (k <> TIdentifier) then error (ExpectedEntityName k)
else
name ← advance;
_ ← expect TRParen;
mret (if is_classof then TyClassOf (tok_text name) else TyTypeOf (tok_text name)).

(** A parenthesis follows the current token. *)
Definition paren_follows : P bool := next ← kind_after 1; mret (bool_decide (next = Some TLParen)).

Definition numeric_type (f : option KindSelector -> TypeSpec) : P (option TypeSpec) := _ ← advance; k ← parse_kind_selector; mret (Some (f k)).

Definition parenthesized_type (m : P TypeSpec) : P (option TypeSpec) :=
paren ← paren_follows;
if paren : bool then _ ← advance; t ← m; mret (Some t) else mret None.

(** [None]: the current token is not a type keyword; a failed specifier is an error. *)
Definition try_parse_type_spec : P (option TypeSpec) :=
text ← text_now;
let text := to_ascii_lowercase text in
if bool_decide (text = "integer") then numeric_type TyInteger
else if bool_decide (text = "real") then numeric_type TyReal
else if bool_decide (text = "doubleprecision") then _ ← advance; mret (Some TyDoublePrecision)
else if bool_decide (text = "double") then try_parse_spaced_double_type_spec
else if bool_decide (text = "complex") then numeric_type TyComplex
else if bool_decide (text = "doublecomplex") then _ ← advance; mret (Some TyDoubleComplex)
else if bool_decide (text = "logical") then numeric_type TyLogical
else if bool_decide (text = "character") then _ ← advance; c ← parse_char_selector; mret (Some (TyCharacter c))
else if bool_decide (text = "type") then parenthesized_type (parse_type_or_class_spec false)
else if bool_decide (text = "class") then parenthesized_type (parse_type_or_class_spec true)
else if bool_decide (text = "typeof") then parenthesized_type (parse_typeof_spec false)
else if bool_decide (text = "classof") then parenthesized_type (parse_typeof_spec true)
else mret None.

Definition is_word_like (k : TokenKind) : bool :=
match k with
| TIdentifier | TIntegerLiteral | TRealLiteral | TStringLiteral | TLogicalLiteral | TBozLiteral => true
| _ => false
end.

Fixpoint render_tokens (prev : option TokenKind) (l : list Token) : string :=
match l with
| [] => EmptyString
| t :: l =>
let space := match prev with Some k => is_word_like k && is_word_like (tok_kind t) | None => false end in
(if space then " " +:+ tok_text t else tok_text t) +:+ render_tokens (Some (tok_kind t)) l
end.

Definition render_token_slice (l : list Token) : string := render_tokens None l.

(** A name before [::]. *)
Definition named_type_spec : P (option string) :=
k ← kind_now;
next ← kind_after 1;
if bool_decide (k = TIdentifier) && bool_decide (next = Some TColonColon) then
t ← advance;
_ ← advance;
mret (Some (tok_text t))
else mret None.

Definition try_parse_ac_type_spec : P (option string) := fun p =>
let retry p' := named_type_spec (with_pos (pos p) p') in
match try_parse_type_spec p with
| ROk None p' => named_type_spec p'
| ROk (Some _) p' =>
if bool_decide (peek p' = TColonColon)
then (_ ← advance; mret (Some (render_token_slice (take (pos p' - pos p) (drop (pos p) (tokens p'))))) : P (option string)) p'
else retry p'
| RErr _ p' => retry p'
| RPanic => RPanic
| RFuel => RFuel
end.

Definition parse_array_constructor_bracket : P Expr :=
type_spec ← try_parse_ac_type_spec;
k ← kind_now;
values ← (if bool_decide (k <> TRBracket) then rec _ (BracketLoop []) else mret []);
_ ← expect TRBracket;
mret (ArrayConstructor type_spec values).

(** ** Prefixes *)

Definition unary (op : UnaryOp) (bp : nat) : P Expr := _ ← advance; e ← parse_expr_bp bp; mret (UnaryExpr op e).

Definition parenthesized : P Expr :=
_ ← advance;
slash ← eat TSlash;
if slash : bool then parse_array_constructor_slash
else
inner ← parse_expr;
question ← eat TQuestion;
if question : bool then
conditional ← parse_conditional_after_question inner;
_ ← expect TRParen;
mret conditional
else
comma ← eat TComma;
if comma : bool then
imag ← parse_expr;
_ ← expect TRParen;
mret (ComplexLiteral inner imag)
else
_ ← expect TRParen;
mret (ParenExpr inner).

Definition identifier_prefix : P Expr :=
text ← text_now;
next ← kind_after 1;
if ends_with_underscore text && bool_decide (next = Some TStringLiteral) then parse_kind_prefixed_string_literal else parse_name.

Definition prefix : P Expr :=
_ ← current_span;
k ← kind_now;
match k with
| TPlus => unary UPlus BP_UNARY_ADD
| TMinus => unary UMinus BP_UNARY_ADD
| TDotOp name => if bool_decide (name = "not") then unary UNot BP_NOT else error (ExpectedExpression k)
| TDefinedOp name => unary (UDefined name) BP_DEFINED_UNARY
| TLParen => parenthesized
| TLBracket => _ ← advance; parse_array_constructor_bracket
| TIntegerLiteral => parse_integer_literal
| TRealLiteral => parse_real_literal
| TStringLiteral => parse_string_literal
| TLogicalLiteral => parse_logical_literal
| TBozLiteral => parse_boz_literal
| TIdentifier => identifier_prefix
| _ => error (ExpectedExpression k)
end.

(** ** Arguments *)

(** The end is absent before a colon, a comma or a closing bracket. *)
Definition ends_stride (k : TokenKind) : bool := match k with TComma | TRParen | TRBracket => true | _ => false end.
Definition ends_range (k : TokenKind) : bool := match k with TColon | TColonColon => true | k => ends_stride k end.

Definition optional_expr (stop : TokenKind -> bool) : P (option Expr) :=
k ← kind_now;
if stop k then mret None else e ← parse_expr; mret (Some e).

Definition parse_range (start : option Expr) : P SectionSubscript :=
colons ← eat TColonColon;
if colons : bool then stride ← optional_expr ends_stride; mret (Range start None stride)
else
_ ← expect TColon;
end_ ← optional_expr ends_range;
colon ← eat TColon;
stride ← (if colon : bool then optional_expr ends_stride else mret None);
mret (Range start end_ stride).

Definition is_colon (k : TokenKind) : bool := match k with TColon | TColonColon => true | _ => false end.

Definition parse_argument : P Argument :=
k ← kind_now;
next ← kind_after 1;
if bool_decide (k = TIdentifier) && bool_decide (next = Some TAssign) then
name ← advance;
_ ← advance;
e ← parse_expr;
mret (mkArgument (Some (tok_text name)) (Element e))
else if is_colon k then s ← parse_range None; mret (mkArgument None s)
else
e ← parse_expr;
k ← kind_now;
if is_colon k then s ← parse_range (Some e); mret (mkArgument None s)
else mret (mkArgument None (Element e)).

Definition name_tuple_end (checkpoint : nat) (names : list Token) (saw_comma : bool) : P (option (list Argument)) :=
let backtrack := _ ← reset_position checkpoint; mret None in
closed ← (if saw_comma then eat TRParen else mret false);
if closed : bool then
k ← kind_now;
if bool_decide (k = TRParen) || bool_decide (k = TComma)
then mret (Some ((fun t => mkArgument None (Element (Name (tok_text t)))) <$> names))
else backtrack
else backtrack.

Definition name_tuple_loop (checkpoint : nat) (first_name : string) (names : list Token) (saw_comma : bool) : P (option (list Argument)) :=
let backtrack := _ ← reset_position checkpoint; mret None in
more ← eat TComma;
if more : bool then
k ← kind_now;
if bool_decide (k = TIdentifier) then
t ← advance;
if eq_ignore_ascii_case (tok_text t) first_name then rec _ (NameTupleLoop checkpoint first_name (names ++ [t]) true) else backtrack
else backtrack
else name_tuple_end checkpoint names saw_comma.

Definition try_parse_repeated_name_tuple_argument : P (option (list Argument)) :=
checkpoint ← position_now;
paren ← eat TLParen;
if paren : bool then
k ← kind_now;
if bool_decide (k = TIdentifier) then
first ← advance;
rec _ (NameTupleLoop checkpoint (tok_text first) [first] false)
else _ ← reset_position checkpoint; mret None
else mret None.

Definition argument_loop (args : list Argument) : P (list Argument) :=
tuple ← try_parse_repeated_name_tuple_argument;
args ← match tuple with
| Some l => mret (args ++ l)
| None => a ← parse_argument; mret (args ++ [a])
end;
more ← eat TComma;
if more : bool then rec _ (ArgumentLoop args) else mret args.

Definition parse_argument_list : P (list Argument) :=
k ← kind_now;
if bool_decide (k = TRParen) then mret [] else rec _ (ArgumentLoop []).

Definition postfix (e : Expr) : P Expr :=
k ← kind_now;
match k with
| TLParen =>
_ ← advance;
args ← parse_argument_list;
_ ← expect TRParen;
parse_postfix (FunctionCall e args)
| TPercent =>
_ ← advance;
name ← advance;
if bool_decide (tok_kind name <> TIdentifier) then raise (ExpectedComponent (tok_kind name))
else parse_postfix (ComponentAccess e (tok_text name))
| _ => mret e
end.

Definition body {A} (c : call A) : P A :=
match c in call A return P A with
| ParseExprBp m => parse_expr_bp_body m
| ExprBody m => expr_body m
| ExprLoop m l => expr_loop m l
| ParsePrefix => prefix
| ParsePostfix e => postfix e
| ParseConditionalAfterQuestion c => conditional_after_question c
| ArgumentLoop args => argument_loop args
| NameTupleLoop cp first names saw => name_tuple_loop cp first names saw
| BracketLoop vs => bracket_loop vs
| SlashLoop vs => slash_loop vs
| ParseAcValue => ac_value
| TryParseImpliedDo => implied_do
| ImpliedDoLoop vs => implied_do_loop vs
end.
End Bodies.

Fixpoint run (fuel : nat) (A : Type) (c : call A) : P A :=
  match fuel with
  | O => no_fuel
  | S fuel => body (run fuel) c
  end.

(** Fuel for the tokens that are left: a call that consumes nothing is followed by at most
    eight others before a token is consumed. *)
Definition fuel_for (p : Parser) : nat := (10 * length (drop (pos p) (tokens p)) + 10)%nat.

Definition parse_expression (p : Parser) : Res Expr := run (fuel_for p) _ (ParseExprBp 0) p.
