(* ===== verification/ParseTotal.v ===== *)
(** The expression parser terminates and does not panic; what it consumes is bracketed.

    Every call is specified by a triple: enough fuel gives a value or an error, never a
    panic; an error leaves everything but the position as it was; a value comes with the
    tokens that were consumed.  The tokens of an expression are neutral for the scan
    [stop], which finds the first [::], [=], closing bracket or, on demand, comma outside brackets: this is
    what the alternatives the parser tries and gives up are told apart by. *)

From S2P Require Import Prelude.
From stdpp Require Import list.
From S2P Require Import Tokens AstExpr Parser ParseExpr.

Local Open Scope string_scope.
Local Open Scope list_scope.

(** * States *)

Definition rest (p : Parser) : list Token := drop (pos p) (tokens p).

(** Everything but the position. *)
Definition env (p : Parser) : Parser := with_pos 0 p.

(** The words the parser compares texts with. *)
Definition words : list string :=
  ["integer"; "real"; "doubleprecision"; "double"; "complex"; "doublecomplex"; "logical"; "character"; "type"; "class"; "typeof"; "classof";
   "precision"; "kind"; "len"].

(** Tokens that may have a word for a text: names, and comments and directives, whose text is what the line says. *)
Definition wordlike (k : TokenKind) : Prop := k = TIdentifier \/ k = TComment \/ k = TOmpDirective.

Definition lexed_token (t : Token) : Prop :=
  (tok_kind t = TBozLiteral -> tok_text t <> EmptyString) /\ (to_ascii_lowercase (tok_text t) ∈ words -> wordlike (tok_kind t)).

(** What both lexers guarantee: there is a token, a BOZ literal is not empty, and no bracket, operator or literal has a word for a text. *)
Definition lexed (l : list Token) : Prop := l <> [] /\ Forall lexed_token l.

#[global] Instance lexed_dec l : Decision (lexed l).
Proof. unfold lexed, lexed_token, wordlike. apply _. Defined.

(** The state moves over [c]. *)
Definition moves (p : Parser) (c : list Token) (p' : Parser) : Prop := rest p = c ++ rest p' /\ p' = with_pos (pos p + length c) p.

Lemma moves_nil p : moves p [] p.
Proof. split; [done|]. destruct p. unfold with_pos. simpl. by rewrite Nat.add_0_r. Qed.

Lemma moves_trans p c p' c' p'' : moves p c p' -> moves p' c' p'' -> moves p (c ++ c') p''.
Proof.
  intros [E ->] [E' ->]. split; [by rewrite E, E', app_assoc|]. unfold with_pos. cbn. by rewrite length_app, Nat.add_assoc.
Qed.

Lemma moves_env p c p' : moves p c p' -> env p' = env p.
Proof. by intros [_ ->]. Qed.

Lemma env_tokens p p' : env p = env p' -> tokens p = tokens p'.
Proof. intros E. apply (f_equal tokens) in E. done. Qed.

Lemma moves_tokens p c p' : moves p c p' -> tokens p' = tokens p.
Proof. intros H%moves_env. by apply env_tokens. Qed.

Lemma moves_length p c p' : moves p c p' -> length (rest p) = (length c + length (rest p'))%nat.
Proof. intros [-> _]. by rewrite length_app. Qed.

(** A state at some tokens. *)
Lemma moves_skip p c r : rest p = c ++ r -> moves p c (with_pos (pos p + length c) p) /\ rest (with_pos (pos p + length c) p) = r.
Proof.
  intros E. assert (Hr : rest (with_pos (pos p + length c) p) = r).
  { unfold rest in *. cbn. rewrite <- drop_drop, E. by rewrite drop_app_length. }
  split; [|done]. split; [by rewrite Hr|done].
Qed.

Lemma rest_lookup p n : tokens p !! (pos p + n)%nat = rest p !! n.
Proof. unfold rest. by rewrite lookup_drop. Qed.

Lemma rest_head p : tokens p !! pos p = head (rest p).
Proof. rewrite <- (Nat.add_0_r (pos p)) at 1. rewrite rest_lookup. by destruct (rest p). Qed.

Lemma peek_rest p : peek p = match rest p with t :: _ => tok_kind t | [] => TEof end.
Proof. unfold peek. rewrite rest_head. by destruct (rest p). Qed.

Lemma peek_cons p t r : rest p = t :: r -> peek p = tok_kind t.
Proof. intros E. by rewrite peek_rest, E. Qed.

Lemma peek_not_eof p : peek p <> TEof -> exists t r, rest p = t :: r /\ tok_kind t = peek p.
Proof. rewrite peek_rest. destruct (rest p) as [|t r]; [done|]. intros _. by exists t, r. Qed.

Lemma peek_kind_at_rest n p : peek_kind_at n p = tok_kind <$> rest p !! n.
Proof. unfold peek_kind_at. by rewrite rest_lookup. Qed.

Lemma current_lexed p : tokens p <> [] -> exists t, current p = Some t.
Proof.
  intros H. unfold current. destruct (tokens p !! pos p) as [t|]; [eauto|]. destruct (tokens p) as [|x l] eqn:E; [done|].
  destruct (last (x :: l)) as [t|] eqn:El; [eauto|]. by apply last_None in El.
Qed.

Lemma advance_cons p t r : rest p = t :: r -> advance p = ROk t (with_pos (S (pos p)) p).
Proof.
  intros E. pose proof (rest_head p) as H. rewrite E in H. simpl in H. pose proof (lookup_lt_Some _ _ _ H) as Hl. unfold advance.
  rewrite Nat.min_l by lia. rewrite H. by rewrite (proj2 (Nat.ltb_lt _ _) Hl).
Qed.

Lemma moves_one p t r : rest p = t :: r -> moves p [t] (with_pos (S (pos p)) p) /\ rest (with_pos (S (pos p)) p) = r.
Proof. intros E. rewrite <- (Nat.add_1_r (pos p)). by apply (moves_skip p [t] r). Qed.

(** * Triples *)

Definition ok {A} (e0 : Parser) (r : Res A) (Q : A -> Parser -> Prop) : Prop :=
  match r with
  | ROk a p => Q a p
  | RErr _ p => env p = e0
  | RPanic | RFuel => False
  end.

Lemma ok_bind {A B} e0 (m : P A) (f : A -> P B) p (Q1 : A -> Parser -> Prop) Q :
  ok e0 (m p) Q1 -> (forall a p', Q1 a p' -> ok e0 (f a p') Q) -> ok e0 ((m ≫= f) p) Q.
Proof. unfold mbind, P_bind. destruct (m p); simpl; auto. Qed.

Lemma ok_mono {A} e0 (r : Res A) (Q Q' : A -> Parser -> Prop) : ok e0 r Q -> (forall a p, Q a p -> Q' a p) -> ok e0 r Q'.
Proof. destruct r; simpl; auto. Qed.

Lemma ok_error {A} e0 e p (Q : A -> Parser -> Prop) : tokens p <> [] -> env p = e0 -> ok e0 (error e p) Q.
Proof. intros H E. unfold error. by destruct (current_lexed p H) as [t ->]. Qed.

Lemma ok_advance e0 p (Q : Token -> Parser -> Prop) : (exists t r, rest p = t :: r) -> (forall t p', tok_kind t = peek p -> moves p [t] p' -> Q t p') -> ok e0 (advance p) Q.
Proof.
  intros (t & r & E) H. rewrite (advance_cons p t r E). apply H; [by rewrite peek_rest, E|]. by eapply moves_one.
Qed.

Lemma ok_eat e0 k p (Q : bool -> Parser -> Prop) :
  k <> TEof -> (forall t p', tok_kind t = k -> moves p [t] p' -> Q true p') -> (peek p <> k -> Q false p) -> ok e0 (eat k p) Q.
Proof.
  intros Hk H1 H2. unfold eat, kind_now, mbind, P_bind. destruct (decide (peek p = k)) as [<-|Hne].
  - rewrite bool_decide_eq_true_2 by done. destruct (peek_not_eof p Hk) as (t & r & E & Ht).
    rewrite (advance_cons p t r E). cbn. apply (H1 t); [done|]. by eapply moves_one.
  - rewrite bool_decide_eq_false_2 by done. cbn. auto.
Qed.

Lemma ok_expect e0 k p (Q : Token -> Parser -> Prop) :
  k <> TEof -> tokens p <> [] -> env p = e0 -> (forall t p', tok_kind t = k -> moves p [t] p' -> Q t p') -> ok e0 (expect k p) Q.
Proof.
  intros Hk Ht He H. unfold expect, kind_now, mbind, P_bind. destruct (decide (peek p = k)) as [<-|Hne].
  - rewrite bool_decide_eq_true_2 by done. destruct (peek_not_eof p Hk) as (t & r & E & Hkt). apply ok_advance; [eauto|auto].
  - rewrite bool_decide_eq_false_2 by done. by apply ok_error.
Qed.

(** * The bracket scan *)

Fixpoint stop (commas : bool) (k : nat) (l : list Token) : option TokenKind :=
  match l with
  | [] => None
  | t :: l =>
      match tok_kind t with
      | TLParen | TLBracket => stop commas (S k) l
      | (TRParen | TRBracket) as c => match k with O => Some c | S k => stop commas k l end
      | (TColonColon | TAssign) as c => match k with O => Some c | S _ => stop commas k l end
      | TComma => match k with O => if commas then Some TComma else stop commas k l | S _ => stop commas k l end
      | _ => stop commas k l
      end
  end.

(** Invisible to the scan; invisible inside brackets; closing the innermost bracket. *)
Definition neutral (c : list Token) : Prop := forall b k l, stop b k (c ++ l) = stop b k l.
Definition inner (c : list Token) : Prop := forall b k l, stop b (S k) (c ++ l) = stop b (S k) l.
Definition closing (c : list Token) : Prop := forall b k l, stop b (S k) (c ++ l) = stop b k l.

Lemma neutral_nil : neutral [].
Proof. by intros b k l. Qed.

Lemma neutral_inner c : neutral c -> inner c.
Proof. intros H b k l. apply H. Qed.

(** What a call consumes. *)
Definition Consumes (K : list Token -> Prop) (p p' : Parser) : Prop := exists c, moves p c p' /\ K c.
Definition some_neutral (c : list Token) : Prop := neutral c /\ (1 <= length c)%nat.

(** An implied do starts with a parenthesis, and [=] is the first thing to stop the scan
    after it. *)
Definition assigns (c : list Token) : Prop := forall l, stop false 0 (c ++ l) = Some TAssign.
Definition implied (c : list Token) : Prop := neutral c /\ exists t c', c = t :: c' /\ tok_kind t = TLParen /\ assigns c'.

(** One token of the scan. *)
Lemma stop_token b k t l kind :
  tok_kind t = kind ->
  stop b k (t :: l) =
  match kind with
  | TLParen | TLBracket => stop b (S k) l
  | (TRParen | TRBracket) as c => match k with O => Some c | S k => stop b k l end
  | (TColonColon | TAssign) as c => match k with O => Some c | S _ => stop b k l end
  | TComma => match k with O => if b then Some TComma else stop b k l | S _ => stop b k l end
  | _ => stop b k l
  end.
Proof. intros <-. simpl. by destruct (tok_kind t). Qed.

Lemma stop_neutral b k t l : neutral [t] -> stop b k (t :: l) = stop b k l.
Proof. intros H. apply (H b k l). Qed.

Ltac scan_step :=
  match goal with
  | |- context [(_ ++ _) ++ _] => rewrite <- app_assoc
  | |- context [(_ :: _) ++ _] => progress cbn [app]
  | |- context [[] ++ _] => progress cbn [app]
  | H : neutral [?t] |- context [stop ?b ?k (?t :: ?l)] => rewrite (stop_neutral b k t l H)
  | H : tok_kind ?t = peek ?p, H' : peek ?p = ?kind |- context [stop ?b ?k (?t :: ?l)] => rewrite (stop_token b k t l kind (eq_trans H H')); cbv iota
  | H : tok_kind ?t = ?kind |- context [stop ?b ?k (?t :: ?l)] => rewrite (stop_token b k t l kind H); cbv iota
  | H : neutral ?c |- context [stop _ _ (?c ++ _)] => rewrite H
  | H : inner ?c |- context [stop _ (S _) (?c ++ _)] => rewrite H
  | H : closing ?c |- context [stop _ (S _) (?c ++ _)] => rewrite H
  | H : assigns ?c |- context [stop false 0 (?c ++ _)] => rewrite H
  end.

(** Scan a concatenation of tokens of known kinds and of neutral, inner and closing parts. *)
Ltac scan := intros; repeat (first [progress unfold neutral at 1 | progress unfold inner at 1 | progress unfold closing at 1 | progress unfold assigns at 1]; intros); repeat scan_step; try done.

(** * The calls *)

Definition weight {A} (c : call A) : nat :=
  match c with
  | ParsePrefix | ParsePostfix _ | NameTupleLoop _ _ _ _ | TryParseImpliedDo | ImpliedDoLoop _ => 1
  | ExprBody _ | ExprLoop _ _ => 2
  | ParseExprBp _ => 3
  | ParseAcValue => 4
  | ParseConditionalAfterQuestion _ | ArgumentLoop _ | BracketLoop _ | SlashLoop _ => 5
  end.

(** The fuel a call needs. *)
Definition need {A} (c : call A) (p : Parser) : nat := (10 * length (rest p) + weight c)%nat.

Definition Post {A} (c : call A) (p : Parser) : A -> Parser -> Prop :=
  match c in call A return A -> Parser -> Prop with
  | ParseExprBp _ => fun _ p' => Consumes some_neutral p p'
  | ExprBody _ => fun _ p' => Consumes some_neutral p p'
  | ParsePrefix => fun _ p' => Consumes some_neutral p p'
  | ExprLoop _ _ => fun _ p' => Consumes neutral p p'
  | ParsePostfix _ => fun _ p' => Consumes neutral p p'
  | ParseConditionalAfterQuestion _ => fun _ p' => Consumes some_neutral p p'
  | ArgumentLoop _ => fun _ p' => Consumes inner p p'
  | NameTupleLoop checkpoint _ _ _ => fun r p' => match r with Some _ => Consumes closing p p' | None => p' = with_pos checkpoint p end
  | BracketLoop _ => fun _ p' => Consumes inner p p'
  | SlashLoop _ => fun _ p' => Consumes inner p p'
  | ParseAcValue => fun _ p' => Consumes some_neutral p p'
  | TryParseImpliedDo => fun _ p' => Consumes implied p p'
  | ImpliedDoLoop _ => fun _ p' => Consumes (fun c => closing c /\ assigns c) p p'
  end.

(** Rules for the steps, from the entry state [p0]. *)
Section Rules.
Context {A : Type} (p0 : Parser) (Q : A -> Parser -> Prop).

Lemma bind_kind f p : ok (env p0) (f (peek p) p) Q -> ok (env p0) ((kind_now ≫= f) p) Q.
Proof. done. Qed.

Lemma bind_text f p : ok (env p0) (f (peek_text p) p) Q -> ok (env p0) ((text_now ≫= f) p) Q.
Proof. done. Qed.

Lemma bind_after n f p : ok (env p0) (f (peek_kind_at n p) p) Q -> ok (env p0) ((kind_after n ≫= f) p) Q.
Proof. done. Qed.

Lemma bind_position f p : ok (env p0) (f (pos p) p) Q -> ok (env p0) ((position_now ≫= f) p) Q.
Proof. done. Qed.

Lemma bind_source_view f p : ok (env p0) (f (source_view p) p) Q -> ok (env p0) ((source_view_now ≫= f) p) Q.
Proof. done. Qed.

Lemma bind_mret {B} (b : B) (f : B -> P A) p : ok (env p0) (f b p) Q -> ok (env p0) ((mret b ≫= f) p) Q.
Proof. done. Qed.

Lemma bind_assoc {B C} (m : P B) (g : B -> P C) (f : C -> P A) p : ok (env p0) ((m ≫= fun b => g b ≫= f) p) Q -> ok (env p0) (((m ≫= g) ≫= f) p) Q.
Proof. unfold mbind, P_bind. by destruct (m p). Qed.

Lemma bind_advance c f p :
moves p0 c p -> peek p <> TEof -> (forall t p', tok_kind t = peek p -> moves p0 (c ++ [t]) p' -> ok (env p0) (f t p') Q) -> ok (env p0) ((advance ≫= f) p) Q.
Proof.
intros M Hk H. eapply ok_bind; [apply (ok_advance _ _ (fun t p' => tok_kind t = peek p /\ moves p [t] p')); [|eauto]|].
- destruct (peek_not_eof p Hk) as (t & r & E & _). eauto.
- intros t p' [Ht Hm]. eapply H; [done|]. by eapply moves_trans.
Qed.

Lemma bind_eat c k f p :
moves p0 c p -> k <> TEof -> (forall t p', tok_kind t = k -> moves p0 (c ++ [t]) p' -> ok (env p0) (f true p') Q) ->
(peek p <> k -> ok (env p0) (f false p) Q) -> ok (env p0) ((eat k ≫= f) p) Q.
Proof.
intros M Hk H1 H2. eapply ok_bind.
- apply (ok_eat _ _ _ (fun b p' => if b : bool then exists t, tok_kind t = k /\ moves p [t] p' else peek p <> k /\ p' = p)); eauto.
- intros [] p'; [intros (t & Ht & Hm)|intros [Hne ->]; auto]. eapply H1; [done|]. by eapply moves_trans.
Qed.

Lemma bind_expect c k f p :
moves p0 c p -> tokens p0 <> [] -> k <> TEof -> (forall t p', tok_kind t = k -> moves p0 (c ++ [t]) p' -> ok (env p0) (f t p') Q) ->
ok (env p0) ((expect k ≫= f) p) Q.
Proof.
intros M Ht Hk H. eapply ok_bind.
- apply (ok_expect _ _ _ (fun t p' => tok_kind t = k /\ moves p [t] p')); [done|by rewrite (moves_tokens _ _ _ M)|by eapply moves_env|auto].
- intros t p' [Hkt Hm]. eapply H; [done|]. by eapply moves_trans.
Qed.

Lemma ok_error_at e c p : moves p0 c p -> tokens p0 <> [] -> ok (env p0) (error (A := A) e p) Q.
Proof. intros M H. apply ok_error; [by rewrite (moves_tokens _ _ _ M)|by eapply moves_env]. Qed.

Lemma ok_raise_at e c p : moves p0 c p -> ok (env p0) (raise (A := A) e p) Q.
Proof. intros M. simpl. by eapply moves_env. Qed.

Lemma ok_ret a p : Q a p -> ok (env p0) (mret (M := P) a p) Q.
Proof. done. Qed.
End Rules.

Section Triples.
Context (rec : forall A, call A -> P A) (n : nat).
Context (Hrec : forall A (c : call A) p, lexed (tokens p) -> (need c p <= n)%nat -> ok (env p) (rec A c p) (Post c p)).

Lemma ok_rec {A} (c : call A) p0 c0 p :
moves p0 c0 p -> lexed (tokens p0) -> (need c p <= n)%nat -> ok (env p0) (rec A c p) (Post c p).
Proof. intros M L Hn. rewrite <- (moves_env _ _ _ M). apply Hrec; [|done]. by rewrite (moves_tokens _ _ _ M). Qed.

Lemma bind_rec {A B} (c : call A) (f : A -> P B) p0 c0 p (Q : B -> Parser -> Prop) :
moves p0 c0 p -> lexed (tokens p0) -> (need c p <= n)%nat -> (forall a p', Post c p a p' -> ok (env p0) (f a p') Q) ->
ok (env p0) ((rec A c ≫= f) p) Q.
Proof. intros M L Hn H. eapply ok_bind; [by eapply ok_rec|done]. Qed.

(** A call that consumes, in accumulated form. *)
Lemma consumed p0 c0 p K p' : moves p0 c0 p -> Consumes K p p' -> exists c, K c /\ moves p0 (c0 ++ c) p'.
Proof. intros M (c & Hc & Hk). exists c. split; [done|]. by eapply moves_trans. Qed.
End Triples.

Ltac fuel :=
  unfold need in *; cbn [weight] in *;
  repeat match goal with M : moves _ _ _ |- _ => apply moves_length in M end;
  repeat match goal with H : some_neutral _ |- _ => destruct H end;
  rewrite ?length_app in *; cbn [length] in *; lia.

(** One step of a body. *)
Ltac step1 :=
  cbv beta iota zeta delta [parse_expr parse_expr_bp parse_prefix parse_postfix parse_conditional_after_question parse_ac_value try_parse_implied_do];
  lazymatch goal with
  | |- ok _ (((_ ≫= _) ≫= _) _) _ => apply bind_assoc
  | |- ok _ ((kind_now ≫= _) _) _ => apply bind_kind
  | |- ok _ ((text_now ≫= _) _) _ => apply bind_text
  | |- ok _ ((kind_after _ ≫= _) _) _ => apply bind_after
  | |- ok _ ((position_now ≫= _) _) _ => apply bind_position
  | |- ok _ ((source_view_now ≫= _) _) _ => apply bind_source_view
  | |- ok _ ((mret _ ≫= _) _) _ => apply bind_mret
  | |- ok _ ((advance ≫= _) _) _ => eapply bind_advance; [eassumption|try congruence|intros]
  | |- ok _ ((eat _ ≫= _) _) _ => eapply bind_eat; [eassumption|done|intros|intros]
  | |- ok _ ((expect _ ≫= _) _) _ => eapply bind_expect; [eassumption|assumption|done|intros]
  | |- ok _ (error _ _) _ => eapply ok_error_at; eassumption
  | |- ok _ (raise _ _) _ => eapply ok_raise_at; eassumption
  | |- ok _ (mret _ _) _ => apply ok_ret
  | |- ok _ ((if bool_decide _ then _ else _) _) _ => case_bool_decide
  | |- ok _ (((if bool_decide _ then _ else _) ≫= _) _) _ => case_bool_decide
  | Hr : forall A (c : call A) p, lexed (tokens p) -> (need c p <= ?n)%nat -> ok (env p) (?rec A c p) (Post c p) |- ok _ ((?rec _ _ ≫= _) _) _ =>
      eapply (bind_rec rec n Hr); [eassumption|eassumption|fuel|cbn [Post]; let H := fresh in intros ? ? H; eapply consumed in H as (? & ? & ?); [|eassumption]]
  | Hr : forall A (c : call A) p, lexed (tokens p) -> (need c p <= ?n)%nat -> ok (env p) (?rec A c p) (Post c p) |- ok _ (?rec _ _ _) _ =>
      eapply ok_mono; [eapply (ok_rec rec n Hr); [eassumption|eassumption|fuel]|cbn [Post]; let H := fresh in intros ? ? H; eapply consumed in H as (? & ? & ?); [|eassumption]]
  | |- ok _ ((if ?b then _ else _) _) _ => destruct b eqn:?
  | |- ok _ (((if ?b then _ else _) ≫= _) _) _ => destruct b eqn:?
  end.

(** A helper that consumes, in accumulated form. *)
Lemma bind_helper {A B} (m : P A) (f : A -> P B) K p0 c p (Q : B -> Parser -> Prop) :
  moves p0 c p -> ok (env p) (m p) (fun a p' => Consumes (K a) p p') ->
  (forall a c' p', K a c' -> moves p0 (c ++ c') p' -> ok (env p0) (f a p') Q) -> ok (env p0) ((m ≫= f) p) Q.
Proof.
  intros M Hm H. eapply ok_bind; [by rewrite <- (moves_env _ _ _ M)|]. cbv beta. intros a p' (c' & Hc & Hk). eapply H; [done|]. by eapply moves_trans.
Qed.

Lemma tail_helper {A} (m : P A) K p0 c p (Q : A -> Parser -> Prop) :
  moves p0 c p -> ok (env p) (m p) (fun a p' => Consumes (K a) p p') -> (forall a c' p', K a c' -> moves p0 (c ++ c') p' -> Q a p') -> ok (env p0) (m p) Q.
Proof.
  intros M Hm H. eapply ok_mono; [by rewrite <- (moves_env _ _ _ M)|]. cbv beta. intros a p' (c' & Hc & Hk). eapply H; [done|]. by eapply moves_trans.
Qed.

Lemma lexed_moves p c p' : moves p c p' -> lexed (tokens p) -> lexed (tokens p').
Proof. intros M H. by rewrite (moves_tokens _ _ _ M). Qed.

Lemma lexed_some p : lexed (tokens p) -> tokens p <> [].
Proof. by intros [? _]. Qed.

Lemma moves_peek p c p' k : moves p c p' -> peek_kind_at (length c) p = Some k -> peek p' = k.
Proof.
  intros [E _]. rewrite peek_kind_at_rest, E, lookup_app_r, Nat.sub_diag by done. rewrite peek_rest. destruct (rest p') as [|t r]; [done|]. simpl. congruence.
Qed.

Lemma lexed_word p : lexed (tokens p) -> to_ascii_lowercase (peek_text p) ∈ words -> wordlike (peek p).
Proof.
  intros [_ L] Hw. unfold peek, peek_text in *. destruct (tokens p !! pos p) as [t|] eqn:E; [|by vm_compute in Hw; set_solver].
  eapply Forall_lookup_1 in L; [|done]. by apply L.
Qed.

Lemma words_lower word : word ∈ words -> to_ascii_lowercase word = word.
Proof. intros H. assert (Hl : Forall (fun w => to_ascii_lowercase w = w) words) by (by repeat constructor). by apply (proj1 (list.Forall_forall _ _) Hl). Qed.

Lemma lexed_is p word : lexed (tokens p) -> word ∈ words -> eq_ignore_ascii_case (peek_text p) word = true -> wordlike (peek p).
Proof.
  intros L Hw E%bool_decide_eq_true_1. apply lexed_word; [done|]. by rewrite E, words_lower.
Qed.

(** The consumed tokens, at the end of a body. *)
Ltac facts := repeat match goal with H : some_neutral _ |- _ => destruct H | H : closing _ /\ assigns _ |- _ => destruct H | H : inner _ /\ _ |- _ => destruct H end.
Ltac finish := eexists; split; [eassumption|]; facts; try (split; [|rewrite ?length_app; cbn [length]; lia]); repeat (split; [by scan|]); scan.

Ltac steps := repeat step1.

Ltac enter p := let M := fresh "M" in intros L; pose proof (lexed_some p L) as Ht; pose proof (moves_nil p) as M; revert L; intros L.

(** A helper called in the middle of a body, and at its end. *)
Ltac helper H := cbv beta iota zeta; eapply bind_helper; [eassumption|apply H; [by eapply lexed_moves; eassumption|try first [done|fuel]..]|cbv beta; intros].
Ltac last_helper H := cbv beta iota zeta; eapply tail_helper; [eassumption|apply H; [by eapply lexed_moves; eassumption|try first [done|fuel]..]|cbv beta; intros].

(** Forget the kind of a token, keeping that it is neutral. *)
Ltac opaque_token t H :=
  pose proof H; let c := fresh "ct" in let E := fresh in remember [t] as c eqn:E; assert (length c = 1%nat) by (by rewrite E); clear E.

Ltac ty_finish := eexists; split; [eassumption|]; cbn; first [done|scan].

(** Advancing past the last token gives it again. *)
Lemma advance_past p t p' : moves p ([] ++ [t]) p' -> rest p' = [] -> advance p' = ROk t p'.
Proof.
  intros [E ->] Er. rewrite Er in E. simpl in E. pose proof (rest_head p) as H. rewrite E in H. simpl in H.
  assert (Hl : length (tokens p) = S (pos p)). { pose proof (f_equal length E) as Hl. unfold rest in Hl. rewrite length_drop in Hl. apply lookup_lt_Some in H. simpl in Hl. lia. }
  unfold advance. cbn [tokens with_pos pos]. rewrite Hl. cbn [length app]. rewrite Nat.min_r by (simpl; lia). simpl. rewrite H.
  by rewrite (proj2 (Nat.ltb_ge _ _)) by lia.
Qed.

Section Bodies.
Context (rec : forall A, call A -> P A) (n : nat).
Context (Hrec : forall A (c : call A) p, lexed (tokens p) -> (need c p <= n)%nat -> ok (env p) (rec A c p) (Post c p)).

Lemma ok_conditional_arm p :
lexed (tokens p) -> (10 * length (rest p) + 3 <= n)%nat -> ok (env p) (parse_conditional_arm rec p) (fun _ p' => Consumes some_neutral p p').
Proof. enter p. intros Hn. unfold parse_conditional_arm. steps.
all: destruct (peek p) eqn:Ek; steps; finish.
Qed.

Lemma ok_conditional cond p :
lexed (tokens p) -> (need (ParseConditionalAfterQuestion cond) p <= S n)%nat -> ok (env p) (conditional_after_question rec cond p) (Post (ParseConditionalAfterQuestion cond) p).
Proof.
enter p. intros Hn. unfold conditional_after_question. helper ok_conditional_arm. steps. helper ok_conditional_arm. steps. all: finish.
Qed.

Lemma ok_bracket_loop vs p :
lexed (tokens p) -> (need (BracketLoop vs) p <= S n)%nat -> ok (env p) (bracket_loop rec vs p) (Post (BracketLoop vs) p).
Proof. enter p. intros Hn. unfold bracket_loop. steps. all: finish. Qed.

Lemma ok_slash_loop vs p : lexed (tokens p) -> (need (SlashLoop vs) p <= S n)%nat -> ok (env p) (slash_loop rec vs p) (Post (SlashLoop vs) p).
Proof. enter p. intros Hn. unfold slash_loop. steps. all: finish. Qed.

Lemma ok_ac_expr p : lexed (tokens p) -> (10 * length (rest p) + 3 <= n)%nat -> ok (env p) (ac_expr rec p) (fun _ p' => Consumes some_neutral p p').
Proof. enter p. intros Hn. unfold ac_expr. steps. finish. Qed.

Lemma ok_ac_value p : lexed (tokens p) -> (need ParseAcValue p <= S n)%nat -> ok (env p) (ac_value rec p) (Post ParseAcValue p).
Proof.
enter p. intros Hn. unfold ac_value. case_bool_decide; [|apply ok_ac_expr; [done|fuel]]. unfold try_parse_implied_do.
pose proof (Hrec _ TryParseImpliedDo p L ltac:(fuel)) as H'. destruct (rec _ TryParseImpliedDo p) as [v p'|e p'| |]; [|..|done|done].
- destruct H' as (c & Hc & Hn' & t & c' & -> & _). exists (t :: c'). split; [done|]. split; [done|simpl; lia].
- assert (with_pos (pos p) p' = p) as -> by (simpl in H'; destruct p, p'; unfold env, with_pos in *; simpl in *; congruence).
apply ok_ac_expr; [done|fuel].
Qed.

Lemma ok_implied_do p : lexed (tokens p) -> (need TryParseImpliedDo p <= S n)%nat -> ok (env p) (implied_do rec p) (Post TryParseImpliedDo p).
Proof.
enter p. intros Hn. unfold implied_do. steps. eexists. split; [eassumption|]. facts. split; [scan|].
exists t. eexists. rewrite <- !app_assoc. cbn [app]. split; [done|]. split; [done|]. scan.
Qed.

Lemma ok_implied_do_control vs p :
lexed (tokens p) -> peek p = TIdentifier -> peek_kind_at 1 p = Some TAssign -> (10 * length (rest p) <= n)%nat ->
ok (env p) (implied_do_control rec vs p) (fun _ p' => Consumes (fun c => closing c /\ assigns c) p p').
Proof.
enter p. intros Hk Hnext Hn. unfold implied_do_control. step1. assert (Ha : peek p' = TAssign) by (by eapply moves_peek). steps.
all: finish.
Qed.

Lemma ok_implied_do_loop vs p : lexed (tokens p) -> (need (ImpliedDoLoop vs) p <= S n)%nat -> ok (env p) (implied_do_loop rec vs p) (Post (ImpliedDoLoop vs) p).
Proof.
enter p. intros Hn. unfold implied_do_loop. steps.
- apply andb_true_iff in Heqb as [?%bool_decide_eq_true_1 ?%bool_decide_eq_true_1]. last_helper ok_implied_do_control. finish.
- finish.
Qed.

(** ** Type specifiers *)

Lemma ok_skip_keyword p :
lexed (tokens p) -> wordlike (peek p) -> peek_kind_at 1 p = Some TAssign ->
ok (env p) (skip_keyword p) (fun _ p' => Consumes (fun c => inner c /\ (1 <= length c)%nat) p p').
Proof. enter p. intros [Hk|[Hk|Hk]] Ha; unfold skip_keyword; step1; (assert (peek p' = TAssign) by (by eapply moves_peek)); steps; finish. Qed.

(** Skipping [word =]. *)
Lemma ok_skip_word word p :
lexed (tokens p) -> word ∈ words -> eq_ignore_ascii_case (peek_text p) word = true -> peek_kind_at 1 p = Some TAssign ->
ok (env p) (skip_keyword p) (fun _ p' => Consumes (fun c => inner c /\ (1 <= length c)%nat) p p').
Proof. intros L Hw Ht Ha. apply ok_skip_keyword; [done|by eapply lexed_is|done]. Qed.

Lemma ok_kind_selector p :
lexed (tokens p) -> (10 * length (rest p) + 3 <= n)%nat -> ok (env p) (parse_kind_selector rec p) (fun _ p' => Consumes neutral p p').
Proof.
enter p. intros Hn. unfold parse_kind_selector, text_is, assign_follows. steps; try finish. apply andb_true_iff in Heqb as [? ?%bool_decide_eq_true_1].
helper (ok_skip_word "kind"); [set_solver|]. facts. steps. finish.
Qed.

Lemma ok_len_spec p :
lexed (tokens p) -> (10 * length (rest p) + 6 <= n)%nat -> ok (env p) (parse_len_spec rec p) (fun _ p' => Consumes some_neutral p p').
Proof. enter p. intros Hn. unfold parse_len_spec. steps. all: finish. Qed.

Lemma ok_second_parameter len kind p :
lexed (tokens p) -> (10 * length (rest p) + 6 <= n)%nat -> ok (env p) (second_parameter rec len kind p) (fun _ p' => Consumes closing p p').
Proof. enter p. intros Hn. unfold second_parameter. destruct kind; [helper ok_len_spec|]; steps; finish. Qed.

Lemma ok_char_parameters len kind p :
lexed (tokens p) -> (10 * length (rest p) <= n)%nat -> ok (env p) (char_parameters rec len kind p) (fun _ p' => Consumes closing p p').
Proof.
enter p. intros Hn. unfold char_parameters, text_is, assign_follows. steps.
- helper (ok_skip_word "kind"); [set_solver|]. facts. last_helper ok_second_parameter. finish.
- last_helper ok_second_parameter. finish.
- apply andb_true_iff in Heqb0 as [? ?%bool_decide_eq_true_1]. helper (ok_skip_word "len"); [set_solver|]. facts. helper ok_len_spec. steps. finish.
- last_helper ok_second_parameter. finish.
- finish.
Qed.

Lemma ok_char_selector p :
lexed (tokens p) -> (10 * length (rest p) + 6 <= n)%nat -> ok (env p) (parse_char_selector rec p) (fun _ p' => Consumes neutral p p').
Proof.
enter p. intros Hn. unfold parse_char_selector, text_is, assign_follows. steps.
- helper ok_len_spec. steps. finish.
- finish.
- helper (ok_skip_word "len"); [set_solver|]. facts. helper ok_len_spec. last_helper ok_char_parameters. finish.
- helper ok_len_spec. last_helper ok_char_parameters. finish.
- helper (ok_skip_word "kind"); [set_solver|]. facts. steps. last_helper ok_char_parameters. finish.
- last_helper ok_char_parameters. finish.
- helper ok_len_spec. last_helper ok_char_parameters. finish.
Qed.

Lemma ok_type_or_class b p : lexed (tokens p) -> ok (env p) (parse_type_or_class_spec b p) (fun _ p' => Consumes neutral p p').
Proof. enter p. unfold parse_type_or_class_spec. steps; finish. Qed.

Lemma ok_typeof b p : lexed (tokens p) -> ok (env p) (parse_typeof_spec b p) (fun _ p' => Consumes neutral p p').
Proof. enter p. unfold parse_typeof_spec. steps; finish. Qed.

(** A type specifier is neutral; nothing is consumed when there is none. *)
Definition type_tokens (r : option TypeSpec) (c : list Token) : Prop := match r with None => c = [] | Some _ => neutral c end.

Lemma ok_numeric_type f p :
lexed (tokens p) -> wordlike (peek p) -> (10 * length (rest p) <= n)%nat -> ok (env p) (numeric_type rec f p) (fun r p' => Consumes (type_tokens r) p p').
Proof. enter p. intros [Hk|[Hk|Hk]] Hn; unfold numeric_type; steps; helper ok_kind_selector; steps; ty_finish. Qed.

Lemma ok_parenthesized_type m p :
lexed (tokens p) -> wordlike (peek p) -> (forall p, lexed (tokens p) -> ok (env p) (m p) (fun _ p' => Consumes neutral p p')) ->
ok (env p) (parenthesized_type m p) (fun r p' => Consumes (type_tokens r) p p').
Proof. enter p. intros [Hk|[Hk|Hk]] Hm; unfold parenthesized_type, paren_follows; (steps; [|ty_finish]); helper Hm; steps; ty_finish. Qed.

Lemma ok_one_word t p : lexed (tokens p) -> wordlike (peek p) -> ok (env p) ((_ ← advance; mret (Some t)) p) (fun r p' => Consumes (type_tokens r) p p').
Proof. enter p. intros [Hk|[Hk|Hk]]; steps; ty_finish. Qed.

Lemma ok_spaced_double p :
lexed (tokens p) -> wordlike (peek p) -> ok (env p) (try_parse_spaced_double_type_spec p) (fun r p' => Consumes (type_tokens r) p p').
Proof.
enter p. intros Hk. unfold try_parse_spaced_double_type_spec. destruct (tokens p !! S (pos p)) as [t|] eqn:E; [|by ty_finish].
assert (Hw : forall word, word ∈ words -> eq_ignore_ascii_case (tok_text t) word = true -> exists k, peek_kind_at 1 p = Some k /\ wordlike k).
{ intros word Hw Hword. rewrite <- Nat.add_1_r in E. unfold peek_kind_at. rewrite E. simpl. eexists. split; [done|]. destruct L as [_ L].
eapply Forall_lookup_1 in L as [_ L]; [|done]. apply L. apply bool_decide_eq_true_1 in Hword. by rewrite Hword, words_lower. }
assert (Htwo : forall ty, (exists k, peek_kind_at 1 p = Some k /\ wordlike k) -> ok (env p) ((_ ← advance; _ ← advance; mret (Some ty)) p) (fun r p' => Consumes (type_tokens r) p p')).
{ intros ty (k & H1 & H2). destruct Hk as [Hk|[Hk|Hk]]; (step1; assert (peek p' = k) by (by eapply moves_peek); destruct H2 as [->|[->| ->]]; steps; ty_finish). }
destruct (eq_ignore_ascii_case _ "precision") eqn:E1; [apply Htwo, (Hw "precision"); [set_solver|done]|].
destruct (eq_ignore_ascii_case _ "complex") eqn:E2; [apply Htwo, (Hw "complex"); [set_solver|done]|]. ty_finish.
Qed.

Lemma ok_type_spec p :
lexed (tokens p) -> (10 * length (rest p) + 6 <= n)%nat -> ok (env p) (try_parse_type_spec rec p) (fun r p' => Consumes (type_tokens r) p p').
Proof.
enter p. intros Hn. unfold try_parse_type_spec. step1. cbv beta zeta.
assert (Hw : to_ascii_lowercase (peek_text p) ∈ words -> wordlike (peek p)) by (by apply lexed_word). revert Hw.
generalize (to_ascii_lowercase (peek_text p)). intros text Hw.
assert (Hid : forall w, text = w -> bool_decide (w ∈ words) = true -> wordlike (peek p)) by (intros w -> Hin%bool_decide_eq_true_1; auto). clear Hw.
repeat case_bool_decide. all: try (assert (wordlike (peek p)) by (eapply Hid; [eassumption|vm_compute; reflexivity])).
all: try (apply ok_numeric_type; [done|done|fuel]). all: try by apply ok_one_word. all: try by apply ok_spaced_double.
all: try (apply ok_parenthesized_type; [done|done|by intros; first [apply ok_type_or_class|apply ok_typeof]]).
- match goal with W : wordlike (peek p) |- _ => destruct W as [W|[W|W]] end; steps; helper ok_char_selector; steps; ty_finish.
- ty_finish.
Qed.

Lemma ok_named_type p : lexed (tokens p) -> ok (env p) (named_type_spec p) (fun _ p' => Consumes inner p p').
Proof.
enter p. unfold named_type_spec. do 2 step1. destruct (_ && _) eqn:Hb; [|steps; finish].
apply andb_true_iff in Hb as [?%bool_decide_eq_true_1 ?%bool_decide_eq_true_1]. step1. assert (peek p' = TColonColon) by (by eapply moves_peek). steps. finish.
Qed.

Lemma env_back p p' : env p' = env p -> with_pos (pos p) p' = p.
Proof. intros E. destruct p, p'. unfold env, with_pos in *. simpl in *. congruence. Qed.

Lemma ok_ac_type_spec p :
lexed (tokens p) -> (10 * length (rest p) + 6 <= n)%nat -> ok (env p) (try_parse_ac_type_spec rec p) (fun _ p' => Consumes inner p p').
Proof.
enter p. intros Hn. unfold try_parse_ac_type_spec. cbv zeta. pose proof (ok_type_spec p L Hn) as H'.
destruct (try_parse_type_spec rec p) as [[ty|] p'|e p'| |]; [..|done|done].
- destruct H' as (c & Hm & Hc). cbn in Hc. case_bool_decide.
+ steps. finish.
+ rewrite env_back by (by eapply moves_env). by apply ok_named_type.
- destruct H' as (c & Hm & Hc). cbn in Hc. subst c. destruct Hm as [_ ->]. cbn [length]. rewrite Nat.add_0_r, env_back by done. by apply ok_named_type.
- rewrite env_back by done. by apply ok_named_type.
Qed.

Lemma ok_bracket_constructor p :
lexed (tokens p) -> (10 * length (rest p) + 6 <= n)%nat -> ok (env p) (parse_array_constructor_bracket rec p) (fun _ p' => Consumes closing p p').
Proof. enter p. intros Hn. unfold parse_array_constructor_bracket. helper ok_ac_type_spec. steps; finish. Qed.

(** Raising a counter around a call. *)
Lemma moves_slash d p c p' : moves (with_slash_depth d p) c p' -> moves p c (with_slash_depth (slash_array_ctor_depth p) p').
Proof. intros [E ->]. split; [exact E|]. by destruct p. Qed.

Lemma moves_depth d p c p' : moves (with_expr_depth d p) c p' -> moves p c (with_expr_depth (expr_depth p) p').
Proof. intros [E ->]. split; [exact E|]. by destruct p. Qed.

Lemma ok_slash_constructor p :
lexed (tokens p) -> (10 * length (rest p) + 6 <= n)%nat -> ok (env p) (parse_array_constructor_slash rec p) (fun _ p' => Consumes closing p p').
Proof.
intros L Hn. unfold parse_array_constructor_slash. cbv zeta. set (q := with_slash_depth _ p).
set (m := mbind _ _). assert (H : ok (env q) (m q) (fun _ q' => Consumes closing q q')).
{ unfold m. change (tokens p) with (tokens q) in L. change (rest p) with (rest q) in Hn. revert L Hn. generalize q. clear p q m. intros p. enter p. intros Hn.
steps. finish. }
destruct (m q) as [e q'|e q'| |]; [..|done|done].
- destruct H as (c & Hm & Hc). exists c. split; [|done]. assert (slash_array_ctor_depth q' = S (slash_array_ctor_depth p)) as -> by (by destruct Hm as [_ ->]).
by eapply moves_slash.
- simpl in *. assert (slash_array_ctor_depth q' = S (slash_array_ctor_depth p)) as -> by (by apply (f_equal slash_array_ctor_depth) in H).
unfold q in H. destruct p, q'. unfold env, with_pos, with_slash_depth in *. simpl in *. congruence.
Qed.

Lemma ok_parse_expr_bp m p : lexed (tokens p) -> (need (ParseExprBp m) p <= S n)%nat -> ok (env p) (parse_expr_bp_body rec m p) (Post (ParseExprBp m) p).
Proof.
intros L Hn. unfold parse_expr_bp_body. destruct (_ <=? _)%nat; [apply ok_error; [by apply lexed_some|done]|]. cbv zeta.
set (q := with_expr_depth _ p). assert (H : ok (env q) (rec _ (ExprBody m) q) (Post (ExprBody m) q)).
{ apply Hrec; [done|]. unfold need in *. change (rest q) with (rest p). simpl in *. lia. }
destruct (rec _ (ExprBody m) q) as [e q'|e q'| |]; [..|done|done].
- destruct H as (c & Hm & Hc). exists c. split; [|done]. assert (expr_depth q' = S (expr_depth p)) as -> by (by destruct Hm as [_ ->]). by eapply moves_depth.
- simpl in *. assert (expr_depth q' = S (expr_depth p)) as -> by (by apply (f_equal expr_depth) in H).
unfold q in H. destruct p, q'. unfold env, with_pos, with_expr_depth in *. simpl in *. congruence.
Qed.

Lemma ok_expr_body m p : lexed (tokens p) -> (need (ExprBody m) p <= S n)%nat -> ok (env p) (expr_body rec m p) (Post (ExprBody m) p).
Proof. enter p. intros Hn. unfold expr_body. steps. finish. Qed.

Lemma infix_plain p bp : infix_bp p = Some bp -> peek p <> TEof /\ forall t, tok_kind t = peek p -> neutral [t].
Proof. unfold infix_bp. intros H. split; [by intros E; rewrite E in H|]. intros t Ht. destruct (peek p) eqn:Ek; try done; scan. Qed.

Lemma bind_inspect {A B} (g : Parser -> B) (f : B -> P A) p p0 (Q : A -> Parser -> Prop) :
ok (env p0) (f (g p) p) Q -> ok (env p0) ((inspect (fun p => mret (g p)) ≫= f) p) Q.
Proof. done. Qed.

Lemma ok_expr_loop m l p : lexed (tokens p) -> (need (ExprLoop m l) p <= S n)%nat -> ok (env p) (expr_loop rec m l p) (Post (ExprLoop m l) p).
Proof.
enter p. intros Hn. unfold expr_loop. step1. cbv beta. apply bind_inspect. destruct (infix_bp _) as [bp|] eqn:Eb; [|steps; finish].
destruct (infix_plain _ _ Eb) as [? Hplain]. destruct (_ <? _)%nat; [steps; finish|]. destruct (_ && _); [steps|].
step1. opaque_token t (Hplain _ H2). destruct (token_to_binary_op _); steps. finish.
Qed.

Lemma ok_unary op bp p :
lexed (tokens p) -> peek p <> TEof -> (forall t, tok_kind t = peek p -> neutral [t]) -> (10 * length (rest p) <= n)%nat ->
ok (env p) (unary rec op bp p) (fun _ p' => Consumes some_neutral p p').
Proof. enter p. intros Hk Hp Hn. unfold unary. step1. opaque_token t (Hp _ H). steps. finish. Qed.

Lemma ok_parenthesized p :
lexed (tokens p) -> peek p = TLParen -> (10 * length (rest p) <= n)%nat -> ok (env p) (parenthesized rec p) (fun _ p' => Consumes some_neutral p p').
Proof.
enter p. intros Hk Hn. unfold parenthesized. steps; try finish. last_helper ok_slash_constructor. finish.
Qed.

Lemma ok_string_literal kind p :
lexed (tokens p) -> peek p = TStringLiteral -> ok (env p) (parse_string_literal_with_kind kind p) (fun _ p' => Consumes some_neutral p p').
Proof. enter p. intros Hk. unfold parse_string_literal_with_kind. steps. finish. Qed.

Lemma ok_identifier_prefix p : lexed (tokens p) -> peek p = TIdentifier -> ok (env p) (identifier_prefix p) (fun _ p' => Consumes some_neutral p p').
Proof.
enter p. intros Hk. unfold identifier_prefix, parse_name, parse_kind_prefixed_string_literal. steps; [|finish].
destruct (strip_underscore _) as [[]|]; steps. all: last_helper ok_string_literal; finish.
Qed.

Lemma ok_boz p : lexed (tokens p) -> peek p = TBozLiteral -> ok (env p) (parse_boz_literal p) (fun _ p' => Consumes some_neutral p p').
Proof.
enter p. intros Hk. unfold parse_boz_literal. destruct (peek_not_eof p) as (t & r & E & Hkt); [congruence|].
assert (Hl : lexed_token t). { destruct L as [_ L]. rewrite list.Forall_forall in L. apply L. assert (t ∈ rest p) as H by (rewrite E; left).
unfold rest in H. by eapply subseteq_drop. }
unfold mbind, P_bind. rewrite (advance_cons p t r E). destruct (tok_text t) as [|c s] eqn:Etx; [exfalso; destruct Hl as [Hl _]; apply Hl; [congruence|done]|].
exists [t]. split; [by eapply moves_one|]. split; [|simpl; lia]. rewrite Hk in Hkt. scan.
Qed.

Lemma ok_prefix p : lexed (tokens p) -> (need ParsePrefix p <= S n)%nat -> ok (env p) (prefix rec p) (Post ParsePrefix p).
Proof.
enter p. intros Hn. unfold prefix, current_span. unfold mbind at 1, P_bind at 1. destruct (current_lexed p Ht) as [t0 ->]. step1. cbv beta.
assert (Hlen : peek p <> TEof -> (10 * length (rest p) <= n)%nat) by (intros (t & r & E & _)%peek_not_eof; unfold need in Hn; rewrite E in *; simpl in *; lia).
destruct (peek p) eqn:Ek; try (by steps); try (apply ok_unary; [done|congruence|rewrite Ek; intros; scan|by apply Hlen]).
all: try (unfold parse_integer_literal, parse_real_literal, parse_logical_literal; steps; repeat destruct (split_kind_suffix _); steps; by finish).
- by apply ok_string_literal.
- by apply ok_boz.
- by apply ok_identifier_prefix.
- step1; [apply ok_unary; [done|congruence|rewrite Ek; intros; scan|by apply Hlen]|steps].
- apply ok_parenthesized; [done|done|by apply Hlen].
- steps. last_helper ok_bracket_constructor. finish.
Qed.

(** ** Arguments *)

Lemma ok_optional_expr stops p :
lexed (tokens p) -> (10 * length (rest p) + 3 <= n)%nat -> ok (env p) (optional_expr rec stops p) (fun _ p' => Consumes neutral p p').
Proof. enter p. intros Hn. unfold optional_expr. steps; finish. Qed.

Lemma ok_range start p :
lexed (tokens p) -> (10 * length (rest p) + 3 <= n)%nat -> ok (env p) (parse_range rec start p) (fun _ p' => Consumes inner p p').
Proof.
enter p. intros Hn. unfold parse_range. steps; helper ok_optional_expr; steps; [finish|helper ok_optional_expr; steps; finish|finish].
Qed.

Lemma ok_argument p :
lexed (tokens p) -> (10 * length (rest p) + 3 <= n)%nat -> ok (env p) (parse_argument rec p) (fun _ p' => Consumes inner p p').
Proof.
enter p. intros Hn. unfold parse_argument. do 2 step1. destruct (_ && _) eqn:Hb.
- apply andb_true_iff in Hb as [?%bool_decide_eq_true_1 ?%bool_decide_eq_true_1]. step1. assert (peek p' = TAssign) by (by eapply moves_peek). steps. finish.
- step1; [helper ok_range; steps; finish|]. steps; [helper ok_range; steps; finish|finish].
Qed.

(** A tuple of names is bracketed; the position is restored when there is none. *)
Definition tuple_post (cp : nat) (p : Parser) (r : option (list Argument)) (p' : Parser) : Prop := Post (NameTupleLoop cp EmptyString [] false) p r p'.

Lemma ok_backtrack cp p c p' : moves p c p' -> ok (env p) ((_ ← reset_position cp; mret None) p') (tuple_post cp p).
Proof. intros [_ ->]. done. Qed.

Lemma ok_name_tuple_end cp names saw p : lexed (tokens p) -> ok (env p) (name_tuple_end cp names saw p) (tuple_post cp p).
Proof.
enter p. unfold name_tuple_end. cbv zeta. destruct saw; steps; [finish|by eapply ok_backtrack..].
Qed.

Lemma ok_name_tuple_loop cp first names saw p :
lexed (tokens p) -> (need (NameTupleLoop cp first names saw) p <= S n)%nat -> ok (env p) (name_tuple_loop rec cp first names saw p) (tuple_post cp p).
Proof.
enter p. intros Hn. unfold name_tuple_loop. cbv zeta. step1; [|by apply ok_name_tuple_end]. do 2 step1; [|by eapply ok_backtrack].
step1. destruct (eq_ignore_ascii_case _ _); [|by eapply ok_backtrack].
eapply ok_mono; [eapply (ok_rec rec n Hrec); [eassumption|eassumption|fuel]|]. intros [l|] q Hq; cbn in Hq |- *.
- eapply consumed in Hq as (c & ? & ?); [|eassumption]. finish.
- destruct H3 as [_ ->]. done.
Qed.

Definition tuple_tokens (r : option (list Argument)) (c : list Token) : Prop := match r with Some _ => neutral c | None => c = [] end.

Lemma ok_name_tuple p :
lexed (tokens p) -> (10 * length (rest p) <= n)%nat -> ok (env p) (try_parse_repeated_name_tuple_argument rec p) (fun r p' => Consumes (tuple_tokens r) p p').
Proof.
enter p. intros Hn. unfold try_parse_repeated_name_tuple_argument. do 2 step1; [|exists []; split; [apply moves_nil|done]]. cbv zeta.
assert (Hback : forall c p', moves p c p' -> Consumes (tuple_tokens None) p (with_pos (pos p) p')).
{ intros c q [_ ->]. exists []. split; [|done]. pose proof (moves_nil p) as M'. destruct p. exact M'. }
do 2 step1.
- step1. eapply ok_mono; [eapply (ok_rec rec n Hrec); [eassumption|eassumption|fuel]|]. intros [l|] q Hq; cbn in Hq |- *.
+ eapply consumed in Hq as (c & ? & ?); [|eassumption]. eexists. split; [eassumption|]. cbn. scan.
+ subst q. by eapply Hback.
- cbn. by eapply Hback.
Qed.

Lemma ok_argument_loop args p : lexed (tokens p) -> (need (ArgumentLoop args) p <= S n)%nat -> ok (env p) (argument_loop rec args p) (Post (ArgumentLoop args) p).
Proof.
enter p. intros Hn. unfold argument_loop. helper ok_name_tuple. destruct a as [l|]; cbn in H.
- steps; finish.
- subst c'. apply bind_assoc. helper ok_argument. steps; finish.
Qed.

Lemma ok_postfix e p : lexed (tokens p) -> (need (ParsePostfix e) p <= S n)%nat -> ok (env p) (postfix rec e p) (Post (ParsePostfix e) p).
Proof.
enter p. intros Hn. unfold postfix. step1. cbv beta. destruct (peek p) eqn:Ek; try (by steps; finish).
- unfold parse_argument_list. steps; finish.
- step1. destruct (rest p') as [|t' r] eqn:Er.
+ unfold mbind, P_bind. rewrite (advance_past p t p') by done. rewrite H, Ek. by eapply ok_raise_at.
+ assert (Ha : ok (env p) (advance p') (fun t q => moves p' [t] q)) by (apply ok_advance; eauto).
eapply ok_bind; [exact Ha|]. intros t2 q Hq. pose proof (moves_trans _ _ _ _ _ H0 Hq) as Hm. steps; finish.
Qed.
End Bodies.

(** The specification of every call. *)
Lemma run_ok fuel : forall A (c : call A) p, lexed (tokens p) -> (need c p <= fuel)%nat -> ok (env p) (run fuel A c p) (Post c p).
Proof.
  induction fuel as [|fuel IH]; intros A c p L Hn; [unfold need in Hn; destruct c; simpl in Hn; lia|].
  destruct c; cbn [run body].
  - by eapply ok_parse_expr_bp.
  - by eapply ok_expr_body.
  - by eapply ok_expr_loop.
  - by eapply ok_prefix.
  - by eapply ok_postfix.
  - by eapply ok_conditional.
  - by eapply ok_argument_loop.
  - by eapply ok_name_tuple_loop.
  - by eapply ok_bracket_loop.
  - by eapply ok_slash_loop.
  - by eapply ok_ac_value.
  - by eapply ok_implied_do.
  - by eapply ok_implied_do_loop.
Qed.

(** C20: the expression parser is total.  From every state over [lexed] tokens, without a limit on their number,
    the fuel of the model is enough and nothing panics: the parser gives an expression, having moved forward over at least
    one token and over whole brackets only, or it gives an error; in both cases the tokens, the nesting
    counter, the array-constructor counter and the modes are what they were.  (Without a token, or on a BOZ literal
    without a text, the code panics.) *)
Theorem parse_expression_total p :
  lexed (tokens p) ->
  match parse_expression p with
  | ROk _ p' => exists c, rest p = c ++ rest p' /\ p' = with_pos (pos p + length c) p /\ c <> [] /\ forall k l, stop true k (c ++ l) = stop true k l
  | RErr _ p' => env p' = env p
  | RPanic | RFuel => False
  end.
Proof.
  intros L. unfold parse_expression. assert (Hn : (need (ParseExprBp 0) p <= fuel_for p)%nat) by (unfold need, fuel_for, rest; simpl; lia).
  pose proof (run_ok _ _ _ _ L Hn) as H. destruct (run _ _ _ p) as [e p'|e p'| |]; [|done..].
  destruct H as (c & [E ->] & [Hc Hl]). exists c. split_and!; [done|done|by intros ->; simpl in Hl; lia|]. intros k l. apply Hc.
Qed.

(** [a * (b] and [-f(i::2)%x ** 2]. *)
Definition ident (s : string) : Token := {| tok_kind := TIdentifier; tok_text := s |}.
Definition punct (k : TokenKind) : Token := {| tok_kind := k; tok_text := EmptyString |}.
Definition number (s : string) : Token := {| tok_kind := TIntegerLiteral; tok_text := s |}.

Definition sample_expression : list Token :=
  [punct TMinus; ident "f"; punct TLParen; ident "i"; punct TColonColon; number "2"; punct TRParen; punct TPercent; ident "x"; punct TPower; number "2_8";
   punct TNewline; punct TEof].

Example sample_parsed :
  parse_expression (with_mode sample_expression false false) =
  ROk (UnaryExpr UMinus
        (BinaryExpr OpPow
          (ComponentAccess (FunctionCall (Name "f") [mkArgument None (Range (Some (Name "i")) None (Some (IntegerLiteral "2" None)))]) "x")
          (IntegerLiteral "2" (Some "8"))))
      (with_pos 11 (with_mode sample_expression false false)).
Proof. vm_compute. reflexivity. Qed.

Lemma parse_expression_total_witness :
  match parse_expression (with_mode [ident "a"; punct TStar; punct TLParen; ident "b"] false false) with
  | ROk _ _ => False
  | RErr _ p' => env p' = with_mode [ident "a"; punct TStar; punct TLParen; ident "b"] false false
  | RPanic | RFuel => False
  end.
Proof.
  assert (L : lexed [ident "a"; punct TStar; punct TLParen; ident "b"]) by (apply (bool_decide_unpack _); vm_compute; exact I).
  pose proof (parse_expression_total (with_mode [ident "a"; punct TStar; punct TLParen; ident "b"] false false) L) as H.
  vm_compute in H. vm_compute. exact H.
Defined.
