(* ===== verification/ParseGrammar.v ===== *)
(** The grammar of expressions, and that the parser of src/src/parser/expr.rs finds the tree of
    every expression of it.

    [spells d e ts] says that the tokens [ts] write the tree [e].  A table of precedence
    levels and associativities, independent of the binding powers of the parser, says
    which operations may stand without parentheses in an operand of which ([tight],
    [heads]).  [d] is the nesting depth at which the expression is read. *)

From S2P Require Import Prelude.
From stdpp Require Import list.
From S2P Require Import Tokens AstExpr Parser ParseExpr ParseTotal.

Local Open Scope string_scope.
Local Open Scope list_scope.

(** * Precedence of trees *)

(** The levels in the order the module documents (src/src/parser/expr.rs:3, 22-53), from
    the loosest to the tightest: defined binary operators, equivalences, [.or.], [.and.],
    [.not.], comparisons, concatenation, sums, products, signs, powers, defined unary
    operators. *)
Definition precedence (op : BinaryOp) : nat :=
  match op with
  | OpDefined _ => 1
  | OpEqv | OpNeqv => 2
  | OpOr => 3
  | OpAnd => 4
  | OpEq | OpNe | OpLt | OpLe | OpGt | OpGe => 6
  | OpConcat => 7
  | OpAdd | OpSub => 8
  | OpMul | OpDiv => 9
  | OpPow => 11
  end.

Definition unary_precedence (op : UnaryOp) : nat :=
  match op with UNot => 5 | UPlus | UMinus => 10 | UDefined _ => 12 end.

(** Powers group to the right, comparisons do not chain, everything else groups to the left. *)
Inductive Associativity := LeftAssociative | RightAssociative | NonAssociative.

Definition associativity (op : BinaryOp) : Associativity :=
  match op with
  | OpPow => RightAssociative
  | OpEq | OpNe | OpLt | OpLe | OpGt | OpGe => NonAssociative
  | _ => LeftAssociative
  end.

Definition groups_left (op : BinaryOp) : bool := match associativity op with LeftAssociative => true | _ => false end.
Definition groups_right (op : BinaryOp) : bool := match associativity op with RightAssociative => true | _ => false end.

(** [q] may stand without parentheses in the left or the right operand of [op]. *)
Definition in_left (op q : BinaryOp) : bool := (precedence op <? precedence q)%nat || ((precedence op =? precedence q)%nat && groups_left op).
Definition in_right (op q : BinaryOp) : bool := (precedence op <? precedence q)%nat || ((precedence op =? precedence q)%nat && groups_right op).
Definition in_unary (op : UnaryOp) (q : BinaryOp) : bool := (unary_precedence op <? precedence q)%nat.

(** The operators down the left side of a right operand may all stand there: each of
    them has its left operand at the boundary. *)
Fixpoint heads (ok : BinaryOp -> bool) (e : Expr) : Prop :=
  match e with
  | BinaryExpr q l _ => ok q = true /\ heads ok l
  | _ => True
  end.

(** The operators down the right side of a left operand of [op]. *)
Fixpoint tight (op : BinaryOp) (e : Expr) : Prop :=
  match e with
  | BinaryExpr q _ r => in_left op q = true /\ tight op r
  | UnaryExpr u r => (precedence op <? unary_precedence u)%nat = true /\ tight op r
  | _ => True
  end.

(** The spellings of the binary operators. *)
Definition dot_operators : list (string * BinaryOp) :=
  [("eq", OpEq); ("ne", OpNe); ("lt", OpLt); ("le", OpLe); ("gt", OpGt); ("ge", OpGe);
   ("and", OpAnd); ("or", OpOr); ("eqv", OpEqv); ("neqv", OpNeqv)].

Definition binary_token (t : Token) : option BinaryOp :=
  match tok_kind t with
  | TPlus => Some OpAdd
  | TMinus => Some OpSub
  | TStar => Some OpMul
  | TSlash => Some OpDiv
  | TPower => Some OpPow
  | TConcat => Some OpConcat
  | TEq => Some OpEq
  | TNe => Some OpNe
  | TLt => Some OpLt
  | TLe => Some OpLe
  | TGt => Some OpGt
  | TGe => Some OpGe
  | TDotOp name => (fun x => x.2.2) <$> list_find (fun x => x.1 = name) dot_operators
  | TDefinedOp name => Some (OpDefined name)
  | _ => None
  end.

Definition primary (e : Expr) : bool := match e with BinaryExpr _ _ _ | UnaryExpr _ _ => false | _ => true end.

(** A complex literal of one repeated name, which the parser reads as two arguments. *)
Definition tuple_like (e : Expr) : bool :=
  match e with ComplexLiteral (Name a) (Name b) => eq_ignore_ascii_case b a | _ => false end.

Definition unary_token (t : Token) : option UnaryOp :=
  match tok_kind t with
  | TPlus => Some UPlus
  | TMinus => Some UMinus
  | TDotOp name => if bool_decide (name = "not") then Some UNot else None
  | TDefinedOp name => Some (UDefined name)
  | _ => None
  end.

Definition nil_token (t : Token) : bool := bool_decide (tok_kind t = TDefinedOp "nil").

Definition numeric_words : list string := ["integer"; "real"; "complex"; "logical"].
Definition type_words : list string := numeric_words ++ ["doubleprecision"; "doublecomplex"; "character"].

(** * The grammar *)

Section Grammar.
(** Whether the tokens are escaped source bytes. *)
Context (sv : bool).

Inductive spells (d : nat) : Expr -> list Token -> Prop :=
| sp_integer t : (d < EXPR_NESTING_LIMIT)%nat -> tok_kind t = TIntegerLiteral ->
spells d (IntegerLiteral (split_kind_suffix (tok_text t)).1 (split_kind_suffix (tok_text t)).2) [t]
| sp_real t : (d < EXPR_NESTING_LIMIT)%nat -> tok_kind t = TRealLiteral ->
spells d (RealLiteral (split_kind_suffix (tok_text t)).1 (split_kind_suffix (tok_text t)).2) [t]
| sp_string t : (d < EXPR_NESTING_LIMIT)%nat -> tok_kind t = TStringLiteral ->
spells d (StringLiteral {| sl_text := literal_value (tok_text t); sl_source_view := sv |} None) [t]
| sp_kind_string k t kind : (d < EXPR_NESTING_LIMIT)%nat -> tok_kind k = TIdentifier -> strip_underscore (tok_text k) = Some kind -> kind <> EmptyString ->
tok_kind t = TStringLiteral -> spells d (StringLiteral {| sl_text := literal_value (tok_text t); sl_source_view := sv |} (Some kind)) [k; t]
| sp_logical t : (d < EXPR_NESTING_LIMIT)%nat -> tok_kind t = TLogicalLiteral ->
spells d (LogicalLiteral (logical_value (tok_text t)) (logical_kind (tok_text t))) [t]
| sp_boz t c s : (d < EXPR_NESTING_LIMIT)%nat -> tok_kind t = TBozLiteral -> tok_text t = String c s -> spells d (BozLiteral (tok_text t) (boz_base c)) [t]
| sp_name t : (d < EXPR_NESTING_LIMIT)%nat -> tok_kind t = TIdentifier -> spells d (Name (tok_text t)) [t]
| sp_unary t op e ts : (d < EXPR_NESTING_LIMIT)%nat -> unary_token t = Some op -> spells (S d) e ts -> heads (in_unary op) e ->
spells d (UnaryExpr op e) (t :: ts)
| sp_paren o e ts c : (d < EXPR_NESTING_LIMIT)%nat -> tok_kind o = TLParen -> spells (S d) e ts -> tok_kind c = TRParen -> spells d (ParenExpr e) (o :: ts ++ [c])
| sp_complex o re tr comma im ti c : (d < EXPR_NESTING_LIMIT)%nat -> tok_kind o = TLParen -> spells (S d) re tr -> tok_kind comma = TComma ->
spells (S d) im ti -> tok_kind c = TRParen -> spells d (ComplexLiteral re im) (o :: tr ++ comma :: ti ++ [c])
| sp_conditional o cond tc q e tt c : (d < EXPR_NESTING_LIMIT)%nat -> tok_kind o = TLParen -> spells (S d) cond tc -> tok_kind q = TQuestion ->
spells_tail (S d) cond e tt -> tok_kind c = TRParen -> spells d e (o :: tc ++ q :: tt ++ [c])
| sp_bracket o spec tspec vs tvs c : (d < EXPR_NESTING_LIMIT)%nat -> tok_kind o = TLBracket -> spells_spec (S d) spec tspec -> spells_values0 (S d) vs tvs ->
tok_kind c = TRBracket -> spells d (ArrayConstructor spec vs) (o :: tspec ++ tvs ++ [c])
| sp_slash o s vs tvs s' c : (d < EXPR_NESTING_LIMIT)%nat -> tok_kind o = TLParen -> tok_kind s = TSlash -> spells_values0 (S d) vs tvs -> tok_kind s' = TSlash ->
tok_kind c = TRParen -> spells d (ArrayConstructor None vs) (o :: s :: tvs ++ [s'; c])
| sp_component e ts pct name : spells d e ts -> primary e = true -> tok_kind pct = TPercent -> tok_kind name = TIdentifier ->
spells d (ComponentAccess e (tok_text name)) (ts ++ [pct; name])
| sp_call0 e ts o c : spells d e ts -> primary e = true -> tok_kind o = TLParen -> tok_kind c = TRParen -> spells d (FunctionCall e []) (ts ++ [o; c])
| sp_call e ts o args targs c : spells d e ts -> primary e = true -> tok_kind o = TLParen -> spells_args (S d) args targs -> tok_kind c = TRParen ->
spells d (FunctionCall e args) (ts ++ o :: targs ++ [c])
| sp_binary op l tl t r tr : spells d l tl -> binary_token t = Some op -> tight op l -> spells (S d) r tr ->
heads (in_right op) r -> spells d (BinaryExpr op l r) (tl ++ t :: tr)
(** The rest of a conditional expression, after [?]. *)
with spells_tail (d : nat) : Expr -> Expr -> list Token -> Prop :=
| spt_end cond a ta colon b tb : spells_arm d a ta -> tok_kind colon = TColon -> spells_arm d b tb -> spells_tail d cond (ConditionalExpr cond a b) (ta ++ colon :: tb)
| spt_chain cond a ta colon b tb q e te : spells_arm d a ta -> tok_kind colon = TColon -> spells_arm d b tb -> tok_kind q = TQuestion ->
spells_tail d b e te -> spells_tail d cond (ConditionalExpr cond a e) (ta ++ colon :: tb ++ q :: te)
with spells_arm (d : nat) : Expr -> list Token -> Prop :=
| spr_nil t : nil_token t = true -> spells_arm d NilArgument [t]
| spr_expr e t ts : spells d e (t :: ts) -> nil_token t = false -> spells_arm d e (t :: ts)
(** The type of an array constructor, with its [::]. *)
with spells_spec (d : nat) : option string -> list Token -> Prop :=
| sps_none : spells_spec d None []
| sps_name t cc : tok_kind t = TIdentifier -> to_ascii_lowercase (tok_text t) ∉ words -> tok_kind cc = TColonColon -> spells_spec d (Some (tok_text t)) [t; cc]
| sps_word t cc : tok_kind t = TIdentifier -> to_ascii_lowercase (tok_text t) ∈ type_words -> tok_kind cc = TColonColon -> spells_spec d (Some (tok_text t)) [t; cc]
| sps_kind t o e te c cc : tok_kind t = TIdentifier -> to_ascii_lowercase (tok_text t) ∈ numeric_words -> tok_kind o = TLParen -> spells d e te -> tok_kind c = TRParen ->
tok_kind cc = TColonColon -> spells_spec d (Some (render_token_slice (t :: o :: te ++ [c]))) (t :: o :: te ++ [c; cc])
| sps_kind_eq t o k a e te c cc : tok_kind t = TIdentifier -> to_ascii_lowercase (tok_text t) ∈ numeric_words -> tok_kind o = TLParen ->
tok_kind k = TIdentifier -> eq_ignore_ascii_case (tok_text k) "kind" = true -> tok_kind a = TAssign -> spells d e te -> tok_kind c = TRParen ->
tok_kind cc = TColonColon -> spells_spec d (Some (render_token_slice (t :: o :: k :: a :: te ++ [c]))) (t :: o :: k :: a :: te ++ [c; cc])
with spells_values0 (d : nat) : list AcValue -> list Token -> Prop :=
| spv_nil : spells_values0 d [] []
| spv_some vs ts : spells_values d vs ts -> spells_values0 d vs ts
with spells_values (d : nat) : list AcValue -> list Token -> Prop :=
| spv_one v ts : spells_value d v ts -> spells_values d [v] ts
| spv_cons v ts comma vs tvs : spells_value d v ts -> tok_kind comma = TComma -> spells_values d vs tvs -> spells_values d (v :: vs) (ts ++ comma :: tvs)
with spells_value (d : nat) : AcValue -> list Token -> Prop :=
| spa_expr e ts : spells d e ts -> spells_value d (AcExpr e) ts
| spa_do o vs tvs comma var assign s ts comma' f tf step tstep c : tok_kind o = TLParen -> spells_values d vs tvs -> tok_kind comma = TComma ->
tok_kind var = TIdentifier -> tok_kind assign = TAssign -> spells d s ts -> tok_kind comma' = TComma -> spells d f tf -> spells_step d step tstep ->
tok_kind c = TRParen ->
spells_value d (ImpliedDo vs (tok_text var) s f step) (o :: tvs ++ comma :: var :: assign :: ts ++ comma' :: tf ++ tstep ++ [c])
with spells_step (d : nat) : option Expr -> list Token -> Prop :=
| spp_none : spells_step d None []
| spp_some comma e ts : tok_kind comma = TComma -> spells d e ts -> spells_step d (Some e) (comma :: ts)
with spells_args (d : nat) : list Argument -> list Token -> Prop :=
| spg_one a ts : spells_arg d a ts -> spells_args d [a] ts
| spg_cons a ts comma args targs : spells_arg d a ts -> tok_kind comma = TComma -> spells_args d args targs -> spells_args d (a :: args) (ts ++ comma :: targs)
with spells_arg (d : nat) : Argument -> list Token -> Prop :=
| sph_keyword t assign e ts : tok_kind t = TIdentifier -> tok_kind assign = TAssign -> spells d e ts ->
spells_arg d (mkArgument (Some (tok_text t)) (Element e)) (t :: assign :: ts)
| sph_element e ts : spells d e ts -> tuple_like e = false -> spells_arg d (mkArgument None (Element e)) ts
| sph_range s ts range tr : spells_option d s ts -> spells_range d s range tr -> spells_arg d (mkArgument None range) (ts ++ tr)
(** A range after its start. *)
with spells_range (d : nat) : option Expr -> SectionSubscript -> list Token -> Prop :=
| spn_end s colon f tf : tok_kind colon = TColon -> spells_option d f tf -> spells_range d s (Range s f None) (colon :: tf)
| spn_stride s colon f tf colon' st tst : tok_kind colon = TColon -> spells_option d f tf -> tok_kind colon' = TColon -> spells_option d st tst ->
spells_range d s (Range s f st) (colon :: tf ++ colon' :: tst)
| spn_double s cc st tst : tok_kind cc = TColonColon -> spells_option d st tst -> spells_range d s (Range s None st) (cc :: tst)
with spells_option (d : nat) : option Expr -> list Token -> Prop :=
| spo_none : spells_option d None []
| spo_some e ts : spells d e ts -> spells_option d (Some e) ts.

Scheme spells_mut := Minimality for spells Sort Prop
with spells_tail_mut := Minimality for spells_tail Sort Prop
with spells_arm_mut := Minimality for spells_arm Sort Prop
with spells_spec_mut := Minimality for spells_spec Sort Prop
with spells_values0_mut := Minimality for spells_values0 Sort Prop
with spells_values_mut := Minimality for spells_values Sort Prop
with spells_value_mut := Minimality for spells_value Sort Prop
with spells_step_mut := Minimality for spells_step Sort Prop
with spells_args_mut := Minimality for spells_args Sort Prop
with spells_arg_mut := Minimality for spells_arg Sort Prop
with spells_range_mut := Minimality for spells_range Sort Prop
with spells_option_mut := Minimality for spells_option Sort Prop.
Combined Scheme spells_all from spells_mut, spells_tail_mut, spells_arm_mut, spells_spec_mut, spells_values0_mut, spells_values_mut, spells_value_mut,
spells_step_mut, spells_args_mut, spells_arg_mut, spells_range_mut, spells_option_mut.
End Grammar.

(** * The tokens of an expression *)

(** Invisible to the scan that passes over commas. *)
Definition soft (c : list Token) : Prop := forall k l, stop false k (c ++ l) = stop false k l.

Ltac gscan_step :=
  match goal with
  | H : soft ?c |- context [stop false _ (?c ++ _)] => rewrite H
  | k : nat |- context [match ?k with O => _ | S _ => _ end] => destruct k
  | |- _ => scan_step
  end.
Ltac gscan := intros; repeat (first [progress unfold neutral at 1 | progress unfold inner at 1 | progress unfold soft at 1]; intros); repeat gscan_step; try done.

Lemma unary_token_neutral t op : unary_token t = Some op -> neutral [t].
Proof. unfold unary_token. intros H b k l. destruct (tok_kind t) eqn:E; try done; gscan. Qed.

Lemma binary_token_neutral t op : binary_token t = Some op -> neutral [t].
Proof. unfold binary_token. intros H b k l. destruct (tok_kind t) eqn:E; try done; gscan. Qed.

Lemma neutral_cons t c : neutral [t] -> neutral c -> neutral (t :: c).
Proof. intros H1 H2 b k l. change ((t :: c) ++ l) with ([t] ++ (c ++ l)). by rewrite H1, H2. Qed.

Lemma nil_token_neutral t : nil_token t = true -> neutral [t].
Proof. intros H%bool_decide_eq_true_1. gscan. Qed.

Lemma spells_scan sv d :
  (forall e ts, spells sv d e ts -> some_neutral ts) /\ (forall c e ts, spells_tail sv d c e ts -> some_neutral ts) /\
  (forall e ts, spells_arm sv d e ts -> some_neutral ts) /\ (forall s ts, spells_spec sv d s ts -> inner ts) /\
  (forall vs ts, spells_values0 sv d vs ts -> soft ts /\ inner ts) /\ (forall vs ts, spells_values sv d vs ts -> soft ts /\ inner ts) /\
  (forall v ts, spells_value sv d v ts -> some_neutral ts) /\ (forall v ts, spells_step sv d v ts -> soft ts /\ inner ts) /\
  (forall a ts, spells_args sv d a ts -> inner ts) /\ (forall a ts, spells_arg sv d a ts -> inner ts) /\
  (forall s r ts, spells_range sv d s r ts -> inner ts) /\ (forall o ts, spells_option sv d o ts -> neutral ts).
Proof.
  apply (spells_all sv (fun _ _ ts => some_neutral ts) (fun _ _ _ ts => some_neutral ts) (fun _ _ ts => some_neutral ts) (fun _ _ ts => inner ts)
    (fun _ _ ts => soft ts /\ inner ts) (fun _ _ ts => soft ts /\ inner ts) (fun _ _ ts => some_neutral ts) (fun _ _ ts => soft ts /\ inner ts)
    (fun _ _ ts => inner ts) (fun _ _ ts => inner ts) (fun _ _ _ ts => inner ts) (fun _ _ ts => neutral ts)); intros.
  all: repeat match goal with H : soft _ /\ inner _ |- _ => destruct H | H : some_neutral _ |- _ => destruct H end.
  all: try (split; [|rewrite ?length_app; simpl; rewrite ?length_app; simpl; lia]).
  all: try done. all: try (by gscan).
  - pose proof (unary_token_neutral _ _ H0). gscan.
  - pose proof (binary_token_neutral _ _ H1). gscan.
  - by apply nil_token_neutral.
  - split; gscan.
  - split; gscan.
Qed.

Lemma spells_neutral sv d e ts : spells sv d e ts -> some_neutral ts.
Proof. apply spells_scan. Qed.

(** Where an expression can start. *)
Definition starts (k : TokenKind) : Prop := k <> TSlash /\ k <> TRParen /\ k <> TRBracket /\ k <> TComma /\ k <> TColon /\ k <> TColonColon /\ k <> TEof /\
  k <> TComment /\ k <> TOmpDirective.

Lemma spells_starts sv d e ts : spells sv d e ts -> exists t ts', ts = t :: ts' /\ starts (tok_kind t).
Proof.
  induction 1; try (eexists _, _; split; [reflexivity|]; match goal with H : tok_kind _ = _ |- _ => rewrite H end; by split_and!).
  - eexists _, _. split; [reflexivity|]. unfold unary_token in *. destruct (tok_kind t); try done; by split_and!.
  - destruct IHspells as (x & xs & -> & ?). by eexists _, _.
  - destruct IHspells as (x & xs & -> & ?). by eexists _, _.
  - destruct IHspells as (x & xs & -> & ?). by eexists _, _.
  - destruct IHspells1 as (x & xs & -> & ?). by eexists _, _.
Qed.

(** The brackets an expression starts with: nothing but its closing parenthesis stops the
    scan after an opening one. *)
Lemma spells_group sv d e ts o ts' : spells sv d e ts -> ts = o :: ts' -> tok_kind o = TLParen -> forall l, stop false 0 (ts' ++ l) = Some TRParen.
Proof.
  intros H. revert ts'. induction H; intros ts' Ets Ho l'; simplify_eq; try congruence.
  - unfold unary_token in *. rewrite Ho in *. done.
  - apply spells_neutral in H1 as [? _]. gscan.
  - apply spells_neutral in H1 as [? _], H3 as [? _]. gscan.
  - apply spells_neutral in H1 as [? _]. apply spells_scan in H3 as [? _]. gscan.
  - apply spells_scan in H2 as [? _]. gscan.
  - destruct (spells_starts _ _ _ _ H) as (x & xs & -> & _). simplify_eq/=. rewrite <- app_assoc. by apply IHspells.
  - destruct (spells_starts _ _ _ _ H) as (x & xs & -> & _). simplify_eq/=. rewrite <- app_assoc. by apply IHspells.
  - destruct (spells_starts _ _ _ _ H) as (x & xs & -> & _). simplify_eq/=. rewrite <- app_assoc. by apply IHspells.
  - destruct (spells_starts _ _ _ _ H) as (x & xs & -> & _). simplify_eq/=. rewrite <- app_assoc. by apply IHspells1.
Qed.

(** The token after the first one of an expression, or after the expression. *)
Lemma spells_second sv d e t ts r k :
  spells sv d e (t :: ts) -> tok_kind <$> head (ts ++ r) = Some k -> tok_kind t = TIdentifier ->
  k ∈ [TAssign; TColonColon; TComma; TRParen; TRBracket] -> ts = [].
Proof.
  intros H%spells_neutral Hk Ht Hin. destruct H as [H _]. destruct ts as [|t' ts]; [done|]. simpl in Hk. injection Hk as Hk. specialize (H true 0%nat []).
  rewrite app_nil_r in H. rewrite (stop_token _ _ t _ _ Ht) in H. cbv iota in H.
  repeat (apply elem_of_cons in Hin as [->|Hin]; [by rewrite (stop_token _ _ t' _ _ Hk) in H|]). by apply elem_of_nil in Hin.
Qed.

Lemma spells_singleton sv d e t : spells sv d e [t] -> tok_kind t = TIdentifier -> e = Name (tok_text t).
Proof.
  intros H Ht. inversion H; simplify_eq; try congruence.
  all: try match goal with H : spells _ _ _ ?ts, E : ?ts ++ _ = [_] |- _ => destruct (spells_starts _ _ _ _ H) as (? & ? & -> & _); apply (f_equal length) in E; rewrite length_app in E; simpl in E; lia end.
  all: try match goal with H : unary_token _ = _ |- _ => unfold unary_token in H; rewrite Ht in H; done end.
  all: try done.
Qed.

(** * Tuples of one name *)

(** The tokens after the names, and whether there was a comma. *)
Fixpoint tuple_rest (first : string) (saw : bool) (l : list Token) : option (bool * list Token) :=
  match l with
  | [] => Some (saw, [])
  | t :: l' =>
      if bool_decide (tok_kind t = TComma) then
        match l' with
        | t2 :: l'' => if bool_decide (tok_kind t2 = TIdentifier) && eq_ignore_ascii_case (tok_text t2) first then tuple_rest first true l'' else None
        | [] => None
        end
      else Some (saw, l)
  end.

Definition tuple_end (r : option (bool * list Token)) : bool :=
  match r with
  | Some (true, c :: x :: _) => bool_decide (tok_kind c = TRParen) && (bool_decide (tok_kind x = TRParen) || bool_decide (tok_kind x = TComma))
  | _ => false
  end.

(** The tokens begin with a tuple that is a whole argument. *)
Definition name_tuple (l : list Token) : bool :=
  match l with
  | o :: t :: l' => bool_decide (tok_kind o = TLParen) && bool_decide (tok_kind t = TIdentifier) && tuple_end (tuple_rest (tok_text t) false l')
  | _ => false
  end.

(** ** Evaluating the primitives *)

Lemma bind_ok {A B} (m : P A) (f : A -> P B) p a p' : m p = ROk a p' -> (m ≫= f) p = f a p'.
Proof. intros H. unfold mbind, P_bind. by rewrite H. Qed.

Lemma eat_yes k p t r : rest p = t :: r -> tok_kind t = k -> eat k p = ROk true (with_pos (S (pos p)) p).
Proof.
  intros E Ht. unfold eat, kind_now, mbind, P_bind. rewrite (peek_cons _ _ _ E), Ht, bool_decide_eq_true_2 by done. by rewrite (advance_cons _ _ _ E).
Qed.

Lemma eat_no k p : peek p <> k -> eat k p = ROk false p.
Proof. intros E. unfold eat, kind_now, mbind, P_bind. by rewrite bool_decide_eq_false_2. Qed.

Lemma expect_yes k p t r : rest p = t :: r -> tok_kind t = k -> expect k p = ROk t (with_pos (S (pos p)) p).
Proof.
  intros E Ht. unfold expect, kind_now, mbind, P_bind. rewrite (peek_cons _ _ _ E), Ht, bool_decide_eq_true_2 by done. by rewrite (advance_cons _ _ _ E).
Qed.

Lemma rest_next p t r : rest p = t :: r -> rest (with_pos (S (pos p)) p) = r.
Proof. intros E. by apply (moves_one p t r). Qed.

Lemma tuple_end_none cp names saw p : tuple_end (Some (saw, rest p)) = false -> name_tuple_end cp names saw p = ROk None (with_pos cp p).
Proof.
  intros H. unfold name_tuple_end. cbv zeta. destruct saw; [|done]. destruct (decide (peek p = TRParen)) as [Hk|Hk].
  - destruct (peek_not_eof p) as (c & r & E & Hc); [congruence|]. rewrite (bind_ok _ _ _ _ _ (eat_yes TRParen p c r E ltac:(congruence))).
    set (q := with_pos (S (pos p)) p). assert (Hq : rest q = r) by (by eapply rest_next). unfold kind_now, mbind, P_bind. rewrite peek_rest, Hq. rewrite E in H. simpl in H.
    destruct r as [|x r]; [done|]. rewrite Hc, Hk, bool_decide_eq_true_2 in H by done. simpl in H. rewrite H. done.
  - by rewrite (bind_ok _ _ _ _ _ (eat_no TRParen p Hk)).
Qed.

Lemma name_tuple_loop_none fuel : forall cp first names saw p,
  (need (NameTupleLoop cp first names saw) p <= fuel)%nat -> tuple_end (tuple_rest first saw (rest p)) = false ->
  run fuel _ (NameTupleLoop cp first names saw) p = ROk None (with_pos cp p).
Proof.
  induction fuel as [|fuel IH]; intros cp first names saw p Hn H; [unfold need in Hn; simpl in Hn; lia|]. cbn [run body]. unfold name_tuple_loop. cbv zeta.
  destruct (decide (peek p = TComma)) as [Hk|Hk].
  - destruct (peek_not_eof p) as (c & r & E & Hc); [congruence|]. rewrite (bind_ok _ _ _ _ _ (eat_yes TComma p c r E ltac:(congruence))).
    set (q := with_pos (S (pos p)) p). assert (Hq : rest q = r) by (by eapply rest_next). unfold need in Hn. rewrite E in H, Hn. simpl in H, Hn.
    rewrite Hc, Hk, bool_decide_eq_true_2 in H by done. unfold kind_now. unfold mbind at 1, P_bind at 1. rewrite peek_rest, Hq. destruct r as [|t2 r]; [done|].
    case_bool_decide as Ht2; [|done]. rewrite (bind_ok _ _ _ _ _ (advance_cons _ _ _ Hq)). destruct (eq_ignore_ascii_case _ _); [|done]. simpl in H.
    rewrite IH; [done|unfold need; rewrite (rest_next _ _ _ Hq); simpl in *; lia|by rewrite (rest_next _ _ _ Hq)].
  - rewrite (bind_ok _ _ _ _ _ (eat_no TComma p Hk)). apply tuple_end_none. destruct (rest p) as [|t l] eqn:E; [by destruct saw|].
    simpl in H. rewrite (peek_cons _ _ _ E) in Hk. by rewrite bool_decide_eq_false_2 in H.
Qed.

Lemma name_tuple_none fuel p :
  (10 * length (rest p) <= fuel)%nat -> name_tuple (rest p) = false -> try_parse_repeated_name_tuple_argument (run fuel) p = ROk None p.
Proof.
  intros Hn H. unfold try_parse_repeated_name_tuple_argument. unfold position_now. unfold mbind at 1, P_bind at 1.
  assert (Hp : with_pos (pos p) p = p) by (by destruct p). destruct (decide (peek p = TLParen)) as [Hk|Hk].
  - destruct (peek_not_eof p) as (o & r & E & Ho); [congruence|]. rewrite (bind_ok _ _ _ _ _ (eat_yes TLParen p o r E ltac:(congruence))).
    set (q := with_pos (S (pos p)) p). assert (Hq : rest q = r) by (by eapply rest_next). rewrite E in H, Hn. unfold kind_now. unfold mbind at 1, P_bind at 1.
    rewrite peek_rest, Hq. destruct r as [|t r]; [by rewrite <- Hp at 2|]. case_bool_decide as Ht; [|by rewrite <- Hp at 2].
    rewrite (bind_ok _ _ _ _ _ (advance_cons _ _ _ Hq)). rewrite name_tuple_loop_none; [by rewrite <- Hp at 2| |].
    + unfold need. rewrite (rest_next _ _ _ Hq). simpl in *. lia.
    + rewrite (rest_next _ _ _ Hq). simpl in H. by rewrite Ho, Hk, !bool_decide_eq_true_2 in H.
  - by rewrite (bind_ok _ _ _ _ _ (eat_no TLParen p Hk)).
Qed.

(** After the first name of an expression there is no comma of its own. *)
Lemma tuple_rest_name sv d e t ts y l first saw :
  spells sv d e (t :: ts) -> tok_kind t = TIdentifier -> (ts = [] -> tok_kind y <> TComma) -> tuple_rest first saw (ts ++ y :: l) = Some (saw, ts ++ y :: l).
Proof.
  intros H Ht Hy. destruct (ts ++ y :: l) as [|z zs] eqn:E; [by destruct ts|]. simpl. rewrite bool_decide_eq_false_2; [done|]. intros Hz.
  assert (ts = []) as ->. { eapply (spells_second _ _ _ _ _ (y :: l) TComma); [done|by rewrite E; simpl; f_equal|done|set_solver]. } simplify_eq/=. by apply Hy.
Qed.

Lemma tuple_end_more sv d e t ts y l : spells sv d e (t :: ts) -> tok_kind t = TIdentifier -> ts <> [] -> tuple_end (Some (true, ts ++ y :: l)) = false.
Proof.
  intros H Ht Hne. destruct ts as [|z zs]; [done|]. simpl. destruct (zs ++ y :: l) as [|w ws]; [done|]. rewrite (bool_decide_eq_false_2 (tok_kind z = TRParen)); [done|].
  intros Hz. assert (z :: zs = []); [|done]. eapply (spells_second _ _ _ _ _ [] TRParen); [done|by simpl; f_equal|done|set_solver].
Qed.

(** A parenthesis around an expression and a token that is no comma. *)
Lemma name_tuple_paren sv d e o ts y l : spells sv d e ts -> tok_kind y <> TComma -> name_tuple (o :: ts ++ y :: l) = false.
Proof.
  intros H Hy. destruct (spells_starts _ _ _ _ H) as (t & ts' & -> & _). simpl. case_bool_decide as Ho; [|done]. case_bool_decide as Ht; [|done]. simpl.
  by rewrite (tuple_rest_name _ _ _ _ _ _ _ _ _ H Ht).
Qed.

Lemma name_tuple_complex sv d re tr im ti o comma c x r :
  spells sv d re tr -> spells sv d im ti -> tok_kind comma = TComma -> tok_kind c = TRParen ->
  (tuple_like (ComplexLiteral re im) = false \/ (tok_kind x <> TRParen /\ tok_kind x <> TComma)) -> name_tuple (o :: tr ++ comma :: ti ++ c :: x :: r) = false.
Proof.
  intros Hr Hi Hcomma Hc Hx. destruct (spells_starts _ _ _ _ Hr) as (t & tr' & -> & _). destruct (spells_starts _ _ _ _ Hi) as (t2 & ti' & -> & _). simpl.
  case_bool_decide as Ho; [|done]. case_bool_decide as Ht; [|done]. simpl. destruct tr' as [|z tr'].
  - simpl. rewrite bool_decide_eq_true_2 by done. case_bool_decide as Ht2; [|done]. destruct (eq_ignore_ascii_case _ _) eqn:Eq; [|done]. simpl.
    rewrite (tuple_rest_name _ _ _ _ _ _ _ _ _ Hi Ht2) by (intros ->; congruence). destruct ti' as [|z ti']; [|by eapply tuple_end_more].
    simpl. rewrite (bool_decide_eq_true_2 (tok_kind c = TRParen)) by done. destruct Hx as [Hx|[? ?]].
    + apply spells_singleton in Hr as ->; [|done]. apply spells_singleton in Hi as ->; [|done]. simpl in Hx. congruence.
    + by rewrite !bool_decide_eq_false_2.
  - by rewrite (tuple_rest_name _ _ _ _ _ _ _ _ _ Hr Ht) by done.
Qed.

Lemma spells_not_tuple sv d e ts : spells sv d e ts -> forall x r,
  (tuple_like e = false \/ (tok_kind x <> TRParen /\ tok_kind x <> TComma)) -> name_tuple (ts ++ x :: r) = false.
Proof.
  induction 1; intros x r0 Hx; rewrite <- ?app_assoc; cbn [app]; rewrite <- ?app_assoc; cbn [app];
    try (simpl; rewrite ?(bool_decide_eq_false_2 (tok_kind _ = TLParen)) by congruence; try done; destruct (_ ++ _); done).
  - simpl. destruct (ts ++ x :: r0); [done|]. rewrite bool_decide_eq_false_2; [done|]. intros E. unfold unary_token in *. by rewrite E in *.
  - eapply name_tuple_paren; [done|congruence].
  - rewrite <- app_assoc. by eapply name_tuple_complex.
  - eapply name_tuple_paren; [done|congruence].
  - simpl. rewrite (bool_decide_eq_false_2 (tok_kind s = TIdentifier)) by congruence. by rewrite andb_false_r.
  - apply IHspells. right. split; congruence.
  - apply IHspells. right. split; congruence.
  - apply IHspells. right. split; congruence.
  - apply IHspells1. right. unfold binary_token in *. by destruct (tok_kind t).
Qed.
