(* ===== verification/ParseComplete.v ===== *)
(** The parser finds the tree that the tokens spell.

    By induction on the derivation of [spells].  Reading an expression is shown to come to
    the loop of [parse_expr_bp] with the whole tree as its left operand, whatever follows: the
    operators around it are then decided by the loop.  The alternatives the parser tries first and gives up (an implied
    do, a type specifier, a tuple of names) are excluded by the bracket scan. *)

From S2P Require Import Prelude.
From stdpp Require Import list.
From S2P Require Import Tokens AstExpr Parser ParseExpr ParseTotal ParseGrammar.

Local Open Scope string_scope.
Local Open Scope list_scope.

(** * Moving through known tokens *)

Lemma moves_nil_inv p p' : moves p [] p' -> p' = p.
Proof. intros [_ ->]. simpl. rewrite Nat.add_0_r. by destruct p. Qed.

Lemma moves_app_inv p a b p' : moves p (a ++ b) p' -> exists q, moves p a q /\ moves q b p'.
Proof.
  intros [E Hp]. rewrite <- app_assoc in E. destruct (moves_skip p a (b ++ rest p') E) as [Ma Hr]. eexists. split; [exact Ma|]. split; [done|].
  rewrite Hp. unfold with_pos. cbn. by rewrite length_app, Nat.add_assoc.
Qed.

(** What every primitive does at a known token. *)
Lemma token_step p t ts p' :
  moves p (t :: ts) p' ->
  exists q, moves q ts p' /\ moves p [t] q /\ peek p = tok_kind t /\ rest p = t :: rest q /\ advance p = ROk t q /\
    eat (tok_kind t) p = ROk true q /\ expect (tok_kind t) p = ROk t q.
Proof.
  intros M. change (t :: ts) with ([t] ++ ts) in M. apply moves_app_inv in M as (q & Mt & Mts). exists q. destruct (Mt) as [E Hq]. simpl in E, Hq.
  rewrite Nat.add_1_r in Hq. rewrite Hq. split_and!; [by rewrite <- Hq|by rewrite <- Hq|by eapply peek_cons|by rewrite <- Hq|by eapply advance_cons|by eapply eat_yes|by eapply expect_yes].
Qed.

Tactic Notation "token" hyp(M) "as" simple_intropattern(q) simple_intropattern(M') :=
  let Hp := fresh "Hpeek" in let Hr := fresh "Hrest" in let Ha := fresh "Hadv" in let He := fresh "Heat" in let Hx := fresh "Hexp" in
  let M1 := fresh "M1" in
  destruct (token_step _ _ _ _ M) as (q & M' & M1 & Hp & Hr & Ha & He & Hx).

Lemma run_S fuel {A} (c : call A) p : run (S fuel) A c p = body (run fuel) c p.
Proof. done. Qed.

(** * Where an expression ends *)

(** A token that cannot continue an expression. *)
Definition ending (k : TokenKind) : bool :=
  match k with
  | TRParen | TRBracket | TComma | TColon | TColonColon | TQuestion | TNewline | TSemicolon | TComment | TEof => true
  | _ => false
  end.

(** * The binding powers are the table of precedence *)

Definition unary_bp (op : UnaryOp) : nat :=
  match op with UPlus | UMinus => BP_UNARY_ADD | UNot => BP_NOT | UDefined _ => BP_DEFINED_UNARY end.

Definition op_bp (op : BinaryOp) : Bp :=
  match op with
  | OpAdd | OpSub => BP_ADD
  | OpMul | OpDiv => BP_MUL
  | OpPow => BP_POW
  | OpConcat => BP_CONCAT
  | OpEq | OpNe | OpLt | OpLe | OpGt | OpGe => BP_COMPARISON
  | OpAnd => BP_AND
  | OpOr => BP_OR
  | OpEqv | OpNeqv => BP_EQV
  | OpDefined _ => BP_DEFINED_BINARY
  end.

(** The loop of power [m] takes an operator: it binds strongly enough, and is not a
    comparison beside a comparison. *)
Definition taken (m : nat) (op : BinaryOp) : bool :=
  (m <=? bp_left (op_bp op))%nat && negb ((bp_left (op_bp op) =? bp_right (op_bp op))%nat && (bp_left (op_bp op) =? m)%nat).

Lemma in_right_taken op q : in_right op q = taken (bp_right (op_bp op)) q.
Proof. by destruct op, q. Qed.

Lemma in_unary_taken u q : in_unary u q = taken (unary_bp u) q.
Proof. by destruct u, q. Qed.

Lemma in_left_bp op q : in_left op q = (bp_left (op_bp op) <? bp_right (op_bp q))%nat.
Proof. by destruct op, q. Qed.

Lemma unary_left_bp op u : (precedence op <? unary_precedence u)%nat = (bp_left (op_bp op) <? unary_bp u)%nat.
Proof. by destruct op, u. Qed.

(** The operators down the left side bind at least as strongly as [m], and none is a
    comparison beside a comparison. *)
Fixpoint heads_bp (m : nat) (e : Expr) : Prop :=
  match e with
  | BinaryExpr op l _ => (m <= bp_left (op_bp op))%nat /\ ~ (bp_left (op_bp op) = bp_right (op_bp op) /\ bp_left (op_bp op) = m) /\ heads_bp m l
  | _ => True
  end.

(** The operators down the right side keep their operand from an operator of power [b]. *)
Fixpoint tight_bp (b : nat) (e : Expr) : Prop :=
  match e with
  | BinaryExpr op _ r => (b < bp_right (op_bp op))%nat /\ tight_bp b r
  | UnaryExpr op r => (b < unary_bp op)%nat /\ tight_bp b r
  | _ => True
  end.

Lemma heads_powers ok m e : (forall q, ok q = taken m q) -> heads ok e -> heads_bp m e.
Proof.
  intros Hok. induction e; simpl; try done. intros [Hq Hl]. rewrite Hok in Hq. unfold taken in Hq.
  apply andb_true_iff in Hq as [H1%Nat.leb_le H2%negb_true_iff]. split; [done|]. split; [|auto].
  intros [E1%Nat.eqb_eq E2%Nat.eqb_eq]. by rewrite E1, E2 in H2.
Qed.

Lemma tight_powers op e : tight op e -> tight_bp (bp_left (op_bp op)) e.
Proof.
  induction e; simpl; try done; intros [Hq Hr].
  - rewrite unary_left_bp in Hq. apply Nat.ltb_lt in Hq. auto.
  - rewrite in_left_bp in Hq. apply Nat.ltb_lt in Hq. auto.
Qed.

Lemma binary_token_op t op : binary_token t = Some op -> token_to_binary_op t = inl op.
Proof.
  unfold binary_token, token_to_binary_op. destruct (tok_kind t); try (by intros [= <-]). simpl. unfold dot_binary_op.
  intros H. repeat (case_bool_decide; [subst; by vm_compute in H; simplify_eq|]).
  exfalso. repeat (rewrite decide_False in H by congruence). done.
Qed.

Definition follow (p : Parser) : Prop := ending (peek p) = true \/ (peek p = TSlash /\ slash_closes_array_constructor p = true).

Lemma follow_infix p : follow p -> infix_bp p = None.
Proof. unfold infix_bp. intros [H|[-> ->]]; [by destruct (peek p)|done]. Qed.

Lemma follow_not p k : follow p -> k ∈ [TLParen; TPercent; TStringLiteral; TAssign] -> peek p <> k.
Proof. intros H Hk E. rewrite <- E in Hk. destruct H as [H|[H _]]; [|by rewrite H in Hk; set_solver]. destruct (peek p); try done; set_solver. Qed.

(** The tree is complete before what follows. *)
Definition sealed (e : Expr) (p : Parser) : Prop :=
  peek p <> TStringLiteral /\
  (primary e = true \/ (peek p <> TLParen /\ peek p <> TPercent /\ forall bp, infix_bp p = Some bp -> tight_bp (bp_left bp) e)).

(** The loop of power [m] stops. *)
Definition stops (m : nat) (p : Parser) : Prop :=
  peek p <> TLParen /\ peek p <> TPercent /\ (forall bp, infix_bp p = Some bp -> (bp_left bp < m)%nat).

Lemma follow_sealed e p : follow p -> sealed e p.
Proof.
  intros H. split; [apply (follow_not p); [done|set_solver]|]. right. split_and!; [apply (follow_not p); [done|set_solver]..|]. by rewrite follow_infix.
Qed.

Lemma follow_stops m p : follow p -> stops m p.
Proof. intros H. split_and!; [apply (follow_not p); [done|set_solver]..|]. by rewrite follow_infix. Qed.

Lemma heads_0 e : heads_bp 0 e.
Proof. induction e; simpl; try done. split_and!; [lia| |done]. destruct op; simpl; lia. Qed.

Lemma spells_depth sv d e ts : spells sv d e ts -> (d < EXPR_NESTING_LIMIT)%nat.
Proof. by induction 1. Qed.

Section Complete.
Context (sv : bool).

Definition At (d : nat) (p : Parser) : Prop := source_view p = sv /\ lexed (tokens p) /\ expr_depth p = d.

Lemma At_moves d p c p' : At d p -> moves p c p' -> At d p'.
Proof. intros H [_ ->]. exact H. Qed.

(** The loop after the postfix operations. *)
Definition loop_tail (rec : forall A, call A -> P A) (m : nat) (l : Expr) : P Expr :=
bp ← inspect (fun p => mret (infix_bp p));
match bp with
| None => mret l
| Some bp =>
if (bp_left bp <? m)%nat then mret l
else if bool_decide (bp_left bp = bp_right bp) && bool_decide (bp_left bp = m) then error ChainedComparison
else
op_token ← advance;
match token_to_binary_op op_token with
| inr e => raise e
| inl op => r ← parse_expr_bp rec (bp_right bp); rec _ (ExprLoop m (BinaryExpr op l r))
end
end.

(** From [p] with the left operand [e], the loop gives [R]. *)
Definition continues (m : nat) (e : Expr) (p : Parser) (R : Res Expr) : Prop := exists e1 p1,
(length (rest p1) <= length (rest p))%nat /\
(forall fuel, (need (ParsePostfix e) p <= fuel)%nat -> run fuel _ (ParsePostfix e) p = ROk e1 p1) /\
(forall fuel, (10 * length (rest p1) + 1 <= fuel)%nat -> loop_tail (run fuel) m e1 p1 = R).

Lemma continues_loop m e p R : continues m e p R -> forall fuel, (need (ExprLoop m e) p <= fuel)%nat -> run fuel _ (ExprLoop m e) p = R.
Proof.
intros (e1 & p1 & Hl & Hpost & Htail) fuel Hn. unfold need in Hn. cbn [weight] in Hn. destruct fuel as [|fuel]; [lia|]. rewrite run_S.
change (body (run fuel) (ExprLoop m e) p) with ((run fuel _ (ParsePostfix e) ≫= loop_tail (run fuel) m) p).
rewrite (bind_ok _ _ _ _ _ (Hpost fuel ltac:(unfold need; cbn [weight]; lia))). apply Htail. lia.
Qed.

(** No postfix operation at [p]. *)
Lemma no_postfix e p : peek p <> TLParen -> peek p <> TPercent -> forall fuel, (need (ParsePostfix e) p <= fuel)%nat -> run fuel _ (ParsePostfix e) p = ROk e p.
Proof.
intros H1 H2 fuel Hn. unfold need in Hn. cbn [weight] in Hn. destruct fuel as [|fuel]; [lia|]. rewrite run_S. unfold body, postfix, kind_now, mbind, P_bind. by destruct (peek p).
Qed.

(** Reading [ts] comes to the loop with [e]. *)
Definition reads (d : nat) (e : Expr) (ts : list Token) : Prop := forall m p p' R,
At (S d) p -> moves p ts p' -> heads_bp m e -> sealed e p' -> continues m e p' R ->
forall fuel, (need (ExprBody m) p <= fuel)%nat -> run fuel _ (ExprBody m) p = R.

Lemma loop_stops m e p : stops m p -> continues m e p (ROk e p).
Proof.
intros (H1 & H2 & H3). exists e, p. split_and!; [done|by apply no_postfix|]. intros fuel _. unfold loop_tail, inspect, mbind, P_bind. simpl.
destruct (infix_bp p) as [bp|] eqn:Eb; [|done]. by rewrite (proj2 (Nat.ltb_lt _ _) (H3 bp eq_refl)).
Qed.

(** A complete expression. *)
Lemma reads_expr d e ts m p p' :
reads d e ts -> spells sv d e ts -> At d p -> moves p ts p' -> heads_bp m e -> sealed e p' -> stops m p' ->
forall fuel, (need (ParseExprBp m) p <= fuel)%nat -> run fuel _ (ParseExprBp m) p = ROk e p'.
Proof.
intros Hr Hsp (Hs & L & Hd) M Hh Hse Hst fuel Hn. unfold need in Hn. simpl in Hn. destruct fuel as [|fuel]; [lia|]. cbn [run body]. unfold parse_expr_bp_body.
rewrite Hd. rewrite (proj2 (Nat.leb_gt _ _)) by (by eapply spells_depth). cbv zeta.
rewrite (Hr m (with_expr_depth (S d) p) (with_expr_depth (S d) p') (ROk e (with_expr_depth (S d) p'))).
- cbn. f_equal. destruct M as [_ ->]. rewrite <- Hd. by destruct p.
- done.
- destruct M as [E ->]. split; [exact E|]. by destruct p.
- done.
- exact Hse.
- apply loop_stops. exact Hst.
- unfold need. cbn [weight]. change (rest (with_expr_depth (S d) p)) with (rest p). lia.
Qed.

Lemma reads_follow d e ts p p' :
reads d e ts -> spells sv d e ts -> At d p -> moves p ts p' -> follow p' ->
forall fuel, (10 * length (rest p) + 3 <= fuel)%nat -> parse_expr (run fuel) p = ROk e p'.
Proof.
intros Hr Hsp HA M Hf fuel Hn. unfold parse_expr, parse_expr_bp. eapply reads_expr; try done; [apply heads_0|by apply follow_sealed|by apply follow_stops].
Qed.

(** An expression that is a prefix by itself. *)
Lemma reads_prefix d e ts :
(1 <= length ts)%nat ->
(forall p p', At (S d) p -> moves p ts p' -> sealed e p' -> forall fuel, (10 * length (rest p) <= fuel)%nat -> prefix (run fuel) p = ROk e p') -> reads d e ts.
Proof.
intros Hl H m p p' R HA M _ Hse HR fuel Hn. unfold need in Hn. simpl in Hn. pose proof (moves_length _ _ _ M). destruct fuel as [|[|fuel]]; [lia|lia|].
rewrite run_S. unfold body, expr_body, parse_prefix. rewrite (bind_ok (run (S fuel) _ ParsePrefix) _ _ _ _ (H p p' HA M Hse fuel ltac:(lia))).
apply continues_loop; [done|]. unfold need. simpl. lia.
Qed.

(** Looking at the first token. *)
Lemma prefix_at f p t r : rest p = t :: r -> lexed (tokens p) ->
prefix f p = (match tok_kind t with
| TPlus => unary f UPlus BP_UNARY_ADD
| TMinus => unary f UMinus BP_UNARY_ADD
| TDotOp name => if bool_decide (name = "not") then unary f UNot BP_NOT else error (ExpectedExpression (tok_kind t))
| TDefinedOp name => unary f (UDefined name) BP_DEFINED_UNARY
| TLParen => parenthesized f
| TLBracket => _ ← advance; parse_array_constructor_bracket f
| TIntegerLiteral => parse_integer_literal
| TRealLiteral => parse_real_literal
| TStringLiteral => parse_string_literal
| TLogicalLiteral => parse_logical_literal
| TBozLiteral => parse_boz_literal
| TIdentifier => identifier_prefix
| k => error (ExpectedExpression k)
end) p.
Proof.
intros E [Ht _]. unfold prefix, current_span, kind_now, mbind, P_bind. destruct (current_lexed p Ht) as [x ->]. rewrite (peek_cons _ _ _ E). by destruct (tok_kind t).
Qed.

(** ** Literals and names *)

Lemma reads_atom d e t :
(forall p q f, At (S d) p -> rest p = t :: rest q -> moves p [t] q -> advance p = ROk t q -> sealed e q -> prefix f p = ROk e q) -> reads d e [t].
Proof.
intros H. apply reads_prefix; [simpl; lia|]. intros p p' HA M Hse fuel Hn. token M as q M'. apply moves_nil_inv in M' as ->. by apply H.
Qed.

Lemma reads_integer d t :
tok_kind t = TIntegerLiteral -> reads d (IntegerLiteral (split_kind_suffix (tok_text t)).1 (split_kind_suffix (tok_text t)).2) [t].
Proof. intros Ht. apply reads_atom. intros p q f HA Hrest M Hadv Hse. rewrite (prefix_at _ _ _ _ Hrest) by apply HA. rewrite Ht. unfold parse_integer_literal. rewrite (bind_ok _ _ _ _ _ Hadv). by destruct (split_kind_suffix _). Qed.

Lemma reads_real d t : tok_kind t = TRealLiteral -> reads d (RealLiteral (split_kind_suffix (tok_text t)).1 (split_kind_suffix (tok_text t)).2) [t].
Proof. intros Ht. apply reads_atom. intros p q f HA Hrest M Hadv Hse. rewrite (prefix_at _ _ _ _ Hrest) by apply HA. rewrite Ht. unfold parse_real_literal. rewrite (bind_ok _ _ _ _ _ Hadv). by destruct (split_kind_suffix _). Qed.

Lemma string_literal_at d kind p t q :
At d p -> moves p [t] q -> advance p = ROk t q -> parse_string_literal_with_kind kind p = ROk (StringLiteral {| sl_text := literal_value (tok_text t); sl_source_view := sv |} kind) q.
Proof. intros HA M Ha. unfold parse_string_literal_with_kind. rewrite (bind_ok _ _ _ _ _ Ha). destruct (At_moves _ _ _ _ HA M) as [Hs _]. unfold source_view_now, mbind, P_bind. by rewrite Hs. Qed.

Lemma reads_string d t : tok_kind t = TStringLiteral -> reads d (StringLiteral {| sl_text := literal_value (tok_text t); sl_source_view := sv |} None) [t].
Proof. intros Ht. apply reads_atom. intros p q f HA Hrest M Hadv Hse. rewrite (prefix_at _ _ _ _ Hrest) by apply HA. rewrite Ht. unfold parse_string_literal. by eapply string_literal_at. Qed.

Lemma reads_logical d t : tok_kind t = TLogicalLiteral -> reads d (LogicalLiteral (logical_value (tok_text t)) (logical_kind (tok_text t))) [t].
Proof. intros Ht. apply reads_atom. intros p q f HA Hrest M Hadv Hse. rewrite (prefix_at _ _ _ _ Hrest) by apply HA. rewrite Ht. unfold parse_logical_literal. by rewrite (bind_ok _ _ _ _ _ Hadv). Qed.

Lemma reads_boz d t c s : tok_kind t = TBozLiteral -> tok_text t = String c s -> reads d (BozLiteral (tok_text t) (boz_base c)) [t].
Proof. intros Ht Hs. apply reads_atom. intros p q f HA Hrest M Hadv Hse. rewrite (prefix_at _ _ _ _ Hrest) by apply HA. rewrite Ht. unfold parse_boz_literal. rewrite (bind_ok _ _ _ _ _ Hadv). by rewrite Hs. Qed.

Lemma peek_next p t q : rest p = t :: rest q -> peek_kind_at 1 p = tok_kind <$> head (rest q).
Proof. intros E. rewrite peek_kind_at_rest, E. simpl. by destruct (rest q). Qed.

Lemma peek_head p k : k <> TEof -> tok_kind <$> head (rest p) = Some k -> peek p = k.
Proof. rewrite peek_rest. destruct (rest p); simpl; [done|]. by intros _ [= <-]. Qed.

Lemma reads_name d t : tok_kind t = TIdentifier -> reads d (Name (tok_text t)) [t].
Proof.
intros Ht. apply reads_atom. intros p q f HA Hrest M Hadv Hse. rewrite (prefix_at _ _ _ _ Hrest) by apply HA. rewrite Ht. unfold identifier_prefix, text_now, kind_after. unfold mbind at 1 2, P_bind at 1 2.
rewrite (bool_decide_eq_false_2 (peek_kind_at 1 p = _)), andb_false_r.
- unfold parse_name. by rewrite (bind_ok _ _ _ _ _ Hadv).
- intros E. destruct Hse as [Hse _]. apply Hse, peek_head; [done|]. by erewrite <- peek_next.
Qed.

Lemma reads_kind_string d k t kind :
tok_kind k = TIdentifier -> strip_underscore (tok_text k) = Some kind -> kind <> EmptyString -> tok_kind t = TStringLiteral ->
reads d (StringLiteral {| sl_text := literal_value (tok_text t); sl_source_view := sv |} (Some kind)) [k; t].
Proof.
intros Hk Hs Hne Ht. apply reads_prefix; [simpl; lia|]. intros p p' HA M Hse fuel Hn. token M as q M'. token M' as q' M''. apply moves_nil_inv in M'' as ->.
rewrite (prefix_at _ _ _ _ Hrest) by apply HA. rewrite Hk. unfold identifier_prefix, text_now, kind_after. unfold mbind at 1 2, P_bind at 1 2.
rewrite (bool_decide_eq_true_2 (peek_kind_at 1 p = _)) by (rewrite (peek_next _ _ _ Hrest), Hrest0; simpl; by rewrite Ht).
unfold peek_text. rewrite rest_head, Hrest. cbn [head]. unfold ends_with_underscore. rewrite Hs. cbn [andb]. unfold parse_kind_prefixed_string_literal.
rewrite (bind_ok _ _ _ _ _ Hadv), Hs. destruct kind as [|c kind]; [done|]. unfold kind_now. unfold mbind, P_bind. rewrite Hpeek0, Ht.
rewrite bool_decide_eq_false_2 by auto. eapply string_literal_at; [by eapply At_moves|done|done].
Qed.

(** ** Operators *)

Lemma unary_at f t op p r : unary_token t = Some op -> rest p = t :: r -> lexed (tokens p) -> prefix f p = unary f op (unary_bp op) p.
Proof.
intros Hu E L. rewrite (prefix_at _ _ _ _ E L). unfold unary_token in Hu. destruct (tok_kind t); simplify_eq; try done. case_bool_decide; simplify_eq. done.
Qed.

Lemma reads_unary d t op e ts : unary_token t = Some op -> spells sv (S d) e ts -> reads (S d) e ts -> heads (in_unary op) e -> reads d (UnaryExpr op e) (t :: ts).
Proof.
intros Hu Hsp Hr Hh%(heads_powers _ (unary_bp op)); [|apply in_unary_taken]. apply reads_prefix; [simpl; lia|]. intros p p' HA M Hse fuel Hn. token M as q M'. rewrite (unary_at _ _ _ _ _ Hu Hrest) by apply HA.
unfold unary. rewrite (bind_ok _ _ _ _ _ Hadv). rewrite Hrest in Hn. simpl in Hn.
destruct Hse as [H1 [H2|(H2 & H3 & H4)]]; [done|]. unfold parse_expr_bp. erewrite (bind_ok _ _ _ e p'); [done|].
eapply reads_expr; [done|done|by eapply At_moves|done|done| | |].
- split; [done|]. right. split_and!; [done|done|]. intros bp Hb. by apply (H4 bp Hb).
- split_and!; [done|done|]. intros bp Hb. by apply (H4 bp Hb).
- unfold need. cbn [weight]. lia.
Qed.

Lemma infix_bp_op p t op r :
rest p = t :: r -> token_to_binary_op t = inl op -> (forall x l, r = x :: l -> tok_kind x <> TRParen) -> infix_bp p = Some (op_bp op).
Proof.
intros E Hop Hr. unfold infix_bp. rewrite (peek_cons _ _ _ E). unfold token_to_binary_op in Hop. destruct (tok_kind t) eqn:Ht; simplify_eq; try done.
- assert (slash_closes_array_constructor p = false) as ->; [|done]. unfold slash_closes_array_constructor. apply andb_false_iff. right.
apply bool_decide_eq_false_2. rewrite peek_kind_at_rest, E. destruct r as [|x l]; [done|]. simpl. intros [= Hx]. by eapply Hr.
- unfold dot_binary_op in Hop. unfold dot_bp. repeat (case_bool_decide; [simplify_eq; by vm_compute|]). done.
Qed.

Lemma reads_binary d op l tl t r tr :
spells sv d l tl -> reads d l tl -> binary_token t = Some op -> tight op l -> spells sv (S d) r tr -> reads (S d) r tr ->
heads (in_right op) r -> reads d (BinaryExpr op l r) (tl ++ t :: tr).
Proof.
intros Hsl Hl Hop%binary_token_op Ht%tight_powers Hsr Hr Hh%(heads_powers _ (bp_right (op_bp op))); [|apply in_right_taken]. intros m p p' R HA M (Hm & Hna & Hhl) Hse HR fuel Hn. apply moves_app_inv in M as (q & Ml & M). token M as q' M'.
destruct (spells_starts _ _ _ _ Hsr) as (x & xs & -> & Hx).
assert (Hinf : infix_bp q = Some (op_bp op)).
{ eapply infix_bp_op; [done|done|]. intros y ys E. destruct M' as [E' _]. rewrite E in E'. simplify_eq/=. apply Hx. }
assert (Hk : peek q <> TLParen /\ peek q <> TPercent /\ peek q <> TStringLiteral) by (rewrite Hpeek; unfold token_to_binary_op in Hop; by destruct (tok_kind t)).
destruct Hk as (Hk1 & Hk2 & Hk3). eapply (Hl m p q R); [done|done|done| | |done].
{ split; [done|]. right. split_and!; [done|done|]. intros bp Hb. congruence. }
exists l, q. split_and!; [done|by apply no_postfix|]. clear fuel Hn. intros fuel Hn. rewrite Hrest in Hn. cbn [length] in Hn. unfold loop_tail.
rewrite (bind_ok _ _ _ (infix_bp q) q) by done. rewrite Hinf. rewrite (proj2 (Nat.ltb_ge _ _)) by done.
destruct (_ && _) eqn:Hb; [by apply andb_true_iff in Hb as [?%bool_decide_eq_true_1 ?%bool_decide_eq_true_1]; destruct Hna|].
rewrite (bind_ok _ _ _ _ _ Hadv), Hop. destruct Hse as [H1 [H2|(H2 & H3 & H4)]]; [done|]. unfold parse_expr_bp.
erewrite (bind_ok _ _ _ r p').
- apply continues_loop; [done|]. unfold need. cbn [weight]. pose proof (moves_length _ _ _ M'). simpl in *. lia.
- eapply reads_expr; [done|done|by eapply At_moves; [by eapply At_moves|]|done|done| | |].
+ split; [done|]. right. split_and!; [done|done|]. intros bp Hb'. by apply (H4 bp Hb').
+ split_and!; [done|done|]. intros bp Hb'. by apply (H4 bp Hb').
+ unfold need. cbn [weight]. lia.
Qed.

(** ** Components and calls: the loop goes on with the longer expression *)

Lemma reads_postfix d e e' ts ts' :
reads d e ts -> primary e = true -> (forall m, heads_bp m e) -> (1 <= length ts')%nat ->
(forall p p', At (S d) p -> moves p ts' p' -> peek p <> TStringLiteral /\
forall fuel, (10 * length (rest p) <= fuel)%nat -> postfix (run fuel) e p = run fuel _ (ParsePostfix e') p') ->
reads d e' (ts ++ ts').
Proof.
intros Hr Hp Hh Hl Hpost m p p' R HA M _ Hse (e1 & p1 & Hlen & Hp1 & Htail) fuel Hn. apply moves_app_inv in M as (q & Ms & M).
destruct (Hpost q p') as [Hk Hpost']; [by eapply At_moves|done|]. pose proof (moves_length _ _ _ M) as Hlen'.
eapply (Hr m p q R); [done|done|done|split; [done|by left]| |done]. exists e1, p1. split_and!; [lia| |done].
clear fuel Hn. intros fuel Hn. unfold need in Hn. cbn [weight] in Hn. destruct fuel as [|fuel]; [lia|]. rewrite run_S. unfold body.
rewrite Hpost' by lia. apply Hp1. unfold need. cbn [weight]. lia.
Qed.

Lemma primary_heads m e : primary e = true -> heads_bp m e.
Proof. by destruct e. Qed.

Lemma reads_component d e ts pct name :
reads d e ts -> primary e = true -> tok_kind pct = TPercent -> tok_kind name = TIdentifier -> reads d (ComponentAccess e (tok_text name)) (ts ++ [pct; name]).
Proof.
intros Hr Hp Hpct Hname. apply (reads_postfix d e); [done|done|by intros; apply primary_heads|simpl; lia|]. intros p p' HA M. token M as q M'. token M' as q' M''.
apply moves_nil_inv in M'' as ->. split; [congruence|]. intros fuel Hn. unfold postfix, kind_now. rewrite (bind_ok _ _ _ (peek p) p) by done.
rewrite Hpeek, Hpct. rewrite (bind_ok _ _ _ _ _ Hadv), (bind_ok _ _ _ _ _ Hadv0). by rewrite bool_decide_eq_false_2 by auto.
Qed.

Lemma reads_call0 d e ts o c :
reads d e ts -> primary e = true -> tok_kind o = TLParen -> tok_kind c = TRParen -> reads d (FunctionCall e []) (ts ++ [o; c]).
Proof.
intros Hr Hp Ho Hc. apply (reads_postfix d e); [done|done|by intros; apply primary_heads|simpl; lia|]. intros p p' HA M. token M as q M'. token M' as q' M''.
apply moves_nil_inv in M'' as ->. split; [congruence|]. intros fuel Hn. unfold postfix, kind_now. rewrite (bind_ok _ _ _ (peek p) p) by done.
rewrite Hpeek, Ho. rewrite (bind_ok _ _ _ _ _ Hadv). rewrite (bind_ok _ _ _ [] q); [|unfold parse_argument_list, kind_now, mbind, P_bind; by rewrite Hpeek0, Hc].
rewrite Hc in Hexp0. by rewrite (bind_ok _ _ _ _ _ Hexp0).
Qed.

(** ** Arguments *)

Definition argument_end (p : Parser) : Prop := peek p = TRParen \/ peek p = TComma.

Lemma argument_end_follow p : argument_end p -> follow p.
Proof. intros [H|H]; left; by rewrite H. Qed.

Definition reads_option (d : nat) (o : option Expr) (ts : list Token) : Prop :=
(ts = [] /\ o = None) \/ exists e, o = Some e /\ spells sv d e ts /\ reads d e ts.

Lemma spells_peek d e ts p p' : spells sv d e ts -> moves p ts p' -> starts (peek p).
Proof. intros H M. destruct (spells_starts _ _ _ _ H) as (t & ts' & -> & Ht). token M as q M'. by rewrite Hpeek. Qed.

Lemma optional_at stopf d o ts p p' :
(forall k, starts k -> stopf k = false) -> reads_option d o ts -> At d p -> moves p ts p' -> follow p' -> stopf (peek p') = true ->
forall fuel, (10 * length (rest p) + 3 <= fuel)%nat -> optional_expr (run fuel) stopf p = ROk o p'.
Proof.
intros Hs Ho HA M Hf Hst fuel Hn. unfold optional_expr, kind_now. rewrite (bind_ok _ _ _ (peek p) p) by done. destruct Ho as [[-> ->]|(e & -> & Hsp & Hr)].
- apply moves_nil_inv in M as ->. by rewrite Hst.
- rewrite Hs by (by eapply spells_peek). by rewrite (bind_ok _ _ _ _ _ (reads_follow _ _ _ _ _ Hr Hsp HA M Hf fuel Hn)).
Qed.

Lemma starts_stride k : starts k -> ends_stride k = false.
Proof. intros (? & ? & ? & ? & ? & ? & ?). by destruct k. Qed.

Lemma starts_range k : starts k -> ends_range k = false.
Proof. intros (? & ? & ? & ? & ? & ? & ?). by destruct k. Qed.

Lemma argument_end_stops p : argument_end p -> ends_stride (peek p) = true /\ ends_range (peek p) = true.
Proof. by intros [-> | ->]. Qed.

(** What a range does at [p]. *)
Definition ranges (d : nat) (start : option Expr) (r : SectionSubscript) (ts : list Token) : Prop :=
(exists t ts', ts = t :: ts' /\ is_colon (tok_kind t) = true) /\
forall p p', At d p -> moves p ts p' -> argument_end p' -> forall fuel, (10 * length (rest p) <= fuel)%nat -> parse_range (run fuel) start p = ROk r p'.

Lemma ranges_end d s colon f tf : tok_kind colon = TColon -> reads_option d f tf -> ranges d s (Range s f None) (colon :: tf).
Proof.
intros Hc Hf. split; [exists colon, tf; by rewrite Hc|]. intros p p' HA M He fuel Hn. token M as q M'. rewrite Hrest in Hn. simpl in Hn. unfold parse_range.
rewrite (bind_ok _ _ _ _ _ (eat_no TColonColon p ltac:(congruence))). rewrite Hc in Hexp. rewrite (bind_ok _ _ _ _ _ Hexp).
destruct (argument_end_stops _ He) as [? ?]. pose proof (argument_end_follow _ He).
rewrite (bind_ok _ _ _ f p') by (eapply (optional_at _ d); [apply starts_range|done|by eapply At_moves|done..|lia]).
by rewrite (bind_ok _ _ _ _ _ (eat_no TColon p' ltac:(destruct He; congruence))).
Qed.

Lemma ranges_stride d s colon f tf colon' st tst :
tok_kind colon = TColon -> reads_option d f tf -> tok_kind colon' = TColon -> reads_option d st tst -> ranges d s (Range s f st) (colon :: tf ++ colon' :: tst).
Proof.
intros Hc Hf Hc' Hst. split; [exists colon, (tf ++ colon' :: tst); by rewrite Hc|]. intros p p' HA M He fuel Hn. token M as q M'. rewrite Hrest in Hn. simpl in Hn.
apply moves_app_inv in M' as (q1 & Mf & M'). token M' as q2 Mst. unfold parse_range.
rewrite (bind_ok _ _ _ _ _ (eat_no TColonColon p ltac:(congruence))). rewrite Hc in Hexp. rewrite (bind_ok _ _ _ _ _ Hexp).
destruct (argument_end_stops _ He) as [? ?]. pose proof (argument_end_follow _ He).
rewrite (bind_ok _ _ _ f q1) by (eapply (optional_at _ d); [apply starts_range|done|by eapply At_moves|done|left; by rewrite Hpeek0, Hc'|by rewrite Hpeek0, Hc'|lia]).
rewrite Hc' in Heat0. rewrite (bind_ok _ _ _ _ _ Heat0). pose proof (moves_length _ _ _ Mf). rewrite Hrest0 in *. simpl in *.
rewrite (bind_ok _ _ _ st p') by (eapply (optional_at _ d); [apply starts_stride|done|by eapply At_moves; [by eapply At_moves; [by eapply At_moves|]|]|done..|lia]). done.
Qed.

Lemma ranges_double d s cc st tst : tok_kind cc = TColonColon -> reads_option d st tst -> ranges d s (Range s None st) (cc :: tst).
Proof.
intros Hc Hst. split; [exists cc, tst; by rewrite Hc|]. intros p p' HA M He fuel Hn. token M as q M'. rewrite Hrest in Hn. simpl in Hn. unfold parse_range.
rewrite Hc in Heat. rewrite (bind_ok _ _ _ _ _ Heat). destruct (argument_end_stops _ He) as [? ?]. pose proof (argument_end_follow _ He).
rewrite (bind_ok _ _ _ st p') by (eapply (optional_at _ d); [apply starts_stride|done|by eapply At_moves|done..|lia]). done.
Qed.

(** A positional expression does not look like [name = value]. *)
Lemma not_keyword d e ts p p' :
spells sv d e ts -> moves p ts p' -> peek p' <> TAssign -> bool_decide (peek p = TIdentifier) && bool_decide (peek_kind_at 1 p = Some TAssign) = false.
Proof.
intros H M Hf. apply andb_false_iff. destruct (spells_starts _ _ _ _ H) as (t & ts' & -> & _). token M as q M'.
destruct (decide (tok_kind t = TIdentifier)) as [Ht|Ht]; [right|left; apply bool_decide_eq_false_2; congruence]. apply bool_decide_eq_false_2. intros E.
rewrite (peek_next _ _ _ Hrest) in E. destruct (M') as [E' _]. rewrite E' in E.
assert (ts' = []) as -> by (eapply (spells_second _ _ _ _ _ _ TAssign); [done|done|done|set_solver]). by apply Hf, peek_head.
Qed.

(** What an argument does at [p]. *)
Definition argues (d : nat) (a : Argument) (ts : list Token) : Prop := forall p p',
At d p -> moves p ts p' -> argument_end p' ->
name_tuple (rest p) = false /\ forall fuel, (10 * length (rest p) + 3 <= fuel)%nat -> parse_argument (run fuel) p = ROk a p'.

Lemma argues_keyword d t assign e ts :
tok_kind t = TIdentifier -> tok_kind assign = TAssign -> spells sv d e ts -> reads d e ts -> argues d (mkArgument (Some (tok_text t)) (Element e)) (t :: assign :: ts).
Proof.
intros Ht Ha Hsp Hr p p' HA M He. token M as q M'. token M' as q' M''. split; [rewrite Hrest, Hrest0; simpl; by rewrite Ht|]. intros fuel Hn.
rewrite Hrest, Hrest0 in Hn. simpl in Hn. unfold parse_argument, kind_now, kind_after. rewrite (bind_ok _ _ _ (peek p) p), (bind_ok _ _ _ (peek_kind_at 1 p) p) by done.
rewrite Hpeek, Ht, (peek_next _ _ _ Hrest), Hrest0. simpl. rewrite Ha, !bool_decide_eq_true_2 by done. simpl.
rewrite (bind_ok _ _ _ _ _ Hadv), (bind_ok _ _ _ _ _ Hadv0).
by rewrite (bind_ok _ _ _ _ _ (reads_follow _ _ _ q' p' Hr Hsp ltac:(eapply At_moves; [eapply At_moves|]; done) M'' ltac:(by apply argument_end_follow) fuel ltac:(lia))).
Qed.

Lemma argument_end_rest p : argument_end p -> exists x r, rest p = x :: r /\ (tok_kind x = TRParen \/ tok_kind x = TComma).
Proof. intros H. destruct (peek_not_eof p) as (x & r & E & Hx); [by destruct H as [-> | ->]|]. exists x, r. split; [done|]. by rewrite Hx. Qed.

Lemma starts_colon k : starts k -> is_colon k = false.
Proof. intros (? & ? & ? & ? & ? & ? & ?). by destruct k. Qed.

(** Reading a positional argument comes to its end or to a colon. *)
Lemma argument_expr d e ts p p' fuel :
spells sv d e ts -> reads d e ts -> At d p -> moves p ts p' -> follow p' -> (10 * length (rest p) + 3 <= fuel)%nat ->
parse_argument (run fuel) p =
(if is_colon (peek p') then s ← parse_range (run fuel) (Some e); mret (mkArgument None s) else mret (mkArgument None (Element e))) p'.
Proof.
intros Hsp Hr HA M Hf Hn. unfold parse_argument, kind_now, kind_after. rewrite (bind_ok _ _ _ (peek p) p), (bind_ok _ _ _ (peek_kind_at 1 p) p) by done.
rewrite (not_keyword _ _ _ _ _ Hsp M) by (apply (follow_not p'); [done|set_solver]). rewrite starts_colon by (by eapply spells_peek).
rewrite (bind_ok _ _ _ _ _ (reads_follow _ _ _ _ _ Hr Hsp HA M Hf fuel Hn)). rewrite (bind_ok _ _ _ (peek p') p') by done. done.
Qed.

Lemma argues_element d e ts : spells sv d e ts -> reads d e ts -> tuple_like e = false -> argues d (mkArgument None (Element e)) ts.
Proof.
intros Hsp Hr Ht p p' HA M He. destruct (argument_end_rest _ He) as (x & r & E & _). split.
- destruct M as [-> _]. rewrite E. eapply spells_not_tuple; [done|by left].
- intros fuel Hn. rewrite (argument_expr _ _ _ _ _ _ Hsp Hr HA M ltac:(by apply argument_end_follow) Hn). by destruct He as [-> | ->].
Qed.

Lemma argues_range d s ts range tr : reads_option d s ts -> ranges d s range tr -> argues d (mkArgument None range) (ts ++ tr).
Proof.
intros Hs [(t & tr' & -> & Ht) Hrange] p p' HA M He. apply moves_app_inv in M as (q & Ms & Mr). pose proof (moves_length _ _ _ Ms) as Hl. destruct (token_step _ _ _ _ Mr) as (q' & _ & _ & Hk & Hq & _).
destruct Hs as [[-> ->]|(e & -> & Hsp & Hr)].
- apply moves_nil_inv in Ms as ->. split; [rewrite Hq; simpl; destruct (rest q'); [done|]; by destruct (tok_kind t)|]. intros fuel Hn.
unfold parse_argument, kind_now, kind_after. rewrite (bind_ok _ _ _ (peek p) p), (bind_ok _ _ _ (peek_kind_at 1 p) p) by done.
rewrite Hk, Ht, bool_decide_eq_false_2 by (intros E; by rewrite E in Ht). simpl. by rewrite (bind_ok _ _ _ _ _ (Hrange _ _ HA Mr He fuel ltac:(lia))).
- split.
+ destruct Ms as [-> _]. rewrite Hq. eapply spells_not_tuple; [done|right]. split; intros E; by rewrite E in Ht.
+ intros fuel Hn. rewrite (argument_expr _ _ _ _ _ _ Hsp Hr HA Ms); [|left; rewrite Hk; by destruct (tok_kind t)|done]. rewrite Hk, Ht.
by rewrite (bind_ok _ _ _ _ _ (Hrange _ _ ltac:(by eapply At_moves) Mr He fuel ltac:(lia))).
Qed.

(** A list of arguments. *)
Definition argues_all (d : nat) (args : list Argument) (ts : list Token) : Prop := forall acc p p',
At d p -> moves p ts p' -> peek p' = TRParen ->
forall fuel, (need (ArgumentLoop acc) p <= fuel)%nat -> run fuel _ (ArgumentLoop acc) p = ROk (acc ++ args) p'.

(** One round of the loop. *)
Lemma argument_round d a ts acc p q fuel :
argues d a ts -> At d p -> moves p ts q -> argument_end q -> (10 * length (rest p) + 3 <= fuel)%nat ->
argument_loop (run fuel) acc p = (more ← eat TComma; if more : bool then run fuel _ (ArgumentLoop (acc ++ [a])) else mret (acc ++ [a])) q.
Proof.
intros Ha HA M He Hn. destruct (Ha _ _ HA M He) as [Ht Hp]. unfold argument_loop. rewrite (bind_ok _ _ _ None p) by (apply name_tuple_none; [lia|done]).
rewrite (bind_ok _ _ _ (acc ++ [a]) q); [done|]. by rewrite (bind_ok _ _ _ _ _ (Hp fuel Hn)).
Qed.

(** The first token of an argument is not a closing parenthesis. *)
Lemma arg_starts d a ts : spells_arg sv d a ts -> exists t ts', ts = t :: ts' /\ tok_kind t <> TRParen.
Proof.
intros H. destruct H as [t assign e ts Ht _ _|e ts H _|s ts range tr Hs Hr].
- eexists _, _. split; [done|congruence].
- destruct (spells_starts _ _ _ _ H) as (t & ts' & -> & Ht). eexists _, _. split; [done|apply Ht].
- destruct Hs as [|e ts H]; [destruct Hr; eexists _, _; (split; [done|congruence])|].
destruct (spells_starts _ _ _ _ H) as (t & ts' & -> & Ht). eexists _, _. split; [done|apply Ht].
Qed.

Lemma args_starts d args ts : spells_args sv d args ts -> exists t ts', ts = t :: ts' /\ tok_kind t <> TRParen.
Proof. intros [a ts' H%arg_starts|a ts' comma args' targs H%arg_starts _ _]; [done|]. destruct H as (t & l & -> & ?). by eexists _, _. Qed.

Lemma argues_one d a ts : argues d a ts -> argues_all d [a] ts.
Proof.
intros Ha acc p p' HA M Hk fuel Hn. unfold need in Hn. cbn [weight] in Hn. destruct fuel as [|fuel]; [lia|].
rewrite run_S. unfold body. rewrite (argument_round _ _ _ _ _ _ _ Ha HA M) by (try left; done || lia).
by rewrite (bind_ok _ _ _ _ _ (eat_no TComma p' ltac:(congruence))).
Qed.

Lemma argues_cons d a ts comma args targs :
argues d a ts -> tok_kind comma = TComma -> argues_all d args targs -> argues_all d (a :: args) (ts ++ comma :: targs).
Proof.
intros Ha Hc Hargs acc p p' HA M Hk fuel Hn. unfold need in Hn. cbn [weight] in Hn. destruct fuel as [|fuel]; [lia|].
apply moves_app_inv in M as (q & Ma & M). token M as q' M'. pose proof (moves_length _ _ _ Ma) as Hl.
rewrite run_S. unfold body. rewrite (argument_round _ _ _ _ _ _ _ Ha HA Ma) by (try (right; congruence); lia).
rewrite Hc in Heat. rewrite (bind_ok _ _ _ _ _ Heat). rewrite (Hargs (acc ++ [a]) q' p').
- by rewrite <- app_assoc.
- by eapply At_moves; [by eapply At_moves|].
- done.
- done.
- unfold need. cbn [weight]. rewrite Hrest in Hl. simpl in Hl. lia.
Qed.

Lemma reads_call d e ts o args targs c :
reads d e ts -> primary e = true -> tok_kind o = TLParen -> spells_args sv (S d) args targs -> argues_all (S d) args targs -> tok_kind c = TRParen ->
reads d (FunctionCall e args) (ts ++ o :: targs ++ [c]).
Proof.
intros Hr Hp Ho Hsp Hargs Hc. apply (reads_postfix d e); [done|done|by intros; apply primary_heads|simpl; lia|]. intros p p' HA M. token M as q M'.
apply moves_app_inv in M' as (q1 & Ma & M'). token M' as q2 M''. apply moves_nil_inv in M'' as ->. split; [congruence|]. intros fuel Hn.
rewrite Hrest in Hn. simpl in Hn. unfold postfix, kind_now. rewrite (bind_ok _ _ _ (peek p) p) by done. rewrite Hpeek, Ho. rewrite (bind_ok _ _ _ _ _ Hadv).
rewrite (bind_ok _ _ _ args q1).
- rewrite Hc in Hexp0. by rewrite (bind_ok _ _ _ _ _ Hexp0).
- unfold parse_argument_list, kind_now. rewrite (bind_ok _ _ _ (peek q) q) by done.
destruct (args_starts _ _ _ Hsp) as (t & ts' & -> & Ht). token Ma as q3 Ma'. rewrite Hpeek1, bool_decide_eq_false_2 by done.
apply (Hargs []); [by eapply At_moves|done|congruence|]. unfold need. cbn [weight]. lia.
Qed.

(** ** Parentheses *)

(** After the first expression in parentheses. *)
Definition paren_tail (rec : forall A, call A -> P A) (e : Expr) : P Expr :=
question ← eat TQuestion;
if question : bool then conditional ← parse_conditional_after_question rec e; _ ← expect TRParen; mret conditional
else
comma ← eat TComma;
if comma : bool then imag ← parse_expr rec; _ ← expect TRParen; mret (ComplexLiteral e imag)
else _ ← expect TRParen; mret (ParenExpr e).

Lemma paren_at d o e ts p q fuel :
tok_kind o = TLParen -> spells sv (S d) e ts -> reads (S d) e ts -> At (S d) p -> moves p (o :: ts) q -> follow q -> (10 * length (rest p) <= fuel)%nat ->
prefix (run fuel) p = paren_tail (run fuel) e q.
Proof.
intros Ho Hsp Hr HA M Hf Hn. token M as q1 M'. rewrite (prefix_at _ _ _ _ Hrest) by apply HA. rewrite Ho. rewrite Hrest in Hn. simpl in Hn. unfold parenthesized.
rewrite (bind_ok _ _ _ _ _ Hadv). rewrite (bind_ok _ _ _ _ _ (eat_no TSlash q1 ltac:(by apply (spells_peek _ _ _ _ _ Hsp M')))).
by rewrite (bind_ok _ _ _ _ _ (reads_follow _ _ _ q1 q Hr Hsp ltac:(by eapply At_moves) M' Hf fuel ltac:(lia))).
Qed.

Lemma reads_paren d o e ts c :
tok_kind o = TLParen -> spells sv (S d) e ts -> reads (S d) e ts -> tok_kind c = TRParen -> reads d (ParenExpr e) (o :: ts ++ [c]).
Proof.
intros Ho Hsp Hr Hc. apply reads_prefix; [simpl; lia|]. intros p p' HA M Hse fuel Hn. rewrite app_comm_cons in M. apply moves_app_inv in M as (q & M & Mc).
token Mc as q' M'. apply moves_nil_inv in M' as ->. rewrite (paren_at _ _ _ _ _ _ _ Ho Hsp Hr HA M); [|left; by rewrite Hpeek, Hc|done]. unfold paren_tail.
rewrite (bind_ok _ _ _ _ _ (eat_no TQuestion q ltac:(congruence))), (bind_ok _ _ _ _ _ (eat_no TComma q ltac:(congruence))).
rewrite Hc in Hexp. by rewrite (bind_ok _ _ _ _ _ Hexp).
Qed.

Lemma reads_complex d o re tr comma im ti c :
tok_kind o = TLParen -> spells sv (S d) re tr -> reads (S d) re tr -> tok_kind comma = TComma -> spells sv (S d) im ti -> reads (S d) im ti -> tok_kind c = TRParen ->
reads d (ComplexLiteral re im) (o :: tr ++ comma :: ti ++ [c]).
Proof.
intros Ho Hsr Hr Hcomma Hsi Hi Hc. apply reads_prefix; [simpl; lia|]. intros p p' HA M Hse fuel Hn. rewrite app_comm_cons in M. apply moves_app_inv in M as (q & M & Mc).
pose proof (moves_length _ _ _ M) as Hl. token Mc as q1 Mi. apply moves_app_inv in Mi as (q2 & Mi & Mc'). token Mc' as q3 M'. apply moves_nil_inv in M' as ->.
rewrite (paren_at _ _ _ _ _ _ _ Ho Hsr Hr HA M); [|left; by rewrite Hpeek, Hcomma|done]. unfold paren_tail.
rewrite (bind_ok _ _ _ _ _ (eat_no TQuestion q ltac:(congruence))). rewrite Hcomma in Heat. rewrite (bind_ok _ _ _ _ _ Heat).
assert (HA1 : At (S d) q1) by (eapply At_moves; [eapply At_moves; [exact HA|exact M]|exact M1]). rewrite Hrest in Hl. simpl in Hl.
rewrite (bind_ok _ _ _ _ _ (reads_follow _ _ _ q1 q2 Hi Hsi HA1 Mi ltac:(left; by rewrite Hpeek0, Hc) fuel ltac:(lia))).
rewrite Hc in Hexp0. by rewrite (bind_ok _ _ _ _ _ Hexp0).
Qed.

(** The tail and the arms of a conditional expression. *)
Definition tails (d : nat) (cond e : Expr) (ts : list Token) : Prop := forall p p',
At d p -> moves p ts p' -> peek p' = TRParen -> forall fuel, (need (ParseConditionalAfterQuestion cond) p <= fuel)%nat ->
run fuel _ (ParseConditionalAfterQuestion cond) p = ROk e p'.

Definition arms (d : nat) (e : Expr) (ts : list Token) : Prop := (1 <= length ts)%nat /\ forall p p',
At d p -> moves p ts p' -> follow p' -> forall fuel, (10 * length (rest p) + 3 <= fuel)%nat -> parse_conditional_arm (run fuel) p = ROk e p'.

Lemma reads_conditional d o cond tc q e tt c :
tok_kind o = TLParen -> spells sv (S d) cond tc -> reads (S d) cond tc -> tok_kind q = TQuestion -> tails (S d) cond e tt -> tok_kind c = TRParen ->
reads d e (o :: tc ++ q :: tt ++ [c]).
Proof.
intros Ho Hsc Hr Hq Ht Hc. apply reads_prefix; [simpl; lia|]. intros p p' HA M Hse fuel Hn. rewrite app_comm_cons in M. apply moves_app_inv in M as (q0 & M & Mc).
pose proof (moves_length _ _ _ M) as Hl. token Mc as q1 Mt. apply moves_app_inv in Mt as (q2 & Mt & Mc'). token Mc' as q3 M'. apply moves_nil_inv in M' as ->.
rewrite (paren_at _ _ _ _ _ _ _ Ho Hsc Hr HA M); [|left; by rewrite Hpeek, Hq|done]. unfold paren_tail. rewrite Hq in Heat. rewrite (bind_ok _ _ _ _ _ Heat).
assert (HA1 : At (S d) q1) by (eapply At_moves; [eapply At_moves; [exact HA|exact M]|exact M1]). rewrite Hrest in Hl. simpl in Hl. unfold parse_conditional_after_question.
rewrite (bind_ok _ _ _ _ _ (Ht q1 q2 HA1 Mt ltac:(congruence) fuel ltac:(unfold need; cbn [weight]; lia))).
rewrite Hc in Hexp0. by rewrite (bind_ok _ _ _ _ _ Hexp0).
Qed.

Lemma arms_nil d t : nil_token t = true -> arms d NilArgument [t].
Proof.
intros Ht%bool_decide_eq_true_1. split; [simpl; lia|]. intros p p' HA M Hf fuel Hn. token M as q M'. apply moves_nil_inv in M' as ->.
unfold parse_conditional_arm, kind_now. rewrite (bind_ok _ _ _ (peek p) p) by done. rewrite Hpeek, Ht, bool_decide_eq_true_2 by done. by rewrite (bind_ok _ _ _ _ _ Hadv).
Qed.

Lemma arms_expr d e t ts : spells sv d e (t :: ts) -> reads d e (t :: ts) -> nil_token t = false -> arms d e (t :: ts).
Proof.
intros Hsp Hr Ht%bool_decide_eq_false_1. split; [simpl; lia|]. intros p p' HA M Hf fuel Hn. pose proof (reads_follow _ _ _ _ _ Hr Hsp HA M Hf fuel Hn) as E. token M as q M'.
unfold parse_conditional_arm, kind_now. rewrite (bind_ok _ _ _ (peek p) p) by done. rewrite Hpeek. destruct (tok_kind t) eqn:Ek; try done.
by rewrite bool_decide_eq_false_2 by congruence.
Qed.

(** The two arms, up to what follows them. *)
Lemma arms_at d a ta colon b tb cond p q fuel :
arms d a ta -> tok_kind colon = TColon -> arms d b tb -> At d p -> moves p (ta ++ colon :: tb) q -> follow q -> (10 * length (rest p) + 3 <= fuel)%nat ->
conditional_after_question (run fuel) cond p =
(more ← eat TQuestion; if more : bool then e ← parse_conditional_after_question (run fuel) b; mret (ConditionalExpr cond a e) else mret (ConditionalExpr cond a b)) q.
Proof.
intros [_ Ha] Hc [_ Hb] HA M Hf Hn. apply moves_app_inv in M as (q1 & Ma & M). pose proof (moves_length _ _ _ Ma) as Hl. token M as q2 Mb. unfold conditional_after_question.
rewrite (bind_ok _ _ _ _ _ (Ha p q1 HA Ma ltac:(left; by rewrite Hpeek, Hc) fuel Hn)). rewrite Hc in Hexp. rewrite (bind_ok _ _ _ _ _ Hexp).
assert (HA2 : At d q2) by (eapply At_moves; [eapply At_moves; [exact HA|exact Ma]|exact M1]). rewrite Hrest in Hl. simpl in Hl.
by rewrite (bind_ok _ _ _ _ _ (Hb q2 q HA2 Mb Hf fuel ltac:(lia))).
Qed.

Lemma tails_end d cond a ta colon b tb : arms d a ta -> tok_kind colon = TColon -> arms d b tb -> tails d cond (ConditionalExpr cond a b) (ta ++ colon :: tb).
Proof.
intros Ha Hc Hb p p' HA M Hk fuel Hn. unfold need in Hn. cbn [weight] in Hn. destruct fuel as [|fuel]; [lia|]. rewrite run_S. unfold body.
rewrite (arms_at _ _ _ _ _ _ _ _ _ _ Ha Hc Hb HA M); [|left; by rewrite Hk|lia]. by rewrite (bind_ok _ _ _ _ _ (eat_no TQuestion p' ltac:(congruence))).
Qed.

Lemma tails_chain d cond a ta colon b tb q e te :
arms d a ta -> tok_kind colon = TColon -> arms d b tb -> tok_kind q = TQuestion -> tails d b e te ->
tails d cond (ConditionalExpr cond a e) (ta ++ colon :: tb ++ q :: te).
Proof.
intros Ha Hc Hb Hq He p p' HA M Hk fuel Hn. unfold need in Hn. cbn [weight] in Hn. destruct fuel as [|fuel]; [lia|]. rewrite run_S. unfold body.
rewrite app_comm_cons, app_assoc in M. apply moves_app_inv in M as (q1 & Mab & M). pose proof (moves_length _ _ _ Mab) as Hl. token M as q2 Me.
rewrite (arms_at _ _ _ _ _ _ _ _ _ _ Ha Hc Hb HA Mab); [|left; by rewrite Hpeek, Hq|lia]. rewrite Hq in Heat. rewrite (bind_ok _ _ _ _ _ Heat).
assert (HA2 : At d q2) by (eapply At_moves; [eapply At_moves; [exact HA|exact Mab]|exact M1]). rewrite Hrest, length_app in Hl. simpl in Hl. unfold parse_conditional_after_question.
by rewrite (bind_ok _ _ _ _ _ (He q2 p' HA2 Me Hk fuel ltac:(unfold need; cbn [weight]; lia))).
Qed.

(** ** Values of array constructors *)

Definition yields (d : nat) (v : AcValue) (ts : list Token) : Prop := forall p p',
At d p -> moves p ts p' -> follow p' -> forall fuel, (need ParseAcValue p <= fuel)%nat -> run fuel _ ParseAcValue p = ROk v p'.

Lemma value_starts d v ts : spells_value sv d v ts -> exists t ts', ts = t :: ts' /\ starts (tok_kind t).
Proof.
intros [e ts' H|]; [by eapply spells_starts|]. eexists _, _. split; [done|]. match goal with H : tok_kind o = _ |- _ => rewrite H end. by split_and!.
Qed.

Lemma values_starts d vs ts : spells_values sv d vs ts -> exists t ts', ts = t :: ts' /\ starts (tok_kind t).
Proof. intros [v ts' H%value_starts|v ts' comma vs' tvs H%value_starts _ _]; [done|]. destruct H as (t & l & -> & ?). by eexists _, _. Qed.

(** An expression in parentheses is not an implied do. *)
Lemma not_implied_do d e ts p p' fuel :
spells sv d e ts -> At d p -> moves p ts p' -> (need TryParseImpliedDo p <= fuel)%nat -> exists err q, run fuel _ TryParseImpliedDo p = RErr err q /\ env q = env p.
Proof.
intros Hsp (_ & L & _) [E _] Hn. pose proof (run_ok fuel _ TryParseImpliedDo p L Hn) as H. destruct (run fuel _ TryParseImpliedDo p) as [v q|err q| |]; [|eauto|done|done].
exfalso. destruct H as (c & [E' _] & _ & t & c' & -> & Ht & Ha). destruct (spells_starts _ _ _ _ Hsp) as (t' & ts' & -> & _). rewrite E in E'. simplify_eq/=.
pose proof (spells_group _ _ _ _ _ _ Hsp eq_refl Ht (rest p')) as Hg. rewrite H0, Ha in Hg. done.
Qed.

Lemma yields_expr d e ts : spells sv d e ts -> reads d e ts -> yields d (AcExpr e) ts.
Proof.
intros Hsp Hr p p' HA M Hf fuel Hn. unfold need in Hn. cbn [weight] in Hn. destruct fuel as [|fuel]; [lia|]. rewrite run_S. unfold body, ac_value.
assert (E : ac_expr (run fuel) p = ROk (AcExpr e) p') by (unfold ac_expr; by rewrite (bind_ok _ _ _ _ _ (reads_follow _ _ _ _ _ Hr Hsp HA M Hf fuel ltac:(lia)))).
case_bool_decide; [|done]. unfold try_parse_implied_do. destruct (not_implied_do _ _ _ _ _ fuel Hsp HA M) as (err & q & -> & Hq); [unfold need; cbn [weight]; lia|].
by rewrite env_back.
Qed.

Definition brackets (d : nat) (vs : list AcValue) (ts : list Token) : Prop := forall acc p p',
At d p -> moves p ts p' -> peek p' = TRBracket -> forall fuel, (need (BracketLoop acc) p <= fuel)%nat -> run fuel _ (BracketLoop acc) p = ROk (acc ++ vs) p'.

Definition slashes (d : nat) (vs : list AcValue) (ts : list Token) : Prop := forall acc p p',
At d p -> moves p ts p' -> peek p' = TSlash -> slash_closes_array_constructor p' = true ->
forall fuel, (need (SlashLoop acc) p <= fuel)%nat -> run fuel _ (SlashLoop acc) p = ROk (acc ++ vs) p'.

(** The values of an implied do, up to the comma before its variable. *)
Definition do_values (d : nat) (vs : list AcValue) (ts : list Token) : Prop := forall acc p p' R,
At d p -> moves p ts p' -> peek p' = TComma ->
(forall fuel, (need (ImpliedDoLoop (acc ++ vs)) p' <= fuel)%nat -> run fuel _ (ImpliedDoLoop (acc ++ vs)) p' = R) ->
forall fuel, (need ParseAcValue p <= fuel)%nat -> (v ← run fuel _ ParseAcValue; run fuel _ (ImpliedDoLoop (acc ++ [v]))) p = R.

Lemma values_one d v ts : spells_value sv d v ts -> yields d v ts -> brackets d [v] ts /\ slashes d [v] ts /\ do_values d [v] ts.
Proof.
intros Hsp Hv. destruct (value_starts _ _ _ Hsp) as (t & ts' & -> & Ht). split_and!.
- intros acc p p' HA M Hk fuel Hn. unfold need in Hn. cbn [weight] in Hn. destruct fuel as [|fuel]; [lia|]. rewrite run_S. unfold body, bracket_loop, parse_ac_value.
rewrite (bind_ok _ _ _ _ _ (Hv p p' HA M ltac:(left; by rewrite Hk) fuel ltac:(unfold need; cbn [weight]; lia))).
by rewrite (bind_ok _ _ _ _ _ (eat_no TComma p' ltac:(congruence))).
- intros acc p p' HA M Hk Hs fuel Hn. unfold need in Hn. cbn [weight] in Hn. destruct fuel as [|fuel]; [lia|]. rewrite run_S. unfold body, slash_loop, parse_ac_value, kind_now.
rewrite (bind_ok _ _ _ (peek p) p) by done. destruct (token_step _ _ _ _ M) as (q & _ & _ & Hpeek & _). rewrite Hpeek, bool_decide_eq_false_2 by apply Ht.
rewrite (bind_ok _ _ _ _ _ (Hv p p' HA M ltac:(by right) fuel ltac:(unfold need; cbn [weight]; lia))).
by rewrite (bind_ok _ _ _ _ _ (eat_no TComma p' ltac:(congruence))).
- intros acc p p' R HA M Hk HR fuel Hn. rewrite (bind_ok _ _ _ _ _ (Hv p p' HA M ltac:(left; by rewrite Hk) fuel Hn)). apply HR. unfold need in *. cbn [weight] in *.
pose proof (moves_length _ _ _ M). lia.
Qed.

Lemma value_not_keyword d v ts p p' :
spells_value sv d v ts -> moves p ts p' -> peek p' <> TAssign -> bool_decide (peek p = TIdentifier) && bool_decide (peek_kind_at 1 p = Some TAssign) = false.
Proof. intros H M Hf. destruct H as [e ts H|]; [by eapply not_keyword|]. token M as q M'. by rewrite Hpeek, bool_decide_eq_false_2 by congruence. Qed.

Lemma values_cons d v ts comma vs tvs :
spells_value sv d v ts -> yields d v ts -> tok_kind comma = TComma -> spells_values sv d vs tvs -> brackets d vs tvs /\ slashes d vs tvs /\ do_values d vs tvs ->
brackets d (v :: vs) (ts ++ comma :: tvs) /\ slashes d (v :: vs) (ts ++ comma :: tvs) /\ do_values d (v :: vs) (ts ++ comma :: tvs).
Proof.
intros Hsp Hv Hc Hsps (Hb & Hs & Hd). destruct (value_starts _ _ _ Hsp) as (t & ts' & -> & Ht).
assert (Hsplit : forall p p', At d p -> moves p ((t :: ts') ++ comma :: tvs) p' -> exists q q', moves p (t :: ts') q /\ moves q' tvs p' /\ follow q /\
eat TComma q = ROk true q' /\ At d q' /\ (length (rest q') + 2 <= length (rest p))%nat /\ peek q = TComma /\ peek p = tok_kind t).
{ intros p p' HA M. apply moves_app_inv in M as (q & Mv & M). pose proof (moves_length _ _ _ Mv) as Hl. token M as q' M'. rewrite Hc in *. rewrite Hrest in Hl. simpl in Hl.
destruct (token_step _ _ _ _ Mv) as (? & _ & _ & ? & _). exists q, q'.
split_and!; [done|done|left; by rewrite Hpeek|done|by eapply At_moves; [by eapply At_moves|]|lia|done|done]. }
split_and!.
- intros acc p p' HA M Hk fuel Hn. destruct (Hsplit p p' HA M) as (q & q' & Mv & Mvs & Hf & Heat & HA' & Hl & _). unfold need in Hn. cbn [weight] in Hn.
destruct fuel as [|fuel]; [lia|]. rewrite run_S. unfold body, bracket_loop, parse_ac_value.
rewrite (bind_ok _ _ _ _ _ (Hv p q HA Mv Hf fuel ltac:(unfold need; cbn [weight]; lia))), (bind_ok _ _ _ _ _ Heat).
rewrite (Hb (acc ++ [v]) q' p' HA' Mvs Hk fuel) by (unfold need; cbn [weight]; lia). by rewrite <- app_assoc.
- intros acc p p' HA M Hk Hsl fuel Hn. destruct (Hsplit p p' HA M) as (q & q' & Mv & Mvs & Hf & Heat & HA' & Hl & _ & Hpeek). unfold need in Hn. cbn [weight] in Hn.
destruct fuel as [|fuel]; [lia|]. rewrite run_S. unfold body, slash_loop, parse_ac_value, kind_now. rewrite (bind_ok _ _ _ (peek p) p) by done.
rewrite Hpeek, bool_decide_eq_false_2 by apply Ht.
rewrite (bind_ok _ _ _ _ _ (Hv p q HA Mv Hf fuel ltac:(unfold need; cbn [weight]; lia))), (bind_ok _ _ _ _ _ Heat).
rewrite (Hs (acc ++ [v]) q' p' HA' Mvs Hk Hsl fuel) by (unfold need; cbn [weight]; lia). by rewrite <- app_assoc.
- intros acc p p' R HA M Hk HR fuel Hn. destruct (Hsplit p p' HA M) as (q & q' & Mv & Mvs & Hf & Heat & HA' & Hl & Hkq & _).
rewrite (bind_ok _ _ _ _ _ (Hv p q HA Mv Hf fuel Hn)). unfold need in Hn. cbn [weight] in Hn. destruct fuel as [|fuel]; [lia|].
rewrite run_S. unfold body, implied_do_loop, kind_now, kind_after, parse_ac_value. rewrite (bind_ok _ _ _ _ _ Heat), (bind_ok _ _ _ (peek q') q'), (bind_ok _ _ _ (peek_kind_at 1 q') q') by done.
assert (Hnk : bool_decide (peek q' = TIdentifier) && bool_decide (peek_kind_at 1 q' = Some TAssign) = false).
{ clear -Hsps Mvs Hk Hc. destruct Hsps as [v' ts H|v' ts comma' vs' tvs' H Hc' _]; [eapply value_not_keyword; [done|done|congruence]|].
apply moves_app_inv in Mvs as (q1 & Mv & M). token M as q2 M'. eapply value_not_keyword; [done|done|congruence]. }
rewrite Hnk. apply (Hd (acc ++ [v]) q' p' R HA' Mvs Hk); [|unfold need; cbn [weight]; lia]. by rewrite <- app_assoc.
Qed.

(** ** Implied do *)

Definition reads_step (d : nat) (o : option Expr) (ts : list Token) : Prop :=
(ts = [] /\ o = None) \/ exists comma e ts', ts = comma :: ts' /\ tok_kind comma = TComma /\ o = Some e /\ spells sv d e ts' /\ reads d e ts'.

Lemma step_at d o ts p p' fuel :
reads_step d o ts -> At d p -> moves p ts p' -> peek p' = TRParen -> (10 * length (rest p) + 3 <= fuel)%nat ->
(more ← eat TComma; if more : bool then e ← parse_expr (run fuel); mret (Some e) else mret None) p = ROk o p' /\ follow p.
Proof.
intros [[-> ->]|(comma & e & ts' & -> & Hc & -> & Hsp & Hr)] HA M Hk Hn.
- apply moves_nil_inv in M as ->. rewrite (bind_ok _ _ _ _ _ (eat_no TComma p ltac:(congruence))). split; [done|]. left. by rewrite Hk.
- token M as q M'. rewrite Hc in *. split; [|left; by rewrite Hpeek]. rewrite (bind_ok _ _ _ _ _ Heat). rewrite Hrest in Hn. simpl in Hn.
by rewrite (bind_ok _ _ _ _ _ (reads_follow _ _ _ q p' Hr Hsp ltac:(by eapply At_moves) M' ltac:(left; by rewrite Hk) fuel ltac:(lia))).
Qed.

(** The control part of an implied do. *)
Lemma control_at d vs var assign s ts comma f tf step tstep c p p' fuel :
tok_kind assign = TAssign -> spells sv d s ts -> reads d s ts -> tok_kind comma = TComma -> spells sv d f tf -> reads d f tf -> reads_step d step tstep ->
tok_kind c = TRParen -> At d p -> moves p (var :: assign :: ts ++ comma :: tf ++ tstep ++ [c]) p' -> (10 * length (rest p) <= fuel)%nat ->
implied_do_control (run fuel) vs p = ROk (ImpliedDo vs (tok_text var) s f step) p'.
Proof.
intros Ha Hss Hs Hc Hsf Hf Hst Hcl HA M Hn. token M as p1 M'. token M' as p2 M''. apply moves_app_inv in M'' as (p3 & Ms & M3). token M3 as p4 M4.
apply moves_app_inv in M4 as (p5 & Mf & M5). apply moves_app_inv in M5 as (p6 & Mst & M6). token M6 as p7 M7. apply moves_nil_inv in M7 as ->.
pose proof (moves_length _ _ _ Ms) as Hl1. pose proof (moves_length _ _ _ Mf) as Hl2. rewrite Hrest, Hrest0 in Hn. rewrite Hrest1 in Hl1. simpl in Hn, Hl1.
assert (HA2 : At d p2) by (eapply At_moves; [eapply At_moves; [exact HA|exact M1]|exact M0]).
assert (HA4 : At d p4) by (eapply At_moves; [eapply At_moves; [exact HA2|exact Ms]|exact M2]).
assert (HA5 : At d p5) by (eapply At_moves; [exact HA4|exact Mf]).
destruct (step_at d step tstep p5 p6 fuel Hst HA5 Mst ltac:(congruence) ltac:(lia)) as [Hstep Hfollow].
unfold implied_do_control. rewrite (bind_ok _ _ _ _ _ Hadv), (bind_ok _ _ _ _ _ Hadv0).
rewrite (bind_ok _ _ _ _ _ (reads_follow _ _ _ p2 p3 Hs Hss HA2 Ms ltac:(left; by rewrite Hpeek1, Hc) fuel ltac:(lia))).
rewrite Hc in Hexp1. rewrite (bind_ok _ _ _ _ _ Hexp1). rewrite (bind_ok _ _ _ _ _ (reads_follow _ _ _ p4 p5 Hf Hsf HA4 Mf Hfollow fuel ltac:(lia))).
rewrite Hcl in Hexp2. revert Hstep. unfold mbind, P_bind. destruct (eat TComma p5) as [b q| | |]; [|done..]. intros ->. by rewrite Hexp2.
Qed.

Lemma yields_do d o vs tvs comma var assign s ts comma' f tf step tstep c :
tok_kind o = TLParen -> do_values d vs tvs -> tok_kind comma = TComma -> tok_kind var = TIdentifier -> tok_kind assign = TAssign -> spells sv d s ts -> reads d s ts ->
tok_kind comma' = TComma -> spells sv d f tf -> reads d f tf -> reads_step d step tstep -> tok_kind c = TRParen ->
yields d (ImpliedDo vs (tok_text var) s f step) (o :: tvs ++ comma :: var :: assign :: ts ++ comma' :: tf ++ tstep ++ [c]).
Proof.
intros Ho Hvs Hc Hvar Ha Hss Hs Hc' Hsf Hf Hst Hcl p p' HA M Hfol fuel Hn. unfold need in Hn. cbn [weight] in Hn. destruct fuel as [|[|fuel]]; [lia|lia|].
token M as p1 M'. rewrite Hrest in Hn. simpl in Hn. apply moves_app_inv in M' as (p2 & Mv & M2). pose proof (moves_length _ _ _ Mv) as Hl.
assert (HA1 : At d p1) by (by eapply At_moves).
assert (Hdo : run (S fuel) _ TryParseImpliedDo p = ROk (ImpliedDo vs (tok_text var) s f step) p').
{ rewrite run_S. unfold body, implied_do, parse_ac_value. rewrite Ho in Hexp. rewrite (bind_ok _ _ _ _ _ Hexp). token M2 as p3 M3.
apply (Hvs [] p1 p2); [done|done|congruence| |unfold need; cbn [weight]; lia]. clear Hn. intros fuel' Hn. unfold need in Hn. cbn [weight] in Hn. destruct fuel' as [|fuel']; [lia|].
rewrite run_S. unfold body, implied_do_loop, kind_now, kind_after. rewrite Hc in Heat0. rewrite (bind_ok _ _ _ _ _ Heat0), (bind_ok _ _ _ (peek p3) p3), (bind_ok _ _ _ (peek_kind_at 1 p3) p3) by done.
destruct (token_step _ _ _ _ M3) as (p4 & M4 & _ & Hk & Hr & _). destruct (token_step _ _ _ _ M4) as (p5 & _ & _ & _ & Hr' & _).
rewrite Hk, Hvar, (peek_next _ _ _ Hr), Hr'. simpl. rewrite Ha, !bool_decide_eq_true_2 by done. simpl. rewrite Hrest0 in Hn. simpl in Hn.
eapply control_at; [done..| |exact M3|lia]. by eapply At_moves; [by eapply At_moves|]. }
rewrite run_S. unfold body, ac_value. rewrite bool_decide_eq_true_2 by congruence. unfold try_parse_implied_do. by rewrite Hdo.
Qed.

(** ** Array constructors *)

Definition specs (d : nat) (spec : option string) (ts : list Token) : Prop := forall p p',
At d p -> moves p ts p' -> stop false 0 (rest p') = Some TRBracket -> forall fuel, (10 * length (rest p) + 6 <= fuel)%nat ->
try_parse_ac_type_spec (run fuel) p = ROk spec p'.

(** No [::] ends the tokens at [p]. *)
Lemma no_named_type p : stop false 0 (rest p) = Some TRBracket -> named_type_spec p = ROk None p.
Proof.
intros H. unfold named_type_spec, kind_now, kind_after. rewrite (bind_ok _ _ _ (peek p) p), (bind_ok _ _ _ (peek_kind_at 1 p) p) by done.
destruct (_ && _) eqn:Hb; [|done]. apply andb_true_iff in Hb as [Hk%bool_decide_eq_true_1 Hn%bool_decide_eq_true_1]. exfalso.
rewrite peek_kind_at_rest in Hn. rewrite peek_rest in Hk. destruct (rest p) as [|t [|t' r]]; [done|done|]. simpl in Hn. injection Hn as Hn.
rewrite (stop_token _ _ t _ _ Hk) in H. cbv iota in H. by rewrite (stop_token _ _ t' _ _ Hn) in H.
Qed.

Lemma specs_none d : specs d None [].
Proof.
intros p p' (_ & L & _) M Hs fuel Hn. apply moves_nil_inv in M as ->. unfold try_parse_ac_type_spec. cbv zeta.
pose proof (ok_type_spec (run fuel) fuel (run_ok fuel) p L Hn) as H. destruct (try_parse_type_spec (run fuel) p) as [[ty|] q|err q| |]; [| | |done|done].
- destruct H as (c & Hm & Hc). cbn in Hc. rewrite bool_decide_eq_false_2.
+ rewrite env_back by (by eapply moves_env). by apply no_named_type.
+ intros Hk. destruct Hm as [E _]. rewrite E, Hc in Hs. destruct (peek_not_eof q) as (x & r & Ex & Hx); [congruence|]. rewrite Ex in Hs.
by rewrite (stop_token _ _ x _ TColonColon ltac:(congruence)) in Hs.
- destruct H as (c & Hm & Hc). cbn in Hc. subst c. apply moves_nil_inv in Hm as ->. by apply no_named_type.
- rewrite env_back by done. by apply no_named_type.
Qed.

(** A word the parser does not know is no type keyword. *)
Lemma no_type_keyword rec p : to_ascii_lowercase (peek_text p) ∉ words -> try_parse_type_spec rec p = ROk None p.
Proof.
intros H. unfold try_parse_type_spec, text_now. rewrite (bind_ok _ _ _ (peek_text p) p) by done. cbv zeta. revert H. generalize (to_ascii_lowercase (peek_text p)). intros text H.
repeat (rewrite bool_decide_eq_false_2 by (intros ->; apply H; apply (bool_decide_unpack _); vm_compute; exact I)). done.
Qed.

(** The four keywords with a kind selector. *)
Lemma numeric_keyword rec p : to_ascii_lowercase (peek_text p) ∈ numeric_words -> exists f, try_parse_type_spec rec p = numeric_type rec f p.
Proof.
intros H. unfold try_parse_type_spec, text_now. rewrite (bind_ok _ _ _ (peek_text p) p) by done. cbv zeta. revert H. generalize (to_ascii_lowercase (peek_text p)). intros text H.
repeat (apply elem_of_cons in H as [->|H]; [eexists; reflexivity|]). by apply elem_of_nil in H.
Qed.

Lemma peek_text_rest p t r : rest p = t :: r -> peek_text p = tok_text t.
Proof. intros E. unfold peek_text. by rewrite rest_head, E. Qed.

Lemma render_one t : render_token_slice [t] = tok_text t.
Proof. unfold render_token_slice. simpl. induction (tok_text t) as [|c s IH]; [done|]. change ((String c s +:+ EmptyString)) with (String c (s +:+ EmptyString)). by rewrite IH. Qed.

(** A type specifier followed by [::]. *)
Lemma type_spec_found rec ty p c q cc p' :
try_parse_type_spec rec p = ROk (Some ty) q -> moves p c q -> tok_kind cc = TColonColon -> moves q [cc] p' ->
try_parse_ac_type_spec rec p = ROk (Some (render_token_slice c)) p'.
Proof.
intros E M Hcc Mc. token Mc as q' M'. apply moves_nil_inv in M' as ->. unfold try_parse_ac_type_spec. cbv zeta. rewrite E, bool_decide_eq_true_2 by congruence.
rewrite (bind_ok _ _ _ _ _ Hadv). cbn. f_equal. f_equal. f_equal. destruct M as [Er Hq]. rewrite Hq. cbn [tokens pos with_pos].
replace (pos p + length c - pos p)%nat with (length c) by lia. change (drop (pos p) (tokens p)) with (rest p). by rewrite Er, take_app_length.
Qed.

Lemma specs_name d t cc :
tok_kind t = TIdentifier -> to_ascii_lowercase (tok_text t) ∉ words -> tok_kind cc = TColonColon -> specs d (Some (tok_text t)) [t; cc].
Proof.
intros Ht Hw Hcc p p' HA M Hs fuel Hn. token M as q M'. token M' as q' M''. apply moves_nil_inv in M'' as ->. unfold try_parse_ac_type_spec. cbv zeta.
rewrite no_type_keyword by (by rewrite (peek_text_rest _ _ _ Hrest)). unfold named_type_spec, kind_now, kind_after.
rewrite (bind_ok _ _ _ (peek p) p), (bind_ok _ _ _ (peek_kind_at 1 p) p) by done. rewrite Hpeek, Ht, (peek_next _ _ _ Hrest), Hrest0. simpl. rewrite Hcc, !bool_decide_eq_true_2 by done.
simpl. by rewrite (bind_ok _ _ _ _ _ Hadv), (bind_ok _ _ _ _ _ Hadv0).
Qed.

(** No selector before [::]. *)
Lemma no_kind_selector rec q : peek q = TColonColon -> parse_kind_selector rec q = ROk None q /\ parse_char_selector rec q = ROk None q.
Proof.
intros Hk. unfold parse_kind_selector, parse_char_selector, kind_now. rewrite !(bind_ok _ _ _ _ _ (eat_no TStar q ltac:(congruence))), !(bind_ok _ _ _ (peek q) q) by done.
by rewrite !Hk.
Qed.

Lemma specs_word d t cc :
tok_kind t = TIdentifier -> to_ascii_lowercase (tok_text t) ∈ type_words -> tok_kind cc = TColonColon -> specs d (Some (tok_text t)) [t; cc].
Proof.
intros Ht Hw Hcc p p' HA M Hs fuel Hn. token M as q M'. rewrite <- (render_one t). assert (Hk : peek q = TColonColon) by (destruct (token_step _ _ _ _ M') as (? & _ & _ & -> & _); done).
destruct (no_kind_selector (run fuel) q Hk) as [Hks Hcs]. assert (Hty : exists ty, try_parse_type_spec (run fuel) p = ROk (Some ty) q); [|destruct Hty as [ty Hty]; by eapply type_spec_found].
rewrite <- (peek_text_rest _ _ _ Hrest) in Hw. apply elem_of_app in Hw as [Hw|Hw].
- destruct (numeric_keyword (run fuel) p Hw) as [f ->]. exists (f None). unfold numeric_type. by rewrite (bind_ok _ _ _ _ _ Hadv), (bind_ok _ _ _ _ _ Hks).
- unfold try_parse_type_spec, text_now. rewrite (bind_ok _ _ _ (peek_text p) p) by done. cbv zeta. revert Hw. generalize (to_ascii_lowercase (peek_text p)). intros text Hw.
apply elem_of_cons in Hw as [->|Hw]; [exists TyDoublePrecision; transitivity ((_ ← advance; mret (Some TyDoublePrecision)) p); [done|by rewrite (bind_ok _ _ _ _ _ Hadv)]|].
apply elem_of_cons in Hw as [->|Hw]; [exists TyDoubleComplex; transitivity ((_ ← advance; mret (Some TyDoubleComplex)) p); [done|by rewrite (bind_ok _ _ _ _ _ Hadv)]|].
apply list_elem_of_singleton in Hw as ->. exists (TyCharacter None). transitivity ((_ ← advance; c ← parse_char_selector (run fuel); mret (Some (TyCharacter c))) p); [done|].
by rewrite (bind_ok _ _ _ _ _ Hadv), (bind_ok _ _ _ _ _ Hcs).
Qed.

Lemma moves_cons p t q l q' : moves p [t] q -> moves q l q' -> moves p (t :: l) q'.
Proof. apply (moves_trans p [t] q l q'). Qed.

(** The expression of a kind selector. *)
Lemma kind_expr_at d e te c p p' fuel :
spells sv d e te -> reads d e te -> tok_kind c = TRParen -> At d p -> moves p (te ++ [c]) p' -> (10 * length (rest p) + 3 <= fuel)%nat ->
(e ← parse_expr (run fuel); _ ← expect TRParen; mret (Some (KindExpr e))) p = ROk (Some (KindExpr e)) p'.
Proof.
intros Hsp Hr Hc HA M Hn. apply moves_app_inv in M as (q & Me & M). token M as q' M'. apply moves_nil_inv in M' as ->.
rewrite (bind_ok _ _ _ _ _ (reads_follow _ _ _ _ _ Hr Hsp HA Me ltac:(left; by rewrite Hpeek, Hc) fuel Hn)). rewrite Hc in Hexp. by rewrite (bind_ok _ _ _ _ _ Hexp).
Qed.

(** The selector after its parenthesis. *)
Lemma kind_selector_at rec p q o r : rest p = o :: r -> tok_kind o = TLParen -> advance p = ROk o q ->
parse_kind_selector rec p =
(_ ← (if eq_ignore_ascii_case (peek_text q) "kind" && bool_decide (peek_kind_at 1 q = Some TAssign) then skip_keyword else mret tt);
e ← parse_expr rec; _ ← expect TRParen; mret (Some (KindExpr e))) q.
Proof.
intros E Ho Ha. pose proof (peek_cons _ _ _ E) as Hk. unfold parse_kind_selector, kind_now. rewrite (bind_ok _ _ _ _ _ (eat_no TStar p ltac:(congruence))), (bind_ok _ _ _ (peek p) p) by done.
rewrite bool_decide_eq_false_2 by (intros H; apply H; congruence). by rewrite (bind_ok _ _ _ _ _ Ha).
Qed.

Lemma specs_kind d t o e te c cc :
tok_kind t = TIdentifier -> to_ascii_lowercase (tok_text t) ∈ numeric_words -> tok_kind o = TLParen -> spells sv d e te -> reads d e te -> tok_kind c = TRParen ->
tok_kind cc = TColonColon -> specs d (Some (render_token_slice (t :: o :: te ++ [c]))) (t :: o :: te ++ [c; cc]).
Proof.
intros Ht Hw Ho Hsp Hr Hc Hcc p p' HA M Hs fuel Hn. token M as p1 M'. token M' as p2 M''. change [c; cc] with ([c] ++ [cc]) in M''. rewrite app_assoc in M''.
apply moves_app_inv in M'' as (p4 & Me & Mcc). rewrite Hrest, Hrest0 in Hn. simpl in Hn.
assert (HA2 : At d p2) by (eapply At_moves; [eapply At_moves; [exact HA|exact M1]|exact M0]).
destruct (numeric_keyword (run fuel) p) as [f Hf]; [by rewrite (peek_text_rest _ _ _ Hrest)|].
eapply (type_spec_found _ (f (Some (KindExpr e))) _ _ p4); [|by eapply moves_cons; [|eapply moves_cons]|done|done]. rewrite Hf. unfold numeric_type. rewrite (bind_ok _ _ _ _ _ Hadv).
rewrite (bind_ok _ _ _ (Some (KindExpr e)) p4); [done|]. rewrite (kind_selector_at _ _ _ _ _ Hrest0 Ho Hadv0).
assert (Hnk : eq_ignore_ascii_case (peek_text p2) "kind" && bool_decide (peek_kind_at 1 p2 = Some TAssign) = false).
{ apply andb_false_iff. destruct (eq_ignore_ascii_case (peek_text p2) "kind") eqn:Ek; [right|by left]. apply moves_app_inv in Me as (p3 & Me & Mc). token Mc as p5 Mc'.
pose proof (not_keyword _ _ _ _ _ Hsp Me ltac:(congruence)) as Hn'. rewrite (bool_decide_eq_true_2 (peek p2 = TIdentifier)) in Hn'; [done|].
assert (Hw2 : wordlike (peek p2)) by (eapply lexed_is; [apply HA2| |done]; set_solver).
destruct (spells_starts _ _ _ _ Hsp) as (x & xs & -> & Hx). destruct Me as [Ex _]. simpl in Ex. rewrite (peek_cons _ _ _ Ex) in Hw2 |- *.
destruct Hw2 as [?|[E|E]]; [done|exfalso; by apply Hx in E..]. }
rewrite Hnk. rewrite (bind_ok _ _ _ tt p2) by done. eapply kind_expr_at; [done..|lia].
Qed.

Lemma specs_kind_eq d t o k a e te c cc :
tok_kind t = TIdentifier -> to_ascii_lowercase (tok_text t) ∈ numeric_words -> tok_kind o = TLParen -> eq_ignore_ascii_case (tok_text k) "kind" = true ->
tok_kind a = TAssign -> spells sv d e te -> reads d e te -> tok_kind c = TRParen -> tok_kind cc = TColonColon ->
specs d (Some (render_token_slice (t :: o :: k :: a :: te ++ [c]))) (t :: o :: k :: a :: te ++ [c; cc]).
Proof.
intros Ht Hw Ho Hk Ha Hsp Hr Hc Hcc p p' HA M Hs fuel Hn. token M as p1 M'. token M' as p2 M''. token M'' as p3 M3. token M3 as p4 M4.
change [c; cc] with ([c] ++ [cc]) in M4. rewrite app_assoc in M4. apply moves_app_inv in M4 as (p5 & Me & Mcc). rewrite Hrest, Hrest0, Hrest1, Hrest2 in Hn. simpl in Hn.
assert (HA4 : At d p4) by (do 4 (eapply At_moves; [|eassumption]); exact HA).
destruct (numeric_keyword (run fuel) p) as [f Hf]; [by rewrite (peek_text_rest _ _ _ Hrest)|].
eapply (type_spec_found _ (f (Some (KindExpr e))) _ _ p5); [|by do 4 (eapply moves_cons; [eassumption|])|done|done]. rewrite Hf. unfold numeric_type. rewrite (bind_ok _ _ _ _ _ Hadv).
rewrite (bind_ok _ _ _ (Some (KindExpr e)) p5); [done|]. rewrite (kind_selector_at _ _ _ _ _ Hrest0 Ho Hadv0). rewrite (peek_text_rest _ _ _ Hrest1), Hk.
rewrite (peek_next _ _ _ Hrest1), Hrest2. simpl. rewrite Ha, bool_decide_eq_true_2 by done. unfold skip_keyword.
rewrite (bind_ok _ _ _ tt p4) by (by rewrite (bind_ok _ _ _ _ _ Hadv1), (bind_ok _ _ _ _ _ Hadv2)). eapply kind_expr_at; [done..|lia].
Qed.

(** The values, with or without any. *)
Definition values0 (d : nat) (vs : list AcValue) (ts : list Token) : Prop :=
(vs = [] /\ ts = []) \/ (spells_values sv d vs ts /\ brackets d vs ts /\ slashes d vs ts).

Lemma reads_bracket d o spec tspec vs tvs c :
tok_kind o = TLBracket -> specs (S d) spec tspec -> spells_values0 sv (S d) vs tvs -> values0 (S d) vs tvs -> tok_kind c = TRBracket ->
reads d (ArrayConstructor spec vs) (o :: tspec ++ tvs ++ [c]).
Proof.
intros Ho Hspec Hsp Hvs Hc. apply reads_prefix; [simpl; lia|]. intros p p' HA M Hse fuel Hn. token M as p1 M'. rewrite (prefix_at _ _ _ _ Hrest) by apply HA. rewrite Ho.
rewrite Hrest in Hn. simpl in Hn. apply moves_app_inv in M' as (p2 & Ms & M'). pose proof (moves_length _ _ _ Ms) as Hl. assert (HA1 : At (S d) p1) by (by eapply At_moves).
assert (HA2 : At (S d) p2) by (by eapply At_moves).
rewrite (bind_ok _ _ _ _ _ Hadv). unfold parse_array_constructor_bracket, kind_now.
assert (Hstop : stop false 0 (rest p2) = Some TRBracket).
{ destruct (M') as [E _]. rewrite E. apply spells_scan in Hsp as [Hsoft _]. rewrite <- app_assoc, Hsoft. cbn [app]. by rewrite (stop_token _ _ c _ _ Hc). }
rewrite (bind_ok _ _ _ _ _ (Hspec p1 p2 HA1 Ms Hstop fuel ltac:(lia))). apply moves_app_inv in M' as (p3 & Mv & Mc). token Mc as p4 Mn. apply moves_nil_inv in Mn as ->.
rewrite (bind_ok _ _ _ (peek p2) p2) by done. rewrite Hc in Hexp0, Hpeek0.
assert (Hval : (if bool_decide (peek p2 <> TRBracket) then run fuel _ (BracketLoop []) else mret []) p2 = ROk vs p3).
{ destruct Hvs as [[-> ->]|(Hsv & Hb & _)].
- apply moves_nil_inv in Mv as ->. by rewrite bool_decide_eq_false_2 by auto.
- destruct (values_starts _ _ _ Hsv) as (x & xs & -> & Hx). assert (Hk : peek p2 = tok_kind x) by (by destruct (token_step _ _ _ _ Mv) as (? & _ & _ & -> & _)).
rewrite bool_decide_eq_true_2 by (rewrite Hk; apply Hx). apply (Hb []); [done|done|done|unfold need; cbn [weight]; lia]. }
rewrite (bind_ok _ _ _ _ _ Hval). by rewrite (bind_ok _ _ _ _ _ Hexp0).
Qed.

Lemma reads_slash d o s vs tvs s' c :
tok_kind o = TLParen -> tok_kind s = TSlash -> values0 (S d) vs tvs -> tok_kind s' = TSlash -> tok_kind c = TRParen ->
reads d (ArrayConstructor None vs) (o :: s :: tvs ++ [s'; c]).
Proof.
intros Ho Hs Hvs Hs' Hc. apply reads_prefix; [simpl; lia|]. intros p p' HA M Hse fuel Hn. token M as p1 M'. token M' as p2 M''. rewrite (prefix_at _ _ _ _ Hrest) by apply HA. rewrite Ho.
rewrite Hrest, Hrest0 in Hn. simpl in Hn. unfold parenthesized. rewrite (bind_ok _ _ _ _ _ Hadv). rewrite Hs in Heat0. rewrite (bind_ok _ _ _ _ _ Heat0).
assert (HA2 : At (S d) p2) by (eapply At_moves; [eapply At_moves; [exact HA|exact M1]|exact M0]).
unfold parse_array_constructor_slash. cbv zeta. set (n := slash_array_ctor_depth p2).
assert (Mq : moves (with_slash_depth (S n) p2) (tvs ++ [s'; c]) (with_slash_depth (S n) p')) by (destruct M'' as [E ->]; split; [exact E|by destruct p2]).
assert (HAq : At (S d) (with_slash_depth (S n) p2)) by exact HA2. apply moves_app_inv in Mq as (q & Mv & Ms). token Ms as q1 Mc. token Mc as q2 Mn. apply moves_nil_inv in Mn.
assert (Hclose : slash_closes_array_constructor q = true).
{ unfold slash_closes_array_constructor. apply andb_true_iff. split; [destruct Mv as [_ ->]; done|]. apply bool_decide_eq_true_2. rewrite (peek_next _ _ _ Hrest1), Hrest2. simpl. by rewrite Hc. }
rewrite Hs' in Hexp1, Hpeek1. rewrite Hc in Hexp2.
assert (Hval : run fuel _ (SlashLoop []) (with_slash_depth (S n) p2) = ROk vs q).
{ destruct Hvs as [[-> ->]|(Hsv & _ & Hb)].
- apply moves_nil_inv in Mv as ->. destruct fuel as [|fuel]; [simpl in *; lia|]. rewrite run_S. unfold body, slash_loop, kind_now, mbind, P_bind. by rewrite Hpeek1.
- apply (Hb []); [done|done|done|done|]. unfold need. cbn [weight]. change (rest (with_slash_depth (S n) p2)) with (rest p2). lia. }
rewrite (bind_ok _ _ _ _ _ Hval), (bind_ok _ _ _ _ _ Hexp1), (bind_ok _ _ _ _ _ Hexp2). subst q2. cbn. f_equal. destruct M'' as [_ ->]. by destruct p2.
Qed.
End Complete.

(** Every part of the grammar is read by its parser. *)
Lemma spells_reads sv d :
  (forall e ts, spells sv d e ts -> reads sv d e ts) /\ (forall c e ts, spells_tail sv d c e ts -> tails sv d c e ts) /\
  (forall e ts, spells_arm sv d e ts -> arms sv d e ts) /\ (forall s ts, spells_spec sv d s ts -> specs sv d s ts) /\
  (forall vs ts, spells_values0 sv d vs ts -> values0 sv d vs ts) /\
  (forall vs ts, spells_values sv d vs ts -> brackets sv d vs ts /\ slashes sv d vs ts /\ do_values sv d vs ts) /\
  (forall v ts, spells_value sv d v ts -> yields sv d v ts) /\ (forall v ts, spells_step sv d v ts -> reads_step sv d v ts) /\
  (forall a ts, spells_args sv d a ts -> argues_all sv d a ts) /\ (forall a ts, spells_arg sv d a ts -> argues sv d a ts) /\
  (forall s r ts, spells_range sv d s r ts -> ranges sv d s r ts) /\ (forall o ts, spells_option sv d o ts -> reads_option sv d o ts).
Proof.
  apply (spells_all sv (fun d e ts => reads sv d e ts) (fun d c e ts => tails sv d c e ts) (fun d e ts => arms sv d e ts) (fun d s ts => specs sv d s ts)
    (fun d vs ts => values0 sv d vs ts) (fun d vs ts => brackets sv d vs ts /\ slashes sv d vs ts /\ do_values sv d vs ts) (fun d v ts => yields sv d v ts)
    (fun d v ts => reads_step sv d v ts) (fun d a ts => argues_all sv d a ts) (fun d a ts => argues sv d a ts) (fun d s r ts => ranges sv d s r ts)
    (fun d o ts => reads_option sv d o ts)); clear d; intros.
  - by eapply reads_integer.
  - by eapply reads_real.
  - by eapply reads_string.
  - by eapply reads_kind_string.
  - by eapply reads_logical.
  - by eapply reads_boz.
  - by eapply reads_name.
  - by eapply reads_unary.
  - by eapply reads_paren.
  - by eapply reads_complex.
  - by eapply reads_conditional.
  - by eapply reads_bracket.
  - by eapply reads_slash.
  - by eapply reads_component.
  - by eapply reads_call0.
  - by eapply reads_call.
  - by eapply reads_binary.
  - by eapply tails_end.
  - by eapply tails_chain.
  - by eapply arms_nil.
  - by eapply arms_expr.
  - apply specs_none.
  - by eapply specs_name.
  - by eapply specs_word.
  - by eapply specs_kind.
  - by eapply specs_kind_eq.
  - by left.
  - right. tauto.
  - by eapply values_one.
  - by eapply values_cons.
  - by eapply yields_expr.
  - apply yields_do; tauto.
  - by left.
  - right. naive_solver.
  - by eapply argues_one.
  - by eapply argues_cons.
  - by eapply argues_keyword.
  - by eapply argues_element.
  - by eapply argues_range.
  - by eapply ranges_end.
  - by eapply ranges_stride.
  - by eapply ranges_double.
  - by left.
  - right. eauto.
Qed.

(** The state after an expression. *)
Definition after (p : Parser) (ts : list Token) : Parser := with_pos (pos p + length ts) p.

Lemma spelled_parsed p e ts r :
  lexed (tokens p) -> rest p = ts ++ r -> spells (source_view p) (expr_depth p) e ts -> follow (after p ts) -> parse_expression p = ROk e (after p ts).
Proof.
  intros L E Hsp Hf. destruct (moves_skip p ts r E) as [M _]. destruct (spells_reads (source_view p) (expr_depth p)) as [Hr _].
  unfold parse_expression. eapply (reads_follow (source_view p) (expr_depth p) e ts p); [by apply Hr|done|done|exact M|exact Hf|]. unfold fuel_for, rest. lia.
Qed.

(** C19: the expression parser reads what the grammar writes.  For every tree of the expression grammar (all literals, names,
    component and call chains with positional, keyword and section arguments, unary and binary operators of every
    precedence, parenthesized, complex and conditional expressions, both kinds of array constructors with implied do
    loops and type specifiers) and every spelling of it, nested less deeply than the parser's limit, parsing the
    spelling where an expression may end gives exactly that tree and stops exactly after it. *)
Theorem parser_reads_grammar p e ts r :
  lexed (tokens p) -> rest p = ts ++ r -> spells (source_view p) (expr_depth p) e ts -> follow (after p ts) -> parse_expression p = ROk e (after p ts).
Proof. apply spelled_parsed. Qed.

(** The expression grammar with its binding powers is unambiguous: the same tokens do not spell two trees.  In particular
    the powers decide how every sequence of operators groups. *)
Theorem grammar_unambiguous sv d e e' ts : Forall lexed_token ts -> spells sv d e ts -> spells sv d e' ts -> e = e'.
Proof.
  intros L H H'. set (p := {| tokens := ts ++ [punct TNewline]; pos := 0; expr_depth := d; slash_array_ctor_depth := 0; source_view := sv; fixed_form := false |}).
  assert (Hf : follow (after p ts)).
  { left. rewrite peek_rest. assert (rest (after p ts) = [punct TNewline]) as ->; [|done]. unfold rest, after. cbn. by rewrite drop_app_length. }
  assert (Lp : lexed (tokens p)).
  { split; [by destruct ts|]. apply list.Forall_app. split; [done|]. apply list.Forall_singleton. split; [done|]. intros Hw. exfalso. by vm_compute in Hw; set_solver. }
  assert (E : rest p = ts ++ [punct TNewline]) by done.
  pose proof (spelled_parsed p e ts _ Lp E H Hf) as E1. pose proof (spelled_parsed p e' ts _ Lp E H' Hf) as E2. congruence.
Qed.

(** * Examples *)

Lemma sp_ident sv d s : (d < EXPR_NESTING_LIMIT)%nat -> spells sv d (Name s) [ident s].
Proof. intros H. by apply (sp_name sv d (ident s)). Qed.

(** [a ** b ** -c * d < e .and. .not. f]. *)
Definition sample_operators : list Token :=
  [ident "a"; punct TPower; ident "b"; punct TPower; punct TMinus; ident "c"; punct TStar; ident "d"; punct TLt; ident "e";
   punct (TDotOp "and"); punct (TDotOp "not"); ident "f"].

Definition sample_tree : Expr :=
  BinaryExpr OpAnd
    (BinaryExpr OpLt
      (BinaryExpr OpMul (BinaryExpr OpPow (Name "a") (BinaryExpr OpPow (Name "b") (UnaryExpr UMinus (Name "c")))) (Name "d"))
      (Name "e"))
    (UnaryExpr UNot (Name "f")).

Ltac side := cbv; repeat split; try lia.

Lemma sample_spelled : spells false 0 sample_tree sample_operators.
Proof.
  assert (Hl : forall d, (d < 9)%nat -> (d < EXPR_NESTING_LIMIT)%nat) by (unfold EXPR_NESTING_LIMIT; lia).
  apply (sp_binary false 0 OpAnd _ [ident "a"; punct TPower; ident "b"; punct TPower; punct TMinus; ident "c"; punct TStar; ident "d"; punct TLt; ident "e"]
           (punct (TDotOp "and")) _ [punct (TDotOp "not"); ident "f"]); [| |side| |side]; [|by vm_compute|].
  2: { apply (sp_unary false 1 (punct (TDotOp "not"))); [by apply Hl; lia|by vm_compute|by apply sp_ident, Hl; lia|done]. }
  apply (sp_binary false 0 OpLt _ [ident "a"; punct TPower; ident "b"; punct TPower; punct TMinus; ident "c"; punct TStar; ident "d"] (punct TLt) _ [ident "e"]);
    [|done|side|by apply sp_ident, Hl; lia|side].
  apply (sp_binary false 0 OpMul _ [ident "a"; punct TPower; ident "b"; punct TPower; punct TMinus; ident "c"] (punct TStar) _ [ident "d"]);
    [|done|side|by apply sp_ident, Hl; lia|side].
  apply (sp_binary false 0 OpPow _ [ident "a"] (punct TPower) _ [ident "b"; punct TPower; punct TMinus; ident "c"]); [by apply sp_ident, Hl; lia|done|done| |side].
  apply (sp_binary false 1 OpPow _ [ident "b"] (punct TPower) _ [punct TMinus; ident "c"]); [by apply sp_ident, Hl; lia|done|done| |done].
  apply (sp_unary false 2 (punct TMinus)); [by apply Hl; lia|done|by apply sp_ident, Hl; lia|done].
Qed.

Lemma parser_reads_grammar_witness :
  parse_expression (with_mode (sample_operators ++ [punct TNewline]) false false) = ROk sample_tree (with_pos 13 (with_mode (sample_operators ++ [punct TNewline]) false false)).
Proof.
  apply (parser_reads_grammar (with_mode (sample_operators ++ [punct TNewline]) false false) sample_tree sample_operators [punct TNewline]).
  - apply (bool_decide_unpack _). vm_compute. exact I.
  - reflexivity.
  - apply sample_spelled.
  - left. vm_compute. reflexivity.
Defined.

Lemma grammar_unambiguous_witness : sample_tree = sample_tree.
Proof.
  apply (grammar_unambiguous false 0 sample_tree sample_tree sample_operators); [|apply sample_spelled|apply sample_spelled].
  apply (bool_decide_unpack _). vm_compute. exact I.
Defined.

(** A complex constant of a repeated name as the only argument is read as two arguments. *)
Example complex_argument_split :
  parse_expression (with_mode [ident "abs"; punct TLParen; punct TLParen; ident "x"; punct TComma; ident "x"; punct TRParen; punct TRParen; punct TNewline] false false) =
  ROk (FunctionCall (Name "abs") [mkArgument None (Element (Name "x")); mkArgument None (Element (Name "x"))])
      (with_pos 8 (with_mode [ident "abs"; punct TLParen; punct TLParen; ident "x"; punct TComma; ident "x"; punct TRParen; punct TRParen; punct TNewline] false false)).
Proof. vm_compute. reflexivity. Qed.

(** A negated product is the product of a negation. *)
Example unary_minus_binds_tighter :
  parse_expression (with_mode [punct TMinus; ident "a"; punct TStar; ident "b"; punct TNewline] false false) =
  ROk (BinaryExpr OpMul (UnaryExpr UMinus (Name "a")) (Name "b")) (with_pos 4 (with_mode [punct TMinus; ident "a"; punct TStar; ident "b"; punct TNewline] false false)).
Proof. vm_compute. reflexivity. Qed.
